(* ===== verification/_CoqProject ===== *)
-Q . S2P
Prelude.v
Sorting.v
Float32.v
Merger.v
Text.v
Packer.v
Crc32.v
Wal.v
Storage.v
Hex.v
Keys.v
IdMapping.v
Float64.v
Scores.v
Fusion.v
Lexical.v
Filter.v
Tags.v
TagIndex.v
Knowledge.v
MemoryContracts.v
Compiler.v
CompilerProps.v
LedgerModel.v
Ledger.v
LedgerProps.v
LedgerExample.v
LedgerGrants.v
LedgerState.v
LedgerSteps.v
LedgerRuns.v
LedgerViews.v
LedgerReads.v
Recall.v
Deletion.v
DeletionExample.v
DeletionPlans.v
DeletionProps.v
DeletionRuns.v
Jobs.v
JobProps.v
JobRuns.v
ServingState.v
ServingProps.v
ServingRuns.v
Snapshot.v
Rebuild.v
Checkpoint.v
Router.v
Consistency.v
CircuitBreaker.v
Governor.v
Tombstone.v
VectorIndex.v
RebuildManager.v
Lifecycle.v
GraphModel.v
Graph.v
GraphWf.v
GraphMutations.v
GraphQuery.v
GraphProps.v
Service.v
ServiceProps.v
