(* ===== verification/Prelude.v ===== *)
(** * AkiDB: a verification development

    AkiDB is a distributed vector database written in Rust. The code lives in
    [src/crates/]; this development models the parts that carry its own logic
    (durability, identity, routing, merging, admission, lifecycle) as executable
    definitions and proves what makes each of them correct.

    ** The program and how its parts interact

    A client's write reaches a shard, which appends it to the write-ahead log
    ([crates/storage/src/wal.rs]), gives the external id an internal index id and
    stores payload and text ([crates/storage/src/id_mapping.rs]) through a
    key-value interface ([crates/storage/src/backend.rs], implemented over
    RocksDB). A deletion sets a bit in the index's tombstone bitset
    ([crates/faiss-wrapper/src/tombstone.rs]). Snapshots are long operations whose
    state is kept in the same key-value store
    ([crates/storage/src/snapshot/state_machine.rs]). The coordinator routes ids
    to shards by consistent hashing ([crates/coordinator/src/router.rs]), merges
    the shards' answers ([merger.rs]) and tracks recent writes so that their
    author reads them ([consistency.rs]). The retrieval layer packs ranked
    passages into a token budget ([crates/retrieval/src/packer.rs]) and expands them
    along a property graph kept in the key-value store ([crates/graph/src]). Background
    work asks the resource governor for admission
    ([crates/common/src/scheduler/governor.rs]); the ingestion pipeline guards its
    Python parser with a circuit breaker
    ([crates/ingestion-orchestrator/src/circuit_breaker.rs]); the sync of a source
    bucket moves documents towards deletion
    ([crates/common/src/types/lifecycle.rs]). The gRPC service
    ([crates/grpc-server/src/service.rs]) ties these together for a shard: a request
    is checked against the caller's workspace ([acl.rs], [filter.rs]), the vector goes
    to the index ([crates/faiss-wrapper/src]) and, in one synced batch, to the id
    mapping, and its text to the lexical index ([crates/retrieval/src/lexical.rs]).
    An index is rebuilt in the background next to the one that serves
    ([crates/faiss-wrapper/src/rebuild]). Tags are indexed by bitmaps in the
    key-value store ([crates/storage/src/tag_index.rs]). Ranked lists are fused
    ([crates/retrieval/src/fusion.rs]). A replica of published knowledge keeps a
    durable record of the generation it serves and of the one it prepares
    ([crates/storage/src/serving_state.rs], contracts in [crates/contracts/src]).
    The memory of agents is a canonical ledger in the same key-value store
    ([crates/storage/src/memory.rs], contracts in [crates/contracts/src/memory.rs]):
    observations and versions of assertions are committed under a signed access
    proof, numbered per workspace, and handed in that order to projections. A compiler
    ([crates/contracts/src/memory_compiler.rs]) turns observations into proposals, which
    the ledger takes from no compiler unchecked; the ledger keeps the queue of its
    jobs, which workers claim under leases.

    ** The files

    - [Prelude]: [Result] and the error type of [crates/common/src/error.rs] with
      its classifiers, machine-integer helpers, total comparators, list lemmas,
      tactics and the hint database.
    - [Sorting]: Rust's stable [sort_by], first-occurrence deduplication and
      truncation, with uniqueness of the sorted permutation and top-k lemmas.
    - [Float32], [Float64]: [f32] as its bit pattern with IEEE comparison, [f64] as
      the standard library's [spec_float] at precision 53.
    - [Text]: text as a list of scalar values, ASCII literals, FNV-1a hashing.
    - [Scores], [Fusion] ([fusion.rs]), [Lexical] ([lexical.rs]): scored ids and
      their order, reciprocal rank and weighted fusion, tokens and the BM25 index
      with its postings, both against a specification of the best k.
    - [Filter] ([filter.rs], [acl.rs]): JSON values, the legacy and the typed filter,
      the workspace stamped on writes and added to reads.
    - [Hex]; [Tags] ([common/src/types/tag.rs]) and [TagIndex] ([tag_index.rs]): tag
      values, their sortable encoding, bitmaps per tag and value, queries.
    - [Knowledge] ([contracts/src/knowledge.rs]), [ServingState]
      ([serving_state.rs]): manifests, mutations and checkpoints; each operation is
      its decision followed by one batch. [ServingProps], [ServingRuns]: the
      invariant and what holds over all runs.
    - [Keys]: length-prefixed storage keys, shared by the serving state and the
      ledger.
    - [MemoryContracts] ([contracts/src/memory.rs]): the records of the memory plane
      and their validation. [LedgerModel] and [Ledger] ([storage/src/memory.rs]): the
      requests, grants, proofs, keys and the firewall; then the operations, each its
      plan (checks, records, receipt) followed by one synced batch. [LedgerProps]:
      the keys as an inductive type with an injective encoding, and what each commit
      writes. [LedgerState]: the abstract reading of a store (sequence, heads, states,
      owners) and its invariant. [LedgerSteps]: every plan preserves it. [LedgerRuns],
      [LedgerViews], [LedgerReads], [LedgerGrants]: what holds over all runs, of
      projections, of reads in time and of grants. [LedgerExample]: a concrete ledger
      on which the theorems are evaluated.
    - [Recall] and [Deletion] (the same file): retained recall snapshots, reads of one
      head and one mutation; planned deletion, whose closing loop has one turn per
      version and one more. [DeletionPlans]: a plan lists the least closed set its
      selector reaches. [DeletionProps]: the batch of an execution, by the kinds of its
      operations. [DeletionRuns]: what holds after an execution and of the calls that
      follow. [DeletionExample]: a workspace with a deletion that is run.
    - [Compiler] ([memory_compiler.rs]): compiler jobs, inputs and plans with their
      validation, the reference compiler, the conformance check of any compiler as a
      record of operations. [CompilerProps]: its theorems and a concrete input.
    - [Jobs] ([storage/src/memory.rs]): the queue of compiler jobs. [JobProps]: the
      abstract lease machine, the keys of the queue, its invariant and the batches that
      keep it. [JobRuns]: what holds over all runs, also interleaved with the calls of
      the ledger on the same store, and a concrete queue.
    - [Rebuild] ([persistent_state.rs]), [Checkpoint] ([checkpoint.rs]),
      [VectorIndex] ([index.rs], [mock.rs]), [RebuildManager] ([manager.rs],
      [typestate.rs]): the record of a rebuild, its checkpoints and the wait for it,
      the trait of an index with its laws, and dual writes, swap and abort.
    - [Service] ([service.rs]): the handlers of insert, batch insert, update, delete
      and get, over classes for the index, the store and the projections.
      [ServiceProps]: their theorems, and a concrete service.
    - [Merger] ([merger.rs]): a heap of at most k results, the set of seen ids and
      the compaction that forgets ids; [merge_results] is the whole merge.
    - [Packer] ([packer.rs]): token estimate, rendering with citations, greedy
      packing, the citation document.
    - [Crc32] and [Wal] ([wal.rs]): the checksum, the frames (magic, length, CRC,
      payload), the resynchronising reader, the buffered writer over files that
      keep apart what is written and what is synced, [append_*], [flush],
      [truncate] through a temporary file with every instant of it, crashes that
      lose what is not synced, and opening a log.
    - [Storage] ([backend.rs]): class [RocksDB] for the external store with
      [RocksDBLaws]; class [StorageBackend] for the trait with [StorageLaws] for
      what its clients rely on; the [rocks_*] operations are the implementation,
      shown to satisfy the laws; [MemDB] is a concrete store for evaluation.
    - [IdMapping] ([id_mapping.rs]): client of [StorageBackend] only; allocation,
      upsert, delete, batch loading, source texts, counters.
    - [Snapshot] ([state_machine.rs]): states, transitions, retry schedule,
      listing, cleanup and recovery, also a client of [StorageBackend] only.
    - [Router] ([router.rs]): the ring as a finite map from hash to shard, routing,
      batch grouping, fan-out selection, probe claims and health updates.
    - [Consistency] ([consistency.rs]): the map of recent writes, its expiry and
      its eviction.
    - [CircuitBreaker] ([circuit_breaker.rs], and the guard of [pipeline.rs]): one
      step per atomic access, so a concurrent run is a schedule of thread steps.
    - [Governor] ([governor.rs], [task.rs]): admission of background tasks.
    - [Tombstone] ([tombstone.rs]): the bytes and the count of the bitset.
    - [Lifecycle] ([lifecycle.rs]): the manifest entry and its deletion states.
    - [GraphModel] ([crates/graph/src/model.rs], [keys.rs]): ids with their
      workspace, kinds, records, mutation batches and storage keys. [Graph]
      ([native.rs], [query.rs]): the mutations, neighbour queries, related chunks,
      the path search and the traced expansion. [GraphWf]: the invariant that ties
      the secondary keys to the records. [GraphMutations], [GraphQuery],
      [GraphProps]: what the mutations and the queries do, and concrete graphs.

    State is a record with the fields of the Rust struct, an operation returns the
    new state (and a [result] where the code returns [Result]), and a clock
    reading is an argument of the operation that takes it. An operation that holds
    a lock from its first read to its last write is one step.

    ** What the theorems show

    - Durability ([Wal]): after a crash at any instant of a truncation, which may
      lose whatever was not synced, a restart recovers a prefix of the records above
      the truncation point that holds every durable one; an insertion acknowledged
      under the mode that syncs each append is read back after any crash; a
      torn last record and a damaged payload cost only themselves; the reader
      terminates; the records in the file have increasing LSNs through appends,
      truncations and restarts. The table-driven
      checksum equals the bitwise one ([Crc32]).
    - Identity ([IdMapping]): a deleted id is never given out again, an upsert is
      visible with exactly its payload, loading returns exactly the live vectors,
      the key families do not overlap. [Storage] shows that the RocksDB
      implementation of a prefix scan is exact and that the optimised range scan
      agrees with the trait's default.
    - Merging ([Merger]): the merge refines "the k best of the deduplicated
      results" when no compaction happens; soundness and ordering hold always.
    - Routing ([Router]): adding a shard moves ids only to that shard; a fan-out
      accounts for every shard; two fan-outs do not probe the same sick shard.
    - Sessions ([Consistency]): within the time-to-live and the capacity, a read
      is routed to the shard that took the write.
    - State machines: recovery selects exactly the snapshots in progress or due
      for a retry, and
      cleanup exactly the expired ones ([Snapshot]); undisturbed calls of the
      breaker follow its case analysis, and the threshold of failures in a row opens
      it so that calls are refused until the timeout ([CircuitBreaker]); running tasks
      stay within their budgets ([Governor]); an entry is tombstoned exactly after
      the threshold of consecutive misses ([Lifecycle]); the bitset refines a set
      of ids ([Tombstone]).
    - Graph: the adjacency and kind listings mirror the stored records through any
      mutations and write failures, and a chunk link points at stored ones (an edge
      in parallel to another may lose its link); batches and node deletions have
      exactly the effect they describe; neighbour queries are sound, ordered and
      complete up to their limits; the path search decides bounded reachability;
      every traced chunk has a trail of stored edges.
    - Service ([Filter], [ServiceProps]): a vector stamped by one workspace passes
      the filters and guards of no other; requests of other workspaces leave
      its stored vectors, its index, its lexical index and its texts in memory
      untouched, also when the storage fails; with a store and an index that do not
      fail, index, lexical index and texts in memory agree with the store after any
      requests. The index may keep a vector with a loss, as the half-precision one does.
    - Retrieval ([Fusion], [Lexical]): fused and lexical results are exactly the best
      k by their score formula.
    - Tags ([TagIndex]): queries with conditions on scalar values, of finite numbers,
      return exactly the documents whose tags satisfy them as documented; the keys sort
      as the numbers do. What the code does with lists and zeros is stated beside it.
    - Knowledge replicas ([ServingRuns]): through any transitions and failed writes
      the active generation is complete when the revisions name each mutation once,
      a mutation is recorded once, a rollback restores.
    - Memory ledger ([LedgerRuns], [LedgerViews], [LedgerReads], [LedgerGrants]):
      through any calls and failed writes the ledger of a workspace is numbered
      without gaps, a head lists exactly the active versions of its assertion, a
      version moves only as its lifecycle allows and is superseded only by one of at
      least its authority, a writer that does not expect the current heads is refused, a
      retried commit gets its first receipt, a call reaches only the workspace of its
      proof, projections are given the outbox in order, a visibility receipt means
      that they were, a read as of a sequence is repeatable, and the bytes that are
      signed determine the grant. The calls are those of clients and projections;
      planned deletion, which erases what these only add, has its own theorems.
    - Planned deletion ([DeletionPlans], [DeletionRuns]): a plan lists exactly what its
      selector reaches through derivations; a committed execution erases what the plan
      lists, leaves a tombstone of each target and touches nothing else, and whatever
      follows, nothing of the selected source or data subject is written again.
    - Memory compiler ([CompilerProps]): what any compiler answers is confined to the
      observations and heads of its input once it passes conformance; the reference
      compiler answers every valid input, passes, and does not depend on the order of
      its input.
    - Job queue ([JobRuns]): through any calls and failed writes every job follows the
      lease machine, a lease is exclusive until it ends, a claim takes the first job
      that is due, attempts are bounded and each that failed has its record.
    - Rebuilds ([RebuildManager], [Checkpoint], [Rebuild]): writes acknowledged
      between the steps of a rebuild survive the swap, while one that is interleaved
      with the swap may be lost; the typestate follows its protocol, a checkpoint is
      replaced atomically, waiting ends.
    - Packing ([Packer]): the budget is never exceeded and every packed passage
      carries its citation.
    - Defects: theorems named for what goes wrong ([merge_loses_distinct_id],
      [lsn_reused_after_truncate], [damaged_length_hides_records],
      [reset_forgets_retries], [open_pipeline_never_recovers],
      [half_open_admits_too_many], [parallel_edge_loses_link],
      [failed_generation_blocks_scope], [restaged_generation_stuck],
      [repeated_id_corrupts_markers], [huge_k_forgets_ranks], [failed_write_hides_vector],
      [append_after_torn_tail_lost], [rename_undone_loses_insert],
      [swap_between_loses_insert], [deletion_hides_its_mutation],
      [second_deletion_breaks_retry]) exhibit behaviours the code's comments or
      contracts exclude.

    ** Parameters, bounds and fuel

    Code outside the repository is a parameter with its documented laws: bincode
    and serde_json (decoding an encoded value returns it), RocksDB
    ([RocksDBLaws]), the iteration order of hash maps and heaps, the moment a
    [BufWriter] empties itself, the readings of the metrics source, fresh
    operation ids, roaring bitmaps, the character tables and the logarithm, the URL
    parser, SHA-256, HMAC, Unicode normalisation. The identifiers the ledger draws
    ([Uuid::now_v7]) are an argument of a call; the theorems on runs ask that no two calls
    draw the same version identifier. That the reference compiler answers is shown for
    inputs among whose candidates and relations SHA-256 does not collide ([no_collisions]). Of serde_json the graph assumes only that ids, kinds, ends and
    finite weights survive, not the numbers inside property values. Each is instantiated by a concrete function where a theorem is
    evaluated. [usize] is 64 bits wide. The log reader runs with one turn per byte
    of the file, since every turn consumes a byte ([reader_terminates]); an
    undisturbed call of the breaker needs at most six atomic accesses; UTF-8
    decoding runs with the length of its input; a graph traversal needs at most one
    turn per stored key and one more, since it queues a node once; waiting for a
    checkpoint polls sixty times, as the code does. The prefix scan and the claim of a job keep the code's
    limit of 100000 entries.

    ** What is not modelled

    I/O failures of the log and of RocksDB (a storage operation that fails returns
    its error, and the theorems that need success assume a reliable store), the
    FAISS and HNSW indices behind their wrappers, similarity search, the
    asynchronous servers, the transport, the command line and terminal interfaces,
    the benchmarks. Of the memory ledger: the history and export listings.

    The parts to add next, in order: the rest of the memory ledger, authorization and
    admission ([crates/grpc-server/src]), the coordinator's batches, back-pressure, workflow and compaction, the ingestion job
    state, retrieval planning and reranking, the files of generations. *)

From stdpp Require Export base list gmap strings sorting pretty.
From Stdlib Require Export ZArith Lia.
From Stdlib Require Import Ascii.

#[global] Open Scope Z_scope.

(** ** Results

    Rust's [Result<T, E>]. *)

Inductive result (E A : Type) : Type :=
| Ok (a : A)
| Err (e : E).
Arguments Ok {E A} a.
Arguments Err {E A} e.

Definition result_bind {E A B} (r : result E A) (k : A → result E B) : result E B :=
  match r with Ok a => k a | Err e => Err e end.

Definition is_ok {E A} (r : result E A) : bool :=
  match r with Ok _ => true | Err _ => false end.

Declare Scope akidb_scope.
Delimit Scope akidb_scope with akidb.
Notation "'let?' x ':=' e 'in' k" := (result_bind e (λ x, k))
  (at level 10, x pattern, e at level 100, k at level 200) : akidb_scope.
#[global] Open Scope akidb_scope.

(** The error type of [crates/common/src/error.rs]. A message keeps the
    literal part of its format string and drops the interpolated values. *)
Inductive AkiDbError :=
| VectorNotFound (id : string)
| VectorAlreadyExists (id : string)
| VectorAlreadyDeleted (id : string)
| DimensionMismatch (expected actual : Z)
| IdReuseForbidden (id : string)
| IndexError (msg : string)
| IndexNotReady
| RebuildInProgress
| StorageError (msg : string)
| SerializationError (msg : string)
| GpuError (msg : string)
| GpuOutOfMemory
| GpuUnavailable
| ShardUnavailable (msg : string)
| CoordinatorError (msg : string)
| Timeout (ms : Z)
| ConfigError (msg : string)
| InvalidParameter (msg : string)
| Internal (msg : string)
| Io (msg : string).

Abbreviation Result A := (result AkiDbError A).

Definition is_retriable (e : AkiDbError) : bool :=
  match e with
  | ShardUnavailable _ | Timeout _ | GpuUnavailable | RebuildInProgress => true
  | _ => false
  end.

Definition is_not_found (e : AkiDbError) : bool :=
  match e with VectorNotFound _ => true | _ => false end.

(** ** Machine integers

    A [w]-bit unsigned integer is a [Z]; the width shows in the bound each
    operation uses. [usize] is 64 bits wide: the supported targets are Apple
    Silicon and AMD64. *)

Definition u8_max : Z := 2 ^ 8 - 1.
Definition u32_max : Z := 2 ^ 32 - 1.
Definition u64_max : Z := 2 ^ 64 - 1.
Definition u128_max : Z := 2 ^ 128 - 1.
Definition usize_max : Z := u64_max.
Definition i64_max : Z := 2 ^ 63 - 1.

Definition in_range (max x : Z) : Prop := 0 ≤ x ≤ max.
Abbreviation is_u8 := (in_range u8_max).
Abbreviation is_u32 := (in_range u32_max).
Abbreviation is_u64 := (in_range u64_max).
Abbreviation is_usize := (in_range usize_max).

Definition saturating_add (max a b : Z) : Z := Z.min (a + b) max.
Definition saturating_sub (a b : Z) : Z := Z.max 0 (a - b).
Definition saturating_mul (max a b : Z) : Z := Z.min (a * b) max.
Definition checked_add (max a b : Z) : option Z :=
  if a + b <=? max then Some (a + b) else None.
Definition checked_div (a b : Z) : option Z :=
  if b =? 0 then None else Some (a / b).
Definition wrapping (max x : Z) : Z := x mod (max + 1).
Definition div_ceil (a b : Z) : Z := (a + b - 1) / b.
Definition clamp (x lo hi : Z) : Z := Z.min (Z.max x lo) hi.

Create HintDb akidb.
Create HintDb akidb_unfold.

Ltac unfold_int :=
  unfold in_range, saturating_add, saturating_sub, saturating_mul, checked_add,
    checked_div, clamp, usize_max, u8_max, u32_max, u64_max, u128_max, i64_max in *.

(** [int_lia] closes a goal about saturating arithmetic. *)
Ltac int_lia := unfold_int; lia.

(** [bool_cases] destructs the [Z] comparisons a goal branches on, with their
    reflection. *)
Ltac bool_cases :=
  repeat match goal with
  | |- context [if ?a <=? ?b then _ else _] => destruct (Z.leb_spec a b)
  | |- context [if ?a <? ?b then _ else _] => destruct (Z.ltb_spec a b)
  | |- context [if ?a >=? ?b then _ else _] => rewrite (Z.geb_leb a b)
  | |- context [if ?a >? ?b then _ else _] => rewrite (Z.gtb_ltb a b)
  | |- context [if ?a =? ?b then _ else _] => destruct (Z.eqb_spec a b)
  end.

(** The same, in the hypotheses. *)
Ltac bool_cases_in H :=
  repeat match type of H with
  | context [if ?a <=? ?b then _ else _] => destruct (Z.leb_spec a b)
  | context [if ?a <? ?b then _ else _] => destruct (Z.ltb_spec a b)
  | context [if ?a >=? ?b then _ else _] => rewrite (Z.geb_leb a b) in H
  | context [if ?a >? ?b then _ else _] => rewrite (Z.gtb_ltb a b) in H
  | context [if ?a =? ?b then _ else _] => destruct (Z.eqb_spec a b)
  end.

(** Turns every boolean comparison among the hypotheses into a proposition. *)
Ltac reflect_bools :=
  repeat match goal with
  | H : (_ <=? _) = true |- _ => apply Z.leb_le in H
  | H : (_ <=? _) = false |- _ => apply Z.leb_gt in H
  | H : (_ <? _) = true |- _ => apply Z.ltb_lt in H
  | H : (_ <? _) = false |- _ => apply Z.ltb_ge in H
  | H : (_ =? _) = true |- _ => apply Z.eqb_eq in H
  | H : (_ =? _) = false |- _ => apply Z.eqb_neq in H
  | H : (_ >=? _) = _ |- _ => rewrite Z.geb_leb in H
  | H : (_ >? _) = _ |- _ => rewrite Z.gtb_ltb in H
  | H : _ && _ = true |- _ => apply andb_true_iff in H as [? ?]
  | H : _ || _ = false |- _ => apply orb_false_iff in H as [? ?]
  | H : negb _ = true |- _ => apply negb_true_iff in H
  | H : negb _ = false |- _ => apply negb_false_iff in H
  end.

Lemma saturating_add_range max a b :
  in_range max a → in_range max b → in_range max (saturating_add max a b).
Proof. int_lia. Qed.

Lemma saturating_add_mono max a b : 0 ≤ b → a ≤ max → a ≤ saturating_add max a b.
Proof. int_lia. Qed.

Lemma saturating_sub_range max a b :
  in_range max a → 0 ≤ b → in_range max (saturating_sub a b).
Proof. int_lia. Qed.

Lemma wrapping_range max x : 0 ≤ max → in_range max (wrapping max x).
Proof.
  intros. unfold in_range, wrapping.
  pose proof (Z.mod_pos_bound x (max + 1)). lia.
Qed.

Lemma wrapping_id max x : in_range max x → wrapping max x = x.
Proof. intros [??]. unfold wrapping. apply Z.mod_small. lia. Qed.

Lemma checked_add_Some max a b c :
  checked_add max a b = Some c ↔ c = a + b ∧ a + b ≤ max.
Proof. unfold checked_add. bool_cases; naive_solver lia. Qed.

#[export] Hint Resolve saturating_add_range saturating_add_mono
  saturating_sub_range wrapping_range : akidb.

(** Iteration over the lengths of Rust vectors. *)
Abbreviation Zlength l := (Z.of_nat (length l)).

Lemma NoDup_fmap_elem_inj {A B} (f : A → B) (l : list A) x y :
  NoDup (f <$> l) → x ∈ l → y ∈ l → f x = f y → x = y.
Proof.
  induction l as [|z l IH]; simpl; [by intros ? ?%elem_of_nil|].
  intros [Hz Hnd]%NoDup_cons [->|Hx]%elem_of_cons [->|Hy]%elem_of_cons E; auto.
  - destruct Hz. rewrite E. by apply list_elem_of_fmap_2.
  - destruct Hz. rewrite <-E. by apply list_elem_of_fmap_2.
Qed.

Lemma filter_all {A} (P : A → Prop) `{!∀ x, Decision (P x)} (l : list A) :
  (∀ x, x ∈ l → P x) → filter P l = l.
Proof.
  induction l as [|x l IH]; intros HP; [done|].
  rewrite filter_cons_True by (apply HP; set_solver). f_equal. apply IH. set_solver.
Qed.

(** ** Sequencing

    [?] and [collect] on results. *)

Lemma bind_ok {E A B} (r : result E A) (k : A → result E B) b :
  result_bind r k = Ok b ↔ ∃ a, r = Ok a ∧ k a = Ok b.
Proof. destruct r; naive_solver. Qed.

(** Inverts a chain of [let?] that succeeded, and the conditions on its way. *)
Ltac binds H :=
  repeat match type of H with
         | result_bind _ _ = Ok _ =>
             let x := fresh "x" in let E := fresh "E" in
             apply bind_ok in H as (x & E & H)
         | (if decide ?P then Err _ else _) = Ok _ =>
             let E := fresh "E" in destruct (decide P) as [|E]; [discriminate H|]
         | (if ?c then Err _ else _) = Ok _ =>
             let E := fresh "E" in destruct c eqn:E; [discriminate H|]
         end;
  repeat match goal with x : unit |- _ => destruct x end.

(** [iter.map(f).collect::<Result<Vec<_>, _>>()]. *)
Fixpoint collect {E A B} (f : A → result E B) (l : list A) : result E (list B) :=
  match l with
  | [] => Ok []
  | x :: l => let? y := f x in let? ys := collect f l in Ok (y :: ys)
  end.

Lemma collect_cons {E A B} (f : A → result E B) x l ys :
  collect f (x :: l) = Ok ys → ∃ y ys', f x = Ok y ∧ collect f l = Ok ys' ∧ ys = y :: ys'.
Proof.
  simpl. rewrite bind_ok. intros (y & Hy & (ys' & ? & [= <-])%bind_ok). eauto.
Qed.

Lemma collect_Forall2 {E A B} (f : A → result E B) l ys :
  collect f l = Ok ys → Forall2 (λ x y, f x = Ok y) l ys.
Proof.
  revert ys. induction l as [|x l IH]; intros ys H; [by injection H as <-|].
  apply collect_cons in H as (y & ys' & ? & ? & ->). constructor; auto.
Qed.

Lemma collect_total {E A B} (f : A → result E B) l :
  (∀ x, x ∈ l → is_ok (f x) = true) → ∃ ys, collect f l = Ok ys.
Proof.
  induction l as [|x l IH]; intros H; [by eexists|]. simpl.
  specialize (H x) as Hx. destruct (f x) as [y|]; [|exfalso; discriminate Hx; set_solver].
  destruct IH as [ys Hys]; [set_solver|]. simpl. rewrite Hys. by eexists.
Qed.

(** ** Orderings

    [std::cmp::Ordering] is [comparison]. *)

Definition then_with (c d : comparison) : comparison :=
  match c with Eq => d | _ => c end.

(** A comparator in the sense of [sort_by]: a total preorder. *)
Class TotalCmp {A} (cmp : A → A → comparison) : Prop := {
  cmp_antisym : ∀ x y, cmp y x = CompOpp (cmp x y);
  cmp_trans : ∀ x y z, cmp x y ≠ Gt → cmp y z ≠ Gt → cmp x z ≠ Gt;
}.

Arguments cmp_antisym {A} cmp {_} x y.
Arguments cmp_trans {A} cmp {_} x y z.

Definition cmp_le {A} (cmp : A → A → comparison) (x y : A) : Prop := cmp x y ≠ Gt.

(** [bytes_cmp] is the order of [str] and of [[u8]]: lexicographic on bytes. *)
Definition bytes_cmp (s t : string) : comparison := String.compare s t.

Definition str_ltb (s t : string) : bool :=
  match bytes_cmp s t with Lt => true | _ => false end.
