(* ===== verification/Sorting.v ===== *)
(** * Sorting, deduplication and top-k selection

    The standard-library pieces the retrieval and coordination code leans on:
    [slice::sort_by] (a stable sort by a comparator), [Vec::retain] with a
    [HashSet] of seen keys, and [Vec::truncate]. The lemmas here are shared by
    the merger, the router, the write tracker and the snapshot listing. *)

From S2P Require Import Prelude.

(** ** Comparators *)

Section total_cmp.
Context {A : Type} (cmp : A → A → comparison) `{!TotalCmp cmp}.

Lemma cmp_refl x : cmp x x = Eq.
Proof. pose proof (cmp_antisym cmp x x). by destruct (cmp x x). Qed.

Lemma cmp_Gt_Lt x y : cmp x y = Gt ↔ cmp y x = Lt.
Proof. rewrite (cmp_antisym cmp x y). by destruct (cmp x y). Qed.

Lemma cmp_le_total x y : cmp_le cmp x y ∨ cmp_le cmp y x.
Proof. unfold cmp_le. rewrite (cmp_antisym cmp x y). destruct (cmp x y); auto. Qed.

Lemma cmp_le_antisym x y : cmp_le cmp x y → cmp_le cmp y x → cmp x y = Eq.
Proof. unfold cmp_le. rewrite (cmp_antisym cmp x y). by destruct (cmp x y). Qed.

#[global] Instance cmp_le_refl : Reflexive (cmp_le cmp).
Proof. intros x. unfold cmp_le. by rewrite cmp_refl. Qed.

#[global] Instance cmp_le_trans : Transitive (cmp_le cmp).
Proof. intros x y z. apply (cmp_trans cmp). Qed.

Lemma cmp_Lt_le x y : cmp x y = Lt → cmp_le cmp x y.
Proof. by unfold cmp_le; intros ->. Qed.

Lemma cmp_Lt_le_trans x y z : cmp x y = Lt → cmp_le cmp y z → cmp x z = Lt.
Proof.
  intros Hxy Hyz. destruct (cmp x z) eqn:Hxz; [exfalso | done | exfalso].
  - assert (cmp_le cmp y x) as Hyx.
    { etrans; [exact Hyz|]. unfold cmp_le. by rewrite (cmp_antisym cmp x z), Hxz. }
    apply Hyx. by apply cmp_Gt_Lt.
  - by apply (cmp_trans cmp x y z); [rewrite Hxy | |].
Qed.

Lemma cmp_Eq_trans x y z : cmp x y = Eq → cmp y z = Eq → cmp x z = Eq.
Proof.
  intros Hxy Hyz. apply cmp_le_antisym.
  - apply (cmp_trans cmp) with y; by rewrite ?Hxy, ?Hyz.
  - apply (cmp_trans cmp) with y; rewrite (cmp_antisym cmp _ _); by rewrite ?Hxy, ?Hyz.
Qed.

Lemma cmp_le_Lt_trans x y z : cmp_le cmp x y → cmp y z = Lt → cmp x z = Lt.
Proof.
  intros Hxy Hyz. destruct (cmp x y) eqn:E; [|by eapply cmp_Lt_le_trans, cmp_Lt_le|done].
  destruct (cmp x z) eqn:Hxz; [exfalso | done | exfalso].
  - assert (cmp y z = Eq); [|congruence].
    apply cmp_Eq_trans with x; [|done]. by rewrite (cmp_antisym cmp x y), E.
  - by apply (cmp_trans cmp x y z); [rewrite E| rewrite Hyz|].
Qed.
End total_cmp.

#[export] Instance TotalCmp_on {A B} (f : A → B) cmp :
  TotalCmp cmp → TotalCmp (λ x y, cmp (f x) (f y)).
Proof.
  intros H. constructor; intros; [apply (cmp_antisym cmp) | by eapply (cmp_trans cmp)].
Qed.

#[export] Instance TotalCmp_then {A} (c d : A → A → comparison) :
  TotalCmp c → TotalCmp d → TotalCmp (λ x y, then_with (c x y) (d x y)).
Proof.
  intros Hc Hd. constructor.
  - intros x y. rewrite (cmp_antisym c x y), (cmp_antisym d x y).
    by destruct (c x y).
  - intros x y z Hxy Hyz.
    assert (cmp_le c x y) as Lxy by (unfold cmp_le; by destruct (c x y)).
    assert (cmp_le c y z) as Lyz by (unfold cmp_le; by destruct (c y z)).
    destruct (c x y) eqn:Exy; [|by rewrite (cmp_Lt_le_trans c x y z)|done].
    destruct (c y z) eqn:Eyz; [|by rewrite (cmp_le_Lt_trans c x y z)|done].
    rewrite (cmp_Eq_trans c x y z) by done. simpl in *. by eapply (cmp_trans d).
Qed.

#[export] Instance TotalCmp_flip {A} (c : A → A → comparison) :
  TotalCmp c → TotalCmp (λ x y, c y x).
Proof.
  intros H. constructor; intros; [apply (cmp_antisym c) | by eapply (cmp_trans c)].
Qed.

#[export] Instance TotalCmp_Z : TotalCmp Z.compare.
Proof.
  constructor; [intros; apply Z.compare_antisym|].
  intros x y z. rewrite !Z.compare_ngt_iff. lia.
Qed.

#[export] Instance TotalCmp_bytes : TotalCmp bytes_cmp.
Proof.
  constructor.
  - intros x y. apply String.compare_antisym.
  - intros x y z. unfold bytes_cmp.
    assert (∀ s t, String.compare s t ≠ Gt ↔ (s ≤ t)%string) as E.
    { intros s t. unfold String.le, String.leb. by destruct (String.compare s t). }
    rewrite !E. apply transitivity.
Qed.

Lemma bytes_cmp_Eq s t : bytes_cmp s t = Eq ↔ s = t.
Proof.
  split; [apply String.compare_eq_iff|]. intros ->. apply (cmp_refl bytes_cmp).
Qed.

(** ** [sort_by] *)

Section sort_by.
Context {A : Type} (cmp : A → A → comparison).

Fixpoint insert_by (x : A) (l : list A) : list A :=
  match l with
  | [] => [x]
  | y :: l' =>
      match cmp x y with
      | Gt => y :: insert_by x l'
      | _ => x :: l
      end
  end.

Definition sort_by (l : list A) : list A := foldr insert_by [] l.

Lemma insert_by_perm x l : insert_by x l ≡ₚ x :: l.
Proof.
  induction l as [|y l IH]; simpl; [done|].
  destruct (cmp x y); [done..|]. rewrite IH. apply Permutation_swap.
Qed.

Lemma sort_by_perm l : sort_by l ≡ₚ l.
Proof. induction l as [|x l IH]; simpl; [done|]. by rewrite insert_by_perm, IH. Qed.

Lemma elem_of_sort_by x l : x ∈ sort_by l ↔ x ∈ l.
Proof. by rewrite sort_by_perm. Qed.

Lemma length_sort_by l : length (sort_by l) = length l.
Proof. apply Permutation_length, sort_by_perm. Qed.

Lemma Forall_sort_by (P : A → Prop) l : Forall P l → Forall P (sort_by l).
Proof. by rewrite sort_by_perm. Qed.

Context `{!TotalCmp cmp}.

Lemma insert_by_sorted x l :
  StronglySorted (cmp_le cmp) l → StronglySorted (cmp_le cmp) (insert_by x l).
Proof.
  induction 1 as [|y l Hs IH Hall]; simpl; [by repeat constructor|].
  destruct (cmp x y) eqn:E.
  1,2: constructor; [by constructor|]; constructor;
    [by unfold cmp_le; rewrite E|];
    eapply Forall_impl; [exact Hall|]; simpl; intros z ?;
    (etrans; [|done]); by unfold cmp_le; rewrite E.
  constructor; [done|]. rewrite insert_by_perm. constructor; [|done].
  apply cmp_Lt_le. by apply (cmp_Gt_Lt cmp).
Qed.

Lemma sort_by_sorted l : StronglySorted (cmp_le cmp) (sort_by l).
Proof. induction l; simpl; [constructor | by apply insert_by_sorted]. Qed.

(** A comparator that only identifies equal elements of [l] sorts it in one
    way: any sorted permutation is the result. *)
Lemma sort_by_unique l l' :
  (∀ x y, x ∈ l → y ∈ l → cmp x y = Eq → x = y) →
  l' ≡ₚ l → StronglySorted (cmp_le cmp) l' → l' = sort_by l.
Proof.
  intros Heq Hp Hs. apply StronglySorted_unique_strong with (R := cmp_le cmp).
  - intros x y Hx Hy Hxy Hyx. rewrite Hp in Hx. rewrite elem_of_sort_by in Hy.
    apply Heq; [done..|]. by apply cmp_le_antisym.
  - done.
  - apply sort_by_sorted.
  - by rewrite sort_by_perm.
Qed.

Lemma sort_by_perm_eq l l' :
  (∀ x y, x ∈ l → y ∈ l → cmp x y = Eq → x = y) →
  l' ≡ₚ l → sort_by l' = sort_by l.
Proof.
  intros Heq Hp. apply sort_by_unique; [done| |apply sort_by_sorted].
  by rewrite sort_by_perm.
Qed.
End sort_by.

Lemma insert_by_ext {A} (c d : A → A → comparison) x l :
  (∀ y, y ∈ l → c x y = d x y) → insert_by c x l = insert_by d x l.
Proof.
  induction l as [|y l IH]; intros E; simpl; [done|].
  rewrite E by set_solver. destruct (d x y); [done..|]. f_equal. apply IH. set_solver.
Qed.

(** Two comparators that agree on the elements of a list sort it alike. *)
Lemma sort_by_ext {A} (c d : A → A → comparison) l :
  (∀ x y, x ∈ l → y ∈ l → c x y = d x y) → sort_by c l = sort_by d l.
Proof.
  induction l as [|x l IH]; intros E; simpl; [done|].
  rewrite IH by set_solver.
  apply insert_by_ext. intros y Hy. apply E; [set_solver|].
  rewrite elem_of_sort_by in Hy. set_solver.
Qed.

Lemma StronglySorted_sublist {A} (R : relation A) l l' :
  l' `sublist_of` l → StronglySorted R l → StronglySorted R l'.
Proof.
  induction 1 as [|x l1 l2 Hsub IH|x l1 l2 Hsub IH]; intros Hs; [done|..];
    inversion_clear Hs; [|by apply IH].
  constructor; [by apply IH|]. rewrite Forall_forall in *. intros z Hz.
  apply H0. by eapply elem_of_sublist.
Qed.

Lemma StronglySorted_mono {A} (R R' : relation A) l :
  (∀ x y, R x y → R' x y) → StronglySorted R l → StronglySorted R' l.
Proof.
  intros HR. induction 1 as [|x l Hs IH Hall]; constructor; [done|].
  eapply Forall_impl; [exact Hall|]. auto.
Qed.

Lemma StronglySorted_take {A} (R : relation A) n l :
  StronglySorted R l → StronglySorted R (take n l).
Proof. apply StronglySorted_sublist, sublist_take. Qed.

Lemma StronglySorted_elem_mono {A} (R R' : relation A) l :
  (∀ x y, x ∈ l → y ∈ l → R x y → R' x y) → StronglySorted R l → StronglySorted R' l.
Proof.
  intros HR Hs. induction Hs as [|x l Hs IH Hall]; constructor; [apply IH; set_solver|].
  rewrite Forall_forall in *. intros y Hy. apply HR; set_solver.
Qed.

(** What the [k] first of a sorted list leave out comes after them. *)
Lemma take_sort_rest {A} (cmp : A → A → comparison) `{!TotalCmp cmp} k l x :
  x ∈ l → x ∈ take k (sort_by cmp l) ∨
  (length (take k (sort_by cmp l)) = k ∧ ∀ y, y ∈ take k (sort_by cmp l) → cmp_le cmp y x).
Proof.
  intros Hx. rewrite <-(elem_of_sort_by cmp) in Hx.
  rewrite <-(take_drop k (sort_by cmp l)) in Hx. apply elem_of_app in Hx as [?|Hx]; [by left|right].
  pose proof (sort_by_sorted cmp l) as Hs. rewrite <-(take_drop k (sort_by cmp l)) in Hs.
  split.
  - rewrite length_take. apply list_elem_of_In, in_split in Hx as (l1 & l2 & E).
    assert (length (drop k (sort_by cmp l)) ≠ 0)%nat as Hl by (rewrite E, length_app; simpl; lia).
    rewrite length_drop in Hl. lia.
  - intros y Hy. by eapply (StronglySorted_app_1_elem_of (cmp_le cmp)).
Qed.

(** ** Keeping the first element of each key

    [let mut seen = HashSet::new(); v.retain(|r| seen.insert(key(r)))]. *)

Section dedup.
Context {A K : Type} `{Countable K} (key : A → K).

Fixpoint retain_unseen (seen : gset K) (l : list A) : list A :=
  match l with
  | [] => []
  | x :: l' =>
      if decide (key x ∈ seen) then retain_unseen seen l'
      else x :: retain_unseen ({[key x]} ∪ seen) l'
  end.

Lemma retain_unseen_sublist seen l : retain_unseen seen l `sublist_of` l.
Proof.
  revert seen. induction l as [|x l IH]; intros seen; simpl; [done|].
  case_decide; [by apply sublist_cons | by apply sublist_skip].
Qed.

Lemma retain_unseen_not_seen seen l x :
  x ∈ retain_unseen seen l → key x ∉ seen.
Proof.
  revert seen. induction l as [|y l IH]; intros seen; simpl; [by intros ?%elem_of_nil|].
  case_decide; [by apply IH|].
  rewrite elem_of_cons. intros [->|Hx]; [done|]. apply IH in Hx. set_solver.
Qed.

Lemma retain_unseen_NoDup seen l : NoDup (key <$> retain_unseen seen l).
Proof.
  revert seen. induction l as [|y l IH]; intros seen; simpl; [constructor|].
  case_decide; [by apply IH|]. simpl. constructor; [|by apply IH].
  intros (x & Hk & Hx)%list_elem_of_fmap. apply retain_unseen_not_seen in Hx. set_solver.
Qed.

Lemma retain_unseen_elem seen l x :
  x ∈ l → key x ∉ seen →
  ∃ y, y ∈ retain_unseen seen l ∧ key y = key x.
Proof.
  revert seen. induction l as [|z l IH]; intros seen Hx Hk; [by apply elem_of_nil in Hx|].
  simpl. apply elem_of_cons in Hx as [->|Hx].
  - rewrite decide_False by done. exists z. set_solver.
  - case_decide; [by apply IH|].
    destruct (decide (key z = key x)) as [E|E]; [exists z; set_solver|].
    destruct (IH ({[key z]} ∪ seen)) as (y & ? & ?); [done|set_solver|].
    exists y. set_solver.
Qed.

(** In a sorted list the survivor is the first, hence smallest, of its key. *)
Lemma retain_unseen_first (R : relation A) `{!Reflexive R} seen l x y :
  StronglySorted R l → x ∈ retain_unseen seen l → y ∈ l → key y = key x → R x y.
Proof.
  intros Hs. revert seen. induction Hs as [|z l Hs IH Hall]; intros seen Hx Hy Hk.
  { by apply elem_of_nil in Hy. }
  simpl in Hx. rewrite Forall_forall in Hall.
  pose proof (retain_unseen_sublist seen l) as Hsub.
  case_decide as Hz.
  - assert (y ∈ l) as Hy'.
    { apply elem_of_cons in Hy as [->|]; [|done].
      apply retain_unseen_not_seen in Hx. congruence. }
    by eapply IH.
  - apply elem_of_cons in Hx as [->|Hx].
    + apply elem_of_cons in Hy as [->|Hy]; [done|]. by apply Hall.
    + assert (y ∈ l) as Hy'.
      { apply elem_of_cons in Hy as [->|]; [|done].
        apply retain_unseen_not_seen in Hx. set_solver. }
      by eapply IH.
Qed.

Lemma retain_unseen_id seen l :
  NoDup (key <$> l) → (∀ x, x ∈ l → key x ∉ seen) → retain_unseen seen l = l.
Proof.
  revert seen. induction l as [|x l IH]; intros seen Hnd Hs; [done|].
  simpl in *. apply NoDup_cons in Hnd as [Hx Hnd].
  rewrite decide_False by (apply Hs; set_solver). f_equal. apply IH; [done|].
  intros y Hy. rewrite elem_of_union, elem_of_singleton. intros [E|E].
  - apply Hx. rewrite <-E. by apply list_elem_of_fmap_2.
  - apply (Hs y); [set_solver|done].
Qed.
End dedup.

(** ** [BinaryHeap]

    A max-heap as the list of its elements; only [pop] and [peek] see the
    order. Among elements the order does not tell apart, [pop] takes the first. *)

Section binary_heap.
Context {A : Type} (cmp : A → A → comparison).

Fixpoint heap_pop (h : list A) : option (A * list A) :=
  match h with
  | [] => None
  | x :: h' =>
      match heap_pop h' with
      | None => Some (x, [])
      | Some (m, r) =>
          match cmp x m with Lt => Some (m, x :: r) | _ => Some (x, h') end
      end
  end.

Definition heap_peek (h : list A) : option A := fst <$> heap_pop h.

Lemma heap_pop_None h : heap_pop h = None ↔ h = [].
Proof.
  destruct h as [|x h]; simpl; [done|]. split; [|done].
  destruct (heap_pop h) as [[m r]|]; [|done]. by destruct (cmp x m).
Qed.

Lemma heap_pop_perm h m r : heap_pop h = Some (m, r) → h ≡ₚ m :: r.
Proof.
  revert m r. induction h as [|x h IH]; intros m r; simpl; [done|].
  destruct (heap_pop h) as [[m' r']|] eqn:E.
  - specialize (IH _ _ eq_refl).
    destruct (cmp x m'); intros [= <- <-]; [done| |done].
    rewrite IH. apply Permutation_swap.
  - apply heap_pop_None in E as ->. by intros [= <- <-].
Qed.

Lemma heap_pop_max `{!TotalCmp cmp} h m r y :
  heap_pop h = Some (m, r) → y ∈ h → cmp_le cmp y m.
Proof.
  revert m r y. induction h as [|x h IH]; intros m r y; simpl; [done|].
  destruct (heap_pop h) as [[m' r']|] eqn:E.
  - specialize (IH m' r'). rewrite elem_of_cons.
    destruct (cmp x m') eqn:Ex; intros [= <- <-] [->|Hy];
      try reflexivity; try (by apply cmp_Lt_le); try (by apply IH).
    all: etrans; [by apply IH|]; unfold cmp_le; rewrite (cmp_antisym cmp x m'), Ex; done.
  - apply heap_pop_None in E as ->. intros [= <- <-] ->%list_elem_of_singleton. reflexivity.
Qed.

Lemma heap_peek_pop h m : heap_peek h = Some m → ∃ r, heap_pop h = Some (m, r).
Proof.
  unfold heap_peek. destruct (heap_pop h) as [[m' r]|]; simpl; [|done].
  intros [= ->]. eauto.
Qed.

Lemma heap_peek_None h : heap_peek h = None ↔ h = [].
Proof.
  rewrite <-heap_pop_None. unfold heap_peek. by destruct (heap_pop h).
Qed.
End binary_heap.

Lemma heap_pop_ext {A} (c d : A → A → comparison) h :
  (∀ x y, x ∈ h → y ∈ h → c x y = d x y) → heap_pop c h = heap_pop d h.
Proof.
  induction h as [|x h IH]; intros E; simpl; [done|].
  rewrite IH by set_solver.
  destruct (heap_pop d h) as [[m r]|] eqn:Hp; [|done].
  rewrite E; [done|set_solver|]. rewrite (heap_pop_perm d _ _ _ Hp). set_solver.
Qed.

(** ** Top-k

    Selecting the [k] best elements one at a time, the way a bounded heap
    does, against sorting the whole input. *)

Section top_k.
Context {A : Type} (cmp : A → A → comparison) `{!TotalCmp cmp}.

Definition top_k (k : nat) (l : list A) : list A := take k (sort_by cmp l).

Lemma take_insert_by k x s :
  take k (insert_by cmp x s) = take k (insert_by cmp x (take k s)).
Proof.
  revert k. induction s as [|y s IH]; intros [|k]; simpl; try done.
  destruct (cmp x y); simpl.
  1,2: f_equal; destruct k; simpl; [done|]; by rewrite take_take, Nat.min_l by lia.
  by rewrite IH.
Qed.

Lemma top_k_cons k x l : top_k k (x :: l) = take k (insert_by cmp x (top_k k l)).
Proof. unfold top_k. simpl. apply take_insert_by. Qed.

Lemma insert_by_snoc_le x t m :
  StronglySorted (cmp_le cmp) (t ++ [m]) → cmp x m ≠ Gt →
  insert_by cmp x (t ++ [m]) = insert_by cmp x t ++ [m].
Proof.
  induction t as [|y t IH]; simpl; intros Hs Hx; [by destruct (cmp x m)|].
  inversion_clear Hs. destruct (cmp x y); [done..|]. by rewrite IH.
Qed.

Lemma insert_by_snoc_gt x t m :
  StronglySorted (cmp_le cmp) (t ++ [m]) → cmp x m = Gt →
  insert_by cmp x (t ++ [m]) = t ++ [m; x].
Proof.
  intros Hs Hx. induction t as [|y t IH]; simpl in *; [by rewrite Hx|].
  inversion_clear Hs as [|?? Hs' Hall]. rewrite IH by done.
  assert (cmp x y = Gt) as ->; [|done]. apply (cmp_Gt_Lt cmp).
  apply (cmp_le_Lt_trans cmp) with m; [|by apply (cmp_Gt_Lt cmp)].
  rewrite Forall_forall in Hall. apply Hall. set_solver.
Qed.

Lemma length_insert_by x (t : list A) : length (insert_by cmp x t) = S (length t).
Proof. by rewrite (Permutation_length (insert_by_perm cmp x t)). Qed.

(** A full selection [t ++ [m]] takes a better [x] in place of its worst
    element [m], and ignores a worse one. *)
Lemma top_k_replace x t m :
  StronglySorted (cmp_le cmp) (t ++ [m]) → cmp x m = Lt →
  take (S (length t)) (insert_by cmp x (t ++ [m])) ≡ₚ x :: t.
Proof.
  intros Hs Hx. rewrite insert_by_snoc_le by (done || by rewrite Hx).
  rewrite take_app_length' by (by rewrite length_insert_by). apply insert_by_perm.
Qed.

Lemma top_k_reject x t m :
  StronglySorted (cmp_le cmp) (t ++ [m]) → cmp x m = Gt →
  take (S (length t)) (insert_by cmp x (t ++ [m])) = t ++ [m].
Proof.
  intros Hs Hx. rewrite insert_by_snoc_gt by done.
  change [m; x] with ([m] ++ [x]). rewrite (assoc_L (++)).
  rewrite take_app_length' by (rewrite length_app; simpl; lia). done.
Qed.
End top_k.
