(* ===== verification/Float32.v ===== *)
(** * IEEE-754 scores

    An [f32] is its bit pattern, a [Z] in [0, 2^32). Comparisons follow
    IEEE-754 as [f32::partial_cmp] does: a NaN compares to nothing, the two
    zeros are equal, and every other pair is ordered by sign and magnitude.
    Arithmetic goes through the [spec_float] functions of the standard library
    at the format's precision, rounding to nearest even. *)

From Stdlib Require Import SpecFloat.
From S2P Require Import Prelude Sorting.

Abbreviation f32 := Z (only parsing).

Definition f32_inf_mag : Z := 255 * 2 ^ 23.
Definition f32_mag (x : f32) : Z := x mod 2 ^ 31.
Definition f32_neg (x : f32) : bool := 2 ^ 31 <=? x.

Definition f32_is_nan (x : f32) : bool := f32_inf_mag <? f32_mag x.
Definition f32_is_finite (x : f32) : bool := f32_mag x <? f32_inf_mag.

(** The position of a number on the real line, as an integer. *)
Definition f32_key (x : f32) : Z := if f32_neg x then - f32_mag x else f32_mag x.

Definition f32_partial_cmp (x y : f32) : option comparison :=
  if f32_is_nan x || f32_is_nan y then None else Some (f32_key x ?= f32_key y).

Definition f32_gt (x y : f32) : bool :=
  match f32_partial_cmp x y with Some Gt => true | _ => false end.
Definition f32_ge (x y : f32) : bool :=
  match f32_partial_cmp x y with Some Gt | Some Eq => true | _ => false end.
Definition f32_eq (x y : f32) : bool :=
  match f32_partial_cmp x y with Some Eq => true | _ => false end.

Lemma f32_finite_not_nan x : f32_is_finite x = true → f32_is_nan x = false.
Proof. unfold f32_is_finite, f32_is_nan. rewrite Z.ltb_lt, Z.ltb_ge. lia. Qed.

Lemma f32_partial_cmp_finite x y :
  f32_is_finite x = true → f32_is_finite y = true →
  f32_partial_cmp x y = Some (f32_key x ?= f32_key y).
Proof. intros ??. unfold f32_partial_cmp. by rewrite !f32_finite_not_nan. Qed.

Lemma f32_gt_finite x y :
  f32_is_finite x = true → f32_is_finite y = true →
  f32_gt x y = (f32_key y <? f32_key x).
Proof.
  intros. unfold f32_gt. rewrite f32_partial_cmp_finite by done.
  rewrite Z.compare_antisym. unfold Z.ltb. by destruct (f32_key y ?= f32_key x).
Qed.

Lemma f32_ge_finite x y :
  f32_is_finite x = true → f32_is_finite y = true →
  f32_ge x y = (f32_key y <=? f32_key x).
Proof.
  intros. unfold f32_ge. rewrite f32_partial_cmp_finite by done.
  rewrite Z.compare_antisym. unfold Z.leb. by destruct (f32_key y ?= f32_key x).
Qed.

Lemma f32_eq_finite x y :
  f32_is_finite x = true → f32_is_finite y = true →
  f32_eq x y = (f32_key x =? f32_key y).
Proof.
  intros. unfold f32_eq. rewrite f32_partial_cmp_finite by done.
  destruct (Z.compare_spec (f32_key x) (f32_key y)); symmetry;
    rewrite ?Z.eqb_eq, ?Z.eqb_neq; lia.
Qed.

(** [sort_by] comparators over finite scores reduce to comparing keys. *)
Definition f32_cmp_or_eq (x y : f32) : comparison :=
  default Eq (f32_partial_cmp x y).

Lemma f32_cmp_or_eq_finite x y :
  f32_is_finite x = true → f32_is_finite y = true →
  f32_cmp_or_eq x y = (f32_key x ?= f32_key y).
Proof. intros. unfold f32_cmp_or_eq. by rewrite f32_partial_cmp_finite. Qed.

(** ** Arithmetic *)

Definition f32_decode (x : f32) : spec_float :=
  let s := f32_neg x in
  let e := f32_mag x / 2 ^ 23 in
  let m := f32_mag x mod 2 ^ 23 in
  if e =? 255 then (if m =? 0 then S754_infinity s else S754_nan)
  else if e =? 0 then (if m =? 0 then S754_zero s else S754_finite s (Z.to_pos m) (-149))
  else S754_finite s (Z.to_pos (m + 2 ^ 23)) (e - 150).

Definition f32_encode (f : spec_float) : f32 :=
  let sign (s : bool) := if s then 2 ^ 31 else 0 in
  match f with
  | S754_zero s => sign s
  | S754_infinity s => sign s + f32_inf_mag
  | S754_nan => f32_inf_mag + 2 ^ 22
  | S754_finite s m e =>
      if Zpos m <? 2 ^ 23 then sign s + Zpos m
      else sign s + (e + 150) * 2 ^ 23 + (Zpos m - 2 ^ 23)
  end.

Definition f32_add (x y : f32) : f32 :=
  f32_encode (SFadd 24 128 (f32_decode x) (f32_decode y)).
Definition f32_div (x y : f32) : f32 :=
  f32_encode (SFdiv 24 128 (f32_decode x) (f32_decode y)).

(** The encoding loses nothing: a bit pattern that is not a NaN survives the
    trip through its value. *)
Lemma f32_encode_decode x :
  is_u32 x → f32_is_nan x = false → f32_encode (f32_decode x) = x.
Proof.
  unfold in_range, u32_max, f32_is_nan, f32_decode, f32_encode, f32_inf_mag.
  intros Hx Hn%Z.ltb_ge.
  assert (x = (if f32_neg x then 2 ^ 31 else 0) + f32_mag x) as Hsplit.
  { unfold f32_neg, f32_mag. bool_cases.
    - rewrite <-(Z.mod_unique x (2 ^ 31) 1 (x - 2 ^ 31)); lia.
    - rewrite Z.mod_small; lia. }
  assert (0 ≤ f32_mag x < 2 ^ 31) as Hm by (apply Z.mod_pos_bound; lia).
  generalize dependent (f32_mag x). intros m Hn Hsplit Hm.
  pose proof (Z.div_mod m (2 ^ 23)) as Hdm.
  pose proof (Z.mod_pos_bound m (2 ^ 23)) as Hmod.
  set (e := m / 2 ^ 23) in *. set (r := m mod 2 ^ 23) in *.
  assert (0 ≤ e < 256) by (unfold e; split; [apply Z.div_pos | apply Z.div_lt_upper_bound]; lia).
  destruct (Z.eqb_spec e 255); [|destruct (Z.eqb_spec e 0)];
    [destruct (Z.eqb_spec r 0); lia|destruct (Z.eqb_spec r 0); [lia|]|];
    rewrite Z2Pos.id by lia; bool_cases; lia.
Qed.

(** Some constants, as bit patterns. *)
Definition f32_zero : f32 := 0.
Definition f32_two : f32 := 128 * 2 ^ 23.
Definition f32_one : f32 := 127 * 2 ^ 23.

Example f32_one_plus_one : f32_add f32_one f32_one = f32_two.
Proof. reflexivity. Qed.
Example f32_two_halved : f32_div f32_two f32_two = f32_one.
Proof. reflexivity. Qed.
