(* ===== verification/Merger.v ===== *)
(** * The result merger of the coordinator

    [crates/coordinator/src/merger.rs]: a bounded min-heap that merges the
    results of several shards into one top-k list, deduplicating by id. *)

From S2P Require Import Prelude Sorting Float32.

Section merger.
(** [serde_json::Value], the type of result metadata. *)
Context {Json : Type}.

Record SearchResult := mkSearchResult {
  sr_id : string;
  sr_score : f32;
  sr_metadata : option Json;
}.

(** [impl Ord for ScoredResult]: reversed on scores, NaN lowest. *)
Definition scored_cmp (a b : SearchResult) : comparison :=
  match f32_is_nan (sr_score a), f32_is_nan (sr_score b) with
  | true, true => Eq
  | true, false => Lt
  | false, true => Gt
  | false, false =>
      match f32_cmp_or_eq (sr_score b) (sr_score a) with
      | Eq => bytes_cmp (sr_id a) (sr_id b)
      | c => c
      end
  end.

(** The comparator of the compaction: by score only, best first, NaN last. *)
Definition compaction_cmp (a b : SearchResult) : comparison :=
  match f32_is_nan (sr_score a), f32_is_nan (sr_score b) with
  | true, true => Eq
  | true, false => Gt
  | false, true => Lt
  | false, false => f32_cmp_or_eq (sr_score b) (sr_score a)
  end.

(** The comparator of [finish]: score descending, then id ascending. *)
Definition finish_cmp (a b : SearchResult) : comparison :=
  match f32_cmp_or_eq (sr_score b) (sr_score a) with
  | Eq => bytes_cmp (sr_id a) (sr_id b)
  | c => c
  end.

Record ResultMerger := mkMerger {
  heap : list SearchResult;
  capacity : Z;
  best_scores : gmap string f32;
}.

Definition new (cap : Z) : ResultMerger :=
  {| heap := []; capacity := cap; best_scores := ∅ |}.

Definition compaction_threshold (cap : Z) : Z := saturating_mul usize_max cap 3 / 2.

(** The order in which [BinaryHeap::drain] and [into_iter] yield the elements
    of a heap is unspecified; they yield each element once. *)
Variable heap_order : list SearchResult → list SearchResult.

(** Rebuild the heap and the score table from the best [capacity] entries. *)
Definition compact (m : ResultMerger) : ResultMerger :=
  let sorted := sort_by compaction_cmp (heap_order (heap m)) in
  let kept := take (Z.to_nat (capacity m)) sorted in
  {| heap := kept;
     capacity := capacity m;
     best_scores := foldl (λ t r, <[sr_id r := sr_score r]> t) ∅ kept |}.

Definition should_insert (r min : SearchResult) : bool :=
  f32_is_nan (sr_score min)
  || f32_gt (sr_score r) (sr_score min)
  || (f32_eq (sr_score r) (sr_score min) && str_ltb (sr_id r) (sr_id min)).

Definition add (m : ResultMerger) (r : SearchResult) : ResultMerger :=
  if negb (f32_is_finite (sr_score r)) then m else
  match best_scores m !! sr_id r with
  | Some existing_score =>
      if f32_ge existing_score (sr_score r) then m else
      let m' := {| heap := r :: heap m;
                   capacity := capacity m;
                   best_scores := <[sr_id r := sr_score r]> (best_scores m) |} in
      if Zlength (heap m') >? compaction_threshold (capacity m') then compact m' else m'
  | None =>
      if Zlength (heap m) <? capacity m then
        {| heap := r :: heap m;
           capacity := capacity m;
           best_scores := <[sr_id r := sr_score r]> (best_scores m) |}
      else
        match heap_pop scored_cmp (heap m) with
        | None => m
        | Some (min, rest) =>
            if should_insert r min then
              {| heap := r :: rest;
                 capacity := capacity m;
                 best_scores := <[sr_id r := sr_score r]> (delete (sr_id min) (best_scores m)) |}
            else m
        end
  end.

Definition add_results (m : ResultMerger) (rs : list SearchResult) : ResultMerger :=
  foldl add m rs.

Definition finish (m : ResultMerger) : list SearchResult :=
  let results := filter (λ r, f32_is_finite (sr_score r) = true) (heap_order (heap m)) in
  let results := sort_by finish_cmp results in
  let results := retain_unseen sr_id ∅ results in
  take (Z.to_nat (capacity m)) results.

(** ** Orders *)

Definition finite (r : SearchResult) : Prop := f32_is_finite (sr_score r) = true.

(** The order [finish] sorts finite results by. *)
Definition rank_cmp (a b : SearchResult) : comparison :=
  then_with (f32_key (sr_score b) ?= f32_key (sr_score a)) (bytes_cmp (sr_id a) (sr_id b)).

#[local] Instance rank_cmp_total : TotalCmp rank_cmp.
Proof.
  apply (TotalCmp_then (λ a b, f32_key (sr_score b) ?= f32_key (sr_score a))
                       (λ a b, bytes_cmp (sr_id a) (sr_id b))).
  - apply (TotalCmp_flip (λ a b, f32_key (sr_score a) ?= f32_key (sr_score b))).
    apply (TotalCmp_on (λ r, f32_key (sr_score r)) Z.compare), _.
  - apply (TotalCmp_on sr_id bytes_cmp), _.
Qed.

Lemma finish_cmp_rank a b : finite a → finite b → finish_cmp a b = rank_cmp a b.
Proof.
  intros Ha Hb. unfold finish_cmp, rank_cmp. rewrite f32_cmp_or_eq_finite by done.
  by destruct (_ ?= _).
Qed.

Lemma scored_cmp_rank a b : finite a → finite b → scored_cmp a b = rank_cmp a b.
Proof.
  intros Ha Hb. unfold scored_cmp. rewrite !f32_finite_not_nan by done.
  by apply finish_cmp_rank.
Qed.

Lemma compaction_cmp_key a b :
  finite a → finite b →
  compaction_cmp a b = (f32_key (sr_score b) ?= f32_key (sr_score a)).
Proof.
  intros Ha Hb. unfold compaction_cmp. rewrite !f32_finite_not_nan by done.
  by apply f32_cmp_or_eq_finite.
Qed.

Lemma should_insert_rank r min :
  finite r → finite min → should_insert r min = true ↔ rank_cmp r min = Lt.
Proof.
  intros Hr Hm. unfold should_insert, rank_cmp, str_ltb.
  rewrite f32_finite_not_nan, f32_gt_finite, f32_eq_finite by done. simpl.
  rewrite (Z.compare_antisym (f32_key (sr_score r))).
  destruct (Z.compare_spec (f32_key (sr_score r)) (f32_key (sr_score min))) as [E|E|E]; simpl.
  - rewrite E, Z.ltb_irrefl, Z.eqb_refl. simpl. by destruct (bytes_cmp _ _).
  - rewrite (proj2 (Z.ltb_ge _ _)), (proj2 (Z.eqb_neq _ _)) by lia. done.
  - by rewrite (proj2 (Z.ltb_lt _ _)) by lia.
Qed.

(** ** The invariant of a merge in progress

    [seen] are the results offered so far. The heap holds finite offered
    results, its size is bounded, and the best finite score offered is always
    in it. *)

Definition score_key (r : SearchResult) : Z := f32_key (sr_score r).

Definition table (kept : list SearchResult) : gmap string f32 :=
  foldl (λ t r, <[sr_id r := sr_score r]> t) ∅ kept.

Record merger_inv (cap : Z) (seen : list SearchResult) (m : ResultMerger) : Prop := {
  inv_capacity : capacity m = cap;
  inv_heap : ∀ r, r ∈ heap m → r ∈ seen ∧ finite r;
  inv_size : Zlength (heap m) ≤ Z.max cap (compaction_threshold cap);
  inv_best : ∀ id s, best_scores m !! id = Some s →
    f32_is_finite s = true ∧ ∃ h, h ∈ heap m ∧ f32_key s ≤ score_key h;
  inv_top : 0 < cap → ∀ r, r ∈ seen → finite r →
    ∃ h, h ∈ heap m ∧ score_key r ≤ score_key h;
}.

Lemma table_lookup kept id s :
  table kept !! id = Some s → ∃ r, r ∈ kept ∧ s = sr_score r.
Proof.
  unfold table. induction kept as [|r kept IH] using rev_ind; [done|].
  rewrite foldl_snoc. intros [[<- <-]|[? ?]]%lookup_insert_Some; set_solver.
Qed.

Hypothesis heap_order_perm : ∀ h, heap_order h ≡ₚ h.

Lemma compact_sorted_perm h : sort_by compaction_cmp (heap_order h) ≡ₚ h.
Proof. by rewrite sort_by_perm, heap_order_perm. Qed.

Lemma compact_heap_sub m r : r ∈ heap (compact m) → r ∈ heap m.
Proof.
  simpl. intros Hr. eapply elem_of_sublist in Hr; [|apply sublist_take]. by rewrite compact_sorted_perm in Hr.
Qed.

Lemma compact_size m : 0 ≤ capacity m → Zlength (heap (compact m)) ≤ capacity m.
Proof. intros. simpl. rewrite length_take. lia. Qed.

Lemma compact_top m x :
  (∀ r, r ∈ heap m → finite r) → 0 < capacity m → x ∈ heap m →
  ∃ h, h ∈ heap (compact m) ∧ score_key x ≤ score_key h.
Proof.
  intros Hfin Hcap Hx. simpl.
  rewrite (sort_by_ext compaction_cmp (λ a b, score_key b ?= score_key a)).
  2:{ intros a b. rewrite heap_order_perm. intros. by apply compaction_cmp_key; apply Hfin. }
  set (c := λ a b, score_key b ?= score_key a).
  assert (TotalCmp c).
  { apply (TotalCmp_flip (λ a b, score_key a ?= score_key b)).
    apply (TotalCmp_on score_key Z.compare), _. }
  pose proof (sort_by_sorted c (heap_order (heap m))) as Hs.
  assert (x ∈ sort_by c (heap_order (heap m))) as Hin.
  { by rewrite elem_of_sort_by, heap_order_perm. }
  destruct (sort_by c (heap_order (heap m))) as [|y l]; [set_solver|].
  destruct (Z.to_nat (capacity m)) as [|k] eqn:E; [lia|].
  exists y. split; [simpl; set_solver|].
  apply elem_of_cons in Hin as [->|Hin]; [lia|].
  inversion_clear Hs as [|?? ? Hall]. rewrite Forall_forall in Hall.
  specialize (Hall x Hin). unfold cmp_le, c in Hall. by apply Z.compare_le_iff.
Qed.

Lemma compact_inv cap seen m :
  0 ≤ cap → capacity m = cap → (∀ r, r ∈ heap m → r ∈ seen ∧ finite r) →
  (0 < cap → ∀ r, r ∈ seen → finite r → ∃ h, h ∈ heap m ∧ score_key r ≤ score_key h) →
  merger_inv cap seen (compact m).
Proof.
  intros Hcap Hm Hheap Htop. split.
  - done.
  - intros r Hr%compact_heap_sub. by apply Hheap.
  - pose proof (compact_size m). lia.
  - intros id s (r & Hr & ->)%table_lookup. split; [|by exists r].
    by apply Hheap, compact_heap_sub.
  - intros Hc r Hr Hf. destruct (Htop Hc r Hr Hf) as (h & Hh & ?).
    destruct (compact_top m h) as (h' & ? & ?); [naive_solver|lia|done|].
    exists h'. split; [done|lia].
Qed.

Lemma new_inv cap : 0 ≤ cap → merger_inv cap [] (new cap).
Proof.
  intros. split; simpl; [done|set_solver|lia|done|set_solver].
Qed.

(** Pushing a finite result keeps the invariant, the size bound aside. *)
Lemma push_inv cap seen m h' r t :
  capacity m = cap → finite r →
  (∀ x, x ∈ h' → x ∈ seen ∧ finite x) →
  Zlength (r :: h') ≤ Z.max cap (compaction_threshold cap) →
  (∀ x, x ∈ heap m → x ∈ h' ∨ score_key x ≤ score_key r) →
  (∀ id s, best_scores m !! id = Some s →
    f32_is_finite s = true ∧ ∃ h, h ∈ heap m ∧ f32_key s ≤ score_key h) →
  (0 < cap → ∀ x, x ∈ seen → finite x → ∃ h, h ∈ heap m ∧ score_key x ≤ score_key h) →
  t ⊆ best_scores m →
  merger_inv cap (seen ++ [r])
    {| heap := r :: h'; capacity := cap; best_scores := <[sr_id r := sr_score r]> t |}.
Proof.
  intros Hm Hr Hh' Hsz Hcov Hbest Htop Ht.
  assert (∀ x h, h ∈ heap m → x ≤ score_key h →
            ∃ h0, h0 ∈ r :: h' ∧ x ≤ score_key h0) as Hup.
  { intros x h Hh Hle. destruct (Hcov h Hh) as [?|?]; [exists h; set_solver|].
    exists r. split; [set_solver|lia]. }
  split; simpl.
  - done.
  - intros x [->|Hx]%elem_of_cons; [set_solver|]. apply Hh' in Hx. set_solver.
  - done.
  - intros id s [[<- <-]|[? Hs]]%lookup_insert_Some.
    + split; [done|]. exists r. split; [set_solver|unfold score_key; lia].
    + eapply lookup_weaken in Hs; [|done]. apply Hbest in Hs as (? & h & ? & ?). eauto.
  - intros Hc x [Hx|Hx]%elem_of_app Hf; [|exists r; set_solver by lia].
    destruct (Htop Hc x Hx Hf) as (h & ? & ?). eauto.
Qed.

Lemma add_inv cap seen m r :
  in_range usize_max cap → merger_inv cap seen m → merger_inv cap (seen ++ [r]) (add m r).
Proof.
  intros Hcap [Hm Hheap Hsz Hbest Htop].
  assert (0 ≤ compaction_threshold cap) as Hthr.
  { unfold compaction_threshold. apply Z.div_pos; int_lia. }
  assert (∀ h, h ∈ heap m → h ∈ seen ++ [r] ∧ finite h) as Hheap'.
  { intros h Hh. apply Hheap in Hh. set_solver. }
  (* the merger is unchanged *)
  assert ((0 < cap → finite r → ∃ h, h ∈ heap m ∧ score_key r ≤ score_key h) →
          merger_inv cap (seen ++ [r]) m) as Hsame.
  { intros Hr. split; [done..|]. intros Hc x [Hx|Hx]%elem_of_app Hf; [by apply Htop|].
    apply list_elem_of_singleton in Hx as ->. by apply Hr. }
  unfold add. destruct (f32_is_finite (sr_score r)) eqn:Hr; simpl.
  2:{ apply Hsame. unfold finite. congruence. }
  destruct (best_scores m !! sr_id r) as [old|] eqn:Hold.
  - destruct (Hbest _ _ Hold) as (Hfo & h & Hh & Hle).
    rewrite f32_ge_finite by done. destruct (Z.leb_spec (f32_key (sr_score r)) (f32_key old)).
    { apply Hsame. intros _ _. exists h. unfold score_key in *. split; [done|lia]. }
    rewrite Z.gtb_ltb, Hm. destruct (Z.ltb_spec (compaction_threshold cap) (Z.of_nat (S (length (heap m))))).
    + apply compact_inv; [int_lia|done|set_solver|].
      intros Hc x [Hx|Hx]%elem_of_app Hf; simpl.
      * destruct (Htop Hc x Hx Hf) as (h' & ? & ?). exists h'. set_solver.
      * exists r. set_solver by lia.
    + eapply push_inv; eauto. simpl. lia.
  - rewrite Hm. destruct (Z.ltb_spec (Zlength (heap m)) cap).
    { eapply push_inv; eauto. simpl. lia. }
    destruct (heap_pop scored_cmp (heap m)) as [[min rest]|] eqn:Hpop.
    2:{ apply heap_pop_None in Hpop. rewrite Hpop in *. apply Hsame. simpl in *. lia. }
    pose proof (heap_pop_perm _ _ _ _ Hpop) as Hperm.
    assert (∀ y, y ∈ heap m → cmp_le rank_cmp y min) as Hmin.
    { intros y Hy. rewrite (heap_pop_ext scored_cmp rank_cmp) in Hpop.
      - by eapply (heap_pop_max rank_cmp).
      - intros. by apply scored_cmp_rank; apply Hheap. }
    assert (finite min) as Hfm by (apply Hheap; rewrite Hperm; set_solver).
    destruct (should_insert r min) eqn:Hins.
    + apply should_insert_rank in Hins; [|done..].
      eapply push_inv; eauto.
      * intros x Hx. apply Hheap. rewrite Hperm. set_solver.
      * apply Permutation_length in Hperm. simpl in *. lia.
      * intros x. rewrite Hperm. intros [->|?]%elem_of_cons; [right|by left].
        unfold rank_cmp, score_key in *.
        destruct (Z.compare_spec (f32_key (sr_score min)) (f32_key (sr_score r))); simpl in *; lia || done.
      * apply delete_subseteq.
    + apply Hsame. intros _ _. exists min. split; [rewrite Hperm; set_solver|].
      destruct (Z.le_gt_cases (score_key r) (score_key min)) as [|Hgt]; [done|].
      exfalso. assert (should_insert r min = true); [|congruence].
      apply should_insert_rank; [done..|]. unfold rank_cmp, score_key in *.
      rewrite (proj2 (Z.compare_lt_iff _ _)) by lia. done.
Qed.

Lemma add_results_inv cap seen m rs :
  in_range usize_max cap → merger_inv cap seen m →
  merger_inv cap (seen ++ rs) (add_results m rs).
Proof.
  intros Hcap. revert seen m. induction rs as [|r rs IH]; intros seen m Hinv; simpl.
  - by rewrite app_nil_r.
  - specialize (IH (seen ++ [r]) (add m r)). rewrite <-(assoc_L (++)) in IH.
    by apply IH, add_inv.
Qed.

Lemma merge_inv cap rs :
  in_range usize_max cap → merger_inv cap rs (add_results (new cap) rs).
Proof.
  intros Hcap. apply (add_results_inv cap [] (new cap) rs); [done|].
  apply new_inv. int_lia.
Qed.

(** ** Distinct ids: the merger is a top-k selection *)

Definition valid (rs : list SearchResult) : list SearchResult :=
  filter (λ r, f32_is_finite (sr_score r) = true) rs.

#[local] Instance valid_Proper : Proper ((≡ₚ) ==> (≡ₚ)) valid.
Proof. intros l l' E. unfold valid. by rewrite E. Qed.

Lemma valid_cons r rs :
  valid (r :: rs) = if f32_is_finite (sr_score r) then r :: valid rs else valid rs.
Proof. unfold valid. rewrite filter_cons. by destruct (f32_is_finite _). Qed.

Lemma rank_cmp_Eq_id a b : rank_cmp a b = Eq → sr_id a = sr_id b.
Proof.
  unfold rank_cmp. destruct (_ ?= _); simpl; [|done..]. by rewrite bytes_cmp_Eq.
Qed.

Record distinct_inv (cap : Z) (seen : list SearchResult) (m : ResultMerger) : Prop := {
  d_capacity : capacity m = cap;
  d_heap : heap m ≡ₚ top_k rank_cmp (Z.to_nat cap) (valid seen);
  d_best : ∀ id, is_Some (best_scores m !! id) → id ∈ sr_id <$> seen;
}.

Lemma top_k_full k (l : list SearchResult) :
  (length (top_k rank_cmp k l) < k)%nat → top_k rank_cmp k l = sort_by rank_cmp l.
Proof. unfold top_k. rewrite length_take. intros. rewrite take_ge; [done|lia]. Qed.

Lemma top_k_sorted k l : StronglySorted (cmp_le rank_cmp) (top_k rank_cmp k l).
Proof. apply StronglySorted_take, sort_by_sorted, _. Qed.

(** The heap's greatest element is the worst of the selection. *)
Lemma pop_is_last h t m' min rest :
  NoDup (sr_id <$> h) → (∀ r, r ∈ h → finite r) →
  h ≡ₚ t ++ [m'] → StronglySorted (cmp_le rank_cmp) (t ++ [m']) →
  heap_pop scored_cmp h = Some (min, rest) → min = m' ∧ rest ≡ₚ t.
Proof.
  intros Hnd Hf Hh Hs Hpop.
  pose proof (heap_pop_perm _ _ _ _ Hpop) as Hperm.
  rewrite (heap_pop_ext scored_cmp rank_cmp) in Hpop
    by (intros; by apply scored_cmp_rank; apply Hf).
  assert (min ∈ h) as Hmin by (rewrite Hperm; set_solver).
  assert (m' ∈ h) as Hm' by (rewrite Hh; set_solver).
  assert (cmp_le rank_cmp min m') as Hle.
  { rewrite Hh in Hmin. apply elem_of_app in Hmin as [Hmin|Hmin].
    - apply StronglySorted_app_1_elem_of with t [m']; set_solver.
    - apply list_elem_of_singleton in Hmin as ->. apply (cmp_le_refl rank_cmp). }
  assert (min = m') as ->.
  { apply (NoDup_fmap_elem_inj sr_id h); [done..|]. apply rank_cmp_Eq_id.
    apply (cmp_le_antisym rank_cmp); [done|].
    by eapply (heap_pop_max rank_cmp). }
  split; [done|]. apply (Permutation_cons_inv (a:=m')).
  rewrite <-Hperm, Hh, Permutation_app_comm. done.
Qed.

Lemma add_distinct cap seen m r :
  0 ≤ cap → NoDup (sr_id <$> r :: seen) →
  distinct_inv cap seen m → distinct_inv cap (r :: seen) (add m r).
Proof.
  intros Hcap Hnd [Hm Hheap Hbest]. simpl in Hnd. apply NoDup_cons in Hnd as [Hr Hnd].
  pose proof (valid_cons r seen) as Hv. unfold add.
  destruct (f32_is_finite (sr_score r)) eqn:Hf; simpl;
    [|split; [done|by rewrite Hv|set_solver]].
  destruct (best_scores m !! sr_id r) as [s|] eqn:E; [destruct Hr; by apply Hbest|].
  assert (∀ t, t ⊆ best_scores m → ∀ id,
    is_Some (<[sr_id r := sr_score r]> t !! id) → id ∈ sr_id <$> r :: seen) as Hb.
  { intros t Ht id [s [[<- <-]|[? Hs]]%lookup_insert_Some]; simpl; [set_solver|].
    apply elem_of_cons. right. apply Hbest. eapply lookup_weaken in Hs; eauto. }
  set (k := Z.to_nat cap) in *. set (T := top_k rank_cmp k (valid seen)) in *.
  assert (length (heap m) = length T) as Hlen by (by rewrite Hheap).
  assert (length T ≤ k)%nat as HT by (unfold T, top_k; rewrite length_take; lia).
  rewrite Hm. destruct (Z.ltb_spec (Zlength (heap m)) cap).
  { split; simpl; [done| |by apply Hb]. rewrite Hv, top_k_cons by apply _.
    rewrite take_ge by (rewrite length_insert_by; fold k T; lia).
    by rewrite insert_by_perm, Hheap. }
  destruct (heap_pop scored_cmp (heap m)) as [[min rest]|] eqn:Hpop.
  2:{ apply heap_pop_None in Hpop. rewrite Hpop in Hlen, H. simpl in *.
      assert (k = 0%nat) as Hk by lia.
      split; [done| |set_solver]. fold k. by rewrite Hk, Hpop. }
  destruct T as [|m' t _] eqn:ET using rev_ind.
  { apply heap_pop_perm in Hpop. rewrite Hheap in Hpop. by apply Permutation_nil_cons in Hpop. }
  assert (StronglySorted (cmp_le rank_cmp) (t ++ [m'])) as Hs by (rewrite <-ET; apply top_k_sorted).
  assert (∀ x, x ∈ heap m → x ∈ seen ∧ finite x) as Hin.
  { intros x. rewrite Hheap, <-ET. unfold T, top_k. intros Hx.
    eapply elem_of_sublist in Hx; [|apply sublist_take].
    rewrite elem_of_sort_by in Hx. by apply list_elem_of_filter in Hx as [? ?]. }
  assert (NoDup (sr_id <$> heap m)) as Hndh.
  { rewrite Hheap, <-ET. unfold T, top_k. rewrite fmap_take.
    eapply sublist_NoDup; [|apply sublist_take].
    rewrite (sort_by_perm rank_cmp). unfold valid.
    eapply sublist_NoDup; [exact Hnd|]. apply fmap_sublist, sublist_filter. }
  destruct (pop_is_last _ _ _ _ _ Hndh (λ x H, proj2 (Hin x H)) Hheap Hs Hpop) as [-> Hrest].
  assert (m' ∈ heap m) as Hm' by (rewrite Hheap; set_solver).
  rewrite length_app in *. simpl in *. assert (k = S (length t)) as Hk by lia.
  destruct (should_insert r m') eqn:Hins.
  - apply should_insert_rank in Hins; [|done|by apply Hin].
    split; simpl; [done| |apply Hb, delete_subseteq].
    rewrite Hv, top_k_cons by apply _. fold k T. rewrite ET, Hk.
    rewrite top_k_replace by done. by rewrite Hrest.
  - split; [done| |set_solver].
    rewrite Hv, top_k_cons by apply _. fold k T. rewrite ET, Hk, top_k_reject; [by rewrite Hheap|apply _|done|].
    destruct (rank_cmp r m') eqn:Hc; [exfalso|exfalso|done].
    + apply Hr. rewrite (rank_cmp_Eq_id _ _ Hc). apply list_elem_of_fmap_2, Hin, Hm'.
    + assert (should_insert r m' = true); [|congruence].
      apply should_insert_rank; [done|by apply Hin|done].
Qed.

Lemma add_results_distinct cap seen m rs :
  0 ≤ cap → NoDup (sr_id <$> reverse rs ++ seen) →
  distinct_inv cap seen m → distinct_inv cap (reverse rs ++ seen) (add_results m rs).
Proof.
  intros Hcap. revert seen m. induction rs as [|r rs IH]; intros seen m Hnd Hinv; [done|].
  simpl. rewrite reverse_cons, <-(assoc_L (++)) in *. simpl in *.
  apply IH; [done|]. apply add_distinct; [done| |done].
  rewrite fmap_app in Hnd. by apply NoDup_app in Hnd as (_ & _ & ?).
Qed.

Lemma add_results_shards m shards :
  foldl add_results m shards = add_results m (mjoin shards).
Proof.
  revert m. induction shards as [|s shards IH]; intros m; [done|].
  simpl. rewrite IH. unfold add_results. by rewrite foldl_app.
Qed.

Lemma finish_eq m :
  finish m = take (Z.to_nat (capacity m))
               (retain_unseen sr_id ∅ (sort_by rank_cmp (valid (heap_order (heap m))))).
Proof.
  unfold finish. fold (valid (heap_order (heap m))).
  rewrite (sort_by_ext finish_cmp rank_cmp); [done|].
  intros x y [? _]%list_elem_of_filter [? _]%list_elem_of_filter. by apply finish_cmp_rank.
Qed.

Lemma elem_of_valid r h : r ∈ valid (heap_order h) ↔ r ∈ h ∧ finite r.
Proof. unfold valid. rewrite list_elem_of_filter, heap_order_perm. naive_solver. Qed.

Lemma finish_sub m r : r ∈ finish m → r ∈ heap m ∧ finite r.
Proof.
  rewrite finish_eq. intros Hr.
  eapply elem_of_sublist in Hr; [|apply sublist_take].
  eapply elem_of_sublist in Hr; [|apply retain_unseen_sublist].
  by rewrite elem_of_sort_by, elem_of_valid in Hr.
Qed.

(** Whatever the shards return, the merged list is ordered best first
    with ties by id, has at most [capacity] entries, no id twice, and every
    entry is a finite result some shard returned. *)
Lemma merge_sound cap shards :
  in_range usize_max cap →
  let out := finish (foldl add_results (new cap) shards) in
  StronglySorted (cmp_le rank_cmp) out ∧ NoDup (sr_id <$> out) ∧
  Zlength out ≤ cap ∧ (∀ r, r ∈ out → r ∈ mjoin shards ∧ finite r).
Proof.
  intros Hcap. rewrite add_results_shards. cbn zeta.
  pose proof (merge_inv cap (mjoin shards) Hcap) as Hinv.
  set (m := add_results (new cap) (mjoin shards)) in *.
  assert (capacity m = cap) as Hm by apply Hinv.
  repeat split.
  - rewrite finish_eq. apply StronglySorted_take.
    eapply StronglySorted_sublist; [apply retain_unseen_sublist|]. apply sort_by_sorted, _.
  - rewrite finish_eq, fmap_take. eapply sublist_NoDup; [|apply sublist_take].
    apply retain_unseen_NoDup.
  - unfold finish. rewrite length_take. int_lia.
  - apply (inv_heap _ _ _ Hinv). by apply finish_sub.
  - by eapply finish_sub.
Qed.

(** C26: with distinct ids the merger computes the top-k of all finite
    results: the same list as sorting everything and truncating. *)
Theorem merge_top_k cap shards :
  in_range usize_max cap → NoDup (sr_id <$> mjoin shards) →
  finish (foldl add_results (new cap) shards)
  = take (Z.to_nat cap) (sort_by finish_cmp (valid (mjoin shards))).
Proof.
  intros Hcap Hnd. rewrite add_results_shards.
  set (rs := mjoin shards) in *. clearbody rs.
  destruct (add_results_distinct cap [] (new cap) rs) as [Hm Hheap _]; [int_lia|..].
  { rewrite app_nil_r. by rewrite reverse_Permutation. }
  { split; simpl; [done|by destruct (Z.to_nat cap)|]. intros id [? ?]. done. }
  rewrite app_nil_r in Hheap.
  set (m := add_results (new cap) rs) in *. set (k := Z.to_nat cap) in *.
  assert (valid (reverse rs) ≡ₚ valid rs) as Hrev by (by rewrite reverse_Permutation).
  assert (∀ x y, x ∈ valid rs → y ∈ valid rs → rank_cmp x y = Eq → x = y) as Heq.
  { intros x y [_ Hx]%list_elem_of_filter [_ Hy]%list_elem_of_filter E.
    apply (NoDup_fmap_elem_inj sr_id rs); [done..|]. by apply rank_cmp_Eq_id. }
  assert (valid (heap_order (heap m)) ≡ₚ top_k rank_cmp k (valid rs)) as Hval.
  { rewrite heap_order_perm, Hheap. unfold top_k.
    rewrite (sort_by_perm_eq rank_cmp (valid rs) (valid (reverse rs))) by done.
    unfold valid at 1. rewrite filter_all; [done|].
    intros x Hx. eapply elem_of_sublist in Hx; [|apply sublist_take].
    rewrite elem_of_sort_by in Hx. by apply list_elem_of_filter in Hx as [? _]. }
  assert (sort_by rank_cmp (valid (heap_order (heap m))) = top_k rank_cmp k (valid rs)) as Hsort.
  { symmetry. apply sort_by_unique; [apply _| |by rewrite Hval|apply top_k_sorted].
    intros x y. rewrite Hval. unfold top_k. intros Hx Hy.
    eapply elem_of_sublist in Hx, Hy; [|apply sublist_take..].
    rewrite elem_of_sort_by in Hx, Hy. by apply Heq. }
  rewrite finish_eq, Hm, Hsort. fold k.
  rewrite (retain_unseen_id sr_id ∅); [|..].
  - unfold top_k. rewrite take_take, Nat.min_id. f_equal. symmetry. apply sort_by_ext.
    intros x y [? _]%list_elem_of_filter [? _]%list_elem_of_filter. by apply finish_cmp_rank.
  - unfold top_k. rewrite fmap_take. eapply sublist_NoDup; [|apply sublist_take].
    rewrite (sort_by_perm rank_cmp). eapply sublist_NoDup; [exact Hnd|].
    apply fmap_sublist, sublist_filter.
  - set_solver.
Qed.

(** A positive-capacity merge always returns, first, a result at least as
    good as every finite result offered, duplicates or not. *)
Lemma merge_best_first cap shards r :
  in_range usize_max cap → 0 < cap → r ∈ mjoin shards → finite r →
  ∃ h tl, finish (foldl add_results (new cap) shards) = h :: tl ∧ score_key r ≤ score_key h.
Proof.
  intros Hcap Hpos Hr Hf. rewrite add_results_shards.
  pose proof (merge_inv cap (mjoin shards) Hcap) as Hinv.
  set (m := add_results (new cap) (mjoin shards)) in *.
  destruct (inv_top _ _ _ Hinv Hpos r Hr Hf) as (h & Hh & Hle).
  assert (h ∈ sort_by rank_cmp (valid (heap_order (heap m)))) as Hin.
  { rewrite elem_of_sort_by, elem_of_valid. split; [done|]. by apply (inv_heap _ _ _ Hinv). }
  pose proof (sort_by_sorted rank_cmp (valid (heap_order (heap m)))) as Hs.
  rewrite finish_eq, (inv_capacity _ _ _ Hinv).
  destruct (sort_by rank_cmp _) as [|y l]; [set_solver|]. simpl.
  destruct (Z.to_nat cap) as [|k] eqn:Ek; [lia|].
  eexists y, _. split; [done|]. etrans; [exact Hle|].
  apply elem_of_cons in Hin as [->|Hin]; [lia|].
  inversion_clear Hs as [|?? _ Hall]. rewrite Forall_forall in Hall.
  specialize (Hall h Hin). unfold cmp_le, rank_cmp in Hall. unfold score_key.
  destruct (Z.compare_spec (f32_key (sr_score h)) (f32_key (sr_score y))); simpl in *; lia || done.
Qed.

(** The heap never holds more than [max(capacity, 3*capacity/2)] entries,
    however many results and duplicates the shards return. *)
Lemma merge_heap_bounded cap shards :
  in_range usize_max cap →
  Zlength (heap (foldl add_results (new cap) shards))
  ≤ Z.max cap (saturating_mul usize_max cap 3 / 2).
Proof.
  intros Hcap. rewrite add_results_shards. apply (inv_size _ _ _ (merge_inv cap _ Hcap)).
Qed.
End merger.
Arguments SearchResult : clear implicits.
Arguments ResultMerger : clear implicits.

(** ** Witnesses *)

Definition hit (id : string) (score : f32) : SearchResult unit := mkSearchResult id score None.

(** 0.125, 0.25, 0.5 and 1.0 as bit patterns, and the positive infinity. *)
Definition s_eighth : f32 := 124 * 2 ^ 23.
Definition s_quarter : f32 := 125 * 2 ^ 23.
Definition s_half : f32 := 126 * 2 ^ 23.
Definition s_inf : f32 := 255 * 2 ^ 23.

Definition two_shards : list (list (SearchResult unit)) :=
  [[hit "b" s_half; hit "a" s_quarter]; [hit "c" f32_one; hit "d" s_inf]].

Lemma reverse_is_order (h : list (SearchResult unit)) : reverse h ≡ₚ h.
Proof. by rewrite reverse_Permutation. Qed.

Lemma merge_sound_witness :
  let out := finish reverse (foldl (add_results reverse) (new 2) two_shards) in
  out = [hit "c" f32_one; hit "b" s_half] ∧ NoDup (sr_id <$> out).
Proof.
  split; [vm_compute; reflexivity|].
  apply (merge_sound reverse reverse_is_order 2 two_shards). int_lia.
Defined.

Lemma merge_top_k_witness :
  finish reverse (foldl (add_results reverse) (new 2) two_shards)
  = take 2 (sort_by finish_cmp (valid (mjoin two_shards))).
Proof.
  apply (merge_top_k reverse reverse_is_order 2 two_shards); [int_lia|].
  apply (bool_decide_unpack _). vm_compute. exact I.
Defined.

Lemma merge_best_first_witness :
  ∃ h tl, finish reverse (foldl (add_results reverse) (new 2) two_shards) = h :: tl
          ∧ score_key (hit "b" s_half) ≤ score_key h.
Proof.
  apply (merge_best_first reverse reverse_is_order 2 two_shards (hit "b" s_half)); [int_lia|lia| |].
  - simpl. set_solver.
  - reflexivity.
Defined.

Lemma merge_heap_bounded_witness :
  Zlength (heap (foldl (add_results reverse) (new 2) two_shards)) ≤ 3.
Proof.
  apply (merge_heap_bounded reverse reverse_is_order 2 two_shards). int_lia.
Defined.

(** The compaction keeps duplicates of one id and drops other ids, so a
      merge can return fewer than [capacity] results although enough distinct
      finite ones were offered: here two ids, capacity two, one result. *)
Lemma merge_loses_distinct_id :
  let shards := [[hit "b" s_eighth; hit "a" s_quarter]; [hit "a" s_half]; [hit "a" f32_one]] in
  finish reverse (foldl (add_results reverse) (new 2) shards) = [hit "a" f32_one]
  ∧ finish id (foldl (add_results id) (new 2) shards) = [hit "a" f32_one].
Proof. split; vm_compute; reflexivity. Qed.
