(* ===== verification/Text.v ===== *)
(** * Text

    Rust strings seen through [str::chars]: a [text] is the list of its Unicode
    scalar values. Byte-level strings (keys, ids, file contents) are Rocq
    strings; this file has the conversions the sources use between the two. *)

From Stdlib Require Import Ascii.
From S2P Require Import Prelude.

Abbreviation text := (list Z).

(** An ASCII literal as text. *)
Definition lit (s : string) : text :=
  (λ c, Z.of_N (N_of_ascii c)) <$> String.list_ascii_of_string s.

(** [usize::to_string]. *)
Definition decimal (n : Z) : string := pretty (Z.to_N n).

Definition is_ascii (c : Z) : bool := c <? 128.

(** [char::is_ascii_whitespace]: space, tab, line feed, form feed, carriage
    return; not the vertical tab. *)
Definition is_ascii_whitespace (c : Z) : bool :=
  (c =? 32) || (c =? 9) || (c =? 10) || (c =? 12) || (c =? 13).

(** [char::is_whitespace]: the Unicode property White_Space. *)
Definition is_whitespace (c : Z) : bool :=
  ((9 <=? c) && (c <=? 13)) || (c =? 32) || (c =? 133) || (c =? 160) || (c =? 5760)
  || ((8192 <=? c) && (c <=? 8202)) || (c =? 8232) || (c =? 8233) || (c =? 8239)
  || (c =? 8287) || (c =? 12288).

Fixpoint trim_start (s : text) : text :=
  match s with
  | [] => []
  | c :: s' => if is_whitespace c then trim_start s' else s
  end.

(** [str::trim]. *)
Definition trim (s : text) : text := reverse (trim_start (reverse (trim_start s))).

(** [slice::join]. *)
Fixpoint join (sep : text) (parts : list text) : text :=
  match parts with
  | [] => []
  | [p] => p
  | p :: ps => p ++ sep ++ join sep ps
  end.

Lemma join_snoc sep parts p :
  parts ≠ [] → join sep (parts ++ [p]) = join sep parts ++ sep ++ p.
Proof.
  induction parts as [|q parts IH]; [done|]. intros _.
  destruct parts as [|r parts]; [done|].
  change (join sep ((q :: r :: parts) ++ [p])) with (q ++ sep ++ join sep ((r :: parts) ++ [p])).
  rewrite IH by done. simpl. by rewrite <-!(assoc_L (++)).
Qed.

Lemma trim_start_nil s : trim_start s = [] ↔ Forall (λ c, is_whitespace c = true) s.
Proof.
  induction s as [|c s IH]; simpl; [by split; [constructor|]|].
  rewrite Forall_cons. destruct (is_whitespace c); naive_solver.
Qed.

Lemma trim_nil s : trim s = [] ↔ Forall (λ c, is_whitespace c = true) s.
Proof.
  unfold trim. split.
  - intros E. apply (f_equal reverse) in E. rewrite reverse_involutive in E. simpl in E.
    apply trim_start_nil in E. rewrite Forall_reverse in E.
    induction s as [|c s IH]; simpl in *; [constructor|].
    destruct (is_whitespace c) eqn:Hc; [constructor; auto|done].
  - intros E. apply trim_start_nil in E. by rewrite E.
Qed.

(** ** Hashing

    FNV-1a on the bytes of a string, at 64 bits. *)

Definition byte_of (c : ascii) : Z := Z.of_N (N_of_ascii c).

Definition fnv_step (hash byte : Z) : Z :=
  wrapping u64_max (Z.lxor hash byte * 1099511628211).

Definition fnv_bytes (hash : Z) (s : string) : Z :=
  foldl fnv_step hash (byte_of <$> String.list_ascii_of_string s).

Definition FNV_OFFSET_BASIS : Z := 14695981039346656037.

(** ** Length-prefixed components of keys *)

(** The digits of a length contain no colon. *)
Fixpoint no_colon (s : string) : Prop :=
  match s with
  | EmptyString => True
  | String c s => c ≠ ":"%char ∧ no_colon s
  end.

Lemma pretty_N_char_no_colon x : pretty_N_char x ≠ ":"%char.
Proof. unfold pretty_N_char. repeat case_match; done. Qed.

Lemma pretty_N_go_no_colon x s : no_colon s → no_colon (pretty_N_go x s).
Proof.
  revert s. induction (N.lt_wf_0 x) as [x _ IH]; intros s Hs.
  destruct (decide (x = 0%N)) as [->|]; [by rewrite pretty_N_go_0|].
  rewrite pretty_N_go_step by lia. apply IH.
  - apply N.div_lt; lia.
  - split; [apply pretty_N_char_no_colon|done].
Qed.

Lemma decimal_no_colon n : no_colon (decimal n).
Proof.
  unfold decimal, pretty, pretty_N. case_decide; [by split|].
  by apply pretty_N_go_no_colon.
Qed.

Lemma decimal_inj n m : 0 ≤ n → 0 ≤ m → decimal n = decimal m → n = m.
Proof. unfold decimal. intros ?? E%(inj (pretty (A:=N))). lia. Qed.

Lemma no_colon_split a b x y :
  no_colon a → no_colon b → a +:+ ":" +:+ x = b +:+ ":" +:+ y → a = b ∧ x = y.
Proof.
  revert b. induction a as [|c a IH]; intros [|d b] Ha Hb; simpl; intros E.
  - injection E as E. simpl in E. by subst.
  - injection E as <- _. by destruct Hb.
  - injection E as -> _. by destruct Ha.
  - injection E as -> E. destruct Ha, Hb. destruct (IH b) as [-> ->]; auto.
Qed.

Lemma app_same_length a b x y :
  String.length a = String.length b → a +:+ x = b +:+ y → a = b ∧ x = y.
Proof.
  revert b. induction a as [|c a IH]; intros [|d b]; simpl; intros Hl E; try done.
  injection E as -> E. destruct (IH b) as [-> ->]; auto.
Qed.

Lemma app_assoc_str a b c : (a +:+ b) +:+ c = a +:+ b +:+ c.
Proof.
  induction a as [|ch a IH]; [done|].
  change (String ch ((a +:+ b) +:+ c) = String ch (a +:+ b +:+ c)). by rewrite IH.
Qed.

(** ** Characters of a byte string *)

(** The scalar values of well-formed UTF-8 ([str::chars]). *)
Fixpoint utf8_chars (l : list Z) : text :=
  match l with
  | [] => []
  | b :: l1 =>
      if b <? 128 then b :: utf8_chars l1
      else match l1 with
           | [] => []
           | b1 :: l2 =>
               if b <? 224 then (b - 192) * 64 + (b1 - 128) :: utf8_chars l2
               else match l2 with
                    | [] => []
                    | b2 :: l3 =>
                        if b <? 240 then
                          (b - 224) * 4096 + (b1 - 128) * 64 + (b2 - 128) :: utf8_chars l3
                        else match l3 with
                             | [] => []
                             | b3 :: l4 =>
                                 (b - 240) * 262144 + (b1 - 128) * 4096 + (b2 - 128) * 64 + (b3 - 128)
                                   :: utf8_chars l4
                             end
                    end
           end
  end.

Definition str_chars (s : string) : text := utf8_chars (byte_of <$> String.list_ascii_of_string s).

(** [char::is_control]: the category Cc. *)
Definition is_control (c : Z) : bool := (c <? 32) || ((127 <=? c) && (c <=? 159)).

Example chars_of_euro : str_chars (String "226" (String "130" (String "172" ""))) = [8364].
Proof. reflexivity. Qed.

(** The Unicode tables of [char] and [str::to_lowercase]. *)
Class CharTables := {
  is_alphanumeric : Z → bool;
  is_uppercase : Z → bool;
  is_lowercase : Z → bool;
  is_numeric : Z → bool;
  to_lowercase : text → text;
}.

Module AsciiTables.
(** The tables on ASCII. *)
Definition upper (c : Z) : bool := (65 <=? c) && (c <=? 90).
Definition lower (c : Z) : bool := (97 <=? c) && (c <=? 122).
Definition digit (c : Z) : bool := (48 <=? c) && (c <=? 57).

#[export] Instance ascii : CharTables := {|
  is_alphanumeric c := upper c || lower c || digit c;
  is_uppercase := upper;
  is_lowercase := lower;
  is_numeric := digit;
  to_lowercase := fmap (λ c, if upper c then c + 32 else c);
|}.
End AsciiTables.

(** ** Bytes of a string *)

(** [value.len()]. *)
Definition byte_len (value : string) : Z := Z.of_nat (String.length value).

Abbreviation is_byte := (λ b, 0 ≤ b < 256).

Definition string_of_bytes (l : list Z) : string :=
  String.string_of_list_ascii ((λ b, ascii_of_N (Z.to_N b)) <$> l).

Lemma string_of_bytes_length l : String.length (string_of_bytes l) = length l.
Proof.
  unfold string_of_bytes. induction l as [|b l IH]; [done|]. rewrite fmap_cons. cbn [String.string_of_list_ascii String.length length]. by f_equal.
Qed.

Lemma string_of_bytes_inj l k :
  Forall is_byte l → Forall is_byte k → string_of_bytes l = string_of_bytes k → l = k.
Proof.
  unfold string_of_bytes. intros Hl. revert k. induction Hl as [|b l Hb Hl IH]; intros k Hk E.
  { destruct k; [done|discriminate]. }
  destruct Hk as [|c k Hc Hk]; [discriminate|]. cbn in E. injection E as Ebc E.
  f_equal; [|by apply IH]. apply (f_equal N_of_ascii) in Ebc.
  rewrite !N_ascii_embedding in Ebc by lia. lia.
Qed.

(** ** Characters to bytes *)

Definition utf8_char (c : Z) : list Z :=
  if c <? 128 then [c]
  else if c <? 2048 then [192 + c / 64; 128 + c mod 64]
  else if c <? 65536 then [224 + c / 4096; 128 + (c / 64) mod 64; 128 + c mod 64]
  else [240 + c / 262144; 128 + (c / 4096) mod 64; 128 + (c / 64) mod 64; 128 + c mod 64].

Definition text_string (t : text) : string := string_of_bytes (concat (utf8_char <$> t)).

(** ** Searching and splitting *)

(** [str::split] on a character: one part more than it has occurrences. *)
Fixpoint split_on (c : Z) (t : text) : list text :=
  match t with
  | [] => [[]]
  | x :: t =>
      if x =? c then [] :: split_on c t
      else match split_on c t with
           | p :: ps => (x :: p) :: ps
           | [] => [[x]]
           end
  end.

(** [str::split_whitespace]: the maximal runs without whitespace. *)
Fixpoint words_from (cur t : text) : list text :=
  let out := match cur with [] => [] | _ => [reverse cur] end in
  match t with
  | [] => out
  | x :: t => if is_whitespace x then out ++ words_from [] t else words_from (x :: cur) t
  end.

Definition split_whitespace (t : text) : list text := words_from [] t.

Fixpoint is_prefix_text (p t : text) : bool :=
  match p, t with
  | [], _ => true
  | x :: p, y :: t => (x =? y) && is_prefix_text p t
  | _ :: _, [] => false
  end.

(** [str::contains]. *)
Fixpoint contains_text (t p : text) : bool :=
  is_prefix_text p t || match t with [] => false | _ :: t => contains_text t p end.
