(* ===== verification/Packer.v ===== *)
(** * The context packer

    [crates/retrieval/src/packer.rs]: greedy packing of ranked passages into a
    token budget, with a citation for every packed passage. Token counts are
    [nat]: they are bounded by twice the number of characters in memory, far
    from the width of [usize]. *)

From S2P Require Import Prelude Float32 Text.

Record Citation := mkCitation {
  source_uri : text;
  span : option (Z * Z);
  version : option text;
}.

Definition citation_new (uri : text) : Citation :=
  {| source_uri := uri; span := None; version := None |}.

Definition with_span (c : Citation) (start end_ : Z) : Citation :=
  {| source_uri := source_uri c;
     span := Some (if start <=? end_ then (start, end_) else (end_, start));
     version := version c |}.

Definition with_version (c : Citation) (v : text) : Citation :=
  {| source_uri := source_uri c; span := span c; version := Some v |}.

Definition marker (c : Citation) : text :=
  let m := source_uri c in
  let m := match version c with Some v => m ++ lit "@" ++ v | None => m end in
  match span c with
  | Some (s, e) => m ++ lit "#" ++ lit (decimal s) ++ lit ":" ++ lit (decimal e)
  | None => m
  end.

Record Passage := mkPassage {
  p_id : string;
  p_text : text;
  p_score : f32;
  p_citation : Citation;
}.

Definition passage_new (id : string) (t : text) (score : f32) (c : Citation) : Passage :=
  {| p_id := id; p_text := t;
     p_score := if f32_is_finite score then score else f32_zero;
     p_citation := c |}.

Inductive PackStrategy := StrategyCitation | StrategyCompact | StrategyFull.

Record PackerConfig := mkPackerConfig {
  token_budget : nat;
  strategy : PackStrategy;
  separator : text;
}.

Definition newline : text := [10].

Definition packer_config_default : PackerConfig :=
  {| token_budget := 1024; strategy := StrategyCitation; separator := newline ++ newline |}.

Record ContextPack := mkPack {
  pack_text : text;
  citations : list Citation;
  included : list string;
  dropped : list string;
  used_tokens : nat;
}.

(** [usize::div_ceil] by 4. *)
Definition ceil4 (n : nat) : nat := (n + 3) / 4.

Definition flush_ascii (st : nat * nat) : nat * nat :=
  let '(tokens, ascii_run) := st in
  if (0 <? ascii_run)%nat then ((tokens + Nat.max (ceil4 ascii_run) 1)%nat, 0%nat) else st.

Definition estimate_step (st : nat * nat) (ch : Z) : nat * nat :=
  if is_ascii ch && negb (is_ascii_whitespace ch) then (st.1, S st.2)
  else if is_ascii_whitespace ch then flush_ascii st
  else let st := flush_ascii st in ((st.1 + 2)%nat, st.2).

Definition estimate_tokens (t : text) : nat :=
  fst (flush_ascii (foldl estimate_step (0%nat, 0%nat) t)).

Definition render (p : Passage) (s : PackStrategy) : text :=
  match s with
  | StrategyCompact => p_text p
  | StrategyCitation => lit "[" ++ marker (p_citation p) ++ lit "] " ++ p_text p
  | StrategyFull =>
      let s := p_text p ++ newline ++ [8212] ++ lit " source: " ++ source_uri (p_citation p) in
      let s := match version (p_citation p) with
               | Some v => s ++ lit " (" ++ v ++ lit ")"
               | None => s
               end in
      match span (p_citation p) with
      | Some (b, e) => s ++ lit " [" ++ lit (decimal b) ++ lit ":" ++ lit (decimal e) ++ lit "]"
      | None => s
      end
  end.

(** The five locals of [pack]'s loop. *)
Record PackState := mkPackState {
  parts : list text;
  ps_citations : list Citation;
  ps_included : list string;
  ps_dropped : list string;
  ps_used : nat;
}.

Definition pack_step (config : PackerConfig) (st : PackState) (p : Passage) : PackState :=
  let drop := {| parts := parts st; ps_citations := ps_citations st;
                 ps_included := ps_included st; ps_dropped := ps_dropped st ++ [p_id p];
                 ps_used := ps_used st |} in
  if decide (trim (p_text p) = []) then drop else
  let rendered := render p (strategy config) in
  let rendered_tokens := estimate_tokens rendered in
  let added := match parts st with
               | [] => rendered_tokens
               | _ => (rendered_tokens + estimate_tokens (separator config))%nat
               end in
  if (ps_used st + added <=? token_budget config)%nat then
    {| parts := parts st ++ [rendered];
       ps_citations := ps_citations st ++ [p_citation p];
       ps_included := ps_included st ++ [p_id p];
       ps_dropped := ps_dropped st;
       ps_used := ps_used st + added |}
  else drop.

Definition pack_init : PackState := mkPackState [] [] [] [] 0.

Definition pack (passages : list Passage) (config : PackerConfig) : ContextPack :=
  let st := foldl (pack_step config) pack_init passages in
  {| pack_text := join (separator config) (parts st);
     citations := ps_citations st;
     included := ps_included st;
     dropped := ps_dropped st;
     used_tokens := ps_used st |}.

Record CitationSpanV1 := mkSpanV1 { span_start : Z; span_end : Z; span_unit : string }.

Record CitationItemV1 := mkItemV1 {
  item_id : string;
  item_source_uri : text;
  item_chunk_id : option string;
  item_span : option CitationSpanV1;
  item_version : option text;
  item_score : f32;
  item_text : text;
}.

Record CitationDocumentV1 := mkDocV1 {
  schema_version : string;
  items : list CitationItemV1;
  doc_token_budget : nat;
  doc_used_tokens : nat;
  doc_text : text;
}.

Definition to_citation_document_v1 (p : ContextPack) (budget : nat) (scores : list f32)
    : CitationDocumentV1 :=
  {| schema_version := "akidb.citation.v1";
     items := imap (λ i '(id, cite),
       {| item_id := id;
          item_source_uri := source_uri cite;
          item_chunk_id := Some id;
          item_span := (λ '(s, e), mkSpanV1 s e "byte") <$> span cite;
          item_version := version cite;
          item_score := default f32_zero (scores !! i);
          item_text := [] |}) (zip (included p) (citations p));
     doc_token_budget := budget;
     doc_used_tokens := used_tokens p;
     doc_text := pack_text p |}.

(** ** The token estimate is subadditive *)

(** The estimate as a recursion on the text, from a pending ASCII run. *)
Fixpoint estimate_from (run : nat) (t : text) : nat :=
  match t with
  | [] => ceil4 run
  | ch :: t' =>
      if is_ascii ch && negb (is_ascii_whitespace ch) then estimate_from (S run) t'
      else if is_ascii_whitespace ch then (ceil4 run + estimate_from 0 t')%nat
      else (ceil4 run + 2 + estimate_from 0 t')%nat
  end.

Lemma ceil4_add a b : (ceil4 (a + b) ≤ ceil4 a + ceil4 b)%nat.
Proof.
  unfold ceil4. rewrite <-Nat.lt_succ_r. apply Nat.Div0.div_lt_upper_bound.
  pose proof (Nat.div_mod_eq (a + 3) 4). pose proof (Nat.div_mod_eq (b + 3) 4).
  pose proof (Nat.mod_upper_bound (a + 3) 4). pose proof (Nat.mod_upper_bound (b + 3) 4). lia.
Qed.

Lemma flush_ascii_fst tokens run : fst (flush_ascii (tokens, run)) = (tokens + ceil4 run)%nat.
Proof.
  unfold flush_ascii. destruct run as [|run]; simpl; [unfold ceil4; simpl; lia|].
  assert (1 ≤ ceil4 (S run))%nat; [|lia].
  unfold ceil4. apply Nat.div_le_lower_bound; lia.
Qed.

Lemma flush_ascii_eq tokens run : flush_ascii (tokens, run) = ((tokens + ceil4 run)%nat, 0%nat).
Proof.
  rewrite <-flush_ascii_fst. unfold flush_ascii. by destruct run.
Qed.

Lemma estimate_fold t tokens run :
  fst (flush_ascii (foldl estimate_step (tokens, run) t)) = (tokens + estimate_from run t)%nat.
Proof.
  revert tokens run. induction t as [|ch t IH]; intros tokens run; simpl.
  { apply flush_ascii_fst. }
  unfold estimate_step at 2. rewrite flush_ascii_eq.
  destruct (is_ascii ch && negb (is_ascii_whitespace ch)); simpl; [apply IH|].
  destruct (is_ascii_whitespace ch); simpl; rewrite IH; lia.
Qed.

Lemma estimate_tokens_from t : estimate_tokens t = estimate_from 0 t.
Proof. unfold estimate_tokens. by rewrite estimate_fold. Qed.

Lemma estimate_from_add a b t : (estimate_from (a + b) t ≤ ceil4 a + estimate_from b t)%nat.
Proof.
  revert b. induction t as [|ch t IH]; intros b; simpl; [apply ceil4_add|].
  pose proof (ceil4_add a b).
  destruct (is_ascii ch && _); [|destruct (is_ascii_whitespace ch); lia].
  specialize (IH (S b)). by rewrite Nat.add_succ_r in IH.
Qed.

Lemma estimate_from_app run s t :
  (estimate_from run (s ++ t) ≤ estimate_from run s + estimate_from 0 t)%nat.
Proof.
  revert run. induction s as [|ch s IH]; intros run; simpl.
  { pose proof (estimate_from_add run 0 t) as Hle. by rewrite Nat.add_0_r in Hle. }
  destruct (is_ascii ch && _); [apply IH|].
  specialize (IH 0%nat). destruct (is_ascii_whitespace ch); lia.
Qed.

Lemma estimate_tokens_app s t :
  (estimate_tokens (s ++ t) ≤ estimate_tokens s + estimate_tokens t)%nat.
Proof. rewrite !estimate_tokens_from. apply estimate_from_app. Qed.

#[export] Hint Resolve estimate_tokens_app : akidb.

(** ** The packing loop *)

(** What the loop has decided after a prefix of the passages: [taken] are the
    passages it packed. *)
Record pack_inv (config : PackerConfig) (seen taken : list Passage) (st : PackState) : Prop := {
  pi_sub : taken `sublist_of` seen;
  pi_parts : parts st = (λ p, render p (strategy config)) <$> taken;
  pi_citations : ps_citations st = p_citation <$> taken;
  pi_included : ps_included st = p_id <$> taken;
  pi_perm : ps_included st ++ ps_dropped st ≡ₚ p_id <$> seen;
  pi_budget : (ps_used st ≤ token_budget config)%nat;
  pi_text : (estimate_tokens (join (separator config) (parts st)) ≤ ps_used st)%nat;
  pi_visible : ∀ p, p ∈ taken → trim (p_text p) ≠ [];
}.

Lemma pack_init_inv config : pack_inv config [] [] pack_init.
Proof.
  split; simpl; try done; try (by constructor); try lia.
  set_solver.
Qed.

Lemma estimate_join_snoc config st rendered :
  (estimate_tokens (join (separator config) (parts st)) ≤ ps_used st)%nat →
  (estimate_tokens (join (separator config) (parts st ++ [rendered])) ≤
   ps_used st + match parts st with
                | [] => estimate_tokens rendered
                | _ => (estimate_tokens rendered + estimate_tokens (separator config))%nat
                end)%nat.
Proof.
  intros Hle. destruct (parts st) as [|q l] eqn:E; [simpl; lia|].
  rewrite join_snoc by done.
  pose proof (estimate_tokens_app (join (separator config) (q :: l)) (separator config ++ rendered)).
  pose proof (estimate_tokens_app (separator config) rendered). lia.
Qed.

Lemma pack_step_inv config seen taken st p :
  pack_inv config seen taken st →
  pack_inv config (seen ++ [p]) taken (pack_step config st p) ∨
  pack_inv config (seen ++ [p]) (taken ++ [p]) (pack_step config st p).
Proof.
  intros [Hsub Hparts Hcit Hinc Hperm Hbud Htext Hvis].
  assert (pack_inv config (seen ++ [p]) taken
    {| parts := parts st; ps_citations := ps_citations st; ps_included := ps_included st;
       ps_dropped := ps_dropped st ++ [p_id p]; ps_used := ps_used st |}) as Hdrop.
  { split; simpl; try done; [by apply sublist_inserts_r|].
    rewrite fmap_app, (assoc_L (++)), Hperm. done. }
  unfold pack_step. case_decide as Htrim; [by left|].
  pose proof (estimate_join_snoc config st (render p (strategy config)) Htext) as Hsnoc.
  destruct (Nat.leb_spec
    (ps_used st + match parts st with
                  | [] => estimate_tokens (render p (strategy config))
                  | _ => (estimate_tokens (render p (strategy config))
                          + estimate_tokens (separator config))%nat
                  end) (token_budget config)); [right|by left].
  split; simpl; try done.
  - by apply sublist_app.
  - rewrite fmap_app. by f_equal.
  - rewrite fmap_app. by f_equal.
  - rewrite fmap_app. by f_equal.
  - rewrite fmap_app, <-Hperm, <-(assoc_L (++)).
    rewrite (Permutation_app_comm [p_id p]). by rewrite (assoc_L (++)).
  - intros q. rewrite elem_of_app, list_elem_of_singleton. intros [? | ->]; auto.
Qed.

Lemma pack_loop_inv config ps seen taken st :
  pack_inv config seen taken st →
  ∃ taken', pack_inv config (seen ++ ps) taken' (foldl (pack_step config) st ps).
Proof.
  revert seen taken st. induction ps as [|p ps IH]; intros seen taken st Hinv; simpl.
  { exists taken. by rewrite app_nil_r. }
  replace (seen ++ p :: ps) with ((seen ++ [p]) ++ ps) by (by rewrite <-(assoc_L (++))).
  destruct (pack_step_inv _ _ _ _ p Hinv); by eapply IH.
Qed.

Lemma pack_inv_all config ps :
  ∃ taken, pack_inv config ps taken (foldl (pack_step config) pack_init ps).
Proof. apply (pack_loop_inv config ps [] []), pack_init_inv. Qed.

(** C36: the packed text, as assembled with its separators and citation
    markers, costs at most [used_tokens] under the packer's own counter, and
    [used_tokens] is at most the budget. *)
Theorem pack_within_budget passages config :
  let p := pack passages config in
  (estimate_tokens (pack_text p) ≤ used_tokens p)%nat ∧ (used_tokens p ≤ token_budget config)%nat.
Proof. destruct (pack_inv_all config passages) as [taken []]. by split. Qed.

(** Every passage is either included or dropped, exactly once; the included
    ones keep their rank order, are not blank, and the i-th citation and the
    i-th rendered part are those of the i-th included passage. *)
Lemma pack_grounded passages config :
  ∃ taken, let p := pack passages config in
    taken `sublist_of` passages ∧
    (∀ q, q ∈ taken → trim (p_text q) ≠ []) ∧
    included p = p_id <$> taken ∧ citations p = p_citation <$> taken ∧
    pack_text p = join (separator config) ((λ q, render q (strategy config)) <$> taken) ∧
    included p ++ dropped p ≡ₚ p_id <$> passages.
Proof.
  destruct (pack_inv_all config passages) as [taken [Hsub Hparts Hcit Hinc Hperm ? ? Hvis]].
  exists taken. simpl. by rewrite <-Hparts.
Qed.

(** ** Nothing that fits is dropped *)

Definition visible (ps : list Passage) : list Passage :=
  filter (λ p, trim (p_text p) ≠ []) ps.

(** The cost of packing [ps], separators included. *)
Definition pack_cost (config : PackerConfig) (ps : list Passage) : nat :=
  sum_list ((λ p, estimate_tokens (render p (strategy config))) <$> ps)
  + (length ps - 1) * estimate_tokens (separator config).

Lemma pack_cost_snoc config ps p :
  pack_cost config (ps ++ [p]) =
  (pack_cost config ps
   + match ps with
     | [] => estimate_tokens (render p (strategy config))
     | _ => (estimate_tokens (render p (strategy config)) + estimate_tokens (separator config))%nat
     end)%nat.
Proof.
  unfold pack_cost. rewrite fmap_app, sum_list_with_app, length_app. simpl.
  destruct ps; simpl; nia.
Qed.

Lemma visible_snoc ps p :
  visible (ps ++ [p]) = visible ps ++ if decide (trim (p_text p) = []) then [] else [p].
Proof.
  unfold visible. rewrite filter_app, filter_cons, filter_nil.
  by repeat case_decide.
Qed.

Lemma pack_loop_fits config ps :
  (pack_cost config (visible ps) ≤ token_budget config)%nat →
  let st := foldl (pack_step config) pack_init ps in
  parts st = (λ p, render p (strategy config)) <$> visible ps ∧
  ps_included st = p_id <$> visible ps ∧ ps_used st = pack_cost config (visible ps).
Proof.
  induction ps as [|p ps IH] using rev_ind; [done|].
  rewrite visible_snoc, foldl_snoc. unfold pack_step at 1.
  case_decide as Ht; [rewrite app_nil_r; apply IH|].
  rewrite pack_cost_snoc. intros Hfit. destruct IH as (Hp & Hi & Hu); [lia|].
  rewrite Hp, Hu.
  assert (∀ A (a b : A), match (λ p, render p (strategy config)) <$> visible ps with
                         | [] => a | _ => b end
          = match visible ps with [] => a | _ => b end) as E by (intros; by destruct (visible ps)).
  cbn zeta. rewrite !E, (proj2 (Nat.leb_le _ _)) by lia. simpl. rewrite Hi, !fmap_app. done.
Qed.

(** When the visible passages fit the budget together, all of them are
    packed, in order. *)
Lemma pack_complete passages config :
  (pack_cost config (visible passages) ≤ token_budget config)%nat →
  included (pack passages config) = p_id <$> visible passages.
Proof. intros Hfit. by apply (pack_loop_fits config passages Hfit). Qed.

Definition demo_passages : list Passage :=
  [passage_new "a" (lit "graph search") f32_one (with_span (citation_new (lit "f.rs")) 42 10);
   passage_new "b" (lit "  ") f32_one (citation_new (lit "g.rs"));
   passage_new "c" (lit "bounded") f32_one (with_version (citation_new (lit "h.rs")) (lit "v2"))].

Lemma pack_complete_witness :
  included (pack demo_passages packer_config_default) = ["a"; "c"].
Proof.
  transitivity (p_id <$> visible demo_passages).
  - apply (pack_complete demo_passages packer_config_default).
    apply Nat.leb_le. vm_compute. reflexivity.
  - vm_compute. reflexivity.
Defined.
