(* ===== verification/Crc32.v ===== *)
(** * CRC-32 and little-endian integers

    The checksum of [crates/storage/src/wal.rs] (IEEE polynomial, table
    driven), its equivalence with the bit-at-a-time definition of the code,
    and the [u32] little-endian encoding the log frames use. *)

From S2P Require Import Prelude.

Abbreviation bytes := (list Z).

Definition crc_poly : Z := 3988292384. (* 0xEDB88320 *)

(** One bit of the division. *)
Definition crc_bit (crc : Z) : Z :=
  if negb (Z.land crc 1 =? 0) then Z.lxor (Z.shiftr crc 1) crc_poly else Z.shiftr crc 1.

(** The inner loop of the table's initialiser: eight bits. *)
Definition crc_byte (crc : Z) : Z := Nat.iter 8 crc_bit crc.

(** [CRC_TABLE]. *)
Definition crc_table : list Z := crc_byte <$> seqZ 0 256.

Definition crc_update (crc byte : Z) : Z :=
  let idx := Z.land (Z.lxor crc byte) 255 in
  Z.lxor (Z.shiftr crc 8) (default 0 (crc_table !! Z.to_nat idx)).

(** [!crc] on a [u32]. *)
Definition u32_not (x : Z) : Z := Z.lxor x u32_max.

Definition crc32 (data : bytes) : Z := u32_not (foldl crc_update u32_max data).

(** The check value every CRC-32 implementation is tested with: the checksum
    of the digits 1 to 9 is 0xCBF43926. *)
Example crc32_check : crc32 [49; 50; 51; 52; 53; 54; 55; 56; 57] = 3421780262.
Proof. vm_compute. reflexivity. Qed.

(** ** The reference: no table, one bit at a time *)

Definition crc32_bitwise (data : bytes) : Z :=
  u32_not (foldl (λ crc byte, crc_byte (Z.lxor crc byte)) u32_max data).

Lemma crc_bit_lxor a b : crc_bit (Z.lxor a b) = Z.lxor (crc_bit a) (crc_bit b).
Proof.
  assert (∀ x, crc_bit x = Z.lxor (Z.shiftr x 1) (if Z.testbit x 0 then crc_poly else 0)) as E.
  { intros x. unfold crc_bit. change 1 with (Z.ones 1) at 1.
    rewrite Z.land_ones by lia. rewrite <-Z.bit0_mod.
    destruct (Z.testbit x 0); simpl; [done|]. by rewrite Z.lxor_0_r. }
  rewrite !E, Z.shiftr_lxor, Z.lxor_spec. apply Z.bits_inj. intros n.
  destruct (Z.testbit a 0), (Z.testbit b 0); cbn [xorb];
    rewrite !Z.lxor_spec, ?Z.bits_0;
    repeat match goal with |- context [Z.testbit ?x n] => destruct (Z.testbit x n) end; done.
Qed.

Lemma crc_byte_lxor a b : crc_byte (Z.lxor a b) = Z.lxor (crc_byte a) (crc_byte b).
Proof. unfold crc_byte. simpl. by rewrite !crc_bit_lxor. Qed.

(** Bits above the low one only shift down. *)
Lemma crc_bit_shift n x : crc_bit (Z.shiftl x (Z.of_nat (S n))) = Z.shiftl x (Z.of_nat n).
Proof.
  unfold crc_bit. change 1 with (Z.ones 1) at 1. rewrite Z.land_ones by lia.
  rewrite <-Z.bit0_mod, Z.shiftl_spec_low by lia. simpl.
  rewrite <-Z.shiftl_opp_r, Z.shiftl_shiftl by lia. f_equal. lia.
Qed.

Lemma crc_byte_high x : crc_byte (Z.shiftl x 8) = x.
Proof.
  unfold crc_byte. cbn [Nat.iter nat_rect].
  rewrite (crc_bit_shift 7), (crc_bit_shift 6), (crc_bit_shift 5), (crc_bit_shift 4),
    (crc_bit_shift 3), (crc_bit_shift 2), (crc_bit_shift 1), (crc_bit_shift 0).
  apply Z.shiftl_0_r.
Qed.

(** A word is its high part shifted up, with its low byte. *)
Lemma split_low_byte x : x = Z.lxor (Z.shiftl (Z.shiftr x 8) 8) (Z.land x 255).
Proof.
  change 255 with (Z.ones 8). apply Z.bits_inj'. intros n Hn.
  rewrite Z.lxor_spec, Z.land_spec, Z.testbit_ones by lia.
  destruct (Z.ltb_spec n 8).
  - rewrite Z.shiftl_spec_low by lia. rewrite (proj2 (Z.leb_le 0 n)) by lia.
    by rewrite andb_true_r.
  - rewrite Z.shiftl_spec, Z.shiftr_spec by lia.
    rewrite !andb_false_r, xorb_false_r. f_equal. lia.
Qed.

Lemma shiftr_lxor_byte crc byte :
  is_u8 byte → Z.shiftr (Z.lxor crc byte) 8 = Z.shiftr crc 8.
Proof.
  unfold in_range, u8_max. intros Hb. rewrite Z.shiftr_lxor.
  rewrite (Z.shiftr_div_pow2 byte), Z.div_small, Z.lxor_0_r by lia. done.
Qed.

Lemma low_byte_range x : 0 ≤ Z.land x 255 < 256.
Proof. change 255 with (Z.ones 8). rewrite Z.land_ones by lia. apply Z.mod_pos_bound. lia. Qed.

Lemma crc_table_lookup i : 0 ≤ i < 256 → crc_table !! Z.to_nat i = Some (crc_byte i).
Proof.
  intros Hi. unfold crc_table. rewrite list_lookup_fmap, lookup_seqZ_lt by lia.
  simpl. do 2 f_equal. lia.
Qed.

Lemma crc_update_bitwise crc byte :
  is_u8 byte → crc_update crc byte = crc_byte (Z.lxor crc byte).
Proof.
  intros Hb. unfold crc_update. rewrite crc_table_lookup by apply low_byte_range. simpl.
  rewrite (split_low_byte (Z.lxor crc byte)) at 2.
  by rewrite crc_byte_lxor, crc_byte_high, shiftr_lxor_byte.
Qed.

(** C40: the table-driven checksum of the log equals the bit-at-a-time CRC-32
    on every byte string. *)
Theorem crc32_table_correct data :
  Forall is_u8 data → crc32 data = crc32_bitwise data.
Proof.
  unfold crc32, crc32_bitwise. intros Hd. f_equal. generalize u32_max.
  induction Hd as [|byte data Hb _ IH]; intros crc; simpl; [done|].
  by rewrite crc_update_bitwise, IH.
Qed.

Lemma crc32_table_correct_witness :
  crc32 [49; 50; 51] = crc32_bitwise [49; 50; 51].
Proof. apply (crc32_table_correct [49; 50; 51]). repeat constructor; int_lia. Defined.

(** ** The checksum is a [u32] *)

Lemma lxor_u32 a b : is_u32 a → is_u32 b → is_u32 (Z.lxor a b).
Proof.
  unfold in_range, u32_max. intros [Ha Ha'] [Hb Hb'].
  assert (0 ≤ Z.lxor a b) by (apply Z.lxor_nonneg; lia). split; [done|].
  assert (Z.lxor a b < 2 ^ 32); [|lia].
  destruct (Z.eq_dec (Z.lxor a b) 0) as [->|]; [lia|].
  apply Z.log2_lt_pow2; [lia|].
  eapply Z.le_lt_trans; [apply Z.log2_lxor; lia|].
  assert (∀ x, 0 ≤ x ≤ 2 ^ 32 - 1 → Z.log2 x < 32) as Hlog.
  { intros x Hx. destruct (Z.eq_dec x 0) as [->|]; [done|]. apply Z.log2_lt_pow2; lia. }
  pose proof (Hlog a). pose proof (Hlog b). lia.
Qed.

Lemma crc_bit_u32 x : is_u32 x → is_u32 (crc_bit x).
Proof.
  intros Hx. assert (is_u32 (Z.shiftr x 1)).
  { unfold in_range in *. rewrite Z.shiftr_div_pow2 by lia.
    split; [apply Z.div_pos; lia|]. etrans; [|apply Hx]. apply Z.div_le_upper_bound; lia. }
  unfold crc_bit. case_match; [|done]. apply lxor_u32; [done|]. by unfold crc_poly; int_lia.
Qed.

Lemma crc_byte_u32 x : is_u32 x → is_u32 (crc_byte x).
Proof. intros. unfold crc_byte. simpl. by repeat apply crc_bit_u32. Qed.

Lemma crc_update_u32 crc byte : is_u32 crc → is_u32 (crc_update crc byte).
Proof.
  intros Hc. unfold crc_update. rewrite crc_table_lookup by apply low_byte_range. simpl.
  apply lxor_u32.
  - unfold in_range in *. rewrite Z.shiftr_div_pow2 by lia.
    split; [apply Z.div_pos; lia|]. etrans; [|apply Hc]. apply Z.div_le_upper_bound; lia.
  - apply crc_byte_u32. pose proof (low_byte_range (Z.lxor crc byte)). int_lia.
Qed.

Lemma crc32_u32 data : is_u32 (crc32 data).
Proof.
  unfold crc32, u32_not. apply lxor_u32; [|int_lia].
  assert (is_u32 u32_max) as H by int_lia. revert H. generalize u32_max at 2 4.
  induction data as [|b data IH]; intros crc Hc; simpl; [done|].
  by apply IH, crc_update_u32.
Qed.

(** ** Little-endian [u32] *)

Definition to_le_bytes (n : Z) : bytes :=
  [n mod 256; (n / 2 ^ 8) mod 256; (n / 2 ^ 16) mod 256; (n / 2 ^ 24) mod 256].

Definition from_le_bytes (b : bytes) : Z :=
  match b with
  | [b0; b1; b2; b3] => b0 + 2 ^ 8 * b1 + 2 ^ 16 * b2 + 2 ^ 24 * b3
  | _ => 0
  end.

Lemma from_to_le_bytes n : is_u32 n → from_le_bytes (to_le_bytes n) = n.
Proof.
  unfold in_range, u32_max, from_le_bytes, to_le_bytes. intros Hn.
  pose proof (Z.div_mod n 256). pose proof (Z.div_mod (n / 2 ^ 8) 256).
  pose proof (Z.div_mod (n / 2 ^ 16) 256).
  replace (n / 2 ^ 8 / 256) with (n / 2 ^ 16) in * by (rewrite Z.div_div by lia; done).
  replace (n / 2 ^ 16 / 256) with (n / 2 ^ 24) in * by (rewrite Z.div_div by lia; done).
  rewrite (Z.mod_small (n / 2 ^ 24)); [change (2 ^ 8) with 256 in *; lia|].
  split; [apply Z.div_pos; lia|apply Z.div_lt_upper_bound; lia].
Qed.

Lemma length_to_le_bytes n : length (to_le_bytes n) = 4%nat.
Proof. done. Qed.
