(* ===== verification/Wal.v ===== *)
(** * The write-ahead log

    [crates/storage/src/wal.rs]: framing with magic bytes, length and CRC-32,
    the recovering reader, LSN allocation, append, flush and the crash-safe
    truncation. Bytes go through three places, as in the code: the [BufWriter],
    which keeps what it has not handed to the file yet (when it does so on its
    own is a parameter); the file as the operating system shows it; and the
    disk, which [sync_all] brings up to date. A crash keeps the synced bytes and
    any prefix of the others, and may undo a creation or a rename in the
    directory, which the code never syncs. Disk errors are not modelled, so
    [read_exact] fails only at the end of the file. The entry codec (bincode) is
    a parameter. *)

From S2P Require Import Prelude Float32 Crc32.

Definition WAL_ENTRY_MAGIC : bytes := [170; 75; 68; 1].
Definition MAX_VECTOR_DIMENSIONS : Z := 16384.
Definition MAX_METADATA_BYTES : Z := 1048576.
Definition MAX_WAL_ENTRY_BYTES : Z := 100000000.

Inductive WalEntry :=
| Insert (lsn : Z) (external_id : string) (internal_id : Z) (vector : list f32)
    (metadata : option bytes) (timestamp : Z)
| Delete (lsn : Z) (external_id : string) (internal_id : Z) (timestamp : Z)
| Checkpoint (lsn : Z) (timestamp : Z).

Definition entry_lsn (e : WalEntry) : Z :=
  match e with
  | Insert lsn _ _ _ _ _ => lsn
  | Delete lsn _ _ _ => lsn
  | Checkpoint lsn _ => lsn
  end.

Inductive WalSyncMode := Sync | BatchSync | NoSync.

(** ** The reader *)

(** [reader.read_exact]: on success the bytes and the rest; at end of file the
    reader has consumed everything. *)
Definition read_exact (n : nat) (r : bytes) : option bytes * bytes :=
  if (n <=? length r)%nat then (Some (take n r), drop n r) else (None, []).

(** The loop of [scan_for_magic] after [pos] bytes of the window are filled:
    the window is the last four bytes read. *)
Fixpoint scan_loop (window : bytes) (r : bytes) : option bytes :=
  match r with
  | [] => None
  | b :: r' =>
      let window := if (length window <? 4)%nat then window ++ [b] else drop 1 window ++ [b] in
      if decide (window = WAL_ENTRY_MAGIC) then Some r' else scan_loop window r'
  end.

(** The rest after the next magic bytes, [None] at end of file. *)
Definition scan_for_magic (r : bytes) : option bytes := scan_loop [] r.

Record ReaderState := mkReader {
  rest : bytes;
  corruption_recovery_mode : bool;
  at_file_start : bool;
}.

(** What one turn of the reader's loop does. *)
Inductive turn :=
| Finished
| Yield (e : WalEntry) (st : ReaderState)
| Continue (st : ReaderState).

Section wal.
(** [bincode::serialize] and [bincode::deserialize] at [WalEntry]. *)
Context (serialize : WalEntry → option bytes) (deserialize : bytes → option WalEntry).

(** [\[magic:4\]\[len:4\]\[data:len\]\[crc32:4\]]. *)
Definition frame (data : bytes) : bytes :=
  WAL_ENTRY_MAGIC ++ to_le_bytes (Zlength data) ++ data ++ to_le_bytes (crc32 data).

(** From the length prefix on. *)
Definition read_body (r : bytes) (at_start : bool) : turn :=
  match read_exact 4 r with
  | (None, _) => Finished
  | (Some len_buf, r) =>
      let len := from_le_bytes len_buf in
      if len >? MAX_WAL_ENTRY_BYTES then Continue (mkReader r true at_start) else
      match read_exact (Z.to_nat len) r with
      | (None, r) => Continue (mkReader r true at_start)
      | (Some data, r) =>
          match read_exact 4 r with
          | (None, r) => Continue (mkReader r true at_start)
          | (Some checksum_buf, r) =>
              if negb (from_le_bytes checksum_buf =? crc32 data) then
                Continue (mkReader r true at_start)
              else match deserialize data with
                   | Some e => Yield e (mkReader r false at_start)
                   | None => Continue (mkReader r true at_start)
                   end
          end
      end
  end.

Definition reader_turn (st : ReaderState) : turn :=
  if corruption_recovery_mode st then
    match scan_for_magic (rest st) with
    | Some r => read_body r (at_file_start st)
    | None => Finished
    end
  else
    match read_exact 4 (rest st) with
    | (None, _) => Finished
    | (Some magic_buf, r) =>
        let is_file_header := at_file_start st in
        if decide (magic_buf = WAL_ENTRY_MAGIC) then read_body r false
        else if negb is_file_header then Continue (mkReader r true false)
        else
          let len := from_le_bytes magic_buf in
          if len >? MAX_WAL_ENTRY_BYTES then Continue (mkReader r true false) else
          match read_exact (Z.to_nat len) r with
          | (None, r) => Continue (mkReader r true false)
          | (Some data, r) =>
              match deserialize data with
              | Some e => Yield e (mkReader r false false)
              | None => Continue (mkReader r true false)
              end
          end
    end.

(** The whole iterator. [None] is running out of fuel, which the bound chosen
    in [read_entries_from_reader] rules out. *)
Fixpoint read_loop (fuel : nat) (st : ReaderState) : option (list WalEntry) :=
  match fuel with
  | O => None
  | S fuel =>
      match reader_turn st with
      | Finished => Some []
      | Yield e st => (e ::.) <$> read_loop fuel st
      | Continue st => read_loop fuel st
      end
  end.

Definition reader_init (file : bytes) : ReaderState := mkReader file false true.

Definition read_entries_from_reader (file : bytes) : list WalEntry :=
  default [] (read_loop (S (length file)) (reader_init file)).

(** ** The log *)

(** A file: what reading it shows, of which the first [synced] bytes have
    reached the disk. *)
Record OsFile := mkOsFile {
  content : bytes;
  synced : nat;
}.

(** The directory of the log. [stale] are the earlier meanings of the log's
    name, to which a crash may return: the directory itself is never synced. *)
Record Directory := mkDir {
  log_file : option OsFile;     (** the file under the log's name, if any *)
  temp_file : option bytes;     (** [*.wal.tmp] *)
  stale : list (option OsFile);
}.

(** [File::sync_all]. *)
Definition sync_all (f : OsFile) : OsFile := mkOsFile (content f) (length (content f)).

(** What a crash leaves of a file: everything synced and some prefix of what
    was written after that, all of it on disk by then. *)
Definition file_crash (f f' : OsFile) : Prop :=
  ∃ n, (synced f ≤ n ≤ length (content f))%nat ∧ f' = mkOsFile (take n (content f)) n.

(** What a crash leaves of the directory. Of the temporary file, which [open]
    removes, nothing is said. *)
Definition crash (d d' : Directory) : Prop :=
  stale d' = [] ∧
  ∃ named, named ∈ log_file d :: stale d ∧
    match named with
    | Some f => ∃ f', log_file d' = Some f' ∧ file_crash f f'
    | None => log_file d' = None
    end.

(** The directory once its own changes have reached the disk. *)
Definition settled (d : Directory) : Directory := mkDir (log_file d) (temp_file d) [].

Record WriteAheadLog := mkWal {
  dir : Directory;
  writer : option bytes;        (** the open writer, with its unwritten bytes *)
  current_lsn : Z;
  sync_mode : WalSyncMode;
}.

(** How many buffered bytes a [BufWriter] hands to the file on its own. *)
Variable spill : bytes → nat.

Definition dir_bytes (d : Directory) : bytes := default [] (content <$> log_file d).
Definition file_bytes (w : WriteAheadLog) : bytes := dir_bytes (dir w).
Definition file_synced (d : Directory) : nat := default 0%nat (synced <$> log_file d).

Definition find_max_lsn (f : option bytes) : Z :=
  match f with
  | None => 0
  | Some bs =>
      foldl (λ max_lsn e, if entry_lsn e >? max_lsn then entry_lsn e else max_lsn)
        0 (read_entries_from_reader bs)
  end.

(** Opening for appending creates the file if there is none. *)
Definition create_append (d : Directory) : Directory :=
  match log_file d with
  | Some f => mkDir (Some f) (temp_file d) (stale d)
  | None => mkDir (Some (mkOsFile [] 0)) (temp_file d) (None :: stale d)
  end.

(** [open] in the directory [d]. *)
Definition open (d : Directory) (mode : WalSyncMode) : WriteAheadLog :=
  let d := mkDir (log_file d) None (stale d) in
  let max_lsn := find_max_lsn (content <$> log_file d) in
  {| dir := create_append d; writer := Some [];
     current_lsn := saturating_add u64_max max_lsn 1; sync_mode := mode |}.

Definition next_lsn (w : WriteAheadLog) : Result Z * WriteAheadLog :=
  match checked_add u64_max (current_lsn w) 1 with
  | Some next => (Ok (current_lsn w), mkWal (dir w) (writer w) next (sync_mode w))
  | None => (Err (StorageError "WAL LSN space exhausted"), w)
  end.

(** Write [bs] at the end of the log file, without syncing it. *)
Definition append_bytes (d : Directory) (bs : bytes) : Directory :=
  mkDir (Some (mkOsFile (dir_bytes d ++ bs) (file_synced d))) (temp_file d) (stale d).

(** Hand [n] buffered bytes to the file. *)
Definition write_out (w : WriteAheadLog) (buf : bytes) (n : nat) : WriteAheadLog :=
  mkWal (append_bytes (dir w) (take n buf)) (Some (drop n buf)) (current_lsn w) (sync_mode w).

(** [BufWriter::flush]: the whole buffer goes to the operating system. *)
Definition drain (w : WriteAheadLog) : WriteAheadLog :=
  match writer w with
  | Some buf => write_out w buf (length buf)
  | None => w
  end.

(** [writer.get_ref().sync_all()]. *)
Definition sync_log (w : WriteAheadLog) : WriteAheadLog :=
  mkWal (mkDir (sync_all <$> log_file (dir w)) (temp_file (dir w)) (stale (dir w)))
    (writer w) (current_lsn w) (sync_mode w).

Definition flush (w : WriteAheadLog) : WriteAheadLog :=
  match writer w with
  | Some _ => sync_log (drain w)
  | None => w
  end.

Definition write_entry_locked (w : WriteAheadLog) (e : WalEntry) : Result unit * WriteAheadLog :=
  match serialize e with
  | None => (Err (SerializationError "serialize"), w)
  | Some data =>
      if Zlength data >? MAX_WAL_ENTRY_BYTES then
        (Err (InvalidParameter "WAL entry too large"), w)
      else match writer w with
      | None => (Err (StorageError "WAL writer closed"), w)
      | Some buf =>
          if Zlength data >? u32_max then
            let buf := buf ++ WAL_ENTRY_MAGIC in
            (Err (InvalidParameter "WAL entry too large"), write_out w buf (spill buf))
          else
            let buf := buf ++ frame data in
            let w := write_out w buf (spill buf) in
            (Ok tt, match sync_mode w with Sync => sync_log (drain w) | BatchSync | NoSync => w end)
      end
  end.

Definition append_entry (w : WriteAheadLog) (build : Z → WalEntry)
    : Result WalEntry * WriteAheadLog :=
  match next_lsn w with
  | (Err e, w) => (Err e, w)
  | (Ok lsn, w) =>
      let entry := build lsn in
      match write_entry_locked w entry with
      | (Err e, w) => (Err e, w)
      | (Ok _, w) => (Ok entry, w)
      end
  end.

Definition lsn_of (r : Result WalEntry * WriteAheadLog) : Result Z * WriteAheadLog :=
  (result_bind r.1 (λ e, Ok (entry_lsn e)), r.2).

Definition append_insert (w : WriteAheadLog) (external_id : string) (internal_id : Z)
    (vector : list f32) (metadata : option bytes) (now : Z) : Result Z * WriteAheadLog :=
  if Zlength vector >? MAX_VECTOR_DIMENSIONS then
    (Err (InvalidParameter "Vector has too many dimensions"), w)
  else
    let too_large := match metadata with
                     | Some m => Zlength m >? MAX_METADATA_BYTES
                     | None => false
                     end in
    if too_large then (Err (InvalidParameter "Metadata too large"), w)
    else lsn_of (append_entry w (λ lsn, Insert lsn external_id internal_id vector metadata now)).

Definition append_delete (w : WriteAheadLog) (external_id : string) (internal_id : Z) (now : Z)
    : Result Z * WriteAheadLog :=
  lsn_of (append_entry w (λ lsn, Delete lsn external_id internal_id now)).

Definition append_checkpoint (w : WriteAheadLog) (now : Z) : Result Z * WriteAheadLog :=
  lsn_of (append_entry w (λ lsn, Checkpoint lsn now)).

Definition read_entries (w : WriteAheadLog) : list WalEntry :=
  read_entries_from_reader (file_bytes w).

Definition read_entries_since (w : WriteAheadLog) (start_lsn : Z) : list WalEntry :=
  filter (λ e, entry_lsn e >? start_lsn = true) (read_entries w).

(** The entries [truncate_to] keeps, and their frames for the new file. *)
Definition kept_entries (w : WriteAheadLog) (checkpoint_lsn : Z) : list WalEntry :=
  read_entries_since w checkpoint_lsn.

Fixpoint write_frames (es : list WalEntry) : Result bytes :=
  match es with
  | [] => Ok []
  | e :: es' =>
      match serialize e with
      | None => Err (SerializationError "serialize")
      | Some data =>
          if Zlength data >? u32_max then
            Err (InvalidParameter "WAL entry too large during truncation")
          else let? tail := write_frames es' in Ok (frame data ++ tail)
      end
  end.

(** What has been written to the temporary file when [write_frames] stops: every
    frame, or the frames before the failing entry, with that entry's magic
    bytes when it is its length that is refused. *)
Fixpoint partial_frames (es : list WalEntry) : bytes :=
  match es with
  | [] => []
  | e :: es' =>
      match serialize e with
      | None => []
      | Some data =>
          if Zlength data >? u32_max then WAL_ENTRY_MAGIC else frame data ++ partial_frames es'
      end
  end.

(** Dropping a [BufWriter] hands its bytes over; nothing is synced. *)
Definition close_writer (w : WriteAheadLog) : WriteAheadLog :=
  let w := drain w in mkWal (dir w) None (current_lsn w) (sync_mode w).

Definition set_temp (d : Directory) (tmp : bytes) : Directory :=
  mkDir (log_file d) (Some tmp) (stale d).

(** [rename] of the temporary file, synced before, over the log. *)
Definition rename_temp (d : Directory) (new_file : bytes) : Directory :=
  mkDir (Some (sync_all (mkOsFile new_file 0))) None (log_file d :: stale d).

Definition truncate_to (w : WriteAheadLog) (checkpoint_lsn : Z) : Result unit * WriteAheadLog :=
  let w := close_writer w in
  let entries := kept_entries w checkpoint_lsn in
  match write_frames entries with
  | Err e =>
      (Err e, mkWal (set_temp (dir w) (partial_frames entries)) None
                (current_lsn w) (sync_mode w))
  | Ok new_file =>
      (Ok tt, mkWal (rename_temp (dir w) new_file) (Some []) (current_lsn w) (sync_mode w))
  end.

(** The directory at each instant of [truncate_to]: while the buffer is being
    handed over ([k] bytes so far), the whole old file beside any prefix of the
    temporary one, and the new file under the log's name. *)
Inductive truncate_instant (w : WriteAheadLog) (checkpoint_lsn : Z) : Directory → Prop :=
| AtCall : truncate_instant w checkpoint_lsn (dir w)
| WhileClosing buf k :
    writer w = Some buf →
    truncate_instant w checkpoint_lsn (dir (write_out w buf k))
| WhileCopying n :
    let w' := close_writer w in
    truncate_instant w checkpoint_lsn
      (set_temp (dir w') (take n (partial_frames (kept_entries w' checkpoint_lsn))))
| AfterRename new_file :
    let w' := close_writer w in
    write_frames (kept_entries w' checkpoint_lsn) = Ok new_file →
    truncate_instant w checkpoint_lsn (rename_temp (dir w') new_file).

(** ** The reader terminates *)

Lemma read_exact_app n (a b : bytes) : length a = n → read_exact n (a ++ b) = (Some a, b).
Proof.
  intros <-. unfold read_exact. rewrite length_app.
  rewrite (proj2 (Nat.leb_le _ _)) by lia. by rewrite take_app_length, drop_app_length.
Qed.

Lemma read_exact_short n r : (length r < n)%nat → read_exact n r = (None, []).
Proof. intros. unfold read_exact. by rewrite (proj2 (Nat.leb_gt _ _)). Qed.

Lemma read_exact_length n r x r' : read_exact n r = (x, r') → (length r' ≤ length r)%nat.
Proof.
  unfold read_exact. destruct (_ <=? _)%nat; intros [= <- <-]; simpl; [|lia].
  rewrite length_drop. lia.
Qed.

Lemma read_exact_Some n r x r' :
  read_exact n r = (Some x, r') → r = x ++ r' ∧ length x = n.
Proof.
  unfold read_exact. destruct (Nat.leb_spec n (length r)); intros [= <- <-].
  rewrite take_drop, length_take. split; [done|lia].
Qed.

Lemma scan_loop_length w r r' : scan_loop w r = Some r' → (length r' < length r)%nat.
Proof.
  revert w. induction r as [|b r IH]; intros w; cbn [scan_loop]; [done|].
  case_decide; [intros [= ->]; simpl; lia|]. intros ?%IH. simpl. lia.
Qed.

Definition turn_rest (t : turn) : option bytes :=
  match t with
  | Finished => None
  | Yield _ st | Continue st => Some (rest st)
  end.

Lemma read_body_length r s r' : turn_rest (read_body r s) = Some r' → (length r' ≤ length r)%nat.
Proof.
  unfold read_body.
  destruct (read_exact 4 r) as [[lb|] r1] eqn:E1; simpl; [|done].
  apply read_exact_length in E1.
  destruct (_ >? _); simpl; [intros [= <-]; lia|].
  destruct (read_exact (Z.to_nat (from_le_bytes lb)) r1) as [[data|] r2] eqn:E2;
    apply read_exact_length in E2; simpl; [|intros [= <-]; lia].
  destruct (read_exact 4 r2) as [[cb|] r3] eqn:E3;
    apply read_exact_length in E3; simpl; [|intros [= <-]; lia].
  destruct (negb _); simpl; [intros [= <-]; lia|].
  destruct (deserialize data); simpl; intros [= <-]; lia.
Qed.

(** Every turn that does not finish consumes input. *)
Lemma reader_turn_progress st r' :
  turn_rest (reader_turn st) = Some r' → (length r' < length (rest st))%nat.
Proof.
  unfold reader_turn. destruct (corruption_recovery_mode st).
  { destruct (scan_for_magic (rest st)) as [r|] eqn:E; simpl; [|done].
    apply scan_loop_length in E. intros ?%read_body_length. lia. }
  destruct (read_exact 4 (rest st)) as [[mb|] r] eqn:E; simpl; [|done].
  apply read_exact_Some in E as [-> Hmb]. rewrite length_app, Hmb.
  case_decide; [intros ?%read_body_length; lia|].
  destruct (at_file_start st); simpl; [|intros [= <-]; lia].
  destruct (_ >? _); simpl; [intros [= <-]; lia|].
  destruct (read_exact (Z.to_nat (from_le_bytes mb)) r) as [[data|] r2] eqn:E2;
    apply read_exact_length in E2; simpl; [|intros [= <-]; lia].
  destruct (deserialize data); simpl; intros [= <-]; lia.
Qed.

Lemma read_loop_total fuel st :
  (length (rest st) < fuel)%nat → is_Some (read_loop fuel st).
Proof.
  revert st. induction fuel as [|fuel IH]; intros st Hlen; [lia|]. simpl.
  pose proof (reader_turn_progress st) as Hp.
  destruct (reader_turn st) as [|e st'|st']; [eauto| |].
  - specialize (Hp _ eq_refl). destruct (IH st') as [es ->]; [lia|]. simpl. eauto.
  - specialize (Hp _ eq_refl). apply IH. lia.
Qed.

Lemma read_loop_fuel fuel fuel' st es :
  read_loop fuel st = Some es → (fuel ≤ fuel')%nat → read_loop fuel' st = Some es.
Proof.
  revert fuel' st es. induction fuel as [|fuel IH]; intros [|fuel'] st es; try done; [lia|].
  simpl. intros Hr Hle. destruct (reader_turn st) as [|e st'|st']; [done| |].
  - destruct (read_loop fuel st') as [es'|] eqn:E; [|done]. by rewrite (IH _ _ _ E) by lia.
  - apply IH; [done|lia].
Qed.

Lemma read_loop_S fuel st :
  read_loop (S fuel) st = match reader_turn st with
                          | Finished => Some []
                          | Yield e st' => (e ::.) <$> read_loop fuel st'
                          | Continue st' => read_loop fuel st'
                          end.
Proof. done. Qed.

(** Reading from a state to the end. *)
Definition run (st : ReaderState) : list WalEntry :=
  default [] (read_loop (S (length (rest st))) st).

Lemma run_eq st :
  run st = match reader_turn st with
           | Finished => []
           | Yield e st' => e :: run st'
           | Continue st' => run st'
           end.
Proof.
  unfold run. rewrite (read_loop_S (length (rest st))).
  pose proof (reader_turn_progress st) as Hp.
  destruct (reader_turn st) as [|e st'|st']; [done|..]; specialize (Hp _ eq_refl);
    destruct (read_loop_total (S (length (rest st'))) st') as [es E]; try lia;
    by rewrite E, (read_loop_fuel _ _ _ _ E) by lia.
Qed.

Lemma read_entries_run f : read_entries_from_reader f = run (reader_init f).
Proof. done. Qed.

(** C39: the reader always terminates: on any file, however corrupt, its loop
    ends within one turn per byte, and more fuel does not change the result. *)
Theorem reader_terminates f fuel :
  (length f < fuel)%nat →
  read_loop fuel (reader_init f) = Some (read_entries_from_reader f).
Proof.
  intros Hlen. destruct (read_loop_total (S (length f)) (reader_init f)) as [es E]; [simpl; lia|].
  unfold read_entries_from_reader. rewrite E. eapply read_loop_fuel; [exact E|lia].
Qed.

(** ** Reading back what was written *)

Hypothesis codec_ok : ∀ e d, serialize e = Some d → deserialize d = Some e.

(** [d] is the payload of [e], small enough to be framed. *)
Definition payload (e : WalEntry) (d : bytes) : Prop :=
  serialize e = Some d ∧ Zlength d ≤ MAX_WAL_ENTRY_BYTES.

Definition log_bytes (ds : list bytes) : bytes := mjoin (frame <$> ds).

Lemma log_bytes_cons d ds : log_bytes (d :: ds) = frame d ++ log_bytes ds.
Proof. done. Qed.

Lemma log_bytes_snoc ds d : log_bytes (ds ++ [d]) = log_bytes ds ++ frame d.
Proof. unfold log_bytes. rewrite fmap_app, join_app. simpl. by rewrite app_nil_r. Qed.

Lemma read_body_intact d e r s :
  deserialize d = Some e → Zlength d ≤ MAX_WAL_ENTRY_BYTES →
  read_body (to_le_bytes (Zlength d) ++ d ++ to_le_bytes (crc32 d) ++ r) s
  = Yield e (mkReader r false s).
Proof.
  intros Hd Hlen. unfold read_body. rewrite read_exact_app by done.
  rewrite from_to_le_bytes by (unfold MAX_WAL_ENTRY_BYTES in *; int_lia).
  rewrite Z.gtb_ltb, (proj2 (Z.ltb_ge _ _)) by done.
  rewrite Nat2Z.id, !read_exact_app by done.
  by rewrite from_to_le_bytes, Z.eqb_refl, Hd by apply crc32_u32.
Qed.

Lemma frame_app d r :
  frame d ++ r = WAL_ENTRY_MAGIC ++ to_le_bytes (Zlength d) ++ d ++ to_le_bytes (crc32 d) ++ r.
Proof. unfold frame. by rewrite <-!(assoc_L (++)). Qed.

Lemma turn_frame e d r s :
  payload e d → reader_turn (mkReader (frame d ++ r) false s) = Yield e (mkReader r false false).
Proof.
  intros [Hs Hlen]. unfold reader_turn. cbn [corruption_recovery_mode rest].
  rewrite frame_app, read_exact_app by done. rewrite decide_True by done.
  apply read_body_intact; [by apply codec_ok|done].
Qed.

Lemma scan_magic r : scan_for_magic (WAL_ENTRY_MAGIC ++ r) = Some r.
Proof. reflexivity. Qed.

Lemma turn_frame_recovering e d r s :
  payload e d → reader_turn (mkReader (frame d ++ r) true s) = Yield e (mkReader r false s).
Proof.
  intros [Hs Hlen]. unfold reader_turn. cbn [corruption_recovery_mode rest].
  rewrite frame_app, scan_magic. apply read_body_intact; [by apply codec_ok|done].
Qed.

Lemma run_log es ds tail s :
  Forall2 payload es ds →
  run (mkReader (log_bytes ds ++ tail) false s)
  = es ++ run (mkReader tail false (match ds with [] => s | _ => false end)).
Proof.
  intros Hp. revert s. induction Hp as [|e d es ds Hd _ IH]; intros s; [done|].
  unfold log_bytes. cbn [fmap list_fmap mjoin list_join]. rewrite <-(assoc_L (++)).
  rewrite run_eq, (turn_frame e) by done. simpl. f_equal.
  rewrite IH. by destruct ds.
Qed.

Lemma run_nil m s : run (mkReader [] m s) = [].
Proof. rewrite run_eq. by destruct m. Qed.

Lemma run_log_nil es ds s : Forall2 payload es ds → run (mkReader (log_bytes ds) false s) = es.
Proof.
  intros Hp. pose proof (run_log es ds [] s Hp) as E. rewrite app_nil_r in E.
  by rewrite E, run_nil, app_nil_r.
Qed.

Lemma read_log es ds : Forall2 payload es ds → read_entries_from_reader (log_bytes ds) = es.
Proof. apply run_log_nil. Qed.

(** A recovering reader resumes at the next frame. *)
Lemma run_recovering_log es ds s :
  Forall2 payload es ds → run (mkReader (log_bytes ds) true s) = es.
Proof.
  destruct 1 as [|e d es ds Hd Hp]; [apply run_nil|].
  unfold log_bytes. cbn [fmap list_fmap mjoin list_join].
  rewrite run_eq, (turn_frame_recovering e) by done. f_equal. by apply run_log_nil.
Qed.

Lemma run_body_torn d n s :
  let body := to_le_bytes (Zlength d) ++ d ++ to_le_bytes (crc32 d) in
  (n < length body)%nat → Zlength d ≤ MAX_WAL_ENTRY_BYTES →
  read_body (take n body) s = Finished ∨
  read_body (take n body) s = Continue (mkReader [] true s).
Proof.
  intros body Hn Hlen. unfold read_body.
  destruct (le_lt_dec 4 n) as [Hn4|Hn4].
  2:{ left. by rewrite read_exact_short by (rewrite length_take; lia). }
  right. assert (n = 4 + (n - 4))%nat as E by lia. rewrite E. unfold body in *.
  rewrite (take_app_add' _ _ 4 (n - 4)), read_exact_app by done.
  rewrite from_to_le_bytes by (unfold MAX_WAL_ENTRY_BYTES in *; int_lia).
  rewrite Z.gtb_ltb, (proj2 (Z.ltb_ge _ _)), Nat2Z.id by done.
  rewrite !length_app in Hn. simpl in Hn.
  destruct (le_lt_dec (length d) (n - 4)) as [Hd|Hd].
  2:{ by rewrite read_exact_short by (rewrite length_take; lia). }
  replace (n - 4)%nat with (length d + (n - 4 - length d))%nat by lia.
  rewrite take_app_add, read_exact_app by done.
  by rewrite read_exact_short by (rewrite length_take; simpl; lia).
Qed.

Lemma run_torn d n s :
  (n < length (frame d))%nat → Zlength d ≤ MAX_WAL_ENTRY_BYTES →
  run (mkReader (take n (frame d)) false s) = [].
Proof.
  intros Hn Hlen. rewrite run_eq. unfold reader_turn. cbn [corruption_recovery_mode rest].
  destruct (le_lt_dec 4 n) as [Hn4|Hn4].
  2:{ by rewrite read_exact_short by (rewrite length_take; lia). }
  replace n with (4 + (n - 4))%nat by lia. unfold frame in *.
  rewrite (take_app_add' _ _ 4 (n - 4)), read_exact_app by done. rewrite decide_True by done.
  rewrite length_app in Hn. simpl in Hn.
  destruct (run_body_torn d (n - 4) false) as [-> | ->]; [simpl; lia|done|done|apply run_nil].
Qed.

(** A log written frame by frame reads back exactly, and a crash in the
    middle of the last append loses only the torn record: any proper prefix of
    one more frame is ignored. *)
Lemma read_after_torn_append es ds d n :
  Forall2 payload es ds → Zlength d ≤ MAX_WAL_ENTRY_BYTES → (n < length (frame d))%nat →
  read_entries_from_reader (log_bytes ds ++ take n (frame d)) = es.
Proof.
  intros Hp Hd Hn. rewrite read_entries_run. unfold reader_init.
  by rewrite (run_log es), run_torn, app_nil_r.
Qed.

(** A record whose payload no longer matches its checksum is skipped, and
    every record before and after it is still read. *)
Lemma corrupt_payload_isolated es1 ds1 es2 ds2 data sum :
  Forall2 payload es1 ds1 → Forall2 payload es2 ds2 →
  Zlength data ≤ MAX_WAL_ENTRY_BYTES → length sum = 4%nat →
  from_le_bytes sum ≠ crc32 data →
  read_entries_from_reader
    (log_bytes ds1 ++ (WAL_ENTRY_MAGIC ++ to_le_bytes (Zlength data) ++ data ++ sum) ++ log_bytes ds2)
  = es1 ++ es2.
Proof.
  intros Hp1 Hp2 Hlen Hsum Hne. rewrite read_entries_run. unfold reader_init.
  rewrite (run_log es1) by done. f_equal. rewrite run_eq. unfold reader_turn.
  cbn [corruption_recovery_mode rest]. rewrite <-!(assoc_L (++)), read_exact_app by done.
  rewrite decide_True by done. unfold read_body. rewrite read_exact_app by done.
  rewrite from_to_le_bytes by (unfold MAX_WAL_ENTRY_BYTES in *; int_lia).
  rewrite Z.gtb_ltb, (proj2 (Z.ltb_ge _ _)), Nat2Z.id, !read_exact_app by done.
  rewrite (proj2 (Z.eqb_neq _ _)) by done. simpl. by apply run_recovering_log.
Qed.

(** ** The log as a list of entries *)

(** [w] holds the entries [es]: its file followed by its buffer is their
    frames. *)
Definition holds (w : WriteAheadLog) (es : list WalEntry) : Prop :=
  ∃ ds buf, Forall2 payload es ds ∧ writer w = Some buf ∧ file_bytes w ++ buf = log_bytes ds.

Lemma write_out_bytes w buf n :
  file_bytes (write_out w buf n) ++ default [] (writer (write_out w buf n)) = file_bytes w ++ buf.
Proof. unfold file_bytes, dir_bytes. simpl. by rewrite <-(assoc_L (++)), take_drop. Qed.

Lemma drain_bytes w buf : writer w = Some buf → file_bytes (drain w) = file_bytes w ++ buf.
Proof. intros Hw. unfold drain. rewrite Hw. unfold file_bytes. simpl. by rewrite firstn_all. Qed.

Lemma drain_writer w buf : writer w = Some buf → writer (drain w) = Some [].
Proof. intros Hw. unfold drain. rewrite Hw. simpl. by rewrite drop_all. Qed.

Lemma sync_log_bytes w : file_bytes (sync_log w) = file_bytes w.
Proof. unfold file_bytes, dir_bytes. simpl. by destruct (log_file (dir w)). Qed.

Lemma flush_bytes w buf : writer w = Some buf → file_bytes (flush w) = file_bytes w ++ buf.
Proof. intros Hw. unfold flush. rewrite Hw, sync_log_bytes. by apply drain_bytes. Qed.

Lemma flush_writer w buf : writer w = Some buf → writer (flush w) = Some [].
Proof. intros Hw. unfold flush. rewrite Hw. simpl. by eapply drain_writer. Qed.

Lemma flush_lsn w : current_lsn (flush w) = current_lsn w.
Proof. unfold flush, drain. by destruct (writer w). Qed.

Lemma write_out_holds w buf n ds es :
  Forall2 payload es ds → file_bytes w ++ buf = log_bytes ds → holds (write_out w buf n) es.
Proof.
  intros Hp E. exists ds, (drop n buf). split_and!; [done|done|].
  by rewrite <-E, <-(write_out_bytes w buf n).
Qed.

Lemma flush_holds w es : holds w es → holds (flush w) es.
Proof.
  intros (ds & buf & Hp & Hw & E). exists ds, []. split_and!; [done|by eapply flush_writer|].
  by rewrite app_nil_r, (flush_bytes w buf), E.
Qed.

Lemma flush_reads w es : holds w es → read_entries (flush w) = es.
Proof.
  intros (ds & buf & Hp & Hw & E). unfold read_entries. rewrite (flush_bytes w buf), E by done.
  by apply read_log.
Qed.

(** Everything written is on disk, as far as the file is concerned. *)
Definition all_synced (w : WriteAheadLog) : Prop :=
  writer w = Some [] ∧ ∃ bs, log_file (dir w) = Some (mkOsFile bs (length bs)).

Lemma flush_all_synced w buf : writer w = Some buf → all_synced (flush w).
Proof.
  intros Hw. split; [by eapply flush_writer|].
  unfold flush, drain. rewrite Hw. simpl. by eexists.
Qed.

(** Appending: on success the entry is in the log, in every case the entries
    already there are untouched. *)
Lemma write_entry_holds w e r w' es :
  holds w es → write_entry_locked w e = (r, w') →
  match r with Ok _ => holds w' (es ++ [e]) | Err _ => holds w' es end
  ∧ current_lsn w' = current_lsn w ∧ sync_mode w' = sync_mode w
  ∧ stale (dir w') = stale (dir w)
  ∧ (sync_mode w = Sync → is_ok r = true → all_synced w').
Proof.
  intros (ds & buf & Hp & Hw & E). unfold write_entry_locked.
  assert (holds w es) as Hh by (by exists ds, buf).
  destruct (serialize e) as [d|] eqn:Hser; [|by intros [= <- <-]].
  rewrite !Z.gtb_ltb. destruct (Z.ltb_spec MAX_WAL_ENTRY_BYTES (Zlength d)); [by intros [= <- <-]|].
  rewrite Hw, (proj2 (Z.ltb_ge _ _)) by (unfold MAX_WAL_ENTRY_BYTES in *; int_lia).
  intros [= <- <-].
  assert (Forall2 payload (es ++ [e]) (ds ++ [d])) as Hp'.
  { apply Forall2_app; [done|]. by repeat constructor. }
  assert (holds (write_out w (buf ++ frame d) (spill (buf ++ frame d))) (es ++ [e])) as Hh'.
  { eapply write_out_holds; [exact Hp'|]. by rewrite log_bytes_snoc, (assoc_L (++)), E. }
  cbn [sync_mode write_out]. destruct (sync_mode w) eqn:Hm.
  { apply flush_holds in Hh'. split_and!; [exact Hh'|done|done|done|].
    intros _ _. by eapply (flush_all_synced (write_out w _ _)). }
  all: split_and!; done.
Qed.

Lemma append_entry_holds w build r w' es :
  holds w es → append_entry w build = (r, w') →
  match r with
  | Ok e => e = build (current_lsn w) ∧ current_lsn w' = current_lsn w + 1
            ∧ current_lsn w' ≤ u64_max ∧ holds w' (es ++ [e])
            ∧ stale (dir w') = stale (dir w)
            ∧ (sync_mode w = Sync → all_synced w')
  | Err _ => holds w' es ∧ (current_lsn w' = current_lsn w ∨
                            current_lsn w' = current_lsn w + 1 ∧ current_lsn w' ≤ u64_max)
  end.
Proof.
  intros Hh. unfold append_entry, next_lsn.
  destruct (checked_add u64_max (current_lsn w) 1) as [n|] eqn:En; [|intros [= <- <-]; auto].
  apply checked_add_Some in En as [-> Hle].
  set (w1 := mkWal _ _ _ _).
  destruct (write_entry_locked w1 (build (current_lsn w))) as [rw w2] eqn:Ew.
  apply (write_entry_holds w1 _ _ _ es) in Ew as (Hres & Hlsn & Hm & Hst & Hsync); [|exact Hh].
  destruct rw; intros [= <- <-]; rewrite Hlsn; simpl; auto.
  split_and!; [done..|]. intros. by apply Hsync.
Qed.

(** ** LSNs *)

(** Entries in strictly increasing LSN order, all below the next LSN to hand
    out (or the LSN space is exhausted). *)
Definition lsn_ok (w : WriteAheadLog) (es : list WalEntry) : Prop :=
  StronglySorted Z.lt (entry_lsn <$> es) ∧
  0 ≤ current_lsn w ≤ u64_max ∧
  ∀ e, e ∈ es → 0 ≤ entry_lsn e ≤ u64_max ∧
    (entry_lsn e < current_lsn w ∨ current_lsn w = u64_max).

Lemma lsn_ok_mono w w' es :
  lsn_ok w es → current_lsn w ≤ current_lsn w' ≤ u64_max → lsn_ok w' es.
Proof.
  intros (Hs & Hc & He) Hle. split_and!; [done|lia|lia|].
  intros e (? & [?|?])%He; (split; [done|]); lia.
Qed.

Lemma lsn_ok_snoc w w' es e :
  lsn_ok w es → entry_lsn e = current_lsn w → current_lsn w' = current_lsn w + 1 →
  current_lsn w' ≤ u64_max → lsn_ok w' (es ++ [e]).
Proof.
  intros (Hs & Hc & He) Hlsn Hn Hle. split_and!; try lia.
  - rewrite fmap_app. apply StronglySorted_app_2; [|done|repeat constructor].
    intros x y (e' & -> & Hx)%list_elem_of_fmap Hy%list_elem_of_singleton. subst.
    apply He in Hx. lia.
  - intros e'. rewrite elem_of_app, list_elem_of_singleton.
    intros [(? & ?)%He | ->]; (split; [lia|]); lia.
Qed.

Lemma lsn_ok_sub w w' es es' :
  lsn_ok w es → es' `sublist_of` es → current_lsn w' = current_lsn w → lsn_ok w' es'.
Proof.
  intros (Hs & Hc & He) Hsub E. rewrite <-E in *. split_and!; try lia.
  - clear -Hs Hsub. induction Hsub as [|e l1 l2 Hsub IH|e l1 l2 Hsub IH]; [done|..];
      inversion_clear Hs as [|?? Hs' Hall]; [|by apply IH].
    constructor; [by apply IH|]. rewrite Forall_forall in *. intros z Hz. apply Hall.
    eapply elem_of_sublist; [exact Hz|]. by apply fmap_sublist.
  - intros e Hin. apply He. by eapply elem_of_sublist.
Qed.

Definition fold_max (es : list WalEntry) (m : Z) : Z :=
  foldl (λ max_lsn e, if entry_lsn e >? max_lsn then entry_lsn e else max_lsn) m es.

Lemma fold_max_bound es m :
  m ≤ fold_max es m ∧ (∀ e, e ∈ es → entry_lsn e ≤ fold_max es m) ∧
  (fold_max es m = m ∨ ∃ e, e ∈ es ∧ fold_max es m = entry_lsn e).
Proof.
  revert m. induction es as [|e es IH]; intros m; simpl.
  { split_and!; [lia|set_solver|by left]. }
  rewrite Z.gtb_ltb. destruct (Z.ltb_spec m (entry_lsn e));
    [destruct (IH (entry_lsn e)) as (H1 & H2 & H3) | destruct (IH m) as (H1 & H2 & H3)];
    (split_and!; [lia| |]).
  - intros e'. rewrite elem_of_cons. intros [->|?]; [lia|auto].
  - right. destruct H3 as [->|(e' & ? & ->)]; [exists e; set_solver|exists e'; set_solver].
  - intros e'. rewrite elem_of_cons. intros [->|?]; [lia|auto].
  - destruct H3 as [->|(e' & ? & ->)]; [by left|]. right. exists e'. set_solver.
Qed.

Lemma open_bytes d mode : file_bytes (open d mode) = dir_bytes d.
Proof. unfold file_bytes, dir_bytes, open, create_append. simpl. by destruct (log_file d). Qed.

Lemma open_holds d mode es ds :
  Forall2 payload es ds → dir_bytes d = log_bytes ds → holds (open d mode) es.
Proof.
  intros Hp E. exists ds, []. split_and!; [done..|]. by rewrite open_bytes, app_nil_r.
Qed.

Lemma find_max_lsn_log d es ds :
  Forall2 payload es ds → dir_bytes d = log_bytes ds →
  find_max_lsn (content <$> log_file d) = fold_max es 0.
Proof.
  unfold dir_bytes, find_max_lsn. intros Hp E. destruct (log_file d) as [[bs k]|]; simpl in *.
  - subst. by rewrite (read_log es).
  - destruct Hp as [|???? [_ _]]; [done|]. unfold log_bytes in E. simpl in E.
    by apply (f_equal length) in E.
Qed.

Lemma open_lsn_ok d mode es ds w :
  Forall2 payload es ds → dir_bytes d = log_bytes ds → lsn_ok w es →
  lsn_ok (open d mode) es.
Proof.
  intros Hp E (Hs & Hc & He).
  pose proof (find_max_lsn_log d es ds Hp E) as Hmax.
  destruct (fold_max_bound es 0) as (H1 & H2 & H3).
  assert (0 ≤ fold_max es 0 ≤ u64_max) as Hr.
  { destruct H3 as [->|(e & Hin & ->)]; [int_lia|]. by apply He. }
  split_and!; [done| | |]; simpl; rewrite Hmax; [int_lia|int_lia|].
  intros e Hin. specialize (H2 e Hin). apply He in Hin as [? _]. int_lia.
Qed.

(** ** What a crash leaves *)

(** A log whose bytes are all on disk survives as it is, unless the name of
    the log is still open to change. *)
Lemma crash_all_synced w d :
  all_synced w → stale (dir w) = [] → crash (dir w) d →
  log_file d = log_file (dir w).
Proof.
  intros (_ & bs & Hl) Hst (_ & named & Hin & Hn). rewrite Hst, list_elem_of_singleton in Hin.
  subst named. rewrite Hl in *. destruct Hn as (f' & -> & n & Hn & ->). simpl in Hn.
  assert (n = length bs) as -> by lia. by rewrite firstn_all.
Qed.

(** The whole records of a prefix of a log, and the length of what is left over. *)
Fixpoint whole_frames (ds : list bytes) (n : nat) : list bytes :=
  match ds with
  | [] => []
  | d :: ds =>
      if (n <? length (frame d))%nat then [] else d :: whole_frames ds (n - length (frame d))
  end.

Lemma whole_frames_spec ds n :
  ∃ k tail, whole_frames ds n = take k ds ∧ take n (log_bytes ds) = log_bytes (take k ds) ++ tail ∧
    (tail = [] ∨ ∃ d m, ds !! k = Some d ∧ tail = take m (frame d) ∧ (m < length (frame d))%nat).
Proof.
  revert n. induction ds as [|d ds IH]; intros n; cbn [whole_frames].
  { exists 0%nat, []. split_and!; [done|by destruct n|by left]. }
  destruct (Nat.ltb_spec n (length (frame d))) as [Hn|Hn].
  - exists 0%nat, (take n (frame d)). split_and!; [done| |by right; exists d, n].
    rewrite log_bytes_cons. by rewrite take_app_le by lia.
  - destruct (IH (n - length (frame d))%nat) as (k & tail & -> & E & Ht).
    exists (S k), tail. split_and!; [done| |exact Ht].
    rewrite firstn_cons, !log_bytes_cons, take_app_ge by lia. by rewrite E, (assoc_L (++)).
Qed.

Lemma whole_frames_prefix ds n m :
  (n ≤ m)%nat → whole_frames ds n `prefix_of` whole_frames ds m.
Proof.
  revert n m. induction ds as [|d ds IH]; intros n m Hle; cbn [whole_frames]; [done|].
  destruct (Nat.ltb_spec n (length (frame d))); [apply prefix_nil|].
  destruct (Nat.ltb_spec m (length (frame d))); [lia|]. apply prefix_cons, IH. lia.
Qed.

(** Cutting a log anywhere leaves its first records. *)
Lemma read_prefix es ds n :
  Forall2 payload es ds →
  read_entries_from_reader (take n (log_bytes ds)) = take (length (whole_frames ds n)) es.
Proof.
  intros Hp. destruct (whole_frames_spec ds n) as (k & tail & Ek & E & Ht). rewrite Ek, E.
  assert (Forall2 payload (take k es) (take k ds)) as Hp' by (by apply Forall2_take).
  assert (take (length (take k ds)) es = take k es) as ->.
  { rewrite length_take. apply Forall2_length in Hp. rewrite <-Hp.
    destruct (decide (k ≤ length es)%nat); [by rewrite Nat.min_l by lia|].
    rewrite Nat.min_r, firstn_all by lia. by rewrite take_ge by lia. }
  destruct Ht as [->|(d & m & Hd & -> & Hm)]; [rewrite app_nil_r; by apply read_log|].
  apply read_after_torn_append; [done| |done].
  destruct (Forall2_lookup_r _ _ _ _ _ Hp Hd) as (e & _ & _ & ?). done.
Qed.

(** The records in the part of the log that is known to be on disk. *)
Definition durable_entries (w : WriteAheadLog) : list WalEntry :=
  read_entries_from_reader (take (file_synced (dir w)) (file_bytes w)).

(** A crash leaves a prefix of the records, with every durable one. *)
Lemma cut_log_keeps_durable w es ds n tail :
  Forall2 payload es ds → file_bytes w ++ tail = log_bytes ds →
  (file_synced (dir w) ≤ length (file_bytes w))%nat → (file_synced (dir w) ≤ n)%nat →
  ∃ es', read_entries_from_reader (take n (log_bytes ds)) = es' ∧
    es' `prefix_of` es ∧ durable_entries w `prefix_of` es'.
Proof.
  intros Hp E Hk Hn. eexists. split; [done|]. unfold durable_entries.
  assert (take (file_synced (dir w)) (file_bytes w) = take (file_synced (dir w)) (log_bytes ds)) as ->.
  { rewrite <-E. by rewrite take_app_le. }
  rewrite !(read_prefix es) by done. split; [apply prefix_take|].
  pose proof (whole_frames_prefix ds _ _ Hn) as Hpre%prefix_length.
  replace (length (whole_frames ds (file_synced (dir w)))) with
    (length (whole_frames ds (file_synced (dir w))) `min` length (whole_frames ds n))%nat by lia.
  rewrite <-take_take. apply prefix_take.
Qed.

(** ** Truncation *)

Lemma close_file w es :
  holds w es → ∃ ds, Forall2 payload es ds ∧ file_bytes (close_writer w) = log_bytes ds.
Proof.
  intros (ds & buf & Hp & Hw & E). exists ds. split; [done|].
  unfold close_writer. by rewrite <-E, <-(drain_bytes w buf).
Qed.

Lemma close_reads w es : holds w es → read_entries (close_writer w) = es.
Proof.
  intros (ds & Hp & E)%close_file. unfold read_entries. rewrite E. by apply read_log.
Qed.

Lemma write_frames_payload es ds :
  Forall2 payload es ds → write_frames es = Ok (log_bytes ds).
Proof.
  induction 1 as [|e d es ds [Hs Hlen] _ IH]; [done|]. simpl. rewrite Hs.
  rewrite Z.gtb_ltb, (proj2 (Z.ltb_ge _ _)) by (unfold MAX_WAL_ENTRY_BYTES in *; int_lia).
  by rewrite IH.
Qed.

Definition since (es : list WalEntry) (c : Z) : list WalEntry :=
  filter (λ e, entry_lsn e >? c = true) es.

Lemma payload_since es ds c :
  Forall2 payload es ds → ∃ ds', Forall2 payload (since es c) ds'.
Proof.
  induction 1 as [|e d es ds Hd _ [ds' IH]]; [by exists []|].
  unfold since. rewrite filter_cons. case_decide; [|by exists ds'].
  exists (d :: ds'). by constructor.
Qed.

Lemma truncate_frames w es c :
  holds w es → ∃ ds', Forall2 payload (since es c) ds' ∧
    write_frames (kept_entries (close_writer w) c) = Ok (log_bytes ds').
Proof.
  intros Hh. destruct Hh as (ds & buf & Hp & Hrest).
  destruct (payload_since es ds c Hp) as [ds' Hp']. exists ds'. split; [done|].
  unfold kept_entries, read_entries_since. rewrite (close_reads w es) by (by exists ds, buf).
  by apply write_frames_payload.
Qed.

Lemma truncate_spec w es c :
  holds w es → ∃ w', truncate_to w c = (Ok tt, w') ∧ holds w' (since es c)
    ∧ read_entries w' = since es c ∧ current_lsn w' = current_lsn w ∧ all_synced w'.
Proof.
  intros Hh. destruct (truncate_frames w es c Hh) as (ds' & Hp' & E).
  unfold truncate_to. rewrite E. eexists. split; [done|].
  split_and!; [exists ds', []|..]; simpl; unfold file_bytes; simpl.
  - by rewrite app_nil_r.
  - unfold read_entries, file_bytes. simpl. by apply read_log.
  - unfold drain. by destruct (writer w).
  - split; [done|]. by eexists.
Qed.

(** ** Runs of the log *)

Inductive wal_op :=
| OpInsert (external_id : string) (internal_id : Z) (vector : list f32)
    (metadata : option bytes) (now : Z)
| OpDelete (external_id : string) (internal_id : Z) (now : Z)
| OpCheckpoint (now : Z)
| OpFlush
| OpTruncate (checkpoint_lsn : Z)
| OpReopen (mode : WalSyncMode).

Definition exec (w : WriteAheadLog) (op : wal_op) : WriteAheadLog :=
  match op with
  | OpInsert id iid v m now => (append_insert w id iid v m now).2
  | OpDelete id iid now => (append_delete w id iid now).2
  | OpCheckpoint now => (append_checkpoint w now).2
  | OpFlush => flush w
  | OpTruncate c => (truncate_to w c).2
  | OpReopen mode => open (dir (flush w)) mode   (** [Drop] flushes and syncs *)
  end.

Definition log_inv (w : WriteAheadLog) : Prop := ∃ es, holds w es ∧ lsn_ok w es.

Lemma append_entry_inv w build :
  (∀ lsn, entry_lsn (build lsn) = lsn) → log_inv w → log_inv (append_entry w build).2.
Proof.
  intros Hb (es & Hh & Hl). destruct (append_entry w build) as [r w'] eqn:E. simpl.
  pose proof (append_entry_holds _ _ _ _ _ Hh E) as Hr. destruct r as [e|err].
  - destruct Hr as (-> & Hn & Hle & Hh' & _). exists (es ++ [build (current_lsn w)]).
    split; [done|]. by eapply lsn_ok_snoc.
  - destruct Hr as (Hh' & Hn). exists es. split; [done|].
    eapply lsn_ok_mono; [done|]. destruct Hl as (_ & ? & _). lia.
Qed.

Lemma exec_inv w op : log_inv w → log_inv (exec w op).
Proof.
  intros Hinv. destruct op as [id iid v m now|id iid now|now| |c|mode]; cbn [exec]; cbv zeta.
  - unfold append_insert. destruct (_ >? _); [done|].
    destruct (match m with Some _ => _ | None => _ end); [done|]. by apply append_entry_inv.
  - by apply append_entry_inv.
  - by apply append_entry_inv.
  - destruct Hinv as (es & Hh & Hl). exists es. split; [by apply flush_holds|].
    eapply lsn_ok_mono; [done|]. rewrite flush_lsn. destruct Hl as (_ & ? & _). lia.
  - destruct Hinv as (es & Hh & Hl).
    destruct (truncate_spec w es c Hh) as (w' & -> & Hh' & _ & Hn & _).
    exists (since es c). split; [done|]. eapply lsn_ok_sub; [done| |done]. apply sublist_filter.
  - destruct Hinv as (es & Hh & Hl). exists es.
    destruct Hh as (ds & buf & Hp & Hw & E).
    assert (dir_bytes (dir (flush w)) = log_bytes ds) as Hf.
    { rewrite <-E. by apply flush_bytes. }
    split; [by eapply open_holds|by eapply open_lsn_ok].
Qed.

Lemma fresh_inv mode : log_inv (open (mkDir None None []) mode).
Proof.
  exists []. split; [by eapply (open_holds (mkDir None None []) mode [] [])|].
  split_and!; [constructor|simpl; int_lia|simpl; int_lia|set_solver].
Qed.

Lemma run_inv mode ops : log_inv (foldl exec (open (mkDir None None []) mode) ops).
Proof.
  pose proof (fresh_inv mode) as Hinv. revert Hinv. generalize (open (mkDir None None []) mode).
  induction ops as [|op ops IH]; intros w Hinv; simpl; [done|]. by apply IH, exec_inv.
Qed.

(** After any sequence of appends, flushes, truncations and restarts, the
    records in the file come in strictly increasing LSN order, and the next LSN
    to be handed out is above all of them (or the LSN space is exhausted, and
    appends fail). *)
Lemma wal_lsns_increase mode ops :
  let w := foldl exec (open (mkDir None None []) mode) ops in
  let es := read_entries (flush w) in
  StronglySorted Z.lt (entry_lsn <$> es) ∧
  ∀ e, e ∈ es → entry_lsn e < current_lsn w ∨ current_lsn w = u64_max.
Proof.
  destruct (run_inv mode ops) as (es & Hh & (Hs & _ & He)). cbn zeta.
  rewrite (flush_reads _ es Hh). split; [done|]. intros e ?%He. naive_solver.
Qed.

(** C2: in [Sync] mode an acknowledged insert is durable when the call returns:
    whatever a crash leaves of the file, whoever opens it reads every earlier
    record and then the new one, and hands out larger LSNs. The log holds whole
    records, and its name in the directory has reached the disk. *)
Theorem append_insert_durable w es id iid v m now lsn w' d mode :
  holds w es → lsn_ok w es → sync_mode w = Sync → stale (dir w) = [] →
  append_insert w id iid v m now = (Ok lsn, w') →
  crash (dir w') d →
  let w2 := open d mode in
  read_entries w2 = es ++ [Insert lsn id iid v m now] ∧
  (lsn < current_lsn w2 ∨ current_lsn w2 = u64_max).
Proof.
  intros Hh Hl Hsync Hstale Happ Hcrash. unfold append_insert in Happ.
  destruct (_ >? _); [done|]. destruct (match m with Some _ => _ | None => _ end); [done|].
  destruct (append_entry w _) as [r wa] eqn:E.
  pose proof (append_entry_holds _ _ _ _ _ Hh E) as Hr. unfold lsn_of in Happ. simpl in Happ.
  destruct r as [e|]; [|done]. simpl in Happ. injection Happ as <- <-.
  destruct Hr as (-> & Hn & Hle & (ds & buf & Hp & Hw & Hbytes) & Hst & Hall). cbn [entry_lsn].
  specialize (Hall Hsync). rewrite Hstale in Hst.
  assert (lsn_ok wa (es ++ [Insert (current_lsn w) id iid v m now])) as Hl' by (by eapply lsn_ok_snoc).
  assert (dir_bytes d = log_bytes ds) as Hd.
  { unfold dir_bytes. rewrite (crash_all_synced wa d Hall Hst Hcrash). fold (file_bytes wa).
    destruct Hall as [Hbuf _]. rewrite Hbuf in Hw. injection Hw as <-. by rewrite <-Hbytes, app_nil_r. }
  cbn zeta. split.
  - unfold read_entries. rewrite open_bytes, Hd. by apply read_log.
  - destruct (open_lsn_ok d mode _ ds _ Hp Hd Hl') as (_ & _ & He).
    apply (He (Insert (current_lsn w) id iid v m now)). set_solver.
Qed.

Lemma open_reads_since d mode c es :
  read_entries_from_reader (dir_bytes d) = es → read_entries_since (open d mode) c = since es c.
Proof. intros <-. unfold read_entries_since, read_entries. by rewrite open_bytes. Qed.

(** What a crash leaves of a directory whose file is on its way to the whole log. *)
Lemma crash_of_growing_log w es ds tail d0 d mode c :
  Forall2 payload es ds → file_bytes w ++ tail = log_bytes ds →
  (file_synced (dir w) ≤ length (file_bytes w))%nat →
  dir_bytes d0 `prefix_of` log_bytes ds → file_synced d0 = file_synced (dir w) → stale d0 = [] →
  crash d0 d →
  ∃ es', es' `prefix_of` es ∧ durable_entries w `prefix_of` es' ∧
    read_entries_since (open d mode) c = since es' c.
Proof.
  intros Hp E Hk [rest Hrest] Hs Hst (_ & named & Hin & Hn).
  rewrite Hst, list_elem_of_singleton in Hin. subst named.
  assert (∃ n, dir_bytes d = take n (log_bytes ds) ∧ (file_synced (dir w) ≤ n)%nat)
    as (n & Hd & Hle).
  { unfold dir_bytes, file_synced in *. destruct (log_file d0) as [f|]; simpl in *.
    - destruct Hn as (f' & -> & n & Hn & ->). exists n. simpl. rewrite Hrest.
      rewrite take_app_le by lia. split; [done|lia].
    - rewrite Hn. exists 0%nat. simpl. split; [done|lia]. }
  destruct (cut_log_keeps_durable w es ds n tail) as (es' & Hread & Hpre & Hdur); [done..|].
  exists es'. split_and!; [done|done|]. apply open_reads_since. by rewrite Hd.
Qed.

Lemma close_bytes w buf : writer w = Some buf → file_bytes (close_writer w) = file_bytes w ++ buf.
Proof. apply drain_bytes. Qed.

Lemma close_synced w : file_synced (dir (close_writer w)) = file_synced (dir w).
Proof. unfold close_writer, drain. by destruct (writer w). Qed.

Lemma close_stale w : stale (dir (close_writer w)) = stale (dir w).
Proof. unfold close_writer, drain. by destruct (writer w). Qed.

Lemma durable_prefix w es ds buf :
  Forall2 payload es ds → file_bytes w ++ buf = log_bytes ds →
  (file_synced (dir w) ≤ length (file_bytes w))%nat → durable_entries w `prefix_of` es.
Proof.
  intros Hp E Hk.
  destruct (cut_log_keeps_durable w es ds (file_synced (dir w)) buf) as (es' & _ & ? & ?); [done..|].
  by etrans.
Qed.

(** The renamed file was synced before, so a crash keeps all of it. *)
Lemma crash_of_new_file es ds d :
  Forall2 payload es ds →
  (∃ f', log_file d = Some f' ∧ file_crash (sync_all (mkOsFile (log_bytes ds) 0)) f') →
  read_entries_from_reader (dir_bytes d) = es.
Proof.
  intros Hp (f' & Hf & n & Hn & ->). simpl in Hn. assert (n = length (log_bytes ds)) as -> by lia.
  unfold dir_bytes. rewrite Hf. simpl. rewrite firstn_all. by apply read_log.
Qed.

(** C1: truncation is crash-safe. Whatever a crash at any instant of
    [truncate_to c] leaves on disk, a restart recovers, of the records above
    [c], a prefix that has every record that was on disk before the call; once
    the call has returned and the directory has reached the disk, a crash leaves
    exactly the records above [c]. The log holds whole records and its name has
    reached the disk before the call. *)
Theorem truncate_crash_safe w es c :
  holds w es → stale (dir w) = [] → (file_synced (dir w) ≤ length (file_bytes w))%nat →
  (∀ d d' mode, truncate_instant w c d → crash d d' →
     ∃ es', es' `prefix_of` es ∧ durable_entries w `prefix_of` es' ∧
       read_entries_since (open d' mode) c = since es' c) ∧
  ∃ w', truncate_to w c = (Ok tt, w') ∧ read_entries w' = since es c ∧
    ∀ d' mode, crash (settled (dir w')) d' → read_entries (open d' mode) = since es c.
Proof.
  intros Hh Hst Hk. pose proof Hh as (ds & buf & Hp & Hw & E).
  destruct (truncate_frames w es c Hh) as (ds' & Hp' & Hframes). split.
  - assert (∀ d0 d mode, dir_bytes d0 `prefix_of` log_bytes ds →
      file_synced d0 = file_synced (dir w) → stale d0 = [] → crash d0 d →
      ∃ es', es' `prefix_of` es ∧ durable_entries w `prefix_of` es' ∧
        read_entries_since (open d mode) c = since es' c) as Hold.
    { intros d0 d mode ????. by eapply crash_of_growing_log. }
    intros d d' mode Hinst Hcrash. destruct Hinst as [|buf' k Hbuf|n w'|new_file w' Hnew].
    + eapply Hold; [|done..]. by exists buf.
    + rewrite Hw in Hbuf. injection Hbuf as <-. apply (Hold (dir (write_out w buf k))); [|done|done|done].
      rewrite <-E, <-(write_out_bytes w buf k). by eexists.
    + subst w'. eapply Hold; [| | |exact Hcrash].
      * exists []. rewrite app_nil_r, <-E. symmetry. exact (close_bytes w buf Hw).
      * exact (close_synced w).
      * etrans; [apply close_stale|exact Hst].
    + subst w'. rewrite Hframes in Hnew. injection Hnew as <-.
      destruct Hcrash as (Hd & named & Hin & Hn). cbn [rename_temp log_file stale] in Hin.
      apply elem_of_cons in Hin as [->|Hin].
      * exists es. split_and!; [done|by eapply durable_prefix|].
        rewrite (open_reads_since d' mode c (since es c)); [by apply list_filter_filter_l|].
        by eapply crash_of_new_file.
      * eapply (Hold (dir (close_writer w))); [| | |split; [exact Hd|exists named]].
        -- exists []. rewrite app_nil_r, <-E. symmetry. by apply close_bytes.
        -- apply close_synced.
        -- etrans; [apply close_stale|exact Hst].
        -- rewrite close_stale, Hst in *. by rewrite list_elem_of_singleton in Hin |- *.
  - destruct (truncate_spec w es c Hh) as (w' & Hw' & _ & Hread & _). exists w'.
    split_and!; [done|done|]. intros d' mode Hcrash. unfold truncate_to in Hw'.
    rewrite Hframes in Hw'. injection Hw' as <-.
    unfold read_entries. rewrite open_bytes. destruct Hcrash as (_ & named & Hin & Hn).
    apply list_elem_of_singleton in Hin as ->. by eapply crash_of_new_file.
Qed.
End wal.

(** ** A concrete codec

    The instance the witnesses run: an injective code of entries into bits, one
    bit per byte. *)

#[global] Instance WalEntry_eq_dec : EqDecision WalEntry.
Proof. solve_decision. Defined.

Definition entry_to_sum (e : WalEntry)
    : (Z * string * Z * list Z * option (list Z) * Z) + (Z * string * Z * Z) + (Z * Z) :=
  match e with
  | Insert l i n v m t => inl (inl (l, i, n, v, m, t))
  | Delete l i n t => inl (inr (l, i, n, t))
  | Checkpoint l t => inr (l, t)
  end.

Definition entry_of_sum s : WalEntry :=
  match s with
  | inl (inl (l, i, n, v, m, t)) => Insert l i n v m t
  | inl (inr (l, i, n, t)) => Delete l i n t
  | inr (l, t) => Checkpoint l t
  end.

#[global] Instance WalEntry_countable : Countable WalEntry.
Proof. refine (inj_countable' entry_to_sum entry_of_sum _). by intros []. Defined.

Fixpoint positive_bytes (p : positive) : bytes :=
  match p with xH => [] | xO p => 0 :: positive_bytes p | xI p => 1 :: positive_bytes p end.

Fixpoint bytes_positive (b : bytes) : positive :=
  match b with
  | [] => xH
  | x :: b => if x =? 0 then xO (bytes_positive b) else xI (bytes_positive b)
  end.

Definition bit_serialize (e : WalEntry) : option bytes := Some (positive_bytes (encode e)).
Definition bit_deserialize (b : bytes) : option WalEntry := decode (bytes_positive b).

Lemma bit_codec_ok e d : bit_serialize e = Some d → bit_deserialize d = Some e.
Proof.
  intros [= <-]. unfold bit_deserialize.
  assert (∀ p, bytes_positive (positive_bytes p) = p) as ->; [|apply decode_encode].
  induction p as [p IH|p IH|]; simpl; by rewrite ?IH.
Qed.

(** A buffer that never spills, and one that always does. *)
Definition no_spill (b : bytes) : nat := 0.
Definition spill_all (b : bytes) : nat := length b.

Definition e1 : WalEntry := Delete 1 "a" 0 7.
Definition e2 : WalEntry := Checkpoint 2 8.
Definition d1 : bytes := default [] (bit_serialize e1).
Definition d2 : bytes := default [] (bit_serialize e2).

Lemma payload_demo : Forall2 (payload bit_serialize) [e1; e2] [d1; d2].
Proof. repeat constructor; vm_compute; discriminate. Qed.

Lemma reader_terminates_witness :
  read_loop bit_deserialize 9 (reader_init [1; 2; 3; 4; 5; 6; 7; 8])
  = Some (read_entries_from_reader bit_deserialize [1; 2; 3; 4; 5; 6; 7; 8]).
Proof. apply (reader_terminates bit_deserialize [1; 2; 3; 4; 5; 6; 7; 8] 9). simpl. lia. Defined.

Lemma read_after_torn_append_witness :
  read_entries_from_reader bit_deserialize (log_bytes [d1; d2] ++ take 9 (frame d1)) = [e1; e2].
Proof.
  apply (read_after_torn_append bit_serialize bit_deserialize bit_codec_ok [e1; e2] [d1; d2] d1 9).
  - apply payload_demo.
  - vm_compute. discriminate.
  - apply Nat.ltb_lt. vm_compute. reflexivity.
Defined.

Lemma corrupt_payload_isolated_witness :
  read_entries_from_reader bit_deserialize
    (log_bytes [d1; d2] ++ (WAL_ENTRY_MAGIC ++ to_le_bytes 2 ++ [5; 6] ++ [0; 0; 0; 0])
     ++ log_bytes [d1; d2]) = [e1; e2] ++ [e1; e2].
Proof.
  apply (corrupt_payload_isolated bit_serialize bit_deserialize bit_codec_ok
           [e1; e2] [d1; d2] [e1; e2] [d1; d2] [5; 6] [0; 0; 0; 0]).
  - apply payload_demo.
  - apply payload_demo.
  - vm_compute. discriminate.
  - reflexivity.
  - vm_compute. discriminate.
Defined.

(** A log opened on an empty file that is on disk. *)
Definition w0 : WriteAheadLog := open bit_deserialize (mkDir (Some (mkOsFile [] 0)) None []) Sync.

Lemma w0_holds : holds bit_serialize w0 [].
Proof. exists [], []. split_and!; [constructor|done|done]. Qed.

Lemma w0_lsn_ok : lsn_ok w0 [].
Proof. split_and!; [constructor|vm_compute; discriminate|vm_compute; discriminate|set_solver]. Qed.

Definition w1 : WriteAheadLog :=
  (append_insert bit_serialize no_spill w0 "v" 0 [f32_one] None 9).2.

Lemma crash_kept f tmp : synced f = length (content f) → crash (mkDir (Some f) tmp []) (mkDir (Some f) tmp []).
Proof.
  intros Hs. split; [done|]. exists (Some f). split; [by apply list_elem_of_singleton|].
  exists f. split; [done|]. exists (length (content f)). rewrite Hs, firstn_all.
  split; [lia|]. destruct f as [bs k]. simpl in *. by subst.
Qed.

Lemma w1_crash : crash (dir w1) (dir w1).
Proof. apply (crash_kept (default (mkOsFile [] 0) (log_file (dir w1))) None). by vm_compute. Qed.

Lemma append_insert_durable_witness :
  read_entries bit_deserialize (open bit_deserialize (dir w1) Sync)
  = [Insert 1 "v" 0 [f32_one] None 9].
Proof.
  apply (append_insert_durable bit_serialize bit_deserialize no_spill bit_codec_ok
           w0 [] "v" 0 [f32_one] None 9 1 w1 (dir w1) Sync w0_holds w0_lsn_ok eq_refl eq_refl).
  - vm_compute. reflexivity.
  - apply w1_crash.
Defined.

Lemma wal_lsns_increase_witness :
  StronglySorted Z.lt
    (entry_lsn <$> read_entries bit_deserialize
       (flush (foldl (exec bit_serialize bit_deserialize no_spill)
                 (open bit_deserialize (mkDir None None []) Sync)
                 [OpDelete "a" 0 7; OpReopen Sync; OpCheckpoint 8; OpTruncate 1]))).
Proof.
  apply (wal_lsns_increase bit_serialize bit_deserialize no_spill bit_codec_ok Sync
           [OpDelete "a" 0 7; OpReopen Sync; OpCheckpoint 8; OpTruncate 1]).
Defined.

(** A log whose first record is on disk and whose second is still buffered. *)
Definition w2 : WriteAheadLog :=
  mkWal (mkDir (Some (mkOsFile (log_bytes [d1]) (length (log_bytes [d1])))) None [])
    (Some (frame d2)) 3 BatchSync.

Lemma w2_holds : holds bit_serialize w2 [e1; e2].
Proof. exists [d1; d2], (frame d2). split_and!; [apply payload_demo|done|by vm_compute]. Qed.

(** Closing the writer has handed over nine bytes of the second record, of
    which five reach the disk. *)
Definition torn : Directory :=
  let bs := log_bytes [d1] ++ take 5 (frame d2) in
  mkDir (Some (mkOsFile bs (length bs))) (Some [170]) [].

Lemma torn_crash : crash (dir (write_out w2 (frame d2) 9)) torn.
Proof.
  split; [done|]. eexists. split; [by left|]. eexists. split; [reflexivity|].
  exists (length (log_bytes [d1]) + 5)%nat. split; [|by vm_compute].
  split; apply Nat.leb_le; by vm_compute.
Qed.

Lemma truncate_crash_safe_witness :
  ∃ es', es' `prefix_of` [e1; e2] ∧ durable_entries bit_deserialize w2 `prefix_of` es' ∧
    read_entries_since bit_deserialize (open bit_deserialize torn Sync) 0 = since es' 0.
Proof.
  apply (truncate_crash_safe bit_serialize bit_deserialize bit_codec_ok w2 [e1; e2] 0
           w2_holds eq_refl (le_n _)) with (d := dir (write_out w2 (frame d2) 9)).
  - apply WhileClosing. reflexivity.
  - apply torn_crash.
Defined.

(** [open] appends behind a torn record without removing it, and the reader
    takes the bytes of the next record for the torn one's payload: an insert
    acknowledged in [Sync] mode after such a crash is not read back. *)
Definition torn_open : WriteAheadLog :=
  open bit_deserialize (mkDir (Some (mkOsFile (take 8 (frame d2)) 8)) None []) Sync.

Lemma append_after_torn_tail_lost :
  let w := append_insert bit_serialize no_spill torn_open "v" 0 [f32_one] None 9 in
  w.1 = Ok 1 ∧ file_synced (dir w.2) = length (file_bytes w.2) ∧
  read_entries bit_deserialize w.2 = [].
Proof. split_and!; by vm_compute. Qed.

(** The directory is not synced after the rename of a truncation, so a crash
    may return to the old file and lose an insert acknowledged in [Sync] mode
    since. *)
Definition w2_truncated : WriteAheadLog :=
  let w := (truncate_to bit_serialize bit_deserialize w2 0).2 in
  mkWal (dir w) (writer w) (current_lsn w) Sync.

Definition w2_appended : Result Z * WriteAheadLog :=
  append_insert bit_serialize no_spill w2_truncated "v" 0 [f32_one] None 9.

Definition old_file : OsFile := mkOsFile (log_bytes [d1]) (length (log_bytes [d1])).

Lemma w2_appended_stale :
  stale (dir w2_appended.2) = [Some (mkOsFile (log_bytes [d1; d2]) (length (log_bytes [d1])))].
Proof. by vm_compute. Qed.

Lemma old_file_crash :
  file_crash (mkOsFile (log_bytes [d1; d2]) (length (log_bytes [d1]))) old_file.
Proof.
  exists (length (log_bytes [d1])). split; [split; apply Nat.leb_le; by vm_compute|].
  by vm_compute.
Qed.

Lemma rename_undone_loses_insert :
  w2_appended.1 = Ok 3 ∧
  ∃ d, crash (dir w2_appended.2) d ∧
    read_entries bit_deserialize (open bit_deserialize d Sync) = [e1].
Proof.
  split; [by vm_compute|]. exists (mkDir (Some old_file) None []). split; [|by vm_compute].
  split; [done|]. eexists. rewrite w2_appended_stale. split; [right; by left|].
  exists old_file. split; [done|apply old_file_crash].
Qed.

(** Truncating everything and restarting hands out LSNs that were used
    before the truncation: here a delete is logged with LSN 1 although the
    checkpoint the log was truncated to has LSN 2, and a reader that resumes
    from that checkpoint does not see it. *)
Lemma lsn_reused_after_truncate :
  let ops := [OpDelete "a" 0 7; OpCheckpoint 8; OpTruncate 2; OpReopen Sync; OpDelete "b" 1 9] in
  let w := foldl (exec bit_serialize bit_deserialize no_spill) w0 ops in
  read_entries bit_deserialize w = [Delete 1 "b" 1 9] ∧
  read_entries_since bit_deserialize w 2 = [].
Proof. split; vm_compute; reflexivity. Qed.

(** A damaged length field hides the records after it: the reader consumes
    the bytes the length claims before it looks for the next magic bytes, and a
    stray byte before a frame hides that frame. *)
Lemma damaged_length_hides_records :
  read_entries_from_reader bit_deserialize
    (frame d1 ++ (WAL_ENTRY_MAGIC ++ to_le_bytes 5000) ++ frame d2) = [e1] ∧
  read_entries_from_reader bit_deserialize (frame d1 ++ [0] ++ frame d2) = [e1].
Proof. split; vm_compute; reflexivity. Qed.
