(* ===== verification/Storage.v ===== *)
(** * The key-value backend

    [crates/storage/src/backend.rs]: the [StorageBackend] trait with its default
    methods, and its RocksDB implementation. RocksDB itself is the class
    [RocksDB], with its documented laws in [RocksDBLaws]; the trait is the class
    [StorageBackend], and what its clients rely on is [StorageLaws]. Keys and
    values are byte strings. *)

From S2P Require Import Prelude Sorting.
From Stdlib Require Import Ascii.

Abbreviation KV := (string * string)%type.

(** ** Byte strings *)

Fixpoint str_drop (n : nat) (s : string) : string :=
  match n, s with
  | 0%nat, _ => s
  | S n, String _ s => str_drop n s
  | S _, EmptyString => EmptyString
  end.

(** [key.starts_with(prefix)]. *)
Definition starts_with (key pre : string) : bool := String.prefix pre key.

Lemma starts_with_app p s : starts_with (p +:+ s) p = true.
Proof.
  unfold starts_with. induction p as [|c p IH]; simpl; [by destruct s|].
  by destruct (Ascii.ascii_dec c c).
Qed.

Lemma starts_with_inv k p : starts_with k p = true → ∃ s, k = p +:+ s.
Proof.
  unfold starts_with. revert k. induction p as [|c p IH]; intros k; [by exists k|].
  destruct k as [|d k]; [done|]. simpl. destruct (Ascii.ascii_dec c d) as [->|]; [|done].
  intros [s ->]%IH. by exists s.
Qed.

Lemma starts_with_spec k p : starts_with k p = true ↔ ∃ s, k = p +:+ s.
Proof. split; [apply starts_with_inv|intros [s ->]; apply starts_with_app]. Qed.

#[global] Arguments starts_with : simpl never.

Lemma str_drop_app p s : str_drop (String.length p) (p +:+ s) = s.
Proof. induction p; simpl; [by destruct s|done]. Qed.

(** The keys between a prefix and a key with that prefix have the prefix. *)
Lemma starts_with_between p a b :
  bytes_cmp p a ≠ Gt → bytes_cmp a b ≠ Gt → starts_with b p = true → starts_with a p = true.
Proof.
  rewrite !starts_with_spec. intros Hpa Hab [s ->]. revert a Hpa Hab.
  induction p as [|c p IH]; intros a Hpa Hab; [by exists a|].
  destruct a as [|d a]; [done|]. simpl in Hpa, Hab.
  rewrite (Ascii.compare_antisym d c) in Hab.
  destruct (Ascii.compare c d) eqn:E; simpl in Hab; [|done|done].
  apply Ascii.compare_eq_iff in E as ->.
  destruct (IH a Hpa Hab) as [s' ->]. by exists s'.
Qed.

Lemma bytes_cmp_prefix p s : bytes_cmp p (p +:+ s) ≠ Gt.
Proof.
  induction p as [|c p IH]; simpl; [by destruct s|].
  pose proof (Ascii.compare_antisym c c) as A. by destruct (Ascii.compare c c).
Qed.

(** ** The contents of a store *)

Inductive BatchOperation :=
| Put (key value : string)
| Delete (key : string).

Definition apply_op (m : gmap string string) (op : BatchOperation) : gmap string string :=
  match op with
  | Put k v => <[k := v]> m
  | Delete k => delete k m
  end.

Definition apply_batch (m : gmap string string) (ops : list BatchOperation)
    : gmap string string := foldl apply_op m ops.

Lemma apply_batch_app m ops ops' :
  apply_batch m (ops ++ ops') = apply_batch (apply_batch m ops) ops'.
Proof. apply foldl_app. Qed.

Definition key_cmp (x y : KV) : comparison := bytes_cmp x.1 y.1.

#[global] Instance key_cmp_total : TotalCmp key_cmp.
Proof.
  split; intros *; unfold key_cmp; [apply (cmp_antisym bytes_cmp)|apply (cmp_trans bytes_cmp)].
Qed.

(** Every entry, in key order. *)
Definition entries (m : gmap string string) : list KV := sort_by key_cmp (map_to_list m).

(** The entries at or after [start], in key order: a forward iterator. *)
Definition entries_from (m : gmap string string) (start : string) : list KV :=
  filter (λ kv, bytes_cmp start kv.1 ≠ Gt) (entries m).

Definition entries_with_prefix (m : gmap string string) (pre : string) : list KV :=
  filter (λ kv, starts_with kv.1 pre = true) (entries m).

Definition take_limit {A} (limit : option Z) (l : list A) : list A :=
  match limit with None => l | Some n => take (Z.to_nat n) l end.

(** What a write that may fail does to the contents: all of it when it reports
    success, all or nothing when it reports an error. *)
Definition write_effect {E} (r : result E unit) (old new now : gmap string string) : Prop :=
  match r with Ok _ => now = new | Err _ => now = old ∨ now = new end.

(** What an iterator that may fail yields: the expected items, or an initial
    segment of them and then an error. *)
Definition iterates {E} (items : list (result E KV)) (expected : list KV) : Prop :=
  items = Ok <$> expected
  ∨ ∃ n e rest, items = (Ok <$> take n expected) ++ Err e :: rest.

(** ** RocksDB *)

Class RocksDB (D : Type) := {
  db_get : D → string → result string (option string);
  db_put : D → string → string → result string unit * D;
  db_delete : D → string → result string unit * D;
  (** [write_opt] with the given sync flag; [write] is not synced *)
  db_write : D → bool → list BatchOperation → result string unit * D;
  (** forward iterator from a key *)
  db_iterator : D → string → list (result string KV);
  db_prefix_iterator : D → string → list (result string KV);
  db_flush : D → result string unit * D;
}.

(** The documented behaviour of RocksDB: a map of keys to values, atomic
    batches, iteration in bytewise key order. The options of
    [RocksDbBackend::open] set no prefix extractor, so a prefix iterator runs
    on past the prefix to the last key. *)
Class RocksDBLaws (D : Type) `{!RocksDB D} := {
  db_view : D → gmap string string;
  db_get_ok d k v : db_get d k = Ok v → v = db_view d !! k;
  db_put_ok d k v r d' :
    db_put d k v = (r, d') → write_effect r (db_view d) (<[k := v]> (db_view d)) (db_view d');
  db_delete_ok d k r d' :
    db_delete d k = (r, d') → write_effect r (db_view d) (delete k (db_view d)) (db_view d');
  db_write_ok d sync ops r d' :
    db_write d sync ops = (r, d') →
    write_effect r (db_view d) (apply_batch (db_view d) ops) (db_view d');
  db_iterator_ok d start : iterates (db_iterator d start) (entries_from (db_view d) start);
  db_prefix_iterator_ok d pre :
    iterates (db_prefix_iterator d pre) (entries_from (db_view d) pre);
  db_flush_ok d r d' : db_flush d = (r, d') → db_view d' = db_view d;
}.

(** ** The [StorageBackend] trait *)

Class StorageBackend (S : Type) := {
  sb_get : S → string → Result (option string);
  sb_put : S → string → string → Result unit * S;
  sb_delete : S → string → Result unit * S;
  sb_exists : S → string → Result bool;
  sb_write_batch : S → list BatchOperation → Result unit * S;
  sb_write_batch_sync : S → list BatchOperation → Result unit * S;
  sb_scan_prefix : S → string → Result (list KV);
  sb_scan_prefix_limited : S → string → option Z → Result (list KV);
  sb_scan_prefix_from_limited : S → string → string → Z → Result (list KV);
  sb_count_prefix : S → string → Result Z;
  sb_flush : S → Result unit * S;
}.

(** What the clients of a backend rely on. *)
Class StorageLaws (S : Type) `{!StorageBackend S} := {
  sb_view : S → gmap string string;
  sb_get_ok s k v : sb_get s k = Ok v → v = sb_view s !! k;
  sb_exists_ok s k b : sb_exists s k = Ok b → b = bool_decide (is_Some (sb_view s !! k));
  sb_put_ok s k v r s' :
    sb_put s k v = (r, s') → write_effect r (sb_view s) (<[k := v]> (sb_view s)) (sb_view s');
  sb_delete_ok s k r s' :
    sb_delete s k = (r, s') → write_effect r (sb_view s) (delete k (sb_view s)) (sb_view s');
  sb_write_batch_ok s ops r s' :
    sb_write_batch s ops = (r, s') →
    write_effect r (sb_view s) (apply_batch (sb_view s) ops) (sb_view s');
  sb_write_batch_sync_ok s ops r s' :
    sb_write_batch_sync s ops = (r, s') →
    write_effect r (sb_view s) (apply_batch (sb_view s) ops) (sb_view s');
  sb_scan_prefix_limited_ok s pre limit l :
    sb_scan_prefix_limited s pre limit = Ok l →
    l = take_limit limit (entries_with_prefix (sb_view s) pre);
  sb_scan_prefix_ok s pre l :
    sb_scan_prefix s pre = Ok l → Zlength (entries_with_prefix (sb_view s) pre) ≤ 100000 →
    l = entries_with_prefix (sb_view s) pre;
  sb_count_prefix_ok s pre n :
    sb_count_prefix s pre = Ok n → n = Zlength (entries_with_prefix (sb_view s) pre);
}.

(** A backend whose operations do not fail. *)
Class StorageReliable (S : Type) `{!StorageBackend S} := {
  reliable_get s k : is_ok (sb_get s k) = true;
  reliable_put s k v : is_ok (sb_put s k v).1 = true;
  reliable_delete s k : is_ok (sb_delete s k).1 = true;
  reliable_write_batch_sync s ops : is_ok (sb_write_batch_sync s ops).1 = true;
  reliable_scan s pre limit : is_ok (sb_scan_prefix_limited s pre limit) = true;
  reliable_scan_prefix s pre : is_ok (sb_scan_prefix s pre) = true;
}.

Lemma get_eq {S} `{!StorageBackend S, !StorageLaws S, !StorageReliable S} (s : S) k :
  sb_get s k = Ok (sb_view s !! k).
Proof.
  pose proof (reliable_get s k) as Hr. destruct (sb_get s k) eqn:E; [|done]. by apply sb_get_ok in E as <-.
Qed.

(** *** Default methods *)

Section defaults.
Context {S : Type}.

Definition write_batch_sync_default (write_batch : S → list BatchOperation → Result unit * S)
    (flush : S → Result unit * S) (s : S) (operations : list BatchOperation)
    : Result unit * S :=
  match write_batch s operations with
  | (Err e, s) => (Err e, s)
  | (Ok _, s) => flush s
  end.

Definition scan_prefix_limited_default (scan_prefix : S → string → Result (list KV))
    (s : S) (pre : string) (limit : option Z) : Result (list KV) :=
  let? results := scan_prefix s pre in
  match limit with
  | Some n => Ok (take (Z.to_nat n) results)
  | None => Ok results
  end.

Definition scan_prefix_from_limited_default
    (scan_prefix_limited : S → string → option Z → Result (list KV))
    (s : S) (pre start_exclusive : string) (limit : Z) : Result (list KV) :=
  if limit =? 0 then Ok []
  else
    let? results := scan_prefix_limited s pre None in
    Ok (take (Z.to_nat limit)
          (filter (λ kv : KV, str_ltb start_exclusive kv.1 = true) results)).

Definition count_prefix_default
    (scan_prefix_limited : S → string → option Z → Result (list KV))
    (s : S) (pre : string) : Result Z :=
  let? results := scan_prefix_limited s pre None in
  if Zlength results <=? u64_max then Ok (Zlength results)
  else Err (StorageError "prefix key count cannot fit in u64").
End defaults.

(** ** [RocksDbBackend] *)

Record RocksDbBackend (D : Type) := mkBackend { db : D }.
Arguments mkBackend {D} db.
Arguments db {D} r.

Definition map_err {A} (msg : string) (r : result string A) : Result A :=
  match r with Ok a => Ok a | Err e => Err (StorageError (msg +:+ e)) end.

Section rocksdb.
Context {D : Type} `{!RocksDB D}.
Implicit Types (b : RocksDbBackend D).

Definition rocks_get b (key : string) : Result (option string) :=
  map_err "RocksDB get error: " (db_get (db b) key).

Definition rocks_put b (key value : string) : Result unit * RocksDbBackend D :=
  let '(r, d) := db_put (db b) key value in (map_err "RocksDB put error: " r, mkBackend d).

Definition rocks_delete b (key : string) : Result unit * RocksDbBackend D :=
  let '(r, d) := db_delete (db b) key in (map_err "RocksDB delete error: " r, mkBackend d).

Definition rocks_exists b (key : string) : Result bool :=
  let? v := rocks_get b key in Ok (bool_decide (is_Some v)).

(** The [WriteBatch] the operations are copied into. *)
Definition to_write_batch (operations : list BatchOperation) : list BatchOperation :=
  foldl (λ batch op, match op with
                     | Put key value => batch ++ [Put key value]
                     | Delete key => batch ++ [Delete key]
                     end) [] operations.

Definition rocks_write_batch b (operations : list BatchOperation)
    : Result unit * RocksDbBackend D :=
  let '(r, d) := db_write (db b) false (to_write_batch operations) in
  (map_err "RocksDB batch write error: " r, mkBackend d).

Definition rocks_write_batch_sync b (operations : list BatchOperation)
    : Result unit * RocksDbBackend D :=
  let '(r, d) := db_write (db b) true (to_write_batch operations) in
  (map_err "RocksDB synced batch write error: " r, mkBackend d).

Fixpoint scan_items (pre : string) (limit : option Z) (items : list (result string KV))
    (results : list KV) : Result (list KV) :=
  match items with
  | [] => Ok results
  | item :: rest =>
      let full := match limit with Some max => Zlength results >=? max | None => false end in
      if full then Ok results
      else match item with
           | Ok (key, value) =>
               if starts_with key pre then scan_items pre limit rest (results ++ [(key, value)])
               else Ok results
           | Err e => Err (StorageError ("RocksDB scan error: " +:+ e))
           end
  end.

Definition rocks_scan_prefix_limited b (pre : string) (limit : option Z) : Result (list KV) :=
  scan_items pre limit (db_prefix_iterator (db b) pre) [].

Definition rocks_scan_prefix b (pre : string) : Result (list KV) :=
  rocks_scan_prefix_limited b pre (Some 100000).

Fixpoint range_items (pre start_exclusive : string) (limit : Z)
    (items : list (result string KV)) (results : list KV) : Result (list KV) :=
  match items with
  | [] => Ok results
  | Err e :: _ => Err (StorageError ("RocksDB range scan error: " +:+ e))
  | Ok (key, value) :: rest =>
      if negb (starts_with key pre) then Ok results
      else if String.eqb key start_exclusive then
        range_items pre start_exclusive limit rest results
      else
        let results := results ++ [(key, value)] in
        if Zlength results =? limit then Ok results
        else range_items pre start_exclusive limit rest results
  end.

Definition rocks_scan_prefix_from_limited b (pre start_exclusive : string) (limit : Z)
    : Result (list KV) :=
  if limit =? 0 then Ok []
  else range_items pre start_exclusive limit (db_iterator (db b) start_exclusive) [].

Fixpoint count_items (pre : string) (items : list (result string KV)) (count : Z) : Result Z :=
  match items with
  | [] => Ok count
  | Ok (key, _) :: rest =>
      if starts_with key pre then
        match checked_add u64_max count 1 with
        | Some count => count_items pre rest count
        | None => Err (StorageError "prefix key count overflowed u64")
        end
      else Ok count
  | Err e :: _ => Err (StorageError ("RocksDB prefix count error: " +:+ e))
  end.

Definition rocks_count_prefix b (pre : string) : Result Z :=
  count_items pre (db_prefix_iterator (db b) pre) 0.

Definition rocks_flush b : Result unit * RocksDbBackend D :=
  let '(r, d) := db_flush (db b) in (map_err "RocksDB flush error: " r, mkBackend d).

#[global] Instance rocks_backend : StorageBackend (RocksDbBackend D) := {
  sb_get := rocks_get;
  sb_put := rocks_put;
  sb_delete := rocks_delete;
  sb_exists := rocks_exists;
  sb_write_batch := rocks_write_batch;
  sb_write_batch_sync := rocks_write_batch_sync;
  sb_scan_prefix := rocks_scan_prefix;
  sb_scan_prefix_limited := rocks_scan_prefix_limited;
  sb_scan_prefix_from_limited := rocks_scan_prefix_from_limited;
  sb_count_prefix := rocks_count_prefix;
  sb_flush := rocks_flush;
}.

(** *** Scans *)

Lemma to_write_batch_id ops : to_write_batch ops = ops.
Proof.
  unfold to_write_batch. set (f := λ batch op, _).
  assert (∀ batch, foldl f batch ops = batch ++ ops) as E; [|apply (E [])].
  induction ops as [|op ops IH]; intros batch; simpl; [by rewrite app_nil_r|].
  rewrite IH. by destruct op; simpl; rewrite <-(assoc_L (++)).
Qed.

Lemma entries_sorted m : StronglySorted (cmp_le key_cmp) (entries m).
Proof. apply sort_by_sorted, _. Qed.

Lemma entries_from_sorted m start : StronglySorted (cmp_le key_cmp) (entries_from m start).
Proof. eapply StronglySorted_sublist; [apply sublist_filter|apply entries_sorted]. Qed.

Lemma elem_of_entries m k v : (k, v) ∈ entries m ↔ m !! k = Some v.
Proof. unfold entries. rewrite elem_of_sort_by. apply elem_of_map_to_list. Qed.

Lemma entries_NoDup m : NoDup (entries m).*1.
Proof. unfold entries. rewrite (sort_by_perm key_cmp). apply NoDup_fst_map_to_list. Qed.

Lemma elem_of_entries_with_prefix m pre k v :
  (k, v) ∈ entries_with_prefix m pre ↔ m !! k = Some v ∧ starts_with k pre = true.
Proof. unfold entries_with_prefix. rewrite list_elem_of_filter, elem_of_entries. naive_solver. Qed.

(** The leading items that satisfy [P]. *)
Fixpoint take_while {A} (P : A → bool) (l : list A) : list A :=
  match l with
  | [] => []
  | x :: l => if P x then x :: take_while P l else []
  end.

(** In a sorted list on which [P] only ever switches off, the items that satisfy
    [P] are the leading ones. *)
Lemma take_while_filter {A} (R : relation A) (P : A → bool) l :
  StronglySorted R l → (∀ x y, x ∈ l → R x y → P y = true → P x = true) →
  take_while P l = filter (λ x, P x = true) l.
Proof.
  induction 1 as [|x l Hs IH Hall]; intros HP; simpl; [done|].
  destruct (P x) eqn:E.
  - rewrite filter_cons_True by done. f_equal. apply IH. set_solver.
  - rewrite filter_cons_False by congruence. symmetry. apply elem_of_nil_inv.
    intros y (Hy & Hin)%list_elem_of_filter. rewrite Forall_forall in Hall.
    rewrite (HP x y) in E; [done|set_solver|by apply Hall|done].
Qed.

Lemma prefix_leads m pre start :
  bytes_cmp pre start ≠ Gt →
  take_while (λ kv : KV, starts_with kv.1 pre) (entries_from m start)
  = filter (λ kv, bytes_cmp start kv.1 ≠ Gt) (entries_with_prefix m pre).
Proof.
  intros Hle. rewrite (take_while_filter (cmp_le key_cmp)); [|apply entries_from_sorted|].
  - unfold entries_from, entries_with_prefix. rewrite !list_filter_filter.
    apply list_filter_iff. naive_solver.
  - intros [k v] [k' v'] (Hk & _)%list_elem_of_filter Hkk Hp. simpl in *.
    eapply starts_with_between; [|exact Hkk|exact Hp].
    by apply (cmp_trans bytes_cmp pre start k).
Qed.

Lemma prefix_leads_all m pre :
  take_while (λ kv : KV, starts_with kv.1 pre) (entries_from m pre) = entries_with_prefix m pre.
Proof.
  rewrite prefix_leads by (by rewrite (cmp_refl bytes_cmp)). apply filter_all.
  intros [k v] (Hp & _)%list_elem_of_filter. apply starts_with_inv in Hp as [s ->]. simpl.
  apply bytes_cmp_prefix.
Qed.

(** A scan that stops before an error does not see it. *)
Lemma scan_items_ok pre limit es results :
  let room := match limit with Some max => Some (max - Zlength results) | None => None end in
  scan_items pre limit (Ok <$> es) results
  = Ok (results ++ take_limit room (take_while (λ kv : KV, starts_with kv.1 pre) es)).
Proof.
  revert results. induction es as [|[k v] es IH]; intros results; cbn -[Z.of_nat].
  { destruct limit; simpl; by rewrite ?firstn_nil, app_nil_r. }
  destruct limit as [max|].
  - rewrite Z.geb_leb. destruct (Z.leb_spec max (Zlength results)).
    { simpl. replace (Z.to_nat _) with 0%nat by lia. by rewrite app_nil_r. }
    destruct (starts_with k pre); [|by simpl; rewrite firstn_nil, app_nil_r].
    rewrite IH. cbn -[Z.of_nat]. rewrite <-(assoc_L (++)), length_app. simpl.
    f_equal. f_equal.
    replace (Z.to_nat (max - Zlength results)) with
      (S (Z.to_nat (max - Z.of_nat (length results + 1)))) by lia. done.
  - destruct (starts_with k pre); [|by rewrite app_nil_r].
    rewrite IH. simpl. by rewrite <-(assoc_L (++)).
Qed.

Lemma scan_items_cut pre limit xs e rest ys results l :
  scan_items pre limit (xs ++ Err e :: rest) results = Ok l →
  scan_items pre limit (xs ++ ys) results = Ok l.
Proof.
  revert results. induction xs as [|[[k v]|e'] xs IH]; intros results; simpl.
  - destruct (match limit with Some _ => _ | None => _ end) eqn:E; [|done].
    intros [= ->]. destruct ys; simpl; [done|]. by rewrite E.
  - destruct (match limit with Some _ => _ | None => _ end); [done|].
    destruct (starts_with k pre); [apply IH|done].
  - by destruct (match limit with Some _ => _ | None => _ end).
Qed.

Lemma scan_items_spec pre limit items expected l :
  iterates items expected → scan_items pre limit items [] = Ok l →
  l = take_limit limit (take_while (λ kv : KV, starts_with kv.1 pre) expected).
Proof.
  intros Hit Hs. assert (scan_items pre limit (Ok <$> expected) [] = Ok l) as E.
  { destruct Hit as [-> | (n & e & rest & ->)]; [done|].
    rewrite <-(take_drop n expected), fmap_app. by eapply scan_items_cut. }
  rewrite scan_items_ok in E. injection E as <-. simpl.
  destruct limit; simpl; [by rewrite Z.sub_0_r|done].
Qed.

Lemma count_items_cut pre xs e rest ys count n :
  count_items pre (xs ++ Err e :: rest) count = Ok n → count_items pre (xs ++ ys) count = Ok n.
Proof.
  revert count. induction xs as [|[[k v]|e'] xs IH]; intros count; simpl; [done| |done].
  destruct (starts_with k pre); [|done]. destruct (checked_add _ _ _); [apply IH|done].
Qed.

Lemma count_items_ok pre es count n :
  count_items pre (Ok <$> es) count = Ok n →
  n = count + Zlength (take_while (λ kv : KV, starts_with kv.1 pre) es).
Proof.
  revert count. induction es as [|[k v] es IH]; intros count; cbn -[Z.of_nat Z.add].
  { intros [= <-]. simpl. lia. }
  destruct (starts_with k pre); [|intros [= <-]; simpl; lia].
  destruct (checked_add _ _ _) as [c|] eqn:E; [|done].
  apply checked_add_Some in E as [-> _]. intros ->%IH. cbn [length]. lia.
Qed.

Lemma count_items_spec pre items expected n :
  iterates items expected → count_items pre items 0 = Ok n →
  n = Zlength (take_while (λ kv : KV, starts_with kv.1 pre) expected).
Proof.
  intros Hit Hc. assert (count_items pre (Ok <$> expected) 0 = Ok n) as E.
  { destruct Hit as [-> | (m & e & rest & ->)]; [done|].
    rewrite <-(take_drop m expected), fmap_app. by eapply count_items_cut. }
  apply count_items_ok in E. lia.
Qed.

Lemma map_err_effect {msg r d old new} :
  write_effect r old new d → write_effect (map_err msg r) old new d.
Proof. by destruct r. Qed.

(** What a write through the backend does to the contents. *)
#[global] Program Instance rocks_laws `{!RocksDBLaws D} : StorageLaws (RocksDbBackend D) := {
  sb_view b := db_view (db b);
}.
Next Obligation.
  intros ? b k v. simpl. unfold rocks_get.
  destruct (db_get (db b) k) eqn:E; [|done]. intros [= ->]. by apply db_get_ok.
Qed.
Next Obligation.
  intros ? b k v. simpl. unfold rocks_exists, rocks_get.
  destruct (db_get (db b) k) as [o|] eqn:E; [|done]. intros [= <-]. by apply db_get_ok in E as ->.
Qed.
Next Obligation.
  intros ? b k v r b'. simpl. unfold rocks_put. destruct (db_put _ _ _) eqn:E.
  intros [= <- <-]. eapply map_err_effect, db_put_ok, E.
Qed.
Next Obligation.
  intros ? b k r b'. simpl. unfold rocks_delete. destruct (db_delete _ _) eqn:E.
  intros [= <- <-]. eapply map_err_effect, db_delete_ok, E.
Qed.
Next Obligation.
  intros ? b ops r b'. simpl. unfold rocks_write_batch. destruct (db_write _ _ _) eqn:E.
  intros [= <- <-]. rewrite to_write_batch_id in E. eapply map_err_effect, db_write_ok, E.
Qed.
Next Obligation.
  intros ? b ops r b'. simpl. unfold rocks_write_batch_sync. destruct (db_write _ _ _) eqn:E.
  intros [= <- <-]. rewrite to_write_batch_id in E. eapply map_err_effect, db_write_ok, E.
Qed.
Next Obligation.
  intros ? b pre limit l Hs. simpl in *.
  rewrite (scan_items_spec _ _ _ _ _ (db_prefix_iterator_ok _ _) Hs). by rewrite prefix_leads_all.
Qed.
Next Obligation.
  intros ? b pre l Hs Hlen. simpl in *. unfold rocks_scan_prefix in Hs.
  rewrite (scan_items_spec _ _ _ _ _ (db_prefix_iterator_ok _ _) Hs), prefix_leads_all.
  unfold take_limit. rewrite take_ge by lia. done.
Qed.
Next Obligation.
  intros ? b pre n Hs. simpl in *.
  rewrite (count_items_spec _ _ _ _ (db_prefix_iterator_ok _ _) Hs). by rewrite prefix_leads_all.
Qed.

(** *** Range scans *)

Lemma range_items_cut pre start limit xs e rest ys results l :
  range_items pre start limit (xs ++ Err e :: rest) results = Ok l →
  range_items pre start limit (xs ++ ys) results = Ok l.
Proof.
  revert results. induction xs as [|[[k v]|e'] xs IH]; intros results; simpl; [done| |done].
  destruct (negb _); [done|]. destruct (String.eqb k start); [apply IH|].
  destruct (_ =? limit); [done|apply IH].
Qed.

Lemma range_items_ok pre start limit es results :
  Zlength results < limit →
  range_items pre start limit (Ok <$> es) results
  = Ok (results ++ take (Z.to_nat (limit - Zlength results))
          (filter (λ kv, kv.1 ≠ start) (take_while (λ kv : KV, starts_with kv.1 pre) es))).
Proof.
  revert results. induction es as [|[k v] es IH]; intros results Hlen; cbn -[Z.of_nat].
  { by rewrite firstn_nil, app_nil_r. }
  destruct (starts_with k pre); simpl; [|by rewrite firstn_nil, app_nil_r].
  destruct (String.eqb_spec k start) as [->|Hk].
  { rewrite IH by done. by rewrite filter_cons_False by naive_solver. }
  rewrite filter_cons_True by done.
  replace (Z.to_nat (limit - Zlength results))
    with (S (Z.to_nat (limit - Zlength (results ++ [(k, v)]))))
    by (rewrite length_app; simpl; lia).
  destruct (Z.eqb_spec (Zlength (results ++ [(k, v)])) limit) as [->|Hne].
  { by rewrite Z.sub_diag. }
  rewrite IH by (rewrite length_app in *; simpl in *; lia). simpl.
  by rewrite <-(assoc_L (++)).
Qed.

Lemma range_filter m pre start :
  bytes_cmp pre start ≠ Gt →
  filter (λ kv, kv.1 ≠ start)
    (take_while (λ kv : KV, starts_with kv.1 pre) (entries_from m start))
  = filter (λ kv, str_ltb start kv.1 = true) (entries_with_prefix m pre).
Proof.
  intros Hle. rewrite prefix_leads by done. rewrite list_filter_filter. apply list_filter_iff.
  intros [k v]. unfold str_ltb. simpl. pose proof (bytes_cmp_Eq start k) as HE.
  destruct (bytes_cmp start k); naive_solver.
Qed.

Lemma iterates_no_error (items : list (result string KV)) expected :
  iterates items expected → Forall (λ r, is_ok r = true) items → items = Ok <$> expected.
Proof.
  intros [-> | (n & e & rest & ->)]; [done|].
  intros (_ & H)%Forall_app. by apply Forall_cons_1 in H as [? _].
Qed.

(** While the engine reports no error, a prefix scan returns exactly the
    entries whose key has the prefix, in key order, up to the limit; nothing of
    a neighbouring prefix is included and nothing is skipped. *)
Lemma scan_prefix_exact `{!RocksDBLaws D} b pre limit :
  Forall (λ r, is_ok r = true) (db_prefix_iterator (db b) pre) →
  rocks_scan_prefix_limited b pre limit
  = Ok (take_limit limit (entries_with_prefix (db_view (db b)) pre)).
Proof.
  intros Hok. unfold rocks_scan_prefix_limited.
  rewrite (iterates_no_error _ _ (db_prefix_iterator_ok _ _) Hok), scan_items_ok.
  rewrite prefix_leads_all. simpl. destruct limit; simpl; [by rewrite Z.sub_0_r|done].
Qed.

(** The seek-based range scan of RocksDB agrees with the trait's default
    method (scan the whole prefix, keep the keys after [start_exclusive], stop
    at the limit) whenever [start_exclusive] does not sort before the prefix. *)
Lemma range_scan_equiv_default `{!RocksDBLaws D} b pre start limit :
  bytes_cmp pre start ≠ Gt → 0 ≤ limit →
  Forall (λ r, is_ok r = true) (db_iterator (db b) start) →
  Forall (λ r, is_ok r = true) (db_prefix_iterator (db b) pre) →
  rocks_scan_prefix_from_limited b pre start limit
  = scan_prefix_from_limited_default rocks_scan_prefix_limited b pre start limit.
Proof.
  intros Hle Hlim Hok Hok'.
  unfold rocks_scan_prefix_from_limited, scan_prefix_from_limited_default,
    rocks_scan_prefix_limited.
  destruct (Z.eqb_spec limit 0); [done|].
  rewrite (iterates_no_error _ _ (db_prefix_iterator_ok _ _) Hok'), scan_items_ok.
  rewrite (iterates_no_error _ _ (db_iterator_ok _ _) Hok), range_items_ok by (simpl; lia).
  rewrite range_filter, prefix_leads_all by done. simpl. by rewrite Z.sub_0_r.
Qed.
End rocksdb.

(** ** A store in memory

    The instance the witnesses run. *)

Definition MemDB : Type := gmap string string.

#[global] Instance mem_db : RocksDB MemDB := {
  db_get m k := Ok (m !! k);
  db_put m k v := (Ok tt, <[k := v]> m);
  db_delete m k := (Ok tt, delete k m);
  db_write m _ ops := (Ok tt, apply_batch m ops);
  db_iterator m start := Ok <$> entries_from m start;
  db_prefix_iterator m pre := Ok <$> entries_from m pre;
  db_flush m := (Ok tt, m);
}.

#[global] Program Instance mem_db_laws : RocksDBLaws MemDB := { db_view m := m }.
Next Obligation. naive_solver. Qed.
Next Obligation. by intros ????? [= <- <-]. Qed.
Next Obligation. by intros ???? [= <- <-]. Qed.
Next Obligation. by intros ????? [= <- <-]. Qed.
Next Obligation. by left. Qed.
Next Obligation. by left. Qed.
Next Obligation. by intros ??? [= <- <-]. Qed.

#[global] Instance mem_reliable : StorageReliable (RocksDbBackend MemDB).
Proof.
  split; try done; intros [m] pre; intros; simpl;
    unfold rocks_scan_prefix, rocks_scan_prefix_limited; simpl; by rewrite scan_items_ok.
Qed.

Definition demo_store : RocksDbBackend MemDB :=
  mkBackend (list_to_map [("a:1", "x"); ("p:1", "y"); ("p:2", "z"); ("q", "w")] : MemDB).

Lemma scan_prefix_exact_witness :
  rocks_scan_prefix_limited demo_store "p:" None = Ok [("p:1", "y"); ("p:2", "z")].
Proof.
  etransitivity; [apply (scan_prefix_exact demo_store "p:" None)|vm_compute; reflexivity].
  vm_compute. repeat constructor.
Defined.

Lemma range_scan_equiv_default_witness :
  rocks_scan_prefix_from_limited demo_store "p:" "p:1" 5 = Ok [("p:2", "z")].
Proof.
  etransitivity; [apply (range_scan_equiv_default demo_store "p:" "p:1" 5)|vm_compute; reflexivity].
  - done.
  - done.
  - vm_compute. repeat constructor.
  - vm_compute. repeat constructor.
Defined.

(** A range scan whose start sorts before the prefix stops at the first key
    outside the prefix, where the default method returns the keys after it. *)
Lemma range_scan_before_prefix :
  rocks_scan_prefix_from_limited demo_store "p:" "" 5 = Ok [] ∧
  scan_prefix_from_limited_default rocks_scan_prefix_limited demo_store "p:" "" 5
  = Ok [("p:1", "y"); ("p:2", "z")].
Proof. split; vm_compute; reflexivity. Qed.

(** ** A codec for concrete runs

    Any countable type, coded as a string of bits. *)

Fixpoint positive_bits (p : positive) : string :=
  match p with
  | xH => ""
  | xO p => String "0"%char (positive_bits p)
  | xI p => String "1"%char (positive_bits p)
  end.

Fixpoint bits_positive (s : string) : positive :=
  match s with
  | "" => xH
  | String "0"%char s => xO (bits_positive s)
  | String _ s => xI (bits_positive s)
  end.

Lemma bits_positive_bits p : bits_positive (positive_bits p) = p.
Proof. induction p; simpl; congruence. Qed.

Definition code_serialize {A} `{Countable A} (a : A) : option string :=
  Some (positive_bits (encode a)).
Definition code_deserialize {A} `{Countable A} (s : string) : option A :=
  decode (bits_positive s).

Lemma code_ok {A} `{Countable A} (a : A) d :
  code_serialize a = Some d → code_deserialize d = Some a.
Proof. intros [= <-]. unfold code_deserialize. by rewrite bits_positive_bits, decode_encode. Qed.

Lemma code_total {A} `{Countable A} (a : A) : is_Some (code_serialize a).
Proof. by eexists. Qed.

Module Trees.
(** Values as trees of strings and numbers. *)
Abbreviation tree := (gen_tree (string + Z)).
Abbreviation S_ s := (GenLeaf (inl s)).
Abbreviation Z_ n := (GenLeaf (inr n)).

Definition opt_tree {A} (f : A → tree) (o : option A) : tree :=
  match o with None => GenNode 0 [] | Some a => GenNode 1 [f a] end.
Definition tree_opt {A} (f : tree → option A) (t : tree) : option (option A) :=
  match t with
  | GenNode 0 [] => Some None
  | GenNode 1 [t] => a ← f t; Some (Some a)
  | _ => None
  end.

Lemma tree_opt_tree {A} (f : A → tree) g o : (∀ a, g (f a) = Some a) → tree_opt g (opt_tree f o) = Some o.
Proof. intros Hf. destruct o; simpl; [by rewrite Hf|done]. Qed.

Definition str_tree (s : string) : tree := S_ s.
Definition tree_str (t : tree) : option string := match t with S_ s => Some s | _ => None end.
Definition num_tree (n : Z) : tree := Z_ n.
Definition tree_num (t : tree) : option Z := match t with Z_ n => Some n | _ => None end.

Definition strs_tree (l : list string) : tree := GenNode 2 (str_tree <$> l).
Definition tree_strs (t : tree) : option (list string) :=
  match t with GenNode 2 l => mapM tree_str l | _ => None end.

Lemma tree_strs_tree l : tree_strs (strs_tree l) = Some l.
Proof. cbn. apply mapM_fmap_Some. by intros. Qed.
End Trees.
