(* ===== verification/Hex.v ===== *)
(** * Big-endian bytes and hexadecimal text

    [u64::to_be_bytes], [format!("{:02x}")] and [u8::from_str_radix], and that the
    byte order of the text is the order of the numbers. *)

From Stdlib Require Import Ascii.
From S2P Require Import Prelude Sorting Text.

(** [to_be_bytes] at [n] bytes: the most significant byte first. *)
Fixpoint be_bytes (n : nat) (x : Z) : list Z :=
  match n with
  | 0%nat => []
  | S n => (x / 256 ^ Z.of_nat n) mod 256 :: be_bytes n x
  end.

Definition from_be_bytes (l : list Z) : Z := foldl (λ acc b, acc * 256 + b) 0 l.

Definition hex_digit (d : Z) : ascii :=
  ascii_of_N (Z.to_N (if d <? 10 then 48 + d else 87 + d)).

(** [format!("{:02x}", b)]. *)
Definition hex2 (b : Z) : string := String (hex_digit (b / 16)) (String (hex_digit (b mod 16)) "").

Definition hex_string (l : list Z) : string := foldr (λ b s, hex2 b +:+ s) "" l.

(** [char::to_digit(16)]. *)
Definition hex_value (c : ascii) : option Z :=
  let b := byte_of c in
  if (48 <=? b) && (b <=? 57) then Some (b - 48)
  else if (97 <=? b) && (b <=? 102) then Some (b - 87)
  else if (65 <=? b) && (b <=? 70) then Some (b - 55)
  else None.

(** [u8::from_str_radix(s, 16)] on two characters: a leading plus sign is
    skipped. *)
Definition parse_hex2 (c d : ascii) : option Z :=
  if Ascii.eqb c "+" then hex_value d
  else x ← hex_value c; y ← hex_value d; Some (16 * x + y).

(** The bytes of a text of two characters per byte. *)
Fixpoint parse_hex (s : string) : option (list Z) :=
  match s with
  | EmptyString => Some []
  | String c (String d s) => b ← parse_hex2 c d; l ← parse_hex s; Some (b :: l)
  | String _ EmptyString => None
  end.


Lemma be_bytes_length n x : length (be_bytes n x) = n.
Proof. induction n; simpl; auto. Qed.

Lemma be_bytes_range n x : Forall is_byte (be_bytes n x).
Proof. induction n; simpl; constructor; [apply Z.mod_pos_bound; lia|done]. Qed.

Lemma from_be_bytes_acc l acc :
  foldl (λ acc b, acc * 256 + b) acc l = acc * 256 ^ Z.of_nat (length l) + from_be_bytes l.
Proof.
  unfold from_be_bytes. revert acc. induction l as [|b l IH]; intros acc; cbn [foldl length]; [simpl; lia|].
  rewrite (IH (acc * 256 + b)), (IH (0 * 256 + b)).
  replace (Z.of_nat (S (length l))) with (Z.succ (Z.of_nat (length l))) by lia.
  rewrite Z.pow_succ_r by lia. lia.
Qed.

Lemma pow256_succ n : 256 ^ Z.of_nat (S n) = 256 * 256 ^ Z.of_nat n.
Proof. replace (Z.of_nat (S n)) with (Z.succ (Z.of_nat n)) by lia. apply Z.pow_succ_r. lia. Qed.

Lemma mod_split n x :
  x mod 256 ^ Z.of_nat (S n)
  = (x / 256 ^ Z.of_nat n) mod 256 * 256 ^ Z.of_nat n + x mod 256 ^ Z.of_nat n.
Proof.
  assert (0 < 256 ^ Z.of_nat n) by (apply Z.pow_pos_nonneg; lia).
  rewrite pow256_succ, (Z.mul_comm 256), Z.rem_mul_r by lia. lia.
Qed.

(** Big-endian bytes read back. *)
Lemma from_be_bytes_be n x : from_be_bytes (be_bytes n x) = x mod 256 ^ Z.of_nat n.
Proof.
  induction n as [|n IH]; simpl; [by rewrite Z.mod_1_r|].
  unfold from_be_bytes. simpl. rewrite from_be_bytes_acc, be_bytes_length, IH.
  rewrite mod_split. done.
Qed.

(** *** Digits *)

Lemma digit_cases (P : Z → Prop) d :
  0 ≤ d < 16 → Forall P [0;1;2;3;4;5;6;7;8;9;10;11;12;13;14;15] → P d.
Proof.
  intros Hd H. rewrite Forall_forall in H. apply H. rewrite !elem_of_cons. lia.
Qed.

Lemma hex_value_digit d : 0 ≤ d < 16 → hex_value (hex_digit d) = Some d.
Proof.
  intros Hd. apply (digit_cases (λ d, hex_value (hex_digit d) = Some d) d Hd). repeat constructor.
Qed.

Lemma hex_digit_not_plus d : 0 ≤ d < 16 → Ascii.eqb (hex_digit d) "+" = false.
Proof.
  intros Hd. apply (digit_cases (λ d, Ascii.eqb (hex_digit d) "+" = false) d Hd).
  repeat constructor.
Qed.

Lemma byte_nibbles b : is_byte b → 0 ≤ b / 16 < 16 ∧ 0 ≤ b mod 16 < 16 ∧ b = 16 * (b / 16) + b mod 16.
Proof.
  intros Hb. cbv beta in Hb. pose proof (Z.div_mod b 16). pose proof (Z.mod_pos_bound b 16).
  split_and!; [apply Z.div_pos|apply Z.div_lt_upper_bound|..]; lia.
Qed.

Lemma parse_hex2_hex2 b :
  is_byte b → parse_hex2 (hex_digit (b / 16)) (hex_digit (b mod 16)) = Some b.
Proof.
  intros (H1 & H2 & H3)%byte_nibbles. unfold parse_hex2.
  rewrite hex_digit_not_plus, !hex_value_digit by done. simpl. f_equal. lia.
Qed.

(** The text of bytes reads back as those bytes. *)
Lemma parse_hex_string l : Forall is_byte l → parse_hex (hex_string l) = Some l.
Proof.
  induction 1 as [|b l Hb _ IH]; [done|]. cbn [hex_string foldr hex2].
  change (parse_hex2 (hex_digit (b / 16)) (hex_digit (b mod 16)) ≫=
    (λ b', parse_hex (hex_string l) ≫= λ l', Some (b' :: l')) = Some (b :: l)).
  rewrite parse_hex2_hex2 by done. simpl. by rewrite IH.
Qed.

Lemma hex_string_length l : String.length (hex_string l) = (2 * length l)%nat.
Proof.
  induction l as [|b l IH]; [done|]. cbn [hex_string foldr hex2].
  change (S (S (String.length (hex_string l))) = (2 * S (length l))%nat). rewrite IH. lia.
Qed.

(** *** Order *)

Lemma hex_digit_cmp d e :
  0 ≤ d < 16 → 0 ≤ e < 16 → Ascii.compare (hex_digit d) (hex_digit e) = (d ?= e).
Proof.
  intros Hd He.
  apply (digit_cases (λ d, Ascii.compare (hex_digit d) (hex_digit e) = (d ?= e)) d Hd).
  repeat (apply Forall_cons; split); [..|constructor];
    match goal with
    | |- Ascii.compare ?x _ = (?k ?= _) =>
        apply (digit_cases (λ e, Ascii.compare x (hex_digit e) = (k ?= e)) e He)
    end; repeat constructor.
Qed.

Fixpoint lex_cmp (l k : list Z) : comparison :=
  match l, k with
  | [], [] => Eq
  | [], _ => Lt
  | _, [] => Gt
  | x :: l, y :: k => then_with (x ?= y) (lex_cmp l k)
  end.

Lemma hex_string_cmp l k :
  Forall is_byte l → Forall is_byte k → length l = length k →
  bytes_cmp (hex_string l) (hex_string k) = lex_cmp l k.
Proof.
  intros Hl. revert k. induction Hl as [|b l Hb _ IH]; intros [|c k] Hk Hlen; try done.
  apply Forall_cons in Hk as [Hc Hk]. cbn [lex_cmp]. rewrite <-IH by (done || (simpl in Hlen; lia)).
  cbn [hex_string foldr hex2]. unfold bytes_cmp.
  destruct (byte_nibbles b Hb) as (Hb1 & Hb2 & Hb3), (byte_nibbles c Hc) as (Hc1 & Hc2 & Hc3).
  change (String.compare (String (hex_digit (b / 16)) (String (hex_digit (b mod 16)) (hex_string l)))
            (String (hex_digit (c / 16)) (String (hex_digit (c mod 16)) (hex_string k)))
          = then_with (b ?= c) (String.compare (hex_string l) (hex_string k))).
  cbn [String.compare]. rewrite !hex_digit_cmp by done.
  destruct (Z.compare_spec (b / 16) (c / 16)), (Z.compare_spec (b mod 16) (c mod 16)),
    (Z.compare_spec b c); try done; lia.
Qed.

Lemma be_bytes_cmp n x y :
  lex_cmp (be_bytes n x) (be_bytes n y) = (x mod 256 ^ Z.of_nat n ?= y mod 256 ^ Z.of_nat n).
Proof.
  induction n as [|n IH]; simpl; [by rewrite !Z.mod_1_r|]. rewrite IH, !mod_split.
  assert (0 < 256 ^ Z.of_nat n) as Hp by (apply Z.pow_pos_nonneg; lia).
  pose proof (Z.mod_pos_bound x _ Hp). pose proof (Z.mod_pos_bound y _ Hp).
  set (p := 256 ^ Z.of_nat n) in *. set (a := (x / p) mod 256). set (b := (y / p) mod 256).
  destruct (Z.compare_spec a b) as [->|Hlt|Hgt]; simpl.
  - destruct (Z.compare_spec (x mod p) (y mod p)); symmetry;
      rewrite ?Z.compare_eq_iff, ?Z.compare_lt_iff, ?Z.compare_gt_iff; lia.
  - symmetry. rewrite Z.compare_lt_iff. nia.
  - symmetry. rewrite Z.compare_gt_iff. nia.
Qed.

(** ** SHA-256 *)

Class Sha256 := { sha256_digest : string → list Z }.

(** A digest is 32 bytes. *)
Class Sha256Laws `{!Sha256} := {
  digest_bytes b : Forall is_byte (sha256_digest b);
  digest_length b : length (sha256_digest b) = 32%nat;
}.

(** A digest to compute with. *)
Module FnvDigest.
#[export] Instance digest : Sha256 := { sha256_digest b := be_bytes 32 (fnv_bytes FNV_OFFSET_BASIS b) }.

#[export] Instance digest_laws : Sha256Laws.
Proof. split; intros; [apply be_bytes_range|apply be_bytes_length]. Qed.
End FnvDigest.
