(* ===== verification/Keys.v ===== *)
(** * Keys made of components, and batches on them

    The keys of the knowledge serving state and of the memory ledger: components
    prefixed with their length in four bytes. Equal keys have equal components,
    so records under different keys do not touch each other. *)

From Stdlib Require Import Ascii.
From S2P Require Import Prelude Sorting Text Hex Storage.

(** The length as four bytes, then the bytes. *)
Definition component (value : string) : string :=
  string_of_bytes (be_bytes 4 (byte_len value)) +:+ value.

Definition push_component (key value : string) : string := key +:+ component value.

Definition components (l : list string) : string := foldr (λ c acc, component c +:+ acc) "" l.

Lemma push_components l key : foldl push_component key l = key +:+ components l.
Proof.
  revert key. induction l as [|c l IH]; intros key; cbn [foldl components foldr].
  { by induction key as [|a key IH]; [|change (String a key = String a (key +:+ "")); f_equal]. }
  rewrite IH. unfold push_component. by rewrite !app_assoc_str.
Qed.

(** A key component whose length fits its prefix. *)
Definition small (s : string) : Prop := byte_len s < 2 ^ 32.

Lemma component_app_inj a b x y :
  small a → small b → component a +:+ x = component b +:+ y → a = b ∧ x = y.
Proof.
  unfold component, small. intros Ha Hb. rewrite !app_assoc_str. intros E.
  apply app_same_length in E as [E1 E2]; [|by rewrite !string_of_bytes_length, !be_bytes_length].
  apply string_of_bytes_inj in E1; [|apply be_bytes_range..].
  apply (f_equal from_be_bytes) in E1. rewrite !from_be_bytes_be in E1.
  unfold byte_len in *. rewrite !Z.mod_small in E1 by (simpl; lia).
  apply app_same_length in E2 as [-> ->]; [done|lia].
Qed.

Lemma components_inj l k : Forall small l → Forall small k → components l = components k → l = k.
Proof.
  intros Hl. revert k. induction Hl as [|a l Ha Hl IH]; intros k Hk E; destruct Hk as [|b k Hb Hk].
  - done.
  - discriminate.
  - discriminate.
  - cbn [components foldr] in E. apply component_app_inj in E as [-> E]; [|done..].
    f_equal. by apply IH.
Qed.

Lemma sequence_small n : small (string_of_bytes (be_bytes 8 n)).
Proof. unfold small, byte_len. by rewrite string_of_bytes_length, be_bytes_length. Qed.

Lemma be_bytes_inj n p : is_u64 n → is_u64 p → be_bytes 8 n = be_bytes 8 p → n = p.
Proof.
  unfold in_range, u64_max. intros Hn Hp E. apply (f_equal from_be_bytes) in E.
  rewrite !from_be_bytes_be in E.
  rewrite !Z.mod_small in E by (change (256 ^ Z.of_nat 8) with (2 ^ 64); lia). done.
Qed.

(** ** Batches of writes under typed keys *)

Section puts.
Context {K : Type} `{!EqDecision K} (enc : K → string) (key_ok : K → Prop).
Hypothesis enc_inj : ∀ k k', key_ok k → key_ok k' → enc k = enc k' → k = k'.

Definition kputs (l : list (K * string)) : list BatchOperation := (λ kv, Put (enc kv.1) kv.2) <$> l.

Lemma kputs_other m l k :
  Forall (λ kv, key_ok kv.1) l → key_ok k → k ∉ l.*1 → apply_batch m (kputs l) !! enc k = m !! enc k.
Proof using enc_inj.
  intros Hl Hk. revert m. induction Hl as [|[k' v] l Hk' Hl IH]; intros m Hn; [done|].
  rewrite fmap_cons, not_elem_of_cons in Hn. destruct Hn as [Hne Hn].
  change (apply_batch (<[enc k' := v]> m) (kputs l) !! enc k = m !! enc k).
  rewrite IH by done. apply lookup_insert_ne. intros E. apply Hne. symmetry. by apply enc_inj.
Qed.

Lemma kputs_lookup m l k v :
  Forall (λ kv, key_ok kv.1) l → NoDup l.*1 → (k, v) ∈ l → apply_batch m (kputs l) !! enc k = Some v.
Proof using enc_inj.
  intros Hl. revert m. induction Hl as [|[k' v'] l Hk' Hl IH]; intros m Hnd Hin.
  { by apply elem_of_nil in Hin. }
  rewrite fmap_cons in Hnd. apply NoDup_cons in Hnd as [Hn Hnd].
  change (apply_batch (<[enc k' := v']> m) (kputs l) !! enc k = Some v).
  apply elem_of_cons in Hin as [E|Hin]; [|by apply IH].
  injection E as -> ->. rewrite kputs_other by done. apply lookup_insert_eq.
Qed.
End puts.
