(* ===== verification/IdMapping.v ===== *)
(** * External ids, internal ids and durable payloads

    [crates/storage/src/id_mapping.rs]: the mapping from external vector ids to
    index ids, with the vector payload and the source text stored beside it. The
    manager is a client of [StorageBackend]: every theorem here is proved from
    [StorageLaws]. bincode is a pair of parameters with its round-trip law. The
    clock is an argument, one per reading. An operation holds the lock of its
    id's stripe from its first read to its last write, so it is one step. *)

From S2P Require Import Prelude Float32 Text Storage.
From Stdlib Require Import Ascii.

Definition LOCK_STRIPE_COUNT : Z := 256.

Record IdMappingEntry := mkMapping {
  internal_id : Z;
  created_at : Z;
  updated_at : Z;
  deleted : bool;
  deleted_at : option Z;
}.

Record StoredVectorEntry := mkStored {
  sv_external_id : string;
  sv_internal_id : Z;
  sv_vector : list f32;
  sv_metadata : string;
  sv_created_at : Z;
  sv_updated_at : Z;
  sv_deleted : bool;
}.

Definition stored_new (external_id : string) (iid : Z) (vector : list f32)
    (metadata : string) (now : Z) : StoredVectorEntry :=
  mkStored external_id iid vector metadata now now false.

Definition stored_mark_deleted (e : StoredVectorEntry) (now : Z) : StoredVectorEntry :=
  mkStored (sv_external_id e) (sv_internal_id e) (sv_vector e) (sv_metadata e)
    (sv_created_at e) now true.

Definition mapping_new (iid now : Z) : IdMappingEntry := mkMapping iid now now false None.

Definition mapping_mark_deleted (e : IdMappingEntry) (now : Z) : IdMappingEntry :=
  mkMapping (internal_id e) (created_at e) now true (Some now).

Definition ID_MAPPING_PREFIX : string := "id:".
Definition VECTOR_PREFIX : string := "vec:".
Definition TEXT_PREFIX : string := "txt:".

(** ** Keys *)

Definition stripe_index (collection external_id : string) : Z :=
  fnv_bytes (fnv_bytes FNV_OFFSET_BASIS collection) external_id mod LOCK_STRIPE_COUNT.

Definition make_collection_prefix (pre collection : string) : string :=
  pre +:+ decimal (Z.of_nat (String.length collection)) +:+ ":" +:+ collection.

Definition make_key_with_prefix (pre collection external_id : string) : string :=
  pre +:+ decimal (Z.of_nat (String.length collection)) +:+ ":" +:+ collection +:+ external_id.

Definition make_key : string → string → string := make_key_with_prefix ID_MAPPING_PREFIX.
Definition make_vector_key : string → string → string := make_key_with_prefix VECTOR_PREFIX.
Definition make_text_key : string → string → string := make_key_with_prefix TEXT_PREFIX.

(** ** UTF-8 validation ([std::str::from_utf8]) *)

Definition utf8_cont (b : Z) : bool := (128 <=? b) && (b <=? 191).

Fixpoint utf8_bytes_valid (fuel : nat) (l : list Z) : bool :=
  match fuel, l with
  | _, [] => true
  | O, _ => false
  | S fuel, b :: l =>
      if b <=? 127 then utf8_bytes_valid fuel l
      else if (194 <=? b) && (b <=? 223) then
        match l with
        | b1 :: l => utf8_cont b1 && utf8_bytes_valid fuel l
        | _ => false
        end
      else if (224 <=? b) && (b <=? 239) then
        match l with
        | b1 :: b2 :: l =>
            (if b =? 224 then (160 <=? b1) && (b1 <=? 191)
             else if b =? 237 then (128 <=? b1) && (b1 <=? 159) else utf8_cont b1)
            && utf8_cont b2 && utf8_bytes_valid fuel l
        | _ => false
        end
      else if (240 <=? b) && (b <=? 244) then
        match l with
        | b1 :: b2 :: b3 :: l =>
            (if b =? 240 then (144 <=? b1) && (b1 <=? 191)
             else if b =? 244 then (128 <=? b1) && (b1 <=? 143) else utf8_cont b1)
            && utf8_cont b2 && utf8_cont b3 && utf8_bytes_valid fuel l
        | _ => false
        end
      else false
  end.

Definition utf8_valid (s : string) : bool :=
  utf8_bytes_valid (String.length s) (byte_of <$> String.list_ascii_of_string s).

(** *** Keys do not collide *)

Definition is_prefix (p : string) : Prop :=
  p = ID_MAPPING_PREFIX ∨ p = VECTOR_PREFIX ∨ p = TEXT_PREFIX.

(** The key determines the namespace, the collection and the id. *)
Lemma make_key_inj p p' coll coll' id id' :
  is_prefix p → is_prefix p' →
  make_key_with_prefix p coll id = make_key_with_prefix p' coll' id' →
  p = p' ∧ coll = coll' ∧ id = id'.
Proof.
  intros Hp Hp' E.
  assert (p = p') as <-.
  { destruct Hp as [-> | [-> | ->]], Hp' as [-> | [-> | ->]]; done. }
  apply (app_same_length p p) in E as [_ E]; [|done].
  apply no_colon_split in E as [E1 E2]; [|apply decimal_no_colon..].
  apply decimal_inj in E1; [|lia..].
  apply app_same_length in E2; [|lia]. naive_solver.
Qed.

Lemma collection_prefix_app p coll id :
  make_collection_prefix p coll +:+ id = make_key_with_prefix p coll id.
Proof. unfold make_collection_prefix, make_key_with_prefix. by rewrite !app_assoc_str. Qed.

(** A scan of a collection's prefix meets no key of another collection. *)
Lemma starts_with_collection p p' coll coll' id :
  is_prefix p → is_prefix p' →
  starts_with (make_key_with_prefix p' coll' id) (make_collection_prefix p coll) = true →
  p = p' ∧ coll = coll'.
Proof.
  intros Hp Hp' [s E]%starts_with_inv. rewrite collection_prefix_app in E.
  apply make_key_inj in E; naive_solver.
Qed.

(** Storage keys never collide: two keys built for any namespaces,
    collections and ids, with any characters in them, are equal only when all
    three are, and a key falls under the scan prefix of a collection only when
    it belongs to that collection and namespace. *)
Lemma keys_disjoint p p' coll coll' id id' :
  is_prefix p → is_prefix p' →
  (make_key_with_prefix p coll id = make_key_with_prefix p' coll' id'
   ↔ p = p' ∧ coll = coll' ∧ id = id') ∧
  (starts_with (make_key_with_prefix p' coll' id) (make_collection_prefix p coll) = true
   ↔ p = p' ∧ coll = coll').
Proof.
  intros Hp Hp'. split; split.
  - by apply make_key_inj.
  - by intros (-> & -> & ->).
  - by apply starts_with_collection.
  - intros (-> & ->). rewrite <-collection_prefix_app. apply starts_with_app.
Qed.

Lemma keys_disjoint_witness :
  make_key_with_prefix "id:" "foo" "bar:baz" ≠ make_key_with_prefix "id:" "foo:bar" "baz".
Proof.
  intros E. apply (keys_disjoint "id:" "id:" "foo" "foo:bar" "bar:baz" "baz") in E;
    [|by left|by left].
  by destruct E as (_ & ? & _).
Defined.

Lemma stripe_index_range collection external_id :
  0 ≤ stripe_index collection external_id < LOCK_STRIPE_COUNT.
Proof. apply Z.mod_pos_bound. done. Qed.

(** ** Operations *)

Section id_mapping.
Context (serialize_mapping : IdMappingEntry → option string)
        (deserialize_mapping : string → option IdMappingEntry)
        (serialize_vector : StoredVectorEntry → option string)
        (deserialize_vector : string → option StoredVectorEntry).
Context {S : Type} `{!StorageBackend S}.
Implicit Types (s : S) (coll id : string).

Definition ser_error : AkiDbError := SerializationError "bincode".

Definition store_text s coll id (text : string) : Result unit * S :=
  sb_put s (make_text_key coll id) text.

Definition delete_text s coll id : Result unit * S := sb_delete s (make_text_key coll id).

Fixpoint load_texts_loop (pre : string) (es : list KV) (out : list (string * string))
    : Result (list (string * string)) :=
  match es with
  | [] => Ok out
  | (key, value) :: es =>
      if (String.length key <=? String.length pre)%nat then load_texts_loop pre es out
      else
        let id := str_drop (String.length pre) key in
        if negb (utf8_valid id) then
          Err (SerializationError "Invalid UTF-8 in persisted text vector id")
        else if String.eqb id "" then load_texts_loop pre es out
        else if negb (utf8_valid value) then
          Err (SerializationError "Invalid UTF-8 in persisted text payload")
        else load_texts_loop pre es (out ++ [(id, value)])
  end.

Definition load_all_texts s coll : Result (list (string * string)) :=
  let pre := make_collection_prefix TEXT_PREFIX coll in
  let? entries := sb_scan_prefix_limited s pre None in
  load_texts_loop pre entries [].

Definition stored_vector_count s coll : Result Z :=
  sb_count_prefix s (make_collection_prefix VECTOR_PREFIX coll).

Definition stored_text_count s coll : Result Z :=
  sb_count_prefix s (make_collection_prefix TEXT_PREFIX coll).

Definition get s coll id : Result (option IdMappingEntry) :=
  let? data := sb_get s (make_key coll id) in
  match data with
  | Some data =>
      match deserialize_mapping data with
      | Some entry => Ok (Some entry)
      | None => Err ser_error
      end
  | None => Ok None
  end.

(** Serializes a mapping entry and writes it under [key]. *)
Definition put_mapping s (key : string) (entry : IdMappingEntry) : Result IdMappingEntry * S :=
  match serialize_mapping entry with
  | None => (Err ser_error, s)
  | Some data =>
      match sb_put s key data with
      | (Err e, s) => (Err e, s)
      | (Ok _, s) => (Ok entry, s)
      end
  end.

Definition create s coll id (iid now : Z) : Result IdMappingEntry * S :=
  match get s coll id with
  | Err e => (Err e, s)
  | Ok (Some existing) =>
      if deleted existing then (Err (IdReuseForbidden id), s)
      else (Err (VectorAlreadyExists id), s)
  | Ok None => put_mapping s (make_key coll id) (mapping_new iid now)
  end.

Definition create_internal s (iid : Z) (key : string) (now : Z) : Result IdMappingEntry * S :=
  put_mapping s key (mapping_new iid now).

Definition update s coll id (new_iid now : Z) : Result IdMappingEntry * S :=
  match get s coll id with
  | Err e => (Err e, s)
  | Ok (Some e) =>
      if deleted e then (Err (IdReuseForbidden id), s)
      else put_mapping s (make_key coll id)
             (mkMapping new_iid (created_at e) now (deleted e) (deleted_at e))
  | Ok None => create_internal s new_iid (make_key coll id) now
  end.

(** The stored payload, tombstoned or not. *)
Definition get_vector_including_deleted s coll id : Result (option StoredVectorEntry) :=
  let? data := sb_get s (make_vector_key coll id) in
  match data with
  | Some data =>
      match deserialize_vector data with
      | Some entry => Ok (Some entry)
      | None => Err ser_error
      end
  | None => Ok None
  end.

Definition mark_deleted s coll id (now1 now2 : Z) : Result (option Z) * S :=
  match get s coll id with
  | Err e => (Err e, s)
  | Ok None => (Ok None, s)
  | Ok (Some entry) =>
      if deleted entry then (Ok None, s)
      else
        let iid := internal_id entry in
        let batch :=
          match serialize_mapping (mapping_mark_deleted entry now1) with
          | None => Err ser_error
          | Some data =>
              let? vector_update := get_vector_including_deleted s coll id in
              let operations := [Put (make_key coll id) data] in
              let? operations :=
                match vector_update with
                | None => Ok operations
                | Some vector_entry =>
                    match serialize_vector (stored_mark_deleted vector_entry now2) with
                    | None => Err ser_error
                    | Some value => Ok (operations ++ [Put (make_vector_key coll id) value])
                    end
                end in
              Ok (operations ++ [Delete (make_text_key coll id)])
          end in
        match batch with
        | Err e => (Err e, s)
        | Ok operations =>
            match sb_write_batch_sync s operations with
            | (Err e, s) => (Err e, s)
            | (Ok _, s) => (Ok (Some iid), s)
            end
        end
  end.

Definition get_internal_id s coll id : Result (option Z) :=
  let? entry := get s coll id in
  match entry with
  | Some entry => Ok (if deleted entry then None else Some (internal_id entry))
  | None => Ok None
  end.

(** The mapping entry an upsert writes. *)
Definition upsert_entry s coll id (iid now1 now2 : Z) : Result IdMappingEntry :=
  let? data := sb_get s (make_key coll id) in
  match data with
  | Some data =>
      match deserialize_mapping data with
      | None => Err ser_error
      | Some entry =>
          if deleted entry then Err (IdReuseForbidden id)
          else Ok (mkMapping iid (created_at entry) now1 (deleted entry) (deleted_at entry))
      end
  | None => Ok (mapping_new iid now2)
  end.

(** The change to the source text: [None] leaves it, [Some ""] deletes it. *)
Definition text_operations coll id (text : option string) : list BatchOperation :=
  match text with
  | Some "" => [Delete (make_text_key coll id)]
  | Some text => [Put (make_text_key coll id) text]
  | None => []
  end.

(** [now1] is read first, [now2] by [IdMappingEntry::new] and [now3] by
    [StoredVectorEntry::new]. *)
Definition upsert_with_vector_and_text s coll id (iid : Z) (vector : list f32)
    (metadata : string) (text : option string) (now1 now2 now3 : Z)
    : Result IdMappingEntry * S :=
  match upsert_entry s coll id iid now1 now2 with
  | Err e => (Err e, s)
  | Ok entry =>
      let fresh := stored_new id iid vector metadata now3 in
      let stored_vector :=
        mkStored (sv_external_id fresh) (sv_internal_id fresh) (sv_vector fresh)
          (sv_metadata fresh) (sv_created_at fresh) now1 (sv_deleted fresh) in
      match serialize_mapping entry, serialize_vector stored_vector with
      | Some mapping, Some payload =>
          let operations := [Put (make_key coll id) mapping; Put (make_vector_key coll id) payload]
                            ++ text_operations coll id text in
          match sb_write_batch_sync s operations with
          | (Err e, s) => (Err e, s)
          | (Ok _, s) => (Ok entry, s)
          end
      | _, _ => (Err ser_error, s)
      end
  end.

Definition upsert_with_vector s coll id (iid : Z) (vector : list f32) (metadata : string)
    (now1 now2 now3 : Z) : Result IdMappingEntry * S :=
  upsert_with_vector_and_text s coll id iid vector metadata None now1 now2 now3.

Definition get_vector s coll id : Result (option StoredVectorEntry) :=
  let? iid := get_internal_id s coll id in
  match iid with
  | None => Ok None
  | Some _ =>
      let? data := sb_get s (make_vector_key coll id) in
      match data with
      | Some data =>
          match deserialize_vector data with
          | None => Err ser_error
          | Some entry => Ok (if sv_deleted entry then None else Some entry)
          end
      | None => Ok None
      end
  end.

Fixpoint load_vectors_loop s coll (es : list KV) (vectors : list StoredVectorEntry)
    : Result (list StoredVectorEntry) :=
  match es with
  | [] => Ok vectors
  | (_, data) :: es =>
      match deserialize_vector data with
      | None => Err ser_error
      | Some entry =>
          if sv_deleted entry then load_vectors_loop s coll es vectors
          else
            let? iid := get_internal_id s coll (sv_external_id entry) in
            load_vectors_loop s coll es
              (if bool_decide (is_Some iid) then vectors ++ [entry] else vectors)
      end
  end.

Definition load_active_vectors s coll : Result (list StoredVectorEntry) :=
  let? entries := sb_scan_prefix_limited s (make_collection_prefix VECTOR_PREFIX coll) None in
  load_vectors_loop s coll entries [].

Definition exists_ s coll id : Result bool :=
  let? e := get s coll id in Ok (bool_decide (is_Some e)).

Definition is_deleted s coll id : Result bool :=
  let? e := get s coll id in
  match e with Some entry => Ok (deleted entry) | None => Ok false end.

(** ** Sequences of operations

    Over any collections that share the store; an operation that fails leaves
    whatever its backend left. *)

Inductive id_op :=
| OpCreate (coll id : string) (iid now : Z)
| OpUpdate (coll id : string) (iid now : Z)
| OpMarkDeleted (coll id : string) (now1 now2 : Z)
| OpUpsert (coll id : string) (iid : Z) (vector : list f32) (metadata : string)
    (text : option string) (now1 now2 now3 : Z)
| OpStoreText (coll id text : string)
| OpDeleteText (coll id : string).

Definition exec s (op : id_op) : S :=
  match op with
  | OpCreate coll id iid now => (create s coll id iid now).2
  | OpUpdate coll id iid now => (update s coll id iid now).2
  | OpMarkDeleted coll id now1 now2 => (mark_deleted s coll id now1 now2).2
  | OpUpsert coll id iid vector metadata text now1 now2 now3 =>
      (upsert_with_vector_and_text s coll id iid vector metadata text now1 now2 now3).2
  | OpStoreText coll id text => (store_text s coll id text).2
  | OpDeleteText coll id => (delete_text s coll id).2
  end.

(** ** What each operation writes *)

Context `{!StorageLaws S}.
Hypothesis mapping_codec : ∀ e d, serialize_mapping e = Some d → deserialize_mapping d = Some e.
Hypothesis vector_codec : ∀ e d, serialize_vector e = Some d → deserialize_vector d = Some e.

Definition op_key (o : BatchOperation) : string :=
  match o with Put k _ | Delete k => k end.

Lemma lookup_batch m batch k :
  (∀ o, o ∈ batch → op_key o ≠ k) → apply_batch m batch !! k = m !! k.
Proof.
  revert m. induction batch as [|o batch IH]; intros m Hk; [done|]. simpl.
  rewrite IH by (intros; apply Hk; set_solver).
  assert (op_key o ≠ k) by (apply Hk; set_solver).
  destruct o; simpl in *; by rewrite ?lookup_insert_ne, ?lookup_delete_ne.
Qed.

Lemma lookup_batch_last m batch o k :
  op_key o = k → apply_batch m (batch ++ [o]) !! k = match o with Put _ v => Some v | Delete _ => None end.
Proof.
  unfold apply_batch. rewrite foldl_app. simpl.
  destruct o; simpl; intros ->; by rewrite ?lookup_insert_eq, ?lookup_delete_eq.
Qed.

(** A mapping operation of [(coll, id)] on a store with contents [m] writes the
    mapping entry [e] (or none), the payload [v] (or none) and source text. *)
Inductive id_batch coll id (e : option IdMappingEntry) (v : option StoredVectorEntry)
  : list BatchOperation → Prop :=
| id_batch_intro batch :
    (∀ o, o ∈ batch →
       (∃ d x, o = Put (make_key coll id) d ∧ e = Some x ∧ deserialize_mapping d = Some x)
       ∨ (∃ d x, o = Put (make_vector_key coll id) d ∧ v = Some x ∧ deserialize_vector d = Some x)
       ∨ op_key o = make_text_key coll id) →
    id_batch coll id e v batch.

(** The mapping entry of an id, decoded. *)
Definition lookup_mapping (m : gmap string string) coll id : option IdMappingEntry :=
  m !! make_key coll id ≫= deserialize_mapping.

Definition lookup_payload (m : gmap string string) coll id : option StoredVectorEntry :=
  m !! make_vector_key coll id ≫= deserialize_vector.

(** One step of the store: nothing, or a batch of one id whose mapping is not a
    tombstone and whose payload keeps its external id. *)
Definition id_step (m m' : gmap string string) : Prop :=
  m' = m ∨
  ∃ coll id e v batch,
    id_batch coll id e v batch ∧ m' = apply_batch m batch ∧
    (∀ x, e = Some x → ∀ y, lookup_mapping m coll id = Some y → deleted y = false) ∧
    (∀ x, v = Some x →
       (∃ y, lookup_payload m coll id = Some y ∧ sv_external_id x = sv_external_id y)
       ∨ sv_external_id x = id).

Lemma write_effect_step {E} (r : result E unit) m batch m' coll id e v :
  write_effect r m (apply_batch m batch) m' →
  id_batch coll id e v batch →
  (∀ x, e = Some x → ∀ y, lookup_mapping m coll id = Some y → deleted y = false) →
  (∀ x, v = Some x →
     (∃ y, lookup_payload m coll id = Some y ∧ sv_external_id x = sv_external_id y)
     ∨ sv_external_id x = id) →
  id_step m m'.
Proof.
  intros Hw Hb He Hv.
  assert (m' = m ∨ m' = apply_batch m batch) as [-> | ->] by (destruct r; naive_solver);
    [by left|]. right. by exists coll, id, e, v, batch.
Qed.

Lemma get_view s coll id r :
  get s coll id = Ok r →
  r = lookup_mapping (sb_view s) coll id ∧
  (is_Some (sb_view s !! make_key coll id) → is_Some r).
Proof.
  unfold get, lookup_mapping. destruct (sb_get s _) as [d|] eqn:E; simpl; [|done].
  apply sb_get_ok in E as <-. destruct d as [d|]; simpl; [|naive_solver].
  destruct (deserialize_mapping d); [|done]. naive_solver.
Qed.

Lemma get_payload_view s coll id r :
  get_vector_including_deleted s coll id = Ok r →
  r = lookup_payload (sb_view s) coll id.
Proof.
  unfold get_vector_including_deleted, lookup_payload.
  destruct (sb_get s _) as [d|] eqn:E; simpl; [|done]. apply sb_get_ok in E as <-.
  destruct d as [d|]; simpl; [|naive_solver]. destruct (deserialize_vector d); naive_solver.
Qed.

Lemma put_mapping_step s coll id e :
  (∀ y, lookup_mapping (sb_view s) coll id = Some y → deleted y = false) →
  id_step (sb_view s) (sb_view (put_mapping s (make_key coll id) e).2).
Proof.
  intros Hy. unfold put_mapping. destruct (serialize_mapping e) as [d|] eqn:E; [|by left].
  destruct (sb_put s _ d) as [r s'] eqn:Ep.
  apply sb_put_ok in Ep. assert (id_step (sb_view s) (sb_view s')); [|by destruct r].
  eapply (write_effect_step r _ [Put (make_key coll id) d] _ coll id (Some e) None);
    [done| |naive_solver|done].
  constructor. intros o ->%list_elem_of_singleton. left. exists d, e. auto.
Qed.

Lemma text_batch coll id o e v :
  op_key o = make_text_key coll id → id_batch coll id e v [o].
Proof. constructor. intros o' ->%list_elem_of_singleton. auto. Qed.

Lemma create_step s coll id iid now :
  id_step (sb_view s) (sb_view (create s coll id iid now).2).
Proof.
  unfold create. destruct (get s coll id) as [[e|]|] eqn:E; [|apply put_mapping_step|by left].
  - destruct (deleted e); by left.
  - apply get_view in E as [<- _]. done.
Qed.

Lemma update_step s coll id iid now :
  id_step (sb_view s) (sb_view (update s coll id iid now).2).
Proof.
  unfold update, create_internal.
  destruct (get s coll id) as [[e|]|] eqn:E; [| |by left]; apply get_view in E as [E _].
  - destruct (deleted e) eqn:Hd; [by left|]. apply put_mapping_step. rewrite <-E. naive_solver.
  - apply put_mapping_step. by rewrite <-E.
Qed.

(** What a deletion writes: the tombstoned mapping, the tombstoned payload if
    there is one, and the removal of the source text. *)
Definition delete_batch coll id e (v : option StoredVectorEntry) (batch : list BatchOperation)
  : Prop :=
  ∃ d ops, serialize_mapping e = Some d ∧
    batch = Put (make_key coll id) d :: ops ++ [Delete (make_text_key coll id)] ∧
    match v with
    | None => ops = []
    | Some v => ∃ d', serialize_vector v = Some d' ∧ ops = [Put (make_vector_key coll id) d']
    end.

Lemma delete_batch_id coll id e v batch :
  delete_batch coll id e v batch → id_batch coll id (Some e) v batch.
Proof.
  intros (d & ops & He & -> & Hv). constructor.
  intros o [-> | [Ho | ->%list_elem_of_singleton]%elem_of_app]%elem_of_cons.
  - left. exists d, e. auto.
  - destruct v as [v|]; [|subst ops; by apply elem_of_nil in Ho].
    destruct Hv as (d' & Hd' & ->). apply list_elem_of_singleton in Ho as ->.
    right. left. exists d', v. auto.
  - by right; right.
Qed.

Lemma mark_deleted_cases s coll id now1 now2 r s' :
  mark_deleted s coll id now1 now2 = (r, s') →
  (s' = s ∧ ∀ iid, r ≠ Ok (Some iid)) ∨
  ∃ e batch (w : Result unit),
    lookup_mapping (sb_view s) coll id = Some e ∧ deleted e = false ∧
    delete_batch coll id (mapping_mark_deleted e now1)
      ((λ v, stored_mark_deleted v now2) <$> lookup_payload (sb_view s) coll id) batch ∧
    sb_write_batch_sync s batch = (w, s') ∧
    r = match w with Ok _ => Ok (Some (internal_id e)) | Err x => Err x end.
Proof.
  unfold mark_deleted.
  destruct (get s coll id) as [[e|]|] eqn:E; [|intros [= <- <-]; by left..].
  apply get_view in E as [E _]. destruct (deleted e) eqn:Hd; [intros [= <- <-]; by left|].
  destruct (serialize_mapping _) as [d|] eqn:Es; [|intros [= <- <-]; by left].
  destruct (get_vector_including_deleted s coll id) as [v|] eqn:Ev;
    [|intros [= <- <-]; by left]. simpl.
  apply get_payload_view in Ev. rewrite <-Ev, <-E.
  destruct (match v with Some _ => _ | None => _ end) as [ops|] eqn:Eo;
    [|intros [= <- <-]; by left]. simpl.
  destruct (sb_write_batch_sync s _) as [w s''] eqn:Ew.
  intros Hr. assert (s'' = s' ∧ r = match w with Ok _ => Ok (Some (internal_id e)) | Err x => Err x end)
    as [-> ->] by (by destruct w; injection Hr as <- <-).
  right. eexists e, _, w. split; [done|]. split; [done|]. split; [|split; [exact Ew|done]].
  - destruct v as [v|]; [|injection Eo as <-; by exists d, []].
    destruct (serialize_vector _) as [d'|] eqn:Ed; [|done]. injection Eo as <-.
    exists d, [Put (make_vector_key coll id) d']. simpl. eauto.
Qed.

Lemma mark_deleted_step s coll id now1 now2 :
  id_step (sb_view s) (sb_view (mark_deleted s coll id now1 now2).2).
Proof.
  destruct (mark_deleted _ _ _ _ _) as [r s'] eqn:E. simpl.
  apply mark_deleted_cases in E as [[-> _] | (e & batch & w & He & Hd & Hb & Hw & _)]; [by left|].
  eapply write_effect_step; [by apply sb_write_batch_sync_ok|by apply delete_batch_id| |].
  - intros x _ y Hy. congruence.
  - intros x Hx. left. destruct (lookup_payload (sb_view s) coll id) as [y|]; [|done].
    exists y. split; [done|]. by injection Hx as <-.
Qed.

Lemma upsert_entry_view s coll id iid now1 now2 e :
  upsert_entry s coll id iid now1 now2 = Ok e →
  deleted e = false ∧ internal_id e = iid ∧
  (∀ y, lookup_mapping (sb_view s) coll id = Some y → deleted y = false).
Proof.
  unfold upsert_entry, lookup_mapping. destruct (sb_get s _) as [[d|]|] eqn:E; simpl; [| |done];
    apply sb_get_ok in E as <-; simpl; [|by intros [= <-]].
  destruct (deserialize_mapping d) as [y|]; [|done]. destruct (deleted y) eqn:Hd; [done|].
  intros [= <-]. simpl. naive_solver.
Qed.

(** What a successful upsert wrote. *)
Definition upsert_batch coll id e v (text : option string) (batch : list BatchOperation) : Prop :=
  ∃ d d', serialize_mapping e = Some d ∧ serialize_vector v = Some d' ∧
    batch = [Put (make_key coll id) d; Put (make_vector_key coll id) d']
            ++ text_operations coll id text.

Lemma upsert_batch_id coll id e v text batch :
  upsert_batch coll id e v text batch → id_batch coll id (Some e) (Some v) batch.
Proof.
  intros (d & d' & He & Hv & ->). constructor. intros o [Ho|Ho]%elem_of_app.
  - apply elem_of_cons in Ho as [-> | ->%list_elem_of_singleton].
    + left. exists d, e. auto.
    + right. left. exists d', v. auto.
  - right. right. destruct text as [[|c t]|]; simpl in Ho; set_solver.
Qed.

Lemma upsert_cases s coll id iid vector metadata text now1 now2 now3 r s' :
  upsert_with_vector_and_text s coll id iid vector metadata text now1 now2 now3 = (r, s') →
  (s' = s ∧ is_ok r = false) ∨
  ∃ e batch (w : Result unit),
    upsert_entry s coll id iid now1 now2 = Ok e ∧
    upsert_batch coll id e (mkStored id iid vector metadata now3 now1 false) text batch ∧
    sb_write_batch_sync s batch = (w, s') ∧
    r = match w with Ok _ => Ok e | Err x => Err x end.
Proof.
  unfold upsert_with_vector_and_text.
  destruct (upsert_entry _ _ _ _ _ _) as [e|] eqn:E; [|intros [= <- <-]; by left].
  destruct (serialize_mapping e) as [d|] eqn:Ed; [|intros [= <- <-]; by left]. simpl.
  destruct (serialize_vector _) as [d'|] eqn:Ed'; [|intros [= <- <-]; by left].
  destruct (sb_write_batch_sync s _) as [w s''] eqn:Ew.
  intros Hr. right. eexists e, _, w. split; [done|]. split; [by exists d, d'|].
  by destruct w; injection Hr as <- <-.
Qed.

Lemma upsert_step s coll id iid vector metadata text now1 now2 now3 :
  id_step (sb_view s)
    (sb_view (upsert_with_vector_and_text s coll id iid vector metadata text now1 now2 now3).2).
Proof.
  destruct (upsert_with_vector_and_text _ _ _ _ _ _ _ _ _ _) as [r s'] eqn:E. simpl.
  apply upsert_cases in E as [[-> _] | (e & batch & w & He & Hb & Hw & _)]; [by left|].
  eapply write_effect_step; [by apply sb_write_batch_sync_ok|by eapply upsert_batch_id| |].
  - intros x _ y Hy. apply upsert_entry_view in He as (_ & _ & H). by apply H.
  - intros x [= <-]. by right.
Qed.

Lemma exec_step s op : id_step (sb_view s) (sb_view (exec s op)).
Proof.
  destruct op as [coll id iid now|coll id iid now|coll id now1 now2|
                  coll id iid v m t now1 now2 now3|coll id text|coll id]; simpl.
  - apply create_step.
  - apply update_step.
  - apply mark_deleted_step.
  - apply upsert_step.
  - unfold store_text. destruct (sb_put s _ _) as [r s'] eqn:E. apply sb_put_ok in E.
    eapply (write_effect_step r _ [Put _ _] _ coll id None None);
      [exact E|by apply text_batch|done|done].
  - unfold delete_text. destruct (sb_delete s _) as [r s'] eqn:E. apply sb_delete_ok in E.
    eapply (write_effect_step r _ [Delete _] _ coll id None None);
      [exact E|by apply text_batch|done|done].
Qed.

(** ** Invariants of the store *)

(** A batch of one id leaves the keys of another. *)
Lemma id_batch_frame coll id e v batch m coll' id' p :
  id_batch coll id e v batch → (coll', id') ≠ (coll, id) → is_prefix p →
  apply_batch m batch !! make_key_with_prefix p coll' id' = m !! make_key_with_prefix p coll' id'.
Proof.
  intros [batch' Hb] Hne Hp. apply lookup_batch. intros o Ho Ek.
  destruct (Hb o Ho) as [(d & x & -> & _) | [(d & x & -> & _) | Et]];
    [simpl in Ek|simpl in Ek|rewrite Et in Ek];
    apply make_key_inj in Ek; unfold is_prefix; naive_solver.
Qed.

(** The last write to a key decides what a batch leaves there. *)
Lemma lookup_batch_cases m batch k :
  apply_batch m batch !! k = m !! k ∨
  ∃ o, o ∈ batch ∧ op_key o = k ∧
    apply_batch m batch !! k = match o with Put _ v => Some v | Delete _ => None end.
Proof.
  induction batch as [|o batch IH] using rev_ind; [by left|].
  destruct (decide (op_key o = k)) as [E|E].
  - right. exists o. split; [set_solver|]. split; [done|]. by apply lookup_batch_last.
  - unfold apply_batch in *. rewrite foldl_app. simpl.
    replace (apply_op _ o !! k) with (foldl apply_op m batch !! k)
      by (destruct o; simpl in *; by rewrite ?lookup_insert_ne, ?lookup_delete_ne).
    destruct IH as [IH | (o' & ? & ? & ?)]; [by left|]. right. exists o'. set_solver.
Qed.

Lemma id_batch_same coll id e v batch m :
  id_batch coll id e v batch →
  (apply_batch m batch !! make_key coll id = m !! make_key coll id ∨
   ∃ d x, apply_batch m batch !! make_key coll id = Some d ∧ e = Some x ∧
          deserialize_mapping d = Some x) ∧
  (apply_batch m batch !! make_vector_key coll id = m !! make_vector_key coll id ∨
   ∃ d x, apply_batch m batch !! make_vector_key coll id = Some d ∧ v = Some x ∧
          deserialize_vector d = Some x).
Proof.
  intros [batch' Hb]. split.
  - destruct (lookup_batch_cases m batch' (make_key coll id)) as [?|(o & Ho & Hk & ->)]; [by left|].
    destruct (Hb o Ho) as [(d & x & -> & ?) | [(d & x & -> & _) | Et]];
      [right; naive_solver|done|by rewrite Et in Hk].
  - destruct (lookup_batch_cases m batch' (make_vector_key coll id)) as [?|(o & Ho & Hk & ->)];
      [by left|].
    destruct (Hb o Ho) as [(d & x & -> & _) | [(d & x & -> & ?) | Et]];
      [done|right; naive_solver|by rewrite Et in Hk].
Qed.

Definition tombstoned (m : gmap string string) coll id : Prop :=
  ∃ e, lookup_mapping m coll id = Some e ∧ deleted e = true.

Lemma tombstoned_step m m' coll id : id_step m m' → tombstoned m coll id → tombstoned m' coll id.
Proof.
  intros [-> | (coll' & id' & e & v & batch & Hb & -> & He & _)] (y & Hy & Hd); [by exists y|].
  exists y. split; [|done]. destruct (decide ((coll, id) = (coll', id'))) as [[= -> ->]|Hne].
  - destruct (id_batch_same _ _ _ _ _ m Hb) as [[E | (d & x & _ & Hx & _)] _].
    + unfold lookup_mapping. by rewrite E.
    + specialize (He x Hx y Hy). congruence.
  - unfold lookup_mapping, make_key in *. by rewrite (id_batch_frame coll' id' e v) by (by try left).
Qed.

(** Every stored entry decodes, and a payload is filed under its own id. *)
Definition store_wf (m : gmap string string) : Prop :=
  ∀ coll id,
    (∀ d, m !! make_key coll id = Some d → is_Some (deserialize_mapping d)) ∧
    (∀ d, m !! make_vector_key coll id = Some d →
       ∃ v, deserialize_vector d = Some v ∧ sv_external_id v = id).

Lemma store_wf_step m m' : id_step m m' → store_wf m → store_wf m'.
Proof.
  intros [-> | (coll' & id' & e & v & batch & Hb & -> & _ & Hv)] Hwf; [done|]. intros coll id.
  destruct (Hwf coll id) as [Hm Hp].
  destruct (decide ((coll, id) = (coll', id'))) as [[= -> ->]|Hne].
  - destruct (id_batch_same _ _ _ _ _ m Hb) as [[E1 | (d1 & x1 & E1 & _ & D1)]
                                                  [E2 | (d2 & x2 & E2 & Hx2 & D2)]];
      rewrite E1, E2; (split; [naive_solver|]); try done.
    all: intros d [= <-]; exists x2; split; [done|].
    all: destruct (Hv x2 Hx2) as [(y & Hy & ->)|]; [|done]; unfold lookup_payload in Hy.
    all: destruct (m !! make_vector_key coll' id') as [d'|] eqn:Ed; [|done]; simpl in Hy.
    all: destruct (Hp d' eq_refl) as (z & Hz & <-); congruence.
  - unfold make_key, make_vector_key in *.
    rewrite !(id_batch_frame coll' id' e v) by (unfold is_prefix; auto). done.
Qed.

Lemma tombstoned_run s ops coll id :
  tombstoned (sb_view s) coll id → tombstoned (sb_view (foldl exec s ops)) coll id.
Proof.
  revert s. induction ops as [|op ops IH]; intros s Ht; [done|]. simpl. apply IH.
  eapply tombstoned_step; [apply exec_step|done].
Qed.

Lemma store_wf_run s ops : store_wf (sb_view s) → store_wf (sb_view (foldl exec s ops)).
Proof.
  revert s. induction ops as [|op ops IH]; intros s Ht; [done|]. simpl. apply IH.
  eapply store_wf_step; [apply exec_step|done].
Qed.

Lemma store_wf_empty : store_wf ∅.
Proof. intros coll id. split; intros d; by rewrite lookup_empty. Qed.

(** What the batch of a deletion leaves under the three keys of its id. *)
Lemma delete_batch_lookup m coll id e v batch :
  delete_batch coll id e v batch →
  lookup_mapping (apply_batch m batch) coll id = Some e ∧
  lookup_payload (apply_batch m batch) coll id
  = match v with Some v => Some v | None => lookup_payload m coll id end ∧
  apply_batch m batch !! make_text_key coll id = None.
Proof.
  intros (d & ops & Hd & -> & Hv). unfold lookup_mapping, lookup_payload.
  unfold apply_batch. simpl. rewrite foldl_app. simpl. rewrite lookup_delete_eq.
  rewrite !lookup_delete_ne by done.
  destruct v as [v|]; [destruct Hv as (d' & Hd' & ->)|subst ops]; simpl.
  - rewrite lookup_insert_eq, lookup_insert_ne, lookup_insert_eq by done. simpl.
    split_and!; [by apply mapping_codec|by apply vector_codec|done].
  - rewrite lookup_insert_eq, lookup_insert_ne by done. simpl.
    split_and!; [by apply mapping_codec|done..].
Qed.

(** The source text a store holds for an id after an upsert with [text]. *)
Definition text_after (old text : option string) : option string :=
  match text with Some "" => None | Some t => Some t | None => old end.

(** What the batch of an upsert leaves under the three keys of its id. *)
Lemma upsert_batch_lookup m coll id e v text batch :
  upsert_batch coll id e v text batch →
  lookup_mapping (apply_batch m batch) coll id = Some e ∧
  lookup_payload (apply_batch m batch) coll id = Some v ∧
  apply_batch m batch !! make_text_key coll id = text_after (m !! make_text_key coll id) text.
Proof.
  intros (d & d' & Hd & Hd' & ->). unfold lookup_mapping, lookup_payload.
  assert (∀ k x, k ≠ make_text_key coll id →
            apply_batch x (text_operations coll id text) !! k = x !! k) as Htext.
  { intros k x Hk. apply lookup_batch. intros o Ho.
    destruct text as [[|c t]|]; simpl in Ho; [set_solver..|by apply elem_of_nil in Ho]. }
  unfold apply_batch in *. rewrite !foldl_app. simpl.
  rewrite !Htext by done. rewrite lookup_insert_eq, lookup_insert_ne, lookup_insert_eq by done.
  simpl. split_and!; [by apply mapping_codec|by apply vector_codec|].
  destruct text as [[|c t]|]; simpl; [apply lookup_delete_eq|apply lookup_insert_eq|].
  by rewrite !lookup_insert_ne by done.
Qed.

Lemma mark_deleted_tombstone s coll id now1 now2 iid s' :
  mark_deleted s coll id now1 now2 = (Ok (Some iid), s') → tombstoned (sb_view s') coll id.
Proof.
  intros [[_ []%(λ H, H iid)] | (e & batch & w & He & Hd & Hb & Hw & Hr)]%mark_deleted_cases; [done|].
  destruct w; [|done]. apply sb_write_batch_sync_ok in Hw. simpl in Hw.
  exists (mapping_mark_deleted e now1). split; [|done]. rewrite Hw. by apply (delete_batch_lookup (sb_view s)) in Hb as [-> _].
Qed.

(** C24: a deleted id is never reused. Once [mark_deleted] has succeeded for an
    id, then after any further operations on any collections sharing the store,
    however the backend fails in between, lookups do not find the id or its
    vector, and create, update and upsert of it do not succeed. *)
Theorem deleted_id_never_reused s coll id now1 now2 iid s0 ops :
  mark_deleted s coll id now1 now2 = (Ok (Some iid), s0) →
  let s' := foldl exec s0 ops in
  (∀ r, get_internal_id s' coll id = Ok r → r = None) ∧
  (∀ r, get_vector s' coll id = Ok r → r = None) ∧
  (∀ i now, is_ok (create s' coll id i now).1 = false) ∧
  (∀ i now, is_ok (update s' coll id i now).1 = false) ∧
  (∀ i v m t n1 n2 n3,
     is_ok (upsert_with_vector_and_text s' coll id i v m t n1 n2 n3).1 = false).
Proof.
  intros Hm%mark_deleted_tombstone s'. apply (tombstoned_run _ ops) in Hm. fold s' in Hm.
  destruct Hm as (e & He & Hd).
  assert (∀ r, get s' coll id = Ok r → r = Some e) as Hget.
  { intros r [-> _]%get_view. done. }
  assert (∀ r, get_internal_id s' coll id = Ok r → r = None) as Hint.
  { intros r. unfold get_internal_id.
    destruct (get s' coll id) as [x|] eqn:E; simpl; [|done].
    rewrite (Hget x eq_refl), Hd. naive_solver. }
  split_and!; [done|..].
  - intros r. unfold get_vector. destruct (get_internal_id s' coll id) as [x|]; simpl; [|done].
    rewrite (Hint x eq_refl). naive_solver.
  - intros i now. unfold create. destruct (get s' coll id) as [x|]; [|done].
    by rewrite (Hget x eq_refl), Hd.
  - intros i now. unfold update. destruct (get s' coll id) as [x|]; [|done].
    by rewrite (Hget x eq_refl), Hd.
  - intros. destruct (upsert_with_vector_and_text _ _ _ _ _ _ _ _ _ _) as [r s''] eqn:E.
    apply upsert_cases in E as [[_ ?] | (y & batch & w & Hy & _)]; [done|].
    apply upsert_entry_view in Hy as (_ & _ & Hy). specialize (Hy e He). congruence.
Qed.

(** ** A backend that does not fail *)

Context `{!StorageReliable S}.

(** The internal id a lookup finds. *)
Definition live (m : gmap string string) coll id : option Z :=
  e ← lookup_mapping m coll id; if deleted e then None else Some (internal_id e).

(** The payload [get_vector] finds. *)
Definition visible (m : gmap string string) coll id : option StoredVectorEntry :=
  _ ← live m coll id;
  v ← lookup_payload m coll id;
  if sv_deleted v then None else Some v.

Lemma get_internal_id_eq s coll id :
  store_wf (sb_view s) → get_internal_id s coll id = Ok (live (sb_view s) coll id).
Proof.
  intros Hwf. unfold get_internal_id, get, live, lookup_mapping. rewrite get_eq. simpl.
  destruct (sb_view s !! make_key coll id) as [d|] eqn:E; simpl; [|done].
  destruct (proj1 (Hwf coll id) d E) as [e He]. by rewrite He.
Qed.

Lemma get_vector_eq s coll id :
  store_wf (sb_view s) → get_vector s coll id = Ok (visible (sb_view s) coll id).
Proof.
  intros Hwf. unfold get_vector, visible. rewrite get_internal_id_eq by done. simpl.
  destruct (live _ _ _); simpl; [|done]. rewrite get_eq. unfold lookup_payload. simpl.
  destruct (sb_view s !! make_vector_key coll id) as [d|] eqn:E; simpl; [|done].
  destruct (proj2 (Hwf coll id) d E) as (v & Hv & _). rewrite Hv. simpl.
  by destruct (sv_deleted v).
Qed.

Lemma visible_Some m coll id v :
  visible m coll id = Some v ↔
  is_Some (live m coll id) ∧ sv_deleted v = false ∧
  ∃ d, m !! make_vector_key coll id = Some d ∧ deserialize_vector d = Some v.
Proof.
  unfold visible, lookup_payload. destruct (live m coll id) as [i|]; simpl;
    [|split; [done|by intros [[? ?] _]]].
  destruct (m !! make_vector_key coll id) as [d|]; simpl; [|naive_solver].
  destruct (deserialize_vector d) as [v'|] eqn:E; simpl; [|naive_solver].
  destruct (sv_deleted v') eqn:Hd; split; [done| | |].
  - intros (_ & Hd' & d' & [= <-] & Hv). rewrite E in Hv. injection Hv as ->. congruence.
  - intros [= <-]. eauto 10.
  - intros (_ & _ & d' & [= <-] & Hv). congruence.
Qed.

(** The loop of [load_active_vectors] keeps the visible payloads. *)
Lemma load_vectors_loop_eq s coll es vs acc :
  store_wf (sb_view s) →
  Forall2 (λ kv v, deserialize_vector kv.2 = Some v ∧
                   kv.1 = make_vector_key coll (sv_external_id v)) es vs →
  load_vectors_loop s coll es acc
  = Ok (acc ++ filter (λ v, sv_deleted v = false ∧
                            is_Some (live (sb_view s) coll (sv_external_id v))) vs).
Proof.
  intros Hwf Hes. revert acc. induction Hes as [|[k d] v es vs [Hd _] _ IH]; intros acc.
  { by rewrite app_nil_r. }
  simpl in *. rewrite Hd. destruct (sv_deleted v) eqn:Hv.
  { rewrite filter_cons_False by (intros [? _]; congruence). apply IH. }
  rewrite get_internal_id_eq by done. simpl. case_bool_decide as Hs.
  - rewrite filter_cons_True by done. rewrite IH. by rewrite <-(assoc_L (++)).
  - rewrite filter_cons_False by (by intros [_ ?]). apply IH.
Qed.

(** The scan of a collection meets every payload of it, once. *)
Lemma scan_payloads m coll :
  store_wf m →
  ∃ vs, Forall2 (λ kv v, deserialize_vector kv.2 = Some v ∧
                         kv.1 = make_vector_key coll (sv_external_id v))
          (entries_with_prefix m (make_collection_prefix VECTOR_PREFIX coll)) vs ∧
    NoDup (sv_external_id <$> vs) ∧
    ∀ v, v ∈ vs ↔ ∃ d, m !! make_vector_key coll (sv_external_id v) = Some d ∧
                       deserialize_vector d = Some v.
Proof.
  intros Hwf. set (es := entries_with_prefix _ _).
  assert (∀ kv, kv ∈ es → ∃ v, deserialize_vector kv.2 = Some v ∧
                               kv.1 = make_vector_key coll (sv_external_id v)) as H.
  { intros [k d] (Hl & [x ->]%starts_with_inv)%elem_of_entries_with_prefix. simpl.
    rewrite collection_prefix_app in *.
    destruct (proj2 (Hwf coll x) d Hl) as (v & ? & <-). eauto. }
  apply Forall_forall, Forall_exists_Forall2_l in H as [vs Hvs].
  exists vs. split; [done|]. split.
  - apply (NoDup_fmap_1 (make_vector_key coll)). rewrite <-list_fmap_compose.
    assert (es.*1 = make_vector_key coll ∘ sv_external_id <$> vs) as <-.
    { clearbody es. induction Hvs as [|kv v es' vs' [_ E] _ IH]; [done|]. exact (f_equal2 cons E IH). }
    eapply sublist_NoDup; [apply (entries_NoDup m)|]. apply fmap_sublist, sublist_filter.
  - intros v. split.
    + intros [n Hn]%list_elem_of_lookup.
      destruct (Forall2_lookup_r _ _ _ _ _ Hvs Hn) as ([k d] & Hkv & Hdv & Hk). simpl in *. subst k.
      apply list_elem_of_lookup_2, elem_of_entries_with_prefix in Hkv as [Hkv _]. eauto.
    + intros (d & Hd & Hv).
      assert ((make_vector_key coll (sv_external_id v), d) ∈ es) as [n Hn]%list_elem_of_lookup.
      { apply elem_of_entries_with_prefix. split; [done|].
        unfold make_vector_key. rewrite <-collection_prefix_app. apply starts_with_app. }
      destruct (Forall2_lookup_l _ _ _ _ _ Hvs Hn) as (v' & Hv' & Hd' & _). simpl in Hd'.
      assert (v' = v) as -> by congruence. by eapply list_elem_of_lookup_2.
Qed.

Lemma load_active_eq s coll :
  store_wf (sb_view s) →
  ∃ l, load_active_vectors s coll = Ok l ∧ NoDup (sv_external_id <$> l) ∧
    ∀ v, v ∈ l ↔ visible (sb_view s) coll (sv_external_id v) = Some v.
Proof.
  intros Hwf. destruct (scan_payloads (sb_view s) coll Hwf) as (vs & Hvs & Hnd & Hin).
  pose proof (reliable_scan s (make_collection_prefix VECTOR_PREFIX coll) None) as Hsc.
  unfold load_active_vectors.
  destruct (sb_scan_prefix_limited _ _ _) as [es|] eqn:E; [|done].
  apply sb_scan_prefix_limited_ok in E. simpl in E. subst es. simpl.
  rewrite (load_vectors_loop_eq s coll _ vs) by done.
  eexists. split; [done|]. simpl. split.
  - eapply sublist_NoDup; [exact Hnd|]. apply fmap_sublist, sublist_filter.
  - intros v. rewrite list_elem_of_filter, visible_Some, Hin. naive_solver.
Qed.

(** After any operations on an initially empty store, loading the active
    vectors of a collection at start-up succeeds and returns exactly the
    payloads that [get_vector] serves, each id once. *)
Lemma load_active_vectors_exact s0 ops coll :
  sb_view s0 = ∅ →
  let s := foldl exec s0 ops in
  ∃ l, load_active_vectors s coll = Ok l ∧ NoDup (sv_external_id <$> l) ∧
    ∀ v, v ∈ l ↔ get_vector s coll (sv_external_id v) = Ok (Some v).
Proof.
  intros H0 s. assert (store_wf (sb_view s)) as Hwf.
  { apply store_wf_run. rewrite H0. apply store_wf_empty. }
  destruct (load_active_eq s coll Hwf) as (l & ? & ? & Hl). exists l. split_and!; [done..|].
  intros v. rewrite Hl, get_vector_eq by done. split; [by intros ->|by intros [= ->]].
Qed.

Lemma upsert_succeeds s coll id iid vector metadata text now1 now2 now3 :
  store_wf (sb_view s) → (∀ e, is_Some (serialize_mapping e)) →
  (∀ v, is_Some (serialize_vector v)) → is_deleted s coll id = Ok false →
  ∃ e s' batch,
    upsert_with_vector_and_text s coll id iid vector metadata text now1 now2 now3 = (Ok e, s') ∧
    upsert_batch coll id e (mkStored id iid vector metadata now3 now1 false) text batch ∧
    sb_view s' = apply_batch (sb_view s) batch ∧ deleted e = false ∧ internal_id e = iid.
Proof.
  intros Hwf Hsm Hsv Hdel.
  assert (∃ e, upsert_entry s coll id iid now1 now2 = Ok e) as [e He].
  { unfold is_deleted, get in Hdel. unfold upsert_entry. rewrite get_eq in *. simpl in *.
    destruct (sb_view s !! make_key coll id) as [d|]; simpl in *; [|eauto].
    destruct (deserialize_mapping d) as [y|]; [|done]. simpl in Hdel.
    injection Hdel as ->. eauto. }
  destruct (Hsm e) as [d Hd].
  destruct (Hsv (mkStored id iid vector metadata now3 now1 false)) as [d' Hd'].
  unfold upsert_with_vector_and_text. rewrite He, Hd. simpl. rewrite Hd'.
  set (batch := Put _ _ :: _).
  pose proof (reliable_write_batch_sync s batch) as Hr.
  destruct (sb_write_batch_sync s batch) as [[]  s'] eqn:Ew; [|done].
  apply sb_write_batch_sync_ok in Ew. apply upsert_entry_view in He as (? & ? & _).
  exists e, s', batch. split_and!; [done| |done..]. by exists d, d'.
Qed.

(** C25: an upsert of an id that is not deleted succeeds and is visible at once:
    the id resolves to the new internal id, the vector and metadata read back
    as given, the source text is replaced, cleared or kept as asked, and no
    other id of any collection changes. *)
Theorem upsert_visible s0 ops coll id iid vector metadata text now1 now2 now3 :
  sb_view s0 = ∅ → (∀ e, is_Some (serialize_mapping e)) → (∀ v, is_Some (serialize_vector v)) →
  let s := foldl exec s0 ops in
  is_deleted s coll id = Ok false →
  ∃ e s',
    upsert_with_vector_and_text s coll id iid vector metadata text now1 now2 now3 = (Ok e, s') ∧
    get_internal_id s' coll id = Ok (Some iid) ∧
    get_vector s' coll id = Ok (Some (mkStored id iid vector metadata now3 now1 false)) ∧
    sb_get s' (make_text_key coll id)
    = Ok (text_after (sb_view s !! make_text_key coll id) text) ∧
    ∀ coll' id', (coll', id') ≠ (coll, id) →
      get_internal_id s' coll' id' = get_internal_id s coll' id' ∧
      get_vector s' coll' id' = get_vector s coll' id' ∧
      sb_get s' (make_text_key coll' id') = sb_get s (make_text_key coll' id').
Proof.
  intros H0 Hsm Hsv s Hdel. assert (store_wf (sb_view s)) as Hwf.
  { apply store_wf_run. rewrite H0. apply store_wf_empty. }
  destruct (upsert_succeeds s coll id iid vector metadata text now1 now2 now3 Hwf Hsm Hsv Hdel)
    as (e & s' & batch & E & Hb & Hv & Hi & He).
  assert (store_wf (sb_view s')) as Hwf'.
  { eapply store_wf_step; [|exact Hwf]. replace s' with (exec s (OpUpsert coll id iid vector
      metadata text now1 now2 now3)) by (simpl; by rewrite E). apply exec_step. }
  exists e, s'. split; [done|].
  destruct (upsert_batch_lookup (sb_view s) _ _ _ _ _ _ Hb) as (Hm & Hp & Ht).
  rewrite <-Hv in Hm, Hp, Ht.
  rewrite get_internal_id_eq, get_vector_eq, get_eq, Ht by done. unfold visible, live.
  rewrite Hm. simpl. rewrite Hi, He, Hp. split_and!; [done..|].
  intros coll' id' Hne. rewrite !get_internal_id_eq, !get_vector_eq, !get_eq by done.
  pose proof (λ p, id_batch_frame _ _ _ _ _ (sb_view s) coll' id' p (upsert_batch_id _ _ _ _ _ _ Hb) Hne)
    as Hf. rewrite <-Hv in Hf.
  unfold visible, live, lookup_mapping, lookup_payload, make_key, make_vector_key, make_text_key.
  unfold is_prefix in Hf. by rewrite !Hf by auto.
Qed.
End id_mapping.

(** ** A concrete run *)

#[global] Instance IdMappingEntry_eq_dec : EqDecision IdMappingEntry.
Proof. solve_decision. Defined.

#[global] Instance StoredVectorEntry_eq_dec : EqDecision StoredVectorEntry.
Proof. solve_decision. Defined.

#[global] Instance IdMappingEntry_countable : Countable IdMappingEntry.
Proof.
  refine (inj_countable' (λ e, (internal_id e, created_at e, updated_at e, deleted e, deleted_at e))
    (λ '(a, b, c, d, e), mkMapping a b c d e) _). by intros [].
Defined.

#[global] Instance StoredVectorEntry_countable : Countable StoredVectorEntry.
Proof.
  refine (inj_countable' (λ e, (sv_external_id e, sv_internal_id e, sv_vector e, sv_metadata e,
      sv_created_at e, sv_updated_at e, sv_deleted e))
    (λ '(a, b, c, d, e, f, g), mkStored a b c d e f g) _). by intros [].
Defined.

Definition empty_store : RocksDbBackend MemDB := mkBackend (∅ : MemDB).

Lemma empty_store_view : sb_view empty_store = ∅.
Proof. vm_compute. reflexivity. Qed.

Abbreviation demo_exec :=
  (exec code_serialize code_deserialize code_serialize code_deserialize).

Definition demo_ops : list id_op :=
  [ OpUpsert "docs" "a" 1 [f32_one] "m" (Some "alpha") 10 10 10;
    OpUpsert "docs" "b" 2 [f32_two] "" None 11 11 11;
    OpMarkDeleted "docs" "a" 12 12 ].

Definition two_docs : RocksDbBackend MemDB := foldl demo_exec empty_store (take 2 demo_ops).

Lemma deleted_id_never_reused_witness :
  let s0 := (mark_deleted code_serialize code_deserialize code_serialize code_deserialize
               two_docs "docs" "a" 12 12).2 in
  is_ok (create code_serialize code_deserialize
           (foldl demo_exec s0 [OpCreate "docs" "c" 3 13]) "docs" "a" 9 14).1 = false.
Proof.
  apply (deleted_id_never_reused code_serialize code_deserialize code_serialize code_deserialize
           code_ok code_ok two_docs "docs" "a" 12 12 1).
  vm_compute. reflexivity.
Defined.

Lemma load_active_vectors_exact_witness :
  ∃ l, load_active_vectors code_deserialize code_deserialize
         (foldl demo_exec empty_store demo_ops) "docs" = Ok l
    ∧ mkStored "b" 2 [f32_two] "" 11 11 false ∈ l.
Proof.
  destruct (load_active_vectors_exact code_serialize code_deserialize code_serialize
              code_deserialize code_ok code_ok empty_store demo_ops "docs" empty_store_view)
    as (l & E & _ & Hl).
  exists l. split; [done|]. apply Hl. vm_compute. reflexivity.
Defined.

Lemma upsert_visible_witness :
  ∃ s', get_vector code_deserialize code_deserialize s' "docs" "b"
        = Ok (Some (mkStored "b" 7 [f32_one] "" 20 20 false)).
Proof.
  destruct (upsert_visible code_serialize code_deserialize code_serialize code_deserialize
              code_ok code_ok empty_store demo_ops "docs" "b" 7 [f32_one] "" (Some "beta") 20 20 20
              empty_store_view code_total code_total) as (e & s' & _ & _ & Hv & _).
  - vm_compute. reflexivity.
  - by exists s'.
Defined.
