(* ===== verification/Float64.v ===== *)
(** * Double-precision numbers

    An [f64] is a [spec_float] of the standard library at precision 53; its
    arithmetic rounds to nearest even, as the hardware does. *)

From Stdlib Require Import SpecFloat.
From S2P Require Import Prelude.

Abbreviation f64 := spec_float.

Definition f64_add : f64 → f64 → f64 := SFadd 53 1024.
Definition f64_mul : f64 → f64 → f64 := SFmul 53 1024.
Definition f64_div : f64 → f64 → f64 := SFdiv 53 1024.
Definition f64_lt : f64 → f64 → bool := SFltb.

(** [n as f64], and the literal [n / d], correctly rounded. *)
Definition f64_of_Z (n : Z) : f64 := binary_normalize 53 1024 n 0 false.
Definition f64_lit (n d : Z) : f64 := f64_div (f64_of_Z n) (f64_of_Z d).

Definition f64_zero : f64 := f64_of_Z 0.
Definition f64_one : f64 := f64_of_Z 1.

(** [x.clamp(lo, hi)]. *)
Definition f64_clamp (x lo hi : f64) : f64 :=
  let x := if f64_lt x lo then lo else x in
  if f64_lt hi x then hi else x.

Example f64_fifth : f64_lit 1 5 = S754_finite false 7205759403792794 (-55).
Proof. vm_compute. reflexivity. Qed.

#[global] Instance f64_eq_dec : EqDecision f64.
Proof. solve_decision. Defined.

#[global] Instance f64_countable : Countable f64.
Proof.
  refine (inj_countable'
    (λ f, match f with
          | S754_zero s => (0%nat, s, 1%positive, 0)
          | S754_infinity s => (1%nat, s, 1%positive, 0)
          | S754_nan => (2%nat, false, 1%positive, 0)
          | S754_finite s m e => (3%nat, s, m, e)
          end)
    (λ '(k, s, m, e), match k with
                      | 0%nat => S754_zero s
                      | 1%nat => S754_infinity s
                      | 2%nat => S754_nan
                      | _ => S754_finite s m e
                      end) _).
  by intros [].
Defined.

(** ** Bit patterns

    Where the sources look at the bits, an [f64] is its bit pattern, a [Z] in
    [0, 2^64), as an [f32] is everywhere. *)

Abbreviation f64_bits := Z (only parsing).

Definition f64b_inf_mag : Z := 2047 * 2 ^ 52.
Definition f64b_mag (x : f64_bits) : Z := x mod 2 ^ 63.
Definition f64b_neg (x : f64_bits) : bool := 2 ^ 63 <=? x.
Definition f64b_is_nan (x : f64_bits) : bool := f64b_inf_mag <? f64b_mag x.
Definition f64b_is_infinite (x : f64_bits) : bool := f64b_mag x =? f64b_inf_mag.

(** The position of a number on the real line, as an integer. *)
Definition f64b_key (x : f64_bits) : Z := if f64b_neg x then - f64b_mag x else f64b_mag x.

Definition f64b_partial_cmp (x y : f64_bits) : option comparison :=
  if f64b_is_nan x || f64b_is_nan y then None else Some (f64b_key x ?= f64b_key y).

Definition f64b_lt (x y : f64_bits) : bool :=
  match f64b_partial_cmp x y with Some Lt => true | _ => false end.
Definition f64b_le (x y : f64_bits) : bool :=
  match f64b_partial_cmp x y with Some Lt | Some Eq => true | _ => false end.
Definition f64b_gt (x y : f64_bits) : bool := f64b_lt y x.
Definition f64b_ge (x y : f64_bits) : bool := f64b_le y x.
