(* ===== verification/Scores.v ===== *)
(** * Retrieval scores

    [ScoredId] of [crates/retrieval/src/lib.rs], the conversions between [f32] and
    [f64] the scorers use, and the order their results are sorted by. *)

From Stdlib Require Import SpecFloat.
From S2P Require Import Prelude Sorting Float32 Float64.

(** ** Conversions *)

(** [x as f64], exact. *)
Definition f64_of_f32 (x : f32) : f64 :=
  match f32_decode x with
  | S754_finite s m e => binary_normalize 53 1024 (if s then Zneg m else Zpos m) e s
  | f => f
  end.

(** [m / 2^sh] to the nearest integer, ties to even. *)
Definition round_half_even (m sh : Z) : Z :=
  let q := m / 2 ^ sh in
  let r := m mod 2 ^ sh in
  match r ?= 2 ^ (sh - 1) with
  | Lt => q
  | Gt => q + 1
  | Eq => if Z.odd q then q + 1 else q
  end.

(** [x as f32]: round the value [m * 2^e] to a multiple of [2^q], where [q] leaves
    24 significant bits or is the smallest exponent; the carry into the exponent
    is an addition on the bit pattern, and what exceeds the range is infinite. *)
Definition f32_of_f64 (x : f64) : f32 :=
  let sign (s : bool) := if s then 2 ^ 31 else 0 in
  match x with
  | S754_zero s => sign s
  | S754_infinity s => sign s + f32_inf_mag
  | S754_nan => f32_inf_mag + 2 ^ 22
  | S754_finite s m e =>
      let q := Z.max (e + Z.log2 (Zpos m) + 1 - 24) (-149) in
      let mant := if q <=? e then Zpos m * 2 ^ (e - q) else round_half_even (Zpos m) (q - e) in
      sign s + Z.min (mant + (q + 149) * 2 ^ 23) f32_inf_mag
  end.

Definition f64_is_finite (x : f64) : bool :=
  match x with S754_zero _ | S754_finite _ _ _ => true | _ => false end.

Definition f32_max : f32 := 254 * 2 ^ 23 + (2 ^ 23 - 1).

(** [n as f32], for a count. *)
Definition f32_of_Z (n : Z) : f32 :=
  match n with
  | Zpos m => f32_of_f64 (S754_finite false m 0)
  | _ => 0
  end.

(** The private helper of the scorers. *)
Definition finite_f32 (score : f64) : f32 :=
  if negb (f64_is_finite score) then f32_zero
  else if f64_lt (f64_of_f32 f32_max) score then f32_max
  else f32_of_f64 score.

Example f32_one_third : f32_of_f64 (f64_lit 1 3) = 1051372203.
Proof. reflexivity. Qed.
Example f32_tenth_back : f32_of_f64 (f64_of_f32 1036831949) = 1036831949.
Proof. reflexivity. Qed.
Example f32_subnormal : f32_of_f64 (f64_of_f32 5) = 5.
Proof. reflexivity. Qed.
Example f32_overflow : f32_of_f64 (S754_finite false 1 128) = f32_inf_mag.
Proof. reflexivity. Qed.
Example f32_carry : f32_of_f64 (f64_of_Z (2 ^ 24 - 1)) = 1266679807 ∧
  f32_of_f64 (f64_of_Z (2 ^ 25 - 1)) = f32_of_Z (2 ^ 25).
Proof. done. Qed.

Lemma round_half_even_pos m sh : 0 < m → 0 ≤ round_half_even m sh.
Proof.
  intros Hm. unfold round_half_even. assert (0 ≤ m / 2 ^ sh).
  { destruct (Z.lt_ge_cases sh 0) as [H|H]; [by rewrite Z.pow_neg_r, Zdiv_0_r|].
    apply Z.div_pos; [lia|]. apply Z.pow_pos_nonneg; lia. }
  destruct (_ ?= _); [destruct (Z.odd _)|..]; lia.
Qed.

Lemma f32_of_f64_not_nan x : x ≠ S754_nan → f32_is_nan (f32_of_f64 x) = false.
Proof.
  intros Hx.
  assert (∀ s g, 0 ≤ g ≤ f32_inf_mag →
    f32_is_nan ((if s : bool then 2 ^ 31 else 0) + g) = false) as H.
  { intros s g Hg. unfold f32_is_nan, f32_mag, f32_inf_mag in *. apply Z.ltb_ge.
    destruct s.
    - rewrite <-(Z.mod_unique (2 ^ 31 + g) (2 ^ 31) 1 g); lia.
    - rewrite Z.mod_small; lia. }
  destruct x as [s|s| |s m e]; [by destruct s|by destruct s|done|]. unfold f32_of_f64.
  apply H. set (q := Z.max _ _). assert (-149 ≤ q) by (unfold q; lia).
  assert (0 ≤ if q <=? e then Zpos m * 2 ^ (e - q) else round_half_even (Zpos m) (q - e)).
  { destruct (Z.leb_spec q e); [|by apply round_half_even_pos].
    apply Z.mul_nonneg_nonneg; [lia|]. apply Z.pow_nonneg. lia. }
  assert (0 < f32_inf_mag) by done. nia.
Qed.

Lemma finite_f32_not_nan x : f32_is_nan (finite_f32 x) = false.
Proof.
  unfold finite_f32. destruct (f64_is_finite x) eqn:E; simpl; [|done].
  destruct (f64_lt _ _); [done|]. apply f32_of_f64_not_nan. by intros ->.
Qed.

(** ** Scored ids *)

Record ScoredId := mkScored { s_id : string; s_score : f32 }.

(** [b.score.partial_cmp(&a.score).unwrap_or(Equal).then_with(|| a.id.cmp(b.id))]. *)
Definition scored_order (a b : ScoredId) : comparison :=
  then_with (f32_cmp_or_eq (s_score b) (s_score a)) (bytes_cmp (s_id a) (s_id b)).

(** The same on scores that are numbers. *)
Definition rank_order (a b : ScoredId) : comparison :=
  then_with (f32_key (s_score b) ?= f32_key (s_score a)) (bytes_cmp (s_id a) (s_id b)).

Definition numeric (a : ScoredId) : Prop := f32_is_nan (s_score a) = false.

#[global] Instance rank_order_total : TotalCmp rank_order.
Proof.
  apply (TotalCmp_then (λ a b, f32_key (s_score b) ?= f32_key (s_score a))
                       (λ a b, bytes_cmp (s_id a) (s_id b))).
  - apply (TotalCmp_flip (λ a b, f32_key (s_score a) ?= f32_key (s_score b))).
    apply (TotalCmp_on (λ r, f32_key (s_score r)) Z.compare), _.
  - apply (TotalCmp_on s_id bytes_cmp), _.
Qed.

Lemma scored_order_rank a b : numeric a → numeric b → scored_order a b = rank_order a b.
Proof.
  intros Ha Hb. unfold scored_order, rank_order, f32_cmp_or_eq, f32_partial_cmp.
  by rewrite Ha, Hb.
Qed.

Lemma sort_scored l : Forall numeric l → sort_by scored_order l = sort_by rank_order l.
Proof.
  intros Hl. apply sort_by_ext. rewrite Forall_forall in Hl.
  intros x y Hx Hy. apply scored_order_rank; auto.
Qed.

(** [sort_by] and [truncate]: the best [k]. *)
Definition best (k : Z) (l : list ScoredId) : list ScoredId :=
  take (Z.to_nat k) (sort_by scored_order l).

(** Of scores that are numbers, under distinct ids: the [k] best are in order, and
    what is left out ranks after what is kept. *)
Lemma best_spec k l :
  Forall numeric l → NoDup (s_id <$> l) →
  StronglySorted (λ a b, rank_order a b = Lt) (best k l) ∧
  (∀ x, x ∈ best k l → x ∈ l) ∧
  (Zlength l ≤ k → best k l ≡ₚ l) ∧
  (∀ x y, x ∈ best k l → y ∈ l → y ∉ best k l → rank_order x y = Lt).
Proof.
  intros Hn Hd. unfold best. rewrite sort_scored by done.
  assert (NoDup (s_id <$> sort_by rank_order l)) as Hd' by (by rewrite (sort_by_perm rank_order)).
  assert (StronglySorted (λ a b, rank_order a b = Lt) (sort_by rank_order l)) as Hs.
  { pose proof (sort_by_sorted rank_order l) as Hs. revert Hd' Hs.
    generalize (sort_by rank_order l). induction 2 as [|x k' Hs IH Hall]; constructor.
    - apply IH. by apply NoDup_cons in Hd' as [_ ?].
    - apply NoDup_cons in Hd' as [Hx _]. rewrite Forall_forall in Hall |- *.
      intros y Hy. specialize (Hall y Hy). unfold cmp_le in Hall.
      destruct (rank_order x y) eqn:E; [|done|done]. exfalso. apply Hx.
      unfold rank_order in E. destruct (_ ?= _); simplify_eq/=.
      apply bytes_cmp_Eq in E. rewrite E. by apply list_elem_of_fmap_2. }
  split_and!.
  - by apply StronglySorted_take.
  - intros x Hx. apply (elem_of_sort_by rank_order). rewrite <-(take_drop (Z.to_nat k) (sort_by _ _)).
    set_solver.
  - intros Hk. rewrite take_ge by (rewrite length_sort_by; lia). apply sort_by_perm.
  - intros x y Hx Hy Hny. revert Hs Hx Hny.
    apply (elem_of_sort_by rank_order) in Hy. revert Hy.
    generalize (sort_by rank_order l) (Z.to_nat k). clear. intros l n Hy Hs. revert n.
    induction Hs as [|z l Hs IH Hall]; intros n Hx Hny; [by apply elem_of_nil in Hy|].
    destruct n as [|n]; [by apply elem_of_nil in Hx|]. cbn [take] in *.
    rewrite elem_of_cons in Hx. rewrite not_elem_of_cons in Hny. destruct Hny as [Hyz Hny].
    apply elem_of_cons in Hy as [?|Hy]; [done|]. rewrite Forall_forall in Hall.
    destruct Hx as [->|Hx]; [by apply Hall|]. by eapply IH.
Qed.

(** ** Summed scores *)

(** A contribution counted into the score of an id, which starts at zero. *)
Definition add_contribution (acc : option f64) (c : option f64) : option f64 :=
  match c with
  | None => acc
  | Some c => Some (f64_add (default f64_zero acc) c)
  end.

(** What a scorer promises to return of the ids that have a score: at most [k]
    results, no id twice, each with its score as an [f32], in strictly decreasing
    order with ties broken by id; an id with a score is returned unless [k]
    others, all of which rank before it, are. *)
Definition best_of (k : Z) (score : string → option f64) (results : list ScoredId) : Prop :=
  Zlength results ≤ k ∧ NoDup (s_id <$> results) ∧
  StronglySorted (λ a b, rank_order a b = Lt) results ∧
  (∀ x, x ∈ results → ∃ s, score (s_id x) = Some s ∧ s_score x = finite_f32 s) ∧
  (∀ id s, score id = Some s →
    mkScored id (finite_f32 s) ∈ results ∨
    Zlength results = k ∧ ∀ x, x ∈ results → rank_order x (mkScored id (finite_f32 s)) = Lt).

Lemma best_exact k score l :
  0 < k → NoDup (s_id <$> l) →
  (∀ x, x ∈ l ↔ ∃ s, score (s_id x) = Some s ∧ s_score x = finite_f32 s) →
  best_of k score (best k l).
Proof.
  intros Hk Hnd Hl. assert (Forall numeric l) as Hnum.
  { apply Forall_forall. intros x (s & _ & Hx)%Hl. unfold numeric. rewrite Hx.
    apply finite_f32_not_nan. }
  destruct (best_spec k _ Hnum Hnd) as (H1 & H2 & H3 & H4).
  assert (Zlength (best k l) ≤ k) as Hlen.
  { unfold best. rewrite length_take. lia. }
  split_and!; [done| |done|intros x Hx; by apply Hl, H2|].
  - assert (NoDup (s_id <$> sort_by scored_order l)) as Hnd2
      by (by rewrite (sort_by_perm scored_order)).
    rewrite <-(take_drop (Z.to_nat k) (sort_by _ _)), fmap_app in Hnd2.
    by apply NoDup_app in Hnd2 as [? _].
  - intros id s Hs. assert (mkScored id (finite_f32 s) ∈ l) as Hin.
    { apply Hl. eauto. }
    destruct (decide (id ∈ s_id <$> best k l)) as [Hb|Hb].
    + left. apply list_elem_of_fmap in Hb as (y & Hy & Hyb).
      assert (y = mkScored id (finite_f32 s)) as ->; [|done].
      apply (NoDup_fmap_elem_inj s_id l); auto.
    + right. assert (mkScored id (finite_f32 s) ∉ best k l) as Hnb.
      { intros Hx. apply Hb. by apply (list_elem_of_fmap_2 s_id) in Hx. }
      split; [|intros x Hx; by apply H4].
      unfold best in *. rewrite length_take, length_sort_by in *.
      destruct (Z.le_gt_cases (Zlength l) k) as [Hle|]; [|lia].
      destruct Hnb. specialize (H3 Hle). by rewrite H3.
Qed.
