(* ===== verification/Fusion.v ===== *)
(** * Rank fusion

    [crates/retrieval/src/fusion.rs]: reciprocal rank fusion of several ranked
    lists of ids, and the two-list case of hybrid retrieval. *)

From Stdlib Require Import SpecFloat.
From S2P Require Import Prelude Sorting Float32 Float64 Scores.

Definition DEFAULT_RRF_K : f32 := 1114636288.

Example default_rrf_k_is_60 : f64_of_f32 DEFAULT_RRF_K = f64_of_Z 60.
Proof. reflexivity. Qed.

Definition normalize_rrf_k (k : f32) : f32 :=
  if f32_is_finite k && f32_gt k f32_zero then k else DEFAULT_RRF_K.

Definition normalize_weight (weight : f32) : option f64 :=
  if f32_is_finite weight && f32_gt weight f32_zero then Some (f64_of_f32 weight) else None.

Record RankedInput := mkRanked { weight : f32; ids : list string }.

Record Rrf := mkRrf { rrf_k : f32 }.

Definition rrf_new : Rrf := mkRrf DEFAULT_RRF_K.
Definition rrf_with_k (k : f32) : Rrf := mkRrf (normalize_rrf_k k).

(** [w / (k + rank)]. *)
Definition contribution (k w : f64) (pos : nat) : f64 :=
  f64_div w (f64_add k (f64_of_Z (Z.of_nat pos + 1))).

(** The first-seen order and the scores. *)
Record FuseState := mkFuse { order : list string; scores : gmap string f64 }.

(** One turn of the inner loop: [seen_in_list], the position and the id. *)
Definition fuse_id (k w : f64) (acc : gset string * FuseState) (pid : nat * string)
    : gset string * FuseState :=
  let '(seen_in_list, st) := acc in
  let '(pos, id) := pid in
  if decide (id ∈ seen_in_list) then acc
  else
    let c := contribution k w pos in
    if negb (f64_is_finite c) then ({[id]} ∪ seen_in_list, st)
    else
      ({[id]} ∪ seen_in_list,
       match scores st !! id with
       | Some s => mkFuse (order st) (<[id := f64_add s c]> (scores st))
       | None => mkFuse (order st ++ [id]) (<[id := f64_add f64_zero c]> (scores st))
       end).

Definition enumerate {A} (l : list A) : list (nat * A) := zip (seq 0 (length l)) l.

Definition fuse_list (k : f64) (st : FuseState) (l : RankedInput) : FuseState :=
  match normalize_weight (weight l) with
  | None => st
  | Some w => (foldl (fuse_id k w) (∅, st) (enumerate (ids l))).2
  end.

Definition fuse (r : Rrf) (lists : list RankedInput) (top_k : Z) : list ScoredId :=
  if top_k =? 0 then []
  else
    let st := foldl (fuse_list (f64_of_f32 (rrf_k r))) (mkFuse [] ∅) lists in
    let results :=
      (λ id, mkScored id (finite_f32 (default f64_zero (scores st !! id)))) <$> order st in
    take (Z.to_nat top_k) (sort_by scored_order results).

(** ** The two-list case *)

Record HybridFuser := mkHybrid { h_rrf : Rrf; dense_weight : f32; lexical_weight : f32 }.

Definition hybrid_new : HybridFuser := mkHybrid rrf_new f32_one f32_one.
Definition with_weights (h : HybridFuser) (d l : f32) : HybridFuser := mkHybrid (h_rrf h) d l.
Definition hybrid_with_k (h : HybridFuser) (k : f32) : HybridFuser :=
  mkHybrid (rrf_with_k k) (dense_weight h) (lexical_weight h).

Definition hybrid_fuse (h : HybridFuser) (dense lexical : list ScoredId) (top_k : Z)
    : list ScoredId :=
  fuse (h_rrf h)
    [mkRanked (dense_weight h) (s_id <$> dense); mkRanked (lexical_weight h) (s_id <$> lexical)]
    top_k.

(** ** The specification *)

(** The position of the first occurrence of an id. *)
Definition first_position (id : string) (l : list string) : option nat :=
  fst <$> list_find (eq id) l.

(** What a list contributes to an id: nothing when its weight is not a positive
    number or the id is not in it, else [w / (k + rank)] for its best rank. *)
Definition list_contribution (k : f64) (l : RankedInput) (id : string) : option f64 :=
  w ← normalize_weight (weight l);
  pos ← first_position id (ids l);
  let c := contribution k w pos in
  if f64_is_finite c then Some c else None.

(** The sum of the contributions, in the order of the lists. *)
Definition rrf_score (k : f64) (lists : list RankedInput) (id : string) : option f64 :=
  foldl add_contribution None ((λ l, list_contribution k l id) <$> lists).

(** ** The loop computes the specification *)

Definition fuse_ok (st : FuseState) (spec : string → option f64) : Prop :=
  NoDup (order st) ∧ (∀ id, scores st !! id = spec id) ∧
  (∀ id, id ∈ order st ↔ is_Some (spec id)).

Lemma fuse_ok_ext st spec spec' :
  (∀ id, spec id = spec' id) → fuse_ok st spec → fuse_ok st spec'.
Proof.
  intros E (H1 & H2 & H3). split_and!; [done|..]; intros id; rewrite <-E; [apply H2|apply H3].
Qed.

Lemma first_position_ne id x l :
  id ≠ x → first_position id (x :: l) = S <$> first_position id l.
Proof.
  intros Hne. unfold first_position. cbn [list_find]. rewrite decide_False by done.
  by destruct (list_find (eq id) l) as [[]|].
Qed.

Lemma first_position_eq x l : first_position x (x :: l) = Some 0%nat.
Proof. unfold first_position. cbn [list_find]. by rewrite decide_True. Qed.

(** What the rest of a list, whose first position is [n], contributes. *)
Definition tail_contribution (k w : f64) (n : nat) (l : list string) (id : string) : option f64 :=
  pos ← first_position id l;
  let c := contribution k w (n + pos) in
  if f64_is_finite c then Some c else None.

Lemma tail_contribution_ne k w n x l id :
  id ≠ x → tail_contribution k w n (x :: l) id = tail_contribution k w (S n) l id.
Proof.
  intros Hne. unfold tail_contribution. rewrite first_position_ne by done.
  destruct (first_position id l); [|done]. simpl. by rewrite Nat.add_succ_r.
Qed.

Lemma tail_contribution_eq k w n x l :
  tail_contribution k w n (x :: l) x
  = if f64_is_finite (contribution k w n) then Some (contribution k w n) else None.
Proof. unfold tail_contribution. rewrite first_position_eq. simpl. by rewrite Nat.add_0_r. Qed.

(** Counting one contribution in. *)
Lemma fuse_ok_add st spec x c :
  fuse_ok st spec →
  fuse_ok (match scores st !! x with
           | Some s => mkFuse (order st) (<[x := f64_add s c]> (scores st))
           | None => mkFuse (order st ++ [x]) (<[x := f64_add f64_zero c]> (scores st))
           end) (λ id, if decide (id = x) then add_contribution (spec x) (Some c) else spec id).
Proof.
  intros (H1 & H2 & H3). rewrite H2. destruct (spec x) as [s|] eqn:Es; split_and!; simpl.
  - done.
  - intros id. destruct (decide (id = x)) as [->|]; [by rewrite lookup_insert_eq|].
    by rewrite lookup_insert_ne.
  - intros id. rewrite H3. destruct (decide (id = x)) as [->|]; [|done]. rewrite Es. naive_solver.
  - apply NoDup_app. split_and!; [done| |apply NoDup_singleton].
    intros id Hid ->%list_elem_of_singleton. apply H3 in Hid. rewrite Es in Hid. by destruct Hid.
  - intros id. destruct (decide (id = x)) as [->|]; [by rewrite lookup_insert_eq|].
    by rewrite lookup_insert_ne.
  - intros id. rewrite elem_of_app, list_elem_of_singleton, H3.
    destruct (decide (id = x)) as [->|]; naive_solver.
Qed.

(** The inner loop over the rest of a list, from the ids seen before. *)
Lemma fuse_ids_ok k w l n seen st spec :
  fuse_ok st spec →
  fuse_ok (foldl (fuse_id k w) (seen, st) (zip (seq n (length l)) l)).2
    (λ id, if decide (id ∈ seen) then spec id
           else add_contribution (spec id) (tail_contribution k w n l id)).
Proof.
  revert n seen st spec. induction l as [|x l IH]; intros n seen st spec Hok.
  { eapply fuse_ok_ext; [|exact Hok]. intros id. by destruct (decide (id ∈ seen)). }
  cbn [length seq zip zip_with foldl fuse_id]. destruct (decide (x ∈ seen)) as [Hx|Hx].
  { eapply fuse_ok_ext; [|apply (IH (S n) seen st spec Hok)]. intros id. simpl.
    destruct (decide (id ∈ seen)); [done|]. rewrite tail_contribution_ne; [done|]. by intros ->. }
  destruct (f64_is_finite (contribution k w n)) eqn:Hc; cbn [negb].
  - eapply fuse_ok_ext; [|apply (IH (S n) _ _ _ (fuse_ok_add st spec x (contribution k w n) Hok))].
    intros id. simpl. destruct (decide (id = x)) as [->|Hne].
    + rewrite decide_True, decide_False, tail_contribution_eq, Hc by set_solver. done.
    + destruct (decide (id ∈ seen)) as [Hs|Hs]; [by rewrite decide_True by set_solver|].
      rewrite decide_False by set_solver. by rewrite tail_contribution_ne.
  - eapply fuse_ok_ext; [|apply (IH (S n) ({[x]} ∪ seen) st spec Hok)].
    intros id. simpl. destruct (decide (id = x)) as [->|Hne].
    + rewrite decide_True, decide_False, tail_contribution_eq, Hc by set_solver. done.
    + destruct (decide (id ∈ seen)) as [Hs|Hs]; [by rewrite decide_True by set_solver|].
      rewrite decide_False by set_solver. by rewrite tail_contribution_ne.
Qed.

Lemma fuse_list_ok k st l spec :
  fuse_ok st spec →
  fuse_ok (fuse_list k st l) (λ id, add_contribution (spec id) (list_contribution k l id)).
Proof.
  intros Hok. unfold fuse_list, list_contribution. destruct (normalize_weight (weight l)) as [w|]; [|done].
  destruct (fuse_ids_ok k w (ids l) 0 ∅ st spec Hok) as (H1 & H2 & H3).
  split_and!; [done|..]; intros id; [rewrite H2|rewrite H3];
    rewrite decide_False by set_solver; done.
Qed.

Lemma fuse_lists_ok k lists :
  fuse_ok (foldl (fuse_list k) (mkFuse [] ∅) lists) (rrf_score k lists).
Proof.
  unfold rrf_score.
  assert (∀ st spec, fuse_ok st spec →
    fuse_ok (foldl (fuse_list k) st lists)
      (λ id, foldl add_contribution (spec id) ((λ l, list_contribution k l id) <$> lists))) as H.
  { induction lists as [|l lists IH]; intros st spec Hok; simpl; [done|].
    apply (IH _ (λ id, add_contribution (spec id) (list_contribution k l id))). by apply fuse_list_ok. }
  apply (H (mkFuse [] ∅) (λ _, None)). split_and!; simpl; [constructor|done|].
  intros id. split; [by intros ?%elem_of_nil|by intros []].
Qed.

(** The fused results before sorting. *)
Definition fused (k : f64) (lists : list RankedInput) : list ScoredId :=
  let st := foldl (fuse_list k) (mkFuse [] ∅) lists in
  (λ id, mkScored id (finite_f32 (default f64_zero (scores st !! id)))) <$> order st.

Lemma fuse_best r lists top_k :
  top_k ≠ 0 → fuse r lists top_k = best top_k (fused (f64_of_f32 (rrf_k r)) lists).
Proof. intros H. unfold fuse. by rewrite (proj2 (Z.eqb_neq top_k 0)). Qed.

Lemma fused_ids k lists : s_id <$> fused k lists = order (foldl (fuse_list k) (mkFuse [] ∅) lists).
Proof.
  unfold fused. rewrite <-list_fmap_compose. rewrite <-(list_fmap_id (order _)) at 2.
  by apply list_fmap_ext.
Qed.

Lemma elem_of_fused k lists x :
  x ∈ fused k lists ↔ ∃ s, rrf_score k lists (s_id x) = Some s ∧ s_score x = finite_f32 s.
Proof.
  destruct (fuse_lists_ok k lists) as (H1 & H2 & H3). unfold fused. rewrite list_elem_of_fmap. split.
  - intros (id & -> & Hid). simpl. apply H3 in Hid as [s Hs]. exists s. by rewrite H2, Hs.
  - intros (s & Hs & Hx). exists (s_id x). rewrite H2, Hs, H3, Hs. split; [|eauto].
    destruct x. simpl in *. by subst.
Qed.

(** Reciprocal rank fusion returns what it promises: every result carries
    the sum, over the lists with a positive finite weight that contain its id, of
    weight / (k + best rank); no id appears twice; the results are in strictly
    decreasing order of score, ties broken by id; everything a list contributes
    is returned when it fits, and what is cut off ranks after what is kept. *)
Lemma fuse_exact r lists top_k :
  0 < top_k →
  best_of top_k (rrf_score (f64_of_f32 (rrf_k r)) lists) (fuse r lists top_k).
Proof.
  intros Hk. rewrite fuse_best by lia. apply best_exact; [done| |apply elem_of_fused].
  rewrite fused_ids. apply fuse_lists_ok.
Qed.

(** Two lists that agree on one id. *)
Definition demo_lists : list RankedInput :=
  [mkRanked f32_one ["a"; "b"; "a"]; mkRanked f32_one ["c"; "b"]; mkRanked f32_zero ["z"]].

Example demo_order : s_id <$> fuse rrf_new demo_lists 10 = ["b"; "a"; "c"].
Proof. vm_compute. reflexivity. Qed.

Lemma fuse_exact_witness :
  best_of 2 (rrf_score (f64_of_f32 (rrf_k rrf_new)) demo_lists) (fuse rrf_new demo_lists 2).
Proof. exact (fuse_exact rrf_new demo_lists 2 eq_refl). Defined.

(** A rank constant that swallows the ranks, which is accepted, makes the fusion
    of a single list an alphabetical one. *)
Example huge_k_forgets_ranks :
  s_id <$> hybrid_fuse (hybrid_with_k hybrid_new 1900671690)
    [mkScored "z" f32_two; mkScored "a" f32_one] [] 10 = ["a"; "z"].
Proof. vm_compute. reflexivity. Qed.
