(* ===== verification/Lexical.v ===== *)
(** * The lexical index

    [crates/retrieval/src/lexical.rs]: the tokenizer and the BM25 inverted index.
    The Unicode tables of [char] and [str::to_lowercase] are the class
    [CharTables]; the logarithm of the platform is the class [Libm]; the order a
    hash map is walked in is the class [HashOrder]. A term is text, a document
    id a string. *)

From Stdlib Require Import SpecFloat.
From S2P Require Import Prelude Sorting Float32 Float64 Text Scores.

Class Libm := { f64_ln : f64 → f64 }.

Class HashOrder := {
  hash_iter : ∀ {K V : Type} `{Countable K}, gmap K V → list (K * V);
  hash_iter_perm {K V : Type} `{Countable K} (m : gmap K V) : hash_iter m ≡ₚ map_to_list m;
}.

(** ** Parameters *)

(** 1.2 and 0.75. *)
Definition DEFAULT_K1 : f32 := 1067030938.
Definition DEFAULT_B : f32 := 1061158912.

Example default_b_is_three_quarters : f64_of_f32 DEFAULT_B = f64_lit 3 4.
Proof. reflexivity. Qed.
Example default_k1_is_1_2 : f32_of_f64 (f64_lit 12 10) = DEFAULT_K1.
Proof. reflexivity. Qed.

Definition normalize_k1 (k1 : f32) : f32 :=
  if f32_is_finite k1 && f32_ge k1 f32_zero then k1 else DEFAULT_K1.

(** [f32::clamp] of a number. *)
Definition f32_clamp (x lo hi : f32) : f32 :=
  let x := if f32_gt lo x then lo else x in
  if f32_gt x hi then hi else x.

Definition normalize_b (b : f32) : f32 :=
  if f32_is_finite b then f32_clamp b f32_zero f32_one else DEFAULT_B.

(** ** Tokens *)

Section tokenize.
Context `{!CharTables}.

(** '_' '-' '+' '#' ':'. *)
Definition is_joiner (c : Z) : bool :=
  (c =? 95) || (c =? 45) || (c =? 43) || (c =? 35) || (c =? 58).

Definition is_token_char (c : Z) : bool := is_alphanumeric c || is_joiner c.

Definition contains_semantic_token_char (token : text) : bool := existsb is_alphanumeric token.

(** [str::split] on a predicate: the pieces between the characters that satisfy
    it, empty ones included. *)
Fixpoint split_on (p : Z → bool) (s : text) : list text :=
  match s with
  | [] => [[]]
  | c :: s =>
      if p c then [] :: split_on p s
      else match split_on p s with
           | w :: ws => (c :: w) :: ws
           | [] => [[c]]
           end
  end.

Fixpoint trim_colons_start (s : text) : text :=
  match s with
  | c :: s' => if c =? 58 then trim_colons_start s' else s
  | [] => []
  end.

(** [token.trim_matches(':')]. *)
Definition trim_token_punctuation (s : text) : text :=
  reverse (trim_colons_start (reverse (trim_colons_start s))).

Definition camel_boundary (prev cur : Z) (next : option Z) : bool :=
  (is_uppercase cur
   && (is_lowercase prev || is_numeric prev
       || (is_uppercase prev && match next with Some c => is_lowercase c | None => false end)))
  || (is_numeric cur && negb (is_numeric prev))
  || (negb (is_numeric cur) && is_numeric prev).

(** The parts of the rest of a segment, the current part and its last character. *)
Fixpoint camel_parts (part : text) (prev : Z) (rest : text) : list text :=
  match rest with
  | [] => [part]
  | cur :: rest =>
      if camel_boundary prev cur (head rest) then part :: camel_parts [cur] cur rest
      else camel_parts (part ++ [cur]) cur rest
  end.

Definition split_camel_case (segment : text) : list text :=
  match segment with
  | [] => []
  | c :: rest => camel_parts [c] c rest
  end.

Definition identifier_subterms (raw : text) : list text :=
  filter (λ part, part ≠ []) (split_on is_joiner raw) ≫= split_camel_case.

Definition token_terms (raw : text) : list text :=
  let token := to_lowercase raw in
  token :: filter (λ part, part ≠ token ∧ part ≠ [])
             (to_lowercase <$> identifier_subterms raw).

Definition tokenize (s : text) : list text :=
  filter (λ t, contains_semantic_token_char t = true)
    (trim_token_punctuation <$> split_on (λ c, negb (is_token_char c)) s) ≫= token_terms.

(** Splitting loses nothing: a part keeps its characters in order. *)
Lemma camel_parts_concat part prev rest : concat (camel_parts part prev rest) = part ++ rest.
Proof.
  revert part prev. induction rest as [|cur rest IH]; intros part prev; simpl; [done|].
  destruct (camel_boundary prev cur (head rest)); simpl; rewrite IH; [done|].
  by rewrite <-(assoc_L (++)).
Qed.

Lemma split_camel_case_concat segment : concat (split_camel_case segment) = segment.
Proof. destruct segment as [|c rest]; [done|]. apply (camel_parts_concat [c] c rest). Qed.

Lemma camel_parts_nonempty part prev rest p :
  part ≠ [] → p ∈ camel_parts part prev rest → p ≠ [].
Proof.
  revert part prev. induction rest as [|cur rest IH]; intros part prev Hp; simpl.
  { by intros ->%list_elem_of_singleton. }
  destruct (camel_boundary prev cur (head rest)).
  - intros [->|Hin]%elem_of_cons; [done|]. eapply IH; [|exact Hin]. discriminate.
  - intros Hin. eapply IH; [|exact Hin]. destruct part; discriminate.
Qed.
End tokenize.

(** ** The index *)

Abbreviation docs := (gmap string Z).

Record Bm25Index := mkBm25 {
  k1 : f32;
  b : f32;
  postings : gmap text docs;
  doc_len : gmap string Z;
  doc_terms : gmap string (list text);
  total_len : Z;
}.

Definition with_params (k1 b : f32) : Bm25Index :=
  mkBm25 (normalize_k1 k1) (normalize_b b) ∅ ∅ ∅ 0.

Definition bm25_new : Bm25Index := with_params DEFAULT_K1 DEFAULT_B.

Definition bm25_len (x : Bm25Index) : Z := Z.of_nat (size (doc_len x)).
Definition bm25_is_empty (x : Bm25Index) : bool := bool_decide (doc_len x = ∅).
Definition bm25_contains (x : Bm25Index) (id : string) : bool := bool_decide (is_Some (doc_len x !! id)).

Definition avgdl (x : Bm25Index) : f32 :=
  if bm25_len x =? 0 then f32_zero else f32_div (f32_of_Z (total_len x)) (f32_of_Z (bm25_len x)).

(** The postings without the document under a term. *)
Definition remove_posting (id : string) (p : gmap text docs) (term : text) : gmap text docs :=
  match p !! term with
  | None => p
  | Some ds =>
      let ds := delete id ds in
      if decide (ds = ∅) then delete term p else <[term := ds]> p
  end.

Definition bm25_remove (x : Bm25Index) (id : string) : bool * Bm25Index :=
  match doc_len x !! id with
  | None => (false, x)
  | Some len =>
      let p := match doc_terms x !! id with
               | Some terms => foldl (remove_posting id) (postings x) terms
               | None => postings x
               end in
      (true, mkBm25 (k1 x) (b x) p (delete id (doc_len x)) (delete id (doc_terms x))
               (saturating_sub (total_len x) len))
  end.

(** [*tf.entry(tok).or_insert(0) += 1]. *)
Definition count_token (tf : gmap text Z) (tok : text) : gmap text Z :=
  <[tok := default 0 (tf !! tok) + 1]> tf.

Definition term_frequencies (tokens : list text) : gmap text Z := foldl count_token ∅ tokens.

Definition add_posting (id : string) (p : gmap text docs) (tf : text * Z) : gmap text docs :=
  <[tf.1 := <[id := tf.2]> (default ∅ (p !! tf.1))]> p.

Definition f64_sub (x y : f64) : f64 := SFsub 53 1024 x y.

Section index.
Context `{!CharTables, !Libm, !HashOrder}.

Definition bm25_insert (x : Bm25Index) (id : string) (txt : text) : Bm25Index :=
  let x := if bm25_contains x id then (bm25_remove x id).2 else x in
  match tokenize txt with
  | [] => x
  | tokens =>
      let len := wrapping u32_max (Zlength tokens) in
      let tf := hash_iter (term_frequencies tokens) in
      mkBm25 (k1 x) (b x) (foldl (add_posting id) (postings x) tf)
        (<[id := len]> (doc_len x)) (<[id := tf.*1]> (doc_terms x))
        (saturating_add u64_max (total_len x) len)
  end.

Definition idf (x : Bm25Index) (df : Z) : f64 :=
  let n := f64_of_Z (bm25_len x) in
  let df := f64_of_Z df in
  let half := f64_lit 1 2 in
  f64_ln (f64_add f64_one (f64_div (f64_add (f64_sub n df) half) (f64_add df half))).

(** What a term that occurs [tf] times adds to the score of a document of length
    [dl]. *)
Definition bm25_contribution (x : Bm25Index) (df tf dl : Z) : f64 :=
  let avgdl := f64_of_f32 (avgdl x) in
  let k1 := f64_of_f32 (k1 x) in
  let b := f64_of_f32 (b x) in
  let idf := idf x df in
  let tf := f64_of_Z tf in
  let dl := f64_of_Z dl in
  let denom :=
    f64_add tf (f64_mul k1 (f64_add (f64_sub f64_one b) (f64_div (f64_mul b dl) avgdl))) in
  f64_div (f64_mul idf (f64_mul tf (f64_add k1 f64_one))) denom.

Definition score_doc (x : Bm25Index) (df : Z) (scores : gmap string f64) (doc : string * Z)
    : gmap string f64 :=
  let c := bm25_contribution x df doc.2 (default 0 (doc_len x !! doc.1)) in
  if negb (f64_is_finite c) then scores
  else <[doc.1 := f64_add (default f64_zero (scores !! doc.1)) c]> scores.

Definition score_term (x : Bm25Index) (scores : gmap string f64) (term : text) : gmap string f64 :=
  match postings x !! term with
  | None => scores
  | Some ds => foldl (score_doc x (Z.of_nat (size ds))) scores (hash_iter ds)
  end.

Definition search (x : Bm25Index) (query : text) (top_k : Z) : list ScoredId :=
  if bm25_is_empty x || (top_k =? 0) then []
  else
    match tokenize query with
    | [] => []
    | query_terms =>
        let scores := foldl (score_term x) ∅ query_terms in
        let results := (λ kv, mkScored kv.1 (finite_f32 kv.2)) <$> hash_iter scores in
        take (Z.to_nat top_k) (sort_by scored_order results)
    end.
End index.

(** ** The index against the documents *)

Definition occurrences (tok : text) (tokens : list text) : Z := Zlength (filter (eq tok) tokens).

(** How often a term occurs in a document, if it does. *)
Definition frequency (tok : text) (tokens : list text) : option Z :=
  if decide (tok ∈ tokens) then Some (occurrences tok tokens) else None.

Lemma count_tokens_lookup tokens m tok :
  foldl count_token m tokens !! tok
  = if decide (tok ∈ tokens) then Some (default 0 (m !! tok) + occurrences tok tokens) else m !! tok.
Proof.
  revert m. induction tokens as [|t tokens IH]; intros m; cbn [foldl].
  { by rewrite decide_False by apply not_elem_of_nil. }
  rewrite IH. unfold count_token, occurrences. destruct (decide (t = tok)) as [->|Hne].
  - rewrite lookup_insert_eq, (decide_True (P:=tok ∈ tok :: tokens)) by set_solver.
    rewrite filter_cons_True by done. cbn [default length].
    destruct (decide (tok ∈ tokens)) as [|Hn]; [f_equal; simpl; lia|].
    assert (filter (eq tok) tokens = []) as ->; [|f_equal; simpl; lia].
    apply elem_of_nil_inv. intros x (-> & ?)%list_elem_of_filter. done.
  - rewrite lookup_insert_ne, filter_cons_False by done.
    destruct (decide (tok ∈ tokens)) as [Hin|Hn].
    + by rewrite decide_True by set_solver.
    + by rewrite decide_False by set_solver.
Qed.

Lemma term_frequencies_lookup tokens tok :
  term_frequencies tokens !! tok = frequency tok tokens.
Proof.
  unfold term_frequencies, frequency. rewrite count_tokens_lookup, lookup_empty. simpl.
  by destruct (decide (tok ∈ tokens)).
Qed.

(** The entry of a document under a term. *)
Definition posting (p : gmap text docs) (term : text) (id : string) : option Z :=
  p !! term ≫= λ ds, ds !! id.

Definition tokens_total (D : gmap string (list text)) : Z :=
  map_fold (λ _ toks acc, Zlength toks + acc) 0 D.

(** The postings and lengths of the index are those of the documents [D], as
    their tokens; a length is kept modulo 2^32. *)
Record lists (x : Bm25Index) (D : gmap string (list text)) : Prop := {
  li_post term id : posting (postings x) term id = D !! id ≫= frequency term;
  li_nonempty term ds : postings x !! term = Some ds → ds ≠ ∅;
  li_len id : doc_len x !! id = (λ toks, wrapping u32_max (Zlength toks)) <$> D !! id;
  li_terms id : is_Some (doc_terms x !! id) ↔ is_Some (D !! id);
  li_terms_all id toks terms :
    D !! id = Some toks → doc_terms x !! id = Some terms → ∀ t, t ∈ terms ↔ t ∈ toks;
  li_tokens id toks : D !! id = Some toks → toks ≠ [];
}.

(** The index holds exactly the documents [D], none too long to be counted. *)
Record represents (x : Bm25Index) (D : gmap string (list text)) : Prop := {
  rep_lists : lists x D;
  rep_small id toks : D !! id = Some toks → Zlength toks ≤ u32_max;
  rep_total : total_len x = tokens_total D;
}.

Lemma rep_post x D :
  represents x D → ∀ term id, posting (postings x) term id = D !! id ≫= frequency term.
Proof. intros Hr term id. apply (li_post _ _ (rep_lists _ _ Hr)). Qed.

Lemma rep_nonempty x D :
  represents x D → ∀ term ds, postings x !! term = Some ds → ds ≠ ∅.
Proof. intros Hr. apply (li_nonempty _ _ (rep_lists _ _ Hr)). Qed.

Lemma rep_len x D :
  represents x D → ∀ id, doc_len x !! id = (λ toks, Zlength toks) <$> D !! id.
Proof.
  intros Hr id. rewrite (li_len _ _ (rep_lists _ _ Hr)). destruct (D !! id) as [toks|] eqn:E; [|done].
  simpl. rewrite wrapping_id; [done|]. pose proof (rep_small _ _ Hr id toks E). unfold in_range. lia.
Qed.

Lemma rep_tokens x D id toks : represents x D → D !! id = Some toks → toks ≠ [].
Proof. intros Hr. apply (li_tokens _ _ (rep_lists _ _ Hr)). Qed.

Lemma tokens_total_insert D id toks :
  D !! id = None → tokens_total (<[id := toks]> D) = Zlength toks + tokens_total D.
Proof.
  intros Hid. unfold tokens_total. rewrite map_fold_insert_L; [done| |done]. intros. lia.
Qed.

Lemma tokens_total_delete D id toks :
  D !! id = Some toks → tokens_total D = Zlength toks + tokens_total (delete id D).
Proof.
  intros Hid. rewrite <-(insert_delete_id D id toks Hid) at 1.
  by rewrite tokens_total_insert by apply lookup_delete_eq.
Qed.

Lemma tokens_total_nonneg D : 0 ≤ tokens_total D.
Proof.
  induction D as [|id toks D Hid IH] using map_ind; [done|].
  rewrite tokens_total_insert by done. lia.
Qed.

(** *** Removal *)

Lemma remove_posting_lookup id p term term' id' :
  (∀ t ds, p !! t = Some ds → ds ≠ ∅) →
  posting (remove_posting id p term) term' id'
  = (if decide (term' = term ∧ id' = id) then None else posting p term' id') ∧
  (∀ t ds, remove_posting id p term !! t = Some ds → ds ≠ ∅).
Proof.
  intros Hne. unfold remove_posting, posting. destruct (p !! term) as [ds|] eqn:E.
  - destruct (decide (delete id ds = ∅)) as [Hd|Hd].
    + split.
      * destruct (decide (term' = term)) as [->|Ht].
        -- rewrite lookup_delete_eq, E. simpl. destruct (decide (id' = id)) as [->|Hi].
           { by rewrite decide_True. }
           rewrite decide_False by naive_solver.
           rewrite <-(lookup_delete_ne ds id id') by done. by rewrite Hd.
        -- rewrite lookup_delete_ne, decide_False by naive_solver. done.
      * intros t ds' [_ ?]%lookup_delete_Some. by eapply Hne.
    + split.
      * destruct (decide (term' = term)) as [->|Ht].
        -- rewrite lookup_insert_eq, E. simpl. destruct (decide (id' = id)) as [->|Hi].
           { by rewrite decide_True, lookup_delete_eq by done. }
           by rewrite decide_False, lookup_delete_ne by naive_solver.
        -- rewrite lookup_insert_ne, decide_False by naive_solver. done.
      * intros t ds' [[_ <-]|[_ ?]]%lookup_insert_Some; [done|by eapply Hne].
  - split; [|done]. destruct (decide (term' = term ∧ id' = id)) as [[-> ->]|]; [by rewrite E|done].
Qed.

Lemma remove_postings_lookup id terms p term' id' :
  (∀ t ds, p !! t = Some ds → ds ≠ ∅) →
  posting (foldl (remove_posting id) p terms) term' id'
  = (if decide (term' ∈ terms ∧ id' = id) then None else posting p term' id') ∧
  (∀ t ds, foldl (remove_posting id) p terms !! t = Some ds → ds ≠ ∅).
Proof.
  revert p. induction terms as [|t terms IH]; intros p Hne; cbn [foldl].
  { split; [|done]. rewrite decide_False; [done|]. intros [[]%elem_of_nil _]. }
  destruct (remove_posting_lookup id p t term' id' Hne) as [H1 H2].
  destruct (IH (remove_posting id p t) H2) as [H3 H4]. split; [|done]. rewrite H3, H1.
  destruct (decide (term' ∈ terms ∧ id' = id)), (decide (term' = t ∧ id' = id)),
    (decide (term' ∈ t :: terms ∧ id' = id)); set_solver.
Qed.

Lemma remove_lists x D id : lists x D → lists (bm25_remove x id).2 (delete id D).
Proof.
  intros Hr. unfold bm25_remove. rewrite (li_len _ _ Hr). destruct (D !! id) as [toks|] eqn:Hid; simpl.
  2:{ by rewrite delete_id. }
  destruct (proj2 (li_terms _ _ Hr id)) as [terms Hterms]; [by rewrite Hid|].
  rewrite Hterms. pose proof (li_terms_all _ _ Hr _ _ _ Hid Hterms) as Hall.
  split; simpl.
  - intros term id'. destruct (remove_postings_lookup id terms (postings x) term id'
      (li_nonempty _ _ Hr)) as [-> _]. rewrite (li_post _ _ Hr).
    destruct (decide (id' = id)) as [->|Hne].
    + rewrite lookup_delete_eq, Hid. simpl. unfold frequency.
      destruct (decide (term ∈ toks)) as [Ht|Ht].
      * rewrite decide_True; [done|]. by rewrite Hall.
      * by rewrite decide_False by (rewrite Hall; tauto).
    + by rewrite lookup_delete_ne, decide_False by naive_solver.
  - apply (remove_postings_lookup id terms (postings x) [] id (li_nonempty _ _ Hr)).
  - intros id'. destruct (decide (id' = id)) as [->|]; [by rewrite !lookup_delete_eq|].
    by rewrite !lookup_delete_ne, (li_len _ _ Hr).
  - intros id'. destruct (decide (id' = id)) as [->|]; [by rewrite !lookup_delete_eq|].
    rewrite !lookup_delete_ne by done. apply (li_terms _ _ Hr).
  - intros id' toks' terms' [? ?]%lookup_delete_Some [_ ?]%lookup_delete_Some.
    by eapply li_terms_all.
  - intros id' toks' [_ ?]%lookup_delete_Some. by eapply li_tokens.
Qed.

Lemma remove_represents x D id :
  represents x D →
  represents (bm25_remove x id).2 (delete id D) ∧
  (bm25_remove x id).1 = bool_decide (is_Some (D !! id)).
Proof.
  intros Hr. pose proof (remove_lists x D id (rep_lists _ _ Hr)) as Hl. revert Hl. unfold bm25_remove.
  rewrite (rep_len _ _ Hr). destruct (D !! id) as [toks|] eqn:Hid; simpl; intros Hl.
  2:{ split; [|done]. by rewrite delete_id. }
  split; [|done]. split; simpl; [done| |].
  - intros id' toks' [_ ?]%lookup_delete_Some. by eapply rep_small.
  - rewrite (rep_total _ _ Hr), (tokens_total_delete D id toks Hid). unfold saturating_sub.
    pose proof (tokens_total_nonneg (delete id D)). lia.
Qed.

(** *** Insertion *)

Lemma add_posting_lookup id p tf term' id' :
  posting (add_posting id p tf) term' id'
  = if decide (term' = tf.1 ∧ id' = id) then Some tf.2 else posting p term' id'.
Proof.
  unfold add_posting, posting. destruct (decide (term' = tf.1)) as [->|Ht].
  - rewrite lookup_insert_eq. simpl. destruct (decide (id' = id)) as [->|Hi].
    + by rewrite decide_True, lookup_insert_eq.
    + rewrite decide_False, lookup_insert_ne by naive_solver. by destruct (p !! tf.1).
  - by rewrite lookup_insert_ne, decide_False by naive_solver.
Qed.

Lemma add_posting_nonempty id p tf t ds :
  (∀ t ds, p !! t = Some ds → ds ≠ ∅) → add_posting id p tf !! t = Some ds → ds ≠ ∅.
Proof.
  unfold add_posting. intros Hne [[_ <-]|[_ ?]]%lookup_insert_Some; [apply insert_non_empty|by eapply Hne].
Qed.

Lemma add_postings_lookup id l p term' id' :
  NoDup l.*1 → (∀ t ds, p !! t = Some ds → ds ≠ ∅) →
  posting (foldl (add_posting id) p l) term' id'
  = (if decide (id' = id) then
       match (list_to_map l : gmap text Z) !! term' with
       | Some f => Some f
       | None => posting p term' id'
       end
     else posting p term' id') ∧
  (∀ t ds, foldl (add_posting id) p l !! t = Some ds → ds ≠ ∅).
Proof.
  revert p. induction l as [|[t f] l IH]; intros p Hnd Hne; cbn [foldl].
  { split; [|done]. simpl. by destruct (decide (id' = id)). }
  apply NoDup_cons in Hnd as [Ht Hnd].
  destruct (IH (add_posting id p (t, f)) Hnd) as [H1 H2].
  { intros t' ds'. by apply add_posting_nonempty. }
  split; [|done]. rewrite H1, add_posting_lookup. simpl. destruct (decide (id' = id)) as [->|Hi].
  - destruct (decide (term' = t)) as [->|Hne'].
    + rewrite (not_elem_of_list_to_map_1 l t) by done. simpl.
      by rewrite decide_True, lookup_insert_eq.
    + rewrite lookup_insert_ne by done. by rewrite decide_False by naive_solver.
  - by rewrite decide_False by naive_solver.
Qed.

Section refinement.
Context `{!CharTables, !Libm, !HashOrder}.

Lemma hash_iter_keys {K V} `{Countable K} (m : gmap K V) : NoDup (hash_iter m).*1.
Proof. rewrite hash_iter_perm. apply NoDup_fst_map_to_list. Qed.

Lemma hash_iter_map {K V} `{Countable K} (m : gmap K V) : list_to_map (hash_iter m) = m.
Proof.
  rewrite (list_to_map_proper (M:=gmap K) (hash_iter m) (map_to_list m));
    [apply list_to_map_to_list|apply hash_iter_keys|apply hash_iter_perm].
Qed.

(** The documents after an insertion: a text without tokens removes the id. *)
Definition docs_insert (D : gmap string (list text)) (id : string) (txt : text)
    : gmap string (list text) :=
  match tokenize txt with [] => delete id D | toks => <[id := toks]> D end.

Lemma insert_lists x D id txt : lists x D → lists (bm25_insert x id txt) (docs_insert D id txt).
Proof.
  intros Hr0. unfold bm25_insert. set (x1 := if bm25_contains x id then _ else x).
  assert (lists x1 (delete id D)) as Hr.
  { unfold x1, bm25_contains. destruct (bool_decide_reflect (is_Some (doc_len x !! id))) as [Hc|Hc].
    - by apply remove_lists.
    - rewrite delete_id; [done|]. apply eq_None_not_Some. intros Hs. apply Hc.
      rewrite (li_len _ _ Hr0). by apply fmap_is_Some. }
  clearbody x1. unfold docs_insert.
  destruct (tokenize txt) as [|t0 toks'] eqn:Etok; [done|].
  set (toks := t0 :: toks') in *. rewrite <-(insert_delete_eq D id toks).
  split; simpl.
  - intros term id'. destruct (add_postings_lookup id (hash_iter (term_frequencies toks)) (postings x1)
      term id' (hash_iter_keys _) (li_nonempty _ _ Hr)) as [-> _].
    rewrite hash_iter_map, term_frequencies_lookup, (li_post _ _ Hr).
    destruct (decide (id' = id)) as [->|Hne].
    + rewrite lookup_insert_eq, lookup_delete_eq. simpl. by destruct (frequency term toks).
    + by rewrite lookup_insert_ne by done.
  - apply (add_postings_lookup id (hash_iter (term_frequencies toks)) (postings x1) [] id
      (hash_iter_keys _) (li_nonempty _ _ Hr)).
  - intros id'. destruct (decide (id' = id)) as [->|]; [by rewrite !lookup_insert_eq|].
    by rewrite !lookup_insert_ne, (li_len _ _ Hr).
  - intros id'. destruct (decide (id' = id)) as [->|]; [by rewrite !lookup_insert_eq|].
    rewrite !lookup_insert_ne by done. apply (li_terms _ _ Hr).
  - intros id' toks1 terms [[<- <-]|[Hne Hd]]%lookup_insert_Some
      [[? <-]|[Hne' Ht]]%lookup_insert_Some; [|done|done|by eapply li_terms_all].
    intros t. rewrite hash_iter_perm.
    rewrite list_elem_of_fmap.
    split.
    + intros ([t' f] & -> & Hin%elem_of_map_to_list). rewrite term_frequencies_lookup in Hin.
      unfold frequency in Hin. by destruct (decide (_ ∈ toks)).
    + intros Hin. exists (t, occurrences t toks). split; [done|]. apply elem_of_map_to_list.
      rewrite term_frequencies_lookup. unfold frequency. by rewrite decide_True.
  - intros id' toks1 [[_ <-]|[_ ?]]%lookup_insert_Some; [done|by eapply li_tokens].
Qed.

Lemma insert_represents x D id txt :
  represents x D → Zlength (tokenize txt) ≤ u32_max →
  tokens_total (docs_insert D id txt) ≤ u64_max →
  represents (bm25_insert x id txt) (docs_insert D id txt).
Proof.
  intros Hr0 Hlen Htot. pose proof (insert_lists x D id txt (rep_lists _ _ Hr0)) as Hl.
  revert Hl. unfold bm25_insert. set (x1 := if bm25_contains x id then _ else x).
  assert (represents x1 (delete id D)) as Hr.
  { unfold x1, bm25_contains. destruct (bool_decide_reflect (is_Some (doc_len x !! id))) as [Hc|Hc].
    - by apply remove_represents.
    - rewrite delete_id; [done|]. apply eq_None_not_Some. intros Hs. apply Hc.
      rewrite (rep_len _ _ Hr0). by apply fmap_is_Some. }
  clearbody x1. revert Hlen Htot. unfold docs_insert.
  destruct (tokenize txt) as [|t0 toks'] eqn:Etok; [done|]. intros Hlen Htot Hl.
  split; [exact Hl| |cbn [total_len]].
  - intros id' toks1 [[_ <-]|[_ ?]]%lookup_insert_Some; [exact Hlen|by eapply (rep_small _ _ Hr0)].
  - set (toks := t0 :: toks') in *. rewrite <-(insert_delete_eq D id toks) in Htot |- *.
    rewrite tokens_total_insert in Htot |- * by apply lookup_delete_eq.
    rewrite (rep_total _ _ Hr), wrapping_id by (unfold in_range; lia).
    unfold saturating_add. subst toks. cbn [length] in *. lia.
Qed.

Lemma new_lists k b' : lists (with_params k b') ∅.
Proof. split; simpl; try done; by intros ? ? ?%lookup_empty_Some. Qed.

Lemma new_represents k b' : represents (with_params k b') ∅.
Proof. split; [apply new_lists| |done]. by intros ? ? ?%lookup_empty_Some. Qed.

(** *** One document *)

(** The index keeps the tokens [toks] of the document, nothing if there are none. *)
Definition indexed (x : Bm25Index) (id : string) (toks : list text) : Prop :=
  doc_len x !! id
  = (if decide (toks = []) then None else Some (wrapping u32_max (Zlength toks))) ∧
  ∀ term, posting (postings x) term id = frequency term toks.

(** The index keeps the same of the document. *)
Definition same_entry (x x' : Bm25Index) (id : string) : Prop :=
  doc_len x' !! id = doc_len x !! id ∧
  ∀ term, posting (postings x') term id = posting (postings x) term id.

#[global] Instance same_entry_preorder id : PreOrder (λ x x', same_entry x x' id).
Proof.
  split; [done|]. intros x y z [L1 P1] [L2 P2].
  split; [congruence|]. intros term. by rewrite P2, P1.
Qed.

Lemma same_indexed x x' id toks : same_entry x x' id → indexed x id toks → indexed x' id toks.
Proof. intros [EL EP] [Hl Hp]. split; [by rewrite EL|]. intros term. by rewrite EP. Qed.

(** The index is that of some documents. *)
Definition lex_wf (x : Bm25Index) : Prop := ∃ D, lists x D.

Lemma lists_indexed x D id : lists x D → indexed x id (default [] (D !! id)).
Proof.
  intros Hr. split.
  - rewrite (li_len _ _ Hr). destruct (D !! id) as [toks|] eqn:E; [|done]. simpl.
    by rewrite decide_False by by eapply li_tokens.
  - intros term. rewrite (li_post _ _ Hr). destruct (D !! id); [done|]. simpl.
    unfold frequency. by rewrite decide_False by apply not_elem_of_nil.
Qed.

Lemma lists_same x x' D D' id : lists x D → lists x' D' → D' !! id = D !! id → same_entry x x' id.
Proof.
  intros Hr Hr' E. split; [by rewrite (li_len _ _ Hr), (li_len _ _ Hr'), E|].
  intros term. by rewrite (li_post _ _ Hr), (li_post _ _ Hr'), E.
Qed.

(** A change of one document: it is indexed under the new tokens, the others are
    as they were. *)
Definition lex_changed (x x' : Bm25Index) (id : string) (toks : list text) : Prop :=
  lex_wf x' ∧ indexed x' id toks ∧ ∀ id', id' ≠ id → same_entry x x' id'.

Lemma remove_changed x id : lex_wf x → lex_changed x (bm25_remove x id).2 id [].
Proof.
  intros [D Hr]. pose proof (remove_lists x D id Hr) as Hr'. split; [by eexists|]. split.
  - pose proof (lists_indexed _ _ id Hr') as Hi. by rewrite lookup_delete_eq in Hi.
  - intros id' Hne. eapply lists_same; [done..|]. by rewrite lookup_delete_ne.
Qed.

Lemma insert_changed x id txt :
  lex_wf x → lex_changed x (bm25_insert x id txt) id (tokenize txt).
Proof.
  intros [D Hr]. pose proof (insert_lists x D id txt Hr) as Hr'. split; [by eexists|].
  unfold docs_insert in Hr'. split.
  - pose proof (lists_indexed _ _ id Hr') as Hi. destruct (tokenize txt);
      by rewrite ?lookup_delete_eq, ?lookup_insert_eq in Hi.
  - intros id' Hne. eapply lists_same; [done..|].
    destruct (tokenize txt); by rewrite ?lookup_delete_ne, ?lookup_insert_ne.
Qed.

Lemma new_lex_wf : lex_wf bm25_new.
Proof. exists ∅. apply new_lists. Qed.

(** ** Any sequence of changes *)

Inductive lex_op := LInsert (id : string) (txt : text) | LRemove (id : string).

Definition lex_step (x : Bm25Index) (o : lex_op) : Bm25Index :=
  match o with
  | LInsert id txt => bm25_insert x id txt
  | LRemove id => (bm25_remove x id).2
  end.

Definition docs_step (D : gmap string (list text)) (o : lex_op) : gmap string (list text) :=
  match o with
  | LInsert id txt => docs_insert D id txt
  | LRemove id => delete id D
  end.

Definition op_tokens (o : lex_op) : Z :=
  match o with LInsert _ txt => Zlength (tokenize txt) | LRemove _ => 0 end.

Definition ops_tokens (ops : list lex_op) : Z := foldr (λ o acc, op_tokens o + acc) 0 ops.

Lemma tokens_total_delete_le D id : tokens_total (delete id D) ≤ tokens_total D.
Proof.
  destruct (D !! id) as [toks|] eqn:E; [|by rewrite delete_id].
  rewrite (tokens_total_delete D id toks) by done. lia.
Qed.

Lemma docs_step_total D o : tokens_total (docs_step D o) ≤ tokens_total D + op_tokens o.
Proof.
  destruct o as [id txt|id]; simpl; [|pose proof (tokens_total_delete_le D id); lia].
  pose proof (tokens_total_delete_le D id). unfold docs_insert.
  destruct (tokenize txt) as [|t toks]; [simpl; lia|].
  rewrite <-(insert_delete_eq D id (t :: toks)), tokens_total_insert by apply lookup_delete_eq. lia.
Qed.

Lemma run_represents ops x D :
  represents x D → Forall (λ o, op_tokens o ≤ u32_max) ops → tokens_total D + ops_tokens ops ≤ u64_max →
  represents (foldl lex_step x ops) (foldl docs_step D ops).
Proof.
  intros Hr Hops. revert x D Hr. induction Hops as [|o ops Ho Hops IH]; intros x D Hr Htot; [done|].
  cbn [foldl]. pose proof (docs_step_total D o) as Hle. unfold ops_tokens in Htot. cbn [foldr] in Htot.
  assert (0 ≤ ops_tokens ops).
  { clear. induction ops as [|[] ops IH]; simpl; lia. }
  fold (ops_tokens ops) in Htot. apply IH; [|lia].
  destruct o as [id txt|id]; [|by apply remove_represents].
  apply insert_represents; [done|done|]. simpl in *. lia.
Qed.

(** ** Scores *)

(** Okapi BM25 with the plus-one inverse document frequency, of [N] documents with
    [total] tokens, [df] of which hold the term, for a document of [dl] tokens [tf]
    of which are the term. *)
Definition okapi (k1 b : f32) (N total df tf dl : Z) : f64 :=
  let half := f64_lit 1 2 in
  let avg := f64_of_f32 (if N =? 0 then f32_zero else f32_div (f32_of_Z total) (f32_of_Z N)) in
  let idf :=
    f64_ln (f64_add f64_one (f64_div (f64_add (f64_sub (f64_of_Z N) (f64_of_Z df)) half)
                                     (f64_add (f64_of_Z df) half))) in
  let norm :=
    f64_add (f64_sub f64_one (f64_of_f32 b)) (f64_div (f64_mul (f64_of_f32 b) (f64_of_Z dl)) avg) in
  f64_div (f64_mul idf (f64_mul (f64_of_Z tf) (f64_add (f64_of_f32 k1) f64_one)))
          (f64_add (f64_of_Z tf) (f64_mul (f64_of_f32 k1) norm)).

(** What a term adds to the score of a document: nothing when it does not occur. *)
Definition term_score (k1 b : f32) (D : gmap string (list text)) (term : text) (id : string)
    : option f64 :=
  toks ← D !! id;
  tf ← frequency term toks;
  let c := okapi k1 b (Z.of_nat (size D)) (tokens_total D) (Z.of_nat (size (omap (frequency term) D)))
             tf (Zlength toks) in
  if f64_is_finite c then Some c else None.

(** The sum over the terms of the query, repetitions included. *)
Definition doc_score (k1 b : f32) (D : gmap string (list text)) (terms : list text) (id : string)
    : option f64 :=
  foldl add_contribution None ((λ t, term_score k1 b D t id) <$> terms).

Lemma rep_size x D : represents x D → bm25_len x = Z.of_nat (size D).
Proof.
  intros Hr. unfold bm25_len. f_equal.
  assert (doc_len x = (λ toks, Zlength toks) <$> D) as ->; [|apply map_size_fmap].
  apply map_eq. intros id. by rewrite lookup_fmap, (rep_len _ _ Hr).
Qed.

Lemma rep_docs x D term :
  represents x D → default ∅ (postings x !! term) = omap (frequency term) D.
Proof.
  intros Hr. apply map_eq. intros id. rewrite lookup_omap.
  pose proof (rep_post _ _ Hr term id) as Hp. unfold posting in Hp. rewrite <-Hp.
  destruct (postings x !! term); simpl; [done|apply lookup_empty].
Qed.

Lemma contribution_okapi x D df tf dl :
  represents x D →
  bm25_contribution x df tf dl = okapi (k1 x) (b x) (Z.of_nat (size D)) (tokens_total D) df tf dl.
Proof.
  intros Hr. unfold bm25_contribution, okapi, idf, avgdl.
  by rewrite (rep_size x D Hr), (rep_total _ _ Hr).
Qed.

(** One term over its documents. *)
Lemma score_docs_lookup x df l scores id :
  NoDup l.*1 →
  foldl (score_doc x df) scores l !! id
  = add_contribution (scores !! id)
      (tf ← (list_to_map l : docs) !! id;
       let c := bm25_contribution x df tf (default 0 (doc_len x !! id)) in
       if f64_is_finite c then Some c else None).
Proof.
  revert scores. induction l as [|[i tf] l IH]; intros scores Hnd; cbn [foldl].
  { done. }
  apply NoDup_cons in Hnd as [Hi Hnd]. rewrite IH, list_to_map_cons by done.
  unfold score_doc at 1. cbn [fst snd].
  destruct (decide (id = i)) as [->|Hne].
  - rewrite (not_elem_of_list_to_map_1 l i) by done. rewrite lookup_insert_eq.
    cbn [mbind option_bind]. destruct (f64_is_finite _); cbn [negb]; [by rewrite lookup_insert_eq|done].
  - rewrite lookup_insert_ne by done. destruct (f64_is_finite _); cbn [negb]; [|done].
    by rewrite lookup_insert_ne.
Qed.

Lemma score_term_lookup x D scores term id :
  represents x D →
  score_term x scores term !! id = add_contribution (scores !! id) (term_score (k1 x) (b x) D term id).
Proof.
  intros Hr. unfold score_term, term_score. pose proof (rep_docs x D term Hr) as Hd.
  pose proof (rep_post _ _ Hr term id) as Hp. unfold posting in Hp.
  destruct (postings x !! term) as [ds|] eqn:E.
  - rewrite score_docs_lookup, hash_iter_map by apply hash_iter_keys. cbn [default] in Hd.
    cbn [mbind option_bind] in Hp. f_equal. rewrite Hp, (rep_len _ _ Hr), <-Hd.
    destruct (D !! id) as [toks|]; cbn [mbind option_bind]; [|done].
    destruct (frequency term toks) as [tf|]; cbn [mbind option_bind]; [|done].
    cbn [fmap option_fmap option_map default]. by rewrite (contribution_okapi x D).
  - cbn [mbind option_bind] in Hp. destruct (D !! id) as [toks|]; [|done]. cbn [mbind option_bind] in *.
    by rewrite <-Hp.
Qed.

Lemma score_terms_lookup x D terms id :
  represents x D →
  foldl (score_term x) ∅ terms !! id = doc_score (k1 x) (b x) D terms id.
Proof.
  intros Hr. unfold doc_score.
  assert (∀ scores, foldl (score_term x) scores terms !! id
    = foldl add_contribution (scores !! id) ((λ t, term_score (k1 x) (b x) D t id) <$> terms)) as H'.
  { induction terms as [|t terms IH]; intros scores; [done|]. rewrite fmap_cons. cbn [foldl].
    by rewrite IH, (score_term_lookup x D). }
  rewrite H'. by rewrite lookup_empty.
Qed.

(** The results before sorting. *)
Definition scored (x : Bm25Index) (terms : list text) : list ScoredId :=
  (λ kv, mkScored kv.1 (finite_f32 kv.2)) <$> hash_iter (foldl (score_term x) ∅ terms).

Lemma scored_ids x terms : NoDup (s_id <$> scored x terms).
Proof. unfold scored. rewrite <-list_fmap_compose. apply hash_iter_keys. Qed.

Lemma elem_of_scored x D terms r :
  represents x D →
  r ∈ scored x terms ↔
  ∃ s, doc_score (k1 x) (b x) D terms (s_id r) = Some s ∧ s_score r = finite_f32 s.
Proof.
  intros Hr. unfold scored. rewrite list_elem_of_fmap. split.
  - intros ([id s] & -> & Hin). rewrite hash_iter_perm, elem_of_map_to_list in Hin.
    rewrite (score_terms_lookup x D) in Hin by done. exists s. done.
  - intros (s & Hs & Hf). exists (s_id r, s). rewrite hash_iter_perm, elem_of_map_to_list.
    rewrite (score_terms_lookup x D) by done. split; [|done]. destruct r as [i sc].
    change (sc = finite_f32 s) in Hf. by rewrite Hf.
Qed.

Lemma no_terms_no_score k1 b D id : doc_score k1 b D [] id = None.
Proof. done. Qed.

Lemma no_docs_no_score k1 b terms id : doc_score k1 b ∅ terms id = None.
Proof.
  unfold doc_score. induction terms as [|t terms IH]; [done|]. rewrite fmap_cons. cbn [foldl].
  assert (term_score k1 b ∅ t id = None) as ->; [unfold term_score; by rewrite lookup_empty|exact IH].
Qed.

Lemma search_represents x D query top_k :
  represents x D → 0 < top_k →
  best_of top_k (doc_score (k1 x) (b x) D (tokenize query)) (search x query top_k).
Proof.
  intros Hr Hk. unfold search. rewrite (proj2 (Z.eqb_neq top_k 0)), orb_false_r by lia.
  assert (∀ score, (∀ id, score id = None) → best_of top_k score []) as Hnil.
  { intros score Hs. split_and!; [simpl; lia|constructor|constructor| |].
    - by intros x' ?%elem_of_nil.
    - intros id s. by rewrite Hs. }
  unfold bm25_is_empty. destruct (bool_decide_reflect (doc_len x = ∅)) as [He|_].
  { apply Hnil. intros id. assert (D = ∅) as ->; [|apply no_docs_no_score].
    apply map_eq. intros i. pose proof (rep_len _ _ Hr i) as Hl. rewrite He, lookup_empty in Hl.
    rewrite lookup_empty. by destruct (D !! i). }
  destruct (tokenize query) as [|t terms]; [by apply Hnil|].
  apply (best_exact top_k _ (scored x (t :: terms))); [done|apply scored_ids|].
  intros r. by apply elem_of_scored.
Qed.

Lemma lex_step_params x o : k1 (lex_step x o) = k1 x ∧ b (lex_step x o) = b x.
Proof.
  assert (∀ id, k1 (bm25_remove x id).2 = k1 x ∧ b (bm25_remove x id).2 = b x) as Hrm.
  { intros id. unfold bm25_remove. by destruct (doc_len x !! id). }
  destruct o as [id txt|id]; [|apply Hrm]. simpl. unfold bm25_insert.
  destruct (bm25_contains x id), (tokenize txt); cbn [k1 b]; first [apply Hrm|done].
Qed.

Lemma run_params ops x : k1 (foldl lex_step x ops) = k1 x ∧ b (foldl lex_step x ops) = b x.
Proof.
  revert x. induction ops as [|o ops IH]; intros x; [done|]. cbn [foldl].
  destruct (IH (lex_step x o)) as [-> ->]. apply lex_step_params.
Qed.

(** C32: lexical search is BM25 over the texts as they stand: after any insertions,
    replacements and removals, a search returns the best documents by the BM25
    score computed from the current texts alone (term frequencies, document
    lengths, document frequencies and averages), whatever was indexed before and
    in whatever order the hash maps are walked. *)
Theorem search_exact k1 b ops query top_k :
  0 < top_k → Forall (λ o, op_tokens o ≤ u32_max) ops → ops_tokens ops ≤ u64_max →
  best_of top_k
    (doc_score (normalize_k1 k1) (normalize_b b) (foldl docs_step ∅ ops) (tokenize query))
    (search (foldl lex_step (with_params k1 b) ops) query top_k).
Proof.
  intros Hk Hops Htot. destruct (run_params ops (with_params k1 b)) as [E1 E2].
  cbn [with_params Lexical.k1 Lexical.b] in E1, E2. rewrite <-E1, <-E2.
  apply search_represents; [|done]. apply run_represents; [apply new_represents|done|].
  exact Htot.
Qed.
End refinement.


(** ** An instance, and the examples of the tests *)

Module Example1.

Export AsciiTables.

(** [x - 1], which has the sign of the logarithm. *)
#[export] Instance libm : Libm := { f64_ln x := f64_sub x f64_one }.

#[export] Instance hash : HashOrder := {|
  hash_iter _ _ _ _ m := map_to_list m;
  hash_iter_perm _ _ _ _ m := Permutation_refl (map_to_list m);
|}.

Definition txt (s : string) : text := Z.of_N ∘ Ascii.N_of_ascii <$> String.list_ascii_of_string s.

Example tokens_camel : tokenize (txt "tokenRefresh") = txt <$> ["tokenrefresh"; "token"; "refresh"].
Proof. reflexivity. Qed.
Example tokens_acronym :
  tokenize (txt "HTTP2Server") = txt <$> ["http2server"; "http"; "2"; "server"].
Proof. reflexivity. Qed.
Example tokens_path :
  tokenize (txt "draft_model::decode: ready")
  = txt <$> ["draft_model::decode"; "draft"; "model"; "decode"; "ready"].
Proof. reflexivity. Qed.
Example tokens_punctuation : tokenize (txt "alpha --- beta") = txt <$> ["alpha"; "beta"].
Proof. reflexivity. Qed.
Example tokens_language : tokenize (txt "C++") = txt <$> ["c++"; "c"].
Proof. reflexivity. Qed.

Definition demo_ops : list lex_op :=
  [LInsert "a" (txt "red fish"); LInsert "b" (txt "blue fish fish"); LInsert "c" (txt "red dog");
   LInsert "b" (txt "one fish"); LRemove "c"; LInsert "d" (txt "the cat")].

Example demo_found :
  s_id <$> search (foldl lex_step bm25_new demo_ops) (txt "fish") 10 = ["a"; "b"].
Proof. vm_compute. reflexivity. Qed.

Lemma search_exact_witness :
  best_of 10
    (doc_score (normalize_k1 DEFAULT_K1) (normalize_b DEFAULT_B) (foldl docs_step ∅ demo_ops)
       (tokenize (txt "fish")))
    (search (foldl lex_step (with_params DEFAULT_K1 DEFAULT_B) demo_ops) (txt "fish") 10).
Proof.
  apply (search_exact DEFAULT_K1 DEFAULT_B demo_ops (txt "fish") 10).
  - reflexivity.
  - repeat constructor; vm_compute; discriminate.
  - vm_compute. discriminate.
Defined.
End Example1.
