(* ===== verification/Filter.v ===== *)
(** * Metadata filters and workspace isolation

    [crates/grpc-server/src/filter.rs] and [acl.rs]: the evaluation of the legacy
    JSON filter and of the typed tag filter against the stored metadata of a
    vector, the workspace stamped on writes, and the workspace scope added to
    reads (with [compile_search_filter] and the search predicate of
    [service.rs]). serde_json is the class [Json]; a JSON object is the list of
    its fields in key order, as the ordered map of serde_json keeps them. *)

From Stdlib Require Import SpecFloat Ascii.
From S2P Require Import Prelude Sorting Text Storage Float64.

(** ** JSON values *)

Inductive Number :=
| PosInt (n : Z)
| NegInt (n : Z)
| Float (x : f64).

Inductive Value :=
| JNull
| JBool (b : bool)
| JNumber (n : Number)
| JString (s : string)
| JArray (l : list Value)
| JObject (fields : list (string * Value)).

Abbreviation Map := (list (string * Value)).

Fixpoint map_get (m : Map) (key : string) : option Value :=
  match m with
  | [] => None
  | (k, v) :: m => if String.eqb k key then Some v else map_get m key
  end.

(** [Map::insert] in key order. *)
Fixpoint map_insert (m : Map) (key : string) (value : Value) : Map :=
  match m with
  | [] => [(key, value)]
  | (k, v) :: m' =>
      match bytes_cmp key k with
      | Lt => (key, value) :: m
      | Eq => (key, value) :: m'
      | Gt => (k, v) :: map_insert m' key value
      end
  end.

(** [Value::get] with a string key. *)
Definition value_get (v : Value) (key : string) : option Value :=
  match v with JObject m => map_get m key | _ => None end.

Definition as_str (v : Value) : option string := match v with JString s => Some s | _ => None end.
Definition as_bool (v : Value) : option bool := match v with JBool b => Some b | _ => None end.
Definition as_array (v : Value) : option (list Value) := match v with JArray l => Some l | _ => None end.
Definition is_null (v : Value) : bool := match v with JNull => true | _ => false end.
Definition as_f64 (v : Value) : option f64 :=
  match v with
  | JNumber (PosInt n) | JNumber (NegInt n) => Some (f64_of_Z n)
  | JNumber (Float x) => Some x
  | _ => None
  end.

Definition number_eqb (a b : Number) : bool :=
  match a, b with
  | PosInt n, PosInt m | NegInt n, NegInt m => n =? m
  | Float x, Float y => SFeqb x y
  | _, _ => false
  end.

(** [Value == Value]. *)
Fixpoint value_eqb (a b : Value) {struct a} : bool :=
  match a, b with
  | JNull, JNull => true
  | JBool x, JBool y => Bool.eqb x y
  | JNumber x, JNumber y => number_eqb x y
  | JString x, JString y => String.eqb x y
  | JArray l, JArray k =>
      (fix go (l k : list Value) : bool :=
         match l, k with
         | [], [] => true
         | x :: l, y :: k => value_eqb x y && go l k
         | _, _ => false
         end) l k
  | JObject l, JObject k =>
      (fix go (l k : Map) : bool :=
         match l, k with
         | [], [] => true
         | (i, x) :: l, (j, y) :: k => String.eqb i j && value_eqb x y && go l k
         | _, _ => false
         end) l k
  | _, _ => false
  end.

Class Json := {
  from_slice : string → result string Value;
  to_vec : Value → result string string;
}.

(** What is written is read back, string fields exactly. *)
Class JsonLaws `{!Json} := {
  json_roundtrip m b :
    to_vec (JObject m) = Ok b →
    ∃ m', from_slice b = Ok (JObject m') ∧
      ∀ k s, map_get m k = Some (JString s) → map_get m' k = Some (JString s);
  json_nonempty v b : to_vec v = Ok b → b ≠ "";
}.

(** ** Tag filters, as the protocol has them *)

Inductive TagVal :=
| VText (s : string)
| VNumber (n : f64)
| VBoolean (b : bool)
| VTextList (values : list string).

Record TagCondition := mkCondition {
  key : string;
  value : option (option TagVal);
  op : Z;
}.

Inductive TagFilter := mkTagFilter (filter_type : option FilterType)
with FilterType :=
| FAnd (filters : list TagFilter)
| FOr (filters : list TagFilter)
| FNot (filter : option TagFilter)
| FCondition (cond : TagCondition).

Inductive TagOperator :=
| TagOpEq | TagOpGt | TagOpLt | TagOpGte | TagOpLte | TagOpContains | TagOpExists.

#[global] Instance tag_operator_eq_dec : EqDecision TagOperator.
Proof. solve_decision. Defined.

(** [TagOperator::try_from]. *)
Definition operator_of (n : Z) : option TagOperator :=
  match n with
  | 0 => Some TagOpEq | 1 => Some TagOpGt | 2 => Some TagOpLt | 3 => Some TagOpGte
  | 4 => Some TagOpLte | 5 => Some TagOpContains | 6 => Some TagOpExists
  | _ => None
  end.

(** ** Evaluation *)

(** [str::split] on one byte, and [str::contains]. *)
Fixpoint split_char (c : ascii) (s : string) : list string :=
  match s with
  | EmptyString => [""]
  | String d s =>
      if Ascii.eqb c d then "" :: split_char c s
      else match split_char c s with
           | w :: ws => String d w :: ws
           | [] => [String d ""]
           end
  end.

Fixpoint str_contains (s needle : string) : bool :=
  starts_with s needle
  || match s with EmptyString => false | String _ s => str_contains s needle end.

Fixpoint path_field (current : Value) (parts : list string) : option Value :=
  match parts with
  | [] => Some current
  | part :: parts =>
      if String.eqb part "" then None
      else next ← value_get current part; path_field next parts
  end.

Definition metadata_field (metadata : Value) (key : string) : option Value :=
  match value_get metadata key with
  | Some v => Some v
  | None => path_field metadata (split_char "." key)
  end.

(** [dedup] of a sorted list. *)
Fixpoint dedup_sorted (l : list string) : list string :=
  match l with
  | x :: (y :: _) as l' => if String.eqb x y then dedup_sorted l' else x :: dedup_sorted l'
  | l => l
  end.

Definition as_set (l : list string) : list string := dedup_sorted (sort_by bytes_cmp l).

(** [arr.iter().map(|v| v.as_str()).collect::<Option<Vec<_>>>()]. *)
Fixpoint all_strings (l : list Value) : option (list string) :=
  match l with
  | [] => Some []
  | v :: l => s ← as_str v; rest ← all_strings l; Some (s :: rest)
  end.

Definition value_equals (field : Value) (v : TagVal) : bool :=
  match v with
  | VText s => match as_str field with Some t => String.eqb t s | None => false end
  | VNumber n => match as_f64 field with Some x => SFeqb x n | None => false end
  | VBoolean b => match as_bool field with Some c => Bool.eqb c b | None => false end
  | VTextList values =>
      match as_array field with
      | None => false
      | Some arr =>
          match all_strings arr with
          | None => false
          | Some field_set => bool_decide (as_set field_set = as_set values)
          end
      end
  end.

Definition compare (field : Value) (v : TagVal) : option comparison :=
  match v with
  | VNumber n => x ← as_f64 field; SFcompare x n
  | VText s => t ← as_str field; Some (bytes_cmp t s)
  | _ => None
  end.

Definition value_contains (field : Value) (v : TagVal) : bool :=
  match as_str field with
  | Some s =>
      match v with
      | VText needle => str_contains s needle
      | VTextList values => existsb (str_contains s) values
      | _ => false
      end
  | None =>
      match as_array field with
      | Some arr =>
          match v with
          | VTextList values =>
              existsb (λ e, existsb (λ s, String.eqb s e) values) (omap as_str arr)
          | scalar => existsb (λ e, value_equals e scalar) arr
          end
      | None => false
      end
  end.

Definition op_holds (o : TagOperator) (field : Value) (v : TagVal) : bool :=
  match o with
  | TagOpEq => value_equals field v
  | TagOpGt => bool_decide (compare field v = Some Gt)
  | TagOpLt => bool_decide (compare field v = Some Lt)
  | TagOpGte => match compare field v with Some Gt | Some Eq => true | _ => false end
  | TagOpLte => match compare field v with Some Lt | Some Eq => true | _ => false end
  | TagOpContains => value_contains field v
  | TagOpExists => true
  end.

Definition condition_matches (metadata : Value) (cond : TagCondition) : bool :=
  match operator_of (op cond) with
  | None => false
  | Some o =>
      let field := metadata_field metadata (key cond) in
      if decide (o = TagOpExists) then
        match field with Some v => negb (is_null v) | None => false end
      else
        match field with
        | None => false
        | Some field =>
            if is_null field then false
            else match value cond with
                 | Some (Some v) => op_holds o field v
                 | _ => false
                 end
        end
  end.

Fixpoint tag_filter_matches (metadata : Value) (filter : TagFilter) {struct filter} : bool :=
  match filter with
  | mkTagFilter (Some (FAnd filters)) => forallb (tag_filter_matches metadata) filters
  | mkTagFilter (Some (FOr filters)) => existsb (tag_filter_matches metadata) filters
  | mkTagFilter (Some (FNot (Some f))) => negb (tag_filter_matches metadata f)
  | mkTagFilter (Some (FNot None)) => true
  | mkTagFilter (Some (FCondition cond)) => condition_matches metadata cond
  | mkTagFilter None => true
  end.

Fixpoint validate_tag_filter (filter : TagFilter) {struct filter} : result string unit :=
  let validate_all :=
    fix go (l : list TagFilter) : result string unit :=
      match l with
      | [] => Ok tt
      | f :: l => let? _ := validate_tag_filter f in go l
      end in
  match filter with
  | mkTagFilter (Some (FAnd filters)) | mkTagFilter (Some (FOr filters)) => validate_all filters
  | mkTagFilter (Some (FNot (Some f))) => validate_tag_filter f
  | mkTagFilter (Some (FNot None)) => Ok tt
  | mkTagFilter (Some (FCondition cond)) =>
      match operator_of (op cond) with 
      | Some _ => Ok tt
      | None => Err ("unknown tag operator: " +:+ pretty (op cond))
      end
  | mkTagFilter None => Ok tt
  end.

Fixpoint value_subset_matches (expected actual : Value) {struct expected} : bool :=
  match expected, actual with
  | JObject efs, JObject afs =>
      forallb (λ kv, match map_get afs kv.1 with
                     | Some a => value_subset_matches kv.2 a
                     | None => false
                     end) efs
  | _, _ => value_eqb actual expected
  end.

(** ** Compiled filters *)

Inductive MetadataFilter := mkFilter {
  legacy : option Map;
  tag : option TagFilter;
  extra : option (MetadataFilter * MetadataFilter);
  workspace_scope : option string;
}.

Definition filter_and (f1 f2 : MetadataFilter) : MetadataFilter :=
  mkFilter None None (Some (f1, f2)) None.

Definition filter_workspace_scope (workspace_id : string) : MetadataFilter :=
  mkFilter None None None (Some workspace_id).

Definition WORKSPACE_KEY : string := "workspace_id".
Definition AGENT_KEY : string := "agent_id".
Definition EMBEDDING_MODEL_KEY : string := "embedding_model_id".

Definition metadata_in_workspace (metadata : Value) (workspace_id : string) : bool :=
  match value_get metadata WORKSPACE_KEY with
  | None | Some JNull => String.eqb workspace_id "default"
  | Some (JString ws) => String.eqb ws workspace_id
  | Some _ => false
  end.

Definition legacy_matches (legacy : Map) (metadata : Value) : bool :=
  forallb (λ kv, match value_get metadata kv.1 with
                 | Some actual => value_subset_matches kv.2 actual
                 | None => false
                 end) legacy.

Fixpoint matches (f : MetadataFilter) (metadata : Value) {struct f} : bool :=
  match extra f with
  | Some (f1, f2) => matches f1 metadata && matches f2 metadata
  | None =>
      match workspace_scope f with Some ws => metadata_in_workspace metadata ws | None => true end
      && match legacy f with Some l => legacy_matches l metadata | None => true end
      && match tag f with Some t => tag_filter_matches metadata t | None => true end
  end.

(** ** The caller *)

Record AuthContext := mkAuth {
  workspace_id : string;
  agent_id : option string;
  authenticated : bool;
  principal_id : option string;
  credential_id : option string;
  correlation_hint : option string;
}.

Record AclConfig := mkAcl {
  default_workspace : string;
  enforce_workspace : bool;
}.

Definition acl_default : AclConfig := mkAcl "default" true.

(** [map.entry(key).or_insert_with(..)]. *)
Definition or_insert (m : Map) (key : string) (value : Value) : Map :=
  match map_get m key with Some _ => m | None => map_insert m key value end.

Inductive FilterMode := Pre | Post | Adaptive.

Record FilterSettings := mkFilterSettings {
  mode : FilterMode;
  postfilter_overfetch_factor : Z;
  max_postfilter_candidates : Z;
}.

(** The number of candidates asked of the index. *)
Definition filtered_search_k (settings : FilterSettings) (top_k : Z) (has_filter : bool) : Z :=
  if negb has_filter then top_k
  else
    let factor := Z.max (postfilter_overfetch_factor settings) 1 in
    match mode settings with
    | Pre => top_k
    | Post | Adaptive =>
        Z.min (Z.max (saturating_mul usize_max top_k factor) top_k) (Z.max top_k 500)
    end.

Section Acl.
Context `{!Json}.

Definition build (filter_bytes : string) (tag_filter : option TagFilter)
  : result string (option MetadataFilter) :=
  let? legacy :=
    if String.eqb filter_bytes "" then Ok None
    else
      match from_slice filter_bytes with
      | Err e => Err ("legacy `filter` is not valid JSON: " +:+ e)
      | Ok (JObject map) => Ok (Some map)
      | Ok _ => Err "legacy `filter` must be a JSON object"
      end in
  let tag :=
    match tag_filter with
    | Some (mkTagFilter (Some _)) => tag_filter
    | _ => None
    end in
  let? _ := match tag with Some t => validate_tag_filter t | None => Ok tt end in
  match legacy, tag with
  | None, None => Ok None
  | _, _ => Ok (Some (mkFilter legacy tag None None))
  end.

Definition write_object (metadata : string) : result string Map :=
  if String.eqb metadata "" then Ok []
  else
    match from_slice metadata with
    | Err e => Err ("metadata is not valid JSON: " +:+ e)
    | Ok (JObject map) => Ok map
    | Ok JNull => Ok []
    | Ok _ => Err "metadata must be a JSON object"
    end.

Definition stamp_workspace (map : Map) (ctx : AuthContext) (acl : AclConfig)
  : result string Map :=
  match map_get map WORKSPACE_KEY ≫= as_str with
  | Some existing =>
      if negb (String.eqb existing (workspace_id ctx)) && enforce_workspace acl then
        Err ("workspace_id '" +:+ existing +:+ "' does not match caller workspace '"
             +:+ workspace_id ctx +:+ "'")
      else Ok map
  | None => Ok (map_insert map WORKSPACE_KEY (JString (workspace_id ctx)))
  end.

Definition stamp_write_metadata (metadata : string) (ctx : AuthContext) (acl : AclConfig)
    (embedding_model_id : option string) : result string string :=
  let? map := write_object metadata in
  let? map := stamp_workspace map ctx acl in
  let map :=
    match agent_id ctx with
    | Some agent => or_insert map AGENT_KEY (JString agent)
    | None => map
    end in
  let map :=
    match embedding_model_id with
    | Some model => or_insert map EMBEDDING_MODEL_KEY (JString model)
    | None => map
    end in
  to_vec (JObject map).

Definition apply_workspace_scope (existing : option MetadataFilter) (ctx : AuthContext)
    (acl : AclConfig) : result string (option MetadataFilter) :=
  if negb (enforce_workspace acl) then Ok existing
  else
    let scope := filter_workspace_scope (workspace_id ctx) in
    Ok (Some (match existing with
              | None => scope
              | Some filter => filter_and filter scope
              end)).

Definition compile_search_filter (filter_bytes : string) (tag_filter : option TagFilter)
    (ctx : AuthContext) (acl : AclConfig) : result string (option MetadataFilter) :=
  let? user := build filter_bytes tag_filter in
  apply_workspace_scope user ctx acl.

(** The predicate [attach_metadata_predicate] gives to the index, on the stored
    metadata of a candidate. *)
Definition metadata_predicate (filter : option MetadataFilter) (metadata : string) : bool :=
  match filter with
  | None => true
  | Some f =>
      if String.eqb metadata "" then matches f JNull
      else match from_slice metadata with
           | Ok meta => matches f meta
           | Err _ => false
           end
  end.

Definition metadata_value_from_bytes (metadata : string) : Value :=
  if String.eqb metadata "" then JNull
  else match from_slice metadata with Ok v => v | Err _ => JNull end.

Definition validate_metadata_json (metadata : string) : result string unit :=
  if String.eqb metadata "" then Ok tt
  else match from_slice metadata with
       | Ok _ => Ok tt
       | Err e => Err ("Metadata must be valid JSON: " +:+ e)
       end.

Definition metadata_in_auth_workspace (acl : AclConfig) (metadata : string) (ctx : AuthContext)
  : bool :=
  negb (enforce_workspace acl)
  || metadata_in_workspace (metadata_value_from_bytes metadata) (workspace_id ctx).
End Acl.

(** ** Objects *)

Lemma map_get_insert m k v : map_get (map_insert m k v) k = Some v.
Proof.
  induction m as [|[k' v'] m IH]; cbn; [by rewrite String.eqb_refl|].
  destruct (bytes_cmp k k') eqn:E; cbn; [by rewrite String.eqb_refl..|].
  destruct (String.eqb_spec k' k) as [->|]; [|done].
  rewrite (cmp_refl bytes_cmp) in E. done.
Qed.

Lemma map_get_insert_ne m k k' v : k ≠ k' → map_get (map_insert m k v) k' = map_get m k'.
Proof.
  intros Hne. induction m as [|[i w] m IH]; cbn.
  - by destruct (String.eqb_spec k k').
  - destruct (bytes_cmp k i) eqn:E; cbn.
    + apply bytes_cmp_Eq in E as ->. by destruct (String.eqb_spec i k').
    + by destruct (String.eqb_spec k k').
    + by rewrite IH.
Qed.

Lemma map_get_or_insert m k v k' w :
  map_get m k' = Some w → map_get (or_insert m k v) k' = Some w.
Proof.
  intros E. unfold or_insert. destruct (map_get m k) eqn:E'; [done|].
  rewrite map_get_insert_ne; [done|]. intros ->. congruence.
Qed.

(** ** Text lists compare as sets *)

Lemma elem_of_dedup_sorted s l : s ∈ dedup_sorted l ↔ s ∈ l.
Proof.
  induction l as [|x [|y l] IH]; [done..|].
  change (dedup_sorted (x :: y :: l)) with
    (if String.eqb x y then dedup_sorted (y :: l) else x :: dedup_sorted (y :: l)).
  destruct (String.eqb_spec x y) as [->|]; [rewrite IH; set_solver|].
  rewrite !elem_of_cons in *. naive_solver.
Qed.

Lemma dedup_sorted_sorted l :
  StronglySorted (cmp_le bytes_cmp) l →
  StronglySorted (cmp_le bytes_cmp) (dedup_sorted l) ∧ NoDup (dedup_sorted l).
Proof.
  induction 1 as [|x l Hl [IH1 IH2] Hx]; [split; constructor|].
  destruct l as [|y l]; [split; [by repeat constructor|apply NoDup_singleton]|].
  change (dedup_sorted (x :: y :: l)) with
    (if String.eqb x y then dedup_sorted (y :: l) else x :: dedup_sorted (y :: l)).
  destruct (String.eqb_spec x y) as [->|Hne]; [done|]. split.
  - constructor; [done|]. apply Forall_forall. intros s Hs.
    exact (proj1 (Forall_forall _ _) Hx s (proj1 (elem_of_dedup_sorted s _) Hs)).
  - constructor; [|done]. rewrite elem_of_dedup_sorted. intros Hin. apply Hne.
    apply bytes_cmp_Eq. apply Forall_cons_1 in Hx as [Hxy _].
    apply StronglySorted_inv in Hl as [_ Hy].
    apply (cmp_le_antisym bytes_cmp); [done|].
    apply elem_of_cons in Hin as [->|Hin]; [apply (cmp_le_refl bytes_cmp)|].
    exact (proj1 (Forall_forall _ _) Hy x Hin).
Qed.

Lemma as_set_spec l l' : as_set l = as_set l' ↔ ∀ s, s ∈ l ↔ s ∈ l'.
Proof.
  assert (∀ s k, s ∈ as_set k ↔ s ∈ k) as Hin.
  { intros s k. unfold as_set. by rewrite elem_of_dedup_sorted, elem_of_sort_by. }
  split; [intros E s; by rewrite <- (Hin s l), E, Hin|]. intros E.
  destruct (dedup_sorted_sorted _ (sort_by_sorted bytes_cmp l)) as [Hs Hn].
  destruct (dedup_sorted_sorted _ (sort_by_sorted bytes_cmp l')) as [Hs' Hn'].
  assert (as_set l ≡ₚ as_set l') as Hp.
  { apply NoDup_Permutation; [done..|]. intros s. by rewrite !Hin. }
  rewrite (sort_by_unique bytes_cmp (as_set l') (as_set l)); [| |done|done].
  - symmetry. apply (sort_by_unique bytes_cmp (as_set l')); [|done..].
    intros x y _ _. apply bytes_cmp_Eq.
  - intros x y _ _. apply bytes_cmp_Eq.
Qed.

(** A text list equals a JSON array exactly when the array holds strings only and
    the two have the same elements. *)
Lemma text_list_set_equality field values :
  value_equals field (VTextList values) = true ↔
  ∃ l, field = JArray (map JString l) ∧ ∀ s, s ∈ l ↔ s ∈ values.
Proof.
  assert (Inj (=) (=) JString) by (by intros ? ? [=]).
  assert (∀ arr l, all_strings arr = Some l ↔ arr = map JString l) as Hall.
  { induction arr as [|v arr IH]; intros l.
    - split; [by intros [= <-]|by destruct l].
    - cbn. destruct v as [| | |s| |]; cbn; try by destruct l. split.
      + intros (rest & E & [= <-])%bind_Some. apply IH in E as ->. done.
      + destruct l as [|s' l]; [done|]. intros [= -> ->].
        by rewrite (proj2 (IH l) eq_refl). }
  destruct field as [| | | |arr|]; cbn; try (split; [done|by intros (? & ? & ?)]).
  destruct (all_strings arr) as [l|] eqn:E.
  - apply Hall in E as ->. rewrite bool_decide_eq_true, as_set_spec. split; [by exists l|].
    intros (l' & [= E] & Hs). assert (l = l') as -> by
      (apply (inj (map JString)); exact E). done.
  - split; [done|]. intros (l & [= ->] & _). by rewrite (proj2 (Hall _ l) eq_refl) in E.
Qed.

(** ** Validation *)

Fixpoint operators_known (filter : TagFilter) {struct filter} : bool :=
  match filter with
  | mkTagFilter (Some (FAnd filters)) | mkTagFilter (Some (FOr filters)) =>
      forallb operators_known filters
  | mkTagFilter (Some (FNot (Some f))) => operators_known f
  | mkTagFilter (Some (FCondition cond)) => bool_decide (is_Some (operator_of (op cond)))
  | _ => true
  end.

(** Induction over the tree of filters. *)
Section TagFilterInd.
Variable P : TagFilter → Prop.
Hypothesis P_none : P (mkTagFilter None).
Hypothesis P_and : ∀ l, Forall P l → P (mkTagFilter (Some (FAnd l))).
Hypothesis P_or : ∀ l, Forall P l → P (mkTagFilter (Some (FOr l))).
Hypothesis P_not : ∀ f, from_option P True f → P (mkTagFilter (Some (FNot f))).
Hypothesis P_cond : ∀ c, P (mkTagFilter (Some (FCondition c))).

Fixpoint tag_filter_ind' (f : TagFilter) {struct f} : P f :=
  let all :=
    fix go (l : list TagFilter) : Forall P l :=
      match l with
      | [] => Forall_nil_2 _
      | f :: l => Forall_cons_2 _ _ _ (tag_filter_ind' f) (go l)
      end in
  match f with
  | mkTagFilter None => P_none
  | mkTagFilter (Some (FAnd l)) => P_and l (all l)
  | mkTagFilter (Some (FOr l)) => P_or l (all l)
  | mkTagFilter (Some (FNot (Some f))) => P_not (Some f) (tag_filter_ind' f)
  | mkTagFilter (Some (FNot None)) => P_not None I
  | mkTagFilter (Some (FCondition c)) => P_cond c
  end.
End TagFilterInd.

(** A filter passes validation exactly when every condition in it has a known
    operator, however deep the condition is. *)
Lemma validate_exact f : validate_tag_filter f = Ok tt ↔ operators_known f = true.
Proof.
  induction f as [|l IH|l IH|[f|] IH|c] using tag_filter_ind'; cbn; try done.
  1,2: induction IH as [|f l IHf _ IHl]; cbn; [done|]; rewrite andb_true_iff, <- IHf, <- IHl;
    destruct (validate_tag_filter f) as [[]|]; cbn; naive_solver.
  rewrite bool_decide_eq_true. destruct (operator_of (op c)); cbn; naive_solver.
Qed.

(** Over-fetching never asks for fewer candidates than the caller wants, and for
    at most 500 when the caller wants fewer. *)
Lemma filtered_search_k_bounds settings top_k has_filter :
  top_k ≤ filtered_search_k settings top_k has_filter ≤ Z.max top_k 500.
Proof. unfold filtered_search_k. destruct has_filter, (mode settings); cbn; lia. Qed.

(** ** Workspaces *)

Section Isolation.
Context `{!Json, !JsonLaws}.

Lemma stamp_workspace_ok m ctx acl m' :
  enforce_workspace acl = true → stamp_workspace m ctx acl = Ok m' →
  map_get m' WORKSPACE_KEY = Some (JString (workspace_id ctx)).
Proof.
  intros Hacl. unfold stamp_workspace. rewrite Hacl.
  destruct (map_get m WORKSPACE_KEY) as [v|] eqn:E; cbn [mbind option_bind].
  - destruct v; cbn [as_str]; try (intros [= <-]; apply map_get_insert).
    destruct (String.eqb_spec s (workspace_id ctx)) as [->|]; [|done].
    by intros [= <-].
  - intros [= <-]. apply map_get_insert.
Qed.

Lemma write_stamps metadata ctx acl model b :
  enforce_workspace acl = true →
  stamp_write_metadata metadata ctx acl model = Ok b →
  b ≠ "" ∧ ∃ m, from_slice b = Ok (JObject m) ∧
    map_get m WORKSPACE_KEY = Some (JString (workspace_id ctx)).
Proof.
  intros Hacl. unfold stamp_write_metadata. destruct (write_object metadata) as [m|]; [|done].
  cbn [result_bind]. destruct (stamp_workspace m ctx acl) as [m1|] eqn:E; [|done].
  cbn [result_bind]. apply stamp_workspace_ok in E; [|done]. intros Hb. split.
  { by eapply json_nonempty. }
  apply json_roundtrip in Hb as (m' & Hm' & Hget). exists m'. split; [done|]. apply Hget.
  destruct (agent_id ctx), model; by repeat apply map_get_or_insert.
Qed.

Lemma compiled_scope fb tf ctx acl flt v :
  enforce_workspace acl = true → compile_search_filter fb tf ctx acl = Ok flt →
  ∃ f, flt = Some f ∧
    (matches f v = true → metadata_in_workspace v (workspace_id ctx) = true) ∧
    (fb = "" → tf = None → matches f v = metadata_in_workspace v (workspace_id ctx)).
Proof.
  intros Hacl. unfold compile_search_filter, apply_workspace_scope. rewrite Hacl.
  destruct (build fb tf) as [[user|]|] eqn:E; cbn [result_bind negb]; [| |done];
    intros [= <-]; eexists; split; try done; cbn; split.
  - rewrite !andb_true_iff. tauto.
  - intros -> ->. done.
  - rewrite !andb_true_iff. tauto.
  - by rewrite !andb_true_r.
Qed.

(** C35: With enforcement on, a vector written by a caller is confined to the
    caller's workspace, whatever workspace the request's metadata carried and
    whatever filter a reader asks with: it passes the search predicate compiled
    for a reader only if the two workspaces are equal, it passes without a user
    filter exactly then, and exactly then the read, update and delete guards let
    the reader through. *)
Theorem workspace_isolation metadata ctx acl model b ctx' :
  enforce_workspace acl = true →
  stamp_write_metadata metadata ctx acl model = Ok b →
  (∀ fb tf flt, compile_search_filter fb tf ctx' acl = Ok flt →
     (metadata_predicate flt b = true → workspace_id ctx' = workspace_id ctx) ∧
     (fb = "" → tf = None →
      metadata_predicate flt b = bool_decide (workspace_id ctx' = workspace_id ctx))) ∧
  metadata_in_auth_workspace acl b ctx' = bool_decide (workspace_id ctx' = workspace_id ctx).
Proof.
  intros Hacl Hb. apply write_stamps in Hb as (Hne & m & Hm & Hget); [|done].
  assert (metadata_in_workspace (JObject m) (workspace_id ctx')
          = bool_decide (workspace_id ctx' = workspace_id ctx)) as Hin.
  { unfold metadata_in_workspace, value_get. rewrite Hget.
    destruct (String.eqb_spec (workspace_id ctx) (workspace_id ctx')) as [->|];
      [by rewrite bool_decide_true|]. by rewrite bool_decide_false. }
  apply String.eqb_neq in Hne. split.
  - intros fb tf flt Hf.
    destruct (compiled_scope _ _ _ _ _ (JObject m) Hacl Hf) as (f & -> & H1 & H2).
    unfold metadata_predicate. rewrite Hne, Hm. rewrite Hin in H1, H2. split; [|done].
    intros E%H1. by apply bool_decide_eq_true in E.
  - unfold metadata_in_auth_workspace, metadata_value_from_bytes. by rewrite Hacl, Hne, Hm.
Qed.
End Isolation.

(** A codec of objects whose fields are strings: each character is marked, each
    string is closed. *)
Module FilterExamples.
Fixpoint put_string (s rest : string) : string :=
  match s with
  | EmptyString => String "0" rest
  | String c s => String "1" (String c (put_string s rest))
  end.

Fixpoint get_strings (b acc : string) : list string :=
  match b with
  | String "0" b => acc :: get_strings b ""
  | String "1" (String c b) => get_strings b (acc +:+ String c "")
  | _ => []
  end.

Fixpoint put_fields (m : Map) : option string :=
  match m with
  | [] => Some ""
  | (k, v) :: m => s ← as_str v; rest ← put_fields m; Some (put_string k (put_string s rest))
  end.

Fixpoint get_fields (l : list string) : Map :=
  match l with
  | k :: s :: l => (k, JString s) :: get_fields l
  | _ => []
  end.

#[local] Instance toy_json : Json := {|
  from_slice b := match b with
                  | String "{" b => Ok (JObject (get_fields (get_strings b "")))
                  | _ => Err "expected value"
                  end;
  to_vec v := match v with
              | JObject m => match put_fields m with
                             | Some b => Ok (String "{" b)
                             | None => Err "unsupported"
                             end
              | _ => Err "unsupported"
              end
|}.

Lemma get_put_string s rest acc :
  get_strings (put_string s rest) acc = (acc +:+ s) :: get_strings rest "".
Proof.
  revert acc. induction s as [|c s IH]; intros acc; cbn.
  - replace (acc +:+ "") with acc; [done|]. induction acc as [|c acc IH]; [done|]. rewrite IH at 1. reflexivity.
  - rewrite IH. by rewrite app_assoc_str.
Qed.

Lemma get_put_fields m b : put_fields m = Some b → get_fields (get_strings b "") = m.
Proof.
  revert b. induction m as [|[k v] m IH]; cbn [put_fields]; intros b.
  - intros [= <-]. done.
  - destruct v as [| | |s| |]; try done. cbn [as_str mbind option_bind].
    intros (rest & E & [= <-])%bind_Some. rewrite !get_put_string. cbn.
    by rewrite (IH _ E).
Qed.

#[local] Instance toy_json_laws : JsonLaws.
Proof.
  split; cbn [to_vec toy_json from_slice].
  - intros m b. destruct (put_fields m) as [b'|] eqn:E; [|done]. intros [= <-].
    exists m. by rewrite (get_put_fields _ _ E).
  - intros v b'. destruct v; try done. destruct (put_fields fields); [|done]. by intros [= <-].
Qed.

Definition caller (ws : string) : AuthContext :=
  mkAuth ws (Some "agent-1") true None None None.

(** The tag filter [category = "docs"]. *)
Definition docs_only : TagFilter :=
  mkTagFilter (Some (FCondition (mkCondition "category" (Some (Some (VText "docs"))) 0))).

(** The request's metadata [category = docs] and what is stored of it. *)
Definition docs_metadata : string := "{1c1a1t1e1g1o1r1y01d1o1c1s0".
Definition stamped : string :=
  match stamp_write_metadata docs_metadata (caller "team-a") acl_default None with
  | Ok b => b
  | Err _ => ""
  end.

(** A vector of team-a tagged docs, searched with the filter by team-a and by
    team-b. *)
Lemma workspace_isolation_witness :
  let read ws := match compile_search_filter "" (Some docs_only) (caller ws) acl_default with
                 | Ok f => metadata_predicate f stamped | Err _ => false end in
  read "team-a" = true ∧ read "team-b" = false ∧
  metadata_in_auth_workspace acl_default stamped (caller "team-b") = false.
Proof.
  split; [vm_compute; reflexivity|]. split; [vm_compute; reflexivity|].
  assert (stamp_write_metadata docs_metadata (caller "team-a") acl_default None = Ok stamped)
    as E by (vm_compute; reflexivity).
  rewrite (proj2 (workspace_isolation _ _ acl_default None stamped (caller "team-b") eq_refl E)).
  vm_compute. reflexivity.
Defined.
End FilterExamples.
