(* ===== verification/Tags.v ===== *)
(** * Document tags

    [crates/common/src/types/tag.rs]: typed tag values, the map of a document's
    tags and its validation. A tag map is a [HashMap]; the order in which it is
    walked is the parameter [tags_iter]. *)

From S2P Require Import Prelude Float64.

Definition MAX_TAGS : Z := 50.
Definition MAX_TAG_KEY_LEN : Z := 64.
Definition MAX_TAG_VALUE_LEN : Z := 256.

(** A number is the bit pattern of an [f64]. *)
Inductive TagValue :=
| Text (s : string)
| Number (n : f64_bits)
| Boolean (b : bool)
| TextList (l : list string).

#[global] Instance TagValue_eq_dec : EqDecision TagValue.
Proof. solve_decision. Defined.

Inductive TagValidationError :=
| TooManyTags (n : Z)
| KeyTooLong (key : string)
| EmptyKey
| ValueTooLong (key : string)
| EmptyList (key : string).

Definition type_name (v : TagValue) : string :=
  match v with
  | Text _ => "txt"
  | Number _ => "num"
  | Boolean _ => "bool"
  | TextList _ => "lst"
  end.

(** [str::len], in bytes. *)
Definition str_len (s : string) : Z := Z.of_nat (String.length s).

Fixpoint validate_items (key : string) (l : list string) : result TagValidationError unit :=
  match l with
  | [] => Ok tt
  | item :: l =>
      if str_len item >? MAX_TAG_VALUE_LEN then Err (ValueTooLong key) else validate_items key l
  end.

Definition validate_value (key : string) (v : TagValue) : result TagValidationError unit :=
  match v with
  | Text s => if str_len s >? MAX_TAG_VALUE_LEN then Err (ValueTooLong key) else Ok tt
  | TextList [] => Err (EmptyList key)
  | TextList l => validate_items key l
  | _ => Ok tt
  end.

Abbreviation Tags := (gmap string TagValue).

Definition tags_new : Tags := ∅.
Definition tags_is_empty (t : Tags) : bool := bool_decide (t = ∅).
Definition tags_len (t : Tags) : Z := Z.of_nat (size t).
Definition tags_insert (key : string) (v : TagValue) (t : Tags) : option TagValue * Tags :=
  (t !! key, <[key := v]> t).
Definition tags_get (key : string) (t : Tags) : option TagValue := t !! key.
Definition tags_remove (key : string) (t : Tags) : option TagValue * Tags :=
  (t !! key, delete key t).

(** The order a hash map is walked in. *)
Class TagsIter := {
  tags_iter : Tags → list (string * TagValue);
  tags_iter_perm t : tags_iter t ≡ₚ map_to_list t;
}.

#[global] Instance tags_iter_map : TagsIter := { tags_iter := map_to_list; tags_iter_perm _ := reflexivity _ }.

Section tags.
Context `{!TagsIter}.

Definition tags_merge (t other : Tags) : Tags :=
  foldl (λ (t : Tags) kv, <[kv.1 := kv.2]> t) t (tags_iter other).

Fixpoint validate_pairs (l : list (string * TagValue)) : result TagValidationError unit :=
  match l with
  | [] => Ok tt
  | (key, value) :: l =>
      if str_len key >? MAX_TAG_KEY_LEN then Err (KeyTooLong key)
      else if str_len key =? 0 then Err EmptyKey
      else let? _ := validate_value key value in validate_pairs l
  end.

Definition tags_validate (t : Tags) : result TagValidationError unit :=
  if tags_len t >? MAX_TAGS then Err (TooManyTags (tags_len t))
  else validate_pairs (tags_iter t).

(** ** What the operations do *)

Lemma elem_of_tags_iter t k v : (k, v) ∈ tags_iter t ↔ t !! k = Some v.
Proof. rewrite tags_iter_perm. apply elem_of_map_to_list. Qed.

Lemma tags_iter_NoDup t : NoDup (tags_iter t).*1.
Proof. rewrite tags_iter_perm. apply NoDup_fst_map_to_list. Qed.

(** What a valid value is. *)
Definition value_ok (v : TagValue) : Prop :=
  match v with
  | Text s => str_len s ≤ MAX_TAG_VALUE_LEN
  | TextList l => l ≠ [] ∧ Forall (λ s, str_len s ≤ MAX_TAG_VALUE_LEN) l
  | _ => True
  end.

Lemma validate_items_ok key l :
  validate_items key l = Ok tt ↔ Forall (λ s, str_len s ≤ MAX_TAG_VALUE_LEN) l.
Proof.
  induction l as [|s l IH]; simpl; [done|]. rewrite Forall_cons, <-IH.
  rewrite Z.gtb_ltb. destruct (Z.ltb_spec MAX_TAG_VALUE_LEN (str_len s)); naive_solver lia.
Qed.

Lemma validate_value_ok key v : validate_value key v = Ok tt ↔ value_ok v.
Proof.
  destruct v as [s| | |l]; simpl; [|done..|].
  - rewrite Z.gtb_ltb. destruct (Z.ltb_spec MAX_TAG_VALUE_LEN (str_len s)); naive_solver lia.
  - destruct l as [|s l]; [naive_solver|]. rewrite validate_items_ok. naive_solver.
Qed.

Lemma validate_pairs_ok l :
  validate_pairs l = Ok tt
  ↔ ∀ k v, (k, v) ∈ l → 0 < str_len k ≤ MAX_TAG_KEY_LEN ∧ value_ok v.
Proof.
  induction l as [|[k v] l IH]; simpl; [split; [by intros _ ?? ?%elem_of_nil|done]|].
  setoid_rewrite elem_of_cons.
  assert (validate_pairs ((k, v) :: l) = Ok tt
    ↔ (0 < str_len k ≤ MAX_TAG_KEY_LEN ∧ value_ok v) ∧ validate_pairs l = Ok tt) as E.
  { simpl. rewrite Z.gtb_ltb. pose proof (validate_value_ok k v) as HV.
    assert (0 ≤ str_len k) by (unfold str_len; lia).
    destruct (Z.ltb_spec MAX_TAG_KEY_LEN (str_len k)); [naive_solver lia|].
    destruct (Z.eqb_spec (str_len k) 0); [naive_solver lia|].
    destruct (validate_value k v) as [[]|]; simpl; naive_solver lia. }
  simpl in E. rewrite E, IH. naive_solver.
Qed.

(** Validation accepts exactly the tag maps within the limits, in whatever
    order the map is walked. *)
Lemma tags_validate_ok t :
  tags_validate t = Ok tt
  ↔ tags_len t ≤ MAX_TAGS ∧
    ∀ k v, t !! k = Some v → 0 < str_len k ≤ MAX_TAG_KEY_LEN ∧ value_ok v.
Proof.
  unfold tags_validate. rewrite Z.gtb_ltb.
  destruct (Z.ltb_spec MAX_TAGS (tags_len t)); [naive_solver lia|].
  rewrite validate_pairs_ok. setoid_rewrite elem_of_tags_iter. naive_solver lia.
Qed.

Lemma foldl_insert_lookup (l : list (string * TagValue)) (t : Tags) k :
  NoDup l.*1 →
  foldl (λ (t : Tags) kv, <[kv.1 := kv.2]> t) t l !! k
  = match (list_to_map l : Tags) !! k with Some v => Some v | None => t !! k end.
Proof.
  revert t. induction l as [|[k' v'] l IH]; intros t Hnd; simpl; [done|].
  apply NoDup_cons in Hnd as [Hk Hnd]. rewrite IH by done.
  destruct (decide (k' = k)) as [->|Hne].
  - rewrite lookup_insert_eq, (not_elem_of_list_to_map_1 l k) by done. simpl.
    by rewrite lookup_insert_eq.
  - by rewrite !lookup_insert_ne.
Qed.

(** The tags merged in take precedence. *)
Lemma tags_merge_lookup t other k :
  tags_merge t other !! k
  = match other !! k with Some v => Some v | None => t !! k end.
Proof.
  unfold tags_merge. rewrite foldl_insert_lookup by apply tags_iter_NoDup.
  rewrite (list_to_map_proper (M:=gmap string) (tags_iter other) (map_to_list other));
    [by rewrite list_to_map_to_list|apply tags_iter_NoDup|apply tags_iter_perm].
Qed.
End tags.
