(* ===== verification/TagIndex.v ===== *)
(** * The tag index

    [crates/storage/src/tag_index.rs]: a secondary index from tag values to the
    set of vectors that carry them, one RocksDB key per value, the set a
    serialized [RoaringBitmap]. The bitmap library is the class [Roaring] with
    its documented behaviour in [RoaringLaws]; the database is the class
    [RocksDB]. An operation holds the write lock from its first read to its
    write, so it is one step; it returns the result and the new database. *)

From Stdlib Require Import Ascii.
From S2P Require Import Prelude Sorting Float64 Text Hex Storage Tags.

(** ** Roaring bitmaps *)

Class Roaring (B : Type) := {
  rb_new : B;
  rb_insert : Z → B → B;
  rb_remove : Z → B → B;
  rb_is_empty : B → bool;
  rb_or : B → B → B;
  rb_and : B → B → B;
  rb_sub : B → B → B;
  rb_iter : B → list Z;
  rb_len : B → Z;
  rb_serialize : B → result string string;
  rb_deserialize : string → result string B;
}.

(** A bitmap is a finite set of numbers; serialization into a vector does not
    fail and reads back as the same set. *)
Class RoaringLaws (B : Type) `{!Roaring B} := {
  rb_set : B → gset Z;
  rb_new_set : rb_set rb_new = ∅;
  rb_insert_set i b : rb_set (rb_insert i b) = {[i]} ∪ rb_set b;
  rb_remove_set i b : rb_set (rb_remove i b) = rb_set b ∖ {[i]};
  rb_is_empty_set b : rb_is_empty b = true ↔ rb_set b = ∅;
  rb_or_set b c : rb_set (rb_or b c) = rb_set b ∪ rb_set c;
  rb_and_set b c : rb_set (rb_and b c) = rb_set b ∩ rb_set c;
  rb_sub_set b c : rb_set (rb_sub b c) = rb_set b ∖ rb_set c;
  rb_iter_sorted b : StronglySorted Z.lt (rb_iter b);
  rb_iter_set b i : i ∈ rb_iter b ↔ i ∈ rb_set b;
  rb_len_set b : rb_len b = Z.of_nat (size (rb_set b));
  rb_serialize_ok b :
    ∃ s c, rb_serialize b = Ok s ∧ rb_deserialize s = Ok c ∧ rb_set c = rb_set b;
}.

(** ** Keys *)

Definition TAG_INDEX_PREFIX : string := "tag:".

Definition escape_char (ch : ascii) : string :=
  if Ascii.eqb ch "%" then "%25"
  else if Ascii.eqb ch ":" then "%3A"
  else String ch "".

(** The two characters that are escaped are ASCII, so escaping the bytes of a
    string escapes its characters. *)
Fixpoint escape_key_component (value : string) : string :=
  match value with
  | EmptyString => ""
  | String ch value => escape_char ch +:+ escape_key_component value
  end.

Definition encode_f64_sortable (value : f64_bits) : list Z :=
  let encoded :=
    if Z.shiftr value 63 =? 0 then Z.lxor value (Z.shiftl 1 63)
    else Z.lxor value u64_max in
  be_bytes 8 encoded.

Definition decode_f64_sortable (bytes : list Z) : option f64_bits :=
  if negb (Zlength bytes =? 8) then None
  else
    let encoded := from_be_bytes bytes in
    Some (if Z.shiftr encoded 63 =? 1 then Z.lxor encoded (Z.shiftl 1 63)
          else Z.lxor encoded u64_max).

Definition index_key (type_prefix key value : string) : string :=
  "tag:" +:+ type_prefix +:+ ":" +:+ escape_key_component key
  +:+ ":" +:+ escape_key_component value.

Definition bool_to_string (b : bool) : string := if b then "true" else "false".

Definition tag_to_index_keys (key : string) (value : TagValue) : list string :=
  match value with
  | Text s => [index_key "txt" key s]
  | Number n => [index_key "num" key (hex_string (encode_f64_sortable n))]
  | Boolean b => [index_key "bool" key (bool_to_string b)]
  | TextList l => (λ s, index_key "lst" key s) <$> l
  end.

Definition decode_hex_f64 (hex_str : string) : option f64_bits :=
  if negb (str_len hex_str =? 16) then None
  else bytes ← parse_hex hex_str; decode_f64_sortable bytes.

Fixpoint validate_numeric_pairs (l : list (string * TagValue)) : Result unit :=
  match l with
  | [] => Ok tt
  | (_, Number n) :: l =>
      if f64b_is_nan n then
        Err (InvalidParameter "Tag '' has NaN value, which is not allowed for numeric tags")
      else if f64b_is_infinite n then
        Err (InvalidParameter "Tag '' has infinite value, which is not allowed for numeric tags")
      else validate_numeric_pairs l
  | _ :: l => validate_numeric_pairs l
  end.

(** [InternalId::fits_in_u32], [InternalId::as_u32]. *)
Definition fits_in_u32 (id : Z) : bool := (id >=? 0) && (id <=? u32_max).
Definition as_u32 (id : Z) : option Z := if fits_in_u32 id then Some id else None.

Definition ok_or {A} (e : AkiDbError) (o : option A) : Result A :=
  match o with Some a => Ok a | None => Err e end.

Definition id_error : AkiDbError :=
  InvalidParameter "Internal ID  exceeds u32 range for tag index (max: )".
Definition lock_error : AkiDbError := StorageError "TagIndex write lock poisoned: ".

(** ** Filters *)

Inductive TagOperator := OpEq | OpGt | OpLt | OpGte | OpLte | OpContains | OpExists.

Record TagCondition := mkCondition { c_key : string; c_value : TagValue; c_op : TagOperator }.

Inductive TagFilter :=
| And (filters : list TagFilter)
| Or (filters : list TagFilter)
| Not (filter : TagFilter)
| Condition (cond : TagCondition).

Definition filter_eq (key : string) (value : TagValue) : TagFilter :=
  Condition (mkCondition key value OpEq).
Definition filter_exists (key : string) : TagFilter :=
  Condition (mkCondition key (Boolean true) OpExists).
Definition filter_contains (key value : string) : TagFilter :=
  Condition (mkCondition key (Text value) OpContains).
Definition filter_gt (key : string) (value : f64_bits) : TagFilter :=
  Condition (mkCondition key (Number value) OpGt).
Definition filter_lt (key : string) (value : f64_bits) : TagFilter :=
  Condition (mkCondition key (Number value) OpLt).
Definition filter_gte (key : string) (value : f64_bits) : TagFilter :=
  Condition (mkCondition key (Number value) OpGte).
Definition filter_lte (key : string) (value : f64_bits) : TagFilter :=
  Condition (mkCondition key (Number value) OpLte).

(** Induction over filters, with the hypothesis for every member of a list. *)
Lemma filter_ind (P : TagFilter → Prop) :
  (∀ fs, Forall P fs → P (And fs)) → (∀ fs, Forall P fs → P (Or fs)) →
  (∀ f, P f → P (Not f)) → (∀ cond, P (Condition cond)) → ∀ f, P f.
Proof.
  intros HA HO HN HC. fix IH 1. intros [fs|fs|f|cond].
  - apply HA. induction fs; constructor; [apply IH|done].
  - apply HO. induction fs; constructor; [apply IH|done].
  - apply HN, IH.
  - apply HC.
Qed.

Fixpoint filter_contains_not (filter : TagFilter) : bool :=
  match filter with
  | Not _ => true
  | And filters | Or filters => existsb filter_contains_not filters
  | Condition _ => false
  end.

Record TagIndexStats := mkStats { total_entries : Z; total_ids : Z; unique_keys : Z }.

(** ** The index *)

Record TagIndex (D : Type) := mkTagIndex { ti_db : D; ti_poisoned : bool }.
Arguments mkTagIndex {D} _ _.
Arguments ti_db {D} _.
Arguments ti_poisoned {D} _.

Section index.
Context {D B : Type} `{!RocksDB D, !Roaring B, !TagsIter}.
Implicit Types (t : TagIndex D).

(** [TagIndex::new]. *)
Definition tag_index_new (d : D) : TagIndex D := mkTagIndex d false.

Definition validate_numeric_tags (tags : Tags) : Result unit :=
  validate_numeric_pairs (tags_iter tags).

Definition get_bitmap t (key : string) : Result B :=
  match db_get (ti_db t) key with
  | Ok (Some data) =>
      match rb_deserialize data with
      | Ok b => Ok b
      | Err e => Err (StorageError ("Failed to deserialize bitmap: " +:+ e))
      end
  | Ok None => Ok rb_new
  | Err e => Err (StorageError ("RocksDB get error: " +:+ e))
  end.

Definition serialize_bitmap (bitmap : B) : Result string :=
  match rb_serialize bitmap with
  | Ok buf => Ok buf
  | Err e => Err (StorageError ("Failed to serialize bitmap: " +:+ e))
  end.

(** The keys the two nested loops over a vector's tags visit. *)
Definition index_keys_of (tags : Tags) : list string :=
  tags_iter tags ≫= λ kv, tag_to_index_keys kv.1 kv.2.

Definition insert_entry t (id_u32 : Z) (idx_key : string) : Result BatchOperation :=
  let? bitmap := get_bitmap t idx_key in
  let? serialized := serialize_bitmap (rb_insert id_u32 bitmap) in
  Ok (Put idx_key serialized).

Definition remove_entry t (id_u32 : Z) (idx_key : string) : Result BatchOperation :=
  let? bitmap := get_bitmap t idx_key in
  let bitmap := rb_remove id_u32 bitmap in
  if rb_is_empty bitmap then Ok (Delete idx_key)
  else let? serialized := serialize_bitmap bitmap in Ok (Put idx_key serialized).

(** [self.db.write(batch)], when the batch could be built. *)
Definition commit t (batch : Result (list BatchOperation)) : Result unit * TagIndex D :=
  match batch with
  | Err e => (Err e, t)
  | Ok ops =>
      let '(r, d) := db_write (ti_db t) false ops in
      (map_err "RocksDB batch write error: " r, mkTagIndex d (ti_poisoned t))
  end.

Definition lock t : Result unit := if ti_poisoned t then Err lock_error else Ok tt.

Definition add_batch t (id : Z) (tags : Tags) : Result (list BatchOperation) :=
  let? _ := validate_numeric_tags tags in
  let? id_u32 := ok_or id_error (as_u32 id) in
  let? _ := lock t in
  collect (insert_entry t id_u32) (index_keys_of tags).

Definition add t (id : Z) (tags : Tags) : Result unit * TagIndex D :=
  if tags_is_empty tags then (Ok tt, t) else commit t (add_batch t id tags).

Definition remove_batch t (id : Z) (tags : Tags) : Result (list BatchOperation) :=
  let? id_u32 := ok_or id_error (as_u32 id) in
  let? _ := lock t in
  collect (remove_entry t id_u32) (index_keys_of tags).

Definition remove t (id : Z) (tags : Tags) : Result unit * TagIndex D :=
  if tags_is_empty tags then (Ok tt, t) else commit t (remove_batch t id tags).

(** Both loops read the database, not the batch. *)
Definition update_batch t (id : Z) (old_tags new_tags : Tags) : Result (list BatchOperation) :=
  let? _ := validate_numeric_tags new_tags in
  let? id_u32 := ok_or id_error (as_u32 id) in
  let? _ := lock t in
  let? removed := collect (remove_entry t id_u32) (index_keys_of old_tags) in
  let? added := collect (insert_entry t id_u32) (index_keys_of new_tags) in
  Ok (removed ++ added).

Definition update t (id : Z) (old_tags new_tags : Tags) : Result unit * TagIndex D :=
  commit t (update_batch t id old_tags new_tags).

(** *** Queries *)

(** A loop over a prefix iterator that folds the entries with the prefix and
    stops at the first other key. *)
Fixpoint scan_fold {A} (scan_prefix : string) (f : A → string → string → A)
    (items : list (result string KV)) (acc : A) : Result A :=
  match items with
  | [] => Ok acc
  | Ok (key, value) :: items =>
      if starts_with key scan_prefix then scan_fold scan_prefix f items (f acc key value)
      else Ok acc
  | Err e :: _ => Err (StorageError ("RocksDB scan error: " +:+ e))
  end.

(** [if let Ok(bitmap) = deserialize { result |= bitmap }]. *)
Definition or_value (result : B) (value : string) : B :=
  match rb_deserialize value with Ok bitmap => rb_or result bitmap | Err _ => result end.

Definition op_matches (op : TagOperator) (num_val threshold : f64_bits) : bool :=
  match op with
  | OpGt => f64b_gt num_val threshold
  | OpLt => f64b_lt num_val threshold
  | OpGte => f64b_ge num_val threshold
  | OpLte => f64b_le num_val threshold
  | _ => false
  end.

Definition range_step (scan_prefix : string) (threshold : f64_bits) (op : TagOperator)
    (result : B) (idx_key value : string) : B :=
  match decode_hex_f64 (str_drop (String.length scan_prefix) idx_key) with
  | Some num_val => if op_matches op num_val threshold then or_value result value else result
  | None => result
  end.

Definition range_query t (key : string) (threshold : f64_bits) (op : TagOperator) : Result B :=
  let scan_prefix := "tag:num:" +:+ escape_key_component key +:+ ":" in
  scan_fold scan_prefix (range_step scan_prefix threshold op)
    (db_prefix_iterator (ti_db t) scan_prefix) rb_new.

Definition exists_type t (key : string) (result : Result B) (type_prefix : string) : Result B :=
  let? result := result in
  let scan_prefix := "tag:" +:+ type_prefix +:+ ":" +:+ escape_key_component key +:+ ":" in
  scan_fold scan_prefix (λ result _ value, or_value result value)
    (db_prefix_iterator (ti_db t) scan_prefix) result.

Definition exists_query t (key : string) : Result B :=
  foldl (exists_type t key) (Ok rb_new) ["txt"; "num"; "bool"; "lst"].

Definition or_key t (result : Result B) (key : string) : Result B :=
  let? result := result in
  let? bitmap := get_bitmap t key in
  Ok (rb_or result bitmap).

Definition evaluate_condition t (cond : TagCondition) : Result B :=
  match c_op cond with
  | OpEq => foldl (or_key t) (Ok rb_new) (tag_to_index_keys (c_key cond) (c_value cond))
  | OpExists => exists_query t (c_key cond)
  | OpContains =>
      match c_value cond with
      | Text needle => get_bitmap t (index_key "lst" (c_key cond) needle)
      | _ => Ok rb_new
      end
  | OpGt | OpLt | OpGte | OpLte =>
      match c_value cond with
      | Number threshold =>
          if f64b_is_nan threshold then
            Err (InvalidParameter "Range query threshold cannot be NaN")
          else if f64b_is_infinite threshold then
            Err (InvalidParameter "Range query threshold cannot be infinite")
          else range_query t (c_key cond) threshold (c_op cond)
      | _ => Ok rb_new
      end
  end.

Definition not_error : AkiDbError :=
  InvalidParameter "NOT filter requires universe set. Use query_with_universe() instead.".

Fixpoint evaluate_filter t (universe : option B) (filter : TagFilter) : Result B :=
  match filter with
  | And [] => match universe with Some univ => Ok univ | None => Ok rb_new end
  | And (f :: filters) =>
      let? result := evaluate_filter t universe f in
      (fix conjoin (filters : list TagFilter) (result : B) : Result B :=
         match filters with
         | [] => Ok result
         | f :: filters =>
             if rb_is_empty result then Ok result
             else let? r := evaluate_filter t universe f in conjoin filters (rb_and result r)
         end) filters result
  | Or filters =>
      (fix disjoin (filters : list TagFilter) (result : B) : Result B :=
         match filters with
         | [] => Ok result
         | f :: filters =>
             let? r := evaluate_filter t universe f in disjoin filters (rb_or result r)
         end) filters rb_new
  | Not inner_filter =>
      let? inner_result := evaluate_filter t universe inner_filter in
      match universe with
      | Some univ => Ok (rb_sub univ inner_result)
      | None => Err not_error
      end
  | Condition cond => evaluate_condition t cond
  end.

(** The two loops of [evaluate_filter]. *)
Fixpoint conjoin t (universe : option B) (filters : list TagFilter) (result : B) : Result B :=
  match filters with
  | [] => Ok result
  | f :: filters =>
      if rb_is_empty result then Ok result
      else let? r := evaluate_filter t universe f in
           conjoin t universe filters (rb_and result r)
  end.

Fixpoint disjoin t (universe : option B) (filters : list TagFilter) (result : B) : Result B :=
  match filters with
  | [] => Ok result
  | f :: filters =>
      let? r := evaluate_filter t universe f in disjoin t universe filters (rb_or result r)
  end.

Lemma evaluate_and t universe f filters :
  evaluate_filter t universe (And (f :: filters))
  = let? result := evaluate_filter t universe f in conjoin t universe filters result.
Proof.
  simpl. destruct (evaluate_filter t universe f) as [b|]; [|done]. simpl. revert b.
  induction filters as [|f' filters IH]; intros b; simpl; [done|].
  destruct (rb_is_empty b); [done|]. destruct (evaluate_filter t universe f'); [apply IH|done].
Qed.

Lemma evaluate_or t universe filters :
  evaluate_filter t universe (Or filters) = disjoin t universe filters rb_new.
Proof.
  simpl. generalize (rb_new (B:=B)).
  induction filters as [|f' filters IH]; intros b; simpl; [done|].
  destruct (evaluate_filter t universe f'); [apply IH|done].
Qed.

Definition query t (filter : TagFilter) : Result B := evaluate_filter t None filter.

Definition query_with_universe t (filter : TagFilter) (universe : B) : Result B :=
  evaluate_filter t (Some universe) filter.

Definition limit_ids (limit : option Z) (ids : list Z) : list Z :=
  match limit with Some n => take (Z.to_nat n) ids | None => ids end.

Definition query_ids t (filter : TagFilter) (limit : option Z) : Result (list Z) :=
  let? bitmap := query t filter in Ok (limit_ids limit (rb_iter bitmap)).

Definition query_ids_with_universe t (filter : TagFilter) (universe : B) (limit : option Z)
    : Result (list Z) :=
  let? bitmap := query_with_universe t filter universe in Ok (limit_ids limit (rb_iter bitmap)).

(** *** Statistics *)

(** [str::split_once(':')]. *)
Fixpoint split_once (s : string) : option (string * string) :=
  match s with
  | EmptyString => None
  | String c s =>
      if Ascii.eqb c ":" then Some ("", s)
      else p ← split_once s; Some (String c p.1, p.2)
  end.

Definition key_name (key : string) : option string :=
  p ← split_once (str_drop (String.length TAG_INDEX_PREFIX) key);
  q ← split_once p.2;
  Some q.1.

Definition stats_step (s : Z * Z * gset string) (key value : string) : Z * Z * gset string :=
  let '(entries, ids, keys) := s in
  (entries + 1,
   match rb_deserialize value with Ok bitmap => ids + rb_len bitmap | Err _ => ids end,
   match key_name key with Some k => {[k]} ∪ keys | None => keys end).

Fixpoint stats_items (items : list (result string KV)) (s : Z * Z * gset string)
    : Z * Z * gset string :=
  match items with
  | Ok (key, value) :: items =>
      if starts_with key TAG_INDEX_PREFIX then stats_items items (stats_step s key value) else s
  | _ => s
  end.

Definition stats t : Result TagIndexStats :=
  let '(entries, ids, keys) :=
    stats_items (db_prefix_iterator (ti_db t) TAG_INDEX_PREFIX) (0, 0, ∅) in
  Ok (mkStats entries ids (Z.of_nat (size keys))).
End index.

(** ** Keys are injective *)

Lemma no_colon_app a b : no_colon a → no_colon b → no_colon (a +:+ b).
Proof. induction a as [|c a IH]; [done|]. intros [Hc Ha] Hb. split; [done|by apply IH]. Qed.

Lemma escape_char_no_colon c : no_colon (escape_char c).
Proof.
  unfold escape_char. destruct (Ascii.eqb_spec c "%"); [by split_and!|].
  destruct (Ascii.eqb_spec c ":"); [by split_and!|]. by split.
Qed.

Lemma escape_no_colon s : no_colon (escape_key_component s).
Proof.
  induction s as [|c s IH]; simpl; [done|]. by apply no_colon_app; [apply escape_char_no_colon|].
Qed.

Lemma escape_inj s s' : escape_key_component s = escape_key_component s' → s = s'.
Proof.
  revert s'. induction s as [|c s IH]; intros [|c' s']; simpl; unfold escape_char;
    repeat match goal with
    | |- context [Ascii.eqb ?x ?y] => destruct (Ascii.eqb_spec x y); subst
    end; simpl; intros E; simplify_eq; try done; f_equal; by apply IH.
Qed.

Lemma type_prefix_no_colon tp :
  tp ∈ ["txt"; "num"; "bool"; "lst"] → no_colon tp.
Proof.
  rewrite !elem_of_cons, elem_of_nil. intros [-> |[-> |[-> |[-> |[]]]]]; by repeat split.
Qed.

(** The part of a key before the value determines the type and the tag key. *)
Lemma index_key_prefix tp tp' key key' value :
  no_colon tp → no_colon tp' →
  starts_with (index_key tp key value)
    ("tag:" +:+ tp' +:+ ":" +:+ escape_key_component key' +:+ ":") = true
  ↔ tp = tp' ∧ key = key'.
Proof.
  intros Htp Htp'. rewrite starts_with_spec. unfold index_key. split.
  - intros [s E]. rewrite !app_assoc_str in E. simpl in E. injection E as E.
    apply no_colon_split in E as [-> E]; [|done..].
    apply no_colon_split in E as [E _]; [|apply escape_no_colon..].
    split; [done|by apply escape_inj].
  - intros [-> ->]. exists (escape_key_component value). by rewrite !app_assoc_str.
Qed.

Lemma index_key_inj tp tp' key key' value value' :
  no_colon tp → no_colon tp' →
  index_key tp key value = index_key tp' key' value' → tp = tp' ∧ key = key' ∧ value = value'.
Proof.
  intros Htp Htp'. unfold index_key. simpl. intros [= E].
  apply no_colon_split in E as [-> E]; [|done..].
  apply no_colon_split in E as [E E']; [|apply escape_no_colon..].
  split_and!; [done|by apply escape_inj..].
Qed.

Lemma index_key_tag tp key value : starts_with (index_key tp key value) TAG_INDEX_PREFIX = true.
Proof. apply starts_with_app. Qed.

(** ** Numbers in keys *)

Lemma escape_hex_digit d s :
  0 ≤ d < 16 → escape_key_component (String (hex_digit d) s) = String (hex_digit d) (escape_key_component s).
Proof.
  intros Hd. cbn [escape_key_component].
  assert (escape_char (hex_digit d) = String (hex_digit d) "") as ->; [|done].
  apply (digit_cases (λ d, escape_char (hex_digit d) = String (hex_digit d) "") d Hd).
  repeat constructor.
Qed.

Lemma escape_hex l :
  Forall is_byte l → escape_key_component (hex_string l) = hex_string l.
Proof.
  induction 1 as [|b l Hb _ IH]; [done|]. destruct (byte_nibbles b Hb) as (H1 & H2 & _).
  change (hex_string (b :: l)) with
    (String (hex_digit (b / 16)) (String (hex_digit (b mod 16)) (hex_string l))).
  by rewrite !escape_hex_digit, IH.
Qed.

(** The position of a bit pattern in the order of the encoding. *)
Definition sort_key (x : f64_bits) : Z := if x <? 2 ^ 63 then x + 2 ^ 63 else 2 ^ 64 - 1 - x.

Lemma lxor_sign x : 0 ≤ x < 2 ^ 63 → Z.lxor x (Z.shiftl 1 63) = x + 2 ^ 63.
Proof.
  intros Hx. rewrite Z.shiftl_1_l. symmetry. apply Z.add_nocarry_lxor.
  apply Z.bits_inj'. intros n Hn. rewrite Z.land_spec, Z.bits_0, Z.pow2_bits_eqb by lia.
  destruct (Z.eqb_spec 63 n) as [<-|]; [|apply andb_false_r].
  rewrite andb_true_r. apply Z.testbit_false; [lia|]. by rewrite Z.div_small by lia.
Qed.

Lemma lxor_ones x : 0 ≤ x ≤ u64_max → Z.lxor x u64_max = u64_max - x.
Proof.
  intros Hx. change u64_max with (Z.ones 64) in *.
  assert (Z.log2 x < 64) as Hl.
  { destruct (Z.eq_dec x 0) as [->|]; [done|]. apply Z.log2_lt_pow2; [lia|].
    change (2 ^ 64) with (Z.ones 64 + 1). lia. }
  rewrite Z.sub_nocarry_ldiff by (apply Z.ldiff_ones_r_low; lia).
  apply Z.bits_inj'. intros n Hn. rewrite Z.lxor_spec, Z.ldiff_spec.
  destruct (Z.lt_ge_cases n 64).
  - rewrite Z.ones_spec_low by lia. by destruct (Z.testbit x n).
  - rewrite Z.ones_spec_high, Z.bits_above_log2 by lia. done.
Qed.

Lemma shiftr_top x : 0 ≤ x < 2 ^ 64 → Z.shiftr x 63 = if x <? 2 ^ 63 then 0 else 1.
Proof.
  intros Hx. rewrite Z.shiftr_div_pow2 by lia. destruct (Z.ltb_spec x (2 ^ 63)).
  - apply Z.div_small. lia.
  - symmetry. apply (Z.div_unique _ _ _ (x - 2 ^ 63)); lia.
Qed.

Lemma encode_sort_key x : 0 ≤ x < 2 ^ 64 → encode_f64_sortable x = be_bytes 8 (sort_key x).
Proof.
  intros Hx. unfold encode_f64_sortable, sort_key. rewrite shiftr_top by done.
  destruct (Z.ltb_spec x (2 ^ 63)); simpl (_ =? _); cbv iota.
  - by rewrite lxor_sign by lia.
  - rewrite lxor_ones by int_lia. done.
Qed.

Lemma sort_key_range x : 0 ≤ x < 2 ^ 64 → 0 ≤ sort_key x < 2 ^ 64.
Proof. unfold sort_key. destruct (Z.ltb_spec x (2 ^ 63)); lia. Qed.

Lemma encode_bytes x : Forall is_byte (encode_f64_sortable x).
Proof. apply be_bytes_range. Qed.

Lemma encode_length x : length (encode_f64_sortable x) = 8%nat.
Proof. apply be_bytes_length. Qed.

Lemma decode_encode_f64 x :
  0 ≤ x < 2 ^ 64 → decode_f64_sortable (encode_f64_sortable x) = Some x.
Proof.
  intros Hx. unfold decode_f64_sortable. rewrite encode_length. simpl negb. cbv iota.
  rewrite encode_sort_key, from_be_bytes_be by done. pose proof (sort_key_range x Hx) as Hk.
  change (256 ^ Z.of_nat 8) with (2 ^ 64). rewrite Z.mod_small, shiftr_top by done.
  f_equal. unfold sort_key in *. destruct (Z.ltb_spec x (2 ^ 63)).
  - rewrite (proj2 (Z.ltb_ge _ _)) by lia. simpl (_ =? _). cbv iota.
    rewrite <-lxor_sign, Z.lxor_assoc, Z.lxor_nilpotent by lia. apply Z.lxor_0_r.
  - rewrite (proj2 (Z.ltb_lt _ _)) by lia. simpl (_ =? _). cbv iota.
    rewrite lxor_ones by int_lia. int_lia.
Qed.

Lemma decode_hex_encode x :
  0 ≤ x < 2 ^ 64 → decode_hex_f64 (hex_string (encode_f64_sortable x)) = Some x.
Proof.
  intros Hx. unfold decode_hex_f64, str_len. rewrite hex_string_length, encode_length.
  simpl negb. cbv iota. rewrite parse_hex_string by apply encode_bytes. simpl.
  by apply decode_encode_f64.
Qed.

Lemma sort_key_inj x y : 0 ≤ x < 2 ^ 64 → 0 ≤ y < 2 ^ 64 → sort_key x = sort_key y → x = y.
Proof.
  unfold sort_key. destruct (Z.ltb_spec x (2 ^ 63)), (Z.ltb_spec y (2 ^ 63)); lia.
Qed.

Lemma hex_encode_cmp x y :
  0 ≤ x < 2 ^ 64 → 0 ≤ y < 2 ^ 64 →
  bytes_cmp (hex_string (encode_f64_sortable x)) (hex_string (encode_f64_sortable y))
  = (sort_key x ?= sort_key y).
Proof.
  intros Hx Hy. rewrite hex_string_cmp by (by rewrite ?encode_length || apply encode_bytes).
  rewrite !encode_sort_key, be_bytes_cmp by done. change (256 ^ Z.of_nat 8) with (2 ^ 64).
  by rewrite !Z.mod_small by (by apply sort_key_range).
Qed.

(** The order of the encoding refines the order of the numbers: it separates the
    two zeros and nothing else. *)
Lemma sort_key_order x y :
  0 ≤ x < 2 ^ 64 → 0 ≤ y < 2 ^ 64 →
  (f64b_key x < f64b_key y → sort_key x < sort_key y) ∧
  (sort_key x < sort_key y → f64b_key x ≤ f64b_key y).
Proof.
  intros Hx Hy. unfold sort_key, f64b_key, f64b_neg, f64b_mag.
  assert (∀ z, 0 ≤ z < 2 ^ 64 → z mod 2 ^ 63 = if z <? 2 ^ 63 then z else z - 2 ^ 63) as Hm.
  { intros z Hz. destruct (Z.ltb_spec z (2 ^ 63)); [apply Z.mod_small; lia|].
    symmetry. apply (Z.mod_unique _ _ 1); lia. }
  rewrite !Hm by done.
  destruct (Z.ltb_spec x (2 ^ 63)), (Z.ltb_spec y (2 ^ 63)),
    (Z.leb_spec (2 ^ 63) x), (Z.leb_spec (2 ^ 63) y); lia.
Qed.

(** The text that a number becomes in an index key decodes to that number, and
    the byte order of two such texts is the order of the two numbers (which are
    bit patterns of finite values): a smaller number sorts first, and a text that
    sorts first holds a number that is not greater. *)
Lemma sortable_encoding (x y : f64_bits) :
  0 ≤ x < 2 ^ 64 → 0 ≤ y < 2 ^ 64 → f64b_is_nan x = false → f64b_is_nan y = false →
  decode_hex_f64 (hex_string (encode_f64_sortable x)) = Some x ∧
  (f64b_lt x y = true →
   bytes_cmp (hex_string (encode_f64_sortable x)) (hex_string (encode_f64_sortable y)) = Lt) ∧
  (bytes_cmp (hex_string (encode_f64_sortable x)) (hex_string (encode_f64_sortable y)) = Lt →
   f64b_le x y = true).
Proof.
  intros Hx Hy Hnx Hny. split; [by apply decode_hex_encode|].
  rewrite hex_encode_cmp by done. destruct (sort_key_order x y Hx Hy) as [H1 H2].
  unfold f64b_lt, f64b_le, f64b_partial_cmp. rewrite Hnx, Hny. simpl.
  destruct (Z.compare_spec (f64b_key x) (f64b_key y)); rewrite Z.compare_lt_iff;
    split; intros; try done; lia.
Qed.

(** Minus two and three halves. *)
Lemma sortable_encoding_witness :
  bytes_cmp (hex_string (encode_f64_sortable 13835058055282163712))
            (hex_string (encode_f64_sortable 4609434218613702656)) = Lt.
Proof. apply (sortable_encoding 13835058055282163712 4609434218613702656); done. Defined.

(** ** Keys of a tag map *)

(** The values of a tag that are indexed. *)
Definition components (v : TagValue) : list string :=
  match v with
  | Text s => [s]
  | Number n => [hex_string (encode_f64_sortable n)]
  | Boolean b => [bool_to_string b]
  | TextList l => l
  end.

Lemma tag_to_index_keys_components key v :
  tag_to_index_keys key v = index_key (type_name v) key <$> components v.
Proof. by destruct v. Qed.

Lemma type_name_elem v : type_name v ∈ ["txt"; "num"; "bool"; "lst"].
Proof. destruct v; set_solver. Qed.

Lemma type_name_no_colon v : no_colon (type_name v).
Proof. apply type_prefix_no_colon, type_name_elem. Qed.

#[export] Hint Resolve type_name_no_colon index_key_tag : akidb.

Section keys.
Context `{!TagsIter}.

Lemma elem_of_index_keys k tags :
  k ∈ index_keys_of tags
  ↔ ∃ key v s, tags !! key = Some v ∧ s ∈ components v ∧ k = index_key (type_name v) key s.
Proof.
  unfold index_keys_of. rewrite list_elem_of_bind. split.
  - intros ([key v] & Hk & Hin). simpl in Hk. rewrite tag_to_index_keys_components in Hk.
    apply list_elem_of_fmap in Hk as (s & -> & Hs). exists key, v, s.
    by rewrite elem_of_tags_iter in Hin.
  - intros (key & v & s & Hv & Hs & ->). exists (key, v). rewrite elem_of_tags_iter. split; [|done].
    rewrite tag_to_index_keys_components. by apply list_elem_of_fmap_2.
Qed.

Lemma index_key_carried tp key s tags :
  no_colon tp →
  index_key tp key s ∈ index_keys_of tags
  ↔ ∃ v, tags !! key = Some v ∧ type_name v = tp ∧ s ∈ components v.
Proof.
  intros Htp. rewrite elem_of_index_keys. split.
  - intros (key' & v & s' & Hv & Hs & E).
    apply index_key_inj in E as (-> & -> & ->); [eauto|done|auto with akidb].
  - intros (v & Hv & <- & Hs). eauto 10.
Qed.

Lemma index_keys_of_tag k tags :
  k ∈ index_keys_of tags → starts_with k TAG_INDEX_PREFIX = true.
Proof. rewrite elem_of_index_keys. intros (? & ? & ? & _ & _ & ->). apply index_key_tag. Qed.

Lemma index_keys_of_empty : index_keys_of ∅ = [].
Proof.
  apply elem_of_nil_inv. intros k. rewrite elem_of_index_keys. by intros (? & ? & ? & ? & _).
Qed.
End keys.

(** ** Batches *)

Definition op_key (op : BatchOperation) : string :=
  match op with Put k _ => k | Delete k => k end.
Definition op_value (op : BatchOperation) : option string :=
  match op with Put _ v => Some v | Delete _ => None end.

Lemma apply_op_lookup m op k :
  apply_op m op !! k = if decide (op_key op = k) then op_value op else m !! k.
Proof. destruct op; simpl; case_decide; by simplify_map_eq. Qed.

Lemma apply_batch_lookup_ne m ops k :
  (∀ op, op ∈ ops → op_key op ≠ k) → apply_batch m ops !! k = m !! k.
Proof.
  revert m. induction ops as [|op ops IH]; intros m H; [done|].
  cbn [apply_batch foldl]. unfold apply_batch in IH. rewrite IH by set_solver.
  rewrite apply_op_lookup, decide_False by set_solver. done.
Qed.

(** The last operation on a key decides. *)
Lemma apply_batch_lookup_in (P : option string → Prop) m ops k :
  (∀ op, op ∈ ops → op_key op = k → P (op_value op)) → (∃ op, op ∈ ops ∧ op_key op = k) →
  P (apply_batch m ops !! k).
Proof.
  induction ops as [|op ops IH] using rev_ind; intros HP (op' & Hin & Hk).
  { by apply elem_of_nil in Hin. }
  rewrite apply_batch_app. simpl. rewrite apply_op_lookup.
  destruct (decide (op_key op = k)) as [E|E]; [apply HP; set_solver|].
  apply IH; [set_solver|]. exists op'. set_solver.
Qed.

Lemma collect_batch (f : string → Result BatchOperation) (P : string → option string → Prop) ks ops m :
  collect f ks = Ok ops →
  (∀ k op, k ∈ ks → f k = Ok op → op_key op = k ∧ P k (op_value op)) →
  ∀ k, (k ∈ ks → P k (apply_batch m ops !! k)) ∧ (k ∉ ks → apply_batch m ops !! k = m !! k).
Proof.
  intros Hc%collect_Forall2 Hf k.
  assert (∀ op, op ∈ ops → op_key op ∈ ks ∧ P (op_key op) (op_value op)) as Hops.
  { intros op (n & Hn)%list_elem_of_lookup.
    destruct (Forall2_lookup_r _ _ _ _ _ Hc Hn) as (k' & Hk' & E).
    apply list_elem_of_lookup_2 in Hk'. destruct (Hf k' op Hk' E) as [<- ?]. done. }
  split; intros Hk.
  - apply apply_batch_lookup_in; [intros op Hin <-; by apply Hops|].
    apply list_elem_of_lookup in Hk as (n & Hn).
    destruct (Forall2_lookup_l _ _ _ _ _ Hc Hn) as (op & Hop & E). exists op.
    split; [by eapply list_elem_of_lookup_2|]. apply (Hf k); [by eapply list_elem_of_lookup_2|done].
  - apply apply_batch_lookup_ne. intros op Hin <-. by apply Hk, Hops.
Qed.

(** ** The index against the tags of the vectors *)

Section spec.
Context {D B : Type} `{!RocksDB D, !RocksDBLaws D, !Roaring B, !RoaringLaws B, !TagsIter}.
Implicit Types (t : TagIndex D) (T : gmap Z Tags) (m : gmap string string).

Definition tags_of T (i : Z) : Tags := default ∅ (T !! i).

(** The vector [i] has a tag value that is indexed under [k]. *)
Definition carries T (i : Z) (k : string) : Prop := k ∈ index_keys_of (tags_of T i).

(** What is stored under a key is the set [P], and nothing when [P] is empty. *)
Definition entry_ok (stored : option string) (P : Z → Prop) : Prop :=
  match stored with
  | None => ∀ i, ¬ P i
  | Some v => ∃ b : B, rb_deserialize v = Ok b ∧ rb_set b ≠ ∅ ∧ ∀ i, i ∈ rb_set b ↔ P i
  end.

(** Every index entry is exactly the set of vectors that carry its value. *)
Definition tag_wf m T : Prop :=
  ∀ k, starts_with k TAG_INDEX_PREFIX = true → entry_ok (m !! k) (λ i, carries T i k).

Definition view t : gmap string string := db_view (ti_db t).

#[global] Instance entry_ok_proper stored :
  Proper (pointwise_relation Z iff ==> iff) (entry_ok stored).
Proof.
  intros P Q HPQ. destruct stored; simpl; [|by setoid_rewrite HPQ].
  by setoid_rewrite HPQ.
Qed.

Lemma get_bitmap_spec t T k b :
  tag_wf (view t) T → starts_with k TAG_INDEX_PREFIX = true → get_bitmap t k = Ok b →
  ∀ i, i ∈ rb_set b ↔ carries T i k.
Proof.
  intros Hwf Hk. specialize (Hwf k Hk). unfold get_bitmap, view in *.
  destruct (db_get (ti_db t) k) as [v|] eqn:E; [|done]. apply db_get_ok in E as ->.
  destruct (db_view (ti_db t) !! k) as [v|]; simpl in Hwf.
  - destruct Hwf as (b' & -> & _ & Hb). by intros [= <-].
  - intros [= <-] i. rewrite rb_new_set. set_solver.
Qed.

(** What serialization writes is an entry for the set serialized. *)
Lemma serialize_entry b s (P : Z → Prop) :
  serialize_bitmap b = Ok s → rb_set b ≠ ∅ → (∀ i, i ∈ rb_set b ↔ P i) → entry_ok (Some s) P.
Proof.
  unfold serialize_bitmap. destruct (rb_serialize_ok b) as (s' & c & -> & Hc & Hset).
  intros [= <-] Hne HP. exists c. by rewrite Hset.
Qed.

Lemma insert_entry_spec t T id k op :
  tag_wf (view t) T → starts_with k TAG_INDEX_PREFIX = true → insert_entry t id k = Ok op →
  op_key op = k ∧ entry_ok (op_value op) (λ i, i = id ∨ carries T i k).
Proof.
  intros Hwf Hk. unfold insert_entry. rewrite bind_ok. intros (b & Hb & (s & Hs & [= <-])%bind_ok).
  split; [done|]. eapply serialize_entry; [exact Hs|rewrite rb_insert_set; set_solver|].
  intros i. rewrite rb_insert_set, elem_of_union, elem_of_singleton.
  by rewrite (get_bitmap_spec t T k b Hwf Hk Hb).
Qed.

Lemma remove_entry_spec t T id k op :
  tag_wf (view t) T → starts_with k TAG_INDEX_PREFIX = true → remove_entry t id k = Ok op →
  op_key op = k ∧ entry_ok (op_value op) (λ i, i ≠ id ∧ carries T i k).
Proof.
  intros Hwf Hk. unfold remove_entry. rewrite bind_ok. intros (b & Hb & Hop).
  pose proof (get_bitmap_spec t T k b Hwf Hk Hb) as Hset.
  assert (∀ i, i ∈ rb_set (rb_remove id b) ↔ i ≠ id ∧ carries T i k) as Hrem.
  { intros i. rewrite rb_remove_set, <-Hset. set_solver. }
  destruct (rb_is_empty (rb_remove id b)) eqn:E.
  - injection Hop as <-. split; [done|]. apply rb_is_empty_set in E. intros i. simpl.
    rewrite <-Hrem, E. set_solver.
  - apply bind_ok in Hop as (s & Hs & [= <-]). split; [done|].
    eapply serialize_entry; [exact Hs| |done]. intros E'%rb_is_empty_set. congruence.
Qed.

Lemma tags_of_insert T id tags i :
  tags_of (<[id := tags]> T) i = if decide (i = id) then tags else tags_of T i.
Proof.
  unfold tags_of. case_decide; subst; [by rewrite lookup_insert_eq|by rewrite lookup_insert_ne].
Qed.

(** ** Operations *)

Inductive TagOp :=
| AddOp (id : Z) (tags : Tags)
| RemoveOp (id : Z) (tags : Tags)
| UpdateOp (id : Z) (old_tags new_tags : Tags).

Definition run_op t (op : TagOp) : Result unit * TagIndex D :=
  match op with
  | AddOp id tags => add (B:=B) t id tags
  | RemoveOp id tags => remove (B:=B) t id tags
  | UpdateOp id old_tags new_tags => update (B:=B) t id old_tags new_tags
  end.

Definition tags_typed (tags : Tags) : Prop :=
  ∀ key n, tags !! key = Some (Number n) → 0 ≤ n < 2 ^ 64.

(** The contract of a call: the tags given for removal are the vector's current
    ones, and a vector is added when it has none. *)
Definition op_pre T (op : TagOp) : Prop :=
  match op with
  | AddOp id tags => tags_of T id = ∅ ∧ tags_typed tags
  | RemoveOp id tags => tags_of T id = tags
  | UpdateOp id old_tags new_tags => tags_of T id = old_tags ∧ tags_typed new_tags
  end.

Definition op_effect T (op : TagOp) : gmap Z Tags :=
  match op with
  | AddOp id tags => <[id := tags]> T
  | RemoveOp id _ => <[id := ∅]> T
  | UpdateOp id _ new_tags => <[id := new_tags]> T
  end.

Definition typed T : Prop := ∀ i, tags_typed (tags_of T i).

Definition tags_inv t T : Prop := tag_wf (view t) T ∧ typed T.

Lemma typed_insert T id tags : typed T → tags_typed tags → typed (<[id := tags]> T).
Proof. intros HT Ht i. rewrite tags_of_insert. by case_decide. Qed.

Lemma op_effect_typed T op : typed T → op_pre T op → typed (op_effect T op).
Proof.
  destruct op; simpl; [intros ? []|intros ??|intros ? []]; apply typed_insert; try done.
Qed.

(** A batch that removes [id] under the keys of its old tags and inserts it under
    the keys of its new tags, both computed from the store. *)
Lemma batch_wf t T id new removed added :
  tag_wf (view t) T →
  collect (remove_entry (B:=B) t id) (index_keys_of (tags_of T id)) = Ok removed →
  collect (insert_entry (B:=B) t id) (index_keys_of new) = Ok added →
  tag_wf (apply_batch (view t) (removed ++ added)) (<[id := new]> T).
Proof.
  intros Hwf Hr Ha k Hk. rewrite apply_batch_app.
  destruct (collect_batch _ (λ k v, entry_ok v (λ i, i ≠ id ∧ carries T i k)) _ _ (view t) Hr)
    with (k := k) as [Hr1 Hr2].
  { intros k' op ? Hop. eapply remove_entry_spec; [done|by eapply index_keys_of_tag|done]. }
  destruct (collect_batch _ (λ k v, entry_ok v (λ i, i = id ∨ carries T i k)) _ _
              (apply_batch (view t) removed) Ha) with (k := k) as [Ha1 Ha2].
  { intros k' op ? Hop. eapply insert_entry_spec; [done|by eapply index_keys_of_tag|done]. }
  assert (∀ i, carries (<[id := new]> T) i k
    ↔ i = id ∧ k ∈ index_keys_of new ∨ i ≠ id ∧ carries T i k) as Hc.
  { intros i. unfold carries. rewrite tags_of_insert. destruct (decide (i = id)); naive_solver. }
  setoid_rewrite Hc. destruct (decide (k ∈ index_keys_of new)) as [Hn|Hn].
  - eapply entry_ok_proper; [|by apply Ha1]. intros i. destruct (decide (i = id)); naive_solver.
  - rewrite Ha2 by done. destruct (decide (k ∈ index_keys_of (tags_of T id))) as [Ho|Ho].
    + eapply entry_ok_proper; [|by apply Hr1]. intros i. naive_solver.
    + rewrite Hr2 by done. eapply entry_ok_proper; [|by apply Hwf].
      intros i. destruct (decide (i = id)) as [->|]; naive_solver.
Qed.

Lemma commit_effect t batch r t' :
  commit t batch = (r, t') →
  match batch with
  | Ok ops => write_effect r (view t) (apply_batch (view t) ops) (view t')
  | Err _ => is_ok r = false ∧ view t' = view t
  end.
Proof.
  unfold commit. destruct batch as [ops|e]; [|by intros [= <- <-]].
  destruct (db_write _ _ _) as [r' d'] eqn:E. intros [= <- <-].
  unfold view. simpl. eapply map_err_effect, db_write_ok, E.
Qed.

(** What a call leaves: on success its effect, on an error its effect or
    nothing. *)
Lemma run_op_wf t T op r t' :
  tag_wf (view t) T → op_pre T op → run_op t op = (r, t') →
  match r with
  | Ok _ => tag_wf (view t') (op_effect T op)
  | Err _ => view t' = view t ∨ tag_wf (view t') (op_effect T op)
  end.
Proof.
  assert (∀ t T, tag_wf (view t) T → ∀ id, tags_of T id = ∅ → tag_wf (view t) (<[id := ∅]> T))
    as Hnoop.
  { intros t0 T0 Hwf id Hid k Hk. specialize (Hwf k Hk). eapply entry_ok_proper; [|done].
    intros i. unfold carries. cbv beta. rewrite tags_of_insert.
    destruct (decide (i = id)) as [->|]; [by rewrite Hid|done]. }
  assert (∀ batch, commit t batch = (r, t') →
    (∀ ops, batch = Ok ops → tag_wf (apply_batch (view t) ops) (op_effect T op)) →
    match r with
    | Ok _ => tag_wf (view t') (op_effect T op)
    | Err _ => view t' = view t ∨ tag_wf (view t') (op_effect T op)
    end) as Hcommit.
  { intros batch Hc%commit_effect Hops. destruct batch as [ops|e].
    - specialize (Hops ops eq_refl). destruct r; simpl in Hc; [by rewrite Hc|].
      destruct Hc as [-> | ->]; auto.
    - destruct Hc as [Hr ->]. by destruct r; auto. }
  intros Hwf Hpre Hrun. destruct op as [id tags|id tags|id old new]; simpl in *.
  - destruct Hpre as [Hid _]. unfold add in Hrun. unfold tags_is_empty in Hrun.
    case_bool_decide as Ht; [simplify_eq; by apply Hnoop|].
    apply (Hcommit _ Hrun). intros ops. unfold add_batch.
    intros ([] & _ & (id' & Hid' & ([] & _ & Hops)%bind_ok)%bind_ok)%bind_ok.
    unfold as_u32 in Hid'. destruct (fits_in_u32 id); simplify_eq/=.
    apply (batch_wf t T id' tags [] ops); [done| |done]. by rewrite Hid, index_keys_of_empty.
  - subst tags. unfold remove, tags_is_empty in Hrun.
    case_bool_decide as Ht; [simplify_eq; by apply Hnoop|].
    apply (Hcommit _ Hrun). intros ops. unfold remove_batch.
    intros (id' & Hid' & ([] & _ & Hops)%bind_ok)%bind_ok.
    unfold as_u32 in Hid'. destruct (fits_in_u32 id); simplify_eq/=.
    rewrite <-(app_nil_r ops). apply batch_wf; [done..|]. by rewrite index_keys_of_empty.
  - destruct Hpre as [<- _]. apply (Hcommit _ Hrun). intros ops. unfold update_batch.
    intros ([] & _ & (id' & Hid' & ([] & _ & (rem & Hrem & (added & Hadd & [= <-])%bind_ok)%bind_ok)
      %bind_ok)%bind_ok)%bind_ok.
    unfold as_u32 in Hid'. destruct (fits_in_u32 id); simplify_eq/=. by apply batch_wf.
Qed.

(** The tags of the vectors after a call: a call that reports an error has taken
    effect when it changed the store. *)
Definition settle t T (op : TagOp) : TagIndex D * gmap Z Tags :=
  let '(r, t') := run_op t op in
  (t', match r with
       | Ok _ => op_effect T op
       | Err _ => if bool_decide (view t' = view t) then T else op_effect T op
       end).

Fixpoint run t T (ops : list TagOp) : TagIndex D * gmap Z Tags :=
  match ops with
  | [] => (t, T)
  | op :: ops => let '(t, T) := settle t T op in run t T ops
  end.

(** Every call of a run keeps its contract. *)
Fixpoint run_pre t T (ops : list TagOp) : Prop :=
  match ops with
  | [] => True
  | op :: ops => op_pre T op ∧ let '(t, T) := settle t T op in run_pre t T ops
  end.

Lemma settle_inv t T op :
  tags_inv t T → op_pre T op → tags_inv (settle t T op).1 (settle t T op).2.
Proof.
  intros [Hwf Hty] Hpre. unfold settle, tags_inv. destruct (run_op t op) as [r t'] eqn:E. simpl.
  pose proof (run_op_wf t T op r t' Hwf Hpre E) as Hop.
  pose proof (op_effect_typed T op Hty Hpre). destruct r; [done|].
  case_bool_decide as Hv; [by rewrite Hv|]. by destruct Hop.
Qed.

Lemma tag_run_inv t T ops :
  tags_inv t T → run_pre t T ops → tags_inv (run t T ops).1 (run t T ops).2.
Proof.
  revert t T. induction ops as [|op ops IH]; intros t T Hinv; simpl; [done|].
  intros [Hpre Hrun]. pose proof (settle_inv t T op Hinv Hpre) as Hstep.
  destruct (settle t T op) as [t' T']. by apply IH.
Qed.

Lemma empty_inv d :
  (∀ k, starts_with k TAG_INDEX_PREFIX = true → db_view d !! k = None) →
  tags_inv (tag_index_new d) ∅.
Proof.
  intros Hd. split.
  - intros k Hk. unfold view. simpl. rewrite Hd by done. intros i. unfold carries, tags_of.
    rewrite lookup_empty. simpl. rewrite index_keys_of_empty. apply not_elem_of_nil.
  - intros i key n. unfold tags_of. by rewrite lookup_empty.
Qed.

(** ** Queries *)

(** What the index answers to a condition: with lists, equality is a common item;
    with numbers it compares the bits; and an empty list leaves no trace. Where
    this is what the operators are documented to mean is [cond_matches_holds]. *)
Definition eq_matches (v value : TagValue) : bool :=
  match v, value with
  | Text s, Text s' => bool_decide (s = s')
  | Number n, Number n' => n =? n'
  | Boolean b, Boolean b' => bool_decide (b = b')
  | TextList l, TextList l' => bool_decide (Exists (λ s, s ∈ l) l')
  | _, _ => false
  end.

Definition cond_matches (tags : Tags) (cond : TagCondition) : bool :=
  match tags !! c_key cond with
  | None => false
  | Some v =>
      match c_op cond with
      | OpEq => eq_matches v (c_value cond)
      | OpExists => match v with TextList [] => false | _ => true end
      | OpContains =>
          match v, c_value cond with
          | TextList l, Text needle => bool_decide (needle ∈ l)
          | _, _ => false
          end
      | op =>
          match v, c_value cond with
          | Number n, Number threshold => op_matches op n threshold
          | _, _ => false
          end
      end
  end.

(** Equality of tag values: the derived [PartialEq], IEEE equality on numbers. *)
Definition f64b_eq (x y : f64_bits) : bool :=
  match f64b_partial_cmp x y with Some Eq => true | _ => false end.

Definition tag_value_eq (v value : TagValue) : bool :=
  match v, value with
  | Text s, Text s' => bool_decide (s = s')
  | Number n, Number n' => f64b_eq n n'
  | Boolean b, Boolean b' => bool_decide (b = b')
  | TextList l, TextList l' => bool_decide (l = l')
  | _, _ => false
  end.

(** What the operators are documented to mean: equality for all types, presence
    of the key with any value, an item of a list, numeric comparison. *)
Definition cond_holds (tags : Tags) (cond : TagCondition) : bool :=
  match tags !! c_key cond with
  | None => false
  | Some v =>
      match c_op cond, v, c_value cond with
      | OpEq, v, value => tag_value_eq v value
      | OpExists, _, _ => true
      | OpContains, TextList l, Text needle => bool_decide (needle ∈ l)
      | OpContains, _, _ => false
      | op, Number n, Number threshold => op_matches op n threshold
      | _, _, _ => false
      end
  end.

(** What a filter says of a vector, within a universe, given what its
    conditions say. *)
Fixpoint filter_says (P : Tags → TagCondition → bool) (U : option (gset Z)) (i : Z) (tags : Tags)
    (f : TagFilter) : bool :=
  match f with
  | And [] => match U with Some U => bool_decide (i ∈ U) | None => false end
  | And fs => forallb (filter_says P U i tags) fs
  | Or fs => existsb (filter_says P U i tags) fs
  | Not f =>
      match U with
      | Some U => bool_decide (i ∈ U) && negb (filter_says P (Some U) i tags f)
      | None => false
      end
  | Condition cond => P tags cond
  end.

Lemma scan_fold_cut {A} pre (f : A → string → string → A) xs e rest ys acc r :
  scan_fold pre f (xs ++ Err e :: rest) acc = Ok r → scan_fold pre f (xs ++ ys) acc = Ok r.
Proof.
  revert acc. induction xs as [|[[k v]|e'] xs IH]; intros acc; simpl; [done| |done].
  destruct (starts_with k pre); [apply IH|done].
Qed.

Lemma scan_fold_ok {A} pre (f : A → string → string → A) es acc :
  scan_fold pre f (Ok <$> es) acc
  = Ok (foldl (λ acc kv, f acc kv.1 kv.2) acc
          (take_while (λ kv : KV, starts_with kv.1 pre) es)).
Proof.
  revert acc. induction es as [|[k v] es IH]; intros acc; simpl; [done|].
  destruct (starts_with k pre); [apply IH|done].
Qed.

(** A loop over a prefix folds exactly the entries with that prefix. *)
Lemma scan_fold_spec {A} d pre (f : A → string → string → A) acc r :
  scan_fold pre f (db_prefix_iterator d pre) acc = Ok r →
  r = foldl (λ acc kv, f acc kv.1 kv.2) acc (entries_with_prefix (db_view d) pre).
Proof.
  intros Hs. pose proof (db_prefix_iterator_ok d pre) as Hit.
  assert (scan_fold pre f (Ok <$> entries_from (db_view d) pre) acc = Ok r) as E.
  { destruct Hit as [Hit|(n & e & rest & Hit)]; rewrite Hit in Hs; [done|].
    rewrite <-(take_drop n (entries_from _ _)), fmap_app. by eapply scan_fold_cut. }
  rewrite scan_fold_ok, prefix_leads_all in E. by injection E as <-.
Qed.

Lemma or_value_set acc v i P :
  entry_ok (Some v) P → i ∈ rb_set (or_value acc v) ↔ i ∈ rb_set acc ∨ P i.
Proof.
  intros (b & Hb & _ & HP). unfold or_value. rewrite Hb, rb_or_set, elem_of_union. by rewrite HP.
Qed.

Lemma exists_cons {A} (Q : A → Prop) x l :
  (∃ y, y ∈ x :: l ∧ Q y) ↔ Q x ∨ ∃ y, y ∈ l ∧ Q y.
Proof.
  setoid_rewrite elem_of_cons. split.
  - intros (y & [-> | Hy] & HQ); [by left|right; by exists y].
  - intros [HQ|(y & Hy & HQ)]; [exists x|exists y]; auto.
Qed.

(** The union of the entries under a prefix whose key passes a test. *)
Lemma scan_union t T pre (P : string → bool) (f : B → string → string → B) acc r :
  tag_wf (view t) T → (∀ k, starts_with k pre = true → starts_with k TAG_INDEX_PREFIX = true) →
  (∀ acc k v, f acc k v = if P k then or_value acc v else acc) →
  scan_fold pre f (db_prefix_iterator (ti_db t) pre) acc = Ok r →
  ∀ i, i ∈ rb_set r
  ↔ i ∈ rb_set acc ∨ ∃ k, starts_with k pre = true ∧ P k = true ∧ carries T i k.
Proof.
  intros Hwf Hpre Hf ->%scan_fold_spec i. change (db_view (ti_db t)) with (view t).
  assert (∀ l acc, (∀ kv, kv ∈ l → view t !! kv.1 = Some kv.2 ∧ starts_with kv.1 pre = true) →
    i ∈ rb_set (foldl (λ acc kv, f acc kv.1 kv.2) acc l)
    ↔ i ∈ rb_set acc ∨ ∃ kv : KV, kv ∈ l ∧ P kv.1 = true ∧ carries T i kv.1) as Hl.
  { induction l as [|[k v] l IH]; intros a Hin; simpl.
    { split; [by left|]. intros [?|(? & []%elem_of_nil & _)]; done. }
    destruct (Hin (k, v)) as [Hv Hk]; [set_solver|]. simpl in *. rewrite IH by set_solver.
    rewrite exists_cons, Hf. simpl. destruct (P k).
    - specialize (Hwf k (Hpre k Hk)). rewrite Hv in Hwf. rewrite (or_value_set _ _ _ _ Hwf).
      tauto.
    - intuition congruence. }
  rewrite Hl.
  2:{ intros [k v] ?%elem_of_entries_with_prefix. done. }
  apply or_iff_compat_l. split.
  - intros ([k v] & (_ & ?)%elem_of_entries_with_prefix & ? & ?). eauto.
  - intros (k & Hk & HP & Hc). specialize (Hwf k (Hpre k Hk)).
    destruct (view t !! k) as [v|] eqn:E; [|by destruct (Hwf i)].
    exists (k, v). by rewrite elem_of_entries_with_prefix.
Qed.

Lemma tag_prefix s k : starts_with k ("tag:" +:+ s) = true → starts_with k TAG_INDEX_PREFIX = true.
Proof.
  rewrite !starts_with_spec. intros [s' ->]. exists (s +:+ s'). by rewrite app_assoc_str.
Qed.

(** The vectors with an entry of a type under a tag key. *)
Lemma carries_prefix T i tp key (P : string → bool) :
  no_colon tp →
  (∃ k, starts_with k ("tag:" +:+ tp +:+ ":" +:+ escape_key_component key +:+ ":") = true
        ∧ P k = true ∧ carries T i k)
  ↔ ∃ v s, tags_of T i !! key = Some v ∧ type_name v = tp ∧ s ∈ components v
           ∧ P (index_key tp key s) = true.
Proof.
  intros Htp. split.
  - intros (k & Hk & HP & Hc). unfold carries in Hc.
    apply elem_of_index_keys in Hc as (key' & v & s & Hv & Hs & ->).
    apply index_key_prefix in Hk as [<- <-]; [|auto with akidb..]. eauto 10.
  - intros (v & s & Hv & Htn & Hs & HP). exists (index_key tp key s).
    rewrite index_key_prefix by done. split_and!; [done..|].
    unfold carries. apply index_key_carried; eauto.
Qed.

Lemma exists_query_spec t T key r :
  tag_wf (view t) T → exists_query t key = Ok r →
  ∀ i, i ∈ rb_set r ↔ ∃ v, tags_of T i !! key = Some v ∧ components v ≠ [].
Proof.
  intros Hwf Hr i. unfold exists_query in Hr.
  assert (∀ tps acc, Forall no_colon tps →
    foldl (exists_type t key) acc tps = Ok r →
    ∃ a, acc = Ok a ∧ (i ∈ rb_set r ↔ i ∈ rb_set a ∨
      ∃ v s, tags_of T i !! key = Some v ∧ type_name v ∈ tps ∧ s ∈ components v)) as Hl.
  { induction tps as [|tp tps IH]; intros acc Htps; simpl.
    { intros ->. exists r. split; [done|]. split; [by left|].
      intros [?|(? & ? & _ & []%elem_of_nil & _)]; done. }
    apply Forall_cons in Htps as [Htp Htps]. intros (a & Ha & Hi)%IH; [|done].
    unfold exists_type in Ha. apply bind_ok in Ha as (a' & -> & Ha). exists a'. split; [done|].
    rewrite Hi, (scan_union t T _ (λ _, true) _ _ _ Hwf (tag_prefix _) (λ _ _ _, eq_refl) Ha).
    rewrite carries_prefix by done. setoid_rewrite elem_of_cons. naive_solver. }
  destruct (Hl ["txt"; "num"; "bool"; "lst"] (Ok rb_new)) as (a & [=] & Hi); [|exact Hr|].
  { apply Forall_forall. intros tp. apply type_prefix_no_colon. }
  subst a. rewrite Hi, rb_new_set. split.
  - intros [[]%not_elem_of_empty|(v & s & Hv & _ & Hs)]. exists v. split; [done|].
    intros E. rewrite E in Hs. by apply elem_of_nil in Hs.
  - intros (v & Hv & Hne). right. destruct (components v) as [|s l] eqn:E; [done|].
    exists v, s. rewrite E. split_and!; [done|apply type_name_elem|by left].
Qed.

Lemma range_query_spec t T key threshold op r :
  tag_wf (view t) T → typed T → range_query t key threshold op = Ok r →
  ∀ i, i ∈ rb_set r
  ↔ ∃ n, tags_of T i !! key = Some (Number n) ∧ op_matches op n threshold = true.
Proof.
  intros Hwf Hty Hr i. unfold range_query in Hr.
  set (pre := "tag:num:" +:+ escape_key_component key +:+ ":") in *.
  assert (pre = "tag:" +:+ "num" +:+ ":" +:+ escape_key_component key +:+ ":") as Epre by done.
  set (P := λ k, match decode_hex_f64 (str_drop (String.length pre) k) with
                 | Some n => op_matches op n threshold | None => false end).
  assert (∀ n, 0 ≤ n < 2 ^ 64 →
    P (index_key "num" key (hex_string (encode_f64_sortable n))) = op_matches op n threshold) as HP.
  { intros n Hn. unfold P.
    assert (∀ s, index_key "num" key s = pre +:+ escape_key_component s) as E.
    { intros s. unfold index_key. rewrite Epre, !app_assoc_str. done. }
    rewrite E, str_drop_app, escape_hex by apply encode_bytes. by rewrite decode_hex_encode. }
  rewrite (scan_union t T pre P (range_step pre threshold op) rb_new r Hwf); [|..|exact Hr].
  2:{ rewrite Epre. apply tag_prefix. }
  2:{ intros acc k v. unfold range_step, P. by destruct (decode_hex_f64 _). }
  rewrite rb_new_set, Epre, carries_prefix by apply (type_name_no_colon (Number 0)).
  split.
  - intros [[]%not_elem_of_empty|(v & s & Hv & Htn & Hs & Hm)].
    destruct v as [|n| |]; try done. exists n. split; [done|].
    apply list_elem_of_singleton in Hs as ->. rewrite HP in Hm; [done|by eapply Hty].
  - intros (n & Hv & Hm). right. eexists _, _. split_and!; [exact Hv|done|by left|].
    rewrite HP; [done|by eapply Hty].
Qed.

Definition value_typed (v : TagValue) : Prop :=
  match v with Number n => 0 ≤ n < 2 ^ 64 | _ => True end.

Fixpoint filter_typed (f : TagFilter) : Prop :=
  match f with
  | And fs | Or fs => foldr (λ f P, filter_typed f ∧ P) True fs
  | Not f => filter_typed f
  | Condition cond => value_typed (c_value cond)
  end.

Lemma hex_encode_inj n n' :
  0 ≤ n < 2 ^ 64 → 0 ≤ n' < 2 ^ 64 →
  hex_string (encode_f64_sortable n) = hex_string (encode_f64_sortable n') → n = n'.
Proof.
  intros Hn Hn' E. apply (f_equal decode_hex_f64) in E.
  rewrite !decode_hex_encode in E by done. by injection E.
Qed.

(** Equality is a common indexed value of the same type. *)
Lemma eq_matches_spec v value :
  value_typed v → value_typed value →
  eq_matches v value = true
  ↔ type_name v = type_name value ∧ ∃ s, s ∈ components value ∧ s ∈ components v.
Proof.
  intros Hv Hv'. destruct v as [s|n|b|l], value as [s'|n'|b'|l'];
    cbn [eq_matches type_name components] in *;
    try (split; [discriminate|intros [[=] _]]); setoid_rewrite list_elem_of_singleton || idtac.
  - rewrite bool_decide_eq_true. naive_solver.
  - rewrite Z.eqb_eq. split; [intros ->; eauto|]. intros (_ & s & -> & E).
    apply hex_encode_inj; auto.
  - rewrite bool_decide_eq_true. split; [intros ->; eauto|]. intros (_ & s & -> & E).
    by destruct b, b'.
  - rewrite bool_decide_eq_true, Exists_exists. naive_solver.
Qed.

Lemma or_keys_spec t T keys acc r i :
  tag_wf (view t) T → Forall (λ k, starts_with k TAG_INDEX_PREFIX = true) keys →
  foldl (or_key t) acc keys = Ok r →
  ∃ a, acc = Ok a ∧ (i ∈ rb_set r ↔ i ∈ rb_set a ∨ ∃ k, k ∈ keys ∧ carries T i k).
Proof.
  intros Hwf. revert acc. induction keys as [|k keys IH]; intros acc Hk; simpl.
  { intros ->. exists r. split; [done|]. split; [by left|].
    intros [?|(? & []%elem_of_nil & _)]; done. }
  apply Forall_cons in Hk as [Hk Hks]. intros (a & Ha & Hi)%IH; [|done].
  unfold or_key in Ha. apply bind_ok in Ha as (a' & -> & (b & Hb & Ha)%bind_ok).
  exists a'. split; [done|]. injection Ha as <-. rewrite Hi, exists_cons, rb_or_set, elem_of_union.
  rewrite (get_bitmap_spec t T k b Hwf Hk Hb). tauto.
Qed.

Lemma components_nil v : components v = [] ↔ v = TextList [].
Proof. destruct v as [| | |[]]; split; intros E; discriminate E || reflexivity. Qed.

Lemma new_set_false r i (b : bool) : Ok rb_new = Ok (E:=AkiDbError) r → b = false → i ∈ rb_set r ↔ b = true.
Proof. intros [= <-] ->. rewrite rb_new_set. split; [by intros ?%not_elem_of_empty|discriminate]. Qed.

Lemma eq_query_spec t T key value r i :
  tag_wf (view t) T → typed T → value_typed value →
  foldl (or_key t) (Ok rb_new) (tag_to_index_keys key value) = Ok r →
  i ∈ rb_set r ↔ ∃ v, tags_of T i !! key = Some v ∧ eq_matches v value = true.
Proof.
  intros Hwf Hty Hv Hr.
  destruct (or_keys_spec t T (tag_to_index_keys key value) (Ok rb_new) r i Hwf)
    as (a & [=] & ->); [|exact Hr|].
  { rewrite tag_to_index_keys_components. apply Forall_fmap, Forall_forall.
    intros s _. apply index_key_tag. }
  subst a. rewrite rb_new_set, tag_to_index_keys_components. unfold carries.
  assert (∀ v, tags_of T i !! key = Some v → value_typed v) as Htyv.
  { intros v E. specialize (Hty i key). destruct v; simpl; auto. }
  split.
  - intros [[]%not_elem_of_empty|(k & (s & -> & Hs)%list_elem_of_fmap & Hk)].
    apply index_key_carried in Hk as (v' & Hv' & ? & ?); [|apply type_name_no_colon].
    exists v'. split; [exact Hv'|]. apply eq_matches_spec; eauto.
  - intros (v & E & (Htn & s & Hs & Hs')%eq_matches_spec); [|by eauto..]. right.
    exists (index_key (type_name value) key s).
    split; [by apply list_elem_of_fmap_2|]. apply index_key_carried; [apply type_name_no_colon|eauto].
Qed.

Lemma range_condition_spec t T key value op r i :
  tag_wf (view t) T → typed T →
  match value with
  | Number threshold =>
      if f64b_is_nan threshold then
        Err (InvalidParameter "Range query threshold cannot be NaN")
      else if f64b_is_infinite threshold then
        Err (InvalidParameter "Range query threshold cannot be infinite")
      else range_query t key threshold op
  | _ => Ok rb_new
  end = Ok r →
  i ∈ rb_set r
  ↔ match tags_of T i !! key with
    | Some v => match v, value with
                | Number n, Number threshold => op_matches op n threshold
                | _, _ => false
                end
    | None => false
    end = true.
Proof.
  intros Hwf Hty. destruct value as [s|threshold|b|l];
    try (intros Hr; apply new_set_false; [exact Hr|by destruct (tags_of T i !! key) as [[]|]]).
  destruct (f64b_is_nan threshold); [discriminate|].
  destruct (f64b_is_infinite threshold); [discriminate|]. intros Hr.
  rewrite (range_query_spec t T key threshold op r Hwf Hty Hr).
  destruct (tags_of T i !! key) as [[]|]; split; try discriminate; eauto;
    intros (? & [=] & ?); by subst.
Qed.

Lemma evaluate_condition_spec t T cond r i :
  tag_wf (view t) T → typed T → value_typed (c_value cond) → evaluate_condition t cond = Ok r →
  i ∈ rb_set r ↔ cond_matches (tags_of T i) cond = true.
Proof.
  intros Hwf Hty Hv. unfold evaluate_condition, cond_matches. destruct (c_op cond);
    try (apply range_condition_spec; assumption).
  - intros Hr. rewrite (eq_query_spec t T _ _ r i Hwf Hty Hv Hr).
    destruct (tags_of T i !! c_key cond) as [v|]; split.
    + by intros (v' & [= <-] & ?).
    + eauto.
    + by intros (v' & [=] & ?).
    + discriminate.
  - destruct (c_value cond) as [needle| | |];
      try (intros Hr; apply new_set_false; [exact Hr|by destruct (tags_of T i !! c_key cond) as [[]|]]).
    intros Hr. rewrite (get_bitmap_spec t T _ r Hwf (index_key_tag _ _ _) Hr).
    unfold carries. rewrite index_key_carried by apply (type_name_no_colon (TextList [])).
    destruct (tags_of T i !! c_key cond) as [v|]; [|split; [by intros (? & [=] & _)|discriminate]].
    split.
    + intros (v' & [= <-] & Htn & Hs). destruct v; try discriminate Htn. by apply bool_decide_eq_true.
    + destruct v as [| | |l]; try discriminate. intros Hs%bool_decide_eq_true. by exists (TextList l).
  - intros Hr. rewrite (exists_query_spec t T _ r Hwf Hr).
    destruct (tags_of T i !! c_key cond) as [v|]; [|split; [by intros (? & [=] & _)|discriminate]].
    split.
    + intros (v' & [= <-] & Hne). rewrite components_nil in Hne.
      destruct v as [| | |[]]; try reflexivity. by destruct Hne.
    + intros Hm. exists v. split; [reflexivity|]. rewrite components_nil. intros ->. discriminate.
Qed.

Definition filter_spec t T (univ : option B) (f : TagFilter) : Prop :=
  ∀ r i, filter_typed f → evaluate_filter t univ f = Ok r →
  i ∈ rb_set r ↔ filter_says cond_matches (rb_set <$> univ) i (tags_of T i) f = true.

Lemma conjoin_spec t T univ fs acc r i :
  Forall (filter_spec t T univ) fs → foldr (λ f P, filter_typed f ∧ P) True fs →
  conjoin t univ fs acc = Ok r →
  i ∈ rb_set r
  ↔ i ∈ rb_set acc ∧ forallb (filter_says cond_matches (rb_set <$> univ) i (tags_of T i)) fs = true.
Proof.
  intros Hfs. revert acc. induction Hfs as [|f fs Hf _ IH]; intros acc; simpl.
  { intros _ [= <-]. tauto. }
  intros [Hft Hfts]. destruct (rb_is_empty acc) eqn:E.
  - intros [= <-]. apply rb_is_empty_set in E. rewrite E. split; [|tauto].
    intros ?%not_elem_of_empty. tauto.
  - intros (b & Hb & Hr)%bind_ok. rewrite (IH _ Hfts Hr), rb_and_set, elem_of_intersection.
    rewrite (Hf b i Hft Hb), andb_true_iff. tauto.
Qed.

Lemma disjoin_spec t T univ fs acc r i :
  Forall (filter_spec t T univ) fs → foldr (λ f P, filter_typed f ∧ P) True fs →
  disjoin t univ fs acc = Ok r →
  i ∈ rb_set r
  ↔ i ∈ rb_set acc ∨ existsb (filter_says cond_matches (rb_set <$> univ) i (tags_of T i)) fs = true.
Proof.
  intros Hfs. revert acc. induction Hfs as [|f fs Hf _ IH]; intros acc; simpl.
  { intros _ [= <-]. intuition discriminate. }
  intros [Hft Hfts] (b & Hb & Hr)%bind_ok. rewrite (IH _ Hfts Hr), rb_or_set, elem_of_union.
  rewrite (Hf b i Hft Hb), orb_true_iff. tauto.
Qed.

(** A query that returns, returns exactly the vectors whose tags match. *)
Lemma evaluate_filter_spec t T univ f : tags_inv t T → filter_spec t T univ f.
Proof.
  intros [Hwf Hty]. induction f as [fs Hfs|fs Hfs|f Hf|cond] using filter_ind; intros r i Hft Hr.
  - destruct fs as [|f fs].
    { simpl in *. destruct univ as [u|]; simpl; injection Hr as <-.
      - by rewrite bool_decide_eq_true.
      - rewrite rb_new_set. split; [by intros ?%not_elem_of_empty|discriminate]. }
    rewrite evaluate_and in Hr. apply bind_ok in Hr as (a & Ha & Hr).
    apply Forall_cons in Hfs as [Hf Hfs]. destruct Hft as [Hft Hfts].
    rewrite (conjoin_spec t T univ fs a r i Hfs Hfts Hr), (Hf a i Hft Ha).
    cbn [filter_says cond_matches forallb]. by rewrite andb_true_iff.
  - rewrite evaluate_or in Hr. rewrite (disjoin_spec t T univ fs rb_new r i Hfs Hft Hr), rb_new_set.
    cbn [filter_says cond_matches]. split; [by intros [?%not_elem_of_empty|?]|auto].
  - simpl in Hr. apply bind_ok in Hr as (a & Ha & Hr). destruct univ as [u|]; [|discriminate].
    injection Hr as <-. rewrite rb_sub_set, elem_of_difference, (Hf a i Hft Ha). simpl.
    rewrite andb_true_iff, bool_decide_eq_true, negb_true_iff.
    by rewrite not_true_iff_false.
  - by apply (evaluate_condition_spec t T).
Qed.

(** *** Queries that return *)

(** A store whose reads do not fail. *)
Class RocksDBReliable := {
  reliable_db_get (d : D) k : is_ok (db_get d k) = true;
  reliable_db_write (d : D) sync ops : is_ok (db_write d sync ops).1 = true;
  reliable_db_prefix (d : D) pre : Forall (λ r, is_ok r = true) (db_prefix_iterator d pre);
}.

(** The thresholds of range conditions are finite. *)
Definition cond_finite (cond : TagCondition) : bool :=
  match c_op cond, c_value cond with
  | (OpGt | OpLt | OpGte | OpLte), Number n => negb (f64b_is_nan n) && negb (f64b_is_infinite n)
  | _, _ => true
  end.

Fixpoint filter_finite (f : TagFilter) : bool :=
  match f with
  | And fs | Or fs => forallb filter_finite fs
  | Not f => filter_finite f
  | Condition cond => cond_finite cond
  end.

Lemma scan_fold_total {A} `{!RocksDBReliable} d pre (f : A → string → string → A) acc :
  ∃ r, scan_fold pre f (db_prefix_iterator d pre) acc = Ok r.
Proof.
  rewrite (iterates_no_error _ _ (db_prefix_iterator_ok d pre) (reliable_db_prefix d pre)).
  rewrite scan_fold_ok. eauto.
Qed.

Lemma get_bitmap_total `{!RocksDBReliable} t T k :
  tag_wf (view t) T → starts_with k TAG_INDEX_PREFIX = true → ∃ b, get_bitmap (B:=B) t k = Ok b.
Proof.
  intros Hwf Hk. specialize (Hwf k Hk). unfold get_bitmap, view in *.
  pose proof (reliable_db_get (ti_db t) k) as Hok.
  destruct (db_get (ti_db t) k) as [v|] eqn:E; [|discriminate]. apply db_get_ok in E as ->.
  destruct (db_view (ti_db t) !! k) as [v|]; [|eauto]. destruct Hwf as (b & -> & _). eauto.
Qed.

Lemma or_keys_total `{!RocksDBReliable} t T keys acc :
  tag_wf (view t) T → Forall (λ k, starts_with k TAG_INDEX_PREFIX = true) keys →
  ∃ r, foldl (or_key (B:=B) t) (Ok acc) keys = Ok r.
Proof.
  intros Hwf Hk. revert acc. induction Hk as [|k keys Hk _ IH]; intros acc; simpl; [eauto|].
  destruct (get_bitmap_total t T k Hwf Hk) as [b ->]. simpl. apply IH.
Qed.

Lemma evaluate_condition_total `{!RocksDBReliable} t T cond :
  tag_wf (view t) T → cond_finite cond = true → ∃ r, evaluate_condition (B:=B) t cond = Ok r.
Proof.
  intros Hwf Hfin. unfold evaluate_condition, cond_finite in *.
  destruct (c_op cond);
    try (destruct (c_value cond) as [|n| |]; try (by eexists);
         apply andb_true_iff in Hfin as [->%negb_true_iff ->%negb_true_iff]; apply scan_fold_total).
  - apply (or_keys_total t T); [done|]. rewrite tag_to_index_keys_components.
    apply Forall_fmap, Forall_forall. intros s _. apply index_key_tag.
  - destruct (c_value cond); try (by eexists).
    apply (get_bitmap_total t T); [done|apply index_key_tag].
  - unfold exists_query. generalize ["txt"; "num"; "bool"; "lst"]. generalize (rb_new (B:=B)).
    intros b tps. revert b. induction tps as [|tp tps IH]; intros b; simpl; [eauto|].
    destruct (scan_fold_total (ti_db t) ("tag:" +:+ tp +:+ ":" +:+ escape_key_component (c_key cond) +:+ ":")
      (λ result _ value, or_value result value) b) as [r Hr].
    rewrite Hr. apply IH.
Qed.

Lemma evaluate_filter_total `{!RocksDBReliable} t T univ f :
  tag_wf (view t) T → filter_finite f = true →
  (univ = None → filter_contains_not f = false) →
  ∃ r, evaluate_filter (B:=B) t univ f = Ok r.
Proof.
  intros Hwf. induction f as [fs Hfs|fs Hfs|f Hf|cond] using filter_ind; intros Hfin Hnot.
  - destruct fs as [|f fs]; [simpl; destruct univ; eauto|]. rewrite evaluate_and. simpl in *.
    apply andb_true_iff in Hfin as [Hfin Hfins]. apply Forall_cons in Hfs as [Hf Hfs].
    destruct Hf as [b ->]; [done|intros ->; by destruct (orb_false_elim _ _ (Hnot eq_refl))|].
    assert (univ = None → existsb filter_contains_not fs = false) as Hnots.
    { intros ->. by destruct (orb_false_elim _ _ (Hnot eq_refl)). }
    simpl. clear Hnot. revert b. induction Hfs as [|f' fs Hf' _ IH]; intros b; simpl in *; [eauto|].
    apply andb_true_iff in Hfins as [Hfin' Hfins].
    destruct (rb_is_empty b); [eauto|].
    destruct Hf' as [b' ->]; [done|intros ->; by destruct (orb_false_elim _ _ (Hnots eq_refl))|].
    simpl. apply IH; [done|]. intros ->. by destruct (orb_false_elim _ _ (Hnots eq_refl)).
  - rewrite evaluate_or. simpl in *. generalize (rb_new (B:=B)) as b.
    induction Hfs as [|f' fs Hf' _ IH]; intros b; simpl in *; [eauto|].
    apply andb_true_iff in Hfin as [Hfin' Hfins].
    destruct Hf' as [b' ->]; [done|intros ->; by destruct (orb_false_elim _ _ (Hnot eq_refl))|].
    simpl. apply IH; [done|]. intros ->. by destruct (orb_false_elim _ _ (Hnot eq_refl)).
  - simpl in *. destruct univ as [u|]; [|by specialize (Hnot eq_refl)].
    destruct Hf as [b ->]; [done|done|]. simpl. eauto.
  - by apply (evaluate_condition_total t T).
Qed.

Definition index_empty (d : D) : Prop :=
  ∀ k, starts_with k TAG_INDEX_PREFIX = true → db_view d !! k = None.

(** After any sequence of additions, removals and updates that keep their
    contract, write failures included, every entry of the index is exactly the set
    of vectors that carry its value, and no entry is empty. *)
Lemma tag_index_invariant d ops :
  index_empty d → run_pre (tag_index_new d) ∅ ops →
  tag_wf (view (run (tag_index_new d) ∅ ops).1) (run (tag_index_new d) ∅ ops).2.
Proof. intros Hd Hpre. by apply tag_run_inv; [apply empty_inv|]. Qed.

(** After any such sequence a query within a universe returns, and the bitmap it
    returns is exactly the set of vectors whose tags satisfy the filter as the
    index understands its conditions. *)
Lemma tag_query_spec `{!RocksDBReliable} d ops f univ :
  index_empty d → run_pre (tag_index_new d) ∅ ops → filter_typed f → filter_finite f = true →
  ∃ b : B, query_with_universe (run (tag_index_new d) ∅ ops).1 f univ = Ok b ∧
  ∀ i, i ∈ rb_set b ↔ filter_says cond_matches (Some (rb_set univ)) i
                        (tags_of (run (tag_index_new d) ∅ ops).2 i) f = true.
Proof.
  intros Hd Hpre Hty Hfin. pose proof (tag_run_inv _ _ ops (empty_inv d Hd) Hpre) as Hinv.
  unfold query_with_universe.
  destruct (evaluate_filter_total _ _ (Some univ) f (proj1 Hinv) Hfin) as [b Hb]; [done|].
  exists b. split; [done|]. intros i. by apply (evaluate_filter_spec _ _ (Some univ) f Hinv b i).
Qed.

(** *** Where the index agrees with the documented operators *)

(** The tags handed to the index are valid. *)
Definition op_valid (op : TagOp) : Prop :=
  match op with
  | AddOp _ tags | UpdateOp _ _ tags => tags_validate tags = Ok tt
  | RemoveOp _ _ => True
  end.

Definition lists_filled (tags : Tags) : Prop := ∀ key, tags !! key ≠ Some (TextList []).

Lemma valid_lists_filled tags : tags_validate tags = Ok tt → lists_filled tags.
Proof. intros [_ Hv]%tags_validate_ok key Hk. by destruct (Hv _ _ Hk) as [_ [? _]]. Qed.

Lemma run_lists_filled t T ops :
  (∀ i, lists_filled (tags_of T i)) → Forall op_valid ops →
  ∀ i, lists_filled (tags_of (run t T ops).2 i).
Proof.
  intros HT Hops. revert t T HT. induction Hops as [|op ops Hop _ IH]; intros t T HT; [done|].
  cbn [run]. unfold settle. destruct (run_op t op) as [r t']. apply IH.
  assert (∀ i, lists_filled (tags_of (op_effect T op) i)) as He.
  { intros i. destruct op; simpl; rewrite tags_of_insert; case_decide; try apply HT;
      first [by apply valid_lists_filled|by intros k; rewrite lookup_empty]. }
  destruct r; [exact He|]. case_bool_decide; [exact HT|exact He].
Qed.

(** Equality with a list, with a zero or with a NaN is not what it is documented
    to be. *)
Definition cond_plain (cond : TagCondition) : bool :=
  match c_op cond, c_value cond with
  | OpEq, TextList _ => false
  | OpEq, Number n => negb (f64b_is_nan n) && negb (f64b_mag n =? 0)
  | _, _ => true
  end.

Fixpoint filter_plain (f : TagFilter) : bool :=
  match f with
  | And fs | Or fs => forallb filter_plain fs
  | Not f => filter_plain f
  | Condition cond => cond_plain cond
  end.

Lemma f64b_eq_bits x y :
  0 ≤ x < 2 ^ 64 → 0 ≤ y < 2 ^ 64 → f64b_is_nan y = false → f64b_mag y ≠ 0 →
  f64b_eq x y = (x =? y).
Proof.
  intros Hx Hy Hn Hm. unfold f64b_eq, f64b_partial_cmp. rewrite Hn, orb_false_r.
  destruct (f64b_is_nan x) eqn:Ex.
  { symmetry. apply Z.eqb_neq. intros ->. congruence. }
  destruct (Z.eqb_spec x y) as [->|Hne]; [by rewrite Z.compare_refl|].
  destruct (Z.compare_spec (f64b_key x) (f64b_key y)) as [E| |]; [|done|done].
  destruct Hne. unfold f64b_key, f64b_neg, f64b_mag in *.
  pose proof (Z.div_mod x (2 ^ 63) ltac:(lia)). pose proof (Z.div_mod y (2 ^ 63) ltac:(lia)).
  pose proof (Z.mod_pos_bound x (2 ^ 63) ltac:(lia)). pose proof (Z.mod_pos_bound y (2 ^ 63) ltac:(lia)).
  destruct (Z.leb_spec (2 ^ 63) x), (Z.leb_spec (2 ^ 63) y); lia.
Qed.

Lemma cond_matches_holds tags cond :
  lists_filled tags → tags_typed tags → value_typed (c_value cond) → cond_plain cond = true →
  cond_matches tags cond = cond_holds tags cond.
Proof.
  intros Hl Hty Hv Hp. unfold cond_matches, cond_holds, cond_plain in *.
  destruct (tags !! c_key cond) as [v|] eqn:Ev; [|done].
  destruct (c_op cond); try (by destruct v, (c_value cond)).
  - destruct v as [|n| |], (c_value cond) as [|n'| |]; try done. simpl in *.
    apply andb_true_iff in Hp as [Hn%negb_true_iff Hm%negb_true_iff].
    rewrite f64b_eq_bits; [done|by eapply Hty|done|done|]. by apply Z.eqb_neq.
  - destruct v as [| | |[|]]; try done. by destruct (Hl (c_key cond)).
Qed.

Lemma bools_ext {A} (g h : A → bool) l :
  Forall (λ x, g x = h x) l → forallb g l = forallb h l ∧ existsb g l = existsb h l.
Proof. induction 1 as [|x l Hx _ [IH1 IH2]]; [done|]. simpl. by rewrite Hx, IH1, IH2. Qed.

Lemma filters_agree P P' U i tags fs :
  Forall (λ f, ∀ U, filter_typed f → filter_plain f = true →
            filter_says P U i tags f = filter_says P' U i tags f) fs →
  foldr (λ f Q, filter_typed f ∧ Q) True fs → forallb filter_plain fs = true →
  Forall (λ f, filter_says P U i tags f = filter_says P' U i tags f) fs.
Proof.
  induction 1 as [|f fs Hf _ IH]; [done|]. simpl. rewrite andb_true_iff.
  intros [??] [??]. constructor; auto.
Qed.

Lemma filter_says_holds U i tags f :
  lists_filled tags → tags_typed tags → filter_typed f → filter_plain f = true →
  filter_says cond_matches U i tags f = filter_says cond_holds U i tags f.
Proof.
  intros Hl Ht. revert U. induction f as [fs Hfs|fs Hfs|f Hf|cond] using filter_ind; intros U Hty Hp.
  - pose proof (filters_agree _ _ U i tags fs Hfs Hty Hp) as E. destruct fs; [done|].
    exact (proj1 (bools_ext _ _ _ E)).
  - exact (proj2 (bools_ext _ _ _ (filters_agree _ _ U i tags fs Hfs Hty Hp))).
  - simpl. destruct U as [U|]; [|done]. by rewrite Hf.
  - by apply cond_matches_holds.
Qed.

(** C30: the index refines the tags of the vectors. After any sequence of
    additions, removals and updates that keep their contract and hand over valid
    tags, write failures included, a query within a universe returns, and the
    bitmap it returns is exactly the set of vectors whose tags satisfy the filter
    as its operators are documented. The filter compares with finite thresholds
    and asks for equality with texts, booleans, and numbers other than zero and NaN. *)
Theorem tag_query_exact `{!RocksDBReliable} d ops f univ :
  index_empty d → run_pre (tag_index_new d) ∅ ops → Forall op_valid ops →
  filter_typed f → filter_finite f = true → filter_plain f = true →
  ∃ b : B, query_with_universe (run (tag_index_new d) ∅ ops).1 f univ = Ok b ∧
  ∀ i, i ∈ rb_set b ↔ filter_says cond_holds (Some (rb_set univ)) i
                        (tags_of (run (tag_index_new d) ∅ ops).2 i) f = true.
Proof.
  intros Hd Hpre Hval Hty Hfin Hpl.
  destruct (tag_query_spec d ops f univ Hd Hpre Hty Hfin) as (b & Hb & Hi).
  exists b. split; [done|]. intros i. rewrite Hi, filter_says_holds; [done| | |done|done].
  - apply run_lists_filled; [|done]. intros i' key. unfold tags_of. by rewrite lookup_empty.
  - by apply (tag_run_inv _ _ ops (empty_inv d Hd) Hpre).
Qed.

Lemma take_sorted_least (l : list Z) n x y :
  StronglySorted Z.lt l → x ∈ take n l → y ∈ l → y ∉ take n l → x < y.
Proof.
  intros Hs Hx Hy Hny. rewrite <-(take_drop n l) in Hs, Hy.
  apply elem_of_app in Hy as [?|Hy]; [done|].
  revert Hs Hx. generalize (take n l) as k. clear Hny. induction k as [|z k IH]; simpl.
  { by intros _ ?%elem_of_nil. }
  intros Hs. inversion_clear Hs as [|? ? Hs' Hall].
  intros [->|Hx]%elem_of_cons; [|by apply IH].
  rewrite Forall_forall in Hall. apply Hall. set_solver.
Qed.

(** A limited query without negations returns, in increasing order, the
    matching vectors with the smallest ids, and all of them when they fit. *)
Lemma query_ids_smallest `{!RocksDBReliable} t T f n :
  tags_inv t T → filter_typed f → filter_finite f = true → filter_contains_not f = false →
  ∃ ids, query_ids (B:=B) t f (Some n) = Ok ids ∧ StronglySorted Z.lt ids ∧
  (∀ i, i ∈ ids → filter_says cond_matches None i (tags_of T i) f = true) ∧
  (∀ i j, i ∈ ids → filter_says cond_matches None j (tags_of T j) f = true → j ∉ ids → i < j) ∧
  (Zlength ids < n → ∀ j, filter_says cond_matches None j (tags_of T j) f = true → j ∈ ids).
Proof.
  intros Hinv Hty Hfin Hnot.
  destruct (evaluate_filter_total t T None f (proj1 Hinv) Hfin) as [b Hb]; [done|].
  unfold query_ids, query. rewrite Hb. simpl.
  pose proof (rb_iter_sorted b) as Hs.
  assert (∀ i, i ∈ rb_iter b ↔ filter_says cond_matches None i (tags_of T i) f = true) as Hin.
  { intros i. rewrite rb_iter_set. by apply (evaluate_filter_spec t T None f Hinv b i). }
  eexists. split; [done|]. split_and!.
  - eapply StronglySorted_sublist; [apply sublist_take|done].
  - intros i Hi. apply Hin. rewrite <-(take_drop (Z.to_nat n) (rb_iter b)). set_solver.
  - intros i j Hi Hj%Hin Hnj. by eapply take_sorted_least.
  - intros Hlen j Hj%Hin. rewrite length_take in Hlen. by rewrite take_ge by lia.
Qed.

(** A negation asked without a universe is refused, whatever it negates, and
    so is a range condition whose threshold is not a finite number. *)
Lemma query_refusals `{!RocksDBReliable} t T f key n op :
  tag_wf (view t) T → filter_finite f = true → filter_contains_not f = false →
  op ∈ [OpGt; OpLt; OpGte; OpLte] → f64b_is_nan n || f64b_is_infinite n = true →
  query (B:=B) t (Not f) = Err not_error ∧
  ∀ univ, ∃ msg, evaluate_filter (B:=B) t univ (Condition (mkCondition key (Number n) op))
                 = Err (InvalidParameter msg).
Proof.
  intros Hwf Hfin Hnot Hop Hn. split.
  - destruct (evaluate_filter_total t T None f Hwf Hfin) as [b Hb];
      [intros _; exact Hnot|]. unfold query. simpl. rewrite Hb. reflexivity.
  - intros univ. cbn [evaluate_filter]. unfold evaluate_condition. cbn [c_op c_value c_key].
    assert ((if f64b_is_nan n then Err (InvalidParameter "Range query threshold cannot be NaN")
      else if f64b_is_infinite n
      then Err (InvalidParameter "Range query threshold cannot be infinite")
      else range_query t key n op) = Err (A:=B) (InvalidParameter
        (if f64b_is_nan n then "Range query threshold cannot be NaN"
         else "Range query threshold cannot be infinite"))) as E.
    { destruct (f64b_is_nan n); [reflexivity|]. cbn [orb] in Hn. rewrite Hn. reflexivity. }
    rewrite !elem_of_cons, elem_of_nil in Hop.
    destruct Hop as [-> |[-> |[-> |[-> |[]]]]]; rewrite E; eexists; reflexivity.
Qed.
End spec.

(** ** Bitmaps in memory

    The instance the witnesses run: a set of numbers, serialized as the binary
    digits of its code. *)

Fixpoint pos_string (p : positive) : string :=
  match p with
  | xH => ""
  | xO p => String "0" (pos_string p)
  | xI p => String "1" (pos_string p)
  end.

Fixpoint string_pos (s : string) : positive :=
  match s with
  | EmptyString => xH
  | String c s => if Ascii.eqb c "0" then xO (string_pos s) else xI (string_pos s)
  end.

Lemma string_pos_string p : string_pos (pos_string p) = p.
Proof. induction p; simpl; congruence. Qed.

#[global] Instance mem_roaring : Roaring (gset Z) := {
  rb_new := ∅;
  rb_insert i b := {[i]} ∪ b;
  rb_remove i b := b ∖ {[i]};
  rb_is_empty b := bool_decide (b = ∅);
  rb_or := union;
  rb_and := intersection;
  rb_sub := difference;
  rb_iter b := sort_by Z.compare (elements b);
  rb_len b := Z.of_nat (size b);
  rb_serialize b := Ok (pos_string (encode b));
  rb_deserialize s :=
    match decode (string_pos s) with Some b => Ok b | None => Err "not a bitmap" end;
}.

#[global] Program Instance mem_roaring_laws : RoaringLaws (gset Z) := { rb_set b := b }.
Next Obligation. done. Qed.
Next Obligation. done. Qed.
Next Obligation. done. Qed.
Next Obligation. intros b. apply bool_decide_eq_true. Qed.
Next Obligation. done. Qed.
Next Obligation. done. Qed.
Next Obligation. done. Qed.
Next Obligation.
  intros b. simpl. pose proof (sort_by_sorted Z.compare (elements b)) as Hs.
  assert (NoDup (sort_by Z.compare (elements b))) as Hnd.
  { rewrite (sort_by_perm Z.compare). apply NoDup_elements. }
  induction Hs as [|x l Hs IH Hall]; constructor; inversion_clear Hnd; auto.
  rewrite Forall_forall in Hall |- *. intros y Hy. specialize (Hall y Hy). unfold cmp_le in Hall.
  destruct (Z.compare_spec x y); [subst; done|done|done].
Qed.
Next Obligation. intros b i. simpl. rewrite elem_of_sort_by. apply elem_of_elements. Qed.
Next Obligation. done. Qed.
Next Obligation.
  intros b. simpl. eexists _, b. split; [done|]. rewrite string_pos_string, decode_encode.
  done.
Qed.

#[global] Instance mem_db_reliable : RocksDBReliable (D:=MemDB).
Proof.
  split; [done|done|]. intros d pre. simpl. apply Forall_fmap, Forall_forall. done.
Qed.

(** *** A concrete index *)

Module Example1.
(** The numbers 2.5, -2.0 and 0.0, -0.0. *)
Definition two_half : f64_bits := 4612811918334230528.
Definition minus_two : f64_bits := 13835058055282163712.
Definition zero : f64_bits := 0.
Definition minus_zero : f64_bits := 9223372036854775808.

Definition tags1 : Tags := <["lang" := Text "en"]> {["score" := Number two_half]}.
Definition tags2 : Tags := <["lang" := Text "de"]> {["score" := Number minus_two]}.
Definition tags3 : Tags := <["a:b%" := TextList ["x"; "y"]]> {["score" := Number zero]}.

Definition ops : list TagOp :=
  [AddOp 1 tags1; AddOp 2 tags2; AddOp 3 tags2; UpdateOp 3 tags2 tags3; RemoveOp 1 tags1;
   AddOp 1 tags1; AddOp (2 ^ 32) tags1].

Definition flt : TagFilter :=
  Or [And [filter_gt "score" minus_two; Not (filter_eq "lang" (Text "de"))];
      filter_contains "a:b%" "z"].

Definition db0 : MemDB := (∅ : gmap string string).
Definition start : TagIndex MemDB := tag_index_new db0.

Lemma start_empty : index_empty db0.
Proof. intros k _. reflexivity. Qed.

Definition tags_typedb (tags : Tags) : bool :=
  forallb (λ kv : string * TagValue,
    match kv.2 with Number n => (0 <=? n) && (n <? 2 ^ 64) | _ => true end) (map_to_list tags).

Lemma tags_typedb_ok tags : tags_typedb tags = true → tags_typed tags.
Proof.
  unfold tags_typedb. rewrite forallb_forall. intros Hall key n Hk.
  assert ((0 <=? n) && (n <? 2 ^ 64) = true) as E.
  { apply (Hall (key, Number n)), list_elem_of_In, elem_of_map_to_list, Hk. }
  apply andb_true_iff in E as [?%Z.leb_le ?%Z.ltb_lt]. split; assumption.
Qed.

Definition op_preb (T : gmap Z Tags) (op : TagOp) : bool :=
  match op with
  | AddOp id tags => bool_decide (tags_of T id = ∅) && tags_typedb tags
  | RemoveOp id tags => bool_decide (tags_of T id = tags)
  | UpdateOp id old_tags new_tags => bool_decide (tags_of T id = old_tags) && tags_typedb new_tags
  end.

Lemma op_preb_ok T op : op_preb T op = true → op_pre T op.
Proof.
  destruct op; simpl; rewrite ?andb_true_iff, ?bool_decide_eq_true;
    naive_solver eauto using tags_typedb_ok.
Qed.

Fixpoint run_preb (t : TagIndex MemDB) (T : gmap Z Tags) (ops : list TagOp) : bool :=
  match ops with
  | [] => true
  | op :: ops => op_preb T op && let '(t, T) := settle (B:=gset Z) t T op in run_preb t T ops
  end.

Lemma run_preb_ok t T ops : run_preb t T ops = true → run_pre (B:=gset Z) t T ops.
Proof.
  revert t T. induction ops as [|op ops IH]; intros t T; simpl; [done|].
  rewrite andb_true_iff. intros [Hop Hrun]. split; [by apply op_preb_ok|].
  destruct (settle t T op). by apply IH.
Qed.

Lemma ops_pre : run_pre (B:=gset Z) start ∅ ops.
Proof. apply run_preb_ok. vm_compute. reflexivity. Qed.

Lemma ops_valid : Forall op_valid ops.
Proof. repeat constructor; vm_compute; reflexivity. Qed.

(** What the vectors carry in the end: the last call was refused. *)
Definition final : gmap Z Tags := (run (B:=gset Z) start ∅ ops).2.
Definition final_index : TagIndex MemDB := (run (B:=gset Z) start ∅ ops).1.

Lemma final_value :
  map_to_list final = map_to_list (<[1 := tags1]> (<[2 := tags2]> {[3 := tags3]}) : gmap Z Tags).
Proof. vm_compute. reflexivity. Qed.

Lemma flt_typed : filter_typed flt.
Proof. repeat split; discriminate. Qed.

Lemma tag_index_invariant_witness : tag_wf (B:=gset Z) (view final_index) final.
Proof. exact (tag_index_invariant db0 ops start_empty ops_pre). Defined.

Definition found : list Z := sort_by Z.compare (elements (
  match query_with_universe (B:=gset Z) final_index flt {[1; 2; 3; 7]} with
  | Ok b => b | Err _ => ∅ end)).

Lemma found_value : found = [1; 3].
Proof. vm_compute. reflexivity. Qed.

Lemma tag_query_exact_witness :
  ∃ b : gset Z, query_with_universe final_index flt {[1; 2; 3; 7]} = Ok b ∧
  ∀ i, i ∈ rb_set b ↔ filter_says cond_holds (Some {[1; 2; 3; 7]}) i (tags_of final i) flt = true.
Proof.
  exact (tag_query_exact db0 ops flt {[1; 2; 3; 7]} start_empty ops_pre ops_valid flt_typed eq_refl
    eq_refl).
Defined.

Lemma final_inv : tags_inv (B:=gset Z) final_index final.
Proof. exact (tag_run_inv _ _ ops (empty_inv db0 start_empty) ops_pre). Qed.

Lemma query_ids_smallest_witness :
  ∃ ids, query_ids (B:=gset Z) final_index (filter_exists "score") (Some 2) = Ok ids ∧
  StronglySorted Z.lt ids.
Proof.
  destruct (query_ids_smallest (B:=gset Z) final_index final (filter_exists "score") 2 final_inv I
    eq_refl eq_refl) as (ids & H1 & H2 & _).
  exists ids. exact (conj H1 H2).
Defined.

(** The quiet NaN as a threshold. *)
Lemma query_refusals_witness :
  query (B:=gset Z) final_index (Not (filter_exists "score")) = Err not_error.
Proof.
  refine (proj1 (query_refusals (B:=gset Z) final_index final (filter_exists "score") "score"
    9221120237041090560 OpGt (proj1 final_inv) eq_refl eq_refl _ eq_refl)).
  left.
Defined.

(** Equality tells the two zeros apart; the range operators do not. *)
Lemma eq_zero_signed :
  query_ids (B:=gset Z) final_index (filter_eq "score" (Number minus_zero)) None = Ok [] ∧
  query_ids (B:=gset Z) final_index
    (And [filter_gte "score" minus_zero; filter_lte "score" minus_zero]) None = Ok [3] ∧
  f64b_partial_cmp zero minus_zero = Some Eq.
Proof. vm_compute. done. Qed.
End Example1.
