(* ===== verification/Knowledge.v ===== *)
(** * Knowledge contracts

    [crates/contracts/src/knowledge.rs] and [error.rs]: the records exchanged
    between the producers of knowledge, the publication control and the replicas,
    and their validation. The URL parser is the class [UrlParser]. A message keeps
    the literal part of its format string and the name of its field. *)

From S2P Require Import Prelude Text Hex.

(** ** Violations *)

Inductive ContractViolationKind :=
| ExceedsMaximum
| BelowMinimum
| EmptyValue
| InvalidFormat
| InvalidNumber.

Record ContractViolation := mkViolation {
  field : string;
  message : string;
  kind : ContractViolationKind;
}.

Abbreviation ContractResult A := (result ContractViolation A).

Definition violation (field message : string) (kind : ContractViolationKind) : ContractViolation :=
  mkViolation field message kind.

Definition exceeds_maximum (field : string) : ContractViolation :=
  violation field (field +:+ " exceeds maximum") ExceedsMaximum.

Definition empty_violation (field : string) : ContractViolation :=
  violation field (field +:+ " cannot be empty") EmptyValue.

(** ** Limits *)

Definition KNOWLEDGE_SCHEMA_VERSION : Z := 1.
Definition MAX_SAFE_JSON_INTEGER : Z := 9007199254740991.
Definition MAX_SCOPE_BYTES : Z := 255.
Definition MAX_ID_BYTES : Z := 1024.
Definition MAX_MODEL_ID_BYTES : Z := 512.
Definition MAX_GRAPH_SCHEMA_BYTES : Z := 512.
Definition MAX_URI_BYTES : Z := 4096.
Definition MAX_FAILURE_BYTES : Z := 16384.
Definition MAX_EMBEDDING_DIMENSIONS : Z := 16384.

(** ** Validators of fields *)

Definition validate_schema_version (version : Z) : ContractResult unit :=
  if negb (version =? KNOWLEDGE_SCHEMA_VERSION) then
    Err (violation "schema_version" "unsupported schema_version" InvalidFormat)
  else Ok tt.

Definition validate_nonempty_text (field value : string) (maximum : Z) : ContractResult unit :=
  if decide (trim (str_chars value) = []) then Err (empty_violation field)
  else if decide (trim (str_chars value) ≠ str_chars value) then
    Err (violation field (field +:+ " must not have leading or trailing whitespace") InvalidFormat)
  else if byte_len value >? maximum then Err (exceeds_maximum field)
  else Ok tt.

Definition validate_identifier (field value : string) (maximum : Z) : ContractResult unit :=
  let? _ := validate_nonempty_text field value maximum in
  if existsb is_control (str_chars value) then
    Err (violation field (field +:+ " must not contain control characters") InvalidFormat)
  else Ok tt.

(** [byte.is_ascii_digit() || (b'a'..=b'f').contains(&byte)]. *)
Definition is_hex_lower (b : Z) : bool := ((48 <=? b) && (b <=? 57)) || ((97 <=? b) && (b <=? 102)).

Definition is_sha256 (digest : string) : bool :=
  (byte_len digest =? 64) && forallb is_hex_lower (byte_of <$> String.list_ascii_of_string digest).

Definition validate_sha256 (field digest : string) : ContractResult unit :=
  if negb (is_sha256 digest) then
    Err (violation field (field +:+ " must be exactly 64 lowercase hexadecimal characters") InvalidFormat)
  else Ok tt.

Definition validate_safe_json_integer (field : string) (value : Z) : ContractResult unit :=
  if value >? MAX_SAFE_JSON_INTEGER then
    Err (violation field (field +:+ " must not exceed the JSON safe integer maximum") ExceedsMaximum)
  else Ok tt.

Definition validate_timestamp (field : string) (timestamp_ms : Z) : ContractResult unit :=
  if timestamp_ms =? 0 then
    Err (violation field (field +:+ " must be greater than zero") BelowMinimum)
  else validate_safe_json_integer field timestamp_ms.

(** ** Scopes *)

Record KnowledgeScope := mkScope { workspace_id : string; collection : string }.

#[global] Instance scope_eq_dec : EqDecision KnowledgeScope.
Proof. solve_decision. Defined.

Definition scope_validate (s : KnowledgeScope) : ContractResult unit :=
  let? _ := validate_identifier "workspace_id" (workspace_id s) MAX_SCOPE_BYTES in
  validate_identifier "collection" (collection s) MAX_SCOPE_BYTES.

(** ** Immutable objects *)

(** What [url::Url::parse] returns, as the accessors the validation uses. *)
Record Url := mkUrl {
  url_scheme : string;
  url_host : option string;
  url_path : string;
  url_username : string;
  url_password : option string;
  url_fragment : option string;
}.

Class UrlParser := { url_parse : string → option Url }.

Record ImmutableObjectReference := mkObject { uri : string; sha256 : string; size_bytes : Z }.

#[global] Instance object_eq_dec : EqDecision ImmutableObjectReference.
Proof. solve_decision. Defined.

Section objects.
Context `{!UrlParser}.

Definition validate_uri (uri : string) : ContractResult unit :=
  let? _ := validate_nonempty_text "uri" uri MAX_URI_BYTES in
  if existsb is_control (str_chars uri) then
    Err (violation "uri" "uri must not contain control characters" InvalidFormat)
  else
    match url_parse uri with
    | None => Err (violation "uri" "uri must be an absolute object URI" InvalidFormat)
    | Some parsed =>
        if negb (String.eqb (url_scheme parsed) "s3" || String.eqb (url_scheme parsed) "https") then
          Err (violation "uri" "uri scheme must be s3 or https" InvalidFormat)
        else if bool_decide (url_host parsed = None) || String.eqb (url_path parsed) ""
                || String.eqb (url_path parsed) "/" then
          Err (violation "uri" "uri must include an object authority and path" InvalidFormat)
        else if negb (String.eqb (url_username parsed) "") || bool_decide (is_Some (url_password parsed))
        then Err (violation "uri" "uri must not embed credentials" InvalidFormat)
        else if bool_decide (is_Some (url_fragment parsed)) then
          Err (violation "uri" "uri must not include a fragment" InvalidFormat)
        else Ok tt
    end.

Definition object_validate (o : ImmutableObjectReference) : ContractResult unit :=
  let? _ := validate_uri (uri o) in
  let? _ := validate_sha256 "sha256" (sha256 o) in
  if size_bytes o =? 0 then
    Err (violation "size_bytes" "size_bytes must be greater than zero" BelowMinimum)
  else validate_safe_json_integer "size_bytes" (size_bytes o).
End objects.

(** ** Generations *)

Inductive KnowledgeBundleFormat := NdjsonV1.
Inductive KnowledgeBundleCompression := NoCompression | Zstd.

Record KnowledgeGenerationManifest := mkManifest {
  m_schema_version : Z;
  m_workspace_id : string;
  m_collection : string;
  generation_id : string;
  parent_generation_id : option string;
  m_created_at_ms : Z;
  embedding_model_id : string;
  embedding_dimensions : Z;
  graph_schema_version : string;
  bundle_format : KnowledgeBundleFormat;
  bundle_compression : KnowledgeBundleCompression;
  bundle : ImmutableObjectReference;
  base_sequence : Z;
  target_sequence : Z;
  expected_vector_count : Z;
  expected_edge_count : Z;
}.

#[global] Instance format_eq_dec : EqDecision KnowledgeBundleFormat.
Proof. solve_decision. Defined.
#[global] Instance compression_eq_dec : EqDecision KnowledgeBundleCompression.
Proof. solve_decision. Defined.
#[global] Instance manifest_eq_dec : EqDecision KnowledgeGenerationManifest.
Proof. solve_decision. Defined.

Definition manifest_scope (m : KnowledgeGenerationManifest) : KnowledgeScope :=
  mkScope (m_workspace_id m) (m_collection m).

Section generations.
Context `{!UrlParser}.

Definition validate_parent (m : KnowledgeGenerationManifest) : ContractResult unit :=
  match parent_generation_id m with
  | None => Ok tt
  | Some parent =>
      let? _ := validate_identifier "parent_generation_id" parent MAX_ID_BYTES in
      if String.eqb parent (generation_id m) then
        Err (violation "parent_generation_id" "parent_generation_id must differ from generation_id"
               InvalidFormat)
      else Ok tt
  end.

Definition manifest_validate (m : KnowledgeGenerationManifest) : ContractResult unit :=
  let? _ := validate_schema_version (m_schema_version m) in
  let? _ := scope_validate (manifest_scope m) in
  let? _ := validate_identifier "generation_id" (generation_id m) MAX_ID_BYTES in
  let? _ := validate_parent m in
  let? _ := validate_timestamp "created_at_ms" (m_created_at_ms m) in
  let? _ := validate_identifier "embedding_model_id" (embedding_model_id m) MAX_MODEL_ID_BYTES in
  if (embedding_dimensions m =? 0) || (embedding_dimensions m >? MAX_EMBEDDING_DIMENSIONS) then
    Err (violation "embedding_dimensions" "embedding_dimensions must be between 1 and" InvalidFormat)
  else
    let? _ := validate_identifier "graph_schema_version" (graph_schema_version m)
                MAX_GRAPH_SCHEMA_BYTES in
    let? _ := object_validate (bundle m) in
    let? _ := validate_safe_json_integer "base_sequence" (base_sequence m) in
    let? _ := validate_safe_json_integer "target_sequence" (target_sequence m) in
    let? _ := validate_safe_json_integer "expected_vector_count" (expected_vector_count m) in
    let? _ := validate_safe_json_integer "expected_edge_count" (expected_edge_count m) in
    if target_sequence m <? base_sequence m then
      Err (violation "target_sequence"
             "target_sequence must be greater than or equal to base_sequence" BelowMinimum)
    else Ok tt.
End generations.

(** ** Mutations *)

Inductive KnowledgeOperation := OpUpsert | OpDelete.

Record KnowledgeMutation := mkMutation {
  k_schema_version : Z;
  mutation_id : string;
  k_workspace_id : string;
  k_collection : string;
  k_generation_id : string;
  sequence : Z;
  operation : KnowledgeOperation;
  chunk_id : string;
  payload : option ImmutableObjectReference;
  k_created_at_ms : Z;
}.

Definition mutation_scope (m : KnowledgeMutation) : KnowledgeScope :=
  mkScope (k_workspace_id m) (k_collection m).

Section mutations.
Context `{!UrlParser}.

Definition validate_payload (m : KnowledgeMutation) : ContractResult unit :=
  match operation m, payload m with
  | OpUpsert, Some payload => object_validate payload
  | OpUpsert, None =>
      Err (violation "payload" "upsert mutations require an immutable payload reference" EmptyValue)
  | OpDelete, None => Ok tt
  | OpDelete, Some _ =>
      Err (violation "payload" "delete mutations must not include a payload" InvalidFormat)
  end.

Definition mutation_validate (m : KnowledgeMutation) : ContractResult unit :=
  let? _ := validate_schema_version (k_schema_version m) in
  let? _ := scope_validate (mutation_scope m) in
  let? _ := validate_identifier "mutation_id" (mutation_id m) MAX_ID_BYTES in
  let? _ := validate_identifier "generation_id" (k_generation_id m) MAX_ID_BYTES in
  let? _ := validate_identifier "chunk_id" (chunk_id m) MAX_ID_BYTES in
  if sequence m =? 0 then
    Err (violation "sequence" "sequence must be greater than zero" BelowMinimum)
  else
    let? _ := validate_safe_json_integer "sequence" (sequence m) in
    let? _ := validate_timestamp "created_at_ms" (k_created_at_ms m) in
    validate_payload m.
End mutations.

(** ** Checkpoints *)

Inductive ReplicaState := RCatchingUp | RReady | RServing | RFailed.

Record ReplicaCheckpoint := mkReplicaCheckpoint {
  c_schema_version : Z;
  c_replica_id : string;
  c_workspace_id : string;
  c_collection : string;
  c_generation_id : string;
  c_manifest_sha256 : string;
  c_applied_sequence : Z;
  c_state : ReplicaState;
  c_last_error : option string;
  c_updated_at_ms : Z;
}.

Definition checkpoint_scope (c : ReplicaCheckpoint) : KnowledgeScope :=
  mkScope (c_workspace_id c) (c_collection c).

Definition validate_evidence (state : ReplicaState) (last_error : option string)
    : ContractResult unit :=
  match state, last_error with
  | RFailed, Some error => validate_nonempty_text "last_error" error MAX_FAILURE_BYTES
  | RFailed, None =>
      Err (violation "last_error" "failed checkpoints require non-empty failure evidence" EmptyValue)
  | _, Some _ =>
      Err (violation "last_error" "non-failed checkpoints must not include last_error" InvalidFormat)
  | _, None => Ok tt
  end.

Definition checkpoint_validate (c : ReplicaCheckpoint) : ContractResult unit :=
  let? _ := validate_schema_version (c_schema_version c) in
  let? _ := scope_validate (checkpoint_scope c) in
  let? _ := validate_identifier "replica_id" (c_replica_id c) MAX_ID_BYTES in
  let? _ := validate_identifier "generation_id" (c_generation_id c) MAX_ID_BYTES in
  let? _ := validate_sha256 "manifest_sha256" (c_manifest_sha256 c) in
  let? _ := validate_safe_json_integer "applied_sequence" (c_applied_sequence c) in
  let? _ := validate_timestamp "updated_at_ms" (c_updated_at_ms c) in
  validate_evidence (c_state c) (c_last_error c).

(** ** Digests *)

Lemma hex_digit_lower d : 0 ≤ d < 16 → is_hex_lower (byte_of (hex_digit d)) = true.
Proof.
  intros Hd. apply (digit_cases (λ d, is_hex_lower (byte_of (hex_digit d)) = true) d Hd).
  repeat constructor.
Qed.

Lemma hex_lower_string l :
  Forall is_byte l → Forall (λ c, is_hex_lower (byte_of c) = true) (String.list_ascii_of_string (hex_string l)).
Proof.
  induction 1 as [|b l Hb _ IH]; [constructor|]. destruct (byte_nibbles b Hb) as (H1 & H2 & _).
  change (String.list_ascii_of_string (hex_string (b :: l)))
    with (hex_digit (b / 16) :: hex_digit (b mod 16) :: String.list_ascii_of_string (hex_string l)).
  by repeat constructor; [apply hex_digit_lower..|].
Qed.

Lemma digest_hex_is_sha256 `{!Sha256, !Sha256Laws} b : is_sha256 (hex_string (sha256_digest b)) = true.
Proof.
  unfold is_sha256, byte_len. rewrite hex_string_length, digest_length. apply andb_true_iff. split; [done|].
  apply forallb_forall. intros x Hx%list_elem_of_In. apply list_elem_of_fmap in Hx as (c & -> & Hc).
  pose proof (hex_lower_string _ (digest_bytes b)) as Hl. rewrite Forall_forall in Hl. by apply Hl.
Qed.
