(* ===== verification/MemoryContracts.v ===== *)
(** * Memory contracts

    [crates/contracts/src/memory.rs]: the records of the memory ledger (scopes,
    assertions, evidence, observations, versions, relations, reinforcements,
    derivations, deletion plans and their proofs, policy decisions, mutations,
    heads, lifecycles, idempotency records, the projection outbox, checkpoints
    and manifests) and their validation. Unicode normalization is the class
    [UnicodeNormalization], serde_json the class [ContentCodec], SHA-256 the
    class [Sha256]. A message keeps the literal part of its format string and
    the name of its field. *)

From Stdlib Require Import Ascii.
From S2P Require Import Prelude Float32 Text Sorting Storage Hex Keys Filter Knowledge.

Definition MEMORY_SCHEMA_VERSION : Z := 1.
Definition MEMORY_IDENTITY_HASH_VERSION : Z := 1.
Definition MAX_MEMORY_ID_BYTES : Z := 1024.
Definition MAX_MEMORY_SCOPE_BYTES : Z := 255.
Definition MAX_MEMORY_NAMESPACE_BYTES : Z := 1024.
Definition MAX_MEMORY_TEXT_BYTES : Z := 64 * 1024.
Definition MAX_MEMORY_STRUCTURED_BYTES : Z := 256 * 1024.
Definition MAX_MEMORY_PURPOSES : Z := 32.
Definition MAX_MEMORY_EVIDENCE : Z := 128.
Definition MAX_MEMORY_PARENTS : Z := 32.
Definition MAX_MEMORY_ACTIVE_HEADS : Z := 32.
Definition MAX_MEMORY_PROJECTIONS : Z := 32.
Definition MAX_MEMORY_DELETION_TARGETS : Z := 100000.
Definition MAX_JSON_DEPTH : Z := 64.

(** The unicode-normalization crate. *)
Class UnicodeNormalization := { nfc_chars : text → text; nfkc_chars : text → text }.

(** ** Validators of fields *)

Definition validate_schema_version (version : Z) : ContractResult unit :=
  if negb (version =? MEMORY_SCHEMA_VERSION) then
    Err (violation "schema_version" "unsupported schema_version" InvalidFormat)
  else Ok tt.

Definition validate_text (field value : string) (maximum : Z) : ContractResult unit :=
  if decide (trim (str_chars value) = []) then Err (empty_violation field)
  else if decide (trim (str_chars value) ≠ str_chars value) then
    Err (violation field (field +:+ " must not have leading or trailing whitespace") InvalidFormat)
  else if byte_len value >? maximum then Err (exceeds_maximum field)
  else if existsb (Z.eqb 0) (str_chars value) then
    Err (violation field (field +:+ " must not contain NUL") InvalidFormat)
  else Ok tt.

Definition validate_identifier (field value : string) (maximum : Z) : ContractResult unit :=
  let? _ := validate_text field value maximum in
  if existsb is_control (str_chars value) then
    Err (violation field (field +:+ " must not contain control characters") InvalidFormat)
  else Ok tt.

Definition validate_optional_identifier (field : string) (value : option string) (maximum : Z)
    : ContractResult unit :=
  match value with Some value => validate_identifier field value maximum | None => Ok tt end.

(** The paths a namespace may be. *)
Definition namespace_malformed (namespace : text) : bool :=
  bool_decide (head namespace = Some 47) || bool_decide (last namespace = Some 47)
  || contains_text namespace (lit "//")
  || (Zlength (split_on 47 namespace) >? 16)
  || existsb (λ component, bool_decide (component = lit "..")) (split_on 47 namespace).

Definition validate_namespace (namespace : string) : ContractResult unit :=
  let? _ := validate_identifier "namespace" namespace MAX_MEMORY_NAMESPACE_BYTES in
  if namespace_malformed (str_chars namespace) then
    Err (violation "namespace" "namespace must be a relative path with at most 16 non-parent segments"
           InvalidFormat)
  else Ok tt.

Definition validate_nonempty_list {T} (field : string) (values : list T) (maximum : Z)
    : ContractResult unit :=
  match values with
  | [] => Err (empty_violation field)
  | _ => if Zlength values >? maximum then Err (exceeds_maximum field) else Ok tt
  end.

Fixpoint validate_all {T} (check : T → ContractResult unit) (values : list T) : ContractResult unit :=
  match values with
  | [] => Ok tt
  | value :: values => let? _ := check value in validate_all check values
  end.

Definition validate_text_list (field : string) (values : list string) : ContractResult unit :=
  if Zlength values >? 256 then Err (exceeds_maximum field)
  else validate_all (λ value, validate_text field value MAX_MEMORY_TEXT_BYTES) values.

(** The loop over [values], with the identifiers already seen. *)
Fixpoint validate_distinct (check : string → ContractResult unit) (duplicate : ContractViolation)
    (unique : gset string) (values : list string) : ContractResult unit :=
  match values with
  | [] => Ok tt
  | value :: values =>
      let? _ := check value in
      if decide (value ∈ unique) then Err duplicate
      else validate_distinct check duplicate ({[value]} ∪ unique) values
  end.

Definition validate_unique_ids (field : string) (values : list string) : ContractResult unit :=
  validate_distinct (λ value, validate_identifier field value MAX_MEMORY_ID_BYTES)
    (violation field (field +:+ " must not contain duplicates") InvalidFormat) ∅ values.

(** [values.windows(2).any(|pair| pair[0] >= pair[1])]. *)
Fixpoint unsorted (values : list string) : bool :=
  match values with
  | a :: (b :: _) as rest => negb (str_ltb a b) || unsorted rest
  | _ => false
  end.

Definition validate_deletion_ids (field : string) (values : list string) : ContractResult unit :=
  if Zlength values >? MAX_MEMORY_DELETION_TARGETS then Err (exceeds_maximum field)
  else
    let? _ := validate_unique_ids field values in
    if unsorted values then
      Err (violation field "deletion target IDs must be strictly sorted" InvalidFormat)
    else Ok tt.

Definition validate_sequence (field : string) (sequence : Z) : ContractResult unit :=
  if sequence =? 0 then Err (violation field (field +:+ " must be greater than zero") BelowMinimum)
  else Ok tt.

Definition validate_timestamp (field : string) (timestamp_ms : Z) : ContractResult unit :=
  if timestamp_ms =? 0 then Err (violation field (field +:+ " must be greater than zero") BelowMinimum)
  else Ok tt.

Definition validate_sha256 (field digest : string) : ContractResult unit :=
  if negb (is_sha256 digest) then
    Err (violation field (field +:+ " must be a lowercase hexadecimal SHA-256 digest") InvalidFormat)
  else Ok tt.

Definition effective_unix_nanos (legacy_ms nanos : option Z) : option Z :=
  match nanos with
  | Some n => Some n
  | None => (λ value, value * 1000000) <$> legacy_ms
  end.

Definition validate_compatible_instants (field : string) (legacy_ms nanos : option Z)
    : ContractResult unit :=
  match legacy_ms, nanos with
  | Some legacy_ms, Some nanos =>
      if negb (legacy_ms * 1000000 =? nanos) then
        Err (violation field (field +:+ " millisecond and nanosecond values disagree") InvalidFormat)
      else Ok tt
  | _, _ => Ok tt
  end.

(** ** Scopes *)

Inductive Sensitivity := Public | Internal | Confidential | Restricted.

#[global] Instance sensitivity_eq_dec : EqDecision Sensitivity.
Proof. solve_decision. Defined.

Record MemoryScope := mkMemoryScope {
  ms_workspace_id : string;
  ms_namespace : string;
  ms_entity_key : string;
  ms_data_subject_id : option string;
  ms_owner_agent_id : option string;
  ms_session_id : option string;
  ms_task_id : option string;
  ms_sensitivity : Sensitivity;
  ms_allowed_purposes : list string;
}.

Definition memory_scope_validate (s : MemoryScope) : ContractResult unit :=
  let? _ := validate_identifier "workspace_id" (ms_workspace_id s) MAX_MEMORY_SCOPE_BYTES in
  let? _ := validate_namespace (ms_namespace s) in
  let? _ := validate_identifier "entity_key" (ms_entity_key s) MAX_MEMORY_ID_BYTES in
  let? _ := validate_optional_identifier "data_subject_id" (ms_data_subject_id s) MAX_MEMORY_ID_BYTES in
  let? _ := validate_optional_identifier "owner_agent_id" (ms_owner_agent_id s) MAX_MEMORY_ID_BYTES in
  let? _ := validate_optional_identifier "session_id" (ms_session_id s) MAX_MEMORY_ID_BYTES in
  let? _ := validate_optional_identifier "task_id" (ms_task_id s) MAX_MEMORY_ID_BYTES in
  let? _ := validate_nonempty_list "allowed_purposes" (ms_allowed_purposes s) MAX_MEMORY_PURPOSES in
  validate_distinct (λ purpose, validate_identifier "allowed_purpose" purpose MAX_MEMORY_SCOPE_BYTES)
    (violation "allowed_purposes" "allowed_purposes must not contain duplicates" InvalidFormat) ∅
    (ms_allowed_purposes s).

(** ** Content *)

Inductive MemoryKind := KTextFact | KStructuredFact | KProcedure | KPreference | KEpisodeReference.

#[global] Instance memory_kind_eq_dec : EqDecision MemoryKind.
Proof. solve_decision. Defined.

Definition canonical_name (k : MemoryKind) : string :=
  match k with
  | KTextFact => "text_fact"
  | KStructuredFact => "structured_fact"
  | KProcedure => "procedure"
  | KPreference => "preference"
  | KEpisodeReference => "episode_reference"
  end.

Inductive MemoryContent :=
| TextFact (text : string) (language : option string)
| StructuredFact (schema_id : string) (canonical_json : Value)
| Procedure (title : string) (ordered_steps preconditions failure_recovery : list string)
| Preference (value : string) (context : option string)
| EpisodeReference (event_ids : list string) (summary : option string).

Definition content_kind (c : MemoryContent) : MemoryKind :=
  match c with
  | TextFact _ _ => KTextFact
  | StructuredFact _ _ => KStructuredFact
  | Procedure _ _ _ _ => KProcedure
  | Preference _ _ => KPreference
  | EpisodeReference _ _ => KEpisodeReference
  end.

Fixpoint json_depth (v : Value) : Z :=
  match v with
  | JArray l =>
      1 + (fix go (l : list Value) : Z :=
             match l with [] => 0 | x :: l => Z.max (json_depth x) (go l) end) l
  | JObject m =>
      1 + (fix go (m : Map) : Z :=
             match m with [] => 0 | (_, x) :: m => Z.max (json_depth x) (go m) end) m
  | _ => 1
  end.

(** serde_json on values and contents, [None] when it fails. *)
Class ContentCodec := {
  value_to_vec : Value → option string;
  content_to_vec : MemoryContent → option string;
}.

Definition total_len (l : list string) : Z := foldr (λ s n, byte_len s + n) 0 l.

Definition validate_optional_text (field : string) (value : option string) : ContractResult unit :=
  match value with Some value => validate_text field value MAX_MEMORY_TEXT_BYTES | None => Ok tt end.

Section content.
Context `{!ContentCodec}.

Definition content_validate (c : MemoryContent) : ContractResult unit :=
  match c with
  | TextFact text language =>
      let? _ := validate_text "content.text" text MAX_MEMORY_TEXT_BYTES in
      validate_optional_identifier "content.language" language MAX_MEMORY_SCOPE_BYTES
  | StructuredFact schema_id canonical_json =>
      let? _ := validate_identifier "content.schema_id" schema_id MAX_MEMORY_ID_BYTES in
      if is_null canonical_json then
        Err (violation "content.canonical_json" "structured memory must not be null" EmptyValue)
      else if json_depth canonical_json >? MAX_JSON_DEPTH then
        Err (violation "content.canonical_json" "JSON nesting must not exceed" ExceedsMaximum)
      else
        match value_to_vec canonical_json with
        | None =>
            Err (violation "content.canonical_json" "structured memory cannot be encoded" InvalidFormat)
        | Some encoded =>
            if byte_len encoded >? MAX_MEMORY_STRUCTURED_BYTES then
              Err (exceeds_maximum "content.canonical_json")
            else Ok tt
        end
  | Procedure title ordered_steps preconditions failure_recovery =>
      let? _ := validate_text "content.title" title MAX_MEMORY_SCOPE_BYTES in
      let? _ := validate_nonempty_list "content.ordered_steps" ordered_steps 256 in
      let? _ := validate_text_list "content.ordered_steps" ordered_steps in
      let? _ := validate_text_list "content.preconditions" preconditions in
      let? _ := validate_text_list "content.failure_recovery" failure_recovery in
      let total := byte_len title + total_len ordered_steps + total_len preconditions
                   + total_len failure_recovery in
      if total >? MAX_MEMORY_TEXT_BYTES then Err (exceeds_maximum "content.procedure") else Ok tt
  | Preference value context =>
      let? _ := validate_text "content.value" value MAX_MEMORY_TEXT_BYTES in
      validate_optional_text "content.context" context
  | EpisodeReference event_ids summary =>
      let? _ := validate_nonempty_list "content.event_ids" event_ids MAX_MEMORY_EVIDENCE in
      let? _ := validate_unique_ids "content.event_ids" event_ids in
      validate_optional_text "content.summary" summary
  end.
End content.

(** ** Assertions *)

Inductive EpistemicFormation :=
| DirectObservation | HumanStatement | AgentStatement | ModelInference | DeterministicDerivation
| ConsolidatedSummary.

Inductive SourceAssurance :=
| UnverifiedExternal | AuthenticatedExternal | AuthenticatedAgent | AuthenticatedHuman | SignedSystem
| VerifiedCanonicalSource.

Inductive DecisionAuthority := NoAuthority | Advisory | Operational | GoverningPolicy.

Inductive VersionState := Proposed | Quarantined | Active | Superseded | Retracted | Tombstoned.

#[global] Instance formation_eq_dec : EqDecision EpistemicFormation.
Proof. solve_decision. Defined.
#[global] Instance assurance_eq_dec : EqDecision SourceAssurance.
Proof. solve_decision. Defined.
#[global] Instance authority_eq_dec : EqDecision DecisionAuthority.
Proof. solve_decision. Defined.
#[global] Instance version_state_eq_dec : EqDecision VersionState.
Proof. solve_decision. Defined.

Record MemoryAssertionIdentity := mkIdentity {
  mi_workspace_id : string;
  mi_namespace : string;
  mi_entity_key : string;
  mi_predicate : string;
  mi_kind : MemoryKind;
}.

#[global] Instance identity_eq_dec : EqDecision MemoryAssertionIdentity.
Proof. solve_decision. Defined.

Definition identity_validate (i : MemoryAssertionIdentity) : ContractResult unit :=
  let? _ := validate_identifier "workspace_id" (mi_workspace_id i) MAX_MEMORY_SCOPE_BYTES in
  let? _ := validate_namespace (mi_namespace i) in
  let? _ := validate_identifier "entity_key" (mi_entity_key i) MAX_MEMORY_ID_BYTES in
  validate_identifier "predicate" (mi_predicate i) MAX_MEMORY_ID_BYTES.

Record MemoryAssertion := mkAssertion {
  ma_schema_version : Z;
  ma_assertion_id : string;
  ma_workspace_id : string;
  ma_namespace : string;
  ma_entity_key : string;
  ma_predicate : string;
  ma_kind : MemoryKind;
  ma_identity_hash_version : Z;
  ma_identity_hash : string;
  ma_created_sequence : Z;
  ma_created_at_ms : Z;
}.

Definition assertion_identity (a : MemoryAssertion) : MemoryAssertionIdentity :=
  mkIdentity (ma_workspace_id a) (ma_namespace a) (ma_entity_key a) (ma_predicate a) (ma_kind a).

Section assertions.
Context `{!UnicodeNormalization, !CharTables, !Sha256}.

Definition nfc (value : string) : string := text_string (nfc_chars (str_chars value)).

Definition normalize_predicate_v1 (value : string) : string :=
  text_string (to_lowercase (join (lit " ") (split_whitespace (nfc_chars (str_chars value))))).

Definition normalized_predicate (i : MemoryAssertionIdentity) : string :=
  normalize_predicate_v1 (mi_predicate i).

Definition sha256_hex (bytes : string) : string := hex_string (sha256_digest bytes).

Definition identity_hash (i : MemoryAssertionIdentity) : ContractResult string :=
  let? _ := identity_validate i in
  let canonical := component "akidb-memory-assertion"
                   +:+ string_of_bytes (be_bytes 4 MEMORY_IDENTITY_HASH_VERSION) in
  let canonical := push_component canonical (nfc (mi_workspace_id i)) in
  let canonical := push_component canonical (nfc (mi_namespace i)) in
  let canonical := push_component canonical (nfc (mi_entity_key i)) in
  let canonical := push_component canonical (normalized_predicate i) in
  let canonical := push_component canonical (canonical_name (mi_kind i)) in
  Ok (sha256_hex canonical).

Definition assertion_id (i : MemoryAssertionIdentity) : ContractResult string :=
  let? h := identity_hash i in Ok ("mem_a1_" +:+ h).

Definition assertion_validate (a : MemoryAssertion) : ContractResult unit :=
  let? _ := validate_schema_version (ma_schema_version a) in
  let? _ := validate_identifier "assertion_id" (ma_assertion_id a) MAX_MEMORY_ID_BYTES in
  if negb (ma_identity_hash_version a =? MEMORY_IDENTITY_HASH_VERSION) then
    Err (violation "identity_hash_version" "unsupported identity_hash_version" InvalidFormat)
  else
    let? _ := validate_sha256 "identity_hash" (ma_identity_hash a) in
    let identity := assertion_identity a in
    let? expected_hash := identity_hash identity in
    let? expected_id := assertion_id identity in
    if negb (String.eqb (ma_identity_hash a) expected_hash)
       || negb (String.eqb (ma_assertion_id a) expected_id) then
      Err (violation "assertion_id" "assertion identity does not match its canonical fields"
             InvalidFormat)
    else
      let? _ := validate_sequence "created_sequence" (ma_created_sequence a) in
      validate_timestamp "created_at_ms" (ma_created_at_ms a).
End assertions.

(** ** Evidence and observations *)

Record EvidenceRecord := mkEvidence {
  ev_schema_version : Z;
  ev_evidence_id : string;
  ev_workspace_id : string;
  ev_source_plane : string;
  ev_source_id : string;
  ev_source_version : option string;
  ev_observed_at_ms : option Z;
  ev_observed_at_unix_nanos : option Z;
  ev_content_sha256 : string;
  ev_source_principal_id : option string;
  ev_source_assurance : SourceAssurance;
  ev_created_sequence : Z;
}.

(** The checks of the source observation time, with the message of the range. *)
Definition validate_observed_at (observed_at_ms observed_at_unix_nanos : option Z) (range : string)
    : ContractResult unit :=
  let? _ := match observed_at_ms with
            | Some ms =>
                let? _ := validate_timestamp "observed_at_ms" ms in
                if ms >? i64_max then Err (violation "observed_at_ms" range InvalidNumber) else Ok tt
            | None => Ok tt
            end in
  if match observed_at_unix_nanos with Some value => value <=? 0 | None => false end then
    Err (violation "observed_at_unix_nanos" "observed_at_unix_nanos must be greater than zero"
           BelowMinimum)
  else validate_compatible_instants "observed_at" observed_at_ms observed_at_unix_nanos.

Definition evidence_validate (e : EvidenceRecord) : ContractResult unit :=
  let? _ := validate_schema_version (ev_schema_version e) in
  let? _ := validate_identifier "evidence_id" (ev_evidence_id e) MAX_MEMORY_ID_BYTES in
  let? _ := validate_identifier "workspace_id" (ev_workspace_id e) MAX_MEMORY_SCOPE_BYTES in
  let? _ := validate_identifier "source_plane" (ev_source_plane e) MAX_MEMORY_SCOPE_BYTES in
  let? _ := validate_identifier "source_id" (ev_source_id e) MAX_MEMORY_ID_BYTES in
  let? _ := validate_optional_identifier "source_version" (ev_source_version e) MAX_MEMORY_ID_BYTES in
  let? _ := validate_observed_at (ev_observed_at_ms e) (ev_observed_at_unix_nanos e)
              "observed_at_ms cannot be represented by the nanosecond compatibility model" in
  let? _ := validate_sha256 "content_sha256" (ev_content_sha256 e) in
  let? _ := validate_optional_identifier "source_principal_id" (ev_source_principal_id e)
              MAX_MEMORY_ID_BYTES in
  validate_sequence "created_sequence" (ev_created_sequence e).

Record MemoryObservation := mkObservation {
  ob_schema_version : Z;
  ob_observation_id : string;
  ob_evidence_id : string;
  ob_scope : MemoryScope;
  ob_source_plane : string;
  ob_source_id : string;
  ob_source_version : option string;
  ob_observed_at_ms : option Z;
  ob_observed_at_unix_nanos : option Z;
  ob_content_sha256 : string;
  ob_retained_payload : string;
  ob_source_assurance : SourceAssurance;
  ob_policy_decision_id : string;
  ob_created_by_principal_id : string;
  ob_committed_sequence : Z;
  ob_committed_at_ms : Z;
}.

Section observations.
Context `{!Sha256}.

Definition observation_validate (o : MemoryObservation) : ContractResult unit :=
  let? _ := validate_schema_version (ob_schema_version o) in
  let? _ := validate_identifier "observation_id" (ob_observation_id o) MAX_MEMORY_ID_BYTES in
  let? _ := validate_identifier "evidence_id" (ob_evidence_id o) MAX_MEMORY_ID_BYTES in
  let? _ := memory_scope_validate (ob_scope o) in
  let? _ := validate_identifier "source_plane" (ob_source_plane o) MAX_MEMORY_SCOPE_BYTES in
  let? _ := validate_identifier "source_id" (ob_source_id o) MAX_MEMORY_ID_BYTES in
  let? _ := validate_optional_identifier "source_version" (ob_source_version o) MAX_MEMORY_ID_BYTES in
  let? _ := validate_observed_at (ob_observed_at_ms o) (ob_observed_at_unix_nanos o)
              "observed_at_ms exceeds the signed time range" in
  let? _ := validate_sha256 "content_sha256" (ob_content_sha256 o) in
  if byte_len (ob_retained_payload o) >? MAX_MEMORY_TEXT_BYTES then
    Err (exceeds_maximum "retained_payload")
  else if negb (String.eqb (ob_retained_payload o) "")
          && negb (String.eqb (sha256_hex (ob_retained_payload o)) (ob_content_sha256 o)) then
    Err (violation "retained_payload" "retained payload digest differs from content_sha256"
           InvalidFormat)
  else
    let? _ := validate_identifier "policy_decision_id" (ob_policy_decision_id o) MAX_MEMORY_ID_BYTES in
    let? _ := validate_identifier "created_by_principal_id" (ob_created_by_principal_id o)
                MAX_MEMORY_ID_BYTES in
    let? _ := validate_sequence "committed_sequence" (ob_committed_sequence o) in
    validate_timestamp "committed_at_ms" (ob_committed_at_ms o).
End observations.

(** ** Versions *)

Record MemoryVersion := mkVersion {
  mv_schema_version : Z;
  mv_version_id : string;
  mv_assertion_id : string;
  mv_parent_version_ids : list string;
  mv_scope : MemoryScope;
  mv_kind : MemoryKind;
  mv_content : MemoryContent;
  mv_content_sha256 : string;
  mv_valid_from_ms : option Z;
  mv_valid_to_ms : option Z;
  mv_valid_from_unix_nanos : option Z;
  mv_valid_to_unix_nanos : option Z;
  mv_epistemic_formation : EpistemicFormation;
  mv_source_assurance : SourceAssurance;
  mv_decision_authority : DecisionAuthority;
  mv_confidence : option f32;
  mv_evidence_ids : list string;
  mv_derivation_id : option string;
  mv_compiler_artifact_id : option string;
  mv_policy_decision_id : string;
  mv_committed_sequence : Z;
  mv_committed_at_ms : Z;
  mv_created_by_principal_id : string;
}.

Definition effective_valid_from_unix_nanos (v : MemoryVersion) : option Z :=
  effective_unix_nanos (mv_valid_from_ms v) (mv_valid_from_unix_nanos v).

Definition effective_valid_to_unix_nanos (v : MemoryVersion) : option Z :=
  effective_unix_nanos (mv_valid_to_ms v) (mv_valid_to_unix_nanos v).

Definition is_valid_at_unix_nanos (v : MemoryVersion) (instant : Z) : bool :=
  match effective_valid_from_unix_nanos v with Some from => from <=? instant | None => true end
  && match effective_valid_to_unix_nanos v with Some to => instant <? to | None => true end.

Definition validate_authority_combination (v : MemoryVersion) : ContractResult unit :=
  if bool_decide (mv_decision_authority v = GoverningPolicy)
     && bool_decide (mv_source_assurance v ≠ VerifiedCanonicalSource) then
    Err (violation "decision_authority" "governing policy requires a verified canonical source"
           InvalidFormat)
  else if bool_decide (mv_decision_authority v = Operational)
          && bool_decide (mv_source_assurance v = UnverifiedExternal) then
    Err (violation "decision_authority"
           "unverified external content cannot have operational authority" InvalidFormat)
  else if bool_decide (mv_epistemic_formation v = ModelInference)
          && bool_decide (mv_decision_authority v = GoverningPolicy) then
    Err (violation "decision_authority" "model inference cannot create governing policy" InvalidFormat)
  else Ok tt.

(** [!confidence.is_finite() || !(0.0..=1.0).contains(&confidence)]. *)
Definition confidence_malformed (confidence : option f32) : bool :=
  match confidence with
  | Some c => negb (f32_is_finite c) || negb (f32_ge c f32_zero && f32_ge f32_one c)
  | None => false
  end.

Section versions.
Context `{!ContentCodec, !Sha256}.

Definition canonical_content_sha256 (c : MemoryContent) : ContractResult string :=
  let? _ := content_validate c in
  match content_to_vec c with
  | None => Err (violation "content" "memory content cannot be encoded" InvalidFormat)
  | Some encoded => Ok (sha256_hex encoded)
  end.

Definition validate_valid_time (v : MemoryVersion) : ContractResult unit :=
  let? _ := validate_compatible_instants "valid_from" (mv_valid_from_ms v)
              (mv_valid_from_unix_nanos v) in
  let? _ := validate_compatible_instants "valid_to" (mv_valid_to_ms v) (mv_valid_to_unix_nanos v) in
  match effective_valid_from_unix_nanos v, effective_valid_to_unix_nanos v with
  | Some from, Some to =>
      if to <=? from then
        Err (violation "valid_to" "valid_to must be greater than valid_from" InvalidFormat)
      else Ok tt
  | _, _ => Ok tt
  end.

Definition version_validate (v : MemoryVersion) : ContractResult unit :=
  let? _ := validate_schema_version (mv_schema_version v) in
  let? _ := validate_identifier "version_id" (mv_version_id v) MAX_MEMORY_ID_BYTES in
  let? _ := validate_identifier "assertion_id" (mv_assertion_id v) MAX_MEMORY_ID_BYTES in
  if Zlength (mv_parent_version_ids v) >? MAX_MEMORY_PARENTS then
    Err (exceeds_maximum "parent_version_ids")
  else
    let? _ := validate_unique_ids "parent_version_ids" (mv_parent_version_ids v) in
    if existsb (λ id, String.eqb id (mv_version_id v)) (mv_parent_version_ids v) then
      Err (violation "parent_version_ids" "a version cannot be its own parent" InvalidFormat)
    else
      let? _ := memory_scope_validate (mv_scope v) in
      let? _ := content_validate (mv_content v) in
      if bool_decide (mv_kind v ≠ content_kind (mv_content v)) then
        Err (violation "kind" "version kind does not match content kind" InvalidFormat)
      else
        let? _ := validate_sha256 "content_sha256" (mv_content_sha256 v) in
        let? actual_content_hash := canonical_content_sha256 (mv_content v) in
        if negb (String.eqb (mv_content_sha256 v) actual_content_hash) then
          Err (violation "content_sha256" "content_sha256 does not match canonical content"
                 InvalidFormat)
        else
          let? _ := validate_valid_time v in
          if confidence_malformed (mv_confidence v) then
            Err (violation "confidence" "confidence must be finite and between 0 and 1" InvalidNumber)
          else
            let? _ := validate_nonempty_list "evidence_ids" (mv_evidence_ids v) MAX_MEMORY_EVIDENCE in
            let? _ := validate_unique_ids "evidence_ids" (mv_evidence_ids v) in
            let? _ := validate_optional_identifier "derivation_id" (mv_derivation_id v)
                        MAX_MEMORY_ID_BYTES in
            let? _ := validate_optional_identifier "compiler_artifact_id" (mv_compiler_artifact_id v)
                        MAX_MEMORY_ID_BYTES in
            let? _ := validate_identifier "policy_decision_id" (mv_policy_decision_id v)
                        MAX_MEMORY_ID_BYTES in
            let? _ := validate_sequence "committed_sequence" (mv_committed_sequence v) in
            let? _ := validate_timestamp "committed_at_ms" (mv_committed_at_ms v) in
            let? _ := validate_identifier "created_by_principal_id" (mv_created_by_principal_id v)
                        MAX_MEMORY_ID_BYTES in
            validate_authority_combination v.
End versions.

Inductive MemoryTemporalQuery :=
| QCurrent (valid_at_unix_nanos : Z)
| QValidAt (valid_at_unix_nanos : Z)
| QSystemAsOf (commit_sequence valid_at_unix_nanos : Z)
| QValidAtAsKnownAt (valid_at_unix_nanos commit_sequence : Z).

(** Sequence zero is the view before the first mutation. *)
Definition temporal_query_validate (q : MemoryTemporalQuery) : ContractResult unit := Ok tt.

Definition valid_at_unix_nanos (q : MemoryTemporalQuery) : Z :=
  match q with QCurrent t | QValidAt t | QSystemAsOf _ t | QValidAtAsKnownAt t _ => t end.

Definition system_sequence (q : MemoryTemporalQuery) (current_sequence : Z) : Z :=
  match q with
  | QCurrent _ | QValidAt _ => current_sequence
  | QSystemAsOf n _ | QValidAtAsKnownAt _ n => n
  end.

(** ** Relations, reinforcements, derivations *)

Inductive MemoryRelationKind := Supersedes | ConflictsWith | DerivedFrom | Reinforces.

Record MemoryRelation := mkRelation {
  rl_schema_version : Z;
  rl_relation_id : string;
  rl_workspace_id : string;
  rl_kind : MemoryRelationKind;
  rl_from_version_id : string;
  rl_to_version_id : string;
  rl_mutation_id : string;
  rl_committed_sequence : Z;
}.

Definition relation_validate (r : MemoryRelation) : ContractResult unit :=
  let? _ := validate_schema_version (rl_schema_version r) in
  let? _ := validate_identifier "relation_id" (rl_relation_id r) MAX_MEMORY_ID_BYTES in
  let? _ := validate_identifier "workspace_id" (rl_workspace_id r) MAX_MEMORY_SCOPE_BYTES in
  let? _ := validate_identifier "from_version_id" (rl_from_version_id r) MAX_MEMORY_ID_BYTES in
  let? _ := validate_identifier "to_version_id" (rl_to_version_id r) MAX_MEMORY_ID_BYTES in
  if String.eqb (rl_from_version_id r) (rl_to_version_id r) then
    Err (violation "to_version_id" "a relation must connect distinct versions" InvalidFormat)
  else
    let? _ := validate_identifier "mutation_id" (rl_mutation_id r) MAX_MEMORY_ID_BYTES in
    validate_sequence "committed_sequence" (rl_committed_sequence r).

Inductive MemoryReinforcementOutcome := RSucceeded | RFailedOutcome | RNeutral.

Record MemoryReinforcement := mkReinforcement {
  rf_schema_version : Z;
  rf_reinforcement_id : string;
  rf_workspace_id : string;
  rf_version_id : string;
  rf_evidence_ids : list string;
  rf_outcome : MemoryReinforcementOutcome;
  rf_outcome_id : string;
  rf_utility_micros : Z;
  rf_policy_decision_id : string;
  rf_created_by_principal_id : string;
  rf_committed_sequence : Z;
  rf_committed_at_ms : Z;
}.

(** [!(-1_000_000..=1_000_000).contains(&utility_micros)]. *)
Definition utility_out_of_range (utility_micros : Z) : bool :=
  negb ((-1000000 <=? utility_micros) && (utility_micros <=? 1000000)).

Definition reinforcement_validate (r : MemoryReinforcement) : ContractResult unit :=
  let? _ := validate_schema_version (rf_schema_version r) in
  let? _ := validate_identifier "reinforcement_id" (rf_reinforcement_id r) MAX_MEMORY_ID_BYTES in
  let? _ := validate_identifier "workspace_id" (rf_workspace_id r) MAX_MEMORY_SCOPE_BYTES in
  let? _ := validate_identifier "version_id" (rf_version_id r) MAX_MEMORY_ID_BYTES in
  let? _ := validate_nonempty_list "reinforcement.evidence_ids" (rf_evidence_ids r)
              MAX_MEMORY_EVIDENCE in
  let? _ := validate_unique_ids "reinforcement.evidence_ids" (rf_evidence_ids r) in
  let? _ := validate_identifier "outcome_id" (rf_outcome_id r) MAX_MEMORY_ID_BYTES in
  if utility_out_of_range (rf_utility_micros r) then
    Err (violation "utility_micros" "reinforcement utility must be between -1000000 and 1000000"
           InvalidNumber)
  else
    let? _ := validate_identifier "policy_decision_id" (rf_policy_decision_id r) MAX_MEMORY_ID_BYTES in
    let? _ := validate_identifier "created_by_principal_id" (rf_created_by_principal_id r)
                MAX_MEMORY_ID_BYTES in
    let? _ := validate_sequence "committed_sequence" (rf_committed_sequence r) in
    validate_timestamp "committed_at_ms" (rf_committed_at_ms r).

Record DerivationRecord := mkDerivation {
  dv_schema_version : Z;
  dv_derivation_id : string;
  dv_workspace_id : string;
  dv_input_version_ids : list string;
  dv_input_evidence_ids : list string;
  dv_operation : string;
  dv_compiler_artifact_id : option string;
  dv_deterministic_parameters_sha256 : string;
  dv_output_version_id : string;
  dv_committed_sequence : Z;
}.

Definition derivation_validate (d : DerivationRecord) : ContractResult unit :=
  let? _ := validate_schema_version (dv_schema_version d) in
  let? _ := validate_identifier "derivation_id" (dv_derivation_id d) MAX_MEMORY_ID_BYTES in
  let? _ := validate_identifier "workspace_id" (dv_workspace_id d) MAX_MEMORY_SCOPE_BYTES in
  let? _ := validate_unique_ids "input_version_ids" (dv_input_version_ids d) in
  let? _ := validate_unique_ids "input_evidence_ids" (dv_input_evidence_ids d) in
  if bool_decide (dv_input_version_ids d = []) && bool_decide (dv_input_evidence_ids d = []) then
    Err (empty_violation "derivation inputs")
  else
    let? _ := validate_identifier "operation" (dv_operation d) MAX_MEMORY_SCOPE_BYTES in
    let? _ := validate_optional_identifier "compiler_artifact_id" (dv_compiler_artifact_id d)
                MAX_MEMORY_ID_BYTES in
    let? _ := validate_sha256 "deterministic_parameters_sha256"
                (dv_deterministic_parameters_sha256 d) in
    let? _ := validate_identifier "output_version_id" (dv_output_version_id d) MAX_MEMORY_ID_BYTES in
    validate_sequence "committed_sequence" (dv_committed_sequence d).

(** ** Deletion *)

Inductive MemoryDeletionSelector :=
| SelSource (source_plane source_id : string)
| SelDataSubject (data_subject_id : string).

Definition selector_validate (s : MemoryDeletionSelector) : ContractResult unit :=
  match s with
  | SelSource source_plane source_id =>
      let? _ := validate_identifier "deletion_selector.source_plane" source_plane
                  MAX_MEMORY_SCOPE_BYTES in
      validate_identifier "deletion_selector.source_id" source_id MAX_MEMORY_ID_BYTES
  | SelDataSubject data_subject_id =>
      validate_identifier "deletion_selector.data_subject_id" data_subject_id MAX_MEMORY_ID_BYTES
  end.

Inductive MemoryDeletionTargetKind :=
| TSelector | TAssertion | TVersion | TEvidence | TObservation | TReinforcement | TRecallSnapshot.

Record MemoryDeletionPlan := mkPlan {
  dp_schema_version : Z;
  dp_plan_id : string;
  dp_workspace_id : string;
  dp_namespace : string;
  dp_selector : MemoryDeletionSelector;
  dp_affected_assertion_ids : list string;
  dp_affected_version_ids : list string;
  dp_affected_evidence_ids : list string;
  dp_affected_observation_ids : list string;
  dp_affected_reinforcement_ids : list string;
  dp_affected_snapshot_ids : list string;
  dp_created_sequence : Z;
  dp_created_at_ms : Z;
  dp_expires_at_ms : Z;
  dp_created_by_principal_id : string;
  dp_access_scope_sha256 : string;
  dp_reason : string;
  dp_plan_sha256 : string;
}.

(** serde_json on the fields of a plan, its digest apart. *)
Class PlanCodec := { plan_to_vec : MemoryDeletionPlan → option string }.

Section plans.
Context `{!Sha256, !PlanCodec}.

Definition memory_deletion_plan_sha256 (p : MemoryDeletionPlan) : ContractResult string :=
  match plan_to_vec p with
  | None => Err (violation "deletion_plan" "deletion plan cannot be encoded" InvalidFormat)
  | Some encoded => Ok (sha256_hex encoded)
  end.

Definition checked_sum (l : list Z) : option Z :=
  foldl (λ acc n, acc ≫= λ a, checked_add usize_max a n) (Some 0) l.

Definition plan_validate (p : MemoryDeletionPlan) : ContractResult unit :=
  let? _ := validate_schema_version (dp_schema_version p) in
  let? _ := validate_identifier "plan_id" (dp_plan_id p) MAX_MEMORY_ID_BYTES in
  let? _ := validate_identifier "workspace_id" (dp_workspace_id p) MAX_MEMORY_SCOPE_BYTES in
  let? _ := validate_namespace (dp_namespace p) in
  let? _ := selector_validate (dp_selector p) in
  let? _ := validate_deletion_ids "affected_assertion_ids" (dp_affected_assertion_ids p) in
  let? _ := validate_deletion_ids "affected_version_ids" (dp_affected_version_ids p) in
  let? _ := validate_deletion_ids "affected_evidence_ids" (dp_affected_evidence_ids p) in
  let? _ := validate_deletion_ids "affected_observation_ids" (dp_affected_observation_ids p) in
  let? _ := validate_deletion_ids "affected_reinforcement_ids" (dp_affected_reinforcement_ids p) in
  let? _ := validate_deletion_ids "affected_snapshot_ids" (dp_affected_snapshot_ids p) in
  match checked_sum ((λ l, Zlength l) <$> [dp_affected_assertion_ids p; dp_affected_version_ids p;
          dp_affected_evidence_ids p; dp_affected_observation_ids p; dp_affected_reinforcement_ids p;
          dp_affected_snapshot_ids p]) with
  | None => Err (violation "affected_targets" "deletion target count overflow" ExceedsMaximum)
  | Some total_targets =>
      if total_targets >? MAX_MEMORY_DELETION_TARGETS then Err (exceeds_maximum "affected_targets")
      else
        let? _ := validate_timestamp "created_at_ms" (dp_created_at_ms p) in
        let? _ := validate_timestamp "expires_at_ms" (dp_expires_at_ms p) in
        if dp_expires_at_ms p <=? dp_created_at_ms p then
          Err (violation "expires_at_ms" "deletion plan expiry must be after creation" InvalidFormat)
        else
          let? _ := validate_identifier "created_by_principal_id" (dp_created_by_principal_id p)
                      MAX_MEMORY_ID_BYTES in
          let? _ := validate_sha256 "access_scope_sha256" (dp_access_scope_sha256 p) in
          let? _ := validate_text "reason" (dp_reason p) MAX_MEMORY_TEXT_BYTES in
          let? _ := validate_sha256 "plan_sha256" (dp_plan_sha256 p) in
          let? expected := memory_deletion_plan_sha256 p in
          if negb (String.eqb (dp_plan_sha256 p) expected) then
            Err (violation "plan_sha256" "deletion plan digest does not match its canonical fields"
                   InvalidFormat)
          else Ok tt
  end.
End plans.

Record MemoryDeletionTombstone := mkTombstone {
  dt_schema_version : Z;
  dt_tombstone_id : string;
  dt_workspace_id : string;
  dt_namespace : string;
  dt_target_kind : MemoryDeletionTargetKind;
  dt_target_id : string;
  dt_target_sha256 : string;
  dt_plan_id : string;
  dt_execution_id : string;
  dt_mutation_id : string;
  dt_policy_decision_id : string;
  dt_committed_sequence : Z;
  dt_committed_at_ms : Z;
}.

Definition tombstone_validate (t : MemoryDeletionTombstone) : ContractResult unit :=
  let? _ := validate_schema_version (dt_schema_version t) in
  let? _ := validate_identifier "tombstone_id" (dt_tombstone_id t) MAX_MEMORY_ID_BYTES in
  let? _ := validate_identifier "workspace_id" (dt_workspace_id t) MAX_MEMORY_SCOPE_BYTES in
  let? _ := validate_namespace (dt_namespace t) in
  let? _ := validate_identifier "target_id" (dt_target_id t) MAX_MEMORY_ID_BYTES in
  let? _ := validate_sha256 "target_sha256" (dt_target_sha256 t) in
  let? _ := validate_identifier "plan_id" (dt_plan_id t) MAX_MEMORY_ID_BYTES in
  let? _ := validate_identifier "execution_id" (dt_execution_id t) MAX_MEMORY_ID_BYTES in
  let? _ := validate_identifier "mutation_id" (dt_mutation_id t) MAX_MEMORY_ID_BYTES in
  let? _ := validate_identifier "policy_decision_id" (dt_policy_decision_id t) MAX_MEMORY_ID_BYTES in
  let? _ := validate_sequence "committed_sequence" (dt_committed_sequence t) in
  validate_timestamp "committed_at_ms" (dt_committed_at_ms t).

Record MemoryDeletionExecution := mkExecution {
  de_schema_version : Z;
  de_execution_id : string;
  de_workspace_id : string;
  de_namespace : string;
  de_plan_id : string;
  de_plan_sha256 : string;
  de_mutation_id : string;
  de_policy_decision_id : string;
  de_principal_id : string;
  de_affected_tombstone_ids : list string;
  de_committed_sequence : Z;
  de_committed_at_ms : Z;
}.

Definition execution_validate (e : MemoryDeletionExecution) : ContractResult unit :=
  let? _ := validate_schema_version (de_schema_version e) in
  let? _ := validate_identifier "execution_id" (de_execution_id e) MAX_MEMORY_ID_BYTES in
  let? _ := validate_identifier "workspace_id" (de_workspace_id e) MAX_MEMORY_SCOPE_BYTES in
  let? _ := validate_namespace (de_namespace e) in
  let? _ := validate_identifier "plan_id" (de_plan_id e) MAX_MEMORY_ID_BYTES in
  let? _ := validate_sha256 "plan_sha256" (de_plan_sha256 e) in
  let? _ := validate_identifier "mutation_id" (de_mutation_id e) MAX_MEMORY_ID_BYTES in
  let? _ := validate_identifier "policy_decision_id" (de_policy_decision_id e) MAX_MEMORY_ID_BYTES in
  let? _ := validate_identifier "principal_id" (de_principal_id e) MAX_MEMORY_ID_BYTES in
  let? _ := validate_nonempty_list "affected_tombstone_ids" (de_affected_tombstone_ids e)
              (MAX_MEMORY_DELETION_TARGETS + 1) in
  let? _ := validate_unique_ids "affected_tombstone_ids" (de_affected_tombstone_ids e) in
  let? _ := validate_sequence "committed_sequence" (de_committed_sequence e) in
  validate_timestamp "committed_at_ms" (de_committed_at_ms e).

(** ** Policy decisions and mutations *)

Inductive PolicyDecisionOutcome :=
| PObserved | PActive | PProposed | PQuarantined | PRetracted | PTombstoned | PReinforced.

Record PolicyDecisionRecord := mkPolicyDecision {
  pd_schema_version : Z;
  pd_policy_decision_id : string;
  pd_workspace_id : string;
  pd_policy_manifest_id : string;
  pd_outcome : PolicyDecisionOutcome;
  pd_source_assurance : SourceAssurance;
  pd_decision_authority : DecisionAuthority;
  pd_reason_codes : list string;
  pd_authorization_decision_id : string;
  pd_committed_sequence : Z;
}.

Definition policy_decision_validate (p : PolicyDecisionRecord) : ContractResult unit :=
  let? _ := validate_schema_version (pd_schema_version p) in
  let? _ := validate_identifier "policy_decision_id" (pd_policy_decision_id p) MAX_MEMORY_ID_BYTES in
  let? _ := validate_identifier "workspace_id" (pd_workspace_id p) MAX_MEMORY_SCOPE_BYTES in
  let? _ := validate_identifier "policy_manifest_id" (pd_policy_manifest_id p) MAX_MEMORY_ID_BYTES in
  let? _ := validate_nonempty_list "reason_codes" (pd_reason_codes p) 32 in
  let? _ := validate_unique_ids "reason_codes" (pd_reason_codes p) in
  let? _ := validate_identifier "authorization_decision_id" (pd_authorization_decision_id p)
              MAX_MEMORY_ID_BYTES in
  validate_sequence "committed_sequence" (pd_committed_sequence p).

Inductive MemoryOperation :=
| MObserve | MPropose | MCommit | MCorrect | MRetract | MForget | MReinforce | MRetentionDelete.

#[global] Instance memory_operation_eq_dec : EqDecision MemoryOperation.
Proof. solve_decision. Defined.

Record MemoryMutation := mkMemoryMutation {
  mm_schema_version : Z;
  mm_mutation_id : string;
  mm_operation : MemoryOperation;
  mm_workspace_id : string;
  mm_assertion_id : string;
  mm_input_version_ids : list string;
  mm_output_version_ids : list string;
  mm_expected_head_version_ids : list string;
  mm_idempotency_key_sha256 : string;
  mm_canonical_request_sha256 : string;
  mm_principal_id : string;
  mm_delegated_agent_id : option string;
  mm_authorization_decision_id : string;
  mm_policy_decision_id : string;
  mm_reason : string;
  mm_committed_sequence : Z;
  mm_committed_at_ms : Z;
}.

Definition validate_outputs (m : MemoryMutation) : ContractResult unit :=
  match mm_operation m with
  | MObserve | MPropose | MCommit | MCorrect =>
      validate_nonempty_list "output_version_ids" (mm_output_version_ids m) MAX_MEMORY_PARENTS
  | _ =>
      if Zlength (mm_output_version_ids m) >? MAX_MEMORY_PARENTS then
        Err (exceeds_maximum "output_version_ids")
      else Ok tt
  end.

Definition memory_mutation_validate (m : MemoryMutation) : ContractResult unit :=
  let? _ := validate_schema_version (mm_schema_version m) in
  let? _ := validate_identifier "mutation_id" (mm_mutation_id m) MAX_MEMORY_ID_BYTES in
  let? _ := validate_identifier "workspace_id" (mm_workspace_id m) MAX_MEMORY_SCOPE_BYTES in
  let? _ := validate_identifier "assertion_id" (mm_assertion_id m) MAX_MEMORY_ID_BYTES in
  let? _ := validate_unique_ids "input_version_ids" (mm_input_version_ids m) in
  let? _ := validate_outputs m in
  let? _ := validate_unique_ids "output_version_ids" (mm_output_version_ids m) in
  let? _ := validate_unique_ids "expected_head_version_ids" (mm_expected_head_version_ids m) in
  let? _ := validate_sha256 "idempotency_key_sha256" (mm_idempotency_key_sha256 m) in
  let? _ := validate_sha256 "canonical_request_sha256" (mm_canonical_request_sha256 m) in
  let? _ := validate_identifier "principal_id" (mm_principal_id m) MAX_MEMORY_ID_BYTES in
  let? _ := validate_optional_identifier "delegated_agent_id" (mm_delegated_agent_id m)
              MAX_MEMORY_ID_BYTES in
  let? _ := validate_identifier "authorization_decision_id" (mm_authorization_decision_id m)
              MAX_MEMORY_ID_BYTES in
  let? _ := validate_identifier "policy_decision_id" (mm_policy_decision_id m) MAX_MEMORY_ID_BYTES in
  let? _ := validate_text "reason" (mm_reason m) MAX_MEMORY_TEXT_BYTES in
  let? _ := validate_sequence "committed_sequence" (mm_committed_sequence m) in
  validate_timestamp "committed_at_ms" (mm_committed_at_ms m).

(** ** Heads and lifecycles *)

Record MemoryHead := mkHead {
  hd_schema_version : Z;
  hd_workspace_id : string;
  hd_assertion_id : string;
  hd_active_version_ids : list string;
  hd_latest_mutation_id : string;
  hd_latest_sequence : Z;
}.

Definition head_validate (h : MemoryHead) : ContractResult unit :=
  let? _ := validate_schema_version (hd_schema_version h) in
  let? _ := validate_identifier "workspace_id" (hd_workspace_id h) MAX_MEMORY_SCOPE_BYTES in
  let? _ := validate_identifier "assertion_id" (hd_assertion_id h) MAX_MEMORY_ID_BYTES in
  if Zlength (hd_active_version_ids h) >? MAX_MEMORY_ACTIVE_HEADS then
    Err (exceeds_maximum "active_version_ids")
  else
    let? _ := validate_unique_ids "active_version_ids" (hd_active_version_ids h) in
    let? _ := validate_identifier "latest_mutation_id" (hd_latest_mutation_id h) MAX_MEMORY_ID_BYTES in
    validate_sequence "latest_sequence" (hd_latest_sequence h).

Record VersionLifecycle := mkLifecycle {
  lc_schema_version : Z;
  lc_workspace_id : string;
  lc_version_id : string;
  lc_state : VersionState;
  lc_transition_sequence : Z;
  lc_transition_mutation_id : string;
}.

Definition lifecycle_validate (l : VersionLifecycle) : ContractResult unit :=
  let? _ := validate_schema_version (lc_schema_version l) in
  let? _ := validate_identifier "workspace_id" (lc_workspace_id l) MAX_MEMORY_SCOPE_BYTES in
  let? _ := validate_identifier "version_id" (lc_version_id l) MAX_MEMORY_ID_BYTES in
  let? _ := validate_sequence "transition_sequence" (lc_transition_sequence l) in
  validate_identifier "transition_mutation_id" (lc_transition_mutation_id l) MAX_MEMORY_ID_BYTES.

(** ** Idempotency and the projections *)

Record IdempotencyRecord := mkIdempotency {
  ir_schema_version : Z;
  ir_principal_id : string;
  ir_workspace_id : string;
  ir_operation : MemoryOperation;
  ir_idempotency_key_sha256 : string;
  ir_canonical_request_sha256 : string;
  ir_policy_decision_id : string;
  ir_mutation_id : string;
  ir_assertion_id : string;
  ir_version_ids : list string;
  ir_commit_sequence : Z;
}.

Definition idempotency_validate (i : IdempotencyRecord) : ContractResult unit :=
  let? _ := validate_schema_version (ir_schema_version i) in
  let? _ := validate_identifier "principal_id" (ir_principal_id i) MAX_MEMORY_ID_BYTES in
  let? _ := validate_identifier "workspace_id" (ir_workspace_id i) MAX_MEMORY_SCOPE_BYTES in
  let? _ := validate_sha256 "idempotency_key_sha256" (ir_idempotency_key_sha256 i) in
  let? _ := validate_sha256 "canonical_request_sha256" (ir_canonical_request_sha256 i) in
  let? _ := validate_identifier "policy_decision_id" (ir_policy_decision_id i) MAX_MEMORY_ID_BYTES in
  let? _ := validate_identifier "mutation_id" (ir_mutation_id i) MAX_MEMORY_ID_BYTES in
  let? _ := validate_identifier "assertion_id" (ir_assertion_id i) MAX_MEMORY_ID_BYTES in
  let? _ := validate_nonempty_list "version_ids" (ir_version_ids i) MAX_MEMORY_PARENTS in
  let? _ := validate_unique_ids "version_ids" (ir_version_ids i) in
  validate_sequence "commit_sequence" (ir_commit_sequence i).

Record ProjectionOutboxEntry := mkOutbox {
  ox_schema_version : Z;
  ox_workspace_id : string;
  ox_sequence : Z;
  ox_mutation_id : string;
  ox_assertion_id : string;
  ox_version_ids : list string;
}.

#[global] Instance outbox_eq_dec : EqDecision ProjectionOutboxEntry.
Proof. solve_decision. Defined.

Definition outbox_validate (o : ProjectionOutboxEntry) : ContractResult unit :=
  let? _ := validate_schema_version (ox_schema_version o) in
  let? _ := validate_identifier "workspace_id" (ox_workspace_id o) MAX_MEMORY_SCOPE_BYTES in
  let? _ := validate_sequence "sequence" (ox_sequence o) in
  let? _ := validate_identifier "mutation_id" (ox_mutation_id o) MAX_MEMORY_ID_BYTES in
  let? _ := validate_identifier "assertion_id" (ox_assertion_id o) MAX_MEMORY_ID_BYTES in
  let? _ := validate_nonempty_list "version_ids" (ox_version_ids o) MAX_MEMORY_PARENTS in
  validate_unique_ids "version_ids" (ox_version_ids o).

Inductive ProjectionStatus := PCatchingUp | PReady | PFailed.

#[global] Instance projection_status_eq_dec : EqDecision ProjectionStatus.
Proof. solve_decision. Defined.

Record ProjectionCheckpoint := mkProjection {
  pc_schema_version : Z;
  pc_workspace_id : string;
  pc_projection_id : string;
  pc_applied_sequence : Z;
  pc_status : ProjectionStatus;
  pc_last_error : option string;
  pc_updated_at_ms : Z;
}.

Definition projection_checkpoint_validate (c : ProjectionCheckpoint) : ContractResult unit :=
  let? _ := validate_schema_version (pc_schema_version c) in
  let? _ := validate_identifier "workspace_id" (pc_workspace_id c) MAX_MEMORY_SCOPE_BYTES in
  let? _ := validate_identifier "projection_id" (pc_projection_id c) MAX_MEMORY_ID_BYTES in
  let? _ := validate_timestamp "updated_at_ms" (pc_updated_at_ms c) in
  match pc_status c, pc_last_error c with
  | PFailed, Some error => validate_text "last_error" error MAX_MEMORY_TEXT_BYTES
  | PFailed, None => Err (empty_violation "last_error")
  | _, Some _ =>
      Err (violation "last_error" "non-failed projection checkpoints must not include last_error"
             InvalidFormat)
  | _, None => Ok tt
  end.

Record ProjectionSetManifest := mkSetManifest {
  pm_schema_version : Z;
  pm_projection_set_id : string;
  pm_projection_set_version : Z;
  pm_projection_ids : list string;
  pm_artifact_ids : list string;
  pm_policy_manifest_id : option string;
  pm_tokenizer_artifact_id : option string;
  pm_context_firewall_artifact_id : option string;
  pm_server_build_id : option string;
  pm_manifest_sha256 : string;
}.

#[global] Instance set_manifest_eq_dec : EqDecision ProjectionSetManifest.
Proof. solve_decision. Defined.

Definition set_manifest_validate (p : ProjectionSetManifest) : ContractResult unit :=
  let? _ := validate_schema_version (pm_schema_version p) in
  let? _ := validate_identifier "projection_set_id" (pm_projection_set_id p) MAX_MEMORY_ID_BYTES in
  if pm_projection_set_version p =? 0 then
    Err (violation "projection_set_version" "projection_set_version must be greater than zero"
           BelowMinimum)
  else
    let? _ := validate_nonempty_list "projection_ids" (pm_projection_ids p) MAX_MEMORY_PROJECTIONS in
    let? _ := validate_unique_ids "projection_ids" (pm_projection_ids p) in
    if Zlength (pm_artifact_ids p) >? MAX_MEMORY_PROJECTIONS then Err (exceeds_maximum "artifact_ids")
    else
      let? _ := validate_unique_ids "artifact_ids" (pm_artifact_ids p) in
      let? _ := validate_optional_identifier "policy_manifest_id" (pm_policy_manifest_id p)
                  MAX_MEMORY_ID_BYTES in
      let? _ := validate_optional_identifier "tokenizer_artifact_id" (pm_tokenizer_artifact_id p)
                  MAX_MEMORY_ID_BYTES in
      let? _ := validate_optional_identifier "context_firewall_artifact_id"
                  (pm_context_firewall_artifact_id p) MAX_MEMORY_ID_BYTES in
      let? _ := validate_optional_identifier "server_build_id" (pm_server_build_id p)
                  MAX_MEMORY_ID_BYTES in
      validate_sha256 "manifest_sha256" (pm_manifest_sha256 p).

Record VisibilityReceipt := mkVisibility {
  vr_schema_version : Z;
  vr_workspace_id : string;
  vr_commit_sequence : Z;
  vr_projection_set_id : string;
  vr_projection_set_version : Z;
  vr_visible_sequence : Z;
}.

Definition visibility_validate (v : VisibilityReceipt) : ContractResult unit :=
  let? _ := validate_schema_version (vr_schema_version v) in
  let? _ := validate_identifier "workspace_id" (vr_workspace_id v) MAX_MEMORY_SCOPE_BYTES in
  let? _ := validate_sequence "commit_sequence" (vr_commit_sequence v) in
  let? _ := validate_identifier "projection_set_id" (vr_projection_set_id v) MAX_MEMORY_ID_BYTES in
  if vr_projection_set_version v =? 0 then
    Err (violation "projection_set_version" "projection_set_version must be greater than zero"
           BelowMinimum)
  else if vr_visible_sequence v >? vr_commit_sequence v then
    Err (violation "visible_sequence" "visible_sequence must not exceed commit_sequence" InvalidFormat)
  else Ok tt.
