(* ===== verification/Compiler.v ===== *)
(** * The memory compiler

    [crates/contracts/src/memory_compiler.rs]: the contracts of scheduled compiler
    jobs, the input and the output of a compiler of observations into proposals,
    the check of a plan against its input, and the deterministic reference
    compiler. serde_json is the class [CompilerCodec]; a compiler that is only
    known through the trait is the class [MemoryCompiler]. *)

From Stdlib Require Import Ascii.
From S2P Require Import Prelude Float32 Text Sorting Storage Hex Keys Filter Knowledge MemoryContracts.

Definition REFERENCE_TEXT_COMPILER_ARTIFACT_ID : string := "compiler:reference-text-v1".
Definition MEMORY_COMPILER_CONTRACT_VERSION : Z := 1.
Definition MAX_MEMORY_COMPILER_JOB_ATTEMPTS : Z := 100.

Inductive MemoryCompilerError :=
| InvalidInput (msg : string)
| InvalidPlan (msg : string)
| CompilerSerialization.

Abbreviation MemoryCompilerResult A := (result MemoryCompilerError A).

(** [error.to_string()]. *)
Definition violation_text (v : ContractViolation) : string :=
  "Contract violation in " +:+ field v +:+ ": " +:+ message v.
Definition compiler_error_text (e : MemoryCompilerError) : string :=
  match e with
  | InvalidInput msg => "invalid compiler input: " +:+ msg
  | InvalidPlan msg => "invalid compiler plan: " +:+ msg
  | CompilerSerialization => "compiler serialization failed"
  end.

(** [map_err(|error| MemoryCompilerError::InvalidInput(error.to_string()))], and
    the same into [InvalidPlan]. *)
Definition input_error {A} (r : ContractResult A) : MemoryCompilerResult A :=
  match r with Ok a => Ok a | Err v => Err (InvalidInput (violation_text v)) end.
Definition content_error {A} (r : ContractResult A) : MemoryCompilerResult A :=
  match r with Ok a => Ok a | Err v => Err (InvalidPlan (violation_text v)) end.
Definition plan_error {A} (r : MemoryCompilerResult A) : MemoryCompilerResult A :=
  match r with Ok a => Ok a | Err e => Err (InvalidPlan (compiler_error_text e)) end.

(** [serde_json::to_vec(..)?]. *)
Definition to_vec (bytes : option string) : MemoryCompilerResult string :=
  match bytes with Some b => Ok b | None => Err CompilerSerialization end.

Definition refuse (bad : bool) (e : MemoryCompilerError) : MemoryCompilerResult unit :=
  if bad then Err e else Ok tt.

(** ** Fields *)

Definition validate_text (field value : string) (maximum : Z) : MemoryCompilerResult unit :=
  refuse (bool_decide (trim (str_chars value) = [])
          || bool_decide (trim (str_chars value) ≠ str_chars value)
          || (byte_len value >? maximum) || existsb (Z.eqb 0) (str_chars value))
    (InvalidInput (field +:+ " must be non-empty, trimmed, NUL-free, and bounded")).

Definition validate_id (field value : string) : MemoryCompilerResult unit :=
  let? _ := validate_text field value MAX_MEMORY_ID_BYTES in
  refuse (existsb is_control (str_chars value))
    (InvalidInput (field +:+ " must not contain control characters")).

Definition validate_sha256 (field value : string) : MemoryCompilerResult unit :=
  refuse (negb (is_sha256 value))
    (InvalidInput (field +:+ " must be a lowercase hexadecimal SHA-256 digest")).

Fixpoint is_strictly_sorted_unique (values : list string) : bool :=
  match values with
  | a :: (b :: _) as rest => str_ltb a b && is_strictly_sorted_unique rest
  | _ => true
  end.

Fixpoint for_each {A} (check : A → MemoryCompilerResult unit) (l : list A) : MemoryCompilerResult unit :=
  match l with [] => Ok tt | x :: l => let? _ := check x in for_each check l end.

(** ** Jobs *)

Inductive MemoryCompilerJobState := JPending | JRunning | JSucceeded | JDeadLetter.

#[global] Instance job_state_eq_dec : EqDecision MemoryCompilerJobState.
Proof. solve_decision. Defined.

Record MemoryCompilerJob := mkJob {
  jb_schema_version : Z;
  jb_job_id : string;
  jb_workspace_id : string;
  jb_namespace : string;
  jb_observation_ids : list string;
  jb_compiler_artifact_id : string;
  jb_policy_manifest_id : string;
  jb_scheduled_at_ms : Z;
  jb_max_attempts : Z;
  jb_created_at_ms : Z;
  jb_created_by_principal_id : string;
  jb_job_sha256 : string;
}.

#[global] Instance job_eq_dec : EqDecision MemoryCompilerJob.
Proof. solve_decision. Defined.

Record MemoryCompilerJobStatus := mkJobStatus {
  js_schema_version : Z;
  js_job_id : string;
  js_workspace_id : string;
  js_state : MemoryCompilerJobState;
  js_attempt_count : Z;
  js_next_attempt_at_ms : Z;
  js_lease_owner_id : option string;
  js_lease_expires_at_ms : option Z;
  js_plan_sha256 : option string;
  js_last_error_code : option string;
  js_updated_at_ms : Z;
}.

Record MemoryCompilerJobFailure := mkJobFailure {
  jf_schema_version : Z;
  jf_failure_id : string;
  jf_workspace_id : string;
  jf_job_id : string;
  jf_attempt : Z;
  jf_worker_id : string;
  jf_error_code : string;
  jf_retryable : bool;
  jf_failed_at_ms : Z;
}.

(** ** Inputs *)

#[global] Instance memory_scope_eq_dec : EqDecision MemoryScope.
Proof. solve_decision. Defined.

Record CompilerObservation := mkCompilerObservation {
  co_observation_id : string;
  co_evidence_id : string;
  co_scope : MemoryScope;
  co_retained_text : string;
  co_predicate_hint : string;
  co_valid_from_unix_nanos : option Z;
  co_valid_to_unix_nanos : option Z;
}.

Record CompilerHead := mkCompilerHead {
  ch_version_id : string;
  ch_scope : MemoryScope;
  ch_predicate : string;
  ch_kind : MemoryKind;
}.

Record MemoryCompilerInput := mkInput {
  ci_contract_version : Z;
  ci_observations : list CompilerObservation;
  ci_existing_authorized_heads : list CompilerHead;
  ci_policy_manifest_id : string;
  ci_compiler_artifact_id : string;
}.

Definition nonpositive_instant (instant : option Z) : bool :=
  match instant with Some instant => instant <=? 0 | None => false end.

Definition observation_check (o : CompilerObservation) : MemoryCompilerResult unit :=
  let? _ := validate_id "observation_id" (co_observation_id o) in
  let? _ := validate_id "evidence_id" (co_evidence_id o) in
  let? _ := input_error (memory_scope_validate (co_scope o)) in
  let? _ := validate_text "retained_text" (co_retained_text o) MAX_MEMORY_TEXT_BYTES in
  let? _ := validate_id "predicate_hint" (co_predicate_hint o) in
  let? _ := refuse (nonpositive_instant (co_valid_from_unix_nanos o)
                    || nonpositive_instant (co_valid_to_unix_nanos o))
              (InvalidInput "valid-time instants must be greater than zero") in
  refuse (match co_valid_from_unix_nanos o, co_valid_to_unix_nanos o with
          | Some from, Some to => to <=? from
          | _, _ => false
          end)
    (InvalidInput "valid_to_unix_nanos must be greater than valid_from_unix_nanos").

Definition head_check (h : CompilerHead) : MemoryCompilerResult unit :=
  let? _ := validate_id "head.version_id" (ch_version_id h) in
  let? _ := input_error (memory_scope_validate (ch_scope h)) in
  validate_id "head.predicate" (ch_predicate h).

Fixpoint observations_distinct (observation_ids evidence_ids : gset string) (l : list CompilerObservation)
    : MemoryCompilerResult unit :=
  match l with
  | [] => Ok tt
  | o :: l =>
      let? _ := observation_check o in
      if decide (co_observation_id o ∈ observation_ids) then
        Err (InvalidInput "observation IDs must be unique")
      else if decide (co_evidence_id o ∈ evidence_ids) then
        Err (InvalidInput "observation evidence IDs must be unique")
      else
        observations_distinct ({[co_observation_id o]} ∪ observation_ids)
          ({[co_evidence_id o]} ∪ evidence_ids) l
  end.

Fixpoint heads_distinct (head_ids : gset string) (l : list CompilerHead) : MemoryCompilerResult unit :=
  match l with
  | [] => Ok tt
  | h :: l =>
      let? _ := head_check h in
      if decide (ch_version_id h ∈ head_ids) then Err (InvalidInput "existing head IDs must be unique")
      else heads_distinct ({[ch_version_id h]} ∪ head_ids) l
  end.

Definition input_validate (i : MemoryCompilerInput) : MemoryCompilerResult unit :=
  let? _ := refuse (negb (ci_contract_version i =? MEMORY_COMPILER_CONTRACT_VERSION))
              (InvalidInput "unsupported compiler contract version") in
  let? _ := refuse (bool_decide (ci_observations i = [])
                    || (Zlength (ci_observations i) >? MAX_MEMORY_EVIDENCE))
              (InvalidInput "observations count out of range") in
  let? _ := validate_id "policy_manifest_id" (ci_policy_manifest_id i) in
  let? _ := validate_id "compiler_artifact_id" (ci_compiler_artifact_id i) in
  let? _ := observations_distinct ∅ ∅ (ci_observations i) in
  let? _ := refuse (Zlength (ci_existing_authorized_heads i)
                    >? MAX_MEMORY_ACTIVE_HEADS * Zlength (ci_observations i))
              (InvalidInput "too many existing authorized heads") in
  heads_distinct ∅ (ci_existing_authorized_heads i).

(** ** Plans *)

Record CompilerCandidate := mkCandidate {
  cc_candidate_id : string;
  cc_source_observation_ids : list string;
  cc_input_evidence_ids : list string;
  cc_scope : MemoryScope;
  cc_predicate : string;
  cc_content : MemoryContent;
  cc_valid_from_unix_nanos : option Z;
  cc_valid_to_unix_nanos : option Z;
  cc_epistemic_formation : EpistemicFormation;
  cc_expected_head_version_ids : list string;
  cc_reason : string;
  cc_compiler_artifact_id : string;
  cc_deterministic_parameters_sha256 : string;
}.

Inductive CompilerProposalRelationKind := PossibleDuplicate | Contradicts.

#[global] Instance proposal_relation_kind_eq_dec : EqDecision CompilerProposalRelationKind.
Proof. solve_decision. Defined.

Record CompilerProposalRelation := mkProposalRelation {
  cp_relation_id : string;
  cp_kind : CompilerProposalRelationKind;
  cp_from_candidate_id : string;
  cp_to_candidate_id : string;
  cp_reason_code : string;
}.

Record MemoryCommitPlan := mkCommitPlan {
  mp_contract_version : Z;
  mp_compiler_artifact_id : string;
  mp_policy_manifest_id : string;
  mp_candidates : list CompilerCandidate;
  mp_proposed_relations : list CompilerProposalRelation;
  mp_plan_sha256 : string;
}.

(** The fields of a candidate its id is made of, and those of a plan its digest
    is made of. *)
Record CandidateFingerprint := mkCandidateFingerprint {
  cf_source_observation_ids : list string;
  cf_input_evidence_ids : list string;
  cf_scope : MemoryScope;
  cf_predicate : string;
  cf_content : MemoryContent;
  cf_valid_from_unix_nanos : option Z;
  cf_valid_to_unix_nanos : option Z;
  cf_epistemic_formation : EpistemicFormation;
  cf_expected_head_version_ids : list string;
  cf_reason : string;
  cf_compiler_artifact_id : string;
  cf_deterministic_parameters_sha256 : string;
}.

Record PlanFingerprint := mkPlanFingerprint {
  pf_contract_version : Z;
  pf_compiler_artifact_id : string;
  pf_policy_manifest_id : string;
  pf_candidates : list CompilerCandidate;
  pf_proposed_relations : list CompilerProposalRelation;
}.

(** The immutable fields of a job, in the order they are digested. *)
Definition JobFields : Type :=
  Z * string * string * string * list string * string * string * Z * Z * Z * string.

Definition job_fields (j : MemoryCompilerJob) : JobFields :=
  (jb_schema_version j, jb_job_id j, jb_workspace_id j, jb_namespace j, jb_observation_ids j,
   jb_compiler_artifact_id j, jb_policy_manifest_id j, jb_scheduled_at_ms j, jb_max_attempts j,
   jb_created_at_ms j, jb_created_by_principal_id j).

(** [serde_json::to_vec] of what the compiler encodes. *)
Class CompilerCodec := {
  job_fields_to_vec : JobFields → option string;
  candidate_to_vec : CandidateFingerprint → option string;
  plan_fingerprint_to_vec : PlanFingerprint → option string;
  commit_plan_to_vec : MemoryCommitPlan → option string;
}.

Section compiler.
Context `{!ContentCodec, !CompilerCodec, !Sha256}.

Definition memory_compiler_job_sha256 (j : MemoryCompilerJob) : MemoryCompilerResult string :=
  let? bytes := to_vec (job_fields_to_vec (job_fields j)) in Ok (sha256_hex bytes).

Definition job_validate (j : MemoryCompilerJob) : MemoryCompilerResult unit :=
  let? _ := refuse (negb (jb_schema_version j =? MEMORY_SCHEMA_VERSION))
              (InvalidInput "unsupported job schema version") in
  let? _ := validate_id "job_id" (jb_job_id j) in
  let? _ := validate_id "workspace_id" (jb_workspace_id j) in
  let? _ := validate_id "namespace" (jb_namespace j) in
  let? _ := refuse (bool_decide (jb_observation_ids j = [])
                    || (Zlength (jb_observation_ids j) >? MAX_MEMORY_EVIDENCE))
              (InvalidInput "observation_ids count out of range") in
  let? _ := refuse (negb (is_strictly_sorted_unique (jb_observation_ids j)))
              (InvalidInput "observation_ids must be strictly sorted and unique") in
  let? _ := for_each (validate_id "observation_id") (jb_observation_ids j) in
  let? _ := validate_id "compiler_artifact_id" (jb_compiler_artifact_id j) in
  let? _ := validate_id "policy_manifest_id" (jb_policy_manifest_id j) in
  let? _ := refuse ((jb_scheduled_at_ms j =? 0) || (jb_created_at_ms j =? 0))
              (InvalidInput "job timestamps must be greater than zero") in
  let? _ := refuse ((jb_max_attempts j =? 0) || (jb_max_attempts j >? MAX_MEMORY_COMPILER_JOB_ATTEMPTS))
              (InvalidInput "max_attempts out of range") in
  let? _ := validate_id "created_by_principal_id" (jb_created_by_principal_id j) in
  let? _ := validate_sha256 "job_sha256" (jb_job_sha256 j) in
  let? digest := memory_compiler_job_sha256 j in
  refuse (negb (String.eqb (jb_job_sha256 j) digest))
    (InvalidInput "job digest differs from canonical immutable fields").

Definition validate_optional (check : string → MemoryCompilerResult unit) (value : option string)
    : MemoryCompilerResult unit :=
  match value with Some value => check value | None => Ok tt end.

(** What each state says of the lease, the plan and the last error. *)
Definition state_malformed (s : MemoryCompilerJobStatus) : bool :=
  let no_attempt := js_attempt_count s =? 0 in
  let lease := bool_decide (is_Some (js_lease_owner_id s)) in
  let expiry := bool_decide (is_Some (js_lease_expires_at_ms s)) in
  let plan := bool_decide (is_Some (js_plan_sha256 s)) in
  match js_state s with
  | JPending => lease || expiry || plan
  | JRunning =>
      no_attempt || negb lease
      || match js_lease_expires_at_ms s with Some expiry => expiry <=? js_updated_at_ms s | None => true end
      || plan
  | JSucceeded => no_attempt || lease || expiry || negb plan
  | JDeadLetter =>
      no_attempt || lease || expiry || plan || negb (bool_decide (is_Some (js_last_error_code s)))
  end.

Definition state_refusal (st : MemoryCompilerJobState) : string :=
  match st with
  | JPending => "pending job cannot hold a lease or completed plan"
  | JRunning => "running job requires one live lease and no completed plan"
  | JSucceeded => "succeeded job requires a plan and no lease"
  | JDeadLetter => "dead-letter job requires failure evidence and no lease"
  end.

Definition status_validate (s : MemoryCompilerJobStatus) (j : MemoryCompilerJob) : MemoryCompilerResult unit :=
  let? _ := refuse (negb (js_schema_version s =? MEMORY_SCHEMA_VERSION)
                    || negb (String.eqb (js_job_id s) (jb_job_id j))
                    || negb (String.eqb (js_workspace_id s) (jb_workspace_id j))
                    || (js_attempt_count s >? jb_max_attempts j)
                    || (js_next_attempt_at_ms s =? 0) || (js_updated_at_ms s =? 0))
              (InvalidInput "compiler job status identity, counts, or timestamps are invalid") in
  let? _ := validate_optional (validate_id "lease_owner_id") (js_lease_owner_id s) in
  let? _ := validate_optional (validate_sha256 "plan_sha256") (js_plan_sha256 s) in
  let? _ := validate_optional (validate_id "last_error_code") (js_last_error_code s) in
  refuse (state_malformed s) (InvalidInput (state_refusal (js_state s))).

Definition failure_validate (f : MemoryCompilerJobFailure) (j : MemoryCompilerJob) : MemoryCompilerResult unit :=
  let? _ := refuse (negb (jf_schema_version f =? MEMORY_SCHEMA_VERSION)
                    || negb (String.eqb (jf_workspace_id f) (jb_workspace_id j))
                    || negb (String.eqb (jf_job_id f) (jb_job_id j))
                    || (jf_attempt f =? 0) || (jf_attempt f >? jb_max_attempts j)
                    || (jf_failed_at_ms f =? 0))
              (InvalidInput "compiler failure identity, attempt, or time is invalid") in
  let? _ := validate_id "failure_id" (jf_failure_id f) in
  let? _ := validate_id "worker_id" (jf_worker_id f) in
  validate_id "error_code" (jf_error_code f).

(** *** Identities of candidates and plans *)

Definition candidate_fingerprint (c : CompilerCandidate) : CandidateFingerprint :=
  mkCandidateFingerprint (cc_source_observation_ids c) (cc_input_evidence_ids c) (cc_scope c)
    (cc_predicate c) (cc_content c) (cc_valid_from_unix_nanos c) (cc_valid_to_unix_nanos c)
    (cc_epistemic_formation c) (cc_expected_head_version_ids c) (cc_reason c) (cc_compiler_artifact_id c)
    (cc_deterministic_parameters_sha256 c).

Definition candidate_id (c : CompilerCandidate) : MemoryCompilerResult string :=
  let? encoded := to_vec (candidate_to_vec (candidate_fingerprint c)) in
  Ok ("cmp_c1_" +:+ sha256_hex encoded).

Definition plan_fingerprint (p : MemoryCommitPlan) : PlanFingerprint :=
  mkPlanFingerprint (mp_contract_version p) (mp_compiler_artifact_id p) (mp_policy_manifest_id p)
    (mp_candidates p) (mp_proposed_relations p).

Definition commit_plan_sha256 (p : MemoryCommitPlan) : MemoryCompilerResult string :=
  let? bytes := to_vec (plan_fingerprint_to_vec (plan_fingerprint p)) in Ok (sha256_hex bytes).

(** *** A plan against its input *)

(** The last observation of an id, as collecting into a map leaves it. *)
Definition observation_of (i : MemoryCompilerInput) (id : string) : option CompilerObservation :=
  last (base.filter (λ o, co_observation_id o = id) (ci_observations i)).

Definition candidate_refusal (c : CompilerCandidate) (o : CompilerObservation) : bool :=
  negb (String.eqb (default "" (head (cc_input_evidence_ids c))) (co_evidence_id o))
  || bool_decide (cc_scope c ≠ co_scope o)
  || negb (String.eqb (cc_predicate c) (co_predicate_hint o))
  || bool_decide (cc_valid_from_unix_nanos c ≠ co_valid_from_unix_nanos o)
  || bool_decide (cc_valid_to_unix_nanos c ≠ co_valid_to_unix_nanos o).

Definition candidate_check (i : MemoryCompilerInput) (c : CompilerCandidate) : MemoryCompilerResult unit :=
  let? _ := refuse (negb (Zlength (cc_source_observation_ids c) =? 1)
                    || negb (Zlength (cc_input_evidence_ids c) =? 1))
              (InvalidPlan "reference contract candidates must name one observation and evidence") in
  let? o := match observation_of i (default "" (head (cc_source_observation_ids c))) with
            | Some o => Ok o
            | None => Err (InvalidPlan "candidate references an unauthorized observation")
            end in
  let? _ := refuse (candidate_refusal c o)
              (InvalidPlan "candidate expands or changes its authorized observation boundary") in
  let? _ := content_error (content_validate (cc_content c)) in
  let? _ := refuse (bool_decide (cc_epistemic_formation c ≠ DeterministicDerivation))
              (InvalidPlan "compiler candidates must be deterministic derivations") in
  let? _ := refuse (negb (String.eqb (cc_compiler_artifact_id c) (ci_compiler_artifact_id i)))
              (InvalidPlan "candidate compiler artifact differs from input") in
  let? _ := plan_error (validate_sha256 "deterministic_parameters_sha256"
                          (cc_deterministic_parameters_sha256 c)) in
  let? _ := refuse (existsb (λ id, negb (bool_decide
                      (id ∈ (ch_version_id <$> ci_existing_authorized_heads i))))
                      (cc_expected_head_version_ids c))
              (InvalidPlan "candidate names an unauthorized expected head") in
  let? expected_id := candidate_id c in
  refuse (negb (String.eqb (cc_candidate_id c) expected_id))
    (InvalidPlan "candidate ID differs from canonical candidate content").

Fixpoint candidates_check (i : MemoryCompilerInput) (candidate_ids : gset string) (l : list CompilerCandidate)
    : MemoryCompilerResult unit :=
  match l with
  | [] => Ok tt
  | c :: l =>
      let? _ := plan_error (validate_id "candidate_id" (cc_candidate_id c)) in
      if decide (cc_candidate_id c ∈ candidate_ids) then Err (InvalidPlan "candidate IDs must be unique")
      else
        let? _ := candidate_check i c in
        candidates_check i ({[cc_candidate_id c]} ∪ candidate_ids) l
  end.

Fixpoint relations_check (candidate_ids : list string) (relation_ids : gset string)
    (l : list CompilerProposalRelation) : MemoryCompilerResult unit :=
  match l with
  | [] => Ok tt
  | r :: l =>
      let? _ := plan_error (validate_id "relation_id" (cp_relation_id r)) in
      let? _ := refuse (bool_decide (cp_relation_id r ∈ relation_ids)
                        || String.eqb (cp_from_candidate_id r) (cp_to_candidate_id r)
                        || negb (bool_decide (cp_from_candidate_id r ∈ candidate_ids))
                        || negb (bool_decide (cp_to_candidate_id r ∈ candidate_ids)))
                  (InvalidPlan "proposal relation endpoints or identity are invalid") in
      let? _ := plan_error (validate_id "reason_code" (cp_reason_code r)) in
      relations_check candidate_ids ({[cp_relation_id r]} ∪ relation_ids) l
  end.

Definition validate_against (p : MemoryCommitPlan) (i : MemoryCompilerInput) : MemoryCompilerResult unit :=
  let? _ := input_validate i in
  let? _ := refuse (negb (mp_contract_version p =? MEMORY_COMPILER_CONTRACT_VERSION)
                    || negb (String.eqb (mp_compiler_artifact_id p) (ci_compiler_artifact_id i))
                    || negb (String.eqb (mp_policy_manifest_id p) (ci_policy_manifest_id i)))
              (InvalidPlan "plan contract or artifact identity differs from input") in
  let? _ := refuse (bool_decide (mp_candidates p = [])
                    || (Zlength (mp_candidates p) >? Zlength (ci_observations i)))
              (InvalidPlan "candidate count must be between one and the observation count") in
  let? _ := candidates_check i ∅ (mp_candidates p) in
  let? _ := relations_check (cc_candidate_id <$> mp_candidates p) ∅ (mp_proposed_relations p) in
  let? _ := plan_error (validate_sha256 "plan_sha256" (mp_plan_sha256 p)) in
  let? digest := commit_plan_sha256 p in
  refuse (negb (String.eqb (mp_plan_sha256 p) digest))
    (InvalidPlan "plan digest differs from canonical plan fields").

(** *** The reference compiler *)

Definition NUL : string := String "000" "".

Definition parameters_sha256 (i : MemoryCompilerInput) : string :=
  sha256_hex ("akidb-reference-text-compiler-v1" +:+ NUL +:+ ci_compiler_artifact_id i +:+ NUL
              +:+ ci_policy_manifest_id i).

(** The heads of the assertion an observation is about. *)
Definition head_matches (o : CompilerObservation) (h : CompilerHead) : bool :=
  String.eqb (ms_workspace_id (ch_scope h)) (ms_workspace_id (co_scope o))
  && String.eqb (ms_namespace (ch_scope h)) (ms_namespace (co_scope o))
  && String.eqb (ms_entity_key (ch_scope h)) (ms_entity_key (co_scope o))
  && String.eqb (ch_predicate h) (co_predicate_hint o)
  && bool_decide (ch_kind h = KTextFact).

Definition expected_heads (i : MemoryCompilerInput) (o : CompilerObservation) : list string :=
  sort_by bytes_cmp
    (ch_version_id <$> base.filter (λ h, head_matches o h = true) (ci_existing_authorized_heads i)).

Definition unnamed_candidate (i : MemoryCompilerInput) (o : CompilerObservation) : CompilerCandidate :=
  mkCandidate "" [co_observation_id o] [co_evidence_id o] (co_scope o) (co_predicate_hint o)
    (TextFact (co_retained_text o) None) (co_valid_from_unix_nanos o) (co_valid_to_unix_nanos o)
    DeterministicDerivation (expected_heads i o) "deterministic reference compiler proposal"
    (ci_compiler_artifact_id i) (parameters_sha256 i).

Definition with_id (c : CompilerCandidate) (id : string) : CompilerCandidate :=
  mkCandidate id (cc_source_observation_ids c) (cc_input_evidence_ids c) (cc_scope c) (cc_predicate c)
    (cc_content c) (cc_valid_from_unix_nanos c) (cc_valid_to_unix_nanos c) (cc_epistemic_formation c)
    (cc_expected_head_version_ids c) (cc_reason c) (cc_compiler_artifact_id c)
    (cc_deterministic_parameters_sha256 c).

Definition candidate_of (i : MemoryCompilerInput) (o : CompilerObservation)
    : MemoryCompilerResult CompilerCandidate :=
  let c := unnamed_candidate i o in
  let? id := candidate_id c in Ok (with_id c id).

Definition same_assertion (l r : CompilerCandidate) : bool :=
  String.eqb (ms_workspace_id (cc_scope l)) (ms_workspace_id (cc_scope r))
  && String.eqb (ms_namespace (cc_scope l)) (ms_namespace (cc_scope r))
  && String.eqb (ms_entity_key (cc_scope l)) (ms_entity_key (cc_scope r))
  && String.eqb (cc_predicate l) (cc_predicate r)
  && bool_decide (content_kind (cc_content l) = content_kind (cc_content r)).

(** [{:?}] of a kind, and the reason of a relation of that kind. *)
Definition relation_kind_name (k : CompilerProposalRelationKind) : string :=
  match k with PossibleDuplicate => "PossibleDuplicate" | Contradicts => "Contradicts" end.
Definition relation_reason (k : CompilerProposalRelationKind) : string :=
  match k with
  | PossibleDuplicate => "EXPLICIT_POSSIBLE_DUPLICATE"
  | Contradicts => "EXPLICIT_CONTRADICTION_REQUIRES_POLICY"
  end.

Definition relation_material (l r : CompilerCandidate) (k : CompilerProposalRelationKind) : string :=
  cc_candidate_id l +:+ NUL +:+ cc_candidate_id r +:+ NUL +:+ relation_kind_name k.

Definition proposal_relation (l r : CompilerCandidate)
    : MemoryCompilerResult (option CompilerProposalRelation) :=
  if negb (same_assertion l r) then Ok None
  else
    let? left_digest := content_error (canonical_content_sha256 (cc_content l)) in
    let? right_digest := content_error (canonical_content_sha256 (cc_content r)) in
    let k := if String.eqb left_digest right_digest then PossibleDuplicate else Contradicts in
    Ok (Some (mkProposalRelation ("cmp_r1_" +:+ sha256_hex (relation_material l r k)) k
                (cc_candidate_id l) (cc_candidate_id r) (relation_reason k))).

(** The pairs the two loops visit. *)
Fixpoint pairs {A} (l : list A) : list (A * A) :=
  match l with [] => [] | x :: l => (pair x <$> l) ++ pairs l end.

Definition proposed_relations (l : list CompilerCandidate)
    : MemoryCompilerResult (list CompilerProposalRelation) :=
  let? found := collect (λ x : CompilerCandidate * CompilerCandidate, proposal_relation x.1 x.2) (pairs l) in
  Ok (sort_by (λ a b, bytes_cmp (cp_relation_id a) (cp_relation_id b)) (omap id found)).

Definition reference_compile (i : MemoryCompilerInput) : MemoryCompilerResult MemoryCommitPlan :=
  let? _ := input_validate i in
  let? _ := refuse (negb (String.eqb (ci_compiler_artifact_id i) REFERENCE_TEXT_COMPILER_ARTIFACT_ID))
              (InvalidInput "input requested another compiler") in
  let observations := sort_by (λ a b, bytes_cmp (co_observation_id a) (co_observation_id b))
                        (ci_observations i) in
  let? candidates := collect (candidate_of i) observations in
  let? relations := proposed_relations candidates in
  let plan := mkCommitPlan MEMORY_COMPILER_CONTRACT_VERSION (ci_compiler_artifact_id i)
                (ci_policy_manifest_id i) candidates relations "" in
  let? digest := commit_plan_sha256 plan in
  let plan := mkCommitPlan (mp_contract_version plan) (mp_compiler_artifact_id plan)
                (mp_policy_manifest_id plan) (mp_candidates plan) (mp_proposed_relations plan) digest in
  let? _ := validate_against plan i in
  Ok plan.

(** *** Conformance *)

(** The trait: what a call answers may differ from call to call. *)
Record MemoryCompiler := mkCompiler {
  artifact_id : string;
  compile : nat → MemoryCompilerInput → MemoryCompilerResult MemoryCommitPlan;
}.

Definition verify_compiler_conformance (compiler : MemoryCompiler) (i : MemoryCompilerInput)
    : MemoryCompilerResult MemoryCommitPlan :=
  let? _ := refuse (negb (String.eqb (artifact_id compiler) (ci_compiler_artifact_id i)))
              (InvalidInput "compiler artifact identity differs from the input contract") in
  let? first := compile compiler 0 i in
  let? second := compile compiler 1 i in
  let? _ := validate_against first i in
  let? _ := validate_against second i in
  let? first_bytes := to_vec (commit_plan_to_vec first) in
  let? second_bytes := to_vec (commit_plan_to_vec second) in
  let? _ := refuse (negb (String.eqb first_bytes second_bytes))
              (InvalidPlan "compiler produced nondeterministic output for identical input") in
  Ok first.

Definition reference_compiler : MemoryCompiler :=
  mkCompiler REFERENCE_TEXT_COMPILER_ARTIFACT_ID (λ _, reference_compile).
End compiler.
