(* ===== verification/CompilerProps.v ===== *)
(** * What the memory compiler guarantees

    A plan that passes the check stays within the observations and heads of its
    input; the reference compiler answers every valid input, with one candidate
    per observation and a relation for every two candidates about the same
    assertion, and its answer does not depend on the order of the input. *)

From Stdlib Require Import Ascii.
From S2P Require Import Prelude Float32 Text Sorting Storage Hex Keys Filter Knowledge MemoryContracts Compiler.

(** ** Checks *)

Lemma refuse_ok b e : refuse b e = Ok tt ↔ b = false.
Proof. by destruct b. Qed.

Lemma to_vec_ok o b : to_vec o = Ok b ↔ o = Some b.
Proof. destruct o; naive_solver. Qed.

Lemma plan_error_ok {A} (r : MemoryCompilerResult A) a : plan_error r = Ok a ↔ r = Ok a.
Proof. by destruct r. Qed.
Lemma input_error_ok {A} (r : ContractResult A) a : input_error r = Ok a ↔ r = Ok a.
Proof. destruct r; naive_solver. Qed.
Lemma content_error_ok {A} (r : ContractResult A) a : content_error r = Ok a ↔ r = Ok a.
Proof. destruct r; naive_solver. Qed.

Lemma bind_unit {E B} (r : result E unit) (k : unit → result E B) b :
  result_bind r k = Ok b ↔ r = Ok tt ∧ k tt = Ok b.
Proof. rewrite bind_ok. split; [by intros ([] & ? & ?)|]. intros []. by exists tt. Qed.

Lemma if_decide_ok {E A} (P : Prop) `{!Decision P} (e : E) (r : result E A) a :
  (if decide P then Err e else r) = Ok a ↔ ¬ P ∧ r = Ok a.
Proof. destruct (decide P); naive_solver. Qed.

(** A check as the conditions it makes. *)
Ltac checks :=
  repeat first [rewrite bind_unit|rewrite refuse_ok|rewrite if_decide_ok|rewrite plan_error_ok
               |rewrite input_error_ok|rewrite content_error_ok].
Ltac checks_in H :=
  repeat first [rewrite bind_unit in H|rewrite refuse_ok in H|rewrite if_decide_ok in H|rewrite plan_error_ok in H
               |rewrite input_error_ok in H|rewrite content_error_ok in H].

(** ** Inputs *)

(** Keys distinct from one another and from those already seen, one at a time. *)
Lemma distinct_cons {A} (f : A → string) (seen : gset string) x l :
  (f x ∉ seen ∧ NoDup (f <$> l) ∧ ∀ y, y ∈ l → f y ∉ {[f x]} ∪ seen) ↔
  NoDup (f <$> x :: l) ∧ ∀ y, y ∈ x :: l → f y ∉ seen.
Proof.
  rewrite fmap_cons, NoDup_cons. split.
  - intros (Hs & Hnd & Hl). split; [split; [|done]|].
    + intros (y & E & Hy)%list_elem_of_fmap. apply (Hl y Hy). set_solver.
    + intros y [-> |Hy]%elem_of_cons; [done|]. specialize (Hl y Hy). set_solver.
  - intros [[Hx Hnd] Hs]. split; [apply Hs; by left|]. split; [done|].
    intros y Hy [E%elem_of_singleton|E]%elem_of_union; [|by eapply Hs; [right|]].
    apply Hx. rewrite <-E. by apply list_elem_of_fmap_2.
Qed.

Lemma observations_distinct_ok seen evs l :
  observations_distinct seen evs l = Ok tt ↔
  Forall (λ o, observation_check o = Ok tt) l ∧
  (NoDup (co_observation_id <$> l) ∧ ∀ o, o ∈ l → co_observation_id o ∉ seen) ∧
  (NoDup (co_evidence_id <$> l) ∧ ∀ o, o ∈ l → co_evidence_id o ∉ evs).
Proof.
  revert seen evs. induction l as [|o l IH]; intros seen evs.
  { split; [intros _|done]. split_and!; try constructor; by intros o Ho%elem_of_nil. }
  cbn [observations_distinct]. checks. rewrite IH, Forall_cons, <-!distinct_cons. tauto.
Qed.

Lemma heads_distinct_ok seen l :
  heads_distinct seen l = Ok tt ↔
  Forall (λ h, head_check h = Ok tt) l ∧ NoDup (ch_version_id <$> l) ∧ ∀ h, h ∈ l → ch_version_id h ∉ seen.
Proof.
  revert seen. induction l as [|h l IH]; intros seen.
  { split; [intros _|done]. split_and!; try constructor; by intros h Hh%elem_of_nil. }
  cbn [heads_distinct]. checks. rewrite IH, Forall_cons, <-!distinct_cons. tauto.
Qed.

(** A valid input, as what its parts satisfy. *)
Record input_ok (i : MemoryCompilerInput) : Prop := {
  io_version : ci_contract_version i = MEMORY_COMPILER_CONTRACT_VERSION;
  io_some : ci_observations i ≠ [];
  io_few : Zlength (ci_observations i) ≤ MAX_MEMORY_EVIDENCE;
  io_policy : validate_id "policy_manifest_id" (ci_policy_manifest_id i) = Ok tt;
  io_artifact : validate_id "compiler_artifact_id" (ci_compiler_artifact_id i) = Ok tt;
  io_checked : Forall (λ o, observation_check o = Ok tt) (ci_observations i);
  io_ids : NoDup (co_observation_id <$> ci_observations i);
  io_evidence : NoDup (co_evidence_id <$> ci_observations i);
  io_heads : Zlength (ci_existing_authorized_heads i)
             ≤ MAX_MEMORY_ACTIVE_HEADS * Zlength (ci_observations i);
  io_heads_checked : Forall (λ h, head_check h = Ok tt) (ci_existing_authorized_heads i);
  io_head_ids : NoDup (ch_version_id <$> ci_existing_authorized_heads i);
}.

Lemma input_validate_ok i : input_validate i = Ok tt ↔ input_ok i.
Proof.
  unfold input_validate. checks. rewrite observations_distinct_ok, heads_distinct_ok, negb_false_iff, Z.eqb_eq,
    orb_false_iff, bool_decide_eq_false, !Z.gtb_ltb, !Z.ltb_ge. split.
  - intros (? & [? ?] & ? & ? & (? & [? _] & ? & _) & ? & ? & ? & _). by split.
  - intros []. split_and!; try done; intros; apply not_elem_of_empty.
Qed.

(** Two inputs that differ in the order of their parts only. *)
Record same_input (i i' : MemoryCompilerInput) : Prop := {
  si_version : ci_contract_version i' = ci_contract_version i;
  si_observations : ci_observations i' ≡ₚ ci_observations i;
  si_heads : ci_existing_authorized_heads i' ≡ₚ ci_existing_authorized_heads i;
  si_policy : ci_policy_manifest_id i' = ci_policy_manifest_id i;
  si_artifact : ci_compiler_artifact_id i' = ci_compiler_artifact_id i;
}.

Lemma same_input_ok i i' : same_input i i' → input_ok i → input_ok i'.
Proof.
  intros [Hv Ho Hh Hp Ha] [].
  split; rewrite ?Hv, ?Hp, ?Ha, ?Ho, ?Hh; try done. intros E. rewrite E in Ho.
  by apply Permutation_nil_l in Ho.
Qed.

Lemma sort_by_key {A} (f : A → string) (l l' : list A) :
  NoDup (f <$> l) → l' ≡ₚ l →
  sort_by (λ a b, bytes_cmp (f a) (f b)) l' = sort_by (λ a b, bytes_cmp (f a) (f b)) l.
Proof.
  intros Hnd Hp. apply (@sort_by_perm_eq _ _ (TotalCmp_on f bytes_cmp TotalCmp_bytes)); [|done].
  intros x y Hx Hy E%bytes_cmp_Eq. by eapply NoDup_fmap_elem_inj.
Qed.

Lemma observation_of_in i o :
  NoDup (co_observation_id <$> ci_observations i) → o ∈ ci_observations i →
  observation_of i (co_observation_id o) = Some o.
Proof.
  intros Hnd Ho. unfold observation_of. destruct (last _) as [x|] eqn:E.
  - apply last_Some_elem_of in E as [Ex Hx]%list_elem_of_filter. f_equal. by eapply NoDup_fmap_elem_inj.
  - apply last_None in E. exfalso. eapply elem_of_nil. rewrite <-E. by apply list_elem_of_filter.
Qed.

Lemma observation_of_some i id o : observation_of i id = Some o → o ∈ ci_observations i ∧ co_observation_id o = id.
Proof. intros [? ?]%last_Some_elem_of%list_elem_of_filter. done. Qed.

Lemma observation_of_same i i' id o :
  same_input i i' → NoDup (co_observation_id <$> ci_observations i) →
  observation_of i id = Some o → observation_of i' id = Some o.
Proof.
  intros [_ Ho _ _ _] Hnd [Hin <-]%observation_of_some. apply observation_of_in; by rewrite Ho.
Qed.

(** ** Plans that pass the check *)

Section plans.
Context `{!ContentCodec, !CompilerCodec, !Sha256}.

(** What the check of a candidate establishes. *)
Record grounded (i : MemoryCompilerInput) (c : CompilerCandidate) (o : CompilerObservation) : Prop := {
  gr_observed : o ∈ ci_observations i;
  gr_source : cc_source_observation_ids c = [co_observation_id o];
  gr_evidence : cc_input_evidence_ids c = [co_evidence_id o];
  gr_scope : cc_scope c = co_scope o;
  gr_predicate : cc_predicate c = co_predicate_hint o;
  gr_from : cc_valid_from_unix_nanos c = co_valid_from_unix_nanos o;
  gr_to : cc_valid_to_unix_nanos c = co_valid_to_unix_nanos o;
  gr_content : content_validate (cc_content c) = Ok tt;
  gr_formation : cc_epistemic_formation c = DeterministicDerivation;
  gr_artifact : cc_compiler_artifact_id c = ci_compiler_artifact_id i;
  gr_parameters : is_sha256 (cc_deterministic_parameters_sha256 c) = true;
  gr_heads h : h ∈ cc_expected_head_version_ids c → h ∈ ch_version_id <$> ci_existing_authorized_heads i;
  gr_id : candidate_id c = Ok (cc_candidate_id c);
}.

Lemma one_element {A} (l : list A) d : (Zlength l =? 1) = true → l = [default d (head l)].
Proof using. intros E%Z.eqb_eq. destruct l as [|x [|y l]]; simpl in E; try lia. done. Qed.

Lemma existsb_false {A} (f : A → bool) l : existsb f l = false ↔ ∀ x, x ∈ l → f x = false.
Proof using.
  induction l as [|y l IH]; simpl; [split; [by intros _ x Hx%elem_of_nil|done]|].
  rewrite orb_false_iff, IH. split.
  - intros [Hy Hl] x [-> |Hx]%elem_of_cons; auto.
  - intros Hl. split; [apply Hl; by left|]. intros x Hx. apply Hl. by right.
Qed.

Lemma candidate_refusal_ok c o :
  candidate_refusal c o = false ↔
  default "" (head (cc_input_evidence_ids c)) = co_evidence_id o ∧ cc_scope c = co_scope o ∧
  cc_predicate c = co_predicate_hint o ∧ cc_valid_from_unix_nanos c = co_valid_from_unix_nanos o ∧
  cc_valid_to_unix_nanos c = co_valid_to_unix_nanos o.
Proof using.
  unfold candidate_refusal. rewrite !orb_false_iff, !negb_false_iff, !String.eqb_eq, !bool_decide_eq_false.
  split; [intros ((((? & ?) & ?) & ?) & ?)|intros (? & ? & ? & ? & ?)]; split_and!;
    first [done|by apply dec_stable|by intros []].
Qed.

Lemma candidate_check_ok i c :
  NoDup (co_observation_id <$> ci_observations i) →
  candidate_check i c = Ok tt ↔ ∃ o, grounded i c o.
Proof using.
  intros Hnd. unfold candidate_check. checks. split.
  - rewrite orb_false_iff, !negb_false_iff.
    intros [[L1 L2] Hk]. apply bind_ok in Hk as (o & Ho & Hk). checks_in Hk.
    destruct Hk as (Hr & Hc & Hf & Ha & Hs & Hh & Hid). apply bind_ok in Hid as (id & Hid & E).
    apply refuse_ok, negb_false_iff, String.eqb_eq in E. subst id.
    destruct (observation_of i _) as [o'|] eqn:Eo; [|discriminate]. injection Ho as ->.
    apply observation_of_some in Eo as [Hin Eo]. apply candidate_refusal_ok in Hr as (He & ? & ? & ? & ?).
    exists o. split; try done.
    + rewrite (one_element _ "" L1). by rewrite Eo.
    + rewrite (one_element _ "" L2). by rewrite He.
    + apply bool_decide_eq_false in Hf. by apply dec_stable.
    + by apply negb_false_iff, String.eqb_eq in Ha.
    + unfold validate_sha256 in Hs. by apply refuse_ok, negb_false_iff in Hs.
    + intros h Hx. apply (proj1 (existsb_false _ _) Hh), negb_false_iff, bool_decide_eq_true in Hx. done.
  - intros [o G]. destruct G as [Hin Es Ee ? ? ? ? Hc Hf Ha Hp Hh Hid].
    rewrite Es, Ee. change (default "" (head [co_observation_id o])) with (co_observation_id o).
    split; [done|]. apply bind_ok. exists o. rewrite observation_of_in by done. split; [done|]. checks. split_and!; try done.
    + apply candidate_refusal_ok. by rewrite Ee.
    + by rewrite Hf.
    + by rewrite Ha, String.eqb_refl.
    + unfold validate_sha256. by rewrite Hp.
    + apply existsb_false. intros h Hx. apply negb_false_iff, bool_decide_eq_true. by apply Hh.
    + apply bind_ok. eexists. split; [done|]. by rewrite String.eqb_refl.
Qed.

Lemma candidates_check_ok i seen l :
  NoDup (co_observation_id <$> ci_observations i) →
  candidates_check i seen l = Ok tt ↔
  Forall (λ c, validate_id "candidate_id" (cc_candidate_id c) = Ok tt ∧ ∃ o, grounded i c o) l ∧
  NoDup (cc_candidate_id <$> l) ∧ ∀ c, c ∈ l → cc_candidate_id c ∉ seen.
Proof using.
  intros Hnd. revert seen. induction l as [|c l IH]; intros seen.
  { split; [intros _|done]. split_and!; try constructor; by intros h Hh%elem_of_nil. }
  cbn [candidates_check]. checks. rewrite candidate_check_ok, IH, Forall_cons, <-!distinct_cons by done. tauto.
Qed.

(** A relation between two different candidates. *)
Definition relates (ids : list string) (r : CompilerProposalRelation) : Prop :=
  validate_id "relation_id" (cp_relation_id r) = Ok tt ∧
  cp_from_candidate_id r ≠ cp_to_candidate_id r ∧ cp_from_candidate_id r ∈ ids ∧ cp_to_candidate_id r ∈ ids ∧
  validate_id "reason_code" (cp_reason_code r) = Ok tt.

Lemma relations_check_ok ids seen l :
  relations_check ids seen l = Ok tt ↔
  Forall (relates ids) l ∧ NoDup (cp_relation_id <$> l) ∧ ∀ r, r ∈ l → cp_relation_id r ∉ seen.
Proof using.
  revert seen. induction l as [|r l IH]; intros seen.
  { split; [intros _|done]. split_and!; try constructor; by intros h Hh%elem_of_nil. }
  cbn [relations_check]. checks.
  rewrite IH, Forall_cons, <-!distinct_cons, !orb_false_iff, !negb_false_iff, !bool_decide_eq_true,
    bool_decide_eq_false, String.eqb_neq. unfold relates. tauto.
Qed.

(** A plan that passes the check against a valid input. *)
Record plan_ok (p : MemoryCommitPlan) (i : MemoryCompilerInput) : Prop := {
  po_input : input_ok i;
  po_version : mp_contract_version p = MEMORY_COMPILER_CONTRACT_VERSION;
  po_artifact : mp_compiler_artifact_id p = ci_compiler_artifact_id i;
  po_policy : mp_policy_manifest_id p = ci_policy_manifest_id i;
  po_some : mp_candidates p ≠ [];
  po_few : Zlength (mp_candidates p) ≤ Zlength (ci_observations i);
  po_candidates : Forall (λ c, validate_id "candidate_id" (cc_candidate_id c) = Ok tt ∧ ∃ o, grounded i c o)
                    (mp_candidates p);
  po_ids : NoDup (cc_candidate_id <$> mp_candidates p);
  po_relations : Forall (relates (cc_candidate_id <$> mp_candidates p)) (mp_proposed_relations p);
  po_relation_ids : NoDup (cp_relation_id <$> mp_proposed_relations p);
  po_sha : is_sha256 (mp_plan_sha256 p) = true;
  po_digest : commit_plan_sha256 p = Ok (mp_plan_sha256 p);
}.

Lemma validate_against_ok p i : validate_against p i = Ok tt ↔ plan_ok p i.
Proof using.
  unfold validate_against. checks. rewrite input_validate_ok, relations_check_ok. unfold validate_sha256.
  rewrite refuse_ok, !orb_false_iff, !negb_false_iff, Z.eqb_eq, !String.eqb_eq, bool_decide_eq_false, Z.gtb_ltb, Z.ltb_ge, bind_ok.
  split.
  - intros (Hi & ((? & ?) & ?) & (? & ?) & Hc & (? & ? & _) & ? & (d & Hd & E)).
    apply refuse_ok, negb_false_iff, String.eqb_eq in E. subst d.
    apply candidates_check_ok in Hc as (? & ? & _); [|apply Hi]. by split.
  - intros [Hi]. rewrite candidates_check_ok by apply Hi. split_and!; try done; try (intros; apply not_elem_of_empty).
    eexists. split; [done|]. by rewrite String.eqb_refl.
Qed.

(** C21: whatever a compiler answers, a plan that conformance lets through is
    confined to its input: every candidate is grounded in one of the observations,
    with its scope, its evidence, its predicate and its validity, expects only
    authorized heads and bears the identity of its content, no two candidates have
    the same identity, and relations join two different candidates of the plan. *)
Theorem conforming_plans_are_confined compiler i p :
  verify_compiler_conformance compiler i = Ok p →
  (∀ c, c ∈ mp_candidates p → ∃ o, grounded i c o) ∧ NoDup (cc_candidate_id <$> mp_candidates p) ∧
  (∀ r, r ∈ mp_proposed_relations p → relates (cc_candidate_id <$> mp_candidates p) r) ∧
  1 ≤ Zlength (mp_candidates p) ≤ Zlength (ci_observations i) ∧ commit_plan_sha256 p = Ok (mp_plan_sha256 p).
Proof using.
  unfold verify_compiler_conformance. intros H2. binds H2. injection H2 as <-.
  destruct (proj1 (validate_against_ok _ _) E2) as [_ _ _ _ Hs Hf Hc Hi Hr _ _ Hd].
  rewrite Forall_forall in Hc. rewrite Forall_forall in Hr. split_and!; try done.
  - intros c Hc'. by apply Hc.
  - destruct (mp_candidates _); [done|]. cbn [length]. lia.
Qed.

(** ** The order of the input *)

Lemma collect_ext {E A B} (f g : A → result E B) l : (∀ x, x ∈ l → f x = g x) → collect f l = collect g l.
Proof using.
  induction l as [|x l IH]; intros Hx; [done|]. cbn [collect]. rewrite Hx by by left.
  rewrite IH; [done|]. intros y Hy. apply Hx. by right.
Qed.

Lemma sort_ids_perm l l' : l' ≡ₚ l → sort_by bytes_cmp l' = sort_by bytes_cmp l.
Proof using.
  intros Hp. apply (@sort_by_perm_eq _ _ TotalCmp_bytes); [|done]. by intros x y _ _ ->%bytes_cmp_Eq.
Qed.

Lemma unnamed_same i i' o : same_input i i' → unnamed_candidate i' o = unnamed_candidate i o.
Proof using.
  intros [_ _ Hh Hp Ha]. unfold unnamed_candidate, parameters_sha256. rewrite Hp, Ha. f_equal.
  unfold expected_heads. apply sort_ids_perm. by rewrite Hh.
Qed.

Lemma grounded_same i i' c o : same_input i i' → grounded i c o → grounded i' c o.
Proof using.
  intros [_ Ho Hh _ Ha] []. split; try done; [by rewrite Ho|by rewrite Ha|]. intros h Hx. rewrite Hh. auto.
Qed.

Lemma plan_ok_same i i' p : same_input i i' → plan_ok p i → plan_ok p i'.
Proof using.
  intros Hs []. pose proof Hs as [_ Ho _ Hp Ha].
  split; rewrite ?Hp, ?Ha, ?Ho; try done; [by eapply same_input_ok|].
  eapply Forall_impl; [done|]. intros c [Hv [o Hg]]. split; [done|]. exists o. by eapply grounded_same.
Qed.

Lemma reference_compile_ok i p :
  reference_compile i = Ok p ↔
  input_ok i ∧ ci_compiler_artifact_id i = REFERENCE_TEXT_COMPILER_ARTIFACT_ID ∧
  collect (candidate_of i) (sort_by (λ a b, bytes_cmp (co_observation_id a) (co_observation_id b))
    (ci_observations i)) = Ok (mp_candidates p) ∧
  proposed_relations (mp_candidates p) = Ok (mp_proposed_relations p) ∧ plan_ok p i.
Proof using.
  unfold reference_compile. rewrite !bind_unit, input_validate_ok, refuse_ok, negb_false_iff, String.eqb_eq, bind_ok.
  split.
  - intros (Hi & Ha & cs & Hcs & E). apply bind_ok in E as (rs & Hrs & E). apply bind_ok in E as (d & Hd & E).
    rewrite bind_unit in E. destruct E as [Hv E]. injection E as <-. by apply validate_against_ok in Hv.
  - intros (Hi & Ha & Hcs & Hrs & Hp). split_and!; try done. eexists. split; [done|].
    rewrite Hrs. cbn [result_bind]. pose proof Hp as [_ Ev Ea Ep _ _ _ _ _ _ _ Hd].
    destruct p as [v a pm cs rs d]. cbn in *. subst v a pm.
    change (commit_plan_sha256 (mkCommitPlan MEMORY_COMPILER_CONTRACT_VERSION (ci_compiler_artifact_id i)
      (ci_policy_manifest_id i) cs rs "") = Ok d) in Hd.
    rewrite Hd. cbn [result_bind]. rewrite (proj2 (validate_against_ok _ _) Hp). done.
Qed.

(** C23: what the reference compiler answers does not depend on the order in which
    the observations and the heads are listed. *)
Theorem compile_ignores_order i i' p :
  same_input i i' → reference_compile i = Ok p → reference_compile i' = Ok p.
Proof using.
  intros Hs (Hi & Ha & Hcs & Hrs & Hp)%reference_compile_ok. apply reference_compile_ok.
  pose proof Hs as [_ Ho _ _ Ea]. split_and!; [by eapply same_input_ok|by rewrite Ea| |done|by eapply plan_ok_same].
  rewrite (sort_by_key co_observation_id _ _ (io_ids _ Hi) Ho), <-Hcs. apply collect_ext. intros o _.
  unfold candidate_of. by rewrite (unnamed_same _ _ _ Hs).
Qed.
End plans.

(** ** Printable identifiers *)

(** Printable ASCII without blanks. *)
Definition graphic (s : string) : Prop := Forall (λ c, 33 ≤ byte_of c ≤ 126) (String.list_ascii_of_string s).

Lemma graphic_app a b : graphic a → graphic b → graphic (a +:+ b).
Proof.
  unfold graphic. intros Ha Hb. induction a as [|c a IH]; [done|].
  change (String.list_ascii_of_string (String c a +:+ b)) with (c :: String.list_ascii_of_string (a +:+ b)).
  cbn [String.list_ascii_of_string] in Ha. apply Forall_cons in Ha as [Hc Ha]. constructor; auto.
Qed.

Lemma graphic_chars s : graphic s → str_chars s = byte_of <$> String.list_ascii_of_string s.
Proof.
  unfold graphic, str_chars. generalize (String.list_ascii_of_string s) as l.
  induction 1 as [|c l Hc Hl IH]; [done|]. rewrite fmap_cons. cbn [utf8_chars].
  rewrite (proj2 (Z.ltb_lt _ _)) by lia. by rewrite IH.
Qed.

Lemma trim_start_blackhead t : Forall (λ c, is_whitespace c = false) t → trim_start t = t.
Proof. intros [|c l Hc _]; [done|]. cbn [trim_start]. by rewrite Hc. Qed.

Lemma trim_no_blank t : Forall (λ c, is_whitespace c = false) t → trim t = t.
Proof.
  intros Ht. unfold trim. rewrite (trim_start_blackhead t Ht), trim_start_blackhead, reverse_involutive; [done|].
  by apply Forall_reverse.
Qed.

Lemma graphic_not_blank c : 33 ≤ c ≤ 126 → is_whitespace c = false.
Proof.
  intros Hc. unfold is_whitespace.
  rewrite !orb_false_iff, !andb_false_iff, !Z.leb_gt, !Z.eqb_neq. lia.
Qed.

Lemma graphic_id f s : graphic s → s ≠ "" → byte_len s ≤ MAX_MEMORY_ID_BYTES → validate_id f s = Ok tt.
Proof.
  intros Hg Hne Hlen. pose proof (graphic_chars s Hg) as Hc.
  assert (trim (str_chars s) = str_chars s) as Ht.
  { apply trim_no_blank. rewrite Hc. apply Forall_fmap. eapply Forall_impl; [exact Hg|]. intros c. apply graphic_not_blank. }
  unfold validate_id, validate_text. checks. rewrite Ht, !orb_false_iff, !bool_decide_eq_false, Z.gtb_ltb, Z.ltb_ge.
  rewrite !existsb_false, Hc. split_and!; try done.
  - by destruct s.
  - naive_solver.
  - intros x (c & -> & Hx)%list_elem_of_fmap. unfold graphic in Hg. rewrite Forall_forall in Hg.
    specialize (Hg c Hx). apply Z.eqb_neq. lia.
  - intros x (c & -> & Hx)%list_elem_of_fmap. unfold graphic in Hg. rewrite Forall_forall in Hg.
    specialize (Hg c Hx). unfold is_control. rewrite orb_false_iff, andb_false_iff, Z.ltb_ge, !Z.leb_gt. lia.
Qed.

Section digests.
Context `{!Sha256, Hsha : !Sha256Laws}.

Lemma sha256_hex_length b : String.length (sha256_hex b) = 64%nat.
Proof using Hsha. unfold sha256_hex. by rewrite hex_string_length, digest_length. Qed.

Lemma sha256_hex_is_sha256 b : is_sha256 (sha256_hex b) = true.
Proof using Hsha. apply digest_hex_is_sha256. Qed.

Lemma sha256_hex_graphic b : graphic (sha256_hex b).
Proof using Hsha.
  eapply Forall_impl; [apply hex_lower_string, digest_bytes|]. intros c. cbn beta. unfold is_hex_lower.
  rewrite orb_true_iff, !andb_true_iff, !Z.leb_le. lia.
Qed.

Lemma sha256_hex_digest a b : sha256_hex a = sha256_hex b → sha256_digest a = sha256_digest b.
Proof using Hsha.
  intros E. apply (f_equal parse_hex) in E. unfold sha256_hex in E.
  rewrite !parse_hex_string in E by apply digest_bytes. by injection E.
Qed.

(** The identifiers the compiler makes: a short prefix and a digest. *)
Lemma prefixed_id f pre b :
  graphic pre → byte_len pre ≤ 64 → validate_id f (pre +:+ sha256_hex b) = Ok tt.
Proof using Hsha.
  intros Hp Hl. assert (String.length (pre +:+ sha256_hex b) = (String.length pre + 64)%nat) as Hlen.
  { rewrite <-(sha256_hex_length b). clear. generalize (sha256_hex b) as y. intros y. induction pre as [|c pre IH]; [done|].
    change (S (String.length (pre +:+ y)) = S (String.length pre + String.length y)). by rewrite IH. }
  apply graphic_id; [by apply graphic_app; [|apply sha256_hex_graphic]| |].
  - intros E. rewrite E in Hlen. cbn in Hlen. lia.
  - unfold byte_len, MAX_MEMORY_ID_BYTES in *. rewrite Hlen. lia.
Qed.
End digests.

(** ** Pairs *)

Lemma pairs_in {A} (l : list A) a b : (a, b) ∈ pairs l → a ∈ l ∧ b ∈ l.
Proof.
  induction l as [|x l IH]; intros Hab; [by apply elem_of_nil in Hab|].
  cbn [pairs] in Hab. apply elem_of_app in Hab as [(y & E & Hy)%list_elem_of_fmap|Hab].
  - injection E as -> ->. split; [by left|by right].
  - destruct (IH Hab). split; by right.
Qed.

Lemma pairs_key {A} (f : A → string) l a b : NoDup (f <$> l) → (a, b) ∈ pairs l → f a ≠ f b.
Proof.
  induction l as [|x l IH]; intros Hnd Hab; [by apply elem_of_nil in Hab|].
  rewrite fmap_cons, NoDup_cons in Hnd. destruct Hnd as [Hx Hnd]. cbn [pairs] in Hab.
  apply elem_of_app in Hab as [(y & E & Hy)%list_elem_of_fmap|Hab]; [|by apply IH].
  injection E as -> ->. intros E. apply Hx. rewrite E. by apply list_elem_of_fmap_2.
Qed.

Lemma pairs_NoDup {A} (f : A → string) l :
  NoDup (f <$> l) → NoDup ((λ x : A * A, (f x.1, f x.2)) <$> pairs l).
Proof.
  induction l as [|x l IH]; intros Hnd; [constructor|].
  rewrite fmap_cons, NoDup_cons in Hnd. destruct Hnd as [Hx Hnd]. cbn [pairs].
  rewrite fmap_app, <-list_fmap_compose. apply NoDup_app. split; [|split; [|by apply IH]].
  - change ((λ x0 : A * A, (f x0.1, f x0.2)) ∘ pair x) with (pair (f x) ∘ f).
    rewrite list_fmap_compose. apply NoDup_fmap_2; [|done]. by intros ? ? [= ->].
  - intros y (z & -> & Hz)%list_elem_of_fmap (q & E & Hq)%list_elem_of_fmap. destruct q as [a b].
    cbn in E. injection E as E _. apply Hx. rewrite E. apply list_elem_of_fmap_2. by apply (pairs_in l a b).
Qed.

(** What a partial function finds has distinct keys when its arguments have. *)
Lemma omap_NoDup {A B C} (f : A → option B) (k : B → string) (g : A → C) l :
  NoDup (g <$> l) →
  (∀ x y r r', x ∈ l → y ∈ l → f x = Some r → f y = Some r' → k r = k r' → g x = g y) →
  NoDup (k <$> omap f l).
Proof.
  induction l as [|x l IH]; intros Hnd Hinj; [constructor|].
  rewrite fmap_cons, NoDup_cons in Hnd. destruct Hnd as [Hx Hnd]. cbn [omap list_omap].
  assert (NoDup (k <$> omap f l)) as Hl by (apply IH; [done|]; intros; eapply Hinj; try done; by right).
  destruct (f x) as [r|] eqn:E; [|done]. rewrite fmap_cons. apply NoDup_cons. split; [|done].
  intros (r' & Ek & (y & Hy & Ey)%list_elem_of_omap)%list_elem_of_fmap.
  apply Hx. rewrite (Hinj x y r r'); try done; [by apply list_elem_of_fmap_2|by left|by right].
Qed.

Lemma fmap_insert_by {A} (f : A → string) x l :
  f <$> insert_by (λ a b, bytes_cmp (f a) (f b)) x l = insert_by bytes_cmp (f x) (f <$> l).
Proof.
  induction l as [|y l IH]; [done|]. rewrite fmap_cons. cbn [insert_by].
  destruct (bytes_cmp (f x) (f y)); [done..|]. by rewrite fmap_cons, IH.
Qed.

Lemma fmap_sort_by {A} (f : A → string) l :
  f <$> sort_by (λ a b, bytes_cmp (f a) (f b)) l = sort_by bytes_cmp (f <$> l).
Proof.
  induction l as [|x l IH]; [done|]. rewrite fmap_cons. cbn [sort_by foldr].
  change (foldr (insert_by ?c) [] ?l) with (sort_by c l). by rewrite fmap_insert_by, IH.
Qed.

Lemma collect_Ok {E A B} (f : A → result E B) (g : A → B) l :
  (∀ x, x ∈ l → f x = Ok (g x)) → collect f l = Ok (g <$> l).
Proof.
  induction l as [|x l IH]; intros Hx; [done|]. cbn [collect]. rewrite Hx by by left. cbn [result_bind].
  rewrite IH; [done|]. intros y Hy. apply Hx. by right.
Qed.

(** ** The reference compiler *)

(** serde_json on the structures of the compiler, which hold nothing it cannot
    encode: an encoding, which determines the observations it is of. *)
Class CompilerCodecLaws `{!ContentCodec, !CompilerCodec} := {
  candidate_encodes f : is_Some (candidate_to_vec f);
  candidate_determines f g :
    candidate_to_vec f = candidate_to_vec g → cf_source_observation_ids f = cf_source_observation_ids g;
  plan_encodes f : is_Some (plan_fingerprint_to_vec f);
  commit_plan_encodes p : is_Some (commit_plan_to_vec p);
  text_encodes t l : is_Some (content_to_vec (TextFact t l));
}.

Section reference.
Context `{!ContentCodec, !CompilerCodec, !Sha256, Hsha : !Sha256Laws, Hcodec : !CompilerCodecLaws}.
Implicit Types (i : MemoryCompilerInput) (o : CompilerObservation) (c : CompilerCandidate).

Definition encoded c : string := default "" (candidate_to_vec (candidate_fingerprint c)).

(** The candidate of an observation, and those of an input. *)
Definition named i o : CompilerCandidate :=
  with_id (unnamed_candidate i o) ("cmp_c1_" +:+ sha256_hex (encoded (unnamed_candidate i o))).

Definition sorted_observations i : list CompilerObservation :=
  sort_by (λ a b, bytes_cmp (co_observation_id a) (co_observation_id b)) (ci_observations i).

Definition candidates_of i : list CompilerCandidate := named i <$> sorted_observations i.

Lemma candidate_of_named i o : candidate_of i o = Ok (named i o).
Proof using Hcodec.
  unfold candidate_of, candidate_id, named, encoded.
  destruct (candidate_encodes (candidate_fingerprint (unnamed_candidate i o))) as [b ->]. done.
Qed.

(** What the compiler digests: the fingerprints of the candidates, and the
    materials of the relations there may be. *)
Definition digested i : list string :=
  (encoded <$> (unnamed_candidate i <$> sorted_observations i))
  ++ ((λ x, relation_material x.1 x.2 PossibleDuplicate) <$> pairs (candidates_of i))
  ++ ((λ x, relation_material x.1 x.2 Contradicts) <$> pairs (candidates_of i)).

(** SHA-256 does not collide on them. *)
Definition no_collisions i : Prop :=
  ∀ x y, x ∈ digested i → y ∈ digested i → sha256_digest x = sha256_digest y → x = y.

Lemma in_sorted i o : o ∈ sorted_observations i ↔ o ∈ ci_observations i.
Proof using. apply elem_of_sort_by. Qed.

Lemma encoded_digested i o : o ∈ sorted_observations i → encoded (unnamed_candidate i o) ∈ digested i.
Proof using. intros Ho. apply elem_of_app. left. by do 2 apply list_elem_of_fmap_2. Qed.

Lemma material_digested i a b k : (a, b) ∈ pairs (candidates_of i) → relation_material a b k ∈ digested i.
Proof using.
  intros Hab. apply elem_of_app. right. apply elem_of_app. destruct k; [left|right].
  - by apply (list_elem_of_fmap_2 (λ x, relation_material x.1 x.2 PossibleDuplicate) _ (a, b)).
  - by apply (list_elem_of_fmap_2 (λ x, relation_material x.1 x.2 Contradicts) _ (a, b)).
Qed.

Lemma named_id_length i o : String.length (cc_candidate_id (named i o)) = 71%nat.
Proof using Hsha.
  change (String.length (cc_candidate_id (named i o)))
    with (7 + String.length (sha256_hex (encoded (unnamed_candidate i o))))%nat. by rewrite sha256_hex_length.
Qed.

Lemma named_inj i o o' :
  no_collisions i → o ∈ sorted_observations i → o' ∈ sorted_observations i →
  cc_candidate_id (named i o) = cc_candidate_id (named i o') → co_observation_id o = co_observation_id o'.
Proof using Hsha Hcodec.
  intros Hc Ho Ho' E. apply app_same_length in E as [_ E]; [|done].
  apply sha256_hex_digest, Hc in E; [|by apply encoded_digested..].
  unfold encoded in E. destruct (candidate_encodes (candidate_fingerprint (unnamed_candidate i o))) as [b Eb].
  destruct (candidate_encodes (candidate_fingerprint (unnamed_candidate i o'))) as [b' Eb'].
  rewrite Eb, Eb' in E. cbn in E. subst b'. rewrite <-Eb in Eb'. apply candidate_determines in Eb'.
  by injection Eb'.
Qed.

Lemma candidates_distinct i : no_collisions i → input_ok i → NoDup (cc_candidate_id <$> candidates_of i).
Proof using Hsha Hcodec.
  intros Hc Hi. assert (NoDup (co_observation_id <$> sorted_observations i)) as Hnd.
  { unfold sorted_observations. rewrite sort_by_perm. apply Hi. }
  unfold candidates_of. rewrite <-list_fmap_compose. apply NoDup_fmap_2_strong.
  - intros o o' Ho Ho' E. eapply NoDup_fmap_elem_inj; [exact Hnd|done..|]. by eapply named_inj.
  - by eapply NoDup_fmap_1.
Qed.

(** *** Relations *)

Lemma text_content t : validate_text "retained_text" t MAX_MEMORY_TEXT_BYTES = Ok tt → content_validate (TextFact t None) = Ok tt.
Proof using.
  unfold validate_text. rewrite refuse_ok, !orb_false_iff, !bool_decide_eq_false. intros [[[H1' H2'] H3'] H4'].
  unfold content_validate, MemoryContracts.validate_text. rewrite (decide_False _ _ H1'), (decide_False _ _ H2').
  by rewrite H3', H4'.
Qed.

Definition relation_of (x : CompilerCandidate * CompilerCandidate) : option CompilerProposalRelation :=
  match proposal_relation x.1 x.2 with Ok (Some r) => Some r | _ => None end.

(** The relation of two candidates. *)
Record relates_them (a b : CompilerCandidate) (r : CompilerProposalRelation) : Prop := {
  rt_same : same_assertion a b = true;
  rt_from : cp_from_candidate_id r = cc_candidate_id a;
  rt_to : cp_to_candidate_id r = cc_candidate_id b;
  rt_kind : cp_kind r = PossibleDuplicate ↔
            canonical_content_sha256 (cc_content a) = canonical_content_sha256 (cc_content b);
  rt_reason : cp_reason_code r = relation_reason (cp_kind r);
  rt_id : cp_relation_id r = "cmp_r1_" +:+ sha256_hex (relation_material a b (cp_kind r));
}.

Lemma observation_text o : observation_check o = Ok tt → validate_text "retained_text" (co_retained_text o) MAX_MEMORY_TEXT_BYTES = Ok tt.
Proof using. unfold observation_check. checks. tauto. Qed.

Lemma content_digest i o :
  observation_check o = Ok tt → ∃ d, canonical_content_sha256 (cc_content (named i o)) = Ok d.
Proof using Hcodec.
  intros Ho%observation_text%text_content.
  change (cc_content (named i o)) with (TextFact (co_retained_text o) None).
  unfold canonical_content_sha256. rewrite Ho. cbn [result_bind].
  destruct (text_encodes (co_retained_text o) None) as [b ->]. by eexists.
Qed.

Lemma relation_of_named i o o' :
  observation_check o = Ok tt → observation_check o' = Ok tt →
  proposal_relation (named i o) (named i o') = Ok (relation_of (named i o, named i o')) ∧
  (same_assertion (named i o) (named i o') = true → ∃ r, relation_of (named i o, named i o') = Some r) ∧
  ∀ r, relation_of (named i o, named i o') = Some r → relates_them (named i o) (named i o') r.
Proof using Hcodec.
  intros [d Ed]%(content_digest i) [d' Ed']%(content_digest i). unfold relation_of. cbn [fst snd].
  generalize (named i o) (named i o') Ed Ed'. clear. intros a b Ea Eb. unfold proposal_relation.
  destruct (same_assertion a b) eqn:Es; cbn [negb]; [|by split_and!].
  rewrite Ea, Eb. cbn [content_error result_bind]. split; [done|]. split; [by eexists|]. intros r [= <-].
  split; cbn; try done. rewrite Ea, Eb. destruct (String.eqb_spec d d') as [->|Hne]; [done|].
  split; [done|]. by intros [= ?].
Qed.

Lemma candidates_of_in i c : input_ok i → c ∈ candidates_of i → ∃ o, c = named i o ∧ o ∈ ci_observations i ∧ observation_check o = Ok tt.
Proof using.
  intros Hi (o & -> & Ho%in_sorted)%list_elem_of_fmap. exists o. split_and!; [done..|].
  pose proof (io_checked _ Hi) as Hc. rewrite Forall_forall in Hc. by apply Hc.
Qed.

Lemma relation_of_pair i a b :
  input_ok i → (a, b) ∈ pairs (candidates_of i) →
  proposal_relation a b = Ok (relation_of (a, b)) ∧
  (same_assertion a b = true → ∃ r, relation_of (a, b) = Some r) ∧
  ∀ r, relation_of (a, b) = Some r → relates_them a b r.
Proof using Hcodec.
  intros Hi [Ha Hb]%pairs_in.
  destruct (candidates_of_in _ _ Hi Ha) as (o & -> & _ & Ho), (candidates_of_in _ _ Hi Hb) as (o' & -> & _ & Ho').
  by apply relation_of_named.
Qed.

Definition relations_of i : list CompilerProposalRelation :=
  sort_by (λ a b, bytes_cmp (cp_relation_id a) (cp_relation_id b)) (omap relation_of (pairs (candidates_of i))).

Lemma omap_id_fmap {A B} (f : A → option B) (l : list A) : omap id (f <$> l) = omap f l.
Proof using. induction l as [|x l IH]; [done|]. rewrite fmap_cons. cbn. unfold id. destruct (f x); [f_equal|]; done. Qed.

Lemma proposed_relations_of i : input_ok i → proposed_relations (candidates_of i) = Ok (relations_of i).
Proof using Hcodec.
  intros Hi. unfold proposed_relations. rewrite (collect_Ok _ relation_of).
  - cbn [result_bind]. by rewrite omap_id_fmap.
  - intros [a b] Hab. by apply (relation_of_pair i).
Qed.

Lemma in_relations i r :
  r ∈ relations_of i ↔ ∃ a b, (a, b) ∈ pairs (candidates_of i) ∧ relation_of (a, b) = Some r.
Proof using.
  unfold relations_of. rewrite elem_of_sort_by, list_elem_of_omap. split; [intros ([a b] & ? & ?)|intros (a & b & ? & ?)]; eauto.
Qed.

Lemma material_ids a b k a' b' k' :
  String.length (cc_candidate_id a) = String.length (cc_candidate_id a') →
  String.length (cc_candidate_id b) = String.length (cc_candidate_id b') →
  relation_material a b k = relation_material a' b' k' →
  cc_candidate_id a = cc_candidate_id a' ∧ cc_candidate_id b = cc_candidate_id b'.
Proof using.
  unfold relation_material. intros La Lb [Ea E]%app_same_length; [|done]. split; [done|].
  apply app_same_length in E as [_ E]; [|done]. by apply app_same_length in E as [E _].
Qed.

Lemma relation_ids_distinct i :
  no_collisions i → input_ok i → NoDup (cp_relation_id <$> relations_of i).
Proof using Hsha Hcodec.
  intros Hc Hi. unfold relations_of. rewrite sort_by_perm.
  apply (omap_NoDup _ _ (λ x, (cc_candidate_id x.1, cc_candidate_id x.2))); [by apply pairs_NoDup, candidates_distinct|].
  intros [a b] [a' b'] r r' Hab Hab' Er Er' E.
  destruct (relation_of_pair i a b Hi Hab) as (_ & _ & Hr), (relation_of_pair i a' b' Hi Hab') as (_ & _ & Hr').
  pose proof (rt_id _ _ _ (Hr _ Er)) as I. pose proof (rt_id _ _ _ (Hr' _ Er')) as I'. rewrite I, I' in E.
  apply app_same_length in E as [_ E]; [|done]. apply sha256_hex_digest, Hc in E; [|by apply material_digested..].
  apply pairs_in in Hab as [Ha Hb], Hab' as [Ha' Hb'].
  destruct (candidates_of_in _ _ Hi Ha) as (? & -> & _), (candidates_of_in _ _ Hi Hb) as (? & -> & _),
    (candidates_of_in _ _ Hi Ha') as (? & -> & _), (candidates_of_in _ _ Hi Hb') as (? & -> & _).
  cbn [fst snd]. apply material_ids in E as [-> ->]; [done|by rewrite !named_id_length..].
Qed.

Lemma graphic_reason k : validate_id "reason_code" (relation_reason k) = Ok tt.
Proof using. by destruct k; vm_compute. Qed.

Lemma relations_relate i r :
  no_collisions i → input_ok i → r ∈ relations_of i → relates (cc_candidate_id <$> candidates_of i) r.
Proof using Hsha Hcodec.
  intros Hc Hi (a & b & Hab & Er)%in_relations.
  destruct (relation_of_pair i a b Hi Hab) as (_ & _ & Hr). destruct (Hr _ Er) as [_ Ef Et _ Ea Ei].
  unfold relates. rewrite Ei, Ef, Et, Ea. split_and!.
  - apply prefixed_id; [|done]. apply (bool_decide_unpack _). by vm_compute.
  - eapply pairs_key; [by apply candidates_distinct|done].
  - apply list_elem_of_fmap_2. by apply (pairs_in _ _ _ Hab).
  - apply list_elem_of_fmap_2. by apply (pairs_in _ _ _ Hab).
  - apply graphic_reason.
Qed.

Lemma named_grounded i o : observation_check o = Ok tt → o ∈ ci_observations i → grounded i (named i o) o.
Proof using Hsha Hcodec.
  intros Hc Ho. split; try done.
  - by apply text_content, observation_text.
  - apply sha256_hex_is_sha256.
  - intros h. change (cc_expected_head_version_ids (named i o)) with (expected_heads i o). unfold expected_heads.
    rewrite elem_of_sort_by. intros (x & -> & [_ Hx]%list_elem_of_filter)%list_elem_of_fmap. by apply list_elem_of_fmap_2.
  - pose proof (candidate_of_named i o) as E. unfold candidate_of in E. apply bind_ok in E as (id & E & Ei).
    assert (with_id (unnamed_candidate i o) id = named i o) as Ei' by congruence. change (candidate_id (named i o)) with (candidate_id (unnamed_candidate i o)).
    rewrite E. by rewrite <-Ei'.
Qed.

(** The plan of an input. *)
Definition fields_of i : PlanFingerprint :=
  mkPlanFingerprint MEMORY_COMPILER_CONTRACT_VERSION (ci_compiler_artifact_id i) (ci_policy_manifest_id i)
    (candidates_of i) (relations_of i).

Definition plan_of i : MemoryCommitPlan :=
  mkCommitPlan MEMORY_COMPILER_CONTRACT_VERSION (ci_compiler_artifact_id i) (ci_policy_manifest_id i)
    (candidates_of i) (relations_of i)
    (sha256_hex (default "" (plan_fingerprint_to_vec (fields_of i)))).

Lemma plan_of_ok i : no_collisions i → input_ok i → plan_ok (plan_of i) i.
Proof using Hsha Hcodec.
  intros Hc Hi.
  assert (length (candidates_of i) = length (ci_observations i)) as Hl.
  { unfold candidates_of, sorted_observations. by rewrite length_fmap, length_sort_by. }
  split; cbn [plan_of mp_contract_version mp_compiler_artifact_id mp_policy_manifest_id mp_candidates
              mp_proposed_relations mp_plan_sha256]; try done.
  - intros E. rewrite E in Hl. pose proof (io_some _ Hi) as Hs. by destruct (ci_observations i).
  - by rewrite Hl.
  - rewrite Forall_forall. intros c Hc'. destruct (candidates_of_in i c Hi Hc') as (o & -> & Ho & Hch). split.
    + apply prefixed_id; [|done]. apply (bool_decide_unpack _). by vm_compute.
    + exists o. by apply named_grounded.
  - by apply candidates_distinct.
  - rewrite Forall_forall. intros r. by apply relations_relate.
  - by apply relation_ids_distinct.
  - apply sha256_hex_is_sha256.
  - unfold commit_plan_sha256. change (plan_fingerprint (plan_of i)) with (fields_of i).
    by destruct (plan_encodes (fields_of i)) as [b ->].
Qed.

Lemma reference_compile_plan i :
  no_collisions i → input_ok i → ci_compiler_artifact_id i = REFERENCE_TEXT_COMPILER_ARTIFACT_ID →
  reference_compile i = Ok (plan_of i).
Proof using Hsha Hcodec.
  intros Hc Hi Ha. apply reference_compile_ok. split_and!; [done|done| | |by apply plan_of_ok].
  - apply collect_Ok. intros o _. apply candidate_of_named.
  - by apply proposed_relations_of.
Qed.

Lemma reference_conforms i :
  no_collisions i → input_ok i → ci_compiler_artifact_id i = REFERENCE_TEXT_COMPILER_ARTIFACT_ID →
  verify_compiler_conformance reference_compiler i = Ok (plan_of i).
Proof using Hsha Hcodec.
  intros Hc Hi Ha. unfold verify_compiler_conformance. cbn [artifact_id compile reference_compiler].
  rewrite Ha, String.eqb_refl. cbn [negb refuse result_bind].
  rewrite reference_compile_plan by done. cbn [result_bind].
  rewrite (proj2 (validate_against_ok _ _) (plan_of_ok i Hc Hi)). cbn [result_bind].
  destruct (commit_plan_encodes (plan_of i)) as [b ->]. cbn [to_vec result_bind]. by rewrite String.eqb_refl.
Qed.

(** C22: the reference compiler answers every valid input that asks for it, and its
    answer passes its own conformance check: one candidate for each observation, in
    the order of their ids, and for two of them a relation exactly when they are
    about the same assertion, a possible duplicate exactly when their contents
    have the same digest. *)
Theorem reference_compiler_answers i :
  input_validate i = Ok tt → ci_compiler_artifact_id i = REFERENCE_TEXT_COMPILER_ARTIFACT_ID → no_collisions i →
  ∃ p, verify_compiler_conformance reference_compiler i = Ok p ∧
    cc_source_observation_ids <$> mp_candidates p
      = (λ id, [id]) <$> sort_by bytes_cmp (co_observation_id <$> ci_observations i) ∧
    ∀ a b, (a, b) ∈ pairs (mp_candidates p) →
      (same_assertion a b = true ↔ ∃ r, r ∈ mp_proposed_relations p ∧ relates_them a b r).
Proof using Hsha Hcodec.
  intros Hi%input_validate_ok Ha Hc. exists (plan_of i). split_and!.
  - by apply reference_conforms.
  - rewrite <-fmap_sort_by, <-list_fmap_compose. change (mp_candidates (plan_of i)) with (candidates_of i).
    unfold candidates_of. by rewrite <-list_fmap_compose.
  - change (mp_candidates (plan_of i)) with (candidates_of i).
    change (mp_proposed_relations (plan_of i)) with (relations_of i). intros a b Hab.
    destruct (relation_of_pair i a b Hi Hab) as (_ & Hs & Hr). split.
    + intros [r Er]%Hs. exists r. split; [|by apply Hr]. apply in_relations. by exists a, b.
    + intros (r & _ & Hrt). apply Hrt.
Qed.
End reference.

(** ** Examples *)

Module CompilerExamples.
Import FnvDigest.

(** Text facts encode as their text, candidates as the observations they are of. *)
#[export] Instance text_codec : ContentCodec := {
  value_to_vec _ := None;
  content_to_vec c := match c with TextFact t _ => Some t | _ => Some "" end;
}.
#[export] Instance toy_codec : CompilerCodec := {
  job_fields_to_vec _ := Some "job";
  candidate_to_vec c := code_serialize (cf_source_observation_ids c);
  plan_fingerprint_to_vec p := code_serialize (cc_candidate_id <$> pf_candidates p);
  commit_plan_to_vec p := Some (mp_plan_sha256 p);
}.
#[export] Instance toy_codec_laws : CompilerCodecLaws.
Proof.
  split; try (intros; by eexists). intros f g E. cbn in E. destruct (code_total (cf_source_observation_ids f)) as [b Hb].
  pose proof Hb as Hb'. rewrite E in Hb'. apply code_ok in Hb, Hb'. congruence.
Qed.

Definition demo_scope : MemoryScope := mkMemoryScope "w" "team" "door" None None None None Public ["work"].
Definition said (id text : string) : CompilerObservation :=
  mkCompilerObservation id ("ev_" +:+ id) demo_scope text "colour" None None.
Definition demo_input : MemoryCompilerInput :=
  mkInput 1 [said "o2" "red"; said "o1" "blue"]
    [mkCompilerHead "v1" demo_scope "colour" KTextFact; mkCompilerHead "v2" demo_scope "size" KTextFact]
    "policy" REFERENCE_TEXT_COMPILER_ARTIFACT_ID.
Definition reordered : MemoryCompilerInput :=
  mkInput 1 [said "o1" "blue"; said "o2" "red"]
    [mkCompilerHead "v2" demo_scope "size" KTextFact; mkCompilerHead "v1" demo_scope "colour" KTextFact]
    "policy" REFERENCE_TEXT_COMPILER_ARTIFACT_ID.
Definition demo_plan : MemoryCommitPlan := plan_of demo_input.

Example demo_relations :
  cp_kind <$> mp_proposed_relations demo_plan = [Contradicts].
Proof. apply (bool_decide_unpack _). by vm_compute. Qed.

(** Strings that are distinguished by their digests. *)
Lemma distinct_digests l : NoDup (sha256_digest <$> remove_dups l) →
  ∀ x y, x ∈ l → y ∈ l → sha256_digest x = sha256_digest y → x = y.
Proof.
  intros Hnd x y Hx Hy. apply (NoDup_fmap_elem_inj sha256_digest (remove_dups l)); [done|by apply elem_of_remove_dups..].
Qed.

Lemma demo_no_collisions : no_collisions demo_input.
Proof. refine (distinct_digests _ _). apply (bool_decide_unpack _). by vm_compute. Qed.

Lemma demo_same : same_input demo_input reordered.
Proof. split; first [exact (perm_swap _ _ _)|reflexivity]. Qed.

Lemma demo_valid : input_ok demo_input.
Proof. apply input_validate_ok. by vm_compute. Qed.

Lemma demo_compiles : reference_compile demo_input = Ok demo_plan.
Proof. exact (reference_compile_plan demo_input demo_no_collisions demo_valid eq_refl). Qed.

Lemma demo_conforms : verify_compiler_conformance reference_compiler demo_input = Ok demo_plan.
Proof. exact (reference_conforms demo_input demo_no_collisions demo_valid eq_refl). Qed.

Lemma reference_compiler_answers_witness :
  ∃ p, verify_compiler_conformance reference_compiler demo_input = Ok p ∧
    cc_source_observation_ids <$> mp_candidates p = [["o1"]; ["o2"]].
Proof.
  destruct (reference_compiler_answers demo_input (proj2 (input_validate_ok _) demo_valid) eq_refl demo_no_collisions)
    as (p & Hp & Hs & _).
  exists p. split; [exact Hp|]. rewrite Hs. by vm_compute.
Defined.

Lemma compile_ignores_order_witness :
  reference_compile demo_input = Ok demo_plan ∧ reference_compile reordered = Ok demo_plan.
Proof.
  split; [exact demo_compiles|exact (compile_ignores_order demo_input reordered demo_plan demo_same demo_compiles)].
Defined.

Lemma conforming_plans_are_confined_witness :
  verify_compiler_conformance reference_compiler demo_input = Ok demo_plan ∧
  NoDup (cc_candidate_id <$> mp_candidates demo_plan).
Proof.
  split; [exact demo_conforms|].
  exact (proj1 (proj2 (conforming_plans_are_confined reference_compiler demo_input demo_plan demo_conforms))).
Defined.
End CompilerExamples.
