(* ===== verification/LedgerModel.v ===== *)
(** * Requests, keys and access of the memory ledger

    [crates/storage/src/memory.rs]: the requests and receipts of the ledger, the
    validation of requests, the keys of its records, access grants with their
    canonical encoding and signature, authorization against a grant, and the
    firewall of contents. serde_json is the class [LedgerCodec], HMAC-SHA-256 the
    class [Hmac]. *)

From Stdlib Require Import Ascii.
From S2P Require Import Prelude Float32 Text Sorting Storage Hex Keys Filter Knowledge MemoryContracts.

(** [b"akidb\0memory\0v1\0"]. *)
Definition KEY_NAMESPACE : string :=
  "akidb" +:+ String "000" ("memory" +:+ String "000" ("v1" +:+ String "000" "")).
Definition MAX_IDEMPOTENCY_KEY_BYTES : Z := 128.
Definition MAX_PROJECTION_KEY_BYTES : Z := 4 * 1024.
Definition MAX_PROJECTION_VALUE_BYTES : Z := 4 * 1024 * 1024.
Definition MAX_REASON_BYTES : Z := 64 * 1024.
Definition MAX_ACCESS_SCOPE_VALUES : Z := 256.

(** ** Access *)

Record MemoryAccessGrant := mkGrant {
  g_principal_id : string;
  g_credential_id : string;
  g_workspace_id : string;
  g_namespace : string;
  g_request_purpose : string;
  g_delegated_agent_id : option string;
  g_allow_shared_memory : bool;
  g_entity_keys : list string;
  g_data_subject_ids : list string;
  g_require_data_subject : bool;
  g_session_ids : list string;
  g_require_session : bool;
  g_task_ids : list string;
  g_require_task : bool;
  g_sensitivities : list Sensitivity;
  g_capability : string;
  g_authorization_epoch : Z;
  g_grant_version : Z;
  g_authorization_decision_id : string;
  g_system_job : bool;
}.

Record MemoryAccessProof := mkProof { grant : MemoryAccessGrant; signature : list Z }.

Class Hmac := { hmac_sha256 : list Z → string → list Z }.

(** ** Requests and receipts *)

Record MemoryEvidenceInput := mkEvidenceInput {
  ei_source_plane : string;
  ei_source_id : string;
  ei_source_version : option string;
  ei_observed_at_ms : option Z;
  ei_observed_at_unix_nanos : option Z;
  ei_content_sha256 : string;
  ei_source_principal_id : option string;
}.

Record MemoryDerivationInput := mkDerivationInput {
  di_input_version_ids : list string;
  di_input_evidence_ids : list string;
  di_operation : string;
  di_compiler_artifact_id : option string;
  di_deterministic_parameters_sha256 : string;
}.

Record ObserveMemoryRequest := mkObserve {
  or_scope : MemoryScope;
  or_source_plane : string;
  or_source_id : string;
  or_source_version : option string;
  or_observed_at_ms : option Z;
  or_observed_at_unix_nanos : option Z;
  or_content_sha256 : string;
  or_retained_payload : string;
  or_principal_id : string;
  or_delegated_agent_id : option string;
  or_request_purpose : string;
  or_authorization_decision_id : string;
  or_policy_decision_id : string;
  or_idempotency_key : string;
  or_reason : string;
  or_committed_at_ms : Z;
}.

Record CommitMemoryRequest := mkCommit {
  cr_scope : MemoryScope;
  cr_predicate : string;
  cr_content : MemoryContent;
  cr_valid_from_ms : option Z;
  cr_valid_to_ms : option Z;
  cr_valid_from_unix_nanos : option Z;
  cr_valid_to_unix_nanos : option Z;
  cr_epistemic_formation : EpistemicFormation;
  cr_source_assurance : SourceAssurance;
  cr_decision_authority : DecisionAuthority;
  cr_confidence : option f32;
  cr_evidence : list MemoryEvidenceInput;
  cr_compiler_artifact_id : option string;
  cr_derivation : option MemoryDerivationInput;
  cr_principal_id : string;
  cr_delegated_agent_id : option string;
  cr_request_purpose : string;
  cr_authorization_decision_id : string;
  cr_policy_decision_id : string;
  cr_idempotency_key : string;
  cr_expected_head_version_ids : list string;
  cr_reason : string;
  cr_committed_at_ms : Z;
}.

Record ForgetMemoryRequest := mkForget {
  fr_workspace_id : string;
  fr_namespace : string;
  fr_assertion_id : string;
  fr_version_id : option string;
  fr_principal_id : string;
  fr_delegated_agent_id : option string;
  fr_request_purpose : string;
  fr_authorization_decision_id : string;
  fr_policy_decision_id : string;
  fr_idempotency_key : string;
  fr_expected_head_version_ids : list string;
  fr_reason : string;
  fr_committed_at_ms : Z;
}.

Record ReinforceMemoryRequest := mkReinforce {
  rr_workspace_id : string;
  rr_namespace : string;
  rr_version_id : string;
  rr_evidence : list MemoryEvidenceInput;
  rr_outcome : MemoryReinforcementOutcome;
  rr_outcome_id : string;
  rr_utility_micros : Z;
  rr_principal_id : string;
  rr_delegated_agent_id : option string;
  rr_request_purpose : string;
  rr_authorization_decision_id : string;
  rr_policy_decision_id : string;
  rr_idempotency_key : string;
  rr_reason : string;
  rr_committed_at_ms : Z;
}.

Record CommitProposalRequest := mkCommitProposal {
  pr_workspace_id : string;
  pr_namespace : string;
  pr_proposal_version_id : string;
  pr_principal_id : string;
  pr_delegated_agent_id : option string;
  pr_request_purpose : string;
  pr_authorization_decision_id : string;
  pr_policy_decision_id : string;
  pr_idempotency_key : string;
  pr_expected_head_version_ids : list string;
  pr_reason : string;
  pr_committed_at_ms : Z;
}.

Inductive CommitMemoryOutcome := Committed | DuplicateCommit.

Record CommitMemoryReceipt := mkReceipt {
  rc_outcome : CommitMemoryOutcome;
  rc_mutation_id : string;
  rc_assertion_id : string;
  rc_version_ids : list string;
  rc_commit_sequence : Z;
  rc_policy_decision_id : string;
  rc_version_state : VersionState;
}.

Record ObserveMemoryReceipt := mkObserveReceipt {
  oc_outcome : CommitMemoryOutcome;
  oc_mutation_id : string;
  oc_observation_id : string;
  oc_evidence_id : string;
  oc_commit_sequence : Z;
  oc_policy_decision_id : string;
}.

Record MemoryVersionView := mkView {
  vw_assertion : MemoryAssertion;
  vw_version : MemoryVersion;
  vw_lifecycle : VersionLifecycle;
  vw_evidence : list EvidenceRecord;
  vw_policy_decision : option PolicyDecisionRecord;
  vw_derivation : option DerivationRecord;
  vw_relations : list MemoryRelation;
  vw_reinforcements : list MemoryReinforcement;
}.

Record ActiveProjectionSet := mkActiveSet {
  as_schema_version : Z;
  as_workspace_id : string;
  as_projection_set_id : string;
  as_projection_set_version : Z;
  as_manifest_sha256 : string;
  as_activated_sequence : Z;
  as_activated_at_ms : Z;
}.

Inductive ProjectionApplyOutcome := PApplied | PDuplicate.

Inductive ProjectionDataOperation :=
| PPut (key value : string)
| PDelete (key : string).

Inductive MemoryLedgerError :=
| LContract (v : ContractViolation)
| LStorage (e : AkiDbError)
| LSerialization
| LInvalidRequest (msg : string)
| UnauthorizedAccess
| IdempotencyConflict
| ExpectedHeadConflict (expected actual : list string)
| TargetNotActive
| DeletionPlanNotFound
| DeletionPlanExpired
| DeletionPlanStale
| SequenceExhausted (workspace_id : string)
| ProjectionSequenceGap (expected actual : Z)
| OutboxMismatch (sequence : Z)
| ProjectionCheckpointNotFound (projection_id : string)
| ProjectionFailed (projection_id message : string)
| VisibilityPending (requested_sequence current_sequence : Z)
| LCorruptState (msg : string).

Abbreviation LResult A := (result MemoryLedgerError A).

Record WorkspaceMeta := mkMeta {
  wm_schema_version : Z;
  wm_workspace_id : string;
  wm_commit_sequence : Z;
}.

Record CommitDisposition := mkDisposition {
  d_operation : MemoryOperation;
  d_capability : string;
  d_initial_state : VersionState;
  d_changes_head : bool;
}.

Record LifecycleDisposition := mkLifecycleDisposition {
  l_operation : MemoryOperation;
  l_capability : string;
  l_state : VersionState;
  l_policy_outcome : PolicyDecisionOutcome;
  l_policy_reason : string;
}.

(** The fields of a request that its fingerprint covers. *)
Record CommitFingerprint := mkCommitFingerprint {
  cf_scope : MemoryScope;
  cf_predicate : string;
  cf_content : MemoryContent;
  cf_valid_from_ms : option Z;
  cf_valid_to_ms : option Z;
  cf_valid_from_unix_nanos : option Z;
  cf_valid_to_unix_nanos : option Z;
  cf_epistemic_formation : EpistemicFormation;
  cf_source_assurance : SourceAssurance;
  cf_decision_authority : DecisionAuthority;
  cf_confidence : option f32;
  cf_evidence : list MemoryEvidenceInput;
  cf_compiler_artifact_id : option string;
  cf_derivation : option MemoryDerivationInput;
  cf_principal_id : string;
  cf_delegated_agent_id : option string;
  cf_request_purpose : string;
  cf_expected_head_version_ids : list string;
  cf_reason : string;
}.

Record ObserveFingerprint := mkObserveFingerprint {
  of_scope : MemoryScope;
  of_source_plane : string;
  of_source_id : string;
  of_source_version : option string;
  of_observed_at_ms : option Z;
  of_observed_at_unix_nanos : option Z;
  of_content_sha256 : string;
  of_retained_payload_sha256 : string;
  of_principal_id : string;
  of_delegated_agent_id : option string;
  of_request_purpose : string;
  of_reason : string;
}.

Record ForgetFingerprint := mkForgetFingerprint {
  ff_workspace_id : string;
  ff_namespace : string;
  ff_assertion_id : string;
  ff_version_id : option string;
  ff_principal_id : string;
  ff_delegated_agent_id : option string;
  ff_request_purpose : string;
  ff_expected_head_version_ids : list string;
  ff_reason : string;
}.

Record ReinforceFingerprint := mkReinforceFingerprint {
  rp_workspace_id : string;
  rp_namespace : string;
  rp_version_id : string;
  rp_evidence : list MemoryEvidenceInput;
  rp_outcome : MemoryReinforcementOutcome;
  rp_outcome_id : string;
  rp_utility_micros : Z;
  rp_principal_id : string;
  rp_delegated_agent_id : option string;
  rp_request_purpose : string;
  rp_reason : string;
}.

Record CommitProposalFingerprint := mkProposalFingerprint {
  pf_workspace_id : string;
  pf_namespace : string;
  pf_proposal_version_id : string;
  pf_principal_id : string;
  pf_delegated_agent_id : option string;
  pf_request_purpose : string;
  pf_expected_head_version_ids : list string;
  pf_reason : string;
}.

Record ProjectionManifestFingerprint := mkManifestFingerprint {
  mf_schema_version : Z;
  mf_projection_set_id : string;
  mf_projection_set_version : Z;
  mf_projection_ids : list string;
  mf_artifact_ids : list string;
  mf_policy_manifest_id : option string;
  mf_tokenizer_artifact_id : option string;
  mf_context_firewall_artifact_id : option string;
  mf_server_build_id : option string;
}.

(** serde_json on a type of records. *)
Class Serde (A : Type) := {
  json_of : A → option string;
  of_json : string → option A;
}.

(** serde_json on the records of the ledger. *)
Class LedgerCodec := {
  serde_meta :: Serde WorkspaceMeta;
  serde_assertion :: Serde MemoryAssertion;
  serde_version :: Serde MemoryVersion;
  serde_evidence :: Serde EvidenceRecord;
  serde_observation :: Serde MemoryObservation;
  serde_derivation :: Serde DerivationRecord;
  serde_relation :: Serde MemoryRelation;
  serde_reinforcement :: Serde MemoryReinforcement;
  serde_policy :: Serde PolicyDecisionRecord;
  serde_head :: Serde MemoryHead;
  serde_lifecycle :: Serde VersionLifecycle;
  serde_mutation :: Serde MemoryMutation;
  serde_idempotency :: Serde IdempotencyRecord;
  serde_outbox :: Serde ProjectionOutboxEntry;
  serde_checkpoint :: Serde ProjectionCheckpoint;
  serde_set_manifest :: Serde ProjectionSetManifest;
  serde_active_set :: Serde ActiveProjectionSet;
  commit_fingerprint_to_vec : CommitFingerprint → option string;
  observe_fingerprint_to_vec : ObserveFingerprint → option string;
  forget_fingerprint_to_vec : ForgetFingerprint → option string;
  reinforce_fingerprint_to_vec : ReinforceFingerprint → option string;
  proposal_fingerprint_to_vec : CommitProposalFingerprint → option string;
  manifest_fingerprint_to_vec : ProjectionManifestFingerprint → option string;
  selector_to_vec : MemoryDeletionSelector → option string;
}.

(** The conversions of [?]. *)
Definition lcontract {A} (r : ContractResult A) : LResult A :=
  match r with Ok a => Ok a | Err v => Err (LContract v) end.
Definition lstored {A} (r : Result A) : LResult A :=
  match r with Ok a => Ok a | Err e => Err (LStorage e) end.
Definition ljson {A} (r : option A) : LResult A :=
  match r with Some a => Ok a | None => Err LSerialization end.
Definition lcorrupt {E A} (msg : string) (r : result E A) : LResult A :=
  match r with Ok a => Ok a | Err _ => Err (LCorruptState msg) end.
(** [ok_or]. *)
Definition ok_or {A} (o : option A) (e : MemoryLedgerError) : LResult A :=
  match o with Some a => Ok a | None => Err e end.

(** ** Validation of requests *)

Definition validate_text (field value : string) (maximum : Z) : LResult unit :=
  if bool_decide (trim (str_chars value) = []) || bool_decide (trim (str_chars value) ≠ str_chars value)
     || (byte_len value >? maximum) || existsb (Z.eqb 0) (str_chars value) then
    Err (LInvalidRequest (field +:+ " must be non-empty, trimmed, NUL-free, and bounded"))
  else Ok tt.

Definition validate_local_id (field value : string) : LResult unit :=
  let? _ := validate_text field value MAX_MEMORY_ID_BYTES in
  if existsb is_control (str_chars value) then
    Err (LInvalidRequest (field +:+ " must not contain control characters"))
  else Ok tt.

Definition validate_optional_local_id (field : string) (value : option string) : LResult unit :=
  match value with Some value => validate_local_id field value | None => Ok tt end.

Definition validate_sha256 (field value : string) : LResult unit :=
  if negb (is_sha256 value) then
    Err (LInvalidRequest (field +:+ " must be a lowercase hexadecimal SHA-256 digest"))
  else Ok tt.

Definition validate_idempotency_key (key : string) : LResult unit :=
  if String.eqb key "" || (byte_len key >? MAX_IDEMPOTENCY_KEY_BYTES)
     || bool_decide (trim (str_chars key) ≠ str_chars key) || existsb is_control (str_chars key) then
    Err (LInvalidRequest "idempotency_key must be bounded, without surrounding whitespace or controls")
  else Ok tt.

(** The loop of [validate_ids] and of [validate_scope_values]. *)
Fixpoint local_ids_distinct (field : string) (unique : gset string) (ids : list string)
    : LResult unit :=
  match ids with
  | [] => Ok tt
  | id :: ids =>
      let? _ := validate_local_id field id in
      if decide (id ∈ unique) then Err (LInvalidRequest (field +:+ " must not contain duplicates"))
      else local_ids_distinct field ({[id]} ∪ unique) ids
  end.

Definition validate_ids (field : string) (ids : list string) (maximum : Z) : LResult unit :=
  if Zlength ids >? maximum then Err (LInvalidRequest (field +:+ " exceeds the maximum entries"))
  else local_ids_distinct field ∅ ids.

Definition validate_scope_values (field : string) (values : list string) : LResult unit :=
  if Zlength values >? MAX_ACCESS_SCOPE_VALUES then
    Err (LInvalidRequest (field +:+ " must contain at most the maximum values"))
  else local_ids_distinct field ∅ values.

Definition validate_compatible_time (field : string) (legacy_ms nanos : option Z) : LResult unit :=
  match legacy_ms, nanos with
  | Some legacy_ms, Some nanos =>
      if negb (legacy_ms * 1000000 =? nanos) then
        Err (LInvalidRequest (field +:+ " millisecond and nanosecond values disagree"))
      else Ok tt
  | _, _ => Ok tt
  end.

(** [ms.map(i64::try_from).transpose()]. *)
Definition signed_ms (ms : option Z) (range : string) : LResult (option Z) :=
  match ms with
  | Some v => if v >? i64_max then Err (LInvalidRequest range) else Ok (Some v)
  | None => Ok None
  end.

Definition nonpositive (nanos : option Z) : bool :=
  match nanos with Some value => value <=? 0 | None => false end.

Definition validate_committed_at (field : string) (committed_at_ms : Z) : LResult unit :=
  if committed_at_ms =? 0 then Err (LInvalidRequest (field +:+ " must be greater than zero"))
  else Ok tt.

Definition validate_evidence_input (e : MemoryEvidenceInput) : LResult unit :=
  let? _ := validate_local_id "evidence.source_plane" (ei_source_plane e) in
  let? _ := validate_local_id "evidence.source_id" (ei_source_id e) in
  let? _ := validate_optional_local_id "evidence.source_version" (ei_source_version e) in
  let? _ := validate_optional_local_id "evidence.source_principal_id" (ei_source_principal_id e) in
  if bool_decide (ei_observed_at_ms e = Some 0) then
    Err (LInvalidRequest "evidence.observed_at_ms must be greater than zero")
  else if nonpositive (ei_observed_at_unix_nanos e) then
    Err (LInvalidRequest "evidence.observed_at_unix_nanos must be greater than zero")
  else
    let? observed_at_ms := signed_ms (ei_observed_at_ms e)
                             "evidence.observed_at_ms exceeds the signed time range" in
    let? _ := validate_compatible_time "evidence.observed_at" observed_at_ms
                (ei_observed_at_unix_nanos e) in
    validate_sha256 "evidence.content_sha256" (ei_content_sha256 e).

Fixpoint lall {A} (check : A → LResult unit) (l : list A) : LResult unit :=
  match l with [] => Ok tt | x :: l => let? _ := check x in lall check l end.

Definition validate_derivation_input (compiler_artifact_id : option string) (d : MemoryDerivationInput)
    : LResult unit :=
  let? _ := validate_ids "derivation.input_version_ids" (di_input_version_ids d)
              MAX_MEMORY_ACTIVE_HEADS in
  let? _ := validate_ids "derivation.input_evidence_ids" (di_input_evidence_ids d)
              MAX_MEMORY_EVIDENCE in
  if bool_decide (di_input_version_ids d = []) && bool_decide (di_input_evidence_ids d = []) then
    Err (LInvalidRequest "derivation must name at least one input")
  else
    let? _ := validate_local_id "derivation.operation" (di_operation d) in
    let? _ := validate_optional_local_id "derivation.compiler_artifact_id" (di_compiler_artifact_id d) in
    let? _ := validate_sha256 "derivation.deterministic_parameters_sha256"
                (di_deterministic_parameters_sha256 d) in
    match compiler_artifact_id, di_compiler_artifact_id d with
    | Some version, Some derivation_version =>
        if negb (String.eqb version derivation_version) then
          Err (LInvalidRequest "compiler artifact IDs on the version and derivation disagree")
        else Ok tt
    | _, _ => Ok tt
    end.

Definition request_identity (r : CommitMemoryRequest) : MemoryAssertionIdentity :=
  mkIdentity (ms_workspace_id (cr_scope r)) (ms_namespace (cr_scope r)) (ms_entity_key (cr_scope r))
    (cr_predicate r) (content_kind (cr_content r)).

Definition validate_request_valid_time (r : CommitMemoryRequest) : LResult unit :=
  let? _ := match cr_valid_from_ms r, cr_valid_to_ms r with
            | Some from, Some to =>
                if to <=? from then
                  Err (LInvalidRequest "valid_to_ms must be greater than valid_from_ms")
                else Ok tt
            | _, _ => Ok tt
            end in
  let? _ := validate_compatible_time "valid_from" (cr_valid_from_ms r) (cr_valid_from_unix_nanos r) in
  let? _ := validate_compatible_time "valid_to" (cr_valid_to_ms r) (cr_valid_to_unix_nanos r) in
  match effective_unix_nanos (cr_valid_from_ms r) (cr_valid_from_unix_nanos r),
        effective_unix_nanos (cr_valid_to_ms r) (cr_valid_to_unix_nanos r) with
  | Some from, Some to =>
      if to <=? from then Err (LInvalidRequest "valid_to must be greater than valid_from") else Ok tt
  | _, _ => Ok tt
  end.

Section requests.
Context `{!ContentCodec, !Sha256}.

Definition validate_commit_request (r : CommitMemoryRequest) : LResult unit :=
  let? _ := lcontract (memory_scope_validate (cr_scope r)) in
  let? _ := lcontract (identity_validate (request_identity r)) in
  let? _ := lcontract (content_validate (cr_content r)) in
  let? _ := validate_local_id "principal_id" (cr_principal_id r) in
  let? _ := validate_optional_local_id "delegated_agent_id" (cr_delegated_agent_id r) in
  let? _ := validate_local_id "request_purpose" (cr_request_purpose r) in
  if negb (existsb (String.eqb (cr_request_purpose r)) (ms_allowed_purposes (cr_scope r))) then
    Err (LInvalidRequest "request_purpose is not allowed by the memory scope")
  else
    let? _ := validate_local_id "authorization_decision_id" (cr_authorization_decision_id r) in
    let? _ := validate_local_id "policy_decision_id" (cr_policy_decision_id r) in
    let? _ := validate_idempotency_key (cr_idempotency_key r) in
    let? _ := validate_ids "expected_head_version_ids" (cr_expected_head_version_ids r)
                MAX_MEMORY_ACTIVE_HEADS in
    let? _ := validate_text "reason" (cr_reason r) MAX_REASON_BYTES in
    let? _ := validate_committed_at "committed_at_ms" (cr_committed_at_ms r) in
    if bool_decide (cr_evidence r = []) || (Zlength (cr_evidence r) >? MAX_MEMORY_EVIDENCE) then
      Err (LInvalidRequest "evidence count out of range")
    else
      let? _ := lall validate_evidence_input (cr_evidence r) in
      let? _ := validate_request_valid_time r in
      let? _ := validate_optional_local_id "compiler_artifact_id" (cr_compiler_artifact_id r) in
      let? _ := match cr_derivation r with
                | Some derivation => validate_derivation_input (cr_compiler_artifact_id r) derivation
                | None => Ok tt
                end in
      if confidence_malformed (cr_confidence r) then
        Err (LInvalidRequest "confidence must be finite and between 0 and 1")
      else Ok tt.

Definition validate_observe_request (r : ObserveMemoryRequest) : LResult unit :=
  let? _ := lcontract (memory_scope_validate (or_scope r)) in
  let? _ := validate_local_id "source_plane" (or_source_plane r) in
  let? _ := validate_local_id "source_id" (or_source_id r) in
  let? _ := validate_optional_local_id "source_version" (or_source_version r) in
  if bool_decide (or_observed_at_ms r = Some 0) || nonpositive (or_observed_at_unix_nanos r) then
    Err (LInvalidRequest "observation time must be greater than zero")
  else
    let? observed_at_ms := signed_ms (or_observed_at_ms r)
                             "observed_at_ms exceeds the signed time range" in
    let? _ := validate_compatible_time "observed_at" observed_at_ms (or_observed_at_unix_nanos r) in
    let? _ := validate_sha256 "content_sha256" (or_content_sha256 r) in
    if byte_len (or_retained_payload r) >? MAX_MEMORY_TEXT_BYTES then
      Err (LInvalidRequest "retained observation payload exceeds the maximum")
    else if negb (String.eqb (or_retained_payload r) "")
            && negb (String.eqb (sha256_hex (or_retained_payload r)) (or_content_sha256 r)) then
      Err (LInvalidRequest "retained observation payload digest differs from content_sha256")
    else
      let? _ := validate_local_id "principal_id" (or_principal_id r) in
      let? _ := validate_optional_local_id "delegated_agent_id" (or_delegated_agent_id r) in
      let? _ := validate_local_id "request_purpose" (or_request_purpose r) in
      if negb (existsb (String.eqb (or_request_purpose r)) (ms_allowed_purposes (or_scope r))) then
        Err (LInvalidRequest "request_purpose is not allowed by the observation scope")
      else
        let? _ := validate_local_id "authorization_decision_id" (or_authorization_decision_id r) in
        let? _ := validate_local_id "policy_decision_id" (or_policy_decision_id r) in
        let? _ := validate_idempotency_key (or_idempotency_key r) in
        let? _ := validate_text "reason" (or_reason r) MAX_REASON_BYTES in
        validate_committed_at "committed_at_ms" (or_committed_at_ms r).
End requests.

Definition validate_forget_request (r : ForgetMemoryRequest) : LResult unit :=
  let? _ := validate_local_id "workspace_id" (fr_workspace_id r) in
  let? _ := validate_local_id "namespace" (fr_namespace r) in
  let? _ := validate_local_id "assertion_id" (fr_assertion_id r) in
  let? _ := validate_optional_local_id "version_id" (fr_version_id r) in
  let? _ := validate_local_id "principal_id" (fr_principal_id r) in
  let? _ := validate_optional_local_id "delegated_agent_id" (fr_delegated_agent_id r) in
  let? _ := validate_local_id "request_purpose" (fr_request_purpose r) in
  let? _ := validate_local_id "authorization_decision_id" (fr_authorization_decision_id r) in
  let? _ := validate_local_id "policy_decision_id" (fr_policy_decision_id r) in
  let? _ := validate_idempotency_key (fr_idempotency_key r) in
  let? _ := validate_ids "expected_head_version_ids" (fr_expected_head_version_ids r)
              MAX_MEMORY_ACTIVE_HEADS in
  let? _ := validate_text "reason" (fr_reason r) MAX_REASON_BYTES in
  validate_committed_at "committed_at_ms" (fr_committed_at_ms r).

Definition validate_reinforcement_evidence (e : MemoryEvidenceInput) : LResult unit :=
  let? _ := validate_local_id "evidence.source_plane" (ei_source_plane e) in
  let? _ := validate_local_id "evidence.source_id" (ei_source_id e) in
  let? _ := validate_optional_local_id "evidence.source_version" (ei_source_version e) in
  let? _ := validate_optional_local_id "evidence.source_principal_id" (ei_source_principal_id e) in
  if bool_decide (ei_observed_at_ms e = Some 0) || nonpositive (ei_observed_at_unix_nanos e) then
    Err (LInvalidRequest "reinforcement evidence time must be greater than zero")
  else
    let? observed_at_ms := signed_ms (ei_observed_at_ms e)
                             "reinforcement evidence time exceeds the signed range" in
    let? _ := validate_compatible_time "reinforcement evidence observed_at" observed_at_ms
                (ei_observed_at_unix_nanos e) in
    validate_sha256 "evidence.content_sha256" (ei_content_sha256 e).

Definition validate_reinforce_request (r : ReinforceMemoryRequest) : LResult unit :=
  let? _ := validate_local_id "workspace_id" (rr_workspace_id r) in
  let? _ := validate_local_id "namespace" (rr_namespace r) in
  let? _ := validate_local_id "version_id" (rr_version_id r) in
  if bool_decide (rr_evidence r = []) || (Zlength (rr_evidence r) >? MAX_MEMORY_EVIDENCE) then
    Err (LInvalidRequest "reinforcement evidence count out of range")
  else
    let? _ := lall validate_reinforcement_evidence (rr_evidence r) in
    let? _ := validate_local_id "outcome_id" (rr_outcome_id r) in
    if utility_out_of_range (rr_utility_micros r) then
      Err (LInvalidRequest "utility_micros must be between -1000000 and 1000000")
    else
      let? _ := validate_local_id "principal_id" (rr_principal_id r) in
      let? _ := validate_optional_local_id "delegated_agent_id" (rr_delegated_agent_id r) in
      let? _ := validate_local_id "request_purpose" (rr_request_purpose r) in
      let? _ := validate_local_id "authorization_decision_id" (rr_authorization_decision_id r) in
      let? _ := validate_local_id "policy_decision_id" (rr_policy_decision_id r) in
      let? _ := validate_idempotency_key (rr_idempotency_key r) in
      let? _ := validate_text "reason" (rr_reason r) MAX_REASON_BYTES in
      validate_committed_at "reinforcement committed_at_ms" (rr_committed_at_ms r).

Definition validate_commit_proposal_request (r : CommitProposalRequest) : LResult unit :=
  let? _ := validate_local_id "workspace_id" (pr_workspace_id r) in
  let? _ := validate_local_id "namespace" (pr_namespace r) in
  let? _ := validate_local_id "proposal_version_id" (pr_proposal_version_id r) in
  let? _ := validate_local_id "principal_id" (pr_principal_id r) in
  let? _ := validate_optional_local_id "delegated_agent_id" (pr_delegated_agent_id r) in
  let? _ := validate_local_id "request_purpose" (pr_request_purpose r) in
  let? _ := validate_local_id "authorization_decision_id" (pr_authorization_decision_id r) in
  let? _ := validate_local_id "policy_decision_id" (pr_policy_decision_id r) in
  let? _ := validate_idempotency_key (pr_idempotency_key r) in
  let? _ := validate_ids "expected_head_version_ids" (pr_expected_head_version_ids r)
              MAX_MEMORY_ACTIVE_HEADS in
  let? _ := validate_text "reason" (pr_reason r) MAX_REASON_BYTES in
  validate_committed_at "committed_at_ms" (pr_committed_at_ms r).

Definition validate_projection_key (key : string) : LResult unit :=
  if String.eqb key "" || (byte_len key >? MAX_PROJECTION_KEY_BYTES) then
    Err (LInvalidRequest "projection key length out of range")
  else Ok tt.

Definition validate_projection_operation (operation : ProjectionDataOperation) : LResult unit :=
  match operation with
  | PPut key value =>
      let? _ := validate_projection_key key in
      if byte_len value >? MAX_PROJECTION_VALUE_BYTES then
        Err (LInvalidRequest "projection value exceeds the maximum bytes")
      else Ok tt
  | PDelete key => validate_projection_key key
  end.

Definition validate_projection_operations (operations : list ProjectionDataOperation) : LResult unit :=
  lall validate_projection_operation operations.

Definition validate_active_projection_set (a : ActiveProjectionSet) : LResult unit :=
  if negb (as_schema_version a =? MEMORY_SCHEMA_VERSION) then
    Err (LCorruptState "unsupported active projection-set schema version")
  else
    let? _ := validate_local_id "workspace_id" (as_workspace_id a) in
    let? _ := validate_local_id "projection_set_id" (as_projection_set_id a) in
    if (as_projection_set_version a =? 0) || (as_activated_at_ms a =? 0) then
      Err (LInvalidRequest "active projection-set version and activation time must be greater than zero")
    else validate_sha256 "manifest_sha256" (as_manifest_sha256 a).

(** ** Keys *)

Definition operation_name (o : MemoryOperation) : string :=
  match o with
  | MObserve => "observe"
  | MPropose => "propose"
  | MCommit => "commit"
  | MCorrect => "correct"
  | MRetract => "retract"
  | MForget => "forget"
  | MReinforce => "reinforce"
  | MRetentionDelete => "retention-delete"
  end.

Definition deletion_target_kind_name (k : MemoryDeletionTargetKind) : string :=
  match k with
  | TSelector => "selector"
  | TAssertion => "assertion"
  | TVersion => "version"
  | TEvidence => "evidence"
  | TObservation => "observation"
  | TReinforcement => "reinforcement"
  | TRecallSnapshot => "recall-snapshot"
  end.

(** [u64::to_be_bytes] and [u32::to_be_bytes]. *)
Definition seq8 (n : Z) : string := string_of_bytes (be_bytes 8 n).
Definition ver4 (n : Z) : string := string_of_bytes (be_bytes 4 n).

Definition scoped_key (kind workspace_id : string) (components : list string) : string :=
  foldl push_component (push_component (push_component KEY_NAMESPACE kind) workspace_id) components.

Definition global_key (kind : string) (components : list string) : string :=
  foldl push_component (push_component KEY_NAMESPACE kind) components.

Definition meta_key (ws : string) : string := scoped_key "meta" ws [].
Definition assertion_key (ws aid : string) : string := scoped_key "assertion" ws [aid].
Definition version_key (ws vid : string) : string := scoped_key "version" ws [vid].
Definition evidence_key (ws eid : string) : string := scoped_key "evidence" ws [eid].
Definition observation_key (ws oid : string) : string := scoped_key "observation" ws [oid].
Definition observation_by_evidence_key (ws eid : string) : string :=
  scoped_key "observation-by-evidence" ws [eid].
Definition derivation_key (ws did : string) : string := scoped_key "derivation" ws [did].
Definition relation_key (ws rid : string) : string := scoped_key "relation" ws [rid].
Definition relation_by_version_key (ws vid rid : string) : string :=
  scoped_key "relation-by-version" ws [vid; rid].
Definition relation_by_version_prefix (ws vid : string) : string :=
  scoped_key "relation-by-version" ws [vid].
Definition reinforcement_key (ws vid rid : string) : string := scoped_key "reinforcement" ws [vid; rid].
Definition reinforcement_prefix (ws vid : string) : string := scoped_key "reinforcement" ws [vid].
Definition policy_decision_key (ws pid : string) : string := scoped_key "policy-decision" ws [pid].
Definition head_key (ws aid : string) : string := scoped_key "head" ws [aid].
Definition lifecycle_current_key (ws vid : string) : string := scoped_key "lifecycle-current" ws [vid].
Definition lifecycle_history_key (ws vid : string) (n : Z) : string :=
  scoped_key "lifecycle-history" ws [vid; seq8 n].
Definition lifecycle_history_prefix (ws vid : string) : string :=
  scoped_key "lifecycle-history" ws [vid].
Definition mutation_sequence_key (ws : string) (n : Z) : string :=
  scoped_key "mutation-sequence" ws [seq8 n].
Definition mutation_id_key (ws mid : string) : string := scoped_key "mutation-id" ws [mid].
Definition idempotency_key (ws principal : string) (o : MemoryOperation) (key_sha256 : string) : string :=
  scoped_key "idempotency" ws [principal; operation_name o; key_sha256].
Definition outbox_prefix (ws : string) : string := scoped_key "outbox" ws [].
Definition outbox_key (ws : string) (n : Z) : string := scoped_key "outbox" ws [seq8 n].
Definition deletion_tombstone_key (ws : string) (k : MemoryDeletionTargetKind) (tid : string) : string :=
  scoped_key "deletion-tombstone" ws [deletion_target_kind_name k; tid].
Definition projection_checkpoint_key (ws pid : string) : string :=
  scoped_key "projection-checkpoint" ws [pid].
Definition projection_data_prefix (ws pid : string) : string := scoped_key "projection-data" ws [pid].
Definition projection_data_key (ws pid key : string) : string := projection_data_prefix ws pid +:+ key.
Definition projection_set_key (sid : string) (n : Z) : string :=
  global_key "projection-set" [sid; ver4 n].
Definition active_projection_set_key (ws : string) : string := scoped_key "active-projection-set" ws [].

(** ** Access proofs *)

Definition MEMORY_CAPABILITIES : list string :=
  ["memory.observe"; "memory.propose"; "memory.remember"; "memory.read"; "memory.recall";
   "memory.correct"; "memory.retract"; "memory.forget"; "memory.history"; "memory.export";
   "memory.replay"; "memory.delete.plan"; "memory.delete.execute"; "memory.admin"].

Definition lrequire (ok : bool) (msg : string) : LResult unit :=
  if ok then Ok tt else Err (LInvalidRequest msg).

Definition validate_access_grant (g : MemoryAccessGrant) : LResult unit :=
  let? _ := validate_local_id "access principal_id" (g_principal_id g) in
  let? _ := validate_local_id "access credential_id" (g_credential_id g) in
  let? _ := validate_local_id "access workspace_id" (g_workspace_id g) in
  let? _ := validate_local_id "access namespace" (g_namespace g) in
  let? _ := validate_local_id "access request_purpose" (g_request_purpose g) in
  let? _ := validate_optional_local_id "access delegated_agent_id" (g_delegated_agent_id g) in
  let? _ := validate_scope_values "access entity_keys" (g_entity_keys g) in
  let? _ := validate_scope_values "access data_subject_ids" (g_data_subject_ids g) in
  let? _ := validate_scope_values "access session_ids" (g_session_ids g) in
  let? _ := validate_scope_values "access task_ids" (g_task_ids g) in
  let? _ := lrequire (bool_decide (g_entity_keys g ≠ [])) "access entity_keys must not be empty" in
  let? _ := lrequire (negb (g_require_data_subject g && bool_decide (g_data_subject_ids g = [])))
              "required data-subject access constraint has no values" in
  let? _ := lrequire (negb (g_require_session g && bool_decide (g_session_ids g = [])))
              "required session access constraint has no values" in
  let? _ := lrequire (negb (g_require_task g && bool_decide (g_task_ids g = [])))
              "required task access constraint has no values" in
  let? _ := lrequire (bool_decide (g_sensitivities g ≠ [])) "access sensitivities must not be empty" in
  let? _ := lrequire (bool_decide (NoDup (g_sensitivities g)))
              "access sensitivities must not contain duplicates" in
  let? _ := validate_local_id "access capability" (g_capability g) in
  let? _ := validate_local_id "access authorization_decision_id" (g_authorization_decision_id g) in
  let? _ := lrequire (negb ((g_authorization_epoch g =? 0) || (g_grant_version g =? 0)))
              "access authorization_epoch and grant_version must be greater than zero" in
  let? _ := lrequire (negb (g_system_job g
                            && (negb (String.eqb (g_principal_id g) "system:memory-runtime")
                                || negb (String.eqb (g_credential_id g) "internal:process")
                                || negb (String.eqb (g_capability g) "memory.admin"))))
              "system-job access is reserved for the process Memory runtime" in
  lrequire (existsb (String.eqb (g_capability g)) MEMORY_CAPABILITIES)
    "access capability is not a recognized Memory capability".

Definition u8_string (b : Z) : string := string_of_bytes [b].
Definition flag_string (b : bool) : string := u8_string (if b then 1 else 0).

Definition sensitivity_code (s : Sensitivity) : Z :=
  match s with Public => 1 | Internal => 2 | Confidential => 3 | Restricted => 4 end.

Definition scope_values_string (values : list string) : string :=
  foldl push_component (ver4 (Zlength values)) values.

Definition push_scope_values (target : string) (values : list string) : string :=
  target +:+ scope_values_string values.

Definition push_agent (target : string) (agent : option string) : string :=
  match agent with
  | Some agent_id => push_component (target +:+ u8_string 1) agent_id
  | None => target +:+ u8_string 0
  end.

Definition push_sensitivities (target : string) (l : list Sensitivity) : string :=
  target +:+ ver4 (Zlength l) +:+ string_of_bytes (sensitivity_code <$> l).

(** [b"akidb-memory-access-proof\0v2\0"]. *)
Definition GRANT_PREFIX : string :=
  "akidb-memory-access-proof" +:+ String "000" ("v2" +:+ String "000" "").

Definition encode_access_grant (g : MemoryAccessGrant) : LResult string :=
  let? _ := validate_access_grant g in
  let e := foldl push_component GRANT_PREFIX
             [g_principal_id g; g_credential_id g; g_workspace_id g; g_namespace g;
              g_request_purpose g] in
  let e := push_agent e (g_delegated_agent_id g) in
  let e := e +:+ flag_string (g_allow_shared_memory g) in
  let e := push_scope_values e (g_entity_keys g) in
  let e := push_scope_values e (g_data_subject_ids g) in
  let e := e +:+ flag_string (g_require_data_subject g) in
  let e := push_scope_values e (g_session_ids g) in
  let e := e +:+ flag_string (g_require_session g) in
  let e := push_scope_values e (g_task_ids g) in
  let e := e +:+ flag_string (g_require_task g) in
  let e := push_sensitivities e (g_sensitivities g) in
  let e := push_component e (g_capability g) in
  let e := e +:+ seq8 (g_authorization_epoch g) in
  let e := e +:+ seq8 (g_grant_version g) in
  let e := push_component e (g_authorization_decision_id g) in
  Ok (e +:+ flag_string (g_system_job g)).

(** [b"akidb-memory-effective-scope\0v1\0"]. *)
Definition SCOPE_PREFIX : string :=
  "akidb-memory-effective-scope" +:+ String "000" ("v1" +:+ String "000" "").

Definition sensitivity_cmp (a b : Sensitivity) : comparison := sensitivity_code a ?= sensitivity_code b.

(** What [access_scope_sha256] digests. *)
Definition access_scope_bytes (g : MemoryAccessGrant) : string :=
  let sort := sort_by bytes_cmp in
  let e := foldl push_component SCOPE_PREFIX [g_workspace_id g; g_namespace g; g_request_purpose g] in
  let e := push_agent e (g_delegated_agent_id g) in
  let e := e +:+ flag_string (g_allow_shared_memory g) in
  let e := push_scope_values e (sort (g_entity_keys g)) in
  let e := push_scope_values e (sort (g_data_subject_ids g)) in
  let e := e +:+ flag_string (g_require_data_subject g) in
  let e := push_scope_values e (sort (g_session_ids g)) in
  let e := e +:+ flag_string (g_require_session g) in
  let e := push_scope_values e (sort (g_task_ids g)) in
  let e := e +:+ flag_string (g_require_task g) in
  push_sensitivities e (sort_by sensitivity_cmp (g_sensitivities g)).

Definition access_scope_sha256 `{!Sha256} (g : MemoryAccessGrant) : string :=
  sha256_hex (access_scope_bytes g).

Section access.
Context `{!Hmac} (key : list Z).

Definition sign_access_grant (g : MemoryAccessGrant) : LResult (list Z) :=
  let? encoded := encode_access_grant g in Ok (hmac_sha256 key encoded).

(** [MemoryAccessIssuer::issue]. *)
Definition issue (g : MemoryAccessGrant) : LResult MemoryAccessProof :=
  let? _ := validate_access_grant g in
  let? signature := sign_access_grant g in
  Ok (mkProof g signature).

(** [MemoryAccessVerifier::verify]. *)
Definition verify (p : MemoryAccessProof) : LResult unit :=
  match validate_access_grant (grant p), encode_access_grant (grant p) with
  | Ok _, Ok encoded =>
      if decide (hmac_sha256 key encoded = signature p) then Ok tt else Err UnauthorizedAccess
  | _, _ => Err UnauthorizedAccess
  end.

Definition authorize_capability (p : MemoryAccessProof) (allowed : list string) : LResult unit :=
  let? _ := verify p in
  if g_system_job (grant p) then Ok tt
  else if negb (existsb (String.eqb (g_capability (grant p))) allowed) then Err UnauthorizedAccess
  else Ok tt.

Definition authorize_workspace_capability (p : MemoryAccessProof) (workspace_id : string)
    (allowed : list string) : LResult unit :=
  let? _ := authorize_capability p allowed in
  if negb (String.eqb (g_workspace_id (grant p)) workspace_id) then Err UnauthorizedAccess else Ok tt.

Definition authorize_namespace (p : MemoryAccessProof) (namespace : string) : LResult unit :=
  if negb (g_system_job (grant p)) && negb (String.eqb (g_namespace (grant p)) namespace) then
    Err UnauthorizedAccess
  else Ok tt.

Definition scope_value_matches (values : list string) (value : option string) (require_value : bool)
    : bool :=
  match value with
  | Some value => existsb (λ allowed, String.eqb allowed "**" || String.eqb allowed value) values
  | None => negb require_value
  end.

(** A delegated agent reads what it owns, and shared records when the grant
    says so. *)
Definition agent_admitted (g : MemoryAccessGrant) (owner : option string) : bool :=
  match owner with
  | Some owner => bool_decide (g_delegated_agent_id g = Some owner)
  | None => negb (bool_decide (is_Some (g_delegated_agent_id g)) && negb (g_allow_shared_memory g))
  end.

Definition authorize_record_scope (p : MemoryAccessProof) (scope : MemoryScope) : LResult bool :=
  let? _ := authorize_namespace p (ms_namespace scope) in
  let g := grant p in
  if g_system_job g then Ok true
  else if negb (existsb (String.eqb (g_request_purpose g)) (ms_allowed_purposes scope)) then Ok false
  else if negb (agent_admitted g (ms_owner_agent_id scope)) then Ok false
  else if negb (scope_value_matches (g_entity_keys g) (Some (ms_entity_key scope)) false) then Ok false
  else if negb (scope_value_matches (g_data_subject_ids g) (ms_data_subject_id scope)
                  (g_require_data_subject g))
          || negb (scope_value_matches (g_session_ids g) (ms_session_id scope) (g_require_session g))
          || negb (scope_value_matches (g_task_ids g) (ms_task_id scope) (g_require_task g)) then
    Ok false
  else if negb (existsb (λ s, bool_decide (s = ms_sensitivity scope)) (g_sensitivities g)) then Ok false
  else Ok true.

Definition authorize_lifecycle_request (p : MemoryAccessProof) (workspace_id namespace principal_id : string)
    (delegated_agent_id : option string) (request_purpose authorization_decision_id capability : string)
    : LResult unit :=
  let? _ := authorize_workspace_capability p workspace_id [capability] in
  let? _ := authorize_namespace p namespace in
  let g := grant p in
  if negb (String.eqb (g_principal_id g) principal_id)
     || negb (String.eqb (g_request_purpose g) request_purpose)
     || bool_decide (g_delegated_agent_id g ≠ delegated_agent_id)
     || negb (String.eqb (g_authorization_decision_id g) authorization_decision_id) then
    Err UnauthorizedAccess
  else Ok tt.

Definition authorize_commit (p : MemoryAccessProof) (r : CommitMemoryRequest) (capability : string)
    : LResult unit :=
  let? _ := authorize_workspace_capability p (ms_workspace_id (cr_scope r)) [capability] in
  let? _ := authorize_namespace p (ms_namespace (cr_scope r)) in
  let? admitted := authorize_record_scope p (cr_scope r) in
  if negb admitted then Err UnauthorizedAccess
  else
    let g := grant p in
    if negb (String.eqb (g_principal_id g) (cr_principal_id r))
       || negb (String.eqb (g_request_purpose g) (cr_request_purpose r))
       || bool_decide (g_delegated_agent_id g ≠ cr_delegated_agent_id r)
       || negb (String.eqb (g_authorization_decision_id g) (cr_authorization_decision_id r)) then
      Err UnauthorizedAccess
    else Ok tt.
End access.

(** ** The firewall of contents *)

Definition decision_authority_rank (a : DecisionAuthority) : Z :=
  match a with NoAuthority => 0 | Advisory => 1 | Operational => 2 | GoverningPolicy => 3 end.

Definition AUTHORITY_PATTERNS : list string :=
  ["ignoreprevious"; "disregardprevious"; "overridesystem"; "overridepolicy"; "bypasspolicy";
   "grantpermission"; "elevateprivilege"; "actassystem"; "youarenowthesystem"; "replacesystemprompt"].
Definition SECRET_PATTERNS : list string :=
  ["revealsecret"; "exfiltratesecret"; "printapikey"; "showapikey"; "dumpcredentials";
   "sendcredentials"; "revealpassword"; "readenvironmentsecrets"].
Definition TOOL_PATTERNS : list string :=
  ["authorizetool"; "enabletoolwithoutapproval"; "calltoolwithoutapproval"; "executewithoutapproval";
   "disableguardrail"].

Section firewall.
Context `{!UnicodeNormalization, !CharTables, !ContentCodec}.

Definition context_firewall_reason_codes (content : MemoryContent) (formation : EpistemicFormation)
    (sensitivity : Sensitivity) : list string :=
  let encoded := default "" (content_to_vec content) in
  let normalized := mjoin ((λ c, to_lowercase [c]) <$> nfkc_chars (str_chars encoded)) in
  let compact := base.filter (λ c, is_alphanumeric c = true) normalized in
  let any (t : text) (patterns : list string) := existsb (λ p, contains_text t (lit p)) patterns in
  let reasons :=
    (if any compact AUTHORITY_PATTERNS then ["authority_escalation_instruction"] else [])
    ++ (if any compact SECRET_PATTERNS then ["credential_disclosure_instruction"] else [])
    ++ (if any compact TOOL_PATTERNS then ["tool_authorization_instruction"] else [])
    ++ (if (any normalized ["curl "] && any normalized ["| sh"]) || any normalized ["rm -rf /"] then
          ["destructive_command_payload"] else [])
    ++ (if bool_decide (sensitivity = Restricted)
           && any normalized ["secret"; "password"; "credential"; "api key"; "access token"]
           && any normalized ["reveal"; "print"; "send"; "upload"; "execute"; "run"] then
          ["restricted_sensitive_instruction"] else []) in
  let reasons :=
    if bool_decide (formation = ModelInference ∨ formation = ConsolidatedSummary)
       && bool_decide (reasons ≠ []) then reasons ++ ["untrusted_generated_instruction"] else reasons in
  dedup_sorted (sort_by bytes_cmp reasons).
End firewall.
