(* ===== verification/Ledger.v ===== *)
(** * The memory ledger

    [crates/storage/src/memory.rs]: the canonical ledger of observations, versions
    and lifecycle transitions, its ordered outbox and the projections that follow
    it. A client of the storage interface; the identifiers drawn from
    [Uuid::now_v7] are an argument of the operations that draw them. Every writing
    operation holds the transition lock and ends in one synced batch, so it is a
    plan (the result and the batch, if any) and a commit. Planned deletion is in
    [Deletion], retained recall snapshots in [Recall], the queue of compiler jobs in
    [Jobs]; the history and export listings are not modelled. *)

From Stdlib Require Import Ascii.
From S2P Require Import Prelude Float32 Text Sorting Storage Hex Keys Filter Knowledge MemoryContracts LedgerModel.

(** ** The store *)

Section ledger.
Context `{!UnicodeNormalization, !CharTables, !ContentCodec, !LedgerCodec, !Sha256, !Hmac}.
Context {S : Type} `{!StorageBackend S} (key : list Z).
Implicit Types (s : S) (p : MemoryAccessProof) (ws : string).

Definition put_record {A} `{!Serde A} (k : string) (a : A) : LResult BatchOperation :=
  let? value := ljson (json_of a) in Ok (Put k value).

Definition decode_record {A} `{!Serde A} (bytes label : string) : LResult A :=
  match of_json bytes with
  | Some a => Ok a
  | None => Err (LCorruptState (label +:+ " cannot be decoded"))
  end.

(** The operations of a batch, in order. *)
Definition lseq (l : list (LResult BatchOperation)) : LResult (list BatchOperation) := collect (λ r, r) l.

(** What an operation decided: its result, and the batch it writes, if any. *)
Definition lplan (A : Type) : Type := LResult (A * option (list BatchOperation)).

Definition lcommit {A} s (plan : lplan A) : LResult A * S :=
  match plan with
  | Err e => (Err e, s)
  | Ok (a, None) => (Ok a, s)
  | Ok (a, Some operations) =>
      match sb_write_batch_sync s operations with
      | (Ok _, s) => (Ok a, s)
      | (Err e, s) => (Err (LStorage e), s)
      end
  end.

(** *** Reading records *)

(** The common shape of the [load_*_unlocked] functions. *)
Definition load_record {A} `{!Serde A} s (k label : string) (validate : A → ContractResult unit)
    (identity : A → bool) : LResult (option A) :=
  let? bytes := lstored (sb_get s k) in
  match bytes with
  | None => Ok None
  | Some bytes =>
      let? a := decode_record bytes label in
      let? _ := lcorrupt (label +:+ " is invalid") (validate a) in
      if negb (identity a) then Err (LCorruptState (label +:+ " key and payload identity differ"))
      else Ok (Some a)
  end.

Definition current_sequence_unlocked s ws : LResult Z :=
  let? bytes := lstored (sb_get s (meta_key ws)) in
  match bytes with
  | None => Ok 0
  | Some bytes =>
      let? meta := decode_record bytes "workspace metadata" in
      if negb (wm_schema_version meta =? MEMORY_SCHEMA_VERSION)
         || negb (String.eqb (wm_workspace_id meta) ws) then
        Err (LCorruptState "workspace metadata key and payload differ")
      else Ok (wm_commit_sequence meta)
  end.

Definition load_assertion_unlocked s ws (aid : string) : LResult (option MemoryAssertion) :=
  load_record s (assertion_key ws aid) "memory assertion" assertion_validate
    (λ a, String.eqb (ma_workspace_id a) ws && String.eqb (ma_assertion_id a) aid).

Definition load_version_unlocked s ws (vid : string) : LResult (option MemoryVersion) :=
  load_record s (version_key ws vid) "memory version" version_validate
    (λ v, String.eqb (ms_workspace_id (mv_scope v)) ws && String.eqb (mv_version_id v) vid).

Definition load_lifecycle_unlocked s ws (vid : string) : LResult (option VersionLifecycle) :=
  load_record s (lifecycle_current_key ws vid) "version lifecycle" lifecycle_validate
    (λ l, String.eqb (lc_workspace_id l) ws && String.eqb (lc_version_id l) vid).

Definition load_observation_unlocked s ws (oid : string) : LResult (option MemoryObservation) :=
  load_record s (observation_key ws oid) "memory observation" observation_validate
    (λ o, String.eqb (ms_workspace_id (ob_scope o)) ws && String.eqb (ob_observation_id o) oid).

Definition load_observation_by_evidence_unlocked s ws (eid : string)
    : LResult (option MemoryObservation) :=
  load_record s (observation_by_evidence_key ws eid) "memory observation evidence index"
    observation_validate
    (λ o, String.eqb (ms_workspace_id (ob_scope o)) ws && String.eqb (ob_evidence_id o) eid).

Definition load_policy_decision_unlocked s ws (pid : string) : LResult (option PolicyDecisionRecord) :=
  load_record s (policy_decision_key ws pid) "policy decision" policy_decision_validate
    (λ d, String.eqb (pd_workspace_id d) ws && String.eqb (pd_policy_decision_id d) pid).

Definition load_head_unlocked s ws (aid : string) : LResult (option MemoryHead) :=
  load_record s (head_key ws aid) "memory head" head_validate
    (λ h, String.eqb (hd_workspace_id h) ws && String.eqb (hd_assertion_id h) aid).

Definition load_mutation_unlocked s ws (n : Z) : LResult (option MemoryMutation) :=
  load_record s (mutation_sequence_key ws n) "memory mutation" memory_mutation_validate
    (λ m, String.eqb (mm_workspace_id m) ws && (mm_committed_sequence m =? n)).

Definition load_outbox_unlocked s ws (n : Z) : LResult (option ProjectionOutboxEntry) :=
  load_record s (outbox_key ws n) "projection outbox" outbox_validate
    (λ o, String.eqb (ox_workspace_id o) ws && (ox_sequence o =? n)).

Definition load_projection_checkpoint_unlocked s ws (pid : string)
    : LResult (option ProjectionCheckpoint) :=
  load_record s (projection_checkpoint_key ws pid) "projection checkpoint"
    projection_checkpoint_validate
    (λ c, String.eqb (pc_workspace_id c) ws && String.eqb (pc_projection_id c) pid).

Definition load_evidence_unlocked s ws (eid : string) : LResult EvidenceRecord :=
  let? e := load_record s (evidence_key ws eid) "memory evidence" evidence_validate
              (λ e, String.eqb (ev_workspace_id e) ws && String.eqb (ev_evidence_id e) eid) in
  ok_or e (LCorruptState "version references missing evidence").

Definition load_evidence_for_version_unlocked s ws (v : MemoryVersion) : LResult (list EvidenceRecord) :=
  collect (load_evidence_unlocked s ws) (mv_evidence_ids v).

Definition load_derivation_unlocked s ws (v : MemoryVersion) : LResult (option DerivationRecord) :=
  match mv_derivation_id v with
  | None => Ok None
  | Some did =>
      let? d := load_record s (derivation_key ws did) "memory derivation" derivation_validate
                  (λ d, String.eqb (dv_workspace_id d) ws && String.eqb (dv_derivation_id d) did
                        && String.eqb (dv_output_version_id d) (mv_version_id v)) in
      let? d := ok_or d (LCorruptState "version references missing derivation") in
      Ok (Some d)
  end.

(** A row of a prefix scan. *)
Definition scanned_record {A} `{!Serde A} (label : string) (validate : A → ContractResult unit)
    (identity : A → bool) (row : KV) : LResult A :=
  let? a := decode_record row.2 label in
  let? _ := lcorrupt (label +:+ " is invalid") (validate a) in
  if negb (identity a) then Err (LCorruptState (label +:+ " prefix and payload identity differ"))
  else Ok a.

Definition relation_cmp (a b : MemoryRelation) : comparison :=
  then_with (rl_committed_sequence a ?= rl_committed_sequence b)
    (bytes_cmp (rl_relation_id a) (rl_relation_id b)).

Definition load_relations_for_version_unlocked s ws (vid : string) : LResult (list MemoryRelation) :=
  let? rows := lstored (sb_scan_prefix_limited s (relation_by_version_prefix ws vid) None) in
  let? relations := collect (scanned_record "memory relation" relation_validate
                      (λ r, String.eqb (rl_workspace_id r) ws
                            && (String.eqb (rl_from_version_id r) vid
                                || String.eqb (rl_to_version_id r) vid))) rows in
  Ok (sort_by relation_cmp relations).

Definition load_reinforcements_unlocked s ws (vid : string) : LResult (list MemoryReinforcement) :=
  let? rows := lstored (sb_scan_prefix_limited s (reinforcement_prefix ws vid) None) in
  let? reinforcements := collect (scanned_record "memory reinforcement" reinforcement_validate
                           (λ r, String.eqb (rf_workspace_id r) ws
                                 && String.eqb (rf_version_id r) vid)) rows in
  Ok (sort_by (λ a b, rf_committed_sequence a ?= rf_committed_sequence b) reinforcements).

Definition load_lifecycle_history_unlocked s ws (vid : string) : LResult (list VersionLifecycle) :=
  let? rows := lstored (sb_scan_prefix_limited s (lifecycle_history_prefix ws vid) None) in
  let? transitions := collect (scanned_record "version lifecycle history" lifecycle_validate
                        (λ l, String.eqb (lc_workspace_id l) ws
                              && String.eqb (lc_version_id l) vid)) rows in
  Ok (sort_by (λ a b, lc_transition_sequence a ?= lc_transition_sequence b) transitions).

Definition lifecycle_at_sequence_unlocked s ws (vid : string) (n : Z) : LResult (option VersionLifecycle) :=
  let? transitions := load_lifecycle_history_unlocked s ws vid in
  Ok (last (take_while (λ t, lc_transition_sequence t <=? n) transitions)).

Definition build_version_view_unlocked s ws (v : MemoryVersion) (lifecycle : VersionLifecycle)
    : LResult MemoryVersionView :=
  let? assertion := load_assertion_unlocked s ws (mv_assertion_id v) in
  let? assertion := ok_or assertion (LCorruptState "version has no canonical assertion") in
  let? evidence := load_evidence_for_version_unlocked s ws v in
  let? policy_decision := load_policy_decision_unlocked s ws (mv_policy_decision_id v) in
  let? derivation := load_derivation_unlocked s ws v in
  let? relations := load_relations_for_version_unlocked s ws (mv_version_id v) in
  let? reinforcements := load_reinforcements_unlocked s ws (mv_version_id v) in
  Ok (mkView assertion v lifecycle evidence policy_decision derivation relations reinforcements).

(** *** Guards of the writing operations *)

Definition ensure_new_policy_decision_unlocked s ws (pid : string) : LResult unit :=
  let? bytes := lstored (sb_get s (policy_decision_key ws pid)) in
  match bytes with
  | Some _ =>
      Err (LInvalidRequest "POLICY_DECISION_ID_CONFLICT: policy decision IDs are immutable")
  | None => Ok tt
  end.

Definition deletion_selector_token (selector : MemoryDeletionSelector) : LResult string :=
  let? bytes := ljson (selector_to_vec selector) in Ok ("selector_" +:+ sha256_hex bytes).

Definition ensure_selector_absent s ws (selector : MemoryDeletionSelector) : LResult unit :=
  let? token := deletion_selector_token selector in
  let? found := lstored (sb_exists s (deletion_tombstone_key ws TSelector token)) in
  if found then
    Err (LInvalidRequest "DELETION_TOMBSTONE: matching source or data subject cannot be re-imported")
  else Ok tt.

Definition ensure_not_deletion_tombstoned_unlocked s ws (scope : MemoryScope)
    (evidence_sources : list (string * string)) : LResult unit :=
  lall (ensure_selector_absent s ws)
    (((λ x, SelSource x.1 x.2) <$> evidence_sources)
     ++ match ms_data_subject_id scope with Some d => [SelDataSubject d] | None => [] end).

Definition next_sequence s ws : LResult Z :=
  let? current := current_sequence_unlocked s ws in
  ok_or (checked_add u64_max current 1) (SequenceExhausted ws).

(** The versions a mutation reports. *)
Definition reported_versions (m : MemoryMutation) : list string :=
  match mm_operation m with
  | MRetract | MForget | MReinforce => mm_input_version_ids m
  | _ => mm_output_version_ids m
  end.

Definition verify_idempotent_record s (r : IdempotencyRecord) : LResult unit :=
  let? mutation := load_mutation_unlocked s (ir_workspace_id r) (ir_commit_sequence r) in
  let? m := ok_or mutation (LCorruptState "idempotency record points to missing sequence") in
  if negb (String.eqb (mm_mutation_id m) (ir_mutation_id r))
     || negb (String.eqb (mm_assertion_id m) (ir_assertion_id r))
     || bool_decide (mm_operation m ≠ ir_operation r)
     || negb (String.eqb (mm_policy_decision_id m) (ir_policy_decision_id r))
     || bool_decide (reported_versions m ≠ ir_version_ids r)
     || negb (String.eqb (mm_canonical_request_sha256 m) (ir_canonical_request_sha256 r)) then
    Err (LCorruptState "idempotency record and canonical mutation differ")
  else Ok tt.

(** The look-up every writing operation starts with: the record of the same
    request, if it was already committed. [extra] and [mismatch] are the further
    identity check and the error of the operation. *)
Definition idempotent_record s ws (principal : string) (o : MemoryOperation) (key_sha request_sha : string)
    (extra : IdempotencyRecord → bool) (mismatch : MemoryLedgerError)
    : LResult (option IdempotencyRecord) :=
  let? bytes := lstored (sb_get s (idempotency_key ws principal o key_sha)) in
  match bytes with
  | None => Ok None
  | Some bytes =>
      let? r := decode_record bytes "idempotency record" in
      let? _ := lcorrupt "invalid idempotency record" (idempotency_validate r) in
      if negb (String.eqb (ir_workspace_id r) ws && String.eqb (ir_principal_id r) principal
               && bool_decide (ir_operation r = o) && String.eqb (ir_idempotency_key_sha256 r) key_sha
               && extra r) then Err mismatch
      else if negb (String.eqb (ir_canonical_request_sha256 r) request_sha) then Err IdempotencyConflict
      else
        let? _ := verify_idempotent_record s r in
        Ok (Some r)
  end.

Definition receipt_from_idempotency (r : IdempotencyRecord) (outcome : CommitMemoryOutcome)
    (version_state : VersionState) : CommitMemoryReceipt :=
  mkReceipt outcome (ir_mutation_id r) (ir_assertion_id r) (ir_version_ids r) (ir_commit_sequence r)
    (ir_policy_decision_id r) version_state.

(** [new_id]: the [i]th identifier the operation draws. *)
Definition new_id (uuid : nat → string) (i : nat) (prefix : string) : string :=
  prefix +:+ "_" +:+ uuid i.

Definition sorted_ids (l : list string) : list string := sort_by bytes_cmp l.

Definition ensure_expected_heads (expected actual : list string) : LResult unit :=
  if bool_decide (sorted_ids expected = sorted_ids actual) then Ok tt
  else Err (ExpectedHeadConflict (sorted_ids expected) (sorted_ids actual)).

Fixpoint ensure_authority s ws (authority : DecisionAuthority) (heads : list string) (msg : string)
    : LResult unit :=
  match heads with
  | [] => Ok tt
  | vid :: heads =>
      let? active := load_version_unlocked s ws vid in
      let? active := ok_or active (LCorruptState "active head references missing version") in
      if decision_authority_rank authority <? decision_authority_rank (mv_decision_authority active) then
        Err (LInvalidRequest msg)
      else ensure_authority s ws authority heads msg
  end.

(** *** Fingerprints of requests *)

Definition canonical_request_sha256 (r : CommitMemoryRequest) : LResult string :=
  let? bytes := ljson (commit_fingerprint_to_vec
    (mkCommitFingerprint (cr_scope r) (cr_predicate r) (cr_content r) (cr_valid_from_ms r)
       (cr_valid_to_ms r) (cr_valid_from_unix_nanos r) (cr_valid_to_unix_nanos r)
       (cr_epistemic_formation r) (cr_source_assurance r) (cr_decision_authority r) (cr_confidence r)
       (cr_evidence r) (cr_compiler_artifact_id r) (cr_derivation r) (cr_principal_id r)
       (cr_delegated_agent_id r) (cr_request_purpose r) (sorted_ids (cr_expected_head_version_ids r))
       (cr_reason r))) in
  Ok (sha256_hex bytes).

Definition canonical_observe_sha256 (r : ObserveMemoryRequest) : LResult string :=
  let? bytes := ljson (observe_fingerprint_to_vec
    (mkObserveFingerprint (or_scope r) (or_source_plane r) (or_source_id r) (or_source_version r)
       (or_observed_at_ms r) (or_observed_at_unix_nanos r) (or_content_sha256 r)
       (sha256_hex (or_retained_payload r)) (or_principal_id r) (or_delegated_agent_id r)
       (or_request_purpose r) (or_reason r))) in
  Ok (sha256_hex bytes).

Definition canonical_forget_request_sha256 (r : ForgetMemoryRequest) : LResult string :=
  let? bytes := ljson (forget_fingerprint_to_vec
    (mkForgetFingerprint (fr_workspace_id r) (fr_namespace r) (fr_assertion_id r) (fr_version_id r)
       (fr_principal_id r) (fr_delegated_agent_id r) (fr_request_purpose r)
       (sorted_ids (fr_expected_head_version_ids r)) (fr_reason r))) in
  Ok (sha256_hex bytes).

Definition canonical_reinforce_sha256 (r : ReinforceMemoryRequest) : LResult string :=
  let? bytes := ljson (reinforce_fingerprint_to_vec
    (mkReinforceFingerprint (rr_workspace_id r) (rr_namespace r) (rr_version_id r) (rr_evidence r)
       (rr_outcome r) (rr_outcome_id r) (rr_utility_micros r) (rr_principal_id r)
       (rr_delegated_agent_id r) (rr_request_purpose r) (rr_reason r))) in
  Ok (sha256_hex bytes).

Definition canonical_commit_proposal_sha256 (r : CommitProposalRequest) : LResult string :=
  let? bytes := ljson (proposal_fingerprint_to_vec
    (mkProposalFingerprint (pr_workspace_id r) (pr_namespace r) (pr_proposal_version_id r)
       (pr_principal_id r) (pr_delegated_agent_id r) (pr_request_purpose r)
       (sorted_ids (pr_expected_head_version_ids r)) (pr_reason r))) in
  Ok (sha256_hex bytes).

Definition projection_manifest_sha256 (m : ProjectionSetManifest) : LResult string :=
  let? bytes := ljson (manifest_fingerprint_to_vec
    (mkManifestFingerprint (pm_schema_version m) (pm_projection_set_id m) (pm_projection_set_version m)
       (pm_projection_ids m) (pm_artifact_ids m) (pm_policy_manifest_id m) (pm_tokenizer_artifact_id m)
       (pm_context_firewall_artifact_id m) (pm_server_build_id m))) in
  Ok (sha256_hex bytes).

(** *** Observing *)

Definition POLICY_MANIFEST : string := "memory-authority-policy-v1".

(** The new records of an observation. *)
Definition observe_commit (uuid : nat → string) (r : ObserveMemoryRequest) (key_sha request_sha : string)
    (n : Z) : lplan ObserveMemoryReceipt :=
  let ws := ms_workspace_id (or_scope r) in
  let oid := new_id uuid 0 "mem_o" in
  let eid := new_id uuid 1 "mem_e" in
  let mid := new_id uuid 2 "mem_m" in
  let observation := mkObservation MEMORY_SCHEMA_VERSION oid eid (or_scope r) (or_source_plane r)
    (or_source_id r) (or_source_version r) (or_observed_at_ms r) (or_observed_at_unix_nanos r)
    (or_content_sha256 r) (or_retained_payload r) AuthenticatedAgent (or_policy_decision_id r)
    (or_principal_id r) n (or_committed_at_ms r) in
  let? _ := lcontract (observation_validate observation) in
  let evidence := mkEvidence MEMORY_SCHEMA_VERSION eid ws (or_source_plane r) (or_source_id r)
    (or_source_version r) (or_observed_at_ms r) (or_observed_at_unix_nanos r) (or_content_sha256 r)
    (Some (or_principal_id r)) AuthenticatedAgent n in
  let? _ := lcontract (evidence_validate evidence) in
  let mutation := mkMemoryMutation MEMORY_SCHEMA_VERSION mid MObserve ws oid [] [eid] [] key_sha
    request_sha (or_principal_id r) (or_delegated_agent_id r) (or_authorization_decision_id r)
    (or_policy_decision_id r) (or_reason r) n (or_committed_at_ms r) in
  let? _ := lcontract (memory_mutation_validate mutation) in
  let outbox := mkOutbox MEMORY_SCHEMA_VERSION ws n mid oid [eid] in
  let? _ := lcontract (outbox_validate outbox) in
  let idempotency := mkIdempotency MEMORY_SCHEMA_VERSION (or_principal_id r) ws MObserve key_sha
    request_sha (or_policy_decision_id r) mid oid [eid] n in
  let? _ := lcontract (idempotency_validate idempotency) in
  let policy_decision := mkPolicyDecision MEMORY_SCHEMA_VERSION (or_policy_decision_id r) ws
    POLICY_MANIFEST PObserved AuthenticatedAgent NoAuthority ["raw_evidence_observed_not_activated"]
    (or_authorization_decision_id r) n in
  let? _ := lcontract (policy_decision_validate policy_decision) in
  let meta := mkMeta MEMORY_SCHEMA_VERSION ws n in
  let? operations := lseq
    [put_record (meta_key ws) meta; put_record (observation_key ws oid) observation;
     put_record (observation_by_evidence_key ws eid) observation;
     put_record (evidence_key ws eid) evidence; put_record (mutation_sequence_key ws n) mutation;
     put_record (mutation_id_key ws mid) mutation; put_record (outbox_key ws n) outbox;
     put_record (idempotency_key ws (or_principal_id r) MObserve key_sha) idempotency;
     put_record (policy_decision_key ws (or_policy_decision_id r)) policy_decision] in
  Ok (mkObserveReceipt Committed mid oid eid n (or_policy_decision_id r), Some operations).

Definition observe_plan (uuid : nat → string) s p (r : ObserveMemoryRequest) : lplan ObserveMemoryReceipt :=
  let ws := ms_workspace_id (or_scope r) in
  let? _ := authorize_workspace_capability key p ws ["memory.observe"] in
  let? admitted := authorize_record_scope p (or_scope r) in
  if negb admitted
     || negb (String.eqb (g_principal_id (grant p)) (or_principal_id r))
     || bool_decide (g_delegated_agent_id (grant p) ≠ or_delegated_agent_id r)
     || negb (String.eqb (g_request_purpose (grant p)) (or_request_purpose r))
     || negb (String.eqb (g_authorization_decision_id (grant p)) (or_authorization_decision_id r)) then
    Err UnauthorizedAccess
  else
    let? _ := validate_observe_request r in
    let key_sha := sha256_hex (or_idempotency_key r) in
    let? request_sha := canonical_observe_sha256 r in
    let? previous := idempotent_record s ws (or_principal_id r) MObserve key_sha request_sha
                       (λ i, Zlength (ir_version_ids i) =? 1)
                       (LCorruptState "observation idempotency key and payload identity differ") in
    match previous with
    | Some i =>
        Ok (mkObserveReceipt DuplicateCommit (ir_mutation_id i) (ir_assertion_id i)
              (default "" (head (ir_version_ids i))) (ir_commit_sequence i) (ir_policy_decision_id i),
            None)
    | None =>
        let? _ := ensure_not_deletion_tombstoned_unlocked s ws (or_scope r)
                    [(or_source_plane r, or_source_id r)] in
        let? _ := ensure_new_policy_decision_unlocked s ws (or_policy_decision_id r) in
        let? n := next_sequence s ws in
        observe_commit uuid r key_sha request_sha n
    end.

(** [MemoryLedger::observe]. *)
Definition observe (uuid : nat → string) s p (r : ObserveMemoryRequest) : LResult ObserveMemoryReceipt * S :=
  lcommit s (observe_plan uuid s p r).

(** *** Committing versions *)

(** The evidence the inputs of a derivation give access to. *)
Fixpoint derivation_evidence s p ws (inputs : list string) : LResult (list string) :=
  match inputs with
  | [] => Ok []
  | vid :: inputs =>
      let? input := load_version_unlocked s ws vid in
      let? input := ok_or input (LInvalidRequest "derivation input version was not found") in
      let? admitted := authorize_record_scope p (mv_scope input) in
      if negb admitted then Err UnauthorizedAccess
      else let? rest := derivation_evidence s p ws inputs in Ok (mv_evidence_ids input ++ rest)
  end.

Fixpoint ensure_evidence_authorized s p ws (authorized evidence : list string) : LResult unit :=
  match evidence with
  | [] => Ok tt
  | eid :: evidence =>
      if decide (eid ∈ authorized) then ensure_evidence_authorized s p ws authorized evidence
      else
        let? observation := load_observation_by_evidence_unlocked s ws eid in
        let? observation := ok_or observation UnauthorizedAccess in
        let? admitted := authorize_record_scope p (ob_scope observation) in
        if negb admitted then Err UnauthorizedAccess
        else ensure_evidence_authorized s p ws (eid :: authorized) evidence
  end.

Definition ensure_derivation_authorized s p ws (derivation : option MemoryDerivationInput) : LResult unit :=
  match derivation with
  | None => Ok tt
  | Some d =>
      let? authorized := derivation_evidence s p ws (di_input_version_ids d) in
      ensure_evidence_authorized s p ws authorized (di_input_evidence_ids d)
  end.

(** The evidence records of a request, with the identifiers drawn for them. *)
Fixpoint evidence_records (uuid : nat → string) (i : nat) ws (assurance : SourceAssurance) (n : Z)
    (evidence : list MemoryEvidenceInput) : LResult (list EvidenceRecord) :=
  match evidence with
  | [] => Ok []
  | e :: evidence =>
      let record := mkEvidence MEMORY_SCHEMA_VERSION (new_id uuid i "mem_e") ws (ei_source_plane e)
        (ei_source_id e) (ei_source_version e) (ei_observed_at_ms e) (ei_observed_at_unix_nanos e)
        (ei_content_sha256 e) (ei_source_principal_id e) assurance n in
      let? _ := lcontract (evidence_validate record) in
      let? records := evidence_records uuid (i + 1) ws assurance n evidence in
      Ok (record :: records)
  end.

(** The relations of a version to the heads it supersedes. *)
Fixpoint supersede_relations (uuid : nat → string) (i : nat) ws (vid mid : string) (n : Z)
    (heads : list string) : LResult (list MemoryRelation) :=
  match heads with
  | [] => Ok []
  | prior :: heads =>
      let relation := mkRelation MEMORY_SCHEMA_VERSION (new_id uuid i "mem_r") ws Supersedes vid prior
        mid n in
      let? _ := lcontract (relation_validate relation) in
      let? relations := supersede_relations uuid (i + 1) ws vid mid n heads in
      Ok (relation :: relations)
  end.

Definition relation_puts ws (relation : MemoryRelation) : list (LResult BatchOperation) :=
  [put_record (relation_key ws (rl_relation_id relation)) relation;
   put_record (relation_by_version_key ws (rl_from_version_id relation) (rl_relation_id relation))
     relation;
   put_record (relation_by_version_key ws (rl_to_version_id relation) (rl_relation_id relation))
     relation].

(** The lifecycle of each version of a list, as the operation leaves it. *)
Fixpoint transitions ws (st : VersionState) (n : Z) (mid : string) (versions : list string)
    : LResult (list VersionLifecycle) :=
  match versions with
  | [] => Ok []
  | vid :: versions =>
      let lifecycle := mkLifecycle MEMORY_SCHEMA_VERSION ws vid st n mid in
      let? _ := lcontract (lifecycle_validate lifecycle) in
      let? rest := transitions ws st n mid versions in
      Ok (lifecycle :: rest)
  end.

Definition lifecycle_puts ws (n : Z) (l : VersionLifecycle) : list (LResult BatchOperation) :=
  [put_record (lifecycle_current_key ws (lc_version_id l)) l;
   put_record (lifecycle_history_key ws (lc_version_id l) n) l].

Definition policy_outcome (st : VersionState) : LResult PolicyDecisionOutcome :=
  match st with
  | Active => Ok PActive
  | Proposed => Ok PProposed
  | Quarantined => Ok PQuarantined
  | _ => Err (LInvalidRequest "unsupported initial lifecycle state")
  end.

Definition policy_reasons (st : VersionState) (firewall : list string) : list string :=
  match st with
  | Active => ["policy_validated_active"]
  | Proposed => ["untrusted_candidate_pending_commit"]
  | _ => if bool_decide (firewall = []) then ["policy_requested_quarantine"] else firewall
  end.

(** The new records of a commit, a correction or a proposal. *)
Definition version_commit (uuid : nat → string) (r : CommitMemoryRequest) (d : CommitDisposition)
    (aid ihash key_sha request_sha : string) (n : Z) (existing : option MemoryAssertion)
    (heads firewall : list string) : lplan CommitMemoryReceipt :=
  let ws := ms_workspace_id (cr_scope r) in
  let mid := new_id uuid 0 "mem_m" in
  let vid := new_id uuid 1 "mem_v" in
  let? content_sha := lcontract (canonical_content_sha256 (cr_content r)) in
  let assertion := default (mkAssertion MEMORY_SCHEMA_VERSION aid ws (ms_namespace (cr_scope r))
    (ms_entity_key (cr_scope r)) (cr_predicate r) (content_kind (cr_content r))
    MEMORY_IDENTITY_HASH_VERSION ihash n (cr_committed_at_ms r)) existing in
  let? _ := lcontract (assertion_validate assertion) in
  let? evidence := evidence_records uuid 2 ws (cr_source_assurance r) n (cr_evidence r) in
  let after := (2 + length (cr_evidence r))%nat in
  let did := (λ _, new_id uuid after "mem_d") <$> cr_derivation r in
  let version := mkVersion MEMORY_SCHEMA_VERSION vid aid heads (cr_scope r)
    (content_kind (cr_content r)) (cr_content r) content_sha (cr_valid_from_ms r) (cr_valid_to_ms r)
    (cr_valid_from_unix_nanos r) (cr_valid_to_unix_nanos r) (cr_epistemic_formation r)
    (cr_source_assurance r) (cr_decision_authority r) (cr_confidence r) (ev_evidence_id <$> evidence)
    did (cr_compiler_artifact_id r) (cr_policy_decision_id r) n (cr_committed_at_ms r)
    (cr_principal_id r) in
  let? _ := lcontract (version_validate version) in
  let mutation := mkMemoryMutation MEMORY_SCHEMA_VERSION mid (d_operation d) ws aid heads [vid]
    (cr_expected_head_version_ids r) key_sha request_sha (cr_principal_id r) (cr_delegated_agent_id r)
    (cr_authorization_decision_id r) (cr_policy_decision_id r) (cr_reason r) n (cr_committed_at_ms r) in
  let? _ := lcontract (memory_mutation_validate mutation) in
  let head := mkHead MEMORY_SCHEMA_VERSION ws aid (if d_changes_head d then [vid] else heads) mid n in
  let? _ := lcontract (head_validate head) in
  let? lifecycle := transitions ws (d_initial_state d) n mid [vid] in
  let outbox := mkOutbox MEMORY_SCHEMA_VERSION ws n mid aid [vid] in
  let? _ := lcontract (outbox_validate outbox) in
  let idempotency := mkIdempotency MEMORY_SCHEMA_VERSION (cr_principal_id r) ws (d_operation d) key_sha
    request_sha (cr_policy_decision_id r) mid aid [vid] n in
  let? _ := lcontract (idempotency_validate idempotency) in
  let? outcome := policy_outcome (d_initial_state d) in
  let policy_decision := mkPolicyDecision MEMORY_SCHEMA_VERSION (cr_policy_decision_id r) ws
    POLICY_MANIFEST outcome (cr_source_assurance r) (cr_decision_authority r)
    (policy_reasons (d_initial_state d) firewall) (cr_authorization_decision_id r) n in
  let? _ := lcontract (policy_decision_validate policy_decision) in
  let derivation := (λ x : MemoryDerivationInput,
    mkDerivation MEMORY_SCHEMA_VERSION (default "" did) ws (di_input_version_ids x)
      (di_input_evidence_ids x) (di_operation x)
      (match di_compiler_artifact_id x with Some c => Some c | None => cr_compiler_artifact_id r end)
      (di_deterministic_parameters_sha256 x) vid n) <$> cr_derivation r in
  let? _ := match derivation with Some x => lcontract (derivation_validate x) | None => Ok tt end in
  let? relations :=
    if d_changes_head d then
      supersede_relations uuid (after + match did with Some _ => 1 | None => 0 end)%nat ws vid mid n heads
    else Ok [] in
  let? superseded := if d_changes_head d then transitions ws Superseded n mid heads else Ok [] in
  let? operations := lseq
    ([put_record (meta_key ws) (mkMeta MEMORY_SCHEMA_VERSION ws n);
      put_record (assertion_key ws aid) assertion; put_record (version_key ws vid) version;
      put_record (head_key ws aid) head]
     ++ mjoin (lifecycle_puts ws n <$> lifecycle)
     ++ [put_record (mutation_sequence_key ws n) mutation; put_record (mutation_id_key ws mid) mutation;
         put_record (outbox_key ws n) outbox;
         put_record (idempotency_key ws (cr_principal_id r) (d_operation d) key_sha) idempotency;
         put_record (policy_decision_key ws (cr_policy_decision_id r)) policy_decision]
     ++ match derivation with
        | Some x => [put_record (derivation_key ws (dv_derivation_id x)) x]
        | None => []
        end
     ++ mjoin (relation_puts ws <$> relations)
     ++ ((λ e, put_record (evidence_key ws (ev_evidence_id e)) e) <$> evidence)
     ++ mjoin (lifecycle_puts ws n <$> superseded)) in
  Ok (mkReceipt Committed mid aid [vid] n (cr_policy_decision_id r) (d_initial_state d), Some operations).

(** The assertion of a request and its heads, which exist together. *)
Definition load_heads s ws (aid ihash : string) (identity : MemoryAssertionIdentity)
    : LResult (option MemoryAssertion * list string) :=
  let? existing := load_assertion_unlocked s ws aid in
  let? head := load_head_unlocked s ws aid in
  match existing, head with
  | Some _, None | None, Some _ => Err (LCorruptState "assertion/head presence differs")
  | None, None => Ok (None, [])
  | Some a, Some h =>
      if negb (String.eqb (ma_identity_hash a) ihash) || bool_decide (assertion_identity a ≠ identity) then
        Err (LCorruptState "assertion does not match canonical identity")
      else Ok (Some a, hd_active_version_ids h)
  end.

Definition commit_version_plan (uuid : nat → string) s p (r : CommitMemoryRequest) (d : CommitDisposition)
    : lplan CommitMemoryReceipt :=
  let ws := ms_workspace_id (cr_scope r) in
  let? _ := authorize_commit key p r (d_capability d) in
  let? _ := validate_commit_request r in
  let identity := request_identity r in
  let? aid := lcontract (assertion_id identity) in
  let? ihash := lcontract (identity_hash identity) in
  let key_sha := sha256_hex (cr_idempotency_key r) in
  let? request_sha := canonical_request_sha256 r in
  let? previous := idempotent_record s ws (cr_principal_id r) (d_operation d) key_sha request_sha
                     (λ _, true) (LCorruptState "idempotency key and payload identity differ") in
  match previous with
  | Some i => Ok (receipt_from_idempotency i DuplicateCommit (d_initial_state d), None)
  | None =>
      let? _ := ensure_not_deletion_tombstoned_unlocked s ws (cr_scope r)
                  ((λ e, (ei_source_plane e, ei_source_id e)) <$> cr_evidence r) in
      let? _ := ensure_new_policy_decision_unlocked s ws (cr_policy_decision_id r) in
      let? n := next_sequence s ws in
      let? existing_heads := load_heads s ws aid ihash identity in
      let (existing, heads) := (existing_heads : option MemoryAssertion * list string) in
      let? _ := ensure_expected_heads (cr_expected_head_version_ids r) heads in
      let firewall := context_firewall_reason_codes (cr_content r) (cr_epistemic_formation r)
                        (ms_sensitivity (cr_scope r)) in
      if bool_decide (d_initial_state d ≠ Quarantined) && bool_decide (firewall ≠ []) then
        Err (LInvalidRequest "QUARANTINED")
      else
        let? _ := if d_changes_head d then
                    ensure_authority s ws (cr_decision_authority r) heads
                      "QUARANTINED: lower-authority candidate cannot supersede an active version"
                  else Ok tt in
        let? _ := ensure_derivation_authorized s p ws (cr_derivation r) in
        version_commit uuid r d aid ihash key_sha request_sha n existing heads firewall
  end.

Definition commit_version (uuid : nat → string) s p (r : CommitMemoryRequest) (d : CommitDisposition)
    : LResult CommitMemoryReceipt * S :=
  lcommit s (commit_version_plan uuid s p r d).

Definition commit_disposition : CommitDisposition := mkDisposition MCommit "memory.remember" Active true.
Definition correct_disposition : CommitDisposition := mkDisposition MCorrect "memory.correct" Active true.
Definition propose_disposition (quarantined : bool) : CommitDisposition :=
  mkDisposition MPropose "memory.propose" (if quarantined then Quarantined else Proposed) false.

Definition commit (uuid : nat → string) s p (r : CommitMemoryRequest) : LResult CommitMemoryReceipt * S :=
  commit_version uuid s p r commit_disposition.

Definition correct (uuid : nat → string) s p (r : CommitMemoryRequest) : LResult CommitMemoryReceipt * S :=
  commit_version uuid s p r correct_disposition.

Definition propose (uuid : nat → string) s p (r : CommitMemoryRequest) (quarantined : bool)
    : LResult CommitMemoryReceipt * S :=
  commit_version uuid s p r
    (propose_disposition (quarantined
      || bool_decide (context_firewall_reason_codes (cr_content r) (cr_epistemic_formation r)
                        (ms_sensitivity (cr_scope r)) ≠ []))).

(** *** Activating proposals *)

Definition proposal_commit (uuid : nat → string) (r : CommitProposalRequest) (v : MemoryVersion)
    (heads : list string) (key_sha request_sha : string) (n : Z) : lplan CommitMemoryReceipt :=
  let ws := pr_workspace_id r in
  let aid := mv_assertion_id v in
  let vid := mv_version_id v in
  let mid := new_id uuid 0 "mem_m" in
  let mutation := mkMemoryMutation MEMORY_SCHEMA_VERSION mid MCommit ws aid heads [vid]
    (pr_expected_head_version_ids r) key_sha request_sha (pr_principal_id r) (pr_delegated_agent_id r)
    (pr_authorization_decision_id r) (pr_policy_decision_id r) (pr_reason r) n (pr_committed_at_ms r) in
  let? _ := lcontract (memory_mutation_validate mutation) in
  let new_head := mkHead MEMORY_SCHEMA_VERSION ws aid [vid] mid n in
  let? _ := lcontract (head_validate new_head) in
  let? lifecycle := transitions ws Active n mid [vid] in
  let outbox := mkOutbox MEMORY_SCHEMA_VERSION ws n mid aid [vid] in
  let? _ := lcontract (outbox_validate outbox) in
  let idempotency := mkIdempotency MEMORY_SCHEMA_VERSION (pr_principal_id r) ws MCommit key_sha
    request_sha (pr_policy_decision_id r) mid aid [vid] n in
  let? _ := lcontract (idempotency_validate idempotency) in
  let policy_decision := mkPolicyDecision MEMORY_SCHEMA_VERSION (pr_policy_decision_id r) ws
    POLICY_MANIFEST PActive (mv_source_assurance v) (mv_decision_authority v)
    ["proposal_revalidated_and_activated"] (pr_authorization_decision_id r) n in
  let? _ := lcontract (policy_decision_validate policy_decision) in
  let? superseded := transitions ws Superseded n mid heads in
  let? relations := supersede_relations uuid 1 ws vid mid n heads in
  let? operations := lseq
    ([put_record (meta_key ws) (mkMeta MEMORY_SCHEMA_VERSION ws n);
      put_record (head_key ws aid) new_head]
     ++ mjoin (lifecycle_puts ws n <$> lifecycle)
     ++ [put_record (mutation_sequence_key ws n) mutation; put_record (mutation_id_key ws mid) mutation;
         put_record (outbox_key ws n) outbox;
         put_record (idempotency_key ws (pr_principal_id r) MCommit key_sha) idempotency;
         put_record (policy_decision_key ws (pr_policy_decision_id r)) policy_decision]
     ++ mjoin (zip_with (λ l x, lifecycle_puts ws n l ++ relation_puts ws x) superseded relations)) in
  Ok (mkReceipt Committed mid aid [vid] n (pr_policy_decision_id r) Active, Some operations).

Definition ensure_proposed (st : VersionState) : LResult unit :=
  match st with
  | Proposed => Ok tt
  | Quarantined => Err (LInvalidRequest "QUARANTINED: proposal cannot be activated")
  | _ => Err TargetNotActive
  end.

Definition commit_proposal_plan (uuid : nat → string) s p (r : CommitProposalRequest)
    : lplan CommitMemoryReceipt :=
  let ws := pr_workspace_id r in
  let? _ := authorize_lifecycle_request key p ws (pr_namespace r) (pr_principal_id r)
              (pr_delegated_agent_id r) (pr_request_purpose r) (pr_authorization_decision_id r)
              "memory.remember" in
  let? _ := validate_commit_proposal_request r in
  let key_sha := sha256_hex (pr_idempotency_key r) in
  let? request_sha := canonical_commit_proposal_sha256 r in
  let? previous := idempotent_record s ws (pr_principal_id r) MCommit key_sha request_sha (λ _, true)
                     (LCorruptState "proposal-commit idempotency key and payload identity differ") in
  match previous with
  | Some i => Ok (receipt_from_idempotency i DuplicateCommit Active, None)
  | None =>
      let? _ := ensure_new_policy_decision_unlocked s ws (pr_policy_decision_id r) in
      let? proposal := load_version_unlocked s ws (pr_proposal_version_id r) in
      let? proposal := ok_or proposal TargetNotActive in
      let? admitted := if negb (String.eqb (ms_namespace (mv_scope proposal)) (pr_namespace r)) then Ok false
                       else authorize_record_scope p (mv_scope proposal) in
      if negb admitted then Err UnauthorizedAccess
      else
        let? lifecycle := load_lifecycle_unlocked s ws (pr_proposal_version_id r) in
        let? lifecycle := ok_or lifecycle (LCorruptState "proposal has no lifecycle") in
        let? _ := ensure_proposed (lc_state lifecycle) in
        let? head := load_head_unlocked s ws (mv_assertion_id proposal) in
        let? head := ok_or head (LCorruptState "proposal has no assertion head") in
        let heads := hd_active_version_ids head in
        if negb (bool_decide (sorted_ids (pr_expected_head_version_ids r) = sorted_ids heads)
                 && bool_decide (sorted_ids (mv_parent_version_ids proposal) = sorted_ids heads)) then
          Err (ExpectedHeadConflict (sorted_ids (pr_expected_head_version_ids r)) (sorted_ids heads))
        else if bool_decide (context_firewall_reason_codes (mv_content proposal)
                  (mv_epistemic_formation proposal) (ms_sensitivity (mv_scope proposal)) ≠ []) then
          Err (LInvalidRequest "QUARANTINED")
        else
          let? _ := ensure_authority s ws (mv_decision_authority proposal) heads
                      "QUARANTINED: lower-authority proposal cannot supersede an active version" in
          let? n := next_sequence s ws in
          proposal_commit uuid r proposal heads key_sha request_sha n
  end.

Definition commit_proposal (uuid : nat → string) s p (r : CommitProposalRequest)
    : LResult CommitMemoryReceipt * S :=
  lcommit s (commit_proposal_plan uuid s p r).

(** *** Reinforcing *)

Definition reinforce_commit (uuid : nat → string) (r : ReinforceMemoryRequest) (v : MemoryVersion)
    (st : VersionState) (key_sha request_sha : string) (n : Z) : lplan CommitMemoryReceipt :=
  let ws := rr_workspace_id r in
  let aid := mv_assertion_id v in
  let vid := rr_version_id r in
  let mid := new_id uuid 0 "mem_m" in
  let rid := new_id uuid 1 "mem_rf" in
  let? evidence := evidence_records uuid 2 ws AuthenticatedAgent n (rr_evidence r) in
  let reinforcement := mkReinforcement MEMORY_SCHEMA_VERSION rid ws vid (ev_evidence_id <$> evidence)
    (rr_outcome r) (rr_outcome_id r) (rr_utility_micros r) (rr_policy_decision_id r)
    (rr_principal_id r) n (rr_committed_at_ms r) in
  let? _ := lcontract (reinforcement_validate reinforcement) in
  let mutation := mkMemoryMutation MEMORY_SCHEMA_VERSION mid MReinforce ws aid [vid] [] [] key_sha
    request_sha (rr_principal_id r) (rr_delegated_agent_id r) (rr_authorization_decision_id r)
    (rr_policy_decision_id r) (rr_reason r) n (rr_committed_at_ms r) in
  let? _ := lcontract (memory_mutation_validate mutation) in
  let outbox := mkOutbox MEMORY_SCHEMA_VERSION ws n mid aid [vid] in
  let? _ := lcontract (outbox_validate outbox) in
  let idempotency := mkIdempotency MEMORY_SCHEMA_VERSION (rr_principal_id r) ws MReinforce key_sha
    request_sha (rr_policy_decision_id r) mid aid [vid] n in
  let? _ := lcontract (idempotency_validate idempotency) in
  let policy_decision := mkPolicyDecision MEMORY_SCHEMA_VERSION (rr_policy_decision_id r) ws
    POLICY_MANIFEST PReinforced AuthenticatedAgent NoAuthority
    ["outcome_evidence_without_content_or_authority_rewrite"] (rr_authorization_decision_id r) n in
  let? _ := lcontract (policy_decision_validate policy_decision) in
  let? operations := lseq
    ([put_record (meta_key ws) (mkMeta MEMORY_SCHEMA_VERSION ws n);
      put_record (reinforcement_key ws vid rid) reinforcement;
      put_record (mutation_sequence_key ws n) mutation; put_record (mutation_id_key ws mid) mutation;
      put_record (outbox_key ws n) outbox;
      put_record (idempotency_key ws (rr_principal_id r) MReinforce key_sha) idempotency;
      put_record (policy_decision_key ws (rr_policy_decision_id r)) policy_decision]
     ++ ((λ e, put_record (evidence_key ws (ev_evidence_id e)) e) <$> evidence)) in
  Ok (mkReceipt Committed mid aid [vid] n (rr_policy_decision_id r) st, Some operations).

Definition reinforce_plan (uuid : nat → string) s p (r : ReinforceMemoryRequest) : lplan CommitMemoryReceipt :=
  let ws := rr_workspace_id r in
  let? _ := authorize_lifecycle_request key p ws (rr_namespace r) (rr_principal_id r)
              (rr_delegated_agent_id r) (rr_request_purpose r) (rr_authorization_decision_id r)
              "memory.remember" in
  let? _ := validate_reinforce_request r in
  let key_sha := sha256_hex (rr_idempotency_key r) in
  let? request_sha := canonical_reinforce_sha256 r in
  let? previous := idempotent_record s ws (rr_principal_id r) MReinforce key_sha request_sha (λ _, true)
                     IdempotencyConflict in
  match previous with
  | Some i =>
      let? lifecycle := load_lifecycle_unlocked s ws (rr_version_id r) in
      let? lifecycle := ok_or lifecycle (LCorruptState "reinforced version has no lifecycle") in
      Ok (receipt_from_idempotency i DuplicateCommit (lc_state lifecycle), None)
  | None =>
      let? version := load_version_unlocked s ws (rr_version_id r) in
      let? version := ok_or version TargetNotActive in
      let? admitted := if negb (String.eqb (ms_namespace (mv_scope version)) (rr_namespace r)) then Ok false
                       else authorize_record_scope p (mv_scope version) in
      if negb admitted then Err UnauthorizedAccess
      else
        let? lifecycle := load_lifecycle_unlocked s ws (rr_version_id r) in
        let? lifecycle := ok_or lifecycle (LCorruptState "reinforcement target has no lifecycle") in
        if bool_decide (lc_state lifecycle ≠ Active) then Err TargetNotActive
        else
          let? _ := ensure_not_deletion_tombstoned_unlocked s ws (mv_scope version)
                      ((λ e, (ei_source_plane e, ei_source_id e)) <$> rr_evidence r) in
          let? _ := ensure_new_policy_decision_unlocked s ws (rr_policy_decision_id r) in
          let? n := next_sequence s ws in
          reinforce_commit uuid r version (lc_state lifecycle) key_sha request_sha n
  end.

Definition reinforce (uuid : nat → string) s p (r : ReinforceMemoryRequest) : LResult CommitMemoryReceipt * S :=
  lcommit s (reinforce_plan uuid s p r).

(** *** Forgetting and retracting *)

Definition inactive_commit (uuid : nat → string) (r : ForgetMemoryRequest) (d : LifecycleDisposition)
    (heads targets : list string) (key_sha request_sha : string) (n : Z) : lplan CommitMemoryReceipt :=
  let ws := fr_workspace_id r in
  let aid := fr_assertion_id r in
  let mid := new_id uuid 0 "mem_m" in
  let mutation := mkMemoryMutation MEMORY_SCHEMA_VERSION mid (l_operation d) ws aid targets []
    (fr_expected_head_version_ids r) key_sha request_sha (fr_principal_id r) (fr_delegated_agent_id r)
    (fr_authorization_decision_id r) (fr_policy_decision_id r) (fr_reason r) n (fr_committed_at_ms r) in
  let? _ := lcontract (memory_mutation_validate mutation) in
  let head := mkHead MEMORY_SCHEMA_VERSION ws aid (base.filter (λ v, v ∉ targets) heads) mid n in
  let? _ := lcontract (head_validate head) in
  let outbox := mkOutbox MEMORY_SCHEMA_VERSION ws n mid aid targets in
  let? _ := lcontract (outbox_validate outbox) in
  let idempotency := mkIdempotency MEMORY_SCHEMA_VERSION (fr_principal_id r) ws (l_operation d) key_sha
    request_sha (fr_policy_decision_id r) mid aid targets n in
  let? _ := lcontract (idempotency_validate idempotency) in
  let policy_decision := mkPolicyDecision MEMORY_SCHEMA_VERSION (fr_policy_decision_id r) ws
    POLICY_MANIFEST (l_policy_outcome d) SignedSystem Advisory [l_policy_reason d]
    (fr_authorization_decision_id r) n in
  let? _ := lcontract (policy_decision_validate policy_decision) in
  let? lifecycles := transitions ws (l_state d) n mid targets in
  let? operations := lseq
    ([put_record (meta_key ws) (mkMeta MEMORY_SCHEMA_VERSION ws n); put_record (head_key ws aid) head;
      put_record (mutation_sequence_key ws n) mutation; put_record (mutation_id_key ws mid) mutation;
      put_record (outbox_key ws n) outbox;
      put_record (idempotency_key ws (fr_principal_id r) (l_operation d) key_sha) idempotency;
      put_record (policy_decision_key ws (fr_policy_decision_id r)) policy_decision]
     ++ mjoin (lifecycle_puts ws n <$> lifecycles)) in
  Ok (mkReceipt Committed mid aid targets n (fr_policy_decision_id r) (l_state d), Some operations).

Definition transition_targets (r : ForgetMemoryRequest) (heads : list string) : LResult (list string) :=
  match fr_version_id r with
  | Some vid => if decide (vid ∈ heads) then Ok [vid] else Err TargetNotActive
  | None => if decide (heads = []) then Err TargetNotActive else Ok heads
  end.

Definition ensure_target s p ws (aid vid : string) : LResult unit :=
  let? version := load_version_unlocked s ws vid in
  let? version := ok_or version (LCorruptState "active target version is missing") in
  if negb (String.eqb (mv_assertion_id version) aid) then Err UnauthorizedAccess
  else
    let? admitted := authorize_record_scope p (mv_scope version) in
    if negb admitted then Err UnauthorizedAccess else Ok tt.

Definition transition_inactive_plan (uuid : nat → string) s p (r : ForgetMemoryRequest)
    (d : LifecycleDisposition) : lplan CommitMemoryReceipt :=
  let ws := fr_workspace_id r in
  let? _ := authorize_lifecycle_request key p ws (fr_namespace r) (fr_principal_id r)
              (fr_delegated_agent_id r) (fr_request_purpose r) (fr_authorization_decision_id r)
              (l_capability d) in
  let? _ := validate_forget_request r in
  let key_sha := sha256_hex (fr_idempotency_key r) in
  let? request_sha := canonical_forget_request_sha256 r in
  let? previous := idempotent_record s ws (fr_principal_id r) (l_operation d) key_sha request_sha
                     (λ _, true)
                     (LCorruptState "idempotency key and lifecycle payload identity differ") in
  match previous with
  | Some i => Ok (receipt_from_idempotency i DuplicateCommit (l_state d), None)
  | None =>
      let? _ := ensure_new_policy_decision_unlocked s ws (fr_policy_decision_id r) in
      let? assertion := load_assertion_unlocked s ws (fr_assertion_id r) in
      let? assertion := ok_or assertion TargetNotActive in
      if negb (String.eqb (ma_namespace assertion) (fr_namespace r)) then Err UnauthorizedAccess
      else
        let? head := load_head_unlocked s ws (fr_assertion_id r) in
        let? head := ok_or head TargetNotActive in
        let heads := hd_active_version_ids head in
        let? _ := ensure_expected_heads (fr_expected_head_version_ids r) heads in
        let? targets := transition_targets r heads in
        let? _ := lall (ensure_target s p ws (fr_assertion_id r)) targets in
        let? n := next_sequence s ws in
        inactive_commit uuid r d heads targets key_sha request_sha n
  end.

Definition transition_inactive (uuid : nat → string) s p (r : ForgetMemoryRequest)
    (d : LifecycleDisposition) : LResult CommitMemoryReceipt * S :=
  lcommit s (transition_inactive_plan uuid s p r d).

Definition forget_disposition : LifecycleDisposition :=
  mkLifecycleDisposition MForget "memory.forget" Tombstoned PTombstoned "authorized_exact_tombstone".
Definition retract_disposition : LifecycleDisposition :=
  mkLifecycleDisposition MRetract "memory.retract" Retracted PRetracted
    "authorized_retraction_without_replacement".

Definition forget (uuid : nat → string) s p (r : ForgetMemoryRequest) : LResult CommitMemoryReceipt * S :=
  transition_inactive uuid s p r forget_disposition.
Definition retract (uuid : nat → string) s p (r : ForgetMemoryRequest) : LResult CommitMemoryReceipt * S :=
  transition_inactive uuid s p r retract_disposition.

(** *** Point reads *)

Definition current_sequence s p ws : LResult Z :=
  let? _ := authorize_workspace_capability key p ws ["memory.admin"] in
  let? _ := validate_local_id "workspace_id" ws in
  current_sequence_unlocked s ws.

Definition get_observation s p ws (oid : string) : LResult (option MemoryObservation) :=
  let? _ := authorize_workspace_capability key p ws ["memory.read"; "memory.history"; "memory.propose"] in
  let? _ := validate_local_id "workspace_id" ws in
  let? _ := validate_local_id "observation_id" oid in
  let? observation := load_observation_unlocked s ws oid in
  match observation with
  | None => Ok None
  | Some o =>
      let? admitted := authorize_record_scope p (ob_scope o) in
      if negb admitted then Ok None else Ok (Some o)
  end.

(** Whether one of the active heads is in the scope of the proof. *)
Fixpoint any_visible s p ws (heads : list string) : LResult bool :=
  match heads with
  | [] => Ok false
  | vid :: heads =>
      let? version := load_version_unlocked s ws vid in
      let? version := ok_or version (LCorruptState "head references missing version") in
      let? admitted := authorize_record_scope p (mv_scope version) in
      if admitted then Ok true else any_visible s p ws heads
  end.

Definition get_assertion s p ws (aid : string) : LResult (option MemoryAssertion) :=
  let? _ := authorize_workspace_capability key p ws
              ["memory.read"; "memory.recall"; "memory.history"; "memory.forget"] in
  let? _ := validate_local_id "workspace_id" ws in
  let? _ := validate_local_id "assertion_id" aid in
  let? assertion := load_assertion_unlocked s ws aid in
  match assertion with
  | None => Ok None
  | Some a =>
      let? head := load_head_unlocked s ws aid in
      match head with
      | None => Err (LCorruptState "assertion has no canonical head")
      | Some h =>
          let? visible := if g_system_job (grant p) then Ok true
                          else any_visible s p ws (hd_active_version_ids h) in
          if negb visible then Ok None else Ok (Some a)
      end
  end.

Definition get_version s p ws (vid : string) : LResult (option MemoryVersion) :=
  let? _ := authorize_workspace_capability key p ws ["memory.read"; "memory.recall"; "memory.history"] in
  let? _ := validate_local_id "workspace_id" ws in
  let? _ := validate_local_id "version_id" vid in
  let? version := load_version_unlocked s ws vid in
  match version with
  | None => Ok None
  | Some v =>
      let? admitted := authorize_record_scope p (mv_scope v) in
      if negb admitted then Ok None else Ok (Some v)
  end.

Definition get_version_view s p ws (vid : string) : LResult (option MemoryVersionView) :=
  let? _ := authorize_workspace_capability key p ws
              ["memory.read"; "memory.recall"; "memory.history"; "memory.replay"; "memory.forget";
               "memory.retract"] in
  let? _ := validate_local_id "workspace_id" ws in
  let? _ := validate_local_id "version_id" vid in
  let? version := load_version_unlocked s ws vid in
  match version with
  | None => Ok None
  | Some v =>
      let? admitted := authorize_record_scope p (mv_scope v) in
      if negb admitted then Ok None
      else
        let? assertion := load_assertion_unlocked s ws (mv_assertion_id v) in
        let? assertion := ok_or assertion (LCorruptState "version has no canonical assertion") in
        let? lifecycle := load_lifecycle_unlocked s ws vid in
        let? lifecycle := ok_or lifecycle (LCorruptState "version has no canonical lifecycle") in
        if bool_decide (lc_state lifecycle ≠ Active)
           && negb (String.eqb (g_capability (grant p)) "memory.history"
                    || String.eqb (g_capability (grant p)) "memory.replay")
           && negb (g_system_job (grant p)) then Ok None
        else
          let? evidence := load_evidence_for_version_unlocked s ws v in
          let? policy_decision := load_policy_decision_unlocked s ws (mv_policy_decision_id v) in
          let? derivation := load_derivation_unlocked s ws v in
          let? relations := load_relations_for_version_unlocked s ws (mv_version_id v) in
          let? reinforcements := load_reinforcements_unlocked s ws (mv_version_id v) in
          Ok (Some (mkView assertion v lifecycle evidence policy_decision derivation relations
                      reinforcements))
  end.

(** *** Listing and reading in time *)

Definition assertion_prefix ws : string := scoped_key "assertion" ws [].
Definition version_prefix ws : string := scoped_key "version" ws [].

Definition view_cmp (a b : MemoryVersionView) : comparison :=
  then_with (mv_committed_sequence (vw_version a) ?= mv_committed_sequence (vw_version b))
    (bytes_cmp (mv_version_id (vw_version a)) (mv_version_id (vw_version b))).

(** The inner loop of [list_active_versions]: the heads of one assertion. *)
Fixpoint list_heads s p ws (a : MemoryAssertion) (limit : Z) (views : list MemoryVersionView)
    (heads : list string) : LResult (list MemoryVersionView) :=
  match heads with
  | [] => Ok views
  | vid :: heads =>
      let? version := load_version_unlocked s ws vid in
      let? v := ok_or version (LCorruptState "active version is missing") in
      let? admitted := authorize_record_scope p (mv_scope v) in
      if negb admitted then list_heads s p ws a limit views heads
      else
        let? lifecycle := load_lifecycle_unlocked s ws vid in
        let? l := ok_or lifecycle (LCorruptState "active version has no lifecycle") in
        if bool_decide (lc_state l ≠ Active) then Err (LCorruptState "head version is not active")
        else
          let? evidence := load_evidence_for_version_unlocked s ws v in
          let? policy_decision := load_policy_decision_unlocked s ws (mv_policy_decision_id v) in
          let? derivation := load_derivation_unlocked s ws v in
          let? relations := load_relations_for_version_unlocked s ws (mv_version_id v) in
          let? reinforcements := load_reinforcements_unlocked s ws (mv_version_id v) in
          let views := views ++ [mkView a v l evidence policy_decision derivation relations
                                   reinforcements] in
          if limit <=? Zlength views then Ok views else list_heads s p ws a limit views heads
  end.

Fixpoint list_assertions s p ws (namespace : string) (limit : Z) (views : list MemoryVersionView)
    (rows : list KV) : LResult (list MemoryVersionView) :=
  match rows with
  | [] => Ok views
  | (_, bytes) :: rows =>
      let? a := decode_record bytes "memory assertion" in
      let? _ := lcorrupt "invalid assertion" (assertion_validate a) in
      if negb (String.eqb (ma_workspace_id a) ws) then
        Err (LCorruptState "assertion prefix and payload workspace differ")
      else if negb (String.eqb (ma_namespace a) namespace) then
        list_assertions s p ws namespace limit views rows
      else
        let? head := load_head_unlocked s ws (ma_assertion_id a) in
        let? head := ok_or head (LCorruptState "assertion has no canonical head") in
        let? views := list_heads s p ws a limit views (hd_active_version_ids head) in
        if limit <=? Zlength views then Ok views
        else list_assertions s p ws namespace limit views rows
  end.

Definition list_active_versions s p ws (namespace : string) (limit : Z)
    : LResult (list MemoryVersionView) :=
  let? _ := authorize_workspace_capability key p ws ["memory.read"; "memory.recall"] in
  let? _ := authorize_namespace p namespace in
  let? _ := validate_local_id "workspace_id" ws in
  let? _ := validate_local_id "namespace" namespace in
  if (limit =? 0) || (limit >? 5000) then
    Err (LInvalidRequest "active-version scan limit must be between 1 and 5000")
  else
    let? rows := lstored (sb_scan_prefix_limited s (assertion_prefix ws) None) in
    let? views := list_assertions s p ws namespace limit [] rows in
    Ok (sort_by view_cmp views).

(** What of a view was committed by a sequence. *)
Definition view_as_of (n : Z) (v : MemoryVersionView) : MemoryVersionView :=
  mkView (vw_assertion v) (vw_version v) (vw_lifecycle v) (vw_evidence v) (vw_policy_decision v)
    (vw_derivation v) (base.filter (λ r, rl_committed_sequence r ≤ n) (vw_relations v))
    (base.filter (λ r, rf_committed_sequence r ≤ n) (vw_reinforcements v)).

(** A version as a temporal query sees it, once it is known to be of the workspace. *)
Definition temporal_view s p ws (q : MemoryTemporalQuery) (n : Z) (v : MemoryVersion)
    : LResult (option MemoryVersionView) :=
  if (mv_committed_sequence v >? n) || negb (is_valid_at_unix_nanos v (valid_at_unix_nanos q)) then Ok None
  else
    let? admitted := authorize_record_scope p (mv_scope v) in
    if negb admitted then Ok None
    else
      let? lifecycle := lifecycle_at_sequence_unlocked s ws (mv_version_id v) n in
      match lifecycle with
      | None => Ok None
      | Some l =>
          if bool_decide (lc_state l ≠ Active) then Ok None
          else
            let? view := build_version_view_unlocked s ws v l in
            Ok (Some (view_as_of n view))
      end.

Definition query_sequence s ws (q : MemoryTemporalQuery) : LResult Z :=
  let? current := current_sequence_unlocked s ws in
  let n := system_sequence q current in
  if n >? current then Err (LInvalidRequest "system sequence is not committed") else Ok n.

Definition get_version_view_temporal s p ws (vid : string) (q : MemoryTemporalQuery)
    : LResult (option MemoryVersionView) :=
  let? _ := authorize_workspace_capability key p ws
              ["memory.read"; "memory.recall"; "memory.history"; "memory.replay"] in
  let? _ := lcontract (temporal_query_validate q) in
  let? _ := validate_local_id "workspace_id" ws in
  let? _ := validate_local_id "version_id" vid in
  let? n := query_sequence s ws q in
  let? version := load_version_unlocked s ws vid in
  match version with
  | None => Ok None
  | Some v => temporal_view s p ws q n v
  end.

Definition temporal_row s p ws (namespace : string) (q : MemoryTemporalQuery) (n : Z) (row : KV)
    : LResult (option MemoryVersionView) :=
  let? v := decode_record row.2 "memory version" in
  let? _ := lcorrupt "invalid version" (version_validate v) in
  if negb (String.eqb (ms_workspace_id (mv_scope v)) ws) then
    Err (LCorruptState "version prefix and payload workspace differ")
  else if negb (String.eqb (ms_namespace (mv_scope v)) namespace) then Ok None
  else temporal_view s p ws q n v.

Definition list_versions_temporal s p ws (namespace : string) (q : MemoryTemporalQuery) (limit : Z)
    : LResult (list MemoryVersionView) :=
  let? _ := authorize_workspace_capability key p ws ["memory.read"; "memory.recall"; "memory.history"] in
  let? _ := authorize_namespace p namespace in
  let? _ := lcontract (temporal_query_validate q) in
  let? _ := validate_local_id "workspace_id" ws in
  let? _ := validate_local_id "namespace" namespace in
  if (limit =? 0) || (limit >? 5000) then
    Err (LInvalidRequest "temporal version scan limit must be between 1 and 5000")
  else
    let? n := query_sequence s ws q in
    let? rows := lstored (sb_scan_prefix_limited s (version_prefix ws) None) in
    let? views := collect (temporal_row s p ws namespace q n) rows in
    Ok (take (Z.to_nat limit) (sort_by view_cmp (omap id views))).

(** *** The outbox and the projections *)

Definition decode_outbox ws (row : KV) : LResult ProjectionOutboxEntry :=
  let? entry := decode_record row.2 "projection outbox" in
  let? _ := lcorrupt "invalid outbox entry" (outbox_validate entry) in
  if negb (String.eqb (ox_workspace_id entry) ws) then
    Err (LCorruptState "outbox key and payload workspace differ")
  else Ok entry.

Fixpoint ensure_contiguous ws (expected : Z) (entries : list ProjectionOutboxEntry) : LResult unit :=
  match entries with
  | [] => Ok tt
  | entry :: entries =>
      if negb (ox_sequence entry =? expected) then
        Err (ProjectionSequenceGap expected (ox_sequence entry))
      else
        let? expected := ok_or (checked_add u64_max expected 1) (SequenceExhausted ws) in
        ensure_contiguous ws expected entries
  end.

Definition outbox_entries s p ws (after_sequence limit : Z) : LResult (list ProjectionOutboxEntry) :=
  let? _ := authorize_workspace_capability key p ws ["memory.admin"] in
  let? _ := validate_local_id "workspace_id" ws in
  if limit =? 0 then Err (LInvalidRequest "outbox limit must be greater than zero")
  else
    let? current := current_sequence_unlocked s ws in
    if current <=? after_sequence then Ok []
    else
      let? rows := lstored (sb_scan_prefix_from_limited s (outbox_prefix ws)
                              (outbox_key ws after_sequence) limit) in
      let? entries := collect (decode_outbox ws) rows in
      let decoded := sort_by (λ a b, ox_sequence a ?= ox_sequence b)
                       (base.filter (λ e, after_sequence < ox_sequence e) entries) in
      let? expected := ok_or (checked_add u64_max after_sequence 1) (SequenceExhausted ws) in
      let? _ := ensure_contiguous ws expected decoded in
      if bool_decide (decoded = []) then
        Err (LCorruptState "workspace is committed but has no outbox entry")
      else Ok decoded.

Definition data_operation ws (pid : string) (operation : ProjectionDataOperation) : BatchOperation :=
  match operation with
  | PPut k value => Put (projection_data_key ws pid k) value
  | PDelete k => Delete (projection_data_key ws pid k)
  end.

Definition apply_projection_plan s p (pid : string) (entry : ProjectionOutboxEntry)
    (data : list ProjectionDataOperation) (now : Z) : lplan ProjectionApplyOutcome :=
  let ws := ox_workspace_id entry in
  let? _ := authorize_workspace_capability key p ws ["memory.admin"] in
  let? _ := validate_local_id "projection_id" pid in
  let? _ := lcontract (outbox_validate entry) in
  if now =? 0 then Err (LInvalidRequest "updated_at_ms must be greater than zero")
  else
    let? _ := validate_projection_operations data in
    let? canonical := load_outbox_unlocked s ws (ox_sequence entry) in
    let? canonical := ok_or canonical (LCorruptState "missing canonical outbox entry") in
    if decide (canonical ≠ entry) then Err (OutboxMismatch (ox_sequence entry))
    else
      let? checkpoint := load_projection_checkpoint_unlocked s ws pid in
      let applied := default 0 (pc_applied_sequence <$> checkpoint) in
      if ox_sequence entry <=? applied then Ok (PDuplicate, None)
      else
        let? expected := ok_or (checked_add u64_max applied 1)
                           (LCorruptState "projection checkpoint overflow") in
        if negb (ox_sequence entry =? expected) then
          Err (ProjectionSequenceGap expected (ox_sequence entry))
        else
          let checkpoint := mkProjection MEMORY_SCHEMA_VERSION ws pid (ox_sequence entry) PCatchingUp
                              None now in
          let? _ := lcontract (projection_checkpoint_validate checkpoint) in
          let? put := put_record (projection_checkpoint_key ws pid) checkpoint in
          Ok (PApplied, Some ((data_operation ws pid <$> data) ++ [put])).

Definition apply_projection s p (pid : string) (entry : ProjectionOutboxEntry)
    (data : list ProjectionDataOperation) (now : Z) : LResult ProjectionApplyOutcome * S :=
  lcommit s (apply_projection_plan s p pid entry data now).

(** The checkpoint of a projection that covers the whole ledger. *)
Definition ready_checkpoint ws (pid : string) (c : ProjectionCheckpoint) (now : Z)
    : lplan ProjectionCheckpoint :=
  let c := mkProjection (pc_schema_version c) (pc_workspace_id c) (pc_projection_id c)
             (pc_applied_sequence c) PReady None now in
  let? _ := lcontract (projection_checkpoint_validate c) in
  let? put := put_record (projection_checkpoint_key ws pid) c in
  Ok (c, Some [put]).

Definition mark_projection_ready_plan s p ws (pid : string) (now : Z) : lplan ProjectionCheckpoint :=
  let? _ := authorize_workspace_capability key p ws ["memory.admin"] in
  let? _ := validate_local_id "workspace_id" ws in
  let? _ := validate_local_id "projection_id" pid in
  if now =? 0 then Err (LInvalidRequest "updated_at_ms must be greater than zero")
  else
    let? current := current_sequence_unlocked s ws in
    let? checkpoint := load_projection_checkpoint_unlocked s ws pid in
    let? checkpoint := ok_or checkpoint (ProjectionCheckpointNotFound pid) in
    if negb (pc_applied_sequence checkpoint =? current) then
      Err (VisibilityPending current (pc_applied_sequence checkpoint))
    else ready_checkpoint ws pid checkpoint now.

Definition mark_projection_ready s p ws (pid : string) (now : Z) : LResult ProjectionCheckpoint * S :=
  lcommit s (mark_projection_ready_plan s p ws pid now).

Definition try_mark_projection_ready_at_plan s p ws (pid : string) (expected_sequence now : Z)
    : lplan (option ProjectionCheckpoint) :=
  let? _ := authorize_workspace_capability key p ws ["memory.admin"] in
  let? _ := validate_local_id "workspace_id" ws in
  let? _ := validate_local_id "projection_id" pid in
  if (expected_sequence =? 0) || (now =? 0) then
    Err (LInvalidRequest "expected sequence and updated_at_ms must be greater than zero")
  else
    let? current := current_sequence_unlocked s ws in
    let? checkpoint := load_projection_checkpoint_unlocked s ws pid in
    let? checkpoint := ok_or checkpoint (ProjectionCheckpointNotFound pid) in
    if negb (current =? expected_sequence) || negb (pc_applied_sequence checkpoint =? current) then
      Ok (None, None)
    else
      let? ready := ready_checkpoint ws pid checkpoint now in
      Ok (Some ready.1, ready.2).

Definition try_mark_projection_ready_at s p ws (pid : string) (expected_sequence now : Z)
    : LResult (option ProjectionCheckpoint) * S :=
  lcommit s (try_mark_projection_ready_at_plan s p ws pid expected_sequence now).

Definition get_projection_checkpoint s p ws (pid : string) : LResult (option ProjectionCheckpoint) :=
  let? _ := authorize_workspace_capability key p ws ["memory.admin"] in
  let? _ := validate_local_id "workspace_id" ws in
  let? _ := validate_local_id "projection_id" pid in
  load_projection_checkpoint_unlocked s ws pid.

Definition get_projection_value s p ws (pid k : string) : LResult (option string) :=
  let? _ := authorize_workspace_capability key p ws ["memory.admin"] in
  let? _ := validate_local_id "workspace_id" ws in
  let? _ := validate_local_id "projection_id" pid in
  let? _ := validate_projection_key k in
  lstored (sb_get s (projection_data_key ws pid k)).

Definition validate_scan_limit (limit : Z) : LResult unit :=
  if (limit =? 0) || (limit >? 100000) then
    Err (LInvalidRequest "projection scan limit must be between 1 and 100000")
  else Ok tt.

Definition scan_projection_values s p ws (pid : string) (limit : Z) : LResult (list KV) :=
  let? _ := authorize_workspace_capability key p ws ["memory.admin"] in
  let? _ := validate_local_id "workspace_id" ws in
  let? _ := validate_local_id "projection_id" pid in
  let? _ := validate_scan_limit limit in
  lstored (sb_scan_prefix_limited s (projection_data_prefix ws pid) (Some limit)).

Definition scan_projection_prefix_values s p ws (pid local_prefix : string) (limit : Z)
    : LResult (list KV) :=
  let? _ := authorize_workspace_capability key p ws ["memory.admin"] in
  let? _ := validate_local_id "workspace_id" ws in
  let? _ := validate_local_id "projection_id" pid in
  let? _ := validate_projection_key local_prefix in
  let? _ := validate_scan_limit limit in
  lstored (sb_scan_prefix_limited s (projection_data_prefix ws pid +:+ local_prefix) (Some limit)).

(** *** Projection sets *)

Definition register_projection_set_plan s p (m : ProjectionSetManifest) : lplan unit :=
  let? _ := authorize_capability key p ["memory.admin"] in
  let? _ := lcontract (set_manifest_validate m) in
  let? expected := projection_manifest_sha256 m in
  if negb (String.eqb expected (pm_manifest_sha256 m)) then
    Err (LInvalidRequest "projection-set manifest digest does not match its canonical fields")
  else
    let k := projection_set_key (pm_projection_set_id m) (pm_projection_set_version m) in
    let? existing := lstored (sb_get s k) in
    match existing with
    | Some bytes =>
        let? existing := decode_record bytes "projection-set manifest" in
        if decide (existing ≠ m) then
          Err (LInvalidRequest "projection-set identity is already bound to different content")
        else Ok (tt, None)
    | None =>
        let? put := put_record k m in
        Ok (tt, Some [put])
    end.

Definition register_projection_set s p (m : ProjectionSetManifest) : LResult unit * S :=
  lcommit s (register_projection_set_plan s p m).

(** A stored manifest, with the checks every reader makes. *)
Definition load_projection_set s (sid : string) (n : Z) : LResult (option ProjectionSetManifest) :=
  let? bytes := lstored (sb_get s (projection_set_key sid n)) in
  match bytes with
  | None => Ok None
  | Some bytes =>
      let? m := decode_record bytes "projection-set manifest" in
      let? _ := lcorrupt "invalid projection-set manifest" (set_manifest_validate m) in
      let? digest := projection_manifest_sha256 m in
      if negb (String.eqb (pm_projection_set_id m) sid) || negb (pm_projection_set_version m =? n)
         || negb (String.eqb digest (pm_manifest_sha256 m)) then
        Err (LCorruptState "projection-set key, payload, or digest differs")
      else Ok (Some m)
  end.

Definition failed_message (c : ProjectionCheckpoint) : string :=
  default "projection failed without evidence" (pc_last_error c).

Fixpoint ensure_ready s ws (current : Z) (projections : list string) : LResult unit :=
  match projections with
  | [] => Ok tt
  | pid :: projections =>
      let? checkpoint := load_projection_checkpoint_unlocked s ws pid in
      let? c := ok_or checkpoint (VisibilityPending current 0) in
      if bool_decide (pc_status c = PFailed) then Err (ProjectionFailed pid (failed_message c))
      else if bool_decide (pc_status c ≠ PReady) || (pc_applied_sequence c <? current) then
        Err (VisibilityPending current (pc_applied_sequence c))
      else ensure_ready s ws current projections
  end.

Definition activate_projection_set_plan s p ws (sid : string) (n now : Z) : lplan ActiveProjectionSet :=
  let? _ := authorize_workspace_capability key p ws ["memory.admin"] in
  let? _ := validate_local_id "workspace_id" ws in
  let? _ := validate_local_id "projection_set_id" sid in
  if (n =? 0) || (now =? 0) then
    Err (LInvalidRequest "projection-set version and activation time must be greater than zero")
  else
    let? manifest := load_projection_set s sid n in
    let? m := ok_or manifest (LInvalidRequest "unknown projection set") in
    let? current := current_sequence_unlocked s ws in
    let? _ := if current >? 0 then ensure_ready s ws current (pm_projection_ids m) else Ok tt in
    let active := mkActiveSet MEMORY_SCHEMA_VERSION ws sid n (pm_manifest_sha256 m) current now in
    let? _ := validate_active_projection_set active in
    let? put := put_record (active_projection_set_key ws) active in
    Ok (active, Some [put]).

Definition activate_projection_set s p ws (sid : string) (n now : Z) : LResult ActiveProjectionSet * S :=
  lcommit s (activate_projection_set_plan s p ws sid n now).

Definition get_projection_set_manifest s p ws (sid : string) (n : Z)
    : LResult (option ProjectionSetManifest) :=
  let? _ := authorize_workspace_capability key p ws ["memory.recall"; "memory.replay"; "memory.admin"] in
  let? _ := validate_local_id "workspace_id" ws in
  let? _ := validate_local_id "projection_set_id" sid in
  if n =? 0 then Err (LInvalidRequest "projection-set version must be greater than zero")
  else load_projection_set s sid n.

Definition get_active_projection_set s p ws
    : LResult (option (ActiveProjectionSet * ProjectionSetManifest)) :=
  let? _ := authorize_workspace_capability key p ws ["memory.recall"; "memory.replay"; "memory.admin"] in
  let? _ := validate_local_id "workspace_id" ws in
  let? bytes := lstored (sb_get s (active_projection_set_key ws)) in
  match bytes with
  | None => Ok None
  | Some bytes =>
      let? pointer := decode_record bytes "active projection-set pointer" in
      let? _ := validate_active_projection_set pointer in
      if negb (String.eqb (as_workspace_id pointer) ws) then
        Err (LCorruptState "active projection-set key and workspace differ")
      else
        let? mbytes := lstored (sb_get s (projection_set_key (as_projection_set_id pointer)
                                  (as_projection_set_version pointer))) in
        let? mbytes := ok_or mbytes (LCorruptState "active projection set is missing") in
        let? m := decode_record mbytes "active projection-set manifest" in
        let? _ := lcorrupt "invalid active projection-set manifest" (set_manifest_validate m) in
        let? digest := projection_manifest_sha256 m in
        if negb (String.eqb (pm_projection_set_id m) (as_projection_set_id pointer))
           || negb (pm_projection_set_version m =? as_projection_set_version pointer)
           || negb (String.eqb (pm_manifest_sha256 m) (as_manifest_sha256 pointer))
           || negb (String.eqb digest (as_manifest_sha256 pointer)) then
          Err (LCorruptState "active projection-set pointer and manifest differ")
        else Ok (Some (pointer, m))
  end.

(** The lowest applied sequence of the projections of a set. *)
Fixpoint visible_through s ws (commit_sequence visible : Z) (projections : list string) : LResult Z :=
  match projections with
  | [] => Ok visible
  | pid :: projections =>
      let? checkpoint := load_projection_checkpoint_unlocked s ws pid in
      let? c := ok_or checkpoint (VisibilityPending commit_sequence 0) in
      if bool_decide (pc_status c = PFailed) then Err (ProjectionFailed pid (failed_message c))
      else visible_through s ws commit_sequence (Z.min visible (pc_applied_sequence c)) projections
  end.

Definition visibility_receipt s p ws (commit_sequence : Z) (sid : string) (n : Z)
    : LResult VisibilityReceipt :=
  let? _ := authorize_workspace_capability key p ws ["memory.recall"; "memory.admin"] in
  let? _ := validate_local_id "workspace_id" ws in
  let? _ := validate_local_id "projection_set_id" sid in
  if (commit_sequence =? 0) || (n =? 0) then
    Err (LInvalidRequest "commit and projection-set versions must be greater than zero")
  else
    let? current := current_sequence_unlocked s ws in
    if commit_sequence >? current then Err (VisibilityPending commit_sequence current)
    else
      let? manifest := load_projection_set s sid n in
      let? m := ok_or manifest (LInvalidRequest "unknown projection set") in
      let? visible := visible_through s ws commit_sequence u64_max (pm_projection_ids m) in
      if visible <? commit_sequence then Err (VisibilityPending commit_sequence visible)
      else
        let receipt := mkVisibility MEMORY_SCHEMA_VERSION ws commit_sequence sid n
                         (Z.min visible commit_sequence) in
        let? _ := lcontract (visibility_validate receipt) in
        Ok receipt.
End ledger.
