(* ===== verification/LedgerProps.v ===== *)
(** * What one operation of the memory ledger does

    The keys of the ledger do not collide; a committed operation writes one new
    mutation, outbox entry and idempotency record under the next sequence number,
    with at most one new head and version and the lifecycle transitions it
    implies. *)

From Stdlib Require Import Ascii.
From S2P Require Import Prelude Float32 Text Sorting Storage Hex Keys Filter Knowledge MemoryContracts LedgerModel Ledger.

(** ** Keys do not collide *)

Inductive mkey :=
| KMeta (ws : string)
| KAssertion (ws aid : string)
| KVersion (ws vid : string)
| KEvidence (ws eid : string)
| KObservation (ws oid : string)
| KObservationBy (ws eid : string)
| KDerivation (ws did : string)
| KRelation (ws rid : string)
| KRelationBy (ws vid rid : string)
| KReinforcement (ws vid rid : string)
| KPolicy (ws pid : string)
| KHead (ws aid : string)
| KLife (ws vid : string)
| KHist (ws vid : string) (n : Z)
| KMut (ws : string) (n : Z)
| KMutId (ws mid : string)
| KIdem (ws principal : string) (o : MemoryOperation) (key_sha : string)
| KOutbox (ws : string) (n : Z)
| KCheckpoint (ws pid : string)
| KData (ws pid key : string)
| KActiveSet (ws : string)
| KSet (sid : string) (n : Z).

#[global] Instance mkey_eq_dec : EqDecision mkey.
Proof. solve_decision. Defined.

Definition kenc (k : mkey) : string :=
  match k with
  | KMeta ws => meta_key ws
  | KAssertion ws aid => assertion_key ws aid
  | KVersion ws vid => version_key ws vid
  | KEvidence ws eid => evidence_key ws eid
  | KObservation ws oid => observation_key ws oid
  | KObservationBy ws eid => observation_by_evidence_key ws eid
  | KDerivation ws did => derivation_key ws did
  | KRelation ws rid => relation_key ws rid
  | KRelationBy ws vid rid => relation_by_version_key ws vid rid
  | KReinforcement ws vid rid => reinforcement_key ws vid rid
  | KPolicy ws pid => policy_decision_key ws pid
  | KHead ws aid => head_key ws aid
  | KLife ws vid => lifecycle_current_key ws vid
  | KHist ws vid n => lifecycle_history_key ws vid n
  | KMut ws n => mutation_sequence_key ws n
  | KMutId ws mid => mutation_id_key ws mid
  | KIdem ws principal o key_sha => idempotency_key ws principal o key_sha
  | KOutbox ws n => outbox_key ws n
  | KCheckpoint ws pid => projection_checkpoint_key ws pid
  | KData ws pid key => projection_data_key ws pid key
  | KActiveSet ws => active_projection_set_key ws
  | KSet sid n => projection_set_key sid n
  end.

(** The kind of a key, and the components after it. *)
Definition ktag (k : mkey) : nat :=
  match k with
  | KMeta _ => 0 | KAssertion _ _ => 1 | KVersion _ _ => 2 | KEvidence _ _ => 3 | KObservation _ _ => 4
  | KObservationBy _ _ => 5 | KDerivation _ _ => 6 | KRelation _ _ => 7 | KRelationBy _ _ _ => 8
  | KReinforcement _ _ _ => 9 | KPolicy _ _ => 10 | KHead _ _ => 11 | KLife _ _ => 12
  | KHist _ _ _ => 13 | KMut _ _ => 14 | KMutId _ _ => 15 | KIdem _ _ _ _ => 16 | KOutbox _ _ => 17
  | KCheckpoint _ _ => 18 | KData _ _ _ => 19 | KActiveSet _ => 20 | KSet _ _ => 21
  end%nat.

Definition kind_names : list string :=
  ["meta"; "assertion"; "version"; "evidence"; "observation"; "observation-by-evidence"; "derivation";
   "relation"; "relation-by-version"; "reinforcement"; "policy-decision"; "head"; "lifecycle-current";
   "lifecycle-history"; "mutation-sequence"; "mutation-id"; "idempotency"; "outbox";
   "projection-checkpoint"; "projection-data"; "active-projection-set"; "projection-set"].

Definition kname (k : mkey) : string := default "" (kind_names !! ktag k).

Definition kparts (k : mkey) : list string :=
  match k with
  | KMeta ws | KActiveSet ws => [ws]
  | KAssertion ws x | KVersion ws x | KEvidence ws x | KObservation ws x | KObservationBy ws x
  | KDerivation ws x | KRelation ws x | KPolicy ws x | KHead ws x | KLife ws x | KMutId ws x
  | KCheckpoint ws x | KData ws x _ => [ws; x]
  | KRelationBy ws x y | KReinforcement ws x y => [ws; x; y]
  | KHist ws x n => [ws; x; seq8 n]
  | KMut ws n | KOutbox ws n => [ws; seq8 n]
  | KIdem ws x o y => [ws; x; operation_name o; y]
  | KSet x n => [x; ver4 n]
  end.

(** The bytes after the components. *)
Definition kraw (k : mkey) : string := match k with KData _ _ key => key | _ => "" end.

Lemma scoped_components kind ws l :
  scoped_key kind ws l = KEY_NAMESPACE +:+ component kind +:+ components (ws :: l).
Proof.
  unfold scoped_key. rewrite push_components. unfold push_component. cbn [components foldr].
  by rewrite !app_assoc_str.
Qed.

Lemma global_components kind l :
  global_key kind l = KEY_NAMESPACE +:+ component kind +:+ components l.
Proof. unfold global_key. rewrite push_components. unfold push_component. by rewrite !app_assoc_str. Qed.

Lemma app_nil_str s : s +:+ "" = s.
Proof. induction s as [|c s IH]; [done|]. change (String c (s +:+ "") = String c s). by rewrite IH. Qed.

Lemma kenc_parts k :
  kenc k = KEY_NAMESPACE +:+ component (kname k) +:+ components (kparts k) +:+ kraw k.
Proof.
  destruct k; cbn [kraw]; rewrite ?app_nil_str; try apply scoped_components; [|apply global_components].
  unfold kenc, projection_data_key, projection_data_prefix. rewrite scoped_components, !app_assoc_str. reflexivity.
Qed.

Lemma kname_small k : small (kname k).
Proof. by destruct k. Qed.

Lemma kname_tag k k' : kname k = kname k' → ktag k = ktag k'.
Proof.
  assert (∀ k, kind_names !! ktag k = Some (kname k)) as Hl by (intros []; reflexivity).
  intros E. apply (NoDup_lookup kind_names _ _ (kname k)); [|apply Hl|rewrite E; apply Hl].
  refine (bool_decide_unpack (NoDup kind_names) _). by vm_compute.
Qed.

Lemma kenc_tag k k' :
  kenc k = kenc k' →
  ktag k = ktag k' ∧ components (kparts k) +:+ kraw k = components (kparts k') +:+ kraw k'.
Proof.
  rewrite !kenc_parts. intros [_ E]%app_same_length; [|done].
  apply component_app_inj in E as [E1 E2]; [|apply kname_small..]. by apply kname_tag in E1.
Qed.

(** Components in number, followed by any bytes. *)
Lemma components_app_inj l k x y :
  length l = length k → Forall small l → Forall small k →
  components l +:+ x = components k +:+ y → l = k ∧ x = y.
Proof.
  revert k. induction l as [|a l IH]; intros [|b k] Hlen Hl Hk E; try discriminate; [done|].
  rewrite Forall_cons in Hl, Hk. destruct Hl as [Ha Hl], Hk as [Hb Hk].
  cbn [components foldr] in E. rewrite !app_assoc_str in E.
  apply component_app_inj in E as [-> E]; [|done..].
  destruct (IH k) as [-> ->]; auto.
Qed.

(** Keys whose components fit their prefix and whose numbers fit their width. *)
Definition knum (k : mkey) : Z :=
  match k with KHist _ _ n | KMut _ n | KOutbox _ n => n | _ => 0 end.

Definition kok (k : mkey) : Prop :=
  Forall small (kparts k) ∧ is_u64 (knum k) ∧ match k with KSet _ n => 0 ≤ n < 2 ^ 32 | _ => True end.

Lemma ver4_inj n p : 0 ≤ n < 2 ^ 32 → 0 ≤ p < 2 ^ 32 → ver4 n = ver4 p → n = p.
Proof.
  intros Hn Hp E. apply string_of_bytes_inj in E; [|apply be_bytes_range..].
  apply (f_equal from_be_bytes) in E. rewrite !from_be_bytes_be in E.
  rewrite !Z.mod_small in E by (change (256 ^ Z.of_nat 4) with (2 ^ 32); lia). done.
Qed.

Lemma seq8_inj n p : is_u64 n → is_u64 p → seq8 n = seq8 p → n = p.
Proof. intros Hn Hp E. apply string_of_bytes_inj in E; [|apply be_bytes_range..]. by apply be_bytes_inj. Qed.

Lemma operation_name_inj o o' : operation_name o = operation_name o' → o = o'.
Proof. destruct o, o'; vm_compute; intros; congruence. Qed.

Lemma seq8_small n : small (seq8 n).
Proof. apply sequence_small. Qed.

Lemma operation_small o : small (operation_name o).
Proof. by destruct o. Qed.

Lemma cons_inj_2 {A} (a b : A) l k : a :: l = b :: k → a = b ∧ l = k.
Proof. intros E. by injection E. Qed.

Lemma kenc_inj k k' : kok k → kok k' → kenc k = kenc k' → k = k'.
Proof.
  intros (Hs & Hn & Hv) (Hs' & Hn' & Hv') [Et E]%kenc_tag.
  assert (kparts k = kparts k' ∧ kraw k = kraw k') as [Ep Er].
  { apply components_app_inj; [|done..]. destruct k, k'; try discriminate Et; reflexivity. }
  clear E Hs Hs'. destruct k, k'; try discriminate Et; cbn [kparts kraw knum] in *;
    repeat match goal with
           | E : _ :: _ = _ :: _ |- _ =>
               let E1 := fresh in apply cons_inj_2 in E as [E1 E]
           | E : ?x = ?y |- _ => is_var x; is_var y; subst x
           | E : seq8 _ = seq8 _ |- _ => apply seq8_inj in E; [subst|done..]
           | E : ver4 _ = ver4 _ |- _ => apply ver4_inj in E; [subst|done..]
           | E : operation_name _ = operation_name _ |- _ => apply operation_name_inj in E; subst
           end; reflexivity.
Qed.

(** The workspace a key belongs to. *)
Definition kscope (k : mkey) : option string :=
  match k with KSet _ _ => None | _ => head (kparts k) end.

(** A key of one workspace is not a key of another, whatever follows. *)
Lemma scopes_disjoint k k' ws ws' :
  kscope k = Some ws → kscope k' = Some ws' → small ws → small ws' → ws ≠ ws' → kenc k ≠ kenc k'.
Proof.
  intros Hk Hk' Hs Hs' Hne [_ E]%kenc_tag. apply Hne.
  assert (∀ k ws, kscope k = Some ws → ∃ rest, components (kparts k) +:+ kraw k = component ws +:+ rest) as Hh.
  { clear. intros k ws Hk. destruct k; cbn in Hk; try discriminate; injection Hk as ->;
      cbn [kparts components foldr]; rewrite ?app_assoc_str; eauto. }
  destruct (Hh _ _ Hk) as [r Er], (Hh _ _ Hk') as [r' Er']. rewrite Er, Er' in E.
  by apply component_app_inj in E as [-> _].
Qed.

(** ** Batches *)

(** A batch as the keys it writes and the records it encodes. *)
Abbreviation bspec := (list (mkey * option string)).

Definition lspec (x : mkey * option string) : LResult BatchOperation :=
  let? v := ljson x.2 in Ok (Put (kenc x.1) v).

Lemma ljson_ok {A} (r : option A) a : ljson r = Ok a → r = Some a.
Proof. by destruct r; intros E; [injection E as ->|discriminate]. Qed.
Lemma lcontract_ok {A} (r : ContractResult A) a : lcontract r = Ok a → r = Ok a.
Proof. by destruct r; intros E; [injection E as ->|discriminate]. Qed.
Lemma lstored_ok {A} (r : Result A) a : lstored r = Ok a → r = Ok a.
Proof. by destruct r; intros E; [injection E as ->|discriminate]. Qed.
Lemma lcorrupt_ok {E A} msg (r : result E A) a : lcorrupt msg r = Ok a → r = Ok a.
Proof. by destruct r; intros Eq; [injection Eq as ->|discriminate]. Qed.
Lemma ok_or_ok {A} (o : option A) e a : ok_or o e = Ok a → o = Some a.
Proof. by destruct o; intros E; [injection E as ->|discriminate]. Qed.

Lemma lseq_spec (L : bspec) ops :
  lseq (lspec <$> L) = Ok ops →
  ∃ l, ops = kputs kenc l ∧ Forall2 (λ x y, x.1 = y.1 ∧ x.2 = Some y.2) L l.
Proof.
  revert ops. induction L as [|[k o] L IH]; intros ops E.
  { injection E as <-. exists []. by split. }
  rewrite fmap_cons in E. apply collect_cons in E as (y & ys & Ey & Eys & ->).
  apply bind_ok in Ey as (v & Ev & Ey). apply ljson_ok in Ev. injection Ey as <-.
  destruct (IH _ Eys) as (l & -> & Hl). exists ((k, v) :: l). split; [done|]. by constructor.
Qed.

Lemma apply_puts_other {K} (enc : K → string) m (l : list (K * string)) key :
  (∀ k v, (k, v) ∈ l → enc k ≠ key) → apply_batch m (kputs enc l) !! key = m !! key.
Proof.
  revert m. induction l as [|[k v] l IH]; intros m Hn; [done|].
  change (apply_batch (<[enc k := v]> m) (kputs enc l) !! key = m !! key).
  rewrite IH by (intros; eapply Hn; by right). apply lookup_insert_ne. eapply Hn. by left.
Qed.

Lemma spec_lookup m ops (L : bspec) k :
  lseq (lspec <$> L) = Ok ops → kok k →
  (∀ x, x ∈ L → ktag x.1 = ktag k → kok x.1) →
  (∀ o o', (k, o) ∈ L → (k, o') ∈ L → o = o') →
  (∃ v, (k, Some v) ∈ L ∧ apply_batch m ops !! kenc k = Some v) ∨
  ((∀ o, (k, o) ∉ L) ∧ apply_batch m ops !! kenc k = m !! kenc k).
Proof.
  intros (l & -> & Hl)%lseq_spec Hk HL Hf. revert m HL Hf.
  induction Hl as [|[k1 o1] [k2 v2] L l [E1 E2] Hl IH]; intros m HL Hf.
  { right. split; [|done]. by intros o ?%elem_of_nil. }
  cbn in E1, E2. subst k2 o1.
  change (apply_batch m (kputs kenc ((k1, v2) :: l)))
    with (apply_batch (<[kenc k1 := v2]> m) (kputs kenc l)).
  destruct (IH (<[kenc k1 := v2]> m)) as [(v & Hv & E)|[Hn E]].
  { intros x Hx. apply HL. by right. } { intros o o' Ho Ho'. apply Hf; by right. }
  { left. exists v. split; [by right|done]. }
  destruct (decide (k1 = k)) as [->|Hne].
  { left. exists v2. split; [by left|]. rewrite E. apply lookup_insert_eq. }
  right. split.
  { intros o [Eo|Ho]%elem_of_cons; [by injection Eo as -> _|by apply (Hn o)]. }
  rewrite E. apply lookup_insert_ne. intros Ek. apply Hne.
  apply kenc_inj; [|done|done]. apply (HL (k1, Some v2)); [by left|]. by destruct (kenc_tag _ _ Ek) as [Et _].
Qed.

(** The records that the guarantees of the ledger are about. *)
Definition tracked (k : mkey) : bool :=
  match k with
  | KMeta _ | KVersion _ _ | KHead _ _ | KLife _ _ | KHist _ _ _ | KMut _ _ | KIdem _ _ _ _
  | KOutbox _ _ | KCheckpoint _ _ | KData _ _ _ | KActiveSet _ | KSet _ _ => true
  | _ => false
  end.

Section codec.
Context `{!LedgerCodec}.

(** What serde_json gives back of a record it wrote. A float of a structured
    fact may be read back differently, so of a version only the fields around
    the content are assumed. *)
Class SerdeLaw (A : Type) `{!Serde A} := { serde_roundtrip (a : A) b : json_of a = Some b → of_json b = Some a }.

Record same_version (v v' : MemoryVersion) : Prop := {
  sv_id : mv_version_id v' = mv_version_id v;
  sv_assertion : mv_assertion_id v' = mv_assertion_id v;
  sv_parents : mv_parent_version_ids v' = mv_parent_version_ids v;
  sv_scope : mv_scope v' = mv_scope v;
  sv_authority : mv_decision_authority v' = mv_decision_authority v;
  sv_sequence : mv_committed_sequence v' = mv_committed_sequence v;
}.

Class LedgerCodecLaws := {
  law_meta :: SerdeLaw WorkspaceMeta;
  law_head :: SerdeLaw MemoryHead;
  law_lifecycle :: SerdeLaw VersionLifecycle;
  law_mutation :: SerdeLaw MemoryMutation;
  law_idempotency :: SerdeLaw IdempotencyRecord;
  law_outbox :: SerdeLaw ProjectionOutboxEntry;
  law_checkpoint :: SerdeLaw ProjectionCheckpoint;
  law_version v b : json_of v = Some b → ∃ v', of_json b = Some v' ∧ same_version v v';
}.

(** ** What a committed operation writes *)

Definition outbox_of (m : MemoryMutation) : ProjectionOutboxEntry :=
  mkOutbox MEMORY_SCHEMA_VERSION (mm_workspace_id m) (mm_committed_sequence m) (mm_mutation_id m)
    (mm_assertion_id m) (reported_versions m).

Definition idem_of (m : MemoryMutation) : IdempotencyRecord :=
  mkIdempotency MEMORY_SCHEMA_VERSION (mm_principal_id m) (mm_workspace_id m) (mm_operation m)
    (mm_idempotency_key_sha256 m) (mm_canonical_request_sha256 m) (mm_policy_decision_id m)
    (mm_mutation_id m) (mm_assertion_id m) (reported_versions m) (mm_committed_sequence m).

Definition idem_key (m : MemoryMutation) : mkey :=
  KIdem (mm_workspace_id m) (mm_principal_id m) (mm_operation m) (mm_idempotency_key_sha256 m).

(** A mutation with the head, the version and the transitions it brings. *)
Record commitment := mkCommitment {
  cm_mutation : MemoryMutation;
  cm_head : option MemoryHead;
  cm_version : option MemoryVersion;
  cm_lifes : list VersionLifecycle;
}.

Definition life_spec (ws : string) (n : Z) (l : VersionLifecycle) : bspec :=
  [(KLife ws (lc_version_id l), json_of l); (KHist ws (lc_version_id l) n, json_of l)].

Definition commitment_spec (c : commitment) : bspec :=
  let m := cm_mutation c in
  let ws := mm_workspace_id m in
  let n := mm_committed_sequence m in
  [(KMeta ws, json_of (mkMeta MEMORY_SCHEMA_VERSION ws n)); (KMut ws n, json_of m);
   (KOutbox ws n, json_of (outbox_of m)); (idem_key m, json_of (idem_of m))]
  ++ match cm_head c with Some h => [(KHead ws (hd_assertion_id h), json_of h)] | None => [] end
  ++ match cm_version c with Some v => [(KVersion ws (mv_version_id v), json_of v)] | None => [] end
  ++ mjoin (life_spec ws n <$> cm_lifes c).

Record commitment_ok `{!ContentCodec, !Sha256} (c : commitment) : Prop := {
  co_sequence : 1 ≤ mm_committed_sequence (cm_mutation c) ≤ u64_max;
  co_mutation : memory_mutation_validate (cm_mutation c) = Ok tt;
  co_outbox : outbox_validate (outbox_of (cm_mutation c)) = Ok tt;
  co_idem : idempotency_validate (idem_of (cm_mutation c)) = Ok tt;
  co_head h : cm_head c = Some h →
    head_validate h = Ok tt ∧ hd_workspace_id h = mm_workspace_id (cm_mutation c) ∧
    hd_assertion_id h = mm_assertion_id (cm_mutation c);
  co_version v : cm_version c = Some v →
    version_validate v = Ok tt ∧ ms_workspace_id (mv_scope v) = mm_workspace_id (cm_mutation c) ∧
    mv_assertion_id v = mm_assertion_id (cm_mutation c);
  co_life l : l ∈ cm_lifes c →
    lifecycle_validate l = Ok tt ∧ lc_workspace_id l = mm_workspace_id (cm_mutation c) ∧
    lc_transition_sequence l = mm_committed_sequence (cm_mutation c);
  co_distinct : NoDup (lc_version_id <$> cm_lifes c);
}.

(** The batch of a commitment, in its workspace: its records, and others the
    guarantees are not about. *)
Definition tracked_part (L : bspec) : bspec := List.filter (λ x, tracked x.1) L.

Definition commits (c : commitment) (ops : list BatchOperation) : Prop :=
  ∃ L, lseq (lspec <$> L) = Ok ops ∧ tracked_part L ≡ₚ commitment_spec c ∧
    Forall (λ x, kscope x.1 = Some (mm_workspace_id (cm_mutation c))) L.
End codec.

(** ** What validation gives *)

Lemma text_ok f v n : MemoryContracts.validate_text f v n = Ok tt → byte_len v ≤ n.
Proof.
  unfold MemoryContracts.validate_text. intros V. binds V. rewrite Z.gtb_ltb, Z.ltb_ge in E1. exact E1.
Qed.

Lemma identifier_ok f v n : MemoryContracts.validate_identifier f v n = Ok tt → byte_len v ≤ n.
Proof. unfold MemoryContracts.validate_identifier. intros V. binds V. by apply text_ok in E. Qed.

Lemma id_small f v : MemoryContracts.validate_identifier f v MAX_MEMORY_ID_BYTES = Ok tt → small v.
Proof. intros V%identifier_ok. unfold small, MAX_MEMORY_ID_BYTES in *. lia. Qed.

Lemma scope_id_small f v : MemoryContracts.validate_identifier f v MAX_MEMORY_SCOPE_BYTES = Ok tt → small v.
Proof. intros V%identifier_ok. unfold small, MAX_MEMORY_SCOPE_BYTES in *. lia. Qed.

Lemma sha_small f v : MemoryContracts.validate_sha256 f v = Ok tt → small v.
Proof.
  unfold MemoryContracts.validate_sha256, is_sha256, small. intros V. binds V.
  apply negb_false_iff, andb_true_iff in E as [E _]. apply Z.eqb_eq in E. lia.
Qed.

Lemma local_id_small f v : validate_local_id f v = Ok tt → small v.
Proof.
  unfold validate_local_id, LedgerModel.validate_text, small, MAX_MEMORY_ID_BYTES. intros V. binds V.
  destruct (_ || _ || _ || _) eqn:C; [discriminate|]. rewrite !orb_false_iff in C.
  destruct C as [[_ C] _]. rewrite Z.gtb_ltb, Z.ltb_ge in C. lia.
Qed.

Lemma distinct_ok check dup seen l :
  validate_distinct check dup seen l = Ok tt →
  NoDup l ∧ (∀ x, x ∈ l → x ∉ seen ∧ check x = Ok tt).
Proof.
  revert seen. induction l as [|x l IH]; intros seen V; cbn [validate_distinct] in V.
  { split; [constructor|]. by intros x ?%elem_of_nil. }
  binds V. destruct (IH _ V) as [Hnd Hc]. split.
  - constructor; [|done]. intros Hx. destruct (Hc x Hx) as [Hn _]. set_solver.
  - intros y [->|Hy]%elem_of_cons; [done|]. destruct (Hc y Hy) as [Hn ?]. split; [set_solver|done].
Qed.

Lemma unique_ids_ok f l : validate_unique_ids f l = Ok tt → NoDup l ∧ Forall small l.
Proof.
  intros [Hnd Hc]%distinct_ok. split; [done|]. apply Forall_forall. intros x Hx.
  destruct (Hc x Hx) as [_ V]. by apply id_small in V.
Qed.

Lemma mutation_small m :
  memory_mutation_validate m = Ok tt →
  small (mm_workspace_id m) ∧ small (mm_assertion_id m) ∧ small (mm_principal_id m) ∧
  small (mm_idempotency_key_sha256 m) ∧ mm_schema_version m = MEMORY_SCHEMA_VERSION.
Proof.
  unfold memory_mutation_validate. intros V. binds V.
  apply scope_id_small in E1. apply id_small in E2, E9. apply sha_small in E7.
  unfold MemoryContracts.validate_schema_version in E. binds E.
  apply negb_false_iff, Z.eqb_eq in E15. done.
Qed.

Lemma head_ok h :
  head_validate h = Ok tt →
  small (hd_workspace_id h) ∧ small (hd_assertion_id h) ∧ NoDup (hd_active_version_ids h) ∧
  Forall small (hd_active_version_ids h).
Proof.
  unfold head_validate. intros V. binds V. apply scope_id_small in E0. apply id_small in E1.
  by apply unique_ids_ok in E3.
Qed.

Lemma lifecycle_ok l : lifecycle_validate l = Ok tt → small (lc_workspace_id l) ∧ small (lc_version_id l).
Proof. unfold lifecycle_validate. intros V. binds V. by apply scope_id_small in E0; apply id_small in E1. Qed.

Lemma version_ok `{!ContentCodec, !Sha256} v :
  version_validate v = Ok tt →
  small (mv_version_id v) ∧ small (mv_assertion_id v) ∧ mv_version_id v ∉ mv_parent_version_ids v.
Proof.
  unfold version_validate. intros V. binds V. apply id_small in E0, E1. split_and!; [done..|].
  intros Hin. apply eq_true_false_abs in E4; [done|].
  apply existsb_exists. exists (mv_version_id v). split; [by apply list_elem_of_In|apply String.eqb_refl].
Qed.

(** Keys of validated parts. *)
Ltac kok_tac :=
  unfold kok; cbn [fst kparts knum]; rewrite ?Forall_cons, ?Forall_nil;
  split_and?; auto using seq8_small, operation_small; done.

(** ** The records after a commitment *)

Section effect.
Context `{!LedgerCodec, !ContentCodec, !Sha256}.

Lemma elem_of_lifes ws n lifes x :
  x ∈ mjoin (life_spec ws n <$> lifes) ↔
  ∃ l, l ∈ lifes ∧ (x = (KLife ws (lc_version_id l), json_of l) ∨
                    x = (KHist ws (lc_version_id l) n, json_of l)).
Proof.
  rewrite list_elem_of_join. setoid_rewrite list_elem_of_fmap. split.
  - intros (L & Hx & l & -> & Hl). exists l. split; [done|]. set_solver.
  - intros (l & Hl & Hx). exists (life_spec ws n l). split; [|by exists l]. set_solver.
Qed.

Lemma commitment_spec_ok c x : commitment_ok c → x ∈ commitment_spec c → kok x.1.
Proof.
  intros Hc. unfold commitment_spec. destruct (mutation_small _ (co_mutation _ Hc)) as (Hw & Ha & Hp & Hk & _).
  pose proof (co_sequence _ Hc) as Hn.
  assert (is_u64 (mm_committed_sequence (cm_mutation c))) as Hu by (unfold in_range; lia).
  assert (is_u64 0) as Hz by (by vm_compute).
  rewrite !elem_of_app. intros [Hx|[Hx|[Hx|Hx]]].
  - repeat (apply elem_of_cons in Hx as [->|Hx]; [unfold idem_key; kok_tac|]).
    by apply elem_of_nil in Hx.
  - destruct (cm_head c) as [h|] eqn:Eh; [|by apply elem_of_nil in Hx].
    apply list_elem_of_singleton in Hx as ->. destruct (co_head _ Hc h Eh) as (Vh & _ & _).
    apply head_ok in Vh as (? & ? & _). kok_tac.
  - destruct (cm_version c) as [v|] eqn:Ev; [|by apply elem_of_nil in Hx].
    apply list_elem_of_singleton in Hx as ->. destruct (co_version _ Hc v Ev) as (Vv & _ & _).
    apply version_ok in Vv as (? & _). kok_tac.
  - apply elem_of_lifes in Hx as (l & Hl & Hx). destruct (co_life _ Hc l Hl) as (Vl & _ & _).
    apply lifecycle_ok in Vl as [_ Vl]. destruct Hx as [-> | ->]; kok_tac.
Qed.

Lemma commitment_spec_fun c k o o' :
  commitment_ok c → (k, o) ∈ commitment_spec c → (k, o') ∈ commitment_spec c → o = o'.
Proof.
  intros Hc. unfold commitment_spec, idem_key. rewrite !elem_of_app, !elem_of_lifes.
  assert (∀ l l', l ∈ cm_lifes c → l' ∈ cm_lifes c → lc_version_id l = lc_version_id l' → l = l') as Hl.
  { intros l l' ? ? E. by apply (NoDup_fmap_elem_inj lc_version_id (cm_lifes c)); [apply Hc|..]. }
  intros [Hx|[Hx|[Hx|(l & Hin & Hx)]]] [Hy|[Hy|[Hy|(l' & Hin' & Hy)]]];
    rewrite ?elem_of_cons, ?elem_of_nil in Hx; rewrite ?elem_of_cons, ?elem_of_nil in Hy;
    try (destruct (cm_head c); rewrite ?elem_of_cons, ?elem_of_nil in Hx; rewrite ?elem_of_cons, ?elem_of_nil in Hy);
    try (destruct (cm_version c); rewrite ?elem_of_cons, ?elem_of_nil in Hx; rewrite ?elem_of_cons, ?elem_of_nil in Hy);
    destruct_or?; simplify_eq; try done; f_equal; by apply Hl.
Qed.

Lemma commitment_lookup c ops m k :
  commitment_ok c → commits c ops → kok k → tracked k = true →
  (∃ v, (k, Some v) ∈ commitment_spec c ∧ apply_batch m ops !! kenc k = Some v) ∨
  ((∀ o, (k, o) ∉ commitment_spec c) ∧ apply_batch m ops !! kenc k = m !! kenc k).
Proof.
  intros Hc (L & HL & HP & _) Hk Ht.
  assert (∀ x, tracked x.1 = true → x ∈ L ↔ x ∈ commitment_spec c) as HL'.
  { intros x Hx. rewrite <-HP. unfold tracked_part. rewrite !list_elem_of_In, List.filter_In. naive_solver. }
  assert (∀ o, (k, o) ∈ L ↔ (k, o) ∈ commitment_spec c) as Hiff by (intros o; by apply HL').
  assert (∀ t t', ktag t = ktag t' → tracked t = tracked t') as Htag.
  { intros [] [] E; discriminate || reflexivity. }
  destruct (spec_lookup m ops L k HL Hk) as [(v & Hv & E)|[Hn E]].
  - intros x Hx Et. apply (commitment_spec_ok c); [done|]. apply HL'; [|done]. by rewrite (Htag _ _ Et).
  - intros o o' Ho Ho'. apply (commitment_spec_fun c k); [done|by apply Hiff..].
  - left. exists v. by rewrite <-Hiff.
  - right. split; [|done]. intros o. by rewrite <-Hiff.
Qed.

(** Nothing outside the workspace changes. *)
Lemma commitment_other_scope c ops m k ws :
  commitment_ok c → commits c ops → kscope k = Some ws → small ws → ws ≠ mm_workspace_id (cm_mutation c) →
  apply_batch m ops !! kenc k = m !! kenc k.
Proof.
  intros Hc (L & HL & _ & HLs) Hk Hs Hne. rewrite Forall_forall in HLs.
  destruct (mutation_small _ (co_mutation _ Hc)) as (Hw & _).
  apply lseq_spec in HL as (l & -> & Hl). apply apply_puts_other. intros k' v Hin.
  apply list_elem_of_lookup_1 in Hin as [i Hi].
  destruct (Forall2_lookup_r _ _ _ _ _ Hl Hi) as ([k1 o] & Hi' & E1 & _).
  cbn in E1. subst k1. apply list_elem_of_lookup_2 in Hi'. apply HLs in Hi'. cbn in Hi'.
  eapply scopes_disjoint; [done|done|done|done|]. congruence.
Qed.
End effect.

(** ** The commitments of the operations *)

Section operations.
Context `{!UnicodeNormalization, !CharTables, !ContentCodec, !LedgerCodec, !Sha256}.

(** A batch that commits a mutation of the given request at the given number. *)
Record commit_of (ws principal : string) (o : MemoryOperation) (key_sha request_sha : string) (n : Z)
    (c : commitment) (ops : list BatchOperation) : Prop := {
  cf_ok : commitment_ok c;
  cf_ops : commits c ops;
  cf_workspace : mm_workspace_id (cm_mutation c) = ws;
  cf_principal : mm_principal_id (cm_mutation c) = principal;
  cf_operation : mm_operation (cm_mutation c) = o;
  cf_key : mm_idempotency_key_sha256 (cm_mutation c) = key_sha;
  cf_request : mm_canonical_request_sha256 (cm_mutation c) = request_sha;
  cf_sequence : mm_committed_sequence (cm_mutation c) = n;
}.

(** A receipt reports a mutation. *)
Record receipt_of (m : MemoryMutation) (r : CommitMemoryReceipt) : Prop := {
  ro_mutation : rc_mutation_id r = mm_mutation_id m;
  ro_assertion : rc_assertion_id r = mm_assertion_id m;
  ro_versions : rc_version_ids r = reported_versions m;
  ro_sequence : rc_commit_sequence r = mm_committed_sequence m;
  ro_policy : rc_policy_decision_id r = mm_policy_decision_id m;
}.

Record observe_receipt_of (m : MemoryMutation) (r : ObserveMemoryReceipt) : Prop := {
  oo_mutation : oc_mutation_id r = mm_mutation_id m;
  oo_observation : oc_observation_id r = mm_assertion_id m;
  oo_evidence : [oc_evidence_id r] = reported_versions m;
  oo_sequence : oc_commit_sequence r = mm_committed_sequence m;
  oo_policy : oc_policy_decision_id r = mm_policy_decision_id m;
}.

Lemma transitions_ok ws st n mid vids ls :
  transitions ws st n mid vids = Ok ls →
  ls = (λ v, mkLifecycle MEMORY_SCHEMA_VERSION ws v st n mid) <$> vids ∧
  Forall (λ l, lifecycle_validate l = Ok tt) ls.
Proof.
  revert ls. induction vids as [|v vids IH]; intros ls E; cbn [transitions] in E.
  { injection E as <-. by split. }
  binds E. apply lcontract_ok in E0. destruct (IH _ E1) as [-> ?]. injection E as <-. split; [done|].
  by constructor.
Qed.

Lemma lifes_ids ws st n mid (vids : list string) :
  lc_version_id <$> ((λ v, mkLifecycle MEMORY_SCHEMA_VERSION ws v st n mid) <$> vids) = vids.
Proof. rewrite <-list_fmap_compose. by apply list_fmap_id. Qed.

Lemma supersede_relations_ok uuid i ws vid mid n heads rs :
  supersede_relations uuid i ws vid mid n heads = Ok rs → vid ∉ heads ∧ length rs = length heads.
Proof.
  revert i rs. induction heads as [|h heads IH]; intros i rs E; cbn [supersede_relations] in E.
  { injection E as <-. split; [apply not_elem_of_nil|done]. }
  binds E. apply lcontract_ok in E0. destruct (IH _ _ E1) as [? Hl]. injection E as <-.
  split; [|cbn; lia]. rewrite not_elem_of_cons. split; [|done]. intros ->.
  unfold relation_validate in E0. cbn in E0. rewrite String.eqb_refl in E0. by binds E0.
Qed.

(** Puts as specifications of batches. *)
Lemma join_spec {A} (f : A → list (LResult BatchOperation)) (g : A → bspec) l :
  (∀ a, f a = lspec <$> g a) → mjoin (f <$> l) = lspec <$> mjoin (g <$> l).
Proof.
  intros Hf. induction l as [|a l IH]; [done|].
  change (f a ++ mjoin (f <$> l) = lspec <$> (g a ++ mjoin (g <$> l))). by rewrite fmap_app, <-IH, Hf.
Qed.

Lemma lifecycle_puts_spec ws n ls :
  mjoin (lifecycle_puts ws n <$> ls) = lspec <$> mjoin (life_spec ws n <$> ls).
Proof. apply join_spec. by intros l. Qed.

Definition relation_spec (ws : string) (r : MemoryRelation) : bspec :=
  [(KRelation ws (rl_relation_id r), json_of r);
   (KRelationBy ws (rl_from_version_id r) (rl_relation_id r), json_of r);
   (KRelationBy ws (rl_to_version_id r) (rl_relation_id r), json_of r)].

Lemma relation_puts_spec ws rs :
  mjoin (relation_puts ws <$> rs) = lspec <$> mjoin (relation_spec ws <$> rs).
Proof. apply join_spec. by intros r. Qed.

Definition evidence_spec (ws : string) (e : EvidenceRecord) : mkey * option string :=
  (KEvidence ws (ev_evidence_id e), json_of e).

Lemma evidence_puts_spec ws (es : list EvidenceRecord) :
  ((λ e, put_record (evidence_key ws (ev_evidence_id e)) e) <$> es) = lspec <$> (evidence_spec ws <$> es).
Proof. by rewrite <-list_fmap_compose. Qed.

Definition derivation_spec (ws : string) (o : option DerivationRecord) : bspec :=
  match o with Some x => [(KDerivation ws (dv_derivation_id x), json_of x)] | None => [] end.

Lemma derivation_puts_spec ws o :
  match o with Some x => [put_record (derivation_key ws (dv_derivation_id x)) x] | None => [] end
  = lspec <$> derivation_spec ws o.
Proof. by destruct o. Qed.

Lemma tracked_derivation ws o : tracked_part (derivation_spec ws o) = [].
Proof. by destruct o. Qed.

Lemma tracked_app (L K : bspec) : tracked_part (L ++ K) = tracked_part L ++ tracked_part K.
Proof. apply List.filter_app. Qed.

Lemma tracked_lifes ws n ls : tracked_part (mjoin (life_spec ws n <$> ls)) = mjoin (life_spec ws n <$> ls).
Proof.
  induction ls as [|l ls IH]; [done|]. change (mjoin (life_spec ws n <$> l :: ls))
    with (life_spec ws n l ++ mjoin (life_spec ws n <$> ls)). by rewrite tracked_app, IH.
Qed.

Lemma lifes_app ws n ls ls' :
  mjoin (life_spec ws n <$> (ls ++ ls')) = mjoin (life_spec ws n <$> ls) ++ mjoin (life_spec ws n <$> ls').
Proof.
  induction ls as [|l ls IH]; [done|].
  change (life_spec ws n l ++ mjoin (life_spec ws n <$> (ls ++ ls'))
    = life_spec ws n l ++ mjoin (life_spec ws n <$> ls) ++ mjoin (life_spec ws n <$> ls')). by rewrite IH.
Qed.

Lemma tracked_relations ws rs : tracked_part (mjoin (relation_spec ws <$> rs)) = [].
Proof.
  induction rs as [|r rs IH]; [done|]. change (mjoin (relation_spec ws <$> r :: rs))
    with (relation_spec ws r ++ mjoin (relation_spec ws <$> rs)). by rewrite tracked_app, IH.
Qed.

Lemma tracked_evidence ws (es : list EvidenceRecord) : tracked_part (evidence_spec ws <$> es) = [].
Proof. by induction es. Qed.

Lemma join_Forall {A B} (P : B → Prop) (f : A → list B) l :
  (∀ a, Forall P (f a)) → Forall P (mjoin (f <$> l)).
Proof.
  intros Hf. induction l as [|a l IH]; [constructor|].
  change (Forall P (f a ++ mjoin (f <$> l))). by apply Forall_app.
Qed.

(** The parts of a batch are in the workspace. *)
Ltac scope_tac :=
  repeat first
    [ apply Forall_app_2
    | apply join_Forall; intros ?; by repeat constructor
    | apply Forall_fmap, Forall_true; done
    | match goal with |- Forall _ (derivation_spec _ ?o) => by destruct o; repeat constructor end
    | by repeat constructor ].

Lemma observe_commit_ok uuid r key_sha request_sha n rc b :
  observe_commit uuid r key_sha request_sha n = Ok (rc, b) → 1 ≤ n ≤ u64_max →
  ∃ c ops, b = Some ops ∧
    commit_of (ms_workspace_id (or_scope r)) (or_principal_id r) MObserve key_sha request_sha n c ops ∧
    cm_head c = None ∧ cm_version c = None ∧ cm_lifes c = [] ∧
    oc_outcome rc = Committed ∧ observe_receipt_of (cm_mutation c) rc.
Proof.
  unfold observe_commit. intros E Hn. binds E.
  apply lcontract_ok in E0, E1, E2, E3, E4, E5.
  match type of E2 with memory_mutation_validate ?m = _ => set (mu := m) in * end.
  match type of E6 with lseq ?l = _ =>
    match l with [_; put_record (observation_key ?ws ?oid) ?o; _; put_record _ ?ev; _; _; _; _; put_record _ ?pd] =>
    exists (mkCommitment mu None None []);
    assert (l = lspec <$> [(KMeta ws, json_of (mkMeta MEMORY_SCHEMA_VERSION ws n));
        (KObservation ws oid, json_of o); (KObservationBy ws (ob_evidence_id o), json_of o);
        (KEvidence ws (ob_evidence_id o), json_of ev); (KMut ws n, json_of mu);
        (KMutId ws (mm_mutation_id mu), json_of mu); (KOutbox ws n, json_of (outbox_of mu));
        (idem_key mu, json_of (idem_of mu));
        (KPolicy ws (or_policy_decision_id r), json_of pd)]) as El by reflexivity end end.
  rewrite El in E6. injection E as <- <-.
  eexists. split; [reflexivity|]. split_and!; try done. split; try done.
  - split; try done; [by intros l ?%elem_of_nil|constructor].
  - eexists. split; [exact E6|]. split; [done|by repeat constructor].
Qed.

Definition life_states (ls : list VersionLifecycle) : list (string * VersionState) :=
  (λ l, (lc_version_id l, lc_state l)) <$> ls.

Lemma life_states_of ws st n mid (vids : list string) :
  life_states ((λ v, mkLifecycle MEMORY_SCHEMA_VERSION ws v st n mid) <$> vids) = (λ v, (v, st)) <$> vids.
Proof. unfold life_states. by rewrite <-list_fmap_compose. Qed.

(** The transitions of a commitment: new ones of [vids1] and of [vids2]. *)
Lemma lifes_valid ws n st1 st2 mid (vids1 vids2 : list string) ls1 ls2 l :
  transitions ws st1 n mid vids1 = Ok ls1 → transitions ws st2 n mid vids2 = Ok ls2 → l ∈ ls1 ++ ls2 →
  lifecycle_validate l = Ok tt ∧ lc_workspace_id l = ws ∧ lc_transition_sequence l = n.
Proof.
  intros [-> V1]%transitions_ok [-> V2]%transitions_ok. rewrite Forall_forall in V1, V2.
  intros [Hl|Hl]%elem_of_app; (split; [by auto|]); by apply list_elem_of_fmap in Hl as (v & -> & _).
Qed.

Definition version_op (o : MemoryOperation) : Prop := o = MCommit ∨ o = MCorrect ∨ o = MPropose.

Lemma version_commit_ok uuid r d aid ihash key_sha request_sha n existing heads firewall rc b :
  version_commit uuid r d aid ihash key_sha request_sha n existing heads firewall = Ok (rc, b) →
  1 ≤ n ≤ u64_max → NoDup heads → version_op (d_operation d) →
  ∃ c ops h v, b = Some ops ∧
    commit_of (ms_workspace_id (cr_scope r)) (cr_principal_id r) (d_operation d) key_sha request_sha n c ops ∧
    mm_assertion_id (cm_mutation c) = aid ∧
    cm_head c = Some h ∧
    hd_active_version_ids h = (if d_changes_head d then [new_id uuid 1 "mem_v"] else heads) ∧
    cm_version c = Some v ∧ mv_version_id v = new_id uuid 1 "mem_v" ∧
    mv_decision_authority v = cr_decision_authority r ∧
    life_states (cm_lifes c) = (new_id uuid 1 "mem_v", d_initial_state d)
      :: (if d_changes_head d then (λ x, (x, Superseded)) <$> heads else []) ∧
    new_id uuid 1 "mem_v" ∉ heads ∧
    rc_outcome rc = Committed ∧ rc_version_state rc = d_initial_state d ∧ receipt_of (cm_mutation c) rc.
Proof.
  unfold version_commit. intros E Hn Hnd Ho. binds E.
  apply lcontract_ok in E1, E3, E4, E5, E7, E8, E10.
  match type of E3 with version_validate ?m = _ => set (v := m) in * end.
  match type of E4 with memory_mutation_validate ?m = _ => set (mu := m) in * end.
  match type of E5 with head_validate ?m = _ => set (h := m) in * end.
  match type of E10 with policy_decision_validate ?m = _ => set (pd := m) in * end.
  set (ws := ms_workspace_id (cr_scope r)) in *. set (vid := new_id uuid 1 "mem_v") in *.
  set (mid := new_id uuid 0 "mem_m") in *.
  destruct (version_ok v E3) as (_ & _ & Hvid). change (vid ∉ heads) in Hvid.
  assert (reported_versions mu = [vid]) as Hrep.
  { unfold reported_versions. cbn [mm_operation mu]. by destruct Ho as [-> |[-> | ->]]. }
  assert (outbox_of mu = mkOutbox MEMORY_SCHEMA_VERSION ws n mid aid [vid]) as Hox
    by (unfold outbox_of; by rewrite Hrep).
  assert (idem_of mu = mkIdempotency MEMORY_SCHEMA_VERSION (cr_principal_id r) ws (d_operation d) key_sha
            request_sha (cr_policy_decision_id r) mid aid [vid] n) as Hir
    by (unfold idem_of; by rewrite Hrep).
  set (sup := if d_changes_head d then heads else []) in *.
  assert (transitions ws Superseded n mid sup = Ok x12) as E13' by (unfold sup; by destruct (d_changes_head d)).
  rewrite derivation_puts_spec, !lifecycle_puts_spec, relation_puts_spec, evidence_puts_spec in E14.
  exists (mkCommitment mu (Some h) (Some v) (x5 ++ x12)). injection E as <- <-.
  eexists _, h, v. split; [reflexivity|]. split_and!; try done.
  - split; try done.
    + split; try done; cbn [cm_head cm_version cm_mutation cm_lifes].
      * by rewrite Hox.
      * by rewrite Hir.
      * intros ? [= <-]. done.
      * intros ? [= <-]. done.
      * intros l Hl. by apply (lifes_valid ws n _ _ mid _ _ _ _ l E6 E13').
      * apply transitions_ok in E6 as [-> _]. apply transitions_ok in E13' as [-> _].
        rewrite fmap_app, !lifes_ids. cbn [app]. unfold sup. destruct (d_changes_head d); repeat constructor; auto.
        by apply not_elem_of_nil.
    + eexists ([(KMeta ws, _); (KAssertion ws aid, _); (KVersion ws vid, _); (KHead ws aid, _)]
        ++ mjoin (life_spec ws n <$> x5)
        ++ [(KMut ws n, _); (KMutId ws mid, _); (KOutbox ws n, _); (idem_key mu, _); (KPolicy ws _, _)]
        ++ derivation_spec ws _ ++ mjoin (relation_spec ws <$> x11) ++ (evidence_spec ws <$> x1)
        ++ mjoin (life_spec ws n <$> x12)).
      split; [rewrite !fmap_app; exact E14|]. split; [|scope_tac].
      rewrite !tracked_app, !tracked_lifes, tracked_relations, tracked_evidence, tracked_derivation.
      unfold commitment_spec. cbn [cm_head cm_version cm_lifes cm_mutation]. rewrite lifes_app, Hox, Hir.
      cbn [tracked_part List.filter fst tracked idem_key]. solve_Permutation.
  - unfold life_states. cbn [cm_lifes]. rewrite fmap_app.
    apply transitions_ok in E6 as [-> _]. apply transitions_ok in E13' as [-> _].
    rewrite <-!list_fmap_compose. unfold sup. by destruct (d_changes_head d).
Qed.

Lemma zip_puts_spec ws n ls rs :
  mjoin (zip_with (λ l x, lifecycle_puts ws n l ++ relation_puts ws x) ls rs)
  = lspec <$> mjoin (zip_with (λ l x, life_spec ws n l ++ relation_spec ws x) ls rs).
Proof.
  revert rs. induction ls as [|l ls IH]; intros [|x rs]; try done.
  change ((lifecycle_puts ws n l ++ relation_puts ws x)
    ++ mjoin (zip_with (λ l x, lifecycle_puts ws n l ++ relation_puts ws x) ls rs)
    = lspec <$> ((life_spec ws n l ++ relation_spec ws x)
    ++ mjoin (zip_with (λ l x, life_spec ws n l ++ relation_spec ws x) ls rs))).
  by rewrite IH, !fmap_app.
Qed.

Lemma tracked_zip ws n ls rs :
  length ls = length rs →
  tracked_part (mjoin (zip_with (λ l x, life_spec ws n l ++ relation_spec ws x) ls rs))
  = mjoin (life_spec ws n <$> ls) ∧
  Forall (λ x, kscope x.1 = Some ws) (mjoin (zip_with (λ l x, life_spec ws n l ++ relation_spec ws x) ls rs)).
Proof.
  revert rs. induction ls as [|l ls IH]; intros [|x rs] Hl; try discriminate; [by split|].
  destruct (IH rs) as [IH1 IH2]; [by injection Hl|].
  change (mjoin (zip_with (λ l x, life_spec ws n l ++ relation_spec ws x) (l :: ls) (x :: rs)))
    with ((life_spec ws n l ++ relation_spec ws x)
      ++ mjoin (zip_with (λ l x, life_spec ws n l ++ relation_spec ws x) ls rs)).
  split; [by rewrite !tracked_app, IH1|]. apply Forall_app_2; [by repeat constructor|done].
Qed.

Lemma proposal_commit_ok uuid r v heads key_sha request_sha n rc b :
  proposal_commit uuid r v heads key_sha request_sha n = Ok (rc, b) → 1 ≤ n ≤ u64_max → NoDup heads →
  ∃ c ops h, b = Some ops ∧
    commit_of (pr_workspace_id r) (pr_principal_id r) MCommit key_sha request_sha n c ops ∧
    mm_assertion_id (cm_mutation c) = mv_assertion_id v ∧
    cm_head c = Some h ∧ hd_active_version_ids h = [mv_version_id v] ∧ cm_version c = None ∧
    life_states (cm_lifes c) = (mv_version_id v, Active) :: ((λ x, (x, Superseded)) <$> heads) ∧
    mv_version_id v ∉ heads ∧
    rc_outcome rc = Committed ∧ rc_version_state rc = Active ∧ receipt_of (cm_mutation c) rc.
Proof.
  unfold proposal_commit. intros E Hn Hnd. binds E.
  apply lcontract_ok in E0, E1, E3, E4, E5.
  match type of E0 with memory_mutation_validate ?m = _ => set (mu := m) in * end.
  match type of E1 with head_validate ?m = _ => set (h := m) in * end.
  set (ws := pr_workspace_id r) in *. set (vid := mv_version_id v) in *. set (aid := mv_assertion_id v) in *.
  set (mid := new_id uuid 0 "mem_m") in *.
  destruct (supersede_relations_ok _ _ _ _ _ _ _ _ E7) as [Hvid Hlen].
  rewrite lifecycle_puts_spec, zip_puts_spec in E8.
  exists (mkCommitment mu (Some h) None (x1 ++ x5)). injection E as <- <-.
  eexists _, h. split; [reflexivity|]. split_and!; try done.
  - split; try done.
    + split; try done; cbn [cm_head cm_version cm_mutation cm_lifes].
      * intros ? [= <-]. done.
      * intros l Hl. by apply (lifes_valid ws n _ _ mid _ _ _ _ l E2 E6).
      * apply transitions_ok in E2 as [-> _]. apply transitions_ok in E6 as [-> _].
        rewrite fmap_app, !lifes_ids. by constructor.
    + assert (length x5 = length x6) as Hl5.
      { apply transitions_ok in E6 as [-> _]. by rewrite length_fmap. }
      destruct (tracked_zip ws n x5 x6 Hl5) as [Tz Sz].
      eexists ([(KMeta ws, _); (KHead ws aid, _)] ++ mjoin (life_spec ws n <$> x1)
        ++ [(KMut ws n, _); (KMutId ws mid, _); (KOutbox ws n, _); (idem_key mu, _); (KPolicy ws _, _)]
        ++ mjoin (zip_with (λ l x, life_spec ws n l ++ relation_spec ws x) x5 x6)).
      split; [rewrite !fmap_app; exact E8|]. split; [|by repeat apply Forall_app_2; [scope_tac..|done]].
      rewrite !tracked_app, !tracked_lifes, Tz.
      unfold commitment_spec. cbn [cm_head cm_version cm_lifes cm_mutation]. rewrite lifes_app.
      cbn [tracked_part List.filter fst tracked idem_key]. solve_Permutation.
  - unfold life_states. cbn [cm_lifes]. rewrite fmap_app.
    apply transitions_ok in E2 as [-> _]. apply transitions_ok in E6 as [-> _].
    by rewrite <-!list_fmap_compose.
Qed.

Lemma reinforce_commit_ok uuid r v st key_sha request_sha n rc b :
  reinforce_commit uuid r v st key_sha request_sha n = Ok (rc, b) → 1 ≤ n ≤ u64_max →
  ∃ c ops, b = Some ops ∧
    commit_of (rr_workspace_id r) (rr_principal_id r) MReinforce key_sha request_sha n c ops ∧
    cm_head c = None ∧ cm_version c = None ∧ cm_lifes c = [] ∧
    rc_outcome rc = Committed ∧ receipt_of (cm_mutation c) rc.
Proof.
  unfold reinforce_commit. intros E Hn. binds E.
  apply lcontract_ok in E1, E2, E3, E4, E5.
  match type of E2 with memory_mutation_validate ?m = _ => set (mu := m) in * end.
  set (ws := rr_workspace_id r) in *. rewrite evidence_puts_spec in E6.
  exists (mkCommitment mu None None []). injection E as <- <-.
  eexists. split; [reflexivity|]. split_and!; try done. split; try done.
  - split; try done; [by intros l ?%elem_of_nil|constructor].
  - eexists ([(KMeta ws, _); (KReinforcement ws _ _, _); (KMut ws n, _); (KMutId ws (mm_mutation_id mu), _);
        (KOutbox ws n, _); (idem_key mu, _); (KPolicy ws _, _)] ++ (evidence_spec ws <$> x)).
    split; [rewrite fmap_app; exact E6|]. split; [|scope_tac].
    by rewrite tracked_app, tracked_evidence.
Qed.

Definition inactive_op (o : MemoryOperation) : Prop := o = MForget ∨ o = MRetract.

Lemma inactive_commit_ok uuid r d heads targets key_sha request_sha n rc b :
  inactive_commit uuid r d heads targets key_sha request_sha n = Ok (rc, b) → 1 ≤ n ≤ u64_max →
  NoDup targets → inactive_op (l_operation d) →
  ∃ c ops h, b = Some ops ∧
    commit_of (fr_workspace_id r) (fr_principal_id r) (l_operation d) key_sha request_sha n c ops ∧
    mm_assertion_id (cm_mutation c) = fr_assertion_id r ∧
    cm_head c = Some h ∧ hd_active_version_ids h = base.filter (λ v, v ∉ targets) heads ∧
    cm_version c = None ∧ life_states (cm_lifes c) = (λ x, (x, l_state d)) <$> targets ∧
    rc_outcome rc = Committed ∧ rc_version_state rc = l_state d ∧ receipt_of (cm_mutation c) rc.
Proof.
  unfold inactive_commit. intros E Hn Hnd Ho. binds E.
  apply lcontract_ok in E0, E1, E2, E3, E4.
  match type of E0 with memory_mutation_validate ?m = _ => set (mu := m) in * end.
  match type of E1 with head_validate ?m = _ => set (h := m) in * end.
  set (ws := fr_workspace_id r) in *. set (aid := fr_assertion_id r) in *. set (mid := new_id uuid 0 "mem_m") in *.
  assert (reported_versions mu = targets) as Hrep.
  { unfold reported_versions. cbn [mm_operation mu]. by destruct Ho as [-> | ->]. }
  assert (outbox_of mu = mkOutbox MEMORY_SCHEMA_VERSION ws n mid aid targets) as Hox
    by (unfold outbox_of; by rewrite Hrep).
  assert (idem_of mu = mkIdempotency MEMORY_SCHEMA_VERSION (fr_principal_id r) ws (l_operation d) key_sha
            request_sha (fr_policy_decision_id r) mid aid targets n) as Hir
    by (unfold idem_of; by rewrite Hrep).
  rewrite lifecycle_puts_spec in E6.
  exists (mkCommitment mu (Some h) None x4). injection E as <- <-.
  eexists _, h. split; [reflexivity|]. split_and!; try done.
  - split; try done.
    + split; try done; cbn [cm_head cm_version cm_mutation cm_lifes].
      * by rewrite Hox.
      * by rewrite Hir.
      * intros ? [= <-]. done.
      * intros l Hl. apply (lifes_valid ws n _ (l_state d) mid _ [] _ [] l E5 eq_refl). by rewrite app_nil_r.
      * apply transitions_ok in E5 as [-> _]. by rewrite lifes_ids.
    + eexists ([(KMeta ws, _); (KHead ws aid, _); (KMut ws n, _); (KMutId ws mid, _); (KOutbox ws n, _);
        (idem_key mu, _); (KPolicy ws _, _)] ++ mjoin (life_spec ws n <$> x4)).
      split; [rewrite fmap_app; exact E6|]. split; [|scope_tac].
      rewrite tracked_app, tracked_lifes. unfold commitment_spec.
      cbn [cm_head cm_version cm_lifes cm_mutation]. rewrite Hox, Hir.
      cbn [tracked_part List.filter fst tracked idem_key]. solve_Permutation.
  - cbn [cm_lifes]. apply transitions_ok in E5 as [-> _]. apply life_states_of.
Qed.
End operations.
