(* ===== verification/LedgerExample.v ===== *)
(** * A memory ledger to run

    Concrete instances of what the model leaves open: an encoding of the records
    as trees, a digest in the place of SHA-256 and of HMAC, the ASCII tables, and
    requests of one workspace. The claims about the ledger are applied to them. *)

From Stdlib Require Import Ascii.
From S2P Require Import Prelude Float32 Text Sorting Storage Hex Keys Filter Knowledge MemoryContracts LedgerModel Ledger LedgerProps.

Module LedgerExample.
Export FnvDigest Trees AsciiTables.

#[export] Instance no_normalization : UnicodeNormalization := { nfc_chars t := t; nfkc_chars t := t }.
#[export] Instance toy_hmac : Hmac := { hmac_sha256 k m := sha256_digest (string_of_bytes k +:+ m) }.

(** Only text facts are encoded. *)
#[export] Instance text_content : ContentCodec := {
  value_to_vec _ := None;
  content_to_vec c := match c with TextFact t _ => Some t | _ => None end;
}.

(** ** Enumerations, by position *)

Definition nth_of {A} (l : list A) (d : A) (n : Z) : A := nth (Z.to_nat n) l d.
Definition states : list VersionState := [Proposed; Quarantined; Active; Superseded; Retracted; Tombstoned].
Definition state_code (s : VersionState) : Z :=
  match s with Proposed => 0 | Quarantined => 1 | Active => 2 | Superseded => 3 | Retracted => 4 | Tombstoned => 5 end.
Definition operations : list MemoryOperation :=
  [MObserve; MPropose; MCommit; MCorrect; MRetract; MForget; MReinforce; MRetentionDelete].
Definition operation_code (o : MemoryOperation) : Z :=
  match o with
  | MObserve => 0 | MPropose => 1 | MCommit => 2 | MCorrect => 3 | MRetract => 4 | MForget => 5 | MReinforce => 6
  | MRetentionDelete => 7
  end.
Definition status_code (s : ProjectionStatus) : Z := match s with PCatchingUp => 0 | PReady => 1 | PFailed => 2 end.
Definition authorities : list DecisionAuthority := [NoAuthority; Advisory; Operational; GoverningPolicy].
Definition sensitivities : list Sensitivity := [Public; Public; Internal; Confidential; Restricted].

(** ** Records as trees *)

Definition meta_tree (m : WorkspaceMeta) : tree :=
  GenNode 0 [Z_ (wm_schema_version m); S_ (wm_workspace_id m); Z_ (wm_commit_sequence m)].
Definition tree_meta (t : tree) : option WorkspaceMeta :=
  match t with GenNode 0 [Z_ a; S_ b; Z_ c] => Some (mkMeta a b c) | _ => None end.

Definition head_tree (h : MemoryHead) : tree :=
  GenNode 0 [Z_ (hd_schema_version h); S_ (hd_workspace_id h); S_ (hd_assertion_id h);
    strs_tree (hd_active_version_ids h); S_ (hd_latest_mutation_id h); Z_ (hd_latest_sequence h)].
Definition tree_head (t : tree) : option MemoryHead :=
  match t with
  | GenNode 0 [Z_ a; S_ b; S_ c; d; S_ e; Z_ f] => d ← tree_strs d; Some (mkHead a b c d e f)
  | _ => None
  end.

Definition lifecycle_tree (l : VersionLifecycle) : tree :=
  GenNode 0 [Z_ (lc_schema_version l); S_ (lc_workspace_id l); S_ (lc_version_id l);
    Z_ (state_code (lc_state l)); Z_ (lc_transition_sequence l); S_ (lc_transition_mutation_id l)].
Definition tree_lifecycle (t : tree) : option VersionLifecycle :=
  match t with
  | GenNode 0 [Z_ a; S_ b; S_ c; Z_ d; Z_ e; S_ f] => Some (mkLifecycle a b c (nth_of states Proposed d) e f)
  | _ => None
  end.

Definition mutation_tree (m : MemoryMutation) : tree :=
  GenNode 0 [Z_ (mm_schema_version m); S_ (mm_mutation_id m); Z_ (operation_code (mm_operation m));
    S_ (mm_workspace_id m); S_ (mm_assertion_id m); strs_tree (mm_input_version_ids m);
    strs_tree (mm_output_version_ids m); strs_tree (mm_expected_head_version_ids m);
    S_ (mm_idempotency_key_sha256 m); S_ (mm_canonical_request_sha256 m); S_ (mm_principal_id m);
    opt_tree str_tree (mm_delegated_agent_id m); S_ (mm_authorization_decision_id m);
    S_ (mm_policy_decision_id m); S_ (mm_reason m); Z_ (mm_committed_sequence m); Z_ (mm_committed_at_ms m)].
Definition tree_mutation (t : tree) : option MemoryMutation :=
  match t with
  | GenNode 0 [Z_ a; S_ b; Z_ c; S_ d; S_ e; f; g; h; S_ i; S_ j; S_ k; l; S_ m; S_ n; S_ o; Z_ p; Z_ q] =>
      f ← tree_strs f; g ← tree_strs g; h ← tree_strs h; l ← tree_opt tree_str l;
      Some (mkMemoryMutation a b (nth_of operations MObserve c) d e f g h i j k l m n o p q)
  | _ => None
  end.

Definition idempotency_tree (r : IdempotencyRecord) : tree :=
  GenNode 0 [Z_ (ir_schema_version r); S_ (ir_principal_id r); S_ (ir_workspace_id r);
    Z_ (operation_code (ir_operation r)); S_ (ir_idempotency_key_sha256 r);
    S_ (ir_canonical_request_sha256 r); S_ (ir_policy_decision_id r); S_ (ir_mutation_id r);
    S_ (ir_assertion_id r); strs_tree (ir_version_ids r); Z_ (ir_commit_sequence r)].
Definition tree_idempotency (t : tree) : option IdempotencyRecord :=
  match t with
  | GenNode 0 [Z_ a; S_ b; S_ c; Z_ d; S_ e; S_ f; S_ g; S_ h; S_ i; j; Z_ k] =>
      j ← tree_strs j; Some (mkIdempotency a b c (nth_of operations MObserve d) e f g h i j k)
  | _ => None
  end.

Definition outbox_tree (o : ProjectionOutboxEntry) : tree :=
  GenNode 0 [Z_ (ox_schema_version o); S_ (ox_workspace_id o); Z_ (ox_sequence o); S_ (ox_mutation_id o);
    S_ (ox_assertion_id o); strs_tree (ox_version_ids o)].
Definition tree_outbox (t : tree) : option ProjectionOutboxEntry :=
  match t with
  | GenNode 0 [Z_ a; S_ b; Z_ c; S_ d; S_ e; f] => f ← tree_strs f; Some (mkOutbox a b c d e f)
  | _ => None
  end.

Definition checkpoint_tree (c : ProjectionCheckpoint) : tree :=
  GenNode 0 [Z_ (pc_schema_version c); S_ (pc_workspace_id c); S_ (pc_projection_id c);
    Z_ (pc_applied_sequence c); Z_ (status_code (pc_status c)); opt_tree str_tree (pc_last_error c);
    Z_ (pc_updated_at_ms c)].
Definition tree_checkpoint (t : tree) : option ProjectionCheckpoint :=
  match t with
  | GenNode 0 [Z_ a; S_ b; S_ c; Z_ d; Z_ e; f; Z_ g] =>
      f ← tree_opt tree_str f; Some (mkProjection a b c d (nth_of [PCatchingUp; PReady; PFailed] PFailed e) f g)
  | _ => None
  end.

Definition assertion_tree (a : MemoryAssertion) : tree :=
  GenNode 0 [Z_ (ma_schema_version a); S_ (ma_assertion_id a); S_ (ma_workspace_id a); S_ (ma_namespace a);
    S_ (ma_entity_key a); S_ (ma_predicate a); Z_ (ma_identity_hash_version a); S_ (ma_identity_hash a);
    Z_ (ma_created_sequence a); Z_ (ma_created_at_ms a)].
Definition tree_assertion (t : tree) : option MemoryAssertion :=
  match t with
  | GenNode 0 [Z_ a; S_ b; S_ c; S_ d; S_ e; S_ f; Z_ g; S_ h; Z_ i; Z_ j] =>
      Some (mkAssertion a b c d e f KTextFact g h i j)
  | _ => None
  end.

Definition scope_tree (s : MemoryScope) : tree :=
  GenNode 0 [S_ (ms_workspace_id s); S_ (ms_namespace s); S_ (ms_entity_key s);
    opt_tree str_tree (ms_data_subject_id s); opt_tree str_tree (ms_owner_agent_id s);
    opt_tree str_tree (ms_session_id s); opt_tree str_tree (ms_task_id s);
    Z_ (sensitivity_code (ms_sensitivity s)); strs_tree (ms_allowed_purposes s)].
Definition tree_scope (t : tree) : option MemoryScope :=
  match t with
  | GenNode 0 [S_ a; S_ b; S_ c; d; e; f; g; Z_ h; i] =>
      d ← tree_opt tree_str d; e ← tree_opt tree_str e; f ← tree_opt tree_str f; g ← tree_opt tree_str g;
      i ← tree_strs i; Some (mkMemoryScope a b c d e f g (nth_of sensitivities Public h) i)
  | _ => None
  end.

(** A version with a text of no given language, as an operational statement of a
    human; the other fields of the content are not kept. *)
Definition version_tree (v : MemoryVersion) : option tree :=
  match mv_content v with
  | TextFact text _ => Some (GenNode 0 [Z_ (mv_schema_version v); S_ (mv_version_id v); S_ (mv_assertion_id v);
      strs_tree (mv_parent_version_ids v); scope_tree (mv_scope v); S_ text; S_ (mv_content_sha256 v);
      Z_ (decision_authority_rank (mv_decision_authority v)); strs_tree (mv_evidence_ids v);
      S_ (mv_policy_decision_id v); Z_ (mv_committed_sequence v); Z_ (mv_committed_at_ms v);
      S_ (mv_created_by_principal_id v); opt_tree str_tree (mv_derivation_id v)])
  | _ => None
  end.
Definition tree_version (t : tree) : option MemoryVersion :=
  match t with
  | GenNode 0 [Z_ a; S_ b; S_ c; d; e; S_ f; S_ g; Z_ h; i; S_ j; Z_ k; Z_ l; S_ m; n] =>
      d ← tree_strs d; e ← tree_scope e; i ← tree_strs i; n ← tree_opt tree_str n;
      Some (mkVersion a b c d e KTextFact (TextFact f None) g None None None None HumanStatement
              AuthenticatedHuman (nth_of authorities NoAuthority h) None i n None j k l m)
  | _ => None
  end.

(** Evidence without times, from an authenticated human. *)
Definition evidence_tree (e : EvidenceRecord) : tree :=
  GenNode 0 [Z_ (ev_schema_version e); S_ (ev_evidence_id e); S_ (ev_workspace_id e); S_ (ev_source_plane e);
    S_ (ev_source_id e); S_ (ev_content_sha256 e); opt_tree str_tree (ev_source_principal_id e);
    Z_ (ev_created_sequence e)].
Definition tree_evidence (t : tree) : option EvidenceRecord :=
  match t with
  | GenNode 0 [Z_ a; S_ b; S_ c; S_ d; S_ e; S_ f; g; Z_ h] =>
      g ← tree_opt tree_str g; Some (mkEvidence a b c d e None None None f g AuthenticatedHuman h)
  | _ => None
  end.

Definition observation_tree (o : MemoryObservation) : tree :=
  GenNode 0 [Z_ (ob_schema_version o); S_ (ob_observation_id o); S_ (ob_evidence_id o); scope_tree (ob_scope o);
    S_ (ob_source_plane o); S_ (ob_source_id o); S_ (ob_content_sha256 o); S_ (ob_retained_payload o);
    S_ (ob_policy_decision_id o); S_ (ob_created_by_principal_id o); Z_ (ob_committed_sequence o);
    Z_ (ob_committed_at_ms o)].
Definition tree_observation (t : tree) : option MemoryObservation :=
  match t with
  | GenNode 0 [Z_ a; S_ b; S_ c; d; S_ e; S_ f; S_ g; S_ h; S_ i; S_ j; Z_ k; Z_ l] =>
      d ← tree_scope d; Some (mkObservation a b c d e f None None None g h AuthenticatedAgent i j k l)
  | _ => None
  end.

Definition derivation_tree (d : DerivationRecord) : tree :=
  GenNode 0 [Z_ (dv_schema_version d); S_ (dv_derivation_id d); S_ (dv_workspace_id d);
    strs_tree (dv_input_version_ids d); strs_tree (dv_input_evidence_ids d); S_ (dv_operation d);
    S_ (dv_deterministic_parameters_sha256 d); S_ (dv_output_version_id d); Z_ (dv_committed_sequence d)].
Definition tree_derivation (t : tree) : option DerivationRecord :=
  match t with
  | GenNode 0 [Z_ a; S_ b; S_ c; d; e; S_ f; S_ g; S_ h; Z_ i] =>
      d ← tree_strs d; e ← tree_strs e; Some (mkDerivation a b c d e f None g h i)
  | _ => None
  end.

Definition set_tree (m : ProjectionSetManifest) : tree :=
  GenNode 0 [Z_ (pm_schema_version m); S_ (pm_projection_set_id m); Z_ (pm_projection_set_version m);
    strs_tree (pm_projection_ids m); strs_tree (pm_artifact_ids m); S_ (pm_manifest_sha256 m)].
Definition tree_set (t : tree) : option ProjectionSetManifest :=
  match t with
  | GenNode 0 [Z_ a; S_ b; Z_ c; d; e; S_ f] =>
      d ← tree_strs d; e ← tree_strs e; Some (mkSetManifest a b c d e None None None None f)
  | _ => None
  end.

(** ** The codec *)

Definition tree_serde {A} (f : A → option tree) (g : tree → option A) : Serde A :=
  {| json_of a := f a ≫= code_serialize; of_json b := code_deserialize b ≫= g |}.
(** Records that are written and never read back by the operations run here. *)
Definition write_only A : Serde A := {| json_of _ := Some "{}"; of_json _ := None |}.

Definition line (l : list string) : option string := Some (components l).

#[export] Instance codec : LedgerCodec := {
  serde_meta := tree_serde (Some ∘ meta_tree) tree_meta;
  serde_assertion := tree_serde (Some ∘ assertion_tree) tree_assertion;
  serde_version := tree_serde version_tree tree_version;
  serde_evidence := tree_serde (Some ∘ evidence_tree) tree_evidence;
  serde_observation := tree_serde (Some ∘ observation_tree) tree_observation;
  serde_derivation := tree_serde (Some ∘ derivation_tree) tree_derivation;
  serde_relation := write_only _;
  serde_reinforcement := write_only _;
  serde_policy := write_only _;
  serde_head := tree_serde (Some ∘ head_tree) tree_head;
  serde_lifecycle := tree_serde (Some ∘ lifecycle_tree) tree_lifecycle;
  serde_mutation := tree_serde (Some ∘ mutation_tree) tree_mutation;
  serde_idempotency := tree_serde (Some ∘ idempotency_tree) tree_idempotency;
  serde_outbox := tree_serde (Some ∘ outbox_tree) tree_outbox;
  serde_checkpoint := tree_serde (Some ∘ checkpoint_tree) tree_checkpoint;
  serde_set_manifest := tree_serde (Some ∘ set_tree) tree_set;
  serde_active_set := write_only _;
  commit_fingerprint_to_vec f := c ← content_to_vec (cf_content f); line (c :: cf_reason f :: cf_expected_head_version_ids f);
  observe_fingerprint_to_vec f := line [of_source_plane f; of_source_id f; of_content_sha256 f; of_reason f];
  forget_fingerprint_to_vec f := line (ff_assertion_id f :: ff_reason f :: ff_expected_head_version_ids f);
  reinforce_fingerprint_to_vec f := line [rp_version_id f; rp_outcome_id f; rp_reason f];
  proposal_fingerprint_to_vec f := line (pf_proposal_version_id f :: pf_reason f :: pf_expected_head_version_ids f);
  manifest_fingerprint_to_vec f := line (mf_projection_set_id f :: mf_projection_ids f);
  selector_to_vec s := match s with SelSource a b => line [a; b] | SelDataSubject a => line [a] end;
}.

Lemma tree_law {A} (f : A → tree) g : (∀ a, g (f a) = Some a) → @SerdeLaw A (tree_serde (Some ∘ f) g).
Proof.
  intros Hg. split. intros a b E. change (code_deserialize b ≫= g = Some a).
  rewrite (code_ok (f a) b E). apply Hg.
Qed.

#[export] Instance codec_laws : LedgerCodecLaws.
Proof.
  split; try apply tree_law.
  - by intros [].
  - intros h. unfold tree_head, head_tree. rewrite tree_strs_tree. by destruct h.
  - by intros [? ? ? [] ? ?].
  - intros m. unfold tree_mutation, mutation_tree. rewrite !tree_strs_tree, tree_opt_tree by done.
    by destruct m as [? ? [] ? ? ? ? ? ? ? ? ? ? ? ? ? ?].
  - intros r. unfold tree_idempotency, idempotency_tree. rewrite tree_strs_tree.
    by destruct r as [? ? ? [] ? ? ? ? ? ? ?].
  - intros o. unfold tree_outbox, outbox_tree. rewrite tree_strs_tree. by destruct o.
  - intros c. unfold tree_checkpoint, checkpoint_tree. rewrite tree_opt_tree by done.
    by destruct c as [? ? ? ? [] ? ?].
  - intros v b E. cbn in E. unfold version_tree in E. destruct (mv_content v) eqn:Ec; try discriminate.
    change (∃ v', code_deserialize b ≫= tree_version = Some v' ∧ same_version v v').
    rewrite (code_ok _ b E). cbn [mbind option_bind tree_version].
    rewrite !tree_strs_tree. unfold tree_scope, scope_tree. rewrite !tree_opt_tree, tree_strs_tree by done.
    eexists. split; [reflexivity|]. destruct v as [? ? ? ? [? ? ? ? ? ? ? [] ?] ? ? ? ? ? ? ? ? ? [] ? ? ? ? ? ? ? ?]; by split.
Qed.

(** ** One workspace *)

Definition demo_key : list Z := [1; 2; 3].
Definition sha_a : string := "aaaaaaaaaaaaaaaaaaaaaaaaaaaaaaaaaaaaaaaaaaaaaaaaaaaaaaaaaaaaaaaa".

Definition demo_grant (ws capability : string) : MemoryAccessGrant :=
  mkGrant "alice" "cred" ws "team" "work" None true ["**"] [] false [] false [] false
    [Public; Internal] capability 1 1 "auth1" false.

(** The proof the issuer gives for a grant. *)
Definition demo_proof (ws capability : string) : MemoryAccessProof :=
  let g := demo_grant ws capability in
  match issue demo_key g with Ok p => p | Err _ => mkProof g [] end.

Definition demo_scope (ws : string) : MemoryScope :=
  mkMemoryScope ws "team" "door" None None None None Public ["work"].

Definition demo_commit (ws text ik policy : string) (expected : list string) (a : DecisionAuthority) : CommitMemoryRequest :=
  mkCommit (demo_scope ws) "colour" (TextFact text None) None None None None HumanStatement AuthenticatedHuman
    a None [mkEvidenceInput "chat" "msg1" None None None sha_a None] None None "alice" None "work" "auth1"
    policy ik expected "said so" 5.

(** Identifiers drawn by a call. *)
Definition demo_uuid (tag : string) (i : nat) : string := tag +:+ string_of_bytes [48 + Z.of_nat i].
Definition demo_vid (tag : string) : string := "mem_v_" +:+ demo_uuid tag 1.

Definition store0 : RocksDbBackend MemDB := mkBackend (∅ : MemDB).

Definition demo_first : CommitMemoryRequest := demo_commit "w" "red" "k1" "p1" [] Advisory.
Definition demo_second : CommitMemoryRequest := demo_commit "w" "blue" "k2" "p2" [demo_vid "a"] Operational.

Example demo_committed :
  let s1 := (commit demo_key (demo_uuid "a") store0 (demo_proof "w" "memory.remember") demo_first).2 in
  match (commit demo_key (demo_uuid "b") s1 (demo_proof "w" "memory.remember") demo_second).1 with
  | Ok rc => rc_outcome rc = Committed ∧ rc_commit_sequence rc = 2 ∧ rc_version_ids rc = [demo_vid "b"]
  | Err _ => False
  end.
Proof. vm_compute. done. Qed.
End LedgerExample.
