(* ===== verification/LedgerGrants.v ===== *)
(** * What the signature of an access grant covers

    The encoding of a grant that is signed is a sequence of codes each of which
    can be told apart from what follows it, so that no two valid grants share
    an encoding. *)

From Stdlib Require Import Ascii.
From S2P Require Import Prelude Text Storage Hex Keys MemoryContracts LedgerModel Ledger LedgerProps LedgerExample.

(** ** Codes that can be followed by anything *)

(** Among the values of [P], the code [f] determines its value whatever follows. *)
Definition codes {A} (P : A → Prop) (f : A → string) : Prop :=
  ∀ a b x y, P a → P b → f a +:+ x = f b +:+ y → a = b ∧ x = y.

(** A code of fixed width. *)
Lemma codes_width {A} (P : A → Prop) (f : A → string) n :
  (∀ a, String.length (f a) = n) → (∀ a b, P a → P b → f a = f b → a = b) → codes P f.
Proof.
  intros Hl Hi a b x y Ha Hb E. apply app_same_length in E as [E ->]; [|by rewrite !Hl].
  split; [by apply Hi|done].
Qed.

Lemma codes_component : codes small component.
Proof. intros a b x y. apply component_app_inj. Qed.

Lemma codes_flag : codes (λ _, True) flag_string.
Proof. apply (codes_width _ _ 1); [by intros []|]. by intros [] []. Qed.

Lemma codes_seq8 : codes (λ n, is_u64 n) seq8.
Proof.
  apply (codes_width _ _ 8); [|intros a b; apply seq8_inj].
  intros n. unfold seq8. by rewrite string_of_bytes_length, be_bytes_length.
Qed.

Lemma codes_ver4 : codes (λ n, 0 ≤ n < 2 ^ 32) ver4.
Proof.
  apply (codes_width _ _ 4); [|intros a b; apply ver4_inj].
  intros n. unfold ver4. by rewrite string_of_bytes_length, be_bytes_length.
Qed.

(** Values that fit their count. *)
Definition counted {A} (l : list A) : Prop := Zlength l < 2 ^ 32.

Lemma codes_scope_values : codes (λ l, counted l ∧ Forall small l) scope_values_string.
Proof.
  intros a b x y [Ca Sa] [Cb Sb] E. unfold scope_values_string in E.
  rewrite !push_components, !app_assoc_str in E. unfold counted in *.
  apply codes_ver4 in E as [El E]; [|lia..]. by apply components_app_inj in E; [|lia|done..].
Qed.

Definition sensitivities_string (l : list Sensitivity) : string :=
  ver4 (Zlength l) +:+ string_of_bytes (sensitivity_code <$> l).

Lemma codes_sensitivities : codes counted sensitivities_string.
Proof.
  intros a b x y Ca Cb E. unfold sensitivities_string in E. rewrite !app_assoc_str in E.
  unfold counted in *. apply codes_ver4 in E as [El E]; [|lia..].
  apply app_same_length in E as [E ->]; [|rewrite !string_of_bytes_length, !length_fmap; lia]. split; [|done].
  assert (∀ s, is_byte (sensitivity_code s)) as Hb by (by intros []).
  apply string_of_bytes_inj in E; [|by apply Forall_fmap, Forall_true..].
  assert (Inj eq eq sensitivity_code) as Hinj by (by intros [] []). by apply (list_fmap_eq_inj sensitivity_code) in E.
Qed.

Definition agent_string (agent : option string) : string :=
  match agent with Some a => u8_string 1 +:+ component a | None => u8_string 0 end.

Lemma codes_agent : codes (λ o, ∀ a, o = Some a → small a) agent_string.
Proof.
  intros [a|] [b|] x y Ha Hb E; cbn [agent_string] in E; rewrite ?app_assoc_str in E;
    [|apply app_same_length in E as [E _]; done..|by apply app_same_length in E as [_ ->]].
  apply app_same_length in E as [_ E]; [|done]. apply component_app_inj in E as [-> ->]; auto.
Qed.

(** ** Grants *)

(** What the types of the grant and its validation give. *)
Record grant_ok (g : MemoryAccessGrant) : Prop := {
  go_strings : Forall small [g_principal_id g; g_credential_id g; g_workspace_id g; g_namespace g;
    g_request_purpose g; g_capability g; g_authorization_decision_id g];
  go_agent a : g_delegated_agent_id g = Some a → small a;
  go_entities : counted (g_entity_keys g) ∧ Forall small (g_entity_keys g);
  go_subjects : counted (g_data_subject_ids g) ∧ Forall small (g_data_subject_ids g);
  go_sessions : counted (g_session_ids g) ∧ Forall small (g_session_ids g);
  go_tasks : counted (g_task_ids g) ∧ Forall small (g_task_ids g);
  go_sensitivities : counted (g_sensitivities g);
}.

(** The numbers of a grant are machine words. *)
Definition grant_numbers (g : MemoryAccessGrant) : Prop :=
  is_u64 (g_authorization_epoch g) ∧ is_u64 (g_grant_version g).

Lemma local_ids_small f seen l : local_ids_distinct f seen l = Ok tt → Forall small l.
Proof.
  revert seen. induction l as [|a l IH]; intros seen V; cbn [local_ids_distinct] in V; [constructor|].
  binds V. apply local_id_small in E. constructor; [done|]. by apply IH in V.
Qed.

Lemma scope_values_ok f l : validate_scope_values f l = Ok tt → counted l ∧ Forall small l.
Proof.
  unfold validate_scope_values, counted, MAX_ACCESS_SCOPE_VALUES. intros V. binds V.
  rewrite Z.gtb_ltb, Z.ltb_ge in E. split; [lia|by apply local_ids_small in V].
Qed.

Lemma sensitivities_counted (l : list Sensitivity) : NoDup l → counted l.
Proof.
  intros Hn. unfold counted.
  assert (length l ≤ length [Public; Internal; Confidential; Restricted])%nat; [|cbn in *; lia].
  apply NoDup_incl_length; [by apply NoDup_ListNoDup|]. intros [] _; cbn; auto.
Qed.

Lemma valid_grant g : validate_access_grant g = Ok tt → grant_ok g.
Proof.
  unfold validate_access_grant, validate_optional_local_id. intros V. binds V.
  repeat match goal with
         | E : validate_local_id _ _ = Ok _ |- _ => apply local_id_small in E
         | E : validate_scope_values _ _ = Ok _ |- _ => apply scope_values_ok in E
         end.
  split; try done.
  - by repeat constructor.
  - intros a Ea. rewrite Ea in *. by eapply local_id_small.
  - apply sensitivities_counted. unfold lrequire in *.
    match goal with E : (if bool_decide (NoDup ?l) then _ else _) = _ |- NoDup ?l => case_bool_decide; done end.
Qed.

(** The encoding as a sequence of codes. *)
Lemma encode_codes g e :
  encode_access_grant g = Ok e →
  grant_ok g ∧
  e = GRANT_PREFIX +:+ component (g_principal_id g) +:+ component (g_credential_id g)
    +:+ component (g_workspace_id g) +:+ component (g_namespace g) +:+ component (g_request_purpose g)
    +:+ agent_string (g_delegated_agent_id g) +:+ flag_string (g_allow_shared_memory g)
    +:+ scope_values_string (g_entity_keys g) +:+ scope_values_string (g_data_subject_ids g)
    +:+ flag_string (g_require_data_subject g) +:+ scope_values_string (g_session_ids g)
    +:+ flag_string (g_require_session g) +:+ scope_values_string (g_task_ids g)
    +:+ flag_string (g_require_task g) +:+ sensitivities_string (g_sensitivities g)
    +:+ component (g_capability g) +:+ seq8 (g_authorization_epoch g) +:+ seq8 (g_grant_version g)
    +:+ component (g_authorization_decision_id g) +:+ flag_string (g_system_job g) +:+ "".
Proof.
  unfold encode_access_grant. intros E. binds E. injection E as <-. split; [by apply valid_grant|].
  unfold push_sensitivities, push_scope_values, push_component, sensitivities_string, agent_string, push_agent.
  cbn [foldl]. rewrite app_nil_str. destruct (g_delegated_agent_id g); unfold push_component; by rewrite !app_assoc_str.
Qed.

(** The encoding that is signed determines the grant: two valid grants with
    the same encoding are the same in every field, so a signature of one cannot be
    presented with another. *)
Lemma grant_encoding_injective g g' e :
  grant_numbers g → grant_numbers g' →
  encode_access_grant g = Ok e → encode_access_grant g' = Ok e → g = g'.
Proof.
  intros [N1 N2] [N1' N2'] [[S1 S2 S3 S4 S5 S6 S7] E]%encode_codes [[S1' S2' S3' S4' S5' S6' S7'] E']%encode_codes.
  rewrite E in E'. clear E. repeat rewrite Forall_cons in *. destruct_and!.
  apply app_same_length in E' as [_ E]; [|done].
  repeat match goal with
    | E : component _ +:+ _ = component _ +:+ _ |- _ => apply codes_component in E as [? E]; [|done..]
    | E : flag_string _ +:+ _ = _ |- _ => apply codes_flag in E as [? E]; [|done..]
    | E : seq8 _ +:+ _ = _ |- _ => apply codes_seq8 in E as [? E]; [|done..]
    | E : scope_values_string _ +:+ _ = _ |- _ => apply codes_scope_values in E as [? E]; [|done..]
    | E : sensitivities_string _ +:+ _ = _ |- _ => apply codes_sensitivities in E as [? E]; [|done..]
    | E : agent_string _ +:+ _ = _ |- _ => apply codes_agent in E as [? E]; [|done..]
    end.
  destruct g as [a1 a2 a3 a4 a5 a6 a7 a8 a9 a10 a11 a12 a13 a14 a15 a16 a17 a18 a19 a20], g' as [b1 b2 b3 b4 b5 b6 b7 b8 b9 b10 b11 b12 b13 b14 b15 b16 b17 b18 b19 b20].
  cbn [g_principal_id g_credential_id g_workspace_id g_namespace g_request_purpose g_delegated_agent_id g_allow_shared_memory g_entity_keys g_data_subject_ids g_require_data_subject g_session_ids g_require_session g_task_ids g_require_task g_sensitivities g_capability g_authorization_epoch g_grant_version g_authorization_decision_id g_system_job] in *. subst. reflexivity.
Qed.

Lemma grant_encoding_injective_witness :
  match encode_access_grant (LedgerExample.demo_grant "w" "memory.admin"),
        encode_access_grant (LedgerExample.demo_grant "w" "memory.read") with
  | Ok e, Ok e' => e ≠ e'
  | _, _ => False
  end.
Proof.
  pose proof (grant_encoding_injective (LedgerExample.demo_grant "w" "memory.admin")
    (LedgerExample.demo_grant "w" "memory.read")) as H.
  destruct (encode_access_grant (LedgerExample.demo_grant "w" "memory.admin")) as [e|] eqn:E; [|vm_compute in E; discriminate E].
  destruct (encode_access_grant (LedgerExample.demo_grant "w" "memory.read")) as [e'|] eqn:E'; [|vm_compute in E'; discriminate E'].
  intros ->. assert (∀ c, grant_numbers (LedgerExample.demo_grant "w" c)) as Hn by (by intros c; vm_compute).
  discriminate (H e' (Hn _) (Hn _) eq_refl eq_refl).
Defined.
