(* ===== verification/LedgerState.v ===== *)
(** * The state of the memory ledger

    The state of a workspace as its records give it, what makes it well formed,
    and that a commitment that follows on from a well-formed state leads to one. *)

From Stdlib Require Import Ascii.
From S2P Require Import Prelude Float32 Text Sorting Storage Hex Keys Filter Knowledge MemoryContracts LedgerModel Ledger LedgerProps.

(** ** The state of a workspace *)

Section state.
Context `{!ContentCodec, !LedgerCodec, !Sha256}.
Implicit Types (m : gmap string string) (ws : string).

(** The record under a key. *)
Definition rec_at {A} `{!Serde A} m (k : mkey) : option A := m !! kenc k ≫= of_json.

Definition seq_at m ws : Z := default 0 (wm_commit_sequence <$> rec_at m (KMeta ws)).
Definition head_at m ws (aid : string) : option (list string) := hd_active_version_ids <$> rec_at m (KHead ws aid).
Definition life_at m ws (vid : string) : option VersionLifecycle := rec_at m (KLife ws vid).
Definition state_at m ws (vid : string) : option VersionState := lc_state <$> life_at m ws vid.
Definition owner_at m ws (vid : string) : option string := mv_assertion_id <$> rec_at m (KVersion ws vid).
Definition mutation_at m ws (n : Z) : option MemoryMutation := rec_at m (KMut ws n).
Definition outbox_at m ws (n : Z) : option ProjectionOutboxEntry := rec_at m (KOutbox ws n).
Definition history_at m ws (vid : string) (n : Z) : option VersionLifecycle := rec_at m (KHist ws vid n).

(** A mutation as the ledger keeps it: with its outbox entry and its
    idempotency record. *)
Record logged m ws (n : Z) (mu : MemoryMutation) : Prop := {
  lg_mutation : mutation_at m ws n = Some mu;
  lg_valid : memory_mutation_validate mu = Ok tt;
  lg_workspace : mm_workspace_id mu = ws;
  lg_sequence : mm_committed_sequence mu = n;
  lg_outbox : outbox_at m ws n = Some (outbox_of mu);
  lg_outbox_valid : outbox_validate (outbox_of mu) = Ok tt;
  lg_idem : rec_at m (idem_key mu) = Some (idem_of mu);
  lg_idem_valid : idempotency_validate (idem_of mu) = Ok tt;
}.

Record ledger_wf m ws : Prop := {
  wf_meta : m !! kenc (KMeta ws) = None ∨
    ∃ n, rec_at m (KMeta ws) = Some (mkMeta MEMORY_SCHEMA_VERSION ws n) ∧ 1 ≤ n ≤ u64_max;
  wf_log n : 1 ≤ n ≤ seq_at m ws → ∃ mu, logged m ws n mu;
  wf_beyond n : is_u64 n → n = 0 ∨ seq_at m ws < n →
    m !! kenc (KMut ws n) = None ∧ m !! kenc (KOutbox ws n) = None;
  wf_head aid : small aid → is_Some (m !! kenc (KHead ws aid)) →
    ∃ h, rec_at m (KHead ws aid) = Some h ∧ head_validate h = Ok tt ∧
      hd_workspace_id h = ws ∧ hd_assertion_id h = aid;
  wf_life vid : small vid → is_Some (m !! kenc (KLife ws vid)) ∨ is_Some (m !! kenc (KVersion ws vid)) →
    ∃ l aid, life_at m ws vid = Some l ∧ lifecycle_validate l = Ok tt ∧ lc_workspace_id l = ws ∧
      lc_version_id l = vid ∧ 1 ≤ lc_transition_sequence l ≤ seq_at m ws ∧
      owner_at m ws vid = Some aid ∧ small aid ∧ is_Some (head_at m ws aid);
  wf_active aid hs vid : small aid → small vid → head_at m ws aid = Some hs →
    vid ∈ hs ↔ owner_at m ws vid = Some aid ∧ state_at m ws vid = Some Active;
  wf_history vid n : small vid → is_u64 n → is_Some (m !! kenc (KHist ws vid n)) →
    ∃ l, history_at m ws vid n = Some l ∧ lifecycle_validate l = Ok tt ∧ lc_workspace_id l = ws ∧
      lc_version_id l = vid ∧ lc_transition_sequence l = n ∧ 1 ≤ n ≤ seq_at m ws;
  wf_current vid l : small vid → life_at m ws vid = Some l →
    history_at m ws vid (lc_transition_sequence l) = Some l ∧
    ∀ n, is_u64 n → lc_transition_sequence l < n → m !! kenc (KHist ws vid n) = None;
}.

(** The keys the projections write. *)
Definition projection_key (k : mkey) : bool :=
  match k with KCheckpoint _ _ | KData _ _ _ | KActiveSet _ | KSet _ _ => true | _ => false end.

(** Stores that agree on the records of a workspace. *)
Definition agrees m m' ws : Prop :=
  ∀ k, kscope k = Some ws → tracked k = true → projection_key k = false → kok k →
    m' !! kenc k = m !! kenc k.

Lemma agrees_refl m ws : agrees m m ws.
Proof. by intros k. Qed.

Lemma agrees_rec m m' ws k {A} `{!Serde A} :
  agrees m m' ws → kscope k = Some ws → tracked k = true → projection_key k = false → kok k →
  rec_at m' k = rec_at (A:=A) m k.
Proof. intros Ha Hk Ht Hp Ho. unfold rec_at. by rewrite (Ha k). Qed.

Section agrees.
Context m m' ws (Ha : agrees m m' ws) (Hws : small ws).

Lemma agrees_seq : seq_at m' ws = seq_at m ws.
Proof using Ha Hws. unfold seq_at. by rewrite (agrees_rec m m' ws) by (done || kok_tac). Qed.
Lemma agrees_head aid : small aid → head_at m' ws aid = head_at m ws aid.
Proof using Ha Hws. intros. unfold head_at. by rewrite (agrees_rec m m' ws) by (done || kok_tac). Qed.
Lemma agrees_life vid : small vid → life_at m' ws vid = life_at m ws vid.
Proof using Ha Hws. intros. unfold life_at. by rewrite (agrees_rec m m' ws) by (done || kok_tac). Qed.
Lemma agrees_owner vid : small vid → owner_at m' ws vid = owner_at m ws vid.
Proof using Ha Hws. intros. unfold owner_at. by rewrite (agrees_rec m m' ws) by (done || kok_tac). Qed.
Lemma agrees_history vid n : small vid → is_u64 n → history_at m' ws vid n = history_at m ws vid n.
Proof using Ha Hws. intros. unfold history_at. by rewrite (agrees_rec m m' ws) by (done || kok_tac). Qed.

Lemma agrees_logged n mu : is_u64 n → logged m ws n mu → logged m' ws n mu.
Proof using Ha Hws.
  intros Hn [L1 L2 L3 L4 L5 L6 L7 L8]. destruct (mutation_small _ L2) as (_ & _ & ? & ? & _).
  split; try done.
  - unfold mutation_at in *. by rewrite (agrees_rec m m' ws) by (done || kok_tac).
  - unfold outbox_at in *. by rewrite (agrees_rec m m' ws) by (done || kok_tac).
  - unfold idem_key in *. rewrite L3 in *. by rewrite (agrees_rec m m' ws) by (done || kok_tac).
Qed.
End agrees.

Lemma wf_agrees m m' ws : small ws → agrees m m' ws → ledger_wf m ws → ledger_wf m' ws.
Proof.
  intros Hs Ha [W1 W2 W3 W4 W5 W6 W7 W8].
  pose proof (agrees_seq m m' ws Ha Hs) as Eseq.
  assert (∀ n, 1 ≤ n ≤ seq_at m ws → is_u64 n) as Hu.
  { intros n Hn. destruct W1 as [W1|(q & Wq & ?)]; unfold seq_at, rec_at in *;
      [rewrite W1 in Hn; cbn in Hn; lia|rewrite Wq in Hn; cbn in Hn; unfold in_range; lia]. }
  split.
  - rewrite (Ha (KMeta ws)), (agrees_rec m m' ws) by (done || kok_tac). done.
  - rewrite Eseq. intros n Hn. destruct (W2 n Hn) as [mu ?]. exists mu. apply (agrees_logged m); auto.
  - rewrite Eseq. intros n Hn Hb. rewrite (Ha (KMut ws n)), (Ha (KOutbox ws n)) by (done || kok_tac). auto.
  - intros aid Hsa. rewrite (Ha (KHead ws aid)), (agrees_rec m m' ws) by (done || kok_tac). auto.
  - intros vid Hsv. rewrite (Ha (KLife ws vid)), (Ha (KVersion ws vid)) by (done || kok_tac). intros Hl.
    destruct (W5 vid Hsv Hl) as (l & aid & ? & ? & ? & ? & ? & ? & ? & ?). exists l, aid.
    rewrite (agrees_life m m'), (agrees_owner m m'), (agrees_head m m'), Eseq by done. done.
  - intros aid hs vid Hsa Hsv. unfold state_at. rewrite (agrees_head m m'), (agrees_owner m m'), (agrees_life m m') by done.
    by apply W6.
  - intros vid n Hsv Hn. rewrite (Ha (KHist ws vid n)), (agrees_history m m'), Eseq by (done || kok_tac). auto.
  - intros vid l Hsv. rewrite (agrees_life m m') by done. intros Hl. destruct (W8 vid l Hsv Hl) as [Hc Hn].
    assert (is_Some (m !! kenc (KLife ws vid))) as Hlk.
    { unfold life_at, rec_at in Hl. by destruct (m !! kenc (KLife ws vid)); [eexists|]. }
    destruct (W5 vid Hsv (or_introl Hlk)) as (l' & _ & Hl' & _ & _ & _ & Hq & _).
    rewrite Hl in Hl'. injection Hl' as <-.
    split; [rewrite (agrees_history m m') by auto; done|].
    intros n Hun Hlt. rewrite (Ha (KHist ws vid n)) by (done || kok_tac). auto.
Qed.

(** A store with no key in the name space of the ledger. *)
Definition no_ledger m : Prop := ∀ key, starts_with key KEY_NAMESPACE = true → m !! key = None.

Lemma no_ledger_key m k : no_ledger m → m !! kenc k = None.
Proof. intros He. apply He. rewrite kenc_parts. apply starts_with_app. Qed.

Lemma wf_no_ledger m ws : no_ledger m → ledger_wf m ws.
Proof.
  intros Hn. assert (∀ k, m !! kenc k = None) as He by (intros; by apply no_ledger_key). assert (seq_at m ws = 0) as Hq by (unfold seq_at, rec_at; by rewrite He).
  split; try (intros; exfalso; lia).
  - by left.
  - done.
  - intros aid _ [b Hb]. by rewrite He in Hb.
  - intros vid _ [[b Hb]|[b Hb]]; by rewrite He in Hb.
  - intros aid hs vid _ _ Hh. unfold head_at, rec_at in Hh. by rewrite He in Hh.
  - intros vid n _ _ [b Hb]. by rewrite He in Hb.
  - intros vid l _ Hl. unfold life_at, rec_at in Hl. by rewrite He in Hl.
Qed.
End state.

(** ** The effect of a commitment *)

Section effect.
Context `{!ContentCodec, !LedgerCodec, !Sha256, Hlaws : !LedgerCodecLaws}.
Context (c : commitment) (ops : list BatchOperation) (m : gmap string string).
Hypothesis (Hok : commitment_ok c) (Hops : commits c ops).

Abbreviation mu := (cm_mutation c).
Abbreviation ws := (mm_workspace_id (cm_mutation c)).
Abbreviation n := (mm_committed_sequence (cm_mutation c)).
Abbreviation m' := (apply_batch m ops).

Lemma ws_small : small ws.
Proof using Hok. by destruct (mutation_small _ (co_mutation _ Hok)). Qed.

Lemma n_u64 : is_u64 n.
Proof using Hok. pose proof (co_sequence _ Hok). unfold in_range. lia. Qed.

Hint Resolve ws_small n_u64 : core.

(** The keys of a commitment. *)
Lemma spec_keys k o :
  (k, o) ∈ commitment_spec c →
  k = KMeta ws ∨ k = KMut ws n ∨ k = KOutbox ws n ∨ k = idem_key mu ∨
  (∃ h, cm_head c = Some h ∧ k = KHead ws (hd_assertion_id h)) ∨
  (∃ v, cm_version c = Some v ∧ k = KVersion ws (mv_version_id v)) ∨
  (∃ l, l ∈ cm_lifes c ∧ (k = KLife ws (lc_version_id l) ∨ k = KHist ws (lc_version_id l) n)).
Proof using.
  unfold commitment_spec. rewrite !elem_of_app, elem_of_lifes. intros [Hx|[Hx|[Hx|(l & Hl & Hx)]]].
  - rewrite !elem_of_cons, elem_of_nil in Hx. destruct_or?; simplify_eq; auto.
  - destruct (cm_head c) as [h|]; [|by apply elem_of_nil in Hx].
    apply list_elem_of_singleton in Hx. injection Hx as -> ->. right; right; right; right; left. eauto.
  - destruct (cm_version c) as [v|]; [|by apply elem_of_nil in Hx].
    apply list_elem_of_singleton in Hx. injection Hx as -> ->. do 5 right; left. eauto.
  - do 6 right. exists l. split; [done|]. by destruct Hx as [Hx|Hx]; injection Hx as -> ->; auto.
Qed.

Lemma eff_same k : kok k → tracked k = true → (∀ o, (k, o) ∉ commitment_spec c) → m' !! kenc k = m !! kenc k.
Proof using Hok Hops.
  intros Hk Ht Hn. destruct (commitment_lookup c ops m k Hok Hops Hk Ht) as [(v & Hv & _)|[_ E]]; [|done].
  by destruct (Hn (Some v)).
Qed.

Lemma eff_written k o :
  tracked k = true → (k, o) ∈ commitment_spec c → ∃ b, o = Some b ∧ m' !! kenc k = Some b.
Proof using Hok Hops.
  intros Ht Ho. pose proof (commitment_spec_ok c (k, o) Hok Ho) as Hk. cbn in Hk.
  destruct (commitment_lookup c ops m k Hok Hops Hk Ht) as [(v & Hv & E)|[Hn _]]; [|by destruct (Hn o)].
  exists v. by rewrite (commitment_spec_fun c k o (Some v)).
Qed.

Lemma eff_rec {A} `{!Serde A, !SerdeLaw A} k (a : A) :
  tracked k = true → (k, json_of a) ∈ commitment_spec c → rec_at m' k = Some a.
Proof using Hok Hops.
  intros Ht Ho. destruct (eff_written k _ Ht Ho) as (b & Eb & E). unfold rec_at. rewrite E. cbn.
  by apply serde_roundtrip.
Qed.

Lemma eff_meta : rec_at m' (KMeta ws) = Some (mkMeta MEMORY_SCHEMA_VERSION ws n).
Proof using Hok Hops Hlaws. apply eff_rec; [done|]. unfold commitment_spec. by left. Qed.

Lemma eff_seq : seq_at m' ws = n.
Proof using Hok Hops Hlaws. unfold seq_at. by rewrite eff_meta. Qed.

Lemma eff_mutation : mutation_at m' ws n = Some mu.
Proof using Hok Hops Hlaws. apply eff_rec; [done|]. unfold commitment_spec. right. by left. Qed.

Lemma eff_outbox : outbox_at m' ws n = Some (outbox_of mu).
Proof using Hok Hops Hlaws. apply eff_rec; [done|]. unfold commitment_spec. do 2 right. by left. Qed.

Lemma eff_idem : rec_at m' (idem_key mu) = Some (idem_of mu).
Proof using Hok Hops Hlaws. apply eff_rec; [done|]. unfold commitment_spec. do 3 right. by left. Qed.

(** Discharges that a key is not among those of the commitment. *)
Ltac not_written :=
  let o := fresh "o" in let Hin := fresh "Hin" in
  intros o Hin; apply spec_keys in Hin; unfold idem_key in Hin;
  destruct_or?; destruct_and?; repeat match goal with H : ∃ _, _ |- _ => destruct H end;
  destruct_and?; destruct_or?; simplify_eq; eauto.

Lemma eff_log_same k : is_u64 k → k ≠ n →
  m' !! kenc (KMut ws k) = m !! kenc (KMut ws k) ∧ m' !! kenc (KOutbox ws k) = m !! kenc (KOutbox ws k).
Proof using Hok Hops. intros Hk Hne. split; (apply eff_same; [kok_tac|done|not_written]). Qed.

Lemma eff_head h : cm_head c = Some h → rec_at m' (KHead ws (hd_assertion_id h)) = Some h.
Proof using Hok Hops Hlaws.
  intros Hh. apply eff_rec; [done|]. unfold commitment_spec. rewrite Hh. do 4 right. by left.
Qed.

Lemma eff_head_same aid : small aid → (∀ h, cm_head c = Some h → hd_assertion_id h ≠ aid) →
  m' !! kenc (KHead ws aid) = m !! kenc (KHead ws aid).
Proof using Hok Hops. intros Hs Hn. apply eff_same; [kok_tac|done|]. not_written. by eapply Hn. Qed.

Lemma eff_version v : cm_version c = Some v →
  ∃ v', rec_at m' (KVersion ws (mv_version_id v)) = Some v' ∧ same_version v v'.
Proof using Hok Hops Hlaws.
  intros Hv. destruct (eff_written (KVersion ws (mv_version_id v)) (json_of v)) as (b & Eb & E); [done|..].
  { unfold commitment_spec. rewrite Hv, !elem_of_app. right; right; left. by left. }
  destruct (law_version v b Eb) as (v' & Ev & Hs). exists v'. unfold rec_at. by rewrite E.
Qed.

Lemma eff_version_same vid : small vid → (∀ v, cm_version c = Some v → mv_version_id v ≠ vid) →
  m' !! kenc (KVersion ws vid) = m !! kenc (KVersion ws vid).
Proof using Hok Hops. intros Hs Hn. apply eff_same; [kok_tac|done|]. not_written. by eapply Hn. Qed.

Lemma eff_life l : l ∈ cm_lifes c →
  life_at m' ws (lc_version_id l) = Some l ∧ history_at m' ws (lc_version_id l) n = Some l.
Proof using Hok Hops Hlaws.
  intros Hl. split; (apply eff_rec; [done|]); unfold commitment_spec; rewrite !elem_of_app, elem_of_lifes;
    right; right; right; exists l; auto.
Qed.

Lemma eff_life_same vid : small vid → vid ∉ lc_version_id <$> cm_lifes c →
  m' !! kenc (KLife ws vid) = m !! kenc (KLife ws vid) ∧
  ∀ k, is_u64 k → m' !! kenc (KHist ws vid k) = m !! kenc (KHist ws vid k).
Proof using Hok Hops.
  intros Hs Hn. split; [|intros k Hk]; (apply eff_same; [kok_tac|done|]); not_written;
    apply Hn, list_elem_of_fmap; eauto.
Qed.

Lemma eff_history_same vid k : small vid → is_u64 k → k ≠ n →
  m' !! kenc (KHist ws vid k) = m !! kenc (KHist ws vid k).
Proof using Hok Hops. intros Hs Hk Hne. apply eff_same; [kok_tac|done|not_written]. Qed.

Lemma eff_idem_same ws' p o ks : kok (KIdem ws' p o ks) → KIdem ws' p o ks ≠ idem_key mu →
  m' !! kenc (KIdem ws' p o ks) = m !! kenc (KIdem ws' p o ks).
Proof using Hok Hops. intros Hk Hne. apply eff_same; [done|done|]. not_written. Qed.
End effect.

(** ** Commitments that keep the ledger well formed *)

(** How a version may move: it starts active, proposed or quarantined, a proposal
    may be activated, and an active version may be superseded, retracted or
    tombstoned; nothing leaves those last three or quarantine. *)
Definition allowed (from : option VersionState) (to : VersionState) : bool :=
  match from, to with
  | None, (Active | Proposed | Quarantined) | Some Proposed, Active
  | Some Active, (Superseded | Retracted | Tombstoned) => true
  | _, _ => false
  end.

Section coherent.
Context `{!ContentCodec, !LedgerCodec, !Sha256}.

(** A commitment follows on from the state: the next number, a new idempotency
    key, a fresh version if any, transitions of versions of its assertion that
    are allowed, and a head that lists what is then active. *)
Record coherent (m : gmap string string) (c : commitment) : Prop := {
  ch_next : mm_committed_sequence (cm_mutation c) = seq_at m (mm_workspace_id (cm_mutation c)) + 1;
  ch_idem : m !! kenc (idem_key (cm_mutation c)) = None;
  ch_quiet : cm_head c = None → cm_lifes c = [];
  ch_head h v : cm_head c = Some h → small v →
    v ∈ hd_active_version_ids h ↔
      (v, Active) ∈ life_states (cm_lifes c) ∨
      (v ∈ default [] (head_at m (mm_workspace_id (cm_mutation c)) (mm_assertion_id (cm_mutation c))) ∧
       v ∉ lc_version_id <$> cm_lifes c);
  ch_fresh v : cm_version c = Some v →
    m !! kenc (KVersion (mm_workspace_id (cm_mutation c)) (mv_version_id v)) = None ∧
    mv_version_id v ∈ lc_version_id <$> cm_lifes c;
  ch_owner v : v ∈ lc_version_id <$> cm_lifes c →
    (∃ r, cm_version c = Some r ∧ mv_version_id r = v) ∨
    owner_at m (mm_workspace_id (cm_mutation c)) v = Some (mm_assertion_id (cm_mutation c));
  ch_allowed v st : (v, st) ∈ life_states (cm_lifes c) →
    allowed (state_at m (mm_workspace_id (cm_mutation c)) v) st = true;
}.
End coherent.

Section keeps.
Context `{!ContentCodec, !LedgerCodec, !Sha256, Hlaws : !LedgerCodecLaws}.
Context (c : commitment) (ops : list BatchOperation) (m : gmap string string).
Hypothesis (Hok : commitment_ok c) (Hops : commits c ops) (Hco : coherent m c).

Abbreviation mu := (cm_mutation c).
Abbreviation ws := (mm_workspace_id (cm_mutation c)).
Abbreviation n := (mm_committed_sequence (cm_mutation c)).
Abbreviation aid := (mm_assertion_id (cm_mutation c)).
Abbreviation m' := (apply_batch m ops).

Hypothesis Hwf : ledger_wf m ws.

Lemma lifes_small v : v ∈ lc_version_id <$> cm_lifes c → small v.
Proof using Hok.
  intros (l & -> & Hl)%list_elem_of_fmap. destruct (co_life _ Hok l Hl) as (V & _). by apply lifecycle_ok in V as [_ V].
Qed.

Lemma keep_owner_new r : cm_version c = Some r → owner_at m' ws (mv_version_id r) = Some aid.
Proof using Hok Hops Hlaws.
  intros Hr. destruct (eff_version c ops m Hok Hops r Hr) as (v' & Hv' & [_ Ha _ _ _ _]).
  unfold owner_at. rewrite Hv'. cbn. rewrite Ha. by destruct (co_version _ Hok r Hr) as (_ & _ & ->).
Qed.

Lemma keep_owner_same v : small v → (∀ r, cm_version c = Some r → mv_version_id r ≠ v) →
  owner_at m' ws v = owner_at m ws v.
Proof using Hok Hops. intros Hs Hn. unfold owner_at, rec_at. by rewrite (eff_version_same c ops m Hok Hops v). Qed.

(** A version of the assertion, before or by the commitment. *)
Lemma keep_owner_life v : v ∈ lc_version_id <$> cm_lifes c → owner_at m' ws v = Some aid.
Proof using Hok Hops Hlaws Hco.
  intros Hv. destruct (ch_owner _ _ Hco v Hv) as [(r & Hr & <-)|Ho]; [by apply keep_owner_new|].
  rewrite keep_owner_same; [done|by apply lifes_small|]. intros r Hr <-.
  destruct (ch_fresh _ _ Hco r Hr) as [Hf _]. unfold owner_at, rec_at in Ho. by rewrite Hf in Ho.
Qed.

Lemma keep_owner_other v : small v → v ∉ lc_version_id <$> cm_lifes c → owner_at m' ws v = owner_at m ws v.
Proof using Hok Hops Hco.
  intros Hs Hv. apply keep_owner_same; [done|]. intros r Hr <-. by apply Hv, (ch_fresh _ _ Hco).
Qed.

Lemma keep_state v st : (v, st) ∈ life_states (cm_lifes c) → state_at m' ws v = Some st.
Proof using Hok Hops Hlaws.
  intros (l & [= -> ->] & Hl)%list_elem_of_fmap. unfold state_at.
  by destruct (eff_life c ops m Hok Hops l Hl) as [-> _].
Qed.

Lemma keep_life_other v : small v → v ∉ lc_version_id <$> cm_lifes c → life_at m' ws v = life_at m ws v.
Proof using Hok Hops.
  intros Hs Hv. unfold life_at, rec_at. by destruct (eff_life_same c ops m Hok Hops v Hs Hv) as [-> _].
Qed.

Lemma keep_head h : cm_head c = Some h → head_at m' ws aid = Some (hd_active_version_ids h).
Proof using Hok Hops Hlaws.
  intros Hh. destruct (co_head _ Hok h Hh) as (_ & _ & Ha). unfold head_at.
  by rewrite <-Ha, (eff_head c ops m Hok Hops h Hh).
Qed.

Lemma keep_head_other a : small a → (∀ h, cm_head c = Some h → a ≠ aid) →
  m' !! kenc (KHead ws a) = m !! kenc (KHead ws a).
Proof using Hok Hops.
  intros Hs Ha. apply (eff_head_same c ops m Hok Hops a Hs). intros h Hh.
  destruct (co_head _ Hok h Hh) as (_ & _ & ->). intros <-. by apply (Ha h).
Qed.

Lemma aid_small : small aid.
Proof using Hok. by destruct (mutation_small _ (co_mutation _ Hok)) as (_ & ? & _). Qed.

Lemma seq_range : 0 ≤ seq_at m ws ∧ n = seq_at m ws + 1 ∧ n ≤ u64_max.
Proof using Hok Hco.
  pose proof (co_sequence _ Hok) as Hn. pose proof (ch_next _ _ Hco) as Hx. lia.
Qed.

(** Fresh versions are owned by no assertion, and owned ones have a head. *)
Lemma owner_head v a : small v → owner_at m ws v = Some a → small a ∧ is_Some (head_at m ws a).
Proof using Hwf.
  intros Hs Ho. assert (is_Some (m !! kenc (KVersion ws v))) as Hv.
  { unfold owner_at, rec_at in Ho. destruct (m !! _); [by eexists|discriminate]. }
  destruct (wf_life _ _ Hwf v Hs (or_intror Hv)) as (l & a' & _ & _ & _ & _ & _ & Ho' & ?).
  rewrite Ho in Ho'. by injection Ho' as <-.
Qed.

Lemma keep_head_some a : small a → is_Some (head_at m ws a) → is_Some (head_at m' ws a).
Proof using Hok Hops Hlaws.
  intros Hs Ha. destruct (cm_head c) as [h|] eqn:Eh; [destruct (decide (a = aid)) as [->|Hne]|].
  - rewrite (keep_head h); [by eexists|done].
  - unfold head_at, rec_at in *. by rewrite keep_head_other by done.
  - unfold head_at, rec_at in *. by rewrite keep_head_other by (try done; congruence).
Qed.

Lemma keep_active a hs v : small a → small v → head_at m' ws a = Some hs →
  v ∈ hs ↔ owner_at m' ws v = Some a ∧ state_at m' ws v = Some Active.
Proof using Hok Hops Hlaws Hco Hwf.
  intros Ha Hv Hh. destruct (decide (v ∈ lc_version_id <$> cm_lifes c)) as [Hin|Hin].
  - rewrite (keep_owner_life v Hin). destruct (cm_head c) as [h|] eqn:Eh;
      [|by rewrite (ch_quiet _ _ Hco Eh) in Hin; apply elem_of_nil in Hin].
    destruct (decide (a = aid)) as [->|Hne].
    + rewrite (keep_head h Eh) in Hh. injection Hh as <-. rewrite (ch_head _ _ Hco h v Eh Hv).
      apply list_elem_of_fmap in Hin as Hl. destruct Hl as (l & El & Hl).
      assert ((v, lc_state l) ∈ life_states (cm_lifes c)) as Hls.
      { apply list_elem_of_fmap. exists l. by rewrite El. }
      rewrite (keep_state v _ Hls). split.
      * intros [Hact|[_ Hx]]; [|done]. split; [done|]. by rewrite <-(keep_state v _ Hls), (keep_state v _ Hact).
      * intros [_ [= Es]]. left. by rewrite <-Es.
    + split; [|naive_solver]. intros Hvh. exfalso. unfold head_at, rec_at in Hh.
      rewrite keep_head_other in Hh by done. apply (wf_active _ _ Hwf a hs v Ha Hv Hh) in Hvh as [Ho _].
      destruct (ch_owner _ _ Hco v Hin) as [(r & Hr & <-)|Ho'].
      * destruct (ch_fresh _ _ Hco r Hr) as [Hf _]. unfold owner_at, rec_at in Ho. by rewrite Hf in Ho.
      * congruence.
  - rewrite keep_owner_other by done. unfold state_at. rewrite keep_life_other by done.
    fold (state_at m ws v). destruct (cm_head c) as [h|] eqn:Eh; [destruct (decide (a = aid)) as [->|Hne]|].
    + rewrite (keep_head h Eh) in Hh. injection Hh as <-. rewrite (ch_head _ _ Hco h v Eh Hv).
      assert ((v, Active) ∉ life_states (cm_lifes c)) as Hna.
      { intros (l & [= -> _] & Hl)%list_elem_of_fmap. by apply Hin, list_elem_of_fmap_2. }
      destruct (head_at m ws aid) as [hs|] eqn:Eold; cbn [default].
      * rewrite <-(wf_active _ _ Hwf aid hs v Ha Hv Eold). naive_solver.
      * split; [intros [?|[?%elem_of_nil _]]; done|]. intros [Ho _].
        destruct (owner_head v aid Hv Ho) as [_ [? Hs]]. by rewrite Eold in Hs.
    + unfold head_at, rec_at in Hh. rewrite keep_head_other in Hh by done. by apply (wf_active _ _ Hwf).
    + unfold head_at, rec_at in Hh. rewrite keep_head_other in Hh by (try done; congruence).
      by apply (wf_active _ _ Hwf).
Qed.
Lemma keep_logged k r : is_u64 k → logged m ws k r → logged m' ws k r.
Proof using Hok Hops Hco Hwf.
  intros Hk [L1 L2 L3 L4 L5 L6 L7 L8]. destruct seq_range as (H0n & Hn & Hmax).
  assert (k ≠ n) as Hne.
  { intros ->. destruct (wf_beyond _ _ Hwf n Hk) as [Hm _]; [lia|].
    unfold mutation_at, rec_at in L1. by rewrite Hm in L1. }
  destruct (eff_log_same c ops m Hok Hops k) as [Em Eo]; [done..|].
  destruct (mutation_small _ L2) as (_ & _ & ? & ? & _). pose proof (ws_small c Hok).
  split; try done.
  - unfold mutation_at, rec_at in *. by rewrite Em.
  - unfold outbox_at, rec_at in *. by rewrite Eo.
  - unfold rec_at, idem_key in *. rewrite L3 in *. rewrite (eff_idem_same c ops m Hok Hops) by
      (try kok_tac; intros E; pose proof (ch_idem _ _ Hco) as Hi; rewrite <-E in Hi; by rewrite Hi in L7).
    done.
Qed.

Lemma new_logged : logged m' ws n mu.
Proof using Hok Hops Hlaws.
  split; try apply Hok; try done; [by apply eff_mutation|by apply eff_outbox|by apply eff_idem].
Qed.

Lemma keep_log k : 1 ≤ k ≤ n → ∃ r, logged m' ws k r.
Proof using Hok Hops Hlaws Hco Hwf.
  intros Hk. destruct seq_range as (H0n & Hn & Hmax).
  destruct (decide (k = n)) as [->|Hne]; [exists mu; apply new_logged|].
  destruct (wf_log _ _ Hwf k ltac:(lia)) as (r & Hr). exists r. apply keep_logged; [unfold in_range; lia|done].
Qed.

Lemma keep_beyond k : is_u64 k → k = 0 ∨ n < k →
  m' !! kenc (KMut ws k) = None ∧ m' !! kenc (KOutbox ws k) = None.
Proof using Hok Hops Hco Hwf.
  intros Hu Hk. destruct seq_range as (H0n & Hn & Hmax).
  destruct (eff_log_same c ops m Hok Hops k) as [-> ->]; [done|lia|]. apply (wf_beyond _ _ Hwf); [done|lia].
Qed.

Lemma keep_heads a : small a → is_Some (m' !! kenc (KHead ws a)) →
  ∃ h, rec_at m' (KHead ws a) = Some h ∧ head_validate h = Ok tt ∧ hd_workspace_id h = ws ∧ hd_assertion_id h = a.
Proof using Hok Hops Hlaws Hwf.
  intros Hs Hh. destruct (cm_head c) as [h|] eqn:Eh; [destruct (decide (a = aid)) as [->|Hne]|].
  - exists h. destruct (co_head _ Hok h Eh) as (Hv & Hw & Ha). split_and!; try done.
    rewrite <-Ha. by apply eff_head.
  - unfold rec_at. rewrite keep_head_other in * by done. by apply (wf_head _ _ Hwf).
  - unfold rec_at. rewrite keep_head_other in * by (try done; congruence). by apply (wf_head _ _ Hwf).
Qed.

Lemma keep_lifes v : small v → is_Some (m' !! kenc (KLife ws v)) ∨ is_Some (m' !! kenc (KVersion ws v)) →
  ∃ l a, life_at m' ws v = Some l ∧ lifecycle_validate l = Ok tt ∧ lc_workspace_id l = ws ∧
    lc_version_id l = v ∧ 1 ≤ lc_transition_sequence l ≤ n ∧
    owner_at m' ws v = Some a ∧ small a ∧ is_Some (head_at m' ws a).
Proof using Hok Hops Hlaws Hco Hwf.
  intros Hs Hl. destruct seq_range as (H0n & Hn & Hmax).
  destruct (decide (v ∈ lc_version_id <$> cm_lifes c)) as [Hin|Hin].
  - rewrite (keep_owner_life v Hin). apply list_elem_of_fmap in Hin as (l & -> & Hin). exists l, aid.
    destruct (eff_life c ops m Hok Hops l Hin) as [-> _]. destruct (co_life _ Hok l Hin) as (V & Hw & Hq).
    split_and!; try done; [lia..|by apply aid_small|].
    destruct (cm_head c) as [h|] eqn:Eh; [rewrite (keep_head h Eh); by eexists|].
    rewrite (ch_quiet _ _ Hco Eh) in Hin. by apply elem_of_nil in Hin.
  - destruct (eff_life_same c ops m Hok Hops v Hs Hin) as [El _].
    rewrite El, (eff_version_same c ops m Hok Hops v Hs) in Hl
      by (intros r Hr <-; by apply Hin, (ch_fresh _ _ Hco)).
    destruct (wf_life _ _ Hwf v Hs Hl) as (l & a & Hl' & V & Hw & Hi & Hq & Ho & Ha & Hh).
    exists l, a. rewrite keep_life_other, keep_owner_other by done. split_and!; try done; [lia..|].
    by apply keep_head_some.
Qed.

Lemma keep_history v k : small v → is_u64 k → is_Some (m' !! kenc (KHist ws v k)) →
  ∃ l, history_at m' ws v k = Some l ∧ lifecycle_validate l = Ok tt ∧ lc_workspace_id l = ws ∧
    lc_version_id l = v ∧ lc_transition_sequence l = k ∧ 1 ≤ k ≤ n.
Proof using Hok Hops Hlaws Hco Hwf.
  intros Hs Hu Hh. destruct seq_range as (H0n & Hn & Hmax).
  assert (m' !! kenc (KHist ws v k) = m !! kenc (KHist ws v k) →
    ∃ l, history_at m' ws v k = Some l ∧ lifecycle_validate l = Ok tt ∧ lc_workspace_id l = ws ∧
      lc_version_id l = v ∧ lc_transition_sequence l = k ∧ 1 ≤ k ≤ n) as Hold.
  { intros E. rewrite E in Hh. destruct (wf_history _ _ Hwf v k Hs Hu Hh) as (l & Hl & V & Hw & Hi & Hk & Hq).
    exists l. unfold history_at, rec_at in *. rewrite E. split_and!; try done; lia. }
  destruct (decide (v ∈ lc_version_id <$> cm_lifes c)) as [Hin|Hin].
  2: { apply Hold. by apply (eff_life_same c ops m Hok Hops v Hs Hin). }
  destruct (decide (k = n)) as [->|Hne]; [|by apply Hold, eff_history_same].
  apply list_elem_of_fmap in Hin as (l & -> & Hin). exists l.
  destruct (eff_life c ops m Hok Hops l Hin) as [_ ->]. destruct (co_life _ Hok l Hin) as (V & Hw & Hq).
  split_and!; try done; lia.
Qed.

Lemma keep_current v l : small v → life_at m' ws v = Some l →
  history_at m' ws v (lc_transition_sequence l) = Some l ∧
  ∀ k, is_u64 k → lc_transition_sequence l < k → m' !! kenc (KHist ws v k) = None.
Proof using Hok Hops Hlaws Hco Hwf.
  intros Hs Hl. destruct seq_range as (H0n & Hn & Hmax).
  destruct (decide (v ∈ lc_version_id <$> cm_lifes c)) as [Hin|Hin].
  - apply list_elem_of_fmap in Hin as (l' & -> & Hin). destruct (eff_life c ops m Hok Hops l' Hin) as [E1 E2].
    rewrite Hl in E1. injection E1 as <-. destruct (co_life _ Hok l Hin) as (_ & _ & Hq).
    rewrite Hq. split; [done|]. intros k Hu Hk. rewrite (eff_history_same c ops m Hok Hops) by (done || lia).
    apply eq_None_not_Some. intros Hx. destruct (wf_history _ _ Hwf _ _ Hs Hu Hx) as (_ & _ & _ & _ & _ & _ & ?). lia.
  - rewrite keep_life_other in Hl by done. destruct (wf_current _ _ Hwf v l Hs Hl) as [Hc Hn'].
    destruct (eff_life_same c ops m Hok Hops v Hs Hin) as [_ Eh].
    assert (is_Some (m !! kenc (KLife ws v))) as Hlk.
    { unfold life_at, rec_at in Hl. destruct (m !! _); [by eexists|discriminate]. }
    destruct (wf_life _ _ Hwf v Hs (or_introl Hlk)) as (l' & _ & Hl' & _ & _ & _ & Hq & _).
    rewrite Hl in Hl'. injection Hl' as <-.
    unfold history_at, rec_at in *. rewrite Eh by (unfold in_range; lia). split; [done|].
    intros k Hu Hk. rewrite Eh by done. by apply Hn'.
Qed.

Lemma wf_commitment : ledger_wf m' ws.
Proof using Hok Hops Hlaws Hco Hwf.
  destruct seq_range as (H0n & Hn & Hmax). pose proof (eff_seq c ops m Hok Hops) as Eq.
  split; rewrite ?Eq; [|exact keep_log|exact keep_beyond|exact keep_heads|exact keep_lifes
    |exact keep_active|exact keep_history|exact keep_current].
  right. exists n. split; [by apply eff_meta|]. lia.
Qed.
End keeps.
