(* ===== verification/LedgerSteps.v ===== *)
(** * The operations of the memory ledger follow on from its state

    What the reads of the ledger give of a well-formed state, and that the batch
    each writing operation plans is a commitment coherent with the state it was
    planned in. *)

From Stdlib Require Import Ascii.
From S2P Require Import Prelude Float32 Text Sorting Storage Hex Keys Filter Knowledge MemoryContracts LedgerModel Ledger LedgerProps LedgerState.

Section loads.
Context `{!UnicodeNormalization, !CharTables, !ContentCodec, !LedgerCodec, !Sha256, !Hmac}.
Context {S : Type} `{!StorageBackend S, !StorageLaws S} (s : S) (ws : string).

Abbreviation m := (sb_view s).

Lemma load_record_some {A} `{!Serde A} k label validate identity (a : A) :
  load_record s (kenc k) label validate identity = Ok (Some a) →
  rec_at m k = Some a ∧ validate a = Ok tt ∧ identity a = true.
Proof.
  unfold load_record. intros E. binds E. apply lstored_ok, sb_get_ok in E0. subst x.
  unfold rec_at. destruct (m !! kenc k) as [b|]; [|discriminate]. binds E.
  apply lcorrupt_ok in E1. unfold decode_record in E0. cbn. destruct (of_json b); [|discriminate].
  injection E0 as ->. injection E as ->. by apply negb_false_iff in E2.
Qed.

Lemma load_none {A} `{!Serde A} k label validate identity :
  load_record s (kenc k) label validate identity = Ok (None : option A) → m !! kenc k = None.
Proof.
  unfold load_record. intros E. binds E. apply lstored_ok, sb_get_ok in E0. subst x.
  destruct (m !! kenc k) as [b|]; [|done]. by binds E.
Qed.

Lemma load_head_some aid h :
  load_head_unlocked s ws aid = Ok (Some h) →
  rec_at m (KHead ws aid) = Some h ∧ head_validate h = Ok tt ∧ hd_workspace_id h = ws ∧ hd_assertion_id h = aid.
Proof.
  intros (Hr & V & I)%(load_record_some (KHead ws aid)). apply andb_true_iff in I as [I1 I2].
  by apply String.eqb_eq in I1, I2.
Qed.

Lemma load_head_at aid o :
  load_head_unlocked s ws aid = Ok o → head_at m ws aid = hd_active_version_ids <$> o.
Proof.
  intros E. unfold head_at. destruct o as [h|].
  - apply load_head_some in E as (-> & _). done.
  - apply (load_none (KHead ws aid)) in E. unfold rec_at. by rewrite E.
Qed.

Lemma load_version_some vid v :
  load_version_unlocked s ws vid = Ok (Some v) →
  rec_at m (KVersion ws vid) = Some v ∧ version_validate v = Ok tt ∧
  ms_workspace_id (mv_scope v) = ws ∧ mv_version_id v = vid.
Proof.
  intros (Hr & V & I)%(load_record_some (KVersion ws vid)). apply andb_true_iff in I as [I1 I2].
  by apply String.eqb_eq in I1, I2.
Qed.

Lemma load_lifecycle_some vid l :
  load_lifecycle_unlocked s ws vid = Ok (Some l) → life_at m ws vid = Some l.
Proof. by intros (Hr & _)%(load_record_some (KLife ws vid)). Qed.

Lemma current_sequence_at n : current_sequence_unlocked s ws = Ok n → n = seq_at m ws.
Proof.
  unfold current_sequence_unlocked. intros E. binds E. apply lstored_ok, sb_get_ok in E0. subst x.
  change (meta_key ws) with (kenc (KMeta ws)) in E. unfold seq_at, rec_at.
  destruct (m !! kenc (KMeta ws)) as [b|]; [|by injection E as <-]. binds E.
  unfold decode_record in E0. cbn. destruct (of_json b); [|discriminate].
  injection E0 as ->. by injection E as <-.
Qed.

Lemma next_sequence_at n :
  ledger_wf m ws → next_sequence s ws = Ok n → n = seq_at m ws + 1 ∧ 1 ≤ n ≤ u64_max.
Proof.
  intros Hwf E. unfold next_sequence in E. binds E. apply current_sequence_at in E0. subst x.
  apply ok_or_ok, checked_add_Some in E as [-> Hmax]. split; [done|].
  assert (0 ≤ seq_at m ws); [|lia].
  destruct (wf_meta _ _ Hwf) as [Hm|(q & Hm & ?)]; unfold seq_at, rec_at in *; rewrite Hm; cbn; lia.
Qed.

Lemma idempotent_none principal o key_sha request_sha extra mismatch :
  idempotent_record s ws principal o key_sha request_sha extra mismatch = Ok None →
  m !! kenc (KIdem ws principal o key_sha) = None.
Proof.
  unfold idempotent_record. intros E. binds E. apply lstored_ok, sb_get_ok in E0. subst x.
  change (idempotency_key ws principal o key_sha) with (kenc (KIdem ws principal o key_sha)) in E.
  destruct (m !! _); [|done]. by binds E.
Qed.

Lemma sorted_ids_perm l k : sorted_ids l = sorted_ids k → l ≡ₚ k.
Proof. intros E. rewrite <-(sort_by_perm bytes_cmp l), <-(sort_by_perm bytes_cmp k). unfold sorted_ids in E. by rewrite E. Qed.

Lemma expected_heads_ok expected actual : ensure_expected_heads expected actual = Ok tt → expected ≡ₚ actual.
Proof.
  unfold ensure_expected_heads. case_bool_decide as E; [|discriminate]. intros _. by apply sorted_ids_perm.
Qed.
End loads.

(** ** The plans *)

Section plans.
Context `{!UnicodeNormalization, !CharTables, !ContentCodec, !LedgerCodec, !Sha256, !Hmac}.
Context {S : Type} `{!StorageBackend S, !StorageLaws S} (key : list Z).

(** The batch of a request that follows on from the state. *)
Record follows (m : gmap string string) (ws : string) (c : commitment) (ops : list BatchOperation) : Prop := {
  fo_ok : commitment_ok c;
  fo_ops : commits c ops;
  fo_coherent : coherent m c;
  fo_workspace : mm_workspace_id (cm_mutation c) = ws;
}.

(** A request that was not committed before: the idempotency record is absent,
    and the new number is the next one. *)
Ltac not_previous E Hwf :=
  match type of E with match ?i with Some _ => _ | None => _ end = _ => destruct i; [by binds E|] end;
  binds E;
  match goal with Hi : idempotent_record _ _ _ _ _ _ _ _ = Ok None |- _ => apply idempotent_none in Hi end;
  match goal with Hn : next_sequence _ _ = Ok ?n |- _ =>
    apply (next_sequence_at _ _ _ Hwf) in Hn as [Hn ?]; subst n
  end.

(** What was looked up and found. *)
Ltac found :=
  repeat match goal with
         | E : ok_or ?o _ = Ok _ |- _ => apply ok_or_ok in E; subst o
         | E : load_lifecycle_unlocked _ _ _ = Ok (Some _) |- _ => apply load_lifecycle_some in E
         | E : load_version_unlocked _ _ _ = Ok (Some _) |- _ =>
             let Hw := fresh "Hw" in let Hid := fresh "Hid" in apply load_version_some in E as (E & _ & Hw & Hid)
         end.

(** A commitment of the request with the given idempotency key and fingerprint. *)
Definition requested (ws principal : string) (o : MemoryOperation) (idempotency_key : string)
    (fingerprint : LResult string) (n : Z) (c : commitment) (ops : list BatchOperation) : Prop :=
  ∃ request_sha, fingerprint = Ok request_sha ∧
    commit_of ws principal o (sha256_hex idempotency_key) request_sha n c ops.

(** A commitment that changes no version. *)
Lemma follows_quiet m ws principal o key_sha request_sha n c ops :
  commit_of ws principal o key_sha request_sha n c ops → n = seq_at m ws + 1 →
  m !! kenc (KIdem ws principal o key_sha) = None →
  cm_head c = None → cm_version c = None → cm_lifes c = [] → follows m ws c ops.
Proof.
  intros [Hok Hops <- <- <- <- <- <-] Hn Hi Hh Hv Hl. split; try done. split; try done.
  - intros h v Eh. congruence.
  - intros v Ev. congruence.
  - rewrite Hl. by intros v ?%elem_of_nil.
  - rewrite Hl. by intros v st ?%elem_of_nil.
Qed.

Lemma life_ids ls : lc_version_id <$> ls = (life_states ls).*1.
Proof. unfold life_states. by rewrite <-list_fmap_compose. Qed.

Lemma observe_follows uuid s p r rc ops :
  ledger_wf (sb_view s) (ms_workspace_id (or_scope r)) →
  observe_plan key uuid s p r = Ok (rc, Some ops) →
  ∃ c, follows (sb_view s) (ms_workspace_id (or_scope r)) c ops ∧ cm_version c = None ∧ cm_lifes c = [] ∧
    requested (ms_workspace_id (or_scope r)) (or_principal_id r) MObserve (or_idempotency_key r)
      (canonical_observe_sha256 r) (seq_at (sb_view s) (ms_workspace_id (or_scope r)) + 1) c ops ∧
    oc_outcome rc = Committed ∧ observe_receipt_of (cm_mutation c) rc.
Proof.
  intros Hwf E. unfold observe_plan in E. binds E.
  not_previous E Hwf.
  apply observe_commit_ok in E as (c & ops' & [= <-] & Hc & Hh & Hv & Hl & Ho & Hr); [|done].
  exists c. split_and!; try done; [by eapply follows_quiet|by eexists].
Qed.

Lemma reinforce_follows uuid s p r rc ops :
  ledger_wf (sb_view s) (rr_workspace_id r) → reinforce_plan key uuid s p r = Ok (rc, Some ops) →
  ∃ c, follows (sb_view s) (rr_workspace_id r) c ops ∧ cm_version c = None ∧ cm_lifes c = [] ∧
    requested (rr_workspace_id r) (rr_principal_id r) MReinforce (rr_idempotency_key r)
      (canonical_reinforce_sha256 r) (seq_at (sb_view s) (rr_workspace_id r) + 1) c ops ∧
    rc_outcome rc = Committed ∧ receipt_of (cm_mutation c) rc.
Proof.
  intros Hwf E. unfold reinforce_plan in E. binds E.
  not_previous E Hwf.
  apply reinforce_commit_ok in E as (c & ops' & [= <-] & Hc & Hh & Hv & Hl & Ho & Hr); [|done].
  exists c. split_and!; try done; [by eapply follows_quiet|by eexists].
Qed.
(** What the head of an assertion lists. *)
Definition heads_at (m : gmap string string) ws aid : list string := default [] (head_at m ws aid).

Lemma heads_active m ws aid v :
  ledger_wf m ws → small aid → small v → v ∈ heads_at m ws aid →
  owner_at m ws v = Some aid ∧ state_at m ws v = Some Active.
Proof.
  unfold heads_at. intros Hwf Ha Hv Hin. destruct (head_at m ws aid) as [hs|] eqn:E; [|by apply elem_of_nil in Hin].
  by apply (wf_active _ _ Hwf aid hs v Ha Hv E).
Qed.

Lemma heads_valid s ws aid h :
  load_head_unlocked s ws aid = Ok (Some h) →
  hd_active_version_ids h = heads_at (sb_view s) ws aid ∧ NoDup (hd_active_version_ids h) ∧
  Forall small (hd_active_version_ids h) ∧ small aid.
Proof.
  intros E. unfold heads_at. rewrite (load_head_at _ _ _ _ E).
  apply load_head_some in E as (_ & V & _ & <-). by apply head_ok in V as (_ & ? & ? & ?).
Qed.

Lemma load_heads_ok s ws aid ihash identity existing heads :
  load_heads s ws aid ihash identity = Ok (existing, heads) →
  heads = heads_at (sb_view s) ws aid ∧ NoDup heads ∧ Forall small heads.
Proof.
  unfold load_heads. intros E. binds E. destruct x as [a|], x0 as [h|]; try discriminate.
  - binds E. injection E as _ <-. by apply heads_valid in E1 as (? & ? & ? & _).
  - injection E as _ <-. unfold heads_at. rewrite (load_head_at _ _ _ _ E1). split_and!; [done|constructor..].
Qed.

(** A version that is not stored has no lifecycle. *)
Lemma fresh_state m ws v :
  ledger_wf m ws → small v → m !! kenc (KVersion ws v) = None → state_at m ws v = None.
Proof.
  intros Hwf Hs Hf. unfold state_at, life_at, rec_at. destruct (m !! kenc (KLife ws v)) eqn:E; [|done].
  destruct (wf_life _ _ Hwf v Hs) as (l & a & _ & _ & _ & _ & _ & Ho & _); [left; by rewrite E|].
  unfold owner_at, rec_at in Ho. by rewrite Hf in Ho.
Qed.

Lemma elem_states {A} (f : A → string * VersionState) (l : list A) x st :
  (x, st) ∈ f <$> l ↔ ∃ a, a ∈ l ∧ f a = (x, st).
Proof. rewrite list_elem_of_fmap. naive_solver. Qed.

(** The dispositions of commit, correct and propose. *)
Definition disposition_ok (d : CommitDisposition) : Prop :=
  version_op (d_operation d) ∧
  if d_changes_head d then d_initial_state d = Active
  else d_initial_state d = Proposed ∨ d_initial_state d = Quarantined.

Lemma version_coherent m ws principal o key_sha request_sha c ops h v d heads :
  ledger_wf m ws →
  commit_of ws principal o key_sha request_sha (seq_at m ws + 1) c ops →
  m !! kenc (KIdem ws principal o key_sha) = None →
  m !! kenc (KVersion ws (mv_version_id v)) = None →
  disposition_ok d → heads = heads_at m ws (mm_assertion_id (cm_mutation c)) → Forall small heads →
  cm_head c = Some h →
  hd_active_version_ids h = (if d_changes_head d then [mv_version_id v] else heads) →
  cm_version c = Some v →
  life_states (cm_lifes c) = (mv_version_id v, d_initial_state d)
    :: (if d_changes_head d then (λ x, (x, Superseded)) <$> heads else []) →
  mv_version_id v ∉ heads → coherent m c.
Proof.
  intros Hwf Hc Hi Hf [_ Hd] -> Hsm Hh Hhs Hv Hls Hnin.
  destruct Hc as [Hok Hops <- <- <- <- <- Hn].
  set (ws := mm_workspace_id _) in *. set (aid := mm_assertion_id _) in *.
  destruct (mutation_small _ (co_mutation _ Hok)) as (_ & Ha & _).
  destruct (co_version _ Hok v Hv) as (Vv & _). apply version_ok in Vv as (Hsv & _).
  assert (∀ x, x ∈ heads_at m ws aid → owner_at m ws x = Some aid ∧ state_at m ws x = Some Active) as Hact.
  { intros x Hx. rewrite Forall_forall in Hsm. by apply heads_active; auto. }
  assert (∀ x st, (x, st) ∈ life_states (cm_lifes c) ↔
    (x = mv_version_id v ∧ st = d_initial_state d) ∨
    (d_changes_head d = true ∧ x ∈ heads_at m ws aid ∧ st = Superseded)) as Hin.
  { intros x st. rewrite Hls, elem_of_cons. destruct (d_changes_head d); rewrite ?elem_states, ?elem_of_nil; naive_solver. }
  assert (∀ x, x ∈ lc_version_id <$> cm_lifes c ↔
    x = mv_version_id v ∨ (d_changes_head d = true ∧ x ∈ heads_at m ws aid)) as Hids.
  { intros x. rewrite life_ids, list_elem_of_fmap. split.
    - intros ([y st] & -> & Hy%Hin). naive_solver.
    - intros [-> |[? ?]]; [eexists (_, _)|eexists (_, Superseded)]; (split; [|apply Hin]); naive_solver. }
  split; [exact Hn|exact Hi|congruence|..].
  - intros h' x Eh Hx. rewrite Hh in Eh. injection Eh as <-. fold ws aid. fold (heads_at m ws aid).
    rewrite Hin, Hids, Hhs. destruct (d_changes_head d).
    + rewrite list_elem_of_singleton, Hd. split; [by left; left|].
      intros [[[-> _]|(_ & _ & [=])]|[Hx' Hno]]; [done|]. destruct Hno. by right.
    + split; [intros Hx'; right; split; [done|]; by intros [-> |[? _]]|].
      intros [[[_ Ed]|(? & _)]|[? _]]; [|done|done]. rewrite <-Ed in Hd. by destruct Hd.
  - intros v' Ev. rewrite Hv in Ev. injection Ev as <-. split; [done|]. apply Hids. by left.
  - intros x [-> |[_ Hx]]%Hids; [left; eauto|right; by apply Hact].
  - intros x st [[-> ->]|(_ & Hx & ->)]%Hin; fold ws.
    + rewrite fresh_state by done. destruct (d_changes_head d); [by rewrite Hd|by destruct Hd as [-> | ->]].
    + by destruct (Hact x Hx) as [_ ->].
Qed.

(** The versions of [heads] have at most the given authority. *)
Definition outranks (m : gmap string string) ws (a : DecisionAuthority) (heads : list string) : Prop :=
  ∀ x, x ∈ heads → ∃ v, rec_at m (KVersion ws x) = Some v ∧
    decision_authority_rank (mv_decision_authority v) ≤ decision_authority_rank a.

Lemma ensure_authority_ok s ws a heads msg :
  ensure_authority s ws a heads msg = Ok tt → outranks (sb_view s) ws a heads.
Proof.
  induction heads as [|x heads IH]; intros E y Hy; [by apply elem_of_nil in Hy|].
  cbn [ensure_authority] in E. binds E. apply ok_or_ok in E1. subst. apply load_version_some in E0 as (Hv & _).
  apply elem_of_cons in Hy as [-> |Hy]; [|by apply IH]. exists x1. split; [done|]. by apply Z.ltb_ge in E2.
Qed.

Lemma version_follows uuid s p r d rc ops :
  let ws := ms_workspace_id (cr_scope r) in
  ledger_wf (sb_view s) ws → disposition_ok d →
  (small (new_id uuid 1 "mem_v") → sb_view s !! kenc (KVersion ws (new_id uuid 1 "mem_v")) = None) →
  commit_version_plan key uuid s p r d = Ok (rc, Some ops) →
  ∃ c v, follows (sb_view s) ws c ops ∧ cm_version c = Some v ∧ mv_version_id v = new_id uuid 1 "mem_v" ∧
    assertion_id (request_identity r) = Ok (mm_assertion_id (cm_mutation c)) ∧
    cr_expected_head_version_ids r ≡ₚ heads_at (sb_view s) ws (mm_assertion_id (cm_mutation c)) ∧
    (d_changes_head d = true → outranks (sb_view s) ws (mv_decision_authority v)
       (heads_at (sb_view s) ws (mm_assertion_id (cm_mutation c)))) ∧
    (∀ x, (x, Superseded) ∈ life_states (cm_lifes c) → d_changes_head d = true) ∧
    (∃ h, cm_head c = Some h ∧ hd_active_version_ids h = (if d_changes_head d then [mv_version_id v]
       else heads_at (sb_view s) ws (mm_assertion_id (cm_mutation c)))) ∧
    requested ws (cr_principal_id r) (d_operation d) (cr_idempotency_key r) (canonical_request_sha256 r)
      (seq_at (sb_view s) ws + 1) c ops ∧
    rc_outcome rc = Committed ∧ rc_version_state rc = d_initial_state d ∧ receipt_of (cm_mutation c) rc.
Proof.
  intros ws Hwf Hd Hf E. unfold commit_version_plan in E. binds E. not_previous E Hwf.
  match type of E with (let (_, _) := ?x in _) = _ => destruct x as [existing heads] end. binds E.
  match goal with L : load_heads _ _ _ _ _ = _ |- _ => apply load_heads_ok in L as (-> & Hnd & Hsm) end.
  match goal with L : ensure_expected_heads _ _ = _ |- _ => apply expected_heads_ok in L end.
  match goal with L : lcontract (assertion_id _) = _ |- _ => apply lcontract_ok in L end.
  apply version_commit_ok in E as (c & ops' & h & v & [= <-] & Hc & Ha & Hh & Hhs & Hv & Hid & Hau & Hls & Hnin & Ho & Hst & Hr);
    [|done|done|by destruct Hd]. rewrite <-Hid in Hhs, Hls, Hnin, Hf. rewrite <-Ha in *.
  exists c, v. split_and!; try done.
  - split; try apply Hc. eapply version_coherent; try done. apply Hf.
    destruct (co_version _ (cf_ok _ _ _ _ _ _ _ _ Hc) v Hv) as (Vv & _). by apply version_ok in Vv as [? _].
  - intros Hch. rewrite Hch in *. rewrite Hau. by eapply ensure_authority_ok.
  - intros x. rewrite Hls. destruct Hd as [_ Hd]. destruct (d_changes_head d); [done|].
    intros [= _ Es]%list_elem_of_singleton. rewrite <-Es in Hd. by destruct Hd.
  - by exists h.
  - by eexists.
Qed.

(** What is superseded was listed by the head. *)
Lemma superseded_head m c v :
  ledger_wf m (mm_workspace_id (cm_mutation c)) → commitment_ok c → coherent m c →
  (v, Superseded) ∈ life_states (cm_lifes c) →
  v ∈ heads_at m (mm_workspace_id (cm_mutation c)) (mm_assertion_id (cm_mutation c)).
Proof.
  intros Hwf Hok Hco Hv. pose proof (ch_allowed _ _ Hco v _ Hv) as Hal.
  set (ws := mm_workspace_id _) in *. set (aid := mm_assertion_id _) in *.
  assert (v ∈ lc_version_id <$> cm_lifes c) as Hin.
  { apply list_elem_of_fmap in Hv as (l & [= -> _] & Hl). by apply list_elem_of_fmap_2. }
  assert (small v) as Hs by (by apply (lifes_small c)).
  destruct (mutation_small _ (co_mutation _ Hok)) as (_ & Ha & _).
  assert (state_at m ws v = Some Active) as Hst by (by destruct (state_at m ws v) as [[]|]).
  assert (owner_at m ws v = Some aid) as Ho.
  { destruct (ch_owner _ _ Hco v Hin) as [(r & Hr & <-)|?]; [|done].
    destruct (ch_fresh _ _ Hco r Hr) as [Hf _]. by rewrite (fresh_state _ _ _ Hwf Hs Hf) in Hst. }
  destruct (owner_head c m Hwf v aid Hs Ho) as [_ [hs Hh]]. fold ws in Hh. unfold heads_at. rewrite Hh.
  by apply (wf_active _ _ Hwf aid hs v).
Qed.
(** A commitment that moves stored versions of its assertion: [moved] to active,
    if any, and some of the heads out of it. *)
Lemma moves_coherent m ws principal o key_sha request_sha c ops h heads moved targets st :
  ledger_wf m ws →
  commit_of ws principal o key_sha request_sha (seq_at m ws + 1) c ops →
  m !! kenc (KIdem ws principal o key_sha) = None →
  heads = heads_at m ws (mm_assertion_id (cm_mutation c)) → Forall small heads →
  (∀ x, x ∈ targets → x ∈ heads) → allowed (Some Active) st = true →
  (∀ x, x ∈ moved → x ∉ heads ∧ owner_at m ws x = Some (mm_assertion_id (cm_mutation c)) ∧
     state_at m ws x = Some Proposed) →
  cm_head c = Some h → cm_version c = None →
  (∀ x, x ∈ hd_active_version_ids h ↔ x ∈ moved ∨ (x ∈ heads ∧ x ∉ targets)) →
  life_states (cm_lifes c) = ((λ x, (x, Active)) <$> moved) ++ ((λ x, (x, st)) <$> targets) →
  coherent m c.
Proof.
  intros Hwf Hc Hi -> Hsm Htg Hst Hmv Hh Hv Hhs Hls. destruct Hc as [Hok Hops <- <- <- <- <- Hn].
  set (ws := mm_workspace_id _) in *. set (aid := mm_assertion_id _) in *.
  destruct (mutation_small _ (co_mutation _ Hok)) as (_ & Ha & _).
  assert (∀ x, x ∈ heads_at m ws aid → owner_at m ws x = Some aid ∧ state_at m ws x = Some Active) as Hact.
  { intros x Hx. rewrite Forall_forall in Hsm. by apply heads_active; auto. }
  assert (∀ x st', (x, st') ∈ life_states (cm_lifes c) ↔ (x ∈ moved ∧ st' = Active) ∨ (x ∈ targets ∧ st' = st)) as Hin.
  { intros x st'. rewrite Hls, elem_of_app, !elem_states. naive_solver. }
  assert (∀ x, x ∈ lc_version_id <$> cm_lifes c ↔ x ∈ moved ∨ x ∈ targets) as Hids.
  { intros x. rewrite life_ids, list_elem_of_fmap. split.
    - intros ([y st'] & -> & Hy%Hin). naive_solver.
    - intros [? |?]; [exists (x, Active)|exists (x, st)]; (split; [done|apply Hin]); auto. }
  assert (st ≠ Active) as Hne by (by intros ->).
  split; [exact Hn|exact Hi|congruence|..].
  - intros h' x Eh Hx. rewrite Hh in Eh. injection Eh as <-. fold ws aid. fold (heads_at m ws aid).
    rewrite Hin, Hids, Hhs. split.
    + intros [Hx'|[Hx' Hnt]]; [by left; left|right]. split; [done|]. intros [Hm|?]; [by destruct (Hmv x Hm)|done].
    + intros [[[? _]|[_ ?]]|[? ?]]; [by left|by subst|right; auto].
  - intros v Ev. congruence.
  - intros x [Hx|Hx]%Hids; right; [by apply Hmv|by apply Hact, Htg].
  - intros x st' [[Hx ->]|[Hx ->]]%Hin; fold ws.
    + by destruct (Hmv x Hx) as (_ & _ & ->).
    + by destruct (Hact x (Htg x Hx)) as [_ ->].
Qed.

Lemma proposal_follows uuid s p r rc ops :
  let ws := pr_workspace_id r in
  ledger_wf (sb_view s) ws →
  commit_proposal_plan key uuid s p r = Ok (rc, Some ops) →
  ∃ c v, follows (sb_view s) ws c ops ∧ cm_version c = None ∧
    rec_at (sb_view s) (KVersion ws (pr_proposal_version_id r)) = Some v ∧
    mv_version_id v = pr_proposal_version_id r ∧
    state_at (sb_view s) ws (pr_proposal_version_id r) = Some Proposed ∧
    pr_expected_head_version_ids r ≡ₚ heads_at (sb_view s) ws (mm_assertion_id (cm_mutation c)) ∧
    outranks (sb_view s) ws (mv_decision_authority v)
      (heads_at (sb_view s) ws (mm_assertion_id (cm_mutation c))) ∧
    (∃ h, cm_head c = Some h ∧ hd_active_version_ids h = [mv_version_id v]) ∧
    requested ws (pr_principal_id r) MCommit (pr_idempotency_key r) (canonical_commit_proposal_sha256 r)
      (seq_at (sb_view s) ws + 1) c ops ∧
    rc_outcome rc = Committed ∧ rc_version_state rc = Active ∧ receipt_of (cm_mutation c) rc.
Proof.
  cbn zeta. intros Hwf E. unfold commit_proposal_plan in E. binds E. not_previous E Hwf. found.
  rename x2 into v, x5 into l, x8 into h0.
  apply heads_valid in E12 as (Eh & Hnd & Hsm & Has). rewrite Eh in *.
  apply negb_false_iff, andb_true_iff in E14 as [Ee%bool_decide_eq_true%sorted_ids_perm _].
  apply proposal_commit_ok in E as (c & ops' & h & [= <-] & Hc & Ha & Hh & Hhs & Hv & Hls & Hnin & Ho & Hst & Hr);
    [|done|done]. rewrite <-Ha in *.
  assert (state_at (sb_view s) (pr_workspace_id r) (mv_version_id v) = Some Proposed) as Hp.
  { rewrite Hid. unfold state_at. rewrite E9. cbn. by destruct (lc_state l). }
  exists c, v. split_and!;
    [|exact Hv|exact E5|exact Hid|by rewrite <-Hid|exact Ee|exact (ensure_authority_ok _ _ _ _ _ E16)|by exists h
    |by eexists|exact Ho|exact Hst|exact Hr].
  split; try apply Hc. eapply (moves_coherent _ _ _ _ _ _ _ _ h _ [mv_version_id v] _ Superseded);
    [eassumption|eassumption|eassumption|reflexivity|eassumption|by intros x Hx; exact Hx|reflexivity| |eassumption..| |exact Hls].
  - intros x ->%list_elem_of_singleton. split_and!; [done| |done]. rewrite Hid. unfold owner_at. by rewrite E5, Ha.
  - intros x. rewrite Hhs, list_elem_of_singleton. naive_solver.
Qed.

Definition inactive_disposition_ok (d : LifecycleDisposition) : Prop :=
  inactive_op (l_operation d) ∧ allowed (Some Active) (l_state d) = true.

Lemma transition_targets_ok r heads targets :
  transition_targets r heads = Ok targets → NoDup heads →
  (∀ x, x ∈ targets → x ∈ heads) ∧ NoDup targets.
Proof.
  unfold transition_targets. intros E Hnd. destruct (fr_version_id r) as [v|]; case_decide as D; try discriminate;
    injection E as <-; [|by split]. split; [by intros x ->%list_elem_of_singleton|apply NoDup_singleton].
Qed.

Lemma inactive_follows uuid s p r d rc ops :
  let ws := fr_workspace_id r in
  ledger_wf (sb_view s) ws → inactive_disposition_ok d →
  transition_inactive_plan key uuid s p r d = Ok (rc, Some ops) →
  ∃ c, follows (sb_view s) ws c ops ∧ cm_version c = None ∧
    mm_assertion_id (cm_mutation c) = fr_assertion_id r ∧
    (∀ v st, (v, st) ∈ life_states (cm_lifes c) → st = l_state d) ∧
    fr_expected_head_version_ids r ≡ₚ heads_at (sb_view s) ws (fr_assertion_id r) ∧
    requested ws (fr_principal_id r) (l_operation d) (fr_idempotency_key r) (canonical_forget_request_sha256 r)
      (seq_at (sb_view s) ws + 1) c ops ∧
    rc_outcome rc = Committed ∧ rc_version_state rc = l_state d ∧ receipt_of (cm_mutation c) rc.
Proof.
  cbn zeta. intros Hwf [Hio Hal] E. unfold transition_inactive_plan in E. binds E. not_previous E Hwf. found.
  rename x6 into targets. apply heads_valid in E8 as (Eh & Hnd & Hsm & Has). rewrite Eh in *.
  apply expected_heads_ok in E10. apply transition_targets_ok in E11 as [Htg Hntg]; [|done].
  apply inactive_commit_ok in E as (c & ops' & h & [= <-] & Hc & Ha & Hh & Hhs & Hv & Hls & Ho & Hst & Hr);
    [|done..].
  exists c. split_and!; try eassumption;
    [|by intros v st; rewrite Hls, elem_states; intros (? & _ & [= _ <-])|by eexists]. split; try apply Hc.
  rewrite <-Ha in *. eapply (moves_coherent _ _ _ _ _ _ _ _ h _ [] targets (l_state d));
    [eassumption|eassumption|eassumption|reflexivity|eassumption|eassumption|eassumption| |eassumption..| |exact Hls].
  - by intros x ?%elem_of_nil.
  - intros x. rewrite Hhs, list_elem_of_filter, elem_of_nil. naive_solver.
Qed.
End plans.

(** ** Requests that were committed before *)

Section replays.
Context `{!UnicodeNormalization, !CharTables, !ContentCodec, !LedgerCodec, !Sha256, !Hmac}.
Context {S : Type} `{!StorageBackend S, !StorageLaws S, !StorageReliable S} (key : list Z).

Lemma load_found {A} `{!Serde A} (s : S) k label validate identity (a : A) :
  rec_at (sb_view s) k = Some a → validate a = Ok tt → identity a = true →
  load_record s (kenc k) label validate identity = Ok (Some a).
Proof.
  unfold rec_at, load_record. intros Hr V I. rewrite get_eq. cbn [lstored map_err result_bind].
  destruct (sb_view s !! kenc k) as [b|]; [|discriminate]. unfold decode_record. cbn in Hr.
  rewrite Hr. cbn [result_bind]. rewrite V. cbn [lcorrupt map_err result_bind]. by rewrite I.
Qed.

Lemma idempotent_logged s ws n mu extra mismatch :
  logged (sb_view s) ws n mu → extra (idem_of mu) = true →
  idempotent_record s ws (mm_principal_id mu) (mm_operation mu) (mm_idempotency_key_sha256 mu)
    (mm_canonical_request_sha256 mu) extra mismatch = Ok (Some (idem_of mu)).
Proof.
  intros [L1 L2 L3 L4 L5 L6 L7 L8] Hx. unfold idempotent_record.
  change (idempotency_key ?w ?p ?o ?k) with (kenc (KIdem w p o k)).
  rewrite get_eq. cbn [lstored map_err result_bind].
  unfold rec_at, idem_key in L7. rewrite L3 in L7.
  destruct (sb_view s !! _) as [b|]; [|discriminate]. unfold decode_record. cbn in L7. rewrite L7.
  cbn [result_bind]. rewrite L8. cbn [lcorrupt map_err result_bind]. rewrite Hx.
  cbn [ir_workspace_id ir_principal_id ir_operation ir_idempotency_key_sha256 ir_canonical_request_sha256 idem_of].
  rewrite L3, !String.eqb_refl, bool_decide_true by done. cbn [andb negb].
  unfold verify_idempotent_record, load_mutation_unlocked. cbn [ir_workspace_id ir_commit_sequence idem_of].
  change (mutation_sequence_key ?w ?k) with (kenc (KMut w k)).
  rewrite L3, L4, (load_found _ (KMut ws n) _ _ _ mu L1 L2) by (by rewrite L3, L4, String.eqb_refl, Z.eqb_refl).
  cbn [ok_or result_bind idem_of ir_mutation_id ir_assertion_id ir_operation ir_policy_decision_id ir_version_ids ir_canonical_request_sha256].
  rewrite !String.eqb_refl, !bool_decide_false by (intros Hf; by apply Hf). done.
Qed.
(** The mutation of a request. *)
Record mutation_of (ws principal : string) (o : MemoryOperation) (idempotency_key : string)
    (fingerprint : LResult string) (mu : MemoryMutation) : Prop := {
  mo_workspace : mm_workspace_id mu = ws;
  mo_principal : mm_principal_id mu = principal;
  mo_operation : mm_operation mu = o;
  mo_key : mm_idempotency_key_sha256 mu = sha256_hex idempotency_key;
  mo_fingerprint : fingerprint = Ok (mm_canonical_request_sha256 mu);
}.

Lemma requested_mutation ws principal o ik fp n c ops :
  requested ws principal o ik fp n c ops → mutation_of ws principal o ik fp (cm_mutation c).
Proof. intros (sha & Hf & [_ _ H1' H2' H3' H4' H5' _]). split; try done. by rewrite H5'. Qed.

(** The steps before the look-up, which do not depend on the store. *)
Ltac replay Hl Hp Ho Hk Hf :=
  repeat match goal with
         | E : ?x = Ok _ |- context [result_bind ?x _] => rewrite E; cbn [result_bind]
         | E : ?c = false |- context [if ?c then Err _ else _] => rewrite E
         end;
  rewrite Hf in *; match goal with Q : Ok _ = Ok _ |- _ => injection Q as <- end;
  by rewrite <-Hp, <-Ho, <-Hk, (idempotent_logged _ _ _ _ _ _ Hl) by done.

Lemma version_replay uuid uuid' (s s' : S) p r d rc ops n mu :
  commit_version_plan key uuid s p r d = Ok (rc, Some ops) →
  logged (sb_view s') (ms_workspace_id (cr_scope r)) n mu →
  mutation_of (ms_workspace_id (cr_scope r)) (cr_principal_id r) (d_operation d) (cr_idempotency_key r)
    (canonical_request_sha256 r) mu →
  commit_version_plan key uuid' s' p r d
  = Ok (receipt_from_idempotency (idem_of mu) DuplicateCommit (d_initial_state d), None).
Proof.
  intros E Hl [Hw Hp Ho Hk Hf]. unfold commit_version_plan in *. binds E. clear E.
  replay Hl Hp Ho Hk Hf.
Qed.

Lemma proposal_replay uuid uuid' (s s' : S) p r rc ops n mu :
  commit_proposal_plan key uuid s p r = Ok (rc, Some ops) →
  logged (sb_view s') (pr_workspace_id r) n mu →
  mutation_of (pr_workspace_id r) (pr_principal_id r) MCommit (pr_idempotency_key r)
    (canonical_commit_proposal_sha256 r) mu →
  commit_proposal_plan key uuid' s' p r
  = Ok (receipt_from_idempotency (idem_of mu) DuplicateCommit Active, None).
Proof.
  intros E Hl [Hw Hp Ho Hk Hf]. unfold commit_proposal_plan in *. binds E. clear E.
  replay Hl Hp Ho Hk Hf.
Qed.

Lemma inactive_replay uuid uuid' (s s' : S) p r d rc ops n mu :
  transition_inactive_plan key uuid s p r d = Ok (rc, Some ops) →
  logged (sb_view s') (fr_workspace_id r) n mu →
  mutation_of (fr_workspace_id r) (fr_principal_id r) (l_operation d) (fr_idempotency_key r)
    (canonical_forget_request_sha256 r) mu →
  transition_inactive_plan key uuid' s' p r d
  = Ok (receipt_from_idempotency (idem_of mu) DuplicateCommit (l_state d), None).
Proof.
  intros E Hl [Hw Hp Ho Hk Hf]. unfold transition_inactive_plan in *. binds E. clear E.
  replay Hl Hp Ho Hk Hf.
Qed.
End replays.
