(* ===== verification/LedgerRuns.v ===== *)
(** * What the memory ledger guarantees

    Any sequence of calls, with storage writes that may fail, from a store that
    holds no ledger: the ledger of every workspace is a gapless sequence of
    mutations, heads list exactly the active versions, versions move only as
    their lifecycle allows, a retried request is answered with its first receipt,
    a version is never replaced behind the back of its writer or by one of lower
    authority, projections apply the outbox in order, and workspaces do not
    reach each other. *)

From Stdlib Require Import Ascii.
From S2P Require Import Prelude Float32 Text Sorting Storage Hex Keys Filter Knowledge MemoryContracts LedgerModel Ledger LedgerProps LedgerExample LedgerState LedgerSteps.

(** ** Calls *)

(** The writing operations of the ledger that canonical clients and projections
    use. Planned deletion is not one of them: it erases records these operations
    only add ([Deletion], [DeletionRuns]). *)
Inductive lop :=
| LObserve (r : ObserveMemoryRequest)
| LCommit (r : CommitMemoryRequest)
| LCorrect (r : CommitMemoryRequest)
| LPropose (r : CommitMemoryRequest) (quarantined : bool)
| LCommitProposal (r : CommitProposalRequest)
| LReinforce (r : ReinforceMemoryRequest)
| LForget (r : ForgetMemoryRequest)
| LRetract (r : ForgetMemoryRequest)
| LApply (pid : string) (entry : ProjectionOutboxEntry) (data : list ProjectionDataOperation) (now : Z)
| LReady (ws pid : string) (now : Z)
| LTryReady (ws pid : string) (expected_sequence now : Z)
| LRegister (m : ProjectionSetManifest)
| LActivate (ws sid : string) (n now : Z).

(** A call: the proof it carries, the identifiers it draws, the operation. *)
Record lcall := mkCall { lc_proof : MemoryAccessProof; lc_uuid : nat → string; lc_op : lop }.

Inductive lresult :=
| RObserve (r : LResult ObserveMemoryReceipt)
| RCommit (r : LResult CommitMemoryReceipt)
| RApply (r : LResult ProjectionApplyOutcome)
| RReady (r : LResult ProjectionCheckpoint)
| RTryReady (r : LResult (option ProjectionCheckpoint))
| RRegister (r : LResult unit)
| RActivate (r : LResult ActiveProjectionSet).

Section runs.
Context `{!UnicodeNormalization, !CharTables, !ContentCodec, !LedgerCodec, !Sha256, !Hmac, Hlaws : !LedgerCodecLaws}.
Context {S : Type} `{!StorageBackend S, Hst : !StorageLaws S} (key : list Z).
Implicit Types (s : S) (ws : string).

Definition as_result {A} (f : LResult A → lresult) (x : LResult A * S) : lresult * S := (f x.1, x.2).

Definition lstep s (c : lcall) : lresult * S :=
  let p := lc_proof c in
  let u := lc_uuid c in
  match lc_op c with
  | LObserve r => as_result RObserve (observe key u s p r)
  | LCommit r => as_result RCommit (commit key u s p r)
  | LCorrect r => as_result RCommit (correct key u s p r)
  | LPropose r q => as_result RCommit (propose key u s p r q)
  | LCommitProposal r => as_result RCommit (commit_proposal key u s p r)
  | LReinforce r => as_result RCommit (reinforce key u s p r)
  | LForget r => as_result RCommit (forget key u s p r)
  | LRetract r => as_result RCommit (retract key u s p r)
  | LApply pid e d now => as_result RApply (apply_projection key s p pid e d now)
  | LReady ws pid now => as_result RReady (mark_projection_ready key s p ws pid now)
  | LTryReady ws pid n now => as_result RTryReady (try_mark_projection_ready_at key s p ws pid n now)
  | LRegister m => as_result RRegister (register_projection_set key s p m)
  | LActivate ws sid n now => as_result RActivate (activate_projection_set key s p ws sid n now)
  end.

Fixpoint lrun s (calls : list lcall) : list lresult * S :=
  match calls with
  | [] => ([], s)
  | c :: calls =>
      let (x, s) := lstep s c in
      let (xs, s) := lrun s calls in (x :: xs, s)
  end.

(** The batch a call plans, if any. *)
Definition batch_of {A} (plan : lplan A) : option (list BatchOperation) :=
  match plan with Ok (_, b) => b | Err _ => None end.

Definition call_batch s (c : lcall) : option (list BatchOperation) :=
  let p := lc_proof c in
  let u := lc_uuid c in
  match lc_op c with
  | LObserve r => batch_of (observe_plan key u s p r)
  | LCommit r => batch_of (commit_version_plan key u s p r commit_disposition)
  | LCorrect r => batch_of (commit_version_plan key u s p r correct_disposition)
  | LPropose r q => batch_of (commit_version_plan key u s p r (propose_disposition (q || bool_decide
      (context_firewall_reason_codes (cr_content r) (cr_epistemic_formation r)
         (ms_sensitivity (cr_scope r)) ≠ []))))
  | LCommitProposal r => batch_of (commit_proposal_plan key u s p r)
  | LReinforce r => batch_of (reinforce_plan key u s p r)
  | LForget r => batch_of (transition_inactive_plan key u s p r forget_disposition)
  | LRetract r => batch_of (transition_inactive_plan key u s p r retract_disposition)
  | LApply pid e d now => batch_of (apply_projection_plan key s p pid e d now)
  | LReady ws pid now => batch_of (mark_projection_ready_plan key s p ws pid now)
  | LTryReady ws pid n now => batch_of (try_mark_projection_ready_at_plan key s p ws pid n now)
  | LRegister m => batch_of (register_projection_set_plan key s p m)
  | LActivate ws sid n now => batch_of (activate_projection_set_plan key s p ws sid n now)
  end.

Lemma lcommit_view {A} s (plan : lplan A) :
  sb_view (lcommit s plan).2 = sb_view s ∨
  ∃ ops, batch_of plan = Some ops ∧ sb_view (lcommit s plan).2 = apply_batch (sb_view s) ops.
Proof using Hst.
  unfold lcommit. destruct plan as [[a [ops|]]|e]; [|by left..].
  destruct (sb_write_batch_sync s ops) as [r s'] eqn:E. apply sb_write_batch_sync_ok in E.
  destruct r; cbn in *; [right; by exists ops|]. destruct E as [->| ->]; [by left|right; by exists ops].
Qed.

(** Whatever the storage reports, the whole batch is written, or nothing. *)
Lemma lstep_view s c :
  sb_view (lstep s c).2 = sb_view s ∨
  ∃ ops, call_batch s c = Some ops ∧ sb_view (lstep s c).2 = apply_batch (sb_view s) ops.
Proof using Hst. unfold lstep, call_batch. destruct (lc_op c); apply lcommit_view. Qed.

Lemma batch_of_some {A} (plan : lplan A) ops : batch_of plan = Some ops → ∃ a, plan = Ok (a, Some ops).
Proof using. destruct plan as [[a b]|]; [|done]. cbn. intros ->. by exists a. Qed.
(** ** The invariant *)

(** The identifier a call draws for a new version. *)
Definition draw (c : lcall) : string := new_id (lc_uuid c) 1 "mem_v".

(** Every workspace is well formed, and its versions were drawn by earlier calls. *)
Record linv (drawn : list string) (m : gmap string string) : Prop := {
  li_wf ws : small ws → ledger_wf m ws;
  li_drawn ws v : small ws → small v → is_Some (m !! kenc (KVersion ws v)) → v ∈ drawn;
}.

Definition op_key (o : BatchOperation) : string := match o with Put k _ | Delete k => k end.

Lemma apply_batch_other m ops k : (∀ o, o ∈ ops → op_key o ≠ k) → apply_batch m ops !! k = m !! k.
Proof using.
  revert m. induction ops as [|o ops IH]; intros m Hn; [done|].
  change (apply_batch (match o with Put a v => <[a := v]> m | Delete a => delete a m end) ops !! k = m !! k).
  rewrite IH by (intros; apply Hn; by right). pose proof (Hn o ltac:(by left)) as Ho.
  destruct o; [by apply lookup_insert_ne|by apply lookup_delete_ne].
Qed.

(** Writes of the projections. *)
Definition projection_ops (ops : list BatchOperation) : Prop :=
  ∀ o, o ∈ ops → ∃ k, projection_key k = true ∧ op_key o = kenc k.

Lemma projection_tag k k' : projection_key k = true → projection_key k' = false → kenc k ≠ kenc k'.
Proof using. intros Hp Hp' [Et _]%kenc_tag. destruct k, k'; discriminate. Qed.

Lemma projection_other m ops k :
  projection_ops ops → projection_key k = false → apply_batch m ops !! kenc k = m !! kenc k.
Proof using.
  intros Hp Hk. apply apply_batch_other. intros o Ho. destruct (Hp o Ho) as (k' & Hk' & ->). by apply projection_tag.
Qed.

(** A single put. *)
Lemma put_record_ok {A} `{!Serde A} k (a : A) o : put_record k a = Ok o → ∃ b, json_of a = Some b ∧ o = Put k b.
Proof using. unfold put_record. intros E. binds E. apply ljson_ok in E0. injection E as <-. eauto. Qed.

Lemma projection_put {A} `{!Serde A} k (a : A) o :
  put_record (kenc k) a = Ok o → projection_key k = true → projection_ops [o].
Proof using.
  intros (b & _ & ->)%put_record_ok Hk ? ->%list_elem_of_singleton. by exists k.
Qed.

(** What a commitment supersedes has at most the authority of what it makes the
    only head: the version it brings, or the proposal it activates. *)
Definition outranked (m : gmap string string) ws (cm : commitment) : Prop :=
  ∀ v, (v, Superseded) ∈ life_states (cm_lifes cm) →
    ∃ h w a, cm_head cm = Some h ∧ hd_active_version_ids h = [w] ∧ outranks m ws a [v] ∧
      ((∃ r, cm_version cm = Some r ∧ mv_version_id r = w ∧ mv_decision_authority r = a) ∨
       (cm_version cm = None ∧ ∃ r, rec_at m (KVersion ws w) = Some r ∧ mv_version_id r = w ∧
          mv_decision_authority r = a)).

(** The batch of a call: a commitment that follows on from the state, or writes
    of the projections. *)
Record committed (m : gmap string string) (c : lcall) (ws : string) (cm : commitment)
    (ops : list BatchOperation) : Prop := {
  cd_small : small ws;
  cd_follows : follows m ws cm ops;
  cd_version v : cm_version cm = Some v → mv_version_id v = draw c;
  cd_outranked : outranked m ws cm;
  cd_workspace : g_workspace_id (grant (lc_proof c)) = ws;
}.

Ltac put_tac k :=
  match goal with P : put_record _ _ = _ |- _ => apply (projection_put k) in P; [|done]; apply P end.

Lemma ready_projection ws pid c now r ops :
  ready_checkpoint ws pid c now = Ok (r, Some ops) → projection_ops ops.
Proof using.
  unfold ready_checkpoint. intros E. binds E. injection E as _ <-.
  by apply (projection_put (KCheckpoint ws pid)) in E1.
Qed.

(** The operations of the projections. *)
Definition projection_call (o : lop) : bool :=
  match o with
  | LApply _ _ _ _ | LReady _ _ _ | LTryReady _ _ _ _ | LRegister _ | LActivate _ _ _ _ => true
  | _ => false
  end.

Lemma projection_batch s c ops :
  call_batch s c = Some ops →
  projection_call (lc_op c) = true → projection_ops ops.
Proof using.
  unfold call_batch. destruct (lc_op c); try done; intros [a E]%batch_of_some _.
  - unfold apply_projection_plan in E. binds E. destruct (_ <=? _) in E; [discriminate|]. binds E.
    injection E as _ <-. intros o [Ho| ->%list_elem_of_singleton]%elem_of_app.
    + apply list_elem_of_fmap in Ho as ([k v|k] & -> & _); by exists (KData (ox_workspace_id entry) pid k).
    + put_tac (KCheckpoint (ox_workspace_id entry) pid). by left.
  - unfold mark_projection_ready_plan in E. binds E. by apply ready_projection in E.
  - unfold try_mark_projection_ready_at_plan in E. binds E. destruct (_ || _) in E; [discriminate|]. binds E.
    match goal with x : _ * _ |- _ => destruct x end. injection E as _ ->. by eapply ready_projection.
  - unfold register_projection_set_plan in E. binds E.
    match type of E with match ?x with _ => _ end = _ => destruct x as [b|] end.
    { by binds E. }
    binds E. injection E as <-. put_tac (KSet (pm_projection_set_id m) (pm_projection_set_version m)).
  - unfold activate_projection_set_plan in E. binds E. injection E as _ <-. put_tac (KActiveSet ws).
Qed.
Lemma scope_small sc : memory_scope_validate sc = Ok tt → small (ms_workspace_id sc).
Proof using. unfold memory_scope_validate. intros V. binds V. by apply scope_id_small in E. Qed.

Lemma commit_request_small r : validate_commit_request r = Ok tt → small (ms_workspace_id (cr_scope r)).
Proof using. unfold validate_commit_request. intros V. binds V. by apply lcontract_ok, scope_small in E. Qed.
Lemma observe_request_small r : validate_observe_request r = Ok tt → small (ms_workspace_id (or_scope r)).
Proof using. unfold validate_observe_request. intros V. binds V. by apply lcontract_ok, scope_small in E. Qed.
Lemma commit_proposal_request_small r : validate_commit_proposal_request r = Ok tt → small (pr_workspace_id r).
Proof using. unfold validate_commit_proposal_request. intros V. binds V. by apply local_id_small in E. Qed.
Lemma reinforce_request_small r : validate_reinforce_request r = Ok tt → small (rr_workspace_id r).
Proof using. unfold validate_reinforce_request. intros V. binds V. by apply local_id_small in E. Qed.
Lemma forget_request_small r : validate_forget_request r = Ok tt → small (fr_workspace_id r).
Proof using. unfold validate_forget_request. intros V. binds V. by apply local_id_small in E. Qed.

Lemma propose_ok q : disposition_ok (propose_disposition q).
Proof using. split; [by right; right|]. destruct q; [by right|by left]. Qed.

(** Every operation names the workspace of its proof. *)
Lemma workspace_ok p ws caps : authorize_workspace_capability key p ws caps = Ok tt → g_workspace_id (grant p) = ws.
Proof using.
  unfold authorize_workspace_capability. intros E. binds E.
  by match goal with Q : negb _ = false |- _ => apply negb_false_iff, String.eqb_eq in Q end.
Qed.

Lemma lifecycle_workspace p ws ns pr ag pu au cap :
  authorize_lifecycle_request key p ws ns pr ag pu au cap = Ok tt → g_workspace_id (grant p) = ws.
Proof using. unfold authorize_lifecycle_request. intros E. binds E. by apply workspace_ok in E0. Qed.

Lemma commit_workspace p r cap :
  authorize_commit key p r cap = Ok tt → g_workspace_id (grant p) = ms_workspace_id (cr_scope r).
Proof using. unfold authorize_commit. intros E. binds E. by apply workspace_ok in E0. Qed.

Lemma superseded_in m ws cm ops x :
  follows m ws cm ops → ledger_wf m ws → (x, Superseded) ∈ life_states (cm_lifes cm) →
  x ∈ heads_at m ws (mm_assertion_id (cm_mutation cm)).
Proof using. intros [Hok _ Hco <-] Hwf Hx. by apply superseded_head. Qed.

Lemma inactive_call s c r d a ops :
  (∀ ws, small ws → ledger_wf (sb_view s) ws) → inactive_disposition_ok d →
  transition_inactive_plan key (lc_uuid c) s (lc_proof c) r d = Ok (a, Some ops) →
  ∃ cm, follows (sb_view s) (fr_workspace_id r) cm ops ∧ cm_version cm = None ∧
    (small (fr_workspace_id r) ∧ g_workspace_id (grant (lc_proof c)) = fr_workspace_id r) ∧
    ∀ v st, (v, st) ∈ life_states (cm_lifes cm) → st = l_state d.
Proof using Hst.
  intros Hwf Hd E. assert (small (fr_workspace_id r) ∧ g_workspace_id (grant (lc_proof c)) = fr_workspace_id r) as [Hw Hg].
  { unfold transition_inactive_plan in E. binds E. by apply forget_request_small in E1; apply lifecycle_workspace in E0. }
  destruct (inactive_follows key (lc_uuid c) s (lc_proof c) r d a ops) as (cm & Hf & Hv & _ & Hl & _); eauto 10.
Qed.

Lemma call_committed drawn s c ops :
  linv drawn (sb_view s) → draw c ∉ drawn → call_batch s c = Some ops →
  (∃ ws cm, committed (sb_view s) c ws cm ops) ∨ (projection_call (lc_op c) = true ∧ projection_ops ops).
Proof using Hst.
  intros [Hwf Hdr] Hfr Hb.
  assert (∀ ws, small ws → small (draw c) → sb_view s !! kenc (KVersion ws (draw c)) = None) as Hnew.
  { intros ws Hw Hs. apply eq_None_not_Some. intros Hx. by apply Hfr, (Hdr ws). }
  assert (∀ r d rc, disposition_ok d →
    commit_version_plan key (lc_uuid c) s (lc_proof c) r d = Ok (rc, Some ops) →
    ∃ ws cm, committed (sb_view s) c ws cm ops) as Hvers.
  { intros r d rc Hd E. assert (small (ms_workspace_id (cr_scope r)) ∧ g_workspace_id (grant (lc_proof c)) = ms_workspace_id (cr_scope r)) as [Hw Hg].
    { unfold commit_version_plan in E. binds E. by apply commit_request_small in E1; apply commit_workspace in E0. }
    destruct (version_follows key (lc_uuid c) s (lc_proof c) r d rc ops)
      as (cm & v & Hf & Hv & Hid & _ & _ & Hau & Hch & (h & Hh & Hhs) & _); auto.
    exists (ms_workspace_id (cr_scope r)), cm. split; [done..| | |done].
    { intros v'. rewrite Hv. by intros [= <-]. }
    intros x Hx. pose proof (superseded_in (sb_view s) _ cm ops x Hf (Hwf _ Hw) Hx) as Hhd.
    pose proof (Hch x Hx) as Ed. rewrite Ed in Hhs.
    exists h, (mv_version_id v), (mv_decision_authority v). split_and!; [done..| |left; by exists v].
    intros y ->%list_elem_of_singleton. by apply Hau. }
  pose proof (projection_batch s c ops Hb) as Hproj. unfold call_batch in Hb.
  destruct (lc_op c); try (right; split; [done|by apply Hproj]); clear Hproj; left; apply batch_of_some in Hb as [a E].
  - assert (small (ms_workspace_id (or_scope r)) ∧ g_workspace_id (grant (lc_proof c)) = ms_workspace_id (or_scope r)) as [Hw Hg].
    { unfold observe_plan in E. binds E. by apply observe_request_small in E3; apply workspace_ok in E0. }
    destruct (observe_follows key (lc_uuid c) s (lc_proof c) r a ops) as (cm & Hf & Hv & Hl & _); auto.
    exists (ms_workspace_id (or_scope r)), cm. split; [done..|congruence| |done].
    intros x Hx. rewrite Hl in Hx. by apply elem_of_nil in Hx.
  - by eapply Hvers; [|exact E]; split; [left|].
  - by eapply Hvers; [|exact E]; split; [right; left|].
  - eapply Hvers; [|exact E]. apply propose_ok.
  - assert (small (pr_workspace_id r) ∧ g_workspace_id (grant (lc_proof c)) = pr_workspace_id r) as [Hw Hg].
    { unfold commit_proposal_plan in E. binds E. by apply commit_proposal_request_small in E1; apply lifecycle_workspace in E0. }
    destruct (proposal_follows key (lc_uuid c) s (lc_proof c) r a ops) as (cm & v & Hf & Hv & Hr & Hid & _ & _ & Hau & (h & Hh & Hhs) & _); auto.
    exists (pr_workspace_id r), cm. split; [done..|congruence| |done].
    intros x Hx. exists h, (mv_version_id v), (mv_decision_authority v). split_and!; [done..| |].
    { intros y ->%list_elem_of_singleton. by apply Hau, (superseded_in (sb_view s) _ cm ops x Hf (Hwf _ Hw)). }
    right. split; [done|]. exists v. by rewrite Hid.
  - assert (small (rr_workspace_id r) ∧ g_workspace_id (grant (lc_proof c)) = rr_workspace_id r) as [Hw Hg].
    { unfold reinforce_plan in E. binds E. by apply reinforce_request_small in E1; apply lifecycle_workspace in E0. }
    destruct (reinforce_follows key (lc_uuid c) s (lc_proof c) r a ops) as (cm & Hf & Hv & Hl & _); auto.
    exists (rr_workspace_id r), cm. split; [done..|congruence| |done].
    intros x Hx. rewrite Hl in Hx. by apply elem_of_nil in Hx.
  - destruct (inactive_call s c r forget_disposition a ops) as (cm & Hf & Hv & [Hw Hg] & Hst'); auto; [by split; [left|]|].
    exists (fr_workspace_id r), cm. split; [done..|congruence| |done]. intros x Hx. by apply Hst' in Hx.
  - destruct (inactive_call s c r retract_disposition a ops) as (cm & Hf & Hv & [Hw Hg] & Hst'); auto; [by split; [right|]|].
    exists (fr_workspace_id r), cm. split; [done..|congruence| |done]. intros x Hx. by apply Hst' in Hx.
Qed.
(** What one call does to the store. *)
Inductive call_effect (m : gmap string string) (c : lcall) (m' : gmap string string) : Prop :=
| EffectNone : m' = m → call_effect m c m'
| EffectCommit ws cm ops : committed m c ws cm ops → m' = apply_batch m ops → call_effect m c m'
| EffectProjection ops : projection_ops ops → m' = apply_batch m ops → call_effect m c m'.

Lemma lstep_effect drawn s c :
  linv drawn (sb_view s) → draw c ∉ drawn → call_effect (sb_view s) c (sb_view (lstep s c).2).
Proof using Hst.
  intros Hi Hfr. destruct (lstep_view s c) as [E|(ops & Hb & E)]; [by constructor 1|].
  destruct (call_committed drawn s c ops Hi Hfr Hb) as [(ws & cm & Hc)|[_ Hp]].
  - by eapply EffectCommit.
  - by eapply EffectProjection.
Qed.

Lemma effect_agrees m c m' ws :
  call_effect m c m' → small ws →
  agrees m m' ws ∨
  ∃ cm ops, committed m c ws cm ops ∧ m' = apply_batch m ops ∧ commitment_ok cm ∧ commits cm ops ∧ coherent m cm ∧
    mm_workspace_id (cm_mutation cm) = ws.
Proof using.
  intros [-> |w cm ops Hc -> |ops Hp ->] Hs; [left; apply agrees_refl| |].
  - pose proof Hc as [Hw [Hok Hops Hco Hws] _]. destruct (decide (ws = w)) as [->|Hne]; [right; by exists cm, ops|].
    left. intros k Hk _ _ _. eapply commitment_other_scope; try done. by rewrite Hws.
  - left. intros k _ _ Hk _. by apply projection_other.
Qed.

Lemma effect_wf m c m' ws : call_effect m c m' → small ws → ledger_wf m ws → ledger_wf m' ws.
Proof using Hlaws.
  intros He Hs Hwf. destruct (effect_agrees m c m' ws He Hs) as [Ha|(cm & ops & _ & -> & Hok & Hops & Hco & <-)].
  - by eapply wf_agrees.
  - by apply wf_commitment.
Qed.

(** Stored versions stay as they are, and a new one was drawn by the call. *)
Lemma effect_version m c m' ws v :
  call_effect m c m' → small ws → small v →
  m' !! kenc (KVersion ws v) = m !! kenc (KVersion ws v) ∨ m !! kenc (KVersion ws v) = None ∧ v = draw c.
Proof using.
  intros He Hs Hv. destruct (effect_agrees m c m' ws He Hs) as [Ha|(cm & ops & Hc & -> & Hok & Hops & Hco & Hws)].
  - left. apply Ha; try done. kok_tac.
  - subst ws. destruct (cm_version cm) as [r|] eqn:Er; [destruct (decide (mv_version_id r = v)) as [<-|Hne]|].
    + right. split; [by apply (ch_fresh _ _ Hco)|by apply (cd_version _ _ _ _ _ Hc)].
    + left. apply eff_version_same; [done..|]. intros r' Hr'. congruence.
    + left. apply eff_version_same; [done..|]. intros r' Hr'. congruence.
Qed.

Lemma effect_stored m c m' ws v (r : MemoryVersion) :
  call_effect m c m' → small ws → small v → rec_at m (KVersion ws v) = Some r → rec_at m' (KVersion ws v) = Some r.
Proof using.
  unfold rec_at. intros He Hs Hv Hr. destruct (effect_version m c m' ws v He Hs Hv) as [-> |[E _]]; [done|].
  by rewrite E in Hr.
Qed.

Lemma effect_inv drawn m c m' : call_effect m c m' → linv drawn m → linv (draw c :: drawn) m'.
Proof using Hlaws.
  intros He [Hwf Hdr]. split; [intros ws Hs; eapply effect_wf; eauto|].
  intros ws v Hs Hv Hx. destruct (effect_version m c m' ws v He Hs Hv) as [E|[_ ->]]; [|by left].
  right. rewrite E in Hx. by apply (Hdr ws).
Qed.

Lemma lrun_app s calls calls' :
  (lrun s (calls ++ calls')).2 = (lrun (lrun s calls).2 calls').2.
Proof using.
  revert s. induction calls as [|c calls IH]; intros s; [done|]. cbn. destruct (lstep s c) as [x s'].
  specialize (IH s'). destruct (lrun s' (calls ++ calls')), (lrun s' calls). exact IH.
Qed.

Lemma lrun_cons s c calls : (lrun s (c :: calls)).2 = (lrun (lstep s c).2 calls).2.
Proof using. cbn. destruct (lstep s c) as [x s']. cbn. by destruct (lrun s' calls). Qed.

Lemma lrun_ind (P : list string → gmap string string → Prop) drawn s calls :
  (∀ drawn m c m', linv drawn m → draw c ∉ drawn → call_effect m c m' → P drawn m → P (draw c :: drawn) m') →
  linv drawn (sb_view s) → NoDup (draw <$> calls) → (∀ d, d ∈ draw <$> calls → d ∉ drawn) →
  P drawn (sb_view s) →
  ∃ drawn', linv drawn' (sb_view (lrun s calls).2) ∧ P drawn' (sb_view (lrun s calls).2) ∧
    ∀ d, d ∈ drawn' ↔ d ∈ drawn ∨ d ∈ draw <$> calls.
Proof using Hlaws Hst.
  intros Hstep. revert drawn s. induction calls as [|c calls IH]; intros drawn s Hi Hnd Hdis HP.
  { exists drawn. split_and!; [done..|]. set_solver. }
  rewrite lrun_cons. rewrite fmap_cons in *. apply NoDup_cons in Hnd as [Hc Hnd].
  assert (draw c ∉ drawn) as Hfr by (apply Hdis; by left).
  pose proof (lstep_effect drawn s c Hi Hfr) as He.
  destruct (IH (draw c :: drawn) (lstep s c).2) as (dr & Hi' & HP' & Hdr).
  - by eapply effect_inv.
  - done.
  - intros d Hd [->|Hd']%elem_of_cons; [done|]. apply (Hdis d); [by right|done].
  - by eapply Hstep.
  - exists dr. split_and!; [done..|]. intros d. rewrite Hdr, !elem_of_cons. tauto.
Qed.

Lemma linv_start s : no_ledger (sb_view s) → linv [] (sb_view s).
Proof using.
  intros He. split; [intros; by apply wf_no_ledger|]. intros ws v _ _ [b Hb]. by rewrite no_ledger_key in Hb.
Qed.

(** The states reached by calls that never draw the same version identifier. *)
Record reached (s0 : S) (calls : list lcall) (s : S) : Prop := {
  re_start : no_ledger (sb_view s0);
  re_draws : NoDup (draw <$> calls);
  re_run : (lrun s0 calls).2 = s;
}.

Lemma reached_inv s0 calls s : reached s0 calls s → linv (draw <$> calls) (sb_view s).
Proof using Hlaws Hst.
  intros [He Hnd <-].
  destruct (lrun_ind (λ _ _, True) [] s0 calls) as (dr & [Hwf Hd] & _ & Hdr); try done.
  - by apply linv_start.
  - by intros d _ ?%elem_of_nil.
  - split; [done|]. intros ws v Hs Hv Hx. apply (Hd ws v Hs Hv), Hdr in Hx as [?%elem_of_nil|Hx]; done.
Qed.

Lemma reached_wf s0 calls s ws : reached s0 calls s → small ws → ledger_wf (sb_view s) ws.
Proof using Hlaws Hst. intros Hr. by apply (reached_inv s0 calls s Hr). Qed.

Lemma reached_fresh s0 calls c s : reached s0 (calls ++ [c]) s → draw c ∉ draw <$> calls.
Proof using.
  intros [_ Hnd _] Hx. rewrite fmap_app in Hnd. apply NoDup_app in Hnd as (_ & Hn & _). apply (Hn _ Hx). by left.
Qed.

Lemma reached_step s0 calls s c :
  reached s0 (calls ++ [c]) s →
  ∃ s1, reached s0 calls s1 ∧ s = (lstep s1 c).2 ∧ call_effect (sb_view s1) c (sb_view s).
Proof using Hlaws Hst.
  intros Hrc. pose proof (reached_fresh _ _ _ _ Hrc) as Hfr. destruct Hrc as [He Hnd Hr].
  rewrite fmap_app in Hnd. apply NoDup_app in Hnd as (Hnd & _ & _).
  assert (reached s0 calls (lrun s0 calls).2) as Hr1 by done.
  exists (lrun s0 calls).2. rewrite lrun_app, lrun_cons in Hr. cbn in Hr.
  split; [done|]. split; [done|]. rewrite <-Hr. apply (lstep_effect (draw <$> calls)); [by eapply reached_inv|done].
Qed.
(** ** What follows *)

(** C4: the ledger of a workspace is gapless: after any calls, in any order and
    with any storage failures, every number up to the current sequence has a valid
    mutation of that number with its outbox entry and its idempotency record, and
    no other number has a mutation or an outbox entry. *)
Theorem ledger_is_gapless s0 calls s ws n :
  reached s0 calls s → small ws → is_u64 n →
  (1 ≤ n ≤ seq_at (sb_view s) ws → ∃ mu, logged (sb_view s) ws n mu) ∧
  (n = 0 ∨ seq_at (sb_view s) ws < n →
   sb_view s !! kenc (KMut ws n) = None ∧ sb_view s !! kenc (KOutbox ws n) = None).
Proof using Hlaws Hst.
  intros Hr Hs Hn. pose proof (reached_wf s0 calls s ws Hr Hs) as Hwf.
  split; [apply (wf_log _ _ Hwf)|by apply (wf_beyond _ _ Hwf)].
Qed.

(** C5: the head of an assertion lists, once each, exactly the stored versions of
    the assertion whose lifecycle is active. *)
Theorem heads_list_active_versions s0 calls s ws aid hs :
  reached s0 calls s → small ws → small aid → head_at (sb_view s) ws aid = Some hs →
  NoDup hs ∧
  ∀ v, small v →
    v ∈ hs ↔ owner_at (sb_view s) ws v = Some aid ∧ state_at (sb_view s) ws v = Some Active.
Proof using Hlaws Hst.
  intros Hr Hs Ha Hh. pose proof (reached_wf s0 calls s ws Hr Hs) as Hwf. split.
  - assert (is_Some (sb_view s !! kenc (KHead ws aid))) as Hx.
    { unfold head_at, rec_at in Hh. destruct (_ !! _); [by eexists|discriminate]. }
    destruct (wf_head _ _ Hwf aid Ha Hx) as (h & Eh & V & _). unfold head_at in Hh. rewrite Eh in Hh.
    injection Hh as <-. by apply head_ok in V as (_ & _ & ? & _).
  - intros v Hv. by apply (wf_active _ _ Hwf).
Qed.

Lemma reached_prefix s0 calls more s s' :
  reached s0 calls s → reached s0 (calls ++ more) s' → s' = (lrun s more).2.
Proof using. intros [_ _ <-] [_ _ <-]. apply lrun_app. Qed.

Lemma reached_next s0 calls s c s' :
  reached s0 calls s → reached s0 (calls ++ [c]) s' → s' = (lstep s c).2 ∧ call_effect (sb_view s) c (sb_view s').
Proof using Hlaws Hst.
  intros [_ _ Hr] (s1 & [_ _ Hr1] & Es & He)%reached_step. rewrite Hr in Hr1. by subst s1.
Qed.

(** C6: an observation, a commit, a correction, a proposal, a reinforcement, a
    forget, a retraction or a call on the projections moves the state of a version
    only as its lifecycle allows: it starts active, proposed or quarantined, a
    proposal may become active, an active version may be superseded, retracted or
    tombstoned, and nothing else happens; the record of a stored version is never
    rewritten. Planned deletion, which tombstones versions in any state and removes
    their records, is not one of these calls. *)
Theorem versions_follow_their_lifecycle s0 calls s c s' ws v :
  reached s0 calls s → reached s0 (calls ++ [c]) s' → small ws → small v →
  (state_at (sb_view s') ws v = state_at (sb_view s) ws v ∨
   ∃ st, state_at (sb_view s') ws v = Some st ∧ allowed (state_at (sb_view s) ws v) st = true) ∧
  (is_Some (sb_view s !! kenc (KVersion ws v)) →
   sb_view s' !! kenc (KVersion ws v) = sb_view s !! kenc (KVersion ws v)).
Proof using Hlaws Hst.
  intros Hr Hr' Hs Hv. destruct (reached_next _ _ _ _ _ Hr Hr') as [_ He]. split.
  - destruct (effect_agrees _ _ _ ws He Hs) as [Ha|(cm & ops & _ & -> & Hok & Hops & Hco & <-)].
    { left. unfold state_at. by rewrite (agrees_life _ _ _ Ha). }
    destruct (decide (v ∈ lc_version_id <$> cm_lifes cm)) as [Hin|Hin].
    + right. apply list_elem_of_fmap in Hin as (l & -> & Hl). exists (lc_state l).
      assert ((lc_version_id l, lc_state l) ∈ life_states (cm_lifes cm)) as Hls by (apply list_elem_of_fmap; eauto).
      split; [by apply keep_state|by apply Hco].
    + left. unfold state_at. by rewrite keep_life_other.
  - intros Hx. destruct (effect_version _ _ _ ws v He Hs Hv) as [?|[E _]]; [done|]. rewrite E in Hx. by destruct Hx.
Qed.

(** C14: an active version is superseded only by one of at least its authority,
    which the head then lists alone. *)
Theorem superseding_needs_authority s0 calls s c s' ws v :
  reached s0 calls s → reached s0 (calls ++ [c]) s' → small ws → small v →
  state_at (sb_view s) ws v = Some Active → state_at (sb_view s') ws v = Some Superseded →
  ∃ aid w old new,
    owner_at (sb_view s') ws v = Some aid ∧ head_at (sb_view s') ws aid = Some [w] ∧
    rec_at (sb_view s') (KVersion ws v) = Some old ∧ rec_at (sb_view s') (KVersion ws w) = Some new ∧
    decision_authority_rank (mv_decision_authority old) ≤ decision_authority_rank (mv_decision_authority new).
Proof using Hlaws Hst.
  intros Hr Hr' Hs Hv Hact Hsup. destruct (reached_next _ _ _ _ _ Hr Hr') as [_ He].
  destruct (effect_agrees _ _ _ ws He Hs) as [Ha|(cm & ops & Hc & E' & Hok & Hops & Hco & Hws)].
  { unfold state_at in *. rewrite (agrees_life _ _ _ Ha) in Hsup by done. congruence. }
  rewrite E' in Hsup |- *. subst ws.
  destruct (decide (v ∈ lc_version_id <$> cm_lifes cm)) as [Hin|Hin].
  2: { unfold state_at in *. rewrite keep_life_other in Hsup by done. congruence. }
  apply list_elem_of_fmap in Hin as Hl. destruct Hl as (l & El & Hl).
  assert ((v, lc_state l) ∈ life_states (cm_lifes cm)) as Hls by (apply list_elem_of_fmap; exists l; by rewrite El).
  rewrite (keep_state cm ops _ Hok Hops _ _ Hls) in Hsup. injection Hsup as Est. rewrite Est in Hls.
  destruct (cd_outranked _ _ _ _ _ Hc v Hls) as (h & w & a & Hh & Hhs & Hout & Hw).
  destruct (Hout v) as (old & Hold & Hrk); [by left|].
  exists (mm_assertion_id (cm_mutation cm)), w, old. rewrite (keep_owner_life cm ops _ Hok Hops Hco v Hin).
  rewrite (keep_head cm ops _ Hok Hops h Hh), Hhs.
  pose proof (effect_stored _ _ _ _ v old He Hs Hv Hold) as Hold'. rewrite E' in Hold'.
  destruct Hw as [(r & Hr1 & <- & <-)|(_ & r & Hr1 & Hid & <-)].
  - destruct (eff_version cm ops (sb_view s) Hok Hops r Hr1) as (r' & Hr2 & [_ _ _ _ Hau _]).
    exists r'. by rewrite Hau.
  - exists r. destruct (co_head _ Hok h Hh) as (V & _). apply head_ok in V as (_ & _ & _ & V).
    rewrite Hhs, Forall_singleton in V.
    pose proof (effect_stored _ _ _ _ w r He Hs V Hr1) as Hr1'. by rewrite E' in Hr1'.
Qed.
(** *** Retried requests *)

Lemma effect_logged drawn m c m' ws n mu :
  linv drawn m → call_effect m c m' → small ws → is_u64 n → logged m ws n mu → logged m' ws n mu.
Proof using.
  intros [Hwf _] He Hs Hn Hl.
  destruct (effect_agrees m c m' ws He Hs) as [Ha|(cm & ops & _ & -> & Hok & Hops & Hco & <-)].
  - by eapply agrees_logged.
  - apply keep_logged; auto.
Qed.

(** What was logged stays. *)
Lemma reached_logged s0 calls s more s' ws n mu :
  reached s0 calls s → reached s0 (calls ++ more) s' → small ws → is_u64 n →
  logged (sb_view s) ws n mu → logged (sb_view s') ws n mu.
Proof using Hlaws Hst.
  intros Hr. revert s'. induction more as [|c more IH] using rev_ind; intros s' Hr' Hs Hn Hl.
  { rewrite app_nil_r in Hr'. destruct Hr as [_ _ <-], Hr' as [_ _ <-]. done. }
  rewrite app_assoc in Hr'. destruct (reached_step _ _ _ _ Hr') as (s1 & Hr1 & _ & He).
  eapply effect_logged; [by eapply reached_inv|done|done|done|]. by apply IH.
Qed.

(** The plans that end in the receipt of a commitment. *)
Definition receipt_plan s (c : lcall) : option (lplan CommitMemoryReceipt) :=
  let p := lc_proof c in
  let u := lc_uuid c in
  match lc_op c with
  | LCommit r => Some (commit_version_plan key u s p r commit_disposition)
  | LCorrect r => Some (commit_version_plan key u s p r correct_disposition)
  | LPropose r q => Some (commit_version_plan key u s p r (propose_disposition (q || bool_decide
      (context_firewall_reason_codes (cr_content r) (cr_epistemic_formation r)
         (ms_sensitivity (cr_scope r)) ≠ []))))
  | LCommitProposal r => Some (commit_proposal_plan key u s p r)
  | LForget r => Some (transition_inactive_plan key u s p r forget_disposition)
  | LRetract r => Some (transition_inactive_plan key u s p r retract_disposition)
  | _ => None
  end.

Lemma receipt_plan_step s c plan :
  receipt_plan s c = Some plan →
  lstep s c = as_result RCommit (lcommit s plan) ∧ call_batch s c = batch_of plan.
Proof using. unfold receipt_plan, lstep, call_batch. destruct (lc_op c); try done; intros [= <-]; done. Qed.

(** A plan without a batch answers a request that was committed before. *)
Ltac plan_none :=
  let E := fresh "E" in intros E; binds E;
  match type of E with match ?i with _ => _ end = _ => destruct i; [by injection E as <-|] end; binds E;
  try (match type of E with (let (_, _) := ?x in _) = _ => destruct x end; binds E);
  unfold version_commit, proposal_commit, inactive_commit in E; by binds E.

Lemma version_plan_none u s p r d rc :
  commit_version_plan key u s p r d = Ok (rc, None) → rc_outcome rc = DuplicateCommit.
Proof using. unfold commit_version_plan. plan_none. Qed.
Lemma proposal_plan_none u s p r rc :
  commit_proposal_plan key u s p r = Ok (rc, None) → rc_outcome rc = DuplicateCommit.
Proof using. unfold commit_proposal_plan. plan_none. Qed.
Lemma inactive_plan_none u s p r d rc :
  transition_inactive_plan key u s p r d = Ok (rc, None) → rc_outcome rc = DuplicateCommit.
Proof using. unfold transition_inactive_plan. plan_none. Qed.

(** A committed receipt came with a batch that was written. *)
Lemma committed_step s c plan rc s' :
  receipt_plan s c = Some plan → lstep s c = (RCommit (Ok rc), s') → rc_outcome rc = Committed →
  ∃ ops, plan = Ok (rc, Some ops) ∧ sb_view s' = apply_batch (sb_view s) ops.
Proof using Hst.
  intros Hp Hs Hc. destruct (receipt_plan_step s c plan Hp) as [E _]. rewrite E in Hs. unfold as_result in Hs.
  injection Hs as Ha1 Ha2. unfold lcommit in *. destruct plan as [[a [ops|]]|e]; [| |discriminate].
  - destruct (sb_write_batch_sync s ops) as [[x|e] s''] eqn:W; [|discriminate]. cbn in *.
    injection Ha1 as ->. subst s''. apply sb_write_batch_sync_ok in W. by exists ops.
  - cbn in *. injection Ha1 as ->. exfalso. unfold receipt_plan in Hp.
    assert (rc_outcome rc = DuplicateCommit); [|congruence].
    destruct (lc_op c); try discriminate; injection Hp as Hp;
      by first [apply version_plan_none in Hp|apply proposal_plan_none in Hp|apply inactive_plan_none in Hp].
Qed.
(** The receipt of a request that was committed before. *)
Definition duplicate (rc : CommitMemoryReceipt) : CommitMemoryReceipt :=
  mkReceipt DuplicateCommit (rc_mutation_id rc) (rc_assertion_id rc) (rc_version_ids rc)
    (rc_commit_sequence rc) (rc_policy_decision_id rc) (rc_version_state rc).

Lemma duplicate_receipt mu rc :
  receipt_of mu rc → receipt_from_idempotency (idem_of mu) DuplicateCommit (rc_version_state rc) = duplicate rc.
Proof using. intros [E1 E2 E3 E4 E5]. unfold duplicate. by rewrite E1, E2, E3, E4, E5. Qed.

(** *** Concurrent writers *)

(** The operations that replace the heads of an assertion. *)
Definition writes_version (o : lop) : option (CommitMemoryRequest * CommitDisposition) :=
  match o with
  | LCommit r => Some (r, commit_disposition)
  | LCorrect r => Some (r, correct_disposition)
  | _ => None
  end.

Lemma writes_version_plan s c r d :
  writes_version (lc_op c) = Some (r, d) →
  receipt_plan s c = Some (commit_version_plan key (lc_uuid c) s (lc_proof c) r d) ∧
  disposition_ok d ∧ d_changes_head d = true.
Proof using.
  unfold writes_version, receipt_plan. destruct (lc_op c); try discriminate; intros [= <- <-]; split_and!; try done;
    (split; [|done]); unfold version_op; auto.
Qed.

(** A planned write: the heads it expects, and the head it leaves. *)
Lemma planned_version drawn s c r d rc ops :
  linv drawn (sb_view s) → draw c ∉ drawn → writes_version (lc_op c) = Some (r, d) →
  commit_version_plan key (lc_uuid c) s (lc_proof c) r d = Ok (rc, Some ops) →
  ∃ aid, assertion_id (request_identity r) = Ok aid ∧ small (draw c) ∧ small aid ∧
    small (ms_workspace_id (cr_scope r)) ∧
    sb_view s !! kenc (KVersion (ms_workspace_id (cr_scope r)) (draw c)) = None ∧
    cr_expected_head_version_ids r ≡ₚ heads_at (sb_view s) (ms_workspace_id (cr_scope r)) aid ∧
    heads_at (apply_batch (sb_view s) ops) (ms_workspace_id (cr_scope r)) aid = [draw c].
Proof using Hlaws Hst.
  intros [Hwf Hdr] Hfr Hw E. destruct (writes_version_plan s c r d Hw) as (_ & Hd & Hch).
  assert (small (ms_workspace_id (cr_scope r))) as Hsm.
  { unfold commit_version_plan in E. binds E. by apply commit_request_small in E1. }
  destruct (version_follows key (lc_uuid c) s (lc_proof c) r d rc ops)
    as (cm & v & Hf & Hcv & Hid & Haid & Hex & _ & _ & (h & Hh & Hhs) & _); auto.
  { intros Hsd. apply eq_None_not_Some. intros Hx. by apply Hfr, (Hdr (ms_workspace_id (cr_scope r))). }
  destruct Hf as [Hok Hops Hco Hws]. rewrite Hch in Hhs. exists (mm_assertion_id (cm_mutation cm)).
  destruct (co_version _ Hok v Hcv) as (Vv & _). apply version_ok in Vv as (Hsv & _).
  change (mv_version_id v = draw c) in Hid. destruct (ch_fresh _ _ Hco v Hcv) as [Hfv _].
  rewrite Hid, Hws in *. split_and!; try done; [by apply aid_small|].
  unfold heads_at. rewrite <-Hws, (keep_head cm ops _ Hok Hops h Hh). by rewrite Hhs.
Qed.

(** C7: no lost updates: a commit or a correction that does not expect exactly the
    current heads of its assertion changes nothing, and is answered with an error
    or, if it was committed before, as a duplicate; one that is committed expected
    exactly those heads and leaves its own new version as the only head. So a
    writer whose heads were replaced since it read them is refused for as long as
    the heads are not those it read. *)
Theorem stale_writer_is_refused s0 calls s c s' r d aid x :
  reached s0 calls s → reached s0 (calls ++ [c]) s' →
  writes_version (lc_op c) = Some (r, d) → assertion_id (request_identity r) = Ok aid →
  lstep s c = (x, s') →
  (¬ cr_expected_head_version_ids r ≡ₚ heads_at (sb_view s) (ms_workspace_id (cr_scope r)) aid →
   s' = s ∧ ∀ rc, x = RCommit (Ok rc) → rc_outcome rc = DuplicateCommit) ∧
  (∀ rc, x = RCommit (Ok rc) → rc_outcome rc = Committed →
   cr_expected_head_version_ids r ≡ₚ heads_at (sb_view s) (ms_workspace_id (cr_scope r)) aid ∧
   heads_at (sb_view s') (ms_workspace_id (cr_scope r)) aid = [draw c] ∧
   draw c ∉ cr_expected_head_version_ids r).
Proof using Hlaws Hst.
  intros Hr Hr' Hw Ha Hs.
  assert (draw c ∉ draw <$> calls) as Hf.
  { destruct Hr' as [_ Hnd _]. rewrite fmap_app in Hnd. apply NoDup_app in Hnd as (_ & Hn & _).
    intros Hx. apply (Hn _ Hx). by left. }
  destruct (writes_version_plan s c r d Hw) as (Hp & _).
  assert (∀ rc ops, commit_version_plan key (lc_uuid c) s (lc_proof c) r d = Ok (rc, Some ops) →
    cr_expected_head_version_ids r ≡ₚ heads_at (sb_view s) (ms_workspace_id (cr_scope r)) aid ∧
    heads_at (apply_batch (sb_view s) ops) (ms_workspace_id (cr_scope r)) aid = [draw c] ∧
    draw c ∉ cr_expected_head_version_ids r) as Hplan.
  { intros rc ops E. destruct (planned_version _ _ _ _ _ _ _ (reached_inv _ _ _ Hr) Hf Hw E)
      as (aid' & Ha' & Hsd & Hsa & Hsw & Hfr & Hex & Hh).
    rewrite Ha in Ha'. injection Ha' as <-. split_and!; [done|done|]. intros Hin. rewrite Hex in Hin.
    apply heads_active in Hin as [Ho _]; [|by eapply reached_wf|done|done].
    unfold owner_at, rec_at in Ho. by rewrite Hfr in Ho. }
  split.
  - intros Hne. destruct (receipt_plan_step s c _ Hp) as [Es _]. rewrite Hs in Es. unfold as_result, lcommit in Es.
    destruct (commit_version_plan key (lc_uuid c) s (lc_proof c) r d) as [[rc [ops|]]|e] eqn:E.
    + exfalso. apply Hne. by apply (Hplan rc ops).
    + injection Es as -> ->. split; [done|]. intros rc' [= <-]. by apply version_plan_none in E.
    + injection Es as -> ->. split; [done|]. by intros rc.
  - intros rc -> Hc. destruct (committed_step s c _ rc s' Hp Hs Hc) as (ops & E & ->). by eapply Hplan.
Qed.

Context `{Hrel : !StorageReliable S}.

(** A request that is planned again once its mutation is logged. *)
Lemma version_retry drawn s c r d rc ops :
  linv drawn (sb_view s) → draw c ∉ drawn → disposition_ok d →
  commit_version_plan key (lc_uuid c) s (lc_proof c) r d = Ok (rc, Some ops) →
  ∃ ws cm, follows (sb_view s) ws cm ops ∧ small ws ∧
    ∀ s' u n, logged (sb_view s') ws n (cm_mutation cm) →
      commit_version_plan key u s' (lc_proof c) r d = Ok (duplicate rc, None).
Proof using Hst Hrel.
  intros [Hwf Hdr] Hfr Hd E. exists (ms_workspace_id (cr_scope r)).
  assert (small (ms_workspace_id (cr_scope r))) as Hsm.
  { unfold commit_version_plan in E. binds E. by apply commit_request_small in E1. }
  destruct (version_follows key (lc_uuid c) s (lc_proof c) r d rc ops)
    as (cm & v & Hf & _ & _ & _ & _ & _ & _ & _ & Hq & _ & Hvs & Hrc); auto.
  { intros Hsd. apply eq_None_not_Some. intros Hx. by apply Hfr, (Hdr (ms_workspace_id (cr_scope r))). }
  exists cm. split; [done|]. split; [done|]. intros s' u n Hl.
  rewrite (version_replay key _ u s s' _ _ _ _ _ n (cm_mutation cm) E Hl (requested_mutation _ _ _ _ _ _ _ _ Hq)).
  by rewrite <-Hvs, (duplicate_receipt _ _ Hrc).
Qed.

Lemma inactive_retry drawn s c r d rc ops :
  linv drawn (sb_view s) → inactive_disposition_ok d →
  transition_inactive_plan key (lc_uuid c) s (lc_proof c) r d = Ok (rc, Some ops) →
  ∃ ws cm, follows (sb_view s) ws cm ops ∧ small ws ∧
    ∀ s' u n, logged (sb_view s') ws n (cm_mutation cm) →
      transition_inactive_plan key u s' (lc_proof c) r d = Ok (duplicate rc, None).
Proof using Hst Hrel.
  intros [Hwf Hdr] Hd E. exists (fr_workspace_id r). assert (small (fr_workspace_id r)) as Hsm.
  { unfold transition_inactive_plan in E. binds E. by apply forget_request_small in E1. }
  destruct (inactive_follows key (lc_uuid c) s (lc_proof c) r d rc ops)
    as (cm & Hf & _ & _ & _ & _ & Hq & _ & Hvs & Hrc); auto.
  exists cm. split; [done|]. split; [done|]. intros s' u n Hl.
  rewrite (inactive_replay key _ u s s' _ _ _ _ _ n (cm_mutation cm) E Hl (requested_mutation _ _ _ _ _ _ _ _ Hq)).
  by rewrite <-Hvs, (duplicate_receipt _ _ Hrc).
Qed.

Lemma proposal_retry drawn s c r rc ops :
  linv drawn (sb_view s) →
  commit_proposal_plan key (lc_uuid c) s (lc_proof c) r = Ok (rc, Some ops) →
  ∃ ws cm, follows (sb_view s) ws cm ops ∧ small ws ∧
    ∀ s' u n, logged (sb_view s') ws n (cm_mutation cm) →
      commit_proposal_plan key u s' (lc_proof c) r = Ok (duplicate rc, None).
Proof using Hst Hrel.
  intros [Hwf Hdr] E. exists (pr_workspace_id r). assert (small (pr_workspace_id r)) as Hsm.
  { unfold commit_proposal_plan in E. binds E. by apply commit_proposal_request_small in E1. }
  destruct (proposal_follows key (lc_uuid c) s (lc_proof c) r rc ops)
    as (cm & v & Hf & _ & _ & _ & _ & _ & _ & _ & Hq & _ & Hvs & Hrc); auto.
  exists cm. split; [done|]. split; [done|]. intros s' u n Hl.
  rewrite (proposal_replay key _ u s s' _ _ _ _ n (cm_mutation cm) E Hl (requested_mutation _ _ _ _ _ _ _ _ Hq)).
  by rewrite <-Hvs, (duplicate_receipt _ _ Hrc).
Qed.

Ltac with_retry H :=
  destruct H as (ws & cm & Hf & Hs & Hx); exists ws, cm; split_and!; [done..|];
  intros s' u n Hl; by rewrite (Hx s' u n Hl).

Lemma retry_plan drawn s c rc ops :
  linv drawn (sb_view s) → draw c ∉ drawn → receipt_plan s c = Some (Ok (rc, Some ops)) →
  ∃ ws cm, follows (sb_view s) ws cm ops ∧ small ws ∧
    ∀ s' u n, logged (sb_view s') ws n (cm_mutation cm) →
      receipt_plan s' (mkCall (lc_proof c) u (lc_op c)) = Some (Ok (duplicate rc, None)).
Proof using Hst Hrel.
  intros Hi Hfr Hp. unfold receipt_plan in *. cbn [lc_op lc_proof lc_uuid].
  destruct (lc_op c); try discriminate; injection Hp as Hp.
  - with_retry (version_retry drawn s c r commit_disposition rc ops Hi Hfr ltac:(by split; [left|]) Hp).
  - with_retry (version_retry drawn s c r correct_disposition rc ops Hi Hfr ltac:(by split; [right; left|]) Hp).
  - with_retry (version_retry drawn s c r _ rc ops Hi Hfr (propose_ok _) Hp).
  - with_retry (proposal_retry drawn s c r rc ops Hi Hp).
  - with_retry (inactive_retry drawn s c r forget_disposition rc ops Hi ltac:(by split; [left|]) Hp).
  - with_retry (inactive_retry drawn s c r retract_disposition rc ops Hi ltac:(by split; [right|]) Hp).
Qed.

(** C8: a commit, correction, proposal, commitment of a proposal, forget or
    retraction that was committed and is sent again, after any further calls, is
    answered with the receipt of its first commitment, marked as a duplicate, and
    changes nothing. (A repeated observation has a receipt of another type, and a
    repeated reinforcement reports the state its version has by then.) *)
Theorem retried_request_gets_first_receipt s0 calls s c s1 rc more s2 u :
  reached s0 calls s → lstep s c = (RCommit (Ok rc), s1) → rc_outcome rc = Committed →
  is_Some (receipt_plan s c) → reached s0 (calls ++ c :: more) s2 →
  lstep s2 (mkCall (lc_proof c) u (lc_op c)) = (RCommit (Ok (duplicate rc)), s2).
Proof using Hlaws Hst Hrel.
  intros Hr Hs Hc [plan Hp] Hr2. destruct (committed_step s c plan rc s1 Hp Hs Hc) as (ops & -> & Hv).
  assert (draw c ∉ draw <$> calls ∧ reached s0 (calls ++ [c]) s1) as [Hfr Hr1].
  { destruct Hr as [He _ Hr], Hr2 as [_ Hnd _]. rewrite fmap_app, fmap_cons in Hnd.
    apply NoDup_app in Hnd as (Hn1 & Hn2 & [Hn3 _]%NoDup_cons). split.
    - intros Hx. apply (Hn2 _ Hx). by left.
    - split; [done| |by rewrite lrun_app, Hr, lrun_cons, Hs]. rewrite fmap_app. apply NoDup_app.
      split_and!; [done| |apply NoDup_singleton]. intros d Hd ->%list_elem_of_singleton. apply (Hn2 _ Hd). by left. }
  destruct (retry_plan _ _ _ _ _ (reached_inv _ _ _ Hr) Hfr Hp) as (ws & cm & [Hok Hops Hco <-] & Hsm & Hx).
  assert (logged (sb_view s2) (mm_workspace_id (cm_mutation cm)) (mm_committed_sequence (cm_mutation cm)) (cm_mutation cm)) as Hl.
  { change (c :: more) with ([c] ++ more) in Hr2. rewrite app_assoc in Hr2.
    eapply (reached_logged s0 _ s1 more s2); [done|done|done|by apply n_u64|]. rewrite Hv. by apply new_logged. }
  destruct (receipt_plan_step _ _ _ (Hx s2 u _ Hl)) as [-> _]. done.
Qed.
End runs.

(** ** A ledger of one workspace *)

Module RunExamples.
Export LedgerExample.LedgerExample.

Definition remember (tag : string) (r : CommitMemoryRequest) : lcall :=
  mkCall (demo_proof "w" "memory.remember") (demo_uuid tag) (LCommit r).

Definition call_a : lcall := remember "a" demo_first.
Definition call_b : lcall := remember "b" demo_second.
(** A request that expects the assertion to have no head yet. *)
Definition call_x : lcall := remember "x" (demo_commit "w" "green" "k3" "p3" [] GoverningPolicy).

Definition demo_state (calls : list lcall) : RocksDbBackend MemDB := (lrun demo_key store0 calls).2.
Definition demo_aid : string :=
  match assertion_id (request_identity demo_first) with Ok a => a | Err _ => "" end.

Lemma demo_reached calls : NoDup (draw <$> calls) → reached demo_key store0 calls (demo_state calls).
Proof. intros Hnd. split; [intros k _; exact (lookup_empty (M := gmap string) k)|done|done]. Qed.

Ltac reach := apply demo_reached; apply (bool_decide_unpack _); vm_compute; exact I.
Ltac ev := vm_compute; reflexivity.

Lemma ledger_is_gapless_witness : ∃ mu, logged (sb_view (demo_state [call_a; call_b])) "w" 2 mu.
Proof.
  assert (reached demo_key store0 [call_a; call_b] (demo_state [call_a; call_b])) as Hr by reach.
  destruct (ledger_is_gapless demo_key store0 [call_a; call_b] _ "w" 2 Hr ltac:(ev) ltac:(vm_compute; split; discriminate)) as [H _].
  apply H. vm_compute. split; discriminate.
Defined.

Lemma heads_list_active_versions_witness :
  state_at (sb_view (demo_state [call_a; call_b])) "w" (demo_vid "b") = Some Active.
Proof.
  assert (reached demo_key store0 [call_a; call_b] (demo_state [call_a; call_b])) as Hr by reach.
  destruct (heads_list_active_versions demo_key store0 [call_a; call_b] _ "w" demo_aid [demo_vid "b"] Hr) as [_ H];
    [ev..|]. apply (H (demo_vid "b")); [ev|by left].
Defined.

Lemma versions_follow_their_lifecycle_witness :
  sb_view (demo_state [call_a; call_b]) !! kenc (KVersion "w" (demo_vid "a"))
  = sb_view (demo_state [call_a]) !! kenc (KVersion "w" (demo_vid "a")).
Proof.
  assert (reached demo_key store0 [call_a] (demo_state [call_a])) as Hr by reach.
  assert (reached demo_key store0 ([call_a] ++ [call_b]) (demo_state [call_a; call_b])) as Hr' by reach.
  apply (versions_follow_their_lifecycle demo_key store0 [call_a] _ call_b _ "w" (demo_vid "a") Hr Hr'); [ev..|].
  apply (bool_decide_unpack _). ev.
Defined.

Lemma superseding_needs_authority_witness :
  ∃ aid w old new,
    owner_at (sb_view (demo_state [call_a; call_b])) "w" (demo_vid "a") = Some aid ∧
    head_at (sb_view (demo_state [call_a; call_b])) "w" aid = Some [w] ∧
    rec_at (sb_view (demo_state [call_a; call_b])) (KVersion "w" (demo_vid "a")) = Some old ∧
    rec_at (sb_view (demo_state [call_a; call_b])) (KVersion "w" w) = Some new ∧
    decision_authority_rank (mv_decision_authority old) ≤ decision_authority_rank (mv_decision_authority new).
Proof.
  assert (reached demo_key store0 [call_a] (demo_state [call_a])) as Hr by reach.
  assert (reached demo_key store0 ([call_a] ++ [call_b]) (demo_state [call_a; call_b])) as Hr' by reach.
  apply (superseding_needs_authority demo_key store0 [call_a] _ call_b _ "w" (demo_vid "a") Hr Hr'); ev.
Defined.

Lemma stale_writer_is_refused_witness : demo_state [call_a; call_x] = demo_state [call_a].
Proof.
  assert (reached demo_key store0 [call_a] (demo_state [call_a])) as Hr by reach.
  assert (reached demo_key store0 ([call_a] ++ [call_x]) (demo_state [call_a; call_x])) as Hr' by reach.
  destruct (lstep demo_key (demo_state [call_a]) call_x) as [x s2] eqn:E.
  assert (s2 = demo_state [call_a; call_x]) as E2.
  { unfold demo_state in *. change [call_a; call_x] with ([call_a] ++ [call_x]).
    rewrite lrun_app, (lrun_cons _ (lrun _ _ [call_a]).2), E. exact eq_refl. }
  rewrite E2 in E.
  refine (proj1 (proj1 (stale_writer_is_refused demo_key store0 [call_a] _ call_x _
    (demo_commit "w" "green" "k3" "p3" [] GoverningPolicy) commit_disposition demo_aid x Hr Hr' eq_refl _ E) _)).
  - vm_compute. reflexivity.
  - intros Hp%Permutation_length. vm_compute in Hp. discriminate.
Defined.

Lemma retried_request_gets_first_receipt_witness :
  ∃ rc, rc_commit_sequence rc = 1 ∧
    lstep demo_key (demo_state [call_a; call_b]) (remember "c" demo_first)
    = (RCommit (Ok (duplicate rc)), demo_state [call_a; call_b]).
Proof.
  assert (reached demo_key store0 [] store0) as Hr by reach.
  assert (reached demo_key store0 ([] ++ call_a :: [call_b]) (demo_state [call_a; call_b])) as Hr' by reach.
  destruct (lstep demo_key store0 call_a) as [x1 s1] eqn:E1.
  assert (∃ rc, x1 = RCommit (Ok rc) ∧ rc_outcome rc = Committed ∧ rc_commit_sequence rc = 1) as (rc & -> & Hc & Hn).
  { apply (f_equal fst) in E1. cbn [fst] in E1. rewrite <-E1. vm_compute. eexists. split_and!; reflexivity. }
  exists rc. split; [done|].
  apply (retried_request_gets_first_receipt demo_key store0 [] store0 call_a s1 rc [call_b] _ (demo_uuid "c") Hr E1 Hc); [|exact Hr'].
  unfold receipt_plan. exact (ex_intro _ _ eq_refl).
Defined.
End RunExamples.
