(* ===== verification/LedgerViews.v ===== *)
(** * What callers and projections see of the memory ledger

    A call reaches only the workspace of its proof; projections apply the outbox
    in order, each entry with its data in one batch, so that a visibility receipt
    means that every projection of the set was given every entry up to it. *)

From Stdlib Require Import Ascii.
From S2P Require Import Prelude Float32 Text Sorting Storage Hex Keys Filter Knowledge MemoryContracts LedgerModel Ledger LedgerProps LedgerState LedgerSteps LedgerRuns.

Section views.
Context `{!UnicodeNormalization, !CharTables, !ContentCodec, !LedgerCodec, !Sha256, !Hmac, Hlaws : !LedgerCodecLaws}.
Context {S : Type} `{!StorageBackend S, Hst : !StorageLaws S} (key : list Z).
Implicit Types (s : S) (ws pid : string).

(** ** Workspaces *)

(** The records a call may write: those of the workspace of its proof, and the
    manifests of projection sets, which belong to no workspace. *)
Definition reaches (c : lcall) (k : mkey) : bool :=
  match kscope k with
  | Some ws => String.eqb ws (g_workspace_id (grant (lc_proof c)))
  | None => true
  end.

Lemma outbox_small o : outbox_validate o = Ok tt → small (ox_workspace_id o).
Proof using. unfold outbox_validate. intros V. binds V. by apply scope_id_small in E0. Qed.

(** A key of a projection, in the workspace of the proof. *)
Record own_projection_key (c : lcall) (k : mkey) : Prop := {
  ok_projection : projection_key k = true;
  ok_scope ws : kscope k = Some ws → small ws ∧ ws = g_workspace_id (grant (lc_proof c));
}.

Lemma own_put {A} `{!Serde A} c k (a : A) o :
  put_record (kenc k) a = Ok o → own_projection_key c k → ∃ k, op_key o = kenc k ∧ own_projection_key c k.
Proof using. intros (b & _ & ->)%put_record_ok Hk. by exists k. Qed.

Ltac own_tac c k :=
  match goal with P : @put_record _ _ _ _ = _ |- _ => apply (own_put c k) in P end;
  [eassumption|split; [done|by intros ? [= <-]]].

Lemma own_ready c ws pid ck now r ops o :
  ready_checkpoint ws pid ck now = Ok (r, Some ops) → o ∈ ops → small ws →
  g_workspace_id (grant (lc_proof c)) = ws → ∃ k, op_key o = kenc k ∧ own_projection_key c k.
Proof using.
  unfold ready_checkpoint. intros E Ho Hs Hg. binds E. injection E as _ <-.
  apply list_elem_of_singleton in Ho as ->. own_tac c (KCheckpoint ws pid).
Qed.

Lemma own_projection s c ops o :
  call_batch key s c = Some ops → o ∈ ops →
  projection_call (lc_op c) = true →
  ∃ k, op_key o = kenc k ∧ own_projection_key c k.
Proof using.
  unfold call_batch. destruct (lc_op c); try done; intros [a E]%batch_of_some Ho _.
  - unfold apply_projection_plan in E. binds E. destruct (_ <=? _) in E; [discriminate|]. binds E.
    injection E as _ <-. apply workspace_ok in E0. apply lcontract_ok, outbox_small in E2.
    apply elem_of_app in Ho as [Ho|Ho].
    + apply list_elem_of_fmap in Ho as ([k v|k] & -> & _); exists (KData (ox_workspace_id entry) pid k);
        (split; [done|split; [done|by intros ? [= <-]]]).
    + apply list_elem_of_singleton in Ho as ->.
      own_tac c (KCheckpoint (ox_workspace_id entry) pid).
  - unfold mark_projection_ready_plan in E. binds E. apply workspace_ok in E0. apply local_id_small in E1.
    by eapply own_ready.
  - unfold try_mark_projection_ready_at_plan in E. binds E. destruct (_ || _) in E; [discriminate|]. binds E.
    apply workspace_ok in E0. apply local_id_small in E1.
    match goal with x : _ * _ |- _ => destruct x end. injection E as _ ->. by eapply own_ready.
  - unfold register_projection_set_plan in E. binds E.
    match type of E with match ?x with _ => _ end = _ => destruct x as [b|] end; [by binds E|]. binds E.
    injection E as <-. apply list_elem_of_singleton in Ho as ->.
    own_tac c (KSet (pm_projection_set_id m) (pm_projection_set_version m)).
  - unfold activate_projection_set_plan in E. binds E. apply workspace_ok in E0. apply local_id_small in E1.
    injection E as _ <-. apply list_elem_of_singleton in Ho as ->.
    own_tac c (KActiveSet ws).
Qed.

Lemma authorized_verified p ws caps : authorize_workspace_capability key p ws caps = Ok tt → verify key p = Ok tt.
Proof using. unfold authorize_workspace_capability, authorize_capability. intros E. binds E. by binds E0. Qed.

(** Only a call with a verified proof plans a batch. *)
Lemma batch_verified s c ops : call_batch key s c = Some ops → verify key (lc_proof c) = Ok tt.
Proof using.
  unfold call_batch, observe_plan, commit_version_plan, commit_proposal_plan, reinforce_plan, transition_inactive_plan,
    apply_projection_plan, mark_projection_ready_plan, try_mark_projection_ready_at_plan,
    register_projection_set_plan, activate_projection_set_plan, authorize_commit, authorize_lifecycle_request.
  destruct (lc_op c); intros [a E]%batch_of_some;
    (apply bind_ok in E as ([] & E & _));
    first [by apply authorized_verified in E
          |apply bind_ok in E as ([] & E & _); by first [apply authorized_verified in E|idtac]
          |unfold authorize_capability in E; by apply bind_ok in E as ([] & E & _)].
Qed.

(** C11: a call whose proof does not verify changes nothing, and one whose proof
    verifies changes no record of another workspace than the proof's. *)
Theorem proofs_confine_calls s0 calls s c s' k ws :
  reached key s0 calls s → reached key s0 (calls ++ [c]) s' →
  (verify key (lc_proof c) ≠ Ok tt → sb_view s' = sb_view s) ∧
  (kscope k = Some ws → small ws → reaches c k = false → sb_view s' !! kenc k = sb_view s !! kenc k).
Proof using Hlaws Hst.
  intros Hr Hr'. destruct (reached_next _ _ _ _ _ _ Hr Hr') as [-> _].
  pose proof (reached_fresh _ _ _ _ _ Hr') as Hfr.
  destruct (lstep_view key s c) as [-> |(ops & Hb & ->)]; [done|]. split.
  { intros Hv. by apply batch_verified in Hb. }
  intros Hk Hs Hre. unfold reaches in Hre. rewrite Hk in Hre. apply String.eqb_neq in Hre.
  destruct (call_committed key _ s c ops (reached_inv _ _ _ _ Hr) Hfr Hb) as [(w & cm & [Hw [Hok Hops _ Hws] _ _ Hg])|[Hp _]].
  - eapply commitment_other_scope; try done. by rewrite Hws, <-Hg.
  - apply apply_batch_other. intros o Ho. destruct (own_projection s c ops o Hb Ho Hp) as (k' & -> & [Hk' Hsc]).
    destruct (kscope k') as [w|] eqn:Ek.
    + destruct (Hsc w eq_refl) as [Hsw ->]. eapply scopes_disjoint; [done|done|done|done|]. by apply not_eq_sym.
    + intros [Et _]%kenc_tag. destruct k', k; try discriminate.
Qed.
(** ** Projections *)

(** How far a projection has applied the outbox. *)
Definition applied_at (m : gmap string string) ws pid : Z :=
  default 0 (pc_applied_sequence <$> rec_at m (KCheckpoint ws pid)).

(** The call that gives a projection the entry of a number. *)
Definition gives (c : lcall) ws pid (entry : ProjectionOutboxEntry) (data : list ProjectionDataOperation) : Prop :=
  ∃ now, lc_op c = LApply pid entry data now ∧ ox_workspace_id entry = ws.

(** The next entry of the outbox is applied: its data and the new checkpoint are
    written in one batch. *)
Definition applies_next (m : gmap string string) (c : lcall) (m' : gmap string string) ws pid : Prop :=
  ∃ entry data b, gives c ws pid entry data ∧ outbox_at m ws (ox_sequence entry) = Some entry ∧
    ox_sequence entry = applied_at m ws pid + 1 ∧ ox_sequence entry ≤ u64_max ∧
    applied_at m' ws pid = ox_sequence entry ∧
    m' = apply_batch m ((data_operation ws pid <$> data) ++ [Put (kenc (KCheckpoint ws pid)) b]).

Lemma commitment_applied m cm ops ws pid :
  commitment_ok cm → commits cm ops → small ws → small pid →
  apply_batch m ops !! kenc (KCheckpoint ws pid) = m !! kenc (KCheckpoint ws pid).
Proof using.
  intros Hok Hops Hs Hp.
  destruct (commitment_lookup cm ops m (KCheckpoint ws pid) Hok Hops) as [(v & Hv & _)|[_ E]]; [kok_tac|done| |done].
  apply spec_keys in Hv. unfold idem_key in Hv. naive_solver.
Qed.

Lemma kenc_checkpoint ws pid ws' pid' :
  small ws → small pid → small ws' → small pid' →
  kenc (KCheckpoint ws' pid') = kenc (KCheckpoint ws pid) → ws' = ws ∧ pid' = pid.
Proof using. intros ? ? ? ? E. apply kenc_inj in E; [|kok_tac..]. by injection E. Qed.

Lemma load_checkpoint_some s ws pid c :
  load_projection_checkpoint_unlocked s ws pid = Ok (Some c) →
  rec_at (sb_view s) (KCheckpoint ws pid) = Some c ∧ pc_workspace_id c = ws ∧ pc_projection_id c = pid ∧ small pid.
Proof using Hst.
  intros (Hr & V & I)%(load_record_some _ (KCheckpoint ws pid)). apply andb_true_iff in I as [I1 I2].
  apply String.eqb_eq in I1, I2. split_and!; try done. unfold projection_checkpoint_validate in V. binds V.
  apply id_small in E1. by rewrite <-I2.
Qed.

Lemma load_checkpoint_applied s ws pid o :
  load_projection_checkpoint_unlocked s ws pid = Ok o →
  default 0 (pc_applied_sequence <$> o) = applied_at (sb_view s) ws pid.
Proof using Hst.
  intros E. unfold applied_at. destruct o as [c|]; [by apply load_checkpoint_some in E as (-> & _)|].
  apply (load_none _ (KCheckpoint ws pid)) in E. unfold rec_at. by rewrite E.
Qed.

(** A batch that ends in a checkpoint. *)
Lemma checkpoint_batch m ops o ws' pid' (c : ProjectionCheckpoint) ws pid :
  put_record (kenc (KCheckpoint ws' pid')) c = Ok o →
  (∀ x, x ∈ ops → ∃ k, op_key x = kenc (KData ws' pid' k)) →
  small ws → small pid → small ws' → small pid' →
  applied_at (apply_batch m (ops ++ [o])) ws pid =
    (if decide ((ws', pid') = (ws, pid)) then pc_applied_sequence c else applied_at m ws pid).
Proof using Hlaws.
  intros (b & Hb & ->)%put_record_ok Hd Hs Hp Hs' Hp'. unfold applied_at, rec_at.
  rewrite apply_batch_app. change (apply_batch ?x [Put ?k ?v]) with (<[k := v]> x). case_decide as D.
  - injection D as -> ->. rewrite lookup_insert_eq. cbn. by rewrite (serde_roundtrip _ _ Hb).
  - rewrite lookup_insert_ne; [rewrite apply_batch_other; [done|]|].
    + intros x Hx. destruct (Hd x Hx) as (k & ->). intros [Et _]%kenc_tag. discriminate Et.
    + intros E. apply D. apply kenc_checkpoint in E as [-> ->]; done.
Qed.
Lemma load_outbox_some s ws n o :
  load_outbox_unlocked s ws n = Ok (Some o) → outbox_at (sb_view s) ws n = Some o.
Proof using Hst. by intros (Hr & _)%(load_record_some _ (KOutbox ws n)). Qed.

(** The batch of [apply_projection]: the data of the entry and the checkpoint. *)
Lemma apply_batch_of s p pid entry data now a ops :
  apply_projection_plan key s p pid entry data now = Ok (a, Some ops) →
  let ws := ox_workspace_id entry in
  small ws ∧ small pid ∧ outbox_at (sb_view s) ws (ox_sequence entry) = Some entry ∧
  ox_sequence entry = applied_at (sb_view s) ws pid + 1 ∧ ox_sequence entry ≤ u64_max ∧
  ∃ c o, ops = (data_operation ws pid <$> data) ++ [o] ∧ put_record (kenc (KCheckpoint ws pid)) c = Ok o ∧
    pc_applied_sequence c = ox_sequence entry.
Proof using Hst.
  unfold apply_projection_plan. intros E. binds E. destruct (_ <=? _) in E; [discriminate|]. binds E.
  cbn zeta. injection E as _ <-. apply local_id_small in E1. apply lcontract_ok, outbox_small in E2.
  repeat match goal with
         | L : ok_or _ _ = Ok _ |- _ => apply ok_or_ok in L; try subst
         | L : load_projection_checkpoint_unlocked _ _ _ = Ok _ |- _ => apply load_checkpoint_applied in L; rewrite L in *
         | L : checked_add _ _ _ = Some _ |- _ => apply checked_add_Some in L as [-> ?]
         | L : negb (_ =? _) = false |- _ => apply negb_false_iff, Z.eqb_eq in L
         | L : load_outbox_unlocked _ _ _ = Ok (Some _) |- _ => apply load_outbox_some in L
         | L : ¬ (_ ≠ _) |- _ => apply dec_stable in L; try subst
         end.
  split_and!; try done; [lia|]. eexists _, _. split; [reflexivity|]. split; [eassumption|done].
Qed.

Lemma ready_batch_of s ws pid o c now r ops :
  load_projection_checkpoint_unlocked s ws pid = Ok o → ok_or o (ProjectionCheckpointNotFound pid) = Ok c →
  ready_checkpoint ws pid c now = Ok (r, Some ops) →
  small pid ∧ ∃ c' x, ops = [] ++ [x] ∧ put_record (kenc (KCheckpoint ws pid)) c' = Ok x ∧
    pc_applied_sequence c' = applied_at (sb_view s) ws pid.
Proof using Hst.
  intros L ->%ok_or_ok E. pose proof (load_checkpoint_applied _ _ _ _ L) as La.
  apply load_checkpoint_some in L as (_ & _ & _ & Hs). split; [done|].
  unfold ready_checkpoint in E. binds E. injection E as _ <-. eexists _, _. split; [reflexivity|].
  split; [eassumption|]. done.
Qed.

Lemma set_batch_of s c ops o :
  call_batch key s c = Some ops → o ∈ ops →
  match lc_op c with LRegister _ | LActivate _ _ _ _ => True | _ => False end →
  ∃ k, op_key o = kenc k ∧ match k with KSet _ _ | KActiveSet _ => True | _ => False end.
Proof using.
  unfold call_batch. destruct (lc_op c) as [| | | | | | | | | | |m|ws sid n now]; try done; intros [a E]%batch_of_some Ho _.
  - unfold register_projection_set_plan in E. binds E.
    match type of E with match ?x with _ => _ end = _ => destruct x as [b|] end; [by binds E|]. binds E.
    injection E as <-. apply list_elem_of_singleton in Ho as ->.
    match goal with P : @put_record _ _ _ _ = _ |- _ => apply put_record_ok in P as (b & _ & ->) end.
    by exists (KSet (pm_projection_set_id m) (pm_projection_set_version m)).
  - unfold activate_projection_set_plan in E. binds E. injection E as _ <-. apply list_elem_of_singleton in Ho as ->.
    match goal with P : @put_record _ _ _ _ = _ |- _ => apply put_record_ok in P as (b & _ & ->) end.
    by exists (KActiveSet ws).
Qed.

Lemma data_keys ws pid (data : list ProjectionDataOperation) x :
  x ∈ data_operation ws pid <$> data → ∃ k, op_key x = kenc (KData ws pid k).
Proof using. intros ([k v|k] & -> & _)%list_elem_of_fmap; by exists k. Qed.

(** What a call of a projection does to a checkpoint. *)
Lemma projection_applied s c ops ws pid :
  call_batch key s c = Some ops → projection_call (lc_op c) = true → small ws → small pid →
  applied_at (apply_batch (sb_view s) ops) ws pid = applied_at (sb_view s) ws pid ∨
  applies_next (sb_view s) c (apply_batch (sb_view s) ops) ws pid.
Proof using Hlaws Hst.
  intros Hb Hpc Hs Hp. pose proof (λ o, set_batch_of s c ops o Hb) as Hset.
  assert (∀ w q o x cp now r, load_projection_checkpoint_unlocked s w q = Ok o →
    ok_or o (ProjectionCheckpointNotFound q) = Ok cp → ready_checkpoint w q cp now = Ok (r, Some x) → small w →
    applied_at (apply_batch (sb_view s) x) ws pid = applied_at (sb_view s) ws pid) as Hready.
  { intros w q o x cp now r L1 L2 L3 Hw.
    destruct (ready_batch_of _ _ _ _ _ _ _ _ L1 L2 L3) as (Hq & c' & y & -> & Hy & Ha).
    rewrite (checkpoint_batch _ [] y w q c' ws pid Hy) by (try done; by intros ? ?%elem_of_nil).
    case_decide as D; [|done]. by injection D as <- <-. }
  unfold call_batch in Hb. destruct (lc_op c) eqn:Ec; try discriminate Hpc; clear Hpc.
  - apply batch_of_some in Hb as [a E].
    apply apply_batch_of in E as (Hw & Hq & Hout & Hseq & Hmax & c' & o & -> & Ho & Ha).
    pose proof (checkpoint_batch (sb_view s) _ o _ _ c' ws pid Ho (data_keys _ _ data) Hs Hp Hw Hq) as Hap.
    case_decide as D; [|by left]. injection D as <- <-. right.
    destruct (put_record_ok _ _ _ Ho) as (b & _ & ->). exists entry, data, b.
    split_and!; [by exists now|done..|by rewrite Hap|done].
  - left. apply batch_of_some in Hb as [a E]. unfold mark_projection_ready_plan in E. binds E.
    apply local_id_small in E1. eapply Hready; eassumption.
  - left. apply batch_of_some in Hb as [a E]. unfold try_mark_projection_ready_at_plan in E. binds E.
    destruct (_ || _) in E; [discriminate|]. binds E. apply local_id_small in E1.
    match goal with x : _ * _ |- _ => destruct x as [r b] end. injection E as _ ->. eapply Hready; eassumption.
  - left. unfold applied_at, rec_at. rewrite apply_batch_other; [done|]. intros o Ho.
    destruct (Hset o Ho I) as (k & -> & Hk). intros [Et _]%kenc_tag. by destruct k.
  - left. unfold applied_at, rec_at. rewrite apply_batch_other; [done|]. intros o Ho.
    destruct (Hset o Ho I) as (k & -> & Hk). intros [Et _]%kenc_tag. by destruct k.
Qed.

Lemma step_applied s0 calls s c s' ws pid :
  reached key s0 calls s → reached key s0 (calls ++ [c]) s' → small ws → small pid →
  applied_at (sb_view s') ws pid = applied_at (sb_view s) ws pid ∨
  applies_next (sb_view s) c (sb_view s') ws pid.
Proof using Hlaws Hst.
  intros Hr Hr' Hs Hp. destruct (reached_next _ _ _ _ _ _ Hr Hr') as [-> _].
  pose proof (reached_fresh _ _ _ _ _ Hr') as Hfr.
  destruct (lstep_view key s c) as [-> |(ops & Hb & Ev)]; [by left|]. rewrite Ev.
  destruct (call_committed key _ s c ops (reached_inv _ _ _ _ Hr) Hfr Hb) as [(w & cm & [_ [Hok Hops _ _] _ _ _])|[Hpc _]].
  { left. unfold applied_at, rec_at. by rewrite (commitment_applied _ cm). }
  by apply projection_applied.
Qed.

(** C12: projections apply the outbox in order and once: a call leaves how far a
    projection has come as it is, or gives it the outbox entry of the next number,
    writing the data of that entry and the new checkpoint in one batch. *)
Theorem projections_apply_in_order s0 calls s c s' ws pid :
  reached key s0 calls s → reached key s0 (calls ++ [c]) s' → small ws → small pid →
  applied_at (sb_view s') ws pid = applied_at (sb_view s) ws pid ∨
  applies_next (sb_view s) c (sb_view s') ws pid.
Proof using Hlaws Hst. apply step_applied. Qed.
Lemma outbox_logged s0 calls s ws n e :
  reached key s0 calls s → small ws → is_u64 n → outbox_at (sb_view s) ws n = Some e →
  ∃ mu, logged (sb_view s) ws n mu ∧ e = outbox_of mu.
Proof using Hlaws Hst.
  intros Hr Hs Hn Ho. pose proof (reached_wf _ _ _ _ _ Hr Hs) as Hwf.
  destruct (decide (1 ≤ n ≤ seq_at (sb_view s) ws)) as [Hin|Hout].
  - destruct (wf_log _ _ Hwf n Hin) as (mu & Hl). exists mu. split; [done|].
    destruct Hl as [_ _ _ _ Lo _ _ _]. congruence.
  - destruct (wf_beyond _ _ Hwf n Hn) as [_ Hx]; [unfold in_range in Hn; lia|].
    unfold outbox_at, rec_at in Ho. by rewrite Hx in Ho.
Qed.

(** Every entry a projection has applied was given to it. *)
Lemma applied_given s0 calls s ws pid :
  reached key s0 calls s → small ws → small pid →
  0 ≤ applied_at (sb_view s) ws pid ≤ u64_max ∧
  ∀ k, 1 ≤ k ≤ applied_at (sb_view s) ws pid →
    ∃ c entry data, c ∈ calls ∧ gives c ws pid entry data ∧ outbox_at (sb_view s) ws k = Some entry.
Proof using Hlaws Hst.
  revert s. induction calls as [|c calls IH] using rev_ind; intros s Hr Hs Hp.
  { destruct Hr as [He _ <-]. assert (applied_at (sb_view s0) ws pid = 0) as E0.
    { unfold applied_at, rec_at. by rewrite no_ledger_key. }
    cbn [lrun snd]. rewrite E0. split; [by vm_compute|lia]. }
  destruct (reached_step _ _ _ _ _ Hr) as (s1 & Hr1 & _ & He). destruct (IH s1 Hr1 Hs Hp) as [Hrng Hgv].
  assert (∀ k e, is_u64 k → outbox_at (sb_view s1) ws k = Some e → outbox_at (sb_view s) ws k = Some e) as Hkeep.
  { intros k e Hk Ho. destruct (outbox_logged _ _ _ _ _ _ Hr1 Hs Hk Ho) as (mu & Hl & ->).
    by destruct (effect_logged _ _ _ _ ws k mu (reached_inv _ _ _ _ Hr1) He Hs Hk Hl) as [_ _ _ _ Lo _ _ _]. }
  assert (∀ k, 1 ≤ k ≤ applied_at (sb_view s1) ws pid →
    ∃ c' entry data, c' ∈ calls ++ [c] ∧ gives c' ws pid entry data ∧ outbox_at (sb_view s) ws k = Some entry) as Hold.
  { intros k Hk. destruct (Hgv k Hk) as (c' & e & d & Hc & Hg & Ho). exists c', e, d.
    rewrite elem_of_app. split_and!; auto. apply Hkeep; [unfold in_range; lia|done]. }
  destruct (step_applied _ _ _ _ _ ws pid Hr1 Hr Hs Hp) as [-> |(e & d & b & Hg & Ho & Hq & Hm & -> & _)]; [by split|].
  split; [lia|]. intros k Hk. destruct (decide (k = ox_sequence e)) as [->|Hne]; [|apply Hold; lia].
  exists c, e, d. rewrite elem_of_app. split_and!; [right; by left|done|]. apply Hkeep; [unfold in_range; lia|done].
Qed.

Lemma visible_through_ok s ws n v0 pids v :
  visible_through s ws n v0 pids = Ok v →
  v ≤ v0 ∧ ∀ pid, pid ∈ pids → small pid ∧ v ≤ applied_at (sb_view s) ws pid.
Proof using Hst.
  revert v0. induction pids as [|pid pids IH]; intros v0 E; cbn [visible_through] in E.
  { injection E as ->. split; [lia|]. by intros pid ?%elem_of_nil. }
  binds E. apply ok_or_ok in E1. subst. destruct (IH _ E) as [Hv Hall]. split; [lia|].
  pose proof (load_checkpoint_applied _ _ _ _ E0) as Ea. apply load_checkpoint_some in E0 as (_ & _ & _ & Hs).
  intros q [-> |Hq]%elem_of_cons; [|auto]. split; [done|]. rewrite <-Ea. cbn. lia.
Qed.

(** C13: a visibility receipt for a commit means that the commit is in the ledger,
    and that every projection of the set was given every outbox entry up to it. *)
Theorem visible_means_applied s0 calls s p ws n sid v r :
  reached key s0 calls s → visibility_receipt key s p ws n sid v = Ok r → 1 ≤ n →
  n ≤ seq_at (sb_view s) ws ∧
  ∃ manifest, load_projection_set s sid v = Ok (Some manifest) ∧
    ∀ pid k, pid ∈ pm_projection_ids manifest → 1 ≤ k ≤ n →
      ∃ c entry data, c ∈ calls ∧ gives c ws pid entry data ∧ outbox_at (sb_view s) ws k = Some entry.
Proof using Hlaws Hst.
  intros Hr E Hn. unfold visibility_receipt in E. binds E. apply local_id_small in E1.
  repeat match goal with
         | L : current_sequence_unlocked _ _ = Ok _ |- _ => apply current_sequence_at in L; subst
         | L : ok_or _ _ = Ok _ |- _ => apply ok_or_ok in L; subst
         | L : visible_through _ _ _ _ _ = Ok _ |- _ => apply visible_through_ok in L as [_ L]
         | L : (_ >? _) = false |- _ => rewrite Z.gtb_ltb, Z.ltb_ge in L
         | L : (_ <? _) = false |- _ => rewrite Z.ltb_ge in L
         end.
  split; [done|]. eexists. split; [eassumption|]. intros pid k Hp Hk.
  match goal with L : ∀ pid, pid ∈ _ → _ |- _ => destruct (L pid Hp) as [Hs Hv] end.
  apply (applied_given s0 calls s ws pid); [done..|lia].
Qed.
End views.

Module ViewExamples.
Import RunExamples.

Definition admin (tag : string) (o : lop) : lcall := mkCall (demo_proof "w" "memory.admin") (demo_uuid tag) o.

Definition demo_entry : ProjectionOutboxEntry :=
  default (mkOutbox 0 "" 0 "" "" []) (outbox_at (sb_view (demo_state [call_a])) "w" 1).

Definition demo_set : ProjectionSetManifest :=
  let m := mkSetManifest MEMORY_SCHEMA_VERSION "set" 1 ["idx"] ["tok"] None None None None "" in
  let sha := match projection_manifest_sha256 m with Ok x => x | Err _ => "" end in
  mkSetManifest MEMORY_SCHEMA_VERSION "set" 1 ["idx"] ["tok"] None None None None sha.

Definition call_apply : lcall := admin "c" (LApply "idx" demo_entry [PPut "door" "red"] 7).
Definition call_register : lcall := admin "d" (LRegister demo_set).

Lemma proofs_confine_calls_witness :
  sb_view (demo_state [call_a]) !! kenc (KMeta "v") = sb_view (demo_state []) !! kenc (KMeta "v").
Proof.
  assert (reached demo_key store0 [] (demo_state [])) as Hr by reach.
  assert (reached demo_key store0 ([] ++ [call_a]) (demo_state [call_a])) as Hr' by reach.
  apply (proofs_confine_calls demo_key store0 [] _ call_a _ (KMeta "v") "v" Hr Hr'); ev.
Defined.

Lemma projections_apply_in_order_witness :
  applies_next (sb_view (demo_state [call_a])) call_apply (sb_view (demo_state [call_a; call_apply])) "w" "idx".
Proof.
  assert (reached demo_key store0 [call_a] (demo_state [call_a])) as Hr by reach.
  assert (reached demo_key store0 ([call_a] ++ [call_apply]) (demo_state [call_a; call_apply])) as Hr' by reach.
  destruct (projections_apply_in_order demo_key store0 [call_a] _ call_apply _ "w" "idx" Hr Hr') as [E|Hn];
    [ev|ev| |exact Hn].
  assert (applied_at (sb_view (demo_state [call_a; call_apply])) "w" "idx" = 1) as E1 by ev.
  assert (applied_at (sb_view (demo_state [call_a])) "w" "idx" = 0) as E0 by ev.
  rewrite E1, E0 in E. discriminate E.
Defined.

Definition view_calls : list lcall := [call_a; call_register; call_apply].

Lemma visible_means_applied_witness :
  ∃ c entry data, c ∈ view_calls ∧ gives c "w" "idx" entry data ∧
    outbox_at (sb_view (demo_state view_calls)) "w" 1 = Some entry.
Proof.
  assert (reached demo_key store0 view_calls (demo_state view_calls)) as Hr by reach.
  assert (is_ok (visibility_receipt demo_key (demo_state view_calls) (demo_proof "w" "memory.admin") "w" 1 "set" 1) = true)
    as Hok by ev.
  destruct (visibility_receipt demo_key (demo_state view_calls) (demo_proof "w" "memory.admin") "w" 1 "set" 1)
    as [r|e] eqn:E; [|discriminate Hok].
  destruct (visible_means_applied demo_key store0 view_calls _ _ "w" 1 "set" 1 r Hr E ltac:(lia)) as (_ & M & HM & H).
  apply H; [|lia]. assert (pm_projection_ids M = ["idx"]) as ->; [|by left].
  assert (load_projection_set (demo_state view_calls) "set" 1 = Ok (Some demo_set)) as E1 by ev.
  rewrite E1 in HM. injection HM as <-. reflexivity.
Defined.
End ViewExamples.
