(* ===== verification/LedgerReads.v ===== *)
(** * Reading the memory ledger in time

    A read of a version's lifecycle as of a committed sequence finds the last
    transition up to it, and finds the same at any later time. *)

From Stdlib Require Import Ascii.
From S2P Require Import Prelude Float32 Text Sorting Storage Hex Keys Filter Knowledge MemoryContracts LedgerModel Ledger LedgerProps LedgerState LedgerSteps LedgerRuns.

(** ** The last element up to a bound *)

Lemma last_up_to {A} (f : A → Z) (n : Z) (l : list A) o :
  StronglySorted (λ x y, f x ≤ f y) l → last (take_while (λ x, f x <=? n) l) = o →
  match o with
  | Some x => x ∈ l ∧ f x ≤ n ∧ ∀ y, y ∈ l → f y ≤ n → f y ≤ f x
  | None => ∀ y, y ∈ l → n < f y
  end.
Proof.
  intros Hs <-. induction Hs as [|a l Hs IH Ha]; [by intros y ?%elem_of_nil|].
  rewrite Forall_forall in Ha. cbn [take_while]. destruct (f a <=? n) eqn:En.
  - apply Z.leb_le in En. rewrite last_cons. destruct (last _) as [x|].
    + destruct IH as (Hx & Hn & Hm). split_and!; [by right|done|].
      intros y [-> |Hy]%elem_of_cons Hyn; [by apply Ha|auto].
    + split_and!; [by left|done|]. intros y [-> |Hy]%elem_of_cons Hyn; [done|]. specialize (IH y Hy). lia.
  - apply Z.leb_gt in En. intros y [-> |Hy]%elem_of_cons; [done|]. specialize (Ha y Hy). lia.
Qed.

Section reads.
Context `{!UnicodeNormalization, !CharTables, !ContentCodec, !LedgerCodec, !Sha256, !Hmac, Hlaws : !LedgerCodecLaws}.
Context {S : Type} `{!StorageBackend S, Hst : !StorageLaws S} (key : list Z).
Implicit Types (s : S) (ws vid : string).

(** ** The keys of a history *)

Lemma history_key k ws vid :
  starts_with (kenc k) (lifecycle_history_prefix ws vid) = true → small ws → small vid →
  (ktag k = ktag (KHist ws vid 0) → kok k) → ∃ n, k = KHist ws vid n ∧ is_u64 n.
Proof using.
  intros [rest E]%starts_with_inv Hw Hv Hok. unfold lifecycle_history_prefix in E.
  rewrite scoped_components, kenc_parts, !app_assoc_str in E. apply app_same_length in E as [_ E]; [|done].
  apply component_app_inj in E as [E1 E2]; [|apply kname_small|done].
  change "lifecycle-history" with (kname (KHist ws vid 0)) in E1. apply kname_tag in E1.
  destruct (Hok E1) as (Hs & Hn & _). destruct k; try discriminate E1. cbn [kparts knum kraw] in *.
  apply Forall_cons in Hs as [Hs1 Hs]. apply Forall_cons in Hs as [Hs2 _].
  cbn [components foldr] in E2. rewrite !app_assoc_str in E2.
  apply component_app_inj in E2 as [-> E2]; [|done..]. apply component_app_inj in E2 as [-> _]; [|done..].
  by exists n.
Qed.

(** The keys that appear in the store are those the calls write. *)
Lemma apply_batch_new m ops k :
  is_Some (apply_batch m ops !! k) → is_Some (m !! k) ∨ ∃ o, o ∈ ops ∧ op_key o = k.
Proof using.
  intros Hx. destruct (decide (k ∈ op_key <$> ops)) as [Hin|Hin].
  - right. apply list_elem_of_fmap in Hin as (o & -> & Ho). eauto.
  - left. rewrite apply_batch_other in Hx; [done|]. intros o Ho <-. by apply Hin, list_elem_of_fmap_2.
Qed.

Lemma effect_keys m c m' k ws vid :
  call_effect m c m' → is_Some (m' !! k) → starts_with k (lifecycle_history_prefix ws vid) = true →
  small ws → small vid → is_Some (m !! k) ∨ ∃ n, k = kenc (KHist ws vid n) ∧ is_u64 n.
Proof using.
  intros He Hx Hp Hs Hv.
  assert (∀ k', kenc k' = k → (ktag k' = ktag (KHist ws vid 0) → kok k') → ∃ n, k = kenc (KHist ws vid n) ∧ is_u64 n) as Hk.
  { intros k' <- Hok. destruct (history_key k' ws vid Hp Hs Hv Hok) as (n & -> & Hn). by exists n. }
  destruct He as [-> |w cm ops [_ [Hok (L & HL & HP & _) _ _] _ _ _] -> |ops Hpo ->]; [by left| |];
    apply apply_batch_new in Hx as [Hx|(o & Ho & <-)]; try (by left); right.
  - apply lseq_spec in HL as (l & -> & Hl). apply list_elem_of_fmap in Ho as ([k' b] & -> & Hi).
    apply list_elem_of_lookup_1 in Hi as [i Hi].
    destruct (Forall2_lookup_r _ _ _ _ _ Hl Hi) as ([k1 o1] & Hi' & E1 & _). cbn in E1. subst k1.
    apply (Hk k' eq_refl). intros Et. apply (commitment_spec_ok cm (k', o1) Hok). rewrite <-HP.
    unfold tracked_part. rewrite list_elem_of_In, List.filter_In, <-list_elem_of_In.
    split; [by eapply list_elem_of_lookup_2|]. by destruct k'.
  - destruct (Hpo o Ho) as (k' & Hk' & Eo). apply (Hk k' (eq_sym Eo)). intros Et. by destruct k'.
Qed.

Lemma reached_history_keys s0 calls s k ws vid :
  reached key s0 calls s → small ws → small vid → is_Some (sb_view s !! k) →
  starts_with k (lifecycle_history_prefix ws vid) = true → ∃ n, k = kenc (KHist ws vid n) ∧ is_u64 n.
Proof using Hlaws Hst.
  revert s. induction calls as [|c calls IH] using rev_ind; intros s Hr Hs Hv Hx Hp.
  - destruct Hr as [He _ <-]. exfalso. apply starts_with_inv in Hp as [rest ->]. cbn [lrun snd] in Hx.
    rewrite He in Hx; [by destruct Hx|]. unfold lifecycle_history_prefix.
    rewrite scoped_components, !app_assoc_str. apply starts_with_app.
  - destruct (reached_step _ _ _ _ _ Hr) as (s1 & Hr1 & _ & He).
    destruct (effect_keys _ _ _ k ws vid He Hx Hp Hs Hv) as [Hx1|Hn]; [|done]. by apply (IH s1).
Qed.
Lemma history_prefix ws vid n :
  starts_with (kenc (KHist ws vid n)) (lifecycle_history_prefix ws vid) = true.
Proof using.
  rewrite kenc_parts. unfold lifecycle_history_prefix. rewrite scoped_components.
  cbn [kparts kraw components foldr]. rewrite !app_nil_str. apply starts_with_spec. exists (component (seq8 n)).
  rewrite !app_assoc_str. reflexivity.
Qed.

Lemma scanned_ok {A} `{!Serde A} label validate identity (row : KV) (a : A) :
  scanned_record label validate identity row = Ok a → of_json row.2 = Some a.
Proof using.
  unfold scanned_record, decode_record. intros E. binds E. injection E as ->.
  by destruct (of_json row.2); [injection E0 as ->|].
Qed.

(** The history of a version, as the scan finds it. *)
Lemma history_scanned s0 calls s ws vid ts :
  reached key s0 calls s → small ws → small vid → load_lifecycle_history_unlocked s ws vid = Ok ts →
  StronglySorted (λ x y, lc_transition_sequence x ≤ lc_transition_sequence y) ts ∧
  ∀ l, l ∈ ts ↔ ∃ n, is_u64 n ∧ history_at (sb_view s) ws vid n = Some l.
Proof using Hlaws Hst.
  intros Hr Hs Hv E. unfold load_lifecycle_history_unlocked in E. binds E. injection E as <-.
  apply lstored_ok, sb_scan_prefix_limited_ok in E0. subst x. apply collect_Forall2 in E1. cbn [take_limit] in E1.
  split.
  { apply (StronglySorted_mono (cmp_le (λ a b, lc_transition_sequence a ?= lc_transition_sequence b))).
    - intros a b Hab. exact Hab.
    - apply sort_by_sorted, (TotalCmp_on lc_transition_sequence Z.compare), _. }
  intros l. rewrite elem_of_sort_by. split.
  - intros Hl. apply list_elem_of_lookup_1 in Hl as [i Hi].
    destruct (Forall2_lookup_r _ _ _ _ _ E1 Hi) as ([k b] & Hk & Hok). apply scanned_ok in Hok. cbn in Hok.
    apply list_elem_of_lookup_2, elem_of_entries_with_prefix in Hk as [Hk Hp].
    destruct (reached_history_keys s0 calls s k ws vid Hr Hs Hv) as (n & -> & Hn); [by rewrite Hk|done|].
    exists n. split; [done|]. unfold history_at, rec_at. by rewrite Hk.
  - intros (n & Hn & Hl). unfold history_at, rec_at in Hl.
    destruct (sb_view s !! kenc (KHist ws vid n)) as [b|] eqn:Hb; [|discriminate]. cbn in Hl.
    assert ((kenc (KHist ws vid n), b) ∈ entries_with_prefix (sb_view s) (lifecycle_history_prefix ws vid)) as Hin.
    { apply elem_of_entries_with_prefix. split; [done|apply history_prefix]. }
    apply list_elem_of_lookup_1 in Hin as [i Hi].
    destruct (Forall2_lookup_l _ _ _ _ _ E1 Hi) as (l' & Hl' & Hok). apply scanned_ok in Hok. cbn in Hok.
    rewrite Hl in Hok. injection Hok as <-. by eapply list_elem_of_lookup_2.
Qed.

(** The last transition of a version up to a sequence. *)
Definition as_of (m : gmap string string) ws vid (n : Z) (o : option VersionLifecycle) : Prop :=
  match o with
  | Some l =>
      is_u64 (lc_transition_sequence l) ∧ history_at m ws vid (lc_transition_sequence l) = Some l ∧ lc_transition_sequence l ≤ n ∧
      ∀ k, is_u64 k → lc_transition_sequence l < k ≤ n → m !! kenc (KHist ws vid k) = None
  | None => ∀ k, is_u64 k → k ≤ n → m !! kenc (KHist ws vid k) = None
  end.

Lemma lifecycle_as_of s0 calls s ws vid n o :
  reached key s0 calls s → small ws → small vid →
  lifecycle_at_sequence_unlocked s ws vid n = Ok o → as_of (sb_view s) ws vid n o.
Proof using Hlaws Hst.
  intros Hr Hs Hv E. unfold lifecycle_at_sequence_unlocked in E. binds E. injection E as E.
  destruct (history_scanned _ _ _ _ _ _ Hr Hs Hv E0) as [Hsort Hin].
  pose proof (last_up_to _ _ _ _ Hsort E) as Hl. pose proof (reached_wf _ _ _ _ _ Hr Hs) as Hwf.
  assert (∀ k, is_u64 k → is_Some (sb_view s !! kenc (KHist ws vid k)) →
    ∃ l, l ∈ x ∧ lc_transition_sequence l = k) as Hrec.
  { intros k Hk Hx. destruct (wf_history _ _ Hwf vid k Hv Hk Hx) as (l & Hh & _ & _ & _ & Hq & _).
    exists l. split; [|done]. apply Hin. by exists k. }
  destruct o as [l|]; cbn [as_of].
  - destruct Hl as (Hlx & Hn & Hmax). apply Hin in Hlx as (k & Hk & Hh).
    assert (lc_transition_sequence l = k) as Ek.
    { destruct (wf_history _ _ Hwf vid k Hv Hk) as (l' & Hh' & _ & _ & _ & Hq & _); [|congruence].
      unfold history_at, rec_at in Hh. destruct (_ !! _); [by eexists|discriminate]. }
    rewrite Ek in *. split_and!; [done..|]. intros k' Hk' Hlt. apply eq_None_not_Some. intros Hx.
    destruct (Hrec k' Hk' Hx) as (l' & Hl' & Hq). specialize (Hmax l' Hl'). lia.
  - intros k Hk Hle. apply eq_None_not_Some. intros Hx. destruct (Hrec k Hk Hx) as (l & Hlx & Hq).
    specialize (Hl l Hlx). lia.
Qed.

(** There is one such transition. *)
Lemma as_of_unique m ws vid n o o' : as_of m ws vid n o → as_of m ws vid n o' → o = o'.
Proof using.
  assert (∀ l, history_at m ws vid (lc_transition_sequence l) = Some l →
    m !! kenc (KHist ws vid (lc_transition_sequence l)) ≠ None) as Hne.
  { intros l Hl Hx. unfold history_at, rec_at in Hl. by rewrite Hx in Hl. }
  destruct o as [l|], o' as [l'|]; cbn [as_of]; [|naive_solver..].
  intros (Hu & Hh & Hn & Hmax) (Hu' & Hh' & Hn' & Hmax').
  destruct (Z.lt_trichotomy (lc_transition_sequence l) (lc_transition_sequence l')) as [Hlt|[Heq|Hlt]].
  - exfalso. by apply (Hne l' Hh'), Hmax.
  - congruence.
  - exfalso. by apply (Hne l Hh), Hmax'.
Qed.

Lemma effect_seq m c m' ws : call_effect m c m' → small ws → seq_at m ws ≤ seq_at m' ws.
Proof using Hlaws.
  intros He Hs. destruct (effect_agrees m c m' ws He Hs) as [Ha|(cm & ops & _ & -> & Hok & Hops & Hco & <-)].
  - by rewrite (agrees_seq _ _ _ Ha).
  - rewrite eff_seq by done. pose proof (ch_next _ _ Hco). lia.
Qed.

Lemma effect_history m c m' ws vid k :
  call_effect m c m' → small ws → small vid → is_u64 k → k ≤ seq_at m ws →
  m' !! kenc (KHist ws vid k) = m !! kenc (KHist ws vid k).
Proof using.
  intros He Hs Hv Hk Hle.
  destruct (effect_agrees m c m' ws He Hs) as [Ha|(cm & ops & _ & -> & Hok & Hops & Hco & <-)].
  - apply Ha; [done..|kok_tac].
  - pose proof (ch_next _ _ Hco). apply eff_history_same; [done..|lia].
Qed.

(** What was the last transition up to a committed sequence stays it. *)
Lemma as_of_later s0 calls s more s' ws vid n o :
  reached key s0 calls s → reached key s0 (calls ++ more) s' → small ws → small vid →
  n ≤ seq_at (sb_view s) ws → as_of (sb_view s) ws vid n o →
  as_of (sb_view s') ws vid n o ∧ n ≤ seq_at (sb_view s') ws.
Proof using Hlaws Hst.
  intros Hr. revert s'. induction more as [|c more IH] using rev_ind; intros s' Hr' Hs Hv Hn Ho.
  { rewrite app_nil_r in Hr'. destruct Hr as [_ _ <-], Hr' as [_ _ <-]. done. }
  rewrite app_assoc in Hr'. destruct (reached_step _ _ _ _ _ Hr') as (s1 & Hr1 & _ & He).
  destruct (IH s1 Hr1 Hs Hv Hn Ho) as [Ho1 Hn1].
  assert (∀ k, is_u64 k → k ≤ n → sb_view s' !! kenc (KHist ws vid k) = sb_view s1 !! kenc (KHist ws vid k)) as Hsame.
  { intros k Hk Hle. eapply effect_history; [done..|lia]. }
  split; [|pose proof (effect_seq _ _ _ _ He Hs); lia].
  destruct o as [l|]; cbn [as_of] in *.
  - destruct Ho1 as (Hu & Hh & Hle & Hmax). unfold history_at, rec_at in *.
    rewrite (Hsame _ Hu Hle). split_and!; [done..|]. intros k Hk Hlt. rewrite Hsame by (done || lia). auto.
  - intros k Hk Hle. rewrite (Hsame k Hk Hle). auto.
Qed.

(** C15: reads in time are repeatable: what a read of the lifecycle of a version
    as of a committed sequence finds is the last transition up to that sequence,
    and any later read as of it finds the same. *)
Theorem reads_in_time_are_repeatable s0 calls s more s' ws vid n o o' :
  reached key s0 calls s → reached key s0 (calls ++ more) s' → small ws → small vid →
  n ≤ seq_at (sb_view s) ws →
  lifecycle_at_sequence_unlocked s ws vid n = Ok o → lifecycle_at_sequence_unlocked s' ws vid n = Ok o' →
  o' = o ∧ as_of (sb_view s) ws vid n o.
Proof using Hlaws Hst.
  intros Hr Hr' Hs Hv Hn E E'. pose proof (lifecycle_as_of _ _ _ _ _ _ _ Hr Hs Hv E) as Ho. split; [|done].
  apply (as_of_unique (sb_view s') ws vid n); [by eapply lifecycle_as_of|].
  by apply (as_of_later s0 calls s more s' ws vid n o).
Qed.
End reads.

Module ReadExamples.
Import RunExamples.

Definition read_state (r : LResult (option VersionLifecycle)) : option VersionState :=
  match r with Ok o => lc_state <$> o | Err _ => None end.

Lemma reads_in_time_are_repeatable_witness :
  match lifecycle_at_sequence_unlocked (demo_state [call_a; call_b]) "w" (demo_vid "a") 1 with
  | Ok o' => lc_state <$> o' = Some Active
  | Err _ => False
  end.
Proof.
  assert (reached demo_key store0 [call_a] (demo_state [call_a])) as Hr by reach.
  assert (reached demo_key store0 ([call_a] ++ [call_b]) (demo_state [call_a; call_b])) as Hr' by reach.
  assert (read_state (lifecycle_at_sequence_unlocked (demo_state [call_a]) "w" (demo_vid "a") 1) = Some Active) as Ha by ev.
  assert (read_state (lifecycle_at_sequence_unlocked (demo_state [call_a; call_b]) "w" (demo_vid "a") 1) ≠ None) as Hb by (vm_compute; discriminate).
  destruct (lifecycle_at_sequence_unlocked (demo_state [call_a]) "w" (demo_vid "a") 1) as [o|] eqn:E; [|discriminate Ha].
  destruct (lifecycle_at_sequence_unlocked (demo_state [call_a; call_b]) "w" (demo_vid "a") 1) as [o'|] eqn:E'; [|by destruct Hb].
  destruct (reads_in_time_are_repeatable demo_key store0 [call_a] _ [call_b] _ "w" (demo_vid "a") 1 o o' Hr Hr') as [-> _];
    [ev|ev|vm_compute; discriminate|exact E|exact E'|exact Ha].
Defined.
End ReadExamples.
