(* ===== verification/Recall.v ===== *)
(** * Retained recall snapshots, and point reads of heads and mutations

    [crates/storage/src/memory.rs]: the snapshots of a recall that the ledger
    retains for exact replay, with their digests and their access rule, and the
    reads of one head and of one mutation. *)

From Stdlib Require Import Ascii.
From S2P Require Import Prelude Float32 Text Sorting Storage Hex Keys Filter Knowledge MemoryContracts LedgerModel Ledger.

Definition MAX_RECALL_SNAPSHOT_BYTES : Z := 4 * 1024 * 1024.

Record MemoryRecallSnapshot := mkSnapshot {
  rs_schema_version : Z;
  rs_snapshot_id : string;
  rs_workspace_id : string;
  rs_namespace : string;
  rs_request_purpose : string;
  rs_principal_id : string;
  rs_delegated_agent_id : option string;
  rs_access_scope_sha256 : string;
  rs_visible_sequence : Z;
  rs_projection_set_id : string;
  rs_projection_set_version : Z;
  rs_projection_manifest_sha256 : string;
  rs_artifact_ids : list string;
  rs_result_version_ids : list string;
  rs_canonical_request_sha256 : string;
  rs_request_payload : string;
  rs_explanation_payload : string;
  rs_explanation_sha256 : string;
  rs_valid_at_unix_nanos : Z;
  rs_system_sequence : Z;
  rs_deterministic : bool;
  rs_response_sha256 : string;
  rs_response_payload : string;
  rs_created_at_ms : Z;
}.

Record MemoryRecallSnapshotDraft := mkDraft {
  sd_snapshot_id : string;
  sd_visible_sequence : Z;
  sd_projection_set_id : string;
  sd_projection_set_version : Z;
  sd_projection_manifest_sha256 : string;
  sd_artifact_ids : list string;
  sd_result_version_ids : list string;
  sd_canonical_request_sha256 : string;
  sd_request_payload : string;
  sd_explanation_payload : string;
  sd_valid_at_unix_nanos : Z;
  sd_system_sequence : Z;
  sd_deterministic : bool;
  sd_response_payload : string;
  sd_created_at_ms : Z;
}.

(** serde_json on snapshots. *)
Class SnapshotCodec := { serde_snapshot :: Serde MemoryRecallSnapshot }.

Definition recall_snapshot_key (ws id : string) : string := scoped_key "recall-snapshot" ws [id].
Definition recall_snapshot_prefix (ws : string) : string := scoped_key "recall-snapshot" ws [].

Section validation.
Context `{!Sha256}.

Definition validate_recall_snapshot_draft (d : MemoryRecallSnapshotDraft) : LResult unit :=
  let? _ := validate_local_id "snapshot_id" (sd_snapshot_id d) in
  let? _ := lrequire (negb (sd_projection_set_version d =? 0))
              "snapshot projection-set version must be greater than zero" in
  let? _ := validate_local_id "projection_set_id" (sd_projection_set_id d) in
  let? _ := if String.eqb (sd_projection_manifest_sha256 d) "" then Ok tt
            else validate_sha256 "projection_manifest_sha256" (sd_projection_manifest_sha256 d) in
  let? _ := validate_ids "snapshot artifact_ids" (sd_artifact_ids d) MAX_MEMORY_ACTIVE_HEADS in
  let? _ := validate_ids "snapshot result_version_ids" (sd_result_version_ids d)
              MAX_MEMORY_DELETION_TARGETS in
  let? _ := lrequire (negb (sd_system_sequence d >? sd_visible_sequence d))
              "snapshot system_sequence must not exceed visible_sequence" in
  let? _ := validate_sha256 "canonical_request_sha256" (sd_canonical_request_sha256 d) in
  let? _ := lrequire (String.eqb (sd_request_payload d) ""
                      || String.eqb (sd_canonical_request_sha256 d) (sha256_hex (sd_request_payload d)))
              "snapshot canonical request digest differs from its payload" in
  let? _ := lrequire (negb (String.eqb (sd_response_payload d) ""
                            || (byte_len (sd_response_payload d) >? MAX_RECALL_SNAPSHOT_BYTES)))
              "snapshot response payload length out of range" in
  let? total_payload_bytes :=
    ok_or (checked_add usize_max (byte_len (sd_request_payload d)) (byte_len (sd_response_payload d))
             ≫= λ value, checked_add usize_max value (byte_len (sd_explanation_payload d)))
      (LInvalidRequest "snapshot payload size overflow") in
  let? _ := lrequire (negb (total_payload_bytes >? MAX_RECALL_SNAPSHOT_BYTES))
              "combined snapshot payload exceeds the maximum" in
  lrequire (negb (sd_created_at_ms d =? 0)) "snapshot created_at_ms must be greater than zero".

Definition draft_of (x : MemoryRecallSnapshot) : MemoryRecallSnapshotDraft :=
  mkDraft (rs_snapshot_id x) (rs_visible_sequence x) (rs_projection_set_id x)
    (rs_projection_set_version x) (rs_projection_manifest_sha256 x) (rs_artifact_ids x)
    (rs_result_version_ids x) (rs_canonical_request_sha256 x) (rs_request_payload x)
    (rs_explanation_payload x) (rs_valid_at_unix_nanos x) (rs_system_sequence x) (rs_deterministic x)
    (rs_response_payload x) (rs_created_at_ms x).

Definition lintact (ok : bool) (msg : string) : LResult unit :=
  if ok then Ok tt else Err (LCorruptState msg).

(** The digest of the explanation, none when there is no explanation. *)
Definition explanation_intact (x : MemoryRecallSnapshot) : LResult unit :=
  if String.eqb (rs_explanation_payload x) "" then
    lintact (String.eqb (rs_explanation_sha256 x) "")
      "recall snapshot has an explanation digest without a payload"
  else
    lintact (String.eqb (rs_explanation_sha256 x) (sha256_hex (rs_explanation_payload x)))
      "recall snapshot explanation digest differs from its payload".

Definition validate_recall_snapshot (x : MemoryRecallSnapshot) : LResult unit :=
  let? _ := lintact (rs_schema_version x =? MEMORY_SCHEMA_VERSION)
              "unsupported recall snapshot schema version" in
  let? _ := validate_local_id "snapshot_id" (rs_snapshot_id x) in
  let? _ := validate_local_id "workspace_id" (rs_workspace_id x) in
  let? _ := validate_local_id "namespace" (rs_namespace x) in
  let? _ := validate_local_id "request_purpose" (rs_request_purpose x) in
  let? _ := validate_local_id "principal_id" (rs_principal_id x) in
  let? _ := validate_optional_local_id "delegated_agent_id" (rs_delegated_agent_id x) in
  let? _ := validate_sha256 "access_scope_sha256" (rs_access_scope_sha256 x) in
  let? _ := validate_local_id "projection_set_id" (rs_projection_set_id x) in
  let? _ := if String.eqb (rs_projection_manifest_sha256 x) "" then Ok tt
            else validate_sha256 "projection_manifest_sha256" (rs_projection_manifest_sha256 x) in
  let? _ := validate_sha256 "canonical_request_sha256" (rs_canonical_request_sha256 x) in
  let? _ := lintact (String.eqb (rs_request_payload x) ""
                     || String.eqb (rs_canonical_request_sha256 x) (sha256_hex (rs_request_payload x)))
              "recall snapshot request digest differs from its payload" in
  let? _ := explanation_intact x in
  let? _ := validate_sha256 "response_sha256" (rs_response_sha256 x) in
  let? _ := lintact (String.eqb (rs_response_sha256 x) (sha256_hex (rs_response_payload x)))
              "recall snapshot response digest differs from its payload" in
  validate_recall_snapshot_draft (draft_of x).
End validation.

Section recall.
Context `{!ContentCodec, !LedgerCodec, !SnapshotCodec, !Sha256, !Hmac}.
Context {S : Type} `{!StorageBackend S} (key : list Z).
Implicit Types (s : S) (p : MemoryAccessProof) (ws : string).

(** The snapshot a draft becomes under a proof. *)
Definition snapshot_of p (d : MemoryRecallSnapshotDraft) : MemoryRecallSnapshot :=
  let g := grant p in
  mkSnapshot MEMORY_SCHEMA_VERSION (sd_snapshot_id d) (g_workspace_id g) (g_namespace g)
    (g_request_purpose g) (g_principal_id g) (g_delegated_agent_id g) (access_scope_sha256 g)
    (sd_visible_sequence d) (sd_projection_set_id d) (sd_projection_set_version d)
    (sd_projection_manifest_sha256 d) (sd_artifact_ids d) (sd_result_version_ids d)
    (sd_canonical_request_sha256 d) (sd_request_payload d) (sd_explanation_payload d)
    (if String.eqb (sd_explanation_payload d) "" then "" else sha256_hex (sd_explanation_payload d))
    (sd_valid_at_unix_nanos d) (sd_system_sequence d) (sd_deterministic d)
    (sha256_hex (sd_response_payload d)) (sd_response_payload d) (sd_created_at_ms d).

Definition store_recall_snapshot_plan p (d : MemoryRecallSnapshotDraft) : lplan MemoryRecallSnapshot :=
  let? _ := authorize_workspace_capability key p (g_workspace_id (grant p)) ["memory.recall"] in
  let? _ := validate_recall_snapshot_draft d in
  let x := snapshot_of p d in
  let? _ := validate_recall_snapshot x in
  let? operation := put_record (recall_snapshot_key (rs_workspace_id x) (rs_snapshot_id x)) x in
  Ok (x, Some [operation]).

Definition store_recall_snapshot s p (d : MemoryRecallSnapshotDraft) : LResult MemoryRecallSnapshot * S :=
  lcommit s (store_recall_snapshot_plan p d).

(** A snapshot is read back under the proof it was stored with. *)
Definition snapshot_admitted p (x : MemoryRecallSnapshot) : bool :=
  let g := grant p in
  g_system_job g
  || (String.eqb (rs_namespace x) (g_namespace g)
      && String.eqb (rs_request_purpose x) (g_request_purpose g)
      && String.eqb (rs_principal_id x) (g_principal_id g)
      && bool_decide (rs_delegated_agent_id x = g_delegated_agent_id g)
      && String.eqb (rs_access_scope_sha256 x) (access_scope_sha256 g)).

Definition get_recall_snapshot s p ws (id : string) : LResult (option MemoryRecallSnapshot) :=
  let? _ := authorize_workspace_capability key p ws ["memory.recall"; "memory.replay"] in
  let? _ := validate_local_id "workspace_id" ws in
  let? _ := validate_local_id "snapshot_id" id in
  let? bytes := lstored (sb_get s (recall_snapshot_key ws id)) in
  match bytes with
  | None => Ok None
  | Some bytes =>
      let? x := decode_record bytes "recall snapshot" in
      let? _ := validate_recall_snapshot x in
      if negb (String.eqb (rs_workspace_id x) ws) || negb (String.eqb (rs_snapshot_id x) id) then
        Err (LCorruptState "snapshot key and payload identity differ")
      else if negb (snapshot_admitted p x) then Ok None
      else Ok (Some x)
  end.

(** ** Heads and mutations *)

(** Whether the proof reaches one of the active versions; the loop stops at the
    first it does. *)
Fixpoint head_visible s p ws (versions : list string) : LResult bool :=
  match versions with
  | [] => Ok false
  | vid :: versions =>
      let? v := load_version_unlocked s ws vid in
      let? v := ok_or v (LCorruptState "head references missing version") in
      let? admitted := authorize_record_scope p (mv_scope v) in
      if admitted then Ok true else head_visible s p ws versions
  end.

Definition get_head s p ws (aid : string) : LResult (option MemoryHead) :=
  let? _ := authorize_workspace_capability key p ws
              ["memory.read"; "memory.recall"; "memory.history"; "memory.forget"; "memory.retract"] in
  let? _ := validate_local_id "workspace_id" ws in
  let? _ := validate_local_id "assertion_id" aid in
  let? h := load_head_unlocked s ws aid in
  match h with
  | None => Ok None
  | Some h =>
      if g_system_job (grant p) then Ok (Some h)
      else
        let? visible := head_visible s p ws (hd_active_version_ids h) in
        if visible then Ok (Some h) else Ok None
  end.

Definition first_of (l k : list string) : option string :=
  match head l with Some x => Some x | None => head k end.

Definition get_mutation s p ws (sequence : Z) : LResult (option MemoryMutation) :=
  let? _ := authorize_workspace_capability key p ws ["memory.history"] in
  let? _ := validate_local_id "workspace_id" ws in
  if sequence =? 0 then Err (LInvalidRequest "sequence must be greater than zero")
  else
    let? mutation := load_mutation_unlocked s ws sequence in
    match mutation with
    | None => Ok None
    | Some m =>
        if g_system_job (grant p) then Ok (Some m)
        else if bool_decide (mm_operation m = MObserve) then
          let? o := load_observation_unlocked s ws (mm_assertion_id m) in
          let? o := ok_or o (LCorruptState "observation mutation has no observation") in
          let? admitted := authorize_record_scope p (ob_scope o) in
          Ok (if admitted then Some m else None)
        else
          match first_of (mm_output_version_ids m) (mm_input_version_ids m) with
          | None => Ok None
          | Some vid =>
              let? v := load_version_unlocked s ws vid in
              let? v := ok_or v (LCorruptState "mutation references missing version") in
              let? admitted := authorize_record_scope p (mv_scope v) in
              Ok (if admitted then Some m else None)
          end
    end.
End recall.
