(* ===== verification/Deletion.v ===== *)
(** * Planned deletion

    [crates/storage/src/memory.rs]: deletion by source or by data subject. A plan
    discovers what the selector reaches, through derivations too, and is stored
    with its digest; an execution checks the plan again, erases what it lists,
    leaves a tombstone for each target and for the selector, and logs one
    mutation, all in one synced batch. *)

From Stdlib Require Import Ascii.
From S2P Require Import Prelude Float32 Text Sorting Storage Hex Keys Filter Knowledge MemoryContracts LedgerModel Ledger Recall.

Record PlanMemoryDeletionRequest := mkPlanRequest {
  pl_workspace_id : string;
  pl_namespace : string;
  pl_selector : MemoryDeletionSelector;
  pl_principal_id : string;
  pl_delegated_agent_id : option string;
  pl_request_purpose : string;
  pl_authorization_decision_id : string;
  pl_reason : string;
  pl_created_at_ms : Z;
  pl_expires_at_ms : Z;
}.

Record ExecuteMemoryDeletionRequest := mkExecuteRequest {
  xr_workspace_id : string;
  xr_namespace : string;
  xr_plan_id : string;
  xr_plan_sha256 : string;
  xr_principal_id : string;
  xr_delegated_agent_id : option string;
  xr_request_purpose : string;
  xr_authorization_decision_id : string;
  xr_policy_decision_id : string;
  xr_idempotency_key : string;
  xr_reason : string;
  xr_committed_at_ms : Z;
}.

Record ExecuteMemoryDeletionReceipt := mkDeletionReceipt {
  xc_outcome : CommitMemoryOutcome;
  xc_execution : MemoryDeletionExecution;
  xc_assertion_ids : list string;
  xc_version_ids : list string;
  xc_evidence_ids : list string;
  xc_observation_ids : list string;
  xc_reinforcement_ids : list string;
  xc_snapshot_ids : list string;
}.

(** The fields of a request that its fingerprint covers. *)
Record ExecuteDeletionFingerprint := mkDeletionFingerprint {
  xf_workspace_id : string;
  xf_namespace : string;
  xf_plan_id : string;
  xf_plan_sha256 : string;
  xf_principal_id : string;
  xf_delegated_agent_id : option string;
  xf_request_purpose : string;
  xf_reason : string;
}.

#[global] Instance target_kind_eq_dec : EqDecision MemoryDeletionTargetKind.
Proof. solve_decision. Defined.

(** serde_json on the records of deletion. *)
Class DeletionCodec := {
  serde_plan :: Serde MemoryDeletionPlan;
  serde_tombstone :: Serde MemoryDeletionTombstone;
  serde_execution :: Serde MemoryDeletionExecution;
  execute_fingerprint_to_vec : ExecuteDeletionFingerprint → option string;
}.

Definition evidence_prefix (ws : string) : string := scoped_key "evidence" ws [].
Definition observation_prefix (ws : string) : string := scoped_key "observation" ws [].
Definition reinforcement_workspace_prefix (ws : string) : string := scoped_key "reinforcement" ws [].
Definition deletion_plan_key (ws id : string) : string := scoped_key "deletion-plan" ws [id].
Definition deletion_execution_key (ws id : string) : string := scoped_key "deletion-execution" ws [id].
Definition deletion_tombstone_prefix (ws : string) : string := scoped_key "deletion-tombstone" ws [].

Definition validate_plan_deletion_request (r : PlanMemoryDeletionRequest) : LResult unit :=
  let? _ := validate_local_id "workspace_id" (pl_workspace_id r) in
  let? _ := validate_local_id "namespace" (pl_namespace r) in
  let? _ := lcontract (selector_validate (pl_selector r)) in
  let? _ := validate_local_id "principal_id" (pl_principal_id r) in
  let? _ := validate_optional_local_id "delegated_agent_id" (pl_delegated_agent_id r) in
  let? _ := validate_local_id "request_purpose" (pl_request_purpose r) in
  let? _ := validate_local_id "authorization_decision_id" (pl_authorization_decision_id r) in
  let? _ := validate_text "reason" (pl_reason r) MAX_REASON_BYTES in
  if (pl_created_at_ms r =? 0) || (pl_expires_at_ms r <=? pl_created_at_ms r) then
    Err (LInvalidRequest "deletion plan expiry must be after a nonzero creation time")
  else Ok tt.

Definition validate_execute_deletion_request (r : ExecuteMemoryDeletionRequest) : LResult unit :=
  let? _ := validate_local_id "workspace_id" (xr_workspace_id r) in
  let? _ := validate_local_id "namespace" (xr_namespace r) in
  let? _ := validate_local_id "plan_id" (xr_plan_id r) in
  let? _ := validate_sha256 "plan_sha256" (xr_plan_sha256 r) in
  let? _ := validate_local_id "principal_id" (xr_principal_id r) in
  let? _ := validate_optional_local_id "delegated_agent_id" (xr_delegated_agent_id r) in
  let? _ := validate_local_id "request_purpose" (xr_request_purpose r) in
  let? _ := validate_local_id "authorization_decision_id" (xr_authorization_decision_id r) in
  let? _ := validate_local_id "policy_decision_id" (xr_policy_decision_id r) in
  let? _ := validate_idempotency_key (xr_idempotency_key r) in
  let? _ := validate_text "reason" (xr_reason r) MAX_REASON_BYTES in
  validate_committed_at "deletion committed_at_ms" (xr_committed_at_ms r).

Definition deletion_selector_matches_scope_or_source (selector : MemoryDeletionSelector)
    (scope : MemoryScope) (source_plane source_id : string) : bool :=
  match selector with
  | SelSource selected_plane selected_id =>
      String.eqb selected_plane source_plane && String.eqb selected_id source_id
  | SelDataSubject data_subject_id => bool_decide (ms_data_subject_id scope = Some data_subject_id)
  end.

(** A loop that may stop with an error. *)
Fixpoint lfold {A B} (f : B → A → LResult B) (acc : B) (l : list A) : LResult B :=
  match l with [] => Ok acc | x :: l => let? acc := f acc x in lfold f acc l end.

(** [ids.iter().any(|id| set.contains(id))]. *)
Definition any_in (ids : list string) (set : gset string) : bool :=
  existsb (λ id, bool_decide (id ∈ set)) ids.

Definition ids_of (set : gset string) : list string := sorted_ids (elements set).

(** A version in reach of the proof, with its reinforcements. *)
Abbreviation reached_version := (MemoryVersion * list MemoryReinforcement)%type.

Section plans.
Context `{!ContentCodec, !LedgerCodec, !SnapshotCodec, !PlanCodec, !DeletionCodec, !Sha256, !Hmac}.
Context {S : Type} `{!StorageBackend S} (key : list Z).
Implicit Types (s : S) (p : MemoryAccessProof) (ws : string).

(** ** What a selector reaches *)

Definition matching_source_evidence s ws (selector : MemoryDeletionSelector) : LResult (gset string) :=
  match selector with
  | SelDataSubject _ => Ok ∅
  | SelSource source_plane source_id =>
      let? rows := lstored (sb_scan_prefix_limited s (evidence_prefix ws) None) in
      lfold (λ found (row : KV),
        let? e := decode_record row.2 "memory evidence" in
        let? _ := lcorrupt "invalid evidence" (evidence_validate e) in
        Ok (if String.eqb (ev_source_plane e) source_plane && String.eqb (ev_source_id e) source_id
            then {[ev_evidence_id e]} ∪ found else found)) ∅ rows
  end.

(** The observations the selector reaches, and their evidence. *)
Definition matching_observations s p (r : PlanMemoryDeletionRequest)
    : LResult (gset string * gset string) :=
  let? rows := lstored (sb_scan_prefix_limited s (observation_prefix (pl_workspace_id r)) None) in
  lfold (λ found (row : KV),
    let? o := decode_record row.2 "memory observation" in
    let? _ := lcorrupt "invalid observation" (observation_validate o) in
    if negb (String.eqb (ms_namespace (ob_scope o)) (pl_namespace r)) then Ok found
    else
      let? admitted := authorize_record_scope p (ob_scope o) in
      if negb admitted || negb (deletion_selector_matches_scope_or_source (pl_selector r) (ob_scope o)
                                  (ob_source_plane o) (ob_source_id o)) then Ok found
      else Ok ({[ob_observation_id o]} ∪ found.1, {[ob_evidence_id o]} ∪ found.2)) (∅, ∅) rows.

Definition directly_affected (selector : MemoryDeletionSelector) (matching : gset string)
    (v : MemoryVersion) (reinforcements : list MemoryReinforcement) : bool :=
  match selector with
  | SelSource _ _ =>
      any_in (mv_evidence_ids v) matching
      || existsb (λ rf, any_in (rf_evidence_ids rf) matching) reinforcements
  | SelDataSubject data_subject_id =>
      bool_decide (ms_data_subject_id (mv_scope v) = Some data_subject_id)
  end.

(** The evidence of a directly affected version that goes with it. *)
Definition direct_evidence (selector : MemoryDeletionSelector) (matching : gset string)
    (v : MemoryVersion) : gset string :=
  match selector with
  | SelDataSubject _ => list_to_set (mv_evidence_ids v)
  | SelSource _ _ => list_to_set (base.filter (λ id, id ∈ matching) (mv_evidence_ids v))
  end.

Record discovery := mkDiscovery {
  fd_versions : list reached_version;
  fd_affected : gset string;
  fd_evidence : gset string;
}.

Definition discover_version s p (r : PlanMemoryDeletionRequest) (matching : gset string)
    (d : discovery) (row : KV) : LResult discovery :=
  let ws := pl_workspace_id r in
  let? v := decode_record row.2 "memory version" in
  let? _ := lcorrupt "invalid version" (version_validate v) in
  if negb (String.eqb (ms_namespace (mv_scope v)) (pl_namespace r)) then Ok d
  else
    let? admitted := authorize_record_scope p (mv_scope v) in
    if negb admitted then Ok d
    else
      let? reinforcements := load_reinforcements_unlocked s ws (mv_version_id v) in
      let direct := directly_affected (pl_selector r) matching v reinforcements in
      Ok (mkDiscovery (fd_versions d ++ [(v, reinforcements)])
            (if direct then {[mv_version_id v]} ∪ fd_affected d else fd_affected d)
            (if direct then direct_evidence (pl_selector r) matching v ∪ fd_evidence d
             else fd_evidence d)).

Definition discover_versions s p (r : PlanMemoryDeletionRequest) (matching evidence : gset string)
    : LResult discovery :=
  let? rows := lstored (sb_scan_prefix_limited s (version_prefix (pl_workspace_id r)) None) in
  lfold (discover_version s p r matching) (mkDiscovery [] ∅ evidence) rows.

(** ** Closing under derivations *)

Definition derived_from (evidence affected : gset string) (d : DerivationRecord) : bool :=
  any_in (dv_input_version_ids d) affected || any_in (dv_input_evidence_ids d) evidence.

(** One pass over the versions: the set so far, and whether it grew. *)
Definition propagate s ws (evidence : gset string) (acc : gset string * bool) (x : reached_version)
    : LResult (gset string * bool) :=
  let v := x.1 in
  if decide (mv_version_id v ∈ acc.1) then Ok acc
  else
    match mv_derivation_id v with
    | None => Ok acc
    | Some _ =>
        let? d := load_derivation_unlocked s ws v in
        let? d := ok_or d (LCorruptState "version references missing derivation") in
        if derived_from evidence acc.1 d then Ok ({[mv_version_id v]} ∪ acc.1, true) else Ok acc
    end.

(** [loop { .. if !changed { break } }]. *)
Fixpoint close_affected (fuel : nat) s ws (evidence : gset string) (versions : list reached_version)
    (affected : gset string) : LResult (gset string) :=
  match fuel with
  | O => Ok affected
  | Datatypes.S fuel =>
      let? acc := lfold (propagate s ws evidence) (affected, false) versions in
      if acc.2 then close_affected fuel s ws evidence versions acc.1 else Ok acc.1
  end.

(** Every pass that changes the set adds one of the versions. *)
Definition closure_fuel (versions : list reached_version) : nat := Datatypes.S (length versions).

(** ** Fan-out *)

Definition is_affected (affected : gset string) (x : reached_version) : bool :=
  bool_decide (mv_version_id x.1 ∈ affected).

Definition affected_assertions (affected : gset string) (versions : list reached_version) : gset string :=
  list_to_set ((λ x : reached_version, mv_assertion_id x.1) <$> List.filter (is_affected affected) versions).

Definition affected_reinforcements (affected : gset string) (versions : list reached_version)
    : list MemoryReinforcement :=
  mjoin (snd <$> List.filter (is_affected affected) versions).

Definition affected_snapshots s (r : PlanMemoryDeletionRequest) (affected : gset string)
    : LResult (gset string) :=
  if decide (affected = ∅) then Ok ∅
  else
    let? rows := lstored (sb_scan_prefix_limited s (recall_snapshot_prefix (pl_workspace_id r)) None) in
    lfold (λ found (row : KV),
      let? x := decode_record row.2 "memory recall snapshot" in
      let? _ := validate_recall_snapshot x in
      Ok (if String.eqb (rs_namespace x) (pl_namespace r) && any_in (rs_result_version_ids x) affected
          then {[rs_snapshot_id x]} ∪ found else found)) ∅ rows.

(** [plan.plan_sha256 = memory_deletion_plan_sha256(&plan)?]. *)
Definition with_digest (x : MemoryDeletionPlan) (sha : string) : MemoryDeletionPlan :=
  mkPlan (dp_schema_version x) (dp_plan_id x) (dp_workspace_id x) (dp_namespace x) (dp_selector x)
    (dp_affected_assertion_ids x) (dp_affected_version_ids x) (dp_affected_evidence_ids x)
    (dp_affected_observation_ids x) (dp_affected_reinforcement_ids x) (dp_affected_snapshot_ids x)
    (dp_created_sequence x) (dp_created_at_ms x) (dp_expires_at_ms x) (dp_created_by_principal_id x)
    (dp_access_scope_sha256 x) (dp_reason x) sha.

(** [MemoryLedger::plan_deletion]. *)
Definition plan_deletion_plan (uuid : nat → string) s p (r : PlanMemoryDeletionRequest)
    : lplan MemoryDeletionPlan :=
  let ws := pl_workspace_id r in
  let? _ := authorize_lifecycle_request key p ws (pl_namespace r) (pl_principal_id r)
              (pl_delegated_agent_id r) (pl_request_purpose r) (pl_authorization_decision_id r)
              "memory.delete.plan" in
  let? _ := validate_plan_deletion_request r in
  let? current_sequence := current_sequence_unlocked s ws in
  let? matching := matching_source_evidence s ws (pl_selector r) in
  let? observed := matching_observations s p r in
  let? found := discover_versions s p r matching observed.2 in
  let versions := fd_versions found in
  let? affected := close_affected (closure_fuel versions) s ws (fd_evidence found) versions
                     (fd_affected found) in
  let reinforcements := affected_reinforcements affected versions in
  let evidence := list_to_set (mjoin (rf_evidence_ids <$> reinforcements)) ∪ fd_evidence found in
  let? snapshots := affected_snapshots s r affected in
  let draft := mkPlan MEMORY_SCHEMA_VERSION (new_id uuid 0 "mem_dp") ws (pl_namespace r) (pl_selector r)
    (ids_of (affected_assertions affected versions)) (ids_of affected) (ids_of evidence)
    (ids_of observed.1) (ids_of (list_to_set (rf_reinforcement_id <$> reinforcements)))
    (ids_of snapshots) current_sequence (pl_created_at_ms r) (pl_expires_at_ms r) (pl_principal_id r)
    (access_scope_sha256 (grant p)) (pl_reason r) "" in
  let? sha := lcontract (memory_deletion_plan_sha256 draft) in
  let plan := with_digest draft sha in
  let? _ := lcontract (plan_validate plan) in
  let? operation := put_record (deletion_plan_key ws (dp_plan_id plan)) plan in
  Ok (plan, Some [operation]).

Definition plan_deletion (uuid : nat → string) s p (r : PlanMemoryDeletionRequest)
    : LResult MemoryDeletionPlan * S := lcommit s (plan_deletion_plan uuid s p r).

Definition load_deletion_plan_unlocked s ws (id : string) : LResult (option MemoryDeletionPlan) :=
  load_record s (deletion_plan_key ws id) "memory deletion plan" plan_validate
    (λ x, String.eqb (dp_workspace_id x) ws && String.eqb (dp_plan_id x) id).

Definition load_deletion_execution_unlocked s ws (id : string) : LResult (option MemoryDeletionExecution) :=
  load_record s (deletion_execution_key ws id) "memory deletion execution" execution_validate
    (λ x, String.eqb (de_workspace_id x) ws && String.eqb (de_execution_id x) id).

Definition get_deletion_plan s p ws (id : string) : LResult (option MemoryDeletionPlan) :=
  let? _ := authorize_workspace_capability key p ws ["memory.delete.plan"; "memory.delete.execute"] in
  let? _ := validate_local_id "workspace_id" ws in
  let? _ := validate_local_id "plan_id" id in
  let? plan := load_deletion_plan_unlocked s ws id in
  match plan with
  | None => Ok None
  | Some plan =>
      let? _ := authorize_namespace p (dp_namespace plan) in
      if negb (g_system_job (grant p))
         && negb (String.eqb (dp_access_scope_sha256 plan) (access_scope_sha256 (grant p))) then Ok None
      else Ok (Some plan)
  end.

Definition has_deletion_tombstone s p ws (k : MemoryDeletionTargetKind) (id : string) : LResult bool :=
  let? _ := authorize_workspace_capability key p ws
              ["memory.admin"; "memory.delete.plan"; "memory.delete.execute"] in
  let? _ := validate_local_id "workspace_id" ws in
  let? _ := validate_local_id "deletion target_id" id in
  lstored (sb_exists s (deletion_tombstone_key ws k id)).
End plans.

(** ** Executing a plan *)

(** [DeletionTombstoneContext]. *)
Record DeletionTombstoneContext := mkTombstoneContext {
  tc_workspace_id : string;
  tc_namespace : string;
  tc_plan_id : string;
  tc_execution_id : string;
  tc_mutation_id : string;
  tc_policy_decision_id : string;
  tc_committed_sequence : Z;
  tc_committed_at_ms : Z;
}.

(** [DeletionTombstoneContext::create], drawing the [i]th identifier. *)
Definition create_tombstone (uuid : nat → string) (c : DeletionTombstoneContext) (i : nat)
    (k : MemoryDeletionTargetKind) (id sha : string) : LResult MemoryDeletionTombstone :=
  let t := mkTombstone MEMORY_SCHEMA_VERSION (new_id uuid i "mem_dt") (tc_workspace_id c)
    (tc_namespace c) k id sha (tc_plan_id c) (tc_execution_id c) (tc_mutation_id c)
    (tc_policy_decision_id c) (tc_committed_sequence c) (tc_committed_at_ms c) in
  let? _ := lcontract (tombstone_validate t) in Ok t.

(** What one target adds to the batch and to the tombstones. *)
Abbreviation erasure := (list BatchOperation * MemoryDeletionTombstone)%type.

(** A loop over targets; [i] identifiers were drawn before it. *)
Fixpoint each_target {X} (body : nat → X → LResult (option erasure)) (i : nat) (targets : list X)
    : LResult (list erasure) :=
  match targets with
  | [] => Ok []
  | x :: targets =>
      let? found := body i x in
      match found with
      | None => each_target body i targets
      | Some e => let? rest := each_target body (Datatypes.S i) targets in Ok (e :: rest)
      end
  end.

Section executions.
Context `{!ContentCodec, !LedgerCodec, !SnapshotCodec, !PlanCodec, !DeletionCodec, !Sha256, !Hmac}.
Context {S : Type} `{!StorageBackend S} (key : list Z).
Implicit Types (s : S) (p : MemoryAccessProof) (ws : string).

Definition canonical_execute_deletion_sha256 (r : ExecuteMemoryDeletionRequest) : LResult string :=
  let? bytes := ljson (execute_fingerprint_to_vec
    (mkDeletionFingerprint (xr_workspace_id r) (xr_namespace r) (xr_plan_id r) (xr_plan_sha256 r)
       (xr_principal_id r) (xr_delegated_agent_id r) (xr_request_purpose r) (xr_reason r))) in
  Ok (sha256_hex bytes).

(** *** The receipt of an earlier execution *)

Definition of_kind (k : MemoryDeletionTargetKind) (l : list MemoryDeletionTombstone) : list string :=
  sorted_ids (dt_target_id <$> List.filter (λ t, bool_decide (dt_target_kind t = k)) l).

Definition deletion_receipt_unlocked s (outcome : CommitMemoryOutcome) (e : MemoryDeletionExecution)
    : LResult ExecuteMemoryDeletionReceipt :=
  let expected : gset string := list_to_set (de_affected_tombstone_ids e) in
  let? rows := lstored (sb_scan_prefix_limited s (deletion_tombstone_prefix (de_workspace_id e)) None) in
  let? found := lfold (λ found (row : KV),
    let? t := decode_record row.2 "memory deletion tombstone" in
    let? _ := lcorrupt "invalid deletion tombstone" (tombstone_validate t) in
    Ok (if negb (String.eqb (dt_execution_id t) (de_execution_id e))
           || negb (bool_decide (dt_tombstone_id t ∈ expected)) then found
        else found ++ [t])) [] rows in
  if negb (size (list_to_set (dt_tombstone_id <$> found) : gset string) =? size expected)%nat then
    Err (LCorruptState "deletion execution is missing one or more proof tombstones")
  else
    Ok (mkDeletionReceipt outcome e (of_kind TAssertion found) (of_kind TVersion found)
          (of_kind TEvidence found) (of_kind TObservation found) (of_kind TReinforcement found)
          (of_kind TRecallSnapshot found)).

(** *** Targets *)

(** The versions of each assertion. *)
Definition assertion_versions s ws : LResult (gmap string (list string)) :=
  let? rows := lstored (sb_scan_prefix_limited s (version_prefix ws) None) in
  lfold (λ found (row : KV),
    let? v := decode_record row.2 "memory version" in
    Ok (<[mv_assertion_id v := default [] (found !! mv_assertion_id v) ++ [mv_version_id v]]> found)) ∅ rows.

Definition stored_target s (k : string) : LResult string :=
  let? bytes := lstored (sb_get s k) in ok_or bytes DeletionPlanStale.

Section targets.
Context (uuid : nat → string) (c : DeletionTombstoneContext).

Definition head_without (affected : gset string) (h : MemoryHead) : MemoryHead :=
  mkHead (hd_schema_version h) (hd_workspace_id h) (hd_assertion_id h)
    (base.filter (λ id, id ∉ affected) (hd_active_version_ids h)) (tc_mutation_id c)
    (tc_committed_sequence c).

Definition erase_assertion s (versions : gmap string (list string)) (affected : gset string)
    (i : nat) (aid : string) : LResult (option erasure) :=
  let ws := tc_workspace_id c in
  let? bytes := stored_target s (assertion_key ws aid) in
  let? a := decode_record bytes "memory assertion" in
  if negb (String.eqb (ma_namespace a) (tc_namespace c)) then Err UnauthorizedAccess
  else
    let? t := create_tombstone uuid c i TAssertion aid (sha256_hex bytes) in
    let all_deleted := match versions !! aid with
                       | Some ids => forallb (λ id, bool_decide (id ∈ affected)) ids
                       | None => false
                       end in
    if all_deleted then Ok (Some ([Delete (assertion_key ws aid); Delete (head_key ws aid)], t))
    else
      let? h := load_head_unlocked s ws aid in
      match h with
      | None => Ok (Some ([], t))
      | Some h =>
          let h := head_without affected h in
          let? _ := lcontract (head_validate h) in
          let? operation := put_record (head_key ws aid) h in
          Ok (Some ([operation], t))
      end.

Definition erase_version s p (i : nat) (vid : string) : LResult (option erasure) :=
  let ws := tc_workspace_id c in
  let n := tc_committed_sequence c in
  let? bytes := stored_target s (version_key ws vid) in
  let? v := decode_record bytes "memory version" in
  let? admitted := authorize_record_scope p (mv_scope v) in
  if negb admitted then Err UnauthorizedAccess
  else
    let? t := create_tombstone uuid c i TVersion vid (sha256_hex bytes) in
    let lifecycle := mkLifecycle MEMORY_SCHEMA_VERSION ws vid Tombstoned n (tc_mutation_id c) in
    let? _ := lcontract (lifecycle_validate lifecycle) in
    let? current := put_record (lifecycle_current_key ws vid) lifecycle in
    let? history := put_record (lifecycle_history_key ws vid n) lifecycle in
    Ok (Some ([current; history; Delete (version_key ws vid)]
              ++ match mv_derivation_id v with
                 | Some did => [Delete (derivation_key ws did)]
                 | None => []
                 end, t)).

Definition erase_evidence s (i : nat) (eid : string) : LResult (option erasure) :=
  let? bytes := stored_target s (evidence_key (tc_workspace_id c) eid) in
  let? t := create_tombstone uuid c i TEvidence eid (sha256_hex bytes) in
  Ok (Some ([Delete (evidence_key (tc_workspace_id c) eid)], t)).

Definition erase_observation s (i : nat) (oid : string) : LResult (option erasure) :=
  let ws := tc_workspace_id c in
  let? bytes := stored_target s (observation_key ws oid) in
  let? o := decode_record bytes "memory observation" in
  let? t := create_tombstone uuid c i TObservation oid (sha256_hex bytes) in
  Ok (Some ([Delete (observation_key ws oid);
             Delete (observation_by_evidence_key ws (ob_evidence_id o))], t)).

Definition erase_reinforcement (expected : gset string) (i : nat) (row : KV) : LResult (option erasure) :=
  let? rf := decode_record row.2 "memory reinforcement" in
  if negb (bool_decide (rf_reinforcement_id rf ∈ expected)) then Ok None
  else
    let? _ := lcontract (reinforcement_validate rf) in
    let? t := create_tombstone uuid c i TReinforcement (rf_reinforcement_id rf) (sha256_hex row.2) in
    Ok (Some ([Delete (reinforcement_key (tc_workspace_id c) (rf_version_id rf)
                         (rf_reinforcement_id rf))], t)).

Definition erase_reinforcements s (i : nat) (ids : list string) : LResult (list erasure) :=
  if decide (ids = []) then Ok []
  else
    let expected : gset string := list_to_set ids in
    let? rows := lstored (sb_scan_prefix_limited s
                            (reinforcement_workspace_prefix (tc_workspace_id c)) None) in
    let? found := each_target (erase_reinforcement expected) i rows in
    if negb (size (list_to_set (dt_target_id ∘ snd <$> found) : gset string) =? size expected)%nat then
      Err DeletionPlanStale
    else Ok found.

Definition erase_snapshot s (i : nat) (id : string) : LResult (option erasure) :=
  let? bytes := stored_target s (recall_snapshot_key (tc_workspace_id c) id) in
  let? t := create_tombstone uuid c i TRecallSnapshot id (sha256_hex bytes) in
  Ok (Some ([Delete (recall_snapshot_key (tc_workspace_id c) id)], t)).

Definition selector_tombstone (i : nat) (selector : MemoryDeletionSelector) : LResult MemoryDeletionTombstone :=
  let? selector_bytes := ljson (selector_to_vec selector) in
  let? token := deletion_selector_token selector in
  create_tombstone uuid c i TSelector token (sha256_hex selector_bytes).

(** The targets of a plan, in the order the tombstones are drawn. *)
Definition erase_targets s p (i : nat) (plan : MemoryDeletionPlan) : LResult (list erasure) :=
  let ws := tc_workspace_id c in
  let? versions := assertion_versions s ws in
  let affected : gset string := list_to_set (dp_affected_version_ids plan) in
  let? e1 := each_target (erase_assertion s versions affected) i (dp_affected_assertion_ids plan) in
  let i := (i + length e1)%nat in
  let? e2 := each_target (erase_version s p) i (dp_affected_version_ids plan) in
  let i := (i + length e2)%nat in
  let? e3 := each_target (erase_evidence s) i (dp_affected_evidence_ids plan) in
  let i := (i + length e3)%nat in
  let? e4 := each_target (erase_observation s) i (dp_affected_observation_ids plan) in
  let i := (i + length e4)%nat in
  let? e5 := erase_reinforcements s i (dp_affected_reinforcement_ids plan) in
  let i := (i + length e5)%nat in
  let? e6 := each_target (erase_snapshot s) i (dp_affected_snapshot_ids plan) in
  Ok (e1 ++ e2 ++ e3 ++ e4 ++ e5 ++ e6).
End targets.

(** *** The batch *)

Definition DELETION_REASONS : list string :=
  ["authorized_plan_before_execute"; "deletion_non_resurrection_tombstone"].

Definition execution_commit (uuid : nat → string) s p (r : ExecuteMemoryDeletionRequest)
    (plan : MemoryDeletionPlan) (key_sha request_sha : string) (n : Z)
    : lplan ExecuteMemoryDeletionReceipt :=
  let ws := xr_workspace_id r in
  let xid := new_id uuid 0 "mem_dx" in
  let mid := new_id uuid 1 "mem_m" in
  let mutation := mkMemoryMutation MEMORY_SCHEMA_VERSION mid MRetentionDelete ws (dp_plan_id plan)
    (dp_affected_version_ids plan) [xid] [] key_sha request_sha (xr_principal_id r)
    (xr_delegated_agent_id r) (xr_authorization_decision_id r) (xr_policy_decision_id r) (xr_reason r)
    n (xr_committed_at_ms r) in
  let? _ := lcontract (memory_mutation_validate mutation) in
  let outbox := mkOutbox MEMORY_SCHEMA_VERSION ws n mid (dp_plan_id plan) [xid] in
  let? _ := lcontract (outbox_validate outbox) in
  let policy_decision := mkPolicyDecision MEMORY_SCHEMA_VERSION (xr_policy_decision_id r) ws
    POLICY_MANIFEST PTombstoned SignedSystem GoverningPolicy DELETION_REASONS
    (xr_authorization_decision_id r) n in
  let? _ := lcontract (policy_decision_validate policy_decision) in
  let? log := lseq
    [put_record (meta_key ws) (mkMeta MEMORY_SCHEMA_VERSION ws n);
     put_record (mutation_sequence_key ws n) mutation; put_record (mutation_id_key ws mid) mutation;
     put_record (outbox_key ws n) outbox;
     put_record (policy_decision_key ws (xr_policy_decision_id r)) policy_decision] in
  let c := mkTombstoneContext ws (xr_namespace r) (dp_plan_id plan) xid mid (xr_policy_decision_id r) n
             (xr_committed_at_ms r) in
  let? selected := selector_tombstone uuid c 2 (dp_selector plan) in
  let? erased := erase_targets uuid c s p 3 plan in
  let tombstones := selected :: (snd <$> erased) in
  let execution := mkExecution MEMORY_SCHEMA_VERSION xid ws (xr_namespace r) (dp_plan_id plan)
    (dp_plan_sha256 plan) mid (xr_policy_decision_id r) (xr_principal_id r)
    (dt_tombstone_id <$> tombstones) n (xr_committed_at_ms r) in
  let? _ := lcontract (execution_validate execution) in
  let idempotency := mkIdempotency MEMORY_SCHEMA_VERSION (xr_principal_id r) ws MRetentionDelete key_sha
    request_sha (xr_policy_decision_id r) mid (dp_plan_id plan) [xid] n in
  let? _ := lcontract (idempotency_validate idempotency) in
  let? proofs := lseq
    ([put_record (deletion_execution_key ws xid) execution;
      put_record (idempotency_key ws (xr_principal_id r) MRetentionDelete key_sha) idempotency]
     ++ ((λ t, put_record (deletion_tombstone_key ws (dt_target_kind t) (dt_target_id t)) t)
           <$> tombstones)) in
  Ok (mkDeletionReceipt Committed execution (dp_affected_assertion_ids plan)
        (dp_affected_version_ids plan) (dp_affected_evidence_ids plan) (dp_affected_observation_ids plan)
        (dp_affected_reinforcement_ids plan) (dp_affected_snapshot_ids plan),
      Some (log ++ [Delete (deletion_plan_key ws (dp_plan_id plan))] ++ mjoin (fst <$> erased) ++ proofs)).

(** [MemoryLedger::execute_deletion]. *)
Definition execute_deletion_plan (uuid : nat → string) s p (r : ExecuteMemoryDeletionRequest)
    : lplan ExecuteMemoryDeletionReceipt :=
  let ws := xr_workspace_id r in
  let? _ := authorize_lifecycle_request key p ws (xr_namespace r) (xr_principal_id r)
              (xr_delegated_agent_id r) (xr_request_purpose r) (xr_authorization_decision_id r)
              "memory.delete.execute" in
  let? _ := validate_execute_deletion_request r in
  let key_sha := sha256_hex (xr_idempotency_key r) in
  let? request_sha := canonical_execute_deletion_sha256 r in
  let? previous := idempotent_record s ws (xr_principal_id r) MRetentionDelete key_sha request_sha
                     (λ i, Zlength (ir_version_ids i) =? 1) IdempotencyConflict in
  match previous with
  | Some i =>
      let? e := load_deletion_execution_unlocked s ws (default "" (head (ir_version_ids i))) in
      let? e := ok_or e (LCorruptState "deletion idempotency record points to missing execution") in
      let? receipt := deletion_receipt_unlocked s DuplicateCommit e in
      Ok (receipt, None)
  | None =>
      let? _ := ensure_new_policy_decision_unlocked s ws (xr_policy_decision_id r) in
      let? plan := load_deletion_plan_unlocked s ws (xr_plan_id r) in
      let? plan := ok_or plan DeletionPlanNotFound in
      if negb (String.eqb (dp_namespace plan) (xr_namespace r))
         || negb (String.eqb (dp_plan_sha256 plan) (xr_plan_sha256 r))
         || negb (String.eqb (dp_access_scope_sha256 plan) (access_scope_sha256 (grant p))) then
        Err UnauthorizedAccess
      else if dp_expires_at_ms plan <=? xr_committed_at_ms r then Err DeletionPlanExpired
      else
        let? current_sequence := current_sequence_unlocked s ws in
        if negb (current_sequence =? dp_created_sequence plan) then Err DeletionPlanStale
        else
          let? n := ok_or (checked_add u64_max current_sequence 1) (SequenceExhausted ws) in
          execution_commit uuid s p r plan key_sha request_sha n
  end.

Definition execute_deletion (uuid : nat → string) s p (r : ExecuteMemoryDeletionRequest)
    : LResult ExecuteMemoryDeletionReceipt * S := lcommit s (execute_deletion_plan uuid s p r).
End executions.
