(* ===== verification/DeletionExample.v ===== *)
(** * A deletion to run

    Encodings of the records of deletion as trees, and a workspace with an
    observation and a version of one source, a version derived from that version,
    and a retained recall of the derived one. *)

From Stdlib Require Import Ascii.
From S2P Require Import Prelude Float32 Text Sorting Storage Hex Keys Filter Knowledge MemoryContracts LedgerModel Ledger Recall Deletion LedgerProps LedgerExample.

Module DeletionExample.
Export LedgerExample.

Definition kinds : list MemoryDeletionTargetKind :=
  [TSelector; TAssertion; TVersion; TEvidence; TObservation; TReinforcement; TRecallSnapshot].
Definition kind_code (k : MemoryDeletionTargetKind) : Z :=
  match k with
  | TSelector => 0 | TAssertion => 1 | TVersion => 2 | TEvidence => 3 | TObservation => 4
  | TReinforcement => 5 | TRecallSnapshot => 6
  end.

Definition selector_tree (x : MemoryDeletionSelector) : tree :=
  match x with SelSource a b => GenNode 0 [S_ a; S_ b] | SelDataSubject a => GenNode 1 [S_ a] end.
Definition tree_selector (t : tree) : option MemoryDeletionSelector :=
  match t with
  | GenNode 0 [S_ a; S_ b] => Some (SelSource a b)
  | GenNode 1 [S_ a] => Some (SelDataSubject a)
  | _ => None
  end.

Definition plan_tree (x : MemoryDeletionPlan) : tree :=
  GenNode 0 [Z_ (dp_schema_version x); S_ (dp_plan_id x); S_ (dp_workspace_id x); S_ (dp_namespace x);
    selector_tree (dp_selector x); strs_tree (dp_affected_assertion_ids x);
    strs_tree (dp_affected_version_ids x); strs_tree (dp_affected_evidence_ids x);
    strs_tree (dp_affected_observation_ids x); strs_tree (dp_affected_reinforcement_ids x);
    strs_tree (dp_affected_snapshot_ids x); Z_ (dp_created_sequence x); Z_ (dp_created_at_ms x);
    Z_ (dp_expires_at_ms x); S_ (dp_created_by_principal_id x); S_ (dp_access_scope_sha256 x);
    S_ (dp_reason x); S_ (dp_plan_sha256 x)].
Definition tree_plan (t : tree) : option MemoryDeletionPlan :=
  match t with
  | GenNode 0 [Z_ a; S_ b; S_ c; S_ d; e; f; g; h; i; j; k; Z_ l; Z_ m; Z_ n; S_ o; S_ p; S_ q; S_ r] =>
      e ← tree_selector e; f ← tree_strs f; g ← tree_strs g; h ← tree_strs h; i ← tree_strs i;
      j ← tree_strs j; k ← tree_strs k; Some (mkPlan a b c d e f g h i j k l m n o p q r)
  | _ => None
  end.

Definition tombstone_tree (x : MemoryDeletionTombstone) : tree :=
  GenNode 0 [Z_ (dt_schema_version x); S_ (dt_tombstone_id x); S_ (dt_workspace_id x); S_ (dt_namespace x);
    Z_ (kind_code (dt_target_kind x)); S_ (dt_target_id x); S_ (dt_target_sha256 x); S_ (dt_plan_id x);
    S_ (dt_execution_id x); S_ (dt_mutation_id x); S_ (dt_policy_decision_id x);
    Z_ (dt_committed_sequence x); Z_ (dt_committed_at_ms x)].
Definition tree_tombstone (t : tree) : option MemoryDeletionTombstone :=
  match t with
  | GenNode 0 [Z_ a; S_ b; S_ c; S_ d; Z_ e; S_ f; S_ g; S_ h; S_ i; S_ j; S_ k; Z_ l; Z_ m] =>
      Some (mkTombstone a b c d (nth_of kinds TSelector e) f g h i j k l m)
  | _ => None
  end.

Definition execution_tree (x : MemoryDeletionExecution) : tree :=
  GenNode 0 [Z_ (de_schema_version x); S_ (de_execution_id x); S_ (de_workspace_id x); S_ (de_namespace x);
    S_ (de_plan_id x); S_ (de_plan_sha256 x); S_ (de_mutation_id x); S_ (de_policy_decision_id x);
    S_ (de_principal_id x); strs_tree (de_affected_tombstone_ids x); Z_ (de_committed_sequence x);
    Z_ (de_committed_at_ms x)].
Definition tree_execution (t : tree) : option MemoryDeletionExecution :=
  match t with
  | GenNode 0 [Z_ a; S_ b; S_ c; S_ d; S_ e; S_ f; S_ g; S_ h; S_ i; j; Z_ k; Z_ l] =>
      j ← tree_strs j; Some (mkExecution a b c d e f g h i j k l)
  | _ => None
  end.

(** A snapshot without an agent. *)
Definition snapshot_tree (x : MemoryRecallSnapshot) : tree :=
  GenNode 0 [Z_ (rs_schema_version x); S_ (rs_snapshot_id x); S_ (rs_workspace_id x); S_ (rs_namespace x);
    S_ (rs_request_purpose x); S_ (rs_principal_id x); S_ (rs_access_scope_sha256 x);
    Z_ (rs_visible_sequence x); S_ (rs_projection_set_id x); Z_ (rs_projection_set_version x);
    S_ (rs_projection_manifest_sha256 x); strs_tree (rs_artifact_ids x);
    strs_tree (rs_result_version_ids x); S_ (rs_canonical_request_sha256 x); S_ (rs_request_payload x);
    S_ (rs_explanation_payload x); S_ (rs_explanation_sha256 x); Z_ (rs_valid_at_unix_nanos x);
    Z_ (rs_system_sequence x); Z_ (if rs_deterministic x then 1 else 0); S_ (rs_response_sha256 x);
    S_ (rs_response_payload x); Z_ (rs_created_at_ms x)].
Definition tree_snapshot (t : tree) : option MemoryRecallSnapshot :=
  match t with
  | GenNode 0 [Z_ a; S_ b; S_ c; S_ d; S_ e; S_ f; S_ g; Z_ h; S_ i; Z_ j; S_ k; l; m; S_ n; S_ o; S_ p; S_ q;
               Z_ r; Z_ s; Z_ t; S_ u; S_ v; Z_ w] =>
      l ← tree_strs l; m ← tree_strs m;
      Some (mkSnapshot a b c d e f None g h i j k l m n o p q r s (t =? 1) u v w)
  | _ => None
  end.

#[export] Instance snapshot_codec : SnapshotCodec := {
  serde_snapshot := tree_serde (Some ∘ snapshot_tree) tree_snapshot }.

#[export] Instance plan_codec : PlanCodec := {
  plan_to_vec x := line (dp_plan_id x :: dp_workspace_id x :: dp_affected_version_ids x) }.

#[export] Instance deletion_codec : DeletionCodec := {
  serde_plan := tree_serde (Some ∘ plan_tree) tree_plan;
  serde_tombstone := tree_serde (Some ∘ tombstone_tree) tree_tombstone;
  serde_execution := tree_serde (Some ∘ execution_tree) tree_execution;
  execute_fingerprint_to_vec f := line [xf_workspace_id f; xf_namespace f; xf_plan_id f; xf_plan_sha256 f; xf_reason f];
}.

Lemma plan_law : SerdeLaw MemoryDeletionPlan.
Proof.
  apply tree_law. intros x. unfold tree_plan, plan_tree. rewrite !tree_strs_tree.
  by destruct x as [? ? ? ? [] ? ? ? ? ? ? ? ? ? ? ? ? ?].
Qed.

Lemma tombstone_law : SerdeLaw MemoryDeletionTombstone.
Proof. apply tree_law. by intros [? ? ? ? [] ? ? ? ? ? ? ? ?]. Qed.

Lemma execution_law : SerdeLaw MemoryDeletionExecution.
Proof. apply tree_law. intros x. unfold tree_execution, execution_tree. rewrite tree_strs_tree. by destruct x. Qed.

(** ** The workspace *)

Definition note (predicate text ik policy plane sid : string) (d : option MemoryDerivationInput) : CommitMemoryRequest :=
  mkCommit (demo_scope "w") predicate (TextFact text None) None None None None HumanStatement AuthenticatedHuman
    Advisory None [mkEvidenceInput plane sid None None None sha_a None] None d "alice" None "work" "auth1"
    policy ik [] "said so" 5.

(** A version said in a message, and one derived from it with other evidence. *)
Definition said : CommitMemoryRequest := note "colour" "red" "k1" "p1" "chat" "msg1" None.
Definition derived : CommitMemoryRequest :=
  note "mood" "warm" "k2" "p2" "doc" "d1" (Some (mkDerivationInput [demo_vid "a"] [] "summary" None sha_a)).
Definition apart : CommitMemoryRequest := note "size" "big" "k3" "p3" "doc" "d1" None.

Definition heard : ObserveMemoryRequest :=
  mkObserve (demo_scope "w") "chat" "msg1" None None None sha_a "" "alice" None "work" "auth1" "p4" "k4" "heard" 6.

Definition recalled : MemoryRecallSnapshotDraft :=
  mkDraft "sn1" 4 "ps1" 1 "" [] [demo_vid "b"] sha_a "" "" 0 4 true "answer" 7.

Definition remember := demo_proof "w" "memory.remember".
Definition stock : RocksDbBackend MemDB :=
  let s := (commit demo_key (demo_uuid "a") store0 remember said).2 in
  let s := (commit demo_key (demo_uuid "b") s remember derived).2 in
  let s := (commit demo_key (demo_uuid "c") s remember apart).2 in
  let s := (observe demo_key (demo_uuid "d") s (demo_proof "w" "memory.observe") heard).2 in
  (store_recall_snapshot demo_key s (demo_proof "w" "memory.recall") recalled).2.

Definition ask : PlanMemoryDeletionRequest :=
  mkPlanRequest "w" "team" (SelSource "chat" "msg1") "alice" None "work" "auth1" "asked to" 8 100.

Definition planner := demo_proof "w" "memory.delete.plan".
Definition planned : LResult MemoryDeletionPlan * RocksDbBackend MemDB := plan_deletion demo_key (demo_uuid "e") stock planner ask.

Definition no_plan : MemoryDeletionPlan :=
  mkPlan 0 "" "" "" (SelDataSubject "") [] [] [] [] [] [] 0 0 0 "" "" "" "".
Definition answer {A} (d : A) (r : LResult A) : A := match r with Ok x => x | Err _ => d end.
Definition the_plan : MemoryDeletionPlan := answer no_plan planned.1.

Definition order (ik policy : string) : ExecuteMemoryDeletionRequest :=
  mkExecuteRequest "w" "team" (dp_plan_id the_plan) (dp_plan_sha256 the_plan) "alice" None "work" "auth1"
    policy ik "asked to" 50.

Definition executor := demo_proof "w" "memory.delete.execute".
Definition done_ : LResult ExecuteMemoryDeletionReceipt * RocksDbBackend MemDB :=
  execute_deletion demo_key (demo_uuid "f") planned.2 executor (order "k9" "p9").

Example planned_ids :
  dp_affected_version_ids the_plan = [demo_vid "a"; demo_vid "b"] ∧
  length (dp_affected_assertion_ids the_plan) = 2%nat ∧
  length (dp_affected_observation_ids the_plan) = 1%nat ∧ length (dp_affected_evidence_ids the_plan) = 2%nat ∧
  dp_affected_snapshot_ids the_plan = ["sn1"] ∧ dp_created_sequence the_plan = 4.
Proof. vm_compute. repeat split; reflexivity. Qed.

Lemma answered {A S} (d : A) (x : LResult A * S) : is_ok x.1 = true → x = (Ok (answer d x.1), x.2).
Proof. by destruct x as [[a|e] s]. Qed.

Lemma planned_ok : planned = (Ok the_plan, planned.2).
Proof. apply answered. vm_compute. reflexivity. Qed.

Definition no_execution : MemoryDeletionExecution := mkExecution 0 "" "" "" "" "" "" "" "" [] 0 0.
Definition the_receipt : ExecuteMemoryDeletionReceipt :=
  answer (mkDeletionReceipt DuplicateCommit no_execution [] [] [] [] [] []) done_.1.

Lemma done_ok : done_ = (Ok the_receipt, done_.2).
Proof. apply answered. vm_compute. reflexivity. Qed.

Lemma executed :
  (xc_outcome the_receipt, length (de_affected_tombstone_ids (xc_execution the_receipt))) = (Committed, 9%nat).
Proof. vm_compute. reflexivity. Qed.
End DeletionExample.
