(* ===== verification/DeletionPlans.v ===== *)
(** * What a deletion plan lists

    The versions of a plan are the least set that holds what the selector names
    directly and is closed under derivations; the other lists of the plan are
    the fan-out of that set. The loop that closes the set ends. *)

From Stdlib Require Import Ascii.
From S2P Require Import Prelude Float32 Text Sorting Storage Hex Keys Filter Knowledge MemoryContracts LedgerModel Ledger Recall Deletion LedgerProps LedgerState LedgerSteps LedgerExample DeletionExample LedgerRuns.

(** ** Loops *)

Lemma lfold_ind {A B} (f : B → A → LResult B) (P : list A → B → Prop) l a b :
  P [] a →
  (∀ seen x acc acc', P seen acc → f acc x = Ok acc' → P (seen ++ [x]) acc') →
  lfold f a l = Ok b → P l b.
Proof.
  intros H0 Hs. assert (∀ l seen a, P seen a → lfold f a l = Ok b → P (seen ++ l) b) as H.
  { clear -Hs. induction l as [|x l IH]; intros seen a Ha E.
    { injection E as <-. by rewrite app_nil_r. }
    cbn in E. apply bind_ok in E as (acc & Ex & E).
    change (x :: l) with ([x] ++ l). rewrite (assoc app). eapply IH, E. by eapply Hs. }
  by apply (H l []).
Qed.

(** A set gathered from rows: what the record of each row adds. *)
Lemma lfold_gather {A B} `{!Serde A} (f : B → KV → LResult B) (g : B → gset string)
    (P : A → string → Prop) rows a b :
  lfold f a rows = Ok b →
  (∀ acc row acc', f acc row = Ok acc' →
     ∃ x, of_json row.2 = Some x ∧ ∀ id, id ∈ g acc' ↔ id ∈ g acc ∨ P x id) →
  ∀ id, id ∈ g b ↔ id ∈ g a ∨ ∃ x, (∃ row, row ∈ rows ∧ of_json row.2 = Some x) ∧ P x id.
Proof.
  intros E Hf. revert E.
  apply (lfold_ind _ (λ rows b, ∀ id, id ∈ g b ↔ id ∈ g a ∨
    ∃ x, (∃ row, row ∈ rows ∧ of_json row.2 = Some x) ∧ P x id)).
  { intros id. split; [by left|]. by intros [?|(x & (row & ?%elem_of_nil & _) & _)]. }
  intros seen row acc acc' IH E id. destruct (Hf _ _ _ E) as (x & Hx & Hid). rewrite Hid, IH. split.
  - intros [[?|(y & (row' & Hr & Hy) & HP)]|HP]; [by left| |]; right; [exists y|exists x]; (split; [|done]).
    + exists row'. by rewrite elem_of_app; auto.
    + exists row. rewrite elem_of_app. split; [right; by left|done].
  - intros [?|(y & (row' & [Hr|Hr]%elem_of_app & Hy) & HP)]; [by left; left|left; right; eauto 6|].
    apply list_elem_of_singleton in Hr as ->. right. congruence.
Qed.

Lemma any_in_spec ids (X : gset string) : any_in ids X = true ↔ ∃ id, id ∈ ids ∧ id ∈ X.
Proof.
  unfold any_in. rewrite existsb_exists. split; intros (id & Hi & HX); exists id.
  - split; [by apply list_elem_of_In|by apply bool_decide_eq_true in HX].
  - split; [by apply list_elem_of_In|by apply bool_decide_eq_true].
Qed.

Lemma ids_of_spec X id : id ∈ ids_of X ↔ id ∈ X.
Proof. unfold ids_of, sorted_ids. by rewrite elem_of_sort_by, elem_of_elements. Qed.

Lemma result_ok_inj {E A} (a b : A) : @Ok E A a = Ok b → a = b.
Proof. by intros [= ->]. Qed.

Lemma adds_if y (b : bool) (acc : gset string) id (P : Prop) :
  (b = true ∧ y = id ↔ P) → id ∈ (if b then {[y]} ∪ acc else acc) ↔ id ∈ acc ∨ P.
Proof.
  intros <-. destruct b.
  - rewrite elem_of_union, elem_of_singleton. split; [intros [-> |?]; auto|intros [?|[_ <-]]; auto].
  - split; [by left|]. by intros [?|[? _]].
Qed.

Section reach.
Context `{!ContentCodec, !LedgerCodec, !SnapshotCodec, !PlanCodec, !DeletionCodec, !Sha256, !Hmac}.
Context {S : Type} `{!StorageBackend S, Hst : !StorageLaws S} (key : list Z).
Context (s : S) (p : MemoryAccessProof) (r : PlanMemoryDeletionRequest).

Abbreviation ws := (pl_workspace_id r).

(** ** The specification *)

(** A record stored under a prefix. *)
Definition kept {A} `{!Serde A} (pre : string) (a : A) : Prop :=
  ∃ row, row ∈ entries_with_prefix (sb_view s) pre ∧ of_json row.2 = Some a.

(** A version of the namespace that the proof gives access to. *)
Definition in_reach (v : MemoryVersion) : Prop :=
  kept (version_prefix ws) v ∧ ms_namespace (mv_scope v) = pl_namespace r ∧
  authorize_record_scope p (mv_scope v) = Ok true.

Definition reinforces (v : MemoryVersion) (rf : MemoryReinforcement) : Prop :=
  kept (reinforcement_prefix ws (mv_version_id v)) rf.

(** Evidence of the selected source. *)
Definition from_source (eid : string) : Prop :=
  ∃ plane sid e, pl_selector r = SelSource plane sid ∧ kept (evidence_prefix ws) e ∧
    ev_source_plane e = plane ∧ ev_source_id e = sid ∧ ev_evidence_id e = eid.

Definition named_directly (v : MemoryVersion) : Prop :=
  match pl_selector r with
  | SelSource _ _ => ∃ eid, from_source eid ∧
      (eid ∈ mv_evidence_ids v ∨ ∃ rf, reinforces v rf ∧ eid ∈ rf_evidence_ids rf)
  | SelDataSubject d => ms_data_subject_id (mv_scope v) = Some d
  end.

Definition observed (o : MemoryObservation) : Prop :=
  kept (observation_prefix ws) o ∧ ms_namespace (ob_scope o) = pl_namespace r ∧
  authorize_record_scope p (ob_scope o) = Ok true ∧
  deletion_selector_matches_scope_or_source (pl_selector r) (ob_scope o) (ob_source_plane o)
    (ob_source_id o) = true.

(** Evidence that goes: of an observation, or of a version named directly. *)
Inductive tainted (eid : string) : Prop :=
| tainted_observed o : observed o → ob_evidence_id o = eid → tainted eid
| tainted_version v :
    in_reach v → named_directly v → eid ∈ mv_evidence_ids v →
    match pl_selector r with SelSource _ _ => from_source eid | SelDataSubject _ => True end →
    tainted eid.

Definition derivation_of (v : MemoryVersion) (d : DerivationRecord) : Prop :=
  ∃ did, mv_derivation_id v = Some did ∧ rec_at (sb_view s) (KDerivation ws did) = Some d.

(** The versions that go, by identifier. *)
Inductive affected : string → Prop :=
| affected_direct v : in_reach v → named_directly v → affected (mv_version_id v)
| affected_version v d id :
    in_reach v → derivation_of v d → id ∈ dv_input_version_ids d → affected id →
    affected (mv_version_id v)
| affected_evidence v d eid :
    in_reach v → derivation_of v d → eid ∈ dv_input_evidence_ids d → tainted eid →
    affected (mv_version_id v).

(** ** Discovery *)

Lemma scan_rows pre rows :
  lstored (sb_scan_prefix_limited s pre None) = Ok rows → rows = entries_with_prefix (sb_view s) pre.
Proof. by intros ->%lstored_ok%sb_scan_prefix_limited_ok. Qed.

Lemma decode_some {A} `{!Serde A} b label (a : A) : decode_record b label = Ok a → of_json b = Some a.
Proof. unfold decode_record. destruct (of_json b); [|done]. by intros [= ->]. Qed.

Lemma matching_evidence_spec X :
  matching_source_evidence s ws (pl_selector r) = Ok X → ∀ eid, eid ∈ X ↔ from_source eid.
Proof using Hst.
  unfold matching_source_evidence. destruct (pl_selector r) as [plane sid|d] eqn:Es.
  2:{ intros [= <-] eid. split; [by intros ?%elem_of_empty|]. intros (? & ? & ? & E & _). congruence. }
  intros E. apply bind_ok in E as (rows & ->%scan_rows & E). intros eid.
  rewrite (lfold_gather _ (λ X, X) (λ e id, ev_source_plane e = plane ∧ ev_source_id e = sid ∧
             ev_evidence_id e = id) _ _ _ E).
  - unfold from_source, kept. rewrite Es. split.
    + intros [?%elem_of_empty|(e & Hk & K1 & K2 & K3)]; [done|]. by exists plane, sid, e.
    + intros (plane' & sid' & e & [= <- <-] & Hk & K1 & K2 & K3). right. by exists e.
  - clear. intros acc row acc' E. binds E. apply decode_some in E0. apply result_ok_inj in E as <-.
    exists x. split; [done|]. intros id. apply adds_if.
    rewrite andb_true_iff, !String.eqb_eq. tauto.
Qed.

Lemma matching_observations_spec X :
  matching_observations s p r = Ok X →
  (∀ oid, oid ∈ X.1 ↔ ∃ o, observed o ∧ ob_observation_id o = oid) ∧
  (∀ eid, eid ∈ X.2 ↔ ∃ o, observed o ∧ ob_evidence_id o = eid).
Proof using Hst.
  unfold matching_observations. intros E. apply bind_ok in E as (rows & ->%scan_rows & E).
  enough (∀ (f : MemoryObservation → string) (g : gset string * gset string → gset string),
    (∀ X o, g ({[ob_observation_id o]} ∪ X.1, {[ob_evidence_id o]} ∪ X.2) = {[f o]} ∪ g X) →
    g (∅, ∅) = ∅ →
    ∀ id, id ∈ g X ↔ ∃ o, observed o ∧ f o = id) as K.
  { split; [by apply (K _ fst)|by apply (K _ snd)]. }
  intros f g Hg K0 id. unfold observed, kept.
  rewrite (lfold_gather _ g (λ o id, (ms_namespace (ob_scope o) = pl_namespace r ∧
    authorize_record_scope p (ob_scope o) = Ok true ∧
    deletion_selector_matches_scope_or_source (pl_selector r) (ob_scope o) (ob_source_plane o)
      (ob_source_id o) = true) ∧ f o = id) _ _ _ E).
  { rewrite K0. split.
    - intros [?%elem_of_empty|(o & Hk & Ho & Hf)]; [done|]. by exists o.
    - intros (o & (Hk & Ho) & Hf). right. by exists o. }
  clear -Hg. intros acc row acc' E. binds E. apply decode_some in E0. rename x into o. exists o.
  split; [done|]. intros i.
  destruct (String.eqb (ms_namespace (ob_scope o)) (pl_namespace r)) eqn:En; cbn [negb] in E.
  2:{ apply result_ok_inj in E as <-. apply String.eqb_neq in En. naive_solver. }
  apply String.eqb_eq in En. binds E.
  destruct (negb x || negb (deletion_selector_matches_scope_or_source (pl_selector r) (ob_scope o)
    (ob_source_plane o) (ob_source_id o))) eqn:Ec; apply result_ok_inj in E as <-.
  - split; [by left|]. intros [?|((_ & Ha & Hm) & _)]; [done|]. exfalso.
    rewrite E2 in Ha. injection Ha as ->. by rewrite Hm in Ec.
  - apply orb_false_iff in Ec as [Ex%negb_false_iff Em%negb_false_iff]. subst x.
    rewrite Hg, elem_of_union, elem_of_singleton. split.
    + intros [-> |?]; [right|by left]. by repeat split.
    + intros [?|(_ & <-)]; [by right|by left].
Qed.

Lemma load_reinforcements_spec vid l :
  load_reinforcements_unlocked s ws vid = Ok l → ∀ rf, rf ∈ l ↔ kept (reinforcement_prefix ws vid) rf.
Proof using Hst.
  unfold load_reinforcements_unlocked, kept. intros E. binds E. apply scan_rows in E0 as ->.
  apply result_ok_inj in E as <-. intros rf. rewrite elem_of_sort_by. apply collect_Forall2 in E1.
  assert (∀ row rf, scanned_record "memory reinforcement" reinforcement_validate
            (λ rf, String.eqb (rf_workspace_id rf) ws && String.eqb (rf_version_id rf) vid) row = Ok rf →
          of_json row.2 = Some rf) as Hd.
  { unfold scanned_record. intros row rf' E. binds E. apply decode_some in E0. by apply result_ok_inj in E as <-. }
  split.
  - intros [i Hi]%list_elem_of_lookup. destruct (Forall2_lookup_r _ _ _ _ _ E1 Hi) as (row & Hr & Hrow).
    exists row. split; [by eapply list_elem_of_lookup_2|by eapply Hd].
  - intros (row & [i Hi]%list_elem_of_lookup & Hj).
    destruct (Forall2_lookup_l _ _ _ _ _ E1 Hi) as (rf' & Hr & Hrow%Hd).
    rewrite Hj in Hrow. injection Hrow as ->. by eapply list_elem_of_lookup_2.
Qed.

Section discover.
Context (matching : gset string) (Hm : ∀ eid, eid ∈ matching ↔ from_source eid).

Lemma directly_affected_spec v rfs :
  (∀ rf, rf ∈ rfs ↔ reinforces v rf) →
  directly_affected (pl_selector r) matching v rfs = true ↔ named_directly v.
Proof using Hm.
  intros Hr. unfold directly_affected, named_directly. destruct (pl_selector r) as [plane sid|d].
  2:{ apply bool_decide_eq_true. }
  rewrite orb_true_iff, any_in_spec, existsb_exists. setoid_rewrite any_in_spec.
  setoid_rewrite <-list_elem_of_In. setoid_rewrite Hm. setoid_rewrite Hr. naive_solver.
Qed.

Lemma direct_evidence_spec v eid :
  eid ∈ direct_evidence (pl_selector r) matching v ↔
  eid ∈ mv_evidence_ids v ∧
  match pl_selector r with SelSource _ _ => from_source eid | SelDataSubject _ => True end.
Proof using Hm.
  unfold direct_evidence. destruct (pl_selector r).
  - rewrite elem_of_list_to_set, list_elem_of_filter, Hm. tauto.
  - rewrite elem_of_list_to_set. tauto.
Qed.

Definition admitted (v : MemoryVersion) : Prop :=
  ms_namespace (mv_scope v) = pl_namespace r ∧ authorize_record_scope p (mv_scope v) = Ok true.

Lemma discover_version_spec d row d' :
  discover_version s p r matching d row = Ok d' →
  ∃ v, of_json row.2 = Some v ∧
    ((¬ admitted v ∧ d' = d) ∨
     (admitted v ∧ ∃ rfs direct, (∀ rf, rf ∈ rfs ↔ reinforces v rf) ∧ (direct = true ↔ named_directly v) ∧
        d' = mkDiscovery (fd_versions d ++ [(v, rfs)])
               (if direct then {[mv_version_id v]} ∪ fd_affected d else fd_affected d)
               (if direct then direct_evidence (pl_selector r) matching v ∪ fd_evidence d
                else fd_evidence d))).
Proof using Hst Hm.
  unfold discover_version, admitted. intros E. binds E. apply decode_some in E0. exists x. split; [done|].
  destruct (String.eqb (ms_namespace (mv_scope x)) (pl_namespace r)) eqn:En; cbn [negb] in E.
  2:{ left. apply String.eqb_neq in En. apply result_ok_inj in E as <-. naive_solver. }
  apply String.eqb_eq in En. binds E. destruct x0; cbn [negb] in E.
  2:{ left. apply result_ok_inj in E as <-. split; [|done]. intros [_ K]. congruence. }
  right. split; [done|]. binds E. apply result_ok_inj in E as <-.
  pose proof (load_reinforcements_spec _ _ E3) as Hr. eexists x0, _. split; [exact Hr|].
  split; [|reflexivity]. by apply directly_affected_spec.
Qed.

Lemma discover_spec evidence D :
  discover_versions s p r matching evidence = Ok D →
  (∀ x, x ∈ fd_versions D → in_reach x.1 ∧ ∀ rf, rf ∈ x.2 ↔ reinforces x.1 rf) ∧
  (∀ v, in_reach v → ∃ rfs, (v, rfs) ∈ fd_versions D) ∧
  (∀ id, id ∈ fd_affected D ↔ ∃ v, in_reach v ∧ named_directly v ∧ mv_version_id v = id) ∧
  (∀ eid, eid ∈ fd_evidence D ↔ eid ∈ evidence ∨ ∃ v, in_reach v ∧ named_directly v ∧
     eid ∈ mv_evidence_ids v ∧
     match pl_selector r with SelSource _ _ => from_source eid | SelDataSubject _ => True end).
Proof using Hst Hm.
  unfold discover_versions. intros E. apply bind_ok in E as (rows & ->%scan_rows & E).
  split; [|split; [|split]].
  - revert E. unfold in_reach, kept.
    apply (lfold_ind _ (λ rows D, ∀ x, x ∈ fd_versions D →
      ((∃ row, row ∈ rows ∧ of_json row.2 = Some x.1) ∧ admitted x.1) ∧ ∀ rf, rf ∈ x.2 ↔ reinforces x.1 rf)).
    { by intros x ?%elem_of_nil. }
    intros seen row acc acc' IH (v & Hv & [[_ ->]|(Ha & rfs & direct & Hr & _ & ->)])%discover_version_spec x Hx.
    2: apply elem_of_app in Hx as [Hx|Hx].
    1,2: destruct (IH _ Hx) as (((row' & Hin & ?) & ?) & ?); split; [split; [|done]|done];
         exists row'; rewrite elem_of_app; by auto.
    apply list_elem_of_singleton in Hx as ->. split; [split; [|done]|done].
    exists row. rewrite elem_of_app. split; [right; by left|done].
  - intros v ((row & Hrow & Hj) & Ha). revert row Hrow Hj. revert E.
    apply (lfold_ind _ (λ rows D, ∀ row, row ∈ rows → of_json row.2 = Some v → ∃ rfs, (v, rfs) ∈ fd_versions D)).
    { by intros row ?%elem_of_nil. }
    intros seen row acc acc' IH (v' & Hv & Hd)%discover_version_spec row' [Hin|Hin]%elem_of_app Hj.
    + destruct (IH _ Hin Hj) as [rfs Hrfs]. exists rfs.
      destruct Hd as [[_ ->]|(_ & rfs' & direct & _ & _ & ->)]; [done|]. cbn. rewrite elem_of_app. by left.
    + apply list_elem_of_singleton in Hin as ->. rewrite Hv in Hj. injection Hj as ->.
      destruct Hd as [[? _]|(_ & rfs & direct & _ & _ & ->)]; [done|]. exists rfs. cbn.
      rewrite elem_of_app. right. by left.
  - intros id. rewrite (lfold_gather _ fd_affected
      (λ v id, admitted v ∧ named_directly v ∧ mv_version_id v = id) _ _ _ E); unfold in_reach, kept.
    { cbn. rewrite elem_of_empty. unfold admitted. naive_solver. }
    clear E. intros acc row acc' (v & Hv & Hd)%discover_version_spec. exists v. split; [done|]. intros i.
    destruct Hd as [[? ->]|(Ha & rfs & direct & _ & Hdir & ->)]; [naive_solver|]. cbn.
    apply adds_if. rewrite Hdir. tauto.
  - intros eid. rewrite (lfold_gather _ fd_evidence
      (λ v id, admitted v ∧ named_directly v ∧ id ∈ mv_evidence_ids v ∧
         match pl_selector r with SelSource _ _ => from_source id | SelDataSubject _ => True end) _ _ _ E);
      unfold in_reach, kept.
    { cbn. unfold admitted. naive_solver. }
    clear E. intros acc row acc' (v & Hv & Hd)%discover_version_spec. exists v. split; [done|]. intros i.
    destruct Hd as [[? ->]|(Ha & rfs & direct & _ & Hdir & ->)]; [naive_solver|]. cbn.
    destruct direct.
    + rewrite elem_of_union, direct_evidence_spec. assert (named_directly v) by by apply Hdir. tauto.
    + split; [by left|]. intros [?|(_ & K & _)]; [done|]. apply Hdir in K. done.
Qed.
End discover.

(** ** Closing under derivations *)

Section closing.
Context (evidence : gset string).
Implicit Types (versions : list reached_version) (X : gset string).

Lemma load_derivation_spec v d : load_derivation_unlocked s ws v = Ok (Some d) → derivation_of v d.
Proof using Hst.
  unfold load_derivation_unlocked, derivation_of. destruct (mv_derivation_id v) as [did|]; [|done].
  intros E. binds E. apply ok_or_ok in E1 as ->. apply result_ok_inj in E as [= ->].
  destruct (load_record_some s (KDerivation ws did) _ _ _ _ E0) as [Hr _]. by exists did.
Qed.

(** A version that a pass leaves out. *)
Definition spared X (v : MemoryVersion) : Prop :=
  mv_version_id v ∈ X ∨ mv_derivation_id v = None ∨
  ∃ d, derivation_of v d ∧ derived_from evidence X d = false.

(** One step of a pass: nothing to add, or a derived version is added. *)
Lemma propagate_spec acc x acc' :
  propagate s ws evidence acc x = Ok acc' →
  (acc' = acc ∧ spared acc.1 x.1) ∨
  (mv_version_id x.1 ∉ acc.1 ∧ acc' = ({[mv_version_id x.1]} ∪ acc.1, true) ∧
   ∃ d, derivation_of x.1 d ∧ derived_from evidence acc.1 d = true).
Proof using Hst.
  unfold propagate, spared. destruct (decide _) as [Hin|Hin].
  { intros E%result_ok_inj. left. by auto. }
  destruct (mv_derivation_id x.1) as [did|] eqn:Ed.
  2:{ intros E%result_ok_inj. left. by auto. }
  intros E. binds E. apply ok_or_ok in E1 as ->. apply load_derivation_spec in E0. rename x1 into d.
  destruct (derived_from evidence acc.1 d) eqn:Ef; apply result_ok_inj in E as <-; [right|left].
  - by eauto.
  - split; [done|]. right. right. by exists d.
Qed.

Lemma pass_spec versions acc acc' :
  lfold (propagate s ws evidence) acc versions = Ok acc' →
  acc.1 ⊆ acc'.1 ∧ (acc.2 = true → acc'.2 = true) ∧
  (acc'.2 = false → acc'.1 = acc.1 ∧ ∀ x, x ∈ versions → spared acc.1 x.1) ∧
  (acc.2 = false → acc'.2 = true → ∃ x, x ∈ versions ∧ mv_version_id x.1 ∈ acc'.1 ∧ mv_version_id x.1 ∉ acc.1).
Proof using Hst.
  revert acc. induction versions as [|x versions IH]; intros acc E.
  { injection E as <-. split_and!; try done.
    - intros _. split; [done|]. by intros y ?%elem_of_nil.
    - by intros ->. }
  cbn in E. apply bind_ok in E as (acc1 & E1 & E). destruct (IH _ E) as (Hs & Hk & Hn & Hg). clear IH E.
  apply propagate_spec in E1 as [[-> Hsp]|(Hin & -> & _)]; cbn in Hs, Hk, Hn, Hg.
  - split_and!; [done..| |].
    + intros Hf. destruct (Hn Hf) as [He Hall]. split; [done|]. by intros y [-> |Hy]%elem_of_cons; auto.
    + intros Hf Ht. destruct (Hg Hf Ht) as (y & Hy & ?). exists y. split; [by right|done].
  - rewrite Hk by done. split_and!; try done; [set_solver +Hs|].
    intros _ _. exists x. split; [by left|]. split; [|done]. apply Hs. set_solver +.
Qed.

Lemma pass_sound versions (P : string → Prop) acc acc' :
  lfold (propagate s ws evidence) acc versions = Ok acc' →
  (∀ x d X, x ∈ versions → derivation_of x.1 d → (∀ id, id ∈ X → P id) → derived_from evidence X d = true →
     P (mv_version_id x.1)) →
  (∀ id, id ∈ acc.1 → P id) → ∀ id, id ∈ acc'.1 → P id.
Proof using Hst.
  intros E Hstep Ha. revert acc Ha E. induction versions as [|x versions IH]; intros acc Ha E.
  { by injection E as <-. }
  cbn in E. apply bind_ok in E as (acc1 & E1 & E). eapply IH; [| |exact E].
  { intros y d X Hy. apply Hstep. by right. }
  apply propagate_spec in E1 as [[-> _]|(_ & -> & d & Hd & Hf)]; [done|]. cbn.
  intros id [->%elem_of_singleton|?]%elem_of_union; [|by apply Ha].
  eapply Hstep; [by left|done..].
Qed.

(** How many versions are not in the set. *)
Definition missing X versions : nat := length (base.filter (λ x : reached_version, mv_version_id x.1 ∉ X) versions).

Lemma missing_subset X Y versions : X ⊆ Y → (missing Y versions ≤ missing X versions)%nat.
Proof using.
  intros Hs. unfold missing. induction versions as [|x versions IH]; [done|].
  rewrite !filter_cons. repeat case_decide; cbn; try lia. exfalso. set_solver.
Qed.

Lemma missing_less X Y versions x :
  X ⊆ Y → x ∈ versions → mv_version_id x.1 ∈ Y → mv_version_id x.1 ∉ X →
  (missing Y versions < missing X versions)%nat.
Proof using.
  intros Hs Hx HY HX. apply list_elem_of_split in Hx as (l & k & ->). unfold missing.
  rewrite !filter_app, !filter_cons, !length_app. rewrite decide_False by auto. rewrite decide_True by done.
  cbn. pose proof (missing_subset X Y l Hs). pose proof (missing_subset X Y k Hs). unfold missing in *. lia.
Qed.

Lemma missing_fuel X versions : (missing X versions < closure_fuel versions)%nat.
Proof using. unfold missing, closure_fuel. pose proof (length_filter (λ x : reached_version, mv_version_id x.1 ∉ X) versions). lia. Qed.

Lemma derivation_fun v d d' : derivation_of v d → derivation_of v d' → d = d'.
Proof using. intros (i & Hi & Hd) (j & Hj & Hd'). rewrite Hi in Hj. injection Hj as <-. congruence. Qed.

(** The fuel of the closing loop is enough: what it returns is closed. *)
Lemma close_closed fuel versions X Y :
  (missing X versions < fuel)%nat →
  close_affected fuel s ws evidence versions X = Ok Y →
  X ⊆ Y ∧ ∀ x, x ∈ versions → spared Y x.1.
Proof using Hst.
  revert X. induction fuel as [|fuel IH]; intros X Hf E; [lia|]. cbn in E.
  apply bind_ok in E as (acc & Ep & E). destruct (pass_spec _ _ _ Ep) as (Hs & _ & Hn & Hg). cbn in *.
  destruct acc as [Z b]. cbn in *. destruct b.
  - destruct (Hg eq_refl eq_refl) as (x & Hx & HZ & HX).
    destruct (IH Z) as [Hs' Hc]; [|done|]; [|split; [set_solver +Hs Hs'|done]].
    pose proof (missing_less X Z versions x Hs Hx HZ HX). lia.
  - apply result_ok_inj in E as <-. destruct (Hn eq_refl) as [-> Hc]. by split.
Qed.

Lemma close_sound fuel versions (P : string → Prop) X Y :
  close_affected fuel s ws evidence versions X = Ok Y →
  (∀ x d X, x ∈ versions → derivation_of x.1 d → (∀ id, id ∈ X → P id) → derived_from evidence X d = true →
     P (mv_version_id x.1)) →
  (∀ id, id ∈ X → P id) → ∀ id, id ∈ Y → P id.
Proof using Hst.
  intros E Hstep. revert X E. induction fuel as [|fuel IH]; intros X E HX.
  { by injection E as <-. }
  cbn in E. apply bind_ok in E as ([Z b] & Ep & E). cbn in E.
  pose proof (pass_sound _ P _ _ Ep Hstep HX) as HZ. cbn in HZ.
  destruct b; [by eapply IH|by apply result_ok_inj in E as <-].
Qed.
End closing.

(** ** The plan *)

Definition planned_reinforcement (rf : MemoryReinforcement) : Prop :=
  ∃ v, in_reach v ∧ affected (mv_version_id v) ∧ reinforces v rf.

(** What each list of a plan is to hold. *)
Record exact_plan (x : MemoryDeletionPlan) : Prop := {
  ep_versions id : id ∈ dp_affected_version_ids x ↔ affected id;
  ep_assertions id : id ∈ dp_affected_assertion_ids x ↔
    ∃ v, in_reach v ∧ affected (mv_version_id v) ∧ mv_assertion_id v = id;
  ep_evidence id : id ∈ dp_affected_evidence_ids x ↔
    tainted id ∨ ∃ rf, planned_reinforcement rf ∧ id ∈ rf_evidence_ids rf;
  ep_observations id : id ∈ dp_affected_observation_ids x ↔ ∃ o, observed o ∧ ob_observation_id o = id;
  ep_reinforcements id : id ∈ dp_affected_reinforcement_ids x ↔
    ∃ rf, planned_reinforcement rf ∧ rf_reinforcement_id rf = id;
  ep_snapshots id : id ∈ dp_affected_snapshot_ids x ↔
    ∃ sn v, kept (recall_snapshot_prefix ws) sn ∧ rs_namespace sn = pl_namespace r ∧
      v ∈ rs_result_version_ids sn ∧ affected v ∧ rs_snapshot_id sn = id;
}.

Section closed.
Context (D : discovery) (A : gset string).
Context (Dreach : ∀ x, x ∈ fd_versions D → in_reach x.1 ∧ ∀ rf, rf ∈ x.2 ↔ reinforces x.1 rf).
Context (Dall : ∀ v, in_reach v → ∃ rfs, (v, rfs) ∈ fd_versions D).
Context (Ddirect : ∀ id, id ∈ fd_affected D ↔ ∃ v, in_reach v ∧ named_directly v ∧ mv_version_id v = id).
Context (Devidence : ∀ eid, eid ∈ fd_evidence D ↔ tainted eid).
Context (DA : close_affected (closure_fuel (fd_versions D)) s ws (fd_evidence D) (fd_versions D)
                (fd_affected D) = Ok A).

Lemma closure_exact id : id ∈ A ↔ affected id.
Proof using All.
  split.
  - revert id. eapply close_sound; [exact DA| |].
    + intros x d X Hx Hd HX Hf. destruct (Dreach _ Hx) as [Hr _]. unfold derived_from in Hf.
      apply orb_true_iff in Hf as [(i & Hi & ?)%any_in_spec|(i & Hi & ?)%any_in_spec].
      * eapply affected_version; [done..|by apply HX].
      * eapply affected_evidence; [done..|by apply Devidence].
    + intros id (v & Hr & Hn & <-)%Ddirect. by apply affected_direct.
  - destruct (close_closed (fd_evidence D) _ _ _ _ (missing_fuel (fd_affected D) _) DA) as [Hs Hc].
    assert (∀ v d, in_reach v → derivation_of v d → derived_from (fd_evidence D) A d = true →
              mv_version_id v ∈ A) as Hin.
    { intros v d (rfs & Hv)%Dall Hd Hf. destruct (Hc _ Hv) as [?|[Hn|(d' & Hd' & Hf')]]; [done| |].
      - destruct Hd as (did & ? & _). cbn in Hn. congruence.
      - cbn in Hd'. rewrite (derivation_fun _ _ _ Hd' Hd) in Hf'. congruence. }
    induction 1 as [v Hr Hn|v d i Hr Hd Hi _ IH|v d e Hr Hd He Ht].
    + apply Hs, Ddirect. eauto.
    + apply (Hin v d); [done..|]. apply orb_true_iff. left. apply any_in_spec. eauto.
    + apply (Hin v d); [done..|]. apply orb_true_iff. right. apply any_in_spec. exists e.
      split; [done|by apply Devidence].
Qed.

Lemma planned_reinforcements rf : rf ∈ affected_reinforcements A (fd_versions D) ↔ planned_reinforcement rf.
Proof using All.
  unfold affected_reinforcements, planned_reinforcement. rewrite list_elem_of_join. split.
  - intros (l & Hrf & Hl). apply list_elem_of_fmap in Hl as (x & -> & Hx).
    apply list_elem_of_In, filter_In in Hx as [Hx%list_elem_of_In Ha%bool_decide_eq_true].
    destruct (Dreach _ Hx) as [Hr Hrf']. exists x.1. rewrite <-closure_exact, <-Hrf'. done.
  - intros (v & Hr & Ha & Hrf). destruct (Dall _ Hr) as [rfs Hv]. exists rfs.
    destruct (Dreach _ Hv) as [_ Hrf']. split; [by apply Hrf'|]. apply list_elem_of_fmap.
    exists (v, rfs). split; [done|]. apply list_elem_of_In, filter_In.
    split; [by apply list_elem_of_In|]. apply bool_decide_eq_true. by apply closure_exact.
Qed.

Lemma planned_assertions id :
  id ∈ affected_assertions A (fd_versions D) ↔ ∃ v, in_reach v ∧ affected (mv_version_id v) ∧ mv_assertion_id v = id.
Proof using All.
  unfold affected_assertions. rewrite elem_of_list_to_set, list_elem_of_fmap. split.
  - intros (x & -> & Hx). apply list_elem_of_In, filter_In in Hx as [Hx%list_elem_of_In Ha%bool_decide_eq_true].
    destruct (Dreach _ Hx) as [Hr _]. exists x.1. by rewrite <-closure_exact.
  - intros (v & Hr & Ha & <-). destruct (Dall _ Hr) as [rfs Hv]. exists (v, rfs). split; [done|].
    apply list_elem_of_In, filter_In. split; [by apply list_elem_of_In|].
    apply bool_decide_eq_true. by apply closure_exact.
Qed.

Lemma planned_snapshots X :
  affected_snapshots s r A = Ok X →
  ∀ id, id ∈ X ↔ ∃ sn v, kept (recall_snapshot_prefix ws) sn ∧ rs_namespace sn = pl_namespace r ∧
    v ∈ rs_result_version_ids sn ∧ affected v ∧ rs_snapshot_id sn = id.
Proof using All.
  unfold affected_snapshots. destruct (decide (A = ∅)) as [He|_].
  { intros <-%result_ok_inj id. split; [by intros ?%elem_of_empty|].
    intros (sn & v & _ & _ & _ & Hv%closure_exact & _). rewrite He in Hv. by apply elem_of_empty in Hv. }
  intros E. apply bind_ok in E as (rows & ->%scan_rows & E). intros id.
  rewrite (lfold_gather _ (λ X, X) (λ sn id, rs_namespace sn = pl_namespace r ∧
    (∃ v, v ∈ rs_result_version_ids sn ∧ v ∈ A) ∧ rs_snapshot_id sn = id) _ _ _ E).
  - unfold kept. setoid_rewrite closure_exact. split.
    + intros [?%elem_of_empty|(sn & Hk & K1 & (v & K2 & K3) & K4)]; [done|]. by exists sn, v.
    + intros (sn & v & Hk & K1 & K2 & K3 & K4). right. exists sn. repeat split; [done..|eauto|done].
  - clear. intros acc row acc' E. binds E. apply decode_some in E0. apply result_ok_inj in E as <-.
    exists x. split; [done|]. intros id. apply adds_if.
    rewrite andb_true_iff, String.eqb_eq, any_in_spec. tauto.
Qed.
End closed.

Lemma plan_steps uuid x b :
  plan_deletion_plan key uuid s p r = Ok (x, b) → exact_plan x ∧ plan_validate x = Ok tt.
Proof using Hst.
  unfold plan_deletion_plan. intros E. apply bind_ok in E as (? & _ & E). apply bind_ok in E as (? & _ & E).
  apply bind_ok in E as (n & _ & E). apply bind_ok in E as (M & EM & E). apply bind_ok in E as (O & EO & E).
  apply bind_ok in E as (D & ED & E). apply bind_ok in E as (A & EA & E). apply bind_ok in E as (N & EN & E).
  apply bind_ok in E as (sha & _ & E). apply bind_ok in E as ([] & V%lcontract_ok & E).
  apply bind_ok in E as (op & _ & E). apply result_ok_inj in E. injection E as <- <-. split; [|exact V].
  clear V. pose proof (matching_evidence_spec _ EM) as HM. apply matching_observations_spec in EO as [HO1 HO2].
  destruct (discover_spec _ HM _ _ ED) as (Dreach & Dall & Ddirect & Devid).
  assert (∀ eid, eid ∈ fd_evidence D ↔ tainted eid) as Devidence.
  { intros eid. rewrite Devid, HO2. split.
    - intros [(o & Ho & He)|(v & K1 & K2 & K3 & K4)]; [by eapply tainted_observed|by eapply tainted_version].
    - intros [o Ho He|v K1 K2 K3 K4]; [left; eauto|right; eauto]. }
  split; intros id; cbn; rewrite ids_of_spec.
  - by apply (closure_exact D A).
  - by apply (planned_assertions D A).
  - rewrite elem_of_union, elem_of_list_to_set, list_elem_of_join, Devidence.
    setoid_rewrite list_elem_of_fmap. split.
    + intros [(l & Hid & rf & -> & Hrf)|?]; [right|by left]. exists rf.
      split; [by apply (planned_reinforcements D A)|done].
    + intros [?|(rf & Hrf & Hid)]; [by right|left]. exists (rf_evidence_ids rf). split; [done|].
      exists rf. split; [done|by apply (planned_reinforcements D A)].
  - apply HO1.
  - rewrite elem_of_list_to_set, list_elem_of_fmap. split.
    + intros (rf & -> & Hrf). exists rf. split; [by apply (planned_reinforcements D A)|done].
    + intros (rf & Hrf & <-). exists rf. split; [done|by apply (planned_reinforcements D A)].
  - by apply (planned_snapshots D A).
Qed.
End reach.

(** ** Planning *)

Section planning.
Context `{!ContentCodec, !LedgerCodec, !SnapshotCodec, !PlanCodec, !DeletionCodec, !Sha256, !Hmac}.
Context {Hplan : SerdeLaw MemoryDeletionPlan}.
Context {S : Type} `{!StorageBackend S, Hst : !StorageLaws S} (key : list Z).

(** A deletion plan lists exactly what its selector reaches: the versions in
    the reach of the proof that are the least set holding those the source or the
    data subject names directly, also through a reinforcement, and closed under
    derivation from a listed version or from evidence that goes; their assertions
    and reinforcements, the matching observations, the evidence of all of these,
    and the retained snapshots that return a listed version. Planning writes the
    plan, readable under its key, and nothing else. *)
Lemma plan_lists_what_goes uuid (s : S) p r x s' :
  plan_deletion key uuid s p r = (Ok x, s') →
  exact_plan s p r x ∧ plan_validate x = Ok tt ∧
  sb_view s' !! deletion_plan_key (pl_workspace_id r) (dp_plan_id x) ≫= of_json = Some x ∧
  ∀ k, k ≠ deletion_plan_key (pl_workspace_id r) (dp_plan_id x) → sb_view s' !! k = sb_view s !! k.
Proof using All.
  unfold plan_deletion. intros E. destruct (plan_deletion_plan key uuid s p r) as [[x' b]|] eqn:Ep; [|discriminate E].
  assert (x' = x) as ->.
  { unfold lcommit in E. destruct b; [destruct (sb_write_batch_sync s l) as [[] ?]|]; congruence. }
  destruct (plan_steps key s p r uuid x b Ep) as [Hx Hv]. split; [exact Hx|]. split; [exact Hv|].
  assert (∃ j, json_of x = Some j ∧ b = Some [Put (deletion_plan_key (pl_workspace_id r) (dp_plan_id x)) j]) as (j & Hj & ->).
  { unfold plan_deletion_plan in Ep. binds Ep. injection Ep as <- <-.
    match goal with P : put_record _ _ = Ok ?o |- _ => apply put_record_ok in P as (j & Hj & ->) end. by exists j. }
  cbn in E. destruct (sb_write_batch_sync s _) as [w s1] eqn:Ew. apply sb_write_batch_sync_ok in Ew.
  destruct w; cbn in Ew; [|discriminate]. injection E as <-. rewrite Ew.
  change (apply_batch (sb_view s) [Put ?k ?v]) with (<[k := v]> (sb_view s)). split.
  - rewrite lookup_insert_eq. cbn. by apply serde_roundtrip.
  - intros k Hk. by apply lookup_insert_ne.
Qed.
End planning.

Module PlanExample.
Import DeletionExample.

(** On the example the plan is exact and valid. *)
Example example_plan_exact : exact_plan stock planner ask the_plan ∧ plan_validate the_plan = Ok tt.
Proof.
  destruct (plan_lists_what_goes (Hplan := plan_law) demo_key (demo_uuid "e") stock planner ask the_plan planned.2 planned_ok)
    as (Hx & Hv & _).
  split; [exact Hx|exact Hv].
Qed.
End PlanExample.
