(* ===== verification/DeletionProps.v ===== *)
(** * What the execution of a deletion plan does

    The batch of an execution erases every target of the plan and nothing else
    of those kinds, leaves a tombstone for each target and for the selector, and
    logs one mutation. *)

From Stdlib Require Import Ascii.
From S2P Require Import Prelude Float32 Text Sorting Storage Hex Keys Filter Knowledge MemoryContracts LedgerModel Ledger Recall Deletion LedgerProps LedgerState LedgerSteps LedgerExample LedgerRuns DeletionPlans.

(** ** Keys *)

Lemma scoped_kind kind ws l kind' ws' l' :
  small kind → small kind' → scoped_key kind ws l = scoped_key kind' ws' l' → kind = kind'.
Proof.
  intros Hk Hk'. rewrite !scoped_components. intros [_ E]%app_same_length; [|done].
  by apply component_app_inj in E as [-> _].
Qed.

Lemma scoped_inj kind ws l kind' ws' l' :
  small kind → small kind' → Forall small (ws :: l) → Forall small (ws' :: l') →
  scoped_key kind ws l = scoped_key kind' ws' l' → kind = kind' ∧ ws = ws' ∧ l = l'.
Proof.
  intros Hk Hk' Hl Hl'. rewrite !scoped_components. intros [_ E]%app_same_length; [|done].
  apply component_app_inj in E as [-> E]; [|done..]. apply components_inj in E; [|done..]. by injection E as -> ->.
Qed.

(** Keys of a kind with one component. *)
Lemma scoped_one kind ws x y :
  small kind → small ws → small x → small y → scoped_key kind ws [x] = scoped_key kind ws [y] → x = y.
Proof. intros Hk Hw Hx Hy E. by apply scoped_inj in E as (_ & _ & [= ->]); [..|repeat constructor|repeat constructor]. Qed.

Lemma scoped_prefix kind ws l : starts_with (scoped_key kind ws l) (scoped_key kind ws []) = true.
Proof.
  rewrite !scoped_components. apply starts_with_spec. exists (components l).
  cbn [components foldr]. by rewrite !app_nil_str, !app_assoc_str.
Qed.

(** Kinds that differ make keys that differ. *)
Ltac kinds E := exfalso; apply scoped_kind in E; [discriminate E|reflexivity|reflexivity].

Lemma target_kind_inj k k' : deletion_target_kind_name k = deletion_target_kind_name k' → k = k'.
Proof. destruct k, k'; vm_compute; intros; congruence. Qed.

Lemma target_kind_small k : small (deletion_target_kind_name k).
Proof. by destruct k. Qed.

Lemma tombstone_key_inj ws k id k' id' :
  small ws → small id → small id' →
  deletion_tombstone_key ws k id = deletion_tombstone_key ws k' id' → k = k' ∧ id = id'.
Proof.
  intros Hw Hi Hi' E. apply scoped_inj in E as (_ & _ & [= E ->]); [..| |].
  - by apply target_kind_inj in E.
  - done.
  - done.
  - repeat constructor; auto using target_kind_small.
  - repeat constructor; auto using target_kind_small.
Qed.

(** ** Batches *)

#[global] Instance batch_operation_eq_dec : EqDecision BatchOperation.
Proof. solve_decision. Defined.

(** A key that a batch only writes holds one of the values written. *)
Lemma batch_puts m ops k (P : string → Prop) :
  (∀ o, o ∈ ops → op_key o = k → ∃ v, o = Put k v ∧ P v) → (∃ o, o ∈ ops ∧ op_key o = k) →
  ∃ v, apply_batch m ops !! k = Some v ∧ P v.
Proof.
  induction ops as [|o ops IH] using rev_ind; intros Hw (o' & Ho' & Hk).
  { by apply elem_of_nil in Ho'. }
  rewrite apply_batch_app. change (∃ v, apply_op (apply_batch m ops) o !! k = Some v ∧ P v).
  destruct (decide (op_key o = k)) as [Eo|Eo].
  { destruct (Hw o) as (v & -> & HP); [rewrite elem_of_app; right; by left|done|]. exists v.
    split; [apply lookup_insert_eq|done]. }
  destruct IH as (v & Hv & HP).
  { intros o1 Ho1. apply Hw. rewrite elem_of_app. by left. }
  { apply elem_of_app in Ho' as [?|Ho']; [by exists o'|]. apply list_elem_of_singleton in Ho' as ->. done. }
  exists v. split; [|done]. rewrite <-Hv. destruct o; cbn in Eo |- *; [by apply lookup_insert_ne|by apply lookup_delete_ne].
Qed.

(** A key that a batch only deletes is gone. *)
Lemma batch_deleted m ops k :
  (∀ o, o ∈ ops → op_key o = k → o = Delete k) → Delete k ∈ ops → apply_batch m ops !! k = None.
Proof.
  induction ops as [|o ops IH] using rev_ind; intros Hd Hin; [by apply elem_of_nil in Hin|].
  rewrite apply_batch_app. change (apply_op (apply_batch m ops) o !! k = None).
  destruct (decide (op_key o = k)) as [Eo|Eo].
  { rewrite (Hd o); [apply lookup_delete_eq|rewrite elem_of_app; right; by left|done]. }
  apply elem_of_app in Hin as [Hin|Hin]; [|apply list_elem_of_singleton in Hin; subst o; done].
  assert (apply_batch m ops !! k = None) as E.
  { apply IH; [|done]. intros o1 Ho1. apply Hd. rewrite elem_of_app. by left. }
  destruct o; cbn in Eo |- *; [by rewrite lookup_insert_ne|by rewrite lookup_delete_ne].
Qed.

(** A key that a batch deletes or writes holds a value written, if any. *)
Lemma batch_either m ops k (P : string → Prop) v :
  (∀ o, o ∈ ops → op_key o = k → o = Delete k ∨ ∃ v, o = Put k v ∧ P v) →
  m !! k = None ∨ (∃ o, o ∈ ops ∧ op_key o = k) → apply_batch m ops !! k = Some v → P v.
Proof.
  induction ops as [|o ops IH] using rev_ind; intros Hw Hin Hv.
  { destruct Hin as [Hn|(o & Ho & _)]; [|by apply elem_of_nil in Ho]. cbn in Hv. congruence. }
  rewrite apply_batch_app in Hv. change (apply_op (apply_batch m ops) o !! k = Some v) in Hv.
  destruct (decide (op_key o = k)) as [Eo|Eo].
  { destruct (Hw o) as [-> |(v' & -> & HP)]; [rewrite elem_of_app; right; by left|done|..].
    - cbn in Hv. by rewrite lookup_delete_eq in Hv.
    - cbn in Hv. rewrite lookup_insert_eq in Hv. by injection Hv as <-. }
  assert (apply_batch m ops !! k = Some v) as Hv'.
  { destruct o; cbn in Eo, Hv; [by rewrite lookup_insert_ne in Hv|by rewrite lookup_delete_ne in Hv]. }
  apply IH; [intros o1 Ho1; apply Hw; rewrite elem_of_app; by left| |done].
  destruct Hin as [?|(o' & Ho' & Hk)]; [by left|right].
  apply elem_of_app in Ho' as [?|Ho']; [by exists o'|]. apply list_elem_of_singleton in Ho' as ->. done.
Qed.

(** ** Loops over targets *)

Lemma each_target_spec {X} (body : nat → X → LResult (option erasure)) i xs L :
  each_target body i xs = Ok L →
  (∀ e, e ∈ L → ∃ j x, x ∈ xs ∧ body j x = Ok (Some e)) ∧
  (∀ x, x ∈ xs → ∃ j, body j x = Ok None ∨ ∃ e, e ∈ L ∧ body j x = Ok (Some e)).
Proof.
  revert i L. induction xs as [|x xs IH]; intros i L E.
  { injection E as <-. split; by intros ? ?%elem_of_nil. }
  cbn in E. apply bind_ok in E as ([e|] & Ex & E).
  - apply bind_ok in E as (rest & Er & E). injection E as <-. destruct (IH _ _ Er) as [IH1 IH2]. split.
    + intros e' [-> |He]%elem_of_cons; [exists i, x; split; [by left|done]|].
      destruct (IH1 _ He) as (j & y & Hy & Hb). exists j, y. split; [by right|done].
    + intros y [-> |Hy]%elem_of_cons.
      * exists i. right. exists e. split; [by left|done].
      * destruct (IH2 _ Hy) as (j & [Hb|(e' & He & Hb)]); exists j; [by left|right].
        exists e'. split; [by right|done].
  - destruct (IH _ _ E) as [IH1 IH2]. split.
    + intros e' He. destruct (IH1 _ He) as (j & y & Hy & Hb). exists j, y. split; [by right|done].
    + intros y [-> |Hy]%elem_of_cons; [exists i; by left|]. by apply IH2.
Qed.

(** What a loop that skips nothing yields for a target. *)
Lemma each_target_all {X} (body : nat → X → LResult (option erasure)) i xs L x :
  each_target body i xs = Ok L → (∀ j, body j x ≠ Ok None) → x ∈ xs →
  ∃ j e, e ∈ L ∧ body j x = Ok (Some e).
Proof.
  intros [_ H]%each_target_spec Hn Hx. destruct (H _ Hx) as (j & [?|(e & ? & ?)]); [by destruct (Hn j)|eauto].
Qed.

(** ** Targets *)

Section targets.
Context `{!ContentCodec, !LedgerCodec, !SnapshotCodec, !PlanCodec, !DeletionCodec, !Sha256, !Hmac}.
Context {S : Type} `{!StorageBackend S, Hst : !StorageLaws S} (key : list Z).
Context (uuid : nat → string) (c : DeletionTombstoneContext) (s : S) (p : MemoryAccessProof)
  (plan : MemoryDeletionPlan).

Abbreviation ws := (tc_workspace_id c).
Abbreviation n := (tc_committed_sequence c).

Definition targets (x : MemoryDeletionPlan) (k : MemoryDeletionTargetKind) : list string :=
  match k with
  | TSelector => []
  | TAssertion => dp_affected_assertion_ids x
  | TVersion => dp_affected_version_ids x
  | TEvidence => dp_affected_evidence_ids x
  | TObservation => dp_affected_observation_ids x
  | TReinforcement => dp_affected_reinforcement_ids x
  | TRecallSnapshot => dp_affected_snapshot_ids x
  end.

(** A tombstone of the execution for a target. *)
Record proof_of (k : MemoryDeletionTargetKind) (id : string) (t : MemoryDeletionTombstone) : Prop := {
  po_kind : dt_target_kind t = k;
  po_id : dt_target_id t = id;
  po_workspace : dt_workspace_id t = ws;
  po_execution : dt_execution_id t = tc_execution_id c;
  po_sequence : dt_committed_sequence t = n;
  po_valid : tombstone_validate t = Ok tt;
}.

Definition planned_versions : gset string := list_to_set (dp_affected_version_ids plan).

(** Whether every version of an assertion goes. *)
Definition all_go (versions : gmap string (list string)) (aid : string) : bool :=
  match versions !! aid with
  | Some ids => forallb (λ id, bool_decide (id ∈ planned_versions)) ids
  | None => false
  end.

Definition tombstoned (vid : string) : VersionLifecycle :=
  mkLifecycle MEMORY_SCHEMA_VERSION ws vid Tombstoned n (tc_mutation_id c).

(** The writes for one target. *)
Definition erasing (k : MemoryDeletionTargetKind) (id : string) (ops : list BatchOperation) : Prop :=
  match k with
  | TSelector => False
  | TAssertion => ∃ versions, assertion_versions s ws = Ok versions ∧
      if all_go versions id then ops = [Delete (assertion_key ws id); Delete (head_key ws id)]
      else (load_head_unlocked s ws id = Ok None ∧ ops = []) ∨
           ∃ h b, load_head_unlocked s ws id = Ok (Some h) ∧
             json_of (head_without c planned_versions h) = Some b ∧ ops = [Put (head_key ws id) b]
  | TVersion => ∃ b derivation, json_of (tombstoned id) = Some b ∧
      ops = [Put (lifecycle_current_key ws id) b; Put (lifecycle_history_key ws id n) b;
             Delete (version_key ws id)] ++ derivation ∧
      ∀ o, o ∈ derivation → ∃ did, o = Delete (derivation_key ws did)
  | TEvidence => ops = [Delete (evidence_key ws id)]
  | TObservation => ∃ eid, ops = [Delete (observation_key ws id); Delete (observation_by_evidence_key ws eid)]
  | TReinforcement => ∃ vid, ops = [Delete (reinforcement_key ws vid id)]
  | TRecallSnapshot => ops = [Delete (recall_snapshot_key ws id)]
  end.

Definition erasure_of (k : MemoryDeletionTargetKind) (id : string) (e : erasure) : Prop :=
  proof_of k id e.2 ∧ erasing k id e.1.

Lemma create_tombstone_ok i k id sha t : create_tombstone uuid c i k id sha = Ok t → proof_of k id t.
Proof using. unfold create_tombstone. intros E. binds E. apply lcontract_ok in E0. injection E as <-. by split. Qed.

Lemma erase_assertion_ok versions i aid r :
  assertion_versions s ws = Ok versions →
  erase_assertion uuid c s versions planned_versions i aid = Ok r →
  ∃ e, r = Some e ∧ erasure_of TAssertion aid e.
Proof using.
  intros Hv. unfold erase_assertion. intros E. binds E. apply create_tombstone_ok in E3.
  fold (all_go versions aid) in E. destruct (all_go versions aid) eqn:Ea.
  { injection E as <-. eexists. split; [done|]. split; [done|]. exists versions. by rewrite Ea. }
  apply bind_ok in E as ([h|] & Eh & E).
  - binds E. injection E as <-. apply put_record_ok in E5 as (b & Hb & ->). eexists. split; [done|].
    split; [done|]. exists versions. rewrite Ea. split; [done|]. right. by exists h, b.
  - injection E as <-. eexists. split; [done|]. split; [done|]. exists versions. rewrite Ea.
    split; [done|]. by left.
Qed.

Lemma erase_version_ok i vid r :
  erase_version uuid c s p i vid = Ok r → ∃ e, r = Some e ∧ erasure_of TVersion vid e.
Proof using.
  unfold erase_version. intros E. binds E. apply create_tombstone_ok in E4. injection E as <-.
  apply put_record_ok in E6 as (b & Hb & ->), E7 as (b' & Hb' & ->).
  unfold tombstoned in *. rewrite Hb in Hb'. injection Hb' as <-. eexists. split; [done|]. split; [done|].
  eexists b, _. split; [done|]. split; [done|].
  intros o Ho. destruct (mv_derivation_id _) as [did|]; [|by apply elem_of_nil in Ho].
  apply list_elem_of_singleton in Ho as ->. by exists did.
Qed.

Lemma erase_evidence_ok i eid r :
  erase_evidence uuid c s i eid = Ok r → ∃ e, r = Some e ∧ erasure_of TEvidence eid e.
Proof using.
  unfold erase_evidence. intros E. binds E. apply create_tombstone_ok in E1. injection E as <-. eexists. split; [done|]. by split.
Qed.

Lemma erase_observation_ok i oid r :
  erase_observation uuid c s i oid = Ok r → ∃ e, r = Some e ∧ erasure_of TObservation oid e.
Proof using.
  unfold erase_observation. intros E. binds E. apply create_tombstone_ok in E2. injection E as <-.
  eexists. split; [done|]. split; [done|]. by eexists.
Qed.

Lemma erase_snapshot_ok i id r :
  erase_snapshot uuid c s i id = Ok r → ∃ e, r = Some e ∧ erasure_of TRecallSnapshot id e.
Proof using.
  unfold erase_snapshot. intros E. binds E. apply create_tombstone_ok in E1. injection E as <-. eexists. split; [done|]. by split.
Qed.

Lemma erase_reinforcement_ok expected i row e :
  erase_reinforcement uuid c expected i row = Ok (Some e) →
  ∃ rf, of_json row.2 = Some rf ∧ rf_reinforcement_id rf ∈ expected ∧
    erasure_of TReinforcement (rf_reinforcement_id rf) e ∧
    e.1 = [Delete (reinforcement_key ws (rf_version_id rf) (rf_reinforcement_id rf))].
Proof using.
  unfold erase_reinforcement. intros E. binds E. apply decode_some in E0. exists x. split; [done|].
  destruct (bool_decide _) eqn:Ei; [|discriminate]. cbn [negb] in E. apply bool_decide_eq_true in Ei.
  split; [done|]. binds E. apply create_tombstone_ok in E2. injection E as <-. split; [|done].
  split; [done|]. by eexists.
Qed.

Lemma erase_reinforcement_skip expected i row rf :
  erase_reinforcement uuid c expected i row = Ok None → of_json row.2 = Some rf →
  rf_reinforcement_id rf ∉ expected.
Proof using.
  unfold erase_reinforcement. intros E Hj. binds E. apply decode_some in E0. rewrite Hj in E0. injection E0 as <-.
  destruct (bool_decide _) eqn:Ei; cbn [negb] in E; [|by apply bool_decide_eq_false in Ei].
  by binds E.
Qed.

Lemma erase_reinforcements_ok i ids L :
  erase_reinforcements uuid c s i ids = Ok L →
  (∀ e, e ∈ L → ∃ id, id ∈ ids ∧ erasure_of TReinforcement id e) ∧
  (∀ id, id ∈ ids → ∃ e, e ∈ L ∧ erasure_of TReinforcement id e) ∧
  (∀ row rf, row ∈ entries_with_prefix (sb_view s) (reinforcement_workspace_prefix ws) →
     of_json row.2 = Some rf → rf_reinforcement_id rf ∈ ids →
     ∃ e, e ∈ L ∧ Delete (reinforcement_key ws (rf_version_id rf) (rf_reinforcement_id rf)) ∈ e.1).
Proof using Hst.
  unfold erase_reinforcements. destruct (decide (ids = [])) as [-> |_].
  { intros [= <-]. split_and!; [by intros e ?%elem_of_nil|by intros e ?%elem_of_nil|].
    by intros row rf _ _ ?%elem_of_nil. }
  intros E. binds E. apply scan_rows in E0 as ->. injection E as <-. rename x0 into L.
  apply negb_false_iff, PeanoNat.Nat.eqb_eq in E2.
  destruct (each_target_spec _ _ _ _ E1) as [K1 K2].
  assert (∀ e, e ∈ L → ∃ id, id ∈ ids ∧ erasure_of TReinforcement id e) as Hin.
  { intros e (j & row & Hrow & (rf & _ & Hid & He & _)%erase_reinforcement_ok)%K1.
    apply elem_of_list_to_set in Hid. eauto. }
  split_and!; [done| |].
  - intros id Hid. assert (id ∈ (list_to_set (dt_target_id ∘ snd <$> L) : gset string)) as Hf.
    { assert (list_to_set (dt_target_id ∘ snd <$> L) ≡@{gset string} list_to_set ids) as ->; [|by apply elem_of_list_to_set].
      apply set_subseteq_size_equiv; [|lia]. intros x (e & -> & He)%elem_of_list_to_set%list_elem_of_fmap.
      destruct (Hin _ He) as (i' & Hi' & Hp & _). apply elem_of_list_to_set. cbn. by rewrite (po_id _ _ _ Hp). }
    apply elem_of_list_to_set, list_elem_of_fmap in Hf as (e & -> & He). exists e. split; [done|].
    destruct (Hin _ He) as (i' & Hi' & Hp). cbn. by rewrite (po_id _ _ _ (proj1 Hp)).
  - intros row rf Hrow Hj Hid. destruct (K2 _ Hrow) as (j & [Hb|(e & He & Hb)]).
    + exfalso. eapply erase_reinforcement_skip; [exact Hb|exact Hj|by apply elem_of_list_to_set].
    + apply erase_reinforcement_ok in Hb as (rf' & Hj' & _ & _ & Ho). rewrite Hj in Hj'. injection Hj' as <-.
      exists e. split; [done|]. rewrite Ho. by left.
Qed.

(** A loop over the targets of one kind. *)
Lemma each_kind k (body : nat → string → LResult (option erasure)) i ids L :
  (∀ j id r, body j id = Ok r → ∃ e, r = Some e ∧ erasure_of k id e) →
  each_target body i ids = Ok L →
  (∀ e, e ∈ L → ∃ id, id ∈ ids ∧ erasure_of k id e) ∧ (∀ id, id ∈ ids → ∃ e, e ∈ L ∧ erasure_of k id e).
Proof using.
  intros Hb [K1 K2]%each_target_spec. split.
  - intros e (j & id & Hid & (e' & [= <-] & He)%Hb)%K1. eauto.
  - intros id Hid. destruct (K2 _ Hid) as (j & [(? & ? & _)%Hb|(e & He & Hb')]); [discriminate|].
    apply Hb in Hb' as (e' & [= <-] & ?). eauto.
Qed.

(** The erasures are those of the targets of the plan. *)
Lemma erase_targets_ok i L :
  erase_targets uuid c s p i plan = Ok L →
  (∀ e, e ∈ L → ∃ k id, id ∈ targets plan k ∧ erasure_of k id e) ∧
  (∀ k id, id ∈ targets plan k → ∃ e, e ∈ L ∧ erasure_of k id e) ∧
  (∀ row rf, row ∈ entries_with_prefix (sb_view s) (reinforcement_workspace_prefix ws) →
     of_json row.2 = Some rf → rf_reinforcement_id rf ∈ targets plan TReinforcement →
     ∃ e, e ∈ L ∧ Delete (reinforcement_key ws (rf_version_id rf) (rf_reinforcement_id rf)) ∈ e.1).
Proof using Hst.
  unfold erase_targets. intros E. apply bind_ok in E as (versions & Ev & E).
  apply bind_ok in E as (e1 & E1 & E). apply bind_ok in E as (e2 & E2 & E). apply bind_ok in E as (e3 & E3 & E).
  apply bind_ok in E as (e4 & E4 & E). apply bind_ok in E as (e5 & E5 & E). apply bind_ok in E as (e6 & E6 & E).
  injection E as <-.
  apply (each_kind TAssertion) in E1 as [A1 B1]; [|intros; by eapply erase_assertion_ok].
  apply (each_kind TVersion) in E2 as [A2 B2]; [|intros; by eapply erase_version_ok].
  apply (each_kind TEvidence) in E3 as [A3 B3]; [|intros; by eapply erase_evidence_ok].
  apply (each_kind TObservation) in E4 as [A4 B4]; [|intros; by eapply erase_observation_ok].
  apply erase_reinforcements_ok in E5 as (A5 & B5 & C5).
  apply (each_kind TRecallSnapshot) in E6 as [A6 B6]; [|intros; by eapply erase_snapshot_ok].
  split_and!.
  - intros e. rewrite !elem_of_app. intros [He|[He|[He|[He|[He|He]]]]];
      [apply A1 in He as (id & ? & ?)|apply A2 in He as (id & ? & ?)|apply A3 in He as (id & ? & ?)
      |apply A4 in He as (id & ? & ?)|apply A5 in He as (id & ? & ?)|apply A6 in He as (id & ? & ?)];
      eexists _, id; (split; [|done]); done.
  - intros [] id Hid; cbn in Hid; [by apply elem_of_nil in Hid|apply B1 in Hid|apply B2 in Hid|apply B3 in Hid
      |apply B4 in Hid|apply B5 in Hid|apply B6 in Hid]; destruct Hid as (e & He & ?); exists e; (split; [|done]);
      rewrite !elem_of_app; tauto.
  - intros row rf Hrow Hj Hid. destruct (C5 row rf Hrow Hj Hid) as (e & He & ?). exists e. split; [|done].
    rewrite !elem_of_app. tauto.
Qed.

(** ** The batch *)

(** A record of the log: its kind, the components of its key and its bytes. *)
Abbreviation log_record := (string * list string * string)%type.

Definition log_put (x : log_record) : BatchOperation := Put (scoped_key x.1.1 ws x.1.2) x.2.

Record log_of (mu : MemoryMutation) (e : MemoryDeletionExecution) (log : list log_record) : Prop := {
  lo_kinds : log.*1.*1 = ["meta"; "mutation-sequence"; "mutation-id"; "outbox"; "policy-decision";
                          "deletion-execution"; "idempotency"];
  lo_meta : ∃ b, json_of (mkMeta MEMORY_SCHEMA_VERSION ws n) = Some b ∧ ("meta", [], b) ∈ log;
  lo_mutation : ∃ b, json_of mu = Some b ∧ ("mutation-sequence", [seq8 n], b) ∈ log;
  lo_outbox : ∃ b, json_of (outbox_of mu) = Some b ∧ ("outbox", [seq8 n], b) ∈ log;
  lo_execution : ∃ b, json_of e = Some b ∧ ("deletion-execution", [de_execution_id e], b) ∈ log;
  lo_idempotency : ∃ b, json_of (idem_of mu) = Some b ∧
    ("idempotency", [mm_principal_id mu; operation_name (mm_operation mu); mm_idempotency_key_sha256 mu], b) ∈ log;
}.

Inductive proved : MemoryDeletionTargetKind → string → Prop :=
| proved_selector token : deletion_selector_token (dp_selector plan) = Ok token → proved TSelector token
| proved_target k id : id ∈ targets plan k → proved k id.

Record exec_batch (mu : MemoryMutation) (e : MemoryDeletionExecution) (ops : list BatchOperation) : Prop := {
  eb_op o : o ∈ ops →
    (∃ log x, log_of mu e log ∧ x ∈ log ∧ o = log_put x) ∨
    o = Delete (deletion_plan_key ws (dp_plan_id plan)) ∨
    (∃ k id l, id ∈ targets plan k ∧ erasing k id l ∧ o ∈ l) ∨
    (∃ k id t b, proved k id ∧ proof_of k id t ∧ json_of t = Some b ∧ o = Put (deletion_tombstone_key ws k id) b);
  eb_log : ∃ log, log_of mu e log ∧ ∀ x, x ∈ log → log_put x ∈ ops;
  eb_plan : Delete (deletion_plan_key ws (dp_plan_id plan)) ∈ ops;
  eb_target k id : id ∈ targets plan k → ∃ l, erasing k id l ∧ ∀ o, o ∈ l → o ∈ ops;
  eb_proof k id : proved k id →
    ∃ t b, proof_of k id t ∧ json_of t = Some b ∧ Put (deletion_tombstone_key ws k id) b ∈ ops;
  eb_reinforcement row rf :
    row ∈ entries_with_prefix (sb_view s) (reinforcement_workspace_prefix ws) → of_json row.2 = Some rf →
    rf_reinforcement_id rf ∈ targets plan TReinforcement →
    Delete (reinforcement_key ws (rf_version_id rf) (rf_reinforcement_id rf)) ∈ ops;
  eb_token : ∃ token, deletion_selector_token (dp_selector plan) = Ok token;
}.

Lemma selector_tombstone_ok i selector t :
  selector_tombstone uuid c i selector = Ok t →
  ∃ token, deletion_selector_token selector = Ok token ∧ proof_of TSelector token t.
Proof using. unfold selector_tombstone. intros E. binds E. apply create_tombstone_ok in E. eauto. Qed.

Lemma tombstone_puts (l : list MemoryDeletionTombstone) ops :
  lseq ((λ t, put_record (deletion_tombstone_key ws (dt_target_kind t) (dt_target_id t)) t) <$> l) = Ok ops →
  (∀ o, o ∈ ops → ∃ t b, t ∈ l ∧ json_of t = Some b ∧
     o = Put (deletion_tombstone_key ws (dt_target_kind t) (dt_target_id t)) b) ∧
  (∀ t, t ∈ l → ∃ b, json_of t = Some b ∧
     Put (deletion_tombstone_key ws (dt_target_kind t) (dt_target_id t)) b ∈ ops).
Proof using.
  intros E%collect_Forall2. rewrite Forall2_fmap_l in E. split.
  - intros o [i Hi]%list_elem_of_lookup. destruct (Forall2_lookup_r _ _ _ _ _ E Hi) as (t & Ht & Hp).
    apply put_record_ok in Hp as (b & Hb & ->). exists t, b. split; [by eapply list_elem_of_lookup_2|done].
  - intros t [i Hi]%list_elem_of_lookup. destruct (Forall2_lookup_l _ _ _ _ _ E Hi) as (o & Ho & Hp).
    apply put_record_ok in Hp as (b & Hb & ->). exists b. split; [done|by eapply list_elem_of_lookup_2].
Qed.

Lemma exec_batch_of mu e log selected erased proofs :
  log_of mu e log →
  (∃ token, deletion_selector_token (dp_selector plan) = Ok token ∧ proof_of TSelector token selected) →
  erase_targets uuid c s p 3 plan = Ok erased →
  lseq ((λ t, put_record (deletion_tombstone_key ws (dt_target_kind t) (dt_target_id t)) t)
          <$> (selected :: (snd <$> erased))) = Ok proofs →
  exec_batch mu e (take 5 (log_put <$> log) ++ [Delete (deletion_plan_key ws (dp_plan_id plan))]
    ++ mjoin (fst <$> erased) ++ drop 5 (log_put <$> log) ++ proofs).
Proof using Hst.
  intros Hlog (token & Htok & Hsel) Her [P1 P2]%tombstone_puts.
  destruct (erase_targets_ok _ _ Her) as (T1 & T2 & T3).
  assert (∀ t, t ∈ selected :: (snd <$> erased) → ∃ k id, proved k id ∧ proof_of k id t) as Hproved.
  { intros t [-> |(e' & -> & He)%list_elem_of_fmap]%elem_of_cons; [by eexists _, token; split; [constructor|]|].
    destruct (T1 _ He) as (k & id & Hid & Hp & _). exists k, id. split; [by constructor|done]. }
  assert (∀ o, o ∈ log_put <$> log ↔ o ∈ take 5 (log_put <$> log) ∨ o ∈ drop 5 (log_put <$> log)) as Hl.
  { intros o. by rewrite <-(take_drop 5 (log_put <$> log)) at 1; rewrite elem_of_app. }
  assert (∀ e' o, e' ∈ erased → o ∈ e'.1 → o ∈ mjoin (fst <$> erased)) as Hj.
  { intros e' o He Ho. apply list_elem_of_join. exists e'.1. split; [done|]. apply list_elem_of_fmap. eauto. }
  assert (∀ o, o ∈ log_put <$> log → ∃ log x, log_of mu e log ∧ x ∈ log ∧ o = log_put x) as Hx.
  { intros o (x & -> & Hx)%list_elem_of_fmap. eauto. }
  split.
  - intros o. rewrite !elem_of_app, list_elem_of_singleton. intros [Ho|[Ho|[Ho|[Ho|Ho]]]].
    + left. apply Hx, Hl. by left.
    + by right; left.
    + right. right. left. apply list_elem_of_join in Ho as (l & Ho & (e' & -> & He)%list_elem_of_fmap).
      destruct (T1 _ He) as (k & id & Hid & _ & Hr). eauto 8.
    + left. apply Hx, Hl. by right.
    + right. right. right. destruct (P1 _ Ho) as (t & b & Ht & Hb & ->).
      destruct (Hproved _ Ht) as (k & id & Hpr & Hp). exists k, id, t, b.
      by rewrite (po_kind _ _ _ Hp), (po_id _ _ _ Hp).
  - exists log. split; [done|]. intros x Hin. rewrite !elem_of_app.
    destruct (proj1 (Hl (log_put x))); [apply list_elem_of_fmap; eauto|tauto..].
  - rewrite !elem_of_app, list_elem_of_singleton. tauto.
  - intros k id (e' & He & _ & Hr)%T2. exists e'.1. split; [done|]. intros o Ho.
    rewrite !elem_of_app. right. right. left. by eapply Hj.
  - intros k id Hpr. assert (∃ t, t ∈ selected :: (snd <$> erased) ∧ proof_of k id t) as (t & Ht & Hp).
    { destruct Hpr as [token' Htok'|k' id' (e' & He & Hp & _)%T2].
      - rewrite Htok in Htok'. injection Htok' as <-. exists selected. split; [by left|done].
      - exists e'.2. split; [right; apply list_elem_of_fmap; eauto|done]. }
    destruct (P2 _ Ht) as (b & Hb & Hin). rewrite (po_kind _ _ _ Hp), (po_id _ _ _ Hp) in Hin.
    exists t, b. split; [done|]. split; [done|]. rewrite !elem_of_app. tauto.
  - intros row rf Hrow Hjs Hid. destruct (T3 row rf Hrow Hjs Hid) as (e' & He & Ho).
    rewrite !elem_of_app. right. right. left. by eapply Hj.
  - by exists token.
Qed.

(** The operations of a batch, one by one. *)
Inductive exec_op (mu : MemoryMutation) (e : MemoryDeletionExecution) : BatchOperation → Prop :=
| XLog log x : log_of mu e log → x ∈ log → exec_op mu e (log_put x)
| XPlan : exec_op mu e (Delete (deletion_plan_key ws (dp_plan_id plan)))
| XAssertion id : id ∈ targets plan TAssertion → exec_op mu e (Delete (assertion_key ws id))
| XHead id : id ∈ targets plan TAssertion → exec_op mu e (Delete (head_key ws id))
| XHeadPut id h b :
    id ∈ targets plan TAssertion → load_head_unlocked s ws id = Ok (Some h) →
    json_of (head_without c planned_versions h) = Some b → exec_op mu e (Put (head_key ws id) b)
| XLife id b : id ∈ targets plan TVersion → json_of (tombstoned id) = Some b →
    exec_op mu e (Put (lifecycle_current_key ws id) b)
| XHist id b : id ∈ targets plan TVersion → json_of (tombstoned id) = Some b →
    exec_op mu e (Put (lifecycle_history_key ws id n) b)
| XVersion id : id ∈ targets plan TVersion → exec_op mu e (Delete (version_key ws id))
| XDerivation did : exec_op mu e (Delete (derivation_key ws did))
| XEvidence id : id ∈ targets plan TEvidence → exec_op mu e (Delete (evidence_key ws id))
| XObservation id : id ∈ targets plan TObservation → exec_op mu e (Delete (observation_key ws id))
| XObservationBy eid : exec_op mu e (Delete (observation_by_evidence_key ws eid))
| XReinforcement vid id : id ∈ targets plan TReinforcement → exec_op mu e (Delete (reinforcement_key ws vid id))
| XSnapshot id : id ∈ targets plan TRecallSnapshot → exec_op mu e (Delete (recall_snapshot_key ws id))
| XTombstone k id t b : proved k id → proof_of k id t → json_of t = Some b →
    exec_op mu e (Put (deletion_tombstone_key ws k id) b).

Lemma exec_op_of mu e ops o : exec_batch mu e ops → o ∈ ops → exec_op mu e o.
Proof using.
  intros HB Ho. destruct (eb_op _ _ _ HB o Ho)
    as [(log & x & Hl & Hx & ->)|[-> |[(k & id & l & Hid & Hr & Hin)|(k & id & t & b & Hp & Ht & Hb & ->)]]];
    [by eapply XLog|apply XPlan| |by eapply XTombstone].
  destruct k; cbn [erasing] in Hr; [done|..].
  - destruct Hr as (versions & _ & Hr). destruct (all_go versions id).
    + subst l. apply elem_of_cons in Hin as [-> | ->%list_elem_of_singleton]; [by apply XAssertion|by apply XHead].
    + destruct Hr as [[_ ->]|(h & b & Hh & Hb & ->)]; [by apply elem_of_nil in Hin|].
      apply list_elem_of_singleton in Hin as ->. by eapply XHeadPut.
  - destruct Hr as (b & d & Hb & -> & Hd). apply elem_of_app in Hin as [Hin|Hin].
    + rewrite !elem_of_cons, elem_of_nil in Hin.
      destruct Hin as [-> |[-> |[-> |[]]]]; [by apply XLife|by apply XHist|by apply XVersion].
    + apply Hd in Hin as (did & ->). apply XDerivation.
  - subst l. apply list_elem_of_singleton in Hin as ->. by apply XEvidence.
  - destruct Hr as (eid & ->).
    apply elem_of_cons in Hin as [-> | ->%list_elem_of_singleton]; [by apply XObservation|apply XObservationBy].
  - destruct Hr as (vid & ->). apply list_elem_of_singleton in Hin as ->. by apply XReinforcement.
  - subst l. apply list_elem_of_singleton in Hin as ->. by apply XSnapshot.
Qed.

Definition log_kinds : list string :=
  ["meta"; "mutation-sequence"; "mutation-id"; "outbox"; "policy-decision"; "deletion-execution"; "idempotency"].

Lemma log_kind mu e log x : log_of mu e log → x ∈ log → x.1.1 ∈ log_kinds ∧ small x.1.1.
Proof using.
  intros Hl Hx. assert (x.1.1 ∈ log_kinds) as Hk.
  { unfold log_kinds. rewrite <-(lo_kinds _ _ _ Hl). apply list_elem_of_fmap. exists x.1. split; [done|].
    apply list_elem_of_fmap. eauto. }
  split; [done|]. assert (Forall small log_kinds) as Hf by by repeat constructor.
  rewrite Forall_forall in Hf. by apply Hf.
Qed.

Lemma log_other mu e log x q ws' l :
  log_of mu e log → x ∈ log → small q → q ∉ log_kinds → op_key (log_put x) ≠ scoped_key q ws' l.
Proof using.
  intros Hl Hx Hq Hn E. destruct (log_kind _ _ _ _ Hl Hx) as [Hk Hs]. apply scoped_kind in E; [|done..]. by subst q.
Qed.
End targets.

(** The operations on one kind of key. *)
Ltac exec_cases Ho E :=
  destruct Ho; cbn [op_key] in E;
  try match goal with
      | Hl : log_of _ _ _ ?log, Hx : ?x ∈ ?log |- _ =>
          exfalso; refine (log_other _ _ _ _ _ _ _ _ Hl Hx _ _ E); [reflexivity|];
          refine (bool_decide_unpack (_ ∉ log_kinds) _); by vm_compute
      end;
  try (kinds E).

Section effects.
Context `{!ContentCodec, !LedgerCodec, !SnapshotCodec, !PlanCodec, !DeletionCodec, !Sha256, !Hmac}.
Context {S : Type} `{!StorageBackend S, Hst : !StorageLaws S}.
Context (c : DeletionTombstoneContext) (s : S) (plan : MemoryDeletionPlan).
Context (mu : MemoryMutation) (e : MemoryDeletionExecution) (ops : list BatchOperation).
Context (HB : exec_batch c s plan mu e ops).

Abbreviation ws := (tc_workspace_id c).
Abbreviation n := (tc_committed_sequence c).
Abbreviation m := (sb_view s).
Abbreviation m' := (apply_batch (sb_view s) ops).

Context (Hws : small ws) (Hids : ∀ k id, id ∈ targets plan k → small id).

(** The record of a target. *)
Definition record_key (w : string) (k : MemoryDeletionTargetKind) (id : string) : string :=
  match k with
  | TSelector => deletion_tombstone_key w k id
  | TAssertion => assertion_key w id
  | TVersion => version_key w id
  | TEvidence => evidence_key w id
  | TObservation => observation_key w id
  | TReinforcement => reinforcement_workspace_prefix w
  | TRecallSnapshot => recall_snapshot_key w id
  end.

(** Kinds whose records are deleted outright. *)
Definition outright (k : MemoryDeletionTargetKind) : bool :=
  match k with TVersion | TEvidence | TObservation | TRecallSnapshot => true | _ => false end.

Lemma record_op k id o :
  outright k || bool_decide (k = TAssertion) = true → small id → o ∈ ops → op_key o = record_key ws k id →
  o = Delete (record_key ws k id) ∧ id ∈ targets plan k.
Proof using HB Hws Hids.
  intros Hk Hs Ho E. apply (exec_op_of _ _ _ _ _ _ _ HB) in Ho.
  destruct k; try discriminate Hk; cbn [record_key] in E |- *; exec_cases Ho E; split; try congruence;
    (apply scoped_one in E; [subst; done|reflexivity|done|by eapply Hids|done]).
Qed.

(** What is not a target stays. *)
Lemma kept_record k id :
  outright k || bool_decide (k = TAssertion) = true → small id → id ∉ targets plan k →
  m' !! record_key ws k id = m !! record_key ws k id.
Proof using HB Hws Hids.
  intros Hk Hs Hn. apply apply_batch_other. intros o Ho E. by destruct (record_op k id o Hk Hs Ho E).
Qed.

Lemma gone_record k id : outright k = true → id ∈ targets plan k → m' !! record_key ws k id = None.
Proof using HB Hws Hids.
  intros Hk Hid. apply batch_deleted.
  - intros o Ho E. apply record_op in E as [-> _]; [done|by rewrite Hk|by eapply Hids|done].
  - destruct (eb_target _ _ _ _ _ _ HB k id Hid) as (l & Hl & Hin). apply Hin.
    destruct k; try discriminate Hk; cbn [erasing] in Hl.
    + destruct Hl as (b & d & _ & -> & _). right. right. by left.
    + subst l. by left.
    + destruct Hl as (eid & ->). by left.
    + subst l. by left.
Qed.

Lemma plan_gone : m' !! deletion_plan_key ws (dp_plan_id plan) = None.
Proof using HB.
  apply batch_deleted; [|apply HB]. intros o Ho E. apply (exec_op_of _ _ _ _ _ _ _ HB) in Ho.
  exec_cases Ho E. done.
Qed.

Lemma life_written id : id ∈ targets plan TVersion →
  ∃ b, json_of (tombstoned c id) = Some b ∧
    m' !! lifecycle_current_key ws id = Some b ∧ m' !! lifecycle_history_key ws id n = Some b.
Proof using HB Hws Hids.
  intros Hid. destruct (eb_target _ _ _ _ _ _ HB TVersion id Hid) as (l & (b & d & Hb & -> & _) & Hin).
  exists b. split; [done|]. split.
  - destruct (batch_puts m ops (lifecycle_current_key ws id) (λ v, v = b)) as (v & Hv & ->); [| |done].
    + intros o Ho E. apply (exec_op_of _ _ _ _ _ _ _ HB) in Ho. exec_cases Ho E.
      apply scoped_one in E; [|reflexivity|done|by eapply (Hids TVersion)..]. subst id0. exists b0. split; [done|congruence].
    + eexists. split; [apply Hin; by left|done].
  - destruct (batch_puts m ops (lifecycle_history_key ws id n) (λ v, v = b)) as (v & Hv & ->); [| |done].
    + intros o Ho E. apply (exec_op_of _ _ _ _ _ _ _ HB) in Ho. exec_cases Ho E.
      assert (∀ i, i ∈ targets plan TVersion → Forall small [ws; i; seq8 n]) as Hf.
      { intros i Hi. apply Forall_cons; split; [done|]. apply Forall_cons; split; [by eapply (Hids TVersion)|].
        apply Forall_singleton, seq8_small. }
      apply scoped_inj in E as (_ & _ & E); [|reflexivity|reflexivity|by apply Hf|by apply Hf].
      injection E as ->. exists b0. split; [done|congruence].
    + eexists. split; [apply Hin; right; by left|done].
Qed.

Lemma proof_small k id t : proof_of c k id t → small id.
Proof using.
  intros [_ <- _ _ _ V]. unfold tombstone_validate in V. binds V. by eapply id_small.
Qed.

Lemma proof_written `{!SerdeLaw MemoryDeletionTombstone} k id : proved plan k id →
  ∃ t, m' !! deletion_tombstone_key ws k id ≫= of_json = Some t ∧ proof_of c k id t.
Proof using HB Hws.
  intros (t & b & Ht & Hb & Hin)%(eb_proof _ _ _ _ _ _ HB). apply proof_small in Ht as Hs.
  destruct (batch_puts m ops (deletion_tombstone_key ws k id)
              (λ v, ∃ t, json_of t = Some v ∧ proof_of c k id t)) as (v & Hv & t' & Hj & Hp).
  - intros o Ho E. apply (exec_op_of _ _ _ _ _ _ _ HB) in Ho. exec_cases Ho E.
    apply tombstone_key_inj in E as [-> ->]; [|done|by eapply proof_small|done]. eauto.
  - eexists. split; [exact Hin|done].
  - exists t'. rewrite Hv. split; [|done]. cbn. by apply serde_roundtrip.
Qed.

(** The record of a kind that the log holds. *)
Lemma log_written q l b :
  q ∈ log_kinds → (∀ log, log_of c mu e log → (q, l, b) ∈ log) → m' !! scoped_key q ws l = Some b.
Proof using HB.
  intros Hq Hall. assert (∀ log x, log_of c mu e log → x ∈ log → x.1.1 = q → x = (q, l, b)) as Huniq.
  { intros log x Hl Hx Ex. pose proof (Hall _ Hl) as Hin.
    assert (NoDup (log.*1.*1)) as Hnd.
    { rewrite (lo_kinds _ _ _ _ Hl). refine (bool_decide_unpack (NoDup _) _). by vm_compute. }
    apply list_elem_of_lookup in Hx as [i Hi]. apply list_elem_of_lookup in Hin as [j Hj].
    assert (i = j) as ->; [|congruence].
    apply (NoDup_lookup _ _ _ q Hnd); rewrite !list_lookup_fmap.
    - rewrite Hi. cbn. by rewrite Ex.
    - by rewrite Hj. }
  assert (small q) as Hsq.
  { assert (Forall small log_kinds) as Hf by by repeat constructor. rewrite Forall_forall in Hf. by apply Hf. }
  destruct (batch_puts m ops (scoped_key q ws l) (λ v, v = b)) as (v & Hv & ->); [| |done].
  - intros o Ho E. apply (exec_op_of _ _ _ _ _ _ _ HB) in Ho.
    destruct Ho as [log x Hl Hx| | | | | | | | | | | | | |]; cbn [op_key] in E;
      try (exfalso; apply scoped_kind in E; [|reflexivity|done]; subst q;
           refine (bool_decide_unpack (_ ∉ log_kinds) _ Hq); by vm_compute).
    change (scoped_key x.1.1 ws x.1.2 = scoped_key q ws l) in E.
    apply scoped_kind in E; [|by eapply log_kind|done]. rewrite (Huniq _ _ Hl Hx E). by exists b.
  - destruct (eb_log _ _ _ _ _ _ HB) as (log & Hl & Hin). exists (log_put c (q, l, b)).
    split; [by apply Hin, Hall|done].
Qed.

Lemma log_lookup {A} `{!Serde A, !SerdeLaw A} q l (a : A) :
  q ∈ log_kinds → (∀ log, log_of c mu e log → ∃ b, json_of a = Some b ∧ (q, l, b) ∈ log) →
  m' !! scoped_key q ws l ≫= of_json = Some a.
Proof using HB.
  intros Hq Hall. destruct (eb_log _ _ _ _ _ _ HB) as (log & Hl & _).
  destruct (Hall _ Hl) as (b & Hb & _). rewrite (log_written q l b Hq).
  - cbn. by apply serde_roundtrip.
  - intros log' (b' & Hb' & Hin)%Hall. congruence.
Qed.

(** An assertion all of whose versions go is deleted with its head. *)
Lemma assertion_gone versions id :
  id ∈ targets plan TAssertion → assertion_versions s ws = Ok versions → all_go plan versions id = true →
  m' !! assertion_key ws id = None ∧ m' !! head_key ws id = None.
Proof using HB Hws Hids.
  intros Hid Hv Ha. destruct (eb_target _ _ _ _ _ _ HB TAssertion id Hid) as (l & (versions' & Hv' & Hl) & Hin).
  rewrite Hv in Hv'. injection Hv' as <-. rewrite Ha in Hl. subst l. split; apply batch_deleted.
  - intros o Ho E. by apply (record_op TAssertion id) in E as [-> _]; [|done|by eapply Hids|].
  - apply Hin. by left.
  - intros o Ho E. destruct (eb_op _ _ _ _ _ _ HB o Ho)
      as [(log & x & Hl & Hx & ->)|[-> |[(k & id' & l & Hid' & Hr & Ho')|(k & id' & t & b & Hp & Ht & Hb & ->)]]].
    + exfalso. refine (log_other _ _ _ _ _ _ _ _ Hl Hx _ _ E); [reflexivity|].
      refine (bool_decide_unpack (_ ∉ log_kinds) _); by vm_compute.
    + by kinds E.
    + destruct k; cbn [erasing] in Hr; [done|..].
      * destruct Hr as (versions' & Hv' & Hr). rewrite Hv in Hv'. injection Hv' as <-.
        assert (id' = id) as ->.
        { destruct (all_go plan versions id').
          - subst l. apply elem_of_cons in Ho' as [-> | ->%list_elem_of_singleton]; [by kinds E|].
            apply scoped_one in E; [done|reflexivity|done|by eapply (Hids TAssertion)|by eapply (Hids TAssertion)].
          - destruct Hr as [[_ ->]|(h & b & _ & _ & ->)]; [by apply elem_of_nil in Ho'|].
            apply list_elem_of_singleton in Ho' as ->.
            apply scoped_one in E; [done|reflexivity|done|by eapply (Hids TAssertion)|by eapply (Hids TAssertion)]. }
        rewrite Ha in Hr. subst l. apply elem_of_cons in Ho' as [-> | ->%list_elem_of_singleton]; [by kinds E|done].
      * destruct Hr as (b & d & _ & -> & Hd). apply elem_of_app in Ho' as [Ho'|(did & ->)%Hd]; [|by kinds E].
        rewrite !elem_of_cons, elem_of_nil in Ho'. destruct Ho' as [-> |[-> |[-> |[]]]]; by kinds E.
      * subst l. apply list_elem_of_singleton in Ho' as ->. by kinds E.
      * destruct Hr as (eid & ->). apply elem_of_cons in Ho' as [-> | ->%list_elem_of_singleton]; by kinds E.
      * destruct Hr as (vid & ->). apply list_elem_of_singleton in Ho' as ->. by kinds E.
      * subst l. apply list_elem_of_singleton in Ho' as ->. by kinds E.
    + by kinds E.
  - apply Hin. right. by left.
Qed.

(** The head of an assertion in the plan lists none of the planned versions. *)
Lemma head_pruned `{!SerdeLaw MemoryHead} id v h :
  id ∈ targets plan TAssertion → m' !! head_key ws id = Some v → of_json v = Some h →
  ∀ vid, vid ∈ hd_active_version_ids h → vid ∉ dp_affected_version_ids plan.
Proof using HB Hws Hids Hst.
  intros Hid Hv Hh.
  destruct (batch_either m ops (head_key ws id)
    (λ v, ∃ h, json_of (head_without c (planned_versions plan) h) = Some v) v) as (h' & Hj); [| |done|].
  - intros o Ho E. apply (exec_op_of _ _ _ _ _ _ _ HB) in Ho. exec_cases Ho E.
    + left. by rewrite E.
    + right. exists b. rewrite E. eauto.
  - destruct (eb_target _ _ _ _ _ _ HB TAssertion id Hid) as (l & (versions & _ & Hl) & Hin).
    destruct (all_go plan versions id).
    { right. eexists. split; [apply Hin; subst l; right; by left|done]. }
    destruct Hl as [[Hn _]|(h' & b & _ & _ & ->)]; [left|right].
    + by apply (load_none s (KHead ws id)) in Hn.
    + eexists. split; [apply Hin; by left|done].
  - apply (serde_roundtrip (A := MemoryHead)) in Hj. rewrite Hj in Hh. injection Hh as <-. cbn.
    intros vid [Hn _]%list_elem_of_filter Hin. apply Hn. unfold planned_versions. by apply elem_of_list_to_set.
Qed.

(** No reinforcement of the plan is left under its own key. *)
Lemma reinforcement_gone vid rf v :
  m' !! reinforcement_key ws vid (rf_reinforcement_id rf) = Some v → of_json v = Some rf →
  rf_version_id rf = vid → rf_reinforcement_id rf ∉ targets plan TReinforcement.
Proof using HB Hws Hids.
  intros Hv Hj <- Hid. set (id := rf_reinforcement_id rf) in *.
  assert (∀ o, o ∈ ops → op_key o = reinforcement_key ws (rf_version_id rf) id →
            o = Delete (reinforcement_key ws (rf_version_id rf) id)) as Hdel.
  { intros o Ho E. apply (exec_op_of _ _ _ _ _ _ _ HB) in Ho. exec_cases Ho E. by rewrite E. }
  destruct (decide (Delete (reinforcement_key ws (rf_version_id rf) id) ∈ ops)) as [Hin|Hout].
  { by rewrite (batch_deleted m ops _ Hdel Hin) in Hv. }
  apply Hout. rewrite apply_batch_other in Hv by (intros o Ho E; apply Hdel in E as Eo; [by subst o|done]).
  apply (eb_reinforcement _ _ _ _ _ _ HB (reinforcement_key ws (rf_version_id rf) id, v) rf); [|done..].
  apply elem_of_entries_with_prefix. split; [done|].
  unfold reinforcement_key, reinforcement_workspace_prefix. apply scoped_prefix.
Qed.

(** Keys of other workspaces, and of kinds a deletion does not touch, stay. *)
Definition touched_kinds : list string :=
  log_kinds ++ ["deletion-plan"; "assertion"; "head"; "lifecycle-current"; "lifecycle-history"; "version";
    "derivation"; "evidence"; "observation"; "observation-by-evidence"; "reinforcement"; "recall-snapshot";
    "deletion-tombstone"].

Lemma exec_scoped o : o ∈ ops → ∃ q l, q ∈ touched_kinds ∧ small q ∧ op_key o = scoped_key q ws l.
Proof using HB.
  intros Ho. apply (exec_op_of _ _ _ _ _ _ _ HB) in Ho. unfold touched_kinds.
  destruct Ho as [log x Hl Hx| | | | | | | | | | | | | |];
    try (eexists _, _; split; [|split; [|reflexivity]]; [|reflexivity];
         refine (bool_decide_unpack (_ ∈ _ ++ _) _); by vm_compute).
  exists x.1.1, x.1.2. destruct (log_kind _ _ _ _ _ Hl Hx). rewrite elem_of_app. auto.
Qed.

Lemma others_stay q w l :
  small q → q ∉ touched_kinds ∨ small w ∧ w ≠ ws → m' !! scoped_key q w l = m !! scoped_key q w l.
Proof using HB Hws.
  intros Hq Hn. apply apply_batch_other. intros o Ho E.
  destruct (exec_scoped o Ho) as (q' & l' & Hq' & Hs & E'). rewrite E' in E. clear E'.
  apply scoped_kind in E as Ek; [|done..]. subst q'. destruct Hn as [?|[Hw Hne]]; [done|].
  rewrite !scoped_components in E. apply app_same_length in E as [_ E]; [|done].
  apply component_app_inj in E as [_ E]; [|done..]. cbn [components foldr] in E.
  apply component_app_inj in E as [E _]; [|done..]. by apply Hne.
Qed.
End effects.

(** ** Executions *)

Section executions.
Context `{!UnicodeNormalization, !CharTables, !ContentCodec, !LedgerCodec, !SnapshotCodec, !PlanCodec, !DeletionCodec, !Sha256, !Hmac}.
Context {S : Type} `{!StorageBackend S, Hst : !StorageLaws S} (key : list Z).
Implicit Types (s : S) (p : MemoryAccessProof) (r : ExecuteMemoryDeletionRequest) (plan : MemoryDeletionPlan).

Definition context_of (uuid : nat → string) r plan (n : Z) : DeletionTombstoneContext :=
  mkTombstoneContext (xr_workspace_id r) (xr_namespace r) (dp_plan_id plan) (new_id uuid 0 "mem_dx")
    (new_id uuid 1 "mem_m") (xr_policy_decision_id r) n (xr_committed_at_ms r).

(** The mutation an execution logs. *)
Record deletion_logged r plan (n : Z) (mu : MemoryMutation) (e : MemoryDeletionExecution) : Prop := {
  dl_operation : mm_operation mu = MRetentionDelete;
  dl_workspace : mm_workspace_id mu = xr_workspace_id r;
  dl_sequence : mm_committed_sequence mu = n;
  dl_inputs : mm_input_version_ids mu = dp_affected_version_ids plan;
  dl_outputs : mm_output_version_ids mu = [de_execution_id e];
  dl_plan : mm_assertion_id mu = dp_plan_id plan ∧ de_plan_id e = dp_plan_id plan;
  dl_digest : de_plan_sha256 e = dp_plan_sha256 plan;
  dl_mutation : de_mutation_id e = mm_mutation_id mu;
  dl_number : de_committed_sequence e = n;
  dl_principal : mm_principal_id mu = xr_principal_id r;
  dl_key : mm_idempotency_key_sha256 mu = sha256_hex (xr_idempotency_key r);
}.

Definition receipt_for plan (e : MemoryDeletionExecution) : ExecuteMemoryDeletionReceipt :=
  mkDeletionReceipt Committed e (dp_affected_assertion_ids plan) (dp_affected_version_ids plan)
    (dp_affected_evidence_ids plan) (dp_affected_observation_ids plan) (dp_affected_reinforcement_ids plan)
    (dp_affected_snapshot_ids plan).

Lemma execution_commit_ok uuid s p r plan request_sha n rc b :
  execution_commit uuid s p r plan (sha256_hex (xr_idempotency_key r)) request_sha n = Ok (rc, b) →
  ∃ mu e ops, b = Some ops ∧ exec_batch (context_of uuid r plan n) s plan mu e ops ∧
    deletion_logged r plan n mu e ∧ rc = receipt_for plan e ∧ e = xc_execution rc ∧
    de_execution_id e = new_id uuid 0 "mem_dx".
Proof using Hst.
  unfold execution_commit. intros E.
  apply bind_ok in E as ([] & _ & E). apply bind_ok in E as ([] & _ & E). apply bind_ok in E as ([] & _ & E).
  apply bind_ok in E as (log & El & E). apply bind_ok in E as (selected & Es & E).
  apply bind_ok in E as (erased & Ee & E). apply bind_ok in E as ([] & _ & E). apply bind_ok in E as ([] & _ & E).
  apply bind_ok in E as (proofs & Ep & E). injection E as <- <-.
  match type of El with lseq [_; put_record _ ?mu; _; _; _] = _ => set (mu0 := mu) in * end.
  match type of Ep with lseq ([put_record _ ?x; _] ++ _) = _ => set (e0 := x) in * end.
  repeat match type of El with
         | lseq (_ :: _) = _ => let y := fresh "y" in let l := fresh "l" in
             apply collect_cons in El as (y & l & (? & ? & ->)%put_record_ok & El & ->)
         | collect _ (_ :: _) = _ => let y := fresh "y" in let l := fresh "l" in
             apply collect_cons in El as (y & l & (? & ? & ->)%put_record_ok & El & ->)
         end.
  injection El as <-. do 2 apply collect_cons in Ep as (? & ? & (? & ? & ->)%put_record_ok & Ep & ->).
  exists mu0, e0. eexists. split; [reflexivity|]. split; [|by repeat split].
  match goal with |- exec_batch _ _ _ _ _ ([Put _ ?b1; Put _ ?b2; Put _ ?b3; Put _ ?b4; Put _ ?b5] ++ _ :: _ ++ Put _ ?b6 :: Put _ ?b7 :: ?l) =>
    refine (exec_batch_of uuid (context_of uuid r plan n) s p plan mu0 e0 [("meta", [], b1); ("mutation-sequence", [seq8 n], b2);
      ("mutation-id", [mm_mutation_id mu0], b3); ("outbox", [seq8 n], b4);
      ("policy-decision", [xr_policy_decision_id r], b5); ("deletion-execution", [de_execution_id e0], b6);
      ("idempotency", [mm_principal_id mu0; operation_name (mm_operation mu0); mm_idempotency_key_sha256 mu0], b7)]
      selected erased l _ _ _ _) end.
  - split; [reflexivity|..]; (eexists; split; [|repeat first [by left|right]]); assumption.
  - by apply selector_tombstone_ok in Es.
  - exact Ee.
  - exact Ep.
Qed.

(** The plan an execution runs, and the checks it passed. *)
Record executable (m : gmap string string) p r plan : Prop := {
  ex_plan : m !! deletion_plan_key (xr_workspace_id r) (xr_plan_id r) ≫= of_json = Some plan;
  ex_valid : plan_validate plan = Ok tt;
  ex_identity : dp_workspace_id plan = xr_workspace_id r ∧ dp_plan_id plan = xr_plan_id r ∧
    dp_namespace plan = xr_namespace r;
  ex_digest : dp_plan_sha256 plan = xr_plan_sha256 r;
  ex_scope : dp_access_scope_sha256 plan = access_scope_sha256 (grant p);
  ex_expiry : xr_committed_at_ms r < dp_expires_at_ms plan;
  ex_fresh : seq_at m (xr_workspace_id r) = dp_created_sequence plan;
}.

Lemma load_plan_some s ws id plan :
  load_deletion_plan_unlocked s ws id = Ok (Some plan) →
  sb_view s !! deletion_plan_key ws id ≫= of_json = Some plan ∧ plan_validate plan = Ok tt ∧
  dp_workspace_id plan = ws ∧ dp_plan_id plan = id.
Proof using Hst.
  unfold load_deletion_plan_unlocked, load_record. intros E. binds E. apply lstored_ok, sb_get_ok in E0. subst x.
  destruct (sb_view s !! deletion_plan_key ws id) as [b|]; [|discriminate]. binds E.
  apply lcorrupt_ok in E1. apply decode_some in E0. injection E as <-.
  apply negb_false_iff, andb_true_iff in E2 as [I1%String.eqb_eq I2%String.eqb_eq]. by repeat split.
Qed.

Lemma plan_ids_small plan k id : plan_validate plan = Ok tt → id ∈ targets plan k → small id.
Proof using.
  unfold plan_validate. intros V Hid.
  apply bind_ok in V as (? & _ & V). apply bind_ok in V as (? & _ & V). apply bind_ok in V as (? & _ & V).
  apply bind_ok in V as (? & _ & V). apply bind_ok in V as (? & _ & V).
  apply bind_ok in V as ([] & V1 & V). apply bind_ok in V as ([] & V2 & V). apply bind_ok in V as ([] & V3 & V).
  apply bind_ok in V as ([] & V4 & V). apply bind_ok in V as ([] & V5 & V). apply bind_ok in V as ([] & V6 & V).
  assert (∀ f l, validate_deletion_ids f l = Ok tt → id ∈ l → small id) as Hs.
  { unfold validate_deletion_ids. intros f l Hl Hi. binds Hl. apply unique_ids_ok in E0 as [_ Hf].
    rewrite Forall_forall in Hf. by apply Hf. }
  destruct k; cbn in Hid; [by apply elem_of_nil in Hid|eapply Hs; [|exact Hid]; eassumption..].
Qed.

Lemma execute_request_small r : validate_execute_deletion_request r = Ok tt → small (xr_workspace_id r).
Proof using. unfold validate_execute_deletion_request. intros V. binds V. by apply local_id_small in E. Qed.

(** A committed execution: the plan, its batch, and what it logs. *)
Lemma execute_committed uuid s p r rc b :
  execute_deletion_plan key uuid s p r = Ok (rc, b) → xc_outcome rc = Committed →
  ∃ plan n mu e ops, b = Some ops ∧ executable (sb_view s) p r plan ∧
    n = dp_created_sequence plan + 1 ∧ n ≤ u64_max ∧ small (xr_workspace_id r) ∧
    exec_batch (context_of uuid r plan n) s plan mu e ops ∧ deletion_logged r plan n mu e ∧
    rc = receipt_for plan e ∧ de_execution_id e = new_id uuid 0 "mem_dx".
Proof using Hst.
  unfold execute_deletion_plan. intros E Ho. apply bind_ok in E as ([] & _ & E).
  apply bind_ok in E as ([] & V%execute_request_small & E). apply bind_ok in E as (sha & _ & E).
  apply bind_ok in E as ([i|] & _ & E).
  { exfalso. apply bind_ok in E as (x & _ & E). apply bind_ok in E as (x' & _ & E).
    apply bind_ok in E as (rc' & Er & E). injection E as <- _. unfold deletion_receipt_unlocked in Er.
    apply bind_ok in Er as (rows & _ & Er). apply bind_ok in Er as (found & _ & Er). binds Er.
    injection Er as <-. discriminate Ho. }
  apply bind_ok in E as ([] & _ & E). apply bind_ok in E as (po & El & E). apply bind_ok in E as (plan & Ep & E).
  apply ok_or_ok in Ep as ->. apply load_plan_some in El as (Hp & Hv & Hw & Hi). binds E.
  apply orb_false_iff in E0 as [E0 Esc]. apply orb_false_iff in E0 as [E0 Edg].
  apply negb_false_iff, String.eqb_eq in E0, Edg, Esc. apply Z.leb_gt in E1.
  apply current_sequence_at in E2. apply negb_false_iff, Z.eqb_eq in E3. apply ok_or_ok in E4.
  apply execution_commit_ok in E as (mu & e & ops & -> & HB & Hl & -> & _ & He). rename x0 into n.
  unfold checked_add in E4. destruct (x + 1 <=? u64_max) eqn:Eu; [|discriminate]. injection E4 as <-. apply Z.leb_le in Eu.
  exists plan, (x + 1), mu, e, ops. split_and!; try done; [|congruence].
  split; try done. congruence.
Qed.

(** The versions of an assertion, as the execution finds them. *)
Lemma assertion_versions_spec s ws versions aid :
  assertion_versions s ws = Ok versions →
  ∀ vid, vid ∈ default [] (versions !! aid) ↔
    ∃ v, kept s (version_prefix ws) v ∧ mv_assertion_id v = aid ∧ mv_version_id v = vid.
Proof using Hst.
  unfold assertion_versions, kept. intros E. apply bind_ok in E as (rows & ->%scan_rows & E). revert E.
  apply (lfold_ind _ (λ rows versions, ∀ vid, vid ∈ default [] (versions !! aid) ↔
    ∃ v, (∃ row, row ∈ rows ∧ of_json row.2 = Some v) ∧ mv_assertion_id v = aid ∧ mv_version_id v = vid)).
  { intros vid. rewrite lookup_empty. split; [by intros ?%elem_of_nil|].
    by intros (v & (row & ?%elem_of_nil & _) & _). }
  intros seen row acc acc' IH E vid. binds E. apply decode_some in E0. injection E as <-. rename x into v.
  assert (vid ∈ default [] (<[mv_assertion_id v:=default [] (acc !! mv_assertion_id v) ++ [mv_version_id v]]> acc !! aid)
    ↔ vid ∈ default [] (acc !! aid) ∨ (mv_assertion_id v = aid ∧ mv_version_id v = vid)) as ->.
  { destruct (decide (mv_assertion_id v = aid)) as [<-|Hne].
    - rewrite lookup_insert_eq. cbn. rewrite elem_of_app, list_elem_of_singleton. naive_solver.
    - rewrite lookup_insert_ne by done. naive_solver. }
  rewrite IH. split.
  - intros [(v' & (row' & Hr & Hj) & Hv)|Hv]; [exists v'|exists v]; (split; [|done]).
    + exists row'. rewrite elem_of_app. auto.
    + exists row. rewrite elem_of_app. split; [right; by left|done].
  - intros (v' & (row' & [Hr|Hr]%elem_of_app & Hj) & Hv); [left; eauto 6|].
    apply list_elem_of_singleton in Hr as ->. right. congruence.
Qed.

Lemma all_go_spec s ws plan versions aid :
  assertion_versions s ws = Ok versions →
  (∃ v, kept s (version_prefix ws) v ∧ mv_assertion_id v = aid) →
  (∀ v, kept s (version_prefix ws) v → mv_assertion_id v = aid → mv_version_id v ∈ dp_affected_version_ids plan) →
  all_go plan versions aid = true.
Proof using Hst.
  intros Hs (v & Hv & Ha) Hall. pose proof (assertion_versions_spec _ _ _ aid Hs) as Hspec. unfold all_go.
  destruct (versions !! aid) as [ids|]; cbn in Hspec.
  - apply forallb_forall. intros vid Hin%list_elem_of_In. apply bool_decide_eq_true. unfold planned_versions.
    apply elem_of_list_to_set. apply Hspec in Hin as (v' & Hv' & Ha' & <-). by apply Hall.
  - exfalso. eapply elem_of_nil, Hspec. eauto.
Qed.
End executions.
