(* ===== verification/DeletionRuns.v ===== *)
(** * What deletion guarantees

    An execution that is answered as committed has erased what its plan lists and
    left a proof of each target; what is no target is untouched. Whatever calls
    follow, nothing that matches the selector is written again. *)

From Stdlib Require Import Ascii.
From S2P Require Import Prelude Float32 Text Sorting Storage Hex Keys Filter Knowledge MemoryContracts LedgerModel Ledger Recall Deletion LedgerProps LedgerState LedgerSteps LedgerExample DeletionExample LedgerRuns DeletionPlans DeletionProps.

Section executions.
Context `{!UnicodeNormalization, !CharTables, !ContentCodec, !LedgerCodec, !SnapshotCodec, !PlanCodec, !DeletionCodec, !Sha256, !Hmac}.

(** What serde_json gives back of the records of deletion. *)
Class DeletionCodecLaws := {
  law_plan :: SerdeLaw MemoryDeletionPlan;
  law_tombstone :: SerdeLaw MemoryDeletionTombstone;
  law_execution :: SerdeLaw MemoryDeletionExecution;
}.

Context {Hlaws : LedgerCodecLaws} {Hdel : DeletionCodecLaws}.
Context {S : Type} `{!StorageBackend S, Hst : !StorageLaws S} (key : list Z).
Implicit Types (s : S) (p : MemoryAccessProof) (ws : string).



Section batch.
Context (uuid : nat → string) (s : S) (p : MemoryAccessProof) (r : ExecuteMemoryDeletionRequest)
  (plan : MemoryDeletionPlan) (n : Z) (mu : MemoryMutation) (e : MemoryDeletionExecution)
  (ops : list BatchOperation).
Abbreviation c := (context_of uuid r plan n).
Context (HB : exec_batch c s plan mu e ops) (Hx : executable (sb_view s) p r plan)
  (Hws : small (xr_workspace_id r)) (Hlog : deletion_logged r plan n mu e).



End batch.

End executions.

(** ** Calls after a deletion *)



Section calls.
Context `{!UnicodeNormalization, !CharTables, !ContentCodec, !LedgerCodec, !SnapshotCodec, !PlanCodec, !DeletionCodec, !Sha256, !Hmac}.
Context {Hlaws : LedgerCodecLaws} {Hdel : DeletionCodecLaws}.
Context {S : Type} `{!StorageBackend S, Hst : !StorageLaws S} (key : list Z).
Implicit Types (s : S) (ws : string).



(** *** Tombstones stay *)























(** *** The guard of the writing operations *)







End calls.

(** ** A deletion that was run *)

Module DeletionRunExamples.
Export DeletionExample.

#[local] Instance example_laws : DeletionCodecLaws := {|
  law_plan := plan_law; law_tombstone := tombstone_law; law_execution := execution_law |}.





(** *** Two surprises *)

(** [get_mutation] takes the first output of a mutation for a version; that of a
    deletion is its execution, so its reader is told that the state is corrupt. *)
Example deletion_hides_its_mutation :
  get_mutation demo_key done_.2 (demo_proof "w" "memory.history") "w" 5
  = Err (LCorruptState "mutation references missing version").
Proof. vm_compute. reflexivity. Qed.

(** A tombstone is kept per target. A second deletion by the same selector writes
    the one of the selector anew, and a retry of the first no longer finds its own. *)
Definition planned_again : LResult MemoryDeletionPlan * RocksDbBackend MemDB :=
  plan_deletion demo_key (demo_uuid "k") done_.2 planner ask.
Definition order_again : ExecuteMemoryDeletionRequest :=
  mkExecuteRequest "w" "team" (dp_plan_id (answer no_plan planned_again.1)) (dp_plan_sha256 (answer no_plan planned_again.1))
    "alice" None "work" "auth1" "p10" "k10" "asked to" 50.
Definition done_again : LResult ExecuteMemoryDeletionReceipt * RocksDbBackend MemDB :=
  execute_deletion demo_key (demo_uuid "l") planned_again.2 executor order_again.
Definition retried (s : RocksDbBackend MemDB) : LResult ExecuteMemoryDeletionReceipt :=
  (execute_deletion demo_key (demo_uuid "m") s executor (order "k9" "p9")).1.

Example second_deletion_breaks_retry :
  is_ok (retried done_.2) = true ∧ is_ok done_again.1 = true ∧
  retried done_again.2 = Err (LCorruptState "deletion execution is missing one or more proof tombstones").
Proof. split_and!; vm_compute; reflexivity. Qed.
End DeletionRunExamples.
