(* ===== verification/Jobs.v ===== *)
(** * The queue of compiler jobs

    [crates/storage/src/memory.rs]: the scheduler of compiler jobs the memory
    ledger keeps next to its records: enqueueing, claiming under a lease,
    completing and failing. Contracts of the records are those of [Compiler]. *)

From Stdlib Require Import Ascii.
From S2P Require Import Prelude Float32 Text Sorting Storage Hex Keys Filter Knowledge MemoryContracts Compiler LedgerModel Ledger.

(** serde_json on the records of the queue. *)
Class JobCodec := {
  serde_job :: Serde MemoryCompilerJob;
  serde_job_status :: Serde MemoryCompilerJobStatus;
  serde_job_failure :: Serde MemoryCompilerJobFailure;
}.

Record ClaimedMemoryCompilerJob := mkClaimed {
  cl_job : MemoryCompilerJob;
  cl_status : MemoryCompilerJobStatus;
}.

Definition compiler_job_key (ws id : string) : string := scoped_key "compiler-job" ws [id].
Definition compiler_job_prefix (ws : string) : string := scoped_key "compiler-job" ws [].
Definition compiler_job_status_key (ws id : string) : string := scoped_key "compiler-job-status" ws [id].
Definition compiler_job_failure_key (ws id : string) (attempt : Z) : string :=
  scoped_key "compiler-job-failure" ws [id; ver4 attempt].

(** [24 * 60 * 60 * 1_000]. *)
Definition MAX_LEASE_MS : Z := 24 * 60 * 60 * 1000.

(** [map_err(|error| MemoryLedgerError::InvalidRequest(..))]. *)
Definition job_request {A} (msg : string) (r : MemoryCompilerResult A) : LResult A :=
  match r with Ok a => Ok a | Err _ => Err (LInvalidRequest msg) end.

Definition job_cmp (a b : MemoryCompilerJob) : comparison :=
  then_with (jb_scheduled_at_ms a ?= jb_scheduled_at_ms b) (bytes_cmp (jb_job_id a) (jb_job_id b)).

(** What a claim decides about one job. *)
Inductive claim_decision :=
| ClaimSkip
| ClaimBury (operations : list BatchOperation)
| ClaimTake (status : MemoryCompilerJobStatus) (operations : list BatchOperation).

Section jobs.
Context `{!ContentCodec, !CompilerCodec, !LedgerCodec, !JobCodec, !Sha256, !Hmac}.
Context {S : Type} `{!StorageBackend S} (key : list Z).
Implicit Types (s : S) (p : MemoryAccessProof) (ws id worker : string).

(** ** Records *)

Definition load_compiler_job_unlocked s ws id : LResult (option MemoryCompilerJob) :=
  let? bytes := lstored (sb_get s (compiler_job_key ws id)) in
  match bytes with
  | None => Ok None
  | Some bytes =>
      let? j := decode_record bytes "compiler job" in
      let? _ := lcorrupt "invalid compiler job" (job_validate j) in
      if negb (String.eqb (jb_workspace_id j) ws) || negb (String.eqb (jb_job_id j) id) then
        Err (LCorruptState "compiler job key and payload differ")
      else Ok (Some j)
  end.

Definition load_compiler_job_status_unlocked s ws id : LResult (option MemoryCompilerJobStatus) :=
  let? bytes := lstored (sb_get s (compiler_job_status_key ws id)) in
  match bytes with
  | None => Ok None
  | Some bytes =>
      let? st := decode_record bytes "compiler job status" in
      if negb (String.eqb (js_workspace_id st) ws) || negb (String.eqb (js_job_id st) id) then
        Err (LCorruptState "compiler job status key and payload differ")
      else Ok (Some st)
  end.

Definition failure_id_material (j : MemoryCompilerJob) (attempt : Z) (worker error_code : string) (at_ms : Z)
    : string :=
  jb_job_id j +:+ NUL +:+ pretty attempt +:+ NUL +:+ worker +:+ NUL +:+ error_code +:+ NUL +:+ pretty at_ms.

Definition compiler_job_failure (j : MemoryCompilerJob) (attempt : Z) (worker error_code : string)
    (retryable : bool) (failed_at_ms : Z) : LResult MemoryCompilerJobFailure :=
  let failure_id :=
    "compiler_failure_" +:+ sha256_hex (failure_id_material j attempt worker error_code failed_at_ms) in
  let failure := mkJobFailure MEMORY_SCHEMA_VERSION failure_id (jb_workspace_id j) (jb_job_id j) attempt
                   worker error_code retryable failed_at_ms in
  let? _ := job_request "invalid compiler job failure" (failure_validate failure j) in
  Ok failure.

(** ** Enqueueing *)

Definition pending_status (j : MemoryCompilerJob) : MemoryCompilerJobStatus :=
  mkJobStatus MEMORY_SCHEMA_VERSION (jb_job_id j) (jb_workspace_id j) JPending 0 (jb_scheduled_at_ms j)
    None None None None (jb_created_at_ms j).

Definition ensure_observation s p (j : MemoryCompilerJob) (oid : string) : LResult unit :=
  let? o := load_observation_unlocked s (jb_workspace_id j) oid in
  let? o := ok_or o (LInvalidRequest "compiler job references unknown observation") in
  if negb (String.eqb (ms_namespace (ob_scope o)) (jb_namespace j)) then Err UnauthorizedAccess
  else if g_system_job (grant p) then Ok tt
  else
    let? admitted := authorize_record_scope p (ob_scope o) in
    if negb admitted then Err UnauthorizedAccess else Ok tt.

Definition enqueue_compiler_job_plan s p (j : MemoryCompilerJob) : lplan bool :=
  let ws := jb_workspace_id j in
  let? _ := authorize_workspace_capability key p ws ["memory.admin"] in
  let? _ := authorize_namespace p (jb_namespace j) in
  let? _ := job_request "invalid compiler job" (job_validate j) in
  if negb (g_system_job (grant p))
     && negb (String.eqb (jb_created_by_principal_id j) (g_principal_id (grant p))) then
    Err UnauthorizedAccess
  else
    let? _ := lall (ensure_observation s p j) (jb_observation_ids j) in
    let? bytes := lstored (sb_get s (compiler_job_key ws (jb_job_id j))) in
    match bytes with
    | Some bytes =>
        let? existing := decode_record bytes "compiler job" in
        if bool_decide (existing ≠ j) then
          Err (LInvalidRequest "compiler job ID is already bound to different immutable fields")
        else Ok (false, None)
    | None =>
        let status := pending_status j in
        let? _ := job_request "invalid compiler job status" (status_validate status j) in
        let? operations := lseq [put_record (compiler_job_key ws (jb_job_id j)) j;
                                 put_record (compiler_job_status_key ws (jb_job_id j)) status] in
        Ok (true, Some operations)
    end.

Definition enqueue_compiler_job s p (j : MemoryCompilerJob) : LResult bool * S :=
  lcommit s (enqueue_compiler_job_plan s p j).

Definition get_compiler_job s p ws id : LResult (option (MemoryCompilerJob * MemoryCompilerJobStatus)) :=
  let? _ := authorize_workspace_capability key p ws ["memory.admin"] in
  let? _ := validate_local_id "workspace_id" ws in
  let? _ := validate_local_id "job_id" id in
  let? job := load_compiler_job_unlocked s ws id in
  match job with
  | None => Ok None
  | Some j =>
      let? _ := authorize_namespace p (jb_namespace j) in
      let? st := load_compiler_job_status_unlocked s ws id in
      let? st := ok_or st (LCorruptState "compiler job has no scheduler status") in
      let? _ := lcorrupt "compiler job has invalid status" (status_validate st j) in
      Ok (Some (j, st))
  end.

(** ** Claiming *)

(** A job of a scan, if its namespace is one of the proof. *)
Definition scanned_job p ws (row : KV) : LResult (option MemoryCompilerJob) :=
  let? j := decode_record row.2 "compiler job" in
  let? _ := lcorrupt "compiler job is invalid" (job_validate j) in
  if negb (String.eqb (jb_workspace_id j) ws) then
    Err (LCorruptState "compiler job key and workspace differ")
  else Ok (if is_ok (authorize_namespace p (jb_namespace j)) then Some j else None).

Definition expired_running (st : MemoryCompilerJobStatus) (now : Z) : bool :=
  bool_decide (js_state st = JRunning)
  && match js_lease_expires_at_ms st with Some expiry => expiry <=? now | None => false end.

Definition eligible_pending (st : MemoryCompilerJobStatus) (now : Z) : bool :=
  bool_decide (js_state st = JPending) && (js_next_attempt_at_ms st <=? now).

Definition buried_status (st : MemoryCompilerJobStatus) (last_error : option string) (now : Z)
    : MemoryCompilerJobStatus :=
  mkJobStatus (js_schema_version st) (js_job_id st) (js_workspace_id st) JDeadLetter (js_attempt_count st)
    (js_next_attempt_at_ms st) None None None (Some (default "MAX_ATTEMPTS_EXHAUSTED" last_error)) now.

Definition taken_status (st : MemoryCompilerJobStatus) (last_error : option string) (attempt : Z)
    worker (expiry now : Z) : MemoryCompilerJobStatus :=
  mkJobStatus (js_schema_version st) (js_job_id st) (js_workspace_id st) JRunning attempt
    (js_next_attempt_at_ms st) (Some worker) (Some expiry) None last_error now.

Definition claim_one s ws worker (now expiry : Z) (j : MemoryCompilerJob) : LResult claim_decision :=
  let? st := load_compiler_job_status_unlocked s ws (jb_job_id j) in
  let? st := ok_or st (LCorruptState "compiler job has no scheduler status") in
  let? _ := lcorrupt "compiler job has invalid status" (status_validate st j) in
  let expired := expired_running st now in
  if negb (eligible_pending st now) && negb expired then Ok ClaimSkip
  else
    let? failed :=
      (if expired then
         let? failure := compiler_job_failure j (js_attempt_count st)
                           (default "expired-worker" (js_lease_owner_id st)) "LEASE_EXPIRED"
                           (js_attempt_count st <? jb_max_attempts j) now in
         let? operation := put_record (compiler_job_failure_key ws (jb_job_id j) (js_attempt_count st)) failure in
         Ok [operation]
       else Ok []) in
    let last_error := if expired then Some "LEASE_EXPIRED" else js_last_error_code st in
    if js_attempt_count st >=? jb_max_attempts j then
      let status := buried_status st last_error now in
      let? _ := lcorrupt "dead-letter transition is invalid" (status_validate status j) in
      let? operation := put_record (compiler_job_status_key ws (jb_job_id j)) status in
      Ok (ClaimBury (failed ++ [operation]))
    else
      let? attempt := ok_or (checked_add u32_max (js_attempt_count st) 1)
                        (LCorruptState "compiler job attempt count overflow") in
      let status := taken_status st last_error attempt worker expiry now in
      let? _ := lcorrupt "compiler job claim is invalid" (status_validate status j) in
      let? operation := put_record (compiler_job_status_key ws (jb_job_id j)) status in
      Ok (ClaimTake status (failed ++ [operation])).

(** The loop of [claim_next_compiler_job]: jobs whose attempts are exhausted are
    put away, each in its own batch, until one can be taken. *)
Fixpoint claim_first s ws worker (now expiry : Z) (jobs : list MemoryCompilerJob)
    : LResult (option ClaimedMemoryCompilerJob) * S :=
  match jobs with
  | [] => (Ok None, s)
  | j :: jobs =>
      match claim_one s ws worker now expiry j with
      | Err e => (Err e, s)
      | Ok ClaimSkip => claim_first s ws worker now expiry jobs
      | Ok (ClaimBury operations) =>
          match sb_write_batch_sync s operations with
          | (Ok _, s) => claim_first s ws worker now expiry jobs
          | (Err e, s) => (Err (LStorage e), s)
          end
      | Ok (ClaimTake status operations) =>
          lcommit s (Ok (Some (mkClaimed j status), Some operations))
      end
  end.

(** The checks of a claim, and the jobs it goes through, in their order. *)
Definition claim_candidates s p ws worker (now lease_duration_ms : Z) : LResult (Z * list MemoryCompilerJob) :=
  let? _ := authorize_workspace_capability key p ws ["memory.admin"] in
  let? _ := validate_local_id "workspace_id" ws in
  let? _ := validate_local_id "worker_id" worker in
  if (now =? 0) || (lease_duration_ms =? 0) || (lease_duration_ms >? MAX_LEASE_MS) then
    Err (LInvalidRequest "compiler job claim time and lease must be positive; lease cannot exceed 24 hours")
  else
    let? expiry := ok_or (checked_add u64_max now lease_duration_ms)
                     (LInvalidRequest "compiler job lease timestamp overflow") in
    let? rows := lstored (sb_scan_prefix_limited s (compiler_job_prefix ws) (Some 100000)) in
    let? jobs := collect (scanned_job p ws) rows in
    Ok (expiry, sort_by job_cmp (omap (λ j, j) jobs)).

Definition claim_next_compiler_job s p ws worker (now lease_duration_ms : Z)
    : LResult (option ClaimedMemoryCompilerJob) * S :=
  match claim_candidates s p ws worker now lease_duration_ms with
  | Err e => (Err e, s)
  | Ok (expiry, jobs) => claim_first s ws worker now expiry jobs
  end.

(** ** Completing and failing *)

(** The current, unexpired lease of the worker. *)
Definition holds_lease (st : MemoryCompilerJobStatus) worker (at_ms : Z) : bool :=
  bool_decide (js_state st = JRunning) && bool_decide (js_lease_owner_id st = Some worker)
  && match js_lease_expires_at_ms st with Some expiry => negb (expiry <? at_ms) | None => false end.

(** The job and the status under the lease of the worker. *)
Definition leased_job s p ws id worker (at_ms : Z) (msg : string)
    : LResult (MemoryCompilerJob * MemoryCompilerJobStatus) :=
  let? job := load_compiler_job_unlocked s ws id in
  let? j := ok_or job (LInvalidRequest "unknown compiler job") in
  let? _ := authorize_namespace p (jb_namespace j) in
  let? st := load_compiler_job_status_unlocked s ws id in
  let? st := ok_or st (LCorruptState "compiler job status is missing") in
  if negb (holds_lease st worker at_ms) then Err (LInvalidRequest msg) else Ok (j, st).

Definition completed_status (st : MemoryCompilerJobStatus) (plan_sha256 : string) (at_ms : Z)
    : MemoryCompilerJobStatus :=
  mkJobStatus (js_schema_version st) (js_job_id st) (js_workspace_id st) JSucceeded (js_attempt_count st)
    (js_next_attempt_at_ms st) None None (Some plan_sha256) None at_ms.

Definition complete_compiler_job_plan s p ws id worker (plan_sha256 : string) (completed_at_ms : Z)
    : lplan MemoryCompilerJobStatus :=
  let? _ := authorize_workspace_capability key p ws ["memory.admin"] in
  let? _ := validate_local_id "workspace_id" ws in
  let? _ := validate_local_id "job_id" id in
  let? _ := validate_local_id "worker_id" worker in
  let? _ := validate_sha256 "plan_sha256" plan_sha256 in
  if completed_at_ms =? 0 then
    Err (LInvalidRequest "compiler completion time must be greater than zero")
  else
    let? found := leased_job s p ws id worker completed_at_ms
                    "compiler job completion requires the current unexpired worker lease" in
    let (j, st) := (found : MemoryCompilerJob * MemoryCompilerJobStatus) in
    let status := completed_status st plan_sha256 completed_at_ms in
    let? _ := lcorrupt "compiler completion transition is invalid" (status_validate status j) in
    let? operations := lseq [put_record (compiler_job_status_key ws id) status] in
    Ok (status, Some operations).

Definition complete_compiler_job s p ws id worker (plan_sha256 : string) (completed_at_ms : Z)
    : LResult MemoryCompilerJobStatus * S :=
  lcommit s (complete_compiler_job_plan s p ws id worker plan_sha256 completed_at_ms).

Definition failed_status (st : MemoryCompilerJobStatus) (state : MemoryCompilerJobState)
    (error_code : string) (next_attempt_at_ms at_ms : Z) : MemoryCompilerJobStatus :=
  mkJobStatus (js_schema_version st) (js_job_id st) (js_workspace_id st) state (js_attempt_count st)
    next_attempt_at_ms None None None (Some error_code) at_ms.

Definition after_failure (j : MemoryCompilerJob) (st : MemoryCompilerJobStatus) (error_code : string)
    (retryable : bool) (retry_delay_ms failed_at_ms : Z) : LResult MemoryCompilerJobStatus :=
  if retryable && (js_attempt_count st <? jb_max_attempts j) then
    let? next := ok_or (checked_add u64_max failed_at_ms retry_delay_ms)
                   (LInvalidRequest "compiler retry timestamp overflow") in
    Ok (failed_status st JPending error_code next failed_at_ms)
  else Ok (failed_status st JDeadLetter error_code failed_at_ms failed_at_ms).

Definition fail_compiler_job_plan s p ws id worker (error_code : string) (retryable : bool)
    (retry_delay_ms failed_at_ms : Z) : lplan MemoryCompilerJobStatus :=
  let? _ := authorize_workspace_capability key p ws ["memory.admin"] in
  let? _ := validate_local_id "workspace_id" ws in
  let? _ := validate_local_id "job_id" id in
  let? _ := validate_local_id "worker_id" worker in
  let? _ := validate_local_id "error_code" error_code in
  if failed_at_ms =? 0 then Err (LInvalidRequest "compiler failure time must be greater than zero")
  else
    let? found := leased_job s p ws id worker failed_at_ms
                    "compiler job failure requires the current unexpired worker lease" in
    let (j, st) := (found : MemoryCompilerJob * MemoryCompilerJobStatus) in
    let? failure := compiler_job_failure j (js_attempt_count st) worker error_code retryable failed_at_ms in
    let? status := after_failure j st error_code retryable retry_delay_ms failed_at_ms in
    let? _ := lcorrupt "compiler failure transition is invalid" (status_validate status j) in
    let? operations := lseq [put_record (compiler_job_failure_key ws id (jf_attempt failure)) failure;
                             put_record (compiler_job_status_key ws id) status] in
    Ok (status, Some operations).

Definition fail_compiler_job s p ws id worker (error_code : string) (retryable : bool)
    (retry_delay_ms failed_at_ms : Z) : LResult MemoryCompilerJobStatus * S :=
  lcommit s (fail_compiler_job_plan s p ws id worker error_code retryable retry_delay_ms failed_at_ms).
End jobs.
