(* ===== verification/JobProps.v ===== *)
(** * What one call of the job queue does

    The keys of the queue do not collide; every batch it writes enqueues a job or
    moves the status of one job, with the record of the attempt that ended, and
    keeps every status valid and its attempts accounted for. *)

From Stdlib Require Import Ascii.
From S2P Require Import Prelude Float32 Text Sorting Storage Hex Keys Filter Knowledge MemoryContracts Compiler CompilerProps LedgerModel Ledger LedgerProps LedgerRuns LedgerReads Jobs.

(** ** Keys *)

Inductive jkey :=
| KJob (ws id : string)
| KJobStatus (ws id : string)
| KJobFailure (ws id : string) (attempt : Z).

#[global] Instance jkey_eq_dec : EqDecision jkey.
Proof. solve_decision. Defined.

Definition jenc (k : jkey) : string :=
  match k with
  | KJob ws id => compiler_job_key ws id
  | KJobStatus ws id => compiler_job_status_key ws id
  | KJobFailure ws id attempt => compiler_job_failure_key ws id attempt
  end.

Definition jkind (k : jkey) : string :=
  match k with
  | KJob _ _ => "compiler-job" | KJobStatus _ _ => "compiler-job-status"
  | KJobFailure _ _ _ => "compiler-job-failure"
  end.

Definition jparts (k : jkey) : list string :=
  match k with
  | KJob ws id | KJobStatus ws id => [ws; id]
  | KJobFailure ws id attempt => [ws; id; ver4 attempt]
  end.

(** The job a key belongs to. *)
Definition jscope (k : jkey) : string * string :=
  match k with KJob ws id | KJobStatus ws id | KJobFailure ws id _ => (ws, id) end.

Definition jok (k : jkey) : Prop :=
  small (jscope k).1 ∧ small (jscope k).2 ∧ match k with KJobFailure _ _ a => 0 ≤ a < 2 ^ 32 | _ => True end.

(** Keys of small parts. *)
Ltac jok_tac := unfold jok; cbn [jscope fst snd]; split_and!; first [done|lia].

Ltac joks_tac := repeat first [apply Forall_nil_2|apply Forall_cons_2; [jok_tac|]].

Lemma jenc_components k : jenc k = KEY_NAMESPACE +:+ component (jkind k) +:+ components (jparts k).
Proof. destruct k; apply scoped_components. Qed.

Lemma ver4_small n : small (ver4 n).
Proof. unfold small, byte_len, ver4. by rewrite string_of_bytes_length, be_bytes_length. Qed.

Lemma jparts_small k : jok k → Forall small (jparts k).
Proof. intros (Hw & Hi & _). destruct k; repeat constructor; auto using ver4_small. Qed.

Lemma jkind_small k : small (jkind k).
Proof. by destruct k. Qed.

Lemma jenc_inj k k' : jok k → jok k' → jenc k = jenc k' → k = k'.
Proof.
  intros Hk Hk'. rewrite !jenc_components. intros [_ E]%app_same_length; [|done].
  apply component_app_inj in E as [Ek E]; [|apply jkind_small..].
  apply components_inj in E; [|by apply jparts_small..].
  destruct k, k'; try discriminate Ek; cbn in E; try congruence.
  apply cons_inj_2 in E as [-> E]. apply cons_inj_2 in E as [-> E]. apply cons_inj_2 in E as [E _].
  apply ver4_inj in E as ->; [done|apply Hk|apply Hk'].
Qed.

(** The keys of the queue, whoever writes them. *)
Definition job_kinds : list string := ["compiler-job"; "compiler-job-status"; "compiler-job-failure"].

Definition job_key (k : string) : Prop :=
  ∃ kind rest, kind ∈ job_kinds ∧ k = KEY_NAMESPACE +:+ component kind +:+ rest.

Lemma jenc_job_key k : job_key (jenc k).
Proof.
  exists (jkind k), (components (jparts k)). split; [|apply jenc_components].
  unfold job_kinds. destruct k; cbn [jkind]; rewrite !elem_of_cons; auto.
Qed.

Lemma prefix_job_key k ws : starts_with k (compiler_job_prefix ws) = true → job_key k.
Proof.
  intros [rest ->]%starts_with_inv. exists "compiler-job", (components [ws] +:+ rest). split; [by left|].
  unfold compiler_job_prefix. by rewrite scoped_components, !app_assoc_str.
Qed.

(** The records of the ledger are under other keys. *)
Lemma ledger_key_spares k : ¬ job_key (kenc k).
Proof.
  intros (kind & rest & Hk & E). rewrite kenc_parts in E. apply app_same_length in E as [_ E]; [|done].
  assert (small kind) as Hs.
  { unfold job_kinds in Hk. rewrite !elem_of_cons, elem_of_nil in Hk. by destruct Hk as [-> |[-> |[-> |[]]]]. }
  apply component_app_inj in E as [E _]; [|apply kname_small|done]. subst kind.
  assert (Forall (λ n, n ∉ job_kinds) kind_names) as Hn by (refine (bool_decide_unpack _ _); by vm_compute).
  rewrite Forall_forall in Hn. apply (Hn (kname k)); [|done].
  assert (∀ k, kind_names !! ktag k = Some (kname k)) as Hl by (intros []; reflexivity).
  eapply list_elem_of_lookup_2, Hl.
Qed.

(** ** The abstract lease machine *)

(** A job waits until it is due, is held under a lease, is done, or is dead;
    always with the number of attempts it was given. *)
Inductive Lease :=
| Waiting (attempts due : Z)
| Held (attempts : Z) (worker : string) (until : Z)
| Done (attempts : Z) (plan : string)
| Dead (attempts : Z) (error : string).

Inductive jop :=
| JEnqueue (j : MemoryCompilerJob)
| JClaim (ws worker : string) (now lease : Z)
| JComplete (ws id worker plan : string) (at_ms : Z)
| JFail (ws id worker code : string) (retryable : bool) (delay at_ms : Z).

Inductive lease_step (ws id : string) (max : Z) : jop → Lease → Lease → Prop :=
| TakeDue worker now lease n due :
    due ≤ now → n < max →
    lease_step ws id max (JClaim ws worker now lease) (Waiting n due) (Held (n + 1) worker (now + lease))
| TakeOver worker now lease n other until :
    until ≤ now → n < max →
    lease_step ws id max (JClaim ws worker now lease) (Held n other until) (Held (n + 1) worker (now + lease))
| Bury worker now lease n other until :
    until ≤ now → n = max →
    lease_step ws id max (JClaim ws worker now lease) (Held n other until) (Dead n "LEASE_EXPIRED")
| Complete worker plan at_ms n until :
    at_ms ≤ until →
    lease_step ws id max (JComplete ws id worker plan at_ms) (Held n worker until) (Done n plan)
| Retry worker code delay at_ms n until :
    at_ms ≤ until → n < max →
    lease_step ws id max (JFail ws id worker code true delay at_ms) (Held n worker until) (Waiting n (at_ms + delay))
| GiveUp worker code retryable delay at_ms n until :
    at_ms ≤ until → retryable = false ∨ n = max →
    lease_step ws id max (JFail ws id worker code retryable delay at_ms) (Held n worker until) (Dead n code).

Definition lease_of (st : MemoryCompilerJobStatus) : Lease :=
  match js_state st with
  | JPending => Waiting (js_attempt_count st) (js_next_attempt_at_ms st)
  | JRunning => Held (js_attempt_count st) (default "" (js_lease_owner_id st)) (default 0 (js_lease_expires_at_ms st))
  | JSucceeded => Done (js_attempt_count st) (default "" (js_plan_sha256 st))
  | JDeadLetter => Dead (js_attempt_count st) (default "" (js_last_error_code st))
  end.

(** ** Moves of a status *)

(** The attempts that have ended without success. *)
Definition ended (st : MemoryCompilerJobStatus) : Z :=
  match js_state st with JRunning | JSucceeded => js_attempt_count st - 1 | _ => js_attempt_count st end.

Section moves.
Context `{!ContentCodec, !CompilerCodec, !JobCodec, !Sha256}.
Implicit Types (m : gmap string string) (ws id : string) (j : MemoryCompilerJob) (st : MemoryCompilerJobStatus).

(** The record of the attempt that ends. *)
Definition failure_of j st (f : MemoryCompilerJobFailure) : Prop :=
  failure_validate f j = Ok tt ∧ jf_attempt f = js_attempt_count st.

(** A job that can be claimed, with the record of the attempt that ended if its
    lease expired, and the last error it then has. *)
Inductive lapsed j st (now : Z) : option MemoryCompilerJobFailure → option string → Prop :=
| LapsedDue : eligible_pending st now = true → lapsed j st now None (js_last_error_code st)
| LapsedLease f :
    expired_running st now = true → failure_of j st f → lapsed j st now (Some f) (Some "LEASE_EXPIRED").

Inductive status_move j st : jop → MemoryCompilerJobStatus → option MemoryCompilerJobFailure → Prop :=
| MoveTake worker now lease fo err :
    lapsed j st now fo err → js_attempt_count st < jb_max_attempts j →
    status_move j st (JClaim (jb_workspace_id j) worker now lease)
      (taken_status st err (js_attempt_count st + 1) worker (now + lease) now) fo
| MoveBury worker now lease fo err :
    lapsed j st now fo err → jb_max_attempts j ≤ js_attempt_count st →
    status_move j st (JClaim (jb_workspace_id j) worker now lease) (buried_status st err now) fo
| MoveComplete worker plan at_ms :
    holds_lease st worker at_ms = true →
    status_move j st (JComplete (jb_workspace_id j) (jb_job_id j) worker plan at_ms)
      (completed_status st plan at_ms) None
| MoveRetry worker code delay at_ms f :
    holds_lease st worker at_ms = true → failure_of j st f → js_attempt_count st < jb_max_attempts j →
    status_move j st (JFail (jb_workspace_id j) (jb_job_id j) worker code true delay at_ms)
      (failed_status st JPending code (at_ms + delay) at_ms) (Some f)
| MoveDead worker code retryable delay at_ms f :
    holds_lease st worker at_ms = true → failure_of j st f →
    retryable = false ∨ jb_max_attempts j ≤ js_attempt_count st →
    status_move j st (JFail (jb_workspace_id j) (jb_job_id j) worker code retryable delay at_ms)
      (failed_status st JDeadLetter code at_ms at_ms) (Some f).

Lemma expired_running_ok st now :
  expired_running st now = true ↔ js_state st = JRunning ∧ ∃ e, js_lease_expires_at_ms st = Some e ∧ e ≤ now.
Proof.
  unfold expired_running. rewrite andb_true_iff, bool_decide_eq_true.
  destruct (js_lease_expires_at_ms st) as [e|]; [rewrite Z.leb_le|]; naive_solver.
Qed.

Lemma eligible_pending_ok st now :
  eligible_pending st now = true ↔ js_state st = JPending ∧ js_next_attempt_at_ms st ≤ now.
Proof. unfold eligible_pending. by rewrite andb_true_iff, bool_decide_eq_true, Z.leb_le. Qed.

Lemma holds_lease_ok st worker at_ms :
  holds_lease st worker at_ms = true ↔
  js_state st = JRunning ∧ js_lease_owner_id st = Some worker ∧
  ∃ e, js_lease_expires_at_ms st = Some e ∧ at_ms ≤ e.
Proof.
  unfold holds_lease. rewrite !andb_true_iff, !bool_decide_eq_true.
  destruct (js_lease_expires_at_ms st) as [e|]; [rewrite negb_true_iff, Z.ltb_ge|]; naive_solver.
Qed.

(** The state a move starts from. *)
Lemma move_from j st o st' fo : status_move j st o st' fo → js_state st = JPending ∨ js_state st = JRunning.
Proof.
  intros [? ? ? ? ? [Hl|f Hl Hf] Hn|? ? ? ? ? [Hl|f Hl Hf] Hn| | | ];
    try match goal with
    | E : holds_lease _ _ _ = true |- _ => apply holds_lease_ok in E as [? _]
    | E : eligible_pending _ _ = true |- _ => apply eligible_pending_ok in E as [? _]
    | E : expired_running _ _ = true |- _ => apply expired_running_ok in E as [? _]
    end; auto.
Qed.

(** An attempt ends with a record of its failure, or goes on, or succeeds. *)
Lemma move_ended j st o st' fo :
  status_move j st o st' fo → (js_state st = JPending → js_attempt_count st < jb_max_attempts j) →
  match fo with
  | Some f => failure_of j st f ∧ ended st' = ended st + 1 ∧ js_attempt_count st = ended st + 1
  | None => ended st' = ended st
  end.
Proof.
  unfold ended. intros [worker now lease fo' err Hl Hn|worker now lease fo' err Hl Hn|worker plan t Hh
    |worker code delay t f Hh Hf Hn|worker code r delay t f Hh Hf Hn] Hp.
  - destruct Hl as [[-> _]%eligible_pending_ok|f [-> _]%expired_running_ok Hf]; cbn; [lia|split_and!; [done|lia..]].
  - destruct Hl as [[Es _]%eligible_pending_ok|f [-> _]%expired_running_ok Hf]; cbn.
    + specialize (Hp Es). lia.
    + split_and!; [done|lia..].
  - apply holds_lease_ok in Hh as [-> _]. done.
  - apply holds_lease_ok in Hh as [-> _]. cbn. split_and!; [done|lia..].
  - apply holds_lease_ok in Hh as [-> _]. cbn. split_and!; [done|lia..].
Qed.

Lemma status_ids st j :
  status_validate st j = Ok tt →
  js_workspace_id st = jb_workspace_id j ∧ js_job_id st = jb_job_id j ∧
  js_attempt_count st ≤ jb_max_attempts j ∧ state_malformed st = false.
Proof.
  unfold status_validate. checks. rewrite !orb_false_iff, !negb_false_iff, !String.eqb_eq, Z.gtb_ltb, Z.ltb_ge.
  intros ((((((_ & Hid) & Hws) & Hn) & _) & _) & _ & _ & _ & Hs). done.
Qed.

Lemma running_lease st j :
  status_validate st j = Ok tt → js_state st = JRunning →
  1 ≤ js_attempt_count st ∨ js_attempt_count st < 0.
Proof.
  intros (_ & _ & _ & Hs)%status_ids Er. unfold state_malformed in Hs. rewrite Er in Hs.
  rewrite !orb_false_iff, Z.eqb_neq in Hs. lia.
Qed.

(** A move of the status is a step of the lease machine. *)
Lemma move_lease_step j st o st' fo :
  status_move j st o st' fo → status_validate st j = Ok tt →
  (js_state st = JPending → js_attempt_count st < jb_max_attempts j) →
  lease_step (jb_workspace_id j) (jb_job_id j) (jb_max_attempts j) o (lease_of st) (lease_of st').
Proof.
  intros Hm (_ & _ & Hle & _)%status_ids Hp. unfold lease_of.
  destruct Hm as [worker now lease fo' err Hl Hn|worker now lease fo' err Hl Hn|worker plan t Hh
    |worker code delay t f Hh Hf Hn|worker code r delay t f Hh Hf Hn]; cbn.
  - destruct Hl as [[-> Hd]%eligible_pending_ok|f (-> & e & -> & He)%expired_running_ok Hf]; cbn; by constructor.
  - destruct Hl as [[Es Hd]%eligible_pending_ok|f (-> & e & -> & He)%expired_running_ok Hf]; cbn.
    + specialize (Hp Es). lia.
    + constructor; [done|lia].
  - apply holds_lease_ok in Hh as (-> & -> & e & -> & He). by constructor.
  - apply holds_lease_ok in Hh as (-> & -> & e & -> & He). by constructor.
  - apply holds_lease_ok in Hh as (-> & -> & e & -> & He). constructor; [done|]. destruct Hn; [by left|right; lia].
Qed.
End moves.

(** ** Jobs in a store *)

(** serde_json reads back what it wrote of a record of integers, strings and
    lists of strings, and such a record always encodes. *)
Class JobCodecLaws `{!JobCodec} := {
  law_job :: SerdeLaw MemoryCompilerJob;
  law_job_status :: SerdeLaw MemoryCompilerJobStatus;
  law_job_failure :: SerdeLaw MemoryCompilerJobFailure;
  job_encodes (j : MemoryCompilerJob) : is_Some (json_of j);
  status_encodes (st : MemoryCompilerJobStatus) : is_Some (json_of st);
  failure_encodes (f : MemoryCompilerJobFailure) : is_Some (json_of f);
}.

Section batches.
Context `{!ContentCodec, !CompilerCodec, !JobCodec, Hlaws : !JobCodecLaws, !Sha256}.
Implicit Types (m : gmap string string) (ws id : string) (j : MemoryCompilerJob) (st : MemoryCompilerJobStatus).

Definition jrec {A} `{!Serde A} m (k : jkey) : option A := m !! jenc k ≫= of_json.
Definition job_at m ws id : option MemoryCompilerJob := jrec m (KJob ws id).
Definition status_at m ws id : option MemoryCompilerJobStatus := jrec m (KJobStatus ws id).
Definition failure_at m ws id (a : Z) : option MemoryCompilerJobFailure := jrec m (KJobFailure ws id a).

Definition no_job m ws id : Prop := ∀ k, jok k → jscope k = (ws, id) → m !! jenc k = None.

(** A job with its status, whose failed attempts, and only those, have a record. *)
Record job_wf m ws id j st : Prop := {
  jw_job : job_at m ws id = Some j;
  jw_status : status_at m ws id = Some st;
  jw_ids : jb_workspace_id j = ws ∧ jb_job_id j = id;
  jw_valid : job_validate j = Ok tt;
  jw_status_valid : status_validate st j = Ok tt;
  jw_attempts : 0 ≤ js_attempt_count st;
  jw_pending : js_state st = JPending → js_attempt_count st < jb_max_attempts j;
  jw_failures a : 1 ≤ a ≤ ended st →
    ∃ f, failure_at m ws id a = Some f ∧ failure_validate f j = Ok tt ∧ jf_attempt f = a;
  jw_no_failures a : 0 ≤ a < 2 ^ 32 → ¬ 1 ≤ a ≤ ended st → m !! jenc (KJobFailure ws id a) = None;
}.

Record jobs_inv m : Prop := {
  ji_jobs ws id : small ws → small id → no_job m ws id ∨ ∃ j st, job_wf m ws id j st;
  ji_keys ws k : small ws → starts_with k (compiler_job_prefix ws) = true → is_Some (m !! k) →
    ∃ id, k = jenc (KJob ws id) ∧ small id;
}.

(** A batch of the queue: a new job, or a move of a status with the record of
    the attempt it ends. *)
Definition failure_puts ws id (fo : option MemoryCompilerJobFailure) (L : list (jkey * string)) : Prop :=
  match fo with
  | None => L = []
  | Some f => ∃ b, json_of f = Some b ∧ L = [(KJobFailure ws id (jf_attempt f), b)]
  end.

Inductive jbatch (o : jop) m : string → string → list BatchOperation → Prop :=
| BatchNew j b1 b2 :
    o = JEnqueue j → job_validate j = Ok tt → status_validate (pending_status j) j = Ok tt →
    m !! jenc (KJob (jb_workspace_id j) (jb_job_id j)) = None →
    json_of j = Some b1 → json_of (pending_status j) = Some b2 →
    jbatch o m (jb_workspace_id j) (jb_job_id j) (kputs jenc [(KJob (jb_workspace_id j) (jb_job_id j), b1);
                            (KJobStatus (jb_workspace_id j) (jb_job_id j), b2)])
| BatchMove j st st' fo L b :
    job_at m (jb_workspace_id j) (jb_job_id j) = Some j → job_validate j = Ok tt →
    status_at m (jb_workspace_id j) (jb_job_id j) = Some st → status_validate st' j = Ok tt →
    status_move j st o st' fo → json_of st' = Some b →
    failure_puts (jb_workspace_id j) (jb_job_id j) fo L →
    jbatch o m (jb_workspace_id j) (jb_job_id j) (kputs jenc (L ++ [(KJobStatus (jb_workspace_id j) (jb_job_id j), b)])).

(** What a batch means for one job. *)
Inductive job_change (o : jop) m m' ws id : Prop :=
| Unchanged : (∀ k, jok k → jscope k = (ws, id) → m' !! jenc k = m !! jenc k) → job_change o m m' ws id
| Enqueued j :
    o = JEnqueue j → no_job m ws id → job_wf m' ws id j (pending_status j) → job_change o m m' ws id
| Moved j st st' fo :
    job_wf m ws id j st → job_wf m' ws id j st' → status_move j st o st' fo → job_change o m m' ws id.

(** Arguments of their machine type. *)
Definition jop_typed (o : jop) : Prop :=
  match o with
  | JEnqueue j => is_u32 (jb_max_attempts j)
  | JClaim _ _ now lease => is_u64 now ∧ is_u64 lease
  | JComplete _ _ _ _ at_ms => is_u64 at_ms
  | JFail _ _ _ _ _ delay at_ms => is_u64 delay ∧ is_u64 at_ms
  end.

Lemma compiler_id_small f v : validate_id f v = Ok tt → small v.
Proof using.
  unfold validate_id, Compiler.validate_text, small, MAX_MEMORY_ID_BYTES. checks.
  rewrite !orb_false_iff, Z.gtb_ltb, Z.ltb_ge. lia.
Qed.

Lemma job_validated j :
  job_validate j = Ok tt →
  small (jb_workspace_id j) ∧ small (jb_job_id j) ∧ jb_max_attempts j ≠ 0 ∧
  jb_max_attempts j ≤ MAX_MEMORY_COMPILER_JOB_ATTEMPTS.
Proof using.
  unfold job_validate. checks. rewrite !orb_false_iff, !Z.eqb_neq, !Z.gtb_ltb, !Z.ltb_ge.
  intros (_ & Hi%compiler_id_small & Hw%compiler_id_small & _ & _ & _ & _ & _ & _ & _ & [Hm Hx] & _). done.
Qed.

Lemma no_job_status m ws id : no_job m ws id → small ws → small id → status_at m ws id = None ∧ job_at m ws id = None.
Proof using. intros Hn Hw Hi. unfold status_at, job_at, jrec. by rewrite (Hn (KJobStatus ws id)), (Hn (KJob ws id)) by first [done|jok_tac]. Qed.

(** A stored job is well formed. *)
Lemma inv_job m ws id j :
  jobs_inv m → small ws → small id → job_at m ws id = Some j → ∃ st, job_wf m ws id j st.
Proof using.
  intros Hi Hw Hd Hj. destruct (ji_jobs _ Hi ws id Hw Hd) as [Hn|(j' & st & Hwf)].
  - destruct (no_job_status _ _ _ Hn Hw Hd) as [_ E]. congruence.
  - assert (j' = j) as -> by (destruct Hwf; congruence). by exists st.
Qed.

Lemma inv_new m ws id :
  jobs_inv m → small ws → small id → m !! jenc (KJob ws id) = None → no_job m ws id.
Proof using.
  intros Hi Hw Hd Hn. destruct (ji_jobs _ Hi ws id Hw Hd) as [Hj|(j' & st & Hwf)]; [done|].
  destruct Hwf as [Hj _ _ _ _ _ _ _ _]. unfold job_at, jrec in Hj. by rewrite Hn in Hj.
Qed.

Lemma attempts_small m ws id j st : job_wf m ws id j st → 0 ≤ js_attempt_count st < 2 ^ 32.
Proof using.
  intros [_ _ _ Hv Hs Hn _ _ _]. apply job_validated in Hv as (_ & _ & _ & Hx).
  apply status_ids in Hs as (_ & _ & Hle & _). unfold MAX_MEMORY_COMPILER_JOB_ATTEMPTS in Hx. lia.
Qed.

Lemma NoDup_two {A} (a b : A) : a ≠ b → NoDup [a; b].
Proof using. intros Hne. repeat constructor; rewrite ?list_elem_of_singleton, ?elem_of_nil; naive_solver. Qed.

(** The entries of a batch belong to one job. *)
Lemma jbatch_shape o m ws id ops :
  jobs_inv m → jbatch o m ws id ops →
  ∃ L, ops = kputs jenc L ∧ small ws ∧ small id ∧ NoDup L.*1 ∧ Forall (λ kv, jok kv.1) L ∧
    Forall (λ kv, jscope kv.1 = (ws, id)) L.
Proof using.
  intros Hi [j b1 b2 _ Hv _ _ _ _|j st st' fo L b Hj Hv Hst _ Hm _ HL];
    destruct (job_validated j Hv) as (Hw & Hd & _).
  - eexists _. split_and!; try done; [by apply NoDup_two|by repeat constructor..].
  - destruct (inv_job _ _ _ _ Hi Hw Hd Hj) as (st0 & Hwf).
    assert (st0 = st) as -> by (destruct Hwf; congruence). pose proof (attempts_small _ _ _ _ _ Hwf) as Ha.
    pose proof (move_ended _ _ _ _ _ Hm (jw_pending _ _ _ _ _ Hwf)) as He.
    eexists _. split; [done|]. split; [done|]. split; [done|]. destruct fo as [f|]; cbn in HL.
    + destruct HL as (bf & _ & ->). destruct He as ([_ Ef] & _ & _). split; [by apply NoDup_two|].
      repeat constructor; cbn; try done; lia.
    + subst L. split; [apply NoDup_singleton|]. by repeat constructor.
Qed.

Lemma jputs_other m L k :
  Forall (λ kv : jkey * string, jok kv.1) L → jok k → k ∉ L.*1 →
  apply_batch m (kputs jenc L) !! jenc k = m !! jenc k.
Proof using. apply (kputs_other jenc jok jenc_inj). Qed.

Lemma jputs_lookup m L k v :
  Forall (λ kv : jkey * string, jok kv.1) L → NoDup L.*1 → (k, v) ∈ L →
  apply_batch m (kputs jenc L) !! jenc k = Some v.
Proof using. apply (kputs_lookup jenc jok jenc_inj). Qed.

(** The records of other jobs stay. *)
Lemma jputs_other_job m L w ws id k :
  Forall (λ kv : jkey * string, jok kv.1) L → Forall (λ kv, jscope kv.1 = w) L →
  w ≠ (ws, id) → jok k → jscope k = (ws, id) → apply_batch m (kputs jenc L) !! jenc k = m !! jenc k.
Proof using.
  intros Hok Hs Hne Hk Ek. apply jputs_other; [done..|].
  intros ([k' v] & -> & Hin)%list_elem_of_fmap. rewrite Forall_forall in Hs. specialize (Hs _ Hin). by cbn in *; congruence.
Qed.

Lemma job_wf_agrees m m' ws id j st :
  small ws → small id → (∀ k, jok k → jscope k = (ws, id) → m' !! jenc k = m !! jenc k) →
  job_wf m ws id j st → job_wf m' ws id j st.
Proof using.
  intros Hw Hd Ha Hwf. pose proof (attempts_small _ _ _ _ _ Hwf) as Hc. destruct Hwf. split; try done.
  - unfold job_at, jrec in *. by rewrite Ha.
  - unfold status_at, jrec in *. by rewrite Ha.
  - intros a Hr. unfold failure_at, jrec in *. assert (0 ≤ a < 2 ^ 32) by (unfold ended in Hr; destruct (js_state st); lia).
    rewrite Ha; [by apply jw_failures0|jok_tac|done].
  - intros a Hr Hn. rewrite Ha; [by apply jw_no_failures0|jok_tac|done].
Qed.

Lemma batch_new o m j b1 b2 :
  jop_typed o → o = JEnqueue j → job_validate j = Ok tt → status_validate (pending_status j) j = Ok tt →
  no_job m (jb_workspace_id j) (jb_job_id j) → json_of j = Some b1 → json_of (pending_status j) = Some b2 →
  job_wf (apply_batch m (kputs jenc [(KJob (jb_workspace_id j) (jb_job_id j), b1);
                                     (KJobStatus (jb_workspace_id j) (jb_job_id j), b2)]))
    (jb_workspace_id j) (jb_job_id j) j (pending_status j).
Proof using Hlaws.
  intros Ht -> Hv Hs Hn Hb1 Hb2. destruct (job_validated j Hv) as (Hw & Hd & Hm0 & _).
  set (L := [_; _]). assert (Forall (λ kv : jkey * string, jok kv.1) L) as HL by (repeat constructor; done).
  assert (NoDup L.*1) as Hnd by by apply NoDup_two. cbn in Ht. unfold in_range in Ht.
  split; try done.
  - unfold job_at, jrec. rewrite (jputs_lookup m L _ b1); [|done|done|by left]. cbn. by apply serde_roundtrip.
  - unfold status_at, jrec. rewrite (jputs_lookup m L _ b2); [|done|done|by right; left]. cbn. by apply serde_roundtrip.
  - intros _. cbn. lia.
  - intros a Ha. cbn in Ha. lia.
  - intros a Ha _. rewrite jputs_other; [apply Hn; [jok_tac|done]|done|jok_tac|]. cbn. set_solver.
Qed.

(** The record of a failed attempt is new; the others stay. *)
Lemma failure_lookup m ws id fo L st' b a :
  failure_puts ws id fo L → small ws → small id → 0 ≤ a < 2 ^ 32 →
  (∀ f, fo = Some f → 0 ≤ jf_attempt f < 2 ^ 32) →
  let m' := apply_batch m (kputs jenc (L ++ [(KJobStatus ws id, b)])) in
  json_of st' = Some b →
  jrec m' (KJobStatus ws id) = Some st' ∧ m' !! jenc (KJob ws id) = m !! jenc (KJob ws id) ∧
  (failure_at m' ws id a = fo ∧ is_Some fo ∧ (jf_attempt <$> fo) = Some a ∨
   m' !! jenc (KJobFailure ws id a) = m !! jenc (KJobFailure ws id a) ∧ (jf_attempt <$> fo) ≠ Some a).
Proof using Hlaws.
  intros HL Hw Hd Ha Hf m' Hb. subst m'.
  assert (Forall (λ kv : jkey * string, jok kv.1) (L ++ [(KJobStatus ws id, b)])
          ∧ NoDup (L ++ [(KJobStatus ws id, b)]).*1 ∧
          ∀ k, k ∈ (L ++ [(KJobStatus ws id, b)]).*1 → k = KJobStatus ws id ∨ ∃ f, fo = Some f ∧ k = KJobFailure ws id (jf_attempt f))
    as (Hok & Hnd & Hk).
  { destruct fo as [f|]; cbn in HL; [destruct HL as (bf & _ & ->)|subst L]; split_and!.
    - specialize (Hf f eq_refl). joks_tac.
    - by apply NoDup_two.
    - cbn. intros k [-> | ->%list_elem_of_singleton]%elem_of_cons; eauto.
    - joks_tac.
    - apply NoDup_singleton.
    - cbn. intros k ->%list_elem_of_singleton. by left. }
  split_and!.
  - unfold jrec. rewrite (jputs_lookup _ _ _ b); [|done|done|apply elem_of_app; right; by left].
    cbn. by apply serde_roundtrip.
  - rewrite jputs_other; [done|done|jok_tac|]. intros [?|(f & _ & ?)]%Hk; discriminate.
  - destruct (decide ((jf_attempt <$> fo) = Some a)) as [E|E].
    + left. destruct fo as [f|]; [|discriminate]. injection E as <-. destruct HL as (bf & Hbf & ->).
      split_and!; [|by eexists|done]. unfold failure_at, jrec. rewrite (jputs_lookup _ _ _ bf); [|done|done|by left].
      cbn. by apply serde_roundtrip.
    + right. split; [|done]. rewrite jputs_other; [done|done|jok_tac|].
      intros [?|(f & -> & [= ->])]%Hk; [discriminate|]. by apply E.
Qed.

Lemma move_typed j st o st' fo :
  status_move j st o st' fo → js_attempt_count st' = js_attempt_count st ∨ js_attempt_count st' = js_attempt_count st + 1.
Proof using. intros []; auto. Qed.

Lemma move_pending j st o st' fo :
  status_move j st o st' fo → js_state st' = JPending → js_attempt_count st' < jb_max_attempts j.
Proof using. by intros []. Qed.

Lemma batch_move o m j st st' fo L b :
  job_wf m (jb_workspace_id j) (jb_job_id j) j st → status_validate st' j = Ok tt → status_move j st o st' fo →
  json_of st' = Some b → failure_puts (jb_workspace_id j) (jb_job_id j) fo L →
  job_wf (apply_batch m (kputs jenc (L ++ [(KJobStatus (jb_workspace_id j) (jb_job_id j), b)])))
    (jb_workspace_id j) (jb_job_id j) j st'.
Proof using Hlaws.
  intros Hwf Hs Hm Hb HL. pose proof (attempts_small _ _ _ _ _ Hwf) as Hc. destruct Hwf.
  pose proof (move_ended _ _ _ _ _ Hm jw_pending0) as He. pose proof (move_typed _ _ _ _ _ Hm) as Ht.
  destruct (job_validated j jw_valid0) as (Hw & Hd & _).
  assert (∀ f, fo = Some f → 0 ≤ jf_attempt f < 2 ^ 32) as Hf.
  { intros f ->. destruct He as ([_ ->] & _). done. }
  pose proof (λ a Ha, failure_lookup m _ _ fo L st' b a HL Hw Hd Ha Hf Hb) as Hl.
  destruct (Hl 0) as (Hst & Hj & _); [lia|]. split; try done.
  - unfold job_at, jrec in *. by rewrite Hj.
  - lia.
  - by apply (move_pending _ _ _ _ _ Hm).
  - intros a Ha. assert (0 ≤ a < 2 ^ 32) as Ha'.
    { destruct fo as [f|]; [destruct He as (_ & E1 & E2)|]; unfold ended in *; destruct (js_state st); lia. }
    destruct (Hl a Ha') as (_ & _ & [(-> & [f ->] & [= <-])|(Hs' & Hne)]).
    + destruct He as ([Hv _] & _). by exists f.
    + unfold failure_at, jrec in *. rewrite Hs'. apply jw_failures0.
      destruct fo as [f|]; [|lia]. destruct He as ([_ Ef] & E1 & E2). cbn in Hne.
      assert (jf_attempt f ≠ a) by congruence. lia.
  - intros a Ha Hn. destruct (Hl a Ha) as (_ & _ & [(_ & [f ->] & [= <-])|(-> & Hne)]).
    + exfalso. destruct He as ([_ Ef] & E1 & E2). apply Hn. split; [|lia].
      destruct (move_from _ _ _ _ _ Hm) as [Es|Es]; unfold ended in *; rewrite Es in *; [lia|].
      apply running_lease in jw_status_valid0; [lia|done].
    + apply jw_no_failures0; [done|]. destruct fo as [f|]; [|lia]. destruct He as (_ & E1 & _). lia.
Qed.

Lemma batch_change o m ws0 id0 ops ws id :
  jobs_inv m → jop_typed o → jbatch o m ws0 id0 ops → small ws → small id →
  job_change o m (apply_batch m ops) ws id.
Proof using Hlaws.
  intros Hi Ht Hb Hw Hd. destruct (decide ((ws0, id0) = (ws, id))) as [[= -> ->]|Hne].
  - destruct Hb as [j b1 b2 -> Hv Hs Hn Hb1 Hb2|j st st' fo L b Hj Hv Hst Hs Hm Hb HL].
    + pose proof (inv_new _ _ _ Hi Hw Hd Hn) as Hno. eapply Enqueued; [done|done|]. by eapply batch_new.
    + destruct (inv_job _ _ _ _ Hi Hw Hd Hj) as (st0 & Hwf).
      assert (st0 = st) as -> by (destruct Hwf; congruence). eapply Moved; [done| |done]. by eapply batch_move.
  - destruct (jbatch_shape o m ws0 id0 ops Hi Hb) as (L & -> & _ & _ & _ & Hok & Hsc).
    apply Unchanged. intros k Hk Ek. by eapply jputs_other_job.
Qed.

(** A key of the scan of a workspace is the key of a job. *)
Lemma scanned_key k ws :
  starts_with (jenc k) (compiler_job_prefix ws) = true → jok k → small ws → ∃ id, k = KJob ws id ∧ small id.
Proof using.
  intros [rest E]%starts_with_inv Hk Hw. rewrite jenc_components in E. unfold compiler_job_prefix in E.
  rewrite scoped_components, !app_assoc_str in E. apply app_same_length in E as [_ E]; [|done].
  apply component_app_inj in E as [Ek E]; [|apply jkind_small|done]. destruct k as [ws' id| |]; try discriminate.
  destruct Hk as (Hw' & Hd & _). cbn [jparts components foldr] in E. rewrite app_assoc_str in E.
  apply component_app_inj in E as [-> _]; [|done..]. by exists id.
Qed.

Lemma jbatch_inv o m ws0 id0 ops :
  jobs_inv m → jop_typed o → jbatch o m ws0 id0 ops → jobs_inv (apply_batch m ops).
Proof using Hlaws.
  intros Hi Ht Hb. split.
  - intros ws id Hw Hd. destruct (batch_change o m ws0 id0 ops ws id Hi Ht Hb Hw Hd) as [Ha|j _ _ Hwf|j st st' fo _ Hwf _];
      [|right; eauto..].
    destruct (ji_jobs _ Hi ws id Hw Hd) as [Hn|(j & st & Hwf)].
    + left. intros k Hk Ek. rewrite Ha by done. by apply Hn.
    + right. exists j, st. by eapply job_wf_agrees.
  - intros ws k Hw Hp Hx. destruct (jbatch_shape o m ws0 id0 ops Hi Hb) as (L & -> & _ & _ & _ & Hok & _).
    apply apply_batch_new in Hx as [Hx|(x & Hx & <-)]; [by apply (ji_keys _ Hi)|].
    apply list_elem_of_fmap in Hx as ([k' v] & -> & Hin). rewrite Forall_forall in Hok. specialize (Hok _ Hin).
    destruct (scanned_key k' ws Hp Hok Hw) as (id & -> & Hd). by exists id.
Qed.

(** A change of a job is a step of its lease machine. *)
Definition lease_at m ws id : option Lease := lease_of <$> status_at m ws id.

Lemma change_lease o m m' ws id :
  job_change o m m' ws id → small ws → small id →
  (job_at m' ws id = job_at m ws id ∧ lease_at m' ws id = lease_at m ws id) ∨
  (∃ j, o = JEnqueue j ∧ lease_at m ws id = None ∧ job_at m' ws id = Some j ∧
    lease_at m' ws id = Some (Waiting 0 (jb_scheduled_at_ms j))) ∨
  ∃ j l l', job_at m ws id = Some j ∧ job_at m' ws id = Some j ∧ lease_at m ws id = Some l ∧
    lease_at m' ws id = Some l' ∧ lease_step ws id (jb_max_attempts j) o l l'.
Proof using.
  intros [Ha|j -> Hn Hwf|j st st' fo Hwf Hwf' Hm] Hw Hd.
  - left. unfold lease_at, status_at, job_at, jrec. by rewrite !Ha by (done || jok_tac).
  - right. left. exists j. destruct (no_job_status _ _ _ Hn Hw Hd) as [Es _]. destruct Hwf.
    unfold lease_at. by rewrite Es, jw_status0.
  - right. right. destruct Hwf as [Hj Hs [<- <-] Hv Hsv Hc Hp _ _], Hwf' as [Hj' Hs' _ _ _ _ _ _ _].
    exists j, (lease_of st), (lease_of st'). unfold lease_at. rewrite Hs, Hs'. split_and!; try done.
    by eapply move_lease_step.
Qed.
End batches.
