(* ===== verification/JobRuns.v ===== *)
(** * What the job queue guarantees

    Any sequence of calls of the queue, interleaved with any writes to other
    records and with storage writes that may fail: every job follows its lease
    machine, its attempts are bounded and accounted for, a lease is exclusive until
    it expires, and a claim takes the first job that is due. *)

From Stdlib Require Import Ascii.
From S2P Require Import Prelude Float32 Text Sorting Storage Hex Keys Filter Knowledge MemoryContracts Compiler CompilerProps LedgerModel Ledger LedgerProps LedgerExample LedgerState LedgerSteps LedgerRuns LedgerReads Jobs JobProps.

(** ** Calls *)

Record jcall := mkJCall { jc_proof : MemoryAccessProof; jc_op : jop }.

Inductive jresult :=
| RJEnqueue (r : LResult bool)
| RJClaim (r : LResult (option ClaimedMemoryCompilerJob))
| RJStatus (r : LResult MemoryCompilerJobStatus).

(** A change that leaves the records of the queue as they are. *)
Definition spares (m m' : gmap string string) : Prop := ∀ k, job_key k → m' !! k = m !! k.

(** The sum of a checked addition. *)
Ltac added :=
  match goal with L : ok_or (checked_add _ _ _) _ = Ok _ |- _ => apply ok_or_ok, checked_add_Some in L as [-> _] end.

Section runs.
Context `{!ContentCodec, !CompilerCodec, !LedgerCodec, !JobCodec, Hlaws : !JobCodecLaws, !Sha256, !Hmac}.
Context {S : Type} `{!StorageBackend S, Hst : !StorageLaws S} (key : list Z).
Implicit Types (s : S) (p : MemoryAccessProof) (ws id worker : string) (m : gmap string string).

Definition jstep s (c : jcall) : jresult * S :=
  let p := jc_proof c in
  match jc_op c with
  | JEnqueue j => let (r, s) := enqueue_compiler_job key s p j in (RJEnqueue r, s)
  | JClaim ws worker now lease =>
      let (r, s) := claim_next_compiler_job key s p ws worker now lease in (RJClaim r, s)
  | JComplete ws id worker plan at_ms =>
      let (r, s) := complete_compiler_job key s p ws id worker plan at_ms in (RJStatus r, s)
  | JFail ws id worker code retryable delay at_ms =>
      let (r, s) := fail_compiler_job key s p ws id worker code retryable delay at_ms in (RJStatus r, s)
  end.

(** Calls of the queue with their results, and anything that spares its records. *)
Inductive jsteps (s0 : S) : list (jcall * jresult) → S → Prop :=
| StepsStart : jsteps s0 [] s0
| StepsCall l s c :
    jsteps s0 l s → jop_typed (jc_op c) → jsteps s0 (l ++ [(c, (jstep s c).1)]) (jstep s c).2
| StepsOther l s s' : jsteps s0 l s → spares (sb_view s) (sb_view s') → jsteps s0 l s'.

Definition jreached (s0 : S) (l : list (jcall * jresult)) (s : S) : Prop :=
  (∀ k, job_key k → sb_view s0 !! k = None) ∧ jsteps s0 l s.

(** ** The batches of a call *)

Inductive jeffect (o : jop) : gmap string string → gmap string string → Prop :=
| QuietCall m : jeffect o m m
| WriteBatch m m' ws id ops : jbatch o m ws id ops → jeffect o (apply_batch m ops) m' → jeffect o m m'.

Lemma decode_record_ok {A} `{!Serde A} bytes label (a : A) : decode_record bytes label = Ok a → of_json bytes = Some a.
Proof using. unfold decode_record. destruct (of_json bytes); intros E; [by injection E as ->|discriminate]. Qed.

Lemma load_job_ok s ws id j :
  load_compiler_job_unlocked s ws id = Ok (Some j) →
  job_at (sb_view s) ws id = Some j ∧ job_validate j = Ok tt ∧ jb_workspace_id j = ws ∧ jb_job_id j = id.
Proof using Hst.
  unfold load_compiler_job_unlocked. intros E. binds E. apply lstored_ok, sb_get_ok in E0.
  destruct x as [b|]; [|discriminate]. binds E. injection E as ->.
  apply decode_record_ok in E1. apply lcorrupt_ok in E2. rewrite orb_false_iff, !negb_false_iff, !String.eqb_eq in E3.
  unfold job_at, jrec. cbn [jenc]. by rewrite <-E0.
Qed.

Lemma load_status_ok s ws id st :
  load_compiler_job_status_unlocked s ws id = Ok (Some st) →
  status_at (sb_view s) ws id = Some st ∧ js_workspace_id st = ws ∧ js_job_id st = id.
Proof using Hst.
  unfold load_compiler_job_status_unlocked. intros E. binds E. apply lstored_ok, sb_get_ok in E0.
  destruct x as [b|]; [|discriminate]. binds E. injection E as ->. apply decode_record_ok in E1.
  rewrite orb_false_iff, !negb_false_iff, !String.eqb_eq in E2. unfold status_at, jrec. cbn [jenc]. by rewrite <-E0.
Qed.

Lemma job_request_ok {A} msg (r : MemoryCompilerResult A) a : job_request msg r = Ok a → r = Ok a.
Proof using. destruct r; [by intros [= ->]|done]. Qed.

Lemma job_failure_ok j a worker code r t f :
  compiler_job_failure j a worker code r t = Ok f → failure_validate f j = Ok tt ∧ jf_attempt f = a.
Proof using. unfold compiler_job_failure. intros E. binds E. injection E as <-. by apply job_request_ok in E0. Qed.

Lemma lseq_one r ops : lseq [r] = Ok ops → ∃ x, r = Ok x ∧ ops = [x].
Proof using. intros (x & l & E & El & ->)%collect_cons. injection El as <-. by exists x. Qed.

Lemma lseq_two r r' ops : lseq [r; r'] = Ok ops → ∃ x y, r = Ok x ∧ r' = Ok y ∧ ops = [x; y].
Proof using. intros (x & l & E & El & ->)%collect_cons. apply lseq_one in El as (y & E' & ->). by exists x, y. Qed.

Lemma enqueue_batch s p j a ops :
  enqueue_compiler_job_plan key s p j = Ok (a, Some ops) →
  jbatch (JEnqueue j) (sb_view s) (jb_workspace_id j) (jb_job_id j) ops.
Proof using Hst.
  unfold enqueue_compiler_job_plan. intros E. binds E. destruct x3 as [b|]; [by binds E|].
  binds E. injection E as _ <-. apply job_request_ok in E2, E6. apply lstored_ok, sb_get_ok in E5.
  apply lseq_two in E7 as (o1 & o2 & (b1 & Hb1 & ->)%put_record_ok & (b2 & Hb2 & ->)%put_record_ok & ->).
  by apply (BatchNew _ _ j b1 b2).
Qed.

Lemma leased_job_ok s p ws id worker t msg j st :
  leased_job s p ws id worker t msg = Ok (j, st) →
  job_at (sb_view s) ws id = Some j ∧ job_validate j = Ok tt ∧ jb_workspace_id j = ws ∧ jb_job_id j = id ∧
  status_at (sb_view s) ws id = Some st ∧ holds_lease st worker t = true ∧ js_workspace_id st = ws ∧ js_job_id st = id.
Proof using Hst.
  unfold leased_job. intros E. binds E. injection E as <- <-. apply ok_or_ok in E1, E4. subst.
  apply load_job_ok in E0 as (? & ? & ? & ?). apply load_status_ok in E3 as (? & ? & ?). apply negb_false_iff in E5. done.
Qed.

Lemma complete_batch s p ws id worker plan t a ops :
  complete_compiler_job_plan key s p ws id worker plan t = Ok (a, Some ops) →
  jbatch (JComplete ws id worker plan t) (sb_view s) ws id ops.
Proof using Hst.
  unfold complete_compiler_job_plan. intros E. binds E. match goal with x : MemoryCompilerJob * _ |- _ => destruct x as [j st] end. binds E. injection E as _ <-.
  apply leased_job_ok in E6 as (Hj & Hv & <- & <- & Hs & Hh & _). apply lcorrupt_ok in E7.
  apply lseq_one in E8 as (o & (b & Hb & ->)%put_record_ok & ->).
  apply (BatchMove _ _ j st (completed_status st plan t) None [] b); try done. by constructor.
Qed.

Lemma fail_batch s p ws id worker code r delay t a ops :
  fail_compiler_job_plan key s p ws id worker code r delay t = Ok (a, Some ops) →
  jbatch (JFail ws id worker code r delay t) (sb_view s) ws id ops.
Proof using Hst.
  unfold fail_compiler_job_plan. intros E. binds E. match goal with x : MemoryCompilerJob * _ |- _ => destruct x as [j st] end. binds E. injection E as _ <-.
  apply leased_job_ok in E6 as (Hj & Hv & <- & <- & Hs & Hh & _).
  apply job_failure_ok in E7 as Hf. apply lcorrupt_ok in E9.
  apply lseq_two in E10 as (o1 & o2 & (bf & Hbf & ->)%put_record_ok & (b & Hb & ->)%put_record_ok & ->).
  apply (BatchMove _ _ j st x0 (Some x) [(KJobFailure (jb_workspace_id j) (jb_job_id j) (jf_attempt x), bf)] b); try done.
  - unfold after_failure in E8. destruct (r && _) eqn:C.
    + apply andb_true_iff in C as [-> C%Z.ltb_lt]. binds E8. injection E8 as <-.
      added. by constructor.
    + injection E8 as <-. apply MoveDead; [done|done|]. apply andb_false_iff in C as [-> |C%Z.ltb_ge]; auto.
  - by exists bf.
Qed.

Lemma status_put L ws id b :
  kputs jenc L ++ [Put (compiler_job_status_key ws id) b] = kputs jenc (L ++ [(KJobStatus ws id, b)]).
Proof using. unfold kputs. by rewrite fmap_app. Qed.

Lemma status_put_at m L ws id st b :
  json_of st = Some b → status_at (apply_batch m (kputs jenc (L ++ [(KJobStatus ws id, b)]))) ws id = Some st.
Proof using Hlaws.
  intros Hb. unfold status_at, jrec, kputs. rewrite fmap_app, apply_batch_app.
  change (apply_batch ?x ((λ kv : jkey * string, Put (jenc kv.1) kv.2) <$> [(?k, ?v)])) with (<[jenc k := v]> x).
  rewrite lookup_insert_eq. cbn. by apply serde_roundtrip.
Qed.

(** The jobs a claim goes through are stored ones. *)
Definition stored_job m ws j : Prop :=
  job_at m ws (jb_job_id j) = Some j ∧ job_validate j = Ok tt ∧ jb_workspace_id j = ws.

(** A status that a claim would take up. *)
Definition claimable (st : MemoryCompilerJobStatus) (now : Z) : bool := eligible_pending st now || expired_running st now.

Lemma claim_one_ok s ws worker now lease j d :
  claim_one s ws worker now (now + lease) j = Ok d → stored_job (sb_view s) ws j →
  ∃ st, status_at (sb_view s) ws (jb_job_id j) = Some st ∧ status_validate st j = Ok tt ∧
  match d with
  | ClaimSkip => claimable st now = false
  | ClaimBury ops =>
      claimable st now = true ∧ jb_max_attempts j ≤ js_attempt_count st ∧
      jbatch (JClaim ws worker now lease) (sb_view s) ws (jb_job_id j) ops
  | ClaimTake st' ops =>
      claimable st now = true ∧ js_attempt_count st < jb_max_attempts j ∧
      jbatch (JClaim ws worker now lease) (sb_view s) ws (jb_job_id j) ops ∧
      status_at (apply_batch (sb_view s) ops) ws (jb_job_id j) = Some st' ∧
      ∃ err, st' = taken_status st err (js_attempt_count st + 1) worker (now + lease) now
  end.
Proof using Hlaws Hst.
  unfold claim_one, claimable. intros E (Hj & Hv & <-). binds E. apply ok_or_ok in E1. subst. apply load_status_ok in E0 as (E0 & _).
  apply lcorrupt_ok in E2. exists x0. split; [done|]. split; [done|].
  destruct (negb _ && negb _) eqn:C.
  { injection E as <-. apply andb_true_iff in C as [-> %negb_true_iff ->%negb_true_iff]. done. }
  binds E.
  assert (∃ fo L, x = kputs jenc L ∧ failure_puts (jb_workspace_id j) (jb_job_id j) fo L ∧
    lapsed j x0 now fo (if expired_running x0 now then Some "LEASE_EXPIRED" else js_last_error_code x0)) as (fo & L & -> & HL & Hl).
  { destruct (expired_running x0 now) eqn:Ex.
    - binds E1. injection E1 as <-. apply job_failure_ok in E3 as Hf. apply put_record_ok in E4 as (b & Hb & ->).
      exists (Some x1), [(KJobFailure (jb_workspace_id j) (jb_job_id j) (js_attempt_count x0), b)]. split_and!; [done| |by constructor].
      exists b. destruct Hf as [_ ->]. done.
    - injection E1 as <-. exists None, []. split_and!; [done|done|]. constructor.
      by rewrite andb_true_r, negb_false_iff in C. }
  assert (eligible_pending x0 now || expired_running x0 now = true) as Hcl.
  { apply orb_true_iff. rewrite andb_false_iff, !negb_false_iff in C. done. }
  destruct (js_attempt_count x0 >=? jb_max_attempts j) eqn:Hm; rewrite Z.geb_leb in Hm; binds E; injection E as <-.
  - apply Z.leb_le in Hm. apply lcorrupt_ok in E3. apply put_record_ok in E4 as (b & Hb & ->).
    split_and!; [done|done|]. rewrite status_put.
    eapply BatchMove; try done. by constructor.
  - apply Z.leb_gt in Hm. added. apply lcorrupt_ok in E4.
    apply put_record_ok in E5 as (b & Hb & ->). rewrite status_put.
    split_and!; [done|done| |by apply status_put_at|by eexists]. eapply BatchMove; try done. by constructor.
Qed.

(** ** One change of a job per call *)

Lemma move_once j st o st1 f1 st2 f2 :
  status_move j st o st1 f1 → status_validate st1 j = Ok tt → status_move j st1 o st2 f2 → False.
Proof using.
  intros H1m (_ & _ & _ & Hs)%status_ids H2m. apply move_from in H2m as Hf.
  destruct H1m as [worker now lease fo err Hl Hn|worker now lease fo err Hl Hn|worker plan t Hh
    |worker code delay t f Hh Hfo Hn|worker code r delay t f Hh Hfo Hn]; cbn in Hf; try by destruct Hf.
  - unfold state_malformed in Hs. cbn in Hs. rewrite !orb_false_iff in Hs. destruct Hs as [[_ Hs%Z.leb_gt] _].
    inversion H2m as [? ? ? ? ? Hl2 ? | ? ? ? ? ? Hl2 ? | | |]; subst;
      destruct Hl2 as [[Es _]%eligible_pending_ok|f (_ & e & He & Hle)%expired_running_ok _]; try discriminate;
      injection He as <-; lia.
  - inversion H2m as [| | |? ? ? ? ? Hh2|? ? ? ? ? ? Hh2]; subst; by apply holds_lease_ok in Hh2 as [? _].
Qed.

Lemma agrees_back m m' ws id k :
  (∀ k, jok k → jscope k = (ws, id) → m' !! jenc k = m !! jenc k) → jok k → jscope k = (ws, id) →
  m !! jenc k = m' !! jenc k.
Proof using. intros Ha Hk Ek. by rewrite Ha. Qed.

Lemma wf_unique m ws id j st j' st' : job_wf m ws id j st → job_wf m ws id j' st' → j' = j ∧ st' = st.
Proof using. intros [] []. split; congruence. Qed.

Lemma wf_not_new m ws id j st : small ws → small id → job_wf m ws id j st → ¬ no_job m ws id.
Proof using. intros Hw Hd [Hj _ _ _ _ _ _ _ _] Hn. destruct (no_job_status _ _ _ Hn Hw Hd). congruence. Qed.

Lemma change_trans o m1 m2 m3 ws id :
  small ws → small id → job_change o m1 m2 ws id → job_change o m2 m3 ws id → job_change o m1 m3 ws id.
Proof using.
  intros Hw Hd C1 C2. destruct C1 as [Ha|j -> Hn Hwf|j st st' fo Hwf Hwf' Hm].
  - destruct C2 as [Hb|j -> Hn Hwf|j st st' fo Hwf Hwf' Hm].
    + apply Unchanged. intros k Hk Ek. by rewrite Hb, Ha.
    + eapply Enqueued; [done| |done]. intros k Hk Ek. rewrite <-Ha by done. by apply Hn.
    + eapply Moved; [|done|done]. eapply job_wf_agrees; [done|done| |exact Hwf]. intros k. by apply agrees_back.
  - destruct C2 as [Hb|j' _ Hn' _|j' st st' fo _ _ Hm].
    + eapply Enqueued; [done|done|]. by eapply job_wf_agrees.
    + by destruct (wf_not_new m2 ws id _ _ Hw Hd Hwf Hn').
    + inversion Hm.
  - destruct C2 as [Hb|j' _ Hn' _|j' st1 st2 fo' Hwf1 _ Hm'].
    + eapply Moved; [done| |done]. by eapply job_wf_agrees.
    + by destruct (wf_not_new m2 ws id _ _ Hw Hd Hwf' Hn').
    + destruct (wf_unique _ _ _ _ _ _ _ Hwf' Hwf1) as [-> ->]. exfalso. eapply move_once; [exact Hm| |exact Hm'].
      by destruct Hwf'.
Qed.

Lemma effect_jobs o m m' :
  jobs_inv m → jop_typed o → jeffect o m m' →
  jobs_inv m' ∧ ∀ ws id, small ws → small id → job_change o m m' ws id.
Proof using Hlaws.
  intros Hi Ht He. induction He as [m|m m' ws0 id0 ops Hb He IH]; [by split; [|constructor]|].
  destruct IH as [Hi' Hc]; [by eapply jbatch_inv|]. split; [done|]. intros ws id Hw Hd.
  eapply change_trans; [done|done| |by apply Hc]. by eapply batch_change.
Qed.

Lemma change_stored o m m' ws j :
  job_change o m m' ws (jb_job_id j) → stored_job m ws j → stored_job m' ws j.
Proof using.
  intros C (Hj & Hv & Hw). destruct (job_validated j Hv) as (Hs & Hd & _). rewrite Hw in Hs. split; [|done].
  destruct C as [Ha|j' _ Hn _|j' st st' fo Hwf Hwf' _].
  - unfold job_at, jrec in *. rewrite Ha; [done|jok_tac|done].
  - destruct (no_job_status _ _ _ Hn Hs Hd). congruence.
  - destruct Hwf as [E _ _ _ _ _ _ _ _], Hwf' as [E' _ _ _ _ _ _ _ _]. congruence.
Qed.

(** A write that is reported as failed may still have happened, as a whole. *)
Lemma write_effect_cases s ops r s' :
  sb_write_batch_sync s ops = (r, s') → sb_view s' = sb_view s ∨ sb_view s' = apply_batch (sb_view s) ops.
Proof using Hst. intros E%sb_write_batch_sync_ok. destruct r; cbn in E; auto. Qed.

Lemma write_effect_ok s ops u s' :
  sb_write_batch_sync s ops = (Ok u, s') → sb_view s' = apply_batch (sb_view s) ops.
Proof using Hst. by intros E%sb_write_batch_sync_ok. Qed.

Lemma plan_effect {A} o s (plan : lplan A) :
  (∀ a ops, plan = Ok (a, Some ops) → ∃ ws id, jbatch o (sb_view s) ws id ops) →
  jeffect o (sb_view s) (sb_view (lcommit s plan).2).
Proof using Hst.
  intros Hp. destruct (lcommit_view s plan) as [-> |(ops & [a Ha]%batch_of_some & ->)]; [constructor|].
  destruct (Hp _ _ Ha) as (ws & id & Hb). eapply WriteBatch; [done|constructor].
Qed.

Lemma claim_first_effect s ws worker now lease jobs :
  let o := JClaim ws worker now lease in
  jobs_inv (sb_view s) → jop_typed o → Forall (stored_job (sb_view s) ws) jobs →
  jeffect o (sb_view s) (sb_view (claim_first s ws worker now (now + lease) jobs).2).
Proof using Hlaws Hst.
  intros o. revert s. induction jobs as [|j jobs IH]; intros s Hi Ht Hj; cbn [claim_first]; [constructor|].
  apply Forall_cons in Hj as [Hj Hjs].
  destruct (claim_one s ws worker now (now + lease) j) as [d|e] eqn:E; [|constructor].
  destruct (claim_one_ok _ _ _ _ _ _ _ E Hj) as (st & _ & _ & Hd). destruct d as [|ops|st' ops]; [by apply IH| |].
  - destruct Hd as (_ & _ & Hb). destruct (sb_write_batch_sync s ops) as [r s'] eqn:Ew. destruct r as [u|e].
    + apply write_effect_ok in Ew. eapply WriteBatch; [exact Hb|]. rewrite <-Ew. apply IH; [|done|].
      * rewrite Ew. by eapply jbatch_inv.
      * rewrite Ew. eapply Forall_impl; [exact Hjs|]. intros j' Hj'. eapply change_stored; [|exact Hj'].
        destruct Hj' as (_ & Hv & Hw). apply job_validated in Hv as (Hs & Hid & _).
        eapply batch_change; try done. by rewrite <-Hw.
    + cbn [snd]. apply write_effect_cases in Ew as [-> | ->]; [constructor|]. eapply WriteBatch; [exact Hb|constructor].
  - destruct Hd as (_ & _ & Hb & _ & _). apply plan_effect. intros a ops' [= _ <-]. eauto.
Qed.

Lemma scanned_jobs m p ws rows (jobs : list (option MemoryCompilerJob)) j :
  jobs_inv m → small ws → (∀ k v, (k, v) ∈ rows → m !! k = Some v ∧ starts_with k (compiler_job_prefix ws) = true) →
  collect (scanned_job p ws) rows = Ok jobs → j ∈ omap (λ j, j) jobs →
  stored_job m ws j ∧ is_ok (authorize_namespace p (jb_namespace j)) = true.
Proof using.
  intros Hi Hw Hr Hc (o & Ho & ->)%list_elem_of_omap. apply collect_Forall2 in Hc.
  apply list_elem_of_lookup_1 in Ho as [i Hi']. destruct (Forall2_lookup_r _ _ _ _ _ Hc Hi') as ([k v] & Hk & E).
  apply list_elem_of_lookup_2, Hr in Hk as [Hk Hp]. unfold scanned_job in E. binds E.
  apply decode_record_ok in E0. apply lcorrupt_ok in E1. apply negb_false_iff, String.eqb_eq in E2.
  destruct (is_ok _) eqn:Ho; [|discriminate]. injection E as ->. split; [|done].
  destruct (ji_keys _ Hi ws k Hw Hp) as (id & -> & Hd); [by rewrite Hk|].
  assert (job_at m ws id = Some j) as Hj by (unfold job_at, jrec; by rewrite Hk).
  destruct (inv_job _ _ _ _ Hi Hw Hd Hj) as (st & Hwf). destruct Hwf as [_ _ [_ <-] _ _ _ _ _ _]. done.
Qed.

Lemma claim_candidates_ok s p ws worker now lease expiry jobs :
  jobs_inv (sb_view s) → claim_candidates key s p ws worker now lease = Ok (expiry, jobs) →
  expiry = now + lease ∧ small ws ∧ Forall (stored_job (sb_view s) ws) jobs.
Proof using Hst.
  unfold claim_candidates. intros Hi E. binds E. injection E as <- <-. added. apply local_id_small in E1.
  split_and!; [done|done|]. apply Forall_forall. intros j Hj%elem_of_sort_by.
  apply lstored_ok, sb_scan_prefix_limited_ok in E5. subst. eapply scanned_jobs; [done|done| |done|done].
  intros k v Hk. apply elem_of_entries_with_prefix. eapply elem_of_take in Hk as (i & Hk & _).
  by eapply list_elem_of_lookup_2.
Qed.

Lemma jstep_effect s c :
  jobs_inv (sb_view s) → jop_typed (jc_op c) → jeffect (jc_op c) (sb_view s) (sb_view (jstep s c).2).
Proof using Hlaws Hst.
  intros Hi Ht. unfold jstep. destruct (jc_op c) as [j|ws worker now lease|ws id worker plan t|ws id worker code r d t].
  - destruct (enqueue_compiler_job _ _ _ _) as [r s'] eqn:E. cbn. replace s' with (enqueue_compiler_job key s (jc_proof c) j).2 by by rewrite E.
    apply plan_effect. intros a ops Hp%enqueue_batch. eauto.
  - destruct (claim_next_compiler_job _ _ _ _ _ _ _) as [r s'] eqn:E. cbn. unfold claim_next_compiler_job in E.
    destruct (claim_candidates _ _ _ _ _ _ _) as [[expiry jobs]|e] eqn:Ec; [|injection E as _ <-; constructor].
    destruct (claim_candidates_ok _ _ _ _ _ _ _ _ Hi Ec) as (-> & Hw & Hjs).
    replace s' with (claim_first s ws worker now (now + lease) jobs).2 by by rewrite E. by apply claim_first_effect.
  - destruct (complete_compiler_job _ _ _ _ _ _ _ _) as [r' s'] eqn:E. cbn.
    replace s' with (complete_compiler_job key s (jc_proof c) ws id worker plan t).2 by by rewrite E.
    apply plan_effect. intros a ops Hp%complete_batch. eauto.
  - destruct (fail_compiler_job _ _ _ _ _ _ _ _ _ _) as [r' s'] eqn:E. cbn.
    replace s' with (fail_compiler_job key s (jc_proof c) ws id worker code r d t).2 by by rewrite E.
    apply plan_effect. intros a ops Hp%fail_batch. eauto.
Qed.

(** ** Runs *)

Lemma inv_spares m m' : jobs_inv m → spares m m' → jobs_inv m'.
Proof using.
  intros Hi Hs. assert (∀ k, m' !! jenc k = m !! jenc k) as Ha by (intros k; apply Hs, jenc_job_key). split.
  - intros ws id Hw Hd. destruct (ji_jobs _ Hi ws id Hw Hd) as [Hn|(j & st & Hwf)].
    + left. intros k Hk Ek. rewrite Ha. by apply Hn.
    + right. exists j, st. eapply job_wf_agrees; [done|done| |exact Hwf]. intros. apply Ha.
  - intros ws k Hw Hp Hx. apply (ji_keys _ Hi); [done..|]. rewrite <-Hs; [done|]. by eapply prefix_job_key.
Qed.

Lemma inv_start m : (∀ k, job_key k → m !! k = None) → jobs_inv m.
Proof using.
  intros Hn. split.
  - intros ws id _ _. left. intros k _ _. apply Hn, jenc_job_key.
  - intros ws k _ Hp%prefix_job_key [v Hv]. by rewrite Hn in Hv.
Qed.

Lemma steps_inv s0 l s : jobs_inv (sb_view s0) → jsteps s0 l s → jobs_inv (sb_view s).
Proof using Hlaws Hst.
  intros Hi Hl. induction Hl as [|l s c _ IH Ht|l s s' _ IH Hs]; [done| |by eapply inv_spares].
  by eapply effect_jobs; [exact IH|exact Ht|apply jstep_effect].
Qed.

Lemma reached_jobs s0 l s : jreached s0 l s → jobs_inv (sb_view s).
Proof using Hlaws Hst. intros [Hn Hl]. eapply steps_inv; [|exact Hl]. by apply inv_start. Qed.

Lemma jstep_change s c ws id :
  jobs_inv (sb_view s) → jop_typed (jc_op c) → small ws → small id →
  job_change (jc_op c) (sb_view s) (sb_view (jstep s c).2) ws id.
Proof using Hlaws Hst. intros Hi Ht Hw Hd. by eapply effect_jobs; [exact Hi|exact Ht|apply jstep_effect|..]. Qed.

(** C17: the queue refines the lease machine: a call leaves a job as it is, or
    enqueues it as waiting with no attempt made, or moves it by one step of the
    machine that the call allows; the job itself never changes. *)
Theorem queue_refines_leases s0 l s c ws id :
  jreached s0 l s → jop_typed (jc_op c) → small ws → small id →
  let m := sb_view s in
  let m' := sb_view (jstep s c).2 in
  (job_at m' ws id = job_at m ws id ∧ lease_at m' ws id = lease_at m ws id) ∨
  (∃ j, jc_op c = JEnqueue j ∧ lease_at m ws id = None ∧ job_at m' ws id = Some j ∧
    lease_at m' ws id = Some (Waiting 0 (jb_scheduled_at_ms j))) ∨
  ∃ j x x', job_at m ws id = Some j ∧ job_at m' ws id = Some j ∧ lease_at m ws id = Some x ∧
    lease_at m' ws id = Some x' ∧ lease_step ws id (jb_max_attempts j) (jc_op c) x x'.
Proof using Hlaws Hst.
  intros Hr Ht Hw Hd. apply change_lease; [|done..]. apply jstep_change; [by eapply reached_jobs|done..].
Qed.

(** C20: a stored job has a valid status, was given at most its maximal number of
    attempts, which is at most a hundred, and exactly the attempts that ended
    without success have a record of their failure. *)
Theorem attempts_are_accounted s0 l s ws id j :
  jreached s0 l s → small ws → small id → job_at (sb_view s) ws id = Some j →
  ∃ st, status_at (sb_view s) ws id = Some st ∧ status_validate st j = Ok tt ∧
    0 ≤ js_attempt_count st ≤ jb_max_attempts j ∧ jb_max_attempts j ≤ 100 ∧
    ∀ a, 0 ≤ a < 2 ^ 32 →
      (1 ≤ a ≤ ended st → ∃ f, failure_at (sb_view s) ws id a = Some f ∧ failure_validate f j = Ok tt ∧ jf_attempt f = a) ∧
      (¬ 1 ≤ a ≤ ended st → failure_at (sb_view s) ws id a = None).
Proof using Hlaws Hst.
  intros Hr Hw Hd Hj. apply reached_jobs in Hr as Hi. destruct (inv_job _ _ _ _ Hi Hw Hd Hj) as (st & []). exists st.
  destruct (job_validated j jw_valid) as (_ & _ & _ & Hmax). destruct (status_ids _ _ jw_status_valid) as (_ & _ & Hle & _).
  split_and!; try done. intros a Ha. split; [by apply jw_failures|].
  intros Hn. unfold failure_at, jrec. by rewrite jw_no_failures.
Qed.

(** ** What a claim finds *)

(** A job that can be given an attempt. *)
Definition due j (st : MemoryCompilerJobStatus) (now : Z) : Prop :=
  claimable st now = true ∧ js_attempt_count st < jb_max_attempts j.

Lemma other_job_kept o m ws0 id0 ops ws id k :
  jobs_inv m → jbatch o m ws0 id0 ops → (ws0, id0) ≠ (ws, id) → jok k → jscope k = (ws, id) →
  apply_batch m ops !! jenc k = m !! jenc k.
Proof using.
  intros Hi Hb Hne Hk Ek. destruct (jbatch_shape o m ws0 id0 ops Hi Hb) as (L & -> & _ & _ & _ & Hok & Hsc).
  by eapply jputs_other_job.
Qed.

Lemma stored_small m ws j : stored_job m ws j → small ws ∧ small (jb_job_id j).
Proof using. intros (_ & Hv & <-). by apply job_validated in Hv as (? & ? & _). Qed.

(** Putting a job away makes no other job due, and is not done to one that is. *)
Lemma bury_keeps m ws worker now lease j ops st j' st' :
  let o := JClaim ws worker now lease in
  jobs_inv m → jop_typed o → stored_job m ws j → status_at m ws (jb_job_id j) = Some st →
  jb_max_attempts j ≤ js_attempt_count st → jbatch o m ws (jb_job_id j) ops → stored_job m ws j' → due j' st' now →
  status_at (apply_batch m ops) ws (jb_job_id j') = Some st' ↔ status_at m ws (jb_job_id j') = Some st'.
Proof using Hlaws.
  intros o Hi Ht Hj Hs Hn Hb Hj' [_ Hdue]. destruct (stored_small _ _ _ Hj) as [Hw Hd].
  destruct (decide (jb_job_id j = jb_job_id j')) as [E|Hne].
  - rewrite <-E. assert (j' = j) as -> by (destruct Hj as [? _], Hj' as [? _]; congruence).
    split; [|intros E2; assert (st' = st) as -> by congruence; lia].
    intros E2. exfalso.
    destruct (batch_change o m _ _ ops ws (jb_job_id j) Hi Ht Hb Hw Hd) as [Ha|j0 Ho _ _|j0 st0 st1 fo Hwf Hwf' Hm]; [|discriminate Ho|].
    + unfold status_at, jrec in *. rewrite Ha in E2 by (done || jok_tac). assert (st' = st) as -> by congruence. lia.
    + destruct Hwf as [Hj0 Hs0 _ _ _ _ _ _ _], Hwf' as [_ Hs1 _ _ _ _ _ _ _].
      assert (st0 = st) as -> by congruence. assert (st1 = st') as -> by congruence.
      destruct (move_typed _ _ _ _ _ Hm); lia.
  - destruct (stored_small _ _ _ Hj') as [_ Hd']. unfold status_at, jrec.
    rewrite (other_job_kept o m ws (jb_job_id j) ops ws (jb_job_id j')); [done|done|done|congruence|jok_tac|done].
Qed.

Lemma bury_stored m ws worker now lease j ops j' :
  jobs_inv m → jop_typed (JClaim ws worker now lease) → jbatch (JClaim ws worker now lease) m ws (jb_job_id j) ops →
  stored_job m ws j' → stored_job (apply_batch m ops) ws j'.
Proof using Hlaws.
  intros Hi Ht Hb Hj. destruct (stored_small _ _ _ Hj) as [Hw Hd]. eapply change_stored; [|done]. by eapply batch_change.
Qed.

(** The loop gives the first job that is due. *)
Definition first_due m ws now (jobs : list MemoryCompilerJob) (r : option ClaimedMemoryCompilerJob) worker lease : Prop :=
  match r with
  | None => ∀ j st, j ∈ jobs → status_at m ws (jb_job_id j) = Some st → ¬ due j st now
  | Some cl =>
      ∃ pre post st err, jobs = pre ++ cl_job cl :: post ∧
        status_at m ws (jb_job_id (cl_job cl)) = Some st ∧ due (cl_job cl) st now ∧
        cl_status cl = taken_status st err (js_attempt_count st + 1) worker (now + lease) now ∧
        ∀ j st, j ∈ pre → status_at m ws (jb_job_id j) = Some st → ¬ due j st now
  end.

Lemma first_due_skip m ws now j jobs r worker lease st0 :
  status_at m ws (jb_job_id j) = Some st0 → ¬ due j st0 now →
  first_due m ws now jobs r worker lease → first_due m ws now (j :: jobs) r worker lease.
Proof using.
  intros Hs Hn. destruct r as [cl|]; cbn.
  - intros (pre & post & st & err & -> & Hs1 & Hdue & Hc & Hpre). exists (j :: pre), post, st, err. split_and!; try done.
    intros j' st' [-> |Hin]%elem_of_cons Hs'; [by assert (st' = st0) as -> by congruence|by apply (Hpre j')].
  - intros Hall j' st' [-> |Hin]%elem_of_cons Hs'; [by assert (st' = st0) as -> by congruence|by apply (Hall j')].
Qed.

Lemma first_due_bury m ws now j ops st jobs r worker lease :
  let o := JClaim ws worker now lease in
  jobs_inv m → jop_typed o → stored_job m ws j → Forall (stored_job m ws) jobs →
  status_at m ws (jb_job_id j) = Some st → jb_max_attempts j ≤ js_attempt_count st → jbatch o m ws (jb_job_id j) ops →
  first_due (apply_batch m ops) ws now jobs r worker lease → first_due m ws now jobs r worker lease.
Proof using Hlaws.
  intros o Hi Ht Hj Hjs Hs Hn Hb. rewrite Forall_forall in Hjs.
  pose proof (λ j' st' H1 H2, bury_keeps m ws worker now lease j ops st j' st' Hi Ht Hj Hs Hn Hb H1 H2) as Hk.
  destruct r as [cl|]; cbn.
  - intros (pre & post & st' & err & -> & Hs1 & Hdue & Hc & Hpre). exists pre, post, st', err. split_and!; try done.
    + apply Hk; [|done|done]. apply Hjs, elem_of_app. right. by left.
    + intros j' st1 Hin Hs' Hd. apply (Hpre j' st1 Hin); [|done]. apply Hk; [|done|done]. apply Hjs, elem_of_app. by left.
  - intros Hall j' st' Hin Hs' Hd. apply (Hall j' st' Hin); [|done]. apply Hk; [by apply Hjs|done|done].
Qed.

Lemma claim_first_due s ws worker now lease jobs r s' :
  jobs_inv (sb_view s) → jop_typed (JClaim ws worker now lease) → Forall (stored_job (sb_view s) ws) jobs →
  claim_first s ws worker now (now + lease) jobs = (Ok r, s') →
  first_due (sb_view s) ws now jobs r worker lease ∧
  ∀ cl, r = Some cl → status_at (sb_view s') ws (jb_job_id (cl_job cl)) = Some (cl_status cl).
Proof using Hlaws Hst.
  revert s. induction jobs as [|j jobs IH]; intros s Hi Ht Hj E; cbn [claim_first] in E.
  { injection E as <- <-. split; [by intros j st ?%elem_of_nil|done]. }
  apply Forall_cons in Hj as [Hj Hjs].
  destruct (claim_one s ws worker now (now + lease) j) as [d|e] eqn:Ed; [|discriminate].
  destruct (claim_one_ok _ _ _ _ _ _ _ Ed Hj) as (st & Hs & _ & Hd). destruct d as [|ops|st' ops].
  - destruct (IH s Hi Ht Hjs E) as [Hf Hl]. split; [|done]. eapply first_due_skip; [done| |done]. by intros [? _]; congruence.
  - destruct Hd as (_ & Hn & Hb). destruct (sb_write_batch_sync s ops) as [[u|e] s1] eqn:Ew; [|discriminate].
    apply write_effect_ok in Ew. destruct (IH s1) as [Hf Hl]; [rewrite Ew; by eapply jbatch_inv|done| |done|].
    + rewrite Ew. eapply Forall_impl; [exact Hjs|]. intros j' Hj'. by eapply bury_stored.
    + split; [|done]. rewrite Ew in Hf. eapply first_due_skip; [exact Hs|intros [_ ?]; lia|]. by eapply first_due_bury.
  - destruct Hd as (Hcl & Hn & Hb & Hafter & err & ->). unfold lcommit in E.
    destruct (sb_write_batch_sync s ops) as [[u|e] s1] eqn:Ew; [|discriminate]. apply write_effect_ok in Ew.
    injection E as <- <-. split.
    + exists [], jobs, st, err. cbn. split_and!; try done. by intros j' st' ?%elem_of_nil.
    + intros cl [= <-]. cbn. by rewrite Ew.
Qed.

(** ** Leases *)

(** The calls that may end a lease before its time, or take it over after. *)
Definition ends_lease (o : jop) ws id worker (until : Z) : Prop :=
  match o with
  | JEnqueue _ => False
  | JClaim ws' _ now _ => ws' = ws ∧ until ≤ now
  | JComplete ws' id' worker' _ _ | JFail ws' id' worker' _ _ _ _ => ws' = ws ∧ id' = id ∧ worker' = worker
  end.

(** A result that hands out a job or reports its status after a move. *)
Definition reports (r : jresult) ws id : Prop :=
  match r with
  | RJClaim (Ok (Some cl)) => jb_workspace_id (cl_job cl) = ws ∧ jb_job_id (cl_job cl) = id
  | RJStatus (Ok st) => js_workspace_id st = ws ∧ js_job_id st = id
  | _ => False
  end.

Lemma claim_result s p ws worker now lease cl s' :
  jobs_inv (sb_view s) → jop_typed (JClaim ws worker now lease) →
  claim_next_compiler_job key s p ws worker now lease = (Ok (Some cl), s') →
  ∃ st err, job_wf (sb_view s) ws (jb_job_id (cl_job cl)) (cl_job cl) st ∧ due (cl_job cl) st now ∧
    cl_status cl = taken_status st err (js_attempt_count st + 1) worker (now + lease) now ∧
    status_at (sb_view s') ws (jb_job_id (cl_job cl)) = Some (cl_status cl).
Proof using Hlaws Hst.
  intros Hi Ht E. unfold claim_next_compiler_job in E.
  destruct (claim_candidates _ _ _ _ _ _ _) as [[expiry jobs]|e] eqn:Ec; [|discriminate].
  destruct (claim_candidates_ok _ _ _ _ _ _ _ _ Hi Ec) as (-> & Hw & Hjs).
  destruct (claim_first_due _ _ _ _ _ _ _ _ Hi Ht Hjs E) as [(pre & post & st & err & -> & Hs & Hd & Hc & _) Hl].
  exists st, err. split_and!; try done; [|by apply Hl].
  apply Forall_app in Hjs as [_ Hjs]. apply Forall_cons in Hjs as [Hj _].
  destruct (stored_small _ _ _ Hj) as [_ Hid]. destruct Hj as (Hj & _ & _).
  destruct (inv_job _ _ _ _ Hi Hw Hid Hj) as (st0 & Hwf). assert (st0 = st) as -> by (destruct Hwf; congruence). done.
Qed.

Lemma lcommit_ok {A} s (plan : lplan A) a s' : lcommit s plan = (Ok a, s') → ∃ b, plan = Ok (a, b).
Proof using.
  unfold lcommit. destruct plan as [[a' [ops|]]|]; [destruct (sb_write_batch_sync s ops) as [[]]| |];
    intros E; try discriminate; injection E as <- <-; eauto.
Qed.

(** A reported status is one of the job the worker of the call held. *)
Lemma complete_result s p ws id worker plan t st' s' :
  complete_compiler_job key s p ws id worker plan t = (Ok st', s') →
  ∃ st, status_at (sb_view s) ws id = Some st ∧ holds_lease st worker t = true ∧ js_workspace_id st' = ws ∧
    js_job_id st' = id.
Proof using Hst.
  intros [b E]%lcommit_ok. unfold complete_compiler_job_plan in E. binds E.
  match goal with x : MemoryCompilerJob * _ |- _ => destruct x as [j st] end. binds E. injection E as <- _.
  apply leased_job_ok in E6 as (_ & _ & _ & _ & Hs & Hh & Hw & Hd). by exists st.
Qed.

Lemma fail_result s p ws id worker code r delay t st' s' :
  fail_compiler_job key s p ws id worker code r delay t = (Ok st', s') →
  ∃ st, status_at (sb_view s) ws id = Some st ∧ holds_lease st worker t = true ∧ js_workspace_id st' = ws ∧
    js_job_id st' = id.
Proof using Hst.
  intros [b E]%lcommit_ok. unfold fail_compiler_job_plan in E. binds E.
  match goal with x : MemoryCompilerJob * _ |- _ => destruct x as [j st] end. binds E. injection E as <- _.
  apply leased_job_ok in E6 as (_ & _ & _ & _ & Hs & Hh & Hw & Hd). exists st. split; [done|]. split; [done|].
  unfold after_failure in E8. destruct (r && _); [binds E8|]; by injection E8 as <-.
Qed.

Lemma due_claimable j st now : due j st now →
  js_state st = JPending ∨ js_state st = JRunning ∧ ∃ e, js_lease_expires_at_ms st = Some e ∧ e ≤ now.
Proof using.
  intros [[[H1' _]%eligible_pending_ok|H2']%orb_true_iff _]; [by left|right]. by apply expired_running_ok in H2'.
Qed.

(** While a lease runs, a call that does not end it neither changes nor reports its job. *)
Lemma lease_kept s c ws id j st worker until :
  jobs_inv (sb_view s) → jop_typed (jc_op c) → small ws → small id → job_wf (sb_view s) ws id j st →
  js_state st = JRunning → js_lease_owner_id st = Some worker → js_lease_expires_at_ms st = Some until →
  ¬ ends_lease (jc_op c) ws id worker until →
  job_wf (sb_view (jstep s c).2) ws id j st ∧ ¬ reports (jstep s c).1 ws id.
Proof using Hlaws Hst.
  intros Hi Ht Hw Hd Hwf Hr Ho Hu Hn. split.
  - destruct (jstep_change s c ws id Hi Ht Hw Hd) as [Ha|j' _ Hno _|j' st1 st2 fo Hwf1 _ Hm].
    + eapply job_wf_agrees; [done|done| |exact Hwf]. done.
    + by destruct (wf_not_new _ _ _ _ _ Hw Hd Hwf Hno).
    + destruct (wf_unique _ _ _ _ _ _ _ Hwf Hwf1) as [-> ->]. destruct Hwf as [_ _ [<- <-] _ _ _ _ _ _]. exfalso. apply Hn.
      destruct Hm as [w now lease fo err Hl _|w now lease fo err Hl _|w plan t Hh|w code delay t f Hh _ _|w code r delay t f Hh _ _];
        cbn [ends_lease];
        first [apply holds_lease_ok in Hh as (_ & Hh & _); split_and!; congruence
              |destruct Hl as [[? _]%eligible_pending_ok|f (_ & e & He & Hle)%expired_running_ok _];
               [congruence|split; [done|congruence]]].
  - unfold jstep. destruct (jc_op c) as [j1|ws1 w now lease|ws1 id1 w plan t|ws1 id1 w code r delay t].
    + by destruct (enqueue_compiler_job _ _ _ _).
    + destruct (claim_next_compiler_job _ _ _ _ _ _ _) as [[[cl|]|] s'] eqn:E; cbn [fst reports]; try tauto.
      intros [E1 E2]. destruct (claim_result _ _ _ _ _ _ _ _ Hi Ht E) as (st1 & err & Hwf1 & Hdue & _).
      assert (ws1 = ws) as -> by (destruct Hwf1 as [_ _ [? _] _ _ _ _ _ _]; congruence). rewrite E2 in Hwf1.
      destruct (wf_unique _ _ _ _ _ _ _ Hwf Hwf1) as [_ ->]. apply Hn. cbn. split; [done|].
      apply due_claimable in Hdue as [?|(_ & e & He & Hle)]; [congruence|]. assert (e = until) as -> by congruence. done.
    + destruct (complete_compiler_job _ _ _ _ _ _ _ _) as [[st1|] s'] eqn:E; cbn [fst reports]; try tauto.
      apply complete_result in E as (st0 & Hs & (_ & Hh & _)%holds_lease_ok & -> & ->). intros [-> ->].
      apply Hn. destruct Hwf as [_ Hs' _ _ _ _ _ _ _]. cbn. split_and!; congruence.
    + destruct (fail_compiler_job _ _ _ _ _ _ _ _ _ _) as [[st1|] s'] eqn:E; cbn [fst reports]; try tauto.
      apply fail_result in E as (st0 & Hs & (_ & Hh & _)%holds_lease_ok & -> & ->). intros [-> ->].
      apply Hn. destruct Hwf as [_ Hs' _ _ _ _ _ _ _]. cbn. split_and!; congruence.
Qed.

Lemma wf_spared m m' ws id j st : small ws → small id → spares m m' → job_wf m ws id j st → job_wf m' ws id j st.
Proof using. intros Hw Hd Hs Hwf. eapply job_wf_agrees; [done|done| |exact Hwf]. intros. apply Hs, jenc_job_key. Qed.

Lemma lease_kept_along s ws id j st worker until more s' :
  jobs_inv (sb_view s) → small ws → small id → job_wf (sb_view s) ws id j st →
  js_state st = JRunning → js_lease_owner_id st = Some worker → js_lease_expires_at_ms st = Some until →
  jsteps s more s' → Forall (λ x, ¬ ends_lease (jc_op x.1) ws id worker until) more →
  job_wf (sb_view s') ws id j st ∧ Forall (λ x, ¬ reports x.2 ws id) more.
Proof using Hlaws Hst.
  intros Hi Hw Hd Hwf Hr Ho Hu Hl. induction Hl as [|l s1 c Hl IH Ht|l s1 s2 Hl IH Hs]; intros Hq; [done| |].
  - apply Forall_app in Hq as [Hq Hc]. apply Forall_cons in Hc as [Hc _]. destruct (IH Hq) as [Hwf1 Hrep].
    destruct (lease_kept s1 c ws id j st worker until) as [Hwf2 Hrep2]; try done.
    { by eapply steps_inv. }
    split; [done|]. apply Forall_app. split; [done|]. by repeat constructor.
  - destruct (IH Hq) as [Hwf1 Hrep]. split; [|done]. by eapply wf_spared.
Qed.

(** C18: a lease is exclusive: after a worker was given a job, and until a claim
    at or after the end of the lease, or a call of that worker on the job, the job
    keeps the status it was given, and no call hands it out, completes it or fails
    it. *)
Theorem lease_is_exclusive s0 l s p ws worker now lease cl more s' :
  let c := mkJCall p (JClaim ws worker now lease) in
  let id := jb_job_id (cl_job cl) in
  jreached s0 l s → jop_typed (jc_op c) → (jstep s c).1 = RJClaim (Ok (Some cl)) →
  jsteps (jstep s c).2 more s' →
  Forall (λ x, ¬ ends_lease (jc_op x.1) ws id worker (now + lease)) more →
  status_at (sb_view s') ws id = Some (cl_status cl) ∧ Forall (λ x, ¬ reports x.2 ws id) more.
Proof using Hlaws Hst.
  intros c id Hr Ht Hc Hm Hq. apply reached_jobs in Hr as Hi.
  destruct (claim_next_compiler_job key s p ws worker now lease) as [r s1] eqn:E.
  assert (jstep s c = (RJClaim r, s1)) as Ej by (unfold jstep, c; cbn [jc_op jc_proof]; by rewrite E).
  rewrite Ej in Hc, Hm. injection Hc as ->. cbn [snd] in Hm.
  destruct (claim_result _ _ _ _ _ _ _ _ Hi Ht E) as (st & err & Hwf & _ & Ec & Hs).
  assert (small ws ∧ small id) as [Hw Hd].
  { destruct Hwf as [_ _ [<- _] Hv _ _ _ _ _]. by apply job_validated in Hv as (? & ? & _). }
  assert (jobs_inv (sb_view s1)) as Hi1.
  { replace s1 with (jstep s c).2 by by rewrite Ej. eapply effect_jobs; [exact Hi|exact Ht|by apply jstep_effect]. }
  destruct (ji_jobs _ Hi1 ws id Hw Hd) as [Hn|(j1 & st1 & Hwf1)].
  { destruct (no_job_status _ _ _ Hn Hw Hd) as [Hx _]. unfold id in Hx. congruence. }
  assert (st1 = cl_status cl) as -> by (destruct Hwf1; unfold id in *; congruence).
  destruct (lease_kept_along s1 ws id j1 (cl_status cl) worker (now + lease) more s') as [[] Hrep]; try done; by rewrite Ec.
Qed.

(** ** Claims on a reliable store *)

Context `{Hsha : !Sha256Laws, Hrel : !StorageReliable S}.

Lemma status_valid_iff st j :
  status_validate st j = Ok tt ↔
  js_schema_version st = MEMORY_SCHEMA_VERSION ∧ js_job_id st = jb_job_id j ∧ js_workspace_id st = jb_workspace_id j ∧
  js_attempt_count st ≤ jb_max_attempts j ∧ js_next_attempt_at_ms st ≠ 0 ∧ js_updated_at_ms st ≠ 0 ∧
  validate_optional (validate_id "lease_owner_id") (js_lease_owner_id st) = Ok tt ∧
  validate_optional (Compiler.validate_sha256 "plan_sha256") (js_plan_sha256 st) = Ok tt ∧
  validate_optional (validate_id "last_error_code") (js_last_error_code st) = Ok tt ∧ state_malformed st = false.
Proof using.
  unfold status_validate. checks.
  rewrite !orb_false_iff, !negb_false_iff, !String.eqb_eq, Z.eqb_eq, Z.gtb_ltb, Z.ltb_ge, !Z.eqb_neq. tauto.
Qed.

Lemma local_id_valid f g v : validate_local_id f v = Ok tt → validate_id g v = Ok tt.
Proof using.
  unfold validate_local_id, LedgerModel.validate_text, validate_id, Compiler.validate_text. intros V. binds V. checks.
  by destruct (_ || _ || _ || _).
Qed.

(** The name of a field appears only in the message of a refusal. *)
Lemma id_field f g v : validate_id f v = Ok tt → validate_id g v = Ok tt.
Proof using. unfold validate_id, Compiler.validate_text. by checks. Qed.

Lemma expired_code f : validate_id f "LEASE_EXPIRED" = Ok tt.
Proof using. by vm_compute. Qed.

Lemma put_total {A} `{!Serde A} k (a : A) : is_Some (json_of a) → ∃ o, put_record k a = Ok o.
Proof using. intros [b Hb]. unfold put_record. rewrite Hb. cbn. eauto. Qed.

(** The record of an expired lease is valid. *)
Lemma expired_failure m ws id j st now worker r :
  job_wf m ws id j st → js_state st = JRunning → js_lease_owner_id st = Some worker → 0 < now →
  ∃ f, compiler_job_failure j (js_attempt_count st) worker "LEASE_EXPIRED" r now = Ok f.
Proof using Hsha.
  intros [_ _ _ Hv Hs Hn _ _ _] Hr Ho Hnow. apply running_lease in Hs as Hc; [|done].
  apply status_valid_iff in Hs as (_ & _ & _ & Hle & _ & _ & Hw & _). rewrite Ho in Hw. cbn in Hw.
  unfold compiler_job_failure. set (f := mkJobFailure _ _ _ _ _ _ _ _ _).
  assert (failure_validate f j = Ok tt) as ->; [|by eexists].
  unfold failure_validate, f. checks. cbn.
  rewrite !orb_false_iff, !negb_false_iff, !String.eqb_refl, Z.gtb_ltb, Z.ltb_ge, !Z.eqb_neq.
  split_and!; try first [done|lia].
  - apply prefixed_id; [|by vm_compute]. repeat constructor; by vm_compute.
  - eapply id_field. exact Hw.
Qed.

Lemma claim_status_total s ws j st :
  jobs_inv (sb_view s) → stored_job (sb_view s) ws j → status_at (sb_view s) ws (jb_job_id j) = Some st →
  load_compiler_job_status_unlocked s ws (jb_job_id j) = Ok (Some st) ∧
  job_wf (sb_view s) ws (jb_job_id j) j st.
Proof using Hst Hrel.
  intros Hi Hj Hs. destruct (stored_small _ _ _ Hj) as [Hw Hd]. destruct Hj as (Hj & _ & Ew).
  destruct (inv_job _ _ _ _ Hi Hw Hd Hj) as (st0 & Hwf). assert (st0 = st) as -> by (destruct Hwf; congruence).
  split; [|done]. destruct Hwf as [_ _ _ _ Hv _ _ _ _]. apply status_ids in Hv as (E1 & E2 & _).
  unfold load_compiler_job_status_unlocked. rewrite get_eq. cbn. unfold status_at, jrec in Hs. cbn [jenc] in Hs.
  destruct (sb_view s !! _) as [b|]; [|discriminate]. cbn in Hs |- *. unfold decode_record. rewrite Hs. cbn.
  by rewrite E1, E2, Ew, !String.eqb_refl.
Qed.

Lemma claim_one_total s ws worker now lease j :
  jobs_inv (sb_view s) → stored_job (sb_view s) ws j → validate_local_id "worker_id" worker = Ok tt →
  0 < now → 0 < lease → ∃ d, claim_one s ws worker now (now + lease) j = Ok d.
Proof using Hst Hrel Hlaws Hsha.
  intros Hi Hj Hwk Hnow Hlease. destruct (stored_small _ _ _ Hj) as [Hw Hd].
  destruct (inv_job _ _ _ _ Hi Hw Hd (proj1 Hj)) as (st & Hwf).
  destruct (claim_status_total s ws j st Hi Hj (jw_status _ _ _ _ _ Hwf)) as [Hload _].
  unfold claim_one. rewrite Hload. cbn [result_bind ok_or].
  pose proof (jw_status_valid _ _ _ _ _ Hwf) as Hsv. rewrite Hsv. cbn [result_bind lcorrupt]. cbv zeta.
  apply status_valid_iff in Hsv as (V1 & V2 & V3 & V4 & V5 & V6 & V7 & V8 & V9 & V10).
  destruct (negb _ && negb _) eqn:C; [by eexists|].
  assert (∃ failed, (if expired_running st now then
      let? failure := compiler_job_failure j (js_attempt_count st) (default "expired-worker" (js_lease_owner_id st))
                        "LEASE_EXPIRED" (js_attempt_count st <? jb_max_attempts j) now in
      let? operation := put_record (compiler_job_failure_key ws (jb_job_id j) (js_attempt_count st)) failure in
      Ok [operation] else Ok []) = Ok failed) as [failed ->].
  { destruct (expired_running st now) eqn:Ex; [|by eexists]. apply expired_running_ok in Ex as (Er & _).
    unfold state_malformed in V10. rewrite Er, !orb_false_iff, negb_false_iff, bool_decide_eq_true in V10.
    destruct V10 as [[[_ [w Ho]] _] _]. rewrite Ho. change (default _ (Some w)) with w.
    destruct (expired_failure _ _ _ _ _ now w (js_attempt_count st <? jb_max_attempts j) Hwf Er Ho Hnow) as [f ->]. cbn [result_bind].
    destruct (put_total (compiler_job_failure_key ws (jb_job_id j) (js_attempt_count st)) f) as [o ->]; [apply failure_encodes|].
    by eexists. }
  cbn [result_bind]. set (err := if expired_running st now then Some "LEASE_EXPIRED" else js_last_error_code st).
  assert (validate_optional (validate_id "last_error_code") err = Ok tt) as Herr.
  { unfold err. destruct (expired_running st now); [apply expired_code|done]. }
  destruct (js_attempt_count st >=? jb_max_attempts j) eqn:Hm; rewrite Z.geb_leb in Hm.
  - assert (status_validate (buried_status st err now) j = Ok tt) as ->.
    { apply status_valid_iff. cbn. rewrite andb_false_iff, !negb_false_iff in C. apply Z.leb_le in Hm.
      destruct C as [[Ep _]%eligible_pending_ok|Ex].
      { pose proof (jw_pending _ _ _ _ _ Hwf Ep). lia. }
      unfold err. rewrite Ex. cbn. apply expired_running_ok in Ex as (Er & _). apply (running_lease st j) in Er; [|by destruct Hwf].
      pose proof (jw_attempts _ _ _ _ _ Hwf). split_and!; try first [done|lia]. }
    cbn [result_bind lcorrupt]. destruct (put_total (compiler_job_status_key ws (jb_job_id j)) (buried_status st err now)) as [o ->]; [apply status_encodes|].
    by eexists.
  - apply Z.leb_gt in Hm. pose proof (attempts_small _ _ _ _ _ Hwf) as Ha.
    destruct (job_validated j (jw_valid _ _ _ _ _ Hwf)) as (_ & _ & _ & Hmax). unfold MAX_MEMORY_COMPILER_JOB_ATTEMPTS in Hmax.
    unfold checked_add. rewrite (proj2 (Z.leb_le _ _)) by int_lia. cbn [result_bind ok_or].
    assert (status_validate (taken_status st err (js_attempt_count st + 1) worker (now + lease) now) j = Ok tt) as ->.
    { apply status_valid_iff. cbn. split_and!; try first [done|lia|by eapply local_id_valid]. }
    cbn [result_bind lcorrupt]. destruct (put_total (compiler_job_status_key ws (jb_job_id j)) (taken_status st err (js_attempt_count st + 1) worker (now + lease) now)) as [o ->];
      [apply status_encodes|]. by eexists.
Qed.

Lemma claim_first_total s ws worker now lease jobs :
  jobs_inv (sb_view s) → jop_typed (JClaim ws worker now lease) → Forall (stored_job (sb_view s) ws) jobs →
  validate_local_id "worker_id" worker = Ok tt → 0 < now → 0 < lease →
  ∃ r, (claim_first s ws worker now (now + lease) jobs).1 = Ok r.
Proof using Hst Hrel Hlaws Hsha.
  intros Hi Ht Hjs Hwk Hnow Hl. revert s Hi Hjs. induction jobs as [|j jobs IH]; intros s Hi Hjs; [by eexists|].
  apply Forall_cons in Hjs as [Hj Hjs]. cbn [claim_first].
  destruct (claim_one_total s ws worker now lease j Hi Hj Hwk Hnow Hl) as [d Ed]. rewrite Ed.
  destruct (claim_one_ok _ _ _ _ _ _ _ Ed Hj) as (st & _ & _ & Hd). destruct d as [|ops|st' ops]; [by apply IH| |].
  - destruct Hd as (_ & _ & Hb). pose proof (reliable_write_batch_sync s ops) as Hw.
    destruct (sb_write_batch_sync s ops) as [[u|e] s'] eqn:Ew; [|discriminate]. apply write_effect_ok in Ew.
    apply IH; rewrite Ew; [by eapply jbatch_inv|]. eapply Forall_impl; [exact Hjs|]. intros j' Hj'. by eapply bury_stored.
  - unfold lcommit. pose proof (reliable_write_batch_sync s ops) as Hw.
    destruct (sb_write_batch_sync s ops) as [[u|e] s'] eqn:Ew; [|discriminate]. by eexists.
Qed.

(** A claim with a proof and arguments that are accepted. *)
Record claim_accepted p ws worker (now lease : Z) : Prop := {
  ca_proof : authorize_workspace_capability key p ws ["memory.admin"] = Ok tt;
  ca_workspace : validate_local_id "workspace_id" ws = Ok tt;
  ca_worker : validate_local_id "worker_id" worker = Ok tt;
  ca_now : 0 < now;
  ca_lease : 0 < lease ≤ MAX_LEASE_MS;
  ca_end : now + lease ≤ u64_max;
}.

(** A job with its status, in a namespace of the proof. *)
Definition open_job m p ws j (st : MemoryCompilerJobStatus) : Prop :=
  stored_job m ws j ∧ status_at m ws (jb_job_id j) = Some st ∧ is_ok (authorize_namespace p (jb_namespace j)) = true.

#[local] Instance job_cmp_total : TotalCmp job_cmp.
Proof using.
  apply (TotalCmp_then (λ a b, jb_scheduled_at_ms a ?= jb_scheduled_at_ms b) (λ a b, bytes_cmp (jb_job_id a) (jb_job_id b))).
  - apply (TotalCmp_on jb_scheduled_at_ms Z.compare TotalCmp_Z).
  - apply (TotalCmp_on jb_job_id bytes_cmp TotalCmp_bytes).
Qed.

Lemma job_key_prefix ws id : starts_with (jenc (KJob ws id)) (compiler_job_prefix ws) = true.
Proof using.
  rewrite jenc_components. unfold compiler_job_prefix. rewrite scoped_components. apply starts_with_spec.
  exists (component id). cbn [jkind jparts components foldr]. by rewrite !app_nil_str, !app_assoc_str.
Qed.

(** A row of the scan of a workspace is one of its jobs. *)
Lemma scanned_row m p ws k v :
  jobs_inv m → small ws → m !! k = Some v → starts_with k (compiler_job_prefix ws) = true →
  ∃ j, stored_job m ws j ∧ k = jenc (KJob ws (jb_job_id j)) ∧ scanned_job p ws (k, v)
    = Ok (if is_ok (authorize_namespace p (jb_namespace j)) then Some j else None).
Proof using.
  intros Hi Hw Hk Hp. destruct (ji_keys _ Hi ws k Hw Hp) as (id & -> & Hd); [by rewrite Hk|].
  destruct (ji_jobs _ Hi ws id Hw Hd) as [Hn|(j & st & [Hj _ [Ew Ed] Hv _ _ _ _ _])].
  { rewrite Hn in Hk; [discriminate|jok_tac|done]. }
  exists j. rewrite Ed. split_and!; [|done|].
  - split; [by rewrite Ed|done].
  - unfold job_at, jrec in Hj. rewrite Hk in Hj. cbn in Hj. unfold scanned_job, decode_record. cbn [snd].
    rewrite Hj. cbn [result_bind]. rewrite Hv. cbn [result_bind lcorrupt]. by rewrite Ew, String.eqb_refl.
Qed.

Lemma claim_candidates_total s p ws worker now lease :
  jobs_inv (sb_view s) → claim_accepted p ws worker now lease →
  Zlength (entries_with_prefix (sb_view s) (compiler_job_prefix ws)) ≤ 100000 →
  ∃ jobs, claim_candidates key s p ws worker now lease = Ok (now + lease, jobs) ∧
    StronglySorted (cmp_le job_cmp) jobs ∧
    ∀ j, j ∈ jobs ↔ stored_job (sb_view s) ws j ∧ is_ok (authorize_namespace p (jb_namespace j)) = true.
Proof using Hst Hrel.
  intros Hi [Hp Hws Hwk Hnow [Hl1 Hl2] Hend] Hlen. unfold claim_candidates. rewrite Hp, Hws, Hwk. cbn [result_bind].
  rewrite (proj2 (Z.eqb_neq now 0)), (proj2 (Z.eqb_neq lease 0)), Z.gtb_ltb, (proj2 (Z.ltb_ge _ _)) by lia.
  cbn [orb]. unfold checked_add. rewrite (proj2 (Z.leb_le _ _)) by done. cbn [ok_or result_bind].
  apply local_id_small in Hws. pose proof (reliable_scan s (compiler_job_prefix ws) (Some 100000)) as Hsc.
  destruct (sb_scan_prefix_limited _ _ _) as [rows|] eqn:Er; [|discriminate]. apply sb_scan_prefix_limited_ok in Er.
  cbn [lstored result_bind].
  assert (rows = entries_with_prefix (sb_view s) (compiler_job_prefix ws)) as ->.
  { rewrite Er. cbn [take_limit]. apply take_ge, Nat2Z.inj_le. by rewrite Z2Nat.id by lia. }
  clear Er Hsc. set (rows := entries_with_prefix _ _).
  assert (∀ x, x ∈ rows → ∃ j, stored_job (sb_view s) ws j ∧ x.1 = jenc (KJob ws (jb_job_id j)) ∧ scanned_job p ws x
    = Ok (if is_ok (authorize_namespace p (jb_namespace j)) then Some j else None)) as Hrow.
  { intros [k v] [Hk Hpre]%elem_of_entries_with_prefix. by apply scanned_row. }
  destruct (collect_total (scanned_job p ws) rows) as [js Hjs].
  { intros x (j & _ & _ & ->)%Hrow. done. }
  rewrite Hjs. cbn [result_bind]. eexists. split; [done|]. split; [apply sort_by_sorted, _|].
  intros j. rewrite elem_of_sort_by. apply collect_Forall2 in Hjs. split.
  - intros (o & Ho & ->)%list_elem_of_omap. apply list_elem_of_lookup_1 in Ho as [i Ho].
    destruct (Forall2_lookup_r _ _ _ _ _ Hjs Ho) as (x & Hx & E). apply list_elem_of_lookup_2, Hrow in Hx as (j' & Hj' & _ & E').
    rewrite E in E'. injection E' as E'. destruct (is_ok _) eqn:Hok; [|discriminate]. by injection E' as ->.
  - intros [Hj Hok]. destruct (stored_small _ _ _ Hj) as [_ Hd]. pose proof Hj as (Hja & _ & _).
    unfold job_at, jrec in Hja. destruct (sb_view s !! jenc (KJob ws (jb_job_id j))) as [v|] eqn:Hv; [|discriminate].
    assert ((jenc (KJob ws (jb_job_id j)), v) ∈ rows) as Hin.
    { apply elem_of_entries_with_prefix. split; [done|apply job_key_prefix]. }
    destruct (Hrow _ Hin) as (j' & Hj' & E & Hsc). cbn [fst] in E. apply jenc_inj in E; [|jok_tac|].
    2: { destruct (stored_small _ _ _ Hj'). jok_tac. }
    injection E as E. assert (j' = j) as -> by (destruct Hj as [? _], Hj' as [? _]; congruence).
    apply list_elem_of_lookup_1 in Hin as [i Hin]. destruct (Forall2_lookup_l _ _ _ _ _ Hjs Hin) as (y & Hy & Ey).
    rewrite Hsc, Hok in Ey. injection Ey as <-. apply list_elem_of_omap. exists (Some j). split; [|done].
    by eapply list_elem_of_lookup_2.
Qed.

(** Of the jobs of a workspace, the order of the queue tells any two apart. *)
Lemma job_cmp_first m ws j j' :
  stored_job m ws j → stored_job m ws j' → cmp_le job_cmp j j' → j' = j ∨ job_cmp j j' = Lt.
Proof using.
  unfold cmp_le. intros [Hj _] [Hj' _] Hle. destruct (job_cmp j j') eqn:E; [|by right|done]. left.
  unfold job_cmp, then_with in E. destruct (_ ?= _); try discriminate. apply bytes_cmp_Eq in E. congruence.
Qed.

(** C19: with a store that does not fail and holds at most 100000 job rows of the
    workspace (the limit of the scan, see [claim_candidates]), a claim with an
    accepted proof and arguments always answers: with the job that is due, in the order of schedule
    and id, before all others the proof may see, now held by the worker until the
    lease ends; or with none, when no such job is due. *)
Theorem claim_takes_first_due s0 l s p ws worker now lease :
  jreached s0 l s → claim_accepted p ws worker now lease →
  Zlength (entries_with_prefix (sb_view s) (compiler_job_prefix ws)) ≤ 100000 →
  match (claim_next_compiler_job key s p ws worker now lease).1 with
  | Err _ => False
  | Ok None => ∀ j st, open_job (sb_view s) p ws j st → ¬ due j st now
  | Ok (Some cl) =>
      ∃ st, open_job (sb_view s) p ws (cl_job cl) st ∧ due (cl_job cl) st now ∧
        lease_of (cl_status cl) = Held (js_attempt_count st + 1) worker (now + lease) ∧
        ∀ j st', open_job (sb_view s) p ws j st' → due j st' now → j = cl_job cl ∨ job_cmp (cl_job cl) j = Lt
  end.
Proof using Hst Hrel Hlaws Hsha.
  intros Hr Hca Hlen. apply reached_jobs in Hr as Hi.
  destruct (claim_candidates_total s p ws worker now lease Hi Hca Hlen) as (jobs & Ec & Hsort & Hin).
  destruct Hca as [_ _ Hwk Hnow [Hl1 Hl2] Hend].
  assert (jop_typed (JClaim ws worker now lease)) as Ht.
  { unfold MAX_LEASE_MS in Hl2. split; unfold in_range, u64_max in *; lia. }
  assert (Forall (stored_job (sb_view s) ws) jobs) as Hjs by (apply Forall_forall; intros j Hj; by apply Hin).
  unfold claim_next_compiler_job. rewrite Ec.
  destruct (claim_first_total s ws worker now lease jobs Hi Ht Hjs Hwk Hnow Hl1) as [r Er].
  destruct (claim_first s ws worker now (now + lease) jobs) as [r' s'] eqn:E. cbn [fst] in *. subst r'.
  destruct (claim_first_due _ _ _ _ _ _ _ _ Hi Ht Hjs E) as [Hf _]. destruct r as [cl|]; cbn in Hf.
  - destruct Hf as (pre & post & st & err & -> & Hs & Hd & Hc & Hpre).
    assert (cl_job cl ∈ pre ++ cl_job cl :: post) as Hcl by (apply elem_of_app; right; by left).
    exists st. apply Hin in Hcl as [Hst' Hok]. split_and!; [done|done|by rewrite Hc|].
    intros j st' (Hj & Hsj & Hokj) Hdue. pose proof (proj2 (Hin j) (conj Hj Hokj)) as Hjj.
    apply elem_of_app in Hjj as [Hjj|[-> |Hjj]%elem_of_cons]; [by destruct (Hpre j st' Hjj Hsj)|by left|].
    eapply job_cmp_first; [done|done|]. apply StronglySorted_app_1_r in Hsort.
    apply StronglySorted_inv in Hsort as [_ Hall]. rewrite Forall_forall in Hall. by apply Hall.
  - intros j st (Hj & Hsj & Hokj). apply Hf; [by apply Hin|done].
Qed.
End runs.

(** ** One store for the ledger and its queue *)

Section shared.
Context `{!UnicodeNormalization, !CharTables, !ContentCodec, !CompilerCodec, !LedgerCodec, !JobCodec, !Sha256, !Hmac}.
Context `{Hledger : !LedgerCodecLaws, Hlaws : !JobCodecLaws}.
Context {S : Type} `{!StorageBackend S, Hst : !StorageLaws S} (key : list Z).
Implicit Types (s : S) (m : gmap string string).

(** Calls of the ledger and of the queue, in any order. *)
Inductive shared_steps (s0 : S) : list lcall → list (jcall * jresult) → S → Prop :=
| SharedStart : shared_steps s0 [] [] s0
| SharedLedger calls l s c :
    shared_steps s0 calls l s → draw c ∉ draw <$> calls → shared_steps s0 (calls ++ [c]) l (lstep key s c).2
| SharedQueue calls l s c :
    shared_steps s0 calls l s → jop_typed (jc_op c) →
    shared_steps s0 calls (l ++ [(c, (jstep key s c).1)]) (jstep key s c).2.

Lemma ledger_effect_spares m c m' : call_effect m c m' → spares m m'.
Proof using.
  intros He k Hk.
  assert (∀ ops, (∀ o, o ∈ ops → ∃ k', op_key o = kenc k') → apply_batch m ops !! k = m !! k) as Ha.
  { intros ops Ho. apply apply_batch_other. intros o Hin. destruct (Ho o Hin) as [k' ->]. intros <-. by apply ledger_key_spares in Hk. }
  destruct He as [-> |w cm ops [_ [Hok (L & HL & HP & _) _ _] _ _ _] -> |ops Hpo ->]; [done|apply Ha..].
  - apply lseq_spec in HL as (lp & -> & _). intros o ([k' v] & -> & _)%list_elem_of_fmap. by exists k'.
  - intros o Ho. destruct (Hpo o Ho) as (k' & _ & Eo). by exists k'.
Qed.

Lemma queue_effect_spares o m m' k : jobs_inv m → jop_typed o → jeffect o m m' → m' !! kenc k = m !! kenc k.
Proof using Hlaws.
  intros Hi Ht He. induction He as [m|m m' ws id ops Hb He IH]; [done|]. rewrite IH; [|by eapply jbatch_inv].
  destruct (jbatch_shape o m ws id ops Hi Hb) as (L & -> & _). apply apply_batch_other.
  intros x ([k' v] & -> & _)%list_elem_of_fmap E. cbn in E. apply (ledger_key_spares k). rewrite <-E. apply jenc_job_key.
Qed.

Lemma linv_same drawn m m' : (∀ k, m' !! kenc k = m !! kenc k) → linv drawn m → linv drawn m'.
Proof using.
  intros Hs [Hwf Hd]. split.
  - intros ws Hw. apply (wf_agrees m m'); [done| |by apply Hwf]. intros k _ _ _ _. apply Hs.
  - intros ws v Hw Hv. rewrite Hs. by apply Hd.
Qed.

(** What holds of the ledger and what holds of the queue hold together. *)
Lemma shared_reached s0 calls l s :
  no_ledger (sb_view s0) → shared_steps s0 calls l s →
  linv (draw <$> calls) (sb_view s) ∧ jreached key s0 l s.
Proof using Hledger Hlaws Hst.
  intros Hn Hs. assert (∀ k, job_key k → sb_view s0 !! k = None) as Hj.
  { intros k (kind & rest & _ & ->). apply Hn, starts_with_app. }
  induction Hs as [|calls l s c _ IH Hf|calls l s c _ IH Ht].
  - split; [by apply linv_start|]. split; [done|constructor].
  - destruct IH as [Hi [_ Hr]]. pose proof (lstep_effect key _ s c Hi Hf) as He. split.
    + rewrite fmap_app. pose proof (effect_inv _ _ _ _ He Hi) as Hi'. split; [apply Hi'|].
      intros ws v Hw Hv Hx. apply (li_drawn _ _ Hi' ws v Hw Hv) in Hx. rewrite elem_of_app. set_solver.
    + split; [done|]. eapply StepsOther; [exact Hr|]. by eapply ledger_effect_spares.
  - destruct IH as [Hi Hr]. split; [|split; [done|constructor; [apply Hr|done]]].
    eapply linv_same; [|exact Hi]. intros k. apply reached_jobs in Hr as Hq.
    eapply queue_effect_spares; [exact Hq|exact Ht|by apply jstep_effect].
Qed.
End shared.

(** ** Examples *)

Module JobExamples.
Import FnvDigest Trees AsciiTables LedgerExample.

Definition job_tree (j : MemoryCompilerJob) : tree :=
  GenNode 0 [Z_ (jb_schema_version j); S_ (jb_job_id j); S_ (jb_workspace_id j); S_ (jb_namespace j);
    strs_tree (jb_observation_ids j); S_ (jb_compiler_artifact_id j); S_ (jb_policy_manifest_id j);
    Z_ (jb_scheduled_at_ms j); Z_ (jb_max_attempts j); Z_ (jb_created_at_ms j);
    S_ (jb_created_by_principal_id j); S_ (jb_job_sha256 j)].
Definition tree_job (t : tree) : option MemoryCompilerJob :=
  match t with
  | GenNode 0 [Z_ a; S_ b; S_ c; S_ d; e; S_ f; S_ g; Z_ h; Z_ i; Z_ j; S_ k; S_ l] =>
      e ← tree_strs e; Some (mkJob a b c d e f g h i j k l)
  | _ => None
  end.

Definition job_states : list MemoryCompilerJobState := [JPending; JRunning; JSucceeded; JDeadLetter].
Definition job_state_code (s : MemoryCompilerJobState) : Z :=
  match s with JPending => 0 | JRunning => 1 | JSucceeded => 2 | JDeadLetter => 3 end.

Definition job_status_tree (s : MemoryCompilerJobStatus) : tree :=
  GenNode 0 [Z_ (js_schema_version s); S_ (js_job_id s); S_ (js_workspace_id s); Z_ (job_state_code (js_state s));
    Z_ (js_attempt_count s); Z_ (js_next_attempt_at_ms s); opt_tree str_tree (js_lease_owner_id s);
    opt_tree num_tree (js_lease_expires_at_ms s); opt_tree str_tree (js_plan_sha256 s);
    opt_tree str_tree (js_last_error_code s); Z_ (js_updated_at_ms s)].
Definition tree_job_status (t : tree) : option MemoryCompilerJobStatus :=
  match t with
  | GenNode 0 [Z_ a; S_ b; S_ c; Z_ d; Z_ e; Z_ f; g; h; i; j; Z_ k] =>
      g ← tree_opt tree_str g; h ← tree_opt tree_num h; i ← tree_opt tree_str i; j ← tree_opt tree_str j;
      Some (mkJobStatus a b c (nth_of job_states JPending d) e f g h i j k)
  | _ => None
  end.

Definition job_failure_tree (f : MemoryCompilerJobFailure) : tree :=
  GenNode 0 [Z_ (jf_schema_version f); S_ (jf_failure_id f); S_ (jf_workspace_id f); S_ (jf_job_id f);
    Z_ (jf_attempt f); S_ (jf_worker_id f); S_ (jf_error_code f); Z_ (if jf_retryable f then 1 else 0);
    Z_ (jf_failed_at_ms f)].
Definition tree_job_failure (t : tree) : option MemoryCompilerJobFailure :=
  match t with
  | GenNode 0 [Z_ a; S_ b; S_ c; S_ d; Z_ e; S_ f; S_ g; Z_ h; Z_ i] => Some (mkJobFailure a b c d e f g (h =? 1) i)
  | _ => None
  end.

#[export] Instance job_codec : JobCodec := {
  serde_job := tree_serde (Some ∘ job_tree) tree_job;
  serde_job_status := tree_serde (Some ∘ job_status_tree) tree_job_status;
  serde_job_failure := tree_serde (Some ∘ job_failure_tree) tree_job_failure;
}.

#[export] Instance job_codec_laws : JobCodecLaws.
Proof.
  split; try apply tree_law; try (intros x; apply code_total).
  - intros j. unfold tree_job, job_tree. rewrite tree_strs_tree. by destruct j.
  - intros s. unfold tree_job_status, job_status_tree. rewrite !tree_opt_tree by done.
    by destruct s as [? ? ? [] ? ? ? ? ? ? ?].
  - by intros [? ? ? ? ? ? ? [] ?].
Qed.

#[export] Instance job_digests : CompilerCodec := {
  job_fields_to_vec f := line [f.1.1.1.1.1.1.1.1.1.2; f.2];
  candidate_to_vec _ := None;
  plan_fingerprint_to_vec _ := None;
  commit_plan_to_vec _ := None;
}.

(** Observations are read back by their id. *)
Definition demo_observation (id : string) : MemoryObservation :=
  mkObservation 1 id "ev1" (demo_scope "w") "chat" "msg1" None None None sha_a "" AuthenticatedAgent "p0" "alice" 1 5.

#[export] Instance observed : LedgerCodec := {
  serde_meta := write_only _;
  serde_assertion := write_only _;
  serde_version := write_only _;
  serde_evidence := write_only _;
  serde_observation := {| json_of o := Some (ob_observation_id o); of_json b := Some (demo_observation b) |};
  serde_derivation := write_only _;
  serde_relation := write_only _;
  serde_reinforcement := write_only _;
  serde_policy := write_only _;
  serde_head := write_only _;
  serde_lifecycle := write_only _;
  serde_mutation := write_only _;
  serde_idempotency := write_only _;
  serde_outbox := write_only _;
  serde_checkpoint := write_only _;
  serde_set_manifest := write_only _;
  serde_active_set := write_only _;
  commit_fingerprint_to_vec _ := None;
  observe_fingerprint_to_vec _ := None;
  forget_fingerprint_to_vec _ := None;
  reinforce_fingerprint_to_vec _ := None;
  proposal_fingerprint_to_vec _ := None;
  manifest_fingerprint_to_vec _ := None;
  selector_to_vec _ := None;
}.

Definition unsigned_job (id : string) (scheduled max : Z) : MemoryCompilerJob :=
  mkJob 1 id "w" "team" ["o1"] REFERENCE_TEXT_COMPILER_ARTIFACT_ID "policy" scheduled max 1 "alice" "".
Definition demo_job (id : string) (scheduled max : Z) : MemoryCompilerJob :=
  let j := unsigned_job id scheduled max in
  mkJob 1 id "w" "team" ["o1"] REFERENCE_TEXT_COMPILER_ARTIFACT_ID "policy" scheduled max 1 "alice"
    (match memory_compiler_job_sha256 j with Ok digest => digest | Err _ => "" end).

Definition queue_store : RocksDbBackend MemDB := mkBackend ({[observation_key "w" "o1" := "o1"]} : MemDB).
Definition admin (o : jop) : jcall := mkJCall (demo_proof "w" "memory.admin") o.

Fixpoint jrun (s : RocksDbBackend MemDB) (calls : list jop) : list (jcall * jresult) * RocksDbBackend MemDB :=
  match calls with
  | [] => ([], s)
  | o :: calls =>
      let (r, s) := jstep demo_key s (admin o) in
      let (rs, s) := jrun s calls in ((admin o, r) :: rs, s)
  end.

Lemma jsteps_trans s0 l s l' s' :
  jsteps demo_key s0 l s → jsteps demo_key s l' s' → jsteps (S := RocksDbBackend MemDB) demo_key s0 (l ++ l') s'.
Proof.
  intros Hl Hl'. induction Hl' as [|l' s1 c _ IH Ht|l' s1 s2 _ IH Hs]; [by rewrite app_nil_r| |by eapply StepsOther].
  rewrite app_assoc. by constructor.
Qed.

Lemma jrun_steps s calls : Forall jop_typed calls → jsteps demo_key s (jrun s calls).1 (jrun s calls).2.
Proof.
  intros Ht. revert s. induction Ht as [|o calls Ho _ IH]; intros s; [constructor|]. cbn [jrun].
  destruct (jstep demo_key s (admin o)) as [r s1] eqn:E. specialize (IH s1).
  destruct (jrun s1 calls) as [rs s2]. cbn [fst snd] in *. apply (jsteps_trans s [(admin o, r)] s1); [|done].
  pose proof (StepsCall demo_key s [] s (admin o) (StepsStart demo_key s) Ho) as H. by rewrite E in H.
Qed.

Lemma jrun_ops (P : jop → Prop) s calls : Forall P calls → Forall (λ x, P (jc_op x.1)) (jrun s calls).1.
Proof.
  intros Hp. revert s. induction Hp as [|o calls Ho _ IH]; intros s; [constructor|]. cbn [jrun].
  destruct (jstep demo_key s (admin o)) as [r s1]. specialize (IH s1). destruct (jrun s1 calls). by constructor.
Qed.

Lemma jstep_claim s p ws worker now lease :
  (jstep (S := RocksDbBackend MemDB) demo_key s (mkJCall p (JClaim ws worker now lease))).1
  = RJClaim (claim_next_compiler_job demo_key s p ws worker now lease).1.
Proof. unfold jstep. cbn [jc_op jc_proof]. by destruct (claim_next_compiler_job _ _ _ _ _ _ _). Qed.

Lemma no_queue k : job_key k → sb_view queue_store !! k = None.
Proof.
  intros Hk. apply lookup_singleton_ne. intros <-. by apply (ledger_key_spares (KObservation "w" "o1")).
Qed.

Definition queued : list jop := [JEnqueue (demo_job "j1" 10 2); JEnqueue (demo_job "j2" 5 1)].
Definition taken : list jop := queued ++ [JClaim "w" "wk" 20 100].
Definition after (calls : list jop) : RocksDbBackend MemDB := (jrun queue_store calls).2.

Lemma reached_after calls : Forall jop_typed calls → jreached demo_key queue_store (jrun queue_store calls).1 (after calls).
Proof. intros Ht. split; [apply no_queue|by apply jrun_steps]. Qed.

Ltac typed := repeat constructor; vm_compute; discriminate.

Definition overdue : list jop := taken ++ [JClaim "w" "wk2" 130 100].

Lemma jrun_snoc s calls o : (jrun s (calls ++ [o])).2 = (jstep demo_key (jrun s calls).2 (admin o)).2.
Proof.
  revert s. induction calls as [|o' calls IH]; intros s.
  { change ([] ++ [o]) with [o]. cbn [jrun fst snd]. by destruct (jstep demo_key s (admin o)). }
  change ((o' :: calls) ++ [o]) with (o' :: (calls ++ [o])). cbn [jrun].
  destruct (jstep demo_key s (admin o')) as [r s1]. specialize (IH s1).
  destruct (jrun s1 (calls ++ [o])) as [rs s2]. by destruct (jrun s1 calls).
Qed.

Definition demo_claim : ClaimedMemoryCompilerJob :=
  let j := demo_job "j2" 5 1 in mkClaimed j (taken_status (pending_status j) None 1 "wk" 120 20).
Definition first_claim : LResult (option ClaimedMemoryCompilerJob) :=
  (claim_next_compiler_job demo_key (after queued) (demo_proof "w" "memory.admin") "w" "wk" 20 100).1.

(** The job that was due first is given out, and put away when its only lease
    has expired; the other one is then given out. *)
Example demo_first_claim : first_claim = Ok (Some demo_claim).
Proof. vm_compute. reflexivity. Qed.
Example demo_leases :
  lease_at (sb_view (after taken)) "w" "j2" = Some (Held 1 "wk" 120) ∧
  lease_at (sb_view (after overdue)) "w" "j2" = Some (Dead 1 "LEASE_EXPIRED") ∧
  lease_at (sb_view (after overdue)) "w" "j1" = Some (Held 1 "wk2" 230) ∧
  job_at (sb_view (after overdue)) "w" "j2" = Some (demo_job "j2" 5 1).
Proof. vm_compute. repeat split. Qed.

Lemma queue_refines_leases_witness :
  ∃ j, job_at (sb_view (after taken)) "w" "j2" = Some j ∧
    lease_step "w" "j2" (jb_max_attempts j) (JClaim "w" "wk2" 130 100) (Held 1 "wk" 120) (Dead 1 "LEASE_EXPIRED").
Proof.
  assert (Forall jop_typed taken) as Ht by typed. destruct demo_leases as (E1 & E2 & _).
  unfold after, overdue in E2. rewrite jrun_snoc in E2. fold (after taken) in E2.
  destruct (queue_refines_leases demo_key queue_store _ _ (admin (JClaim "w" "wk2" 130 100)) "w" "j2" (reached_after taken Ht))
    as [[_ E]|[(j & E & _)|(j & x & x' & Hj & _ & Ex & Ex' & Hs)]]; [typed|reflexivity|reflexivity|congruence|discriminate E|].
  exists j. split; [exact Hj|]. rewrite E1 in Ex. rewrite E2 in Ex'. injection Ex as <-. injection Ex' as <-. exact Hs.
Defined.

Lemma attempts_are_accounted_witness :
  ∃ f, failure_at (sb_view (after overdue)) "w" "j2" 1 = Some f ∧ jf_attempt f = 1.
Proof.
  assert (Forall jop_typed overdue) as Ht by typed. destruct demo_leases as (_ & E2 & _ & Ej).
  destruct (attempts_are_accounted demo_key queue_store _ _ "w" "j2" (demo_job "j2" 5 1) (reached_after _ Ht))
    as (st & Hs & _ & _ & _ & Hf); [reflexivity|reflexivity|exact Ej|].
  unfold lease_at in E2. rewrite Hs in E2. injection E2 as El.
  destruct (Hf 1) as [Hf1 _]; [lia|]. destruct Hf1 as (f & Hfa & _ & Ha); [|exists f; split; [exact Hfa|exact Ha]].
  unfold lease_of in El. unfold ended. destruct (js_state st); try discriminate El. injection El as -> _. lia.
Defined.

Lemma claim_takes_first_due_witness :
  first_claim = Ok (Some demo_claim) ∧ lease_of (cl_status demo_claim) = Held 1 "wk" 120.
Proof.
  assert (Forall jop_typed queued) as Ht by typed.
  assert (claim_accepted demo_key (demo_proof "w" "memory.admin") "w" "wk" 20 100) as Hc
    by (split; vm_compute; (reflexivity || (split; (reflexivity || discriminate)) || discriminate)).
  pose proof (claim_takes_first_due demo_key queue_store _ (after queued) (demo_proof "w" "memory.admin") "w" "wk" 20 100
    (reached_after queued Ht) Hc ltac:(vm_compute; discriminate)) as Hcl.
  fold first_claim in Hcl. rewrite demo_first_claim in Hcl. destruct Hcl as (st & _ & _ & Hl & _). split; [exact demo_first_claim|].
  change (lease_of (cl_status demo_claim)) with (Held 1 "wk" 120). reflexivity.
Defined.

Lemma lease_is_exclusive_witness :
  let more := (jrun (after taken) [JClaim "w" "wk2" 50 100; JComplete "w" "j2" "wk2" sha_a 60]).1 in
  Forall (λ x, ¬ reports x.2 "w" "j2") more.
Proof.
  assert (Forall jop_typed queued) as Ht by typed.
  refine (proj2 (lease_is_exclusive demo_key queue_store _ (after queued) (demo_proof "w" "memory.admin") "w" "wk" 20 100 demo_claim
    _ (jrun (after taken) [JClaim "w" "wk2" 50 100; JComplete "w" "j2" "wk2" sha_a 60]).2 (reached_after queued Ht) _ _ _ _)).
  - split; split; (lia || (vm_compute; discriminate)).
  - rewrite jstep_claim. fold first_claim. rewrite demo_first_claim. reflexivity.
  - assert ((jstep demo_key (after queued) (mkJCall (demo_proof "w" "memory.admin") (JClaim "w" "wk" 20 100))).2 = after taken) as ->
      by (unfold after at 2, taken; rewrite jrun_snoc; reflexivity). apply jrun_steps. typed.
  - apply (jrun_ops (λ o, ¬ ends_lease o "w" "j2" "wk" (20 + 100))).
    repeat constructor; cbn; [intros [_ Hx]; lia|intros (_ & _ & Hx); discriminate Hx].
Defined.
End JobExamples.
