(* ===== verification/ServingState.v ===== *)
(** * Serving state of a knowledge replica

    [crates/storage/src/serving_state.rs]: the durable record of the active, the
    previous and the staged generation of a scope, the ordered replay of
    mutations into a staged generation, activation and rollback. A client of the
    storage interface; serde_json is the class [ServingCodec] and SHA-256 the
    class [Sha256]. Every operation holds the transition lock and ends in one
    batch, so it is a plan (the result and the batch, if any) and a commit. *)

From Stdlib Require Import Ascii.
From S2P Require Import Prelude Sorting Text Hex Storage Keys Knowledge.

(** ** Data *)

Definition SERVING_STATE_SCHEMA_VERSION : Z := 1.
Definition MAX_REPLICA_ID_BYTES : Z := 1024.

(** [b"akidb\0knowledge-serving\0v1\0"]. *)
Definition KEY_NAMESPACE : string :=
  "akidb" +:+ String "000" ("knowledge-serving" +:+ String "000" ("v1" +:+ String "000" "")).

Inductive LocalGenerationState := Staged | CatchingUp | Ready | Serving | Failed.

#[global] Instance local_state_eq_dec : EqDecision LocalGenerationState.
Proof. solve_decision. Defined.

Record GenerationServingState := mkGeneration {
  manifest : KnowledgeGenerationManifest;
  manifest_sha256 : string;
  applied_sequence : Z;
  state : LocalGenerationState;
  last_error : option string;
}.

Definition gen_id (g : GenerationServingState) : string := generation_id (manifest g).

Record ServingStateRecord := mkServing {
  schema_version : Z;
  replica_id : string;
  r_workspace_id : string;
  r_collection : string;
  active : option GenerationServingState;
  previous : option GenerationServingState;
  staged : option GenerationServingState;
  updated_at_ms : Z;
}.

Definition record_scope (r : ServingStateRecord) : KnowledgeScope :=
  mkScope (r_workspace_id r) (r_collection r).

Inductive StageGenerationOutcome := GenStaged | AlreadyStaged.
Inductive ApplyMutationOutcome := Applied | Duplicate.

Inductive ServingStateError :=
| Contract (v : ContractViolation)
| StorageErr (e : AkiDbError)
| Serialization
| InvalidReplicaId (msg : string)
| InvalidTimestamp (field : string)
| NonPortableInteger (field : string)
| StateNotFound (scope : KnowledgeScope)
| StagedGenerationNotFound (scope : KnowledgeScope)
| GenerationMismatch (expected actual : string)
| ScopeMismatch (expected actual : string)
| GenerationConflict (msg : string)
| InvalidTransition (msg : string)
| SequenceGap (expected actual : Z)
| SequenceConflict (sequence : Z) (existing received : string)
| MutationIdConflict (id : string) (existing received : Z)
| MutationContentConflict (id : string)
| CorruptState (msg : string).

Abbreviation SResult A := (result ServingStateError A).

Record MutationMarker := mkMarker {
  mk_mutation_id : string;
  mk_sequence : Z;
  mk_sha256 : string;
}.

#[global] Instance marker_eq_dec : EqDecision MutationMarker.
Proof. solve_decision. Defined.

(** The conversions of [?]. *)
Definition contract {A} (r : ContractResult A) : SResult A :=
  match r with Ok a => Ok a | Err v => Err (Contract v) end.
Definition stored {A} (r : Result A) : SResult A :=
  match r with Ok a => Ok a | Err e => Err (StorageErr e) end.
Definition json {A} (r : option A) : SResult A :=
  match r with Some a => Ok a | None => Err Serialization end.
Definition corrupt {E A} (msg : string) (r : result E A) : SResult A :=
  match r with Ok a => Ok a | Err _ => Err (CorruptState msg) end.

Class ServingCodec := {
  record_to_vec : ServingStateRecord → option string;
  record_from_slice : string → option ServingStateRecord;
  checkpoint_to_vec : ReplicaCheckpoint → option string;
  checkpoint_from_slice : string → option ReplicaCheckpoint;
  marker_to_vec : MutationMarker → option string;
  marker_from_slice : string → option MutationMarker;
  mutation_to_vec : KnowledgeMutation → option string;
}.

(** ** Validation *)

Definition validate_local_text (field value : string) (maximum : Z)
    (error : string → ServingStateError) : SResult unit :=
  if decide (trim (str_chars value) = []) then Err (error (field +:+ " cannot be empty"))
  else if decide (trim (str_chars value) ≠ str_chars value) then
    Err (error (field +:+ " must not have leading or trailing whitespace"))
  else if byte_len value >? maximum then Err (error (field +:+ " length exceeds maximum"))
  else if existsb is_control (str_chars value) then
    Err (error (field +:+ " must not contain control characters"))
  else Ok tt.

Definition validate_timestamp (field : string) (value : Z) : SResult unit :=
  if value =? 0 then Err (InvalidTimestamp field)
  else if value >? MAX_SAFE_JSON_INTEGER then Err (NonPortableInteger field)
  else Ok tt.

Definition validate_sha256 (field value : string) : SResult unit :=
  if negb (is_sha256 value) then
    Err (CorruptState (field +:+ " must be 64 lowercase hexadecimal characters"))
  else Ok tt.

(** The [role] strings. *)
Inductive Role := RoleActive | RolePrevious | RoleStaged.

#[global] Instance role_eq_dec : EqDecision Role.
Proof. solve_decision. Defined.

Section validation.
Context `{!UrlParser}.

Definition validate_evidence (g : GenerationServingState) : SResult unit :=
  match state g, last_error g with
  | Failed, None => Err (CorruptState "failed generation lacks failure evidence")
  | Failed, Some failure =>
      validate_local_text "last_error" failure MAX_FAILURE_BYTES CorruptState
  | _, Some _ => Err (CorruptState "non-failed generation contains failure evidence")
  | _, None => Ok tt
  end.

Definition validate_role (role : Role) (g : GenerationServingState) : SResult unit :=
  match role with
  | RoleActive =>
      if decide (state g ≠ Serving) then Err (CorruptState "active generation is not serving")
      else Ok tt
  | RolePrevious =>
      if decide (state g ≠ Ready) then Err (CorruptState "previous generation is not ready")
      else Ok tt
  | RoleStaged =>
      if decide (state g = Serving) then Err (CorruptState "staged generation cannot be serving")
      else Ok tt
  end.

Definition validate_generation_state (role : Role) (g : GenerationServingState)
    (scope : KnowledgeScope) : SResult unit :=
  let? _ := corrupt "invalid generation" (manifest_validate (manifest g)) in
  let? _ := corrupt "manifest_sha256" (validate_sha256 "manifest_sha256" (manifest_sha256 g)) in
  if decide (manifest_scope (manifest g) ≠ scope) then
    Err (CorruptState "generation has a different scope")
  else if (applied_sequence g <? base_sequence (manifest g))
          || (applied_sequence g >? MAX_SAFE_JSON_INTEGER) then
    Err (CorruptState "applied sequence is below base or not JSON-safe")
  else if bool_decide (state g = Ready ∨ state g = Serving)
          && (applied_sequence g <? target_sequence (manifest g)) then
    Err (CorruptState "generation before reaching target sequence")
  else if bool_decide (state g = Staged)
          && negb (applied_sequence g =? base_sequence (manifest g)) then
    Err (CorruptState "staged generation has advanced beyond its bundle base sequence")
  else
    let? _ := validate_evidence g in
    validate_role role g.

(** The generations in the order they are checked. *)
Definition roles (r : ServingStateRecord) : list (Role * option GenerationServingState) :=
  [(RoleActive, active r); (RolePrevious, previous r); (RoleStaged, staged r)].

Fixpoint validate_roles (scope : KnowledgeScope) (generation_ids : list string)
    (l : list (Role * option GenerationServingState)) : SResult unit :=
  match l with
  | [] => Ok tt
  | (_, None) :: l => validate_roles scope generation_ids l
  | (role, Some g) :: l =>
      let? _ := validate_generation_state role g scope in
      if decide (gen_id g ∈ generation_ids) then
        Err (CorruptState "generation appears in more than one role")
      else validate_roles scope (gen_id g :: generation_ids) l
  end.

Definition validate_record (r : ServingStateRecord) (rid : string) : SResult unit :=
  if negb (schema_version r =? SERVING_STATE_SCHEMA_VERSION) then
    Err (CorruptState "unsupported state schema version")
  else
    let? _ := corrupt "invalid persisted scope" (scope_validate (record_scope r)) in
    let? _ := corrupt "updated_at_ms" (validate_timestamp "updated_at_ms" (updated_at_ms r)) in
    if negb (String.eqb (replica_id r) rid) then
      Err (CorruptState "record replica_id does not match local replica_id")
    else
      let? _ := validate_roles (record_scope r) [] (roles r) in
      if bool_decide (active r = None) && bool_decide (is_Some (previous r)) then
        Err (CorruptState "previous generation exists without an active generation")
      else Ok tt.
End validation.

(** ** Keys *)

Definition compound_key (kind : string) (scope : KnowledgeScope) (components : list string) : string :=
  foldl push_component
    (push_component (push_component (push_component KEY_NAMESPACE kind) (workspace_id scope))
       (collection scope)) components.

Definition state_key (scope : KnowledgeScope) : string := compound_key "state" scope [].

Definition checkpoint_key (scope : KnowledgeScope) (gid : string) : string :=
  compound_key "checkpoint" scope [gid].

Definition mutation_sequence_key (scope : KnowledgeScope) (gid : string) (seq : Z) : string :=
  compound_key "mutation-sequence" scope [gid; string_of_bytes (be_bytes 8 seq)].

Definition mutation_identity_key (scope : KnowledgeScope) (gid mid : string) : string :=
  compound_key "mutation-identity" scope [gid; mid].

(** ** Generations of a record *)

Definition missing_staged (scope : KnowledgeScope) : ServingStateError :=
  StagedGenerationNotFound scope.

Definition ensure_generation (g : GenerationServingState) (gid : string) : SResult unit :=
  if negb (String.eqb (gen_id g) gid) then Err (GenerationMismatch (gen_id g) gid) else Ok tt.

Definition generation_is_present (g : option GenerationServingState) (gid : string) : bool :=
  match g with Some g => String.eqb (gen_id g) gid | None => false end.

(** The staged generation that [staged_mut] borrows. *)
Definition staged_mut (r : ServingStateRecord) (gid : string) : SResult GenerationServingState :=
  match staged r with
  | None => Err (missing_staged (record_scope r))
  | Some g => let? _ := ensure_generation g gid in Ok g
  end.

(** The generation that [generation_by_id_mut] borrows, with the field it is in. *)
Definition generation_by_id_mut (r : ServingStateRecord) (gid : string)
    : SResult (Role * GenerationServingState) :=
  let miss := Err (GenerationMismatch "<locally retained generation>" gid) in
  let try (role : Role) (g : option GenerationServingState)
          (k : SResult (Role * GenerationServingState)) :=
    match g with Some g => if String.eqb (gen_id g) gid then Ok (role, g) else k | None => k end in
  try RoleActive (active r) (try RolePrevious (previous r) (try RoleStaged (staged r) miss)).

(** Field updates. *)
Definition set_role (r : ServingStateRecord) (role : Role) (g : option GenerationServingState)
    : ServingStateRecord :=
  match role with
  | RoleActive => mkServing (schema_version r) (replica_id r) (r_workspace_id r) (r_collection r)
                    g (previous r) (staged r) (updated_at_ms r)
  | RolePrevious => mkServing (schema_version r) (replica_id r) (r_workspace_id r) (r_collection r)
                      (active r) g (staged r) (updated_at_ms r)
  | RoleStaged => mkServing (schema_version r) (replica_id r) (r_workspace_id r) (r_collection r)
                    (active r) (previous r) g (updated_at_ms r)
  end.

Definition touch (r : ServingStateRecord) (now : Z) : ServingStateRecord :=
  mkServing (schema_version r) (replica_id r) (r_workspace_id r) (r_collection r)
    (active r) (previous r) (staged r) now.

Definition set_gen (g : GenerationServingState) (applied : Z) (st : LocalGenerationState)
    (err : option string) : GenerationServingState :=
  mkGeneration (manifest g) (manifest_sha256 g) applied st err.

Definition checkpoint_for (rid : string) (g : GenerationServingState) (now : Z)
    : SResult ReplicaCheckpoint :=
  let? st := match state g with
             | CatchingUp => Ok RCatchingUp
             | Ready => Ok RReady
             | Serving => Ok RServing
             | Failed => Ok RFailed
             | Staged =>
                 Err (InvalidTransition "a staged manifest has no reportable replica checkpoint")
             end in
  let c := mkReplicaCheckpoint KNOWLEDGE_SCHEMA_VERSION rid (m_workspace_id (manifest g))
             (m_collection (manifest g)) (gen_id g) (manifest_sha256 g) (applied_sequence g) st
             (last_error g) now in
  let? _ := contract (checkpoint_validate c) in
  Ok c.

(** ** The store *)

Section store.
Context `{!UrlParser, !ServingCodec, !Sha256}.
Context {S : Type} `{!StorageBackend S} (rid : string).
Implicit Types (s : S).

(** [ServingStateStore::new]: the replica id it accepts. *)
Definition store_new : SResult string :=
  let? _ := validate_local_text "replica_id" rid MAX_REPLICA_ID_BYTES InvalidReplicaId in
  Ok rid.

Definition mutation_fingerprint (m : KnowledgeMutation) : SResult string :=
  let? bytes := json (mutation_to_vec m) in
  Ok (hex_string (sha256_digest bytes)).

Definition decode_marker (bytes : string) : SResult MutationMarker :=
  let? marker := json (marker_from_slice bytes) in
  let? _ := validate_local_text "mutation_id" (mk_mutation_id marker) 1024 CorruptState in
  let? _ := validate_sha256 "mutation_sha256" (mk_sha256 marker) in
  if mk_sequence marker =? 0 then
    Err (CorruptState "mutation marker sequence must be greater than zero")
  else Ok marker.

Definition load_unlocked s (scope : KnowledgeScope) : SResult (option ServingStateRecord) :=
  let? _ := contract (scope_validate scope) in
  let? bytes := stored (sb_get s (state_key scope)) in
  match bytes with
  | None => Ok None
  | Some bytes =>
      let? r := json (record_from_slice bytes) in
      let? _ := validate_record r rid in
      if decide (record_scope r ≠ scope) then
        Err (CorruptState "state key and payload scope differ")
      else Ok (Some r)
  end.

Definition load s (scope : KnowledgeScope) : SResult (option ServingStateRecord) :=
  load_unlocked s scope.

Definition load_required_unlocked s (scope : KnowledgeScope) : SResult ServingStateRecord :=
  let? r := load_unlocked s scope in
  match r with Some r => Ok r | None => Err (StateNotFound scope) end.

Definition load_checkpoint s (scope : KnowledgeScope) (gid : string)
    : SResult (option ReplicaCheckpoint) :=
  let? _ := contract (scope_validate scope) in
  let? bytes := stored (sb_get s (checkpoint_key scope gid)) in
  match bytes with
  | None => Ok None
  | Some bytes =>
      let? c := json (checkpoint_from_slice bytes) in
      let? _ := corrupt "invalid checkpoint" (checkpoint_validate c) in
      if negb (String.eqb (c_replica_id c) rid) then
        Err (CorruptState "checkpoint replica_id does not match local replica_id")
      else if decide (checkpoint_scope c ≠ scope) then
        Err (CorruptState "checkpoint key and payload identity differ")
      else if negb (String.eqb (c_generation_id c) gid) then
        Err (CorruptState "checkpoint key and payload identity differ")
      else Ok (Some c)
  end.

Fixpoint checkpoint_operations (scope : KnowledgeScope) (checkpoints : list ReplicaCheckpoint)
    : SResult (list BatchOperation) :=
  match checkpoints with
  | [] => Ok []
  | c :: checkpoints =>
      let? _ := contract (checkpoint_validate c) in
      let? bytes := json (checkpoint_to_vec c) in
      let? operations := checkpoint_operations scope checkpoints in
      Ok (Put (checkpoint_key scope (c_generation_id c)) bytes :: operations)
  end.

Definition record_operations (r : ServingStateRecord) (checkpoints : list ReplicaCheckpoint)
    : SResult (list BatchOperation) :=
  let scope := record_scope r in
  let? bytes := json (record_to_vec r) in
  let? operations := checkpoint_operations scope checkpoints in
  Ok (Put (state_key scope) bytes :: operations).

(** What an operation decided: its result, and the batch it commits, if any. *)
Definition plan (A : Type) : Type := SResult (A * option (list BatchOperation)).

Definition commit {A} s (p : plan A) : SResult A * S :=
  match p with
  | Err e => (Err e, s)
  | Ok (a, None) => (Ok a, s)
  | Ok (a, Some operations) =>
      match sb_write_batch s operations with
      | (Ok _, s) => (Ok a, s)
      | (Err e, s) => (Err (StorageErr e), s)
      end
  end.

(** Timestamp, validation and the operations of a changed record. *)
Definition persist_record {A} (a : A) (r : ServingStateRecord) (now : Z)
    (checkpoints : list ReplicaCheckpoint) (more : list BatchOperation) : plan A :=
  let r := touch r now in
  let? _ := validate_record r rid in
  let? operations := record_operations r checkpoints in
  Ok (a, Some (operations ++ more)).

(** *** Staging and loading *)

Definition stage_plan s (m : KnowledgeGenerationManifest) (sha : string) (now : Z)
    : plan StageGenerationOutcome :=
  let? _ := contract (manifest_validate m) in
  let? _ := validate_timestamp "updated_at_ms" now in
  let? _ := validate_sha256 "manifest_sha256" sha in
  let scope := manifest_scope m in
  let? loaded := load_unlocked s scope in
  let r := default (mkServing SERVING_STATE_SCHEMA_VERSION rid (workspace_id scope)
                      (collection scope) None None None now) loaded in
  if generation_is_present (active r) (generation_id m)
     || generation_is_present (previous r) (generation_id m) then
    Err (GenerationConflict "generation is already active or retained for rollback")
  else
    match staged r with
    | Some g =>
        if negb (String.eqb (gen_id g) (generation_id m)) then
          Err (GenerationConflict "generation is already staged")
        else if bool_decide (manifest g = m) && String.eqb (manifest_sha256 g) sha then
          Ok (AlreadyStaged, None)
        else Err (GenerationConflict "generation was staged with different immutable content")
    | None =>
        persist_record GenStaged
          (set_role r RoleStaged (Some (mkGeneration m sha (base_sequence m) Staged None))) now [] []
    end.

Definition stage_generation s m sha now : SResult StageGenerationOutcome * S :=
  commit s (stage_plan s m sha now).

Definition loaded_plan s (scope : KnowledgeScope) (gid : string) (now : Z) : plan unit :=
  let? _ := validate_timestamp "updated_at_ms" now in
  let? r := load_required_unlocked s scope in
  let? g := staged_mut r gid in
  match state g with
  | CatchingUp => Ok (tt, None)
  | Staged =>
      let g := set_gen g (applied_sequence g) CatchingUp (last_error g) in
      let? c := checkpoint_for rid g now in
      persist_record tt (set_role r RoleStaged (Some g)) now [c] []
  | _ => Err (InvalidTransition "bundle-loaded requires staged")
  end.

Definition mark_bundle_loaded s scope gid now : SResult unit * S :=
  commit s (loaded_plan s scope gid now).

(** *** Replay *)

Definition get_marker s (key : string) : SResult (option MutationMarker) :=
  let? bytes := stored (sb_get s key) in
  match bytes with
  | None => Ok None
  | Some bytes => let? marker := decode_marker bytes in Ok (Some marker)
  end.

(** A sequence that is taken: the markers must agree, and with the mutation. *)
Definition check_redelivery s (scope : KnowledgeScope) (m : KnowledgeMutation)
    (fingerprint bytes : string) : plan ApplyMutationOutcome :=
  let? marker := decode_marker bytes in
  let key := mutation_identity_key scope (k_generation_id m) (mk_mutation_id marker) in
  let? identity_bytes := stored (sb_get s key) in
  match identity_bytes with
  | None => Err (CorruptState "sequence marker exists without mutation identity marker")
  | Some identity_bytes =>
      let? identity_marker := decode_marker identity_bytes in
      if decide (identity_marker ≠ marker) then
        Err (CorruptState "sequence and identity markers differ")
      else if negb (String.eqb (mk_mutation_id marker) (mutation_id m)) then
        Err (SequenceConflict (sequence m) (mk_mutation_id marker) (mutation_id m))
      else if negb (String.eqb (mk_sha256 marker) fingerprint) then
        Err (MutationContentConflict (mutation_id m))
      else Ok (Duplicate, None)
  end.

(** The staged generation advanced by exactly the next mutation. *)
Definition advance (g : GenerationServingState) (m : KnowledgeMutation)
    : SResult GenerationServingState :=
  if decide (state g ≠ CatchingUp) then
    Err (InvalidTransition "mutation replay requires catching_up")
  else
    match checked_add u64_max (applied_sequence g) 1 with
    | None => Err (CorruptState "applied_sequence overflow")
    | Some expected =>
        if negb (sequence m =? expected) then Err (SequenceGap expected (sequence m))
        else if sequence m >? target_sequence (manifest g) then
          Err (InvalidTransition "mutation sequence exceeds target sequence")
        else Ok (set_gen g (sequence m) (state g) (last_error g))
    end.

Definition apply_plan s (m : KnowledgeMutation) (now : Z) : plan ApplyMutationOutcome :=
  let? _ := contract (mutation_validate m) in
  let? _ := validate_timestamp "updated_at_ms" now in
  let scope := mutation_scope m in
  let sequence_key := mutation_sequence_key scope (k_generation_id m) (sequence m) in
  let identity_key := mutation_identity_key scope (k_generation_id m) (mutation_id m) in
  let? fingerprint := mutation_fingerprint m in
  let? bytes := stored (sb_get s sequence_key) in
  match bytes with
  | Some bytes => check_redelivery s scope m fingerprint bytes
  | None =>
      let? existing := get_marker s identity_key in
      match existing with
      | Some marker =>
          if negb (mk_sequence marker =? sequence m) then
            Err (MutationIdConflict (mutation_id m) (mk_sequence marker) (sequence m))
          else Err (CorruptState "mutation identity marker exists without sequence marker")
      | None =>
          let? r := load_required_unlocked s scope in
          let? g := staged_mut r (k_generation_id m) in
          let? g := advance g m in
          let? c := checkpoint_for rid g now in
          let r := set_role r RoleStaged (Some g) in
          let? _ := validate_record (touch r now) rid in
          let? marker_bytes := json (marker_to_vec (mkMarker (mutation_id m) (sequence m) fingerprint)) in
          let? operations := record_operations (touch r now) [c] in
          Ok (Applied, Some (operations ++ [Put sequence_key marker_bytes; Put identity_key marker_bytes]))
      end
  end.

Definition apply_mutation s m now : SResult ApplyMutationOutcome * S :=
  commit s (apply_plan s m now).

Definition verify_applied_mutation s (m : KnowledgeMutation) : SResult unit :=
  let? _ := contract (mutation_validate m) in
  let scope := mutation_scope m in
  let? r := load_required_unlocked s scope in
  let? rg := generation_by_id_mut r (k_generation_id m) in
  if (sequence m <=? target_sequence (manifest rg.2)) || (sequence m >? applied_sequence rg.2) then
    Err (InvalidTransition "historical mutation is outside the applied revision")
  else
    let? fingerprint := mutation_fingerprint m in
    let expected := mkMarker (mutation_id m) (sequence m) fingerprint in
    let check key k :=
      let? marker := get_marker s key in
      if decide (marker ≠ Some expected) then Err (MutationContentConflict (mutation_id m)) else k in
    check (mutation_sequence_key scope (k_generation_id m) (sequence m))
      (check (mutation_identity_key scope (k_generation_id m) (mutation_id m)) (Ok tt)).

(** *** Revisions *)

(** One mutation of the tail: the operations that record it, if it is new. *)
Definition revision_marker s (scope : KnowledgeScope) (gid : string) (current_sequence : Z)
    (m : KnowledgeMutation) : SResult (list BatchOperation) :=
  let sequence_key := mutation_sequence_key scope gid (sequence m) in
  let identity_key := mutation_identity_key scope gid (mutation_id m) in
  let? fingerprint := mutation_fingerprint m in
  let? sequence_marker := get_marker s sequence_key in
  let? identity_marker := get_marker s identity_key in
  match sequence_marker, identity_marker with
  | Some seq, Some identity =>
      if decide (seq ≠ identity) then Err (CorruptState "sequence and identity markers differ")
      else if negb (String.eqb (mk_mutation_id seq) (mutation_id m)) then
        Err (SequenceConflict (sequence m) (mk_mutation_id seq) (mutation_id m))
      else if negb (String.eqb (mk_sha256 seq) fingerprint) then
        Err (MutationContentConflict (mutation_id m))
      else Ok []
  | Some _, None => Err (CorruptState "sequence marker exists without identity marker")
  | None, Some _ => Err (CorruptState "identity marker exists without sequence marker")
  | None, None =>
      if sequence m <=? current_sequence then
        Err (CorruptState "applied sequence lacks mutation marker")
      else
        let? bytes := json (marker_to_vec (mkMarker (mutation_id m) (sequence m) fingerprint)) in
        Ok [Put sequence_key bytes; Put identity_key bytes]
  end.

(** The tail from its first sequence number on. *)
Fixpoint revision_markers s (scope : KnowledgeScope) (gid : string) (current_sequence expected : Z)
    (mutations : list KnowledgeMutation) : SResult (list BatchOperation) :=
  match mutations with
  | [] => Ok []
  | m :: mutations =>
      let? _ := contract (mutation_validate m) in
      if negb (bool_decide (mutation_scope m = scope)) || negb (String.eqb (k_generation_id m) gid) then
        Err (GenerationMismatch gid (k_generation_id m))
      else if expected >? u64_max then Err (CorruptState "mutation sequence overflow")
      else if negb (sequence m =? expected) then Err (SequenceGap expected (sequence m))
      else
        let? ops := revision_marker s scope gid current_sequence m in
        let? rest := revision_markers s scope gid current_sequence (expected + 1) mutations in
        Ok (ops ++ rest)
  end.

Definition revision_plan s (scope : KnowledgeScope) (gid sha : string) (target : Z)
    (mutations : list KnowledgeMutation) (now : Z) : plan ApplyMutationOutcome :=
  let? _ := contract (scope_validate scope) in
  let? _ := validate_sha256 "manifest_sha256" sha in
  let? _ := validate_timestamp "updated_at_ms" now in
  if target >? MAX_SAFE_JSON_INTEGER then Err (NonPortableInteger "target_sequence")
  else
    let? r := load_required_unlocked s scope in
    let? rg := generation_by_id_mut r gid in
    let '(role, g) := rg in
    if negb (String.eqb (manifest_sha256 g) sha) then
      Err (GenerationConflict "generation manifest digest differs from the sealed revision")
    else if bool_decide (state g = Staged ∨ state g = CatchingUp ∨ state g = Failed) then
      Err (InvalidTransition "generation revision requires ready or serving state")
    else
      let base := target_sequence (manifest g) in
      let current := applied_sequence g in
      if (target <? current) || (target <=? base) then
        Err (InvalidTransition "revision target must exceed base and not precede current")
      else if negb (Zlength mutations =? target - base) then
        Err (SequenceGap (saturating_add u64_max base 1)
               (match mutations with m :: _ => sequence m | [] => target end))
      else
        let? marker_operations := revision_markers s scope gid current (base + 1) mutations in
        if current =? target then Ok (Duplicate, None)
        else
          let g := set_gen g target (state g) None in
          let? c := checkpoint_for rid g now in
          persist_record Applied (set_role r role (Some g)) now [c] marker_operations.

Definition commit_generation_revision s scope gid sha target mutations now
    : SResult ApplyMutationOutcome * S :=
  commit s (revision_plan s scope gid sha target mutations now).

(** *** Promotion *)

Definition ready_plan s (scope : KnowledgeScope) (gid : string) (now : Z) : plan unit :=
  let? _ := validate_timestamp "updated_at_ms" now in
  let? r := load_required_unlocked s scope in
  let? g := staged_mut r gid in
  match state g with
  | Ready => Ok (tt, None)
  | CatchingUp =>
      if negb (applied_sequence g =? target_sequence (manifest g)) then
        Err (InvalidTransition "generation is not at its target")
      else
        let g := set_gen g (applied_sequence g) Ready (last_error g) in
        let? c := checkpoint_for rid g now in
        persist_record tt (set_role r RoleStaged (Some g)) now [c] []
  | _ => Err (InvalidTransition "ready requires catching_up")
  end.

Definition mark_ready s scope gid now : SResult unit * S := commit s (ready_plan s scope gid now).

Definition activate_plan s (scope : KnowledgeScope) (gid : string) (now : Z) : plan unit :=
  let? _ := validate_timestamp "updated_at_ms" now in
  let? r := load_required_unlocked s scope in
  if generation_is_present (active r) gid then Ok (tt, None)
  else
    match staged r with
    | None => Err (missing_staged scope)
    | Some next =>
        let? _ := ensure_generation next gid in
        if decide (state next ≠ Ready) then
          Err (InvalidTransition "only a ready generation may be activated")
        else
          let r := set_role r RoleStaged None in
          let? rc := match active r with
                     | None => Ok (r, [])
                     | Some g =>
                         let g := set_gen g (applied_sequence g) Ready None in
                         let? c := checkpoint_for rid g now in
                         Ok (set_role (set_role r RoleActive None) RolePrevious (Some g), [c])
                     end in
          let next := set_gen next (applied_sequence next) Serving None in
          let? c := checkpoint_for rid next now in
          persist_record tt (set_role rc.1 RoleActive (Some next)) now (rc.2 ++ [c]) []
    end.

Definition activate s scope gid now : SResult unit * S := commit s (activate_plan s scope gid now).

Definition rollback_plan s (scope : KnowledgeScope) (gid : string) (now : Z) : plan unit :=
  let? _ := validate_timestamp "updated_at_ms" now in
  let? r := load_required_unlocked s scope in
  if generation_is_present (active r) gid then Ok (tt, None)
  else
    match previous r with
    | None => Err (InvalidTransition "no rollback generation is retained")
    | Some target =>
        let? _ := ensure_generation target gid in
        match active r with
        | None => Err (CorruptState "rollback target exists but active generation is absent")
        | Some former =>
            let target := set_gen target (applied_sequence target) Serving None in
            let former := set_gen former (applied_sequence former) Ready None in
            let? c1 := checkpoint_for rid target now in
            let? c2 := checkpoint_for rid former now in
            persist_record tt (set_role (set_role r RoleActive (Some target)) RolePrevious (Some former))
              now [c1; c2] []
        end
    end.

Definition rollback s scope gid now : SResult unit * S := commit s (rollback_plan s scope gid now).

Definition fail_plan s (scope : KnowledgeScope) (gid failure : string) (now : Z) : plan unit :=
  let? _ := validate_timestamp "updated_at_ms" now in
  let? _ := validate_local_text "last_error" failure MAX_FAILURE_BYTES InvalidTransition in
  let? r := load_required_unlocked s scope in
  let? g := staged_mut r gid in
  if decide (state g = Serving) then
    Err (InvalidTransition "active serving generation cannot be failed through fail_staged")
  else if bool_decide (state g = Failed) && bool_decide (last_error g = Some failure) then Ok (tt, None)
  else
    let g := set_gen g (applied_sequence g) Failed (Some failure) in
    let? c := checkpoint_for rid g now in
    persist_record tt (set_role r RoleStaged (Some g)) now [c] [].

Definition fail_staged s scope gid failure now : SResult unit * S :=
  commit s (fail_plan s scope gid failure now).
End store.
