(* ===== verification/ServingProps.v ===== *)
(** * What the serving state guarantees

    The invariant of the durable serving state through any sequence of
    transitions, and what it gives: a serving generation has applied every
    mutation up to its checkpoint, a mutation is recorded once, rollback undoes
    activation; and how a failed or a re-staged generation blocks its scope. *)

From Stdlib Require Import Ascii.
From S2P Require Import Prelude Sorting Text Hex Storage Keys Knowledge ServingState.

(** ** Keys do not collide *)

Lemma compound_key_components k scope l :
  compound_key k scope l
  = KEY_NAMESPACE +:+ components (k :: workspace_id scope :: collection scope :: l).
Proof.
  unfold compound_key. rewrite push_components. unfold push_component. cbn [components foldr].
  by rewrite !app_assoc_str.
Qed.

(** The keys by what they are for. *)
Inductive skey :=
| KState (scope : KnowledgeScope)
| KCheckpoint (scope : KnowledgeScope) (gid : string)
| KSequence (scope : KnowledgeScope) (gid : string) (n : Z)
| KIdentity (scope : KnowledgeScope) (gid mid : string).

#[global] Instance skey_eq_dec : EqDecision skey.
Proof. solve_decision. Defined.

Definition enc (k : skey) : string :=
  match k with
  | KState scope => state_key scope
  | KCheckpoint scope gid => checkpoint_key scope gid
  | KSequence scope gid n => mutation_sequence_key scope gid n
  | KIdentity scope gid mid => mutation_identity_key scope gid mid
  end.

Definition scope_small (s : KnowledgeScope) : Prop := small (workspace_id s) ∧ small (collection s).

Definition key_ok (k : skey) : Prop :=
  match k with
  | KState scope => scope_small scope
  | KCheckpoint scope gid => scope_small scope ∧ small gid
  | KSequence scope gid n => scope_small scope ∧ small gid ∧ is_u64 n
  | KIdentity scope gid mid => scope_small scope ∧ small gid ∧ small mid
  end.

Lemma compound_key_inj k scope l k' scope' l' :
  small k → small k' → scope_small scope → scope_small scope' → Forall small l → Forall small l' →
  compound_key k scope l = compound_key k' scope' l' → k = k' ∧ scope = scope' ∧ l = l'.
Proof.
  intros Hk Hk' [? ?] [? ?] Hl Hl'. rewrite !compound_key_components.
  intros [_ E]%app_same_length; [|done].
  apply components_inj in E; [|by repeat constructor..].
  destruct scope, scope'. cbn in E. by injection E as -> -> -> ->.
Qed.

(** The parts a key is made of. *)
Definition key_kind (k : skey) : string :=
  match k with
  | KState _ => "state"
  | KCheckpoint _ _ => "checkpoint"
  | KSequence _ _ _ => "mutation-sequence"
  | KIdentity _ _ _ => "mutation-identity"
  end.

Definition key_scope (k : skey) : KnowledgeScope :=
  match k with KState x | KCheckpoint x _ | KSequence x _ _ | KIdentity x _ _ => x end.

Definition key_parts (k : skey) : list string :=
  match k with
  | KState _ => []
  | KCheckpoint _ gid => [gid]
  | KSequence _ gid n => [gid; string_of_bytes (be_bytes 8 n)]
  | KIdentity _ gid mid => [gid; mid]
  end.

Lemma enc_parts k : enc k = compound_key (key_kind k) (key_scope k) (key_parts k).
Proof. by destruct k. Qed.

Lemma key_ok_parts k :
  key_ok k → small (key_kind k) ∧ scope_small (key_scope k) ∧ Forall small (key_parts k).
Proof.
  intros Hk. split; [destruct k; vm_compute; reflexivity|].
  destruct k; simpl in *; destruct_and?; split; auto; repeat constructor; auto using sequence_small.
Qed.

Lemma pair_list_inj {A} (a b c d : A) : [a; b] = [c; d] → a = c ∧ b = d.
Proof. intros E. by injection E. Qed.

Lemma key_parts_inj k k' :
  key_ok k → key_ok k' → key_kind k = key_kind k' → key_scope k = key_scope k' →
  key_parts k = key_parts k' → k = k'.
Proof.
  destruct k as [x|x g|x g n|x g i], k' as [y|y h|y h p|y h j]; cbn [key_kind key_scope key_parts];
    intros Hk Hk' Ekind -> E; try discriminate Ekind.
  - reflexivity.
  - by injection E as ->.
  - apply pair_list_inj in E as [-> E]. apply string_of_bytes_inj in E; [|apply be_bytes_range..].
    destruct Hk as (_ & _ & Hn), Hk' as (_ & _ & Hp). by rewrite (be_bytes_inj n p Hn Hp E).
  - by injection E as -> ->.
Qed.

Lemma enc_inj k k' : key_ok k → key_ok k' → enc k = enc k' → k = k'.
Proof.
  intros Hk Hk'. rewrite !enc_parts. destruct (key_ok_parts k Hk) as (? & ? & ?).
  destruct (key_ok_parts k' Hk') as (? & ? & ?).
  intros (? & ? & ?)%compound_key_inj; auto using key_parts_inj.
Qed.

(** ** Batches of writes *)

Definition puts (l : list (skey * string)) : list BatchOperation := kputs enc l.

Lemma puts_app l k : puts (l ++ k) = puts l ++ puts k.
Proof. apply fmap_app. Qed.

Definition keys_ok (l : list (skey * string)) : Prop := Forall (λ kv, key_ok kv.1) l.

Lemma puts_other m l k :
  keys_ok l → key_ok k → k ∉ l.*1 → apply_batch m (puts l) !! enc k = m !! enc k.
Proof. apply (kputs_other enc key_ok enc_inj). Qed.

Lemma puts_lookup m l k v :
  keys_ok l → NoDup l.*1 → (k, v) ∈ l → apply_batch m (puts l) !! enc k = Some v.
Proof. apply (kputs_lookup enc key_ok enc_inj). Qed.

(** ** The invariant *)

Class ServingCodecLaws `{!ServingCodec} := {
  record_roundtrip r b : record_to_vec r = Some b → record_from_slice b = Some r;
  checkpoint_roundtrip c b : checkpoint_to_vec c = Some b → checkpoint_from_slice b = Some c;
  marker_roundtrip k b : marker_to_vec k = Some b → marker_from_slice b = Some k;
}.

Definition gens (r : ServingStateRecord) : list GenerationServingState := omap snd (roles r).

Definition reported (st : LocalGenerationState) : option ReplicaState :=
  match st with
  | Staged => None
  | CatchingUp => Some RCatchingUp
  | Ready => Some RReady
  | Serving => Some RServing
  | Failed => Some RFailed
  end.

(** A checkpoint reports a generation as the record has it. *)
Record reports (rid : string) (g : GenerationServingState) (c : ReplicaCheckpoint) : Prop := {
  rep_replica : c_replica_id c = rid;
  rep_scope : checkpoint_scope c = manifest_scope (manifest g);
  rep_generation : c_generation_id c = gen_id g;
  rep_digest : c_manifest_sha256 c = manifest_sha256 g;
  rep_applied : c_applied_sequence c = applied_sequence g;
  rep_state : reported (state g) = Some (c_state c);
  rep_error : c_last_error c = last_error g;
  rep_valid : checkpoint_validate c = Ok tt;
}.

(** ** What validation gives *)

Lemma contract_ok {A} (r : ContractResult A) a : contract r = Ok a → r = Ok a.
Proof. by destruct r; intros E; [injection E as ->|discriminate]. Qed.
Lemma stored_ok {A} (r : Result A) a : stored r = Ok a → r = Ok a.
Proof. by destruct r; intros E; [injection E as ->|discriminate]. Qed.
Lemma json_ok {A} (r : option A) a : json r = Ok a → r = Some a.
Proof. by destruct r; intros E; [injection E as ->|discriminate]. Qed.
Lemma corrupt_ok {E A} msg (r : result E A) a : corrupt msg r = Ok a → r = Ok a.
Proof. by destruct r; intros Eq; [injection Eq as ->|discriminate]. Qed.

Lemma identifier_small f v n : validate_identifier f v n = Ok tt → byte_len v ≤ n.
Proof.
  unfold validate_identifier, validate_nonempty_text. intros V. binds V.
  destruct (decide (trim (str_chars v) = [])); [discriminate|].
  destruct (decide (trim (str_chars v) ≠ str_chars v)); [discriminate|].
  destruct (byte_len v >? n) eqn:G; [discriminate|]. rewrite Z.gtb_ltb, Z.ltb_ge in G. exact G.
Qed.

Lemma scope_validate_small scope : scope_validate scope = Ok tt → scope_small scope.
Proof.
  unfold scope_validate, scope_small, small. intros V. binds V.
  apply identifier_small in E, V. unfold MAX_SCOPE_BYTES in *. lia.
Qed.

Section valid.
Context `{!UrlParser}.

(** A generation of a validated record. *)
Record gen_valid (scope : KnowledgeScope) (role : Role) (g : GenerationServingState) : Prop := {
  gv_scope : manifest_scope (manifest g) = scope;
  gv_small : small (gen_id g);
  gv_applied : base_sequence (manifest g) ≤ applied_sequence g ≤ MAX_SAFE_JSON_INTEGER;
  gv_target : state g = Ready ∨ state g = Serving → target_sequence (manifest g) ≤ applied_sequence g;
  gv_staged : state g = Staged → applied_sequence g = base_sequence (manifest g);
  gv_role : match role with
            | RoleActive => state g = Serving
            | RolePrevious => state g = Ready
            | RoleStaged => state g ≠ Serving
            end;
  gv_evidence : state g = Failed ↔ is_Some (last_error g);
}.

Lemma manifest_id_small m : manifest_validate m = Ok tt → small (generation_id m).
Proof.
  unfold manifest_validate, small. intros V. apply bind_ok in V as (? & _ & V).
  apply bind_ok in V as (? & _ & V). apply bind_ok in V as ([] & V & _).
  apply identifier_small in V. unfold MAX_ID_BYTES in V. lia.
Qed.

Lemma validate_generation_ok role g scope :
  validate_generation_state role g scope = Ok tt → gen_valid scope role g.
Proof.
  unfold validate_generation_state. intros V. binds V. apply dec_stable in E1.
  apply corrupt_ok, manifest_id_small in E.
  apply orb_false_iff in E2 as [A1 A2]. rewrite Z.ltb_ge in A1.
  rewrite Z.gtb_ltb, Z.ltb_ge in A2.
  apply andb_false_iff in E3, E4. split; try done.
  - intros Hst. destruct E3 as [C|C]; [by apply bool_decide_eq_false in C|by apply Z.ltb_ge in C].
  - intros Hst. destruct E4 as [C|C]; [by apply bool_decide_eq_false in C|].
    apply negb_false_iff, Z.eqb_eq in C. done.
  - unfold validate_role in V. destruct role; (destruct (decide _) as [|Hd]; [discriminate|]);
      [by apply dec_stable in Hd..|done].
  - unfold validate_evidence in E5. destruct (state g), (last_error g); try discriminate;
      (split; [intros; eauto; discriminate|intros [? ?]; done]).
Qed.

Lemma validate_roles_ok scope ids l :
  validate_roles scope ids l = Ok tt →
  (∀ role g, (role, Some g) ∈ l → gen_valid scope role g ∧ gen_id g ∉ ids) ∧
  NoDup (gen_id <$> omap snd l).
Proof.
  revert ids. induction l as [|[role [g|]] l IH]; intros ids V; cbn [validate_roles] in V.
  - split; [|constructor]. intros ? ? ?%elem_of_nil. done.
  - binds V. destruct (IH _ V) as [H1 H2]. apply validate_generation_ok in E. split.
    + intros role' g' [Eg|Hin]%elem_of_cons; [by injection Eg as -> ->|].
      destruct (H1 _ _ Hin) as [? Hn]. rewrite not_elem_of_cons in Hn. naive_solver.
    + change (NoDup (gen_id g :: (gen_id <$> omap snd l))). constructor; [|done].
      intros (g' & Eg & Hin)%list_elem_of_fmap.
      apply list_elem_of_omap in Hin as ([role' o] & Hin & Eo). cbn in Eo. subst o.
      destruct (H1 _ _ Hin) as [_ Hn]. rewrite <-Eg, not_elem_of_cons in Hn. naive_solver.
  - destruct (IH _ V) as [H1 H2]. split; [|done].
    intros role' g' [Eg|Hin]%elem_of_cons; [discriminate|]. by apply H1.
Qed.

Record record_valid (rid : string) (r : ServingStateRecord) : Prop := {
  rv_scope : scope_validate (record_scope r) = Ok tt;
  rv_replica : replica_id r = rid;
  rv_gens role g : (role, Some g) ∈ roles r → gen_valid (record_scope r) role g;
  rv_ids : NoDup (gen_id <$> gens r);
  rv_previous : active r = None → previous r = None;
}.

Lemma validate_record_ok r rid : validate_record r rid = Ok tt → record_valid rid r.
Proof.
  unfold validate_record. intros V. binds V. apply corrupt_ok in E0.
  apply validate_roles_ok in E3 as [H1 H2]. split; [done| |by apply H1|done|].
  - apply negb_false_iff, String.eqb_eq in E2. done.
  - intros Ha. apply andb_false_iff in E4 as [C|C]; apply bool_decide_eq_false in C; [done|].
    destruct (previous r); [|done]. destruct C. eauto.
Qed.

Lemma elem_of_gens r g : g ∈ gens r ↔ ∃ role, (role, Some g) ∈ roles r.
Proof.
  unfold gens. rewrite list_elem_of_omap. split.
  - intros ([role o] & Hin & E). cbn in E. subst o. eauto.
  - intros [role Hin]. exists (role, Some g). done.
Qed.

Lemma gens_small rid r g : record_valid rid r → g ∈ gens r → small (gen_id g).
Proof. intros Hv [role Hg]%elem_of_gens. by eapply gv_small, rv_gens. Qed.

Lemma gens_applied rid r g :
  record_valid rid r → g ∈ gens r → applied_sequence g ≤ MAX_SAFE_JSON_INTEGER.
Proof. intros Hv [role Hg]%elem_of_gens. by apply (gv_applied _ _ _ (rv_gens _ _ Hv _ _ Hg)). Qed.
End valid.

Section invariant.
Context `{!UrlParser, !ServingCodec, !ServingCodecLaws, !Sha256, !Sha256Laws} (rid : string).
Implicit Types (m : gmap string string).

(** Every mutation from the base of a generation to its applied sequence is on
    record. *)
Definition no_gaps m (scope : KnowledgeScope) (g : GenerationServingState) : Prop :=
  ∀ n, 0 ≤ n → base_sequence (manifest g) < n ≤ applied_sequence g →
    is_Some (m !! enc (KSequence scope (gen_id g) n)).

Definition checkpointed m (scope : KnowledgeScope) (g : GenerationServingState) : Prop :=
  state g ≠ Staged →
  ∃ b c, m !! enc (KCheckpoint scope (gen_id g)) = Some b ∧ checkpoint_from_slice b = Some c ∧
    reports rid g c.

Record record_wf m (scope : KnowledgeScope) (r : ServingStateRecord) : Prop := {
  rw_valid : validate_record r rid = Ok tt;
  rw_scope : record_scope r = scope;
  rw_gaps g : g ∈ gens r → no_gaps m scope g;
  rw_checkpoints g : g ∈ gens r → checkpointed m scope g;
}.

(** The two markers of a mutation are one. *)
Record serving_wf m : Prop := {
  wf_record scope b :
    scope_small scope → m !! enc (KState scope) = Some b →
    ∃ r, record_from_slice b = Some r ∧ record_wf m scope r;
  wf_sequence scope gid n b :
    key_ok (KSequence scope gid n) → m !! enc (KSequence scope gid n) = Some b →
    ∃ k, decode_marker b = Ok k ∧ mk_sequence k = n ∧ small (mk_mutation_id k) ∧
      m !! enc (KIdentity scope gid (mk_mutation_id k)) = Some b;
  wf_identity scope gid mid b :
    key_ok (KIdentity scope gid mid) → m !! enc (KIdentity scope gid mid) = Some b →
    ∃ k, decode_marker b = Ok k ∧ mk_mutation_id k = mid ∧ is_u64 (mk_sequence k) ∧
      m !! enc (KSequence scope gid (mk_sequence k)) = Some b;
}.

Lemma wf_empty : serving_wf ∅.
Proof. split; intros *; by rewrite lookup_empty. Qed.

(** A mutation newly recorded: its sequence number, its id and the marker. *)
Record new_marker := mkNew { nm_sequence : Z; nm_id : string; nm_bytes : string }.

Definition new_puts (scope : KnowledgeScope) (gid : string) (new : list new_marker)
    : list (skey * string) :=
  new ≫= λ x, [(KSequence scope gid (nm_sequence x), nm_bytes x);
               (KIdentity scope gid (nm_id x), nm_bytes x)].

Record new_ok m (scope : KnowledgeScope) (gid : string) (x : new_marker) : Prop := {
  no_fresh_sequence : m !! enc (KSequence scope gid (nm_sequence x)) = None;
  no_fresh_identity : m !! enc (KIdentity scope gid (nm_id x)) = None;
  no_u64 : is_u64 (nm_sequence x);
  no_small : small (nm_id x);
  no_marker : ∃ k, decode_marker (nm_bytes x) = Ok k ∧ mk_sequence k = nm_sequence x ∧
    mk_mutation_id k = nm_id x;
}.

(** What one transition writes: the record, checkpoints of some of its
    generations, and the markers of new mutations of one generation. *)
Definition batch_puts (scope : KnowledgeScope) (b : string) (cps : list (ReplicaCheckpoint * string))
    (gid : string) (new : list new_marker) : list (skey * string) :=
  (KState scope, b)
    :: ((λ c : ReplicaCheckpoint * string, (KCheckpoint scope (c_generation_id c.1), c.2)) <$> cps)
    ++ new_puts scope gid new.

Record sound m (scope : KnowledgeScope) (r : ServingStateRecord) (b : string)
    (cps : list (ReplicaCheckpoint * string)) (gid : string) (new : list new_marker) : Prop := {
  so_valid : validate_record r rid = Ok tt;
  so_scope : record_scope r = scope;
  so_small : scope_small scope;
  so_gid : small gid;
  so_bytes : record_from_slice b = Some r;
  so_gaps g : g ∈ gens r →
    ∀ n, 0 ≤ n → base_sequence (manifest g) < n ≤ applied_sequence g →
      is_Some (m !! enc (KSequence scope (gen_id g) n))
      ∨ gen_id g = gid ∧ n ∈ nm_sequence <$> new;
  so_checkpoints g : g ∈ gens r →
    (∃ c b, (c, b) ∈ cps ∧ reports rid g c ∧ checkpoint_from_slice b = Some c)
    ∨ checkpointed m scope g ∧ gen_id g ∉ (λ c, c_generation_id c.1) <$> cps;
  so_cps_nodup : NoDup ((λ c, c_generation_id c.1) <$> cps);
  so_cps_small c : c ∈ cps → small (c_generation_id c.1);
  so_new x : x ∈ new → new_ok m scope gid x;
  so_new_sequences : NoDup (nm_sequence <$> new);
  so_new_ids : NoDup (nm_id <$> new);
}.

Lemma elem_of_new_puts scope gid new k b :
  (k, b) ∈ new_puts scope gid new ↔
  ∃ x, x ∈ new ∧ nm_bytes x = b ∧
    (k = KSequence scope gid (nm_sequence x) ∨ k = KIdentity scope gid (nm_id x)).
Proof.
  unfold new_puts. rewrite list_elem_of_bind. setoid_rewrite elem_of_cons.
  setoid_rewrite list_elem_of_singleton. split.
  - intros (x & [E|E] & Hx); injection E as -> ->; eauto.
  - intros (x & Hx & <- & [-> | ->]); exists x; auto.
Qed.

Lemma new_puts_nodup scope gid new :
  NoDup (nm_sequence <$> new) → NoDup (nm_id <$> new) → NoDup (new_puts scope gid new).*1.
Proof.
  induction new as [|x new IH]; intros Hs Hi; [constructor|].
  rewrite fmap_cons, NoDup_cons in Hs. rewrite fmap_cons, NoDup_cons in Hi. destruct Hs as [Hxs Hs], Hi as [Hxi Hi].
  change (NoDup (KSequence scope gid (nm_sequence x) :: KIdentity scope gid (nm_id x)
                   :: (new_puts scope gid new).*1)).
  assert (∀ k, k ∈ (new_puts scope gid new).*1 → ∃ y, y ∈ new ∧
    (k = KSequence scope gid (nm_sequence y) ∨ k = KIdentity scope gid (nm_id y))) as Hk.
  { intros k ([k' b] & -> & (y & Hy & _ & Hk)%elem_of_new_puts)%list_elem_of_fmap. eauto. }
  repeat constructor; [| |by apply IH].
  - rewrite elem_of_cons. intros [?|(y & Hy & [E|?])%Hk]; [done| |done].
    injection E as E. apply Hxs. rewrite E. by apply list_elem_of_fmap_2.
  - intros (y & Hy & [?|E])%Hk; [done|]. injection E as E. apply Hxi. rewrite E.
    by apply list_elem_of_fmap_2.
Qed.

Section batch.
Context m scope r b cps gid new (Hs : sound m scope r b cps gid new).

Lemma batch_keys_ok : keys_ok (batch_puts scope b cps gid new).
Proof.
  pose proof (so_small _ _ _ _ _ _ _ Hs) as Hsm. apply Forall_forall. intros [k v] Hin.
  apply elem_of_cons in Hin as [E|[Hin|Hin]%elem_of_app].
  - injection E as -> ->. done.
  - apply list_elem_of_fmap in Hin as (c & E & Hc). injection E as -> ->.
    split; [done|]. by eapply so_cps_small.
  - apply elem_of_new_puts in Hin as (x & Hx & _ & Hk). pose proof (so_gid _ _ _ _ _ _ _ Hs).
    destruct (so_new _ _ _ _ _ _ _ Hs x Hx). destruct Hk as [-> | ->]; done.
Qed.

Lemma batch_nodup : NoDup (batch_puts scope b cps gid new).*1.
Proof.
  unfold batch_puts. rewrite fmap_cons, fmap_app, NoDup_cons, NoDup_app. split_and!.
  - rewrite elem_of_app. intros [Hx0|Hx0].
    + rewrite <-list_fmap_compose in Hx0. by apply list_elem_of_fmap in Hx0 as (c & ? & _).
    + apply list_elem_of_fmap in Hx0 as ([k v] & E & (x & _ & _ & [Hx1|Hx1])%elem_of_new_puts);
        rewrite Hx1 in E; done.
  - rewrite <-list_fmap_compose.
    pose proof (so_cps_nodup _ _ _ _ _ _ _ Hs) as Hnd. clear Hs. induction cps as [|c l IH]; [constructor|].
    rewrite fmap_cons, NoDup_cons in Hnd. rewrite fmap_cons, NoDup_cons. destruct Hnd as [Hn Hnd]. split; [|by apply IH].
    intros (c' & E & Hc')%list_elem_of_fmap. injection E as E. apply Hn.
    apply list_elem_of_fmap. eauto.
  - intros k Hk Hk'. rewrite <-list_fmap_compose in Hk. apply list_elem_of_fmap in Hk as (c & -> & _).
    apply list_elem_of_fmap in Hk' as ([k v] & E & (x & _ & _ & [Hx1|Hx1])%elem_of_new_puts);
      rewrite Hx1 in E; done.
  - apply new_puts_nodup; [by eapply so_new_sequences|by eapply so_new_ids].
Qed.

Abbreviation m' := (apply_batch m (puts (batch_puts scope b cps gid new))).

(** A key the batch does not write. *)
Lemma batch_other k : key_ok k → k ∉ (batch_puts scope b cps gid new).*1 → m' !! enc k = m !! enc k.
Proof. intros. apply puts_other; auto using batch_keys_ok. Qed.

Lemma batch_lookup k v : (k, v) ∈ batch_puts scope b cps gid new → m' !! enc k = Some v.
Proof. intros. apply puts_lookup; auto using batch_keys_ok, batch_nodup. Qed.

Lemma batch_state : m' !! enc (KState scope) = Some b.
Proof. apply batch_lookup, elem_of_cons. by left. Qed.

Lemma batch_state_other scope' :
  scope_small scope' → scope' ≠ scope → m' !! enc (KState scope') = m !! enc (KState scope').
Proof.
  intros Hsm Hne. apply batch_other; [done|]. unfold batch_puts.
  intros ([k v] & Ek & Hin)%list_elem_of_fmap. cbn [fst] in Ek. subst k.
  apply elem_of_cons in Hin as [E|[Hx0|Hx0]%elem_of_app].
  - by injection E as ->.
  - by apply list_elem_of_fmap in Hx0 as (c & ? & _).
  - by apply elem_of_new_puts in Hx0 as (x & _ & _ & [?|?]).
Qed.

Lemma batch_checkpoint_other scope' gid' :
  scope_small scope' → small gid' →
  scope' ≠ scope ∨ gid' ∉ (λ c, c_generation_id c.1) <$> cps →
  m' !! enc (KCheckpoint scope' gid') = m !! enc (KCheckpoint scope' gid').
Proof.
  intros Hsm Hg Hne. apply batch_other; [done|]. unfold batch_puts.
  intros ([k v] & Ek & Hin)%list_elem_of_fmap. cbn [fst] in Ek. subst k.
  apply elem_of_cons in Hin as [E|[Hx0|Hx0]%elem_of_app].
  - by injection E as ?.
  - apply list_elem_of_fmap in Hx0 as (c & E & Hc). injection E as -> ->. destruct Hne as [?|Hne]; [done|].
    apply Hne, list_elem_of_fmap. eauto.
  - by apply elem_of_new_puts in Hx0 as (x & _ & _ & [?|?]).
Qed.

(** The markers: the old ones and the new. *)
Lemma batch_marker k :
  key_ok k → (∃ scope gid n, k = KSequence scope gid n) ∨ (∃ scope gid i, k = KIdentity scope gid i) →
  m' !! enc k = m !! enc k ∧ k ∉ (new_puts scope gid new).*1 ∨
  ∃ x, x ∈ new ∧ m' !! enc k = Some (nm_bytes x) ∧ m !! enc k = None ∧
    (k = KSequence scope gid (nm_sequence x) ∨ k = KIdentity scope gid (nm_id x)).
Proof.
  intros Hk Hm. destruct (decide (k ∈ (new_puts scope gid new).*1)) as [Hin|Hn].
  - right. apply list_elem_of_fmap in Hin as ([k' v] & -> & Hin). pose proof Hin as Hin'.
    apply elem_of_new_puts in Hin' as (x & Hx & <- & Hkx). exists x. split_and!; [done| | |done].
    + apply batch_lookup. unfold batch_puts. rewrite elem_of_cons, elem_of_app. auto.
    + destruct (so_new _ _ _ _ _ _ _ Hs x Hx). by destruct Hkx as [-> | ->].
  - left. split; [|done]. apply batch_other; [done|]. unfold batch_puts. rewrite fmap_cons, fmap_app.
    rewrite not_elem_of_cons, not_elem_of_app. split_and!; [| |done].
    + destruct Hm as [(? & ? & ? & ->)|(? & ? & ? & ->)]; done.
    + rewrite <-list_fmap_compose. intros (c & -> & _)%list_elem_of_fmap.
      destruct Hm as [(? & ? & ? & ?)|(? & ? & ? & ?)]; done.
Qed.

(** A marker that is written stays. *)
Lemma batch_marker_stays k v :
  key_ok k → (∃ scope gid n, k = KSequence scope gid n) ∨ (∃ scope gid i, k = KIdentity scope gid i) →
  m !! enc k = Some v → m' !! enc k = Some v.
Proof.
  intros Hk Hm Hv. destruct (batch_marker k Hk Hm) as [[-> _]|(x & _ & _ & Hn & _)]; [done|].
  by rewrite Hn in Hv.
Qed.

Lemma sequence_key_ok scope' g n :
  scope_small scope' → small (gen_id g) → applied_sequence g ≤ MAX_SAFE_JSON_INTEGER →
  0 ≤ n → base_sequence (manifest g) < n ≤ applied_sequence g → key_ok (KSequence scope' (gen_id g) n).
Proof.
  intros ? ? Ha ? ?. split; [done|]. split; [done|].
  unfold MAX_SAFE_JSON_INTEGER, u64_max, in_range in *. lia.
Qed.

Lemma batch_wf_record scope' b' :
  serving_wf m → scope_small scope' → m' !! enc (KState scope') = Some b' →
  ∃ r', record_from_slice b' = Some r' ∧ record_wf m' scope' r'.
Proof.
  intros Hwf. pose proof (so_small _ _ _ _ _ _ _ Hs) as Hsm.
  intros Hsm' Hb'. destruct (decide (scope' = scope)) as [->|Hne].
  - rewrite batch_state in Hb'. injection Hb' as <-. exists r.
    split; [by eapply so_bytes|].
    pose proof (validate_record_ok r rid (so_valid _ _ _ _ _ _ _ Hs)) as Hv.
    split; [by eapply so_valid|by eapply so_scope| |].
    + intros g Hg n Hn Hb. pose proof (sequence_key_ok scope g n Hsm (gens_small rid r g Hv Hg)
        (gens_applied rid r g Hv Hg) Hn Hb) as Hok.
      destruct (so_gaps _ _ _ _ _ _ _ Hs g Hg n Hn Hb) as [[v Hv']|[Hgid Hin]].
      * exists v. apply batch_marker_stays; eauto.
      * apply list_elem_of_fmap in Hin as (x & -> & Hx). exists (nm_bytes x).
         apply batch_lookup. unfold batch_puts. rewrite elem_of_cons, elem_of_app. right. right.
         apply elem_of_new_puts. exists x. rewrite Hgid. auto.
    + intros g Hg Hst. destruct (so_checkpoints _ _ _ _ _ _ _ Hs g Hg) as [(c & bc & Hin & Hr & Hf)|[Hc Hn]].
      * exists bc, c. split_and!; [|done|done]. rewrite <-(rep_generation _ _ _ Hr).
         apply batch_lookup. unfold batch_puts. rewrite elem_of_cons, elem_of_app. right. left.
         apply list_elem_of_fmap. exists (c, bc). done.
      * destruct (Hc Hst) as (bc & c & Hb & Hrest). exists bc, c. split; [|done].
         rewrite batch_checkpoint_other; eauto using gens_small.
  - rewrite batch_state_other in Hb' by done.
    destruct (wf_record _ Hwf scope' b' Hsm' Hb') as (r' & Hr' & [W1 W2 W3 W4]). exists r'.
    split; [done|]. pose proof (validate_record_ok r' rid W1) as Hv. split; [done|done| |].
    + intros g Hg n Hn Hb. destruct (W3 g Hg n Hn Hb) as [v Hv']. exists v.
      apply batch_marker_stays; eauto.
      apply sequence_key_ok; eauto using gens_small, gens_applied.
    + intros g Hg Hst. destruct (W4 g Hg Hst) as (bc & c & Hb & Hrest). exists bc, c. split; [|done].
      rewrite batch_checkpoint_other; eauto using gens_small.
Qed.

Lemma batch_wf_sequence scope' gid' n b' :
  serving_wf m → key_ok (KSequence scope' gid' n) → m' !! enc (KSequence scope' gid' n) = Some b' →
  ∃ k, decode_marker b' = Ok k ∧ mk_sequence k = n ∧ small (mk_mutation_id k) ∧
    m' !! enc (KIdentity scope' gid' (mk_mutation_id k)) = Some b'.
Proof.
  intros Hwf.
  intros Hk Hb'.
  destruct (batch_marker (KSequence scope' gid' n) Hk) as [[E _]|(x & Hx & E & _ & Hkx)]; [eauto|..];
    rewrite E in Hb'.
  - destruct (wf_sequence _ Hwf _ _ _ _ Hk Hb') as (k & Y1 & Y2 & Y3 & Y4).
    exists k. split_and!; [done..|]. apply batch_marker_stays; [|eauto|done].
    destruct Hk as (? & ? & _). done.
  - injection Hb' as <-. destruct Hkx as [Ek|Ek]; [|done]. injection Ek as -> -> ->.
    destruct (so_new _ _ _ _ _ _ _ Hs x Hx) as [_ _ ? ? (k & Y1 & Y2 & Y3)].
    exists k. rewrite Y3. split_and!; [done..|]. apply batch_lookup. unfold batch_puts.
    rewrite elem_of_cons, elem_of_app. right. right. apply elem_of_new_puts. eauto.
Qed.

Lemma batch_wf_identity scope' gid' i b' :
  serving_wf m → key_ok (KIdentity scope' gid' i) → m' !! enc (KIdentity scope' gid' i) = Some b' →
  ∃ k, decode_marker b' = Ok k ∧ mk_mutation_id k = i ∧ is_u64 (mk_sequence k) ∧
    m' !! enc (KSequence scope' gid' (mk_sequence k)) = Some b'.
Proof.
  intros Hwf.
  intros Hk Hb'.
  destruct (batch_marker (KIdentity scope' gid' i) Hk) as [[E _]|(x & Hx & E & _ & Hkx)]; [eauto|..];
    rewrite E in Hb'.
  - destruct (wf_identity _ Hwf _ _ _ _ Hk Hb') as (k & Y1 & Y2 & Y3 & Y4).
    exists k. split_and!; [done..|]. apply batch_marker_stays; [|eauto|done].
    destruct Hk as (? & ? & _). done.
  - injection Hb' as <-. destruct Hkx as [Ek|Ek]; [done|]. injection Ek as -> -> ->.
    destruct (so_new _ _ _ _ _ _ _ Hs x Hx) as [_ _ ? ? (k & Y1 & Y2 & Y3)].
    exists k. rewrite Y2. split_and!; [done..|]. apply batch_lookup. unfold batch_puts.
    rewrite elem_of_cons, elem_of_app. right. right. apply elem_of_new_puts. eauto.
Qed.

Lemma serving_batch_wf : serving_wf m → serving_wf m'.
Proof.
  intros Hwf. split; intros *;
    [by apply batch_wf_record|by apply batch_wf_sequence|by apply batch_wf_identity].
Qed.
End batch.
End invariant.

(** ** Transitions *)

Section transitions.
Context `{!UrlParser, !ServingCodec, !ServingCodecLaws, !Sha256, !Sha256Laws}.
Context {S : Type} `{!StorageBackend S, !StorageLaws S} (rid : string).
Implicit Types (s : S).

Lemma load_some s scope r :
  serving_wf rid (sb_view s) → load_unlocked rid s scope = Ok (Some r) →
  scope_small scope ∧ record_wf rid (sb_view s) scope r.
Proof.
  unfold load_unlocked. intros Hwf V. binds V. destruct x0 as [bytes|]; [|discriminate].
  binds V. injection V as ->. apply contract_ok, scope_validate_small in E. split; [done|].
  apply stored_ok, sb_get_ok in E0. symmetry in E0.
  destruct (wf_record _ _ Hwf scope bytes E E0) as (r' & Hr & Hw).
  apply json_ok in E1. rewrite Hr in E1. by injection E1 as ->.
Qed.

Lemma load_required s scope r :
  serving_wf rid (sb_view s) → load_required_unlocked rid s scope = Ok r →
  scope_small scope ∧ record_wf rid (sb_view s) scope r.
Proof.
  unfold load_required_unlocked. intros Hwf V. binds V. destruct x as [r'|]; [|discriminate].
  injection V as ->. by apply load_some.
Qed.

Lemma checkpoint_for_ok g now c : checkpoint_for rid g now = Ok c → reports rid g c.
Proof.
  unfold checkpoint_for. intros V. apply bind_ok in V as (st & Est & V). binds V.
  injection V as <-. apply contract_ok in E. split; try done.
  by destruct (state g); try discriminate; injection Est as <-.
Qed.

Lemma checkpoint_gid_small c : checkpoint_validate c = Ok tt → small (c_generation_id c).
Proof.
  unfold checkpoint_validate, small. intros V. do 3 (apply bind_ok in V as (? & _ & V)).
  apply bind_ok in V as ([] & V & _). apply identifier_small in V. unfold MAX_ID_BYTES in V. lia.
Qed.

Definition checkpoint_puts (scope : KnowledgeScope) (cps : list (ReplicaCheckpoint * string))
    : list (skey * string) :=
  (λ c : ReplicaCheckpoint * string, (KCheckpoint scope (c_generation_id c.1), c.2)) <$> cps.

Lemma checkpoint_operations_ok scope cps ops :
  checkpoint_operations scope cps = Ok ops →
  ∃ l, l.*1 = cps ∧ ops = puts (checkpoint_puts scope l) ∧
    ∀ c b, (c, b) ∈ l → checkpoint_validate c = Ok tt ∧ checkpoint_from_slice b = Some c.
Proof.
  revert ops. induction cps as [|c cps IH]; intros ops V; cbn [checkpoint_operations] in V.
  { injection V as <-. exists []. split_and!; [done|done|]. intros c b ?%elem_of_nil. done. }
  binds V. injection V as <-. apply contract_ok in E. apply json_ok, checkpoint_roundtrip in E0.
  destruct (IH _ E1) as (l & <- & -> & Hl). exists ((c, x0) :: l). split_and!; [done|done|].
  intros c' b' [Eq|Hin]%elem_of_cons; [by injection Eq as -> ->|by apply Hl].
Qed.

Lemma record_operations_ok r cps ops :
  record_operations r cps = Ok ops →
  ∃ b l, l.*1 = cps ∧ record_from_slice b = Some r ∧
    ops = puts ((KState (record_scope r), b) :: checkpoint_puts (record_scope r) l) ∧
    ∀ c b, (c, b) ∈ l → checkpoint_validate c = Ok tt ∧ checkpoint_from_slice b = Some c.
Proof.
  unfold record_operations. intros V. binds V. injection V as <-.
  apply json_ok, record_roundtrip in E.
  destruct (checkpoint_operations_ok _ _ _ E0) as (l & Hl & -> & Hc).
  exists x, l. done.
Qed.

(** How a generation of the new record comes from the old: unchanged; advanced to a
    reported state over new mutations; or freshly staged. *)
Inductive gen_step (m : gmap string string) (scope : KnowledgeScope) (old : list GenerationServingState) (cps : list ReplicaCheckpoint)
    (gid : string) (new : list new_marker) (g : GenerationServingState) : Prop :=
| gs_same : g ∈ old → gen_id g ∉ c_generation_id <$> cps → gen_step m scope old cps gid new g
| gs_changed g0 c :
    g0 ∈ old → manifest g0 = manifest g → c ∈ cps → reports rid g c →
    (∀ n, 0 ≤ n → applied_sequence g0 < n ≤ applied_sequence g →
      is_Some (m !! enc (KSequence scope (gen_id g) n))
      ∨ gen_id g = gid ∧ n ∈ nm_sequence <$> new) →
    gen_step m scope old cps gid new g
| gs_fresh :
    state g = Staged → applied_sequence g = base_sequence (manifest g) →
    gen_id g ∉ c_generation_id <$> cps → gen_step m scope old cps gid new g.

(** A batch that records such a step keeps the invariant. *)
Lemma step_sound m scope old r cps ops gid new :
  validate_record r rid = Ok tt → record_scope r = scope → scope_small scope → small gid →
  record_operations r cps = Ok ops →
  (∀ g, g ∈ old → no_gaps m scope g ∧ checkpointed rid m scope g) →
  (∀ g, g ∈ gens r → gen_step m scope old cps gid new g) →
  NoDup (c_generation_id <$> cps) →
  (∀ x, x ∈ new → new_ok m scope gid x) →
  NoDup (nm_sequence <$> new) → NoDup (nm_id <$> new) →
  ∃ b l, sound rid m scope r b l gid new ∧
    ops ++ puts (new_puts scope gid new) = puts (batch_puts scope b l gid new).
Proof.
  intros Hv Hsc Hsm Hgid Hops Hold Hg Hnd Hnew Hns Hni.
  destruct (record_operations_ok _ _ _ Hops) as (b & l & Hl & Hb & -> & Hc). exists b, l.
  assert ((λ c : ReplicaCheckpoint * string, c_generation_id c.1) <$> l = c_generation_id <$> cps) as El.
  { rewrite <-Hl, <-list_fmap_compose. done. }
  split; [|rewrite Hsc, <-puts_app; done]. split; try done.
  - intros g Hgr n Hn Hb'. destruct (Hg g Hgr) as [Ho _|g0 c Ho Hm _ _ Hmore|_ Ha _].
    + left. by apply (Hold g Ho).
    + destruct (Z.le_gt_cases n (applied_sequence g0)) as [Hle|Hgt].
      * left. unfold gen_id. rewrite <-Hm. apply (Hold g0 Ho); [done|]. rewrite Hm. lia.
      * apply Hmore; [done|]. lia.
    + lia.
  - intros g Hgr. destruct (Hg g Hgr) as [Ho Hn|g0 c _ _ Hin Hr _|Hst _ Hn].
    + right. rewrite El. split; [by apply (Hold g Ho)|done].
    + left. rewrite <-Hl in Hin. apply list_elem_of_fmap in Hin as ([c' b'] & -> & Hin).
      exists c', b'. split_and!; [done|done|]. by apply (Hc c' b').
    + right. rewrite El. split; [|done]. by intros ?.
  - by rewrite El.
  - intros [c bc] Hin. by apply checkpoint_gid_small, (Hc c bc).
Qed.

Lemma elem_of_roles r role g :
  (role, Some g) ∈ roles r ↔
  match role with
  | RoleActive => active r = Some g
  | RolePrevious => previous r = Some g
  | RoleStaged => staged r = Some g
  end.
Proof.
  unfold roles. rewrite !elem_of_cons, elem_of_nil. split.
  - intros [E|[E|[E|[]]]]; injection E as -> <-; done.
  - destruct role; intros ->; auto.
Qed.

Lemma roles_distinct r role role' g g' :
  record_valid rid r → (role, Some g) ∈ roles r → (role', Some g') ∈ roles r → role ≠ role' →
  gen_id g ≠ gen_id g'.
Proof.
  intros Hv. pose proof (rv_ids _ _ Hv) as Hnd. unfold gens, roles in Hnd.
  rewrite !elem_of_roles. intros Hg Hg' Hne E.
  destruct (active r) as [a|], (previous r) as [p|], (staged r) as [t|], role, role'; try done;
    simplify_eq; cbn in Hnd; rewrite ?NoDup_cons, ?not_elem_of_cons in Hnd; naive_solver.
Qed.

Lemma gens_touch r now : gens (touch r now) = gens r.
Proof. done. Qed.

Lemma gens_set_role r role g' g :
  g ∈ gens (set_role r role (Some g')) →
  g = g' ∨ ∃ role', role' ≠ role ∧ (role', Some g) ∈ roles r.
Proof.
  intros [role' Hg]%elem_of_gens. destruct (decide (role' = role)) as [->|Hne].
  - left. rewrite elem_of_roles in Hg. destruct role; by injection Hg as ->.
  - right. exists role'. split; [done|]. rewrite elem_of_roles in *. by destruct role, role'.
Qed.

Definition plan_sound {A} m (p : plan A) : Prop :=
  ∀ a ops, p = Ok (a, Some ops) →
  ∃ scope r b l gid new, sound rid m scope r b l gid new ∧ ops = puts (batch_puts scope b l gid new).

Lemma record_wf_old m scope r g :
  record_wf rid m scope r → g ∈ gens r → no_gaps m scope g ∧ checkpointed rid m scope g.
Proof. intros [_ _ W3 W4] Hg. split; [by apply W3|by apply W4]. Qed.

(** One generation replaced in its role, with its checkpoint. *)
Lemma replace_sound m scope r role g0 g now c ops new :
  record_wf rid m scope r → scope_small scope → (role, Some g0) ∈ roles r →
  manifest g0 = manifest g → checkpoint_for rid g now = Ok c →
  let r' := touch (set_role r role (Some g)) now in
  validate_record r' rid = Ok tt → record_operations r' [c] = Ok ops →
  (∀ n, 0 ≤ n → applied_sequence g0 < n ≤ applied_sequence g →
    is_Some (m !! enc (KSequence scope (gen_id g) n)) ∨ n ∈ nm_sequence <$> new) →
  (∀ x, x ∈ new → new_ok m scope (gen_id g) x) →
  NoDup (nm_sequence <$> new) → NoDup (nm_id <$> new) →
  ∃ b l, sound rid m scope r' b l (gen_id g) new ∧
    ops ++ puts (new_puts scope (gen_id g) new) = puts (batch_puts scope b l (gen_id g) new).
Proof.
  intros Hw Hsm Hg0 Hm Hc r' Hv Hops Hmore Hnew Hns Hni. apply checkpoint_for_ok in Hc.
  pose proof (validate_record_ok _ _ (rw_valid _ _ _ _ Hw)) as Hrv.
  assert (gen_id g0 = gen_id g) as Hid by (unfold gen_id; by rewrite Hm).
  assert (record_scope r' = scope) as Hsc.
  { rewrite <-(rw_scope _ _ _ _ Hw). by destruct role. }
  eapply (step_sound m scope (gens r)); try done.
  - rewrite <-Hid. by eapply gv_small, rv_gens.
  - intros g1. by apply record_wf_old.
  - intros g1 Hg1. unfold r' in Hg1. rewrite gens_touch in Hg1.
    apply gens_set_role in Hg1 as [->|(role' & Hne & Hg1)].
    + eapply (gs_changed _ _ _ _ _ _ _ g0 c); [apply elem_of_gens; eauto|done|by left|done|].
      intros n Hn Hb. destruct (Hmore n Hn Hb); auto.
    + apply gs_same; [apply elem_of_gens; eauto|]. cbn. rewrite list_elem_of_singleton.
      rewrite (rep_generation _ _ _ Hc), <-Hid. by eapply roles_distinct.
  - apply NoDup_singleton.
Qed.

Lemma staged_mut_ok r gid g : staged_mut r gid = Ok g → (RoleStaged, Some g) ∈ roles r ∧ gen_id g = gid.
Proof.
  unfold staged_mut, ensure_generation. rewrite elem_of_roles. destruct (staged r) as [g'|]; [|discriminate].
  intros V. binds V. injection V as ->. split; [done|].
  destruct (String.eqb_spec (gen_id g) gid); [done|discriminate].
Qed.

Lemma persist_sound {A} m (a : A) scope r role g0 g now c :
  record_wf rid m scope r → scope_small scope → (role, Some g0) ∈ roles r →
  manifest g0 = manifest g → applied_sequence g = applied_sequence g0 →
  checkpoint_for rid g now = Ok c →
  plan_sound m (persist_record rid a (set_role r role (Some g)) now [c] []).
Proof.
  intros Hw Hsm Hg0 Hm Ha Hc a' ops V. unfold persist_record in V. binds V.
  injection V as <- <-. rewrite app_nil_r.
  destruct (replace_sound m scope r role g0 g now c x0 [] Hw Hsm Hg0 Hm Hc E E0) as (b & l & Hs & Eo).
  - intros n ? ?. lia.
  - intros x ?%elem_of_nil. done.
  - constructor.
  - constructor.
  - exists scope, (touch (set_role r role (Some g)) now), b, l, (gen_id g), []. split; [exact Hs|].
    rewrite <-Eo. symmetry. apply app_nil_r.
Qed.

Lemma loaded_sound s scope gid now :
  serving_wf rid (sb_view s) → plan_sound (sb_view s) (loaded_plan rid s scope gid now).
Proof.
  intros Hwf a ops V. unfold loaded_plan in V. binds V.
  destruct (load_required s scope _ Hwf E0) as [Hsm Hw]. apply staged_mut_ok in E1 as [Hg _].
  destruct (state x1); try discriminate. apply bind_ok in V as (c & Hc & V).
  by refine (persist_sound _ _ _ _ _ _ _ _ _ Hw Hsm Hg _ _ Hc _ _ V).
Qed.

Lemma ready_sound s scope gid now :
  serving_wf rid (sb_view s) → plan_sound (sb_view s) (ready_plan rid s scope gid now).
Proof.
  intros Hwf a ops V. unfold ready_plan in V. binds V.
  destruct (load_required s scope _ Hwf E0) as [Hsm Hw]. apply staged_mut_ok in E1 as [Hg _].
  destruct (state x1); try discriminate. binds V.
  by refine (persist_sound _ _ _ _ _ _ _ _ _ Hw Hsm Hg _ _ E2 _ _ V).
Qed.

Lemma fail_sound s scope gid failure now :
  serving_wf rid (sb_view s) → plan_sound (sb_view s) (fail_plan rid s scope gid failure now).
Proof.
  intros Hwf a ops V. unfold fail_plan in V. binds V.
  destruct (load_required s scope _ Hwf E1) as [Hsm Hw]. apply staged_mut_ok in E2 as [Hg _].
  destruct (bool_decide (state _ = Failed) && _); [discriminate|].
  apply bind_ok in V as (c & Hc & V).
  by refine (persist_sound _ _ _ _ _ _ _ _ _ Hw Hsm Hg _ _ Hc _ _ V).
Qed.

(** Staging, into a record that exists or a new one. *)
Lemma stage_sound s k sha now :
  serving_wf rid (sb_view s) → plan_sound (sb_view s) (stage_plan rid s k sha now).
Proof.
  intros Hwf a ops V. unfold stage_plan in V.
  apply bind_ok in V as ([] & Vm & V). apply bind_ok in V as ([] & _ & V).
  apply bind_ok in V as ([] & _ & V). apply bind_ok in V as (loaded & Hload & V).
  set (r := default _ loaded) in V.
  destruct (generation_is_present (active r) (generation_id k) || _) eqn:Hpres; [discriminate|].
  destruct (staged r) as [g|] eqn:Hst.
  { destruct (negb (String.eqb _ _)); [discriminate|].
    by destruct (bool_decide _ && _). }
  assert (scope_small (manifest_scope k) ∧ record_scope r = manifest_scope k ∧
    ∀ g, g ∈ gens r → no_gaps (sb_view s) (manifest_scope k) g ∧
      checkpointed rid (sb_view s) (manifest_scope k) g) as (Hsm & Hsc & Hold).
  { destruct loaded as [r'|]; cbn in r.
    - destruct (load_some s _ _ Hwf Hload) as [Hsm Hw]. split; [done|].
      split; [by eapply rw_scope|]. intros g. by apply record_wf_old.
    - split; [|split; [reflexivity|]].
      + unfold load_unlocked in Hload. apply bind_ok in Hload as ([] & Hsc & _).
        by apply contract_ok, scope_validate_small in Hsc.
      + intros g Hg. by apply elem_of_nil in Hg. }
  unfold persist_record in V. binds V. injection V as <- <-. rewrite app_nil_r.
  destruct (step_sound (sb_view s) (manifest_scope k) (gens r) _ _ _ (generation_id k) []
    E Hsc Hsm (manifest_id_small k ltac:(by apply contract_ok in Vm)) E0 Hold) as (b & l & Hs & Eo).
  - intros g Hg. apply (gens_set_role r RoleStaged) in Hg as [->|(role & _ & Hg)].
    + apply gs_fresh; [done|done|]. by intros ?%elem_of_nil.
    + apply gs_same; [apply elem_of_gens; eauto|]. by intros ?%elem_of_nil.
  - constructor.
  - intros x1 ?%elem_of_nil. done.
  - constructor.
  - constructor.
  - do 6 eexists. split; [exact Hs|]. rewrite <-Eo. symmetry. apply app_nil_r.
Qed.

(** Activation and rollback exchange roles. *)
Lemma exchange_sound {A} m (a : A) scope r r' cps now :
  record_wf rid m scope r → scope_small scope → record_scope r' = scope →
  (∀ g, g ∈ gens r' → gen_step m scope (gens r) cps "" [] g) →
  NoDup (c_generation_id <$> cps) →
  plan_sound m (persist_record rid a r' now cps []).
Proof.
  intros Hw Hsm Hsc Hg Hnd a' ops V. unfold persist_record in V. binds V.
  injection V as <- <-. rewrite app_nil_r.
  destruct (step_sound m scope (gens r) _ _ _ "" [] E Hsc Hsm eq_refl E0
    (λ g, record_wf_old m scope r g Hw) Hg Hnd) as (b & l & Hs & Eo).
  - intros x1 ?%elem_of_nil. done.
  - constructor.
  - constructor.
  - do 6 eexists. split; [exact Hs|]. rewrite <-Eo. symmetry. apply app_nil_r.
Qed.

Lemma changed_step m scope old cps gid new g0 applied st err c now :
  g0 ∈ old → checkpoint_for rid (set_gen g0 applied st err) now = Ok c → c ∈ cps →
  applied = applied_sequence g0 → gen_step m scope old cps gid new (set_gen g0 applied st err).
Proof.
  intros Hg Hc Hin ->. apply checkpoint_for_ok in Hc.
  eapply (gs_changed _ _ _ _ _ _ _ g0 c); [done|done|done|done|]. cbn. intros n ? ?. lia.
Qed.

Lemma activate_sound s scope gid now :
  serving_wf rid (sb_view s) → plan_sound (sb_view s) (activate_plan rid s scope gid now).
Proof.
  intros Hwf a ops V. unfold activate_plan in V. binds V.
  destruct (load_required s scope _ Hwf E0) as [Hsm Hw].
  destruct (generation_is_present (active x0) gid); [discriminate|].
  destruct (staged x0) as [next|] eqn:Hst; [|discriminate]. binds V.
  pose proof (validate_record_ok _ _ (rw_valid _ _ _ _ Hw)) as Hv.
  assert ((RoleStaged, Some next) ∈ roles x0) as Hnext by (by apply elem_of_roles).
  cbn [set_role active] in E3. destruct (active x0) as [act|] eqn:Hact.
  - assert ((RoleActive, Some act) ∈ roles x0) as Hact' by (by apply elem_of_roles).
    apply bind_ok in E3 as (ca & Hca & E3). injection E3 as <-.
    cbn [fst snd] in V.
    revert V. apply (exchange_sound _ _ scope x0); [done|done|exact (rw_scope _ _ _ _ Hw)| |].
    + intros g [role Hg]%elem_of_gens. rewrite elem_of_roles in Hg.
      destruct role; cbn in Hg; [|injection Hg as <-|discriminate].
      * injection Hg as <-. eapply changed_step; [apply elem_of_gens; eauto|exact E4|set_solver|done].
      * eapply changed_step; [apply elem_of_gens; eauto|exact Hca|set_solver|done].
    + apply checkpoint_for_ok in Hca, E4. cbn.
      rewrite (rep_generation _ _ _ Hca), (rep_generation _ _ _ E4).
      apply NoDup_cons. split; [|apply NoDup_singleton]. rewrite list_elem_of_singleton.
      by apply (roles_distinct x0 RoleActive RoleStaged act next Hv Hact' Hnext).
  - injection E3 as <-. cbn [fst snd] in V.
    revert V. apply (exchange_sound _ _ scope x0); [done|done|exact (rw_scope _ _ _ _ Hw)| |apply NoDup_singleton].
    intros g [role Hg]%elem_of_gens. rewrite elem_of_roles in Hg.
    destruct role; cbn in Hg; [injection Hg as <-| |discriminate].
    + eapply changed_step; [apply elem_of_gens; eauto|exact E4|set_solver|done].
    + rewrite (rv_previous _ _ Hv Hact) in Hg. discriminate.
Qed.

Lemma rollback_sound s scope gid now :
  serving_wf rid (sb_view s) → plan_sound (sb_view s) (rollback_plan rid s scope gid now).
Proof.
  intros Hwf a ops V. unfold rollback_plan in V. binds V.
  destruct (load_required s scope _ Hwf E0) as [Hsm Hw].
  destruct (generation_is_present (active x0) gid); [discriminate|].
  destruct (previous x0) as [target|] eqn:Hpr; [|discriminate]. binds V.
  destruct (active x0) as [former|] eqn:Hact; [|discriminate]. binds V.
  pose proof (validate_record_ok _ _ (rw_valid _ _ _ _ Hw)) as Hv.
  assert ((RolePrevious, Some target) ∈ roles x0) as Hp by (by apply elem_of_roles).
  assert ((RoleActive, Some former) ∈ roles x0) as Ha by (by apply elem_of_roles).
  pose proof (checkpoint_for_ok _ _ _ E2) as R1. pose proof (checkpoint_for_ok _ _ _ E3) as R2.
  revert V. apply (exchange_sound _ _ scope x0); [done|done|exact (rw_scope _ _ _ _ Hw)| |].
  - intros g [role Hg]%elem_of_gens. rewrite elem_of_roles in Hg.
    destruct role; cbn in Hg; [injection Hg as <-|injection Hg as <-|].
    + eapply changed_step; [apply elem_of_gens; eauto|exact E2|set_solver|done].
    + eapply changed_step; [apply elem_of_gens; eauto|exact E3|set_solver|done].
    + assert ((RoleStaged, Some g) ∈ roles x0) as Hg' by (by apply elem_of_roles).
      apply gs_same; [apply elem_of_gens; eauto|]. cbn.
      rewrite (rep_generation _ _ _ R1), (rep_generation _ _ _ R2).
      rewrite !not_elem_of_cons. split_and!; [..|apply not_elem_of_nil].
      * by apply (roles_distinct x0 RoleStaged RolePrevious g target).
      * by apply (roles_distinct x0 RoleStaged RoleActive g former).
  - cbn. rewrite (rep_generation _ _ _ R1), (rep_generation _ _ _ R2).
    apply NoDup_cons. split; [|apply NoDup_singleton]. rewrite list_elem_of_singleton.
    by apply (roles_distinct x0 RolePrevious RoleActive target former).
Qed.

(** *** Markers *)

Lemma identifier_local f f' v n err :
  validate_identifier f v n = Ok tt → validate_local_text f' v n err = Ok tt.
Proof.
  unfold validate_identifier, validate_nonempty_text, validate_local_text. intros V.
  apply bind_ok in V as ([] & V1 & V2).
  destruct (decide (trim (str_chars v) = [])); [discriminate|].
  destruct (decide (trim (str_chars v) ≠ str_chars v)); [discriminate|].
  destruct (byte_len v >? n); [discriminate|]. by destruct (existsb is_control (str_chars v)).
Qed.

Lemma fingerprint_is_sha256 k fp : mutation_fingerprint k = Ok fp → is_sha256 fp = true.
Proof. unfold mutation_fingerprint. intros V. binds V. injection V as <-. apply digest_hex_is_sha256. Qed.

Record mutation_valid (k : KnowledgeMutation) : Prop := {
  mv_scope : scope_small (mutation_scope k);
  mv_gid : small (k_generation_id k);
  mv_id : validate_identifier "mutation_id" (mutation_id k) MAX_ID_BYTES = Ok tt;
  mv_sequence : sequence k ≠ 0 ∧ sequence k ≤ MAX_SAFE_JSON_INTEGER;
}.

Lemma mutation_validate_ok k : mutation_validate k = Ok tt → mutation_valid k.
Proof.
  unfold mutation_validate. intros V. binds V. split.
  - by apply scope_validate_small.
  - apply identifier_small in E2. unfold small, MAX_ID_BYTES in *. lia.
  - done.
  - split; [by apply Z.eqb_neq in E4|]. unfold validate_safe_json_integer in E5.
    destruct (sequence k >? MAX_SAFE_JSON_INTEGER) eqn:G; [discriminate|].
    rewrite Z.gtb_ltb, Z.ltb_ge in G. exact G.
Qed.

Lemma mv_id_small k : mutation_valid k → small (mutation_id k).
Proof.
  intros [_ _ Hi _]. apply identifier_small in Hi. unfold small, MAX_ID_BYTES in *. lia.
Qed.

Lemma mv_u64 k : mutation_valid k → 0 ≤ sequence k → is_u64 (sequence k).
Proof. intros [_ _ _ [_ Hs]]. unfold MAX_SAFE_JSON_INTEGER, in_range, u64_max in *. lia. Qed.

(** The marker of a valid mutation decodes to itself. *)
Lemma marker_decodes k fp b :
  mutation_valid k → mutation_fingerprint k = Ok fp →
  marker_to_vec (mkMarker (mutation_id k) (sequence k) fp) = Some b →
  decode_marker b = Ok (mkMarker (mutation_id k) (sequence k) fp).
Proof.
  intros [_ _ Hi [Hz _]] Hf Hb. unfold decode_marker. rewrite (marker_roundtrip _ _ Hb).
  cbn [json result_bind mk_mutation_id mk_sequence mk_sha256].
  rewrite (identifier_local _ _ _ _ _ Hi). cbn [result_bind].
  unfold validate_sha256. rewrite (fingerprint_is_sha256 _ _ Hf). cbn [negb result_bind].
  by rewrite (proj2 (Z.eqb_neq _ _) Hz).
Qed.

Lemma get_marker_none s key : get_marker s key = Ok None → sb_view s !! key = None.
Proof.
  unfold get_marker. intros V. binds V. apply stored_ok, sb_get_ok in E. rewrite <-E.
  destruct x as [b|]; [|done]. by binds V.
Qed.

Lemma marker_new_ok s scope k fp b :
  mutation_valid k → 0 ≤ sequence k → mutation_scope k = scope →
  mutation_fingerprint k = Ok fp →
  marker_to_vec (mkMarker (mutation_id k) (sequence k) fp) = Some b →
  sb_view s !! mutation_sequence_key scope (k_generation_id k) (sequence k) = None →
  sb_view s !! mutation_identity_key scope (k_generation_id k) (mutation_id k) = None →
  new_ok (sb_view s) scope (k_generation_id k) (mkNew (sequence k) (mutation_id k) b).
Proof.
  intros Hv Hz <- Hf Hb Hs Hi. split; [done|done|by apply mv_u64|by apply mv_id_small|].
  eexists. split; [by eapply marker_decodes|]. done.
Qed.

(** *** Replay and revisions *)

Lemma advance_ok g k g' :
  advance g k = Ok g' →
  g' = set_gen g (sequence k) CatchingUp (last_error g) ∧ state g = CatchingUp ∧
  sequence k = applied_sequence g + 1 ∧ sequence k ≤ target_sequence (manifest g).
Proof.
  unfold advance. intros V. binds V. apply dec_stable in E.
  destruct (checked_add u64_max (applied_sequence g) 1) as [e|] eqn:Hadd; [|discriminate].
  binds V. injection V as <-. apply checked_add_Some in Hadd. apply negb_false_iff, Z.eqb_eq in E0.
  rewrite Z.gtb_ltb, Z.ltb_ge in E1. rewrite E. naive_solver.
Qed.

Lemma apply_sound s k now :
  serving_wf rid (sb_view s) → 0 ≤ sequence k → plan_sound (sb_view s) (apply_plan rid s k now).
Proof.
  intros Hwf Hz a ops V. unfold apply_plan in V.
  apply bind_ok in V as ([] & Hk & V). apply contract_ok, mutation_validate_ok in Hk.
  apply bind_ok in V as ([] & _ & V). apply bind_ok in V as (fp & Hf & V).
  apply bind_ok in V as (bytes & Hseq & V). apply stored_ok, sb_get_ok in Hseq. symmetry in Hseq.
  destruct bytes as [bytes|].
  { unfold check_redelivery in V. binds V. destruct x0 as [ib|]; [|discriminate]. by binds V. }
  apply bind_ok in V as (existing & Hid & V). destruct existing as [mk|].
  { by destruct (negb (mk_sequence mk =? sequence k)). }
  apply get_marker_none in Hid. apply bind_ok in V as (r & Hload & V).
  destruct (load_required s _ _ Hwf Hload) as [Hsm Hw].
  apply bind_ok in V as (g & Hg & V). apply staged_mut_ok in Hg as [Hg Hgid].
  apply bind_ok in V as (g' & Hadv & V). apply advance_ok in Hadv as (-> & Hst & Hnext & Htarget).
  apply bind_ok in V as (c & Hc & V). apply bind_ok in V as ([] & Hv & V).
  apply bind_ok in V as (b & Hb & V). apply json_ok in Hb.
  apply bind_ok in V as (ops' & Hops & V). injection V as <- <-.
  destruct (replace_sound (sb_view s) (mutation_scope k) r RoleStaged g
    (set_gen g (sequence k) CatchingUp (last_error g)) now c ops' [mkNew (sequence k) (mutation_id k) b] Hw Hsm Hg eq_refl Hc Hv Hops) as (rb & l & Hs & Eo).
  - cbn. intros n ? ?. right. rewrite list_elem_of_singleton. lia.
  - change (gen_id (set_gen g _ _ _)) with (gen_id g). rewrite Hgid.
    intros x ->%list_elem_of_singleton. by eapply marker_new_ok.
  - apply NoDup_singleton.
  - apply NoDup_singleton.
  - do 6 eexists. split; [exact Hs|]. rewrite <-Eo.
    change (gen_id (set_gen g _ _ _)) with (gen_id g). by rewrite Hgid.
Qed.

Lemma revision_marker_ok s scope gid current k ops :
  serving_wf rid (sb_view s) → mutation_valid k → 0 ≤ sequence k → mutation_scope k = scope → k_generation_id k = gid →
  revision_marker s scope gid current k = Ok ops →
  (ops = [] ∧ is_Some (sb_view s !! enc (KSequence scope gid (sequence k)))) ∨
  ∃ b, ops = puts (new_puts scope gid [mkNew (sequence k) (mutation_id k) b]) ∧
    new_ok (sb_view s) scope gid (mkNew (sequence k) (mutation_id k) b).
Proof.
  intros Hwf Hv Hz Hsc Hgid V. unfold revision_marker in V.
  apply bind_ok in V as (fp & Hf & V). apply bind_ok in V as (sm & Hs & V).
  apply bind_ok in V as (im & Hi & V). destruct sm as [sm|], im as [im|]; try discriminate.
  - left. binds V. injection V as <-. split; [done|].
    unfold get_marker in Hs. apply bind_ok in Hs as (bytes & Hs & Hs').
    apply stored_ok, sb_get_ok in Hs. destruct bytes as [bytes|]; [|discriminate].
    exists bytes. by symmetry.
  - right. binds V. apply json_ok in E0. injection V as <-. exists x. split; [done|].
    subst gid. eapply marker_new_ok; [done|done|done|exact Hf|exact E0|..];
      by apply get_marker_none.
Qed.

Lemma revision_markers_ok s scope gid current expected ks ops :
  serving_wf rid (sb_view s) → Forall (λ k, 0 ≤ sequence k) ks →
  revision_markers s scope gid current expected ks = Ok ops →
  sequence <$> ks = seqZ expected (Zlength ks) ∧
  ∃ new, ops = puts (new_puts scope gid new) ∧
    (λ x, (nm_sequence x, nm_id x)) <$> new `sublist_of` (λ k, (sequence k, mutation_id k)) <$> ks ∧
    (∀ x, x ∈ new → new_ok (sb_view s) scope gid x) ∧
    (∀ k, k ∈ ks → is_Some (sb_view s !! enc (KSequence scope gid (sequence k)))
                   ∨ sequence k ∈ nm_sequence <$> new).
Proof.
  intros Hwf Hz. revert expected ops. induction Hz as [|k ks Hk Hz IH]; intros expected ops V.
  { injection V as <-. split; [done|]. exists []. split_and!; [done|done|..]; by intros ? ?%elem_of_nil. }
  cbn [revision_markers] in V. binds V. injection V as <-.
  apply contract_ok, mutation_validate_ok in E. apply orb_false_iff in E0 as [E0 E0'].
  apply negb_false_iff, bool_decide_eq_true in E0. apply negb_false_iff, String.eqb_eq in E0'.
  apply negb_false_iff, Z.eqb_eq in E2. destruct (IH _ _ E4) as (Hseq & new & -> & Hsub & Hnew & Hall).
  split.
  { cbn [length]. rewrite fmap_cons, Hseq, E2. rewrite (seqZ_cons expected) by lia.
    f_equal. f_equal; lia. }
  destruct (revision_marker_ok s scope gid current k _ Hwf E Hk E0 E0' E3) as [[-> Hs]|(b & -> & Hn)].
  - exists new. split_and!; [done|by apply sublist_cons|done|].
    intros k' [->|Hin]%elem_of_cons; [by left|by apply Hall].
  - exists (mkNew (sequence k) (mutation_id k) b :: new). split_and!.
    + rewrite <-puts_app. done.
    + rewrite !fmap_cons. by apply sublist_skip.
    + intros x1 [->|Hin]%elem_of_cons; [done|by apply Hnew].
    + intros k' [->|Hin]%elem_of_cons; [right; by left|].
      destruct (Hall k' Hin); [by left|right; by right].
Qed.

Lemma generation_by_id_ok r gid role g :
  generation_by_id_mut r gid = Ok (role, g) → (role, Some g) ∈ roles r ∧ gen_id g = gid.
Proof.
  unfold generation_by_id_mut. rewrite elem_of_roles. intros V.
  repeat match type of V with
         | (if String.eqb ?a ?b then _ else _) = _ => destruct (String.eqb_spec a b)
         | match ?o with _ => _ end = _ => let E := fresh "E" in destruct o eqn:E
         end; try discriminate; injection V as <- <-; done.
Qed.

Lemma revision_sound s scope gid sha target ks now :
  serving_wf rid (sb_view s) → Forall (λ k, 0 ≤ sequence k) ks → NoDup (mutation_id <$> ks) →
  plan_sound (sb_view s) (revision_plan rid s scope gid sha target ks now).
Proof.
  intros Hwf Hz Hids a ops V. unfold revision_plan in V.
  apply bind_ok in V as ([] & _ & V). apply bind_ok in V as ([] & _ & V).
  apply bind_ok in V as ([] & _ & V). destruct (target >? MAX_SAFE_JSON_INTEGER); [discriminate|].
  apply bind_ok in V as (r & Hload & V). destruct (load_required s _ _ Hwf Hload) as [Hsm Hw].
  apply bind_ok in V as ([role g] & Hg & V). apply generation_by_id_ok in Hg as [Hg Hgid].
  binds V. apply bool_decide_eq_false in E0. apply orb_false_iff in E1 as [Ht1 Ht2].
  apply Z.ltb_ge in Ht1. apply Z.leb_gt in Ht2. apply negb_false_iff, Z.eqb_eq in E2.
  destruct (applied_sequence g =? target); [discriminate|]. apply bind_ok in V as (c & Hc & V).
  unfold persist_record in V. binds V. injection V as <- <-.
  destruct (revision_markers_ok _ _ _ _ _ _ _ Hwf Hz E3) as (Hseq & new & -> & Hsub & Hnew & Hall).
  pose proof (validate_record_ok _ _ (rw_valid _ _ _ _ Hw)) as Hv.
  assert (target_sequence (manifest g) ≤ applied_sequence g) as Hta.
  { apply (gv_target _ _ _ (rv_gens _ _ Hv _ _ Hg)). destruct (state g); tauto. }
  assert (NoDup (nm_sequence <$> new)) as Hns.
  { eapply sublist_NoDup; [exact (NoDup_seqZ (target_sequence (manifest g) + 1) (Zlength ks))|].
    rewrite <-Hseq. replace (nm_sequence <$> new) with (fst <$> ((λ x, (nm_sequence x, nm_id x)) <$> new))
      by (by rewrite <-list_fmap_compose).
    replace (sequence <$> ks) with (fst <$> ((λ k, (sequence k, mutation_id k)) <$> ks))
      by (by rewrite <-list_fmap_compose). by apply fmap_sublist. }
  assert (NoDup (nm_id <$> new)) as Hni.
  { eapply sublist_NoDup; [exact Hids|].
    replace (nm_id <$> new) with (snd <$> ((λ x, (nm_sequence x, nm_id x)) <$> new))
      by (by rewrite <-list_fmap_compose).
    replace (mutation_id <$> ks) with (snd <$> ((λ k, (sequence k, mutation_id k)) <$> ks))
      by (by rewrite <-list_fmap_compose). by apply fmap_sublist. }
  destruct (replace_sound (sb_view s) scope r role g (set_gen g target (state g) None) now c x1 new
    Hw Hsm Hg eq_refl Hc E1 E4) as (rb & l & Hs & Eo).
  - cbn. intros n Hn Hb. assert (n ∈ sequence <$> ks) as Hin.
    { rewrite Hseq. apply elem_of_seqZ. lia. }
    apply list_elem_of_fmap in Hin as (k & -> & Hk). rewrite <-Hgid in Hall. by apply Hall.
  - change (gen_id (set_gen g _ _ _)) with (gen_id g). by rewrite Hgid.
  - done.
  - done.
  - do 6 eexists. split; [exact Hs|]. rewrite <-Eo.
    change (gen_id (set_gen g _ _ _)) with (gen_id g). by rewrite Hgid.
Qed.
End transitions.
