(* ===== verification/ServingRuns.v ===== *)
(** * Runs of the serving state

    Sequences of transitions of [ServingState] on a store whose writes may fail,
    and what holds of every state they reach. *)

From S2P Require Import Prelude Sorting Text Hex Storage Keys Knowledge ServingState ServingProps.

Inductive serving_op :=
| OStage (k : KnowledgeGenerationManifest) (sha : string) (now : Z)
| OLoaded (scope : KnowledgeScope) (gid : string) (now : Z)
| OApply (k : KnowledgeMutation) (now : Z)
| ORevision (scope : KnowledgeScope) (gid sha : string) (target : Z)
    (ks : list KnowledgeMutation) (now : Z)
| OReady (scope : KnowledgeScope) (gid : string) (now : Z)
| OActivate (scope : KnowledgeScope) (gid : string) (now : Z)
| ORollback (scope : KnowledgeScope) (gid : string) (now : Z)
| OFail (scope : KnowledgeScope) (gid failure : string) (now : Z).

(** Sequence numbers are unsigned. *)
Definition op_typed (o : serving_op) : Prop :=
  match o with
  | OApply k _ => 0 ≤ sequence k
  | ORevision _ _ _ _ ks _ => Forall (λ k, 0 ≤ sequence k) ks
  | _ => True
  end.

(** A revision names each mutation once. The code does not check it, see
    [repeated_id_corrupts_markers]: it is left to the producer of the revision. *)
Definition ids_distinct (o : serving_op) : Prop :=
  match o with
  | ORevision _ _ _ _ ks _ => NoDup (mutation_id <$> ks)
  | _ => True
  end.

Definition op_ok (o : serving_op) : Prop := op_typed o ∧ ids_distinct o.

Lemma ops_ok ops : Forall op_typed ops → Forall ids_distinct ops → Forall op_ok ops.
Proof. intros ??. by apply Forall_and. Qed.

Section runs.
Context `{!UrlParser, !ServingCodec, !Sha256}.
Context {S : Type} `{!StorageBackend S} (rid : string).
Implicit Types (s : S).

Definition serving_step s (o : serving_op) : S :=
  match o with
  | OStage k sha now => (stage_generation rid s k sha now).2
  | OLoaded scope gid now => (mark_bundle_loaded rid s scope gid now).2
  | OApply k now => (apply_mutation rid s k now).2
  | ORevision scope gid sha target ks now =>
      (commit_generation_revision rid s scope gid sha target ks now).2
  | OReady scope gid now => (mark_ready rid s scope gid now).2
  | OActivate scope gid now => (activate rid s scope gid now).2
  | ORollback scope gid now => (rollback rid s scope gid now).2
  | OFail scope gid failure now => (fail_staged rid s scope gid failure now).2
  end.

Definition serving_run s (ops : list serving_op) : S := foldl serving_step s ops.

Context `{!ServingCodecLaws, !Sha256Laws, !StorageLaws S}.

(** *** What a step does to the contents *)

Lemma commit_view {A} s (p : plan A) :
  sb_view (commit s p).2 = sb_view s ∨
  ∃ a ops, p = Ok (a, Some ops) ∧ sb_view (commit s p).2 = apply_batch (sb_view s) ops.
Proof.
  destruct p as [[a [ops|]]|e]; [|by left|by left]. unfold commit.
  destruct (sb_write_batch s ops) as [r s'] eqn:E. apply sb_write_batch_ok in E.
  destruct r as [[]|e]; cbn in E |- *; [right; eauto|]. destruct E as [E|E]; [by left|right; eauto].
Qed.

(** What a step may have done: nothing, or one sound batch. *)
Definition stepped m m' : Prop :=
  m' = m ∨ ∃ scope r b l gid new, sound rid m scope r b l gid new ∧
    m' = apply_batch m (puts (batch_puts scope b l gid new)).

Lemma commit_stepped {A} s (p : plan A) :
  plan_sound rid (sb_view s) p → stepped (sb_view s) (sb_view (commit s p).2).
Proof.
  intros Hp. destruct (commit_view s p) as [->|(a & ops & E & ->)]; [by left|].
  destruct (Hp a ops E) as (scope & r & b & l & gid & new & Hs & ->). right. eauto 10.
Qed.

Lemma step_stepped s o :
  serving_wf rid (sb_view s) → op_ok o → stepped (sb_view s) (sb_view (serving_step s o)).
Proof.
  intros Hwf [Ho Hd]. destruct o; apply commit_stepped; cbn in Ho, Hd.
  - by apply stage_sound.
  - by apply loaded_sound.
  - by apply apply_sound.
  - by apply revision_sound.
  - by apply ready_sound.
  - by apply activate_sound.
  - by apply rollback_sound.
  - by apply fail_sound.
Qed.

Lemma stepped_wf m m' : serving_wf rid m → stepped m m' → serving_wf rid m'.
Proof.
  intros Hwf [->|(scope & r & b & l & gid & new & Hs & ->)]; [done|]. by eapply serving_batch_wf.
Qed.

Definition is_marker (k : skey) : Prop :=
  (∃ scope gid n, k = KSequence scope gid n) ∨ (∃ scope gid i, k = KIdentity scope gid i).

Lemma stepped_marker m m' k v :
  stepped m m' → key_ok k → is_marker k → m !! enc k = Some v → m' !! enc k = Some v.
Proof.
  intros [->|(scope & r & b & l & gid & new & Hs & ->)]; [done|]. intros. by eapply batch_marker_stays.
Qed.

Lemma run_wf s ops :
  serving_wf rid (sb_view s) → Forall op_ok ops → serving_wf rid (sb_view (serving_run s ops)).
Proof.
  intros Hwf Hops. revert s Hwf. induction Hops as [|o ops Ho Hops IH]; intros s Hwf; [done|].
  apply IH. eapply stepped_wf; [done|by apply step_stepped].
Qed.

Lemma run_marker s ops k v :
  serving_wf rid (sb_view s) → Forall op_ok ops → key_ok k → is_marker k →
  sb_view s !! enc k = Some v → sb_view (serving_run s ops) !! enc k = Some v.
Proof.
  intros Hwf Hops Hk Hm. revert s Hwf. induction Hops as [|o ops Ho Hops IH]; intros s Hwf Hv; [done|].
  pose proof (step_stepped s o Hwf Ho) as Hst. apply IH; [by eapply stepped_wf|].
  by eapply stepped_marker.
Qed.

(** *** The guarantee *)

(** A mutation is on record under its number and under its id, consistently. *)
Definition recorded s (scope : KnowledgeScope) (gid : string) (n : Z) : Prop :=
  ∃ b k, sb_view s !! mutation_sequence_key scope gid n = Some b ∧ decode_marker b = Ok k ∧
    mk_sequence k = n ∧ sb_view s !! mutation_identity_key scope gid (mk_mutation_id k) = Some b.

Lemma load_never_corrupt s scope :
  serving_wf rid (sb_view s) →
  match load rid s scope with
  | Ok None => sb_view s !! state_key scope = None
  | Ok (Some r) => scope_small scope ∧ record_wf rid (sb_view s) scope r
  | Err (Contract _) | Err (StorageErr _) => True
  | Err _ => False
  end.
Proof.
  intros Hwf. destruct (load rid s scope) as [[r|]|e] eqn:E; unfold load in E.
  - by apply load_some.
  - unfold load_unlocked in E. binds E. apply stored_ok, sb_get_ok in E1.
    destruct x0 as [b|]; [by binds E|done].
  - unfold load_unlocked in E. destruct (contract (scope_validate scope)) as [[]|v] eqn:Hsc; cbn [result_bind stored json] in E;
      [|by destruct (scope_validate scope); [discriminate Hsc|]; injection Hsc as <-; injection E as <-].
    apply contract_ok, scope_validate_small in Hsc.
    destruct (sb_get s (state_key scope)) as [[b|]|v] eqn:Hg; cbn [result_bind stored json] in E; [|discriminate E|by injection E as <-].
    apply sb_get_ok in Hg. symmetry in Hg. destruct (wf_record _ _ Hwf scope b Hsc Hg) as (r & Hr & Hw).
    rewrite Hr in E. cbn [result_bind stored json] in E. rewrite (rw_valid _ _ _ _ Hw) in E. cbn [result_bind stored json] in E.
    destruct (decide (record_scope r ≠ scope)) as [Hd|]; [|discriminate E].
    destruct Hd. by eapply rw_scope.
Qed.

Lemma record_wf_recorded s scope r role g :
  serving_wf rid (sb_view s) → scope_small scope → record_wf rid (sb_view s) scope r →
  (role, Some g) ∈ roles r →
  ∀ n, 0 ≤ n → base_sequence (manifest g) < n ≤ applied_sequence g → recorded s scope (gen_id g) n.
Proof.
  intros Hwf Hsm Hw Hg n Hn Hb. pose proof (validate_record_ok _ _ (rw_valid _ _ _ _ Hw)) as Hv.
  destruct (rw_gaps _ _ _ _ Hw g (proj2 (elem_of_gens r g) (ex_intro _ role Hg)) n Hn Hb) as [b Hbytes].
  pose proof (rv_gens _ _ Hv _ _ Hg) as [_ Hgs Ha _ _ _ _].
  destruct (wf_sequence _ _ Hwf scope (gen_id g) n b) as (k & H1' & H2' & _ & H4').
  - split; [done|]. split; [done|]. unfold MAX_SAFE_JSON_INTEGER, in_range, u64_max in *. lia.
  - done.
  - by exists b, k.
Qed.

(** C3: in every state a replica's serving records can reach from an empty store,
    through any transitions of any scopes and any failed writes, as long as no
    revision names one mutation id twice (which the code accepts), loading a scope
    never reports corruption; its active generation is serving, has applied at
    least its target, and every mutation from its base to the sequence it reports
    is on record exactly under its number and its id; so has every other
    retained generation up to its own sequence; and the checkpoint stored for a
    loaded generation reports that very sequence and state. *)
Theorem serving_generation_complete s ops scope :
  sb_view s = ∅ → Forall op_typed ops → Forall ids_distinct ops →
  let s' := serving_run s ops in
  match load rid s' scope with
  | Ok None | Err (Contract _) | Err (StorageErr _) => True
  | Err _ => False
  | Ok (Some r) =>
      (∀ g, active r = Some g → state g = Serving ∧ target_sequence (manifest g) ≤ applied_sequence g) ∧
      (∀ role g, (role, Some g) ∈ roles r →
        (∀ n, 0 ≤ n → base_sequence (manifest g) < n ≤ applied_sequence g →
          recorded s' scope (gen_id g) n) ∧
        (state g ≠ Staged → ∃ b c,
          sb_view s' !! checkpoint_key scope (gen_id g) = Some b ∧
          checkpoint_from_slice b = Some c ∧ reports rid g c))
  end.
Proof.
  intros Hs Hty Hids s'. pose proof (ops_ok _ Hty Hids) as Hops.
  assert (serving_wf rid (sb_view s')) as Hwf.
  { apply run_wf; [rewrite Hs; apply wf_empty|done]. }
  pose proof (load_never_corrupt s' scope Hwf) as Hl.
  destruct (load rid s' scope) as [[r|]|e]; [|done|by destruct e]. destruct Hl as [Hsm Hw].
  pose proof (validate_record_ok _ _ (rw_valid _ _ _ _ Hw)) as Hv. split.
  - intros g Hg. assert ((RoleActive, Some g) ∈ roles r) as Hr by (by apply elem_of_roles).
    pose proof (rv_gens _ _ Hv _ _ Hr) as [_ _ _ Ht _ Hst _]. auto.
  - intros role g Hg. split; [by eapply record_wf_recorded|].
    intros Hst. apply (rw_checkpoints _ _ _ _ Hw g); [apply elem_of_gens; eauto|done].
Qed.

(** *** Redelivery *)

Lemma commit_ok {A} s (p : plan A) a s' :
  commit s p = (Ok a, s') →
  (p = Ok (a, None) ∧ s' = s) ∨
  ∃ ops, p = Ok (a, Some ops) ∧ sb_view s' = apply_batch (sb_view s) ops.
Proof.
  destruct p as [[a' [ops|]]|e]; unfold commit; intros E; [|injection E as -> ->; by left|discriminate].
  right. exists ops. destruct (sb_write_batch s ops) as [r s''] eqn:Ew. apply sb_write_batch_ok in Ew.
  destruct r as [[]|e]; [|discriminate]. by injection E as -> ->.
Qed.

Lemma apply_applied s k now s' :
  apply_mutation rid s k now = (Ok Applied, s') →
  ∃ fp b, mutation_valid k ∧ mutation_fingerprint k = Ok fp ∧
    decode_marker b = Ok (mkMarker (mutation_id k) (sequence k) fp) ∧
    sb_view s' !! mutation_sequence_key (mutation_scope k) (k_generation_id k) (sequence k) = Some b ∧
    sb_view s' !! mutation_identity_key (mutation_scope k) (k_generation_id k) (mutation_id k) = Some b.
Proof.
  intros Happ. apply commit_ok in Happ. unfold apply_plan in Happ.
  assert (∃ ops, apply_plan rid s k now = Ok (Applied, Some ops) ∧
    sb_view s' = apply_batch (sb_view s) ops) as (ops & V & Hview).
  { destruct Happ as [[V _]|(ops & V & Hview)]; [exfalso|by exists ops].
    do 4 (apply bind_ok in V as (? & _ & V)). case_match.
    - unfold check_redelivery in V. binds V. case_match; [|discriminate]. by binds V.
    - apply bind_ok in V as (? & _ & V). case_match; [by case_match|].
      do 6 (apply bind_ok in V as (? & _ & V)). apply bind_ok in V as (? & _ & V). discriminate. }
  clear Happ. unfold apply_plan in V.
  apply bind_ok in V as ([] & Hk & V). apply contract_ok, mutation_validate_ok in Hk.
  apply bind_ok in V as (? & _ & V). apply bind_ok in V as (fp & Hf & V).
  apply bind_ok in V as (bytes & _ & V). destruct bytes as [bytes|].
  { unfold check_redelivery in V. binds V. case_match; [|discriminate]. by binds V. }
  apply bind_ok in V as (existing & _ & V). destruct existing; [by case_match|].
  do 5 (apply bind_ok in V as (? & _ & V)). apply bind_ok in V as (b & Hb & V). apply json_ok in Hb.
  apply bind_ok in V as (ops' & _ & V). injection V as <-. rewrite apply_batch_app in Hview.
  exists fp, b. split_and!; [done|done|by eapply marker_decodes|..]; rewrite Hview; cbn [apply_batch foldl apply_op].
  - destruct (decide (mutation_identity_key (mutation_scope k) (k_generation_id k) (mutation_id k)
      = mutation_sequence_key (mutation_scope k) (k_generation_id k) (sequence k))) as [->|Hne].
    + apply lookup_insert_eq.
    + rewrite lookup_insert_ne by done. apply lookup_insert_eq.
  - apply lookup_insert_eq.
Qed.

(** The answer to a second delivery under the same number. *)
Definition redelivered (k : KnowledgeMutation) (fp : string) (k' : KnowledgeMutation) (fp' : string)
    : SResult ApplyMutationOutcome :=
  if negb (String.eqb (mutation_id k) (mutation_id k')) then
    Err (SequenceConflict (sequence k') (mutation_id k) (mutation_id k'))
  else if negb (String.eqb fp fp') then Err (MutationContentConflict (mutation_id k'))
  else Ok Duplicate.

Context `{!StorageReliable S}.

Lemma get_stored s key : stored (sb_get s key) = Ok (sb_view s !! key).
Proof. by rewrite get_eq. Qed.

(** C31: an applied mutation is recorded once and for all: whatever happens to the
    replica afterwards, the same mutation delivered again is answered as a
    duplicate and changes nothing; another mutation with its number is refused
    as a sequence conflict, other content under its id and number as a content
    conflict, and its id under another number is refused. No revision names one
    mutation id twice. *)
Theorem mutation_recorded_once s0 ops0 k now s1 ops k' now' fp fp' :
  sb_view s0 = ∅ → Forall op_typed (ops0 ++ ops) → Forall ids_distinct (ops0 ++ ops) →
  0 ≤ sequence k → 0 ≤ sequence k' →
  apply_mutation rid (serving_run s0 ops0) k now = (Ok Applied, s1) →
  mutation_validate k' = Ok tt → validate_timestamp "updated_at_ms" now' = Ok tt →
  mutation_fingerprint k = Ok fp → mutation_fingerprint k' = Ok fp' →
  mutation_scope k' = mutation_scope k → k_generation_id k' = k_generation_id k →
  let s2 := serving_run s1 ops in
  (sequence k' = sequence k → apply_mutation rid s2 k' now' = (redelivered k fp k' fp', s2)) ∧
  (sequence k' ≠ sequence k → mutation_id k' = mutation_id k →
    ∃ e, apply_mutation rid s2 k' now' = (Err e, s2)).
Proof.
  intros Hs0 Hty Hids Hz Hz' Happ Hv' Hnow Hf Hf' Hsc Hg s2.
  destruct (proj1 (Forall_app _ _ _) (ops_ok _ Hty Hids)) as [Hops0 Hops].
  set (s := serving_run s0 ops0) in *.
  assert (serving_wf rid (sb_view s)) as Hwf by (apply run_wf; [rewrite Hs0; apply wf_empty|done]).
  assert (serving_wf rid (sb_view s1)) as Hwf1.
  { replace s1 with (serving_step s (OApply k now)) by (cbn; by rewrite Happ).
    eapply stepped_wf; [done|by apply step_stepped]. }
  pose proof (run_wf s1 ops Hwf1 Hops) as Hwf2. fold s2 in Hwf2.
  destruct (apply_applied s k now s1 Happ) as (fp0 & b & Hv & Hf0 & Hdec & Hseq & Hid).
  rewrite Hf in Hf0. injection Hf0 as <-.
  assert (sb_view s2 !! enc (KSequence (mutation_scope k) (k_generation_id k) (sequence k)) = Some b) as Hseq2.
  { apply run_marker; [done|done| |left; eauto|done].
    split; [by apply mv_scope|]. split; [by apply mv_gid|by apply mv_u64]. }
  assert (key_ok (KIdentity (mutation_scope k) (k_generation_id k) (mutation_id k))) as Hkid.
  { split; [by apply mv_scope|]. split; [by apply mv_gid|by apply mv_id_small]. }
  assert (sb_view s2 !! enc (KIdentity (mutation_scope k) (k_generation_id k) (mutation_id k)) = Some b) as Hid2.
  { apply run_marker; [done|done|done|right; eauto|done]. }
  unfold apply_mutation, apply_plan. rewrite Hv', Hnow, Hf', Hsc, Hg. cbn [contract result_bind].
  rewrite get_stored. cbn [result_bind]. cbn [enc] in Hseq2, Hid2. split.
  - intros ->. rewrite Hseq2. unfold check_redelivery. rewrite Hdec. cbn [result_bind mk_mutation_id].
    rewrite Hg, get_stored. cbn [result_bind]. rewrite Hid2, Hdec. cbn [result_bind].
    rewrite decide_False by tauto. cbn [mk_mutation_id mk_sha256]. unfold redelivered.
    destruct (negb _); [done|]. by destruct (negb _).
  - intros Hne Hideq. destruct (sb_view s2 !! mutation_sequence_key (mutation_scope k) (k_generation_id k) (sequence k'))
      as [b'|] eqn:Hb'.
    + destruct (wf_sequence _ _ Hwf2 (mutation_scope k) (k_generation_id k) (sequence k') b')
        as (mk & Hmk & Hmks & Hsmall & Hmki).
      { split; [by apply mv_scope|]. split; [by apply mv_gid|]. apply mv_u64; [|done].
        by apply mutation_validate_ok. }
      { exact Hb'. }
      unfold check_redelivery. rewrite Hmk. cbn [result_bind]. rewrite Hg, get_stored. cbn [result_bind].
      cbn [enc] in Hmki. rewrite Hmki, Hmk. cbn [result_bind]. rewrite decide_False by tauto.
      destruct (String.eqb_spec (mk_mutation_id mk) (mutation_id k')) as [E|]; cbn [negb]; [|eexists; done].
      exfalso. apply Hne. rewrite E, Hideq, Hid2 in Hmki. injection Hmki as <-.
      rewrite Hdec in Hmk. injection Hmk as <-. done.
    + unfold get_marker. rewrite get_stored, Hideq, Hid2. cbn [result_bind]. rewrite Hdec.
      cbn [result_bind mk_sequence]. destruct (negb _); eexists; done.
Qed.

(** *** Records after a transition *)

(** The record of a scope, as the store has it. *)
Definition record_at (m : gmap string string) (scope : KnowledgeScope) : option ServingStateRecord :=
  m !! state_key scope ≫= record_from_slice.

Lemma load_at s scope r : load_unlocked rid s scope = Ok (Some r) → record_at (sb_view s) scope = Some r.
Proof.
  unfold load_unlocked. intros V. binds V. destruct x0 as [b|]; [|discriminate]. binds V.
  injection V as ->. apply stored_ok, sb_get_ok in E0. apply json_ok in E1.
  unfold record_at. rewrite <-E0. exact E1.
Qed.

Lemma load_required_at s scope r :
  load_required_unlocked rid s scope = Ok r → record_at (sb_view s) scope = Some r.
Proof.
  unfold load_required_unlocked. intros V. binds V. destruct x as [r'|]; [|discriminate].
  injection V as ->. by apply load_at.
Qed.

Lemma load_reliable s scope r :
  serving_wf rid (sb_view s) → scope_validate scope = Ok tt → record_at (sb_view s) scope = Some r →
  load rid s scope = Ok (Some r).
Proof.
  intros Hwf Hsc Hr. unfold record_at in Hr. destruct (sb_view s !! state_key scope) as [b|] eqn:Hb; [|discriminate].
  cbn [mbind option_bind] in Hr.
  destruct (wf_record _ _ Hwf scope b (scope_validate_small _ Hsc) Hb) as (r' & Hr' & Hw).
  rewrite Hr in Hr'. injection Hr' as <-.
  unfold load, load_unlocked. rewrite Hsc. cbn [contract result_bind]. rewrite get_stored. cbn [result_bind].
  rewrite Hb, Hr. cbn [json result_bind]. rewrite (rw_valid _ _ _ _ Hw). cbn [result_bind].
  rewrite decide_False; [done|]. intros Hne. apply Hne. by eapply rw_scope.
Qed.

Lemma load_scope s scope r : load rid s scope = Ok (Some r) → scope_validate scope = Ok tt.
Proof.
  unfold load, load_unlocked. intros V. apply bind_ok in V as ([] & Hsc & _). by apply contract_ok in Hsc.
Qed.

Lemma persist_head {A} (a a' : A) r now cps more ops :
  persist_record rid a r now cps more = Ok (a', Some ops) →
  ∃ b rest, ops = Put (state_key (record_scope r)) b :: rest ∧ record_from_slice b = Some (touch r now).
Proof.
  unfold persist_record. intros V. binds V. injection V as _ <-.
  destruct (record_operations_ok _ _ _ E0) as (b & l & _ & Hb & -> & _). cbn [puts fmap list_fmap app].
  eexists b, _. split; [reflexivity|done].
Qed.

Lemma put_inj k v k' v' : Some (Put k v) = Some (Put k' v') → k = k' ∧ v = v'.
Proof. intros E. by injection E. Qed.

(** A successful transition leaves the record it persisted. *)
Lemma committed_record {A} s (a a' : A) r now cps more s' :
  plan_sound rid (sb_view s) (persist_record rid a r now cps more) →
  commit s (persist_record rid a r now cps more) = (Ok a', s') →
  record_at (sb_view s') (record_scope r) = Some (touch r now).
Proof.
  intros Hp Hc. apply commit_ok in Hc as [[V _]|(ops & V & Hv)].
  { unfold persist_record in V. by binds V. }
  destruct (Hp _ _ V) as (scope & r' & b & l & gid & new & Hs & Eo).
  destruct (persist_head _ _ _ _ _ _ _ V) as (b' & rest & Eo' & Hb').
  assert (Some (Put (state_key (record_scope r)) b') = Some (Put (state_key scope) b)) as Eh.
  { transitivity (head ops); [by rewrite Eo'|by rewrite Eo]. }
  apply put_inj in Eh as [Ekey Eb]. unfold record_at. rewrite Ekey, Hv, Eo.
  pose proof (batch_state _ _ _ _ _ _ _ _ Hs) as Hst. cbn [enc] in Hst. rewrite Hst, <-Eb. exact Hb'.
Qed.

Lemma commit_bind {A B} s (p : SResult B) (f : B → plan A) a s' :
  commit s (result_bind p f) = (Ok a, s') → ∃ b, p = Ok b ∧ commit s (f b) = (Ok a, s').
Proof. destruct p as [b|e]; [by exists b|discriminate]. Qed.

Lemma load_required_ok s scope r :
  load rid s scope = Ok (Some r) → load_required_unlocked rid s scope = Ok r.
Proof. unfold load, load_required_unlocked. by intros ->. Qed.

Definition with_roles (r : ServingStateRecord) (act prev stg : option GenerationServingState)
    : ServingStateRecord :=
  mkServing (schema_version r) (replica_id r) (r_workspace_id r) (r_collection r) act prev stg
    (updated_at_ms r).

Definition with_state (g : GenerationServingState) (st : LocalGenerationState) : GenerationServingState :=
  set_gen g (applied_sequence g) st None.

Lemma activate_record s scope gid now s1 r a :
  serving_wf rid (sb_view s) → load rid s scope = Ok (Some r) → active r = Some a → gid ≠ gen_id a →
  activate rid s scope gid now = (Ok tt, s1) →
  ∃ next, staged r = Some next ∧ state next = Ready ∧ gen_id next = gid ∧
    record_at (sb_view s1) scope
    = Some (touch (with_roles r (Some (with_state next Serving)) (Some (with_state a Ready)) None) now).
Proof.
  intros Hwf Hload Ha Hgid Hact. pose proof (activate_sound rid s scope gid now Hwf) as Hp.
  destruct (load_some rid s scope r Hwf Hload) as [_ Hw]. pose proof (rw_scope _ _ _ _ Hw) as Hscope.
  unfold activate, activate_plan in *.
  apply commit_bind in Hact as ([] & Et & Hact). rewrite Et in Hp. cbn [result_bind] in Hp.
  rewrite (load_required_ok _ _ _ Hload) in Hp, Hact. cbn [result_bind] in Hp, Hact.
  rewrite Ha in Hp, Hact. cbn [generation_is_present] in Hp, Hact.
  destruct (String.eqb_spec (gen_id a) gid) as [E|_]; [by destruct Hgid|].
  destruct (staged r) as [next|]; [|discriminate].
  apply commit_bind in Hact as ([] & En & Hact). rewrite En in Hp. cbn [result_bind] in Hp.
  destruct (decide (state next ≠ Ready)) as [|Hr]; [discriminate|]. apply dec_stable in Hr.
  cbn [set_role active] in Hp, Hact. rewrite Ha in Hp, Hact.
  apply commit_bind in Hact as (rc & Erc & Hact). rewrite Erc in Hp. cbn [result_bind] in Hp.
  apply bind_ok in Erc as (ca & _ & Erc). injection Erc as <-.
  apply commit_bind in Hact as (c & Ec & Hact). rewrite Ec in Hp. cbn [result_bind fst snd] in Hp, Hact.
  exists next. split_and!; [done|done| |].
  - unfold ensure_generation in En. destruct (String.eqb_spec (gen_id next) gid); [done|discriminate].
  - apply committed_record in Hact; [|exact Hp]. rewrite <-Hscope. exact Hact.
Qed.

Lemma rollback_record s scope now s1 r target former :
  serving_wf rid (sb_view s) → load rid s scope = Ok (Some r) →
  active r = Some former → previous r = Some target →
  rollback rid s scope (gen_id target) now = (Ok tt, s1) →
  record_at (sb_view s1) scope
  = Some (touch (with_roles r (Some (with_state target Serving)) (Some (with_state former Ready))
                   (staged r)) now).
Proof.
  intros Hwf Hload Ha Hpr Hroll. pose proof (rollback_sound rid s scope (gen_id target) now Hwf) as Hp.
  destruct (load_some rid s scope r Hwf Hload) as [_ Hw]. pose proof (rw_scope _ _ _ _ Hw) as Hscope.
  pose proof (validate_record_ok _ _ (rw_valid _ _ _ _ Hw)) as Hv.
  assert (gen_id former ≠ gen_id target) as Hne.
  { apply (roles_distinct rid r RoleActive RolePrevious); [done|by apply elem_of_roles..|done]. }
  unfold rollback, rollback_plan in *.
  apply commit_bind in Hroll as ([] & Et & Hroll). rewrite Et in Hp. cbn [result_bind] in Hp.
  rewrite (load_required_ok _ _ _ Hload) in Hp, Hroll. cbn [result_bind] in Hp, Hroll.
  rewrite Ha, Hpr in Hp, Hroll. cbn [generation_is_present] in Hp, Hroll.
  destruct (String.eqb_spec (gen_id former) (gen_id target)) as [E|_]; [done|].
  apply commit_bind in Hroll as ([] & En & Hroll). rewrite En in Hp. cbn [result_bind] in Hp.
  apply commit_bind in Hroll as (c1 & E1 & Hroll). rewrite E1 in Hp. cbn [result_bind] in Hp.
  apply commit_bind in Hroll as (c2 & E2 & Hroll). rewrite E2 in Hp. cbn [result_bind] in Hp.
  apply committed_record in Hroll; [|exact Hp]. rewrite <-Hscope. exact Hroll.
Qed.

Lemma with_state_twice g st st' :
  state g = st' → last_error g = None → with_state (with_state g st) st' = g.
Proof. destruct g. cbn. by intros -> ->. Qed.

Lemma live_no_error scope role g :
  gen_valid scope role g → state g ≠ Failed → last_error g = None.
Proof. intros Hg Hst. destruct (last_error g) eqn:E; [|done]. destruct Hst. apply Hg. by rewrite E. Qed.

(** Rolling back undoes an activation exactly: the generation that served
    before serves again, unchanged, and the one that was activated is kept, ready,
    as the rollback target. *)
Lemma rollback_restores s0 ops0 scope gid r a now s1 now' s2 :
  sb_view s0 = ∅ → Forall op_ok ops0 →
  let s := serving_run s0 ops0 in
  load rid s scope = Ok (Some r) → active r = Some a → gid ≠ gen_id a →
  activate rid s scope gid now = (Ok tt, s1) → rollback rid s1 scope (gen_id a) now' = (Ok tt, s2) →
  ∃ r2, load rid s2 scope = Ok (Some r2) ∧ is_Some (staged r) ∧
    active r2 = active r ∧ previous r2 = staged r ∧ staged r2 = None.
Proof.
  intros Hs0 Hops0 s Hload Ha Hgid Hact Hroll.
  assert (serving_wf rid (sb_view s)) as Hwf by (apply run_wf; [rewrite Hs0; apply wf_empty|done]).
  pose proof (load_scope _ _ _ Hload) as Hsc.
  destruct (load_some rid s scope r Hwf Hload) as [Hsm Hw].
  pose proof (validate_record_ok _ _ (rw_valid _ _ _ _ Hw)) as Hv.
  assert (serving_wf rid (sb_view s1)) as Hwf1.
  { replace s1 with (serving_step s (OActivate scope gid now)) by (cbn; by rewrite Hact).
    eapply stepped_wf; [done|by apply step_stepped]. }
  assert (serving_wf rid (sb_view s2)) as Hwf2.
  { replace s2 with (serving_step s1 (ORollback scope (gen_id a) now')) by (cbn; by rewrite Hroll).
    eapply stepped_wf; [done|by apply step_stepped]. }
  destruct (activate_record s scope gid now s1 r a Hwf Hload Ha Hgid Hact) as (next & Hst & Hready & _ & Hr1).
  pose proof (load_reliable s1 scope _ Hwf1 Hsc Hr1) as Hload1.
  pose proof (rollback_record s1 scope now' s2 _ (with_state a Ready) _ Hwf1 Hload1 eq_refl eq_refl Hroll) as Hr2.
  eexists. split; [by apply load_reliable|]. cbn [touch with_roles active previous staged].
  assert ((RoleActive, Some a) ∈ roles r) as Hra by (by apply elem_of_roles).
  assert ((RoleStaged, Some next) ∈ roles r) as Hrn by (by apply elem_of_roles).
  pose proof (rv_gens _ _ Hv _ _ Hra) as Hga. pose proof (rv_gens _ _ Hv _ _ Hrn) as Hgn.
  pose proof (gv_role _ _ _ Hga) as Hserving. cbn in Hserving.
  rewrite Hst, Ha, !with_state_twice; [eauto|done|eapply live_no_error; [done|congruence]
    |done|eapply live_no_error; [done|congruence]].
Qed.

(** *** A failed generation stays *)

(** The staged generation of a record is the failed [gid]. *)
Definition staged_failed (gid : string) (r : ServingStateRecord) : Prop :=
  ∃ g, staged r = Some g ∧ gen_id g = gid ∧ state g = Failed.

Definition failed_at m (scope : KnowledgeScope) (gid : string) : Prop :=
  ∃ r, record_at m scope = Some r ∧ staged_failed gid r.

Section failed.
Context (scope : KnowledgeScope) (gid : string).

(** A batch that writes a record of the scope, if any, with that generation. *)
Definition keeps (ops : list BatchOperation) : Prop :=
  ∃ sc b r rest, ops = Put (state_key sc) b :: rest ∧ record_from_slice b = Some r ∧
    (state_key sc = state_key scope → staged_failed gid r).

Lemma persist_keeps {A} (a a' : A) r now cps more ops :
  persist_record rid a r now cps more = Ok (a', Some ops) →
  (state_key (record_scope r) = state_key scope → staged_failed gid r) → keeps ops.
Proof.
  intros V Hr. destruct (persist_head _ _ _ _ _ _ _ V) as (b & rest & -> & Hb).
  exists (record_scope r), b, (touch r now), rest. done.
Qed.

(** The record an operation loads is the failed one, if it is that of the scope. *)
Lemma loaded_failed s sc r :
  serving_wf rid (sb_view s) → failed_at (sb_view s) scope gid →
  load_required_unlocked rid s sc = Ok r →
  record_scope r = sc ∧ (state_key sc = state_key scope → staged_failed gid r).
Proof.
  intros Hwf (r' & Hr' & Hf) Hl. destruct (load_required rid s sc r Hwf Hl) as [_ Hw].
  split; [by eapply rw_scope|]. intros E. apply load_required_at in Hl. unfold record_at in *.
  rewrite E, Hr' in Hl. by injection Hl as <-.
Qed.

(** Replacing the staged generation by another in the same record is possible only
    from a state that is not failed, or into a failed one. *)
Lemma replace_keeps {A} s sc r g g' (a a' : A) now cps more ops gid' :
  serving_wf rid (sb_view s) → failed_at (sb_view s) scope gid →
  load_required_unlocked rid s sc = Ok r → staged_mut r gid' = Ok g →
  gen_id g' = gen_id g → state g ≠ Failed ∨ state g' = Failed →
  persist_record rid a (set_role r RoleStaged (Some g')) now cps more = Ok (a', Some ops) → keeps ops.
Proof.
  intros Hwf Hf Hl Hg Hid Hst V. destruct (loaded_failed s sc r Hwf Hf Hl) as [Hsc Hr].
  apply staged_mut_ok in Hg as [Hg _]. rewrite elem_of_roles in Hg.
  eapply persist_keeps; [exact V|]. change (record_scope (set_role r RoleStaged (Some g'))) with (record_scope r).
  rewrite Hsc. intros (g0 & E & <- & Hst0)%Hr. rewrite Hg in E. injection E as <-.
  exists g'. destruct Hst; [done|]. done.
Qed.

(** Changing another role keeps it. *)
Lemma other_keeps {A} s sc r r' (a a' : A) now cps more ops :
  serving_wf rid (sb_view s) → failed_at (sb_view s) scope gid →
  load_required_unlocked rid s sc = Ok r → record_scope r' = record_scope r → staged r' = staged r →
  persist_record rid a r' now cps more = Ok (a', Some ops) → keeps ops.
Proof.
  intros Hwf Hf Hl Hs' Hst V. destruct (loaded_failed s sc r Hwf Hf Hl) as [Hsc Hr].
  eapply persist_keeps; [exact V|]. rewrite Hs', Hsc. intros (g0 & E & Hg)%Hr.
  exists g0. by rewrite Hst.
Qed.

Definition plan_keeps {A} (p : plan A) : Prop := ∀ a ops, p = Ok (a, Some ops) → keeps ops.

Lemma stage_keeps s k sha now :
  serving_wf rid (sb_view s) → failed_at (sb_view s) scope gid → plan_keeps (stage_plan rid s k sha now).
Proof.
  intros Hwf (r0 & Hr0 & g0 & Hst0 & Hf0) a ops V. unfold stage_plan in V.
  do 3 (apply bind_ok in V as (? & _ & V)). apply bind_ok in V as (loaded & Hl & V).
  destruct (_ || _); [discriminate|]. set (r := default _ loaded) in V.
  destruct (staged r) as [g|] eqn:Hst.
  { destruct (negb _); [discriminate|]. by destruct (_ && _). }
  eapply persist_keeps; [exact V|].
  change (record_scope (set_role r RoleStaged _)) with (record_scope r). intros E. exfalso.
  assert (record_scope r = manifest_scope k) as Hsc.
  { destruct loaded as [r'|]; [|reflexivity]. destruct (load_some rid s _ _ Hwf Hl) as [_ Hw].
    by eapply rw_scope. }
  rewrite Hsc in E. destruct loaded as [r'|].
  - apply load_at in Hl. unfold record_at in *. rewrite E, Hr0 in Hl. injection Hl as ->.
    cbn in r. unfold r in Hst. by rewrite Hst0 in Hst.
  - unfold load_unlocked in Hl. apply bind_ok in Hl as (? & _ & Hl). rewrite get_stored in Hl.
    cbn [result_bind] in Hl. rewrite E in Hl. unfold record_at in Hr0.
    destruct (sb_view s !! state_key scope) as [b|]; [|discriminate Hr0].
    apply bind_ok in Hl as (? & _ & Hl). apply bind_ok in Hl as (? & _ & Hl). by case_decide.
Qed.

Lemma apply_keeps s k now :
  serving_wf rid (sb_view s) → failed_at (sb_view s) scope gid → plan_keeps (apply_plan rid s k now).
Proof.
  intros Hwf Hf a ops V. unfold apply_plan in V.
  do 3 (apply bind_ok in V as (? & _ & V)). apply bind_ok in V as (bytes & _ & V).
  destruct bytes as [bytes|].
  { unfold check_redelivery in V. binds V. case_match; [|discriminate]. by binds V. }
  apply bind_ok in V as (existing & _ & V). destruct existing; [by case_match|].
  apply bind_ok in V as (r & Hl & V). apply bind_ok in V as (g & Hg & V).
  apply bind_ok in V as (g' & Hadv & V). apply advance_ok in Hadv as (-> & Hst & _).
  apply bind_ok in V as (c & _ & V). apply bind_ok in V as ([] & Hv & V).
  apply bind_ok in V as (b & _ & V). apply bind_ok in V as (ops' & Hops & V). injection V as <- <-.
  eapply (replace_keeps s _ r g _ Applied Applied now [c] _ _ _ Hwf Hf Hl Hg).
  - by instantiate (1 := set_gen g (sequence k) CatchingUp (last_error g)).
  - left. by rewrite Hst.
  - unfold persist_record. rewrite Hv. cbn [result_bind]. rewrite Hops. reflexivity.
Qed.

Lemma activate_keeps s sc g now :
  serving_wf rid (sb_view s) → failed_at (sb_view s) scope gid → plan_keeps (activate_plan rid s sc g now).
Proof.
  intros Hwf Hf a ops V. unfold activate_plan in V. binds V.
  destruct (loaded_failed s sc _ Hwf Hf E0) as [Hsc Hr].
  destruct (generation_is_present _ _); [discriminate|].
  destruct (staged x0) as [next|] eqn:Hst; [|discriminate]. binds V. apply dec_stable in E2.
  assert (record_scope (set_role x1.1 RoleActive (Some (set_gen next (applied_sequence next) Serving None)))
    = sc) as Hsc'.
  { cbn [set_role active] in E3. destruct (active x0).
    - apply bind_ok in E3 as (? & _ & E3). injection E3 as <-. exact Hsc.
    - injection E3 as <-. exact Hsc. }
  eapply persist_keeps; [exact V|]. rewrite Hsc'. intros (g0 & Eg & _ & Hfail)%Hr.
  rewrite Hst in Eg. injection Eg as <-. by rewrite E2 in Hfail.
Qed.

Lemma revision_keeps s sc g' sha target ks now :
  serving_wf rid (sb_view s) → failed_at (sb_view s) scope gid →
  plan_keeps (revision_plan rid s sc g' sha target ks now).
Proof.
  intros Hwf Hf a ops V. unfold revision_plan in V. do 3 (apply bind_ok in V as (? & _ & V)).
  destruct (target >? MAX_SAFE_JSON_INTEGER); [discriminate|].
  apply bind_ok in V as (r & Hl & V). apply bind_ok in V as ([role g] & Hg & V).
  binds V. apply bool_decide_eq_false in E0. destruct (applied_sequence g =? target); [discriminate|].
  apply bind_ok in V as (c & _ & V). destruct (loaded_failed s sc r Hwf Hf Hl) as [Hsc Hr].
  apply generation_by_id_ok in Hg as [Hg _]. rewrite elem_of_roles in Hg.
  eapply persist_keeps; [exact V|].
  assert (record_scope (set_role r role (Some (set_gen g target (state g) None))) = sc) as ->.
  { by destruct role. }
  intros (g0 & Eg & Hg0)%Hr. destruct role; [by exists g0|by exists g0|].
  rewrite Hg in Eg. injection Eg as <-. destruct E0. destruct Hg0 as [_ ->]. auto.
Qed.

Lemma step_plan_keeps s o :
  serving_wf rid (sb_view s) → failed_at (sb_view s) scope gid →
  match o with
  | OStage k sha now => plan_keeps (stage_plan rid s k sha now)
  | OLoaded sc g now => plan_keeps (loaded_plan rid s sc g now)
  | OApply k now => plan_keeps (apply_plan rid s k now)
  | ORevision sc g sha target ks now => plan_keeps (revision_plan rid s sc g sha target ks now)
  | OReady sc g now => plan_keeps (ready_plan rid s sc g now)
  | OActivate sc g now => plan_keeps (activate_plan rid s sc g now)
  | ORollback sc g now => plan_keeps (rollback_plan rid s sc g now)
  | OFail sc g failure now => plan_keeps (fail_plan rid s sc g failure now)
  end.
Proof.
  intros Hwf Hf. destruct o as [k sha now|sc g' now|k now|sc g' sha target ks now|sc g' now|sc g' now|sc g' now
    |sc g' failure now].
  - by apply stage_keeps.
  - intros a ops V. unfold loaded_plan in V. binds V. destruct (state x1) eqn:Hst; try discriminate.
    apply bind_ok in V as (c & _ & V). eapply replace_keeps; [done|done|exact E0|exact E1| | |exact V]; [done|].
    left. by rewrite Hst.
  - by apply apply_keeps.
  - by apply revision_keeps.
  - intros a ops V. unfold ready_plan in V. binds V. destruct (state x1) eqn:Hst; try discriminate.
    binds V. eapply replace_keeps; [done|done|exact E0|exact E1| | |exact V]; [done|].
    left. by rewrite Hst.
  - by apply activate_keeps.
  - intros a ops V. unfold rollback_plan in V. binds V. destruct (generation_is_present _ _); [discriminate|].
    destruct (previous x0); [|discriminate]. binds V. destruct (active x0); [|discriminate]. binds V.
    eapply other_keeps; [done|done|exact E0| | |exact V]; done.
  - intros a ops V. unfold fail_plan in V. binds V. destruct (_ && _); [discriminate|].
    apply bind_ok in V as (c & _ & V). eapply replace_keeps; [done|done|exact E1|exact E2| | |exact V]; [done|].
    by right.
Qed.

Lemma commit_failed {A} s (p : plan A) :
  scope_small scope → plan_sound rid (sb_view s) p → plan_keeps p → failed_at (sb_view s) scope gid →
  failed_at (sb_view (commit s p).2) scope gid.
Proof.
  intros Hsm Hp Hk Hf. destruct (commit_view s p) as [->|(a & ops & V & ->)]; [done|].
  destruct (Hp _ _ V) as (sc & r' & b & l & gid' & new & Hs & Eo).
  destruct (Hk _ _ V) as (sc' & b' & r & rest & Eo' & Hb' & Hr).
  assert (Some (Put (state_key sc') b') = Some (Put (state_key sc) b)) as Eh.
  { transitivity (head ops); [by rewrite Eo'|by rewrite Eo]. }
  apply put_inj in Eh as [Ekey Eb]. destruct (decide (scope = sc)) as [Esc|Hne].
  - exists r. split; [|apply Hr; by rewrite Ekey, Esc]. unfold record_at. rewrite Esc, Eo.
    pose proof (batch_state _ _ _ _ _ _ _ _ Hs) as Hst. cbn [enc] in Hst. rewrite Hst, <-Eb. exact Hb'.
  - destruct Hf as (r0 & Hr0 & Hf). exists r0. split; [|done]. unfold record_at. rewrite Eo.
    pose proof (batch_state_other _ _ _ _ _ _ _ _ Hs scope Hsm Hne) as Hst. cbn [enc] in Hst.
    by rewrite Hst.
Qed.

Lemma step_failed s o :
  scope_small scope → serving_wf rid (sb_view s) → op_ok o → failed_at (sb_view s) scope gid →
  failed_at (sb_view (serving_step s o)) scope gid.
Proof.
  intros Hsm Hwf [Ho Hd] Hf. pose proof (step_plan_keeps s o Hwf Hf) as Hk.
  destruct o; (apply commit_failed; [done| |exact Hk|done]).
  - by apply stage_sound.
  - by apply loaded_sound.
  - by apply apply_sound.
  - by apply revision_sound.
  - by apply ready_sound.
  - by apply activate_sound.
  - by apply rollback_sound.
  - by apply fail_sound.
Qed.

Lemma run_failed s ops :
  scope_small scope → serving_wf rid (sb_view s) → Forall op_ok ops →
  failed_at (sb_view s) scope gid → failed_at (sb_view (serving_run s ops)) scope gid.
Proof.
  intros Hsm Hwf Hops. revert s Hwf. induction Hops as [|o ops Ho Hops IH]; intros s Hwf Hf; [done|].
  apply IH; [|by apply step_failed]. eapply stepped_wf; [done|by apply step_stepped].
Qed.
End failed.

(** A generation whose build failed blocks its scope for good: whatever is
    called afterwards, it remains the staged generation and remains failed, it is
    never activated, and no other generation of the scope can be staged. *)
Lemma failed_generation_blocks_scope s0 ops0 scope gid r g ops :
  sb_view s0 = ∅ → Forall op_ok ops0 → Forall op_ok ops →
  let s := serving_run s0 ops0 in
  load rid s scope = Ok (Some r) → staged r = Some g → gen_id g = gid → state g = Failed →
  let s' := serving_run s ops in
  (∃ r' g', load rid s' scope = Ok (Some r') ∧ staged r' = Some g' ∧ gen_id g' = gid ∧ state g' = Failed ∧
    ∀ a, active r' = Some a → gen_id a ≠ gid) ∧
  (∀ k sha now o s'', manifest_scope k = scope → generation_id k ≠ gid →
    stage_generation rid s' k sha now ≠ (Ok o, s'')).
Proof.
  intros Hs0 Hops0 Hops s Hload Hst Hid Hfail s'.
  assert (serving_wf rid (sb_view s)) as Hwf by (apply run_wf; [rewrite Hs0; apply wf_empty|done]).
  pose proof (load_scope _ _ _ Hload) as Hsc. pose proof (scope_validate_small _ Hsc) as Hsm.
  assert (failed_at (sb_view s') scope gid) as (r' & Hr' & g' & Hst' & Hid' & Hfail').
  { apply run_failed; [done|done|done|]. exists r. split; [by apply load_at|]. by exists g. }
  pose proof (run_wf s ops Hwf Hops) as Hwf'. fold s' in Hwf'.
  pose proof (load_reliable s' scope r' Hwf' Hsc Hr') as Hload'.
  destruct (load_some rid s' scope r' Hwf' Hload') as [_ Hw'].
  pose proof (validate_record_ok _ _ (rw_valid _ _ _ _ Hw')) as Hv'. split.
  - exists r', g'. split_and!; [done..|]. intros a Ha. rewrite <-Hid'.
    apply (roles_distinct rid r' RoleActive RoleStaged); [done|by apply elem_of_roles..|done].
  - intros k sha now o s'' Hk Hne. unfold stage_generation. intros Hc. unfold stage_plan in Hc.
    do 3 (apply commit_bind in Hc as (? & _ & Hc)). rewrite Hk in Hc. unfold load in Hload'.
    rewrite Hload' in Hc. cbn [result_bind default from_option id] in Hc. unfold id in Hc. destruct (_ || _); [discriminate|].
    rewrite Hst' in Hc. destruct (String.eqb_spec (gen_id g') (generation_id k)) as [E|]; [|discriminate].
    apply Hne. by rewrite <-E.
Qed.
End runs.

(** ** A concrete replica *)

Module Example1.
Export FnvDigest Trees.

(** Object stores only. *)
#[export] Instance urls : UrlParser := {
  url_parse u := if starts_with u "s3://" then Some (mkUrl "s3" (Some "bucket") "/key" "" None None) else None
}.

Definition object_tree (o : ImmutableObjectReference) : tree :=
  GenNode 0 [S_ (uri o); S_ (sha256 o); Z_ (size_bytes o)].
Definition tree_object (t : tree) : option ImmutableObjectReference :=
  match t with GenNode 0 [S_ a; S_ b; Z_ c] => Some (mkObject a b c) | _ => None end.

Definition manifest_tree (m : KnowledgeGenerationManifest) : tree :=
  GenNode 0 [Z_ (m_schema_version m); S_ (m_workspace_id m); S_ (m_collection m); S_ (generation_id m);
    opt_tree str_tree (parent_generation_id m); Z_ (m_created_at_ms m); S_ (embedding_model_id m);
    Z_ (embedding_dimensions m); S_ (graph_schema_version m);
    Z_ (match bundle_compression m with NoCompression => 0 | Zstd => 1 end); object_tree (bundle m);
    Z_ (base_sequence m); Z_ (target_sequence m); Z_ (expected_vector_count m); Z_ (expected_edge_count m)].
Definition tree_manifest (t : tree) : option KnowledgeGenerationManifest :=
  match t with
  | GenNode 0 [Z_ a; S_ b; S_ c; S_ d; e; Z_ f; S_ g; Z_ h; S_ i; Z_ j; k; Z_ l; Z_ m; Z_ n; Z_ o] =>
      e ← tree_opt tree_str e; k ← tree_object k;
      Some (mkManifest a b c d e f g h i NdjsonV1 (if j =? 0 then NoCompression else Zstd) k l m n o)
  | _ => None
  end.

Definition local_tree (s : LocalGenerationState) : Z :=
  match s with Staged => 0 | CatchingUp => 1 | Ready => 2 | Serving => 3 | Failed => 4 end.
Definition tree_local (z : Z) : LocalGenerationState :=
  match z with 0 => Staged | 1 => CatchingUp | 2 => Ready | 3 => Serving | _ => Failed end.

Definition gen_tree_of (g : GenerationServingState) : tree :=
  GenNode 0 [manifest_tree (manifest g); S_ (manifest_sha256 g); Z_ (applied_sequence g);
    Z_ (local_tree (state g)); opt_tree str_tree (last_error g)].
Definition tree_gen (t : tree) : option GenerationServingState :=
  match t with
  | GenNode 0 [a; S_ b; Z_ c; Z_ d; e] =>
      a ← tree_manifest a; e ← tree_opt tree_str e; Some (mkGeneration a b c (tree_local d) e)
  | _ => None
  end.

Definition record_tree (r : ServingStateRecord) : tree :=
  GenNode 0 [Z_ (schema_version r); S_ (replica_id r); S_ (r_workspace_id r); S_ (r_collection r);
    opt_tree gen_tree_of (active r); opt_tree gen_tree_of (previous r); opt_tree gen_tree_of (staged r);
    Z_ (updated_at_ms r)].
Definition tree_record (t : tree) : option ServingStateRecord :=
  match t with
  | GenNode 0 [Z_ a; S_ b; S_ c; S_ d; e; f; g; Z_ h] =>
      e ← tree_opt tree_gen e; f ← tree_opt tree_gen f; g ← tree_opt tree_gen g;
      Some (mkServing a b c d e f g h)
  | _ => None
  end.

Definition checkpoint_tree (c : ReplicaCheckpoint) : tree :=
  GenNode 0 [Z_ (c_schema_version c); S_ (c_replica_id c); S_ (c_workspace_id c); S_ (c_collection c);
    S_ (c_generation_id c); S_ (c_manifest_sha256 c); Z_ (c_applied_sequence c);
    Z_ (match c_state c with RCatchingUp => 0 | RReady => 1 | RServing => 2 | RFailed => 3 end);
    opt_tree str_tree (c_last_error c); Z_ (c_updated_at_ms c)].
Definition tree_checkpoint (t : tree) : option ReplicaCheckpoint :=
  match t with
  | GenNode 0 [Z_ a; S_ b; S_ c; S_ d; S_ e; S_ f; Z_ g; Z_ h; i; Z_ j] =>
      i ← tree_opt tree_str i;
      Some (mkReplicaCheckpoint a b c d e f g
              (match h with 0 => RCatchingUp | 1 => RReady | 2 => RServing | _ => RFailed end) i j)
  | _ => None
  end.

Definition marker_tree (k : MutationMarker) : tree :=
  GenNode 0 [S_ (mk_mutation_id k); Z_ (mk_sequence k); S_ (mk_sha256 k)].
Definition tree_marker (t : tree) : option MutationMarker :=
  match t with GenNode 0 [S_ a; Z_ b; S_ c] => Some (mkMarker a b c) | _ => None end.

Definition mutation_tree (k : KnowledgeMutation) : tree :=
  GenNode 0 [Z_ (k_schema_version k); S_ (mutation_id k); S_ (k_workspace_id k); S_ (k_collection k);
    S_ (k_generation_id k); Z_ (sequence k);
    Z_ (match operation k with OpUpsert => 0 | OpDelete => 1 end); S_ (chunk_id k);
    opt_tree object_tree (payload k); Z_ (k_created_at_ms k)].

#[export] Instance codec : ServingCodec := {
  record_to_vec r := code_serialize (record_tree r);
  record_from_slice b := code_deserialize b ≫= tree_record;
  checkpoint_to_vec c := code_serialize (checkpoint_tree c);
  checkpoint_from_slice b := code_deserialize b ≫= tree_checkpoint;
  marker_to_vec k := code_serialize (marker_tree k);
  marker_from_slice b := code_deserialize b ≫= tree_marker;
  mutation_to_vec k := code_serialize (mutation_tree k);
}.

Lemma tree_manifest_tree m : tree_manifest (manifest_tree m) = Some m.
Proof.
  unfold tree_manifest, manifest_tree. rewrite tree_opt_tree by done.
  destruct m as [? ? ? ? ? ? ? ? ? [] [] [] ? ? ? ?]; reflexivity.
Qed.

Lemma tree_gen_tree g : tree_gen (gen_tree_of g) = Some g.
Proof.
  unfold tree_gen, gen_tree_of. rewrite tree_manifest_tree, tree_opt_tree by done.
  destruct g as [? ? ? [] ?]; reflexivity.
Qed.

#[export] Instance codec_laws : ServingCodecLaws.
Proof.
  split.
  - intros r b E. apply code_ok in E. cbn. rewrite E. cbn.
    rewrite !tree_opt_tree by apply tree_gen_tree. by destruct r.
  - intros c b E. apply code_ok in E. cbn. rewrite E. cbn.
    rewrite tree_opt_tree by done. by destruct c as [? ? ? ? ? ? ? [] ? ?].
  - intros k b E. apply code_ok in E. cbn. rewrite E. by destruct k.
Qed.

(** *** A replica with one scope *)

Definition sha_a : string := "aaaaaaaaaaaaaaaaaaaaaaaaaaaaaaaaaaaaaaaaaaaaaaaaaaaaaaaaaaaaaaaa".

Definition demo_scope : KnowledgeScope := mkScope "w" "c".

Definition demo_manifest (gid : string) (base target : Z) : KnowledgeGenerationManifest :=
  mkManifest 1 "w" "c" gid None 1 "m" 3 "v1" NdjsonV1 NoCompression (mkObject "s3://b/k" sha_a 1)
    base target 0 0.

Definition demo_mutation (gid mid : string) (n : Z) : KnowledgeMutation :=
  mkMutation 1 mid "w" "c" gid n OpDelete "chunk" None 1.

Definition store0 : RocksDbBackend MemDB := mkBackend (∅ : MemDB).

Abbreviation run ops := (serving_run "r1" store0 ops).

(** A generation brought to serve, its mutations up to the target applied. *)
Definition publish (gid : string) (base : Z) (mutations : list KnowledgeMutation) : list serving_op :=
  [OStage (demo_manifest gid base (base + Zlength mutations)) sha_a 5; OLoaded demo_scope gid 6]
  ++ ((λ k, OApply k 7) <$> mutations)
  ++ [OReady demo_scope gid 8].

Definition serve (gid : string) (base : Z) (mutations : list KnowledgeMutation) : list serving_op :=
  publish gid base mutations ++ [OActivate demo_scope gid 9].

Definition demo_m1 : KnowledgeMutation := demo_mutation "g1" "m1" 1.

Definition demo_ops : list serving_op := serve "g1" 0 [demo_m1] ++ publish "g2" 1 [].

Lemma demo_ops_typed : Forall op_typed demo_ops.
Proof. repeat constructor; vm_compute; congruence. Qed.

Lemma demo_ops_distinct : Forall ids_distinct demo_ops.
Proof. repeat constructor. Qed.

Lemma demo_ops_ok : Forall op_ok demo_ops.
Proof. apply ops_ok; [apply demo_ops_typed|apply demo_ops_distinct]. Qed.

Definition demo_gen (gid : string) (base target : Z) (st : LocalGenerationState) : GenerationServingState :=
  mkGeneration (demo_manifest gid base target) sha_a target st None.

Definition demo_record : ServingStateRecord :=
  mkServing 1 "r1" "w" "c" (Some (demo_gen "g1" 0 1 Serving)) None (Some (demo_gen "g2" 1 1 Ready)) 8.

Example demo_loads : load "r1" (run demo_ops) demo_scope = Ok (Some demo_record).
Proof. vm_compute. reflexivity. Qed.

Lemma serving_generation_complete_witness : recorded (run demo_ops) demo_scope "g1" 1.
Proof.
  pose proof (serving_generation_complete "r1" store0 demo_ops demo_scope eq_refl demo_ops_typed
    demo_ops_distinct) as H.
  cbv zeta in H. rewrite demo_loads in H. destruct H as [_ H].
  apply (H RoleActive (demo_gen "g1" 0 1 Serving)); [by left|done|done].
Defined.

Definition demo_before : list serving_op :=
  [OStage (demo_manifest "g1" 0 1) sha_a 5; OLoaded demo_scope "g1" 6].

Lemma fingerprint_total k : ∃ fp, mutation_fingerprint k = Ok fp.
Proof. eexists. reflexivity. Qed.

Lemma mutation_recorded_once_witness :
  let s1 := (apply_mutation "r1" (run demo_before) demo_m1 7).2 in
  let s2 := serving_run "r1" s1 [OReady demo_scope "g1" 8; OActivate demo_scope "g1" 9] in
  (apply_mutation "r1" s2 demo_m1 10).1 = Ok Duplicate ∧
  (apply_mutation "r1" s2 (demo_mutation "g1" "m1" 2) 10).1 = Err (MutationIdConflict "m1" 1 2).
Proof.
  intros s1 s2.
  assert (apply_mutation "r1" (run demo_before) demo_m1 7 = (Ok Applied, s1)) as Happ.
  { apply injective_projections; [vm_compute; reflexivity|reflexivity]. }
  destruct (fingerprint_total demo_m1) as [fp Hf].
  split; [|vm_compute; reflexivity].
  destruct (mutation_recorded_once "r1" store0 demo_before demo_m1 7 s1
    [OReady demo_scope "g1" 8; OActivate demo_scope "g1" 9] demo_m1 10 fp fp) as [H _].
  - reflexivity.
  - repeat constructor.
  - repeat constructor.
  - vm_compute. congruence.
  - vm_compute. congruence.
  - exact Happ.
  - vm_compute. reflexivity.
  - vm_compute. reflexivity.
  - exact Hf.
  - exact Hf.
  - reflexivity.
  - reflexivity.
  - unfold s2. rewrite (H eq_refl). unfold redelivered. by rewrite !String.eqb_refl.
Defined.

Lemma rollback_restores_witness :
  let s1 := (activate "r1" (run demo_ops) demo_scope "g2" 20).2 in
  let s2 := (rollback "r1" s1 demo_scope "g1" 21).2 in
  ∃ r2, load "r1" s2 demo_scope = Ok (Some r2) ∧ active r2 = Some (demo_gen "g1" 0 1 Serving).
Proof.
  intros s1 s2.
  destruct (rollback_restores "r1" store0 demo_ops demo_scope "g2" demo_record (demo_gen "g1" 0 1 Serving)
    20 s1 21 s2) as (r2 & Hl & _ & Ha & _).
  - reflexivity.
  - exact demo_ops_ok.
  - exact demo_loads.
  - reflexivity.
  - discriminate.
  - apply injective_projections; [vm_compute; reflexivity|reflexivity].
  - apply injective_projections; [vm_compute; reflexivity|reflexivity].
  - exists r2. split; [exact Hl|]. rewrite Ha. reflexivity.
Defined.

Lemma pair_fst {A B} (p : A * B) a : p.1 = a → p = (a, p.2).
Proof. destruct p. by intros <-. Qed.

(** A build of [g2] that failed. *)
Definition failing_ops : list serving_op :=
  serve "g1" 0 [demo_m1] ++
  [OStage (demo_manifest "g2" 1 1) sha_a 5; OFail demo_scope "g2" "bundle digest mismatch" 6].

Lemma failed_generation_blocks_scope_witness :
  let s' := serving_run "r1" (run failing_ops) [OLoaded demo_scope "g2" 9; OReady demo_scope "g2" 9] in
  (stage_generation "r1" s' (demo_manifest "g3" 1 1) sha_a 10).1 ≠ Ok GenStaged.
Proof.
  intros s' E. apply pair_fst in E. revert E.
  apply (failed_generation_blocks_scope "r1" store0 failing_ops demo_scope "g2"
    (mkServing 1 "r1" "w" "c" (Some (demo_gen "g1" 0 1 Serving)) None
       (Some (mkGeneration (demo_manifest "g2" 1 1) sha_a 1 Failed (Some "bundle digest mismatch"))) 6)
    (mkGeneration (demo_manifest "g2" 1 1) sha_a 1 Failed (Some "bundle digest mismatch"))).
  - reflexivity.
  - repeat constructor; vm_compute; congruence.
  - repeat constructor.
  - vm_compute. reflexivity.
  - reflexivity.
  - reflexivity.
  - reflexivity.
  - reflexivity.
  - discriminate.
Defined.

(** A generation that was dropped after two newer ones and is staged again cannot
    catch up: its old markers answer every mutation as a duplicate, and the
    sequence does not advance. *)
Definition restage_ops : list serving_op :=
  serve "g1" 0 [demo_m1] ++ serve "g2" 1 [] ++ serve "g3" 1 [] ++ demo_before.

Example restaged_generation_stuck :
  let s := run restage_ops in
  (apply_mutation "r1" s demo_m1 30).1 = Ok Duplicate ∧
  (mark_ready "r1" (apply_mutation "r1" s demo_m1 30).2 demo_scope "g1" 31).1
  = Err (InvalidTransition "generation is not at its target").
Proof. vm_compute. done. Qed.

(** A revision that names one mutation id twice is accepted, and then no longer
    verifies: a retry reports corruption. *)
Example repeated_id_corrupts_markers :
  let ks := [demo_mutation "g1" "x" 2; demo_mutation "g1" "x" 3] in
  let s := run (serve "g1" 0 [demo_m1]) in
  let '(r, s') := commit_generation_revision "r1" s demo_scope "g1" sha_a 3 ks 40 in
  r = Ok Applied ∧
  (commit_generation_revision "r1" s' demo_scope "g1" sha_a 3 ks 41).1
  = Err (CorruptState "sequence and identity markers differ") ∧
  verify_applied_mutation "r1" s' (demo_mutation "g1" "x" 2) = Err (MutationContentConflict "x").
Proof. vm_compute. done. Qed.
End Example1.
