(* ===== verification/Snapshot.v ===== *)
(** * The snapshot state machine

    [crates/storage/src/snapshot/state_machine.rs]: the persistent state of a
    snapshot operation, its transitions, the retry schedule, and recovery after
    a restart. The record is an argument updated in place; every transition
    writes it through the storage interface. serde_json is a parameter; the
    clock (seconds) is an argument. *)

From S2P Require Import Prelude Sorting Float64 Storage.

Inductive SnapshotState :=
| Idle
| Compressing (progress : f64) (started_at : Z)
| Uploading (chunks_completed total_chunks bytes_uploaded total_bytes started_at : Z)
| Verifying (started_at : Z)
| Completing (started_at : Z)
| Failed (error : string) (retry_count last_attempt : Z) (original_state : SnapshotState)
| Completed (completed_at : Z).

Definition is_in_progress (s : SnapshotState) : bool :=
  match s with
  | Compressing _ _ | Uploading _ _ _ _ _ | Verifying _ | Completing _ => true
  | _ => false
  end.

Definition is_resumable (s : SnapshotState) : bool :=
  match s with Uploading _ _ _ _ _ | Failed _ _ _ _ => true | _ => false end.

Fixpoint progress (s : SnapshotState) : f64 :=
  match s with
  | Idle => f64_zero
  | Compressing p _ => f64_mul p (f64_lit 2 10)
  | Uploading chunks_completed total_chunks _ _ _ =>
      if total_chunks =? 0 then f64_lit 2 10
      else f64_add (f64_lit 2 10)
             (f64_mul (f64_div (f64_of_Z chunks_completed) (f64_of_Z total_chunks)) (f64_lit 6 10))
  | Verifying _ => f64_lit 85 100
  | Completing _ => f64_lit 95 100
  | Failed _ _ _ original_state => progress original_state
  | Completed _ => f64_one
  end.

Definition state_name (s : SnapshotState) : string :=
  match s with
  | Idle => "idle"
  | Compressing _ _ => "compressing"
  | Uploading _ _ _ _ _ => "uploading"
  | Verifying _ => "verifying"
  | Completing _ => "completing"
  | Failed _ _ _ _ => "failed"
  | Completed _ => "completed"
  end.

Record UploadCheckpoint := mkCheckpoint {
  upload_id : string;
  completed_parts : list (Z * string);
  next_part : Z;
  cp_bytes_uploaded : Z;
  cp_total_bytes : Z;
  object_key : string;
  local_path : string;
}.

Record SnapshotStateRecord := mkRecord {
  operation_id : string;
  snapshot_id : string;
  collection : string;
  shard_id : option string;
  state : SnapshotState;
  rec_started_at : Z;
  rec_updated_at : Z;
  upload_checkpoint : option UploadCheckpoint;
}.

(** [uuid] is the fresh operation id. *)
Definition record_new (uuid snapshot_id collection : string) (shard_id : option string) (now : Z)
    : SnapshotStateRecord :=
  mkRecord uuid snapshot_id collection shard_id Idle now now None.

Definition elapsed_secs (r : SnapshotStateRecord) (now : Z) : Z :=
  saturating_sub now (rec_started_at r).

(** A field update, as the transitions make it. *)
Definition set_state (r : SnapshotStateRecord) (s : SnapshotState) (now : Z)
    : SnapshotStateRecord :=
  mkRecord (operation_id r) (snapshot_id r) (collection r) (shard_id r) s
    (rec_started_at r) now (upload_checkpoint r).

Definition set_checkpoint (r : SnapshotStateRecord) (c : option UploadCheckpoint)
    : SnapshotStateRecord :=
  mkRecord (operation_id r) (snapshot_id r) (collection r) (shard_id r) (state r)
    (rec_started_at r) (rec_updated_at r) c.

(** The configuration half of [SnapshotStateMachine]. *)
Record SnapshotStateMachine := mkMachine {
  key_prefix : string;
  max_retries : Z;
  retry_backoff : list Z;
}.

Definition machine_new : SnapshotStateMachine :=
  mkMachine "snapshot_state:" 3 [60; 300; 900].

Definition with_max_retries (sm : SnapshotStateMachine) (n : Z) : SnapshotStateMachine :=
  mkMachine (key_prefix sm) n (retry_backoff sm).

Definition with_retry_backoff (sm : SnapshotStateMachine) (b : list Z) : SnapshotStateMachine :=
  mkMachine (key_prefix sm) (max_retries sm) b.

Definition state_key (sm : SnapshotStateMachine) (operation_id : string) : string :=
  key_prefix sm +:+ operation_id.

(** ** Retry schedule *)

Definition retry_backoff_secs (sm : SnapshotStateMachine) (retry_count : Z) : Z :=
  default 60
    (retry_backoff sm !!
       Z.to_nat (Z.min retry_count (saturating_sub (Zlength (retry_backoff sm)) 1))).

Definition should_retry (sm : SnapshotStateMachine) (r : SnapshotStateRecord) (now : Z) : bool :=
  match state r with
  | Failed _ retry_count last_attempt _ =>
      if retry_count >=? max_retries sm then false
      else
        let backoff_secs := retry_backoff_secs sm retry_count in
        let elapsed := saturating_sub now last_attempt in
        elapsed >=? backoff_secs
  | _ => false
  end.

Definition time_until_retry (sm : SnapshotStateMachine) (r : SnapshotStateRecord) (now : Z)
    : option Z :=
  match state r with
  | Failed _ retry_count last_attempt _ =>
      if retry_count >=? max_retries sm then None
      else
        let backoff_secs := retry_backoff_secs sm retry_count in
        let elapsed := saturating_sub now last_attempt in
        if elapsed >=? backoff_secs then Some 0 else Some (backoff_secs - elapsed)
  | _ => None
  end.

(** The failure transition, on the record. *)
Definition failed_state (s : SnapshotState) (error : string) (now : Z) : SnapshotState :=
  match s with
  | Failed _ retry_count _ original_state =>
      Failed error (saturating_add u32_max retry_count 1) now original_state
  | other => Failed error 0 now other
  end.

Definition is_failed (s : SnapshotState) : bool :=
  match s with Failed _ _ _ _ => true | _ => false end.

(** Consecutive failures, each an error and the time it was recorded. *)
Definition fail_all (s : SnapshotState) (fails : list (string * Z)) : SnapshotState :=
  foldl (λ s f, failed_state s f.1 f.2) s fails.

Lemma fail_all_failed fails e t s0 c :
  c ≤ u32_max →
  ∃ e', fail_all (Failed e c t s0) fails
        = Failed e' (Z.min (c + Zlength fails) u32_max)
            (default t (last fails.*2)) s0.
Proof.
  revert e t c. induction fails as [|[e1 t1] fails IH]; intros e t c Hc.
  { exists e. simpl. f_equal. lia. }
  cbn [fail_all foldl failed_state fst snd].
  destruct (IH e1 t1 (saturating_add u32_max c 1)) as [e' E]; [int_lia|].
  exists e'. fold (fail_all (Failed e1 (saturating_add u32_max c 1) t1 s0) fails). rewrite E.
  f_equal.
  - cbn [length]. int_lia.
  - rewrite fmap_cons, last_cons. by destruct (last fails.*2).
Qed.

(** The retry budget of an operation that keeps failing without a reset:
    after [n] failures in a row it is offered for retry exactly when [n] is at
    most [max_retries] and the backoff for the [n]-th failure has elapsed since
    the last one; the original state is kept for the retry. *)
Lemma retry_budget sm r fails last_time now :
  is_failed (state r) = false → last fails.*2 = Some last_time →
  0 ≤ max_retries sm ≤ u32_max → Forall (λ b, 0 < b) (retry_backoff sm) →
  let r' := set_state r (fail_all (state r) fails) last_time in
  (should_retry sm r' now = true ↔
   Zlength fails ≤ max_retries sm ∧
   last_time + retry_backoff_secs sm (Zlength fails - 1) ≤ now) ∧
  progress (state r') = progress (state r).
Proof.
  intros Hs Hlast Hmax Hpos r'. destruct fails as [|[e t] fails]; [done|].
  assert (∃ e', state r' = Failed e' (Z.min (Zlength fails) u32_max) last_time (state r))
    as [e' E].
  { change (state r') with (fail_all (failed_state (state r) e t) fails).
    replace (failed_state (state r) e t) with (Failed e 0 t (state r)) by (by destruct (state r)).
    destruct (fail_all_failed fails e t (state r) 0) as [e' E']; [by vm_compute|].
    rewrite E'. exists e'. f_equal.
    rewrite fmap_cons, last_cons in Hlast. destruct (last fails.*2); naive_solver. }
  unfold should_retry. rewrite E. cbn [length]. split; [|done].
  replace (Z.of_nat (S (length fails)) - 1) with (Zlength fails) by lia.
  assert (0 < retry_backoff_secs sm (Zlength fails)) as Hb.
  { unfold retry_backoff_secs. destruct (retry_backoff sm !! _) as [b|] eqn:Eb; simpl; [|done].
    rewrite Forall_forall in Hpos. by eapply Hpos, list_elem_of_lookup_2. }
  rewrite Z.geb_leb. destruct (Z.leb_spec (max_retries sm) (Z.min (Zlength fails) u32_max)) as [H|H].
  - split; [done|]. intros [? _]. unfold u32_max in *. lia.
  - rewrite Z.geb_leb, Z.leb_le, (Z.min_l (Zlength fails)) by lia.
    unfold saturating_sub. unfold u32_max in *. lia.
Qed.

Lemma retry_budget_witness :
  should_retry machine_new
    (set_state (record_new "op" "s" "c" None 0) (fail_all Idle [("a", 10); ("b", 20)]) 20) 320 = true.
Proof.
  apply (retry_budget machine_new (record_new "op" "s" "c" None 0) [("a", 10); ("b", 20)] 20 320).
  - done.
  - done.
  - vm_compute. split; congruence.
  - repeat constructor.
  - vm_compute. split; congruence.
Defined.

(** ** Persistent operations *)

Section machine.
Context (to_vec : SnapshotStateRecord → option string)
        (from_slice : string → option SnapshotStateRecord).
Context {S : Type} `{!StorageBackend S} (sm : SnapshotStateMachine).
Implicit Types (s : S) (r : SnapshotStateRecord).

Definition save_state s r : Result unit * S :=
  match to_vec r with
  | None => (Err (StorageError "Failed to serialize state"), s)
  | Some data => sb_put s (state_key sm (operation_id r)) data
  end.

(** A transition: the record is updated first, then saved. *)
Definition save_record s r : Result unit * SnapshotStateRecord * S :=
  let '(res, s) := save_state s r in (res, r, s).

Definition start_operation s (uuid snapshot_id collection : string) (shard_id : option string)
    (now : Z) : Result SnapshotStateRecord * S :=
  let r := record_new uuid snapshot_id collection shard_id now in
  match save_state s r with
  | (Err e, s) => (Err e, s)
  | (Ok _, s) => (Ok r, s)
  end.

Definition transition_to_compressing s r (now : Z) :=
  save_record s (set_state r (Compressing f64_zero now) now).

Definition update_compression_progress s r (p : f64) (now : Z) :=
  match state r with
  | Compressing _ started_at =>
      save_record s (set_state r (Compressing (f64_clamp p f64_zero f64_one) started_at) now)
  | _ => (Ok tt, r, s)
  end.

Definition transition_to_uploading s r (total_chunks total_bytes : Z)
    (checkpoint : UploadCheckpoint) (now : Z) :=
  let chunks_completed := Zlength (completed_parts checkpoint) in
  let bytes_uploaded := cp_bytes_uploaded checkpoint in
  save_record s
    (set_checkpoint
       (set_state r (Uploading chunks_completed total_chunks bytes_uploaded total_bytes now) now)
       (Some checkpoint)).

Definition update_upload_progress s r (chunks_completed bytes_uploaded : Z)
    (checkpoint : UploadCheckpoint) (now : Z) :=
  match state r with
  | Uploading _ total_chunks _ total_bytes started_at =>
      save_record s
        (set_checkpoint
           (set_state r (Uploading chunks_completed total_chunks bytes_uploaded total_bytes
                           started_at) now)
           (Some checkpoint))
  | _ => (Ok tt, r, s)
  end.

Definition transition_to_verifying s r (now : Z) :=
  save_record s (set_state r (Verifying now) now).

Definition transition_to_completing s r (now : Z) :=
  save_record s (set_state r (Completing now) now).

Definition complete_operation s r (now : Z) :=
  save_record s (set_checkpoint (set_state r (Completed now) now) None).

Definition fail_operation s r (error : string) (now : Z) :=
  save_record s (set_state r (failed_state (state r) error now) now).

Definition reset_for_retry s r (now : Z) :=
  match state r with
  | Failed _ _ _ original_state => save_record s (set_state r original_state now)
  | _ => (Ok tt, r, s)
  end.

Definition load_state s (operation_id : string) : Result (option SnapshotStateRecord) :=
  let? data := sb_get s (state_key sm operation_id) in
  match data with
  | Some data =>
      match from_slice data with
      | Some r => Ok (Some r)
      | None => Err (StorageError "Failed to deserialize state")
      end
  | None => Ok None
  end.

Definition delete_state s (operation_id : string) : Result unit * S :=
  sb_delete s (state_key sm operation_id).

(** [Reverse(started_at)] as the sort key. *)
Definition started_desc (a b : SnapshotStateRecord) : comparison :=
  rec_started_at b ?= rec_started_at a.

Definition list_all s : Result (list SnapshotStateRecord) :=
  let? entries := sb_scan_prefix s (key_prefix sm) in
  Ok (sort_by started_desc (omap (λ kv : KV, from_slice kv.2) entries)).

Definition list_in_progress s : Result (list SnapshotStateRecord) :=
  let? records := list_all s in
  Ok (filter (λ r, is_in_progress (state r) = true) records).

(** [clock r] is the time read when [r] is examined. *)
Definition list_retryable s (clock : SnapshotStateRecord → Z)
    : Result (list SnapshotStateRecord) :=
  let? records := list_all s in
  Ok (filter (λ r, should_retry sm r (clock r) = true) records).

Definition should_cleanup r (max_age_secs now : Z) : bool :=
  let age := saturating_sub now (rec_updated_at r) in
  match state r with
  | Completed _ => age >? max_age_secs
  | Failed _ retry_count _ _ => (retry_count >=? max_retries sm) && (age >? max_age_secs)
  | _ => false
  end.

Fixpoint cleanup_loop s (records : list SnapshotStateRecord) (max_age_secs now cleaned : Z)
    : Result Z * S :=
  match records with
  | [] => (Ok cleaned, s)
  | r :: records =>
      if should_cleanup r max_age_secs now then
        match delete_state s (operation_id r) with
        | (Err e, s) => (Err e, s)
        | (Ok _, s) => cleanup_loop s records max_age_secs now (cleaned + 1)
        end
      else cleanup_loop s records max_age_secs now cleaned
  end.

Definition cleanup_old_records s (max_age_secs now : Z) : Result Z * S :=
  match list_all s with
  | Err e => (Err e, s)
  | Ok records => cleanup_loop s records max_age_secs now 0
  end.

Definition id_cmp (a b : SnapshotStateRecord) : comparison :=
  bytes_cmp (operation_id a) (operation_id b).

(** [Vec::dedup_by]: drops an element equal to the last one kept. *)
Fixpoint dedup_from (last : option SnapshotStateRecord) (l : list SnapshotStateRecord)
    : list SnapshotStateRecord :=
  match l with
  | [] => []
  | r :: l =>
      let dup := match last with
                 | Some p => String.eqb (operation_id r) (operation_id p)
                 | None => false
                 end in
      if dup then dedup_from last l else r :: dedup_from (Some r) l
  end.

Definition recover_operations s (clock : SnapshotStateRecord → Z)
    : Result (list SnapshotStateRecord) :=
  let? in_progress := list_in_progress s in
  let? retryable := list_retryable s clock in
  Ok (dedup_from None (sort_by id_cmp (in_progress ++ retryable))).

(** ** What the store holds *)

Context `{!StorageLaws S, !StorageReliable S}.
#[local] Set Default Proof Using "Type*".
#[local] Set Proof Using Clear Unused.

Definition stored (m : gmap string string) (id : string) : option SnapshotStateRecord :=
  m !! state_key sm id ≫= from_slice.

(** Records are filed under their own operation id, and fit one scan. *)
Definition records_wf (m : gmap string string) : Prop :=
  (∀ id d r, m !! state_key sm id = Some d → from_slice d = Some r → operation_id r = id) ∧
  Zlength (entries_with_prefix m (key_prefix sm)) ≤ 100000.

Lemma state_key_inj id id' : state_key sm id = state_key sm id' → id = id'.
Proof.
  unfold state_key. intros E. apply (f_equal (str_drop (String.length (key_prefix sm)))) in E.
  by rewrite !str_drop_app in E.
Qed.

Lemma stored_operation_id m id r :
  records_wf m → stored m id = Some r → operation_id r = id.
Proof.
  intros [Hwf _]. unfold stored. destruct (m !! state_key sm id) as [d|] eqn:E; [|done].
  apply (Hwf id d r E).
Qed.

(** Saving a record changes that record only. *)
Lemma save_state_stored s r s' :
  (∀ r d, to_vec r = Some d → from_slice d = Some r) → save_state s r = (Ok tt, s') → ∀ id,
  stored (sb_view s') id = if decide (id = operation_id r) then Some r else stored (sb_view s) id.
Proof.
  intros json_ok. unfold save_state. destruct (to_vec r) as [d|] eqn:Ed; [|done].
  intros E%sb_put_ok id. simpl in E. unfold stored. rewrite E. case_decide as Hid.
  - subst. rewrite lookup_insert_eq. by apply json_ok.
  - rewrite lookup_insert_ne; [done|]. by intros ?%state_key_inj.
Qed.

Lemma elem_of_decoded m r :
  records_wf m →
  r ∈ omap (λ kv : KV, from_slice kv.2) (entries_with_prefix m (key_prefix sm)) ↔
  stored m (operation_id r) = Some r.
Proof.
  intros Hwf. rewrite list_elem_of_omap. split.
  - intros ([k d] & (Hk & [id ->]%starts_with_inv)%elem_of_entries_with_prefix & Hd). simpl in Hd.
    unfold stored, state_key. by rewrite (proj1 Hwf id d r Hk Hd), Hk.
  - unfold stored. destruct (m !! state_key sm (operation_id r)) as [d|] eqn:E; [|done].
    intros Hd. exists (state_key sm (operation_id r), d). split; [|done].
    apply elem_of_entries_with_prefix. split; [done|]. apply starts_with_app.
Qed.

Lemma decoded_NoDup m :
  records_wf m →
  NoDup (operation_id <$> omap (λ kv : KV, from_slice kv.2)
                            (entries_with_prefix m (key_prefix sm))).
Proof.
  intros [Hwf _]. set (es := entries_with_prefix m (key_prefix sm)).
  assert (NoDup es.*1) as Hnd.
  { eapply sublist_NoDup; [apply (entries_NoDup m)|]. apply fmap_sublist, sublist_filter. }
  assert (∀ kv r, kv ∈ es → from_slice kv.2 = Some r → kv.1 = state_key sm (operation_id r)) as Hk.
  { intros [k d] r (Hm & [id ->]%starts_with_inv)%elem_of_entries_with_prefix Hd. simpl in *.
    by rewrite (Hwf id d r Hm Hd). }
  clearbody es. induction es as [|kv es IH]; simpl; [constructor|].
  apply NoDup_cons in Hnd as [Hin Hnd].
  destruct (from_slice kv.2) as [r|] eqn:Er; [|apply IH; set_solver].
  simpl. apply NoDup_cons. split; [|apply IH; set_solver].
  intros (r' & Hr' & (kv' & Hkv' & Hd')%list_elem_of_omap)%list_elem_of_fmap. apply Hin.
  rewrite (Hk kv r), Hr', <-(Hk kv' r') by set_solver. by apply list_elem_of_fmap_2.
Qed.

#[local] Instance started_desc_total : TotalCmp started_desc.
Proof. apply (TotalCmp_on rec_started_at (λ x y, y ?= x)). apply _. Qed.

Lemma list_all_spec s :
  records_wf (sb_view s) →
  ∃ l, list_all s = Ok l ∧ NoDup (operation_id <$> l) ∧
    ∀ r, r ∈ l ↔ stored (sb_view s) (operation_id r) = Some r.
Proof.
  intros Hwf. unfold list_all. pose proof (reliable_scan_prefix s (key_prefix sm)) as Hr.
  destruct (sb_scan_prefix _ _) as [es|] eqn:E; [|done].
  apply sb_scan_prefix_ok in E; [|apply Hwf]. subst. simpl. eexists. split; [done|]. split.
  - rewrite (sort_by_perm started_desc). by apply decoded_NoDup.
  - intros r. rewrite elem_of_sort_by. by apply elem_of_decoded.
Qed.

(** ** Recovery after a restart *)

#[local] Instance id_cmp_total : TotalCmp id_cmp.
Proof. apply (TotalCmp_on operation_id bytes_cmp), _. Qed.

Definition id_lt (a b : SnapshotStateRecord) : Prop := id_cmp a b = Lt.

(** Deduplicating a list sorted by id keeps one record per id, in order. *)
Lemma dedup_from_spec last l :
  StronglySorted (cmp_le id_cmp) l →
  (∀ p, last = Some p → Forall (cmp_le id_cmp p) l) →
  StronglySorted id_lt (dedup_from last l) ∧
  (∀ p, last = Some p → Forall (id_lt p) (dedup_from last l)) ∧
  dedup_from last l `sublist_of` l ∧
  (∀ r, r ∈ l → (∃ p, last = Some p ∧ operation_id p = operation_id r)
                ∨ ∃ q, q ∈ dedup_from last l ∧ operation_id q = operation_id r).
Proof.
  intros Hs. revert last. induction Hs as [|r l Hs IH Hall]; intros last Hlast.
  { split_and!; [constructor|by intros; constructor|done|set_solver]. }
  simpl. destruct (match last with Some _ => _ | None => _ end) eqn:Edup.
  - destruct last as [p|]; [|done]. apply String.eqb_eq in Edup.
    destruct (IH (Some p)) as (H1 & H2 & H3 & H4).
    { intros p' [= <-]. specialize (Hlast p eq_refl). by apply Forall_cons_1 in Hlast as [_ ?]. }
    split_and!; [done|done|by apply sublist_cons|].
    intros q [->|Hq]%elem_of_cons; [left; eauto|by apply H4].
  - destruct (IH (Some r)) as (H1 & H2 & H3 & H4); [naive_solver|].
    split_and!.
    + constructor; [done|by apply H2].
    + intros p ->. assert (id_lt p r) as Hpr.
      { specialize (Hlast p eq_refl). apply Forall_cons_1 in Hlast as [Hpr _].
        unfold cmp_le in Hpr. unfold id_lt, id_cmp in *. apply String.eqb_neq in Edup.
        destruct (bytes_cmp _ _) eqn:E; [|done|done]. apply bytes_cmp_Eq in E. congruence. }
      constructor; [done|]. specialize (H2 r eq_refl). rewrite Forall_forall in *.
      intros q Hq. eapply (cmp_Lt_le_trans id_cmp); [exact Hpr|]. by apply cmp_Lt_le, H2.
    + by apply sublist_skip.
    + intros q [->|Hq]%elem_of_cons; right; [exists r; set_solver|].
      destruct (H4 q Hq) as [(p & [= <-] & Ep)|(p & Hp & Ep)]; [exists r; set_solver|].
      exists p. set_solver.
Qed.

(** C27: recovery after a restart finds exactly the operations to resume: when
    the rows under the machine's prefix that decode are filed under their own ids,
    and there are at most 100000 rows (the limit of the scan), [recover_operations]
    succeeds and returns the records that are in progress or due for a retry,
    as last saved, each once and in id order; nothing else. *)
Theorem recover_exact s clock :
  records_wf (sb_view s) →
  ∃ l, recover_operations s clock = Ok l ∧ StronglySorted id_lt l ∧
    ∀ r, r ∈ l ↔ stored (sb_view s) (operation_id r) = Some r ∧
                 (is_in_progress (state r) = true ∨ should_retry sm r (clock r) = true).
Proof.
  intros Hwf. destruct (list_all_spec s Hwf) as (l & E & _ & Hl).
  unfold recover_operations, list_in_progress, list_retryable. rewrite E. simpl.
  set (x := _ ++ _). eexists. split; [done|].
  destruct (dedup_from_spec None (sort_by id_cmp x)) as (H1 & _ & H3 & H4);
    [apply sort_by_sorted, _|done|].
  split; [done|]. intros r.
  assert (∀ q, q ∈ x ↔ stored (sb_view s) (operation_id q) = Some q ∧
            (is_in_progress (state q) = true ∨ should_retry sm q (clock q) = true)) as Hx.
  { intros q. unfold x. rewrite elem_of_app, !list_elem_of_filter, !Hl. naive_solver. }
  rewrite <-Hx. split.
  - intros Hr. eapply elem_of_sublist in Hr; [|exact H3]. by apply elem_of_sort_by in Hr.
  - intros Hr. destruct (H4 r) as [(p & ? & _)|(q & Hq & Eq)]; [by apply elem_of_sort_by|done|].
    assert (q ∈ x) as [Hq' _]%Hx.
    { eapply elem_of_sublist in Hq; [|exact H3]. by apply elem_of_sort_by in Hq. }
    apply Hx in Hr as [Hr _]. rewrite Eq in Hq'. by assert (q = r) as -> by congruence.
Qed.

(** ** Cleanup *)

Lemma cleanup_loop_spec s records max_age now n :
  ∃ s', cleanup_loop s records max_age now n
        = (Ok (n + Zlength (filter (λ r, should_cleanup r max_age now = true) records)), s') ∧
    (∀ r, r ∈ records → should_cleanup r max_age now = true →
          sb_view s' !! state_key sm (operation_id r) = None) ∧
    (∀ k, (∀ r, r ∈ records → should_cleanup r max_age now = true →
                k ≠ state_key sm (operation_id r)) → sb_view s' !! k = sb_view s !! k) ∧
    (∀ k, sb_view s !! k = None → sb_view s' !! k = None).
Proof.
  revert s n. induction records as [|r records IH]; intros s n.
  { exists s. simpl. rewrite Z.add_0_r. split_and!; [done|set_solver|done|done]. }
  cbn [cleanup_loop]. destruct (should_cleanup r max_age now) eqn:Hc.
  - rewrite filter_cons_True by done. unfold delete_state.
    pose proof (reliable_delete s (state_key sm (operation_id r))) as Hr.
    destruct (sb_delete s _) as [[[]|] s1] eqn:E; [|done]. apply sb_delete_ok in E. simpl in E.
    destruct (IH s1 (n + 1)) as (s' & -> & H1 & H2 & H3). rewrite E in *. exists s'.
    split_and!.
    + cbn [length]. f_equal. f_equal. lia.
    + intros q [->|Hq]%elem_of_cons Hcq; [|by apply H1].
      apply H3. by rewrite lookup_delete_eq.
    + intros k Hk. rewrite H2 by (intros; apply Hk; set_solver).
      rewrite lookup_delete_ne; [done|]. symmetry. apply Hk; set_solver.
    + intros k Hk. apply H3. rewrite lookup_delete. by case_decide.
  - rewrite filter_cons_False by (by rewrite Hc).
    destruct (IH s n) as (s' & -> & H1 & H2 & H3). exists s'. split_and!; [done| | |done].
    + intros q [->|Hq]%elem_of_cons Hcq; [congruence|by apply H1].
    + intros k Hk. apply H2. set_solver.
Qed.

(** Cleanup removes exactly the old finished records: completed, or failed
    with no retries left, and not updated for longer than the limit. Every
    other record is left as it was, in-progress and retryable ones included,
    and so is every key outside the snapshot records. *)
Lemma cleanup_exact s max_age now :
  records_wf (sb_view s) →
  ∃ n s', cleanup_old_records s max_age now = (Ok n, s') ∧
    (∀ id, stored (sb_view s') id =
           r ← stored (sb_view s) id; if should_cleanup r max_age now then None else Some r) ∧
    (∀ k, starts_with k (key_prefix sm) = false → sb_view s' !! k = sb_view s !! k).
Proof.
  intros Hwf. destruct (list_all_spec s Hwf) as (l & E & _ & Hl).
  unfold cleanup_old_records. rewrite E.
  destruct (cleanup_loop_spec s l max_age now 0) as (s' & -> & H1 & H2 & _).
  eexists _, s'. split; [done|]. split.
  - intros id. destruct (stored (sb_view s) id) as [r|] eqn:Er.
    + pose proof (stored_operation_id _ _ _ Hwf Er) as <-. simpl.
      destruct (should_cleanup r max_age now) eqn:Hc; unfold stored.
      * rewrite (H1 r); [done|by apply Hl|done].
      * rewrite H2; [done|]. intros q Hq%Hl Hcq Eq%state_key_inj. rewrite <-Eq in Hq. congruence.
    + unfold stored. rewrite H2; [done|]. intros q Hq%Hl _ ->%state_key_inj. congruence.
  - intros k Hk. apply H2. intros q _ _ ->. unfold state_key in Hk.
    by rewrite starts_with_app in Hk.
Qed.

(** ** Retries after a reset *)

(** One retry that fails again: reset, then failure. *)
Definition retry_cycle (error : string) (rs : SnapshotStateRecord * S) (now : Z)
    : SnapshotStateRecord * S :=
  let '(_, r, s) := reset_for_retry rs.2 rs.1 now in
  let '(_, r, s) := fail_operation s r error now in (r, s).

Lemma save_record_record s r : (save_record s r).1.2 = r.
Proof using Type. unfold save_record. by destruct (save_state s r). Qed.

Lemma retry_cycle_count error rs now e c t o :
  state rs.1 = Failed e c t o → is_failed o = false →
  state (retry_cycle error rs now).1 = Failed error 0 now o.
Proof using Type.
  intros E Ho. unfold retry_cycle, reset_for_retry. rewrite E.
  destruct (save_record _ _) as [[res r] s'] eqn:Es.
  pose proof (save_record_record rs.2 (set_state rs.1 o now)) as Hr. rewrite Es in Hr. simpl in Hr.
  subst r. unfold fail_operation. destruct (save_record s' _) as [[res' r] s''] eqn:Es'.
  pose proof (save_record_record s' (set_state (set_state rs.1 o now)
    (failed_state o error now) now)) as Hr. simpl in *. rewrite Es' in Hr. simpl in Hr. subst r.
  simpl. by destruct o.
Qed.
End machine.

(** The retry limit does not bound retries that go through
    [reset_for_retry]: however many reset-and-fail cycles an operation has been
    through, its retry count is back at zero and, once the first backoff has
    elapsed, it is offered for retry again under the default configuration. *)
Lemma reset_forgets_retries to_vec {S} `{!StorageBackend S} (s : S) error times t :
  let r0 := set_state (record_new "op" "snap" "coll" None 0) (Failed error 0 0 (Verifying 0)) 0 in
  let rs := foldl (retry_cycle to_vec machine_new error) (r0, s) (times ++ [t]) in
  should_retry machine_new rs.1 (t + 60) = true.
Proof.
  intros r0 rs.
  assert (∀ ts rs0 t0, state rs0.1 = Failed error 0 t0 (Verifying 0) →
    ∃ t', state (foldl (retry_cycle to_vec machine_new error) rs0 ts).1
          = Failed error 0 t' (Verifying 0)) as H.
  { induction ts as [|t1 ts IH]; intros rs0 t0 E; simpl; [eauto|]. eapply IH.
    by eapply retry_cycle_count. }
  subst rs. rewrite foldl_app. simpl.
  destruct (H times (r0, s) 0 eq_refl) as [t' E]. unfold should_retry.
  rewrite (retry_cycle_count _ _ _ _ _ _ _ _ _ E) by done.
  change (retry_backoff_secs machine_new 0) with 60. simpl. apply Z.geb_le.
  unfold saturating_sub. lia.
Qed.

(** ** A concrete run *)

#[global] Instance SnapshotState_eq_dec : EqDecision SnapshotState.
Proof. solve_decision. Defined.

#[global] Instance UploadCheckpoint_eq_dec : EqDecision UploadCheckpoint.
Proof. solve_decision. Defined.

#[global] Instance SnapshotStateRecord_eq_dec : EqDecision SnapshotStateRecord.
Proof. solve_decision. Defined.

Fixpoint state_tree (s : SnapshotState) : gen_tree (f64 + list Z + string) :=
  match s with
  | Idle => GenNode 0 []
  | Compressing p t => GenNode 1 [GenLeaf (inl (inl p)); GenLeaf (inl (inr [t]))]
  | Uploading a b c d t => GenNode 2 [GenLeaf (inl (inr [a; b; c; d; t]))]
  | Verifying t => GenNode 3 [GenLeaf (inl (inr [t]))]
  | Completing t => GenNode 4 [GenLeaf (inl (inr [t]))]
  | Failed e n t s => GenNode 5 [GenLeaf (inr e); GenLeaf (inl (inr [n; t])); state_tree s]
  | Completed t => GenNode 6 [GenLeaf (inl (inr [t]))]
  end.

Fixpoint tree_state (t : gen_tree (f64 + list Z + string)) : SnapshotState :=
  match t with
  | GenNode 1 [GenLeaf (inl (inl p)); GenLeaf (inl (inr [t]))] => Compressing p t
  | GenNode 2 [GenLeaf (inl (inr [a; b; c; d; t]))] => Uploading a b c d t
  | GenNode 3 [GenLeaf (inl (inr [t]))] => Verifying t
  | GenNode 4 [GenLeaf (inl (inr [t]))] => Completing t
  | GenNode 5 [GenLeaf (inr e); GenLeaf (inl (inr [n; t])); s] => Failed e n t (tree_state s)
  | GenNode 6 [GenLeaf (inl (inr [t]))] => Completed t
  | _ => Idle
  end.

#[global] Instance SnapshotState_countable : Countable SnapshotState.
Proof.
  refine (inj_countable' state_tree tree_state _).
  intros s. induction s; simpl; congruence.
Defined.

#[global] Instance UploadCheckpoint_countable : Countable UploadCheckpoint.
Proof.
  refine (inj_countable'
    (λ c, (upload_id c, completed_parts c, next_part c, cp_bytes_uploaded c, cp_total_bytes c,
           object_key c, local_path c))
    (λ '(a, b, c, d, e, f, g), mkCheckpoint a b c d e f g) _). by intros [].
Defined.

#[global] Instance SnapshotStateRecord_countable : Countable SnapshotStateRecord.
Proof.
  refine (inj_countable'
    (λ r, (operation_id r, snapshot_id r, collection r, shard_id r, state r, rec_started_at r,
           rec_updated_at r, upload_checkpoint r))
    (λ '(a, b, c, d, e, f, g, h), mkRecord a b c d e f g h) _). by intros [].
Defined.

Definition demo_verifying : SnapshotStateRecord :=
  mkRecord "a" "s1" "c" None (Verifying 5) 1 5 None.
Definition demo_completed : SnapshotStateRecord :=
  mkRecord "b" "s2" "c" None (Completed 6) 2 6 None.

Definition demo_snapshots : RocksDbBackend MemDB :=
  let s0 := mkBackend (∅ : MemDB) in
  let s1 := (save_state code_serialize machine_new s0 demo_verifying).2 in
  (save_state code_serialize machine_new s1 demo_completed).2.

Lemma demo_snapshots_wf : records_wf code_deserialize machine_new (sb_view demo_snapshots).
Proof.
  split; [|vm_compute; congruence]. intros id d r. unfold demo_snapshots, save_state. simpl.
  intros [[E <-]|[_ [[E <-]|[_ H]]%lookup_insert_Some]]%lookup_insert_Some;
    [apply (state_key_inj machine_new "b") in E as <-
    |apply (state_key_inj machine_new "a") in E as <-|].
  - intros Er. vm_compute in Er. by injection Er as <-.
  - intros Er. vm_compute in Er. by injection Er as <-.
  - assert (None = Some d) by exact H. done.
Qed.

Lemma recover_exact_witness :
  ∃ l, recover_operations code_deserialize machine_new demo_snapshots (λ _, 100) = Ok l
    ∧ demo_verifying ∈ l.
Proof.
  destruct (recover_exact code_deserialize machine_new demo_snapshots (λ _, 100)
              demo_snapshots_wf) as (l & E & _ & Hl).
  exists l. split; [done|]. apply Hl. split; [|by left]. vm_compute. reflexivity.
Defined.

Lemma cleanup_exact_witness :
  ∃ s', stored code_deserialize machine_new (sb_view s') "a" = Some demo_verifying
    ∧ stored code_deserialize machine_new (sb_view s') "b" = None.
Proof.
  destruct (cleanup_exact code_deserialize machine_new demo_snapshots 10 100 demo_snapshots_wf)
    as (n & s' & _ & Hs & _).
  exists s'. rewrite !Hs. split; vm_compute; reflexivity.
Defined.
