(* ===== verification/Rebuild.v ===== *)
(** * The persistent state of an index rebuild

    [crates/faiss-wrapper/src/rebuild/persistent_state.rs]: the phases of a
    rebuild, the record that survives a restart, its transitions, retries,
    recovery and cleanup. The persistence backend is the class
    [RebuildStatePersistence], what the machine relies on is
    [RebuildPersistenceLaws], and the in-memory backend is shown to satisfy it.
    A clock reading (in seconds) is an argument, one per reading; a fresh
    operation id is an argument. *)

From S2P Require Import Prelude Sorting Float64.

Inductive PersistentRebuildPhase :=
| Idle
| Preparing (wal_lsn started_at : Z)
| Scanning (vectors_scanned total_vectors started_at : Z)
| Building (vectors_built total_vectors : Z) (temp_index_path : string) (started_at : Z)
| Replaying (entries_replayed : Z) (total_entries : option Z) (started_at : Z)
| Validating (samples_checked total_samples started_at : Z)
| Swapping (started_at : Z)
| Cleaning (old_index_path : string) (started_at : Z)
| Failed (error : string) (phase_when_failed : PersistentRebuildPhase) (retry_count failed_at : Z)
| Completed (completed_at vectors_rebuilt duration_secs : Z).

Definition phase_name (p : PersistentRebuildPhase) : string :=
  match p with
  | Idle => "idle"
  | Preparing _ _ => "preparing"
  | Scanning _ _ _ => "scanning"
  | Building _ _ _ _ => "building"
  | Replaying _ _ _ => "replaying"
  | Validating _ _ _ => "validating"
  | Swapping _ => "swapping"
  | Cleaning _ _ => "cleaning"
  | Failed _ _ _ _ => "failed"
  | Completed _ _ _ => "completed"
  end.

Definition is_in_progress (p : PersistentRebuildPhase) : bool :=
  match p with
  | Preparing _ _ | Scanning _ _ _ | Building _ _ _ _ | Replaying _ _ _ | Validating _ _ _
  | Swapping _ | Cleaning _ _ => true
  | _ => false
  end.

Definition is_resumable (p : PersistentRebuildPhase) : bool :=
  match p with
  | Scanning _ _ _ | Building _ _ _ _ | Replaying _ _ _ | Failed _ _ _ _ => true
  | _ => false
  end.

(** [base + (done as f64 / total as f64) * width]. *)
Definition phase_fraction (base : f64) (finished total : Z) (width : f64) : f64 :=
  f64_add base (f64_mul (f64_div (f64_of_Z finished) (f64_of_Z total)) width).

Fixpoint progress (p : PersistentRebuildPhase) : f64 :=
  match p with
  | Idle => f64_zero
  | Preparing _ _ => f64_lit 5 100
  | Scanning vectors_scanned total_vectors _ =>
      if total_vectors =? 0 then f64_lit 5 100
      else phase_fraction (f64_lit 5 100) vectors_scanned total_vectors (f64_lit 15 100)
  | Building vectors_built total_vectors _ _ =>
      if total_vectors =? 0 then f64_lit 20 100
      else phase_fraction (f64_lit 20 100) vectors_built total_vectors (f64_lit 50 100)
  | Replaying entries_replayed total_entries _ =>
      match total_entries with
      | Some total =>
          if total =? 0 then f64_lit 75 100
          else phase_fraction (f64_lit 70 100) entries_replayed total (f64_lit 10 100)
      | None => f64_lit 75 100
      end
  | Validating samples_checked total_samples _ =>
      if total_samples =? 0 then f64_lit 85 100
      else phase_fraction (f64_lit 80 100) samples_checked total_samples (f64_lit 10 100)
  | Swapping _ => f64_lit 92 100
  | Cleaning _ _ => f64_lit 97 100
  | Completed _ _ _ => f64_one
  | Failed _ phase_when_failed _ _ => progress phase_when_failed
  end.

Record RebuildCheckpoint := mkCheckpoint {
  last_processed_id : Z;
  cp_temp_index_path : string;
  vectors_exported : Z;
  cp_total_vectors : Z;
  wal_entries_replayed : Z;
  exported_vectors_path : option string;
}.

Record RebuildPersistentConfig := mkConfig {
  tombstone_threshold : f64;
  checkpoint_interval : Z;
  validation_samples : Z;
  timeout_secs : Z;
}.

Definition config_default : RebuildPersistentConfig :=
  mkConfig (f64_lit 10 100) 100000 1000 3600.

Record RebuildStateRecord := mkRecord {
  operation_id : string;
  shard_id : string;
  phase : PersistentRebuildPhase;
  wal_start_lsn : Z;
  started_at : Z;
  updated_at : Z;
  checkpoint : option RebuildCheckpoint;
  config : RebuildPersistentConfig;
}.

#[global] Instance phase_eq_dec : EqDecision PersistentRebuildPhase.
Proof. solve_decision. Defined.
#[global] Instance checkpoint_eq_dec : EqDecision RebuildCheckpoint.
Proof. solve_decision. Defined.
#[global] Instance config_eq_dec : EqDecision RebuildPersistentConfig.
Proof. solve_decision. Defined.
#[global] Instance record_eq_dec : EqDecision RebuildStateRecord.
Proof. solve_decision. Defined.

(** [RebuildStateRecord::new]; [uuid] is the fresh operation id. *)
Definition record_new (uuid shard_id : string) (config : RebuildPersistentConfig) (now : Z)
    : RebuildStateRecord :=
  mkRecord uuid shard_id Idle 0 now now None config.

Definition elapsed_secs (r : RebuildStateRecord) (now : Z) : Z := saturating_sub now (started_at r).

(** Field updates, as the transitions make them. *)
Definition set_phase (r : RebuildStateRecord) (p : PersistentRebuildPhase) (now : Z)
    : RebuildStateRecord :=
  mkRecord (operation_id r) (shard_id r) p (wal_start_lsn r) (started_at r) now (checkpoint r)
    (config r).

Definition set_checkpoint (r : RebuildStateRecord) (c : option RebuildCheckpoint)
    : RebuildStateRecord :=
  mkRecord (operation_id r) (shard_id r) (phase r) (wal_start_lsn r) (started_at r) (updated_at r)
    c (config r).

(** [u64::is_multiple_of]: zero is the only multiple of zero. *)
Definition is_multiple_of (a b : Z) : bool := if b =? 0 then a =? 0 else a mod b =? 0.

(** ** The persistence interface *)

Class RebuildStatePersistence (P : Type) := {
  rp_save_state : P → RebuildStateRecord → result string unit * P;
  rp_load_state : P → string → result string (option RebuildStateRecord);
  rp_load_by_shard : P → string → result string (option RebuildStateRecord);
  rp_delete_state : P → string → result string unit * P;
  rp_list_all : P → result string (list RebuildStateRecord);
}.

Abbreviation records := (gmap string RebuildStateRecord).

(** What a write that may fail leaves: its effect, or nothing on an error. *)
Definition saved {A} (r : result string A) (old new now : records) : Prop :=
  match r with Ok _ => now = new | Err _ => now = old ∨ now = new end.

Definition newest_first (a b : RebuildStateRecord) : comparison :=
  started_at b ?= started_at a.

Class RebuildPersistenceLaws (P : Type) `{!RebuildStatePersistence P} := {
  rp_view : P → records;
  rp_save_ok p r e p' :
    rp_save_state p r = (e, p') →
    saved e (rp_view p) (<[operation_id r := r]> (rp_view p)) (rp_view p');
  rp_load_ok p id o : rp_load_state p id = Ok o → o = rp_view p !! id;
  (** the most recent record of the shard *)
  rp_load_by_shard_ok p shard o :
    rp_load_by_shard p shard = Ok o →
    match o with
    | None => ∀ id r, rp_view p !! id = Some r → shard_id r ≠ shard
    | Some r => (∃ id, rp_view p !! id = Some r) ∧ shard_id r = shard ∧
        ∀ id r', rp_view p !! id = Some r' → shard_id r' = shard → started_at r' ≤ started_at r
    end;
  rp_delete_ok p id e p' :
    rp_delete_state p id = (e, p') →
    saved e (rp_view p) (delete id (rp_view p)) (rp_view p');
  rp_list_all_ok p l :
    rp_list_all p = Ok l →
    l ≡ₚ (map_to_list (rp_view p)).*2 ∧ StronglySorted (cmp_le newest_first) l;
}.

(** A backend whose operations do not fail. *)
Class RebuildReliable (P : Type) `{!RebuildStatePersistence P} := {
  reliable_save p r : is_ok (rp_save_state p r).1 = true;
  reliable_delete p id : is_ok (rp_delete_state p id).1 = true;
  reliable_load_by_shard p shard : is_ok (rp_load_by_shard p shard) = true;
  reliable_list_all p : is_ok (rp_list_all p) = true;
}.

(** ** The state machine *)

(** The configuration half of [PersistentRebuildStateMachine]. *)
Record RebuildMachine := mkMachine { max_retries : Z }.

Definition machine_new : RebuildMachine := mkMachine 3.
Definition with_max_retries (sm : RebuildMachine) (n : Z) : RebuildMachine := mkMachine n.

Definition should_retry (sm : RebuildMachine) (r : RebuildStateRecord) : bool :=
  match phase r with
  | Failed _ _ retry_count _ => retry_count <? max_retries sm
  | _ => false
  end.

Definition failed_phase (p : PersistentRebuildPhase) (error : string) (now : Z)
    : PersistentRebuildPhase :=
  match p with
  | Failed _ phase_when_failed retry_count _ =>
      Failed error phase_when_failed (saturating_add u32_max retry_count 1) now
  | other => Failed error other 0 now
  end.

Definition should_cleanup (sm : RebuildMachine) (r : RebuildStateRecord) (max_age_secs now : Z)
    : bool :=
  let age := saturating_sub now (updated_at r) in
  match phase r with
  | Completed _ _ _ => age >? max_age_secs
  | Failed _ _ retry_count _ => (retry_count >=? max_retries sm) && (age >? max_age_secs)
  | _ => false
  end.

Definition recoverable (sm : RebuildMachine) (r : RebuildStateRecord) : bool :=
  is_in_progress (phase r) || (is_resumable (phase r) && should_retry sm r).

Section machine.
Context {P : Type} `{!RebuildStatePersistence P}.
Implicit Types (p : P) (r : RebuildStateRecord).

(** [self.persistence.save_state(record)?] at the end of a transition: the record
    has been changed whether or not it was saved. *)
Definition save_record p r : result string unit * RebuildStateRecord * P :=
  let '(e, p') := rp_save_state p r in (e, r, p').

Definition start_operation p (uuid shard : string) (wal_lsn : Z) (cfg : RebuildPersistentConfig)
    (now now' : Z) : result string RebuildStateRecord * P :=
  match rp_load_by_shard p shard with
  | Err e => (Err e, p)
  | Ok existing =>
      if match existing with Some e => is_in_progress (phase e) | None => false end then
        (Err "Rebuild already in progress for shard  (operation )", p)
      else
        let r := record_new uuid shard cfg now in
        let r := mkRecord (operation_id r) (shard_id r) (Preparing wal_lsn now') wal_lsn
                   (started_at r) (updated_at r) (checkpoint r) (config r) in
        match rp_save_state p r with
        | (Ok _, p') => (Ok r, p')
        | (Err e, p') => (Err e, p')
        end
  end.

Definition transition_to_scanning p r (total_vectors now now' : Z) :=
  save_record p (set_phase r (Scanning 0 total_vectors now) now').

Definition update_scanning_progress p r (vectors_scanned : Z) (cp : option RebuildCheckpoint)
    (now : Z) : result string unit * RebuildStateRecord * P :=
  match phase r with
  | Scanning _ total_vectors started =>
      let r' := set_checkpoint (set_phase r (Scanning vectors_scanned total_vectors started) now) cp in
      if is_multiple_of vectors_scanned (checkpoint_interval (config r')) then save_record p r'
      else (Ok tt, r', p)
  | _ => (Ok tt, r, p)
  end.

Definition transition_to_building p r (total_vectors : Z) (temp_index_path : string)
    (now now' : Z) :=
  save_record p (set_phase r (Building 0 total_vectors temp_index_path now) now').

Definition update_building_progress p r (vectors_built : Z) (cp : option RebuildCheckpoint)
    (now : Z) : result string unit * RebuildStateRecord * P :=
  match phase r with
  | Building _ total_vectors temp_index_path started =>
      let r' := set_checkpoint
        (set_phase r (Building vectors_built total_vectors temp_index_path started) now) cp in
      if is_multiple_of vectors_built (checkpoint_interval (config r')) then save_record p r'
      else (Ok tt, r', p)
  | _ => (Ok tt, r, p)
  end.

Definition transition_to_replaying p r (total_entries : option Z) (now now' : Z) :=
  save_record p (set_phase r (Replaying 0 total_entries now) now').

Definition update_replay_progress p r (entries_replayed now : Z)
    : result string unit * RebuildStateRecord * P :=
  match phase r with
  | Replaying _ total_entries started =>
      let r' := set_phase r (Replaying entries_replayed total_entries started) now in
      if is_multiple_of entries_replayed 10000 then save_record p r' else (Ok tt, r', p)
  | _ => (Ok tt, r, p)
  end.

Definition transition_to_validating p r (total_samples now now' : Z) :=
  save_record p (set_phase r (Validating 0 total_samples now) now').

Definition update_validation_progress p r (samples_checked now : Z)
    : result string unit * RebuildStateRecord * P :=
  match phase r with
  | Validating _ total_samples started =>
      let r' := set_phase r (Validating samples_checked total_samples started) now in
      if is_multiple_of samples_checked (checkpoint_interval (config r')) then save_record p r'
      else (Ok tt, r', p)
  | _ => (Ok tt, r, p)
  end.

Definition transition_to_swapping p r (now now' : Z) :=
  save_record p (set_phase r (Swapping now) now').

Definition transition_to_cleaning p r (old_index_path : string) (now now' : Z) :=
  save_record p (set_phase (set_checkpoint r None) (Cleaning old_index_path now) now').

Definition complete_operation p r (vectors_rebuilt now : Z) :=
  save_record p (set_phase (set_checkpoint r None)
    (Completed now vectors_rebuilt (saturating_sub now (started_at r))) now).

Definition fail_operation p r (error : string) (now : Z) :=
  save_record p (set_phase r (failed_phase (phase r) error now) now).

Definition reset_for_retry p r (now : Z) : result string unit * RebuildStateRecord * P :=
  match phase r with
  | Failed _ phase_when_failed _ _ => save_record p (set_phase r phase_when_failed now)
  | _ => (Ok tt, r, p)
  end.

Definition load_shard_state p (shard : string) : result string (option RebuildStateRecord) :=
  rp_load_by_shard p shard.

Definition list_in_progress p : result string (list RebuildStateRecord) :=
  let? all := rp_list_all p in
  Ok (filter (λ r, is_in_progress (phase r) = true) all).

Definition recover_operations (sm : RebuildMachine) p : result string (list RebuildStateRecord) :=
  let? all := rp_list_all p in
  Ok (filter (λ r, recoverable sm r = true) all).

Fixpoint cleanup_loop (sm : RebuildMachine) p (l : list RebuildStateRecord)
    (max_age_secs now cleaned : Z) : result string Z * P :=
  match l with
  | [] => (Ok cleaned, p)
  | r :: l =>
      if should_cleanup sm r max_age_secs now then
        match rp_delete_state p (operation_id r) with
        | (Ok _, p') => cleanup_loop sm p' l max_age_secs now (cleaned + 1)
        | (Err e, p') => (Err e, p')
        end
      else cleanup_loop sm p l max_age_secs now cleaned
  end.

Definition cleanup_old_records (sm : RebuildMachine) p (max_age_secs now : Z)
    : result string Z * P :=
  match rp_list_all p with
  | Err e => (Err e, p)
  | Ok all => cleanup_loop sm p all max_age_secs now 0
  end.
End machine.

(** ** The in-memory backend *)

(** The states, and the order in which the hash map yields its values. *)
Record InMemoryRebuildPersistence := mkInMemory { states : records }.

Class RecordsIter := {
  records_iter : records → list RebuildStateRecord;
  records_iter_perm m : records_iter m ≡ₚ (map_to_list m).*2;
}.

Section in_memory.
Context `{!RecordsIter}.

Definition in_memory_new : InMemoryRebuildPersistence := mkInMemory ∅.

Definition mem_save_state (p : InMemoryRebuildPersistence) (r : RebuildStateRecord)
    : result string unit * InMemoryRebuildPersistence :=
  (Ok tt, mkInMemory (<[operation_id r := r]> (states p))).

Definition mem_load_state (p : InMemoryRebuildPersistence) (id : string)
    : result string (option RebuildStateRecord) := Ok (states p !! id).

Definition mem_load_by_shard (p : InMemoryRebuildPersistence) (shard : string)
    : result string (option RebuildStateRecord) :=
  let matching := filter (λ r, shard_id r = shard) (records_iter (states p)) in
  Ok (head (sort_by newest_first matching)).

Definition mem_delete_state (p : InMemoryRebuildPersistence) (id : string)
    : result string unit * InMemoryRebuildPersistence :=
  (Ok tt, mkInMemory (delete id (states p))).

Definition mem_list_all (p : InMemoryRebuildPersistence) : result string (list RebuildStateRecord) :=
  Ok (sort_by newest_first (records_iter (states p))).

#[global] Instance mem_persistence : RebuildStatePersistence InMemoryRebuildPersistence := {
  rp_save_state := mem_save_state;
  rp_load_state := mem_load_state;
  rp_load_by_shard := mem_load_by_shard;
  rp_delete_state := mem_delete_state;
  rp_list_all := mem_list_all;
}.

#[global] Instance newest_first_total : TotalCmp newest_first.
Proof.
  split; intros *; unfold newest_first; [apply (cmp_antisym Z.compare)|].
  intros H1 H2. apply (cmp_trans Z.compare _ (started_at y)); assumption.
Qed.

Lemma elem_of_records_iter m r : r ∈ records_iter m ↔ ∃ id, m !! id = Some r.
Proof.
  rewrite records_iter_perm, list_elem_of_fmap. split.
  - intros ([id r'] & -> & Hin). exists id. by apply elem_of_map_to_list.
  - intros [id Hid]. exists (id, r). by rewrite elem_of_map_to_list.
Qed.

Lemma head_newest (l : list RebuildStateRecord) r r' :
  StronglySorted (cmp_le newest_first) l → head l = Some r → r' ∈ l → started_at r' ≤ started_at r.
Proof.
  intros Hs Hh Hin. destruct Hs as [|x l Hs Hall]; [done|]. injection Hh as <-.
  apply elem_of_cons in Hin as [-> | Hin]; [lia|].
  rewrite Forall_forall in Hall. specialize (Hall r' Hin). unfold cmp_le, newest_first in Hall.
  destruct (Z.compare_spec (started_at r') (started_at x)); [lia|lia|done].
Qed.

#[global] Program Instance mem_persistence_laws
    : RebuildPersistenceLaws InMemoryRebuildPersistence := { rp_view := states }.
Next Obligation. by intros p r e p' [= <- <-]. Qed.
Next Obligation. by intros p id o [= <-]. Qed.
Next Obligation.
  intros p shard o [= <-]. simpl.
  set (l := filter _ _). pose proof (sort_by_sorted newest_first l) as Hs.
  assert (∀ r, r ∈ sort_by newest_first l
    ↔ shard_id r = shard ∧ ∃ id, states p !! id = Some r) as Hin.
  { intros r. rewrite elem_of_sort_by. unfold l. by rewrite list_elem_of_filter, elem_of_records_iter. }
  destruct (sort_by newest_first l) as [|r l'] eqn:E; simpl.
  - intros id r Hid Hsh. assert (r ∈ []) as []%elem_of_nil. apply Hin. eauto.
  - assert (r ∈ r :: l') as (Hsh & Hid)%Hin by set_solver. split_and!; [done..|].
    intros id r' Hid' Hsh'. apply (head_newest (r :: l')); [done|done|]. apply Hin. eauto.
Qed.
Next Obligation. by intros p id e p' [= <- <-]. Qed.
Next Obligation.
  intros p l [= <-]. split; [|apply sort_by_sorted; apply _].
  by rewrite (sort_by_perm newest_first), records_iter_perm.
Qed.

#[global] Instance mem_reliable : RebuildReliable InMemoryRebuildPersistence.
Proof. by split. Qed.
End in_memory.

#[global] Instance records_iter_map : RecordsIter :=
  { records_iter m := (map_to_list m).*2; records_iter_perm _ := reflexivity _ }.

(** ** Calls on a record *)

(** The calls that change a record, with their arguments and clock readings. *)
Inductive RebuildCall :=
| ToScanning (total_vectors now now' : Z)
| ScanProgress (vectors_scanned : Z) (cp : option RebuildCheckpoint) (now : Z)
| ToBuilding (total_vectors : Z) (temp_index_path : string) (now now' : Z)
| BuildProgress (vectors_built : Z) (cp : option RebuildCheckpoint) (now : Z)
| ToReplaying (total_entries : option Z) (now now' : Z)
| ReplayProgress (entries_replayed now : Z)
| ToValidating (total_samples now now' : Z)
| ValidationProgress (samples_checked now : Z)
| ToSwapping (now now' : Z)
| ToCleaning (old_index_path : string) (now now' : Z)
| Complete (vectors_rebuilt now : Z)
| Fail (error : string) (now : Z)
| Reset (now : Z).

Section calls.
Context {P : Type} `{!RebuildStatePersistence P, !RebuildPersistenceLaws P}.
Implicit Types (p : P) (r : RebuildStateRecord) (m : records).

Definition call p r (c : RebuildCall) : result string unit * RebuildStateRecord * P :=
  match c with
  | ToScanning n t t' => transition_to_scanning p r n t t'
  | ScanProgress n cp t => update_scanning_progress p r n cp t
  | ToBuilding n path t t' => transition_to_building p r n path t t'
  | BuildProgress n cp t => update_building_progress p r n cp t
  | ToReplaying n t t' => transition_to_replaying p r n t t'
  | ReplayProgress n t => update_replay_progress p r n t
  | ToValidating n t t' => transition_to_validating p r n t t'
  | ValidationProgress n t => update_validation_progress p r n t
  | ToSwapping t t' => transition_to_swapping p r t t'
  | ToCleaning path t t' => transition_to_cleaning p r path t t'
  | Complete n t => complete_operation p r n t
  | Fail e t => fail_operation p r e t
  | Reset t => reset_for_retry p r t
  end.

(** Records of the same operation. *)
Definition same_operation r r' : Prop :=
  operation_id r = operation_id r' ∧ shard_id r = shard_id r' ∧ started_at r = started_at r'.

Lemma save_record_spec p r e r' p' :
  save_record p r = (e, r', p') →
  r' = r ∧ (rp_view p' = rp_view p ∨ rp_view p' = <[operation_id r := r]> (rp_view p)).
Proof.
  unfold save_record. destruct (rp_save_state p r) as [e' p''] eqn:E. intros [= <- <- <-].
  split; [done|]. apply rp_save_ok in E. destruct e'; simpl in E; [by right|done].
Qed.

(** A call keeps the identity of its record, and stores at most the record it
    returns. *)
Lemma call_spec p r c e r' p' :
  call p r c = (e, r', p') →
  same_operation r' r ∧
  (rp_view p' = rp_view p ∨ rp_view p' = <[operation_id r := r']> (rp_view p)).
Proof.
  intros Hc. unfold same_operation. destruct c; simpl in Hc;
    unfold transition_to_scanning, update_scanning_progress, transition_to_building,
      update_building_progress, transition_to_replaying, update_replay_progress,
      transition_to_validating, update_validation_progress, transition_to_swapping,
      transition_to_cleaning, complete_operation, fail_operation, reset_for_retry in Hc;
    repeat match type of Hc with
    | context [match phase r with _ => _ end] => destruct (phase r)
    | context [if is_multiple_of ?a ?b then _ else _] => destruct (is_multiple_of a b)
    end;
    first [ apply save_record_spec in Hc as [-> [-> | ->]]; simpl; by auto
          | injection Hc as <- <- <-; simpl; by auto ].
Qed.

(** ** One rebuild per shard *)

(** Every other record of the shard is older. *)
Definition newest m r : Prop :=
  ∀ id r', m !! id = Some r' → shard_id r' = shard_id r → id ≠ operation_id r →
  started_at r' < started_at r.

(** The records are keyed by their operation, and one that is in progress is the
    newest of its shard. *)
Definition records_ok m : Prop :=
  (∀ id r, m !! id = Some r → operation_id r = id) ∧
  ∀ id r, m !! id = Some r → is_in_progress (phase r) = true → newest m r.

(** What may happen: a rebuild is started later than every other of its shard,
    under a fresh id; a call is made on a rebuild that is the newest of its shard
    or is in progress (the record a caller holds may be ahead of the stored one);
    old records are deleted. *)
Inductive step (p : P) : P → Prop :=
| step_start uuid shard wal_lsn cfg now now' e p' :
    rp_view p !! uuid = None →
    (∀ id r, rp_view p !! id = Some r → shard_id r = shard → started_at r < now) →
    start_operation p uuid shard wal_lsn cfg now now' = (e, p') → step p p'
| step_call r0 r c e r' p' :
    rp_view p !! operation_id r = Some r0 → same_operation r r0 →
    newest (rp_view p) r0 ∨ is_in_progress (phase r0) = true →
    call p r c = (e, r', p') → step p p'
| step_cleanup sm max_age now e p' :
    cleanup_old_records sm p max_age now = (e, p') → step p p'.

Lemma start_operation_spec p uuid shard wal_lsn cfg now now' e p' :
  start_operation p uuid shard wal_lsn cfg now now' = (e, p') →
  rp_view p' = rp_view p ∨
  rp_view p' = <[uuid := mkRecord uuid shard (Preparing wal_lsn now') wal_lsn now now None cfg]>
                 (rp_view p) ∧
  ∃ o, rp_load_by_shard p shard = Ok o ∧
       match o with Some r => is_in_progress (phase r) = false | None => True end.
Proof.
  unfold start_operation. destruct (rp_load_by_shard p shard) as [o|] eqn:E; [|intros [= <- <-]; auto].
  destruct (match o with Some _ => _ | None => _ end) eqn:Ho; [intros [= <- <-]; auto|].
  simpl. destruct (rp_save_state p _) as [e' p''] eqn:Es. apply rp_save_ok in Es.
  intros Heq. assert (p' = p'') as -> by (destruct e'; by injection Heq).
  assert (match o with Some r => is_in_progress (phase r) = false | None => True end)
    by (by destruct o).
  destruct e'; simpl in Es; [right; eauto|]. destruct Es as [-> | ->]; [by left|right; eauto].
Qed.

Lemma records_ok_insert m r :
  records_ok m → (is_in_progress (phase r) = true → newest m r) →
  (∀ id r', m !! id = Some r' → is_in_progress (phase r') = true → id ≠ operation_id r →
     shard_id r' = shard_id r → started_at r < started_at r') →
  records_ok (<[operation_id r := r]> m).
Proof.
  intros [Hkey Hnew] Hr Hothers. split.
  - intros id r' [[<- <-]|[_ ?]]%lookup_insert_Some; [done|auto].
  - intros id r' [[<- <-]|[Hne Hid]]%lookup_insert_Some Hp id2 r2.
    + intros [[<- <-]|[Hne2 Hid2]]%lookup_insert_Some Hsh Hneq; [done|]. eapply Hr; eauto.
    + assert (operation_id r' = id) as Hid' by auto.
      intros [[<- <-]|[Hne2 Hid2]]%lookup_insert_Some Hsh Hneq.
      * eapply Hothers; [exact Hid|done|done|done].
      * eapply (Hnew id r' Hid Hp); eauto.
Qed.

Lemma records_ok_delete m id : records_ok m → records_ok (delete id m).
Proof.
  intros [Hkey Hnew]. split.
  - intros id' r [_ ?]%lookup_delete_Some. auto.
  - intros id' r [_ Hid]%lookup_delete_Some Hp id2 r2 [_ Hid2]%lookup_delete_Some. eauto.
    intros. eapply Hnew; eauto.
Qed.

Lemma cleanup_loop_ok sm p l max_age now n e p' :
  records_ok (rp_view p) → cleanup_loop sm p l max_age now n = (e, p') → records_ok (rp_view p').
Proof.
  revert p n. induction l as [|r l IH]; intros p n Hok; simpl; [by intros [= <- <-]|].
  destruct (should_cleanup sm r max_age now); [|by apply IH].
  destruct (rp_delete_state p (operation_id r)) as [e' p''] eqn:E. apply rp_delete_ok in E.
  assert (records_ok (rp_view p'')) as Hok'.
  { destruct e'; simpl in E; [rewrite E; by apply records_ok_delete|].
    destruct E as [-> | ->]; [done|by apply records_ok_delete]. }
  destruct e'; [by apply IH|by intros [= <- <-]].
Qed.

Lemma step_ok p p' : records_ok (rp_view p) → step p p' → records_ok (rp_view p').
Proof.
  intros Hok Hstep. pose proof Hok as [Hkey Hnew]. inversion_clear Hstep as
    [uuid shard wal_lsn cfg now now' e ? Hfresh Hlate Hs|r0 r c e r' ? Hr0 Hsame Hpre Hc|
     sm max_age now e ? Hc].
  - apply start_operation_spec in Hs as [-> | (-> & o & Ho & Hnp)]; [done|].
    apply rp_load_by_shard_ok in Ho.
    apply (records_ok_insert _ (mkRecord uuid shard (Preparing wal_lsn now') wal_lsn now now None cfg)).
    + done.
    + intros _ id r Hid Hsh _. simpl in *. eauto.
    + simpl. intros id r' Hid Hp Hne Hsh. exfalso.
      destruct o as [r|]; [|by eapply Ho].
      destruct Ho as ([id0 Hid0] & Hsh0 & Hmax).
      destruct (decide (id = id0)) as [->|Hidne]; [congruence|].
      assert (started_at r < started_at r') as Hlt.
      { apply (Hnew id r' Hid Hp id0 r Hid0); [congruence|].
        rewrite (Hkey id r' Hid). congruence. }
      specialize (Hmax id r' Hid Hsh). lia.
  - apply call_spec in Hc as ((Hid' & Hsh' & Hst') & [-> | ->]); [done|].
    destruct Hsame as (Hid & Hsh & Hst).
    assert (newest (rp_view p) r0) as Hn.
    { destruct Hpre as [?|Hp]; [done|]. by eapply Hnew. }
    rewrite <-Hid'. apply records_ok_insert; [done|..].
    + intros _ id r2 Hr2 Hsh2 Hne. rewrite Hst', Hst. apply (Hn id r2); congruence.
    + intros id r2 Hr2 Hp2 Hne Hsh2. exfalso.
      assert (started_at r0 < started_at r2).
      { apply (Hnew id r2 Hr2 Hp2 (operation_id r) r0 Hr0); [congruence|].
        rewrite (Hkey id r2 Hr2). congruence. }
      assert (started_at r2 < started_at r0); [|lia]. apply (Hn id r2 Hr2); congruence.
  - unfold cleanup_old_records in Hc. destruct (rp_list_all p); [|by simplify_eq].
    by eapply cleanup_loop_ok.
Qed.

(** From an empty store, through any starts (each later than the others of its
    shard), any calls on the newest or an unfinished rebuild of a shard, cleanups
    and failed writes, at most one rebuild per shard is in progress. *)
Lemma one_rebuild_per_shard p p' id1 id2 r1 r2 :
  rp_view p = ∅ → rtc step p p' →
  rp_view p' !! id1 = Some r1 → rp_view p' !! id2 = Some r2 → shard_id r1 = shard_id r2 →
  is_in_progress (phase r1) = true → is_in_progress (phase r2) = true → r1 = r2.
Proof.
  intros Hempty Hrun H1 H2 Hsh Hp1 Hp2.
  assert (records_ok (rp_view p')) as [Hkey Hnew].
  { assert (records_ok (rp_view p)) as Hok.
    { rewrite Hempty. by split; intros ? ? ?%lookup_empty_Some. }
    clear -Hrun Hok. induction Hrun; eauto using step_ok. }
  destruct (decide (id1 = id2)) as [->|Hne]; [congruence|].
  assert (started_at r2 < started_at r1).
  { apply (Hnew id1 r1 H1 Hp1 id2 r2 H2); [done|]. rewrite (Hkey _ _ H1). done. }
  assert (started_at r1 < started_at r2); [|lia].
  apply (Hnew id2 r2 H2 Hp2 id1 r1 H1); [done|]. rewrite (Hkey _ _ H2). congruence.
Qed.

(** ** Recovery and cleanup *)

Lemma list_all_elem p l r :
  rp_list_all p = Ok l → r ∈ l ↔ ∃ id, rp_view p !! id = Some r.
Proof.
  intros [Hperm _]%rp_list_all_ok. rewrite Hperm, list_elem_of_fmap. split.
  - intros ([id r'] & -> & Hin%elem_of_map_to_list). eauto.
  - intros [id Hid]. exists (id, r). by rewrite elem_of_map_to_list.
Qed.

(** Recovery after a restart returns exactly the stored rebuilds that are in
    progress or failed with retries left, each once, the most recent first. *)
Lemma rebuild_recover_exact `{!RebuildReliable P} sm p :
  ∃ l, recover_operations sm p = Ok l ∧ StronglySorted (cmp_le newest_first) l ∧
  l ≡ₚ filter (λ r, recoverable sm r = true) (map_to_list (rp_view p)).*2 ∧
  ∀ r, r ∈ l ↔ (∃ id, rp_view p !! id = Some r) ∧
    (is_in_progress (phase r) = true
     ∨ ∃ e ph n t, phase r = Failed e ph n t ∧ n < max_retries sm).
Proof.
  unfold recover_operations. pose proof (reliable_list_all p) as Hok.
  destruct (rp_list_all p) as [l|] eqn:E; [|done]. simpl. eexists. split; [done|].
  pose proof (rp_list_all_ok p l E) as [Hperm Hs]. split_and!.
  - eapply StronglySorted_sublist; [apply sublist_filter|done].
  - by rewrite Hperm.
  - intros r. rewrite list_elem_of_filter, (list_all_elem p l r E).
    unfold recoverable, should_retry. destruct (phase r) eqn:Hph; simpl; naive_solver lia.
Qed.

Lemma rebuild_cleanup_loop_spec `{!RebuildReliable P} sm p l max_age now n :
  (∀ id r, rp_view p !! id = Some r → operation_id r = id) →
  NoDup (operation_id <$> l) → (∀ r, r ∈ l → rp_view p !! operation_id r = Some r) →
  ∃ p', cleanup_loop sm p l max_age now n
        = (Ok (n + Zlength (filter (λ r, should_cleanup sm r max_age now = true) l)), p') ∧
  rp_view p' = filter (λ kv : string * RebuildStateRecord,
                 kv.2 ∉ filter (λ r, should_cleanup sm r max_age now = true) l) (rp_view p).
Proof.
  revert p n. induction l as [|r l IH]; intros p n Hkey Hnd Hl; simpl.
  { exists p. split; [f_equal; f_equal; simpl; lia|]. symmetry. apply map_filter_id.
    intros id r' _. simpl. apply not_elem_of_nil. }
  apply NoDup_cons in Hnd as [Hr Hnd]. destruct (should_cleanup sm r max_age now) eqn:Hc.
  - rewrite filter_cons_True by done.
    pose proof (reliable_delete p (operation_id r)) as Hok.
    destruct (rp_delete_state p (operation_id r)) as [[[]|] p'] eqn:E; [|done].
    apply rp_delete_ok in E. simpl in E.
    assert (∀ id r', rp_view p' !! id = Some r' → rp_view p !! id = Some r' ∧ operation_id r ≠ id) as Hsub.
    { intros id r'. rewrite E. intros [? ?]%lookup_delete_Some. done. }
    destruct (IH p' (n + 1)) as (p2 & Hrun & Hview).
    + intros id r' [? _]%Hsub. auto.
    + done.
    + intros r' Hin. rewrite E, lookup_delete_ne; [apply Hl; set_solver|].
      intros Heq. apply Hr. rewrite Heq. by apply list_elem_of_fmap_2.
    + exists p2. rewrite Hrun. split; [f_equal; f_equal; simpl; lia|].
      rewrite Hview, E. apply map_eq. intros k. apply option_eq. intros r'.
      rewrite !map_lookup_filter_Some, lookup_delete_Some. simpl. rewrite not_elem_of_cons.
      split.
      * intros [[Hne Hk] Hnin]. split; [exact Hk|]. split; [|exact Hnin].
        intros ->. by rewrite (Hkey k r Hk) in Hne.
      * intros (Hk & Hne & Hnin). split; [split; [|exact Hk]|exact Hnin]. intros <-. apply Hne.
        assert (Some r' = Some r) as [= ->]; [|reflexivity]. rewrite <-Hk. apply Hl. by left.
  - rewrite filter_cons_False by congruence. apply IH; [done..|]. intros; apply Hl; set_solver.
Qed.

(** Cleanup deletes exactly the completed rebuilds and the failed ones without
    retries left that are older than the limit, and reports their number; every
    other record stays as it was. *)
Lemma rebuild_cleanup_exact `{!RebuildReliable P} sm p max_age now :
  (∀ id r, rp_view p !! id = Some r → operation_id r = id) →
  ∃ p' l, cleanup_old_records sm p max_age now = (Ok (Zlength l), p') ∧
  l ≡ₚ filter (λ r, should_cleanup sm r max_age now = true) (map_to_list (rp_view p)).*2 ∧
  rp_view p' = filter (λ kv : string * RebuildStateRecord,
                 should_cleanup sm kv.2 max_age now = false) (rp_view p).
Proof.
  intros Hkey. unfold cleanup_old_records. pose proof (reliable_list_all p) as Hok.
  destruct (rp_list_all p) as [l|] eqn:E; [|done].
  pose proof (rp_list_all_ok p l E) as [Hperm _].
  destruct (rebuild_cleanup_loop_spec sm p l max_age now 0 Hkey) as (p' & Hrun & Hview).
  - rewrite Hperm. clear -Hkey.
    assert (operation_id <$> (map_to_list (rp_view p)).*2 = (map_to_list (rp_view p)).*1) as ->.
    { rewrite <-list_fmap_compose. apply list_fmap_ext. intros i [id r] Hi. simpl.
      apply Hkey, elem_of_map_to_list. by eapply list_elem_of_lookup_2. }
    apply NoDup_fst_map_to_list.
  - intros r [id Hid]%(list_all_elem p l r E). by rewrite (Hkey id r Hid).
  - exists p', (filter (λ r, should_cleanup sm r max_age now = true) l).
    rewrite Hrun. split_and!; [done|by rewrite Hperm|].
    rewrite Hview. apply map_eq. intros k. apply option_eq. intros r.
    rewrite !map_lookup_filter_Some. simpl. rewrite list_elem_of_filter, (list_all_elem p l r E).
    destruct (should_cleanup sm r max_age now); split.
    + intros [Hk []]. split; [reflexivity|]. by exists k.
    + intros [_ [=]].
    + by intros [Hk _].
    + intros [Hk _]. split; [exact Hk|]. by intros [[=] _].
Qed.

(** ** What a crash during a scan loses *)

(** A caller that reports its progress every [b] vectors, [k] times. *)
Fixpoint scan_reports p r (cp : option RebuildCheckpoint) (b : Z) (now : nat → Z) (k : nat)
    : RebuildStateRecord * P :=
  match k with
  | 0%nat => (r, p)
  | S k =>
      let '(r, p) := scan_reports p r cp b now k in
      let '(_, r, p) := update_scanning_progress p r (Z.of_nat (S k) * b) cp (now k) in (r, p)
  end.

Lemma multiple_step i c k :
  0 < c → i = k / c * c → (k + 1) mod c ≠ 0 → i = (k + 1) / c * c.
Proof.
  intros Hc -> Hm. f_equal. pose proof (Z.div_mod k c). pose proof (Z.mod_pos_bound k c Hc).
  apply (Z.div_unique _ _ _ (k mod c + 1)); [|lia]. left.
  split; [lia|]. destruct (Z.eq_dec (k mod c + 1) c) as [E|]; [|lia]. exfalso. apply Hm.
  replace (k + 1) with ((k / c + 1) * c) by lia. apply Z.mod_mul. lia.
Qed.

Lemma scan_reports_inv `{!RebuildReliable P} p r cp b c now k total s :
  phase r = Scanning 0 total s → rp_view p !! operation_id r = Some r →
  0 < b → 0 < c → checkpoint_interval (config r) = c * b →
  let '(r', p') := scan_reports p r cp b now k in
  phase r' = Scanning (Z.of_nat k * b) total s ∧ operation_id r' = operation_id r ∧
  config r' = config r ∧
  ∃ r0, rp_view p' !! operation_id r = Some r0 ∧
        phase r0 = Scanning (Z.of_nat k / c * c * b) total s.
Proof.
  intros Hph Hst Hb Hc Hi. induction k as [|k IH]; cbn [scan_reports].
  { split_and!; [done..|]. exists r. by rewrite Hph. }
  destruct (scan_reports p r cp b now k) as [r1 p1].
  destruct IH as (Hph1 & Hid1 & Hcf1 & r0 & Hr0 & Hp0).
  unfold update_scanning_progress. rewrite Hph1. cbn [config set_checkpoint set_phase].
  rewrite Hcf1, Hi. unfold is_multiple_of. rewrite (proj2 (Z.eqb_neq (c * b) 0)) by nia.
  replace (Z.of_nat (S k)) with (Z.of_nat k + 1) by lia.
  rewrite Z.mul_mod_distr_r by lia. unfold save_record.
  destruct (Z.eqb_spec ((Z.of_nat k + 1) mod c * b) 0) as [E|E].
  - set (r2 := set_checkpoint _ _). pose proof (reliable_save p1 r2) as Hok.
    destruct (rp_save_state p1 r2) as [[[]|] p2] eqn:Es; [|done].
    apply rp_save_ok in Es. simpl in Es. split_and!; [done..|].
    exists r2. rewrite Es. split; [by rewrite <-Hid1; apply lookup_insert_eq|].
    unfold r2. simpl. f_equal. pose proof (Z.div_mod (Z.of_nat k + 1) c). nia.
  - split_and!; [done..|]. exists r0. split; [done|]. rewrite Hp0. f_equal. f_equal.
    apply multiple_step; [done|done|]. intros E'. apply E. rewrite E'. lia.
Qed.

(** A scan that reports every [b] vectors, where [b] divides the checkpoint
    interval, has at every moment the progress of the last full interval on
    disk: a crash loses less than one interval. *)
Lemma scan_progress_saved `{!RebuildReliable P} p r cp b now k total s :
  phase r = Scanning 0 total s → rp_view p !! operation_id r = Some r →
  0 < b → (b | checkpoint_interval (config r)) → 0 < checkpoint_interval (config r) →
  ∃ r0 n, rp_view (scan_reports p r cp b now k).2 !! operation_id r = Some r0 ∧
  phase r0 = Scanning n total s ∧ n ≤ Z.of_nat k * b < n + checkpoint_interval (config r).
Proof.
  intros Hph Hst Hb [c Hc] Hi. assert (0 < c) as Hc0 by nia.
  pose proof (scan_reports_inv p r cp b c now k total s Hph Hst Hb Hc0 Hc) as Hinv.
  destruct (scan_reports p r cp b now k) as [r' p']. simpl.
  destruct Hinv as (_ & _ & _ & r0 & Hr0 & Hp0). eexists r0, _. split_and!; [done..| |].
  - pose proof (Z.div_mod (Z.of_nat k) c). pose proof (Z.mod_pos_bound (Z.of_nat k) c Hc0). nia.
  - pose proof (Z.div_mod (Z.of_nat k) c). pose proof (Z.mod_pos_bound (Z.of_nat k) c Hc0).
    rewrite Hc. nia.
Qed.

(** ** Retries *)

Lemma fail_operation_record p r error now :
  (fail_operation p r error now).1.2 = set_phase r (failed_phase (phase r) error now) now.
Proof. unfold fail_operation, save_record. by destruct (rp_save_state _ _). Qed.

(** A failed rebuild that is reset and fails again. *)
Definition retry_cycle (error : string) (rp : RebuildStateRecord * P) (now : Z)
    : RebuildStateRecord * P :=
  let '(_, r, p) := reset_for_retry rp.2 rp.1 now in
  let '(_, r, p) := fail_operation p r error now in (r, p).

(** The retry counter never advances through resets: a rebuild that keeps failing
    is retried for ever. *)
Lemma rebuild_retried_forever sm p r error times e ph t :
  0 < max_retries sm → phase r = Failed e ph 0 t → is_in_progress ph = true →
  should_retry sm (foldl (retry_cycle error) (r, p) times).1 = true.
Proof.
  intros Hm Hr Hph.
  assert (∀ rp, (∃ e t, phase rp.1 = Failed e ph 0 t) →
    ∃ e t, phase (foldl (retry_cycle error) rp times).1 = Failed e ph 0 t) as H.
  { induction times as [|now times IH]; intros rp (e' & t' & Hrp); simpl; [eauto|].
    apply IH. destruct rp as [r1 p1]. simpl in Hrp. unfold retry_cycle, reset_for_retry. simpl.
    rewrite Hrp. unfold save_record. destruct (rp_save_state p1 _) as [x p2].
    unfold fail_operation, save_record. destruct (rp_save_state p2 _) as [y p3]. simpl.
    destruct ph; try discriminate; simpl; eauto. }
  destruct (H (r, p)) as (e' & t' & Hf); [eauto|]. unfold should_retry. rewrite Hf. lia.
Qed.
End calls.

(** ** Concrete rebuilds *)

Module Example1.
Definition cfg : RebuildPersistentConfig := mkConfig (f64_lit 1 10) 6 10 3600.

(** A rebuild of [s1] that fails, a later one that completes, one of [s2]. *)
Definition p0 : InMemoryRebuildPersistence := in_memory_new.
Definition ra0 : RebuildStateRecord := mkRecord "a" "s1" (Preparing 7 10) 7 10 10 None cfg.
Definition p1 := (start_operation p0 "a" "s1" 7 cfg 10 10).2.
Definition ra := (fail_operation p1 ra0 "out of memory" 12).1.2.
Definition p2 := (fail_operation p1 ra0 "out of memory" 12).2.
Definition p3 := (start_operation p2 "b" "s1" 8 cfg 20 20).2.
Definition rb0 : RebuildStateRecord := mkRecord "b" "s1" (Preparing 8 20) 8 20 20 None cfg.
Definition rb := (complete_operation p3 rb0 100 30).1.2.
Definition p4 := (complete_operation p3 rb0 100 30).2.
Definition p5 := (start_operation p4 "c" "s2" 9 cfg 40 40).2.

Definition rc : RebuildStateRecord := mkRecord "c" "s2" (Preparing 9 40) 9 40 40 None cfg.

(** What the stores hold. *)
Definition m2 : records := <["a" := ra]> (<["a" := ra0]> ∅).
Definition m4 : records := <["b" := rb]> (<["b" := rb0]> m2).

Lemma rc_stored : states p5 !! "c" = Some rc.
Proof. vm_compute. reflexivity. Qed.

Lemma p5_reached : rtc (step (P:=InMemoryRebuildPersistence)) p0 p5.
Proof.
  apply (rtc_l _ _ p1).
  { eapply (step_start _ "a" "s1"); [reflexivity| |apply surjective_pairing].
    intros id r Hr. by destruct (lookup_empty_Some (M:=gmap string) id r Hr). }
  apply (rtc_l _ _ p2).
  { eapply (step_call _ ra0 ra0 (Fail "out of memory" 12));
      [reflexivity|by split_and!|by right|reflexivity]. }
  apply (rtc_l _ _ p3).
  { eapply (step_start _ "b" "s1"); [reflexivity| |apply surjective_pairing].
    intros id r Hr _. change (rp_view p2) with m2 in Hr. unfold m2 in Hr.
    repeat (apply lookup_insert_Some in Hr as [[_ <-]|[_ Hr]]; [reflexivity|]).
    by destruct (lookup_empty_Some (M:=gmap string) id r Hr). }
  apply (rtc_l _ _ p4).
  { eapply (step_call _ rb0 rb0 (Complete 100 30));
      [reflexivity|by split_and!|by right|reflexivity]. }
  apply rtc_once.
  eapply (step_start _ "c" "s2"); [reflexivity| |apply surjective_pairing].
  intros id r Hr Hsh. exfalso. change (rp_view p4) with m4 in Hr. unfold m4, m2 in Hr.
  repeat (apply lookup_insert_Some in Hr as [[_ <-]|[_ Hr]]; [discriminate Hsh|]).
  by destruct (lookup_empty_Some (M:=gmap string) id r Hr).
Qed.

Lemma one_rebuild_per_shard_witness : rc = rc.
Proof.
  exact (one_rebuild_per_shard (P:=InMemoryRebuildPersistence) p0 p5 "c" "c" rc rc
    eq_refl p5_reached rc_stored rc_stored eq_refl eq_refl eq_refl).
Defined.

Lemma p5_keys id r : states p5 !! id = Some r → operation_id r = id.
Proof.
  intros Hr. change (states p5) with (<["c" := rc]> m4) in Hr. unfold m4, m2 in Hr.
  repeat (apply lookup_insert_Some in Hr as [[<- <-]|[_ Hr]]; [reflexivity|]).
  by destruct (lookup_empty_Some (M:=gmap string) id r Hr).
Qed.

(** Recovery offers the failed rebuild and the one in progress. *)
Lemma rebuild_recover_example : recover_operations machine_new p5 = Ok [rc; ra].
Proof. vm_compute. reflexivity. Qed.

Lemma rebuild_cleanup_exact_witness :
  ∃ p' l, cleanup_old_records machine_new p5 60 100 = (Ok (Zlength l), p') ∧
  l ≡ₚ filter (λ r, should_cleanup machine_new r 60 100 = true) (map_to_list (states p5)).*2 ∧
  states p' = filter (λ kv : string * RebuildStateRecord,
                 should_cleanup machine_new kv.2 60 100 = false) (states p5).
Proof.
  exact (rebuild_cleanup_exact (P:=InMemoryRebuildPersistence) machine_new p5 60 100 p5_keys).
Defined.

(** A scan that reports every two vectors, with an interval of six. *)
Definition scanning : RebuildStateRecord := mkRecord "d" "s3" (Scanning 0 100 50) 9 50 50 None cfg.
Definition scan_start : InMemoryRebuildPersistence := (mem_save_state p5 scanning).2.

Lemma scan_start_stored : rp_view scan_start !! operation_id scanning = Some scanning.
Proof. vm_compute. reflexivity. Qed.

Lemma reports_divide : (2 | checkpoint_interval (config scanning)).
Proof. by exists 3. Qed.

Lemma scan_progress_saved_witness :
  ∃ r0 n, rp_view (scan_reports scan_start scanning None 2 (λ _, 60) 10).2
            !! operation_id scanning = Some r0 ∧
  phase r0 = Scanning n 100 50 ∧
  n ≤ Z.of_nat 10 * 2 < n + checkpoint_interval (config scanning).
Proof.
  exact (scan_progress_saved scan_start scanning None 2 (λ _, 60) 10 100 50
    eq_refl scan_start_stored eq_refl reports_divide eq_refl).
Defined.

Lemma scan_progress_example :
  phase <$> (states (scan_reports scan_start scanning None 2 (λ _, 60) 10).2 !! "d")
  = Some (Scanning 18 100 50).
Proof. vm_compute. reflexivity. Qed.

(** ** Two rebuilds of one shard *)

(** The older failed rebuild is reset while the newest has completed; the check
    of [start_operation] looks only at the newest, and accepts another. *)
Definition p6 := (reset_for_retry p5 ra 50).2.
Definition p7 := (start_operation p6 "e" "s1" 11 cfg 60 60).2.

Lemma resume_allows_second_rebuild :
  (λ r, (shard_id r, phase_name (phase r))) <$> (states p7 !! "a") = Some ("s1", "preparing") ∧
  (λ r, (shard_id r, phase_name (phase r))) <$> (states p7 !! "e") = Some ("s1", "preparing").
Proof. vm_compute. done. Qed.

(** Two rebuilds started within one second compare as equally recent, and the
    order of the hash map decides which of them the check sees. *)
Definition q1 : InMemoryRebuildPersistence :=
  mkInMemory {["a" := mkRecord "a" "s1" (Failed "x" (Preparing 7 10) 0 10) 7 10 10 None cfg]}.
Definition q2 := (start_operation q1 "b" "s1" 8 cfg 10 10).2.

Definition a_first : RecordsIter.
Proof.
  refine {| records_iter m := rev ((map_to_list m).*2) |}.
  intros m. symmetry. apply Permutation_rev.
Defined.

Lemma same_second_start :
  (phase_name ∘ phase) <$> (states q2 !! "b") = Some "preparing" ∧
  is_ok (start_operation q2 "c" "s1" 8 cfg 11 11).1
  ≠ is_ok (@start_operation _ (@mem_persistence a_first) q2 "c" "s1" 8 cfg 11 11).1.
Proof. vm_compute. done. Qed.
End Example1.
