(* ===== verification/Checkpoint.v ===== *)
(** * Rebuild checkpoints

    [crates/faiss-wrapper/src/rebuild/checkpoint.rs]: the files that keep the
    vectors a rebuild has exported, the moments they are written, and the wait for
    a quiet system. The file system is a map from paths to bytes, in which a
    write and a rename are separate steps; bincode is a parameter; the readings
    of the latency are a function of the attempt. *)

From S2P Require Import Prelude Float32 Rebuild.

Record CheckpointConfig := mkCpConfig {
  checkpoint_dir : string;
  cp_interval : Z;
  compress : bool;
  max_checkpoint_age_secs : Z;
}.

Definition cp_config_default : CheckpointConfig :=
  mkCpConfig "/tmp/akidb/checkpoints" 100000 true (24 * 60 * 60).

(** A directory and a file name joined. *)
Definition checkpoint_path (c : CheckpointConfig) (operation_id : string) : string :=
  checkpoint_dir c +:+ "/" +:+ operation_id +:+ ".checkpoint".

Definition exported_path (c : CheckpointConfig) (operation_id : string) : string :=
  checkpoint_dir c +:+ "/" +:+ operation_id +:+ ".vectors".

(** The exported path with its extension replaced. *)
Definition temp_path (c : CheckpointConfig) (operation_id : string) : string :=
  checkpoint_dir c +:+ "/" +:+ operation_id +:+ ".tmp".

Definition should_checkpoint (c : CheckpointConfig) (vectors_processed : Z) : bool :=
  (vectors_processed >? 0) && is_multiple_of vectors_processed (cp_interval c).

Definition create_checkpoint (c : CheckpointConfig) (r : RebuildStateRecord)
    (last_processed_id vectors_exported total_vectors wal_entries_replayed : Z)
    : RebuildCheckpoint :=
  let temp_index_path :=
    match phase r with Building _ _ temp_index_path _ => temp_index_path | _ => "" end in
  mkCheckpoint last_processed_id temp_index_path vectors_exported total_vectors
    wal_entries_replayed (Some (exported_path c (operation_id r))).

(** The marker byte the code calls compression. *)
Definition compress_data (data : list Z) : result string (list Z) := Ok (1 :: data).

Definition decompress_data (data : list Z) : result string (list Z) :=
  match data with
  | [] => Err "Empty checkpoint data"
  | b :: data => if (b =? 1) || (b =? 0) then Ok data else Err "Invalid checkpoint format"
  end.

(** ** Files *)

Abbreviation files := (gmap string (list Z)).
Abbreviation exported := (list (Z * list Z)).

(** bincode on the exported vectors. *)
Class BincodeVectors := {
  bincode_serialize : exported → result string (list Z);
  bincode_deserialize : list Z → result string exported;
  bincode_roundtrip vs data :
    bincode_serialize vs = Ok data → bincode_deserialize data = Ok vs;
}.

Section files.
Context `{!BincodeVectors}.

(** The bytes that are written. *)
Definition checkpoint_data (c : CheckpointConfig) (vectors : exported) : result string (list Z) :=
  let? data := bincode_serialize vectors in
  if compress c then compress_data data else Ok data.

(** The states of the files while the checkpoint is written: before, with the
    temporary file, after the rename. *)
Definition save_steps (c : CheckpointConfig) (operation_id : string) (vectors : exported)
    (fs : files) : result string (list files) :=
  let? final_data := checkpoint_data c vectors in
  let fs1 := <[temp_path c operation_id := final_data]> fs in
  let fs2 := <[exported_path c operation_id := final_data]> (delete (temp_path c operation_id) fs1) in
  Ok [fs; fs1; fs2].

Definition save_vector_checkpoint (c : CheckpointConfig) (operation_id : string)
    (vectors : exported) (fs : files) : result string string * files :=
  match save_steps c operation_id vectors fs with
  | Err e => (Err e, fs)
  | Ok l => (Ok (exported_path c operation_id), default fs (last l))
  end.

Definition load_vector_checkpoint (c : CheckpointConfig) (operation_id : string) (fs : files)
    : result string exported :=
  match fs !! exported_path c operation_id with
  | None => Err "Checkpoint file not found: "
  | Some data =>
      let? decompressed := if compress c then decompress_data data else Ok data in
      bincode_deserialize decompressed
  end.

Definition cleanup_checkpoint (c : CheckpointConfig) (operation_id : string) (fs : files) : files :=
  delete (exported_path c operation_id) (delete (checkpoint_path c operation_id) fs).

Lemma temp_not_exported c id id' : temp_path c id ≠ exported_path c id'.
Proof.
  unfold temp_path, exported_path. intros E. apply (f_equal (λ s, last (String.list_ascii_of_string s))) in E.
  assert (∀ a s, s ≠ "" → last (String.list_ascii_of_string (a +:+ s)) = last (String.list_ascii_of_string s)) as L.
  { intros a s Hs. induction a as [|ch a IH]; [done|].
    change (last (ch :: String.list_ascii_of_string (a +:+ s)) = last (String.list_ascii_of_string s)).
    rewrite <-IH. destruct (String.list_ascii_of_string (a +:+ s)) eqn:E'; [|done].
    destruct a; [by destruct s|done]. }
  assert (∀ s t, t ≠ "" → s +:+ t ≠ "") as N by (intros [|ch s] t Ht; [exact Ht|discriminate]).
  rewrite !L in E by (repeat apply N; discriminate). discriminate.
Qed.

(** A checkpoint can be read back as it was saved, and a crash at any
    instant of saving leaves under its path the checkpoint that was there before
    or the whole new one. *)
Lemma checkpoint_atomic c id vectors fs path fs' :
  save_vector_checkpoint c id vectors fs = (Ok path, fs') →
  load_vector_checkpoint c id fs' = Ok vectors ∧
  ∃ steps, save_steps c id vectors fs = Ok steps ∧
  ∀ fs1, fs1 ∈ steps →
    load_vector_checkpoint c id fs1 = load_vector_checkpoint c id fs
    ∨ load_vector_checkpoint c id fs1 = Ok vectors.
Proof.
  unfold save_vector_checkpoint. destruct (save_steps c id vectors fs) as [steps|] eqn:E; [|done].
  unfold save_steps in E. apply bind_ok in E as (data & Hd & [= <-]). intros [= <- <-]. simpl.
  assert (∀ fs0 : files, fs0 !! exported_path c id = Some data →
    load_vector_checkpoint c id fs0 = Ok vectors) as Hload.
  { intros fs0 Hf. unfold load_vector_checkpoint. rewrite Hf. unfold checkpoint_data in Hd.
    apply bind_ok in Hd as (raw & Hraw & Hd). apply bincode_roundtrip in Hraw.
    unfold compress_data in Hd. by destruct (compress c); injection Hd as <-. }
  split; [apply Hload, lookup_insert_eq|]. eexists. split; [done|].
  intros fs1 [->|[->|[->|[]%elem_of_nil]%elem_of_cons]%elem_of_cons]%elem_of_cons.
  - by left.
  - left. unfold load_vector_checkpoint. by rewrite lookup_insert_ne by apply temp_not_exported.
  - right. apply Hload, lookup_insert_eq.
Qed.
End files.

(** ** Waiting for a quiet system *)

Record ResourceAwareScheduler := mkScheduler {
  latency_threshold_ms : Z;
  check_interval_ms : Z;
}.

Definition scheduler_new : ResourceAwareScheduler := mkScheduler 40 1000.
Definition with_latency_threshold (s : ResourceAwareScheduler) (t : Z) : ResourceAwareScheduler :=
  mkScheduler t (check_interval_ms s).

Definition can_proceed (s : ResourceAwareScheduler) (latency : Z) : bool :=
  latency <? latency_threshold_ms s.

Definition should_pause (s : ResourceAwareScheduler) (latency : Z) : bool :=
  negb (can_proceed s latency).

Definition MAX_ATTEMPTS : nat := 60.

(** [latency n] is the reading at the [n]-th check of the loop; the last is the
    one after it. The result and the attempts made. *)
Fixpoint wait_loop (s : ResourceAwareScheduler) (latency : nat → Z) (fuel attempts : nat) : nat :=
  match fuel with
  | 0%nat => attempts
  | S fuel => if can_proceed s (latency attempts) then attempts
              else wait_loop s latency fuel (S attempts)
  end.

Definition wait_until_safe (s : ResourceAwareScheduler) (latency : nat → Z) (final : Z)
    : bool * nat :=
  let attempts := wait_loop s latency MAX_ATTEMPTS 0 in (can_proceed s final, attempts).

Lemma wait_loop_spec s latency fuel a :
  (a ≤ wait_loop s latency fuel a ≤ a + fuel)%nat ∧
  (∀ n, (a ≤ n < wait_loop s latency fuel a)%nat → can_proceed s (latency n) = false) ∧
  ((wait_loop s latency fuel a < a + fuel)%nat →
   can_proceed s (latency (wait_loop s latency fuel a)) = true).
Proof.
  revert a. induction fuel as [|fuel IH]; intros a; simpl; [split_and!; [lia|lia|intros; lia|lia]|].
  destruct (can_proceed s (latency a)) eqn:E; [split_and!; [lia|lia|intros; lia|done]|].
  destruct (IH (S a)) as (H1 & H2 & H3). split_and!; [lia|lia| |intros; apply H3; lia].
  intros n Hn. destruct (decide (n = a)) as [->|]; [done|]. apply H2. lia.
Qed.

(** The wait ends: it makes at most sixty attempts, it stops at the first
    reading under the threshold, and a system that is quiet within that time is
    found quiet. *)
Lemma wait_ends s latency final n :
  (n < MAX_ATTEMPTS)%nat → can_proceed s (latency n) = true →
  ((wait_until_safe s latency final).2 ≤ n)%nat ∧
  can_proceed s (latency (wait_until_safe s latency final).2) = true.
Proof.
  intros Hn Hp. unfold wait_until_safe. simpl.
  destruct (wait_loop_spec s latency MAX_ATTEMPTS 0) as (H1 & H2 & H3).
  assert (wait_loop s latency MAX_ATTEMPTS 0 ≤ n)%nat as Hle.
  { destruct (le_gt_dec (wait_loop s latency MAX_ATTEMPTS 0) n); [done|].
    rewrite (H2 n) in Hp; [done|lia]. }
  split; [done|]. apply H3. lia.
Qed.

(** A latency that falls by a millisecond per check. *)
Definition falling (n : nat) : Z := 50 - Z.of_nat n.

Lemma wait_ends_witness :
  ((wait_until_safe scheduler_new falling 30).2 ≤ 11)%nat ∧
  can_proceed scheduler_new (falling (wait_until_safe scheduler_new falling 30).2) = true.
Proof.
  apply (wait_ends scheduler_new falling 30 11); [unfold MAX_ATTEMPTS; lia|reflexivity].
Defined.

(** ** A concrete serializer *)

(** Each vector as its id, its length and its values. *)
Fixpoint flat_serialize (vs : exported) : list Z :=
  match vs with
  | [] => []
  | (i, v) :: vs => i :: Zlength v :: v ++ flat_serialize vs
  end.

Fixpoint flat_deserialize (fuel : nat) (data : list Z) : exported :=
  match fuel, data with
  | S fuel, i :: n :: data =>
      (i, take (Z.to_nat n) data) :: flat_deserialize fuel (drop (Z.to_nat n) data)
  | _, _ => []
  end.

Lemma flat_roundtrip vs fuel :
  (length vs ≤ fuel)%nat → flat_deserialize fuel (flat_serialize vs) = vs.
Proof.
  revert fuel. induction vs as [|[i v] vs IH]; intros fuel Hf; simpl in *; [by destruct fuel|].
  destruct fuel as [|fuel]; [lia|]. simpl. rewrite Nat2Z.id, take_app_length, drop_app_length.
  by rewrite IH by lia.
Qed.

Lemma flat_serialize_length vs : (length vs ≤ length (flat_serialize vs))%nat.
Proof. induction vs as [|[i v] vs IH]; simpl; [done|]. rewrite length_app. lia. Qed.

#[global] Program Instance flat_bincode : BincodeVectors := {
  bincode_serialize vs := Ok (flat_serialize vs);
  bincode_deserialize data := Ok (flat_deserialize (length data) data);
}.
Next Obligation.
  intros vs data [= <-]. f_equal. apply flat_roundtrip, flat_serialize_length.
Qed.

Lemma checkpoint_atomic_witness :
  load_vector_checkpoint cp_config_default "op"
    (save_vector_checkpoint cp_config_default "op" [(3, [1; 2]); (4, [])] ∅).2
  = Ok [(3, [1; 2]); (4, [])].
Proof.
  exact (proj1 (checkpoint_atomic cp_config_default "op" [(3, [1; 2]); (4, [])] ∅
    (exported_path cp_config_default "op") _ eq_refl)).
Defined.
