(* ===== verification/Router.v ===== *)
(** * Shard routing

    [crates/coordinator/src/router.rs]: consistent hashing of vector ids onto
    shards, and the choice of the shards a fan-out queries. The ring
    ([BTreeMap<u64, RingEntry>]) is a finite map from hashes to shard indices;
    an [Instant] or a [Duration] is a number of nanoseconds. *)

From S2P Require Import Prelude Sorting Text.

Definition VIRTUAL_NODES_PER_SHARD : Z := 150.
Definition UNHEALTHY_RETRY_AFTER : Z := 30 * 10 ^ 9.

Record ShardInfo := mkShard {
  shard_id : string;
  address : string;
  healthy : bool;
}.

Record ShardRouter := mkRouter {
  shards : list ShardInfo;
  ring : gmap Z nat;
  unhealthy_since : gmap string Z;
  probes_in_flight : gmap string Z;
}.

(** ** The ring *)

(** [x ^= x >> 33]. *)
Definition xor_shift (x : Z) : Z := Z.lxor x (Z.shiftr x 33).

Definition hash_key (key : string) : Z :=
  let hash := fnv_bytes FNV_OFFSET_BASIS key in
  let hash := xor_shift hash in
  let hash := wrapping u64_max (hash * 18397679294719823053) in
  let hash := xor_shift hash in
  let hash := wrapping u64_max (hash * 14181476777654086739) in
  xor_shift hash.

(** The points of one shard on the ring, in insertion order. *)
Definition vnode_key (id : string) (vnode : Z) : string := id +:+ ":" +:+ decimal vnode.

Definition insert_vnode (id : string) (idx : nat) (r : gmap Z nat) (vnode : Z) : gmap Z nat :=
  <[hash_key (vnode_key id vnode) := idx]> r.

Definition insert_shard (r : gmap Z nat) (entry : nat * ShardInfo) : gmap Z nat :=
  foldl (insert_vnode (shard_id entry.2) entry.1) r (seqZ 0 VIRTUAL_NODES_PER_SHARD).

(** [iter().enumerate()], from an index. *)
Fixpoint enumerate {A} (i : nat) (l : list A) : list (nat * A) :=
  match l with
  | [] => []
  | x :: l => (i, x) :: enumerate (S i) l
  end.

Definition build_ring (ss : list ShardInfo) : gmap Z nat := foldl insert_shard ∅ (enumerate 0 ss).

Definition rebuild_ring (r : ShardRouter) : ShardRouter :=
  mkRouter (shards r) (build_ring (shards r)) (unhealthy_since r) (probes_in_flight r).

Definition router_new (ss : list ShardInfo) : ShardRouter :=
  rebuild_ring (mkRouter ss ∅ ∅ ∅).

(** The entries of the [BTreeMap] in key order. *)
Definition ring_cmp (x y : Z * nat) : comparison := x.1 ?= y.1.
Definition ring_entries (r : gmap Z nat) : list (Z * nat) := sort_by ring_cmp (map_to_list r).

(** [ring.range(hash..).next()]. *)
Definition first_from (r : gmap Z nat) (hash : Z) : option (Z * nat) :=
  head (filter (λ e, hash ≤ e.1) (ring_entries r)).

Definition ring_lookup (r : gmap Z nat) (hash : Z) : option nat :=
  match first_from r hash with
  | Some (_, idx) => Some idx
  | None => snd <$> head (ring_entries r)
  end.

(** Indexing [shards[i]] out of range panics; here it is [None]. *)
Definition route (r : ShardRouter) (id : string) : option ShardInfo :=
  if decide (ring r = ∅) then None
  else idx ← ring_lookup (ring r) (hash_key id); shards r !! idx.

(** The groups of [route_batch]: ids with their positions, per shard. *)
Definition route_batch (r : ShardRouter) (ids : list string)
    : gmap string (list (string * nat)) :=
  foldl (λ groups e,
           match route r e.2 with
           | Some shard =>
               <[shard_id shard := default [] (groups !! shard_id shard) ++ [(e.2, e.1)]]> groups
           | None => groups
           end) ∅ (enumerate 0 ids).

(** ** Health *)

Definition healthy_shards (r : ShardRouter) : list ShardInfo :=
  filter (λ s, healthy s = true) (shards r).

Definition get_shard (r : ShardRouter) (id : string) : option ShardInfo :=
  find (λ s, String.eqb (shard_id s) id) (shards r).

(** Is the retry window of an unhealthy shard over, and is a probe of it in
    flight? *)
Definition retry_due (r : ShardRouter) (id : string) (now retry_after : Z) : bool :=
  match unhealthy_since r !! id with
  | Some since => saturating_sub now since >=? retry_after
  | None => true
  end.

Definition claimed (probes : gmap string Z) (id : string) (now retry_after : Z) : bool :=
  match probes !! id with
  | Some at_ => saturating_sub now at_ <? retry_after
  | None => false
  end.

(** One turn of the selection loop: probes, selected, held back. *)
Definition select_step (r : ShardRouter) (now retry_after : Z)
    (acc : gmap string Z * list ShardInfo * list string) (shard : ShardInfo)
    : gmap string Z * list ShardInfo * list string :=
  let '(probes, selected, held_back) := acc in
  if healthy shard then (probes, selected ++ [shard], held_back)
  else if retry_due r (shard_id shard) now retry_after
          && negb (claimed probes (shard_id shard) now retry_after)
  then (<[shard_id shard := now]> probes, selected ++ [shard], held_back)
  else (probes, selected, held_back ++ [shard_id shard]).

Definition fanout_selection (r : ShardRouter) (now retry_after : Z)
    : (list ShardInfo * list string) * ShardRouter :=
  let '(probes, selected, held_back) :=
    foldl (select_step r now retry_after) (probes_in_flight r, [], []) (shards r) in
  let r' := mkRouter (shards r) (ring r) (unhealthy_since r) probes in
  match selected, shards r with
  | [], _ :: _ => ((shards r, []), r')
  | _, _ => ((selected, held_back), r')
  end.

Definition release_probe_claims (r : ShardRouter) (ids : list string) : ShardRouter :=
  mkRouter (shards r) (ring r) (unhealthy_since r)
    (foldl (λ m id, delete id m) (probes_in_flight r) ids).

(** [iter_mut().find(..)]: the first shard with the id. *)
Fixpoint set_healthy (ss : list ShardInfo) (id : string) (h : bool) : list ShardInfo :=
  match ss with
  | [] => []
  | s :: ss =>
      if String.eqb (shard_id s) id then mkShard (shard_id s) (address s) h :: ss
      else s :: set_healthy ss id h
  end.

Definition update_health (r : ShardRouter) (id : string) (h : bool) (now : Z) : ShardRouter :=
  if negb (existsb (λ s, String.eqb (shard_id s) id) (shards r)) then r
  else
    mkRouter (set_healthy (shards r) id h) (ring r)
      (if h then delete id (unhealthy_since r) else <[id := now]> (unhealthy_since r))
      (delete id (probes_in_flight r)).

(** ** Lookups on the ring *)

Lemma xor_shift_u64 x : is_u64 x → is_u64 (xor_shift x).
Proof.
  unfold in_range, u64_max, xor_shift. intros Hx.
  assert (0 ≤ Z.shiftr x 33 ≤ x) as Hs.
  { rewrite Z.shiftr_div_pow2 by lia. split; [apply Z.div_pos; lia|].
    apply Z.div_le_upper_bound; lia. }
  assert (0 ≤ Z.lxor x (Z.shiftr x 33)) as H0 by (apply Z.lxor_nonneg; lia).
  split; [done|]. destruct (Z.eq_dec (Z.lxor x (Z.shiftr x 33)) 0) as [->|Hne]; [lia|].
  assert (Z.lxor x (Z.shiftr x 33) < 2 ^ 64); [|lia].
  apply Z.log2_lt_pow2; [lia|].
  eapply Z.le_lt_trans; [apply Z.log2_lxor; lia|]. rewrite Z.max_l by (apply Z.log2_le_mono; lia).
  destruct (Z.eq_dec x 0) as [->|]; [done|]. apply Z.log2_lt_pow2; lia.
Qed.

Lemma fnv_bytes_u64 h s : is_u64 h → is_u64 (fnv_bytes h s).
Proof.
  unfold fnv_bytes. generalize (byte_of <$> String.list_ascii_of_string s). intros l. revert h.
  induction l as [|b l IH]; intros h Hh; [done|]. apply IH. by apply wrapping_range.
Qed.

Lemma hash_key_u64 key : is_u64 (hash_key key).
Proof. unfold hash_key. apply xor_shift_u64, wrapping_range. done. Qed.

(** The way from [h] clockwise to [k]. *)
Definition dist (h k : Z) : Z := (k - h) mod 2 ^ 64.

Definition ring_wf (r : gmap Z nat) : Prop := ∀ k i, r !! k = Some i → is_u64 k.

(** [k] is the first point of the ring at or after [h], going clockwise. *)
Definition successor (r : gmap Z nat) (h k : Z) : Prop :=
  is_Some (r !! k) ∧ ∀ k', is_Some (r !! k') → dist h k ≤ dist h k'.

Lemma dist_eq h k : is_u64 h → is_u64 k → dist h k = if h <=? k then k - h else k - h + 2 ^ 64.
Proof.
  unfold in_range, u64_max, dist. intros. bool_cases; [by rewrite Z.mod_small by lia|].
  symmetry. apply (Z.mod_unique _ _ (-1)); lia.
Qed.

Lemma successor_unique r h k k' :
  ring_wf r → is_u64 h → successor r h k → successor r h k' → k = k'.
Proof.
  intros Hwf Hh [[i Hi] H1] [[j Hj] H2].
  specialize (H1 k' (mk_is_Some _ _ Hj)). specialize (H2 k (mk_is_Some _ _ Hi)).
  pose proof (Hwf _ _ Hi). pose proof (Hwf _ _ Hj).
  rewrite !dist_eq in * by done. unfold in_range, u64_max in *. bool_cases_in H1; bool_cases_in H2; lia.
Qed.

#[local] Instance ring_cmp_total : TotalCmp ring_cmp.
Proof. apply (TotalCmp_on fst Z.compare), _. Qed.

Lemma ring_entries_sorted r : StronglySorted (λ x y, x.1 ≤ y.1) (ring_entries r).
Proof.
  eapply StronglySorted_mono; [|apply (sort_by_sorted ring_cmp)].
  done.
Qed.

Lemma elem_of_ring_entries r k i : (k, i) ∈ ring_entries r ↔ r !! k = Some i.
Proof. unfold ring_entries. rewrite elem_of_sort_by. apply elem_of_map_to_list. Qed.

Lemma head_sorted_le (l : list (Z * nat)) x :
  StronglySorted (λ x y, x.1 ≤ y.1) l → head l = Some x → ∀ y, y ∈ l → x.1 ≤ y.1.
Proof.
  destruct l as [|z l]; [done|]. intros Hs [= <-] y [->|Hy]%elem_of_cons; [done|].
  inversion_clear Hs as [|?? _ Hall]. rewrite Forall_forall in Hall. by apply Hall.
Qed.

(** The lookup finds the successor. *)
Lemma ring_lookup_spec r h :
  ring_wf r → is_u64 h → r ≠ ∅ →
  ∃ k i, ring_lookup r h = Some i ∧ r !! k = Some i ∧ successor r h k.
Proof.
  intros Hwf Hh Hne. unfold ring_lookup, first_from.
  destruct (head (filter _ _)) as [[k i]|] eqn:E.
  - pose proof (head_sorted_le _ _ (StronglySorted_sublist _ _ _ (sublist_filter _ _)
      (ring_entries_sorted r)) E) as Hmin.
    apply head_Some_elem_of, list_elem_of_filter in E as [Hk Hin%elem_of_ring_entries].
    exists k, i. split_and!; [done..|]. split; [eauto|]. intros k' [j Hj].
    rewrite !dist_eq by eauto. simpl in Hk. rewrite (proj2 (Z.leb_le h k)) by done.
    pose proof (Hwf _ _ Hin). pose proof (Hwf _ _ Hj). unfold in_range, u64_max in *.
    destruct (Z.leb_spec h k'); [|lia].
    specialize (Hmin (k', j)). simpl in Hmin. rewrite list_elem_of_filter, elem_of_ring_entries in Hmin.
    specialize (Hmin (conj H1 Hj)). lia.
  - assert (∀ k j, r !! k = Some j → k < h) as Hlt.
    { intros k j Hj. apply head_None in E. destruct (Z.lt_ge_cases k h); [done|].
      assert ((k, j) ∈ filter (λ e, h ≤ e.1) (ring_entries r)) as Hin
        by (by apply list_elem_of_filter; rewrite elem_of_ring_entries).
      rewrite E in Hin. by apply elem_of_nil in Hin. }
    destruct (head (ring_entries r)) as [[k i]|] eqn:E2.
    2:{ apply head_None in E2. destruct (map_choose r Hne) as (k & j & Hj).
        apply elem_of_ring_entries in Hj. rewrite E2 in Hj. by apply elem_of_nil in Hj. }
    pose proof (head_sorted_le _ _ (ring_entries_sorted r) E2) as Hmin.
    apply head_Some_elem_of, elem_of_ring_entries in E2.
    exists k, i. split_and!; [done..|]. split; [eauto|]. intros k' [j Hj].
    rewrite !dist_eq by eauto. pose proof (Hlt _ _ E2). pose proof (Hlt _ _ Hj).
    rewrite !(proj2 (Z.leb_gt _ _)) by done.
    specialize (Hmin (k', j) (proj2 (elem_of_ring_entries _ _ _) Hj)). simpl in Hmin. lia.
Qed.

Lemma ring_lookup_successor r h k i :
  ring_wf r → is_u64 h → successor r h k → r !! k = Some i → ring_lookup r h = Some i.
Proof.
  intros Hwf Hh Hs Hi. destruct (ring_lookup_spec r h) as (k' & i' & E & Hi' & Hs');
    [done|done|by intros ->|]. rewrite (successor_unique r h k k') in Hi by done. congruence.
Qed.

(** ** Building the ring *)

(** The hashes of the virtual nodes of a shard. *)
Definition points (id : string) : list Z :=
  (λ v, hash_key (vnode_key id v)) <$> seqZ 0 VIRTUAL_NODES_PER_SHARD.

#[local] Arguments insert_shard : simpl never.
#[local] Arguments points : simpl never.
#[local] Arguments hash_key : simpl never.

Lemma insert_shard_lookup r i s k :
  insert_shard r (i, s) !! k = if decide (k ∈ points (shard_id s)) then Some i else r !! k.
Proof.
  unfold insert_shard, points. cbn [fst snd]. generalize (seqZ 0 VIRTUAL_NODES_PER_SHARD). intros vs.
  revert r. induction vs as [|v vs IH]; intros r; [done|]. cbn [foldl fmap list_fmap]. rewrite IH.
  unfold insert_vnode. destruct (decide (k = hash_key (vnode_key (shard_id s) v))) as [->|Hne].
  - rewrite lookup_insert_eq. repeat case_decide; set_solver.
  - rewrite lookup_insert_ne by done. repeat case_decide; set_solver.
Qed.

Lemma enumerate_app {A} i (l l' : list A) :
  enumerate i (l ++ l') = enumerate i l ++ enumerate (i + length l) l'.
Proof.
  revert i. induction l as [|x l IH]; intros i; simpl; [by rewrite Nat.add_0_r|].
  by rewrite IH, Nat.add_succ_comm.
Qed.

Lemma build_ring_snoc ss x :
  build_ring (ss ++ [x]) = insert_shard (build_ring ss) (length ss, x).
Proof. unfold build_ring. by rewrite enumerate_app, foldl_app. Qed.

Lemma points_u64 id k : k ∈ points id → is_u64 k.
Proof. unfold points. intros (v & -> & _)%list_elem_of_fmap. apply hash_key_u64. Qed.

Lemma build_ring_wf ss :
  ring_wf (build_ring ss) ∧ ∀ k i, build_ring ss !! k = Some i → (i < length ss)%nat.
Proof.
  induction ss as [|x ss [IH1 IH2]] using rev_ind.
  { change (build_ring []) with (∅ : gmap Z nat). split; intros k i; by rewrite lookup_empty. }
  rewrite build_ring_snoc, length_app. simpl.
  split; intros k i; rewrite insert_shard_lookup; case_decide as Hk.
  - intros _. by eapply points_u64.
  - apply IH1.
  - intros [= <-]. lia.
  - intros ?%IH2. lia.
Qed.

Lemma build_ring_nonempty ss x : build_ring (ss ++ [x]) ≠ ∅.
Proof.
  rewrite build_ring_snoc. intros E.
  assert (insert_shard (build_ring ss) (length ss, x) !! hash_key (vnode_key (shard_id x) 0)
          = Some (length ss)) as H.
  { rewrite insert_shard_lookup, decide_True; [done|]. unfold points.
    apply list_elem_of_fmap. exists 0. split; [done|]. by apply elem_of_seqZ. }
  by rewrite E, lookup_empty in H.
Qed.

(** C28: consistent hashing: appending a shard to the configuration gives every
    id a shard, and an id either keeps the shard it had or moves to the new one;
    no id moves between old shards. *)
Theorem adding_shard_moves_only_to_it ss x id :
  ∃ s, route (router_new (ss ++ [x])) id = Some s ∧
       (s = x ∨ route (router_new ss) id = Some s).
Proof.
  unfold route, router_new, rebuild_ring. cbn [ring shards].
  rewrite decide_False by apply build_ring_nonempty.
  destruct (build_ring_wf (ss ++ [x])) as [Hwf' Hlt'].
  destruct (build_ring_wf ss) as [Hwf Hlt].
  pose proof (hash_key_u64 id) as Hh. set (h := hash_key id) in *.
  destruct (ring_lookup_spec _ h Hwf' Hh (build_ring_nonempty ss x)) as (k & i & -> & Hk & Hs).
  rewrite build_ring_snoc, insert_shard_lookup in Hk. case_decide as Hin.
  - injection Hk as <-. exists x. split; [|by left]. simpl. apply list_lookup_middle. done.
  - assert (ring_lookup (build_ring ss) h = Some i) as Hl.
    { apply ring_lookup_successor with k; [done..| |done]. split; [eauto|].
      intros k' Hk'. apply Hs. rewrite build_ring_snoc, insert_shard_lookup.
      by case_decide. }
    destruct (lookup_lt_is_Some_2 ss i (Hlt _ _ Hk)) as [s Hsi]. exists s. simpl.
    rewrite lookup_app_l by (by eapply Hlt). split; [done|]. right.
    rewrite decide_False by (intros E; by rewrite E, lookup_empty in Hk).
    by rewrite Hl.
Qed.

(** ** Health and fan-out *)

Inductive router_op :=
| OpHealth (id : string) (h : bool) (now : Z)
| OpFanout (now retry_after : Z)
| OpRelease (ids : list string).

Definition router_exec (r : ShardRouter) (op : router_op) : ShardRouter :=
  match op with
  | OpHealth id h now => update_health r id h now
  | OpFanout now retry_after => (fanout_selection r now retry_after).2
  | OpRelease ids => release_probe_claims r ids
  end.

Lemma set_healthy_ids ss id h : shard_id <$> set_healthy ss id h = shard_id <$> ss.
Proof.
  induction ss as [|s ss IH]; [done|]. cbn [set_healthy]. destruct (String.eqb _ _); [done|].
  by rewrite !fmap_cons, IH.
Qed.

Lemma fanout_frame r now ra :
  let r' := (fanout_selection r now ra).2 in
  ring r' = ring r ∧ shards r' = shards r ∧ unhealthy_since r' = unhealthy_since r.
Proof.
  unfold fanout_selection. destruct (foldl _ _ _) as [[p sel] held].
  by destruct sel; [destruct (shards r)|].
Qed.

(** Health changes, fan-outs and probe releases never change where an id goes. *)
Lemma routing_ignores_health r ops id :
  shard_id <$> route (foldl router_exec r ops) id = shard_id <$> route r id.
Proof.
  assert (∀ r', ring r' = ring r → shard_id <$> shards r' = shard_id <$> shards r →
                shard_id <$> route r' id = shard_id <$> route r id) as Hroute.
  { intros r' E1 E2. unfold route. rewrite E1. case_decide; [done|].
    destruct (ring_lookup (ring r) (hash_key id)) as [i|]; [|done]. simpl.
    by rewrite <-!list_lookup_fmap, E2. }
  assert (∀ r0 op, ring (router_exec r0 op) = ring r0 ∧
            shard_id <$> shards (router_exec r0 op) = shard_id <$> shards r0) as Hstep.
  { intros r0 [i h n|n ra|ids]; simpl; [|by destruct (fanout_frame r0 n ra) as (-> & -> & _)|done].
    unfold update_health. destruct (negb _); simpl; [done|]. split; [done|apply set_healthy_ids]. }
  assert (ring (foldl router_exec r ops) = ring r ∧
          shard_id <$> shards (foldl router_exec r ops) = shard_id <$> shards r) as [??];
    [|by apply Hroute].
  clear Hroute. revert r. induction ops as [|op ops IH]; intros r; [done|]. simpl.
  destruct (IH (router_exec r op)) as [-> ->]. apply Hstep.
Qed.

(** The selection loop: which shards of the list end up where. *)
Definition wants_probe (r : ShardRouter) (probes : gmap string Z) (now ra : Z) (s : ShardInfo)
    : bool := retry_due r (shard_id s) now ra && negb (claimed probes (shard_id s) now ra).

Lemma select_loop_spec r now ra ss probes sel held p' sel' held' :
  foldl (select_step r now ra) (probes, sel, held) ss = (p', sel', held') →
  ∃ sel1 held1,
    sel' = sel ++ sel1 ∧ held' = held ++ held1 ∧
    (shard_id <$> sel1) ++ held1 ≡ₚ shard_id <$> ss ∧
    (∀ s, s ∈ ss → healthy s = true → s ∈ sel1) ∧
    (∀ s, s ∈ sel1 → s ∈ ss ∧ (healthy s = true ∨ retry_due r (shard_id s) now ra = true)).
Proof.
  revert probes sel held. induction ss as [|s ss IH]; intros probes sel held; cbn [foldl].
  { intros [= <- <- <-]. exists [], []. rewrite !app_nil_r.
    split_and!; [done..|by intros s ?%elem_of_nil|by intros s ?%elem_of_nil]. }
  unfold select_step at 2. destruct (healthy s) eqn:Hh;
    [|destruct (retry_due _ _ _ _) eqn:Hd; [destruct (claimed _ _ _ _)|]]; simpl;
    intros (sel1 & held1 & -> & -> & Hp & Hhe & Hin)%IH.
  1,3: exists (s :: sel1), held1; rewrite <-!(assoc_L (++)); split_and!;
    [done|done|simpl; by rewrite Hp|set_solver|set_solver].
  all: exists sel1, (shard_id s :: held1); rewrite <-!(assoc_L (++)); split_and!;
    [done|done|rewrite <-Permutation_middle; simpl; by rewrite Hp| |set_solver].
  all: intros s0 [->|Hs0]%elem_of_cons Hs; [congruence|by apply Hhe].
Qed.

(** A fan-out accounts for every shard: each configured shard is either
    queried or reported as held back, never both; healthy shards are always
    queried; and with any shard configured at least one is queried, so no
    combination of failures turns into an outage of the whole search. *)
Lemma fanout_accounts_for_every_shard r now ra :
  let '((selected, held_back), _) := fanout_selection r now ra in
  (shard_id <$> selected) ++ held_back ≡ₚ shard_id <$> shards r ∧
  (∀ s, s ∈ shards r → healthy s = true → s ∈ selected) ∧
  (∀ s, s ∈ selected → s ∈ shards r) ∧
  (selected = [] ↔ shards r = []).
Proof.
  unfold fanout_selection. destruct (foldl _ _ _) as [[p sel] held] eqn:E.
  apply select_loop_spec in E as (sel1 & held1 & -> & -> & Hp & Hh & Hin). simpl in *.
  destruct sel1 as [|s sel1].
  - destruct (shards r) as [|s ss] eqn:Es; [done|]. rewrite app_nil_r. set_solver.
  - split_and!; [done|done|naive_solver|]. split; [done|]. intros E. rewrite E in Hp.
    by apply Permutation_nil_r in Hp.
Qed.

(** A claim that is still fresh survives the loop and keeps the shard out. *)
Lemma select_loop_claimed r now ra id ss probes sel held p' sel' held' :
  claimed probes id now ra = true →
  foldl (select_step r now ra) (probes, sel, held) ss = (p', sel', held') →
  p' !! id = probes !! id ∧
  ∀ s, s ∈ sel' → s ∈ sel ∨ healthy s = true ∨ shard_id s ≠ id.
Proof.
  revert probes sel held. induction ss as [|s ss IH]; intros probes sel held Hc; cbn [foldl].
  { intros [= <- <- <-]. auto. }
  unfold select_step at 2. destruct (healthy s) eqn:Hh.
  { intros [-> Hin]%IH; [|done]. split; [done|]. intros s0 [Hx|?]%Hin; [|by right].
    apply elem_of_app in Hx as [?| ->%list_elem_of_singleton]; auto. }
  destruct (_ && negb _) eqn:Hw; [|by intros [-> Hin]%IH].
  assert (shard_id s ≠ id) as Hne.
  { intros Hid. by rewrite Hid, Hc, andb_false_r in Hw. }
  assert (<[shard_id s := now]> probes !! id = probes !! id) as El
    by (by rewrite lookup_insert_ne).
  intros [E Hin]%IH; [|unfold claimed in *; by rewrite El]. rewrite E, El. split; [done|].
  intros s0 [Hx|?]%Hin; [|by right].
  apply elem_of_app in Hx as [?| ->%list_elem_of_singleton]; auto.
Qed.

(** A shard that is due and unclaimed is claimed by the loop. *)
Lemma select_loop_claims r now ra s ss probes sel held p' sel' held' :
  0 < ra → s ∈ ss → healthy s = false → retry_due r (shard_id s) now ra = true →
  claimed probes (shard_id s) now ra = false →
  foldl (select_step r now ra) (probes, sel, held) ss = (p', sel', held') →
  p' !! shard_id s = Some now.
Proof.
  intros Hra Hin Hh Hd. revert probes sel held.
  induction ss as [|s0 ss IH]; intros probes sel held Hc; cbn [foldl]; [by apply elem_of_nil in Hin|].
  unfold select_step at 2. destruct (decide (shard_id s0 = shard_id s ∧ healthy s0 = false))
    as [[Ei Hh0]|Hne].
  - rewrite Hh0, Ei, Hd, Hc. simpl. intros [-> _]%(select_loop_claimed r now ra (shard_id s)).
    + by rewrite lookup_insert_eq.
    + unfold claimed. rewrite lookup_insert_eq. apply Z.ltb_lt. unfold saturating_sub. lia.
  - assert (s ∈ ss) as Hin' by (apply elem_of_cons in Hin as [->|?]; naive_solver).
    destruct (healthy s0) eqn:Hh0; [by apply IH|].
    destruct (_ && negb _); apply IH; try done.
    unfold claimed in *. rewrite lookup_insert_ne; [done|]. naive_solver.
Qed.

(** One probe at a time: when a fan-out at [now] finds an unhealthy shard
    due for a retry and unclaimed, no fan-out in the retry window that follows
    queries the shard again, unless the probe has been released in between or
    every shard is being probed because none could be selected. *)
Lemma probe_exclusive r now now' ra s :
  s ∈ shards r → healthy s = false → retry_due r (shard_id s) now ra = true →
  claimed (probes_in_flight r) (shard_id s) now ra = false → now ≤ now' < now + ra →
  let r1 := (fanout_selection r now ra).2 in
  let selected := (fanout_selection r1 now' ra).1.1 in
  s ∉ selected ∨ selected = shards r.
Proof.
  intros Hin Hh Hd Hc Hnow r1 selected.
  destruct (fanout_frame r now ra) as (_ & Hss & _). fold r1 in Hss.
  assert (probes_in_flight r1 !! shard_id s = Some now) as Hclaim.
  { subst r1. unfold fanout_selection.
    destruct (foldl _ _ (shards r)) as [[p sel] held] eqn:E.
    apply (select_loop_claims r now ra s) in E; [|lia|done..].
    by destruct sel; [destruct (shards r)|]. }
  subst selected. unfold fanout_selection. rewrite Hss.
  destruct (foldl _ _ (shards r)) as [[p sel] held] eqn:E.
  assert (∀ s0, s0 ∈ sel → s0 ∈ [] ∨ healthy s0 = true ∨ shard_id s0 ≠ shard_id s) as Hsel.
  { apply (select_loop_claimed r1 now' ra (shard_id s)) in E as [_ E]; [done|].
    unfold claimed. rewrite Hclaim. apply Z.ltb_lt. unfold saturating_sub. lia. }
  destruct sel as [|s1 sel]; [destruct (shards r); simpl; auto; left; apply not_elem_of_nil|].
  left. simpl. intros [?%elem_of_nil|[?|?]]%Hsel; congruence.
Qed.

Definition demo_router : ShardRouter :=
  mkRouter [mkShard "a" "h1" true; mkShard "b" "h2" false] ∅ {["b" := 0]} ∅.

Lemma probe_exclusive_witness :
  mkShard "b" "h2" false ∉
    (fanout_selection (fanout_selection demo_router 50 30).2 60 30).1.1.
Proof.
  destruct (probe_exclusive demo_router 50 60 30 (mkShard "b" "h2" false)) as [H|H].
  - vm_compute. right. left.
  - done.
  - vm_compute. reflexivity.
  - vm_compute. reflexivity.
  - lia.
  - exact H.
  - exfalso. revert H. vm_compute. discriminate.
Defined.
