(* ===== verification/Consistency.v ===== *)
(** * Read-your-writes tracking

    [crates/coordinator/src/consistency.rs]: recent writes by vector id, with a
    time-to-live and a bound on the number of entries. The [DashMap] is a finite
    map; an operation's clock readings are arguments, one per entry where the
    code reads the clock inside a loop. *)

From S2P Require Import Prelude Sorting.

Record WriteEntry := mkWrite {
  w_shard_id : string;
  written_at : Z;
  sequence : Z;
  confirmed : bool;
}.

Record ConsistencyConfig := mkConsistency {
  write_ttl : Z;
  cleanup_interval : Z;
  max_entries : Z;
}.

(** In nanoseconds. *)
Definition consistency_config_default : ConsistencyConfig :=
  mkConsistency (5 * 10 ^ 9) (10 * 10 ^ 9) 100000.

Record ConsistencyTracker := mkTracker {
  writes : gmap string WriteEntry;
  next_sequence : Z;
  config : ConsistencyConfig;
  last_cleanup : Z;
}.

Definition with_config (c : ConsistencyConfig) (now : Z) : ConsistencyTracker :=
  mkTracker ∅ 0 c now.

Definition tracker_new (now : Z) : ConsistencyTracker := with_config consistency_config_default now.

Definition set_writes (t : ConsistencyTracker) (w : gmap string WriteEntry) : ConsistencyTracker :=
  mkTracker w (next_sequence t) (config t) (last_cleanup t).

(** Is the entry within its time-to-live at [now]? *)
Definition fresh (t : ConsistencyTracker) (now : Z) (e : WriteEntry) : bool :=
  saturating_sub now (written_at e) <=? write_ttl (config t).

(** [retain] with a clock reading per entry. *)
Definition retain_fresh (t : ConsistencyTracker) (clock : string → Z) : gmap string WriteEntry :=
  filter (λ kv : string * WriteEntry, fresh t (clock kv.1) kv.2 = true) (writes t).

Definition seq_cmp (a b : string * Z) : comparison := a.2 ?= b.2.

(** Removes an entry unless it has been rewritten since it was listed. *)
Definition remove_if_seq (w : gmap string WriteEntry) (e : string * Z) : gmap string WriteEntry :=
  match w !! e.1 with
  | Some entry => if sequence entry =? e.2 then delete e.1 w else w
  | None => w
  end.

Definition evict_oldest (w : gmap string WriteEntry) (max_entries : Z)
    : gmap string WriteEntry :=
  let current_len := Z.of_nat (size w) in
  if current_len >? max_entries then
    let entries := sort_by seq_cmp ((λ kv, (kv.1, sequence kv.2)) <$> map_to_list w) in
    let to_remove := saturating_sub current_len max_entries in
    foldl remove_if_seq w (take (Z.to_nat to_remove) entries)
  else w.

(** [now1] is read for the elapsed time, [now2] becomes the last cleanup. *)
Definition maybe_cleanup (t : ConsistencyTracker) (now1 now2 : Z) (clock : string → Z)
    : ConsistencyTracker :=
  if saturating_sub now1 (last_cleanup t) <? cleanup_interval (config t) then t
  else
    let t := mkTracker (writes t) (next_sequence t) (config t) now2 in
    set_writes t (evict_oldest (retain_fresh t clock) (max_entries (config t))).

Definition record_write (t : ConsistencyTracker) (vector_id shard : string) (now now1 now2 : Z)
    (clock : string → Z) : Z * ConsistencyTracker :=
  let seq := next_sequence t in
  let entry := mkWrite shard now seq false in
  let t := mkTracker (<[vector_id := entry]> (writes t)) (wrapping u64_max (seq + 1))
             (config t) (last_cleanup t) in
  (seq, maybe_cleanup t now1 now2 clock).

Definition confirm_write (t : ConsistencyTracker) (vector_id : string) : ConsistencyTracker :=
  match writes t !! vector_id with
  | Some e =>
      set_writes t (<[vector_id := mkWrite (w_shard_id e) (written_at e) (sequence e) true]>
                      (writes t))
  | None => t
  end.

Definition record_delete (t : ConsistencyTracker) (vector_id : string) : ConsistencyTracker :=
  set_writes t (delete vector_id (writes t)).

Definition get_recent_write (t : ConsistencyTracker) (vector_id : string) (now : Z)
    : option WriteEntry :=
  entry ← writes t !! vector_id;
  let age := saturating_sub now (written_at entry) in
  if age <=? write_ttl (config t) then Some entry else None.

Definition was_recently_written (t : ConsistencyTracker) (vector_id : string) (now : Z) : bool :=
  bool_decide (is_Some (get_recent_write t vector_id now)).

Definition get_recent_writes_for_shard (t : ConsistencyTracker) (shard : string) (now : Z)
    : list string :=
  fst <$> filter (λ kv : string * WriteEntry,
                    String.eqb (w_shard_id kv.2) shard && fresh t now kv.2 = true)
            (map_to_list (writes t)).

Record ConsistencyStats := mkStats {
  total_tracked : Z;
  active_writes : Z;
  confirmed_writes : Z;
  current_sequence : Z;
}.

Definition stats (t : ConsistencyTracker) (now : Z) : ConsistencyStats :=
  let l := map_to_list (writes t) in
  mkStats (Zlength l)
    (Zlength (filter (λ kv : string * WriteEntry, fresh t now kv.2 = true) l))
    (Zlength (filter (λ kv : string * WriteEntry, confirmed kv.2 && fresh t now kv.2 = true) l))
    (next_sequence t).

Definition cleanup (t : ConsistencyTracker) (clock : string → Z) : ConsistencyTracker :=
  set_writes t (retain_fresh t clock).

(** ** Runs of the tracker *)

Inductive tracker_op :=
| OpWrite (vector_id shard : string) (now now1 now2 : Z) (clock : string → Z)
| OpConfirm (vector_id : string)
| OpForget (vector_id : string)
| OpCleanup (clock : string → Z).

Definition tracker_exec (t : ConsistencyTracker) (op : tracker_op) : ConsistencyTracker :=
  match op with
  | OpWrite v s now now1 now2 clock => (record_write t v s now now1 now2 clock).2
  | OpConfirm v => confirm_write t v
  | OpForget v => record_delete t v
  | OpCleanup clock => cleanup t clock
  end.

(** [op] neither rewrites nor deletes [v], and reads no clock later than [now]. *)
Definition leaves (v : string) (now : Z) (op : tracker_op) : Prop :=
  match op with
  | OpWrite v' _ _ _ _ clock => v' ≠ v ∧ ∀ k, clock k ≤ now
  | OpConfirm _ => True
  | OpForget v' => v' ≠ v
  | OpCleanup clock => ∀ k, clock k ≤ now
  end.

Definition is_write (op : tracker_op) : Prop :=
  match op with OpWrite _ _ _ _ _ _ => True | _ => False end.

#[global] Instance is_write_dec op : Decision (is_write op).
Proof. destruct op; apply _. Defined.

Definition writes_in (ops : list tracker_op) : Z := Zlength (filter is_write ops).

(** What the tracker still knows of a write: all but the confirmation. *)
Definition tracks (t : ConsistencyTracker) (v shard : string) (at_ seq : Z) : Prop :=
  ∃ e, writes t !! v = Some e ∧ w_shard_id e = shard ∧ written_at e = at_ ∧ sequence e = seq.

Lemma evict_noop w m : Z.of_nat (size w) ≤ m → evict_oldest w m = w.
Proof. intros. unfold evict_oldest. rewrite Z.gtb_ltb. by rewrite (proj2 (Z.ltb_ge _ _)). Qed.

Lemma retain_tracks t v shard at_ seq clock :
  tracks t v shard at_ seq → clock v - at_ ≤ write_ttl (config t) → 0 ≤ write_ttl (config t) →
  ∃ e, retain_fresh t clock !! v = Some e ∧ writes t !! v = Some e.
Proof.
  intros (e & He & _ & <- & _) Hc Ht. exists e. split; [|done].
  apply map_lookup_filter_Some. split; [done|]. simpl. unfold fresh, saturating_sub.
  apply Z.leb_le. lia.
Qed.

Lemma retain_size t clock : (size (retain_fresh t clock) ≤ size (writes t))%nat.
Proof. apply map_subseteq_size, map_filter_subseteq. Qed.

(** A cleanup that finds no more than the maximum keeps every fresh write. *)
Lemma maybe_cleanup_tracks t v shard at_ seq now1 now2 clock :
  tracks t v shard at_ seq → clock v - at_ ≤ write_ttl (config t) → 0 ≤ write_ttl (config t) →
  Z.of_nat (size (writes t)) ≤ max_entries (config t) →
  let t' := maybe_cleanup t now1 now2 clock in
  tracks t' v shard at_ seq ∧ (size (writes t') ≤ size (writes t))%nat ∧ config t' = config t.
Proof.
  intros Ht Hc Httl Hsize. unfold maybe_cleanup. destruct (_ <? _); [done|]. simpl.
  set (t1 := mkTracker _ _ _ _). pose proof (retain_size t1 clock) as Hr. simpl in Hr.
  rewrite evict_noop by lia. split_and!; [|done|done].
  destruct (retain_tracks t1 v shard at_ seq clock Ht Hc Httl) as (e & He & Hw).
  destruct Ht as (e' & He' & ?). exists e. split; [done|]. simpl in Hw. naive_solver congruence.
Qed.

Lemma tracker_step t v shard at_ seq now op :
  tracks t v shard at_ seq → leaves v now op → now - at_ ≤ write_ttl (config t) →
  0 ≤ write_ttl (config t) →
  Z.of_nat (size (writes t)) + writes_in [op] ≤ max_entries (config t) →
  let t' := tracker_exec t op in
  tracks t' v shard at_ seq ∧ config t' = config t ∧
  Z.of_nat (size (writes t')) ≤ Z.of_nat (size (writes t)) + writes_in [op].
Proof.
  intros Ht Hop Hnow Httl. pose proof Ht as (e & He & Hsh & Hat & Hsq).
  destruct op as [v' s' n n1 n2 clock|v'|v'|clock]; simpl in Hop;
    cbn [tracker_exec record_write snd].
  - destruct Hop as [Hne Hcl]. specialize (Hcl v). change (writes_in [_]) with 1.
    set (t1 := mkTracker _ _ _ _). intros Hsize.
    assert (size (writes t1) ≤ S (size (writes t)))%nat as Hs1.
    { subst t1. simpl. rewrite map_size_insert. destruct (writes t !! v'); unfold id; lia. }
    destruct (maybe_cleanup_tracks t1 v shard at_ seq n1 n2 clock) as (H1 & H2 & H3);
      [by exists e; simpl; rewrite lookup_insert_ne|simpl; lia|done|simpl in *; lia|].
    split_and!; [done|done|lia].
  - intros _. unfold confirm_write. destruct (writes t !! v') as [e'|] eqn:E'; [|split_and!; [done..|change (writes_in [_]) with 0; lia]].
    change (writes_in [_]) with 0. simpl. split_and!; [|done|rewrite map_size_insert, E'; unfold id; lia].
    destruct (decide (v' = v)) as [->|]; [|exists e; simpl; by rewrite lookup_insert_ne].
    rewrite E' in He. injection He as ->. eexists. simpl. by rewrite lookup_insert_eq.
  - intros _. change (writes_in [_]) with 0. simpl. split_and!; [exists e; simpl; by rewrite lookup_delete_ne|done|].
    rewrite map_size_delete. destruct (writes t !! v'); unfold id; lia.
  - intros _. change (writes_in [_]) with 0. specialize (Hop v).
    destruct (retain_tracks t v shard at_ seq clock Ht) as (e' & He' & Hw); [lia|done|].
    split_and!; [|done|pose proof (retain_size t clock); simpl; lia].
    exists e'. simpl. naive_solver congruence.
Qed.

Lemma writes_in_cons op ops : writes_in (op :: ops) = writes_in [op] + writes_in ops.
Proof.
  unfold writes_in. change (op :: ops) with ([op] ++ ops). rewrite filter_app, length_app. lia.
Qed.

Lemma tracker_run t v shard at_ seq now ops :
  tracks t v shard at_ seq → Forall (leaves v now) ops → now - at_ ≤ write_ttl (config t) →
  0 ≤ write_ttl (config t) →
  Z.of_nat (size (writes t)) + writes_in ops ≤ max_entries (config t) →
  let t' := foldl tracker_exec t ops in
  tracks t' v shard at_ seq ∧ config t' = config t.
Proof.
  intros Ht Hops Hnow Httl. revert t Ht Hnow Httl.
  induction Hops as [|op ops Hop _ IH]; intros t Ht Hnow Httl Hsize; [done|]. simpl.
  rewrite writes_in_cons in Hsize. assert (0 ≤ writes_in ops) by (unfold writes_in; lia).
  destruct (tracker_step t v shard at_ seq now op) as (H1 & H2 & H3); [done..|lia|].
  destruct (IH (tracker_exec t op)) as [? ->]; rewrite ?H2; try done. lia.
Qed.

(** Read your writes: after a write of [v] to a shard has been recorded, and
    as long as [v] is neither rewritten nor deleted, a lookup within the
    time-to-live returns the shard and the sequence number of that write, through
    any other writes, confirmations and cleanups, provided the tracker is not
    asked to hold more than its maximum number of entries. *)
Lemma read_your_writes t v shard at_ now1 now2 clock ops now :
  at_ ≤ now → now - at_ ≤ write_ttl (config t) → (∀ k, clock k ≤ now) →
  Forall (leaves v now) ops →
  Z.of_nat (size (writes t)) + 1 + writes_in ops ≤ max_entries (config t) →
  let '(seq, t1) := record_write t v shard at_ now1 now2 clock in
  ∃ e, get_recent_write (foldl tracker_exec t1 ops) v now = Some e ∧
       w_shard_id e = shard ∧ sequence e = seq.
Proof.
  intros Hat Hnow Hclock Hops Hsize. cbn [record_write].
  set (t0 := mkTracker _ _ _ _). assert (0 ≤ writes_in ops) by (unfold writes_in; lia).
  assert (size (writes t0) ≤ S (size (writes t)))%nat as Hs0.
  { subst t0. simpl. rewrite map_size_insert. destruct (writes t !! v); unfold id; lia. }
  specialize (Hclock v).
  destruct (maybe_cleanup_tracks t0 v shard at_ (next_sequence t) now1 now2 clock)
    as (H1 & H2 & H3); [by eexists; simpl; rewrite lookup_insert_eq|simpl; lia|simpl; lia|simpl in *; lia|].
  destruct (tracker_run (maybe_cleanup t0 now1 now2 clock) v shard at_ (next_sequence t) now ops)
    as [(e & He & ? & Hw & ?) Hc]; [done|done|rewrite H3; simpl; lia|rewrite H3; simpl; lia
    |rewrite H3; simpl in *; lia|].
  exists e. split; [|done]. unfold get_recent_write. rewrite He. simpl. rewrite Hc, H3. simpl.
  rewrite (proj2 (Z.leb_le _ _)); [done|]. rewrite Hw. unfold saturating_sub. lia.
Qed.

Lemma read_your_writes_witness :
  w_shard_id <$>
    get_recent_write
      (foldl tracker_exec (record_write (tracker_new 0) "v" "s1" 10 11 12 (λ _, 12)).2
         [OpWrite "w" "s2" 20 20 20 (λ _, 20); OpCleanup (λ _, 30); OpConfirm "v"]) "v" 40
  = Some "s1".
Proof.
  destruct (read_your_writes (tracker_new 0) "v" "s1" 10 11 12 (λ _, 12)
    [OpWrite "w" "s2" 20 20 20 (λ _, 20); OpCleanup (λ _, 30); OpConfirm "v"] 40)
    as (e & He & Hs & _).
  - lia.
  - vm_compute. congruence.
  - lia.
  - repeat constructor; simpl; lia || done.
  - vm_compute. congruence.
  - etransitivity; [exact (f_equal (fmap w_shard_id) He)|]. simpl. by rewrite Hs.
Defined.
