(* ===== verification/CircuitBreaker.v ===== *)
(** * The circuit breaker

    [crates/ingestion-orchestrator/src/circuit_breaker.rs], at the granularity of
    its atomic accesses. The shared cells are a [Breaker]; a call is a thread
    whose program counter ([pc]) says which atomic access comes next, and
    [thread_step] performs one access. All accesses are [SeqCst], so a
    concurrent execution is an interleaving of such steps ([run_schedule]), and a
    call that is not disturbed is a run of one thread ([run_alone]). The clock
    (whole seconds since the start) is an argument of the step that reads it. *)

From S2P Require Import Prelude.

Inductive CircuitState := Closed | Open | HalfOpen.

#[global] Instance CircuitState_eq_dec : EqDecision CircuitState.
Proof. solve_decision. Defined.

(** [as u8] and [From<u8>]. *)
Definition to_u8 (s : CircuitState) : Z :=
  match s with Closed => 0 | Open => 1 | HalfOpen => 2 end.

Definition from_u8 (v : Z) : CircuitState :=
  if v =? 0 then Closed else if v =? 1 then Open else if v =? 2 then HalfOpen else Closed.

Record CircuitBreakerConfig := mkBreakerConfig {
  failure_threshold : Z;
  reset_timeout_secs : Z;
  half_open_max_calls : Z;
}.

Definition normalize_config (c : CircuitBreakerConfig) : CircuitBreakerConfig :=
  mkBreakerConfig (Z.max (failure_threshold c) 1) (reset_timeout_secs c)
    (Z.max (half_open_max_calls c) 1).

(** The atomic cells. *)
Record Breaker := mkBreaker {
  cell_state : Z;
  failure_count : Z;
  success_count : Z;
  last_failure_time : Z;
}.

Definition breaker_new : Breaker := mkBreaker (to_u8 Closed) 0 0 0.

Definition state (b : Breaker) : CircuitState := from_u8 (cell_state b).

Definition set_cell_state (b : Breaker) (v : Z) : Breaker :=
  mkBreaker v (failure_count b) (success_count b) (last_failure_time b).
Definition set_failures (b : Breaker) (v : Z) : Breaker :=
  mkBreaker (cell_state b) v (success_count b) (last_failure_time b).
Definition set_successes (b : Breaker) (v : Z) : Breaker :=
  mkBreaker (cell_state b) (failure_count b) v (last_failure_time b).
Definition set_last_failure (b : Breaker) (v : Z) : Breaker :=
  mkBreaker (cell_state b) (failure_count b) (success_count b) v.

(** [state.compare_exchange(from, to)]. *)
Definition cas_state (b : Breaker) (from to : CircuitState) : bool * Breaker :=
  if cell_state b =? to_u8 from then (true, set_cell_state b (to_u8 to)) else (false, b).

Definition cas_success (b : Breaker) (from to : Z) : bool * Breaker :=
  if success_count b =? from then (true, set_successes b to) else (false, b).

(** The next atomic access of a call, or its result. *)
Inductive pc :=
(* allow_request *)
| AllowLoad
| AllowLoadLastFailure
| AllowReadClock (last_failure : Z)
| AllowCasHalfOpen
| AllowStoreSuccess
| AllowLoadSuccess
| AllowCasSuccess (previous : Z)
| Allowed (b : bool)
(* record_success *)
| SuccessLoad
| SuccessStoreFailures
| SuccessLoadSuccess
| SuccessCasClosed
| SuccessStoreFailuresClosed
| SuccessCasOpenClosed
(* record_failure *)
| FailureFetchUpdate
| FailureStoreTime (failures : Z)
| FailureLoad (failures : Z)
| FailureCasOpen (failures : Z)
| FailureCasReopen (failures : Z)
(* reset *)
| ResetStoreState
| ResetStoreFailures
| ResetStoreSuccess
| Returned.

Section breaker.
Context (config : CircuitBreakerConfig).

(** One atomic access of [allow_request]. *)
Definition allow_step (b : Breaker) (p : pc) (now : Z) : Breaker * pc :=
  match p with
  | AllowLoad =>
      match from_u8 (cell_state b) with
      | Closed => (b, Allowed true)
      | Open => (b, AllowLoadLastFailure)
      | HalfOpen => (b, AllowLoadSuccess)
      end
  | AllowLoadLastFailure => (b, AllowReadClock (last_failure_time b))
  | AllowReadClock last_failure =>
      let elapsed := saturating_sub now last_failure in
      if elapsed >=? reset_timeout_secs config then (b, AllowCasHalfOpen)
      else (b, Allowed false)
  | AllowCasHalfOpen =>
      match cas_state b Open HalfOpen with
      | (true, b) => (b, AllowStoreSuccess)
      | (false, b) => (b, AllowLoad)
      end
  | AllowStoreSuccess => (set_successes b 1, Allowed true)
  | AllowLoadSuccess =>
      let previous := success_count b in
      if previous >=? half_open_max_calls config then (b, Allowed false)
      else (b, AllowCasSuccess previous)
  | AllowCasSuccess previous =>
      match cas_success b previous (previous + 1) with
      | (true, b) => (b, Allowed true)
      | (false, b) => (b, AllowLoadSuccess)
      end
  | p => (b, p)
  end.

(** One atomic access of [record_success]. *)
Definition success_step (b : Breaker) (p : pc) : Breaker * pc :=
  match p with
  | SuccessLoad =>
      match from_u8 (cell_state b) with
      | Closed => (b, SuccessStoreFailures)
      | HalfOpen => (b, SuccessLoadSuccess)
      | Open => (b, SuccessCasOpenClosed)
      end
  | SuccessStoreFailures => (set_failures b 0, Returned)
  | SuccessLoadSuccess =>
      if success_count b >=? half_open_max_calls config then (b, SuccessCasClosed)
      else (b, Returned)
  | SuccessCasClosed =>
      match cas_state b HalfOpen Closed with
      | (true, b) => (b, SuccessStoreFailuresClosed)
      | (false, b) => (b, SuccessLoad)
      end
  | SuccessStoreFailuresClosed => (set_failures b 0, Returned)
  | SuccessCasOpenClosed => ((cas_state b Open Closed).2, Returned)
  | p => (b, p)
  end.

(** One atomic access of [record_failure]. *)
Definition failure_step (b : Breaker) (p : pc) (now : Z) : Breaker * pc :=
  match p with
  | FailureFetchUpdate =>
      let previous_failures := failure_count b in
      (set_failures b (saturating_add usize_max previous_failures 1),
       FailureStoreTime (saturating_add usize_max previous_failures 1))
  | FailureStoreTime failures => (set_last_failure b now, FailureLoad failures)
  | FailureLoad failures =>
      match from_u8 (cell_state b) with
      | Closed =>
          if failures >=? failure_threshold config then (b, FailureCasOpen failures)
          else (b, Returned)
      | HalfOpen => (b, FailureCasReopen failures)
      | Open => (b, Returned)
      end
  | FailureCasOpen failures => ((cas_state b Closed Open).2, Returned)
  | FailureCasReopen failures =>
      match cas_state b HalfOpen Open with
      | (true, b) => (b, Returned)
      | (false, b) => (b, FailureLoad failures)
      end
  | p => (b, p)
  end.

(** One atomic access of [reset]. *)
Definition reset_step (b : Breaker) (p : pc) : Breaker * pc :=
  match p with
  | ResetStoreState => (set_cell_state b (to_u8 Closed), ResetStoreFailures)
  | ResetStoreFailures => (set_failures b 0, ResetStoreSuccess)
  | ResetStoreSuccess => (set_successes b 0, Returned)
  | p => (b, p)
  end.

Definition thread_step (b : Breaker) (p : pc) (now : Z) : Breaker * pc :=
  match p with
  | AllowLoad | AllowLoadLastFailure | AllowReadClock _ | AllowCasHalfOpen | AllowStoreSuccess
  | AllowLoadSuccess | AllowCasSuccess _ => allow_step b p now
  | SuccessLoad | SuccessStoreFailures | SuccessLoadSuccess | SuccessCasClosed
  | SuccessStoreFailuresClosed | SuccessCasOpenClosed => success_step b p
  | FailureFetchUpdate | FailureStoreTime _ | FailureLoad _ | FailureCasOpen _
  | FailureCasReopen _ => failure_step b p now
  | ResetStoreState | ResetStoreFailures | ResetStoreSuccess => reset_step b p
  | Allowed _ | Returned => (b, p)
  end.

Definition finished (p : pc) : bool :=
  match p with Allowed _ | Returned => true | _ => false end.

(** ** Calls that are not disturbed *)

Fixpoint run_alone (fuel : nat) (b : Breaker) (p : pc) (now : Z) : option (Breaker * pc) :=
  if finished p then Some (b, p)
  else match fuel with
       | O => None
       | S fuel => let '(b, p) := thread_step b p now in run_alone fuel b p now
       end.

(** Six accesses are enough for any call that is not disturbed. *)
Definition call (b : Breaker) (p : pc) (now : Z) : option (Breaker * pc) := run_alone 6 b p now.

(** ** Interleavings *)

(** A schedule names, for each step, the thread that moves and the time. *)
Definition sched_step (st : Breaker * list pc) (s : nat * Z) : Breaker * list pc :=
  match st.2 !! s.1 with
  | Some p => let '(b, p) := thread_step st.1 p s.2 in (b, <[s.1 := p]> st.2)
  | None => st
  end.

Definition run_schedule (st : Breaker * list pc) (schedule : list (nat * Z)) : Breaker * list pc :=
  foldl sched_step st schedule.

(** The number of calls of [allow_request] that returned true. *)
Definition admitted (ps : list pc) : Z :=
  Zlength (List.filter (λ p, match p with Allowed true => true | _ => false end) ps).

(** ** The Python parser's use of the breaker

    The breaker part of [parse_document] in [pipeline.rs]: a document that needs
    the Python parser is rejected while the circuit is open, then asks
    [allow_request], then reports the outcome. [parser_ok] is what the parser
    would answer; [now1] and [now2] are the times of the two calls. *)

Inductive parse_result := CircuitBreakerOpen | Parsed | ParseError.

Definition parse_python (b : Breaker) (parser_ok : bool) (now1 now2 : Z)
    : option (Breaker * parse_result) :=
  if decide (state b = Open) then Some (b, CircuitBreakerOpen)
  else
    '(b, p) ← call b AllowLoad now1;
    match p with
    | Allowed true =>
        if parser_ok then '(b, _) ← call b SuccessLoad now2; Some (b, Parsed)
        else '(b, _) ← call b FailureFetchUpdate now2; Some (b, ParseError)
    | _ => Some (b, CircuitBreakerOpen)
    end.

(** ** Calls that do not overlap

    What a whole call does when no other is under way, on a mode with its own
    data and the number of failures. *)

Inductive mode :=
| MClosed
| MOpen
| MHalfOpen (admitted : Z).

Record contract := mkContract {
  c_mode : mode;
  c_failures : Z;
  c_last_failure : Z;
}.

Definition contract_allow (c : contract) (now : Z) : contract * bool :=
  match c_mode c with
  | MClosed => (c, true)
  | MOpen =>
      if saturating_sub now (c_last_failure c) >=? reset_timeout_secs config
      then (mkContract (MHalfOpen 1) (c_failures c) (c_last_failure c), true)
      else (c, false)
  | MHalfOpen n =>
      if n >=? half_open_max_calls config then (c, false)
      else (mkContract (MHalfOpen (n + 1)) (c_failures c) (c_last_failure c), true)
  end.

(** In the half-open mode one success closes the circuit as soon as all its test
    calls are admitted, whatever becomes of the others: the comments in the source
    promise to count the successful ones. *)
Definition contract_success (c : contract) : contract :=
  match c_mode c with
  | MClosed => mkContract MClosed 0 (c_last_failure c)
  | MOpen => mkContract MClosed (c_failures c) (c_last_failure c)
  | MHalfOpen n =>
      if n >=? half_open_max_calls config then mkContract MClosed 0 (c_last_failure c) else c
  end.

Definition contract_failure (c : contract) (now : Z) : contract :=
  let failures := saturating_add usize_max (c_failures c) 1 in
  let m := match c_mode c with
           | MClosed => if failures >=? failure_threshold config then MOpen else MClosed
           | MOpen | MHalfOpen _ => MOpen
           end in
  mkContract m failures now.

(** The cells implement a contract state. *)
Definition implements (b : Breaker) (c : contract) : Prop :=
  failure_count b = c_failures c ∧ last_failure_time b = c_last_failure c ∧
  match c_mode c with
  | MClosed => cell_state b = to_u8 Closed
  | MOpen => cell_state b = to_u8 Open
  | MHalfOpen n => cell_state b = to_u8 HalfOpen ∧ success_count b = n
  end.

Ltac breaker_unfold :=
  unfold call; simpl; unfold cas_state, cas_success; simpl.

Lemma call_allow b c now :
  implements b c →
  ∃ b', call b AllowLoad now = Some (b', Allowed (contract_allow c now).2) ∧
        implements b' (contract_allow c now).1.
Proof.
  destruct b as [st f su l], c as [m cf cl]. intros (Hf & Hl & Hm). simpl in *. subst cf cl.
  unfold contract_allow, implements. simpl.
  destruct m as [| |n]; simpl in Hm; [subst st|subst st|destruct Hm as [-> <-]]; breaker_unfold.
  - by eexists.
  - destruct (_ >=? reset_timeout_secs config); simpl; unfold cas_state; simpl; by eexists.
  - destruct (su >=? half_open_max_calls config); simpl; unfold cas_success; simpl;
      rewrite ?Z.eqb_refl; by eexists.
Qed.

Lemma call_success b c now :
  implements b c →
  ∃ b', call b SuccessLoad now = Some (b', Returned) ∧ implements b' (contract_success c).
Proof.
  destruct b as [st f su l], c as [m cf cl]. intros (Hf & Hl & Hm). simpl in *. subst cf cl.
  unfold contract_success, implements. simpl.
  destruct m as [| |n]; simpl in Hm; [subst st|subst st|destruct Hm as [-> <-]]; breaker_unfold;
    [by eexists..|].
  destruct (su >=? half_open_max_calls config); simpl; unfold cas_state; simpl; by eexists.
Qed.

Lemma call_failure b c now :
  implements b c →
  ∃ b', call b FailureFetchUpdate now = Some (b', Returned) ∧
        implements b' (contract_failure c now).
Proof.
  destruct b as [st f su l], c as [m cf cl]. intros (Hf & Hl & Hm). simpl in *. subst cf cl.
  unfold contract_failure, implements. simpl.
  destruct m as [| |n]; simpl in Hm; [subst st|subst st|destruct Hm as [-> <-]]; breaker_unfold;
    [|by eexists..].
  destruct (_ >=? failure_threshold config); simpl; unfold cas_state; simpl; by eexists.
Qed.

(** A call that is not disturbed finishes within six atomic accesses and
    does to the mode what its steps add up to, for each of [allow_request],
    [record_success], [record_failure] and [reset], from every state. *)
Lemma calls_refine_contract b c now :
  implements b c →
  (∃ b', call b AllowLoad now = Some (b', Allowed (contract_allow c now).2) ∧
         implements b' (contract_allow c now).1) ∧
  (∃ b', call b SuccessLoad now = Some (b', Returned) ∧ implements b' (contract_success c)) ∧
  (∃ b', call b FailureFetchUpdate now = Some (b', Returned) ∧
         implements b' (contract_failure c now)) ∧
  (∃ b', call b ResetStoreState now = Some (b', Returned) ∧
         implements b' (mkContract MClosed 0 (c_last_failure c))).
Proof.
  intros Hc. split_and!; [by apply call_allow|by apply call_success|by apply call_failure|].
  destruct Hc as (_ & Hl & _). eexists. split; [reflexivity|]. by split_and!.
Qed.

(** ** Tripping *)

(** Undisturbed calls, one after the other. *)
Fixpoint calls (b : Breaker) (l : list (pc * Z)) : option (Breaker * list pc) :=
  match l with
  | [] => Some (b, [])
  | (p, now) :: l =>
      '(b, r) ← call b p now; '(b, rs) ← calls b l; Some (b, r :: rs)
  end.

Lemma calls_failures ts b c :
  implements b c →
  ∃ b', calls b ((FailureFetchUpdate,.) <$> ts) = Some (b', replicate (length ts) Returned) ∧
        implements b' (foldl contract_failure c ts).
Proof.
  revert b c. induction ts as [|t ts IH]; intros b c Hc; [by exists b|].
  rewrite fmap_cons. cbn [calls]. destruct (call_failure b c t Hc) as (b1 & -> & H1).
  destruct (IH b1 _ H1) as (b2 & E & H2). exists b2. cbn [mbind option_bind]. by rewrite E.
Qed.

(** Failures in a row, from a closed circuit. *)
Lemma contract_failures f l ts t :
  0 ≤ f ≤ usize_max → f < failure_threshold config → failure_threshold config ≤ usize_max →
  let n := f + Zlength ts + 1 in
  foldl contract_failure (mkContract MClosed f l) (ts ++ [t])
  = mkContract (if n >=? failure_threshold config then MOpen else MClosed) (Z.min n usize_max) t.
Proof.
  intros Hf Hlt Hmax n. subst n.
  assert (∀ ts, foldl contract_failure (mkContract MClosed f l) ts
    = mkContract (if f + Zlength ts >=? failure_threshold config then MOpen else MClosed)
        (Z.min (f + Zlength ts) usize_max) (default l (last ts))) as H.
  { clear ts. intros ts. induction ts as [|x ts IH] using rev_ind.
    { simpl. rewrite Z.geb_leb, (proj2 (Z.leb_gt _ _)) by lia. f_equal. lia. }
    rewrite foldl_app, IH, length_app, last_snoc. simpl. unfold contract_failure. simpl.
    unfold saturating_add. rewrite !Z.geb_leb. unfold usize_max, u64_max in *.
    f_equal; [|lia]. bool_cases; try done; simpl; rewrite ?Z.geb_leb; bool_cases; done || lia. }
  rewrite H, last_snoc, length_app. simpl.
  replace (f + Z.of_nat (length ts + 1)) with (f + Zlength ts + 1) by lia. done.
Qed.

Lemma open_rejects b c asks :
  implements b c → c_mode c = MOpen →
  Forall (λ now, saturating_sub now (c_last_failure c) < reset_timeout_secs config) asks →
  ∃ b', calls b ((AllowLoad,.) <$> asks) = Some (b', replicate (length asks) (Allowed false)) ∧
        implements b' c.
Proof.
  intros Hc Hm Hasks. revert b Hc. induction Hasks as [|now asks Hnow _ IH]; intros b Hc.
  { by exists b. }
  rewrite fmap_cons. cbn [calls]. destruct (call_allow b c now Hc) as (b1 & -> & H1).
  unfold contract_allow in *. rewrite Hm, Z.geb_leb, (proj2 (Z.leb_gt _ _)) in * by done.
  destruct (IH b1 H1) as (b2 & E & H2). exists b2. cbn [mbind option_bind]. by rewrite E.
Qed.

(** C34: the breaker trips after the configured number of failures in a row and
    protects the parser: a fresh breaker is open after [n] failures exactly when
    [n] reaches the threshold; then every request in the reset timeout after the
    last failure is rejected, and the first one after it is let through as a
    half-open test. *)
Theorem trips_and_rejects (ts : list Z) t asks late :
  1 ≤ failure_threshold config ≤ usize_max →
  Forall (λ now, saturating_sub now t < reset_timeout_secs config) asks →
  reset_timeout_secs config ≤ saturating_sub late t →
  ∃ b rs, calls breaker_new ((FailureFetchUpdate,.) <$> ts ++ [t]) = Some (b, rs) ∧
    (state b = Open ↔ failure_threshold config ≤ Zlength ts + 1) ∧
    (state b = Open →
     ∃ b1, calls b ((AllowLoad,.) <$> asks) = Some (b1, replicate (length asks) (Allowed false)) ∧
     ∃ b2, call b1 AllowLoad late = Some (b2, Allowed true) ∧ state b2 = HalfOpen).
Proof.
  intros Hth Hasks Hlate.
  destruct (calls_failures (ts ++ [t]) breaker_new (mkContract MClosed 0 0)) as (b & E & Hb); [done|].
  eexists b, _. split; [exact E|].
  rewrite contract_failures in Hb by (unfold usize_max, u64_max in *; lia). simpl in Hb.
  rewrite Z.geb_leb, Z.add_0_l in Hb. unfold state. revert Hb.
  destruct (Z.leb_spec (failure_threshold config) (Zlength ts + 1)) as [Hle|Hgt]; intros Hb.
  - pose proof Hb as (_ & _ & Hst). simpl in Hst. rewrite Hst. split; [done|]. intros _.
    destruct (open_rejects b _ asks Hb eq_refl Hasks) as (b1 & E1 & H1).
    exists b1. split; [done|]. destruct (call_allow b1 _ late H1) as (b2 & E2 & H2).
    unfold contract_allow in *. simpl in *.
    rewrite Z.geb_leb, (proj2 (Z.leb_le _ _)) in * by lia. exists b2. split; [done|].
    destruct H2 as (_ & _ & [-> _]). done.
  - destruct Hb as (_ & _ & Hst). simpl in Hst. rewrite Hst. split; [|done].
    split; [done|]. lia.
Qed.
End breaker.

(** ** Concrete runs *)

(** The configuration defaults, normalized. *)
Definition breaker_config_default : CircuitBreakerConfig :=
  normalize_config (mkBreakerConfig 3 30 1).

Definition half_open_2 : Breaker := mkBreaker (to_u8 HalfOpen) 3 1 10.

Lemma calls_refine_contract_witness :
  ∃ b', call breaker_config_default half_open_2 SuccessLoad 50 = Some (b', Returned)
    ∧ implements b' (mkContract MClosed 0 10).
Proof.
  apply (calls_refine_contract breaker_config_default half_open_2 (mkContract (MHalfOpen 1) 3 10) 50).
  by repeat split.
Defined.

Lemma trips_and_rejects_witness :
  ∃ b rs, calls breaker_config_default breaker_new
            [(FailureFetchUpdate, 1); (FailureFetchUpdate, 2); (FailureFetchUpdate, 5)]
          = Some (b, rs) ∧ state b = Open.
Proof.
  destruct (trips_and_rejects breaker_config_default [1; 2] 5 [6; 20] 35)
    as (b & rs & E & Ho & _).
  - vm_compute. split; congruence.
  - repeat constructor.
  - vm_compute. congruence.
  - exists b, rs. split; [exact E|]. apply Ho. vm_compute. congruence.
Defined.

(** Two threads can both pass a half-open circuit that admits one call: the
    thread that reopens the circuit stores the count of admitted calls after its
    transition, so a second thread that is admitted in between is not counted.
    The schedule runs thread 0 up to its transition, thread 1 to completion,
    then thread 0. *)
Lemma half_open_admits_too_many :
  let b := mkBreaker (to_u8 Open) 3 0 10 in
  let '(b', ps) :=
    run_schedule breaker_config_default (b, [AllowLoad; AllowLoad])
      [(0%nat, 50); (0%nat, 50); (0%nat, 50); (0%nat, 50);
       (1%nat, 50); (1%nat, 50); (1%nat, 50); (0%nat, 50)] in
  half_open_max_calls breaker_config_default = 1 ∧
  ps = [Allowed true; Allowed true] ∧ admitted ps = 2 ∧ state b' = HalfOpen.
Proof. vm_compute. repeat split. Qed.

(** In the ingestion pipeline an open circuit never recovers: the pipeline
    rejects a document as soon as it sees the open state, and the only transition
    out of that state is made by [allow_request], which it then does not call.
    Whatever documents arrive, at whatever times, all are rejected and the
    breaker stays as it is. *)
Lemma open_pipeline_never_recovers config b (requests : list (bool * Z * Z)) :
  state b = Open →
  foldl (λ acc '(ok, now1, now2),
           '(b, rs) ← acc;
           '(b, r) ← parse_python config b ok now1 now2;
           Some (b, rs ++ [r])) (Some (b, [])) requests
  = Some (b, replicate (length requests) CircuitBreakerOpen).
Proof.
  intros Hb. set (step := λ acc '(ok, now1, now2), _).
  assert (∀ rs, foldl step (Some (b, rs)) requests
                = Some (b, rs ++ replicate (length requests) CircuitBreakerOpen)) as H;
    [|by rewrite H].
  induction requests as [|[[ok now1] now2] requests IH]; intros rs; simpl.
  { by rewrite app_nil_r. }
  unfold parse_python at 1. rewrite decide_True by done. simpl. rewrite IH.
  by rewrite <-(assoc_L (++)).
Qed.

Lemma open_pipeline_never_recovers_witness :
  let b := mkBreaker (to_u8 Open) 3 0 10 in
  foldl (λ acc '(ok, now1, now2),
           '(b, rs) ← acc;
           '(b, r) ← parse_python breaker_config_default b ok now1 now2;
           Some (b, rs ++ [r])) (Some (b, [])) [(true, 100, 101); (true, 100000, 100001)]
  = Some (b, [CircuitBreakerOpen; CircuitBreakerOpen]).
Proof.
  apply (open_pipeline_never_recovers breaker_config_default (mkBreaker (to_u8 Open) 3 0 10)
           [(true, 100, 101); (true, 100000, 100001)]).
  reflexivity.
Defined.
