(* ===== verification/Governor.v ===== *)
(** * The resource governor

    [crates/common/src/scheduler/governor.rs] and the resource requirements of
    [task.rs]: whether a background task may start, given the running tasks, the
    cooldown after high latency, and the metrics source, which is an argument
    (the readings of one call). Times are in milliseconds. *)

From S2P Require Import Prelude.

Record ResourceRequirements := mkReq {
  cpu_weight : Z;
  memory_mb : Z;
  io_weight : Z;
  uses_gpu : bool;
}.

Definition requirements_default : ResourceRequirements := mkReq 50 100 50 false.
Definition requirements_low : ResourceRequirements := mkReq 20 50 20 false.
Definition requirements_medium : ResourceRequirements := requirements_default.
Definition requirements_high : ResourceRequirements := mkReq 80 500 80 false.
Definition requirements_gpu : ResourceRequirements := mkReq 60 2000 40 true.

Record ResourceGovernorConfig := mkGovConfig {
  max_background_cpu_percent : Z;
  max_background_memory_mb : Z;
  defer_when_p95_above_ms : Z;
  check_interval_ms : Z;
  max_concurrent_tasks : Z;
  cooldown_after_high_latency_ms : Z;
}.

Definition governor_config_default : ResourceGovernorConfig :=
  mkGovConfig 30 4096 40 1000 2 5000.

(** The readings of a [MetricsSource]. *)
Record Metrics := mkMetrics {
  p95_latency_ms : Z;
  cpu_usage_percent : Z;
  memory_usage_mb : Z;
  active_queries : Z;
}.

Record RunningTask := mkTask {
  task_id : string;
  task_type : string;
  task_started_at : Z;
  requirements : ResourceRequirements;
}.

Record ResourceGovernor := mkGovernor {
  gov_config : ResourceGovernorConfig;
  running_tasks : list RunningTask;
  last_high_latency : option Z;
}.

Definition governor_new (c : ResourceGovernorConfig) : ResourceGovernor := mkGovernor c [] None.

Definition note_high_latency (g : ResourceGovernor) (now : Z) : ResourceGovernor :=
  mkGovernor (gov_config g) (running_tasks g) (Some now).

(** A saturating sum over the running tasks. *)
Definition running_total (f : ResourceRequirements → Z) (ts : list RunningTask) : Z :=
  foldl (λ total task, saturating_add u32_max total (f (requirements task))) 0 ts.

Definition in_cooldown (g : ResourceGovernor) (now : Z) : bool :=
  match last_high_latency g with
  | Some last_high =>
      saturating_sub now last_high <? cooldown_after_high_latency_ms (gov_config g)
  | None => false
  end.

(** [now1] is read for the cooldown, [now2] when high latency is noted. *)
Definition can_start (g : ResourceGovernor) (req : ResourceRequirements) (mt : Metrics)
    (now1 now2 : Z) : bool * ResourceGovernor :=
  let c := gov_config g in
  let running := running_tasks g in
  if Zlength running >=? max_concurrent_tasks c then (false, g)
  else if in_cooldown g now1 then (false, g)
  else if p95_latency_ms mt >? defer_when_p95_above_ms c then (false, note_high_latency g now2)
  else
    let running_cpu := running_total cpu_weight running in
    let total_cpu :=
      saturating_add u32_max (saturating_add u32_max (cpu_usage_percent mt) running_cpu)
        (cpu_weight req) in
    let cpu_budget := saturating_add u32_max (max_background_cpu_percent c) 50 in
    if total_cpu >? cpu_budget then (false, g)
    else
      let running_memory := running_total memory_mb running in
      let total_memory := saturating_add u32_max running_memory (memory_mb req) in
      if total_memory >? max_background_memory_mb c then (false, g)
      else (true, g).

Definition should_pause (g : ResourceGovernor) (mt : Metrics) (now : Z)
    : bool * ResourceGovernor :=
  if p95_latency_ms mt >? defer_when_p95_above_ms (gov_config g)
  then (true, note_high_latency g now) else (false, g).

Definition register_task (g : ResourceGovernor) (t : RunningTask) : ResourceGovernor :=
  mkGovernor (gov_config g) (running_tasks g ++ [t]) (last_high_latency g).

(** Removes the first task with the id. *)
Fixpoint remove_first (id : string) (ts : list RunningTask) : list RunningTask :=
  match ts with
  | [] => []
  | t :: ts => if String.eqb (task_id t) id then ts else t :: remove_first id ts
  end.

Definition unregister_task (g : ResourceGovernor) (id : string) : ResourceGovernor :=
  mkGovernor (gov_config g) (remove_first id (running_tasks g)) (last_high_latency g).

Record ResourceSummary := mkSummary {
  sum_running_tasks : Z;
  sum_max_tasks : Z;
  sum_p95_latency_ms : Z;
  sum_latency_threshold_ms : Z;
  sum_cpu_percent : Z;
  sum_memory_mb : Z;
  can_accept_tasks : bool;
}.

Definition resource_summary (g : ResourceGovernor) (mt : Metrics) (now1 now2 : Z)
    : ResourceSummary * ResourceGovernor :=
  let '(ok, g') := can_start g requirements_low mt now1 now2 in
  (mkSummary (Zlength (running_tasks g)) (max_concurrent_tasks (gov_config g))
     (p95_latency_ms mt) (defer_when_p95_above_ms (gov_config g)) (cpu_usage_percent mt)
     (memory_usage_mb mt) ok, g').

(** [wait_for_resources]: one reading of metrics and clock per turn; the list
    holds the turns before the timeout. *)
Fixpoint wait_for_resources (g : ResourceGovernor) (req : ResourceRequirements)
    (turns : list (Metrics * Z * Z)) : bool * ResourceGovernor :=
  match turns with
  | [] => (false, g)
  | (mt, now1, now2) :: turns =>
      match can_start g req mt now1 now2 with
      | (true, g) => (true, g)
      | (false, g) => wait_for_resources g req turns
      end
  end.

(** ** Budgets *)

(** How a scheduler uses the governor: ask, and register when told yes. *)
Inductive gov_op :=
| OpStart (t : RunningTask) (mt : Metrics) (now1 now2 : Z)
| OpFinish (id : string)
| OpPauseCheck (mt : Metrics) (now : Z).

Definition gov_exec (g : ResourceGovernor) (op : gov_op) : ResourceGovernor :=
  match op with
  | OpStart t mt now1 now2 =>
      match can_start g (requirements t) mt now1 now2 with
      | (true, g) => register_task g t
      | (false, g) => g
      end
  | OpFinish id => unregister_task g id
  | OpPauseCheck mt now => (should_pause g mt now).2
  end.

(** The weights and sizes are unsigned. *)
Definition op_wf (op : gov_op) : Prop :=
  match op with
  | OpStart t mt _ _ =>
      0 ≤ cpu_weight (requirements t) ∧ 0 ≤ memory_mb (requirements t) ∧
      0 ≤ cpu_usage_percent mt
  | _ => True
  end.

Definition config_wf (c : ResourceGovernorConfig) : Prop :=
  0 ≤ max_background_cpu_percent c ∧ max_background_cpu_percent c + 50 < u32_max ∧
  0 ≤ max_background_memory_mb c < u32_max ∧ 0 ≤ max_concurrent_tasks c.

(** The exact sum, without saturation. *)
Definition total (f : ResourceRequirements → Z) (ts : list RunningTask) : Z :=
  foldr (λ t n, f (requirements t) + n) 0 ts.

Lemma total_app f ts t : total f (ts ++ [t]) = total f ts + f (requirements t).
Proof. induction ts as [|x ts IH]; simpl; lia. Qed.

Lemma total_nonneg f ts : Forall (λ t, 0 ≤ f (requirements t)) ts → 0 ≤ total f ts.
Proof. induction 1; simpl; lia. Qed.

Lemma running_total_eq f ts :
  Forall (λ t, 0 ≤ f (requirements t)) ts → running_total f ts = Z.min (total f ts) u32_max.
Proof.
  unfold running_total. induction ts as [|t ts IH] using rev_ind; [done|].
  intros [Hts Ht]%Forall_app. rewrite Forall_singleton in Ht.
  rewrite foldl_app, total_app, IH by done. simpl. pose proof (total_nonneg f ts Hts).
  unfold saturating_add. lia.
Qed.

Lemma total_remove f id ts :
  Forall (λ t, 0 ≤ f (requirements t)) ts → total f (remove_first id ts) ≤ total f ts.
Proof.
  induction 1 as [|t ts Ht _ IH]; simpl; [done|]. destruct (String.eqb _ _); simpl; lia.
Qed.

Lemma Forall_remove P id ts : Forall P ts → Forall P (remove_first id ts).
Proof.
  induction 1 as [|t ts Ht Hts IH]; simpl; [done|]. destruct (String.eqb _ _); [done|by constructor].
Qed.

Lemma length_remove id ts : (length (remove_first id ts) ≤ length ts)%nat.
Proof. induction ts as [|t ts IH]; simpl; [done|]. destruct (String.eqb _ _); simpl; lia. Qed.

(** The budgets hold for the tasks that run. *)
Definition within_budget (g : ResourceGovernor) : Prop :=
  let c := gov_config g in
  Zlength (running_tasks g) ≤ max_concurrent_tasks c ∧
  total cpu_weight (running_tasks g) ≤ max_background_cpu_percent c + 50 ∧
  total memory_mb (running_tasks g) ≤ max_background_memory_mb c ∧
  Forall (λ t, 0 ≤ cpu_weight (requirements t)) (running_tasks g) ∧
  Forall (λ t, 0 ≤ memory_mb (requirements t)) (running_tasks g).

(** Answering yes leaves the governor as it is, with room for the task. *)
Lemma can_start_true g req mt now1 now2 g' :
  config_wf (gov_config g) → within_budget g → 0 ≤ cpu_usage_percent mt →
  0 ≤ cpu_weight req → 0 ≤ memory_mb req →
  can_start g req mt now1 now2 = (true, g') →
  g' = g ∧ Zlength (running_tasks g) + 1 ≤ max_concurrent_tasks (gov_config g) ∧
  total cpu_weight (running_tasks g) + cpu_weight req
  ≤ max_background_cpu_percent (gov_config g) + 50 ∧
  total memory_mb (running_tasks g) + memory_mb req ≤ max_background_memory_mb (gov_config g).
Proof.
  intros (Hc1 & Hc2 & Hc3 & _) (_ & _ & _ & Hcpu & Hmem) Hu Hw Hm. unfold can_start.
  rewrite !running_total_eq by done.
  pose proof (total_nonneg _ _ Hcpu). pose proof (total_nonneg _ _ Hmem).
  rewrite Z.geb_leb. destruct (Z.leb_spec (max_concurrent_tasks (gov_config g)) (Zlength (running_tasks g)));
    [done|].
  destruct (in_cooldown g now1); [done|]. destruct (_ >? defer_when_p95_above_ms _); [done|].
  rewrite !Z.gtb_ltb. unfold saturating_add.
  destruct (Z.ltb_spec (Z.min (max_background_cpu_percent (gov_config g) + 50) u32_max)
    (Z.min (Z.min (cpu_usage_percent mt + Z.min (total cpu_weight (running_tasks g)) u32_max) u32_max
       + cpu_weight req) u32_max)); [done|].
  destruct (Z.ltb_spec (max_background_memory_mb (gov_config g))
    (Z.min (Z.min (total memory_mb (running_tasks g)) u32_max + memory_mb req) u32_max)); [done|].
  intros [= <-]. unfold u32_max in *. split_and!; [done|lia..].
Qed.

Lemma gov_step g op :
  config_wf (gov_config g) → within_budget g → op_wf op →
  gov_config (gov_exec g op) = gov_config g ∧ within_budget (gov_exec g op).
Proof.
  intros Hc Hb Hop. pose proof Hb as (H1 & H2 & H3 & H4 & H5).
  destruct op as [t mt now1 now2|id|mt now]; simpl in *.
  - destruct Hop as (Ht1 & Ht2 & Hu).
    destruct (can_start g (requirements t) mt now1 now2) as [[] g'] eqn:E.
    + apply can_start_true in E as (-> & ? & ? & ?); [|done..]. split; [done|].
      unfold within_budget. simpl. rewrite !total_app, length_app, !Forall_app, !Forall_singleton.
      simpl. split_and!; try done; lia.
    + revert E. unfold can_start. repeat case_match; intros [= <-]; done.
  - split; [done|]. unfold within_budget. simpl.
    pose proof (total_remove cpu_weight id _ H4). pose proof (total_remove memory_mb id _ H5).
    pose proof (length_remove id (running_tasks g)).
    split_and!; [lia..|by apply Forall_remove|by apply Forall_remove].
  - unfold should_pause. by destruct (_ >? _).
Qed.

(** Background work stays within its budgets: over any sequence of starts
    (each asked for first), completions and pause checks, under any metrics, the
    running tasks never exceed the maximum count, the memory budget, or the CPU
    budget with its headroom; the saturating sums do not hide an overflow. *)
Lemma running_tasks_within_budget c ops :
  config_wf c → Forall op_wf ops →
  let ts := running_tasks (foldl gov_exec (governor_new c) ops) in
  Zlength ts ≤ max_concurrent_tasks c ∧
  total cpu_weight ts ≤ max_background_cpu_percent c + 50 ∧
  total memory_mb ts ≤ max_background_memory_mb c.
Proof.
  intros Hc Hops. assert (∀ g, gov_config g = c → within_budget g →
    gov_config (foldl gov_exec g ops) = c ∧ within_budget (foldl gov_exec g ops)) as H.
  { induction Hops as [|op ops Hop _ IH]; intros g Hg Hb; [done|]. simpl.
    destruct (gov_step g op) as [E Hb']; [by rewrite Hg|done|done|]. apply IH; [congruence|done]. }
  destruct (H (governor_new c)) as [E (H1 & H2 & H3 & _)]; [done| |].
  - destruct Hc as (? & ? & ? & ?). unfold within_budget. simpl. split_and!; try lia; constructor.
  - rewrite E in *. done.
Qed.

Lemma running_tasks_within_budget_witness :
  let t := mkTask "t" "compact" 0 requirements_low in
  total memory_mb
    (running_tasks (foldl gov_exec (governor_new governor_config_default)
       [OpStart t (mkMetrics 10 20 1000 0) 1 1; OpStart t (mkMetrics 10 20 1000 0) 2 2;
        OpStart t (mkMetrics 10 20 1000 0) 3 3])) ≤ 4096.
Proof.
  apply (running_tasks_within_budget governor_config_default
    [OpStart (mkTask "t" "compact" 0 requirements_low) (mkMetrics 10 20 1000 0) 1 1;
     OpStart (mkTask "t" "compact" 0 requirements_low) (mkMetrics 10 20 1000 0) 2 2;
     OpStart (mkTask "t" "compact" 0 requirements_low) (mkMetrics 10 20 1000 0) 3 3]).
  - vm_compute. repeat split; congruence.
  - repeat constructor; vm_compute; congruence.
Defined.
