(* ===== verification/Tombstone.v ===== *)
(** * The tombstone bitset

    [crates/faiss-wrapper/src/tombstone.rs]: one bit per vector, with a count of
    the deleted ones. The bytes are [u8] values; the mutators hold the write
    lock, so each is one step. A byte index out of range would panic: the
    operations return [None] then, and the theorems show it does not happen. *)

From S2P Require Import Prelude Float64.

Record TombstoneBitset := mkTombstone {
  data : list Z;
  capacity : Z;
  deleted_count : Z;
}.

Definition saturating_increment (c : Z) : Z := saturating_add u64_max c 1.
Definition saturating_decrement (c : Z) : Z := if c =? 0 then 0 else c - 1.

Definition byte_count (capacity : Z) : nat := Z.to_nat (div_ceil capacity 8).

Definition tombstone_new (capacity : Z) : TombstoneBitset :=
  mkTombstone (replicate (byte_count capacity) 0) capacity 0.

Definition byte_idx (id : Z) : nat := Z.to_nat (id / 8).
Definition bit_idx (id : Z) : Z := id mod 8.
Definition bit_mask (id : Z) : Z := Z.shiftl 1 (bit_idx id).

(** [InternalId::is_valid]. *)
Definition id_is_valid (id : Z) : bool := 0 <=? id.

(** [!mask] on a [u8]. *)
Definition u8_not (x : Z) : Z := Z.lxor x u8_max.

Definition mark_deleted (t : TombstoneBitset) (id : Z) : option (Result unit * TombstoneBitset) :=
  if negb (id_is_valid id) then
    Some (Err (InvalidParameter "Internal ID is invalid (negative IDs not allowed)"), t)
  else if id >=? capacity t then
    Some (Err (InvalidParameter "Internal ID exceeds capacity"), t)
  else
    byte ← data t !! byte_idx id;
    let was_deleted := negb (Z.land byte (bit_mask id) =? 0) in
    if negb was_deleted then
      Some (Ok tt, mkTombstone (<[byte_idx id := Z.lor byte (bit_mask id)]> (data t)) (capacity t)
                     (saturating_increment (deleted_count t)))
    else Some (Ok tt, t).

Definition is_deleted (t : TombstoneBitset) (id : Z) : option bool :=
  if negb (id_is_valid id) then Some false
  else if id >=? capacity t then Some false
  else byte ← data t !! byte_idx id; Some (negb (Z.land byte (bit_mask id) =? 0)).

Definition clear_deleted (t : TombstoneBitset) (id : Z) : option (Result unit * TombstoneBitset) :=
  if negb (id_is_valid id) then
    Some (Err (InvalidParameter "Internal ID is invalid (negative IDs not allowed)"), t)
  else if id >=? capacity t then
    Some (Err (InvalidParameter "Internal ID exceeds capacity"), t)
  else
    byte ← data t !! byte_idx id;
    let was_deleted := negb (Z.land byte (bit_mask id) =? 0) in
    if was_deleted then
      Some (Ok tt, mkTombstone (<[byte_idx id := Z.land byte (u8_not (bit_mask id))]> (data t))
                     (capacity t) (saturating_decrement (deleted_count t)))
    else Some (Ok tt, t).

Definition tombstone_ratio (t : TombstoneBitset) : f64 :=
  if capacity t =? 0 then f64_zero
  else f64_div (f64_of_Z (deleted_count t)) (f64_of_Z (capacity t)).

(** [>=] on [f64]. *)
Definition needs_compaction (t : TombstoneBitset) (threshold : f64) : bool :=
  match SpecFloat.SFcompare (tombstone_ratio t) threshold with
  | Some Gt | Some Eq => true
  | _ => false
  end.

Definition reset (t : TombstoneBitset) : TombstoneBitset :=
  mkTombstone (replicate (length (data t)) 0) (capacity t) 0.

(** [Vec::resize(n, 0)]. *)
Definition vec_resize (l : list Z) (n : nat) : list Z :=
  take n l ++ replicate (n - length l) 0.

Definition resize (t : TombstoneBitset) (new_capacity : Z) : TombstoneBitset :=
  mkTombstone (vec_resize (data t) (byte_count new_capacity)) new_capacity (deleted_count t).

Definition as_slice (t : TombstoneBitset) : list Z := data t.

(** [u8::count_ones]. *)
Definition count_ones (b : Z) : Z :=
  foldr (λ i n, (if Z.testbit b i then 1 else 0) + n) 0 (seqZ 0 8).

Definition counted (bytes : list Z) : Z := foldr (λ b n, count_ones b + n) 0 bytes.

Definition try_restore (capacity deleted_count : Z) (bytes : list Z) : Result TombstoneBitset :=
  let expected_len := byte_count capacity in
  if negb (length bytes =? expected_len)%nat then
    Err (IndexError "HNSW tombstone length does not match capacity")
  else
    let past_end :=
      if negb (capacity mod 8 =? 0) then
        match last bytes with
        | Some b => negb (Z.shiftr b (capacity mod 8) =? 0)
        | None => false
        end
      else false in
    if past_end then Err (IndexError "HNSW tombstone has bits set past its capacity")
    else if negb (counted bytes =? deleted_count) then
      Err (IndexError "HNSW tombstone deleted count does not match")
    else Ok (mkTombstone bytes capacity deleted_count).

Definition memory_bytes (t : TombstoneBitset) : Z := Zlength (data t).

(** ** Bytes *)

(** A statement about every byte and every bit of it, by enumeration. *)
Lemma byte_bit_ind (P : Z → Z → Prop) :
  Forall (λ b, Forall (λ i, P b i) (seqZ 0 8)) (seqZ 0 256) →
  ∀ b i, is_u8 b → 0 ≤ i < 8 → P b i.
Proof.
  rewrite Forall_forall. intros H b i Hb Hi. unfold in_range, u8_max in Hb.
  specialize (H b ltac:(apply elem_of_seqZ; lia)). rewrite Forall_forall in H.
  apply H. apply elem_of_seqZ. lia.
Qed.

(** What the three byte operations do to the bits and to the count. *)
Definition byte_laws (b i : Z) : Prop :=
  let mask := Z.shiftl 1 i in
  negb (Z.land b mask =? 0) = Z.testbit b i ∧
  (is_u8 (Z.lor b mask) ∧ is_u8 (Z.land b (u8_not mask))) ∧
  Forall (λ j, Z.testbit (Z.lor b mask) j = (Z.testbit b j || (j =? i)) ∧
               Z.testbit (Z.land b (u8_not mask)) j = (Z.testbit b j && negb (j =? i))) (seqZ 0 8) ∧
  (Z.testbit b i = false → count_ones (Z.lor b mask) = count_ones b + 1) ∧
  (Z.testbit b i = true → count_ones (Z.land b (u8_not mask)) = count_ones b - 1).

#[local] Instance byte_laws_dec b i : Decision (byte_laws b i).
Proof. unfold byte_laws, in_range. apply _. Defined.

Lemma byte_laws_hold b i : is_u8 b → 0 ≤ i < 8 → byte_laws b i.
Proof. revert b i. apply byte_bit_ind. apply (bool_decide_unpack _). vm_compute. exact I. Qed.

(** ** The set of deleted ids *)

(** The bit of an id, false past the end. *)
Definition bit (t : TombstoneBitset) (id : Z) : bool :=
  match data t !! byte_idx id with Some b => Z.testbit b (bit_idx id) | None => false end.

(** [t] holds the set [s] of deleted ids. *)
Record represents (t : TombstoneBitset) (s : gset Z) : Prop := {
  rep_len : length (data t) = byte_count (capacity t);
  rep_cap : is_u64 (capacity t);
  rep_bytes : Forall is_u8 (data t);
  rep_bit id : 0 ≤ id → bit t id = bool_decide (id ∈ s);
  rep_range id : id ∈ s → 0 ≤ id < capacity t;
  rep_count : deleted_count t = Z.of_nat (size s);
  rep_counted : counted (data t) = Z.of_nat (size s);
}.

Lemma bit_idx_range id : 0 ≤ bit_idx id < 8.
Proof. apply Z.mod_pos_bound. lia. Qed.

Lemma id_split id id' :
  0 ≤ id → 0 ≤ id' → byte_idx id = byte_idx id' → bit_idx id = bit_idx id' → id = id'.
Proof.
  unfold byte_idx, bit_idx. intros H1 H2 Hb Hi.
  apply Z2Nat.inj in Hb; [|apply Z.div_pos; lia..].
  rewrite (Z.div_mod id 8), (Z.div_mod id' 8) by lia. congruence.
Qed.

Lemma byte_in_range t s id :
  represents t s → 0 ≤ id < capacity t →
  ∃ b, data t !! byte_idx id = Some b ∧ is_u8 b ∧ byte_laws b (bit_idx id) ∧
       Z.testbit b (bit_idx id) = bool_decide (id ∈ s).
Proof.
  intros Hr Hid. destruct (lookup_lt_is_Some_2 (data t) (byte_idx id)) as [b Hb].
  { rewrite (rep_len _ _ Hr). unfold byte_idx, byte_count, div_ceil.
    apply Z2Nat.inj_lt; [apply Z.div_pos; lia|apply Z.div_pos; lia|].
    apply Z.div_lt_upper_bound; [lia|].
    pose proof (Z.div_mod (capacity t + 8 - 1) 8). pose proof (Z.mod_pos_bound (capacity t + 8 - 1) 8).
    lia. }
  exists b. assert (is_u8 b) as Hu by (eapply Forall_lookup_1; [apply Hr|done]).
  split_and!; [done|done|apply byte_laws_hold; [done|apply bit_idx_range]|].
  rewrite <-(rep_bit _ _ Hr id) by lia. unfold bit. by rewrite Hb.
Qed.

Lemma counted_insert l i b b' :
  l !! i = Some b → counted (<[i := b']> l) = counted l - count_ones b + count_ones b'.
Proof.
  revert i. induction l as [|x l IH]; intros [|i] Hi; simplify_eq/=; [lia|].
  rewrite (IH i) by done. lia.
Qed.

(** Rewriting the byte of [id] with one whose bits differ at [id] only. *)
Lemma bit_update t id b b' f :
  0 ≤ id → data t !! byte_idx id = Some b →
  (∀ j, 0 ≤ j < 8 → Z.testbit b' j = if j =? bit_idx id then f else Z.testbit b j) →
  ∀ c id', 0 ≤ id' →
  bit (mkTombstone (<[byte_idx id := b']> (data t)) (capacity t) c) id'
  = if id' =? id then f else bit t id'.
Proof.
  intros Hid Hb Hb' c id' Hid'. unfold bit. simpl.
  destruct (decide (byte_idx id' = byte_idx id)) as [E|E].
  - rewrite E, list_lookup_insert_eq by (by eapply lookup_lt_Some).
    rewrite Hb' by apply bit_idx_range. rewrite Hb.
    destruct (Z.eqb_spec (bit_idx id') (bit_idx id)) as [E'|E'], (Z.eqb_spec id' id) as [->|Hne];
      try done. by destruct (Hne (id_split _ _ Hid' Hid E E')).
  - rewrite list_lookup_insert_ne by done. destruct (Z.eqb_spec id' id) as [->|]; done.
Qed.

Lemma size_bound (s : gset Z) c :
  0 ≤ c → (∀ id, id ∈ s → 0 ≤ id < c) → Z.of_nat (size s) ≤ c.
Proof.
  intros Hc Hs. assert (s ⊆ list_to_set (seqZ 0 c)) as Hsub.
  { intros x Hx%Hs. apply elem_of_list_to_set, elem_of_seqZ. lia. }
  apply subseteq_size in Hsub. rewrite size_list_to_set in Hsub by apply NoDup_seqZ.
  rewrite length_seqZ in Hsub. lia.
Qed.

Lemma mark_represents t s id :
  represents t s → 0 ≤ id < capacity t →
  ∃ t', mark_deleted t id = Some (Ok tt, t') ∧ represents t' ({[id]} ∪ s) ∧
        capacity t' = capacity t.
Proof.
  intros Hr Hid. destruct (byte_in_range t s id Hr Hid) as (b & Hb & Hu & Hlaw & Hbit).
  destruct Hlaw as (Hland & (Hu' & _) & Hbits & Hcnt & _).
  unfold mark_deleted, id_is_valid. rewrite (proj2 (Z.leb_le 0 id)), Z.geb_leb, (proj2 (Z.leb_gt _ _)) by lia.
  simpl. rewrite Hb. simpl. unfold bit_mask in *. rewrite Hland, Hbit.
  case_bool_decide as Hin; simpl.
  { exists t. split_and!; [done| |done]. by replace ({[id]} ∪ s) with s by set_solver. }
  eexists. split_and!; [done| |done].
  assert (size ({[id]} ∪ s) = S (size s)) as Hsz.
  { rewrite size_union by set_solver. by rewrite size_singleton. }
  pose proof (rep_cap _ _ Hr) as Hc.
  assert (∀ id', id' ∈ ({[id]} ∪ s : gset Z) → 0 ≤ id' < capacity t) as Hrange.
  { intros id' [->%elem_of_singleton|Hx]%elem_of_union; [done|by apply Hr]. }
  pose proof (size_bound _ (capacity t) (proj1 Hc) Hrange) as Hsb. unfold in_range in Hc.
  rewrite Forall_forall in Hbits. split; simpl; [..|done| |].
  - rewrite length_insert. apply Hr.
  - done.
  - apply Forall_insert; [apply Hr|done].
  - intros id' Hid'.
    erewrite (bit_update t id b _ true); [|lia|done| |done].
    + rewrite (rep_bit _ _ Hr) by done.
      destruct (Z.eqb_spec id' id) as [->|];
        [by rewrite bool_decide_true by set_solver|apply bool_decide_ext; clear -n; set_solver].
    + intros j Hj. destruct (Hbits j) as [-> _]; [by apply elem_of_seqZ|].
      destruct (j =? bit_idx id); by rewrite ?orb_true_r, ?orb_false_r.
  - unfold saturating_increment, saturating_add. rewrite (rep_count _ _ Hr). lia.
  - rewrite (counted_insert _ _ b), Hcnt by (done || by rewrite Hbit).
    rewrite (rep_counted _ _ Hr). lia.
Qed.

Lemma clear_represents t s id :
  represents t s → 0 ≤ id < capacity t →
  ∃ t', clear_deleted t id = Some (Ok tt, t') ∧ represents t' (s ∖ {[id]}) ∧
        capacity t' = capacity t.
Proof.
  intros Hr Hid. destruct (byte_in_range t s id Hr Hid) as (b & Hb & Hu & Hlaw & Hbit).
  destruct Hlaw as (Hland & (_ & Hu') & Hbits & _ & Hcnt).
  unfold clear_deleted, id_is_valid. rewrite (proj2 (Z.leb_le 0 id)), Z.geb_leb, (proj2 (Z.leb_gt _ _)) by lia.
  simpl. rewrite Hb. simpl. unfold bit_mask in *. rewrite Hland, Hbit.
  case_bool_decide as Hin; simpl.
  2:{ exists t. split_and!; [done| |done]. by replace (s ∖ {[id]}) with s by set_solver. }
  eexists. split_and!; [done| |done].
  assert (size s = S (size (s ∖ {[id]}))) as Hsz.
  { rewrite size_difference, size_singleton by set_solver.
    assert (size s ≠ 0%nat) by (apply size_non_empty_iff; set_solver). lia. }
  rewrite Forall_forall in Hbits. split; simpl.
  - rewrite length_insert. apply Hr.
  - apply Hr.
  - apply Forall_insert; [apply Hr|done].
  - intros id' Hid'.
    erewrite (bit_update t id b _ false); [|lia|done| |done].
    + rewrite (rep_bit _ _ Hr) by done.
      destruct (Z.eqb_spec id' id) as [->|];
        [by rewrite bool_decide_false by set_solver|apply bool_decide_ext; clear -n; set_solver].
    + intros j Hj. destruct (Hbits j) as [_ ->]; [by apply elem_of_seqZ|].
      destruct (j =? bit_idx id); by rewrite ?andb_false_r, ?andb_true_r.
  - intros id' [Hx _]%elem_of_difference. by apply Hr.
  - unfold saturating_decrement. rewrite (rep_count _ _ Hr). bool_cases; lia.
  - rewrite (counted_insert _ _ b), Hcnt by (done || by rewrite Hbit).
    rewrite (rep_counted _ _ Hr). lia.
Qed.

Lemma counted_app l l' : counted (l ++ l') = counted l + counted l'.
Proof. induction l as [|b l IH]; simpl; lia. Qed.

Lemma counted_zeros n : counted (replicate n 0) = 0.
Proof. induction n as [|n IH]; [done|]. cbn [replicate counted foldr]. unfold counted in IH. by rewrite IH. Qed.

Lemma zeros_represent c : is_u64 c → represents (mkTombstone (replicate (byte_count c) 0) c 0) ∅.
Proof.
  intros Hc. split; simpl.
  - by rewrite length_replicate.
  - done.
  - apply Forall_replicate. done.
  - intros id Hid. unfold bit. simpl. rewrite bool_decide_false by set_solver.
    destruct (replicate _ _ !! _) as [b|] eqn:E; [|done].
    apply lookup_replicate in E as [-> _]. apply Z.testbit_0_l.
  - set_solver.
  - done.
  - apply counted_zeros.
Qed.

Lemma byte_count_mono c c' : 0 ≤ c ≤ c' → (byte_count c ≤ byte_count c')%nat.
Proof.
  intros. unfold byte_count, div_ceil. apply Z2Nat.inj_le; [apply Z.div_pos; lia..|].
  apply Z.div_le_mono; lia.
Qed.

(** Growing keeps every tombstone. *)
Lemma grow_represents t s c :
  represents t s → capacity t ≤ c → c ≤ u64_max → represents (resize t c) s.
Proof.
  intros Hr Hle Hmax. pose proof (rep_cap _ _ Hr) as [Hc0 _]. pose proof (rep_len _ _ Hr) as Hlen.
  pose proof (byte_count_mono (capacity t) c (conj Hc0 Hle)) as Hmono.
  unfold resize, vec_resize. rewrite take_ge by lia. split; simpl.
  - rewrite length_app, length_replicate. lia.
  - unfold in_range. lia.
  - apply Forall_app. split; [apply Hr|]. apply Forall_replicate. done.
  - intros id Hid. rewrite <-(rep_bit _ _ Hr) by done. unfold bit. simpl.
    destruct (decide (byte_idx id < length (data t))%nat) as [Hlt|Hge].
    + by rewrite lookup_app_l.
    + rewrite lookup_app_r by lia. rewrite (lookup_ge_None_2 (data t)) by lia.
      destruct (replicate _ _ !! _) as [b|] eqn:E; [|done].
      apply lookup_replicate in E as [-> _]. apply Z.testbit_0_l.
  - intros id Hx%(rep_range _ _ Hr). lia.
  - apply Hr.
  - rewrite counted_app, counted_zeros. pose proof (rep_counted _ _ Hr). lia.
Qed.

(** ** Runs *)

Inductive tomb_op :=
| OpMark (id : Z)
| OpClear (id : Z)
| OpReset
| OpResize (c : Z).

Definition tomb_exec (t : TombstoneBitset) (op : tomb_op) : option TombstoneBitset :=
  match op with
  | OpMark id => snd <$> mark_deleted t id
  | OpClear id => snd <$> clear_deleted t id
  | OpReset => Some (reset t)
  | OpResize c => Some (resize t c)
  end.

(** The specification: a capacity and a set of ids. *)
Definition spec_exec (st : Z * gset Z) (op : tomb_op) : Z * gset Z :=
  let '(c, s) := st in
  match op with
  | OpMark id => if (0 <=? id) && (id <? c) then (c, {[id]} ∪ s) else (c, s)
  | OpClear id => if (0 <=? id) && (id <? c) then (c, s ∖ {[id]}) else (c, s)
  | OpReset => (c, ∅)
  | OpResize c' => (c', s)
  end.

(** Resizes only grow. *)
Fixpoint grows (c : Z) (ops : list tomb_op) : Prop :=
  match ops with
  | [] => True
  | OpResize c' :: ops => c ≤ c' ≤ u64_max ∧ grows c' ops
  | _ :: ops => grows c ops
  end.

Lemma tomb_step t s op :
  represents t s → grows (capacity t) [op] →
  ∃ t', tomb_exec t op = Some t' ∧
    represents t' (spec_exec (capacity t, s) op).2 ∧
    capacity t' = (spec_exec (capacity t, s) op).1.
Proof.
  intros Hr Hg. destruct op as [id|id| |c]; simpl in *.
  - destruct (Z.leb_spec 0 id); [destruct (Z.ltb_spec id (capacity t))|]; simpl.
    + destruct (mark_represents t s id Hr) as (t' & -> & ? & ?); [done|]. by exists t'.
    + unfold mark_deleted, id_is_valid. rewrite (proj2 (Z.leb_le 0 id)) by done. simpl.
      rewrite Z.geb_leb, (proj2 (Z.leb_le _ _)) by done. by exists t.
    + unfold mark_deleted, id_is_valid. rewrite (proj2 (Z.leb_gt 0 id)) by done. by exists t.
  - destruct (Z.leb_spec 0 id); [destruct (Z.ltb_spec id (capacity t))|]; simpl.
    + destruct (clear_represents t s id Hr) as (t' & -> & ? & ?); [done|]. by exists t'.
    + unfold clear_deleted, id_is_valid. rewrite (proj2 (Z.leb_le 0 id)) by done. simpl.
      rewrite Z.geb_leb, (proj2 (Z.leb_le _ _)) by done. by exists t.
    + unfold clear_deleted, id_is_valid. rewrite (proj2 (Z.leb_gt 0 id)) by done. by exists t.
  - eexists. split_and!; [done| |done]. unfold reset. rewrite (rep_len _ _ Hr).
    apply zeros_represent, Hr.
  - eexists. split_and!; [done| |done]. apply grow_represents; [done|lia..].
Qed.

Definition tomb_run (t : TombstoneBitset) (ops : list tomb_op) : option TombstoneBitset :=
  foldl (λ acc op, t ← acc; tomb_exec t op) (Some t) ops.

Lemma tomb_run_represents t s ops :
  represents t s → grows (capacity t) ops →
  ∃ t', tomb_run t ops = Some t' ∧
    represents t' (foldl spec_exec (capacity t, s) ops).2 ∧
    capacity t' = (foldl spec_exec (capacity t, s) ops).1.
Proof.
  revert t s. induction ops as [|op ops IH]; intros t s Hr Hg; [by exists t|].
  destruct (tomb_step t s op) as (t1 & E & Hr1 & Hc1); [done|by destruct op; simpl in *; naive_solver|].
  unfold tomb_run. simpl. rewrite E.
  destruct (IH t1 _ Hr1) as (t' & E' & Hr' & Hc').
  { rewrite Hc1. destruct op; simpl in *; [by case_match|by case_match|done|tauto]. }
  exists t'. split; [exact E'|]. rewrite Hc1 in Hr', Hc'. by rewrite <-surjective_pairing in Hr', Hc'.
Qed.

Lemma is_deleted_represents t s id :
  represents t s → is_deleted t id = Some (bool_decide (id ∈ s)).
Proof.
  intros Hr. unfold is_deleted, id_is_valid.
  destruct (Z.leb_spec 0 id); simpl; [rewrite Z.geb_leb; destruct (Z.leb_spec (capacity t) id)|].
  - rewrite bool_decide_false; [done|]. intros Hx%(rep_range _ _ Hr). lia.
  - destruct (byte_in_range t s id Hr) as (b & -> & _ & (Hland & _) & Hbit); [lia|]. simpl.
    unfold bit_mask. by rewrite Hland, Hbit.
  - rewrite bool_decide_false; [done|]. intros Hx%(rep_range _ _ Hr). lia.
Qed.

(** The bitset is a set of ids: over any sequence of marks, clears, resets
    and growths, starting from a fresh bitset, no access is out of range, an id
    reads as deleted exactly when the specification has it, and the count is the
    number of deleted ids; ids out of range are refused without an effect. *)
Lemma bitset_refines_set c ops :
  is_u64 c → grows c ops →
  let s := (foldl spec_exec (c, ∅) ops).2 in
  ∃ t, tomb_run (tombstone_new c) ops = Some t ∧
    (∀ id, is_deleted t id = Some (bool_decide (id ∈ s))) ∧
    deleted_count t = Z.of_nat (size s).
Proof.
  intros Hc Hg. destruct (tomb_run_represents (tombstone_new c) ∅ ops) as (t & E & Hr & _);
    [by apply zeros_represent|done|].
  exists t. split_and!; [done|by intros; apply is_deleted_represents|apply Hr].
Qed.

Lemma bitset_refines_set_witness :
  ∃ t, tomb_run (tombstone_new 10) [OpMark 3; OpMark 9; OpResize 20; OpClear 3; OpMark 42] = Some t
    ∧ deleted_count t = 1.
Proof.
  destruct (bitset_refines_set 10 [OpMark 3; OpMark 9; OpResize 20; OpClear 3; OpMark 42])
    as (t & E & _ & Hn).
  - vm_compute. split; congruence.
  - vm_compute. repeat split; congruence.
  - exists t. split; [done|]. rewrite Hn. vm_compute. reflexivity.
Defined.

(** ** Snapshots *)

(** No bit is set past the capacity. *)
Lemma last_byte_clean t s :
  represents t s → capacity t mod 8 ≠ 0 →
  ∃ b, last (data t) = Some b ∧ Z.shiftr b (capacity t mod 8) = 0.
Proof.
  intros Hr Hm. pose proof (rep_cap _ _ Hr) as [Hc _]. pose proof (rep_len _ _ Hr) as Hlen.
  pose proof (Z.div_mod (capacity t) 8 ltac:(lia)) as Hdm.
  pose proof (Z.mod_pos_bound (capacity t) 8 ltac:(lia)) as Hmb.
  assert (div_ceil (capacity t) 8 = capacity t / 8 + 1) as Hd.
  { unfold div_ceil. symmetry. apply Z.div_unique with (capacity t mod 8 - 1); lia. }
  assert (0 ≤ capacity t / 8) by (apply Z.div_pos; lia).
  rewrite last_lookup, Hlen. unfold byte_count. rewrite Hd.
  replace (Nat.pred (Z.to_nat (capacity t / 8 + 1))) with (Z.to_nat (capacity t / 8)) by lia.
  destruct (lookup_lt_is_Some_2 (data t) (Z.to_nat (capacity t / 8))) as [b Hb].
  { rewrite Hlen. unfold byte_count. rewrite Hd. lia. }
  exists b. split; [done|]. assert (is_u8 b) as Hu by (eapply Forall_lookup_1; [apply Hr|done]).
  apply Z.bits_inj'. intros n Hn. rewrite Z.shiftr_spec, Z.bits_0 by done.
  set (j := n + capacity t mod 8). destruct (Z.lt_ge_cases j 8) as [Hj|Hj].
  - set (id := 8 * (capacity t / 8) + j).
    assert (bit t id = false) as Hf.
    { rewrite (rep_bit _ _ Hr) by lia. apply bool_decide_false. intros Hx%(rep_range _ _ Hr). lia. }
    unfold bit in Hf. assert (id / 8 = capacity t / 8 ∧ id mod 8 = j) as [E1 E2].
    { split; symmetry; [apply Z.div_unique with j|apply Z.mod_unique with (capacity t / 8)]; lia. }
    unfold byte_idx, bit_idx in Hf. by rewrite E1, Hb, E2 in Hf.
  - unfold in_range, u8_max in Hu. destruct (Z.eq_dec b 0) as [->|]; [apply Z.bits_0|].
    apply Z.bits_above_log2; [lia|]. assert (Z.log2 b < 8) by (apply Z.log2_lt_pow2; lia). lia.
Qed.

(** Snapshot round trip: the bytes, capacity and count of a bitset reached by
    any sequence of marks, clears, resets and growths are accepted by
    [try_restore] and give the same bitset back. *)
Lemma snapshot_roundtrip c ops :
  is_u64 c → grows c ops →
  ∃ t, tomb_run (tombstone_new c) ops = Some t ∧
       try_restore (capacity t) (deleted_count t) (as_slice t) = Ok t.
Proof.
  intros Hc Hg. destruct (tomb_run_represents (tombstone_new c) ∅ ops) as (t & E & Hr & _);
    [by apply zeros_represent|done|].
  exists t. split; [done|]. unfold try_restore, as_slice.
  rewrite (proj2 (Nat.eqb_eq _ _)) by apply Hr. simpl.
  rewrite (rep_counted _ _ Hr), <-(rep_count _ _ Hr), Z.eqb_refl. simpl.
  destruct (Z.eqb_spec (capacity t mod 8) 0) as [E0|E0]; simpl; [by destruct t|].
  destruct (last_byte_clean t _ Hr E0) as (b & -> & ->). by destruct t.
Qed.

Lemma snapshot_roundtrip_witness :
  ∃ t, tomb_run (tombstone_new 10) [OpMark 9; OpResize 20; OpMark 19] = Some t
    ∧ try_restore (capacity t) (deleted_count t) (as_slice t) = Ok t.
Proof.
  apply (snapshot_roundtrip 10 [OpMark 9; OpResize 20; OpMark 19]).
  - vm_compute. split; congruence.
  - vm_compute. repeat split; congruence.
Defined.

(** Shrinking keeps the count and the bits past the new capacity: the count is
    wrong, the snapshot is refused, and growing again revives the tombstone. *)
Lemma shrink_breaks_count :
  let t := resize (mkTombstone [0; 2] 16 1) 8 in
  let t2 := resize (mkTombstone [0; 8] 16 1) 10 in
  deleted_count t = 1 ∧ is_deleted t 9 = Some false ∧
  is_ok (try_restore (capacity t) (deleted_count t) (as_slice t)) = false ∧
  is_deleted t2 11 = Some false ∧ is_deleted (resize t2 16) 11 = Some true.
Proof. vm_compute. repeat split. Qed.
