(* ===== verification/VectorIndex.v ===== *)
(** * Vector indices

    [crates/faiss-wrapper/src/index.rs]: the [VectorIndex] trait as a class, what
    its clients rely on as [VectorIndexLaws], and the in-memory index of
    [mock.rs] as an instance that satisfies it. An operation that panics returns
    [None]. Similarity search is not modelled. *)

From S2P Require Import Prelude Float32 Tombstone.

Abbreviation vector := (list Z).

Record IndexStats := mkIndexStats {
  total_vectors : Z;
  active_vectors : Z;
  tombstoned_vectors : Z;
  st_dimensions : Z;
  st_memory_bytes : Z;
  gpu_memory_bytes : option Z;
  using_gpu : bool;
  rebuild_in_progress : bool;
}.

Class VectorIndex (I : Type) := {
  vi_insert : I → string → vector → option (Result Z) * I;
  vi_insert_batch : I → list (string * vector) → option (Result (list Z)) * I;
  vi_delete : I → Z → Result unit * I;
  vi_is_deleted : I → Z → bool;
  vi_internal_id_of : I → string → option Z;
  vi_get_vector : I → Z → Result (option vector);
  vi_stats : I → IndexStats;
}.

(** What the clients of an index rely on. *)
Class VectorIndexLaws (I : Type) `{!VectorIndex I} := {
  vi_wf : I → Prop;
  (** external id to internal id *)
  vi_ids : I → gmap string Z;
  (** the vector the index gives back for one it was given: the same, unless it
      stores at a lower precision (an index that offers several precisions is an
      instance for each) *)
  vi_kept : vector → vector;
  (** the vectors that are not tombstoned, by internal id *)
  vi_vecs : I → gmap Z vector;
  (** an internal id belongs to one external id *)
  vi_ids_inj x id id' i : vi_wf x → vi_ids x !! id = Some i → vi_ids x !! id' = Some i → id = id';
  vi_insert_ok x id v r x' :
    vi_wf x → vi_insert x id v = (Some r, x') →
    vi_wf x' ∧
    match r with
    | Ok i => vi_ids x' = <[id := i]> (vi_ids x) ∧ vi_vecs x' = <[i := vi_kept v]> (vi_vecs x) ∧
              (vi_ids x !! id = Some i ∨ vi_ids x !! id = None ∧ vi_vecs x !! i = None)
    (* the other ids are as they were *)
    | Err _ => ∀ id', id' ≠ id → vi_ids x' !! id' = vi_ids x !! id' ∧
               ∀ i, vi_ids x !! id' = Some i → vi_vecs x' !! i = vi_vecs x !! i
    end;
  (** the id was assigned by this index *)
  vi_delete_ok x id i r x' :
    vi_wf x → vi_ids x !! id = Some i → vi_delete x i = (r, x') →
    vi_wf x' ∧ vi_ids x' = vi_ids x ∧
    match r with Ok _ => vi_vecs x' = delete i (vi_vecs x) | Err _ => vi_vecs x' = vi_vecs x end;
  vi_internal_id_of_ok x id : vi_wf x → vi_internal_id_of x id = vi_ids x !! id;
  vi_get_vector_ok x i o : vi_wf x → vi_get_vector x i = Ok o → o = vi_vecs x !! i;
}.

(** An index whose insertions do not panic. *)
Class VectorIndexCalm (I : Type) `{!VectorIndex I, !VectorIndexLaws I} :=
  vi_insert_calm x id v : vi_wf x → (vi_insert x id v).1 ≠ None.

(** What a reader finds under an external id. *)
Definition visible {I} `{!VectorIndex I, !VectorIndexLaws I} (x : I) (id : string) : option vector :=
  vi_ids x !! id ≫= λ i, vi_vecs x !! i.

Section visible.
Context {I : Type} `{!VectorIndex I, !VectorIndexLaws I}.
Implicit Types (x : I).

Lemma visible_insert x id v i x' id' :
  vi_wf x → vi_insert x id v = (Some (Ok i), x') →
  visible x' id' = if decide (id' = id) then Some (vi_kept (I:=I) v) else visible x id'.
Proof.
  intros Hwf Hi. destruct (vi_insert_ok _ _ _ _ _ Hwf Hi) as (Hwf' & Hids & Hvecs & Hfresh).
  unfold visible. rewrite Hids, Hvecs. destruct (decide (id' = id)) as [->|Hne].
  - rewrite lookup_insert_eq. simpl. by rewrite lookup_insert_eq.
  - rewrite lookup_insert_ne by done. destruct (vi_ids x !! id') as [i'|] eqn:E; [|done]. simpl.
    apply lookup_insert_ne. intros <-. apply Hne.
    apply (vi_ids_inj x' id' id i Hwf'); rewrite Hids;
      [by rewrite lookup_insert_ne by congruence|apply lookup_insert_eq].
Qed.

Lemma visible_insert_err x id v e x' id' :
  vi_wf x → vi_insert x id v = (Some (Err e), x') → id' ≠ id → visible x' id' = visible x id'.
Proof.
  intros Hwf Hi Hne. destruct (vi_insert_ok _ _ _ _ _ Hwf Hi) as (_ & Hothers).
  destruct (Hothers id' Hne) as [Hids Hvecs]. unfold visible. rewrite Hids.
  destruct (vi_ids x !! id') as [i|] eqn:E; [|done]. by apply Hvecs.
Qed.

(** Deleting the internal id of [id] hides [id] and nothing else. *)
Lemma visible_delete x id i x' id' :
  vi_wf x → vi_ids x !! id = Some i → vi_delete x i = (Ok tt, x') →
  visible x' id' = if decide (id' = id) then None else visible x id'.
Proof.
  intros Hwf Hid Hd. destruct (vi_delete_ok _ _ _ _ _ Hwf Hid Hd) as (_ & Hids & Hvecs).
  unfold visible. rewrite Hids, Hvecs. destruct (decide (id' = id)) as [->|Hne].
  - rewrite Hid. simpl. apply lookup_delete_eq.
  - destruct (vi_ids x !! id') as [i'|] eqn:E; [|done]. simpl. apply lookup_delete_ne.
    intros <-. apply Hne. by eapply vi_ids_inj.
Qed.
End visible.

(** ** The in-memory index *)

Record MockIndex := mkMock {
  mi_vectors : gmap Z (string * vector);
  mi_id_mapping : gmap string Z;
  mi_tombstones : TombstoneBitset;
  mi_next_id : Z;
  mi_dimensions : Z;
  mi_is_trained : bool;
  mi_is_rebuilding : bool;
}.

(** [MockIndex::new] panics on zero dimensions. *)
Definition mock_new (dimensions capacity : Z) : option MockIndex :=
  if dimensions >? 0 then
    Some (mkMock ∅ ∅ (tombstone_new capacity) 0 dimensions true false)
  else None.

(** [allocate_internal_id]: the old value, unless the next one overflows. *)
Definition allocate_internal_id (next_id : Z) : Result Z * Z :=
  if next_id + 1 <=? i64_max then (Ok next_id, next_id + 1)
  else (Err (InvalidParameter "internal vector id space exhausted"), next_id).

Definition validate_finite_vector_values (v : vector) (operation : string) : Result unit :=
  if existsb (λ x, negb (f32_is_finite x)) v then
    Err (InvalidParameter (operation +:+ " vector contains NaN or Infinity values"))
  else Ok tt.

Definition ensure_tombstone_capacity_for (t : TombstoneBitset) (required : Z) : TombstoneBitset :=
  if capacity t <? required then resize t required else t.

Definition set_vectors (x : MockIndex) (vs : gmap Z (string * vector)) (m : gmap string Z)
    (t : TombstoneBitset) (next_id : Z) : MockIndex :=
  mkMock vs m t next_id (mi_dimensions x) (mi_is_trained x) (mi_is_rebuilding x).

Definition mock_insert (x : MockIndex) (id : string) (v : vector) : option (Result Z) * MockIndex :=
  if negb (Zlength v =? mi_dimensions x) then
    (Some (Err (DimensionMismatch (mi_dimensions x) (Zlength v))), x)
  else
    match validate_finite_vector_values v "Insert" with
    | Err e => (Some (Err e), x)
    | Ok _ =>
        match mi_id_mapping x !! id with
        | Some i =>
            let vs := <[i := (id, v)]> (mi_vectors x) in
            match clear_deleted (mi_tombstones x) i with
            | None => (None, set_vectors x vs (mi_id_mapping x) (mi_tombstones x) (mi_next_id x))
            (* a failed clear is only logged *)
            | Some (_, t) => (Some (Ok i), set_vectors x vs (mi_id_mapping x) t (mi_next_id x))
            end
        | None =>
            match allocate_internal_id (mi_next_id x) with
            | (Err e, _) => (Some (Err e), x)
            | (Ok i, next) =>
                let t := ensure_tombstone_capacity_for (mi_tombstones x) (i + 1) in
                (Some (Ok i), set_vectors x (<[i := (id, v)]> (mi_vectors x))
                                (<[id := i]> (mi_id_mapping x)) t next)
            end
        end
    end.

(** [iter().map(insert).collect()]: stops at the first error. *)
Fixpoint mock_insert_batch (x : MockIndex) (l : list (string * vector))
    : option (Result (list Z)) * MockIndex :=
  match l with
  | [] => (Some (Ok []), x)
  | (id, v) :: l =>
      match mock_insert x id v with
      | (None, x) => (None, x)
      | (Some (Err e), x) => (Some (Err e), x)
      | (Some (Ok i), x) =>
          match mock_insert_batch x l with
          | (Some (Ok ids), x) => (Some (Ok (i :: ids)), x)
          | r => r
          end
      end
  end.

(** An access out of range of the bitset is not reached (see [mock_wf]). *)
Definition mock_delete (x : MockIndex) (i : Z) : Result unit * MockIndex :=
  match mark_deleted (mi_tombstones x) i with
  | Some (r, t) => (r, set_vectors x (mi_vectors x) (mi_id_mapping x) t (mi_next_id x))
  | None => (Err (Internal "panic"), x)
  end.

Definition mock_is_deleted (x : MockIndex) (i : Z) : bool :=
  default false (is_deleted (mi_tombstones x) i).

Definition mock_internal_id_of (x : MockIndex) (id : string) : option Z := mi_id_mapping x !! id.

Definition mock_get_vector (x : MockIndex) (i : Z) : Result (option vector) :=
  if mock_is_deleted x i then Ok None else Ok (snd <$> mi_vectors x !! i).

Definition mock_stats (x : MockIndex) : IndexStats :=
  let total := Z.of_nat (size (mi_vectors x)) in
  let deleted := deleted_count (mi_tombstones x) in
  mkIndexStats total (saturating_sub total deleted) deleted (mi_dimensions x)
    (total * (mi_dimensions x * 4 + 32)) None false (mi_is_rebuilding x).

Definition mock_trigger_rebuild (x : MockIndex) : MockIndex :=
  mkMock (filter (λ kv : Z * (string * vector), mock_is_deleted x kv.1 = false) (mi_vectors x))
    (mi_id_mapping x) (reset (mi_tombstones x)) (mi_next_id x) (mi_dimensions x) (mi_is_trained x)
    false.

#[global] Instance mock_index : VectorIndex MockIndex := {
  vi_insert := mock_insert;
  vi_insert_batch := mock_insert_batch;
  vi_delete := mock_delete;
  vi_is_deleted := mock_is_deleted;
  vi_internal_id_of := mock_internal_id_of;
  vi_get_vector := mock_get_vector;
  vi_stats := mock_stats;
}.

(** ** The in-memory index satisfies the laws *)

Definition mock_visible (x : MockIndex) : gmap Z vector :=
  snd <$> filter (λ kv : Z * (string * vector), mock_is_deleted x kv.1 = false) (mi_vectors x).

Record mock_wf (x : MockIndex) : Prop := {
  mw_tomb : ∃ s, represents (mi_tombstones x) s ∧ ∀ i, i ∈ s → i < mi_next_id x;
  mw_next : 0 ≤ mi_next_id x ≤ i64_max;
  mw_ids id i : mi_id_mapping x !! id = Some i → 0 ≤ i < mi_next_id x;
  mw_cap id i : mi_id_mapping x !! id = Some i → i < capacity (mi_tombstones x);
  mw_inj id id' i :
    mi_id_mapping x !! id = Some i → mi_id_mapping x !! id' = Some i → id = id';
  mw_vecs i p : mi_vectors x !! i = Some p → 0 ≤ i < mi_next_id x;
}.

Lemma mock_is_deleted_rep x s i :
  represents (mi_tombstones x) s → mock_is_deleted x i = bool_decide (i ∈ s).
Proof. intros Hs. unfold mock_is_deleted. by rewrite (is_deleted_represents _ _ _ Hs). Qed.

Lemma mock_visible_lookup x i :
  mock_visible x !! i = if mock_is_deleted x i then None else snd <$> mi_vectors x !! i.
Proof.
  unfold mock_visible. rewrite lookup_fmap, map_lookup_filter.
  destruct (mi_vectors x !! i) as [p|] eqn:E; simpl; [|by destruct (mock_is_deleted x i)].
  destruct (mock_is_deleted x i); [by rewrite option_guard_False|by rewrite option_guard_True].
Qed.

Lemma mock_visible_same x x' :
  mi_vectors x' = mi_vectors x → (∀ i, mock_is_deleted x' i = mock_is_deleted x i) →
  mock_visible x' = mock_visible x.
Proof.
  intros Hv Hd. apply map_eq. intros i. by rewrite !mock_visible_lookup, Hd, Hv.
Qed.

Lemma ensure_represents t s c :
  represents t s → c ≤ u64_max →
  represents (ensure_tombstone_capacity_for t c) s ∧
  c ≤ capacity (ensure_tombstone_capacity_for t c) ∧
  capacity t ≤ capacity (ensure_tombstone_capacity_for t c).
Proof.
  intros Hs Hc. unfold ensure_tombstone_capacity_for.
  destruct (Z.ltb_spec (capacity t) c); [|split_and!; (done || lia)].
  split_and!; [apply grow_represents; (done || lia)|simpl; lia..].
Qed.

(** An update in place: the vector is stored and its tombstone cleared. *)
Lemma mock_upsert_spec x id v i x' r :
  mock_wf x → mi_id_mapping x !! id = Some i →
  clear_deleted (mi_tombstones x) i = r →
  ∃ t, r = Some (Ok tt, t) ∧
  (x' = set_vectors x (<[i := (id, v)]> (mi_vectors x)) (mi_id_mapping x) t (mi_next_id x) →
   mock_wf x' ∧ mock_visible x' = <[i := v]> (mock_visible x)).
Proof.
  intros Hwf Hid <-. destruct (mw_tomb _ Hwf) as (s & Hs & Hsn).
  pose proof (mw_ids _ Hwf _ _ Hid) as Hi. pose proof (mw_cap _ Hwf _ _ Hid) as Hc.
  destruct (clear_represents _ s i Hs) as (t & Ht & Hs' & Hcap); [lia|].
  exists t. split; [done|]. intros ->. split.
  - split; simpl; [|apply Hwf..| |apply Hwf|].
    + exists (s ∖ {[i]}). split; [done|]. intros j [? _]%elem_of_difference. auto.
    + intros id' i' ?. rewrite Hcap. by eapply mw_cap.
    + intros j p [[<- _]|[_ ?]]%lookup_insert_Some; [done|by eapply mw_vecs].
  - apply map_eq. intros j. rewrite mock_visible_lookup.
    rewrite (mock_is_deleted_rep (set_vectors _ _ _ t _) (s ∖ {[i]}) j Hs'). simpl.
    destruct (decide (i = j)) as [->|Hne].
    + rewrite !lookup_insert_eq. by rewrite bool_decide_false by set_solver.
    + rewrite !lookup_insert_ne, mock_visible_lookup, (mock_is_deleted_rep _ s j Hs) by done.
      by rewrite (bool_decide_ext (j ∈ s ∖ {[i]}) (j ∈ s)) by set_solver.
Qed.

Lemma mock_fresh_spec x id v i x' :
  mock_wf x → mi_id_mapping x !! id = None → i = mi_next_id x → i + 1 ≤ i64_max →
  x' = set_vectors x (<[i := (id, v)]> (mi_vectors x)) (<[id := i]> (mi_id_mapping x))
         (ensure_tombstone_capacity_for (mi_tombstones x) (i + 1)) (i + 1) →
  mock_wf x' ∧ mock_visible x' = <[i := v]> (mock_visible x) ∧ mock_visible x !! i = None.
Proof.
  intros Hwf Hid -> Hmax ->. destruct (mw_tomb _ Hwf) as (s & Hs & Hsn).
  pose proof (mw_next _ Hwf) as Hn.
  destruct (ensure_represents _ s (mi_next_id x + 1) Hs) as (Hs' & Hc1 & Hc2).
  { unfold i64_max, u64_max in *. lia. }
  assert (∀ id', mi_id_mapping x !! id' ≠ Some (mi_next_id x)) as Hno.
  { intros id' ?%(mw_ids _ Hwf). lia. }
  split_and!.
  - split; simpl.
    + exists s. split; [done|]. intros j ?%Hsn. lia.
    + lia.
    + intros id' i' [[_ <-]|[_ ?%(mw_ids _ Hwf)]]%lookup_insert_Some; lia.
    + intros id' i' [[_ <-]|[_ ?%(mw_cap _ Hwf)]]%lookup_insert_Some; lia.
    + intros id1 id2 i' [[<- <-]|[_ H1]]%lookup_insert_Some [[<- E]|[_ H2]]%lookup_insert_Some;
        [done|by destruct (Hno id2)|subst i'; by destruct (Hno id1)|by eapply mw_inj].
    + intros j p [[<- _]|[_ ?%(mw_vecs _ Hwf)]]%lookup_insert_Some; lia.
  - apply map_eq. intros j. rewrite mock_visible_lookup.
    rewrite (mock_is_deleted_rep (set_vectors _ _ _ (ensure_tombstone_capacity_for _ _) _) s j Hs'). simpl.
    destruct (decide (mi_next_id x = j)) as [<-|Hne].
    + rewrite !lookup_insert_eq, bool_decide_false; [done|]. intros ?%Hsn. lia.
    + by rewrite !lookup_insert_ne, mock_visible_lookup, (mock_is_deleted_rep _ s j Hs) by done.
  - rewrite mock_visible_lookup. destruct (mi_vectors x !! mi_next_id x) as [p|] eqn:E.
    + apply (mw_vecs _ Hwf) in E. lia.
    + by destruct (mock_is_deleted x (mi_next_id x)).
Qed.

Lemma mock_insert_spec x id v r x' :
  mock_wf x → mock_insert x id v = (r, x') →
  mock_wf x' ∧
  match r with
  | Some (Ok i) =>
      mi_id_mapping x' = <[id := i]> (mi_id_mapping x) ∧
      mock_visible x' = <[i := v]> (mock_visible x) ∧
      (mi_id_mapping x !! id = Some i
       ∨ mi_id_mapping x !! id = None ∧ mock_visible x !! i = None)
  | Some (Err _) => x' = x
  | None => False
  end.
Proof.
  intros Hwf. unfold mock_insert.
  destruct (negb _); [by intros [= <- <-]|].
  destruct (validate_finite_vector_values v "Insert"); [|by intros [= <- <-]].
  destruct (mi_id_mapping x !! id) as [i|] eqn:Hid.
  - destruct (mock_upsert_spec x id v i x' _ Hwf Hid eq_refl) as (t & -> & Hx').
    intros [= <- <-]. destruct Hx' as [Hwf' Hvis]; [done|]. split; [done|]. simpl.
    split_and!; [by rewrite insert_id|done|by left].
  - unfold allocate_internal_id. destruct (Z.leb_spec (mi_next_id x + 1) i64_max);
      [|by intros [= <- <-]].
    intros [= <- Hx']. destruct (mock_fresh_spec x id v _ x' Hwf Hid eq_refl) as (? & ? & ?);
      [done|done|]. split; [done|]. subst x'. simpl. auto.
Qed.

Lemma mock_delete_spec x id i r x' :
  mock_wf x → mi_id_mapping x !! id = Some i → mock_delete x i = (r, x') →
  r = Ok tt ∧ mock_wf x' ∧ mi_id_mapping x' = mi_id_mapping x ∧
  mock_visible x' = delete i (mock_visible x).
Proof.
  intros Hwf Hid. destruct (mw_tomb _ Hwf) as (s & Hs & Hsn).
  pose proof (mw_ids _ Hwf _ _ Hid) as Hi. pose proof (mw_cap _ Hwf _ _ Hid) as Hc.
  unfold mock_delete. destruct (mark_represents _ s i Hs) as (t & -> & Hs' & Hcap); [lia|].
  intros [= <- <-]. split_and!; [done| |done|].
  - split; simpl; [|apply Hwf..| |apply Hwf|apply Hwf].
    + exists ({[i]} ∪ s). split; [done|].
      intros j [->%elem_of_singleton|?]%elem_of_union; [lia|auto].
    + intros id' i' ?. rewrite Hcap. by eapply mw_cap.
  - apply map_eq. intros j. rewrite mock_visible_lookup.
    rewrite (mock_is_deleted_rep (set_vectors _ _ _ t _) ({[i]} ∪ s) j Hs'). simpl.
    destruct (decide (i = j)) as [->|Hne].
    + rewrite lookup_delete_eq. by rewrite bool_decide_true by set_solver.
    + rewrite lookup_delete_ne, mock_visible_lookup, (mock_is_deleted_rep _ s j Hs) by done.
      by rewrite (bool_decide_ext (j ∈ {[i]} ∪ s) (j ∈ s)) by set_solver.
Qed.

#[global] Program Instance mock_laws : VectorIndexLaws MockIndex := {
  vi_wf := mock_wf;
  vi_ids := mi_id_mapping;
  vi_kept v := v;
  vi_vecs := mock_visible;
}.
Next Obligation. intros x id id' i Hwf. apply (mw_inj _ Hwf). Qed.
Next Obligation.
  intros x id v r x' Hwf Hi. destruct (mock_insert_spec _ _ _ _ _ Hwf Hi) as [Hwf' H].
  split; [done|]. destruct r; [done|]. subst x'. by intros.
Qed.
Next Obligation.
  intros x id i r x' Hwf Hid Hd.
  by destruct (mock_delete_spec _ _ _ _ _ Hwf Hid Hd) as (-> & ? & ? & ?).
Qed.
Next Obligation. done. Qed.
Next Obligation.
  intros x i o Hwf. simpl. unfold mock_get_vector. rewrite mock_visible_lookup.
  by destruct (mock_is_deleted x i); intros [= <-].
Qed.

#[global] Instance mock_calm : VectorIndexCalm MockIndex.
Proof.
  intros x id v Hwf Hn. simpl in *. destruct (mock_insert x id v) as [r x'] eqn:E. simpl in Hn.
  subst r. by destruct (mock_insert_spec _ _ _ _ _ Hwf E) as [_ []].
Qed.

Lemma mock_new_wf dimensions c x :
  is_u64 c → mock_new dimensions c = Some x → mock_wf x.
Proof.
  intros Hc. unfold mock_new. destruct (dimensions >? 0); [|done]. intros [= <-].
  split; simpl; try (by intros ? ? ?%lookup_empty_Some); try (by intros ? ? ? ?%lookup_empty_Some).
  - exists ∅. split; [by apply zeros_represent|set_solver].
  - unfold i64_max. lia.
Qed.
