(* ===== verification/RebuildManager.v ===== *)
(** * Rebuilding an index while it serves

    [crates/faiss-wrapper/src/rebuild/typestate.rs]: the rebuild as a machine
    whose type is its state, and [manager.rs]: the manager that writes to the
    serving index and to its replacement until the two are exchanged. The methods
    of the manager are modelled for calls that do not overlap; they take their locks
    one after the other, and [swap_between_loses_insert] shows what an exchange
    between the two parts of an insert does. The primary and the
    shadow are different indices. A clock reading and a reading of an index's
    statistics are arguments. Metrics and the assertions of debug builds are left
    out. *)

From S2P Require Import Prelude Float64 Tombstone VectorIndex.

(** ** The typestate machine *)

Module Typestate.

Inductive fsm_state := Idle | Preparing | Building | Replaying | Validating | Swapping | Cleaning.

Record PreparingData := mkPreparing { p_wal_lsn : Z; p_started_at : Z }.
Record BuildingData (I : Type) := mkBuilding {
  b_wal_lsn : Z; b_shadow : I; b_started_at : Z; b_rebuild_started_at : Z }.
Record ReplayingData (I : Type) := mkReplaying {
  r_wal_lsn : Z; r_shadow : I; r_started_at : Z; r_rebuild_started_at : Z; r_entries_replayed : Z }.
Record ValidatingData (I : Type) := mkValidating {
  v_shadow : I; v_started_at : Z; v_rebuild_started_at : Z }.
Record SwappingData (I : Type) := mkSwapping {
  s_shadow : I; s_old_active_vectors : Z; s_old_tombstones : Z; s_started_at : Z;
  s_rebuild_started_at : Z }.
Record CleaningData := mkCleaning { c_started_at : Z; c_rebuild_started_at : Z }.

Arguments mkBuilding {I} _ _ _ _.
Arguments b_wal_lsn {I} _.
Arguments b_shadow {I} _.
Arguments b_rebuild_started_at {I} _.
Arguments mkReplaying {I} _ _ _ _ _.
Arguments r_wal_lsn {I} _.
Arguments r_shadow {I} _.
Arguments r_started_at {I} _.
Arguments r_rebuild_started_at {I} _.
Arguments mkValidating {I} _ _ _.
Arguments v_shadow {I} _.
Arguments v_rebuild_started_at {I} _.
Arguments mkSwapping {I} _ _ _ _ _.
Arguments s_shadow {I} _.
Arguments s_old_active_vectors {I} _.
Arguments s_old_tombstones {I} _.
Arguments s_rebuild_started_at {I} _.

(** The data each state carries. *)
Definition state_data (I : Type) (s : fsm_state) : Type :=
  match s with
  | Idle => unit
  | Preparing => PreparingData
  | Building => BuildingData I
  | Replaying => ReplayingData I
  | Validating => ValidatingData I
  | Swapping => SwappingData I
  | Cleaning => CleaningData
  end.

(** [RebuildFsm<S, I>]: a method exists only at the state its type names. *)
Record RebuildFsm (I : Type) (s : fsm_state) := mkFsm { primary : I; fsm_data : state_data I s }.
Arguments mkFsm {I} s _ _.
Arguments primary {I s} _.
Arguments fsm_data {I s} _.

Section fsm.
Context {I : Type}.

Definition fsm_new (p : I) : RebuildFsm I Idle := mkFsm Idle p tt.

Definition fsm_start_rebuild (f : RebuildFsm I Idle) (wal_lsn now : Z) : RebuildFsm I Preparing :=
  mkFsm Preparing (primary f) (mkPreparing wal_lsn now).

Definition fsm_set_shadow (f : RebuildFsm I Preparing) (shadow : I) (now : Z) : RebuildFsm I Building :=
  mkFsm Building (primary f)
    (mkBuilding (p_wal_lsn (fsm_data f)) shadow now (p_started_at (fsm_data f))).

Definition complete_build (f : RebuildFsm I Building) (now : Z) : Result (RebuildFsm I Replaying) :=
  Ok (mkFsm Replaying (primary f)
        (mkReplaying (b_wal_lsn (fsm_data f)) (b_shadow (fsm_data f)) now
           (b_rebuild_started_at (fsm_data f)) 0)).

Definition fsm_update_progress (f : RebuildFsm I Replaying) (entries_replayed : Z)
    : RebuildFsm I Replaying :=
  mkFsm Replaying (primary f)
    (mkReplaying (r_wal_lsn (fsm_data f)) (r_shadow (fsm_data f)) (r_started_at (fsm_data f))
       (r_rebuild_started_at (fsm_data f)) entries_replayed).

Definition complete_replay (f : RebuildFsm I Replaying) (now : Z) : RebuildFsm I Validating :=
  mkFsm Validating (primary f)
    (mkValidating (r_shadow (fsm_data f)) now (r_rebuild_started_at (fsm_data f))).

Definition complete_validation (f : RebuildFsm I Validating) (primary_stats : IndexStats) (now : Z)
    : RebuildFsm I Swapping :=
  mkFsm Swapping (primary f)
    (mkSwapping (v_shadow (fsm_data f)) (active_vectors primary_stats)
       (tombstoned_vectors primary_stats) now (v_rebuild_started_at (fsm_data f))).

Definition swap (f : RebuildFsm I Swapping) (new_stats : IndexStats) (now : Z)
    : Result (RebuildFsm I Cleaning) :=
  let expected_min :=
    saturating_sub (s_old_active_vectors (fsm_data f)) (s_old_tombstones (fsm_data f)) in
  if active_vectors new_stats <? expected_min then
    Err (IndexError "Data loss detected: new index has  vectors, expected at least ")
  else
    Ok (mkFsm Cleaning (s_shadow (fsm_data f)) (mkCleaning now (s_rebuild_started_at (fsm_data f)))).

(** Returns the machine and the total duration. *)
Definition complete (f : RebuildFsm I Cleaning) (now : Z) : RebuildFsm I Idle * Z :=
  (mkFsm Idle (primary f) tt, saturating_sub now (c_rebuild_started_at (fsm_data f))).

(** [abort] exists before the swap only. *)
Definition abort {s} (f : RebuildFsm I s) : RebuildFsm I Idle := mkFsm Idle (primary f) tt.

Definition has_abort (s : fsm_state) : bool :=
  match s with Preparing | Building | Replaying | Validating | Swapping => true | _ => false end.

(** ** Runs of the machine *)

Inductive label :=
| LStart (wal_lsn : Z)
| LShadow (shadow : I)
| LBuild
| LProgress (n : Z)
| LReplay
| LValidate (st : IndexStats)
| LSwap (st : IndexStats)
| LComplete
| LAbort.

Inductive fsm_step : ∀ s s', RebuildFsm I s → label → RebuildFsm I s' → Prop :=
| FStart f wal_lsn now : fsm_step Idle Preparing f (LStart wal_lsn) (fsm_start_rebuild f wal_lsn now)
| FShadow f shadow now : fsm_step Preparing Building f (LShadow shadow) (fsm_set_shadow f shadow now)
| FBuild f now f' : complete_build f now = Ok f' → fsm_step Building Replaying f LBuild f'
| FProgress f n : fsm_step Replaying Replaying f (LProgress n) (fsm_update_progress f n)
| FReplay f now : fsm_step Replaying Validating f LReplay (complete_replay f now)
| FValidate f st now :
    fsm_step Validating Swapping f (LValidate st) (complete_validation f st now)
| FSwap f st now f' : swap f st now = Ok f' → fsm_step Swapping Cleaning f (LSwap st) f'
| FComplete f now : fsm_step Cleaning Idle f LComplete (complete f now).1
| FAbort s f : has_abort s = true → fsm_step s Idle f LAbort (abort f).

Inductive fsm_run (p0 : I) : ∀ s, RebuildFsm I s → list label → Prop :=
| run_new : fsm_run p0 Idle (fsm_new p0) []
| run_step s s' f f' ls l :
    fsm_run p0 s f ls → fsm_step s s' f l f' → fsm_run p0 s' f' (ls ++ [l]).

(** The labels of one rebuild up to its validation. *)
Definition validated (shadow : I) (st : IndexStats) (ls : list label) : Prop :=
  ∃ wal_lsn ns,
    ls = [LStart wal_lsn; LShadow shadow; LBuild] ++ (LProgress <$> ns) ++ [LReplay; LValidate st].

(** What the labels say of the primary: the shadow of the last exchange. *)
Definition last_swapped (p0 : I) (ls : list label) : I :=
  (foldl (λ acc l, match l with
                   | LShadow sh => (acc.1, Some sh)
                   | LSwap _ => (default acc.1 acc.2, None)
                   | LAbort => (acc.1, None)
                   | _ => acc
                   end) (p0, None) ls).1.

Definition current_shadow (p0 : I) (ls : list label) : option I :=
  (foldl (λ acc l, match l with
                   | LShadow sh => (acc.1, Some sh)
                   | LSwap _ => (default acc.1 acc.2, None)
                   | LAbort => (acc.1, None)
                   | _ => acc
                   end) (p0, None) ls).2.

(** What has happened since the start of the rebuild, by the state. *)
Definition history (s : fsm_state) (f : RebuildFsm I s) (ls : list label) : Prop :=
  match s return RebuildFsm I s → Prop with
  | Idle => λ _, True
  | Preparing => λ f, ∃ pre, ls = pre ++ [LStart (p_wal_lsn (fsm_data f))]
  | Building => λ f, ∃ pre,
      ls = pre ++ [LStart (b_wal_lsn (fsm_data f)); LShadow (b_shadow (fsm_data f))]
  | Replaying => λ f, ∃ pre ns,
      ls = pre ++ [LStart (r_wal_lsn (fsm_data f)); LShadow (r_shadow (fsm_data f)); LBuild]
           ++ (LProgress <$> ns)
  | Validating => λ f, ∃ pre wal_lsn ns,
      ls = pre ++ [LStart wal_lsn; LShadow (v_shadow (fsm_data f)); LBuild]
           ++ (LProgress <$> ns) ++ [LReplay]
  | Swapping => λ f, ∃ pre rest st,
      ls = pre ++ rest ∧ validated (s_shadow (fsm_data f)) st rest ∧
      s_old_active_vectors (fsm_data f) = active_vectors st ∧
      s_old_tombstones (fsm_data f) = tombstoned_vectors st
  | Cleaning => λ f, ∃ pre rest st st',
      ls = pre ++ rest ++ [LSwap st'] ∧ validated (primary f) st rest ∧
      saturating_sub (active_vectors st) (tombstoned_vectors st) ≤ active_vectors st'
  end f.

Lemma step_history s s' (f : RebuildFsm I s) l (f' : RebuildFsm I s') ls :
  fsm_step s s' f l f' → history s f ls → history s' f' (ls ++ [l]).
Proof.
  destruct 1; simpl.
  - intros _. by exists ls.
  - intros (pre & ->). exists pre. by rewrite <-(assoc_L (++)).
  - injection H as <-. intros (pre & ->). exists pre, []. simpl. by rewrite <-(assoc_L (++)).
  - intros (pre & ns & ->). exists pre, (ns ++ [n]). simpl.
    by rewrite fmap_app, <-!(assoc_L (++)).
  - intros (pre & ns & ->). exists pre, (r_wal_lsn (fsm_data f)), ns. by rewrite <-!(assoc_L (++)).
  - intros (pre & wal_lsn & ns & ->). eexists pre, _, st. split_and!; [by rewrite <-!(assoc_L (++))| |done..].
    exists wal_lsn, ns. simpl. by rewrite <-!(assoc_L (++)).
  - intros (pre & rest & st0 & -> & Hv & Ha & Ht). unfold swap in H. revert H.
    destruct (Z.ltb_spec (active_vectors st)
      (saturating_sub (s_old_active_vectors (fsm_data f)) (s_old_tombstones (fsm_data f)))); [done|].
    intros [= <-]. exists pre, rest, st0, st. simpl. rewrite <-Ha, <-Ht.
    split_and!; [by rewrite <-(assoc_L (++))|done|lia].
  - done.
  - done.
Qed.

Lemma run_history p0 s f ls : fsm_run p0 s f ls → history s f ls.
Proof. induction 1; [done|by eapply step_history]. Qed.

(** The shadow a state carries is the one the labels name, and so is the
    primary. *)
Definition tracked (p0 : I) (s : fsm_state) (f : RebuildFsm I s) (ls : list label) : Prop :=
  primary f = last_swapped p0 ls ∧
  match s return RebuildFsm I s → Prop with
  | Building => λ f, current_shadow p0 ls = Some (b_shadow (fsm_data f))
  | Replaying => λ f, current_shadow p0 ls = Some (r_shadow (fsm_data f))
  | Validating => λ f, current_shadow p0 ls = Some (v_shadow (fsm_data f))
  | Swapping => λ f, current_shadow p0 ls = Some (s_shadow (fsm_data f))
  | _ => λ _, True
  end f.

Lemma step_tracked p0 s s' (f : RebuildFsm I s) l (f' : RebuildFsm I s') ls :
  fsm_step s s' f l f' → tracked p0 s f ls → tracked p0 s' f' (ls ++ [l]).
Proof.
  intros Hstep. unfold tracked, last_swapped, current_shadow. rewrite foldl_app. simpl.
  set (acc := foldl _ (p0, None) ls). destruct Hstep; simpl; try (by intros [-> ?]).
  - injection H as <-. simpl. by intros [-> ?].
  - intros [_ Hs]. unfold swap in H. revert H. destruct (_ <? _); [done|]. intros [= <-]. simpl.
    by rewrite Hs.
Qed.

Lemma run_primary p0 s f ls : fsm_run p0 s f ls → primary f = last_swapped p0 ls.
Proof.
  intros Hrun. cut (tracked p0 s f ls); [by intros [? _]|].
  induction Hrun; [done|by eapply step_tracked].
Qed.

(** C37: the types of the machine enforce the protocol. Whatever methods a
    program calls, the primary index is the initial one or the shadow of the
    last completed exchange; and a machine that has exchanged its index (is
    cleaning) did so at once after starting, being given that very shadow,
    completing the build, replaying and validating, in this order, and the new
    index had at least the vectors the guard asks for. *)
Theorem typestate_protocol p0 s (f : RebuildFsm I s) ls :
  fsm_run p0 s f ls →
  primary f = last_swapped p0 ls ∧
  (s = Cleaning →
   ∃ pre rest st st', ls = pre ++ rest ++ [LSwap st'] ∧ validated (primary f) st rest ∧
   saturating_sub (active_vectors st) (tombstoned_vectors st) ≤ active_vectors st').
Proof.
  intros Hrun. split; [by apply (run_primary p0 s f)|]. intros ->. exact (run_history _ _ _ _ Hrun).
Qed.
End fsm.

Arguments label : clear implicits.

Definition stats_of (active tombstoned : Z) : IndexStats :=
  mkIndexStats (active + tombstoned) active tombstoned 4 0 None false false.

(** A rebuild of index 1 into index 2. *)
Definition demo_labels : list (label nat) :=
  [LStart 7; LShadow 2%nat; LBuild; LProgress 3; LReplay; LValidate (stats_of 10 2);
   LSwap (stats_of 10 0)].

Definition demo_fsm : RebuildFsm nat Cleaning := mkFsm Cleaning 2%nat (mkCleaning 60 10).

Lemma demo_run : fsm_run 1%nat Cleaning demo_fsm demo_labels.
Proof.
  set (f1 := fsm_start_rebuild (fsm_new 1%nat) 7 10). set (f2 := fsm_set_shadow f1 2%nat 20).
  set (f3 := mkFsm Replaying 1%nat (mkReplaying 7 2%nat 30 10 0)).
  set (f4 := fsm_update_progress f3 3). set (f5 := complete_replay f4 40).
  set (f6 := complete_validation f5 (stats_of 10 2) 50).
  apply (run_step _ _ _ f6 demo_fsm [LStart 7; LShadow 2%nat; LBuild; LProgress 3; LReplay;
    LValidate (stats_of 10 2)]); [|by apply (FSwap f6 _ 60)].
  apply (run_step _ _ _ f5 f6 [LStart 7; LShadow 2%nat; LBuild; LProgress 3; LReplay]);
    [|apply FValidate].
  apply (run_step _ _ _ f4 f5 [LStart 7; LShadow 2%nat; LBuild; LProgress 3]); [|apply FReplay].
  apply (run_step _ _ _ f3 f4 [LStart 7; LShadow 2%nat; LBuild]); [|apply FProgress].
  apply (run_step _ _ _ f2 f3 [LStart 7; LShadow 2%nat]); [|by apply (FBuild f2 30)].
  apply (run_step _ _ _ f1 f2 [LStart 7]); [|apply FShadow].
  apply (run_step _ _ _ (fsm_new 1%nat) f1 []); [apply run_new|apply FStart].
Qed.

Lemma typestate_protocol_witness : primary demo_fsm = last_swapped 1%nat demo_labels.
Proof. exact (proj1 (typestate_protocol 1%nat Cleaning demo_fsm demo_labels demo_run)). Defined.

(** The guard of the exchange subtracts the tombstones from a count that already
    leaves them out: a new index that lost as many live vectors passes. *)
Lemma guard_accepts_loss :
  let f := mkFsm Swapping 1%nat (mkSwapping 2%nat 10 4 50 10) in
  is_ok (swap f (stats_of 6 0) 60) = true.
Proof. reflexivity. Qed.
End Typestate.

(** ** The manager *)

Module Manager.

Inductive RebuildState := Idle | Preparing | Building | Replaying | Validating | Swapping | Cleaning.

Definition state_name (s : RebuildState) : string :=
  match s with
  | Idle => "idle"
  | Preparing => "preparing"
  | Building => "building"
  | Replaying => "replaying"
  | Validating => "validating"
  | Swapping => "swapping"
  | Cleaning => "cleaning"
  end.

Record RebuildProgress := mkProgress {
  pr_state : RebuildState;
  vectors_processed : Z;
  vectors_total : Z;
  wal_entries_replayed : Z;
  pr_started_at : option Z;
  phase_started_at : option Z;
}.

Definition progress_default : RebuildProgress := mkProgress Idle 0 0 0 None None.

Definition progress_percent (p : RebuildProgress) : f64 :=
  if vectors_total p =? 0 then f64_zero
  else f64_div (f64_of_Z (vectors_processed p)) (f64_of_Z (vectors_total p)).

Definition elapsed (p : RebuildProgress) (now : Z) : option Z :=
  (λ start, saturating_sub now start) <$> pr_started_at p.

Definition set_phase (p : RebuildProgress) (s : RebuildState) (now : Z) : RebuildProgress :=
  mkProgress s (vectors_processed p) (vectors_total p) (wal_entries_replayed p)
    (pr_started_at p) (Some now).

Record RebuildConfig := mkConfig {
  compaction_threshold : f64;
  max_shadow_memory : Z;
  rebuild_batch_size : Z;
  rebuild_timeout : Z;
  min_rebuild_interval : Z;
  validate_before_swap : bool;
  validation_sample_size : Z;
}.

(** Durations in seconds. *)
Definition config_default : RebuildConfig :=
  mkConfig (f64_lit 10 100) (8 * 1024 * 1024 * 1024) 10000 600 3600 true 1000.

Record RebuildManager (I : Type) := mkManager {
  m_primary : I;
  m_shadow : option I;
  m_config : RebuildConfig;
  m_state : RebuildState;
  m_progress : RebuildProgress;
  m_wal_start_lsn : Z;
  m_last_rebuild : option Z;
  m_rebuilding : bool;
}.
Arguments mkManager {I} _ _ _ _ _ _ _ _.
Arguments m_primary {I} _.
Arguments m_shadow {I} _.
Arguments m_config {I} _.
Arguments m_state {I} _.
Arguments m_progress {I} _.
Arguments m_wal_start_lsn {I} _.
Arguments m_last_rebuild {I} _.
Arguments m_rebuilding {I} _.

Section manager.
Context {I : Type} `{!VectorIndex I}.
Implicit Types (m : RebuildManager I).

Definition manager_new (p : I) (config : RebuildConfig) : RebuildManager I :=
  mkManager p None config Idle progress_default 0 None false.

Definition is_rebuilding m : bool := m_rebuilding m.

Definition manager_needs_compaction m (t : TombstoneBitset) (now : Z) : bool :=
  match m_last_rebuild m with
  | Some last =>
      if saturating_sub now last <? min_rebuild_interval (m_config m) then false
      else needs_compaction t (compaction_threshold (m_config m))
  | None => needs_compaction t (compaction_threshold (m_config m))
  end.

Definition start_rebuild m (current_wal_lsn now : Z) : Result Z * RebuildManager I :=
  if m_rebuilding m then (Err RebuildInProgress, m)
  else
    (Ok current_wal_lsn,
     mkManager (m_primary m) (m_shadow m) (m_config m) Preparing
       (mkProgress Preparing 0 0 0 (Some now) (Some now)) current_wal_lsn (m_last_rebuild m) true).

Definition set_shadow m (shadow_index : I) (now : Z) : RebuildManager I :=
  mkManager (m_primary m) (Some shadow_index) (m_config m) Building
    (set_phase (m_progress m) Building now) (m_wal_start_lsn m) (m_last_rebuild m) (m_rebuilding m).

Definition update_progress m (processed total : Z) : RebuildManager I :=
  let p := m_progress m in
  mkManager (m_primary m) (m_shadow m) (m_config m) (m_state m)
    (mkProgress (pr_state p) processed total (wal_entries_replayed p) (pr_started_at p)
       (phase_started_at p)) (m_wal_start_lsn m) (m_last_rebuild m) (m_rebuilding m).

Definition start_wal_replay m (now : Z) : RebuildManager I :=
  mkManager (m_primary m) (m_shadow m) (m_config m) Replaying
    (set_phase (m_progress m) Replaying now) (m_wal_start_lsn m) (m_last_rebuild m) (m_rebuilding m).

Definition update_wal_replay_progress m (entries_replayed : Z) : RebuildManager I :=
  let p := m_progress m in
  mkManager (m_primary m) (m_shadow m) (m_config m) (m_state m)
    (mkProgress (pr_state p) (vectors_processed p) (vectors_total p) entries_replayed
       (pr_started_at p) (phase_started_at p)) (m_wal_start_lsn m) (m_last_rebuild m)
    (m_rebuilding m).

(** A violated critical invariant is logged and the exchange stands. *)
Definition swap_indices m (now : Z) : Result unit * RebuildManager I :=
  match m_shadow m with
  | None => (Err (InvalidParameter "No shadow index to swap"), m)
  | Some shadow =>
      (Ok tt, mkManager shadow None (m_config m) Swapping (set_phase (m_progress m) Swapping now)
                (m_wal_start_lsn m) (m_last_rebuild m) (m_rebuilding m))
  end.

Definition complete_rebuild m (now now' : Z) : Result unit * RebuildManager I :=
  let p := set_phase (m_progress m) Cleaning now in
  (Ok tt, mkManager (m_primary m) (m_shadow m) (m_config m) Idle
            (mkProgress Idle (vectors_processed p) (vectors_total p) (wal_entries_replayed p)
               (pr_started_at p) (phase_started_at p)) (m_wal_start_lsn m) (Some now') false).

Definition abort_rebuild m : RebuildManager I :=
  mkManager (m_primary m) None (m_config m) Idle progress_default (m_wal_start_lsn m)
    (m_last_rebuild m) false.

(** Storing a changed index back. *)
Definition with_indices m (p : I) (s : option I) : RebuildManager I :=
  mkManager p s (m_config m) (m_state m) (m_progress m) (m_wal_start_lsn m) (m_last_rebuild m)
    (m_rebuilding m).

(** Whether the id names a vector that can be read. *)
Definition preexisting_visible (p : I) (id : string) : bool :=
  match vi_internal_id_of p id with
  | Some internal => match vi_get_vector p internal with Ok (Some _) => true | _ => false end
  | None => false
  end.

Definition upsert_kept_error : AkiDbError :=
  IndexError "Shadow insert failed during rebuild: . The upsert remains on the primary index but is missing from the shadow; restart the rebuild to avoid losing this update after swap.".
Definition rollback_failed_error : AkiDbError :=
  IndexError "Shadow insert failed () AND rollback failed (). Index may be inconsistent - manual intervention required.".
Definition rolled_back_error : AkiDbError :=
  IndexError "Shadow insert failed during rebuild: . Primary insert rolled back to prevent data loss after swap.".

(** The first part of an insert: the primary is captured and receives the
    vector. A panic of the primary is the caller's. *)
Definition insert_primary m (id : string) (v : vector) : option (Result Z) * RebuildManager I :=
  let '(r, p) := vi_insert (m_primary m) id v in (r, with_indices m p (m_shadow m)).

(** The second part, under the lock of the shadow: the shadow receives the vector
    too, if there still is one; a panic of the shadow is caught. The rollback is on
    the captured primary, which is still [m]'s when no exchange came in between. *)
Definition insert_shadow m (preexisting : bool) (id : string) (v : vector) (result : Z)
    : option (Result Z) * RebuildManager I :=
  match m_shadow m with
  | None => (Some (Ok result), m)
  | Some shadow =>
      let p := m_primary m in
      match vi_insert shadow id v with
      | (Some (Ok _), s) => (Some (Ok result), with_indices m p (Some s))
      | (_, s) =>
          if preexisting then (Some (Err upsert_kept_error), with_indices m p (Some s))
          else
            match vi_delete p result with
            | (Err _, p) => (Some (Err rollback_failed_error), with_indices m p (Some s))
            | (Ok _, p) => (Some (Err rolled_back_error), with_indices m p (Some s))
            end
      end
  end.

(** An insert that no other call comes between. *)
Definition manager_insert m (id : string) (v : vector) : option (Result Z) * RebuildManager I :=
  let preexisting := preexisting_visible (m_primary m) id in
  match insert_primary m id v with
  | (Some (Ok result), m) => insert_shadow m preexisting id v result
  | r => r
  end.

(** The rollback of a batch: how many upserts were kept, how many deletions
    failed, and the primary after them. *)
Fixpoint rollback_batch (p : I) (results : list Z) (preexisting : list bool) (kept failures : Z)
    : Z * Z * I :=
  match results with
  | [] => (kept, failures, p)
  | internal_id :: results =>
      if default false (head preexisting) then
        rollback_batch p results (tail preexisting) (kept + 1) failures
      else
        match vi_delete p internal_id with
        | (Err _, p) => rollback_batch p results (tail preexisting) kept (failures + 1)
        | (Ok _, p) => rollback_batch p results (tail preexisting) kept failures
        end
  end.

Definition batch_rollbacks_failed_error : AkiDbError :=
  IndexError "Shadow batch insert failed () AND  rollbacks failed. Index may be inconsistent - manual intervention required. Failed IDs: ".
Definition batch_failed_error : AkiDbError :=
  IndexError "Shadow batch insert failed during rebuild: .  new inserts rolled back;  upserts kept on primary (restart the rebuild to avoid losing them after swap).".

Definition manager_insert_batch m (vectors : list (string * vector))
    : option (Result (list Z)) * RebuildManager I :=
  let preexisting := (λ kv : string * vector, preexisting_visible (m_primary m) kv.1) <$> vectors in
  match vi_insert_batch (m_primary m) vectors with
  | (None, p) => (None, with_indices m p (m_shadow m))
  | (Some (Err e), p) => (Some (Err e), with_indices m p (m_shadow m))
  | (Some (Ok results), p) =>
      match m_shadow m with
      | None => (Some (Ok results), with_indices m p None)
      | Some shadow =>
          match vi_insert_batch shadow vectors with
          | (Some (Ok _), s) => (Some (Ok results), with_indices m p (Some s))
          | (_, s) =>
              let '(kept, failures, p) := rollback_batch p results preexisting 0 0 in
              (Some (Err (if failures >? 0 then batch_rollbacks_failed_error else batch_failed_error)),
               with_indices m p (Some s))
          end
      end
  end.

Definition shadow_delete_error : AkiDbError :=
  IndexError "Shadow delete failed during rebuild: . Delete aborted to prevent data resurrection after swap.".

(** The internal id the primary assigned is given to both indices. *)
Definition manager_delete m (id : Z) : Result unit * RebuildManager I :=
  let on_primary (s : option I) :=
    let '(r, p) := vi_delete (m_primary m) id in (r, with_indices m p s) in
  match m_shadow m with
  | Some shadow =>
      match vi_delete shadow id with
      | (Err _, s) => (Err shadow_delete_error, with_indices m (m_primary m) (Some s))
      | (Ok _, s) => on_primary (Some s)
      end
  | None => on_primary None
  end.

Definition manager_get_vector m (id : Z) : Result (option vector) := vi_get_vector (m_primary m) id.

Definition manager_stats m : IndexStats :=
  let s := vi_stats (m_primary m) in
  mkIndexStats (total_vectors s) (active_vectors s) (tombstoned_vectors s) (st_dimensions s)
    (st_memory_bytes s) (gpu_memory_bytes s) (using_gpu s) (m_rebuilding m).

Definition manager_is_deleted m (id : Z) : bool := vi_is_deleted (m_primary m) id.

Definition manager_trigger_rebuild m : Result unit :=
  if m_rebuilding m then Err RebuildInProgress else Ok tt.

(** ** Writes during a rebuild *)

Context `{!VectorIndexLaws I}.

Definition manager_wf m : Prop :=
  vi_wf (m_primary m) ∧ match m_shadow m with Some s => vi_wf s | None => True end.

(** The writes a client makes. *)
Inductive Write :=
| Insert (id : string) (v : vector)
| Delete (id : string) (internal : Z).

(** The internal id of a deletion is the one both indices assigned. *)
Definition write_pre m (w : Write) : Prop :=
  match w with
  | Insert _ _ => True
  | Delete id internal =>
      vi_ids (m_primary m) !! id = Some internal ∧
      match m_shadow m with Some s => vi_ids s !! id = Some internal | None => True end
  end.

(** What the client may count on after a write: an acknowledged insertion is its
    last value; after an error or a deletion it counts on nothing. *)
Definition write m (acked : gmap string vector) (w : Write) : RebuildManager I * gmap string vector :=
  match w with
  | Insert id v =>
      match manager_insert m id v with
      | (Some (Ok _), m) => (m, <[id := v]> acked)
      | (_, m) => (m, delete id acked)
      end
  | Delete id internal => ((manager_delete m internal).2, delete id acked)
  end.

Fixpoint writes m (acked : gmap string vector) (ws : list Write)
    : RebuildManager I * gmap string vector :=
  match ws with
  | [] => (m, acked)
  | w :: ws => let '(m, acked) := write m acked w in writes m acked ws
  end.

Fixpoint writes_pre m (acked : gmap string vector) (ws : list Write) : Prop :=
  match ws with
  | [] => True
  | w :: ws => write_pre m w ∧ let '(m, acked) := write m acked w in writes_pre m acked ws
  end.

(** Every acknowledged insertion can be read from the index. *)
Definition holds (x : I) (acked : gmap string vector) : Prop :=
  ∀ id v, acked !! id = Some v → visible x id = Some (vi_kept (I:=I) v).

Lemma holds_insert x x' acked id v :
  (∀ id', visible x' id' = if decide (id' = id) then Some (vi_kept (I:=I) v) else visible x id') →
  holds x acked → holds x' (<[id := v]> acked).
Proof.
  intros Hx Hh id' v'. rewrite Hx. intros [[<- <-]|[Hne Ha]]%lookup_insert_Some.
  - by rewrite decide_True.
  - rewrite decide_False by done. by apply Hh.
Qed.

Lemma holds_other x x' acked id :
  (∀ id', id' ≠ id → visible x' id' = visible x id') → holds x acked → holds x' (delete id acked).
Proof.
  intros Hx Hh id' v' [Hne Ha]%lookup_delete_Some. rewrite Hx by done. by apply Hh.
Qed.

Lemma vi_insert_wf `{!VectorIndexCalm I} x id v r x' :
  vi_wf x → vi_insert x id v = (r, x') → vi_wf x' ∧ ∃ r', r = Some r'.
Proof.
  intros Hwf Hi. destruct r as [r'|].
  - split; [|eauto]. by eapply vi_insert_ok.
  - exfalso. apply (vi_insert_calm x id v Hwf). by rewrite Hi.
Qed.

Lemma insert_holds `{!VectorIndexCalm I} x id v i x' acked :
  vi_wf x → vi_insert x id v = (Some (Ok i), x') → holds x acked → holds x' (<[id := v]> acked).
Proof. intros Hwf Hi. apply holds_insert. intros id'. by eapply visible_insert. Qed.

Lemma insert_err_holds x id v e x' acked :
  vi_wf x → vi_insert x id v = (Some (Err e), x') → holds x acked → holds x' (delete id acked).
Proof. intros Hwf Hi. apply holds_other. intros id' ?. by eapply visible_insert_err. Qed.

Lemma delete_holds x id i r x' acked :
  vi_wf x → vi_ids x !! id = Some i → vi_delete x i = (r, x') →
  vi_wf x' ∧ (holds x acked → holds x' (delete id acked)).
Proof.
  intros Hwf Hid Hd. destruct (vi_delete_ok _ _ _ _ _ Hwf Hid Hd) as (Hwf' & Hids & Hr).
  split; [done|]. apply holds_other. intros id' Hne. destruct r as [[]|].
  - by rewrite (visible_delete x id i x' id' Hwf Hid Hd), decide_False.
  - unfold visible. by rewrite Hids, Hr.
Qed.

Definition both_hold m acked : Prop :=
  manager_wf m ∧ holds (m_primary m) acked ∧
  match m_shadow m with Some s => holds s acked | None => True end.

Lemma holds_weaken x acked id : holds x acked → holds x (delete id acked).
Proof. by apply holds_other. Qed.

Ltac close_holds :=
  unfold both_hold, manager_wf; simpl; split_and!;
  first [done | by eauto using insert_holds | by auto using holds_weaken | by split; eauto].

Lemma manager_insert_spec `{!VectorIndexCalm I} m id v r m' acked :
  manager_insert m id v = (r, m') → both_hold m acked →
  both_hold m' (match r with Some (Ok _) => <[id := v]> acked | _ => delete id acked end) ∧
  (is_Some (m_shadow m') ↔ is_Some (m_shadow m)).
Proof.
  intros Hi ((Hp & Hs) & Hhp & Hhs). unfold manager_insert, insert_primary in Hi.
  destruct (vi_insert (m_primary m) id v) as [rp p'] eqn:Ep.
  destruct (vi_insert_wf _ _ _ _ _ Hp Ep) as (Hp' & rp' & ->).
  destruct rp' as [i|e].
  2:{ injection Hi as <- <-. pose proof (insert_err_holds _ _ _ _ _ acked Hp Ep Hhp).
      destruct (m_shadow m) eqn:Esh; close_holds. }
  unfold insert_shadow in Hi. cbn [m_shadow m_primary with_indices] in Hi.
  destruct (m_shadow m) as [s|] eqn:Esh.
  2:{ injection Hi as <- <-. close_holds. }
  destruct (vi_insert s id v) as [rs s'] eqn:Es.
  destruct (vi_insert_wf _ _ _ _ _ Hs Es) as (Hs' & rs' & ->).
  destruct rs' as [j|e].
  { injection Hi as <- <-. close_holds. }
  pose proof (insert_err_holds _ _ _ _ _ acked Hs Es Hhs) as Hhs'.
  pose proof (insert_holds _ _ _ _ _ acked Hp Ep Hhp) as Hhp'.
  assert (holds p' (delete id acked)) as Hhp2.
  { intros id' v' [Hne Ha]%lookup_delete_Some. apply Hhp'. by rewrite lookup_insert_ne. }
  destruct (preexisting_visible (m_primary m) id).
  { injection Hi as <- <-. close_holds. }
  assert (vi_ids p' !! id = Some i) as Hid.
  { destruct (vi_insert_ok _ _ _ _ _ Hp Ep) as (_ & -> & _). apply lookup_insert_eq. }
  destruct (vi_delete p' i) as [rd p2] eqn:Ed.
  destruct (delete_holds _ _ _ _ _ (delete id acked) Hp' Hid Ed) as [Hp2 Hd].
  assert (holds p2 (delete id acked)) as Hd'.
  { intros id' v' Ha. apply Hd; [done|]. rewrite lookup_delete_ne; [done|].
    intros <-. by rewrite lookup_delete_eq in Ha. }
  destruct rd; injection Hi as <- <-; close_holds.
Qed.

Lemma manager_delete_spec m id i r m' acked :
  manager_delete m i = (r, m') → write_pre m (Delete id i) → both_hold m acked →
  both_hold m' (delete id acked) ∧ (is_Some (m_shadow m') ↔ is_Some (m_shadow m)).
Proof.
  intros Hd [Hip His] ((Hp & Hs) & Hhp & Hhs). unfold manager_delete in Hd.
  destruct (vi_delete (m_primary m) i) as [rp p'] eqn:Ep.
  destruct (delete_holds _ _ _ _ _ acked Hp Hip Ep) as [Hp' Hhp'].
  destruct (m_shadow m) as [s|] eqn:Esh.
  - destruct (vi_delete s i) as [rs s'] eqn:Es.
    destruct (delete_holds _ _ _ _ _ acked Hs His Es) as [Hs' Hhs'].
    destruct rs; injection Hd as <- <-; close_holds.
  - injection Hd as <- <-. close_holds.
Qed.

Lemma write_holds `{!VectorIndexCalm I} m acked w m' acked' :
  write m acked w = (m', acked') → write_pre m w → both_hold m acked →
  both_hold m' acked' ∧ (is_Some (m_shadow m') ↔ is_Some (m_shadow m)).
Proof.
  destruct w as [id v|id i]; simpl; intros Hw Hpre Hb.
  - destruct (manager_insert m id v) as [r m2] eqn:E.
    pose proof (manager_insert_spec _ _ _ _ _ _ E Hb) as H.
    destruct r as [[]|]; by injection Hw as <- <-.
  - destruct (manager_delete m i) as [r m2] eqn:E. injection Hw as <- <-.
    by eapply manager_delete_spec.
Qed.

Lemma writes_hold `{!VectorIndexCalm I} ws : ∀ m acked,
  writes_pre m acked ws → both_hold m acked →
  both_hold (writes m acked ws).1 (writes m acked ws).2 ∧
  (is_Some (m_shadow (writes m acked ws).1) ↔ is_Some (m_shadow m)).
Proof.
  induction ws as [|w ws IH]; intros m acked; simpl; [done|].
  intros [Hpre Hrun] Hb. destruct (write m acked w) as [m' acked'] eqn:E.
  destruct (write_holds _ _ _ _ _ E Hpre Hb) as [Hb' Hsh].
  destruct (IH m' acked' Hrun Hb') as [? ?]. split; [done|]. by rewrite <-Hsh.
Qed.

(** Calls that do not overlap lose no acknowledged write. A shadow that holds what the
    clients count on when it is installed still does after any insertions
    (which may fail on either index) and deletions (of ids the two indices
    agree on), so that after the exchange the new primary serves the last
    acknowledged value of every id; and the old primary served it before. *)
Lemma acked_writes_survive_swap `{!VectorIndexCalm I} m sh acked ws t t' :
  manager_wf m → vi_wf sh → holds (m_primary m) acked → holds sh acked →
  writes_pre (set_shadow m sh t) acked ws →
  ∃ m', swap_indices (writes (set_shadow m sh t) acked ws).1 t' = (Ok tt, m') ∧
  m_shadow m' = None ∧
  holds (m_primary (writes (set_shadow m sh t) acked ws).1)
        (writes (set_shadow m sh t) acked ws).2 ∧
  holds (m_primary m') (writes (set_shadow m sh t) acked ws).2.
Proof.
  intros [Hp _] Hsh Hhp Hhs Hpre.
  destruct (writes_hold ws (set_shadow m sh t) acked Hpre) as [((Hwp & Hws) & Hhp' & Hhs') Hsome].
  { unfold both_hold, manager_wf. simpl. by split_and!. }
  set (r := writes (set_shadow m sh t) acked ws) in *.
  destruct (m_shadow r.1) as [s|] eqn:E.
  - unfold swap_indices. rewrite E. eexists. by split_and!.
  - destruct (proj2 Hsome) as [? [=]]. simpl. eauto.
Qed.

(** ** One rebuild at a time *)

Inductive MStep m : RebuildManager I → Prop :=
| MStart lsn t r m' : start_rebuild m lsn t = (r, m') → MStep m m'
| MShadow s t : MStep m (set_shadow m s t)
| MProgress a b : MStep m (update_progress m a b)
| MReplay t : MStep m (start_wal_replay m t)
| MReplayProgress n : MStep m (update_wal_replay_progress m n)
| MSwap t r m' : swap_indices m t = (r, m') → MStep m m'
| MInsert id v r m' : manager_insert m id v = (r, m') → MStep m m'
| MBatch vs r m' : manager_insert_batch m vs = (r, m') → MStep m m'
| MDelete i r m' : manager_delete m i = (r, m') → MStep m m'.

Lemma mstep_rebuilding m m' : MStep m m' → m_rebuilding m = true → m_rebuilding m' = true.
Proof.
  intros Hs Hr. destruct Hs; simpl; try done.
  - unfold start_rebuild in H. rewrite Hr in H. by simplify_eq.
  - unfold swap_indices in H. by destruct (m_shadow m); simplify_eq/=.
  - unfold manager_insert, insert_primary, insert_shadow in H. repeat case_match; by simplify_eq/=.
  - unfold manager_insert_batch in H. repeat case_match; by simplify_eq/=.
  - unfold manager_delete in H. repeat case_match; by simplify_eq/=.
Qed.

(** Between a start and its completion or abort every further start is
    refused and changes nothing; an abort leaves the primary, drops the shadow
    and allows the next start. *)
Lemma rebuild_exclusive m lsn t m1 m2 lsn' t' :
  start_rebuild m lsn t = (Ok lsn, m1) → rtc MStep m1 m2 →
  start_rebuild m2 lsn' t' = (Err RebuildInProgress, m2) ∧
  m_primary (abort_rebuild m2) = m_primary m2 ∧ m_shadow (abort_rebuild m2) = None ∧
  is_ok (start_rebuild (abort_rebuild m2) lsn' t').1 = true.
Proof.
  intros Hs Hrun. assert (m_rebuilding m1 = true) as H1.
  { unfold start_rebuild in Hs. destruct (m_rebuilding m); by simplify_eq. }
  assert (m_rebuilding m2 = true) as H2.
  { clear Hs. induction Hrun; eauto using mstep_rebuilding. }
  unfold start_rebuild. by rewrite H2.
Qed.
End manager.
End Manager.

(** ** Concrete indices *)

Module Example1.
Import Manager.

Definition mock0 : MockIndex := default (mkMock ∅ ∅ (tombstone_new 0) 0 2 true false) (mock_new 2 64).
Definition v1 : vector := [1065353216; 0].
Definition v2 : vector := [0; 1065353216].

Fixpoint fill (x : MockIndex) (l : list (string * vector)) : MockIndex :=
  match l with [] => x | (id, v) :: l => fill (mock_insert x id v).2 l end.

Lemma fill_wf x l : mock_wf x → mock_wf (fill x l).
Proof.
  revert x. induction l as [|[id v] l IH]; intros x Hx; simpl; [done|]. apply IH.
  destruct (mock_insert x id v) as [r x'] eqn:E. by destruct (mock_insert_spec _ _ _ _ _ Hx E).
Qed.

Lemma mock0_wf : mock_wf mock0.
Proof. apply (mock_new_wf 2 64); [done|reflexivity]. Qed.

(** The primary and its replacement, filled in the same order. *)
Definition base : MockIndex := fill mock0 [("a", v1); ("b", v1)].
Definition mgr : RebuildManager MockIndex := manager_new base config_default.
Definition acked : gmap string vector := <["a" := v1]> {["b" := v1]}.
Definition ws : list Write := [Insert "c" v2; Insert "a" v2; Delete "b" 1; Insert "d" [0]].

Lemma base_holds : holds base acked.
Proof.
  unfold holds, acked. intros id v [[<- <-]|[_ [<- <-]%lookup_singleton_Some]]%lookup_insert_Some;
    vm_compute; reflexivity.
Qed.

Lemma base_wf : mock_wf base.
Proof. apply fill_wf, mock0_wf. Qed.

Lemma mgr_wf : manager_wf mgr.
Proof. split; [exact base_wf|exact I]. Qed.

Lemma ws_pre : writes_pre (set_shadow mgr base 10) acked ws.
Proof.
  split; [exact I|]. split; [exact I|]. split; [|split; exact I].
  split; vm_compute; reflexivity.
Qed.

Lemma acked_writes_survive_swap_witness :
  ∃ m', swap_indices (writes (set_shadow mgr base 10) acked ws).1 20 = (Ok tt, m') ∧
  m_shadow m' = None ∧
  holds (m_primary (writes (set_shadow mgr base 10) acked ws).1)
        (writes (set_shadow mgr base 10) acked ws).2 ∧
  holds (m_primary m') (writes (set_shadow mgr base 10) acked ws).2.
Proof.
  exact (acked_writes_survive_swap mgr base acked ws 10 20 mgr_wf base_wf base_holds base_holds
    ws_pre).
Defined.

Lemma acked_example :
  map_to_list (writes (set_shadow mgr base 10) acked ws).2
  = map_to_list (<["a" := v2]> {["c" := v2]} : gmap string vector).
Proof. vm_compute. reflexivity. Qed.

Definition started : RebuildManager MockIndex := (start_rebuild mgr 7 10).2.

Lemma rebuild_exclusive_witness :
  start_rebuild (set_shadow started base 20) 9 30
  = (Err RebuildInProgress, set_shadow started base 20).
Proof.
  exact (proj1 (rebuild_exclusive mgr 7 10 started (set_shadow started base 20) 9 30 eq_refl
    (rtc_once _ _ (MShadow started base 20)))).
Defined.

(** *** Deletions during a rebuild *)

(** The primary has a tombstone, so its replacement numbers the vectors
    differently: deleting [b] by the primary's id hides [c] in the replacement,
    and after the exchange [b] is back and [c] is gone. *)
Definition worn : MockIndex :=
  (mock_delete (fill mock0 [("a", v1); ("b", v1); ("c", v2)]) 0).2.
Definition compacted : MockIndex := fill mock0 [("b", v1); ("c", v2)].
Definition during : RebuildManager MockIndex :=
  set_shadow (manager_new worn config_default) compacted 10.
Definition deleted : RebuildManager MockIndex := (manager_delete during 1).2.
Definition after : RebuildManager MockIndex := (swap_indices deleted 20).2.

Lemma delete_hits_wrong_vector :
  vi_internal_id_of (m_primary during) "b" = Some 1 ∧ (manager_delete during 1).1 = Ok tt ∧
  (visible (m_primary deleted) "b", visible (m_primary deleted) "c") = (None, Some v2) ∧
  (visible (m_primary after) "b", visible (m_primary after) "c") = (Some v1, None).
Proof. vm_compute. done. Qed.

(** A batch that fails half way on the primary leaves its first half there and
    nothing in the replacement. *)
Definition half : RebuildManager MockIndex :=
  (manager_insert_batch during [("x", v1); ("y", [0])]).2.

Lemma failed_batch_diverges :
  (manager_insert_batch during [("x", v1); ("y", [0])]).1 = Some (Err (DimensionMismatch 2 1)) ∧
  visible (m_primary half) "x" = Some v1 ∧ (m_shadow half ≫= λ s, visible s "x") = None.
Proof. vm_compute. done. Qed.

(** An insert reaches the primary, the indices are exchanged, and the insert finds
    no shadow left: it is acknowledged, and the new primary does not have it. *)
Lemma swap_between_loses_insert :
  let '(r, m1) := insert_primary (set_shadow mgr base 10) "c" v2 in
  let '(r', m2) := swap_indices m1 20 in
  let '(r'', m3) := insert_shadow m2 false "c" v2 2 in
  r = Some (Ok 2) ∧ r' = Ok tt ∧ r'' = Some (Ok 2) ∧ visible (m_primary m3) "c" = None.
Proof. vm_compute. done. Qed.

(** The exchange takes place although the new index lost a vector; the check of
    [swap_indices] only logs. *)
Lemma swap_despite_loss :
  let m := set_shadow (manager_new base config_default) mock0 10 in
  (swap_indices m 20).1 = Ok tt ∧ visible (m_primary (swap_indices m 20).2) "a" = None.
Proof. vm_compute. done. Qed.
End Example1.
