(* ===== verification/Lifecycle.v ===== *)
(** * The deletion lifecycle of source documents

    [crates/common/src/types/lifecycle.rs]: the manifest entry of an object in the
    source bucket, and how sync cycles that see it or miss it move it towards
    deletion. Times are in seconds; the clock is an argument. The document
    identifier is carried along and never inspected beyond its content hash. *)

From S2P Require Import Prelude.

Definition DELETION_THRESHOLD : Z := 3.
Definition DEFAULT_HARD_DELETE_DELAY_DAYS : Z := 7.

Inductive DeleteState :=
| Active
| MarkedForDeletion (detected_at : Z)
| ConfirmedMissing (confirmed_at : Z)
| HardDeleteScheduled (scheduled_for : Z).

Definition mark_for_deletion (now : Z) : DeleteState := MarkedForDeletion now.
Definition confirm_missing (now : Z) : DeleteState := ConfirmedMissing now.
Definition schedule_hard_delete (delay_days now : Z) : DeleteState :=
  HardDeleteScheduled (now + delay_days * 86400).

Definition is_active (s : DeleteState) : bool :=
  match s with Active => true | _ => false end.

Definition is_tombstoned (s : DeleteState) : bool :=
  match s with ConfirmedMissing _ | HardDeleteScheduled _ => true | _ => false end.

Definition is_marked (s : DeleteState) : bool :=
  match s with MarkedForDeletion _ => true | _ => false end.

Definition is_ready_for_hard_delete (s : DeleteState) (now : Z) : bool :=
  match s with HardDeleteScheduled scheduled_for => now >=? scheduled_for | _ => false end.

Definition timestamp (s : DeleteState) : option Z :=
  match s with
  | Active => None
  | MarkedForDeletion t | ConfirmedMissing t | HardDeleteScheduled t => Some t
  end.

Section manifest.
Context {DocumentIdentifier : Type} (doc_content_hash : DocumentIdentifier → list Z).

Record ObjectManifest := mkManifest {
  key : string;
  etag : string;
  content_hash : list Z;
  last_seen_epoch : Z;
  missing_count : Z;
  doc_id : DocumentIdentifier;
  delete_state : DeleteState;
  version : Z;
}.

Definition manifest_new (k e : string) (d : DocumentIdentifier) : ObjectManifest :=
  mkManifest k e (doc_content_hash d) 0 0 d Active 0.

(** A seen object is no longer marked; a confirmed deletion stays. *)
Definition unmark (s : DeleteState) : DeleteState := if is_marked s then Active else s.

Definition update_etag (m : ObjectManifest) (e : string) (epoch : Z) : ObjectManifest :=
  mkManifest (key m) e (content_hash m) epoch 0 (doc_id m) (unmark (delete_state m)) (version m).

Definition mark_seen (m : ObjectManifest) (epoch : Z) : ObjectManifest :=
  mkManifest (key m) (etag m) (content_hash m) epoch 0 (doc_id m) (unmark (delete_state m))
    (version m).

Definition with_missing (m : ObjectManifest) (n : Z) (s : DeleteState) : ObjectManifest :=
  mkManifest (key m) (etag m) (content_hash m) (last_seen_epoch m) n (doc_id m) s (version m).

Definition increment_missing_with_threshold (m : ObjectManifest) (deletion_threshold now : Z)
    : bool * ObjectManifest :=
  let deletion_threshold := Z.max deletion_threshold 1 in
  match delete_state m with
  | Active =>
      let n := saturating_add u8_max (missing_count m) 1 in
      if n >=? deletion_threshold then (true, with_missing m n (confirm_missing now))
      else (false, with_missing m n (mark_for_deletion now))
  | MarkedForDeletion _ =>
      let n := saturating_add u8_max (missing_count m) 1 in
      if n >=? deletion_threshold then (true, with_missing m n (confirm_missing now))
      else (false, with_missing m n (delete_state m))
  | ConfirmedMissing _ | HardDeleteScheduled _ => (false, m)
  end.

Definition increment_missing (m : ObjectManifest) (now : Z) : bool * ObjectManifest :=
  increment_missing_with_threshold m DELETION_THRESHOLD now.

Definition manifest_schedule_hard_delete (m : ObjectManifest) (delay_days now : Z)
    : ObjectManifest :=
  match delete_state m with
  | ConfirmedMissing _ =>
      with_missing m (missing_count m) (schedule_hard_delete delay_days now)
  | _ => m
  end.

Definition transition_to_confirmed (m : ObjectManifest) (now : Z) : ObjectManifest :=
  with_missing m (missing_count m) (confirm_missing now).

(** [version += 1] on a [u64]. *)
Definition increment_version (m : ObjectManifest) : ObjectManifest :=
  mkManifest (key m) (etag m) (content_hash m) (last_seen_epoch m) (missing_count m) (doc_id m)
    (delete_state m) (wrapping u64_max (version m + 1)).

Definition is_searchable (m : ObjectManifest) : bool := is_active (delete_state m).

(** ** Sync cycles *)

(** What one cycle finds of the object. *)
Inductive cycle :=
| Seen (epoch : Z)
| Changed (e : string) (epoch : Z)
| Missed (now : Z).

Definition is_miss (c : cycle) : bool := match c with Missed _ => true | _ => false end.

Definition sync (threshold : Z) (m : ObjectManifest) (c : cycle) : bool * ObjectManifest :=
  match c with
  | Seen epoch => (false, mark_seen m epoch)
  | Changed e epoch => (false, update_etag m e epoch)
  | Missed now => increment_missing_with_threshold m threshold now
  end.

(** The manifest after the cycles, and how often the caller was told to
    tombstone the document. *)
Definition run_cycles (threshold : Z) (m : ObjectManifest) (cs : list cycle)
    : Z * ObjectManifest :=
  foldl (λ '(n, m) c, let '(told, m) := sync threshold m c in
                      (if told then n + 1 else n, m)) (0, m) cs.

(** The length of the run of misses at the end, and whether some run has reached
    the threshold. *)
Definition miss_run (cs : list cycle) : Z :=
  foldl (λ n c, if is_miss c then n + 1 else 0) 0 cs.

Definition has_miss_run (threshold : Z) (cs : list cycle) : Prop :=
  ∃ before after ms, cs = before ++ ms ++ after ∧ Zlength ms = threshold ∧
                     Forall (λ c, is_miss c = true) ms.

Lemma miss_run_snoc cs c :
  miss_run (cs ++ [c]) = if is_miss c then miss_run cs + 1 else 0.
Proof. unfold miss_run. by rewrite foldl_app. Qed.

(** The run at the end really is one. *)
Lemma miss_run_suffix cs :
  0 ≤ miss_run cs ∧
  ∃ before ms, cs = before ++ ms ∧ Zlength ms = miss_run cs ∧ Forall (λ c, is_miss c = true) ms.
Proof.
  induction cs as [|c cs [H0 (before & ms & -> & Hl & Hm)]] using rev_ind.
  { split; [done|]. by exists [], []. }
  rewrite miss_run_snoc. destruct (is_miss c) eqn:Hc.
  - split; [lia|]. exists before, (ms ++ [c]). rewrite <-(assoc_L (++)), length_app. simpl.
    split_and!; [done|lia|]. apply Forall_app. by rewrite Forall_singleton.
  - split; [lia|]. exists ((before ++ ms) ++ [c]), []. by rewrite app_nil_r.
Qed.

(** All misses at the end are counted. *)
Lemma miss_run_ge before ms :
  Forall (λ c, is_miss c = true) ms → Zlength ms ≤ miss_run (before ++ ms).
Proof.
  induction ms as [|c ms IH] using rev_ind; intros Hm.
  { destruct (miss_run_suffix (before ++ [])). simpl. lia. }
  apply Forall_app in Hm as [Hm Hc]. rewrite Forall_singleton in Hc.
  rewrite app_assoc, miss_run_snoc, Hc, length_app. specialize (IH Hm). simpl. lia.
Qed.

Lemma has_miss_run_snoc threshold cs c :
  1 ≤ threshold →
  has_miss_run threshold (cs ++ [c]) ↔
  has_miss_run threshold cs ∨ threshold ≤ miss_run (cs ++ [c]).
Proof.
  intros Ht. split.
  - intros (before & after & ms & E & Hl & Hm). destruct after as [|a after _] using rev_ind.
    + right. rewrite app_nil_r in E. rewrite E, <-Hl. by apply miss_run_ge.
    + left. exists before, after, ms. split_and!; [|done|done].
      rewrite !app_assoc in E. apply app_inj_tail in E as [-> _]. by rewrite <-(assoc_L (++)).
  - intros [(before & after & ms & -> & Hl & Hm)|Hr].
    + exists before, (after ++ [c]), ms. by rewrite <-!(assoc_L (++)).
    + destruct (miss_run_suffix (cs ++ [c])) as [_ (before & ms & E & Hl & Hm)].
      exists (before ++ take (length ms - Z.to_nat threshold) ms), [],
        (drop (length ms - Z.to_nat threshold) ms).
      rewrite app_nil_r, <-(assoc_L (++)), take_drop. split_and!; [done| |by apply Forall_drop].
      rewrite length_drop. lia.
Qed.

(** What the manifest knows after the cycles. *)
Lemma run_cycles_spec threshold m0 cs :
  1 ≤ threshold ≤ u8_max → delete_state m0 = Active → missing_count m0 = 0 →
  let '(n, m) := run_cycles threshold m0 cs in
  if is_tombstoned (delete_state m) then has_miss_run threshold cs ∧ n = 1
  else ¬ has_miss_run threshold cs ∧ n = 0 ∧ missing_count m = miss_run cs ∧
       miss_run cs < threshold ∧ (is_active (delete_state m) = true ↔ miss_run cs = 0).
Proof.
  intros Ht Ha Hm. induction cs as [|c cs IH] using rev_ind.
  { simpl. rewrite Ha. simpl. change (miss_run []) with 0. split_and!; [|done|done|lia|done].
    intros (before & after & ms & E & Hl & _). symmetry in E.
    apply app_eq_nil in E as [_ [-> _]%app_eq_nil]. simpl in Hl. lia. }
  unfold run_cycles in *. rewrite foldl_app. destruct (foldl _ _ cs) as [n m]. cbn [foldl].
  pose proof (has_miss_run_snoc threshold cs c (proj1 Ht)) as Hsn.
  rewrite miss_run_snoc in Hsn |- *. destruct (miss_run_suffix cs) as [H0 _].
  destruct (is_tombstoned (delete_state m)) eqn:Hts.
  { destruct IH as [Hrun ->]. assert (has_miss_run threshold (cs ++ [c])) by (apply Hsn; by left).
    destruct c as [ep|e ep|now]; simpl; [..|unfold increment_missing_with_threshold];
      destruct (delete_state m) eqn:Hd; simpl in *; rewrite ?Hd; done. }
  destruct IH as (Hno & -> & Hmc & Hlt & Hact).
  destruct c as [ep|e ep|now]; simpl in *.
  1,2: destruct (delete_state m) eqn:Hd; simpl in *; try done;
       (split_and!; [intros [?|?]%Hsn; [done|lia]|done|done|lia|done]).
  unfold increment_missing_with_threshold. rewrite Hmc, Z.max_l by lia.
  assert (saturating_add u8_max (miss_run cs) 1 = miss_run cs + 1) as Hsat
    by (unfold saturating_add; lia).
  destruct (delete_state m) eqn:Hd; simpl in *; try done; rewrite Hsat, Z.geb_leb;
    destruct (Z.leb_spec threshold (miss_run cs + 1)); simpl; rewrite ?Hd; simpl;
    try (split; [apply Hsn; by right|done]).
  all: split_and!; [intros [?|?]%Hsn; [done|lia]|done|done|lia|split; [done|lia]].
Qed.

(** A document is tombstoned exactly when it has been missing for the
    threshold number of sync cycles in a row (a threshold of 0 counts as 1): a
    single cycle that sees it starts the count again, the caller is told to
    tombstone it exactly once, and until then it is searchable exactly when the
    last cycle saw it. *)
Lemma tombstoned_iff_missing_in_a_row threshold k e d cs :
  0 ≤ threshold ≤ u8_max →
  let t := Z.max threshold 1 in
  let '(told, m) := run_cycles threshold (manifest_new k e d) cs in
  (is_tombstoned (delete_state m) = true ↔ has_miss_run t cs) ∧
  told = (if is_tombstoned (delete_state m) then 1 else 0) ∧
  (is_tombstoned (delete_state m) = false → is_searchable m = true ↔ miss_run cs = 0).
Proof.
  intros Ht t.
  assert (∀ m c, sync threshold m c = sync t m c) as Hsync.
  { intros m [ep|e' ep|now]; [done..|]. simpl. unfold increment_missing_with_threshold, t.
    by replace (Z.max (Z.max threshold 1) 1) with (Z.max threshold 1) by lia. }
  assert (run_cycles threshold (manifest_new k e d) cs = run_cycles t (manifest_new k e d) cs) as ->.
  { unfold run_cycles. generalize (0, manifest_new k e d). induction cs as [|c cs IH]; intros [n m]; simpl;
      [done|]. rewrite Hsync. destruct (sync t m c). apply IH. }
  pose proof (run_cycles_spec t (manifest_new k e d) cs) as H.
  destruct (run_cycles t _ cs) as [told m]. unfold u8_max in *.
  specialize (H ltac:(lia) eq_refl eq_refl). unfold is_searchable.
  destruct (is_tombstoned (delete_state m)); naive_solver.
Qed.
End manifest.

Lemma tombstoned_iff_missing_in_a_row_witness :
  let '(told, m) := run_cycles 2 (manifest_new (λ _ : unit, []) "k" "e" tt)
                      [Missed 1; Seen 2; Missed 3; Missed 4; Seen 5] in
  told = 1 ∧ is_tombstoned (delete_state m) = true.
Proof.
  pose proof (tombstoned_iff_missing_in_a_row (λ _ : unit, []) 2 "k" "e" tt
                [Missed 1; Seen 2; Missed 3; Missed 4; Seen 5]) as H.
  destruct (run_cycles 2 _ _) as [told m] eqn:E. destruct H as (H1 & H2 & _).
  - vm_compute. split; congruence.
  - assert (is_tombstoned (delete_state m) = true) as Ht.
    { apply H1. exists [Missed 1; Seen 2], [Seen 5], [Missed 3; Missed 4].
      split_and!; [done|done|]. repeat constructor. }
    rewrite Ht in H2. done.
Defined.
