(* ===== verification/GraphModel.v ===== *)
(** * The graph's ids, kinds and storage keys

    [crates/graph/src/model.rs] and [crates/graph/src/keys.rs]. Node and edge ids
    are the byte strings they wrap. A property map ([serde_json::Map], ordered by
    key) is a finite map; a property value is of an abstract type. *)

From Stdlib Require Import Ascii.
From S2P Require Import Prelude Float32 Text Storage.

Abbreviation GraphNodeId := string (only parsing).
Abbreviation GraphEdgeId := string (only parsing).

(** ** Standard library pieces on byte strings *)

(** [str::strip_prefix]. *)
Definition strip_prefix (pre s : string) : option string :=
  if starts_with s pre then Some (str_drop (String.length pre) s) else None.

(** [str::split_once] at an ASCII character. *)
Fixpoint split_once (sep : ascii) (s : string) : option (string * string) :=
  match s with
  | EmptyString => None
  | String c s =>
      if Ascii.eqb c sep then Some ("", s)
      else match split_once sep s with
           | Some (a, b) => Some (String c a, b)
           | None => None
           end
  end.

(** The digits of [str::parse::<usize>], from the left, with the overflow check. *)
Fixpoint parse_digits (acc : Z) (s : string) : option Z :=
  match s with
  | EmptyString => Some acc
  | String c s =>
      let d := byte_of c - 48 in
      if (0 <=? d) && (d <=? 9) then
        if 10 * acc + d <=? usize_max then parse_digits (10 * acc + d) s else None
      else None
  end.

(** [str::parse::<usize>]: a leading plus sign is allowed, an empty number not. *)
Definition parse_usize (s : string) : option Z :=
  match s with
  | EmptyString => None
  | String c EmptyString => parse_digits 0 s
  | String c r => if Ascii.eqb c "+" then parse_digits 0 r else parse_digits 0 s
  end.

Fixpoint str_take (n : nat) (s : string) : string :=
  match n, s with
  | S n, String c s => String c (str_take n s)
  | _, _ => EmptyString
  end.

(** [s.as_bytes().get(i)]. *)
Definition byte_at (s : string) (i : Z) : option Z :=
  if i <? 0 then None else byte_of <$> String.get (Z.to_nat i) s.

(** [str::is_char_boundary]: the ends of the string, and any byte that is not a
    UTF-8 continuation byte. *)
Definition is_char_boundary (s : string) (i : Z) : bool :=
  if i =? 0 then true
  else if i =? Z.of_nat (String.length s) then true
  else match byte_at s i with
       | Some b => negb ((128 <=? b) && (b <? 192))
       | None => false
       end.

(** ** Node ids *)

Definition scoped (workspace_id local_id : string) : GraphNodeId :=
  "workspace:" +:+ decimal (Z.of_nat (String.length workspace_id)) +:+ ":"
    +:+ workspace_id +:+ ":" +:+ local_id.

Definition scoped_parts (id : GraphNodeId) : option (string * string) :=
  rest ← strip_prefix "workspace:" id;
  '(workspace_len, rest) ← split_once ":" rest;
  workspace_len ← parse_usize workspace_len;
  if (Z.of_nat (String.length rest) <=? workspace_len)
     || negb (is_char_boundary rest workspace_len)
     || negb (bool_decide (byte_at rest workspace_len = Some 58))
  then None
  else Some (str_take (Z.to_nat workspace_len) rest,
             str_drop (Z.to_nat (workspace_len + 1)) rest).

Definition workspace_id (id : GraphNodeId) : option string := fst <$> scoped_parts id.

Definition local_id (id : GraphNodeId) : string := default id (snd <$> scoped_parts id).

Definition is_same_workspace (a b : GraphNodeId) : bool :=
  bool_decide (workspace_id a = workspace_id b).

Definition as_chunk_vector_id (id : GraphNodeId) : option string :=
  strip_prefix "chunk:" (local_id id).

(** ** Kinds *)

Inductive NodeKind :=
| Document | Chunk | Section_ | File | Function_ | Type_ | Module_ | Commit | Person
| Entity | Memory.

Definition node_kind_as_key (k : NodeKind) : string :=
  match k with
  | Document => "document"
  | Chunk => "chunk"
  | Section_ => "section"
  | File => "file"
  | Function_ => "function"
  | Type_ => "type"
  | Module_ => "module"
  | Commit => "commit"
  | Person => "person"
  | Entity => "entity"
  | Memory => "memory"
  end.

Inductive EdgeKind :=
| ParentOf | ChildOf | Contains | Mentions | Imports | Calls | Implements | Tests
| TestedBy | DependsOn | OwnedBy | ChangedBy | RelatedTo.

Definition edge_kind_as_key (k : EdgeKind) : string :=
  match k with
  | ParentOf => "parent_of"
  | ChildOf => "child_of"
  | Contains => "contains"
  | Mentions => "mentions"
  | Imports => "imports"
  | Calls => "calls"
  | Implements => "implements"
  | Tests => "tests"
  | TestedBy => "tested_by"
  | DependsOn => "depends_on"
  | OwnedBy => "owned_by"
  | ChangedBy => "changed_by"
  | RelatedTo => "related_to"
  end.

#[global] Instance node_kind_eq_dec : EqDecision NodeKind.
Proof. solve_decision. Defined.

#[global] Instance edge_kind_eq_dec : EqDecision EdgeKind.
Proof. solve_decision. Defined.

Inductive Direction := DirOut | DirIn | DirBoth.

Inductive DirectionOnEdge := Outgoing | Incoming.

(** ** Keys *)

Definition NODE_PREFIX : string := "g:node:".
Definition EDGE_PREFIX : string := "g:edge:".
Definition OUT_PREFIX : string := "g:out:".
Definition IN_PREFIX : string := "g:in:".
Definition CHUNK_PREFIX : string := "g:chunk:".
Definition KIND_PREFIX : string := "g:kind:".

Definition component (value : string) : string :=
  decimal (Z.of_nat (String.length value)) +:+ ":" +:+ value +:+ ":".

Definition node_key (id : GraphNodeId) : string := NODE_PREFIX +:+ id.

Definition edge_key (id : GraphEdgeId) : string := EDGE_PREFIX +:+ id.

Definition adjacency_key_out (from : GraphNodeId) (kind : EdgeKind) (edge_id : GraphEdgeId)
    : string :=
  OUT_PREFIX +:+ component from +:+ edge_kind_as_key kind +:+ ":" +:+ edge_id.

Definition adjacency_key_in (to : GraphNodeId) (kind : EdgeKind) (edge_id : GraphEdgeId)
    : string :=
  IN_PREFIX +:+ component to +:+ edge_kind_as_key kind +:+ ":" +:+ edge_id.

Definition adjacency_prefix_out (node : GraphNodeId) (kind : option EdgeKind) : string :=
  match kind with
  | Some kind => OUT_PREFIX +:+ component node +:+ edge_kind_as_key kind +:+ ":"
  | None => OUT_PREFIX +:+ component node
  end.

Definition adjacency_prefix_in (node : GraphNodeId) (kind : option EdgeKind) : string :=
  match kind with
  | Some kind => IN_PREFIX +:+ component node +:+ edge_kind_as_key kind +:+ ":"
  | None => IN_PREFIX +:+ component node
  end.

Definition chunk_key (entity chunk : GraphNodeId) : string :=
  CHUNK_PREFIX +:+ component entity +:+ component chunk.

Definition chunk_prefix (entity : GraphNodeId) : string := CHUNK_PREFIX +:+ component entity.

Definition kind_prefix (kind : NodeKind) : string :=
  KIND_PREFIX +:+ node_kind_as_key kind +:+ ":".

Definition kind_key (kind : NodeKind) (node_id : GraphNodeId) : string :=
  KIND_PREFIX +:+ node_kind_as_key kind +:+ ":" +:+ node_id.

(** ** Records *)

Section records.
Context {Json : Type}.

Record GraphNode := mkNode {
  n_id : GraphNodeId;
  n_kind : NodeKind;
  n_properties : gmap string Json;
  n_created_at_ms : Z;
  n_updated_at_ms : Z;
}.

Record GraphEdge := mkEdge {
  e_id : GraphEdgeId;
  e_from : GraphNodeId;
  e_to : GraphNodeId;
  e_kind : EdgeKind;
  e_weight : f32;
  e_properties : gmap string Json;
  e_created_at_ms : Z;
  e_updated_at_ms : Z;
}.

Record GraphNeighbor := mkNeighbor {
  nb_node : GraphNode;
  nb_edge : GraphEdge;
  nb_direction : DirectionOnEdge;
}.

Record GraphPath := mkPath {
  gp_nodes : list GraphNode;
  gp_edges : list GraphEdge;
  gp_score : f32;
}.

Record RelatedChunk := mkRelated {
  rc_vector_id : string;
  rc_via_node : GraphNodeId;
}.

Record RelatedChunkTrace := mkTrace {
  rt_vector_id : string;
  rt_via_node : GraphNodeId;
  rt_hop : Z;
  rt_path_edges : list GraphEdge;
}.

Record GraphStats := mkStats {
  gs_nodes : Z;
  gs_edges : Z;
  gs_chunk_links : Z;
}.

Record DeleteNodeResult := mkDeleteNode {
  dn_deleted : bool;
  dn_edges_deleted : Z;
}.

Record GraphMutationBatch := mkBatch {
  b_delete_edges : list GraphEdgeId;
  b_replace_nodes : list GraphNodeId;
  b_nodes : list GraphNode;
  b_edges : list GraphEdge;
}.

Definition batch_new : GraphMutationBatch := mkBatch [] [] [] [].

Definition with_node (b : GraphMutationBatch) (node : GraphNode) : GraphMutationBatch :=
  mkBatch (b_delete_edges b) (b_replace_nodes b) (b_nodes b ++ [node]) (b_edges b).

Definition with_replaced_node (b : GraphMutationBatch) (node : GraphNode) : GraphMutationBatch :=
  mkBatch (b_delete_edges b) (b_replace_nodes b ++ [n_id node]) (b_nodes b ++ [node]) (b_edges b).

Definition with_deleted_edge (b : GraphMutationBatch) (edge_id : GraphEdgeId) : GraphMutationBatch :=
  mkBatch (b_delete_edges b ++ [edge_id]) (b_replace_nodes b) (b_nodes b) (b_edges b).

Definition with_edge (b : GraphMutationBatch) (edge : GraphEdge) : GraphMutationBatch :=
  mkBatch (b_delete_edges b) (b_replace_nodes b) (b_nodes b) (b_edges b ++ [edge]).

Definition batch_is_empty (b : GraphMutationBatch) : bool :=
  match b_delete_edges b, b_replace_nodes b, b_nodes b, b_edges b with
  | [], [], [], [] => true
  | _, _, _, _ => false
  end.

(** Constructors: the clock is an argument. *)
Definition graph_node_new (id : GraphNodeId) (kind : NodeKind) (now : Z) : GraphNode :=
  mkNode id kind ∅ now now.

Definition node_with_property (n : GraphNode) (key : string) (value : Json) : GraphNode :=
  mkNode (n_id n) (n_kind n) (<[key := value]> (n_properties n)) (n_created_at_ms n)
    (n_updated_at_ms n).

Definition graph_edge_new (id : GraphEdgeId) (from to : GraphNodeId) (kind : EdgeKind) (now : Z)
    : GraphEdge :=
  mkEdge id from to kind f32_one ∅ now now.

Definition with_weight (e : GraphEdge) (weight : f32) : GraphEdge :=
  mkEdge (e_id e) (e_from e) (e_to e) (e_kind e) weight (e_properties e)
    (e_created_at_ms e) (e_updated_at_ms e).

Definition edge_with_property (e : GraphEdge) (key : string) (value : Json) : GraphEdge :=
  mkEdge (e_id e) (e_from e) (e_to e) (e_kind e) (e_weight e)
    (<[key := value]> (e_properties e)) (e_created_at_ms e) (e_updated_at_ms e).
End records.

Arguments GraphNode : clear implicits.
Arguments GraphEdge : clear implicits.
Arguments GraphNeighbor : clear implicits.
Arguments GraphPath : clear implicits.
Arguments RelatedChunkTrace : clear implicits.
Arguments GraphMutationBatch : clear implicits.

(** ** Keys do not collide *)

Inductive GKey :=
| KNode (id : GraphNodeId)
| KEdge (id : GraphEdgeId)
| KOut (from : GraphNodeId) (kind : EdgeKind) (id : GraphEdgeId)
| KIn (to : GraphNodeId) (kind : EdgeKind) (id : GraphEdgeId)
| KChunk (entity chunk : GraphNodeId)
| KKind (kind : NodeKind) (id : GraphNodeId).

Definition gkey (k : GKey) : string :=
  match k with
  | KNode id => node_key id
  | KEdge id => edge_key id
  | KOut from kind id => adjacency_key_out from kind id
  | KIn to kind id => adjacency_key_in to kind id
  | KChunk entity chunk => chunk_key entity chunk
  | KKind kind id => kind_key kind id
  end.

Lemma component_inj a b x y : component a +:+ x = component b +:+ y → a = b ∧ x = y.
Proof.
  unfold component. rewrite !app_assoc_str. intros E.
  apply no_colon_split in E as [E1 E2]; [|apply decimal_no_colon..].
  apply decimal_inj in E1; [|lia..].
  apply app_same_length in E2 as [-> E2]; [|lia]. by injection E2.
Qed.

Lemma edge_kind_inj k k' x y :
  edge_kind_as_key k +:+ ":" +:+ x = edge_kind_as_key k' +:+ ":" +:+ y → k = k' ∧ x = y.
Proof.
  intros [E ->]%no_colon_split; [|by destruct k; repeat split|by destruct k'; repeat split].
  split; [|done]. by destruct k, k'.
Qed.

Lemma node_kind_inj k k' x y :
  node_kind_as_key k +:+ ":" +:+ x = node_kind_as_key k' +:+ ":" +:+ y → k = k' ∧ x = y.
Proof.
  intros [E ->]%no_colon_split; [|by destruct k; repeat split|by destruct k'; repeat split].
  split; [|done]. by destruct k, k'.
Qed.

Lemma str_app_inj p x y : p +:+ x = p +:+ y → x = y.
Proof. intros E. by apply (app_same_length p p) in E as [_ ?]. Qed.

(** A key determines its family and every part it was built from. *)
#[global] Instance gkey_inj : Inj (=) (=) gkey.
Proof.
  intros [] []; cbn [gkey];
    unfold node_key, edge_key, adjacency_key_out, adjacency_key_in, chunk_key, kind_key;
    intros E; try discriminate E; apply str_app_inj in E.
  - by subst.
  - by subst.
  - apply component_inj in E as [-> E]. by apply edge_kind_inj in E as [-> ->].
  - apply component_inj in E as [-> E]. by apply edge_kind_inj in E as [-> ->].
  - apply component_inj in E as [-> E]. unfold component in E.
    apply no_colon_split in E as [E1 E2]; [|apply decimal_no_colon..].
    apply decimal_inj in E1; [|lia..]. apply app_same_length in E2 as [-> _]; [done|lia].
  - by apply node_kind_inj in E as [-> ->].
Qed.

Definition kind_selected (kind : option EdgeKind) (k : EdgeKind) : Prop :=
  match kind with None => True | Some k' => k = k' end.

Lemma out_prefix_spec node kind k :
  starts_with (gkey k) (adjacency_prefix_out node kind) = true
  ↔ ∃ kd id, k = KOut node kd id ∧ kind_selected kind kd.
Proof.
  rewrite starts_with_spec. unfold adjacency_prefix_out, kind_selected. split.
  - intros [x E]. destruct kind as [kd|]; rewrite !app_assoc_str in E.
    + exists kd, x. split; [|done]. by apply (inj gkey).
    + destruct k; try discriminate E; cbn [gkey] in E; unfold adjacency_key_out in E.
      apply str_app_inj, component_inj in E as [-> _]. eauto.
  - intros (kd & id & -> & Hk). destruct kind as [kd'|]; [subst|];
      eexists; cbn [gkey]; unfold adjacency_key_out; by rewrite !app_assoc_str.
Qed.

Lemma in_prefix_spec node kind k :
  starts_with (gkey k) (adjacency_prefix_in node kind) = true
  ↔ ∃ kd id, k = KIn node kd id ∧ kind_selected kind kd.
Proof.
  rewrite starts_with_spec. unfold adjacency_prefix_in, kind_selected. split.
  - intros [x E]. destruct kind as [kd|]; rewrite !app_assoc_str in E.
    + exists kd, x. split; [|done]. by apply (inj gkey).
    + destruct k; try discriminate E; cbn [gkey] in E; unfold adjacency_key_in in E.
      apply str_app_inj, component_inj in E as [-> _]. eauto.
  - intros (kd & id & -> & Hk). destruct kind as [kd'|]; [subst|];
      eexists; cbn [gkey]; unfold adjacency_key_in; by rewrite !app_assoc_str.
Qed.

(** ** Scoped ids *)

Lemma digit_byte d : (d < 10)%N → byte_of (pretty_N_char d) - 48 = Z.of_N d.
Proof.
  intros H. assert (∃ n, d = N.of_nat n ∧ (n < 10)%nat) as (n & -> & Hn).
  { exists (N.to_nat d). lia. }
  do 10 (destruct n as [|n]; [done|]). lia.
Qed.

Lemma parse_digits_go x s :
  Z.of_N x ≤ usize_max → parse_digits 0 (pretty_N_go x s) = parse_digits (Z.of_N x) s.
Proof.
  revert s. induction (N.lt_wf_0 x) as [x _ IH]; intros s Hx.
  destruct (decide (x = 0%N)) as [->|Hne]; [by rewrite pretty_N_go_0|].
  rewrite pretty_N_go_step by lia.
  assert ((x `div` 10 < x)%N) as Hlt by (apply N.div_lt; lia).
  rewrite IH; [|done|lia]. cbn [parse_digits].
  assert ((x `mod` 10 < 10)%N) by (by apply N.mod_lt).
  rewrite digit_byte by done.
  assert (10 * Z.of_N (x `div` 10) + Z.of_N (x `mod` 10) = Z.of_N x) as ->.
  { pose proof (N.div_mod x 10 ltac:(done)). lia. }
  pose proof (N2Z.is_nonneg (x `mod` 10)). pose proof (proj1 (N2Z.inj_lt _ _) H).
  destruct (Z.leb_spec 0 (Z.of_N (x `mod` 10))), (Z.leb_spec (Z.of_N (x `mod` 10)) 9),
    (Z.leb_spec (Z.of_N x) usize_max); done || lia.
Qed.

Lemma pretty_N_go_head x s :
  (0 < x)%N → ∃ d r, pretty_N_go x s = String (pretty_N_char d) r ∧ (d < 10)%N.
Proof.
  revert s. induction (N.lt_wf_0 x) as [x _ IH]; intros s Hx.
  rewrite pretty_N_go_step by lia.
  assert ((x `mod` 10 < 10)%N) by (by apply N.mod_lt).
  destruct (decide (x `div` 10 = 0)%N) as [->|].
  - rewrite pretty_N_go_0. eauto.
  - apply IH; [by apply N.div_lt|]. by apply N.neq_0_lt_0.
Qed.

(** Parsing reads back what formatting wrote. *)
Lemma parse_usize_decimal n : is_usize n → parse_usize (decimal n) = Some n.
Proof.
  intros [Hn Hm]. unfold decimal, pretty, pretty_N. case_decide as E.
  { assert (n = 0) as -> by lia. done. }
  assert (parse_digits 0 (pretty_N_go (Z.to_N n) "") = Some n) as Hp.
  { rewrite parse_digits_go by lia. simpl. by rewrite Z2N.id. }
  destruct (pretty_N_go_head (Z.to_N n) "") as (d & r & Hr & Hd); [lia|].
  rewrite Hr in *. unfold parse_usize. destruct r as [|c r]; [done|].
  destruct (Ascii.eqb_spec (pretty_N_char d) "+") as [Hplus|]; [|done].
  pose proof (digit_byte d Hd) as Hb. rewrite Hplus in Hb. change (-5 = Z.of_N d) in Hb. lia.
Qed.

Lemma split_once_app a r : no_colon a → split_once ":" (a +:+ ":" +:+ r) = Some (a, r).
Proof.
  induction a as [|c a IH]; intros Ha; [done|]. destruct Ha as [Hc Ha].
  change (String c a +:+ ":" +:+ r) with (String c (a +:+ ":" +:+ r)). cbn [split_once].
  destruct (Ascii.eqb_spec c ":"); [done|]. by rewrite IH.
Qed.

Lemma str_take_app a r : str_take (String.length a) (a +:+ r) = a.
Proof. induction a as [|c a IH]; [by destruct r|]. simpl. by f_equal. Qed.

Lemma get_app a c r : String.get (String.length a) (a +:+ String c r) = Some c.
Proof. by induction a. Qed.

Lemma length_str_app a b : String.length (a +:+ b) = (String.length a + String.length b)%nat.
Proof. induction a as [|c a IH]; [done|]. simpl. by f_equal. Qed.

Lemma scoped_parts_scoped ws l :
  is_usize (Z.of_nat (String.length ws)) → scoped_parts (scoped ws l) = Some (ws, l).
Proof.
  intros Hlen. unfold scoped_parts, scoped, strip_prefix. rewrite starts_with_app, str_drop_app.
  cbn [mbind option_bind]. rewrite split_once_app by apply decimal_no_colon.
  cbn [mbind option_bind]. rewrite parse_usize_decimal by done. cbn [mbind option_bind].
  set (n := Z.of_nat (String.length ws)).
  assert (byte_at (ws +:+ ":" +:+ l) n = Some 58) as Hb.
  { unfold byte_at, n. rewrite (proj2 (Z.ltb_ge _ _)) by lia. rewrite Nat2Z.id.
    change (":" +:+ l) with (String ":" l). by rewrite get_app. }
  rewrite Hb, bool_decide_true by done. unfold is_char_boundary. rewrite Hb.
  rewrite (proj2 (Z.leb_gt _ _)) by (rewrite length_str_app; simpl; lia).
  replace (Z.to_nat (n + 1)) with (String.length (ws +:+ ":")) by (rewrite length_str_app; simpl; lia).
  assert (ws +:+ ":" +:+ l = (ws +:+ ":") +:+ l) as E by by rewrite app_assoc_str.
  rewrite E at 3. rewrite str_drop_app. unfold n. rewrite Nat2Z.id, str_take_app.
  by repeat case_match.
Qed.
