(* ===== verification/Graph.v ===== *)
(** * The native graph index

    [crates/graph/src/native.rs] and the bounded traversals of
    [crates/graph/src/query.rs]: nodes and edges under their own keys, and the
    secondary keys (outgoing and incoming adjacency, node kinds, chunk links) that
    the queries scan. The index is a client of [StorageBackend]; the mutation lock
    makes each mutation one step. serde_json is the class [GraphCodec]; the clock
    is an argument, one reading per record; the iteration order of a [HashSet] is
    a parameter. *)

From S2P Require Import Prelude Sorting Float32 Text Storage GraphModel.

Inductive GraphError :=
| GNotFound (msg : string)
| GInvalidRequest (msg : string)
| GStorage (msg : string)
| GSerialization (msg : string)
| GUnavailable (msg : string).

Abbreviation GraphResult A := (result GraphError A).

(** The [Display] of [AkiDbError]. *)
Definition akidb_error_to_string (e : AkiDbError) : string :=
  match e with
  | VectorNotFound m => "Vector not found: " +:+ m
  | VectorAlreadyExists m => "Vector already exists: " +:+ m
  | VectorAlreadyDeleted m => "Vector already deleted: " +:+ m
  | DimensionMismatch expected actual =>
      "Invalid vector dimensions: expected " +:+ decimal expected +:+ ", got " +:+ decimal actual
  | IdReuseForbidden m => "Vector ID cannot be reused after deletion: " +:+ m
  | IndexError m => "Index error: " +:+ m
  | IndexNotReady => "Index not ready"
  | RebuildInProgress => "Index rebuild in progress"
  | StorageError m => "Storage error: " +:+ m
  | SerializationError m => "Serialization error: " +:+ m
  | GpuError m => "GPU error: " +:+ m
  | GpuOutOfMemory => "GPU out of memory"
  | GpuUnavailable => "GPU unavailable, falling back to CPU"
  | ShardUnavailable m => "Shard unavailable: " +:+ m
  | CoordinatorError m => "Coordinator error: " +:+ m
  | Timeout ms => "Timeout after " +:+ decimal ms +:+ "ms"
  | ConfigError m => "Configuration error: " +:+ m
  | InvalidParameter m => "Invalid parameter: " +:+ m
  | Internal m => "Internal error: " +:+ m
  | Io m => m
  end.

(** [?] on a storage result. *)
Definition from_storage {A} (r : Result A) : GraphResult A :=
  match r with Ok a => Ok a | Err e => Err (GStorage (akidb_error_to_string e)) end.

(** The entries of a [BTreeMap] keyed by strings, in key order. *)
Definition btree_cmp {A} (x y : string * A) : comparison := bytes_cmp x.1 y.1.
Definition btree_values {A} (m : gmap string A) : list A :=
  snd <$> sort_by btree_cmp (map_to_list m).

Definition btree_set (l : list string) : list string :=
  sort_by bytes_cmp (elements (list_to_set l : gset string)).

(** ** serde_json *)

Class GraphCodec (Json : Type) := {
  ser_node : GraphNode Json → option string;
  des_node : string → option (GraphNode Json);
  ser_edge : GraphEdge Json → option string;
  des_edge : string → option (GraphEdge Json);
  ser_id : string → option string;
  des_id : string → option string;
}.

(** ** Requests *)

Record NeighborRequest := mkNeighborRequest {
  nr_node_id : GraphNodeId;
  nr_direction : Direction;
  nr_edge_kinds : list EdgeKind;
  nr_limit : Z;
  nr_min_weight : option f32;
}.

Definition neighbor_request_new (node_id : GraphNodeId) : NeighborRequest :=
  mkNeighborRequest node_id DirBoth [] 100 None.

Definition with_direction (r : NeighborRequest) (direction : Direction) : NeighborRequest :=
  mkNeighborRequest (nr_node_id r) direction (nr_edge_kinds r) (nr_limit r) (nr_min_weight r).

Definition with_edge_kinds (r : NeighborRequest) (edge_kinds : list EdgeKind) : NeighborRequest :=
  mkNeighborRequest (nr_node_id r) (nr_direction r) edge_kinds (nr_limit r) (nr_min_weight r).

Definition with_limit (r : NeighborRequest) (limit : Z) : NeighborRequest :=
  mkNeighborRequest (nr_node_id r) (nr_direction r) (nr_edge_kinds r) limit (nr_min_weight r).

Definition with_min_weight (r : NeighborRequest) (min_weight : f32) : NeighborRequest :=
  mkNeighborRequest (nr_node_id r) (nr_direction r) (nr_edge_kinds r) (nr_limit r)
    (Some min_weight).

Record TwoHopRequest := mkTwoHop {
  th_node_id : GraphNodeId;
  th_edge_kinds : list EdgeKind;
  th_first_hop_limit : Z;
  th_second_hop_limit : Z;
  th_limit : Z;
}.

Definition two_hop_request_new (node_id : GraphNodeId) : TwoHopRequest :=
  mkTwoHop node_id [] 50 20 100.

Record RelatedChunksRequest := mkRelatedChunks {
  rr_node_id : GraphNodeId;
  rr_edge_kinds : list EdgeKind;
  rr_max_depth : Z;
  rr_per_hop_limit : Z;
  rr_limit : Z;
}.

Definition related_chunks_request_new (node_id : GraphNodeId) : RelatedChunksRequest :=
  mkRelatedChunks node_id [] 1 256 100.

Record PathExistsRequest := mkPathExists {
  pe_from : GraphNodeId;
  pe_to : GraphNodeId;
  pe_edge_kinds : list EdgeKind;
  pe_max_depth : Z;
}.

Definition path_exists_request_new (from to : GraphNodeId) (max_depth : Z) : PathExistsRequest :=
  mkPathExists from to [] max_depth.

(** ** The index *)

Section graph.
Context {Json : Type} `{!GraphCodec Json}.
Context {S : Type} `{!StorageBackend S}.
(** The iteration order of a [HashSet<GraphEdgeId>]. *)
Context (hash_order : gset string → list string).
Implicit Types (s : S).
Abbreviation Node := (GraphNode Json).
Abbreviation Edge := (GraphEdge Json).

Definition serialize {A} (ser : A → option string) (value : A) : GraphResult string :=
  match ser value with Some d => Ok d | None => Err (GSerialization "serde_json") end.

Definition deserialize {A} (des : string → option A) (bytes : string) : GraphResult A :=
  match des bytes with Some a => Ok a | None => Err (GSerialization "serde_json") end.

Definition get_node s (node_id : GraphNodeId) : GraphResult (option Node) :=
  let? data := from_storage (sb_get s (node_key node_id)) in
  match data with
  | Some bytes => let? n := deserialize des_node bytes in Ok (Some n)
  | None => Ok None
  end.

Definition get_edge s (edge_id : GraphEdgeId) : GraphResult (option Edge) :=
  let? data := from_storage (sb_get s (edge_key edge_id)) in
  match data with
  | Some bytes => let? e := deserialize des_edge bytes in Ok (Some e)
  | None => Ok None
  end.

Definition all_nodes s : GraphResult (list Node) :=
  let? entries := from_storage (sb_scan_prefix_limited s NODE_PREFIX None) in
  collect (λ kv : KV, deserialize des_node kv.2) entries.

Definition all_edges s : GraphResult (list Edge) :=
  let? entries := from_storage (sb_scan_prefix_limited s EDGE_PREFIX None) in
  collect (λ kv : KV, deserialize des_edge kv.2) entries.

Definition edge_refs_for_prefix s (pre : string) (limit : option Z)
    : GraphResult (list GraphEdgeId) :=
  let? entries := from_storage (sb_scan_prefix_limited s pre limit) in
  collect (λ kv : KV, deserialize des_id kv.2) entries.

Definition wants_out (d : Direction) : bool :=
  match d with DirOut | DirBoth => true | DirIn => false end.
Definition wants_in (d : Direction) : bool :=
  match d with DirIn | DirBoth => true | DirOut => false end.

(** The references of one selected kind. *)
Definition edge_refs_for_kind s (node_id : GraphNodeId) (direction : Direction)
    (limit : option Z) (kind : option EdgeKind)
    : GraphResult (list (GraphEdgeId * DirectionOnEdge)) :=
  let? out :=
    if wants_out direction
    then edge_refs_for_prefix s (adjacency_prefix_out node_id kind) limit else Ok [] in
  let? into :=
    if wants_in direction
    then edge_refs_for_prefix s (adjacency_prefix_in node_id kind) limit else Ok [] in
  Ok (((λ id, (id, Outgoing)) <$> out) ++ ((λ id, (id, Incoming)) <$> into)).

Definition selected_kinds (kinds : list EdgeKind) : list (option EdgeKind) :=
  match kinds with [] => [None] | _ => Some <$> kinds end.

Definition edge_refs_for_node s (node_id : GraphNodeId) (direction : Direction)
    (kinds : list EdgeKind) (limit : option Z)
    : GraphResult (list (GraphEdgeId * DirectionOnEdge)) :=
  let? refs := collect (edge_refs_for_kind s node_id direction limit) (selected_kinds kinds) in
  Ok (mjoin refs).

Definition graph_neighbor s (source : GraphNodeId) (edge_id : GraphEdgeId)
    (direction : DirectionOnEdge) : GraphResult (option (GraphNeighbor Json)) :=
  let? edge := get_edge s edge_id in
  match edge with
  | None => Ok None
  | Some edge =>
      let neighbor_id :=
        match direction with
        | Outgoing => if String.eqb (e_from edge) source then Some (e_to edge) else None
        | Incoming => if String.eqb (e_to edge) source then Some (e_from edge) else None
        end in
      match neighbor_id with
      | None => Ok None
      | Some neighbor_id =>
          let? node := get_node s neighbor_id in
          match node with
          | None => Ok None
          | Some node =>
              if is_same_workspace source (n_id node)
              then Ok (Some (mkNeighbor node edge direction)) else Ok None
          end
      end
  end.

(** [Vec::dedup_by] on the vector id: drops a chunk equal to the last one kept. *)
Fixpoint dedup_chunks (last : option string) (l : list RelatedChunk) : list RelatedChunk :=
  match l with
  | [] => []
  | c :: l =>
      if bool_decide (last = Some (rc_vector_id c)) then dedup_chunks last l
      else c :: dedup_chunks (Some (rc_vector_id c)) l
  end.

Fixpoint direct_chunks_loop (entity_id : GraphNodeId) (entries : list KV)
    : GraphResult (list RelatedChunk) :=
  match entries with
  | [] => Ok []
  | (_, value) :: entries =>
      let? node_id := deserialize des_id value in
      let? rest := direct_chunks_loop entity_id entries in
      if negb (is_same_workspace entity_id node_id) then Ok rest
      else match as_chunk_vector_id node_id with
           | Some vector_id => Ok (mkRelated vector_id node_id :: rest)
           | None => Ok rest
           end
  end.

Definition direct_related_chunks s (entity_id : GraphNodeId) (limit : Z)
    : GraphResult (list RelatedChunk) :=
  let? entries := from_storage (sb_scan_prefix_limited s (chunk_prefix entity_id) (Some limit)) in
  let? chunks := direct_chunks_loop entity_id entries in
  let sorted := sort_by (λ a b, bytes_cmp (rc_vector_id a) (rc_vector_id b)) chunks in
  Ok (take (Z.to_nat limit) (dedup_chunks None sorted)).

Definition links_chunks (kind : EdgeKind) : bool :=
  match kind with
  | Calls | Contains | DependsOn | Imports | Mentions | ParentOf | RelatedTo | TestedBy
  | Tests => true
  | _ => false
  end.

Definition should_link_chunk (edge : Edge) : bool :=
  bool_decide (is_Some (as_chunk_vector_id (e_to edge))) && links_chunks (e_kind edge).

(** *** Mutations *)

Definition node_upsert_operations s (node : Node) (merge_existing_properties : bool) (now : Z)
    : GraphResult (list BatchOperation) :=
  let? existing := get_node s (n_id node) in
  let '(node, operations) :=
    match existing with
    | Some existing =>
        (mkNode (n_id node) (n_kind node)
           (if merge_existing_properties then n_properties node ∪ n_properties existing
            else n_properties node)
           (n_created_at_ms existing) now,
         if decide (n_kind existing = n_kind node) then []
         else [Delete (kind_key (n_kind existing) (n_id node))])
    | None => (node, [])
    end in
  let? data := serialize ser_node node in
  Ok (operations ++ [Put (node_key (n_id node)) data; Put (kind_key (n_kind node) (n_id node)) ""]).

Definition edge_delete_operations (edge : Edge) : list BatchOperation :=
  [Delete (edge_key (e_id edge));
   Delete (adjacency_key_out (e_from edge) (e_kind edge) (e_id edge));
   Delete (adjacency_key_in (e_to edge) (e_kind edge) (e_id edge))]
  ++ (if should_link_chunk edge then [Delete (chunk_key (e_from edge) (e_to edge))] else []).

(** The keys written for an edge. *)
Definition edge_put_operations (edge : Edge) : GraphResult (list BatchOperation) :=
  let? data := serialize ser_edge edge in
  let? out_ref := serialize ser_id (e_id edge) in
  let? in_ref := serialize ser_id (e_id edge) in
  let puts :=
    [Put (edge_key (e_id edge)) data;
     Put (adjacency_key_out (e_from edge) (e_kind edge) (e_id edge)) out_ref;
     Put (adjacency_key_in (e_to edge) (e_kind edge) (e_id edge)) in_ref] in
  if should_link_chunk edge then
    let? link := serialize ser_id (e_to edge) in
    Ok (puts ++ [Put (chunk_key (e_from edge) (e_to edge)) link])
  else Ok puts.

Definition edge_upsert_operations s (edge : Edge) (now : Z) : GraphResult (list BatchOperation) :=
  if negb (f32_is_finite (e_weight edge)) then
    Err (GInvalidRequest ("edge " +:+ e_id edge +:+ " has non-finite weight"))
  else if negb (is_same_workspace (e_from edge) (e_to edge)) then
    Err (GInvalidRequest ("edge " +:+ e_id edge +:+ " crosses graph workspace namespaces"))
  else
    let? existing := get_edge s (e_id edge) in
    let '(edge, operations) :=
      match existing with
      | Some existing =>
          (mkEdge (e_id edge) (e_from edge) (e_to edge) (e_kind edge) (e_weight edge)
             (e_properties edge) (e_created_at_ms existing) now,
           edge_delete_operations existing)
      | None => (edge, [])
      end in
    let? puts := edge_put_operations edge in
    Ok (operations ++ puts).

(** The nodes of a batch by id, merging duplicates. *)
Definition merge_batch_node (nodes : gmap string Node) (node : Node) : gmap string Node :=
  match nodes !! n_id node with
  | None => <[n_id node := node]> nodes
  | Some merged =>
      <[n_id node :=
          mkNode (n_id merged) (n_kind node) (n_properties node ∪ n_properties merged)
            (Z.min (n_created_at_ms merged) (n_created_at_ms node))
            (Z.max (n_updated_at_ms merged) (n_updated_at_ms node))]> nodes
  end.

Definition batch_nodes (l : list Node) : gmap string Node := foldl merge_batch_node ∅ l.

Definition batch_edges (l : list Edge) : gmap string Edge :=
  foldl (λ m e, <[e_id e := e]> m) ∅ l.

Definition delete_edge_ops s (edge_id : GraphEdgeId) : GraphResult (list BatchOperation) :=
  let? edge := get_edge s edge_id in
  Ok (match edge with Some edge => edge_delete_operations edge | None => [] end).

Definition upsert_batch s (batch : GraphMutationBatch Json) (node_clock edge_clock : string → Z)
    : GraphResult unit * S :=
  if batch_is_empty batch then (Ok tt, s)
  else
    let replace_nodes : gset string := list_to_set (b_replace_nodes batch) in
    let operations :=
      let? deletes := collect (delete_edge_ops s) (btree_set (b_delete_edges batch)) in
      let? nodes :=
        collect (λ node, node_upsert_operations s node (bool_decide (n_id node ∉ replace_nodes))
                           (node_clock (n_id node)))
          (btree_values (batch_nodes (b_nodes batch))) in
      let? edges :=
        collect (λ edge, edge_upsert_operations s edge (edge_clock (e_id edge)))
          (btree_values (batch_edges (b_edges batch))) in
      Ok (mjoin deletes ++ mjoin nodes ++ mjoin edges) in
    match operations with
    | Err e => (Err e, s)
    | Ok operations =>
        let '(r, s) := sb_write_batch s operations in (from_storage r, s)
    end.

Definition upsert_node s (node : Node) (now : Z) : GraphResult unit * S :=
  upsert_batch s (with_replaced_node batch_new node) (λ _, now) (λ _, now).

Definition upsert_edge s (edge : Edge) (now : Z) : GraphResult unit * S :=
  upsert_batch s (with_edge batch_new edge) (λ _, now) (λ _, now).

Definition delete_node s (node_id : GraphNodeId) : GraphResult DeleteNodeResult * S :=
  match get_node s node_id with
  | Err e => (Err e, s)
  | Ok None => (Ok (mkDeleteNode false 0), s)
  | Ok (Some node) =>
      let operations :=
        let? refs := edge_refs_for_node s node_id DirBoth [] None in
        let edge_ids : gset string := list_to_set refs.*1 in
        let? edges := collect (get_edge s) (hash_order edge_ids) in
        Ok (omap id edges) in
      match operations with
      | Err e => (Err e, s)
      | Ok edges =>
          let '(r, s) :=
            sb_write_batch s (mjoin (edge_delete_operations <$> edges)
                              ++ [Delete (node_key node_id); Delete (kind_key (n_kind node) node_id)]) in
          match from_storage r with
          | Err e => (Err e, s)
          | Ok _ => (Ok (mkDeleteNode true (Zlength edges)), s)
          end
      end
  end.

Definition delete_edge s (edge_id : GraphEdgeId) : GraphResult bool * S :=
  match get_edge s edge_id with
  | Err e => (Err e, s)
  | Ok None => (Ok false, s)
  | Ok (Some edge) =>
      let '(r, s) := sb_write_batch s (edge_delete_operations edge) in
      match from_storage r with Err e => (Err e, s) | Ok _ => (Ok true, s) end
  end.

Definition count_nodes_of_kind s (kind : NodeKind) : GraphResult Z :=
  from_storage (sb_count_prefix s (kind_prefix kind)).

Definition stats s : GraphResult GraphStats :=
  let? nodes := from_storage (sb_count_prefix s NODE_PREFIX) in
  let? edges := from_storage (sb_count_prefix s EDGE_PREFIX) in
  let? chunk_links := from_storage (sb_count_prefix s CHUNK_PREFIX) in
  Ok (mkStats nodes edges chunk_links).

(** *** Queries *)

Definition neighbor_cmp (a b : GraphNeighbor Json) : comparison :=
  then_with
    (then_with (f32_cmp_or_eq (e_weight (nb_edge b)) (e_weight (nb_edge a)))
       (bytes_cmp (n_id (nb_node a)) (n_id (nb_node b))))
    (bytes_cmp (e_id (nb_edge a)) (e_id (nb_edge b))).

Definition heavy_enough (min_weight : option f32) (n : GraphNeighbor Json) : bool :=
  match min_weight with None => true | Some w => f32_ge (e_weight (nb_edge n)) w end.

Fixpoint neighbors_loop s (node_id : GraphNodeId) (min_weight : option f32) (seen : gset string)
    (refs : list (GraphEdgeId * DirectionOnEdge)) : GraphResult (list (GraphNeighbor Json)) :=
  match refs with
  | [] => Ok []
  | (edge_id, direction) :: refs =>
      if decide (edge_id ∈ seen) then neighbors_loop s node_id min_weight seen refs
      else
        let? neighbor := graph_neighbor s node_id edge_id direction in
        let? rest := neighbors_loop s node_id min_weight ({[edge_id]} ∪ seen) refs in
        match neighbor with
        | Some n => if heavy_enough min_weight n then Ok (n :: rest) else Ok rest
        | None => Ok rest
        end
  end.

Definition neighbors s (request : NeighborRequest) : GraphResult (list (GraphNeighbor Json)) :=
  if nr_limit request =? 0 then Ok []
  else
    let? edge_refs :=
      edge_refs_for_node s (nr_node_id request) (nr_direction request) (nr_edge_kinds request)
        (Some (saturating_mul usize_max (nr_limit request) 4)) in
    let? found := neighbors_loop s (nr_node_id request) (nr_min_weight request) ∅ edge_refs in
    Ok (take (Z.to_nat (nr_limit request)) (sort_by neighbor_cmp found)).

Definition hop_request (node_id : GraphNodeId) (direction : Direction) (kinds : list EdgeKind)
    (limit : Z) : NeighborRequest :=
  with_limit (with_edge_kinds (with_direction (neighbor_request_new node_id) direction) kinds)
    limit.

Definition path_last_id (p : GraphPath Json) : string :=
  default "" (n_id <$> last (gp_nodes p)).

Definition path_cmp (a b : GraphPath Json) : comparison :=
  then_with (f32_cmp_or_eq (gp_score b) (gp_score a)) (bytes_cmp (path_last_id a) (path_last_id b)).

Definition two_hop s (request : TwoHopRequest) : GraphResult (list (GraphPath Json)) :=
  if th_limit request =? 0 then Ok []
  else
    let? first_hop :=
      neighbors s (hop_request (th_node_id request) DirOut (th_edge_kinds request)
                     (th_first_hop_limit request)) in
    let? paths :=
      collect (λ first,
        let? second_hop :=
          neighbors s (hop_request (n_id (nb_node first)) DirOut (th_edge_kinds request)
                         (th_second_hop_limit request)) in
        Ok ((λ second,
               mkPath [nb_node first; nb_node second] [nb_edge first; nb_edge second]
                 (f32_div (f32_add (e_weight (nb_edge first)) (e_weight (nb_edge second)))
                    f32_two)) <$> second_hop)) first_hop in
    Ok (take (Z.to_nat (th_limit request)) (sort_by path_cmp (mjoin paths))).

(** Adds chunks not seen before until [limit] are held. *)
Fixpoint push_chunks (limit : Z) (seen : gset string) (chunks : list RelatedChunk)
    (candidates : list (option RelatedChunk)) : gset string * list RelatedChunk :=
  match candidates with
  | [] => (seen, chunks)
  | c :: candidates =>
      let '(seen, chunks) :=
        match c with
        | Some c =>
            if decide (rc_vector_id c ∈ seen) then (seen, chunks)
            else ({[rc_vector_id c]} ∪ seen, chunks ++ [c])
        | None => (seen, chunks)
        end in
      if limit <=? Zlength chunks then (seen, chunks) else push_chunks limit seen chunks candidates
  end.

Definition neighbor_chunk (n : GraphNeighbor Json) : option RelatedChunk :=
  (λ vector_id, mkRelated vector_id (n_id (nb_node n))) <$> as_chunk_vector_id (n_id (nb_node n)).

Definition related_chunks s (entity_id : GraphNodeId) (limit : Z)
    : GraphResult (list RelatedChunk) :=
  if limit =? 0 then Ok []
  else
    let? one_hop :=
      neighbors s (with_limit (with_direction (neighbor_request_new entity_id) DirBoth)
                     (saturating_mul usize_max limit 8)) in
    let '(seen, chunks) := push_chunks limit ∅ [] (neighbor_chunk <$> one_hop) in
    if limit <=? Zlength chunks then Ok chunks
    else
      let? direct := direct_related_chunks s entity_id limit in
      let '(_, chunks) := push_chunks limit seen chunks (Some <$> direct) in
      Ok (take (Z.to_nat limit) chunks).

(** *** Traversals *)

(** Marks the neighbours not yet visited and queues them at the next depth. *)
Fixpoint enqueue (depth : Z) (visited : gset string) (queue : list (GraphNodeId * Z))
    (ns : list (GraphNeighbor Json)) : gset string * list (GraphNodeId * Z) :=
  match ns with
  | [] => (visited, queue)
  | n :: ns =>
      let id := n_id (nb_node n) in
      if decide (id ∈ visited) then enqueue depth visited queue ns
      else enqueue depth ({[id]} ∪ visited) (queue ++ [(id, depth + 1)]) ns
  end.

(** The breadth-first loop; [None] when [fuel] turns are not enough. *)
Fixpoint path_loop (fuel : nat) s (to : GraphNodeId) (kinds : list EdgeKind) (max_depth : Z)
    (visited : gset string) (queue : list (GraphNodeId * Z)) : option (GraphResult bool) :=
  match queue with
  | [] => Some (Ok false)
  | (node_id, depth) :: queue =>
      match fuel with
      | 0%nat => None
      | Datatypes.S fuel =>
          if String.eqb node_id to then Some (Ok true)
          else if max_depth <=? depth then path_loop fuel s to kinds max_depth visited queue
          else
            match neighbors s (hop_request node_id DirOut kinds 256) with
            | Err e => Some (Err e)
            | Ok ns =>
                let '(visited, queue) := enqueue depth visited queue ns in
                path_loop fuel s to kinds max_depth visited queue
            end
      end
  end.

Definition path_exists (fuel : nat) s (request : PathExistsRequest) : option (GraphResult bool) :=
  if pe_max_depth request =? 0 then
    Some (Ok (String.eqb (pe_from request) (pe_to request)))
  else if 3 <? pe_max_depth request then
    Some (Err (GInvalidRequest "path_exists max_depth is capped at 3"))
  else
    path_loop fuel s (pe_to request) (pe_edge_kinds request) (pe_max_depth request)
      {[pe_from request]} [(pe_from request, 0)].

Record TraceState := mkTraceState {
  ts_chunks : list (RelatedChunkTrace Json);
  ts_seen_chunks : gset string;
  ts_visited : gset string;
  ts_queue : list (GraphNodeId * Z * list Edge);
}.

(** Records the chunk a neighbour stands for: [true] when the limit is reached. *)
Definition trace_chunk (request : RelatedChunksRequest) (hop : Z) (neighbor_id : GraphNodeId)
    (next_path : list Edge) (st : TraceState) : bool * TraceState :=
  match as_chunk_vector_id neighbor_id with
  | Some vector_id =>
      if negb (String.eqb neighbor_id (rr_node_id request))
         && bool_decide (vector_id ∉ ts_seen_chunks st)
      then
        let chunks := ts_chunks st ++ [mkTrace vector_id neighbor_id hop next_path] in
        (rr_limit request <=? Zlength chunks,
         mkTraceState chunks ({[vector_id]} ∪ ts_seen_chunks st) (ts_visited st) (ts_queue st))
      else (false, st)
  | None => (false, st)
  end.

(** Queues a neighbour that may be expanded and has not been visited. *)
Definition trace_enqueue (request : RelatedChunksRequest) (depth : Z) (neighbor_id : GraphNodeId)
    (next_path : list Edge) (st : TraceState) : TraceState :=
  if (depth + 1 <? rr_max_depth request) && bool_decide (neighbor_id ∉ ts_visited st)
  then mkTraceState (ts_chunks st) (ts_seen_chunks st) ({[neighbor_id]} ∪ ts_visited st)
         (ts_queue st ++ [(neighbor_id, depth + 1, next_path)])
  else st.

(** The neighbours of one popped node: [true] when the limit is reached. *)
Fixpoint trace_neighbors (request : RelatedChunksRequest) (depth : Z) (path : list Edge)
    (st : TraceState) (ns : list (GraphNeighbor Json)) : bool * TraceState :=
  match ns with
  | [] => (false, st)
  | n :: ns =>
      let neighbor_id := n_id (nb_node n) in
      if negb (is_same_workspace (rr_node_id request) neighbor_id)
      then trace_neighbors request depth path st ns
      else
        let next_path := path ++ [nb_edge n] in
        let hop := saturating_add u8_max depth 1 in
        let '(full, st) := trace_chunk request hop neighbor_id next_path st in
        if full then (true, st)
        else trace_neighbors request depth path
               (trace_enqueue request depth neighbor_id next_path st) ns
  end.

Fixpoint trace_loop (fuel : nat) s (request : RelatedChunksRequest) (st : TraceState)
    : option (GraphResult (list (RelatedChunkTrace Json))) :=
  match ts_queue st with
  | [] => Some (Ok (ts_chunks st))
  | (node_id, depth, path) :: queue =>
      match fuel with
      | 0%nat => None
      | Datatypes.S fuel =>
          let st := mkTraceState (ts_chunks st) (ts_seen_chunks st) (ts_visited st) queue in
          if rr_max_depth request <=? depth then trace_loop fuel s request st
          else
            match neighbors s (hop_request node_id DirBoth (rr_edge_kinds request)
                                 (rr_per_hop_limit request)) with
            | Err e => Some (Err e)
            | Ok ns =>
                let '(full, st) := trace_neighbors request depth path st ns in
                if full then Some (Ok (ts_chunks st)) else trace_loop fuel s request st
            end
      end
  end.

Definition related_chunks_with_trace (fuel : nat) s (request : RelatedChunksRequest)
    : option (GraphResult (list (RelatedChunkTrace Json))) :=
  if (rr_limit request =? 0) || (rr_max_depth request =? 0) then Some (Ok [])
  else if 3 <? rr_max_depth request then
    Some (Err (GInvalidRequest "related_chunks max_depth is capped at 3"))
  else
    trace_loop fuel s request
      (mkTraceState [] ∅ {[rr_node_id request]} [(rr_node_id request, 0, [])]).

Definition related_chunks_with_depth (fuel : nat) s (request : RelatedChunksRequest)
    : option (GraphResult (list RelatedChunk)) :=
  fmap (M := option)
    (λ r : GraphResult (list (RelatedChunkTrace Json)),
       let? traces := r in
       Ok (fmap (M := list) (λ t, mkRelated (rt_vector_id t) (rt_via_node t)) traces))
    (related_chunks_with_trace fuel s request).
End graph.
