(* ===== verification/GraphWf.v ===== *)
(** * The graph's secondary keys mirror its records

    The invariant of the native graph index and its preservation by every
    mutation of [crates/graph/src/native.rs], from any backend that satisfies
    [StorageLaws], whether or not its writes fail. *)

From S2P Require Import Prelude Sorting Float32 Text Storage GraphModel Graph.

#[global] Arguments gkey : simpl never.

#[global] Instance gkey_eq_dec : EqDecision GKey.
Proof. solve_decision. Defined.

(** What the index relies on of serde_json: everything but the property values
    survives (JSON keeps a number only up to its decimal rendering), and a weight
    does when it is finite. *)
Definition edge_skel {Json} (e : GraphEdge Json) : string * string * string * EdgeKind * f32 :=
  (e_id e, e_from e, e_to e, e_kind e, e_weight e).

Class GraphCodecLaws (Json : Type) `{!GraphCodec Json} := {
  node_roundtrip (n : GraphNode Json) d :
    ser_node n = Some d → ∃ n', des_node d = Some n' ∧ n_id n' = n_id n ∧ n_kind n' = n_kind n;
  edge_roundtrip (e : GraphEdge Json) d :
    ser_edge e = Some d → f32_is_finite (e_weight e) = true →
    ∃ e', des_edge d = Some e' ∧ edge_skel e' = edge_skel e;
  id_roundtrip i d : ser_id i = Some d → des_id d = Some i;
}.

(** The keys the index owns. *)
Definition graph_prefixes : list string :=
  [NODE_PREFIX; EDGE_PREFIX; OUT_PREFIX; IN_PREFIX; CHUNK_PREFIX; KIND_PREFIX].

Section wf.
Context {Json : Type} `{!GraphCodec Json, !GraphCodecLaws Json}.
Abbreviation Node := (GraphNode Json).
Abbreviation Edge := (GraphEdge Json).
Implicit Types (v : gmap string string) (e : Edge) (n : Node).

Definition node_at v (id : string) : option Node := v !! node_key id ≫= des_node.
Definition edge_at v (id : string) : option Edge := v !! edge_key id ≫= des_edge.

Definition out_key e : GKey := KOut (e_from e) (e_kind e) (e_id e).
Definition in_key e : GKey := KIn (e_to e) (e_kind e) (e_id e).

(** A reference to [id] is filed under [g]. *)
Definition refers v (g : GKey) (id : string) : Prop := v !! gkey g ≫= des_id = Some id.

(** The invariant. Every key of the index's families is one the index builds; a
    node is filed under its id and listed under its kind, and only there; an edge
    is filed under its id, stays in one workspace, has a finite weight and is
    listed at both its ends under its kind, and nothing else is; a chunk link
    stands for an edge. *)
Record graph_wf v : Prop := {
  wf_shape k p : is_Some (v !! k) → p ∈ graph_prefixes → starts_with k p = true →
    ∃ g, k = gkey g;
  wf_node id d : v !! gkey (KNode id) = Some d →
    ∃ n, des_node d = Some n ∧ n_id n = id ∧ is_Some (v !! gkey (KKind (n_kind n) id));
  wf_kind kd id : is_Some (v !! gkey (KKind kd id)) →
    ∃ n, node_at v id = Some n ∧ n_kind n = kd;
  wf_edge id d : v !! gkey (KEdge id) = Some d →
    ∃ e, des_edge d = Some e ∧ e_id e = id ∧ f32_is_finite (e_weight e) = true ∧
      is_same_workspace (e_from e) (e_to e) = true ∧
      refers v (out_key e) id ∧ refers v (in_key e) id;
  wf_out a kd id : is_Some (v !! gkey (KOut a kd id)) →
    ∃ e, edge_at v id = Some e ∧ e_from e = a ∧ e_kind e = kd;
  wf_in a kd id : is_Some (v !! gkey (KIn a kd id)) →
    ∃ e, edge_at v id = Some e ∧ e_to e = a ∧ e_kind e = kd;
  wf_chunk a b d : v !! gkey (KChunk a b) = Some d →
    des_id d = Some b ∧
    ∃ id e, edge_at v id = Some e ∧ e_from e = a ∧ e_to e = b ∧ should_link_chunk e = true;
}.

Lemma wf_edge_at v id e :
  graph_wf v → edge_at v id = Some e →
  e_id e = id ∧ f32_is_finite (e_weight e) = true ∧
  is_same_workspace (e_from e) (e_to e) = true ∧
  refers v (out_key e) id ∧ refers v (in_key e) id.
Proof.
  intros Hwf. unfold edge_at. change (edge_key id) with (gkey (KEdge id)).
  destruct (v !! _) as [d|] eqn:E; [|done]. simpl. intros Hd.
  destruct (wf_edge v Hwf id d E) as (e' & ? & ?). by simplify_eq.
Qed.

Lemma wf_node_at v id n :
  graph_wf v → node_at v id = Some n →
  n_id n = id ∧ is_Some (v !! gkey (KKind (n_kind n) id)).
Proof.
  intros Hwf. unfold node_at. change (node_key id) with (gkey (KNode id)).
  destruct (v !! _) as [d|] eqn:E; [|done]. simpl. intros Hd.
  destruct (wf_node v Hwf id d E) as (n' & ? & ?). by simplify_eq.
Qed.

(** Batches whose operations are all on keys the index builds. *)
Definition op_key (op : BatchOperation) : string :=
  match op with Put k _ => k | Delete k => k end.

Definition on_graph_keys (ops : list BatchOperation) : Prop :=
  Forall (λ op, ∃ g, op_key op = gkey g) ops.

Lemma shape_preserved v ops :
  on_graph_keys ops →
  (∀ k p, is_Some (v !! k) → p ∈ graph_prefixes → starts_with k p = true → ∃ g, k = gkey g) →
  ∀ k p, is_Some (apply_batch v ops !! k) → p ∈ graph_prefixes → starts_with k p = true →
    ∃ g, k = gkey g.
Proof.
  intros Hops. revert v. induction Hops as [|op ops [g Hg] _ IH]; intros v Hv; [done|].
  simpl. apply IH. intros k p Hk Hp Hs.
  destruct (decide (k = gkey g)) as [->|Hne]; [by exists g|]. apply (Hv k p); [|done..].
  destruct op; simpl in *; subst; by rewrite ?lookup_insert_ne, ?lookup_delete_ne in Hk by done.
Qed.

(** *** Edges *)

Definition drops e (g : GKey) : Prop :=
  g = KEdge (e_id e) ∨ g = out_key e ∨ g = in_key e
  ∨ (should_link_chunk e = true ∧ g = KChunk (e_from e) (e_to e)).

#[global] Instance drops_dec e g : Decision (drops e g).
Proof. unfold drops. apply _. Defined.

Lemma lookup_gput m a b x :
  <[gkey a := x]> m !! gkey b = if decide (a = b) then Some x else (m : gmap string string) !! gkey b.
Proof.
  case_decide as E; [subst; by rewrite lookup_insert_eq|].
  rewrite lookup_insert_ne; [done|]. by intros ?%(inj gkey).
Qed.

Lemma lookup_gdel m a b :
  delete (gkey a) m !! gkey b = if decide (a = b) then None else (m : gmap string string) !! gkey b.
Proof.
  case_decide as E; [subst; by rewrite lookup_delete_eq|].
  rewrite lookup_delete_ne; [done|]. by intros ?%(inj gkey).
Qed.

Lemma delete_ops_on_keys e : on_graph_keys (edge_delete_operations e).
Proof.
  unfold edge_delete_operations, on_graph_keys. rewrite Forall_app. split.
  - repeat constructor; [by exists (KEdge (e_id e))|by exists (out_key e)|by exists (in_key e)].
  - destruct (should_link_chunk e); repeat constructor. by exists (KChunk (e_from e) (e_to e)).
Qed.

Lemma delete_ops_lookup v e g :
  apply_batch v (edge_delete_operations e) !! gkey g = if decide (drops e g) then None else v !! gkey g.
Proof.
  unfold edge_delete_operations. rewrite apply_batch_app.
  change (edge_key (e_id e)) with (gkey (KEdge (e_id e))).
  change (adjacency_key_out _ _ _) with (gkey (out_key e)).
  change (adjacency_key_in _ _ _) with (gkey (in_key e)).
  change (chunk_key _ _) with (gkey (KChunk (e_from e) (e_to e))).
  destruct (decide (drops e g)) as [Hd|Hd]; unfold drops in Hd;
    destruct (should_link_chunk e); unfold apply_batch; simpl; rewrite !lookup_gdel;
    repeat case_decide; naive_solver.
Qed.

Lemma edge_at_gkey v id : edge_at v id = v !! gkey (KEdge id) ≫= des_edge.
Proof. done. Qed.

Lemma node_at_gkey v id : node_at v id = v !! gkey (KNode id) ≫= des_node.
Proof. done. Qed.

(** Dropping an edge, or one already dropped, leaves the rest in order. *)
Lemma delete_edge_wf v e :
  graph_wf v → edge_at v (e_id e) = Some e ∨ edge_at v (e_id e) = None →
  let v' := apply_batch v (edge_delete_operations e) in
  graph_wf v' ∧
  (∀ id, edge_at v' id = if decide (id = e_id e) then None else edge_at v id) ∧
  (∀ id, node_at v' id = node_at v id).
Proof.
  intros Hwf Hcur v'.
  assert (∀ g, v' !! gkey g = if decide (drops e g) then None else v !! gkey g) as Hl
    by apply delete_ops_lookup.
  assert (∀ id, edge_at v' id = if decide (id = e_id e) then None else edge_at v id) as Hedge.
  { intros id. rewrite !edge_at_gkey, Hl.
    case_decide as H1; case_decide as H2; try done; unfold drops in H1; subst; naive_solver. }
  assert (∀ id, node_at v' id = node_at v id) as Hnode.
  { intros id. rewrite !node_at_gkey, Hl. case_decide as Hd; [unfold drops in Hd|]; naive_solver. }
  split; [|done]. split.
  - apply shape_preserved; [apply delete_ops_on_keys|apply Hwf].
  - intros id d. rewrite !Hl. case_decide; [done|]. intros (n & ? & ? & ?)%(wf_node v Hwf).
    exists n. split_and!; [done..|]. rewrite Hl. case_decide as Hd; [|done].
    unfold drops in Hd. naive_solver.
  - intros kd id. rewrite Hl. case_decide; [by intros []|]. intros H0%(wf_kind v Hwf).
    by rewrite Hnode.
  - intros id d. rewrite Hl. case_decide as Hd; [done|]. intros Hv.
    assert (id ≠ e_id e) as Hid by (unfold drops in Hd; naive_solver).
    destruct (wf_edge v Hwf id d Hv) as (e' & ? & <- & ? & ? & Ho & Hi).
    exists e'. unfold refers. rewrite !Hl.
    split_and!; [done..| |]; case_decide as H'; unfold drops, out_key, in_key in H'; naive_solver.
  - intros a kd id. rewrite Hl. case_decide as Hd; [by intros []|]. intros Hk.
    destruct (wf_out v Hwf a kd id Hk) as (e' & He' & <- & <-). exists e'. rewrite Hedge.
    case_decide; [|done]. subst. destruct Hcur; [|congruence]. simplify_eq.
    destruct Hd. right. by left.
  - intros a kd id. rewrite Hl. case_decide as Hd; [by intros []|]. intros Hk.
    destruct (wf_in v Hwf a kd id Hk) as (e' & He' & <- & <-). exists e'. rewrite Hedge.
    case_decide; [|done]. subst. destruct Hcur; [|congruence]. simplify_eq.
    destruct Hd. right. right. by left.
  - intros a b d. rewrite Hl. case_decide as Hd; [done|]. intros Hk.
    destruct (wf_chunk v Hwf a b d Hk) as (? & id & e' & He' & <- & <- & ?). split; [done|].
    exists id, e'. rewrite Hedge. case_decide; [|done]. subst. destruct Hcur; [|congruence].
    simplify_eq. destruct Hd. do 3 right. done.
Qed.

(** The operations that file an edge. *)
Definition put_ops e (data ref : string) (link : option string) : list BatchOperation :=
  [Put (gkey (KEdge (e_id e))) data; Put (gkey (out_key e)) ref; Put (gkey (in_key e)) ref]
  ++ match link with Some l => [Put (gkey (KChunk (e_from e) (e_to e))) l] | None => [] end.

Definition put_value e (data ref : string) (link : option string) (g : GKey) : option string :=
  match g with
  | KEdge id => if decide (id = e_id e) then Some data else None
  | KOut a kd id => if decide (KOut a kd id = out_key e) then Some ref else None
  | KIn a kd id => if decide (KIn a kd id = in_key e) then Some ref else None
  | KChunk a b => if decide (a = e_from e ∧ b = e_to e) then link else None
  | _ => None
  end.

Lemma put_ops_on_keys e data ref link : on_graph_keys (put_ops e data ref link).
Proof. unfold put_ops, on_graph_keys. destruct link; repeat constructor; simpl; by eexists. Qed.

Lemma put_ops_lookup v e data ref link g :
  apply_batch v (put_ops e data ref link) !! gkey g
  = match put_value e data ref link g with Some x => Some x | None => v !! gkey g end.
Proof.
  unfold put_ops, put_value, out_key, in_key. rewrite apply_batch_app.
  destruct link; unfold apply_batch; simpl; rewrite !lookup_gput; destruct g;
    repeat case_decide; naive_solver.
Qed.

Lemma put_edge_frame v e data ref link :
  let v' := apply_batch v (put_ops e data ref link) in
  (∀ id, edge_at v' id = if decide (id = e_id e) then des_edge data else edge_at v id) ∧
  (∀ id, node_at v' id = node_at v id).
Proof.
  split; intros id.
  - rewrite !edge_at_gkey, put_ops_lookup. simpl. by case_decide.
  - by rewrite !node_at_gkey, put_ops_lookup.
Qed.

(** An edge put where no edge of its id is. *)
Lemma put_edge_wf v e e' data ref link :
  graph_wf v → edge_at v (e_id e) = None →
  des_edge data = Some e' → edge_skel e' = edge_skel e → des_id ref = Some (e_id e) →
  f32_is_finite (e_weight e) = true → is_same_workspace (e_from e) (e_to e) = true →
  (∀ l, link = Some l → des_id l = Some (e_to e) ∧ should_link_chunk e = true) →
  graph_wf (apply_batch v (put_ops e data ref link)).
Proof.
  intros Hwf Hnone Hdata Hskel Href Hfin Hws Hlink.
  unfold edge_skel in Hskel. injection Hskel as Hid Hfrom Hto Hkind Hweight.
  assert (should_link_chunk e' = should_link_chunk e) as Hsl
    by (unfold should_link_chunk; by rewrite Hto, Hkind).
  destruct (put_edge_frame v e data ref link) as [Hedge Hnode].
  pose proof (put_ops_lookup v e data ref link) as Hl.
  split.
  - apply shape_preserved; [apply put_ops_on_keys|apply Hwf].
  - intros id d. rewrite Hl. setoid_rewrite Hl. apply (wf_node v Hwf).
  - intros kd id. rewrite Hl, Hnode. apply (wf_kind v Hwf).
  - intros id d. rewrite Hl. unfold refers. simpl. case_decide as Hi.
    + intros [= <-]. exists e'. unfold out_key, in_key. rewrite !Hl. simpl.
      rewrite Hid, Hfrom, Hto, Hkind, Hweight, !decide_True by done. simpl. by rewrite Href, Hi.
    + intros (e0 & ? & <- & ? & ? & Ho & Hn)%(wf_edge v Hwf). exists e0.
      unfold refers in *. rewrite !Hl. simpl.
      rewrite !decide_False; [done|unfold in_key; congruence|unfold out_key; congruence].
  - intros a kd id. rewrite Hl, Hedge. simpl. case_decide as Ho; [|intros Hk%(wf_out v Hwf)].
    + unfold out_key in Ho. injection Ho as -> -> ->. rewrite decide_True by done. eauto.
    + case_decide; [|done]. subst. naive_solver.
  - intros a kd id. rewrite Hl, Hedge. simpl. case_decide as Ho; [|intros Hk%(wf_in v Hwf)].
    + unfold in_key in Ho. injection Ho as -> -> ->. rewrite decide_True by done. eauto.
    + case_decide; [|done]. subst. naive_solver.
  - intros a b d. rewrite Hl. simpl. intros Hk.
    assert (link = Some d ∧ a = e_from e ∧ b = e_to e ∨ v !! gkey (KChunk a b) = Some d)
      as [(-> & -> & ->)|Hv] by (case_decide; [destruct link|]; naive_solver).
    + destruct (Hlink d eq_refl). split; [done|]. exists (e_id e), e'.
      rewrite Hedge, decide_True by done. rewrite Hsl. done.
    + destruct (wf_chunk v Hwf a b d Hv) as (? & id & e0 & He0 & ?). split; [done|].
      exists id, e0. rewrite Hedge, decide_False; [done|]. intros ->. by rewrite Hnone in He0.
Qed.

(** *** Nodes *)

(** Filing a node under [kd], leaving the kind it had before. *)
Definition node_ops (id : string) (kd : NodeKind) (old : option NodeKind) (data : string)
    : list BatchOperation :=
  (match old with
   | Some k => if decide (k = kd) then [] else [Delete (gkey (KKind k id))]
   | None => []
   end) ++ [Put (gkey (KNode id)) data; Put (gkey (KKind kd id)) ""].

Lemma node_ops_on_keys id kd old data : on_graph_keys (node_ops id kd old data).
Proof.
  unfold node_ops, on_graph_keys. destruct old as [k|]; [case_decide|];
    repeat constructor; simpl; by eexists.
Qed.

Definition node_value (id : string) (kd : NodeKind) (old : option NodeKind) (data : string)
    (m : option string) (g : GKey) : option string :=
  match g with
  | KNode id' => if decide (id' = id) then Some data else m
  | KKind kd' id' =>
      if decide (id' = id ∧ kd' = kd) then Some ""
      else if decide (id' = id ∧ old = Some kd') then None else m
  | _ => m
  end.

Lemma node_ops_lookup v id kd old data g :
  apply_batch v (node_ops id kd old data) !! gkey g
  = node_value id kd old data (v !! gkey g) g.
Proof.
  unfold node_ops, node_value. rewrite apply_batch_app.
  destruct old as [k|]; [case_decide|]; unfold apply_batch; simpl;
    rewrite ?lookup_gput, ?lookup_gdel; destruct g; repeat case_decide; naive_solver.
Qed.

(** A node put over the one of its id, if there is one. *)
Lemma put_node_wf v id kd data n' :
  graph_wf v → des_node data = Some n' → n_id n' = id → n_kind n' = kd →
  let v' := apply_batch v (node_ops id kd (n_kind <$> node_at v id) data) in
  graph_wf v' ∧
  (∀ id', node_at v' id' = if decide (id' = id) then Some n' else node_at v id') ∧
  (∀ id', edge_at v' id' = edge_at v id').
Proof.
  intros Hwf Hd Hid Hkd v'.
  pose proof (node_ops_lookup v id kd (n_kind <$> node_at v id) data) as Hl. fold v' in Hl.
  assert (∀ id', node_at v' id' = if decide (id' = id) then Some n' else node_at v id') as Hnode.
  { intros id'. rewrite !node_at_gkey, Hl. simpl. by case_decide. }
  assert (∀ id', edge_at v' id' = edge_at v id') as Hedge.
  { intros id'. by rewrite !edge_at_gkey, Hl. }
  split; [|done]. split.
  - apply shape_preserved; [apply node_ops_on_keys|apply Hwf].
  - intros id' d. rewrite Hl. simpl. case_decide as Hi.
    + intros [= <-]. exists n'. rewrite Hl. simpl. rewrite decide_True by done. naive_solver.
    + intros (n & ? & ? & ?)%(wf_node v Hwf). exists n. rewrite Hl. simpl.
      rewrite !decide_False by naive_solver. done.
  - intros kd' id'. rewrite Hl, Hnode. simpl. case_decide as H1; [|case_decide as H2].
    + destruct H1 as [-> ->]. rewrite decide_True by done. eauto.
    + by intros [].
    + intros (n & Hn & <-)%(wf_kind v Hwf). case_decide; [|eauto].
      subst. destruct H2. by rewrite Hn.
  - intros id' d. rewrite Hl. unfold refers. simpl.
    intros (e & ? & ? & ? & ? & Ho & Hi)%(wf_edge v Hwf). exists e. by rewrite !Hl.
  - intros a k id'. rewrite Hl, Hedge. apply (wf_out v Hwf).
  - intros a k id'. rewrite Hl, Hedge. apply (wf_in v Hwf).
  - intros a b d. rewrite Hl. setoid_rewrite Hedge. apply (wf_chunk v Hwf).
Qed.

(** Removing a node no edge ends at. *)
Lemma remove_node_wf v n :
  graph_wf v → node_at v (n_id n) = Some n →
  let v' := apply_batch v [Delete (node_key (n_id n)); Delete (kind_key (n_kind n) (n_id n))] in
  graph_wf v' ∧
  (∀ id, node_at v' id = if decide (id = n_id n) then None else node_at v id) ∧
  (∀ id, edge_at v' id = edge_at v id).
Proof.
  intros Hwf Hn v'.
  assert (∀ g, v' !! gkey g = if decide (g = KNode (n_id n) ∨ g = KKind (n_kind n) (n_id n))
                              then None else v !! gkey g) as Hl.
  { intros g. unfold v', apply_batch. simpl. change (node_key _) with (gkey (KNode (n_id n))).
    change (kind_key _ _) with (gkey (KKind (n_kind n) (n_id n))). rewrite !lookup_gdel.
    repeat case_decide; naive_solver. }
  assert (∀ id, node_at v' id = if decide (id = n_id n) then None else node_at v id) as Hnode.
  { intros id. rewrite !node_at_gkey, Hl. repeat case_decide; naive_solver. }
  assert (∀ id, edge_at v' id = edge_at v id) as Hedge.
  { intros id. rewrite !edge_at_gkey, Hl. by rewrite decide_False by naive_solver. }
  split; [|done]. split.
  - apply shape_preserved; [|apply Hwf].
    repeat constructor; [by exists (KNode (n_id n))|by exists (KKind (n_kind n) (n_id n))].
  - intros id d. rewrite Hl. case_decide as Hg; [done|].
    intros (n0 & ? & ? & ?)%(wf_node v Hwf). exists n0. rewrite Hl, decide_False; [done|].
    intros [?|[= _ E]]; [done|]. destruct Hg. left. by rewrite E.
  - intros kd id. rewrite Hl, Hnode. case_decide as Hg; [by intros []|].
    intros (n0 & Hn0 & <-)%(wf_kind v Hwf). case_decide; [|eauto].
    subst. rewrite Hn in Hn0. simplify_eq. destruct Hg. by right.
  - intros id d. rewrite Hl. case_decide; [done|]. unfold refers.
    intros (e & ? & ? & ? & ? & Ho & Hi)%(wf_edge v Hwf). exists e.
    rewrite !Hl, !decide_False by naive_solver. done.
  - intros a k id. rewrite Hl, Hedge. case_decide; [by intros []|]. apply (wf_out v Hwf).
  - intros a k id. rewrite Hl, Hedge. case_decide; [by intros []|]. apply (wf_in v Hwf).
  - intros a b d. rewrite Hl. case_decide; [done|]. setoid_rewrite Hedge. apply (wf_chunk v Hwf).
Qed.

(** ** Mutations *)

Context {S : Type} `{!StorageBackend S, !StorageLaws S}.
Implicit Types (s : S).

Lemma get_edge_spec s id o : get_edge s id = Ok o → o = edge_at (sb_view s) id.
Proof.
  unfold get_edge, edge_at, from_storage. destruct (sb_get s _) as [d|] eqn:E; [|done].
  apply sb_get_ok in E as ->. simpl. destruct (_ !! _) as [d|]; simpl; [|by intros [= <-]].
  unfold deserialize. destruct (des_edge d); simpl; [by intros [= <-]|done].
Qed.

Lemma get_node_spec s id o : get_node s id = Ok o → o = node_at (sb_view s) id.
Proof.
  unfold get_node, node_at, from_storage. destruct (sb_get s _) as [d|] eqn:E; [|done].
  apply sb_get_ok in E as ->. simpl. destruct (_ !! _) as [d|]; simpl; [|by intros [= <-]].
  unfold deserialize. destruct (des_node d); simpl; [by intros [= <-]|done].
Qed.

Lemma serialize_ok {A} (ser : A → option string) a d : serialize ser a = Ok d → ser a = Some d.
Proof. unfold serialize. destruct (ser a); naive_solver. Qed.

Definition delete_existing v id : list BatchOperation :=
  match edge_at v id with Some ex => edge_delete_operations ex | None => [] end.

(** The parts of the operations that file an edge. *)
Definition filed e (ops : list BatchOperation) : Prop :=
  ∃ data e' ref link,
    ops = put_ops e data ref link ∧ des_edge data = Some e' ∧ edge_skel e' = edge_skel e ∧
    des_id ref = Some (e_id e) ∧
    (∀ l, link = Some l → des_id l = Some (e_to e) ∧ should_link_chunk e = true) ∧
    (should_link_chunk e = true → is_Some link).

Lemma edge_put_shape e ops :
  f32_is_finite (e_weight e) = true → edge_put_operations e = Ok ops → filed e ops.
Proof.
  intros Hfin. unfold edge_put_operations, filed.
  intros (data & Hdata%serialize_ok & H)%bind_ok.
  apply bind_ok in H as (ref & Href%serialize_ok & H).
  apply bind_ok in H as (ref' & Href'%serialize_ok & H). rewrite Href in Href'. simplify_eq.
  destruct (edge_roundtrip e data Hdata Hfin) as (e' & Hd & Hs). apply id_roundtrip in Href.
  destruct (should_link_chunk e) eqn:Hsl.
  - apply bind_ok in H as (l & Hl%serialize_ok%id_roundtrip & [= <-]).
    exists data, e', ref', (Some l). split_and!; try done. by intros ? [= <-].
  - injection H as <-. exists data, e', ref', None. by split_and!; try done.
Qed.

Lemma filed_skel e1 e ops : edge_skel e1 = edge_skel e → filed e1 ops → filed e ops.
Proof.
  unfold filed, put_ops, out_key, in_key, should_link_chunk.
  destruct e1, e; unfold edge_skel; simpl. intros [= -> -> -> -> ->]. done.
Qed.

(** What a successful [edge_upsert_operations] is made of. *)
Lemma edge_upsert_shape s e now ops :
  edge_upsert_operations s e now = Ok ops →
  f32_is_finite (e_weight e) = true ∧ is_same_workspace (e_from e) (e_to e) = true ∧
  ∃ puts, ops = delete_existing (sb_view s) (e_id e) ++ puts ∧ filed e puts.
Proof.
  unfold edge_upsert_operations, delete_existing.
  destruct (f32_is_finite (e_weight e)) eqn:Hfin; [|done].
  destruct (is_same_workspace _ _) eqn:Hws; [|done]. simpl.
  intros (o & ->%get_edge_spec & H)%bind_ok. split_and!; [done..|].
  destruct (edge_at _ _) as [ex|]; apply bind_ok in H as (puts & Hp & [= <-]); exists puts;
    (split; [done|]); (eapply filed_skel; [|eapply edge_put_shape; [|exact Hp]]); done.
Qed.

Lemma skel_id e e' : edge_skel e = edge_skel e' → e_id e = e_id e'.
Proof. unfold edge_skel. congruence. Qed.

Lemma skel_weight e e' : edge_skel e = edge_skel e' → e_weight e = e_weight e'.
Proof. unfold edge_skel. congruence. Qed.

Lemma delete_existing_wf v v0 id :
  graph_wf v → graph_wf v0 → edge_at v id = edge_at v0 id ∨ edge_at v id = None →
  let v' := apply_batch v (delete_existing v0 id) in
  graph_wf v' ∧
  (∀ id', edge_at v' id' = if decide (id' = id) then None else edge_at v id') ∧
  (∀ id', node_at v' id' = node_at v id').
Proof.
  intros Hwf Hwf0 Hcur. unfold delete_existing. destruct (edge_at v0 id) as [ex|] eqn:E.
  - destruct (wf_edge_at v0 id ex Hwf0 E) as (<- & _). by apply delete_edge_wf.
  - simpl. split_and!; [done| |done]. intros id'. case_decide; [subst|done]. by destruct Hcur.
Qed.

Lemma filed_wf v e ops :
  graph_wf v → edge_at v (e_id e) = None → filed e ops →
  f32_is_finite (e_weight e) = true → is_same_workspace (e_from e) (e_to e) = true →
  let v' := apply_batch v ops in
  graph_wf v' ∧ edge_skel <$> edge_at v' (e_id e) = Some (edge_skel e) ∧
  (∀ id, id ≠ e_id e → edge_at v' id = edge_at v id) ∧
  (∀ id, node_at v' id = node_at v id).
Proof.
  intros Hwf Hnone (data & e' & ref & link & -> & Hd & Hs & Href & Hlink & _) Hfin Hws.
  destruct (put_edge_frame v e data ref link) as [Hedge Hnode]. split_and!; [|..].
  - by eapply put_edge_wf.
  - rewrite Hedge, decide_True, Hd by done. simpl. by f_equal.
  - intros id Hid. by rewrite Hedge, decide_False.
  - done.
Qed.

(** *** The three stages of a batch *)

(** Every edge of [ids] as it was in [v0], or gone. *)
Definition as_before v v0 (ids : list string) : Prop :=
  ∀ id, id ∈ ids → edge_at v id = edge_at v0 id ∨ edge_at v id = None.

Lemma delete_stage s ids blocks v :
  collect (delete_edge_ops s) ids = Ok blocks → graph_wf v → graph_wf (sb_view s) →
  as_before v (sb_view s) ids →
  let v' := apply_batch v (mjoin blocks) in
  graph_wf v' ∧ (∀ id, edge_at v' id = if decide (id ∈ ids) then None else edge_at v id) ∧
  (∀ id, node_at v' id = node_at v id).
Proof.
  intros Hc Hwf Hwf0. revert blocks v Hc Hwf.
  induction ids as [|id ids IH]; intros blocks v Hc Hwf Hb; [by injection Hc as <-|].
  apply collect_cons in Hc as (y & ys & Hy & Hc & ->). cbn zeta. simpl. rewrite apply_batch_app.
  apply bind_ok in Hy as (o & ->%get_edge_spec & [= <-]).
  destruct (delete_existing_wf v (sb_view s) id) as (Hwf' & He & Hn); [done..|apply Hb; set_solver|].
  destruct (IH ys _ Hc Hwf') as (? & He' & Hn').
  { intros id' Hid'. rewrite He. case_decide; [by right|]. apply Hb. set_solver. }
  split_and!; [done| |intros; by rewrite Hn', Hn].
  intros id'. rewrite He', He. repeat case_decide; set_solver.
Qed.

Lemma node_upsert_shape s n merge now ops :
  node_upsert_operations s n merge now = Ok ops →
  ∃ data n', ops = node_ops (n_id n) (n_kind n) (n_kind <$> node_at (sb_view s) (n_id n)) data ∧
    des_node data = Some n' ∧ n_id n' = n_id n ∧ n_kind n' = n_kind n.
Proof.
  unfold node_upsert_operations, node_ops. intros (o & ->%get_node_spec & H)%bind_ok.
  destruct (node_at _ _) as [ex|]; apply bind_ok in H as (data & Hd%serialize_ok & [= <-]);
    destruct (node_roundtrip _ _ Hd) as (n' & ? & ? & ?); exists data, n'; done.
Qed.

Lemma node_stage s (merge : Node → bool) (clock : Node → Z) l blocks v :
  collect (λ n, node_upsert_operations s n (merge n) (clock n)) l = Ok blocks →
  NoDup (n_id <$> l) → graph_wf v →
  (∀ n, n ∈ l → node_at v (n_id n) = node_at (sb_view s) (n_id n)) →
  let v' := apply_batch v (mjoin blocks) in
  graph_wf v' ∧ (∀ n, n ∈ l → n_kind <$> node_at v' (n_id n) = Some (n_kind n)) ∧
  (∀ id, id ∉ n_id <$> l → node_at v' id = node_at v id) ∧
  (∀ id, edge_at v' id = edge_at v id).
Proof.
  intros Hc Hnd. revert blocks v Hc.
  induction l as [|n l IH]; intros blocks v Hc Hwf Hb.
  { injection Hc as <-. split_and!; [done|by intros ? ?%elem_of_nil|done|done]. }
  apply collect_cons in Hc as (y & ys & Hy & Hc & ->). cbn zeta. simpl. rewrite apply_batch_app.
  simpl in Hnd. apply NoDup_cons in Hnd as [Hn Hnd].
  apply node_upsert_shape in Hy as (data & n' & -> & Hd & Hid & Hk).
  rewrite <-Hb by set_solver.
  destruct (put_node_wf v (n_id n) (n_kind n) data n') as (Hwf' & Hnode & Hedge); [done..|].
  set (v1 := apply_batch v _) in *. destruct (IH Hnd ys v1 Hc Hwf') as (? & H1 & H2 & H3).
  { intros m Hm. rewrite Hnode, decide_False; [apply Hb; set_solver|].
    intros E. apply Hn. rewrite <-E. by apply list_elem_of_fmap_2. }
  split_and!; [done| | |intros; by rewrite H3, Hedge].
  - intros m [->|Hm]%elem_of_cons; [|by apply H1].
    rewrite H2, Hnode, decide_True by done. simpl. by rewrite Hk.
  - intros id [Hne Hnin]%not_elem_of_cons. rewrite H2, Hnode by done. by rewrite decide_False.
Qed.

Lemma edge_stage s (clock : Edge → Z) l blocks v :
  collect (λ e, edge_upsert_operations s e (clock e)) l = Ok blocks →
  NoDup (e_id <$> l) → graph_wf v → graph_wf (sb_view s) → as_before v (sb_view s) (e_id <$> l) →
  let v' := apply_batch v (mjoin blocks) in
  graph_wf v' ∧ (∀ e, e ∈ l → edge_skel <$> edge_at v' (e_id e) = Some (edge_skel e)) ∧
  (∀ id, id ∉ e_id <$> l → edge_at v' id = edge_at v id) ∧
  (∀ id, node_at v' id = node_at v id).
Proof.
  intros Hc Hnd Hwf Hwf0. revert blocks v Hc Hwf.
  induction l as [|e l IH]; intros blocks v Hc Hwf Hb.
  { injection Hc as <-. split_and!; [done|by intros ? ?%elem_of_nil|done|done]. }
  apply collect_cons in Hc as (y & ys & Hy & Hc & ->). cbn zeta. simpl. rewrite apply_batch_app.
  simpl in Hnd. apply NoDup_cons in Hnd as [Hn Hnd].
  apply edge_upsert_shape in Hy as (Hfin & Hws & puts & -> & Hfiled). rewrite apply_batch_app.
  destruct (delete_existing_wf v (sb_view s) (e_id e)) as (Hwf1 & He1 & Hn1);
    [done..|apply Hb; set_solver|].
  set (v1 := apply_batch v _) in *.
  destruct (filed_wf v1 e puts) as (Hwf2 & Hs2 & He2 & Hn2); [done|by rewrite He1, decide_True|done..|].
  set (v2 := apply_batch v1 puts) in *. destruct (IH Hnd ys v2 Hc Hwf2) as (? & H1 & H2 & H3).
  { intros id Hid. rewrite He2, He1, decide_False; [apply Hb; set_solver|by intros ->..]. }
  split_and!; [done| | |intros; by rewrite H3, Hn2, Hn1].
  - intros m [->|Hm]%elem_of_cons; [by rewrite H2|by apply H1].
  - intros id [Hne Hnin]%not_elem_of_cons. by rewrite H2, He2, He1, decide_False.
Qed.

(** *** The maps a batch is sorted into *)

Lemma elem_of_btree_values {A} (m : gmap string A) x :
  x ∈ btree_values m ↔ ∃ k, m !! k = Some x.
Proof.
  unfold btree_values. rewrite list_elem_of_fmap. setoid_rewrite elem_of_sort_by. split.
  - intros ([k y] & -> & H%elem_of_map_to_list). eauto.
  - intros [k H]. exists (k, x). split; [done|]. by apply elem_of_map_to_list.
Qed.

Lemma btree_values_NoDup {A} (key : A → string) (m : gmap string A) :
  (∀ k x, m !! k = Some x → key x = k) → NoDup (key <$> btree_values m).
Proof.
  intros Hkey. unfold btree_values. rewrite (sort_by_perm btree_cmp).
  pose proof (NoDup_fst_map_to_list m) as Hnd.
  assert (key <$> (map_to_list m).*2 = (map_to_list m).*1) as ->; [|done].
  rewrite <-list_fmap_compose. apply list_fmap_ext. intros i [k x] Hi. simpl.
  apply Hkey, elem_of_map_to_list. by eapply list_elem_of_lookup_2.
Qed.

(** The last record of a batch with the given id. *)
Definition last_edge (l : list Edge) (id : string) : option Edge :=
  last (filter (λ e, e_id e = id) l).
Definition last_node (l : list Node) (id : string) : option Node :=
  last (filter (λ n, n_id n = id) l).

Lemma batch_edges_lookup l id : batch_edges l !! id = last_edge l id.
Proof.
  unfold batch_edges, last_edge. induction l as [|e l IH] using rev_ind; [done|].
  rewrite foldl_app, filter_app. simpl. destruct (decide (e_id e = id)) as [<-|Hne].
  - rewrite lookup_insert_eq, filter_cons_True, filter_nil by done. by rewrite last_snoc.
  - rewrite lookup_insert_ne, filter_cons_False, filter_nil by done. by rewrite app_nil_r.
Qed.

Lemma batch_nodes_lookup l id :
  (∀ n, batch_nodes l !! id = Some n → n_id n = id) ∧
  n_kind <$> batch_nodes l !! id = n_kind <$> last_node l id.
Proof.
  unfold batch_nodes, last_node. induction l as [|n l IH] using rev_ind; [done|].
  rewrite foldl_app, filter_app. simpl. unfold merge_batch_node at 1 3.
  destruct (decide (n_id n = id)) as [<-|Hne].
  - rewrite filter_cons_True, filter_nil, last_snoc by done. destruct IH as [IH1 _].
    destruct (foldl _ _ _ !! n_id n) as [m|]; rewrite lookup_insert_eq; [|naive_solver].
    split; [|done]. intros ? [= <-]. simpl. by apply IH1.
  - rewrite filter_cons_False, filter_nil, app_nil_r by done.
    destruct (foldl _ _ _ !! n_id n); by rewrite lookup_insert_ne.
Qed.

Lemma elem_of_btree_set l x : x ∈ btree_set l ↔ x ∈ l.
Proof. unfold btree_set. rewrite elem_of_sort_by. set_solver. Qed.
End wf.
