(* ===== verification/GraphMutations.v ===== *)
(** * Mutations of the graph index

    What [upsert_batch], [delete_edge] and [delete_node] of
    [crates/graph/src/native.rs] do to the stored graph, and that the invariant
    of [GraphWf] survives any sequence of them. *)

From S2P Require Import Prelude Sorting Float32 Text Storage GraphModel Graph GraphWf.

Section mutations.
Context {Json : Type} `{!GraphCodec Json, !GraphCodecLaws Json}.
Context {S : Type} `{!StorageBackend S, !StorageLaws S}.
Context (hash_order : gset string → list string)
        (hash_order_perm : ∀ X, hash_order X ≡ₚ elements X).
#[local] Set Default Proof Using "Type*".
#[local] Set Proof Using Clear Unused.
Abbreviation Node := (GraphNode Json).
Abbreviation Edge := (GraphEdge Json).
Implicit Types (s : S) (v : gmap string string) (e : Edge) (n : Node).

(** ** Batches *)

(** The graph a batch asks for: the last edge given for an id wins, other edges
    are dropped when listed for deletion, and a node takes the kind it is last
    given. *)
Definition batch_applied (batch : GraphMutationBatch Json) v v' : Prop :=
  ∀ id,
    edge_skel <$> (edge_at v' id : option Edge)
    = match last_edge (b_edges batch) id with
      | Some e => Some (edge_skel e)
      | None => if decide (id ∈ b_delete_edges batch) then None
                else edge_skel <$> (edge_at v id : option Edge)
      end ∧
    n_kind <$> (node_at v' id : option Node)
    = match last_node (b_nodes batch) id with
      | Some n => Some (n_kind n)
      | None => n_kind <$> (node_at v id : option Node)
      end.

Lemma last_node_batch (l : list Node) id :
  (batch_nodes l !! id = None ∧ last_node l id = None) ∨
  ∃ n n', batch_nodes l !! id = Some n ∧ last_node l id = Some n' ∧ n_id n = id ∧ n_kind n = n_kind n'.
Proof.
  destruct (batch_nodes_lookup l id) as [H1 H2].
  destruct (batch_nodes l !! id) as [n|], (last_node l id) as [n'|]; simpl in H2; try done;
    [right|by left]. exists n, n'. split_and!; [done..|by apply H1|congruence].
Qed.

Lemma batch_edges_id (l : list Edge) id e : batch_edges l !! id = Some e → e_id e = id.
Proof.
  rewrite batch_edges_lookup. unfold last_edge. intros H%last_Some_elem_of.
  by apply list_elem_of_filter in H as [? _].
Qed.

Lemma batch_operations_applied s batch (merge : Node → bool) (nc : Node → Z) (ec : Edge → Z)
    deletes nodes edges :
  graph_wf (Json := Json) (sb_view s) →
  collect (delete_edge_ops s) (btree_set (b_delete_edges batch)) = Ok deletes →
  collect (λ n, node_upsert_operations s n (merge n) (nc n))
    (btree_values (batch_nodes (b_nodes batch))) = Ok nodes →
  collect (λ e, edge_upsert_operations s e (ec e))
    (btree_values (batch_edges (b_edges batch))) = Ok edges →
  let v' := apply_batch (sb_view s) (mjoin deletes ++ mjoin nodes ++ mjoin edges) in
  graph_wf (Json := Json) v' ∧ batch_applied batch (sb_view s) v'.
Proof.
  intros Hwf Hd Hn He. cbn zeta. rewrite !apply_batch_app.
  destruct (delete_stage s _ _ (sb_view s) Hd) as (Hwf1 & He1 & Hn1); [done..|by left|].
  set (v1 := apply_batch _ _) in *.
  destruct (node_stage s merge nc _ _ v1 Hn) as (Hwf2 & Hk2 & Hn2 & He2); [|done|done|].
  { apply btree_values_NoDup. intros id n Hid.
    destruct (last_node_batch (b_nodes batch) id) as [[? _]|(? & ? & ? & _ & ? & _)]; congruence. }
  set (v2 := apply_batch v1 _) in *.
  destruct (edge_stage s ec _ _ v2 He) as (Hwf3 & Hs3 & He3 & Hn3);
    [apply btree_values_NoDup, batch_edges_id|done|done| |].
  { intros id _. rewrite He2, He1. case_decide; auto. }
  set (v3 := apply_batch v2 _) in *. split; [done|]. intros id. split.
  - rewrite <-batch_edges_lookup. destruct (batch_edges _ !! id) as [e|] eqn:E.
    + rewrite <-(batch_edges_id _ _ _ E). apply Hs3, elem_of_btree_values. eauto.
    + rewrite He3, He2, He1.
      * rewrite (decide_ext _ (id ∈ b_delete_edges batch)) by apply elem_of_btree_set.
        by case_decide.
      * intros (e & -> & [k Hk]%elem_of_btree_values)%list_elem_of_fmap.
        by rewrite (batch_edges_id _ _ _ Hk), Hk in E.
  - rewrite Hn3.
    destruct (last_node_batch (b_nodes batch) id) as [[E ->]|(n & n' & E & -> & <- & <-)].
    + rewrite Hn2, Hn1; [done|]. intros (n & -> & [k Hk]%elem_of_btree_values)%list_elem_of_fmap.
      destruct (last_node_batch (b_nodes batch) k) as [[? _]|(? & ? & ? & _ & ? & _)]; congruence.
    + apply Hk2, elem_of_btree_values. eauto.
Qed.

(** A batch has its whole effect, or reports an error and has none. *)
Lemma upsert_batch_cases s batch nc ec r s' :
  graph_wf (Json := Json) (sb_view s) → upsert_batch s batch nc ec = (r, s') →
  graph_wf (Json := Json) (sb_view s') ∧
  (is_ok r = false ∧ sb_view s' = sb_view s ∨ batch_applied batch (sb_view s) (sb_view s')).
Proof.
  intros Hwf. unfold upsert_batch. destruct (batch_is_empty batch) eqn:Hempty.
  { intros [= <- <-]. split; [done|]. right. unfold batch_is_empty in Hempty.
    by destruct batch as [[] [] [] []]. }
  destruct (let? deletes := _ in _) as [ops|err] eqn:Hops; [|by intros [= <- <-]; auto].
  apply bind_ok in Hops as (deletes & Hd & Hops). apply bind_ok in Hops as (nodes & Hn & Hops).
  apply bind_ok in Hops as (edges & He & [= <-]).
  destruct (batch_operations_applied s batch _ _ _ _ _ _ Hwf Hd Hn He) as [Hwf' Happ].
  destruct (sb_write_batch s _) as [r1 s1] eqn:Hw. intros [= <- <-].
  apply sb_write_batch_ok in Hw. destruct r1; simpl in *; [rewrite Hw; auto|].
  destruct Hw as [-> | ->]; auto.
Qed.

(** ** Deleting *)

Lemma delete_edge_cases s id r s' :
  graph_wf (Json := Json) (sb_view s) → delete_edge s id = (r, s') →
  graph_wf (Json := Json) (sb_view s') ∧
  (r = Ok true → is_Some (edge_at (Json := Json) (sb_view s) id) ∧
     (∀ id', edge_at (Json := Json) (sb_view s') id'
             = if decide (id' = id) then None else edge_at (sb_view s) id') ∧
     (∀ id', node_at (Json := Json) (sb_view s') id' = node_at (sb_view s) id')) ∧
  (r = Ok false → edge_at (Json := Json) (sb_view s) id = None ∧ s' = s).
Proof.
  intros Hwf. unfold delete_edge. destruct (get_edge s id) as [o|] eqn:Hg; [|by intros [= <- <-]].
  apply get_edge_spec in Hg as Hg. destruct o as [e|]; [|by intros [= <- <-]].
  symmetry in Hg. destruct (wf_edge_at _ _ _ Hwf Hg) as (Hid & _).
  destruct (delete_edge_wf (sb_view s) e) as (Hwf' & He & Hn); [done|left; by rewrite Hid|].
  destruct (sb_write_batch s _) as [r1 s1] eqn:Hw. apply sb_write_batch_ok in Hw.
  destruct r1; simpl in *; intros [= <- <-].
  - rewrite Hw. split_and!; [done| |done]. intros _. subst id. by rewrite Hg.
  - split; [|done]. by destruct Hw as [-> | ->].
Qed.

(** ** Adjacency listings *)

Definition near (dir : DirectionOnEdge) e : string :=
  match dir with Outgoing => e_from e | Incoming => e_to e end.
Definition far (dir : DirectionOnEdge) e : string :=
  match dir with Outgoing => e_to e | Incoming => e_from e end.

Definition adjacency_prefix (dir : DirectionOnEdge) (node : string) (kind : option EdgeKind)
    : string :=
  match dir with
  | Outgoing => adjacency_prefix_out node kind
  | Incoming => adjacency_prefix_in node kind
  end.

(** The stored edges [dir] of [node] whose kind is selected. *)
Definition listed v (dir : DirectionOnEdge) (node : string) (kind : option EdgeKind)
    (id : string) : Prop :=
  ∃ e, edge_at v id = Some e ∧ near dir e = node ∧ kind_selected kind (e_kind e).

Lemma starts_with_trans k p q :
  starts_with k (p +:+ q) = true → starts_with k p = true.
Proof. intros [x ->]%starts_with_inv. rewrite app_assoc_str. apply starts_with_app. Qed.

(** An entry under an adjacency prefix holds the id of an edge listed there, and
    every listed edge has such an entry. *)
Lemma listing_entry v dir node kind k d :
  graph_wf (Json := Json) v → (k, d) ∈ entries_with_prefix v (adjacency_prefix dir node kind) →
  ∃ id, des_id d = Some id ∧ listed v dir node kind id.
Proof.
  intros Hwf [Hk Hs]%elem_of_entries_with_prefix.
  assert (∃ g, k = gkey g) as [g ->].
  { destruct dir; [apply (wf_shape v Hwf k OUT_PREFIX)|apply (wf_shape v Hwf k IN_PREFIX)];
      [by eexists|unfold graph_prefixes; set_solver|..|by eexists|unfold graph_prefixes; set_solver|].
    all: destruct kind; simpl in Hs; by apply starts_with_trans in Hs. }
  destruct dir; simpl in Hs.
  - apply out_prefix_spec in Hs as (kd & id & -> & Hsel).
    destruct (wf_out v Hwf node kd id) as (e & He & Hf & Hkd); [by eexists|].
    destruct (wf_edge_at v id e Hwf He) as (Hid & _ & _ & Hr & _).
    exists id. unfold refers, out_key in Hr. rewrite Hf, Hkd, Hid, Hk in Hr.
    split; [done|]. exists e. by rewrite Hkd.
  - apply in_prefix_spec in Hs as (kd & id & -> & Hsel).
    destruct (wf_in v Hwf node kd id) as (e & He & Hf & Hkd); [by eexists|].
    destruct (wf_edge_at v id e Hwf He) as (Hid & _ & _ & _ & Hr).
    exists id. unfold refers, in_key in Hr. rewrite Hf, Hkd, Hid, Hk in Hr.
    split; [done|]. exists e. by rewrite Hkd.
Qed.

Lemma listed_entry v dir node kind id :
  graph_wf (Json := Json) v → listed v dir node kind id →
  ∃ k d, (k, d) ∈ entries_with_prefix v (adjacency_prefix dir node kind) ∧ des_id d = Some id.
Proof.
  intros Hwf (e & He & <- & Hsel).
  destruct (wf_edge_at v id e Hwf He) as (Hid & _ & _ & Ho & Hi). unfold refers in *.
  destruct dir; simpl.
  - destruct (v !! gkey (out_key e)) as [d|] eqn:E; [|done]. exists (gkey (out_key e)), d.
    split; [|done]. apply elem_of_entries_with_prefix. split; [done|].
    apply out_prefix_spec. by exists (e_kind e), (e_id e).
  - destruct (v !! gkey (in_key e)) as [d|] eqn:E; [|done]. exists (gkey (in_key e)), d.
    split; [|done]. apply elem_of_entries_with_prefix. split; [done|].
    apply in_prefix_spec. by exists (e_kind e), (e_id e).
Qed.

Definition fits {A} (limit : option Z) (l : list A) : Prop :=
  match limit with None => True | Some n => Zlength l ≤ n end.

Lemma take_limit_sublist {A} limit (l : list A) x : x ∈ take_limit limit l → x ∈ l.
Proof.
  destruct limit; simpl; [|done]. intros H. eapply elem_of_sublist; [exact H|apply sublist_take].
Qed.

Lemma take_limit_fits {A} limit (l : list A) : fits limit l → take_limit limit l = l.
Proof. destruct limit; simpl; [|done]. intros. apply take_ge. lia. Qed.

(** What a scan of an adjacency prefix returns. *)
Lemma edge_refs_spec s dir node kind limit ids :
  graph_wf (Json := Json) (sb_view s) →
  edge_refs_for_prefix s (adjacency_prefix dir node kind) limit = Ok ids →
  (∀ id, id ∈ ids → listed (sb_view s) dir node kind id) ∧
  (fits limit (entries_with_prefix (sb_view s) (adjacency_prefix dir node kind)) →
   ∀ id, listed (sb_view s) dir node kind id → id ∈ ids).
Proof.
  intros Hwf (es & Hs & Hc%collect_Forall2)%bind_ok.
  unfold from_storage in Hs. destruct (sb_scan_prefix_limited _ _ _) as [es'|] eqn:Es; [|done].
  injection Hs as ->. apply sb_scan_prefix_limited_ok in Es as ->. split.
  - intros id (i & Hi)%list_elem_of_lookup. destruct (Forall2_lookup_r _ _ _ _ _ Hc Hi) as ([k d] & Hkd & Hd).
    apply list_elem_of_lookup_2, take_limit_sublist in Hkd.
    destruct (listing_entry _ _ _ _ _ _ Hwf Hkd) as (id' & Hid' & Hl).
    unfold deserialize in Hd. simpl in Hd. rewrite Hid' in Hd. by injection Hd as <-.
  - intros Hfit id Hl. rewrite take_limit_fits in Hc by done.
    destruct (listed_entry _ _ _ _ _ Hwf Hl) as (k & d & Hin & Hd).
    apply list_elem_of_lookup in Hin as [i Hi].
    destruct (Forall2_lookup_l _ _ _ _ _ Hc Hi) as (id' & Hid' & E).
    unfold deserialize in E. simpl in E. rewrite Hd in E. injection E as <-.
    by eapply list_elem_of_lookup_2.
Qed.

Definition wants (d : Direction) (dir : DirectionOnEdge) : bool :=
  match dir with Outgoing => wants_out d | Incoming => wants_in d end.

(** The references collected for a node: an edge in a wanted direction, of a
    selected kind; all of them when no scan is cut short. *)
Lemma edge_refs_for_node_spec s node d kinds limit refs :
  graph_wf (Json := Json) (sb_view s) → edge_refs_for_node s node d kinds limit = Ok refs →
  (∀ id dir, (id, dir) ∈ refs →
     wants d dir = true ∧ ∃ kind, kind ∈ selected_kinds kinds ∧ listed (sb_view s) dir node kind id) ∧
  (∀ id dir kind, wants d dir = true → kind ∈ selected_kinds kinds →
     fits limit (entries_with_prefix (sb_view s) (adjacency_prefix dir node kind)) →
     listed (sb_view s) dir node kind id → (id, dir) ∈ refs).
Proof.
  intros Hwf (rs & Hc%collect_Forall2 & [= <-])%bind_ok.
  assert (∀ kind l, edge_refs_for_kind s node d limit kind = Ok l →
    (∀ id dir, (id, dir) ∈ l → wants d dir = true ∧ listed (sb_view s) dir node kind id) ∧
    (∀ id dir, wants d dir = true →
       fits limit (entries_with_prefix (sb_view s) (adjacency_prefix dir node kind)) →
       listed (sb_view s) dir node kind id → (id, dir) ∈ l)) as Hkind.
  { intros kind l (out & Ho & (into & Hi & [= <-])%bind_ok)%bind_ok. split.
    - intros id dir [(? & [= -> ->] & Hin)%list_elem_of_fmap|(? & [= -> ->] & Hin)%list_elem_of_fmap]%elem_of_app;
        simpl; [destruct (wants_out d)|destruct (wants_in d)]; simplify_eq/=;
        try (by apply elem_of_nil in Hin); split; try done;
        [by apply (edge_refs_spec s Outgoing node kind limit out)
        |by apply (edge_refs_spec s Incoming node kind limit into)].
    - intros id dir Hw Hfit Hl. apply elem_of_app.
      destruct dir; simpl in Hw; rewrite Hw in *; [left|right]; apply list_elem_of_fmap; exists id;
        (split; [done|]);
        [by apply (edge_refs_spec s Outgoing node kind limit out)
        |by apply (edge_refs_spec s Incoming node kind limit into)]. }
  split.
  - intros id dir (l & Hin & Hl)%list_elem_of_join. apply list_elem_of_lookup in Hl as [i Hi].
    destruct (Forall2_lookup_r _ _ _ _ _ Hc Hi) as (kind & Hk & E).
    destruct (Hkind _ _ E) as [H1 _]. destruct (H1 _ _ Hin). split; [done|].
    exists kind. split; [by eapply list_elem_of_lookup_2|done].
  - intros id dir kind Hw [i Hi]%list_elem_of_lookup Hfit Hl.
    destruct (Forall2_lookup_l _ _ _ _ _ Hc Hi) as (l & Hl' & E).
    apply list_elem_of_join. exists l. split; [|by eapply list_elem_of_lookup_2].
    by apply (Hkind _ _ E).
Qed.

(** ** Deleting a node *)

Definition touches (node : string) e : Prop := e_from e = node ∨ e_to e = node.

(** The ids of the edges that touch a node, as [delete_node] collects them. *)
Lemma incident_ids s node refs :
  graph_wf (Json := Json) (sb_view s) → edge_refs_for_node s node DirBoth [] None = Ok refs →
  ∀ id, id ∈ hash_order (list_to_set refs.*1)
        ↔ ∃ e, edge_at (sb_view s) id = Some e ∧ touches node e.
Proof.
  intros Hwf [H1 H2]%edge_refs_for_node_spec; [|done]. intros id.
  rewrite hash_order_perm, elem_of_elements, elem_of_list_to_set, list_elem_of_fmap. split.
  - intros ([? dir] & -> & Hin). simpl. destruct (H1 _ _ Hin) as (_ & kind & _ & e & He & Hn & _).
    exists e. split; [done|]. unfold touches. destruct dir; auto.
  - intros (e & He & [Ht|Ht]); [exists (id, Outgoing)|exists (id, Incoming)]; (split; [done|]);
      apply (H2 _ _ None); try done; try (by left); by exists e.
Qed.

(** The operations [delete_node] builds for the edges it found. *)
Lemma collect_edges_deletes s ids os :
  collect (get_edge s) ids = Ok os →
  ∃ blocks, collect (delete_edge_ops s) ids = Ok blocks ∧
    mjoin blocks = mjoin (edge_delete_operations <$> omap id os) ∧
    os = edge_at (Json := Json) (sb_view s) <$> ids.
Proof.
  revert os. induction ids as [|i ids IH]; intros os; simpl.
  { intros [= <-]. by exists []. }
  intros (o & Ho & (os' & Hos & [= <-])%bind_ok)%bind_ok.
  destruct (IH _ Hos) as (blocks & Hb & Hj & ->). unfold delete_edge_ops at 1.
  rewrite Ho, Hb. simpl. apply get_edge_spec in Ho as ->.
  eexists. split_and!; [done| |done]. simpl. destruct (edge_at _ i); simpl; by rewrite Hj.
Qed.

Lemma omap_all_some {A} (f : string → option A) ids :
  (∀ i, i ∈ ids → is_Some (f i)) → length (omap id (f <$> ids)) = length ids.
Proof.
  induction ids as [|i ids IH]; intros H; [done|]. simpl.
  destruct (H i) as [a Ha]; [set_solver|]. rewrite Ha. simpl. f_equal. apply IH. set_solver.
Qed.

Definition node_deleted (node : string) (count : Z) v v' : Prop :=
  (∀ x, node_at (Json := Json) v' x = if decide (x = node) then None else node_at v x) ∧
  (∀ x, edge_at v' x = match edge_at v x with
                       | Some e => if decide (touches node e) then None else Some e
                       | None => None
                       end) ∧
  ∃ l, NoDup l ∧ count = Zlength l ∧
       ∀ x, x ∈ l ↔ ∃ e, edge_at v x = Some e ∧ touches node e.

Lemma delete_node_applied s n refs os :
  graph_wf (Json := Json) (sb_view s) → node_at (sb_view s) (n_id n) = Some n →
  edge_refs_for_node s (n_id n) DirBoth [] None = Ok refs →
  collect (get_edge s) (hash_order (list_to_set refs.*1)) = Ok os →
  let v' := apply_batch (sb_view s)
              (mjoin (edge_delete_operations <$> omap id os)
               ++ [Delete (node_key (n_id n)); Delete (kind_key (n_kind n) (n_id n))]) in
  graph_wf (Json := Json) v' ∧ node_deleted (n_id n) (Zlength (omap id os)) (sb_view s) v'.
Proof.
  intros Hwf Hn Hrefs Hos. cbn zeta. pose proof (incident_ids _ _ _ Hwf Hrefs) as Hids.
  set (ids := hash_order _) in *.
  assert (NoDup ids) as Hnd by (unfold ids; rewrite hash_order_perm; apply NoDup_elements).
  apply collect_edges_deletes in Hos as (blocks & Hb & Hj & ->). rewrite <-Hj, apply_batch_app.
  destruct (delete_stage s ids blocks (sb_view s) Hb) as (Hwf1 & He1 & Hn1); [done..|by left|].
  set (v1 := apply_batch _ _) in *.
  destruct (remove_node_wf v1 n) as (Hwf2 & Hn2 & He2); [done|by rewrite Hn1|].
  split; [done|]. split_and!.
  - intros x. rewrite Hn2. case_decide; [done|apply Hn1].
  - intros x. rewrite He2, He1. case_decide as Hx.
    + apply Hids in Hx as (e & -> & Ht). by rewrite decide_True.
    + destruct (edge_at _ x) as [e|] eqn:E; [|done]. rewrite decide_False; [done|].
      intros Ht. apply Hx, Hids. eauto.
  - exists ids. split_and!; [done| |done].
    rewrite omap_all_some; [done|]. intros i (e & He & _)%Hids. by eexists.
Qed.

Lemma delete_node_cases s id r s' :
  graph_wf (Json := Json) (sb_view s) → delete_node hash_order s id = (r, s') →
  graph_wf (Json := Json) (sb_view s') ∧
  ∀ res, r = Ok res →
    if dn_deleted res
    then is_Some (node_at (Json := Json) (sb_view s) id) ∧
         node_deleted id (dn_edges_deleted res) (sb_view s) (sb_view s')
    else node_at (Json := Json) (sb_view s) id = None ∧ s' = s.
Proof.
  intros Hwf. unfold delete_node. destruct (get_node s id) as [o|] eqn:Hg; [|by intros [= <- <-]].
  apply get_node_spec in Hg. destruct o as [n|]; symmetry in Hg.
  2:{ intros [= <- <-]. split; [done|]. by intros ? [= <-]. }
  destruct (wf_node_at _ _ _ Hwf Hg) as (<- & _).
  destruct (let? refs := _ in _) as [edges|] eqn:Hops; [|by intros [= <- <-]].
  apply bind_ok in Hops as (refs & Hrefs & (os & Hos & [= <-])%bind_ok).
  destruct (delete_node_applied s n refs os) as [Hwf' Hdel]; [done..|].
  destruct (sb_write_batch s _) as [r1 s1] eqn:Hw. apply sb_write_batch_ok in Hw.
  destruct r1; simpl in *; intros [= <- <-].
  - rewrite Hw. split; [done|]. intros ? [= <-]. simpl. by rewrite Hg.
  - split; [|done]. by destruct Hw as [-> | ->].
Qed.

(** ** Sequences of mutations *)

Inductive GraphOp :=
| OpUpsert (batch : GraphMutationBatch Json) (node_clock edge_clock : string → Z)
| OpUpsertNode (node : Node) (now : Z)
| OpUpsertEdge (edge : Edge) (now : Z)
| OpDeleteNode (id : string)
| OpDeleteEdge (id : string).

Definition graph_exec s (op : GraphOp) : S :=
  match op with
  | OpUpsert batch nc ec => (upsert_batch s batch nc ec).2
  | OpUpsertNode node now => (upsert_node s node now).2
  | OpUpsertEdge edge now => (upsert_edge s edge now).2
  | OpDeleteNode id => (delete_node (Json := Json) hash_order s id).2
  | OpDeleteEdge id => (delete_edge (Json := Json) s id).2
  end.

Lemma graph_exec_wf s op :
  graph_wf (Json := Json) (sb_view s) → graph_wf (Json := Json) (sb_view (graph_exec s op)).
Proof.
  intros Hwf. destruct op as [b nc ec|n now|e now|id|id]; simpl; unfold upsert_node, upsert_edge.
  1,2,3: destruct (upsert_batch _ _ _ _) eqn:E; by eapply upsert_batch_cases.
  - destruct (delete_node _ _ _) eqn:E. by eapply delete_node_cases.
  - destruct (delete_edge _ _) eqn:E. by eapply delete_edge_cases.
Qed.

(** A store without any key of the index. *)
Definition no_graph v : Prop :=
  ∀ k p, p ∈ graph_prefixes → starts_with k p = true → v !! k = None.

Lemma gkey_prefix g : ∃ p, p ∈ graph_prefixes ∧ starts_with (gkey g) p = true.
Proof.
  destruct g; [exists NODE_PREFIX|exists EDGE_PREFIX|exists OUT_PREFIX|exists IN_PREFIX
    |exists CHUNK_PREFIX|exists KIND_PREFIX];
    (split; [unfold graph_prefixes; set_solver|apply starts_with_app]).
Qed.

Lemma no_graph_wf v : no_graph v → graph_wf (Json := Json) v.
Proof.
  intros Hno. assert (∀ g, v !! gkey g = None) as Hg.
  { intros g. destruct (gkey_prefix g) as (p & ? & ?). by eapply Hno. }
  split; try (intros *; rewrite Hg; by intros || (by intros [])).
  intros k p [d Hk] Hp Hs. by rewrite (Hno k p Hp Hs) in Hk.
Qed.

Lemma graph_run_wf s ops :
  graph_wf (Json := Json) (sb_view s) →
  graph_wf (Json := Json) (sb_view (foldl graph_exec s ops)).
Proof. revert s. induction ops as [|op ops IH]; intros s Hwf; [done|]. by apply IH, graph_exec_wf. Qed.

(** ** What the mutations promise *)

(** C29: the index stays consistent: in a store that starts without a graph, after any
    sequence of batches, upserts and deletions, whichever of their writes fail,
    every node is filed under its id and listed under its kind and no other, every
    edge is filed under its id, within one workspace and with a finite weight, and
    listed at both its ends under its kind, no listing names an edge that is not
    there or files it elsewhere, and every chunk link stands for a stored edge. Not
    every edge that asks for a link has one: see [parallel_edge_loses_link]. *)
Theorem graph_index_consistent s ops :
  no_graph (sb_view s) →
  graph_wf (Json := Json) (sb_view (foldl graph_exec s ops)).
Proof. intros Hno. by apply graph_run_wf, no_graph_wf. Qed.

(** A batch is exact and atomic: it reports an error and changes nothing, or
    (with any result) leaves the graph it describes: the last edge given for an id
    is stored with its ends, kind and weight, an edge listed for deletion and not
    given again is gone, a node has the kind it was last given, and every other
    edge and node is as before; on success it is always the latter. *)
Lemma upsert_batch_exact s batch node_clock edge_clock r s' :
  graph_wf (Json := Json) (sb_view s) →
  upsert_batch s batch node_clock edge_clock = (r, s') →
  graph_wf (Json := Json) (sb_view s') ∧
  (is_ok r = false ∧ sb_view s' = sb_view s ∨ batch_applied batch (sb_view s) (sb_view s')).
Proof. apply upsert_batch_cases. Qed.

(** Deleting a stored node removes it, and every edge that starts or ends at it,
    and nothing else, and reports how many edges that were; deleting a node that is
    not stored changes nothing. *)
Lemma delete_node_exact s id res s' :
  graph_wf (Json := Json) (sb_view s) →
  delete_node (Json := Json) hash_order s id = (Ok res, s') →
  if dn_deleted res
  then is_Some (node_at (Json := Json) (sb_view s) id) ∧
       node_deleted id (dn_edges_deleted res) (sb_view s) (sb_view s')
  else node_at (Json := Json) (sb_view s) id = None ∧ s' = s.
Proof. intros Hwf H. by eapply delete_node_cases. Qed.
End mutations.
