(* ===== verification/GraphQuery.v ===== *)
(** * Queries of the graph index

    What [neighbors], [path_exists] and [related_chunks_with_trace] of
    [crates/graph/src/native.rs] and [crates/graph/src/query.rs] return on a store
    that satisfies the invariant of [GraphWf]. *)

From S2P Require Import Prelude Sorting Float32 Text Storage GraphModel Graph GraphWf GraphMutations.

Section query.
Context {Json : Type} `{!GraphCodec Json, !GraphCodecLaws Json}.
Context {S : Type} `{!StorageBackend S, !StorageLaws S, !StorageReliable S}.
#[local] Set Default Proof Using "Type*".
#[local] Set Proof Using Clear Unused.
Abbreviation Node := (GraphNode Json).
Abbreviation Edge := (GraphEdge Json).
Abbreviation Neighbor := (GraphNeighbor Json).
Implicit Types (s : S) (v : gmap string string) (e : Edge) (n : Node) (nb : Neighbor).

(** ** Reads of a well-formed store succeed *)

Lemma get_edge_total s id :
  graph_wf (Json := Json) (sb_view s) → get_edge s id = Ok (edge_at (Json := Json) (sb_view s) id).
Proof.
  intros Hwf. unfold get_edge, edge_at, from_storage.
  rewrite get_eq. simpl.
  destruct (_ !! _) as [d|] eqn:E; [|done]. simpl.
  destruct (wf_edge _ Hwf id d E) as (e & He & _). unfold deserialize. by rewrite He.
Qed.

Lemma get_node_total s id :
  graph_wf (Json := Json) (sb_view s) → get_node s id = Ok (node_at (Json := Json) (sb_view s) id).
Proof.
  intros Hwf. unfold get_node, node_at, from_storage.
  rewrite get_eq. simpl.
  destruct (_ !! _) as [d|] eqn:E; [|done]. simpl.
  destruct (wf_node _ Hwf id d E) as (n & Hn & _). unfold deserialize. by rewrite Hn.
Qed.

Lemma edge_refs_total s dir node kind limit :
  graph_wf (Json := Json) (sb_view s) →
  ∃ ids, edge_refs_for_prefix s (adjacency_prefix dir node kind) limit = Ok ids.
Proof.
  intros Hwf. unfold edge_refs_for_prefix, from_storage.
  pose proof (reliable_scan s (adjacency_prefix dir node kind) limit) as Hok.
  destruct (sb_scan_prefix_limited _ _ _) as [es|] eqn:E; [|done]. simpl.
  apply sb_scan_prefix_limited_ok in E as ->. apply collect_total.
  intros [k d] Hin%take_limit_sublist. destruct (listing_entry _ _ _ _ _ _ Hwf Hin) as (id & Hid & _).
  unfold deserialize. simpl. by rewrite Hid.
Qed.

Lemma edge_refs_for_node_total s node d kinds limit :
  graph_wf (Json := Json) (sb_view s) → ∃ refs, edge_refs_for_node s node d kinds limit = Ok refs.
Proof.
  intros Hwf. unfold edge_refs_for_node.
  destruct (collect_total (edge_refs_for_kind s node d limit) (selected_kinds kinds)) as [rs Hrs];
    [|by rewrite Hrs; eexists].
  intros kind _. unfold edge_refs_for_kind.
  destruct (edge_refs_total s Outgoing node kind limit Hwf) as [o Ho].
  destruct (edge_refs_total s Incoming node kind limit Hwf) as [i Hi]. simpl in *.
  rewrite Ho, Hi. by destruct (wants_out d), (wants_in d).
Qed.

(** ** Neighbours *)

(** An empty list of kinds selects every kind. *)
Definition kind_wanted (kinds : list EdgeKind) (k : EdgeKind) : Prop := kinds = [] ∨ k ∈ kinds.

Lemma kind_wanted_selected kinds k :
  kind_wanted kinds k ↔ ∃ kind, kind ∈ selected_kinds kinds ∧ kind_selected kind k.
Proof.
  unfold kind_wanted, selected_kinds, kind_selected. destruct kinds as [|k0 ks]; split.
  - intros _. exists None. split; [by left|done].
  - by left.
  - intros [?|Hin]; [done|]. exists (Some k). split; [|done]. by apply list_elem_of_fmap_2.
  - intros (kind & (k' & -> & Hin)%list_elem_of_fmap & ->). by right.
Qed.

(** The edge qualifies for the request, seen from its near end. *)
Definition qualifies v (req : NeighborRequest) e (dir : DirectionOnEdge) : Prop :=
  wants (nr_direction req) dir = true ∧ edge_at v (e_id e) = Some e ∧
  near dir e = nr_node_id req ∧ kind_wanted (nr_edge_kinds req) (e_kind e) ∧
  match nr_min_weight req with None => True | Some w => f32_ge (e_weight e) w = true end ∧
  is_Some (node_at (Json := Json) v (far dir e)).

Lemma graph_neighbor_spec s node id dir e :
  graph_wf (Json := Json) (sb_view s) → edge_at (sb_view s) id = Some e → near dir e = node →
  graph_neighbor s node id dir
  = Ok ((λ n, mkNeighbor n e dir) <$> node_at (sb_view s) (far dir e)).
Proof.
  intros Hwf He <-. unfold graph_neighbor. rewrite get_edge_total, He by done. simpl.
  destruct (wf_edge_at _ _ _ Hwf He) as (_ & _ & Hws & _).
  assert (match dir with
          | Outgoing => if String.eqb (e_from e) (near dir e) then Some (e_to e) else None
          | Incoming => if String.eqb (e_to e) (near dir e) then Some (e_from e) else None
          end = Some (far dir e)) as ->.
  { destruct dir; simpl; by rewrite String.eqb_refl. }
  rewrite get_node_total by done. simpl. destruct (node_at _ _) as [n|] eqn:En; [|done]. simpl.
  destruct (wf_node_at _ _ _ Hwf En) as (-> & _).
  assert (is_same_workspace (near dir e) (far dir e) = true) as ->; [|done].
  unfold is_same_workspace in *. apply bool_decide_eq_true in Hws. apply bool_decide_eq_true.
  by destruct dir.
Qed.

(** The references a request collects are edges at the node. *)
Definition refs_ok v (node : string) (refs : list (string * DirectionOnEdge)) : Prop :=
  ∀ id dir, (id, dir) ∈ refs → ∃ e, edge_at v id = Some e ∧ near dir e = node.

(** The neighbour a reference leads to, if it is wanted. *)
Definition resolve v (minw : option f32) (r : string * DirectionOnEdge) : option Neighbor :=
  e ← edge_at v r.1;
  n ← node_at v (far r.2 e);
  if heavy_enough minw (mkNeighbor n e r.2) then Some (mkNeighbor n e r.2) else None.

(** The loop resolves the first reference to each edge. *)
Lemma neighbors_loop_eq s node minw seen refs :
  graph_wf (Json := Json) (sb_view s) → refs_ok (sb_view s) node refs →
  neighbors_loop s node minw seen refs
  = Ok (omap (resolve (sb_view s) minw) (retain_unseen fst seen refs)).
Proof.
  intros Hwf. revert seen. induction refs as [|[id dir] refs IH]; intros seen Hrefs; [done|].
  assert (refs_ok (sb_view s) node refs) as Hrefs' by (intros ???; apply Hrefs; set_solver).
  simpl. case_decide; [by apply IH|].
  destruct (Hrefs id dir) as (e & He & Hnear); [set_solver|].
  rewrite (graph_neighbor_spec s node id dir e Hwf He Hnear), IH by done. simpl.
  assert (resolve (sb_view s) minw (id, dir)
          = match node_at (sb_view s) (far dir e) with
            | Some n => if heavy_enough minw (mkNeighbor n e dir)
                        then Some (mkNeighbor n e dir) else None
            | None => None
            end) as -> by (unfold resolve; simpl; by rewrite He).
  destruct (node_at _ _) as [n|]; [|done]. simpl. by destruct (heavy_enough _ _).
Qed.

Lemma resolve_Some v minw id dir nb :
  resolve v minw (id, dir) = Some nb ↔
  edge_at v id = Some (nb_edge nb) ∧ node_at v (far dir (nb_edge nb)) = Some (nb_node nb) ∧
  nb_direction nb = dir ∧ heavy_enough minw nb = true.
Proof.
  unfold resolve. simpl. destruct (edge_at v id) as [e|]; simpl; [|naive_solver].
  destruct nb as [n' e' d']; simpl. split.
  - destruct (node_at v (far dir e)) as [n|] eqn:En; simpl; [|done].
    destruct (heavy_enough _ _) eqn:Eh; [|done]. by intros [= <- <- <-].
  - intros ([= ->] & -> & -> & Hh). simpl. by rewrite Hh.
Qed.

Definition nb_id nb : string := e_id (nb_edge nb).

Lemma omap_NoDup_key v minw (refs : list (string * DirectionOnEdge)) :
  graph_wf (Json := Json) v → NoDup (fst <$> refs) →
  NoDup (nb_id <$> omap (resolve v minw) refs) ∧
  ∀ x, x ∈ nb_id <$> omap (resolve v minw) refs → x ∈ fst <$> refs.
Proof.
  intros Hwf. induction refs as [|[id dir] refs IH]; [done|]. simpl.
  intros [Hnin Hnd]%NoDup_cons. destruct (IH Hnd) as [H1 H2].
  destruct (resolve v minw (id, dir)) as [nb|] eqn:E; [|set_solver].
  apply resolve_Some in E as (He & _). destruct (wf_edge_at _ _ _ Hwf He) as (Hid & _).
  simpl. unfold nb_id at 1 3. rewrite Hid. split; [|set_solver].
  constructor; [|done]. by intros ?%H2.
Qed.

(** The comparator of [neighbors], on finite weights. *)
Definition neighbor_key_cmp (a b : Neighbor) : comparison :=
  then_with
    (then_with (Z.compare (f32_key (e_weight (nb_edge b))) (f32_key (e_weight (nb_edge a))))
       (bytes_cmp (n_id (nb_node a)) (n_id (nb_node b))))
    (bytes_cmp (e_id (nb_edge a)) (e_id (nb_edge b))).

#[global] Instance neighbor_key_cmp_total : TotalCmp neighbor_key_cmp.
Proof.
  unfold neighbor_key_cmp. apply TotalCmp_then; [apply TotalCmp_then|].
  - apply (TotalCmp_flip (λ a b, Z.compare (f32_key (e_weight (nb_edge a))) (f32_key (e_weight (nb_edge b))))).
    apply (TotalCmp_on (λ a, f32_key (e_weight (nb_edge a)))), _.
  - apply (TotalCmp_on (λ a, n_id (nb_node a))), _.
  - apply (TotalCmp_on (λ a, e_id (nb_edge a))), _.
Qed.

(** No listing the request scans is cut short. *)
Definition scans_fit v (req : NeighborRequest) : Prop :=
  ∀ dir kind, wants (nr_direction req) dir = true → kind ∈ selected_kinds (nr_edge_kinds req) →
    Zlength (entries_with_prefix v (adjacency_prefix dir (nr_node_id req) kind))
    ≤ saturating_mul usize_max (nr_limit req) 4.

Lemma neighbor_cmp_finite a b :
  f32_is_finite (e_weight (nb_edge a)) = true → f32_is_finite (e_weight (nb_edge b)) = true →
  neighbor_cmp a b = neighbor_key_cmp a b.
Proof. intros. unfold neighbor_cmp, neighbor_key_cmp. by rewrite f32_cmp_or_eq_finite. Qed.

Lemma heavy_enough_iff minw nb :
  heavy_enough minw nb = true ↔
  match minw with None => True | Some w => f32_ge (e_weight (nb_edge nb)) w = true end.
Proof. unfold heavy_enough. by destruct minw. Qed.

(** What the query finds before it sorts and truncates. *)
Definition found_by s (req : NeighborRequest) (found : list Neighbor) : Prop :=
  NoDup (nb_id <$> found) ∧
  (∀ nb, nb ∈ found →
     qualifies (sb_view s) req (nb_edge nb) (nb_direction nb) ∧
     node_at (sb_view s) (far (nb_direction nb) (nb_edge nb)) = Some (nb_node nb)) ∧
  (scans_fit (sb_view s) req → ∀ e dir, qualifies (sb_view s) req e dir →
     ∃ nb, nb ∈ found ∧ nb_edge nb = e).

Lemma loop_found s req refs :
  graph_wf (Json := Json) (sb_view s) →
  edge_refs_for_node s (nr_node_id req) (nr_direction req) (nr_edge_kinds req)
    (Some (saturating_mul usize_max (nr_limit req) 4)) = Ok refs →
  refs_ok (sb_view s) (nr_node_id req) refs ∧
  found_by s req (omap (resolve (sb_view s) (nr_min_weight req)) (retain_unseen fst ∅ refs)).
Proof.
  intros Hwf Hrefs. destruct (edge_refs_for_node_spec _ _ _ _ _ _ Hwf Hrefs) as [H1 H2].
  set (minw := nr_min_weight req).
  split. { intros id dir (_ & kind & _ & e & ? & ? & _)%H1. eauto. }
  split_and!.
  - apply omap_NoDup_key; [done|]. apply retain_unseen_NoDup.
  - intros nb ([id dir] & Hin & (He & Hn & <- & Hh)%resolve_Some)%list_elem_of_omap.
    eapply elem_of_sublist in Hin; [|apply retain_unseen_sublist].
    destruct (H1 _ _ Hin) as (Hw & kind & Hk & e & He' & Hnear & Hsel).
    rewrite He in He'. injection He' as <-. destruct (wf_edge_at _ _ _ Hwf He) as (Hid & _).
    split; [|done]. unfold qualifies. rewrite Hid. split_and!; [done..| | |by rewrite Hn].
    + apply kind_wanted_selected. eauto.
    + by apply heavy_enough_iff in Hh.
  - intros Hfit e dir (Hw & He & Hnear & (kind & Hk & Hsel)%kind_wanted_selected & Hh & [n Hn]).
    assert ((e_id e, dir) ∈ refs) as Hin.
    { apply (H2 _ _ kind); [done..|by apply Hfit|]. by exists e. }
    destruct (retain_unseen_elem fst ∅ refs (e_id e, dir)) as ([id dir'] & Hin' & Hid); [done|set_solver|].
    simpl in Hid. subst id.
    assert ((e_id e, dir') ∈ refs) as Hin2
      by (eapply elem_of_sublist; [exact Hin'|apply retain_unseen_sublist]).
    destruct (H1 _ _ Hin2) as (_ & _ & _ & e' & He' & Hnear' & _). rewrite He in He'. injection He' as <-.
    assert (far dir' e = far dir e) as Hfar by (destruct dir, dir'; simpl in *; congruence).
    exists (mkNeighbor n e dir'). split; [|done]. apply list_elem_of_omap.
    exists (e_id e, dir'). split; [done|]. apply resolve_Some. simpl. rewrite Hfar.
    split_and!; [done..|]. by apply heavy_enough_iff.
Qed.

Lemma length_omap_le {A B} (f : A → option B) l : (length (omap f l) ≤ length l)%nat.
Proof.
  induction l as [|x l IH]; [done|]. simpl. destruct (f x); simpl.
  - by apply le_n_S.
  - by apply le_S.
Qed.

Lemma neighbors_spec s req :
  graph_wf (Json := Json) (sb_view s) →
  ∃ refs found, edge_refs_for_node s (nr_node_id req) (nr_direction req) (nr_edge_kinds req)
      (Some (saturating_mul usize_max (nr_limit req) 4)) = Ok refs ∧
    found_by s req found ∧ (length found ≤ length refs)%nat ∧
    neighbors s req = Ok (take (Z.to_nat (nr_limit req)) (sort_by neighbor_key_cmp found)).
Proof.
  intros Hwf. destruct (edge_refs_for_node_total s (nr_node_id req) (nr_direction req)
    (nr_edge_kinds req) (Some (saturating_mul usize_max (nr_limit req) 4)) Hwf) as [refs Hrefs].
  destruct (loop_found s req refs Hwf Hrefs) as [Hok Hf].
  set (found := omap _ _) in *. exists refs, found. split_and!; [done|done| |].
  - unfold found. etrans; [apply length_omap_le|]. apply sublist_length, retain_unseen_sublist.
  - unfold neighbors. destruct (Z.eqb_spec (nr_limit req) 0) as [->|]; [done|].
    rewrite Hrefs. simpl. rewrite neighbors_loop_eq by done. fold found. simpl. f_equal. f_equal.
    apply sort_by_ext. intros a b Ha Hb. destruct Hf as (_ & Hs & _).
    apply neighbor_cmp_finite.
    + destruct (Hs a Ha) as ((_ & He & _) & _). by destruct (wf_edge_at _ _ _ Hwf He) as (_ & ? & _).
    + destruct (Hs b Hb) as ((_ & He & _) & _). by destruct (wf_edge_at _ _ _ Hwf He) as (_ & ? & _).
Qed.

Lemma neighbor_key_cmp_weight a b :
  f32_is_finite (e_weight (nb_edge a)) = true → f32_is_finite (e_weight (nb_edge b)) = true →
  cmp_le neighbor_key_cmp a b → f32_ge (e_weight (nb_edge a)) (e_weight (nb_edge b)) = true.
Proof.
  intros Ha Hb. unfold cmp_le, neighbor_key_cmp. rewrite f32_ge_finite, Z.leb_le by done.
  destruct (Z.compare_spec (f32_key (e_weight (nb_edge b))) (f32_key (e_weight (nb_edge a))));
    simpl; intros; lia || done.
Qed.

Lemma found_finite s req found nb :
  graph_wf (Json := Json) (sb_view s) → found_by s req found → nb ∈ found →
  f32_is_finite (e_weight (nb_edge nb)) = true.
Proof.
  intros Hwf (_ & Hs & _) Hin. destruct (Hs nb Hin) as ((_ & He & _) & _).
  by destruct (wf_edge_at _ _ _ Hwf He) as (_ & ? & _).
Qed.

(** A neighbour query answers: on a consistent index it returns at most
    [limit] neighbours, each through a stored edge at the node, in a requested
    direction, of a requested kind and at least the minimum weight, with the stored
    node at its other end; each edge once, heaviest first; and while no scanned
    listing exceeds four times the limit, an edge that qualifies is left out only
    when the answer is full of edges at least as heavy. *)
Lemma neighbors_exact s req :
  graph_wf (Json := Json) (sb_view s) → 0 ≤ nr_limit req →
  ∃ l, neighbors s req = Ok l ∧ Zlength l ≤ nr_limit req ∧ NoDup (nb_id <$> l) ∧
    StronglySorted (λ a b, f32_ge (e_weight (nb_edge a)) (e_weight (nb_edge b)) = true) l ∧
    (∀ nb, nb ∈ l →
       qualifies (sb_view s) req (nb_edge nb) (nb_direction nb) ∧
       node_at (sb_view s) (far (nb_direction nb) (nb_edge nb)) = Some (nb_node nb)) ∧
    (scans_fit (sb_view s) req → ∀ e dir, qualifies (sb_view s) req e dir →
       (∃ nb, nb ∈ l ∧ nb_edge nb = e) ∨
       (Zlength l = nr_limit req ∧
        ∀ nb, nb ∈ l → f32_ge (e_weight (nb_edge nb)) (e_weight e) = true)).
Proof.
  intros Hwf Hlim. destruct (neighbors_spec s req Hwf) as (refs & found & _ & Hf & _ & ->).
  pose proof (found_finite s req found) as Hfin. set (k := Z.to_nat (nr_limit req)).
  assert (∀ nb, nb ∈ take k (sort_by neighbor_key_cmp found) → nb ∈ found) as Hin.
  { intros nb H. apply (elem_of_sort_by neighbor_key_cmp).
    eapply elem_of_sublist; [exact H|apply sublist_take]. }
  pose proof Hf as (Hnd & Hs & Hc). eexists. split_and!; [done|..].
  - rewrite length_take. lia.
  - rewrite fmap_take. eapply sublist_NoDup; [|apply sublist_take].
    by rewrite (sort_by_perm neighbor_key_cmp).
  - apply StronglySorted_take. eapply StronglySorted_elem_mono; [|apply sort_by_sorted, _].
    intros a b Ha Hb. rewrite elem_of_sort_by in Ha, Hb. apply neighbor_key_cmp_weight; by apply Hfin.
  - intros nb ?%Hin. by apply Hs.
  - intros Hfit e dir Hq. destruct (Hc Hfit e dir Hq) as (nb & Hnb & <-).
    destruct (take_sort_rest neighbor_key_cmp k found nb Hnb) as [?|[Hlen Hle]]; [eauto|right].
    split; [lia|]. intros nb' Hnb'. apply neighbor_key_cmp_weight; [by apply Hfin, Hin|by apply Hfin|].
    by apply Hle.
Qed.

(** ** Paths *)

(** One hop along an outgoing edge to a node that is stored. *)
Definition graph_step v (kinds : list EdgeKind) (a b : string) : Prop :=
  ∃ e, edge_at v (e_id e) = Some e ∧ e_from e = a ∧ e_to e = b ∧ kind_wanted kinds (e_kind e) ∧
       is_Some (node_at (Json := Json) v b).

(** The adjacency entries a hop from [node] scans. *)
Definition out_listing v (kinds : list EdgeKind) (node : string) : list KV :=
  mjoin ((λ kind, entries_with_prefix v (adjacency_prefix Outgoing node kind))
         <$> selected_kinds kinds).

Definition degree_bounded v (kinds : list EdgeKind) : Prop :=
  ∀ node, Zlength (out_listing v kinds node) ≤ 256.

Lemma out_refs_length s node kinds limit refs :
  edge_refs_for_node s node DirOut kinds limit = Ok refs →
  (length refs ≤ length (out_listing (sb_view s) kinds node))%nat.
Proof.
  unfold edge_refs_for_node, out_listing. intros (rs & Hc%collect_Forall2 & [= <-])%bind_ok.
  induction Hc as [|kind l kinds' rs Hl _ IH]; [done|]. cbn [mjoin list_join fmap list_fmap].
  rewrite !length_app. apply Nat.add_le_mono; [|exact IH].
  apply bind_ok in Hl as (out & (es & Hs & Hc%collect_Forall2)%bind_ok & [= <-]).
  rewrite app_nil_r, length_fmap, <-(Forall2_length _ _ _ Hc).
  unfold from_storage in Hs. destruct (sb_scan_prefix_limited _ _ _) as [es'|] eqn:E; [|done].
  injection Hs as ->. apply sb_scan_prefix_limited_ok in E as ->. simpl.
  destruct limit; simpl; [|done]. rewrite length_take. lia.
Qed.

Lemma listing_length_le v kinds node kind :
  kind ∈ selected_kinds kinds →
  (length (entries_with_prefix v (adjacency_prefix Outgoing node kind))
   ≤ length (out_listing v kinds node))%nat.
Proof.
  unfold out_listing. intros (l1 & l2 & ->)%list_elem_of_split.
  rewrite fmap_app, join_app, length_app. cbn [fmap list_fmap mjoin list_join].
  rewrite length_app. lia.
Qed.

(** What one hop of the search finds. *)
Lemma out_hop s node kinds :
  graph_wf (Json := Json) (sb_view s) →
  ∃ ns : list Neighbor, neighbors s (hop_request node DirOut kinds 256) = Ok ns ∧
    (∀ nb, nb ∈ ns → graph_step (sb_view s) kinds node (n_id (nb_node nb))) ∧
    (degree_bounded (sb_view s) kinds → ∀ b, graph_step (sb_view s) kinds node b →
       ∃ nb, nb ∈ ns ∧ n_id (nb_node nb) = b).
Proof.
  intros Hwf. set (req := hop_request node DirOut kinds 256).
  destruct (neighbors_spec s req Hwf) as (refs & found & Hrefs & (Hnd & Hs & Hc) & Hlen & Hns).
  eexists. split; [exact Hns|]. split.
  - intros nb Hin. eapply elem_of_sublist in Hin; [|apply sublist_take].
    rewrite elem_of_sort_by in Hin. destruct (Hs nb Hin) as ((Hw & He & Hn & Hk & _ & _) & Hnode).
    destruct (nb_direction nb); [|done]. simpl in *.
    destruct (wf_node_at _ _ _ Hwf Hnode) as (Hid & _). rewrite Hid.
    exists (nb_edge nb). by rewrite Hnode.
  - intros Hdeg b (e & He & Hf & Ht & Hk & Hb).
    pose proof (out_refs_length s node kinds _ _ Hrefs) as Hrl. specialize (Hdeg node).
    destruct (Hc) with (e := e) (dir := Outgoing) as (nb & Hin & Hnb).
    + intros dir kind Hw Hkind. destruct dir; [|done].
      pose proof (listing_length_le (sb_view s) kinds node kind Hkind).
      change (saturating_mul usize_max (nr_limit req) 4) with 1024. simpl in *. lia.
    + unfold qualifies. simpl. subst. done.
    + exists nb. split.
      * rewrite take_ge; [by rewrite elem_of_sort_by|]. rewrite length_sort_by.
        change (nr_limit req) with 256. lia.
      * destruct (Hs nb Hin) as ((Hw & _) & Hnode). destruct (nb_direction nb); [|done].
        simpl in Hnode. destruct (wf_node_at _ _ _ Hwf Hnode) as (-> & _). by rewrite Hnb.
Qed.

(** *** The search *)

(** What the loop knows, with [D] the depth at which each visited node was
    queued: there is a path of that length; the queue is in depth order and spans
    two levels; a node that has left the queue is not the target, and its hops
    have been followed unless it lies at the maximum depth. *)
Record bfs v (kinds : list EdgeKind) (from to : string) (max : Z) (D : gmap string Z)
    (visited : gset string) (queue : list (string * Z)) : Prop := {
  bfs_dom : dom D = visited;
  bfs_start : D !! from = Some 0;
  bfs_path x d : D !! x = Some d → 0 ≤ d ≤ max ∧ nsteps (graph_step v kinds) (Z.to_nat d) from x;
  bfs_queued x d : (x, d) ∈ queue → D !! x = Some d;
  bfs_left x d : D !! x = Some d → (x, d) ∈ queue ∨
    x ≠ to ∧ (d < max → degree_bounded v kinds → ∀ y, graph_step v kinds x y →
              ∃ d', D !! y = Some d' ∧ d' ≤ d + 1);
  bfs_sorted : StronglySorted (λ a b, a.2 ≤ b.2) queue;
  bfs_window x d p : D !! x = Some d → p ∈ queue → d ≤ p.2 + 1;
}.

(** What queueing the neighbours of a node at [depth] adds. *)
Lemma enqueue_spec depth (visited : gset string) queue (ns : list Neighbor) (D : gmap string Z) :
  dom D = visited →
  ∃ new (D' : gmap string Z), enqueue depth visited queue ns = (dom D', queue ++ new) ∧ D ⊆ D' ∧
    (∀ p, p ∈ new → p.2 = depth + 1 ∧ D' !! p.1 = Some p.2) ∧
    (∀ x d, D' !! x = Some d → D !! x = Some d ∨
       d = depth + 1 ∧ (x, d) ∈ new ∧ ∃ nb, nb ∈ ns ∧ n_id (nb_node nb) = x) ∧
    (∀ nb, nb ∈ ns → is_Some (D' !! n_id (nb_node nb))) ∧
    size (dom (D := gset string) D') = (size (dom (D := gset string) D) + length new)%nat.
Proof.
  revert visited queue D. induction ns as [|nb ns IH]; intros visited queue D <-.
  { exists [], D. rewrite app_nil_r. split_and!; [done..|set_solver|auto|set_solver|simpl; lia]. }
  simpl. set (x := n_id (nb_node nb)). case_decide as Hx.
  - destruct (IH (dom D) queue D eq_refl) as (new & D' & He & Hsub & Hnew & Hold & Hall & Hsz).
    exists new, D'. split_and!; [done..| | |done].
    + intros y d Hy. destruct (Hold y d Hy) as [?|(? & ? & nb' & ? & ?)]; [by left|right].
      split_and!; [done..|]. exists nb'. set_solver.
    + intros nb' [->|?]%elem_of_cons; [|by apply Hall].
      apply elem_of_dom in Hx as [d Hd]. exists d. by eapply lookup_weaken.
  - set (D1 := <[x := depth + 1]> D).
    destruct (IH ({[x]} ∪ dom D) (queue ++ [(x, depth + 1)]) D1) as
      (new & D' & He & Hsub & Hnew & Hold & Hall & Hsz); [unfold D1; set_solver|].
    assert (D' !! x = Some (depth + 1)) as Hx'
      by (eapply lookup_weaken; [|exact Hsub]; unfold D1; apply lookup_insert_eq).
    exists ((x, depth + 1) :: new), D'. rewrite He, <-(assoc_L (++)).
    split_and!; [done| | | | |].
    + etrans; [|exact Hsub]. apply insert_subseteq. by apply not_elem_of_dom.
    + intros p [->|Hp]%elem_of_cons; [done|by apply Hnew].
    + intros y d Hy. destruct (Hold y d Hy) as [Hy1|(? & ? & nb' & ? & ?)].
      * unfold D1 in Hy1. apply lookup_insert_Some in Hy1 as [[<- <-]|[_ ?]]; [right|by left].
        split_and!; [done|set_solver|]. exists nb. set_solver.
      * right. split_and!; [done|set_solver|]. exists nb'. set_solver.
    + intros nb' [->|?]%elem_of_cons; [by eexists|by apply Hall].
    + rewrite Hsz. unfold D1. rewrite dom_insert_L, size_union by set_solver.
      rewrite size_singleton. simpl. lia.
Qed.

Lemma size_union_le (X Y : gset string) : (size (X ∪ Y) ≤ size X + size Y)%nat.
Proof.
  rewrite size_union_alt. apply Nat.add_le_mono_l, subseteq_size. set_solver.
Qed.

Lemma size_list_to_set_le (l : list string) : (size (list_to_set l : gset string) ≤ length l)%nat.
Proof.
  induction l as [|x l IH]; [by rewrite list_to_set_nil, size_empty|].
  rewrite list_to_set_cons. etrans; [apply size_union_le|]. rewrite size_singleton. simpl. lia.
Qed.

(** The nodes the search can visit. *)
Definition stored_nodes v : gset string :=
  list_to_set (omap (strip_prefix NODE_PREFIX) (map_to_list v).*1).

Lemma stored_nodes_size v : (size (stored_nodes v) ≤ size v)%nat.
Proof.
  unfold stored_nodes. etrans; [apply size_list_to_set_le|]. etrans; [apply length_omap_le|].
  by rewrite length_fmap, length_map_to_list.
Qed.

Lemma elem_of_stored_nodes v' x : is_Some (node_at (Json := Json) v' x) → x ∈ stored_nodes v'.
Proof.
  intros [n Hn]. unfold node_at in Hn. destruct (v' !! node_key x) as [d|] eqn:E; [|done].
  apply elem_of_list_to_set, list_elem_of_omap. exists (node_key x). split.
  - apply list_elem_of_fmap. exists (node_key x, d). split; [done|]. by apply elem_of_map_to_list.
  - unfold strip_prefix, node_key. by rewrite starts_with_app, str_drop_app.
Qed.

Section search.
Context s (kinds : list EdgeKind) (from to : string) (max : Z).
Context (Hwf : graph_wf (Json := Json) (sb_view s)).
Let v := sb_view s.

(** A popped node that is neither the target nor expanded. *)
Lemma bfs_skip D visited h dh queue :
  bfs v kinds from to max D visited ((h, dh) :: queue) → h ≠ to → max ≤ dh →
  bfs v kinds from to max D visited queue.
Proof.
  intros [] Hto Hmax. split; [done..| | | |].
  - intros x d ?. apply bfs_queued0. set_solver.
  - intros x d Hx. destruct (bfs_left0 x d Hx) as [[[= -> ->]|?]%elem_of_cons|?]; [|by left|by right].
    right. split; [done|lia].
  - by apply StronglySorted_cons in bfs_sorted0 as [_ ?].
  - intros x d p ??. eapply bfs_window0; [done|set_solver].
Qed.

(** A popped node whose hops are queued. *)
Lemma bfs_expand D visited h dh queue (ns : list Neighbor) visited' queue' :
  bfs v kinds from to max D visited ((h, dh) :: queue) → h ≠ to → dh < max →
  (∀ nb, nb ∈ ns → graph_step v kinds h (n_id (nb_node nb))) →
  (degree_bounded v kinds → ∀ b, graph_step v kinds h b → ∃ nb, nb ∈ ns ∧ n_id (nb_node nb) = b) →
  enqueue dh visited queue ns = (visited', queue') →
  ∃ D' new, bfs v kinds from to max D' visited' queue' ∧ queue' = queue ++ new ∧
    size visited' = (size visited + length new)%nat ∧
    (∀ x, x ∈ visited' → x ∈ visited ∨ graph_step v kinds h x).
Proof.
  intros [] Hto Hmax Hsound Hcomplete Henq.
  destruct (enqueue_spec dh visited queue ns D bfs_dom0) as
    (new & D' & He & Hsub & Hnew & Hold & Hall & Hsz).
  rewrite He in Henq. injection Henq as <- <-. exists D', new.
  assert (D !! h = Some dh) as Hh by (apply bfs_queued0; set_solver).
  apply StronglySorted_cons in bfs_sorted0 as [Hfst Hsort]. rewrite Forall_forall in Hfst.
  split_and!; [split|done|by rewrite Hsz, bfs_dom0|].
  - done.
  - by eapply lookup_weaken.
  - intros x d [Hx|(-> & _ & nb & Hnb & <-)]%Hold; [by apply bfs_path0|].
    destruct (bfs_path0 h dh Hh) as [? Hp]. split; [lia|].
    replace (Z.to_nat (dh + 1)) with (Datatypes.S (Z.to_nat dh)) by lia.
    eapply nsteps_r; [exact Hp|by apply Hsound].
  - intros x d [Hq|Hq]%elem_of_app; [|by apply (Hnew (x, d))].
    eapply lookup_weaken; [|exact Hsub]. apply bfs_queued0. set_solver.
  - intros x d [Hx|(_ & Hx & _)]%Hold; [|left; set_solver].
    destruct (bfs_left0 x d Hx) as [[[= -> ->]|?]%elem_of_cons|[? Hnext]]; [right|left; set_solver|right].
    + split; [done|]. intros _ Hdeg y Hy. destruct (Hcomplete Hdeg y Hy) as (nb & Hnb & <-).
      destruct (Hall nb Hnb) as [d' Hd']. exists d'. split; [done|].
      destruct (Hold _ _ Hd') as [Ho|(-> & _)]; [|lia].
      apply (bfs_window0 _ _ (h, dh) Ho). set_solver.
    + split; [done|]. intros Hd Hdeg y Hy. destruct (Hnext Hd Hdeg y Hy) as (d' & Hd' & ?).
      exists d'. split; [by eapply lookup_weaken|done].
  - apply StronglySorted_app. split_and!; [|done|].
    + intros a b Ha Hb. destruct (Hnew b Hb) as [-> _]. destruct a as [x d].
      apply (bfs_window0 x d (h, dh)); [apply bfs_queued0|]; set_solver.
    + clear -Hnew. induction new as [|p new IH]; constructor; [apply IH; set_solver|].
      apply Forall_forall. intros q Hq. destruct (Hnew p), (Hnew q); [set_solver..|lia].
  - intros x d p Hx Hp.
    assert (dh ≤ p.2) as Hle.
    { apply elem_of_app in Hp as [Hp|Hp]; [by apply (Hfst p)|]. destruct (Hnew p Hp). lia. }
    destruct (Hold _ _ Hx) as [Ho|(-> & _)]; [|lia].
    assert (d ≤ dh + 1); [|lia]. apply (bfs_window0 x d (h, dh)); [done|set_solver].
  - intros x [d [Hx|(_ & _ & nb & Hnb & <-)]%Hold]%elem_of_dom; [left|right; by apply Hsound].
    rewrite <-bfs_dom0. by apply elem_of_dom.
Qed.

(** An empty queue: everything within reach has been visited, without meeting the
    target. *)
Lemma bfs_empty D visited :
  bfs v kinds from to max D visited [] → degree_bounded v kinds →
  ∀ k, (k ≤ Z.to_nat max)%nat → 0 ≤ max → ¬ nsteps (graph_step v kinds) k from to.
Proof.
  intros [] Hdeg.
  assert (∀ k x, (k ≤ Z.to_nat max)%nat → nsteps (graph_step v kinds) k from x →
    0 ≤ max → ∃ d, D !! x = Some d ∧ d ≤ Z.of_nat k) as Hreach.
  { induction k as [|k IH]; intros x Hk Hx Hmax.
    - inversion Hx; subst. exists 0. split; [done|lia].
    - apply nsteps_inv_r in Hx as (y & Hy & Hyx).
      destruct (IH y) as (d & Hd & Hdn); [lia|done..|].
      destruct (bfs_left0 y d Hd) as [?%elem_of_nil|[_ Hnext]]; [done|].
      destruct (Hnext) with (y := x) as (d' & ? & ?); [lia|done..|]. exists d'. split; [done|lia]. }
  intros k Hk Hmax Hto. destruct (Hreach k to Hk Hto Hmax) as (d & Hd & _).
  destruct (bfs_left0 to d Hd) as [?%elem_of_nil|[? _]]; done.
Qed.

Lemma path_loop_spec fuel D visited queue :
  bfs v kinds from to max D visited queue → 0 ≤ max →
  visited ⊆ {[from]} ∪ stored_nodes v →
  (length queue + (1 + size v - size visited) ≤ fuel)%nat →
  ∃ b, path_loop fuel s to kinds max visited queue = Some (Ok b) ∧
    (b = true → bsteps (graph_step v kinds) (Z.to_nat max) from to) ∧
    (degree_bounded v kinds → bsteps (graph_step v kinds) (Z.to_nat max) from to → b = true).
Proof.
  revert D visited queue. induction fuel as [|fuel IH]; intros D visited queue Hbfs Hmax Hvis Hfuel.
  all: destruct queue as [|[h dh] queue].
  1,3: exists false; split_and!; [done..|]; intros Hdeg (k & Hk & Hp)%bsteps_nsteps;
    by destruct (bfs_empty D visited Hbfs Hdeg k Hk Hmax).
  { simpl in Hfuel. lia. }
  simpl in Hfuel. cbn [path_loop]. destruct (String.eqb_spec h to) as [->|Hne].
  { exists true. split_and!; [done|intros _|done].
    destruct (bfs_path _ _ _ _ _ _ _ _ Hbfs to dh) as [? Hp].
    - eapply bfs_queued; [exact Hbfs|set_solver].
    - apply bsteps_nsteps. exists (Z.to_nat dh). split; [lia|done]. }
  destruct (Z.leb_spec max dh) as [Hle|Hlt].
  { apply (IH D); [by eapply bfs_skip|done..|lia]. }
  destruct (out_hop s h kinds Hwf) as (ns & -> & Hsound & Hcomplete).
  destruct (enqueue dh visited queue ns) as [visited' queue'] eqn:He.
  destruct (bfs_expand D visited h dh queue ns visited' queue') as
    (D' & new & Hbfs' & -> & Hsz & Hnew); [done..|].
  assert (visited' ⊆ {[from]} ∪ stored_nodes v) as Hvis'.
  { intros x [?|(e & _ & _ & _ & _ & Hx)]%Hnew; [set_solver|].
    apply elem_of_union. right. by apply elem_of_stored_nodes. }
  apply (IH D'); [done..|]. rewrite length_app.
  assert (size visited' ≤ 1 + size v)%nat; [|lia].
  etrans; [by apply subseteq_size|]. etrans; [apply size_union_le|].
  rewrite size_singleton. pose proof (stored_nodes_size v). lia.
Qed.
End search.

Lemma bfs_initial v kinds from to max :
  0 ≤ max → bfs v kinds from to max {[from := 0]} {[from]} [(from, 0)].
Proof.
  intros Hmax. split.
  - by rewrite dom_singleton_L.
  - by rewrite lookup_singleton_eq.
  - intros x d [<- <-]%lookup_singleton_Some. split; [lia|constructor].
  - intros x d [= -> ->]%list_elem_of_singleton. by rewrite lookup_singleton_eq.
  - intros x d [<- <-]%lookup_singleton_Some. left. set_solver.
  - repeat constructor.
  - intros x d p [<- <-]%lookup_singleton_Some ->%list_elem_of_singleton. simpl. lia.
Qed.

(** C33: [path_exists] decides bounded reachability: on a consistent index, with a
    depth within its cap, the search ends after at most one turn per stored key
    and one more; it answers yes only when a chain of at most [max_depth] outgoing
    edges of the requested kinds leads through stored nodes from one end to the
    other, and always then when no node has more than 256 such edges. *)
Theorem path_exists_correct s req fuel :
  graph_wf (Json := Json) (sb_view s) → 0 ≤ pe_max_depth req ≤ 3 →
  (1 + size (sb_view s) ≤ fuel)%nat →
  let reach := bsteps (graph_step (sb_view s) (pe_edge_kinds req)) (Z.to_nat (pe_max_depth req))
                 (pe_from req) (pe_to req) in
  ∃ b, path_exists (Json := Json) fuel s req = Some (Ok b) ∧ (b = true → reach) ∧
    (degree_bounded (sb_view s) (pe_edge_kinds req) → reach → b = true).
Proof.
  intros Hwf Hmax Hfuel reach. unfold path_exists. subst reach.
  destruct (Z.eqb_spec (pe_max_depth req) 0) as [->|Hne].
  { eexists. split; [done|]. destruct (String.eqb_spec (pe_from req) (pe_to req)) as [->|Hft].
    - split; [|done]. intros _. constructor.
    - split; [done|]. intros _ H. by inversion H. }
  destruct (Z.ltb_spec 3 (pe_max_depth req)); [lia|].
  apply (path_loop_spec s _ (pe_from req) _ _ Hwf fuel {[pe_from req := 0]});
    [apply bfs_initial; lia|lia|set_solver|].
  rewrite size_singleton. simpl. lia.
Qed.

(** ** Traced chunks *)

(** The edges lead from [a] to [b], each followed in one of its directions. *)
Fixpoint walk v (kinds : list EdgeKind) (a : string) (es : list Edge) (b : string) : Prop :=
  match es with
  | [] => a = b
  | e :: es => edge_at v (e_id e) = Some e ∧ kind_wanted kinds (e_kind e) ∧
               ∃ dir, near dir e = a ∧ walk v kinds (far dir e) es b
  end.

Lemma walk_snoc v kinds a es b e dir :
  walk v kinds a es b → edge_at v (e_id e) = Some e → kind_wanted kinds (e_kind e) →
  near dir e = b → walk v kinds a (es ++ [e]) (far dir e).
Proof.
  revert a. induction es as [|e' es IH]; intros a; simpl.
  - intros -> He Hk Hn. split_and!; [done..|]. by exists dir.
  - intros (? & ? & dir' & ? & ?) He Hk Hn. split_and!; [done..|]. exists dir'. split; [done|]. by apply IH.
Qed.

(** What a returned trace promises. *)
Definition trace_ok v (req : RelatedChunksRequest) (t : RelatedChunkTrace Json) : Prop :=
  as_chunk_vector_id (rt_via_node t) = Some (rt_vector_id t) ∧
  rt_via_node t ≠ rr_node_id req ∧
  is_same_workspace (rr_node_id req) (rt_via_node t) = true ∧
  is_Some (node_at (Json := Json) v (rt_via_node t)) ∧
  walk v (rr_edge_kinds req) (rr_node_id req) (rt_path_edges t) (rt_via_node t) ∧
  rt_hop t = Zlength (rt_path_edges t) ∧ 1 ≤ rt_hop t ≤ rr_max_depth req.

Record trace_inv v (req : RelatedChunksRequest) (st : TraceState (Json := Json)) : Prop := {
  ti_ok t : t ∈ ts_chunks st → trace_ok v req t;
  ti_nodup : NoDup (rt_vector_id <$> ts_chunks st);
  ti_seen t : t ∈ ts_chunks st → rt_vector_id t ∈ ts_seen_chunks st;
  ti_len : Zlength (ts_chunks st) ≤ rr_limit req;
  ti_queue x d p : (x, d, p) ∈ ts_queue st →
    0 ≤ d < rr_max_depth req ∧ Zlength p = d ∧ walk v (rr_edge_kinds req) (rr_node_id req) p x;
  ti_visited : ts_visited st ⊆ {[rr_node_id req]} ∪ stored_nodes v;
}.

(** A neighbour reached from [node]. *)
Definition hop_ok v (kinds : list EdgeKind) (node : string) nb : Prop :=
  edge_at v (e_id (nb_edge nb)) = Some (nb_edge nb) ∧ kind_wanted kinds (e_kind (nb_edge nb)) ∧
  near (nb_direction nb) (nb_edge nb) = node ∧
  far (nb_direction nb) (nb_edge nb) = n_id (nb_node nb) ∧
  is_Some (node_at (Json := Json) v (n_id (nb_node nb))).

Lemma both_hop s node kinds limit :
  graph_wf (Json := Json) (sb_view s) →
  ∃ ns, neighbors s (hop_request node DirBoth kinds limit) = Ok ns ∧
    ∀ nb, nb ∈ ns → hop_ok (sb_view s) kinds node nb.
Proof.
  intros Hwf. destruct (neighbors_spec s (hop_request node DirBoth kinds limit) Hwf) as
    (refs & found & _ & (_ & Hs & _) & _ & Hns).
  eexists. split; [exact Hns|]. intros nb Hin. eapply elem_of_sublist in Hin; [|apply sublist_take].
  rewrite elem_of_sort_by in Hin. destruct (Hs nb Hin) as ((_ & He & Hn & Hk & _ & _) & Hnode).
  destruct (wf_node_at _ _ _ Hwf Hnode) as (Hid & _). unfold hop_ok. rewrite Hid, Hnode. done.
Qed.

Section trace.
Context s (req : RelatedChunksRequest).
Context (Hwf : graph_wf (Json := Json) (sb_view s)) (Hdepth : rr_max_depth req ≤ 3).
Let v := sb_view s.

Lemma trace_chunk_spec hop id path st full st' :
  trace_inv v req st → Zlength (ts_chunks st) < rr_limit req →
  trace_chunk req hop id path st = (full, st') →
  is_same_workspace (rr_node_id req) id = true → is_Some (node_at (Json := Json) v id) →
  walk v (rr_edge_kinds req) (rr_node_id req) path id → hop = Zlength path →
  1 ≤ hop ≤ rr_max_depth req →
  trace_inv v req st' ∧ (full = false → Zlength (ts_chunks st') < rr_limit req) ∧
  ts_visited st' = ts_visited st ∧ ts_queue st' = ts_queue st.
Proof.
  intros Hinv Hlen Hc Hws Hn Hw Hhop Hh. unfold trace_chunk in Hc.
  destruct (as_chunk_vector_id id) as [vid|] eqn:Hvid; [|by injection Hc as <- <-].
  destruct (String.eqb_spec id (rr_node_id req)); simpl in Hc; [by injection Hc as <- <-|].
  case_bool_decide as Hseen; [|by injection Hc as <- <-].
  injection Hc as <- <-. simpl.
  split_and!; [|intros ?%Z.leb_gt; lia|done|done]. destruct Hinv. split; simpl.
  - intros t [?| ->%list_elem_of_singleton]%elem_of_app; [by apply ti_ok0|done].
  - rewrite fmap_app. apply NoDup_app. split_and!; [done| |apply NoDup_singleton].
    intros x (t & -> & Ht)%list_elem_of_fmap Hx%list_elem_of_singleton. simpl in Hx.
    apply Hseen. rewrite <-Hx. by apply ti_seen0.
  - intros t [?| ->%list_elem_of_singleton]%elem_of_app; [|set_solver].
    apply elem_of_union. right. by apply ti_seen0.
  - rewrite length_app. simpl. lia.
  - done.
  - done.
Qed.

Lemma trace_enqueue_spec depth id path st :
  trace_inv v req st → 0 ≤ depth → is_Some (node_at (Json := Json) v id) →
  walk v (rr_edge_kinds req) (rr_node_id req) path id → Zlength path = depth + 1 →
  let st' := trace_enqueue req depth id path st in
  trace_inv v req st' ∧ ts_chunks st' = ts_chunks st ∧
  ∃ new, ts_queue st' = ts_queue st ++ new ∧
         size (ts_visited st') = (size (ts_visited st) + length new)%nat.
Proof.
  intros Hinv Hd Hn Hw Hp. unfold trace_enqueue.
  destruct (Z.ltb_spec (depth + 1) (rr_max_depth req)); simpl;
    [case_bool_decide as Hv|]; [|split_and!; [done..|exists []; rewrite app_nil_r; split; [done|simpl; lia]]..].
  split_and!; [|done|].
  - destruct Hinv. split; simpl; [done..| |].
    + intros x d p [?|[= -> -> ->]%list_elem_of_singleton]%elem_of_app; [by apply ti_queue0|].
      split_and!; [lia..|done].
    + intros x [->%elem_of_singleton|?]%elem_of_union; [|set_solver].
      apply elem_of_union. right. by apply elem_of_stored_nodes.
  - eexists. split; [done|]. simpl. rewrite size_union by set_solver. rewrite size_singleton. lia.
Qed.

Lemma trace_neighbors_spec node depth path st ns full st' :
  trace_inv v req st → Zlength (ts_chunks st) < rr_limit req →
  trace_neighbors req depth path st ns = (full, st') →
  (∀ nb, nb ∈ ns → hop_ok v (rr_edge_kinds req) node nb) →
  walk v (rr_edge_kinds req) (rr_node_id req) path node → Zlength path = depth →
  0 ≤ depth < rr_max_depth req →
  trace_inv v req st' ∧
  (full = false → Zlength (ts_chunks st') < rr_limit req ∧
     ∃ new, ts_queue st' = ts_queue st ++ new ∧
            size (ts_visited st') = (size (ts_visited st) + length new)%nat).
Proof.
  intros Hinv Hlen Hn Hns Hw Hp Hd. revert st Hinv Hlen Hn.
  induction ns as [|nb ns IH]; intros st Hinv Hlen Hn.
  { injection Hn as <- <-. split; [done|]. intros _. split; [done|].
    exists []. rewrite app_nil_r. split; [done|simpl; lia]. }
  assert (∀ nb, nb ∈ ns → hop_ok v (rr_edge_kinds req) node nb) as Hns' by set_solver.
  destruct (Hns nb) as (He & Hk & Hnear & Hfar & Hnode); [set_solver|].
  cbn [trace_neighbors] in Hn. destruct (is_same_workspace _ _) eqn:Hws; simpl in Hn; [|by apply IH].
  pose proof (walk_snoc _ _ _ _ _ _ _ Hw He Hk Hnear) as Hw'. rewrite Hfar in Hw'.
  set (path' := path ++ [nb_edge nb]) in *.
  assert (Zlength path' = depth + 1) as Hp' by (unfold path'; rewrite length_app; simpl; lia).
  destruct (trace_chunk _ _ _ _ _) as [f st1] eqn:Hc.
  destruct (trace_chunk_spec _ _ _ _ _ _ Hinv Hlen Hc) as (Hinv1 & Hlen1 & Hv1 & Hq1);
    [done..|unfold saturating_add, u8_max; lia|unfold saturating_add, u8_max; lia|].
  destruct f; [by injection Hn as <- <-|].
  destruct (trace_enqueue_spec depth (n_id (nb_node nb)) path' st1 Hinv1) as (Hinv2 & Hch & new & Hq2 & Hv2);
    [lia|done..|].
  apply IH in Hn as [Hinv' Hrest]; [|done|done|by rewrite Hch; apply Hlen1].
  split; [done|]. intros Hf. destruct (Hrest Hf) as (Hl & new' & Hq' & Hv'). split; [done|].
  exists (new ++ new'). rewrite Hq', Hq2, Hq1, Hv', Hv2, Hv1, length_app.
  split; [by rewrite (assoc_L (++))|lia].
Qed.

Lemma trace_loop_spec fuel st :
  trace_inv v req st → Zlength (ts_chunks st) < rr_limit req →
  (length (ts_queue st) + (1 + size v - size (ts_visited st)) ≤ fuel)%nat →
  ∃ l, trace_loop fuel s req st = Some (Ok l) ∧ Zlength l ≤ rr_limit req ∧
    NoDup (rt_vector_id <$> l) ∧ ∀ t, t ∈ l → trace_ok v req t.
Proof.
  revert st. induction fuel as [|fuel IH]; intros st Hinv Hlen Hfuel;
    destruct (ts_queue st) as [|[[node depth] path] queue] eqn:Hq.
  1,3: exists (ts_chunks st); destruct Hinv; simpl; rewrite Hq; split_and!; done.
  { simpl in Hfuel. lia. }
  simpl in Hfuel. cbn [trace_loop]. rewrite Hq. set (st0 := mkTraceState _ _ _ queue).
  destruct (ti_queue _ _ _ Hinv node depth path) as (Hd & Hp & Hw); [rewrite Hq; set_solver|].
  assert (trace_inv v req st0) as Hinv0.
  { destruct Hinv. split; simpl; try done. intros x d p ?. apply ti_queue0. rewrite Hq. set_solver. }
  destruct (Z.leb_spec (rr_max_depth req) depth); [lia|].
  destruct (both_hop s node (rr_edge_kinds req) (rr_per_hop_limit req) Hwf) as (ns & -> & Hns).
  destruct (trace_neighbors req depth path st0 ns) as [full st'] eqn:Hn.
  destruct (trace_neighbors_spec node _ _ _ _ _ _ Hinv0 Hlen Hn Hns Hw Hp Hd) as [Hinv' Hrest].
  destruct full.
  { exists (ts_chunks st'). destruct Hinv'. by split_and!. }
  destruct (Hrest eq_refl) as (Hlen' & new & Hq' & Hv'). apply IH; [done..|].
  rewrite Hq', length_app. simpl in *.
  assert (size (ts_visited st') ≤ 1 + size v)%nat; [|lia].
  etrans; [apply subseteq_size, (ti_visited _ _ _ Hinv')|]. etrans; [apply size_union_le|].
  rewrite size_singleton. pose proof (stored_nodes_size v). lia.
Qed.
End trace.

(** The traced expansion is grounded: on a consistent index and with a depth
    within its cap it returns at most [limit] chunks, no vector twice, each in the
    workspace of the start node and distinct from it, with a trail of stored edges
    of the requested kinds that leads from the start node to the chunk's node in
    exactly [hop] steps, at most [max_depth]. *)
Lemma related_trace_grounded s req fuel :
  graph_wf (Json := Json) (sb_view s) → 0 ≤ rr_max_depth req ≤ 3 → 0 ≤ rr_limit req →
  (1 + size (sb_view s) ≤ fuel)%nat →
  ∃ l, related_chunks_with_trace (Json := Json) fuel s req = Some (Ok l) ∧
    Zlength l ≤ rr_limit req ∧ NoDup (rt_vector_id <$> l) ∧
    ∀ t, t ∈ l → trace_ok (sb_view s) req t.
Proof.
  intros Hwf Hd Hl Hfuel. unfold related_chunks_with_trace.
  destruct (Z.eqb_spec (rr_limit req) 0); simpl; [exists []; split_and!; [done|simpl; lia|constructor|set_solver]|].
  destruct (Z.eqb_spec (rr_max_depth req) 0); [exists []; split_and!; [done|simpl; lia|constructor|set_solver]|].
  destruct (Z.ltb_spec 3 (rr_max_depth req)); [lia|].
  apply trace_loop_spec; [done|lia| |simpl; lia|].
  - split; simpl; [set_solver|constructor|set_solver|lia| |set_solver].
    intros x d p [= -> -> ->]%list_elem_of_singleton. split_and!; simpl; [lia..|done].
  - cbn [ts_queue ts_visited length]. rewrite size_singleton. lia.
Qed.
End query.
