(* ===== verification/GraphProps.v ===== *)
(** * Concrete graphs

    Scoped ids, a codec to run the index with, and the graphs the theorems about
    mutations and queries are evaluated on. *)

From S2P Require Import Prelude Sorting Float32 Text Storage GraphModel Graph GraphWf.
From S2P Require Import GraphMutations GraphQuery.

(** A scoped id reads back as the workspace and the local id it was built from,
    whatever bytes they hold, and an id belongs to the same workspace as another
    scoped id only when the workspaces are equal. *)
Lemma scoped_roundtrip ws ws' l l' :
  is_usize (Z.of_nat (String.length ws)) → is_usize (Z.of_nat (String.length ws')) →
  workspace_id (scoped ws l) = Some ws ∧ local_id (scoped ws l) = l ∧
  (is_same_workspace (scoped ws l) (scoped ws' l') = true ↔ ws = ws').
Proof.
  intros H H'. unfold is_same_workspace, workspace_id, local_id.
  rewrite !scoped_parts_scoped by done. simpl. split_and!; [done..|].
  rewrite bool_decide_eq_true. naive_solver.
Qed.

Lemma scoped_roundtrip_witness :
  workspace_id (scoped "a:1" "chunk:v:2") = Some "a:1" ∧
  local_id (scoped "a:1" "chunk:v:2") = "chunk:v:2".
Proof. destruct (scoped_roundtrip "a:1" "b" "chunk:v:2" "x") as (H1 & H2 & _); done. Defined.

(** ** A codec and a graph *)

Definition all_node_kinds : list NodeKind :=
  [Document; Chunk; Section_; File; Function_; Type_; Module_; Commit; Person; Entity; Memory].
Definition all_edge_kinds : list EdgeKind :=
  [ParentOf; ChildOf; Contains; Mentions; Imports; Calls; Implements; Tests; TestedBy;
   DependsOn; OwnedBy; ChangedBy; RelatedTo].

#[global] Program Instance node_kind_countable : Countable NodeKind :=
  inj_countable node_kind_as_key
    (λ s, List.find (λ k, String.eqb (node_kind_as_key k) s) all_node_kinds) _.
Next Obligation. by intros []. Qed.

#[global] Program Instance edge_kind_countable : Countable EdgeKind :=
  inj_countable edge_kind_as_key
    (λ s, List.find (λ k, String.eqb (edge_kind_as_key k) s) all_edge_kinds) _.
Next Obligation. by intros []. Qed.

#[global] Instance unit_node_eq_dec : EqDecision (GraphNode unit).
Proof. solve_decision. Defined.

#[global] Instance unit_edge_eq_dec : EqDecision (GraphEdge unit).
Proof. solve_decision. Defined.

#[global] Program Instance node_countable : Countable (GraphNode unit) :=
  inj_countable' (λ n, (n_id n, n_kind n, n_properties n, n_created_at_ms n, n_updated_at_ms n))
    (λ t, let '(a, b, c, d, e) := t in mkNode a b c d e) _.
Next Obligation. by intros []. Qed.

#[global] Program Instance edge_countable : Countable (GraphEdge unit) :=
  inj_countable'
    (λ x, (e_id x, e_from x, e_to x, e_kind x, e_weight x, e_properties x, e_created_at_ms x,
           e_updated_at_ms x))
    (λ t, let '(a, b, c, d, e, f, g, h) := t in mkEdge a b c d e f g h) _.
Next Obligation. by intros []. Qed.

#[global] Instance demo_codec : GraphCodec unit := {
  ser_node := code_serialize;
  des_node := code_deserialize;
  ser_edge := code_serialize;
  des_edge := code_deserialize;
  ser_id := code_serialize;
  des_id := code_deserialize;
}.

#[global] Instance demo_codec_laws : GraphCodecLaws unit.
Proof.
  split.
  - intros n d H%code_ok. by exists n.
  - intros e d H%code_ok _. by exists e.
  - intros i d. apply code_ok.
Qed.

Definition demo_ops : list (GraphOp (Json := unit)) :=
  [OpUpsertNode (graph_node_new "a" Entity 1) 1; OpUpsertNode (graph_node_new "b" Entity 1) 1;
   OpUpsertNode (graph_node_new "chunk:1" Chunk 1) 1;
   OpUpsertEdge (graph_edge_new "e1" "a" "b" Calls 2) 2;
   OpUpsertEdge (with_weight (graph_edge_new "e2" "b" "chunk:1" Mentions 2) f32_two) 2;
   OpUpsertEdge (graph_edge_new "e3" "a" "chunk:1" Contains 3) 3;
   OpUpsertEdge (graph_edge_new "e4" "a" "chunk:1" Mentions 3) 3].

Definition empty_store : RocksDbBackend MemDB := mkBackend (∅ : MemDB).

Definition demo_graph : RocksDbBackend MemDB := foldl (graph_exec elements) empty_store demo_ops.

Lemma empty_no_graph : no_graph (sb_view empty_store).
Proof. intros k p _ _. exact (lookup_empty k). Qed.

Lemma demo_graph_wf : graph_wf (Json := unit) (sb_view demo_graph).
Proof. apply graph_run_wf; [done|]. apply no_graph_wf, empty_no_graph. Qed.

Definition nodes_found (r : GraphResult (list (GraphNeighbor unit))) : list string :=
  match r with Ok l => (λ nb, n_id (nb_node nb)) <$> l | Err _ => [] end.

Example demo_neighbors :
  nodes_found (neighbors demo_graph (hop_request "b" DirBoth [] 5)) = ["chunk:1"; "a"].
Proof. vm_compute. reflexivity. Qed.

Lemma graph_index_consistent_witness : graph_wf (Json := unit) (sb_view demo_graph).
Proof.
  apply (graph_index_consistent elements (λ X, Permutation_refl _) empty_store demo_ops).
  exact empty_no_graph.
Defined.

Definition demo_batch : GraphMutationBatch unit :=
  with_edge (with_deleted_edge (with_node batch_new (graph_node_new "b" Function_ 9)) "e2")
    (graph_edge_new "e1" "b" "a" Tests 9).

Lemma upsert_batch_exact_witness :
  let s' := (upsert_batch demo_graph demo_batch (λ _, 9) (λ _, 9)).2 in
  edge_skel <$> edge_at (Json := unit) (sb_view s') "e1" = Some ("e1", "b", "a", Tests, f32_one) ∧
  edge_skel <$> edge_at (Json := unit) (sb_view s') "e2" = None ∧
  n_kind <$> node_at (Json := unit) (sb_view s') "b" = Some Function_.
Proof.
  destruct (upsert_batch demo_graph demo_batch (λ _, 9) (λ _, 9)) as [r s'] eqn:E.
  assert (is_ok r = true) as Hr.
  { replace r with (upsert_batch demo_graph demo_batch (λ _, 9) (λ _, 9)).1 by (by rewrite E).
    vm_compute. reflexivity. }
  destruct (upsert_batch_exact demo_graph demo_batch (λ _, 9) (λ _, 9) r s' demo_graph_wf E)
    as [_ [[Hf _]|Happ]]; [congruence|].
  split_and!; simpl.
  - exact (proj1 (Happ "e1")).
  - exact (proj1 (Happ "e2")).
  - exact (proj2 (Happ "b")).
Defined.

Lemma delete_node_exact_witness :
  let s' := (delete_node (Json := unit) elements demo_graph "chunk:1").2 in
  node_at (Json := unit) (sb_view s') "chunk:1" = None ∧
  edge_at (Json := unit) (sb_view s') "e3" = None ∧
  edge_skel <$> edge_at (Json := unit) (sb_view s') "e1" = Some ("e1", "a", "b", Calls, f32_one).
Proof.
  destruct (delete_node (Json := unit) elements demo_graph "chunk:1") as [r s'] eqn:E.
  assert (r = Ok (mkDeleteNode true 3)) as ->.
  { replace r with (delete_node (Json := unit) elements demo_graph "chunk:1").1 by (by rewrite E).
    vm_compute. reflexivity. }
  destruct (delete_node_exact elements (λ X, Permutation_refl _) demo_graph "chunk:1"
              (mkDeleteNode true 3) s' demo_graph_wf E) as (_ & Hn & He & _).
  simpl. rewrite Hn, !He. split_and!; vm_compute; reflexivity.
Defined.

Lemma neighbors_exact_witness :
  ∃ l, neighbors (Json := unit) demo_graph (hop_request "a" DirOut [Mentions] 5) = Ok l ∧
    Zlength l ≤ 5.
Proof.
  destruct (neighbors_exact demo_graph (hop_request "a" DirOut [Mentions] 5) demo_graph_wf)
    as (l & E & Hl & _).
  - vm_compute. congruence.
  - exists l. exact (conj E Hl).
Defined.

Lemma path_exists_correct_witness :
  ∃ b, path_exists (Json := unit) (1 + size (sb_view demo_graph)) demo_graph
         (path_exists_request_new "b" "a" 3) = Some (Ok b) ∧
    (b = true → bsteps (graph_step (Json := unit) (sb_view demo_graph) []) 3 "b" "a").
Proof.
  destruct (path_exists_correct demo_graph (path_exists_request_new "b" "a" 3)
              (1 + size (sb_view demo_graph)) demo_graph_wf) as (b & E & Hs & _).
  - simpl. lia.
  - apply le_n.
  - exists b. exact (conj E Hs).
Defined.

Lemma related_trace_grounded_witness :
  ∃ l, related_chunks_with_trace (Json := unit) (1 + size (sb_view demo_graph)) demo_graph
         (related_chunks_request_new "b") = Some (Ok l) ∧ NoDup (rt_vector_id <$> l).
Proof.
  destruct (related_trace_grounded demo_graph (related_chunks_request_new "b")
              (1 + size (sb_view demo_graph)) demo_graph_wf) as (l & E & _ & Hnd & _).
  - simpl. lia.
  - simpl. lia.
  - apply le_n.
  - exists l. exact (conj E Hnd).
Defined.

Definition chunk_ids (r : GraphResult (list RelatedChunk)) : option (list string) :=
  match r with Ok l => Some (rc_vector_id <$> l) | Err _ => None end.

(** The chunk link of two parallel edges is lost with the first of them: the key
    of a link holds the two nodes but not the edge, so deleting one of two edges from
    ["a"] to the same chunk drops the link although the other edge, which still asks
    for it, is stored: the direct lookup no longer finds the chunk. *)
Lemma parallel_edge_loses_link :
  let s' := (delete_edge (Json := unit) demo_graph "e4").2 in
  chunk_ids (direct_related_chunks (Json := unit) demo_graph "a" 10) = Some ["1"] ∧
  should_link_chunk <$> edge_at (Json := unit) (sb_view s') "e3" = Some true ∧
  chunk_ids (direct_related_chunks (Json := unit) s' "a" 10) = Some [].
Proof. split_and!; vm_compute; reflexivity. Qed.
