(* ===== verification/Service.v ===== *)
(** * The vector operations of the gRPC service

    [crates/grpc-server/src/service.rs]: insert, batch insert, update, delete and
    get, from the decoded request and the caller's [AuthContext] to the response,
    over the durable id mapping, the vector index and the in-memory source texts.
    Graph and SQL projections are behind the class [Projections]; a panic of the
    index is the result [None]. *)

From Stdlib Require Import Ascii.
From S2P Require Import Prelude Text Float32 Storage IdMapping VectorIndex Lexical Graph Filter.

(** ** Status *)

Inductive Code :=
| InvalidArgument | NotFound | AlreadyExists | FailedPrecondition | ResourceExhausted
| Unavailable | DeadlineExceeded | Aborted | InternalCode.

Record Status := mkStatus { code : Code; message : string }.

Definition to_status (err : AkiDbError) : Status :=
  let c :=
    match err with
    | VectorNotFound _ => NotFound
    | VectorAlreadyExists _ => AlreadyExists
    | DimensionMismatch _ _ => InvalidArgument
    | InvalidParameter _ => InvalidArgument
    | IdReuseForbidden _ => FailedPrecondition
    | GpuOutOfMemory => ResourceExhausted
    | RebuildInProgress => Unavailable
    | Timeout _ => DeadlineExceeded
    | _ => InternalCode
    end in
  mkStatus c (akidb_error_to_string err).

Definition map_status {A} (r : Result A) : result Status A :=
  match r with Ok a => Ok a | Err e => Err (to_status e) end.

Definition invalid_argument {A} (r : result string A) : result Status A :=
  match r with Ok a => Ok a | Err e => Err (mkStatus InvalidArgument e) end.

(** ** Requests and responses *)

Record InsertRequest := mkInsert {
  ir_collection : string; ir_id : string; ir_vector : vector; ir_metadata : string; ir_text : string;
}.

Record VisibilityInfo := mkVisibility { insert_visibility : string; delete_visibility : string }.

Record InsertResponse := mkInsertResponse {
  ins_success : bool; ins_id : string; ins_internal_id : Z; ins_visibility : option VisibilityInfo;
}.

Record VectorMsg := mkVectorMsg { vm_id : string; vm_embedding : vector; vm_metadata : string; vm_text : string }.

Record InsertBatchRequest := mkBatch { br_collection : string; br_vectors : list VectorMsg }.

Record InsertBatchResponse := mkBatchResponse {
  bat_success : bool; bat_inserted_count : Z; bat_failed_ids : list string;
}.

Record UpdateRequest := mkUpdate {
  ur_collection : string; ur_id : string; ur_vector : vector; ur_metadata : string;
}.

Inductive UpdateStatus := Updated | Created.

Record UpdateResponse := mkUpdateResponse {
  upd_success : bool; upd_id : string; upd_status : UpdateStatus; upd_visibility : option VisibilityInfo;
}.

Record DeleteRequest := mkDelete { dr_collection : string; dr_id : string }.

Inductive DeleteStatus := Deleted | AlreadyDeleted | DeleteNotFound.

Record DeleteResponse := mkDeleteResponse {
  del_success : bool; del_id : string; del_status : DeleteStatus; del_visibility : string;
}.

Record GetRequest := mkGet { gr_collection : string; gr_id : string }.

Record GetResponse := mkGetResponse {
  get_id : string; get_vector_value : vector; get_metadata : string; get_found : bool;
}.

(** ** Validation *)

Definition validate_vector_id (id : string) : result string unit :=
  if String.eqb id "" then Err "Vector ID cannot be empty"
  else if (1024 <? String.length id)%nat then Err "Vector ID exceeds maximum length of 1024"
  else Ok tt.

Definition validate_vector_values (v : vector) : result string unit :=
  if existsb (λ x, negb (f32_is_finite x)) v then Err "Vector contains NaN or Infinity values"
  else if bool_decide (v = []) then Err "Vector cannot be empty"
  else Ok tt.

Definition validate_vector_payload (id : string) (v : vector) : result string unit :=
  let? _ := validate_vector_id id in validate_vector_values v.

(** The first id that repeats is reported. *)
Fixpoint validate_unique_batch_ids (seen : gset string) (vectors : list VectorMsg)
  : result Status unit :=
  match vectors with
  | [] => Ok tt
  | v :: vectors =>
      if decide (vm_id v ∈ seen) then
        Err (mkStatus InvalidArgument
               ("insert_batch contains duplicate vector id '" +:+ vm_id v +:+ "'"))
      else validate_unique_batch_ids ({[vm_id v]} ∪ seen) vectors
  end.

(** [String::from_utf8_lossy]: each maximal invalid piece becomes U+FFFD. *)
Definition REPLACEMENT : list Z := [239; 191; 189].

Fixpoint lossy (l : list Z) : list Z :=
  match l with
  | [] => []
  | b0 :: l0 =>
      if b0 <=? 127 then b0 :: lossy l0
      else if (194 <=? b0) && (b0 <=? 223) then
        match l0 with
        | b1 :: l1 => if utf8_cont b1 then b0 :: b1 :: lossy l1 else REPLACEMENT ++ lossy l0
        | [] => REPLACEMENT
        end
      else if (224 <=? b0) && (b0 <=? 239) then
        match l0 with
        | b1 :: l1 =>
            if (if b0 =? 224 then (160 <=? b1) && (b1 <=? 191)
                else if b0 =? 237 then (128 <=? b1) && (b1 <=? 159) else utf8_cont b1) then
              match l1 with
              | b2 :: l2 =>
                  if utf8_cont b2 then b0 :: b1 :: b2 :: lossy l2 else REPLACEMENT ++ lossy l1
              | [] => REPLACEMENT
              end
            else REPLACEMENT ++ lossy l0
        | [] => REPLACEMENT
        end
      else if (240 <=? b0) && (b0 <=? 244) then
        match l0 with
        | b1 :: l1 =>
            if (if b0 =? 240 then (144 <=? b1) && (b1 <=? 191)
                else if b0 =? 244 then (128 <=? b1) && (b1 <=? 143) else utf8_cont b1) then
              match l1 with
              | b2 :: l2 =>
                  if utf8_cont b2 then
                    match l2 with
                    | b3 :: l3 =>
                        if utf8_cont b3 then b0 :: b1 :: b2 :: b3 :: lossy l3
                        else REPLACEMENT ++ lossy l2
                    | [] => REPLACEMENT
                    end
                  else REPLACEMENT ++ lossy l1
              | [] => REPLACEMENT
              end
            else REPLACEMENT ++ lossy l0
        | [] => REPLACEMENT
        end
      else REPLACEMENT ++ lossy l0
  end.

Definition from_utf8_lossy (s : string) : string :=
  string_of_bytes (lossy (byte_of <$> String.list_ascii_of_string s)).

(** ** The service *)

(** The graph and SQL projections of a vector. Failures of the SQL mirror are
    only logged. *)
Class Projections (P : Type) := {
  index_graph_chunk : P → string → string → option string → result string unit * P;
  delete_graph_chunk : P → string → option string → result string unit * P;
  index_sql_metadata : P → string → Z → string → P;
  delete_sql_metadata : P → string → P;
}.

(** bincode for the entries of the id mapping. *)
Class IdCodec := {
  ser_mapping : IdMappingEntry → option string;
  de_mapping : string → option IdMappingEntry;
  ser_vector : StoredVectorEntry → option string;
  de_vector : string → option StoredVectorEntry;
}.

Class IdCodecLaws `{!IdCodec} := {
  mapping_roundtrip e d : ser_mapping e = Some d → de_mapping d = Some e;
  vector_roundtrip e d : ser_vector e = Some d → de_vector d = Some e;
}.

(** What does not change while the service runs. *)
Record Config := mkConfig {
  collection : string;
  registered : string → bool;
  acl : AclConfig;
  embedding_model_id : option string;
}.

Record Service (I S P : Type) := mkService {
  index : I;
  store : S;
  lexical : Bm25Index;
  documents : gmap string string;
  mutation_locks : gset string;
  projections : P;
}.
Arguments mkService {I S P}.
Arguments index {I S P}.
Arguments store {I S P}.
Arguments lexical {I S P}.
Arguments documents {I S P}.
Arguments mutation_locks {I S P}.
Arguments projections {I S P}.

Definition validate_request_collection (cfg : Config) (name : string) : result Status unit :=
  if String.eqb name "" then Err (mkStatus InvalidArgument "collection cannot be empty")
  else if String.eqb name (collection cfg) then Ok tt
  else if registered cfg name then
    Err (mkStatus FailedPrecondition
           ("collection '" +:+ name +:+ "' is registered but not the active shard collection '"
            +:+ collection cfg +:+ "'"))
  else
    Err (mkStatus InvalidArgument
           ("collection '" +:+ name +:+ "' does not match shard collection '"
            +:+ collection cfg +:+ "'")).

(** The times an operation reads. *)
Abbreviation clock := (Z * Z * Z)%type.

Section handlers.
Context {I S P : Type} `{!VectorIndex I, !StorageBackend S, !Projections P}.
Context `{!IdCodec, !Json, !CharTables, !HashOrder}.
Implicit Types (cfg : Config) (svc : Service I S P) (ctx : AuthContext).

Abbreviation service := (Service I S P).

Definition with_index svc x : service :=
  mkService x (store svc) (lexical svc) (documents svc) (mutation_locks svc) (projections svc).
Definition with_store svc s : service :=
  mkService (index svc) s (lexical svc) (documents svc) (mutation_locks svc) (projections svc).
Definition with_texts svc l d : service :=
  mkService (index svc) (store svc) l d (mutation_locks svc) (projections svc).
Definition with_locks svc l : service :=
  mkService (index svc) (store svc) (lexical svc) (documents svc) l (projections svc).
Definition with_projections svc p : service :=
  mkService (index svc) (store svc) (lexical svc) (documents svc) (mutation_locks svc) p.

Definition read_internal_id cfg svc id : Result (option Z) :=
  get_internal_id de_mapping (store svc) (collection cfg) id.
Definition read_vector cfg svc id : Result (option StoredVectorEntry) :=
  IdMapping.get_vector de_mapping de_vector (store svc) (collection cfg) id.

Definition existing_vector_metadata cfg svc id : result Status (option string) :=
  let? entry := map_status (get_vector_including_deleted de_vector (store svc) (collection cfg) id) in
  Ok (sv_metadata <$> entry).

(** The metadata of a vector of another workspace. *)
Definition foreign cfg ctx (metadata : option string) : bool :=
  match metadata with
  | Some metadata => negb (metadata_in_auth_workspace (acl cfg) metadata ctx)
  | None => false
  end.

Definition ensure_existing_vector_access cfg svc id ctx : result Status (option string) :=
  let? metadata := existing_vector_metadata cfg svc id in
  if foreign cfg ctx metadata then Err (mkStatus NotFound ("Vector not found: " +:+ id))
  else Ok metadata.

Definition ensure_insert_does_not_cross_workspace cfg svc id ctx : result Status (option string) :=
  let? metadata := existing_vector_metadata cfg svc id in
  if foreign cfg ctx metadata then Err (mkStatus AlreadyExists ("Vector id already exists: " +:+ id))
  else Ok metadata.

(** [MutationLockGuard]: taken for the body, released however the body ends. *)
Definition with_lock {A} svc (id : string)
    (body : service → option (result Status A) * service) : option (result Status A) * service :=
  if decide (id ∈ mutation_locks svc) then
    (Some (Err (mkStatus Aborted ("Concurrent mutation in progress for ID: " +:+ id))), svc)
  else
    let '(r, svc) := body (with_locks svc ({[id]} ∪ mutation_locks svc)) in
    (r, with_locks svc (mutation_locks svc ∖ {[id]})).

Definition sync_source_text svc id (text : string) : service :=
  if String.eqb text "" then
    with_texts svc (bm25_remove (lexical svc) id).2 (delete id (documents svc))
  else
    with_texts svc (bm25_insert (lexical svc) id (str_chars text)) (<[id := text]> (documents svc)).

(** The vector goes to the index, then to the store in one batch; a failed batch
    takes it out of the index again. A replaced internal id is deleted. *)
Definition index_and_store cfg svc id (v : vector) (metadata : string) (text : option string)
    (old_internal_id : option Z) (now : clock) : option (result Status Z) * service :=
  match vi_insert (index svc) id v with
  | (None, x) => (None, with_index svc x)
  | (Some (Err e), x) => (Some (Err (to_status e)), with_index svc x)
  | (Some (Ok internal_id), x) =>
      let '(now1, now2, now3) := now in
      match upsert_with_vector_and_text ser_mapping de_mapping ser_vector (store svc)
              (collection cfg) id internal_id v metadata text now1 now2 now3 with
      | (Err e, s) =>
          (Some (Err (to_status e)), with_index (with_store svc s) (vi_delete x internal_id).2)
      | (Ok _, s) =>
          let x :=
            match old_internal_id with
            | Some old_id => if old_id =? internal_id then x else (vi_delete x old_id).2
            | None => x
            end in
          (Some (Ok internal_id), with_index (with_store svc s) x)
      end
  end.

(** *** Insert *)

(** Everything that happens under the lock of the id. *)
Definition insert_locked cfg ctx id (v : vector) (metadata text : string) (now : clock) svc
  : option (result Status Z) * service :=
  match ensure_insert_does_not_cross_workspace cfg svc id ctx with
  | Err st => (Some (Err st), svc)
  | Ok old_metadata =>
      match IdMapping.is_deleted de_mapping (store svc) (collection cfg) id with
      | Err e => (Some (Err (to_status e)), svc)
      | Ok true =>
          (Some (Err (mkStatus FailedPrecondition
                        ("ID reuse is forbidden for soft-deleted vector: " +:+ id))), svc)
      | Ok false =>
          match read_internal_id cfg svc id with
          | Err e => (Some (Err (to_status e)), svc)
          | Ok old_internal_id =>
              match index_and_store cfg svc id v metadata (Some text) old_internal_id now with
              | (Some (Ok internal_id), svc) =>
                  let svc := sync_source_text svc id text in
                  match index_graph_chunk (projections svc) id metadata old_metadata with
                  | (Err e, p) =>
                      (Some (Err (mkStatus InternalCode ("graph projection failed: " +:+ e))),
                       with_projections svc p)
                  | (Ok _, p) =>
                      (Some (Ok internal_id),
                       with_projections svc (index_sql_metadata p id internal_id metadata))
                  end
              | r => r
              end
          end
      end
  end.

(** The checks before the lock, and the metadata to store. *)
Definition prepare_write cfg ctx id (v : vector) (metadata : string) : result string string :=
  let? _ := validate_vector_payload id v in
  let? _ := validate_metadata_json metadata in
  stamp_write_metadata metadata ctx (acl cfg) (embedding_model_id cfg).

Definition insert_inner cfg svc ctx (req : InsertRequest) (now : clock)
  : option (result Status InsertResponse) * service :=
  match validate_request_collection cfg (ir_collection req) with
  | Err st => (Some (Err st), svc)
  | Ok _ =>
      match invalid_argument (prepare_write cfg ctx (ir_id req) (ir_vector req) (ir_metadata req)) with
      | Err st => (Some (Err st), svc)
      | Ok stamped =>
          let '(r, svc) :=
            with_lock svc (ir_id req)
              (insert_locked cfg ctx (ir_id req) (ir_vector req) stamped (ir_text req) now) in
          (match r with
           | Some (Ok internal_id) =>
               Some (Ok (mkInsertResponse true (ir_id req) internal_id
                           (Some (mkVisibility "within_100ms" ""))))
           | Some (Err st) => Some (Err st)
           | None => None
           end, svc)
      end
  end.

(** One vector of a batch; every failure but a panic is recorded and skipped. *)
Definition batch_one cfg svc ctx (v : VectorMsg) (now : clock)
  : option (result Status Z) * service :=
  match invalid_argument (prepare_write cfg ctx (vm_id v) (vm_embedding v) (vm_metadata v)) with
  | Err st => (Some (Err st), svc)
  | Ok stamped =>
      with_lock svc (vm_id v)
        (insert_locked cfg ctx (vm_id v) (vm_embedding v) stamped (vm_text v) now)
  end.

Fixpoint batch_loop cfg svc ctx (vectors : list VectorMsg) (now : string → clock) (inserted : Z)
    (failed : list string) : option (Z * list string) * service :=
  match vectors with
  | [] => (Some (inserted, failed), svc)
  | v :: vectors =>
      match batch_one cfg svc ctx v (now (vm_id v)) with
      | (None, svc) => (None, svc)
      | (Some (Ok _), svc) =>
          batch_loop cfg svc ctx vectors now (wrapping u32_max (inserted + 1)) failed
      | (Some (Err _), svc) => batch_loop cfg svc ctx vectors now inserted (failed ++ [vm_id v])
      end
  end.

Definition insert_batch_inner cfg svc ctx (req : InsertBatchRequest) (now : string → clock)
  : option (result Status InsertBatchResponse) * service :=
  match validate_request_collection cfg (br_collection req) with
  | Err st => (Some (Err st), svc)
  | Ok _ =>
      match validate_unique_batch_ids ∅ (br_vectors req) with
      | Err st => (Some (Err st), svc)
      | Ok _ =>
          match batch_loop cfg svc ctx (br_vectors req) now 0 [] with
          | (None, svc) => (None, svc)
          | (Some (inserted, failed), svc) =>
              (Some (Ok (mkBatchResponse (bool_decide (failed = [])) inserted failed)), svc)
          end
      end
  end.

(** *** Delete *)

(** What is known to have been deleted: [mark_deleted] returned no internal id. *)
Definition delete_status cfg svc id : result Status DeleteStatus :=
  let? found := map_status (exists_ de_mapping (store svc) (collection cfg) id) in
  Ok (if found then AlreadyDeleted else DeleteNotFound).

Definition delete_locked cfg ctx id (now : clock) svc
  : option (result Status DeleteStatus) * service :=
  match ensure_existing_vector_access cfg svc id ctx with
  | Err st => (Some (Err st), svc)
  | Ok existing_metadata =>
      let '(graph, p) :=
        match existing_metadata with
        | Some _ => delete_graph_chunk (projections svc) id existing_metadata
        | None => (Ok tt, projections svc)
        end in
      let svc := with_projections svc p in
      match graph with
      | Err e => (Some (Err (mkStatus InternalCode ("graph deletion failed: " +:+ e))), svc)
      | Ok _ =>
          let '(now1, now2, _) := now in
          match IdMapping.mark_deleted ser_mapping de_mapping ser_vector de_vector (store svc)
                  (collection cfg) id now1 now2 with
          | (Err e, s) => (Some (Err (to_status e)), with_store svc s)
          | (Ok (Some internal_id), s) =>
              let svc := with_store svc s in
              match vi_delete (index svc) internal_id with
              | (Err e, x) => (Some (Err (to_status e)), with_index svc x)
              | (Ok _, x) =>
                  let svc := with_index svc x in
                  let svc := with_texts svc (bm25_remove (lexical svc) id).2
                               (delete id (documents svc)) in
                  (Some (Ok Deleted),
                   with_projections svc (delete_sql_metadata (projections svc) id))
              end
          | (Ok None, s) =>
              let svc := with_store svc s in (Some (delete_status cfg svc id), svc)
          end
      end
  end.

Definition delete_inner cfg svc ctx (req : DeleteRequest) (now : clock)
  : option (result Status DeleteResponse) * service :=
  match validate_request_collection cfg (dr_collection req) with
  | Err st => (Some (Err st), svc)
  | Ok _ =>
      match invalid_argument (validate_vector_id (dr_id req)) with
      | Err st => (Some (Err st), svc)
      | Ok _ =>
          let '(r, svc) := with_lock svc (dr_id req) (delete_locked cfg ctx (dr_id req) now) in
          (match r with
           | Some (Ok status) => Some (Ok (mkDeleteResponse true (dr_id req) status "immediate"))
           | Some (Err st) => Some (Err st)
           | None => None
           end, svc)
      end
  end.

(** *** Update *)

Definition do_update_locked cfg id (v : vector) (metadata : string) (now : clock) svc
  : option (result Status UpdateStatus) * service :=
  match read_internal_id cfg svc id with
  | Err e => (Some (Err (to_status e)), svc)
  | Ok old_internal_id =>
      match read_vector cfg svc id with
      | Err e => (Some (Err (to_status e)), svc)
      | Ok old_entry =>
          let status := match old_internal_id with Some _ => Updated | None => Created end in
          match index_and_store cfg svc id v metadata None old_internal_id now with
          | (Some (Ok internal_id), svc) =>
              let p := index_sql_metadata (projections svc) id internal_id metadata in
              match index_graph_chunk p id metadata (sv_metadata <$> old_entry) with
              | (Err e, p) =>
                  (Some (Err (mkStatus InternalCode ("graph projection failed: " +:+ e))),
                   with_projections svc p)
              | (Ok _, p) => (Some (Ok status), with_projections svc p)
              end
          | (Some (Err st), svc) => (Some (Err st), svc)
          | (None, svc) => (None, svc)
          end
      end
  end.

Definition update_locked cfg ctx id (v : vector) (metadata : string) (now : clock) svc
  : option (result Status UpdateStatus) * service :=
  match ensure_existing_vector_access cfg svc id ctx with
  | Err st => (Some (Err st), svc)
  | Ok _ => do_update_locked cfg id v metadata now svc
  end.

Definition update_inner cfg svc ctx (req : UpdateRequest) (now : clock)
  : option (result Status UpdateResponse) * service :=
  match validate_request_collection cfg (ur_collection req) with
  | Err st => (Some (Err st), svc)
  | Ok _ =>
      match invalid_argument (prepare_write cfg ctx (ur_id req) (ur_vector req) (ur_metadata req)) with
      | Err st => (Some (Err st), svc)
      | Ok stamped =>
          let '(r, svc) :=
            with_lock svc (ur_id req)
              (update_locked cfg ctx (ur_id req) (ur_vector req) stamped now) in
          (match r with
           | Some (Ok status) =>
               Some (Ok (mkUpdateResponse true (ur_id req) status
                           (Some (mkVisibility "within_100ms" "immediate"))))
           | Some (Err st) => Some (Err st)
           | None => None
           end, svc)
      end
  end.

(** *** Get *)

Definition get_inner cfg svc ctx (req : GetRequest) : result Status GetResponse :=
  let? _ := validate_request_collection cfg (gr_collection req) in
  let? _ := invalid_argument (validate_vector_id (gr_id req)) in
  let? _ := ensure_existing_vector_access cfg svc (gr_id req) ctx in
  let not_found := mkStatus NotFound ("Vector not found: " +:+ gr_id req) in
  let? internal_id := map_status (read_internal_id cfg svc (gr_id req)) in
  match internal_id with
  | None => Err not_found
  | Some internal_id =>
      let? stored_vector := map_status (read_vector cfg svc (gr_id req)) in
      let? hot := map_status (vi_get_vector (index svc) internal_id) in
      let? v :=
        match hot, stored_vector with
        | Some v, _ => Ok v
        | None, Some entry => Ok (sv_vector entry)
        | None, None => Err not_found
        end in
      let metadata :=
        match stored_vector with Some entry => from_utf8_lossy (sv_metadata entry) | None => "" end in
      Ok (mkGetResponse (gr_id req) v metadata true)
  end.

(** ** Sequences of requests *)

Inductive request :=
| RInsert (req : InsertRequest) (now : clock)
| RBatch (req : InsertBatchRequest) (now : string → clock)
| RUpdate (req : UpdateRequest) (now : clock)
| RDelete (req : DeleteRequest) (now : clock).

Definition serve cfg svc (call : AuthContext * request) : service :=
  let '(ctx, req) := call in
  match req with
  | RInsert req now => (insert_inner cfg svc ctx req now).2
  | RBatch req now => (insert_batch_inner cfg svc ctx req now).2
  | RUpdate req now => (update_inner cfg svc ctx req now).2
  | RDelete req now => (delete_inner cfg svc ctx req now).2
  end.
End handlers.
