(* ===== verification/ServiceProps.v ===== *)
(** * The vector operations of the service: correctness

    Requests of one workspace never touch what another workspace owns, whatever
    the storage does ([workspaces_do_not_interfere]); with a store and an index
    that do not fail, the index and the source texts in memory are exactly what the
    store has ([projections_agree]); and the defect of the rollback of a failed
    write ([failed_write_hides_vector]). *)

From S2P Require Import Prelude Text Float32 Tombstone Storage IdMapping VectorIndex Lexical Graph Filter Service.

(** ** What the service relies on *)

(** A failed insertion keeps the assignment of internal ids. *)
Class VectorIndexIds (I : Type) `{!VectorIndex I, !VectorIndexLaws I} :=
  vi_insert_err_ids (x : I) id v e x' :
    vi_wf x → vi_insert x id v = (Some (Err e), x') → vi_ids x' = vi_ids x.

(** A predicate that the bodies under the lock keep is kept by every request. *)
Section closed.
Context {I S P : Type} `{!VectorIndex I, !StorageBackend S, !Projections P}.
Context `{!IdCodec, !Json, !CharTables, !HashOrder}.
Variables (Q : Service I S P → Prop) (cfg : Config) (ctx : AuthContext).
Hypothesis Q_locks : ∀ svc l, Q svc → Q (with_locks svc l).
Hypothesis Q_insert : ∀ id v metadata text now svc,
  Q svc → Q (insert_locked cfg ctx id v metadata text now svc).2.
Hypothesis Q_update : ∀ id v metadata now svc,
  Q svc → Q (update_locked cfg ctx id v metadata now svc).2.
Hypothesis Q_delete : ∀ id now svc, Q svc → Q (delete_locked cfg ctx id now svc).2.

Lemma with_lock_closed {A} svc id (body : Service I S P → option (result Status A) * Service I S P) :
  (∀ svc, Q svc → Q (body svc).2) → Q svc → Q (with_lock svc id body).2.
Proof.
  intros Hb Hq. unfold with_lock. case_decide; [done|].
  specialize (Hb _ (Q_locks svc ({[id]} ∪ mutation_locks svc) Hq)).
  destruct (body _) as [r svc']. by apply Q_locks.
Qed.

Lemma batch_loop_closed vectors now : ∀ svc inserted failed,
  Q svc → Q (batch_loop cfg svc ctx vectors now inserted failed).2.
Proof.
  induction vectors as [|v vectors IH]; intros svc inserted failed Hq; [done|]. cbn.
  assert (Q (batch_one cfg svc ctx v (now (vm_id v))).2) as Hq1.
  { unfold batch_one. destruct (invalid_argument _); [|done]. apply with_lock_closed; auto. }
  destruct (batch_one _ _ _ _ _) as [[[]|] svc1]; auto.
Qed.

Lemma serve_closed svc req : Q svc → Q (serve cfg svc (ctx, req)).
Proof.
  intros Hq. destruct req as [req now|req now|req now|req now]; cbn.
  - unfold insert_inner. destruct (validate_request_collection _ _); [|done].
    destruct (invalid_argument _) as [stamped|]; [|done].
    pose proof (with_lock_closed svc (ir_id req) _
      (Q_insert (ir_id req) (ir_vector req) stamped (ir_text req) now) Hq) as Hq1.
    by destruct (with_lock _ _ _).
  - unfold insert_batch_inner. destruct (validate_request_collection _ _); [|done].
    destruct (validate_unique_batch_ids _ _); [|done].
    pose proof (batch_loop_closed (br_vectors req) now svc 0 [] Hq) as Hq1.
    by destruct (batch_loop _ _ _ _ _ _ _) as [[[]|] svc1].
  - unfold update_inner. destruct (validate_request_collection _ _); [|done].
    destruct (invalid_argument _) as [stamped|]; [|done].
    pose proof (with_lock_closed svc (ur_id req) _
      (Q_update (ur_id req) (ur_vector req) stamped now) Hq) as Hq1.
    by destruct (with_lock _ _ _).
  - unfold delete_inner. destruct (validate_request_collection _ _); [|done].
    destruct (invalid_argument _); [|done].
    pose proof (with_lock_closed svc (dr_id req) _ (Q_delete (dr_id req) now) Hq) as Hq1.
    by destruct (with_lock _ _ _).
Qed.
End closed.

Section properties.
Context {I S P : Type} `{!VectorIndex I, !VectorIndexLaws I, !VectorIndexCalm I, !VectorIndexIds I}.
Context `{!StorageBackend S, !StorageLaws S, !Projections P}.
Context `{!IdCodec, !IdCodecLaws, !Json, !CharTables, !HashOrder}.
Implicit Types (cfg : Config) (svc : Service I S P) (ctx : AuthContext).

Abbreviation service := (Service I S P).

Definition view svc : gmap string string := sb_view (store svc).
Definition payload cfg svc id : option StoredVectorEntry :=
  lookup_payload de_vector (view svc) (collection cfg) id.
Definition live_id cfg svc id : option Z := live de_mapping (view svc) (collection cfg) id.

(** The index knows every live id under the internal id the store has for it, and
    the lexical index is that of some documents. *)
Definition service_wf cfg svc : Prop :=
  vi_wf (index svc) ∧
  (∀ id i, live_id cfg svc id = Some i → vi_ids (index svc) !! id = Some i) ∧
  lex_wf (lexical svc).

(** Everything the service holds about an id is the same: the mapping, the
    payload and the text in the store, the vector in the index, its entry in the
    lexical index, the text in memory. (The graph and SQL projections are
    parameters.) *)
Definition untouched cfg svc svc' id : Prop :=
  (∀ p, is_prefix p →
     view svc' !! make_key_with_prefix p (collection cfg) id
     = view svc !! make_key_with_prefix p (collection cfg) id) ∧
  VectorIndex.visible (index svc') id = VectorIndex.visible (index svc) id ∧
  same_entry (lexical svc) (lexical svc') id ∧
  documents svc' !! id = documents svc !! id.

#[local] Instance untouched_preorder cfg id : PreOrder (λ svc svc', untouched cfg svc svc' id).
Proof.
  split; [done|]. intros x y z (K1 & L1 & T1 & M1) (K2 & L2 & T2 & M2).
  split; [intros p Hp; by rewrite K2, K1|]. split; [congruence|]. split; [|congruence].
  exact (@transitivity _ _ (@PreOrder_Transitive _ _ (same_entry_preorder id)) _ _ _ T1 T2).
Qed.

Lemma untouched_payload cfg svc svc' id :
  untouched cfg svc svc' id → payload cfg svc' id = payload cfg svc id.
Proof.
  intros [E _]. unfold payload, lookup_payload, make_vector_key. rewrite E; [done|].
  unfold is_prefix. auto.
Qed.

Lemma untouched_live cfg svc svc' id :
  untouched cfg svc svc' id → live_id cfg svc' id = live_id cfg svc id.
Proof.
  intros [E _]. unfold live_id, live, lookup_mapping, make_key. rewrite E; [done|].
  unfold is_prefix. auto.
Qed.

Lemma read_internal_id_live cfg svc id o :
  read_internal_id cfg svc id = Ok o → o = live_id cfg svc id.
Proof.
  unfold read_internal_id, get_internal_id, live_id, live.
  destruct (get de_mapping (store svc) (collection cfg) id) as [e|] eqn:E; [|done].
  destruct (get_view de_mapping _ _ _ _ E) as [-> _]. cbn.
  destruct (lookup_mapping _ _ _ _) as [e|]; cbn; [|by intros [= <-]].
  by intros [= <-].
Qed.

(** The three ways out of [index_and_store]; the internal id never changes. *)
Inductive stored cfg svc id v metadata text (now : clock)
  : option (result Status Z) → service → Prop :=
| stored_refused e x :
    vi_insert (index svc) id v = (Some (Err e), x) →
    stored cfg svc id v metadata text now (Some (Err (to_status e))) (with_index svc x)
| stored_failed i x e s :
    vi_insert (index svc) id v = (Some (Ok i), x) →
    upsert_with_vector_and_text ser_mapping de_mapping ser_vector (store svc) (collection cfg) id i v
      metadata text now.1.1 now.1.2 now.2 = (Err e, s) →
    stored cfg svc id v metadata text now (Some (Err (to_status e)))
      (with_index (with_store svc s) (vi_delete x i).2)
| stored_done i x e s :
    vi_insert (index svc) id v = (Some (Ok i), x) →
    upsert_with_vector_and_text ser_mapping de_mapping ser_vector (store svc) (collection cfg) id i v
      metadata text now.1.1 now.1.2 now.2 = (Ok e, s) →
    stored cfg svc id v metadata text now (Some (Ok i)) (with_index (with_store svc s) x).

Lemma index_and_store_cases cfg svc id v metadata text old now r svc' :
  service_wf cfg svc → read_internal_id cfg svc id = Ok old →
  index_and_store cfg svc id v metadata text old now = (r, svc') →
  stored cfg svc id v metadata text now r svc'.
Proof.
  intros (Hwf & Hids & _) Hold%read_internal_id_live. unfold index_and_store.
  destruct (vi_insert (index svc) id v) as [[[i|e]|] x] eqn:Ei.
  - destruct now as [[n1 n2] n3].
    destruct (upsert_with_vector_and_text _ _ _ _ _ _ _ _ _ _ _ _ _) as [[e|e] s] eqn:Eu;
      intros [= <- <-]; [|by eapply stored_failed].
    assert (match old with
            | Some old_id => if old_id =? i then x else (vi_delete x old_id).2
            | None => x end = x) as ->; [|by eapply stored_done].
    destruct old as [old|]; [|done]. symmetry in Hold. apply Hids in Hold.
    destruct (vi_insert_ok _ _ _ _ _ Hwf Ei) as (_ & _ & _ & [E | [E _]]); [|congruence].
    rewrite Hold in E. injection E as ->. by rewrite Z.eqb_refl.
  - intros [= <- <-]. by eapply stored_refused.
  - destruct (vi_insert_calm (index svc) id v Hwf). by rewrite Ei.
Qed.

(** What a durable write of one id leaves: nothing changed, or the new entries of
    that id. *)
Definition wrote cfg svc (s : S) id (e : IdMappingEntry) (p : option StoredVectorEntry)
    (text : option string) : Prop :=
  (∀ q id', id' ≠ id → is_prefix q →
     sb_view s !! make_key_with_prefix q (collection cfg) id'
     = view svc !! make_key_with_prefix q (collection cfg) id') ∧
  lookup_mapping de_mapping (sb_view s) (collection cfg) id = Some e ∧
  lookup_payload de_vector (sb_view s) (collection cfg) id = p ∧
  sb_view s !! make_text_key (collection cfg) id = text.

Lemma batch_written (s : S) batch w s' :
  sb_write_batch_sync s batch = (w, s') →
  (sb_view s' = apply_batch (sb_view s) batch ∧ (StorageReliable S → is_ok w = true)) ∨
  (sb_view s' = sb_view s ∧ is_ok w = false).
Proof.
  intros E. assert (StorageReliable S → is_ok w = true) as Hrel.
  { intros Hs. pose proof (reliable_write_batch_sync s batch) as Hr. by rewrite E in Hr. }
  apply sb_write_batch_sync_ok in E. destruct w; cbn in E; [by left|]. destruct E; auto.
Qed.

Lemma upsert_effect cfg svc id i v metadata text n1 n2 n3 r s :
  upsert_with_vector_and_text ser_mapping de_mapping ser_vector (store svc) (collection cfg) id i v
    metadata text n1 n2 n3 = (r, s) →
  (sb_view s = view svc ∧ is_ok r = false) ∨
  ∃ e, deleted e = false ∧ internal_id e = i ∧ (StorageReliable S → is_ok r = true) ∧
    wrote cfg svc s id e (Some (mkStored id i v metadata n3 n1 false))
      (text_after (view svc !! make_text_key (collection cfg) id) text).
Proof.
  intros E. destruct (upsert_cases _ _ _ _ _ _ _ _ _ _ _ _ _ _ _ E)
    as [[-> Hr] | (e & batch & w & He & Hb & Hw & ->)]; [by left|].
  destruct (upsert_entry_view _ _ _ _ _ _ _ _ He) as (Hd & Hi & _).
  destruct (batch_written _ _ _ _ Hw) as [[Hs Hrel] | [Hs Hr]]; fold (view svc) in Hs.
  - right. exists e. split_and!; [done..| |].
    { intros Hs'. specialize (Hrel Hs'). by destruct w. }
    unfold wrote. rewrite Hs.
    destruct (upsert_batch_lookup _ _ _ _ mapping_roundtrip vector_roundtrip (view svc) _ _ _ _ _ _ Hb)
      as (Hm & Hp & Ht).
    split_and!; [|done..]. intros q id' Hne Hq.
    eapply (id_batch_frame ser_mapping de_mapping ser_vector de_vector mapping_roundtrip
              vector_roundtrip);
      [by eapply (upsert_batch_id _ _ _ _ mapping_roundtrip vector_roundtrip)|congruence|done].
  - left. split; [done|]. by destruct w.
Qed.

Lemma delete_effect cfg svc id n1 n2 r s :
  IdMapping.mark_deleted ser_mapping de_mapping ser_vector de_vector (store svc) (collection cfg) id
    n1 n2 = (r, s) →
  (sb_view s = view svc ∧ ∀ i, r ≠ Ok (Some i)) ∨
  ∃ e, lookup_mapping de_mapping (view svc) (collection cfg) id = Some e ∧ deleted e = false ∧
    (StorageReliable S → is_ok r = true) ∧
    (∀ i, r = Ok (Some i) → i = internal_id e) ∧ r ≠ Ok None ∧
    wrote cfg svc s id (mapping_mark_deleted e n1)
      ((λ v, stored_mark_deleted v n2) <$> payload cfg svc id) None.
Proof.
  intros E. destruct (mark_deleted_cases _ _ _ _ _ _ _ _ _ _ _ E)
    as [[-> Hr] | (e & batch & w & He & Hd & Hb & Hw & ->)]; [by left|].
  destruct (batch_written _ _ _ _ Hw) as [[Hs Hrel] | [Hs Hr]]; fold (view svc) in Hs.
  - right. exists e. split_and!; [done..| | | |].
    + intros Hs'. specialize (Hrel Hs'). by destruct w.
    + intros i. destruct w; [by intros [= <-]|done].
    + by destruct w.
    + unfold wrote. rewrite Hs.
      destruct (delete_batch_lookup _ _ _ _ mapping_roundtrip vector_roundtrip (view svc) _ _ _ _ _ Hb)
        as (Hm & Hp & Ht).
      split_and!; [|done| |done].
      * intros q id' Hne Hq.
        eapply (id_batch_frame ser_mapping de_mapping ser_vector de_vector mapping_roundtrip
                  vector_roundtrip);
          [by eapply (delete_batch_id _ _ _ _ mapping_roundtrip vector_roundtrip)|congruence|done].
      * rewrite Hp. unfold payload. by destruct (lookup_payload _ _ _ _).
  - left. split; [done|]. by destruct w.
Qed.

(** An operation on [id] keeps the invariant and leaves the other ids alone. *)
Definition confined cfg id svc svc' : Prop :=
  service_wf cfg svc' ∧ ∀ id', id' ≠ id → untouched cfg svc svc' id'.

Lemma wrote_live cfg svc s id e p text id' :
  wrote cfg svc s id e p text →
  live de_mapping (sb_view s) (collection cfg) id'
  = if decide (id' = id) then (if deleted e then None else Some (internal_id e))
    else live_id cfg svc id'.
Proof.
  intros (Hf & He & _). unfold live_id, live. destruct (decide (id' = id)) as [->|Hne].
  - by rewrite He.
  - unfold lookup_mapping, make_key. rewrite Hf; [done|done|]. unfold is_prefix. auto.
Qed.

Lemma ids_kept cfg svc s id i v x :
  service_wf cfg svc → vi_insert (index svc) id v = (Some (Ok i), x) →
  (sb_view s = view svc ∨
   ∃ e p text, deleted e = false ∧ internal_id e = i ∧ wrote cfg svc s id e p text) →
  ∀ id' j, live de_mapping (sb_view s) (collection cfg) id' = Some j → vi_ids x !! id' = Some j.
Proof.
  intros (Hwf & Hids & _) Hi Hs id' j Hj.
  destruct (vi_insert_ok _ _ _ _ _ Hwf Hi) as (_ & -> & _ & Hold).
  assert (id' = id ∧ j = i ∨ live_id cfg svc id' = Some j) as [[-> ->] | Hl].
  { destruct Hs as [Hs | (e & p & text & Hd & He & Hw)]; [right; by rewrite Hs in Hj|].
    rewrite (wrote_live _ _ _ _ _ _ _ _ Hw), Hd in Hj.
    destruct (decide (id' = id)); [left; split; congruence|by right]. }
  - apply lookup_insert_eq.
  - apply Hids in Hl. destruct (decide (id' = id)) as [->|]; [|by rewrite lookup_insert_ne].
    rewrite lookup_insert_eq. destruct Hold as [Hold | [Hold _]]; congruence.
Qed.

(** The keys of the other ids, after a write of [id]. *)
Lemma keys_kept cfg svc s id q id' :
  (sb_view s = view svc ∨ ∃ e p text, wrote cfg svc s id e p text) →
  id' ≠ id → is_prefix q →
  sb_view s !! make_key_with_prefix q (collection cfg) id'
  = view svc !! make_key_with_prefix q (collection cfg) id'.
Proof. intros [-> | (e & p & text & Hf & _)] Hne Hq; [done|]. by apply Hf. Qed.

(** A deletion by internal id hides at most its own id. *)
Lemma visible_after_delete (x : I) id i id' :
  vi_wf x → vi_ids x !! id = Some i →
  vi_wf (vi_delete x i).2 ∧ vi_ids (vi_delete x i).2 = vi_ids x ∧
  (id' ≠ id → VectorIndex.visible (vi_delete x i).2 id' = VectorIndex.visible x id').
Proof.
  intros Hwf Hid. destruct (vi_delete x i) as [r x'] eqn:E.
  destruct (vi_delete_ok _ _ _ _ _ Hwf Hid E) as (Hwf' & Hids & Hvecs).
  split_and!; [done..|]. intros Hne. destruct r as [[]|].
  - rewrite (visible_delete x id i x' id') by done. by rewrite decide_False.
  - unfold VectorIndex.visible. cbn. by rewrite Hids, Hvecs.
Qed.

Lemma upsert_written cfg svc id i v metadata text n1 n2 n3 r s :
  upsert_with_vector_and_text ser_mapping de_mapping ser_vector (store svc) (collection cfg) id i v
    metadata text n1 n2 n3 = (r, s) →
  sb_view s = view svc ∨
  ∃ e p text, deleted e = false ∧ internal_id e = i ∧ wrote cfg svc s id e p text.
Proof.
  intros [[-> _] | (e & Hd & Hi & _ & Hw)]%upsert_effect; [by left|]. right. eauto 10.
Qed.

Lemma written_keys cfg svc s id i :
  (sb_view s = view svc ∨
   ∃ e p text, deleted e = false ∧ internal_id e = i ∧ wrote cfg svc s id e p text) →
  sb_view s = view svc ∨ ∃ e p text, wrote cfg svc s id e p text.
Proof. intros [?|(e & p & text & _ & _ & ?)]; [by left|right; eauto]. Qed.

Lemma stored_confined cfg svc id v metadata text now r svc' :
  service_wf cfg svc → stored cfg svc id v metadata text now r svc' →
  confined cfg id svc svc' ∧ documents svc' = documents svc ∧ lexical svc' = lexical svc.
Proof.
  intros Hsvc Hst. split; [|by destruct Hst]. pose proof Hsvc as (Hwf & Hids & Hlex).
  destruct Hst as [e x Hi | i x e s Hi Hu | i x e s Hi Hu];
    destruct (vi_insert_ok _ _ _ _ _ Hwf Hi) as [Hwf1 Hins].
  - split; [split; [exact Hwf1|split; [|exact Hlex]]|].
    + cbn. rewrite (vi_insert_err_ids _ _ _ _ _ Hwf Hi). exact Hids.
    + intros id' Hne. split; [done|]. split; [by eapply visible_insert_err|done].
  - apply upsert_written in Hu. destruct Hins as (Hids1 & _).
    assert (vi_ids x !! id = Some i) as Hid by (rewrite Hids1; apply lookup_insert_eq).
    split; [split; [|split; [|exact Hlex]]|]; cbn.
    + by apply (visible_after_delete x id i id).
    + rewrite (proj1 (proj2 (visible_after_delete x id i id Hwf1 Hid))). by eapply ids_kept.
    + intros id' Hne. split; [intros q Hq|split; [cbn|done]].
      * eapply keys_kept; [by eapply written_keys|done..].
      * rewrite (proj2 (proj2 (visible_after_delete x id i id' Hwf1 Hid)) Hne).
        rewrite (visible_insert _ _ _ _ _ id' Hwf Hi). by rewrite decide_False.
  - apply upsert_written in Hu. split; [split; [|split; [|exact Hlex]]|]; cbn.
    + exact Hwf1.
    + by eapply ids_kept.
    + intros id' Hne. split; [intros q Hq|split; [cbn|done]].
      * eapply keys_kept; [by eapply written_keys|done..].
      * rewrite (visible_insert _ _ _ _ _ id' Hwf Hi). by rewrite decide_False.
Qed.

(** *** Ownership *)

(** The workspace a stored vector belongs to. *)
Definition owned cfg svc id (ws : string) : Prop :=
  ∃ e, payload cfg svc id = Some e ∧
    metadata_in_workspace (metadata_value_from_bytes (sv_metadata e)) ws = true.

Lemma one_workspace v ws ws' :
  metadata_in_workspace v ws = true → metadata_in_workspace v ws' = true → ws = ws'.
Proof.
  unfold metadata_in_workspace. destruct (value_get v WORKSPACE_KEY) as [[]|]; try done;
    intros E%String.eqb_eq E'%String.eqb_eq; congruence.
Qed.

Lemma owned_foreign cfg svc ctx id ws m :
  enforce_workspace (acl cfg) = true → owned cfg svc id ws → workspace_id ctx ≠ ws →
  existing_vector_metadata cfg svc id = Ok m → foreign cfg ctx m = true.
Proof.
  intros Hacl (e & He & Hws) Hne. unfold existing_vector_metadata.
  destruct (get_vector_including_deleted _ _ _ _) as [o|] eqn:E; [|done].
  apply (get_payload_view de_vector) in E. unfold payload, view in He. rewrite He in E. subst o.
  cbn [map_status result_bind]. intros [= <-]. cbn. unfold metadata_in_auth_workspace.
  rewrite Hacl. cbn. destruct (metadata_in_workspace _ (workspace_id ctx)) eqn:E; [|done].
  destruct Hne. by eapply one_workspace.
Qed.

(** What a mutation of [id] by a caller may do: it is confined to [id], and it
    fails without effect if [id] belongs to another workspace. *)
Definition guarded {A} cfg ctx id svc (r : option (result Status A)) svc' : Prop :=
  confined cfg id svc svc' ∧
  ∀ ws, enforce_workspace (acl cfg) = true → owned cfg svc id ws → workspace_id ctx ≠ ws →
    svc' = svc ∧ ∃ st, r = Some (Err st).

Lemma confined_refl cfg id svc : service_wf cfg svc → confined cfg id svc svc.
Proof. done. Qed.

Lemma guarded_err {A} cfg ctx id svc st :
  service_wf cfg svc → guarded (A:=A) cfg ctx id svc (Some (Err st)) svc.
Proof. split; [done|eauto]. Qed.

Lemma confined_texts cfg id svc svc' l d toks :
  confined cfg id svc svc' → lex_changed (lexical svc') l id toks →
  (∀ id', id' ≠ id → d !! id' = documents svc' !! id') →
  confined cfg id svc (with_texts svc' l d).
Proof.
  intros [(Hwf & Hids & _) Hu] (Hl & _ & Hf) Hd. split; [done|]. intros id' Hne.
  destruct (Hu id' Hne) as (? & ? & T & E). split; [done|]. split; [done|]. split.
  - exact (@transitivity _ _ (@PreOrder_Transitive _ _ (same_entry_preorder id')) _ _ _ T (Hf id' Hne)).
  - cbn. by rewrite Hd.
Qed.

(** The tokens the lexical index has for a text. *)
Definition text_tokens (text : string) : list Text.text :=
  if String.eqb text "" then [] else tokenize (str_chars text).

Lemma sync_changed svc id text :
  lex_wf (lexical svc) →
  lex_changed (lexical svc) (lexical (sync_source_text svc id text)) id (text_tokens text).
Proof.
  intros Hl. unfold sync_source_text, text_tokens. destruct (String.eqb text "");
    [by apply remove_changed|by apply insert_changed].
Qed.

Lemma confined_sync cfg id svc svc' text :
  confined cfg id svc svc' → confined cfg id svc (sync_source_text svc' id text).
Proof.
  intros Hc. pose proof Hc as [(_ & _ & Hl) _]. pose proof (sync_changed svc' id text Hl) as Hs.
  revert Hs. unfold sync_source_text. destruct (String.eqb text ""); intros Hs;
    (eapply confined_texts; [done|exact Hs|]); intros id' Hne; by rewrite ?lookup_delete_ne, ?lookup_insert_ne.
Qed.

Lemma insert_locked_guarded cfg ctx id v metadata text now svc r svc' :
  service_wf cfg svc → insert_locked cfg ctx id v metadata text now svc = (r, svc') →
  guarded cfg ctx id svc r svc'.
Proof.
  intros Hwf. unfold insert_locked, ensure_insert_does_not_cross_workspace.
  destruct (existing_vector_metadata cfg svc id) as [m|] eqn:Em; cbn [result_bind];
    [|intros [= <- <-]; by apply guarded_err].
  destruct (foreign cfg ctx m) eqn:Ef; [intros [= <- <-]; by apply guarded_err|].
  destruct (IdMapping.is_deleted _ _ _ _) as [[]|]; [intros [= <- <-]; by apply guarded_err| |
    intros [= <- <-]; by apply guarded_err].
  destruct (read_internal_id cfg svc id) as [old|] eqn:Eo; [|intros [= <- <-]; by apply guarded_err].
  destruct (index_and_store _ _ _ _ _ _ _ _) as [r1 svc1] eqn:Es.
  apply (index_and_store_cases _ _ _ _ _ _ _ _ _ _ Hwf Eo) in Es.
  destruct (stored_confined _ _ _ _ _ _ _ _ _ Hwf Es) as [Hc _].
  intros Hr. split.
  - destruct r1 as [[i|]|]; [|by injection Hr as <- <-..].
    destruct (index_graph_chunk _ _ _ _) as [[]  p]; injection Hr as <- <-;
      by apply (confined_sync _ _ _ _ text) in Hc.
  - intros ws Hacl How Hne. rewrite (owned_foreign _ _ _ _ _ _ Hacl How Hne Em) in Ef. done.
Qed.

Lemma update_locked_guarded cfg ctx id v metadata now svc r svc' :
  service_wf cfg svc → update_locked cfg ctx id v metadata now svc = (r, svc') →
  guarded cfg ctx id svc r svc'.
Proof.
  intros Hwf. unfold update_locked, do_update_locked, ensure_existing_vector_access.
  destruct (existing_vector_metadata cfg svc id) as [m|] eqn:Em; cbn [result_bind];
    [|intros [= <- <-]; by apply guarded_err].
  destruct (foreign cfg ctx m) eqn:Ef; [intros [= <- <-]; by apply guarded_err|].
  destruct (read_internal_id cfg svc id) as [old|] eqn:Eo; [|intros [= <- <-]; by apply guarded_err].
  destruct (read_vector cfg svc id) as [entry|]; [|intros [= <- <-]; by apply guarded_err].
  destruct (index_and_store _ _ _ _ _ _ _ _) as [r1 svc1] eqn:Es.
  apply (index_and_store_cases _ _ _ _ _ _ _ _ _ _ Hwf Eo) in Es.
  destruct (stored_confined _ _ _ _ _ _ _ _ _ Hwf Es) as [Hc _].
  intros Hr. split.
  - destruct r1 as [[i|]|]; [|by injection Hr as <- <-..].
    by destruct (index_graph_chunk _ _ _ _) as [[]  p]; injection Hr as <- <-.
  - intros ws Hacl How Hne. rewrite (owned_foreign _ _ _ _ _ _ Hacl How Hne Em) in Ef. done.
Qed.

(** The durable part of a deletion, whatever it reports. *)
Lemma mark_deleted_confined cfg svc id n1 n2 r s :
  service_wf cfg svc →
  IdMapping.mark_deleted ser_mapping de_mapping ser_vector de_vector (store svc) (collection cfg) id
    n1 n2 = (r, s) →
  confined cfg id svc (with_store svc s) ∧
  ∀ i, r = Ok (Some i) → vi_ids (index svc) !! id = Some i.
Proof.
  intros (Hwf & Hids & Hlex) [[Hs Hr] | (e & He & Hd & _ & Hi & _ & Hw)]%delete_effect.
  - split; [|intros i Hi; by destruct (Hr i)]. split.
    + split; [done|]. split; [|exact Hlex]. unfold live_id, view. cbn. rewrite Hs. exact Hids.
    + intros id' _. split; [|done]. intros q _. unfold view. cbn. by rewrite Hs.
  - split; [split; [split; [done|split; [|exact Hlex]]|]|].
    + intros id' j. unfold live_id at 1, view. cbn. rewrite (wrote_live _ _ _ _ _ _ _ _ Hw). cbn.
      case_decide; [done|]. apply Hids.
    + intros id' Hne. split; [|done]. intros q Hq. by apply (proj1 Hw).
    + intros i ->%Hi. apply Hids. unfold live_id, live. rewrite He. cbn. by rewrite Hd.
Qed.

Lemma confined_projections cfg id svc svc' p :
  confined cfg id svc svc' → confined cfg id svc (with_projections svc' p).
Proof. done. Qed.

Lemma delete_locked_guarded cfg ctx id now svc r svc' :
  service_wf cfg svc → delete_locked cfg ctx id now svc = (r, svc') →
  guarded cfg ctx id svc r svc'.
Proof.
  intros Hwf. unfold delete_locked, ensure_existing_vector_access.
  destruct (existing_vector_metadata cfg svc id) as [m|] eqn:Em; cbn [result_bind];
    [|intros [= <- <-]; by apply guarded_err].
  destruct (foreign cfg ctx m) eqn:Ef; [intros [= <- <-]; by apply guarded_err|].
  intros Hr. split; [|intros ws Hacl How Hne;
    by rewrite (owned_foreign _ _ _ _ _ _ Hacl How Hne Em) in Ef].
  destruct (match m with Some _ => _ | None => _ end) as [g p].
  destruct g; [|by injection Hr as <- <-]. destruct now as [[n1 n2] n3].
  destruct (IdMapping.mark_deleted _ _ _ _ _ _ _ _ _) as [rd s] eqn:Ed. cbn [store with_projections] in Ed.
  destruct (mark_deleted_confined cfg svc id n1 n2 rd s Hwf Ed) as [Hc Hid].
  destruct rd as [[i|]|]; [|by injection Hr as <- <-..].
  specialize (Hid i eq_refl). cbn [index with_store with_projections] in Hr.
  pose proof (visible_after_delete (index svc) id i) as Hv.
  assert (confined cfg id svc (with_index (with_store svc s) (vi_delete (index svc) i).2)) as Hc'.
  { destruct Hc as [(_ & Hids & Hlex) Hu], Hwf as [Hwf _]. split; [split; [|split; [|exact Hlex]]|].
    - by apply (Hv id).
    - cbn. rewrite (proj1 (proj2 (Hv id Hwf Hid))). exact Hids.
    - intros id' Hne. destruct (Hu id' Hne) as (? & ? & ?). split; [done|]. split; [|done].
      cbn. by rewrite (proj2 (proj2 (Hv id' Hwf Hid)) Hne). }
  destruct (vi_delete (index svc) i) as [[]  x]; injection Hr as <- <-; [|exact Hc'].
  apply (confined_projections cfg id svc (with_texts (with_index (with_store svc s) x)
    (bm25_remove (lexical svc) id).2 (delete id (documents svc))) (delete_sql_metadata p id)).
  apply (confined_texts cfg id svc (with_index (with_store svc s) x) _ _ [] Hc').
  - apply remove_changed, Hwf.
  - intros id' Hne. by rewrite lookup_delete_ne.
Qed.

(** *** Requests of other workspaces *)

Lemma guarded_untouched {A} cfg ctx id svc (r : option (result Status A)) svc' id' ws :
  guarded cfg ctx id svc r svc' →
  enforce_workspace (acl cfg) = true → owned cfg svc id' ws → workspace_id ctx ≠ ws →
  untouched cfg svc svc' id'.
Proof.
  intros [[_ Hu] Hg] Hacl How Hne. destruct (decide (id' = id)) as [->|]; [|by apply Hu].
  by destruct (Hg ws Hacl How Hne) as [-> _].
Qed.

Lemma untouched_owned cfg svc svc' id ws :
  untouched cfg svc svc' id → owned cfg svc id ws → owned cfg svc' id ws.
Proof. intros Hu (e & He & Hws). exists e. by rewrite (untouched_payload _ _ _ _ Hu). Qed.

(** A step keeps the invariant and what other workspaces own. *)
Definition respects cfg ctx svc svc' : Prop :=
  service_wf cfg svc' ∧
  ∀ id ws, enforce_workspace (acl cfg) = true → owned cfg svc id ws → workspace_id ctx ≠ ws →
    untouched cfg svc svc' id.

Lemma guarded_respects {A} cfg ctx id svc (r : option (result Status A)) svc' :
  guarded cfg ctx id svc r svc' → respects cfg ctx svc svc'.
Proof. intros Hg. split; [apply Hg|]. intros. by eapply guarded_untouched. Qed.

Lemma respects_refl cfg ctx svc : service_wf cfg svc → respects cfg ctx svc svc.
Proof. done. Qed.

Lemma respects_trans cfg ctx svc svc1 svc2 :
  respects cfg ctx svc svc1 → respects cfg ctx svc1 svc2 → respects cfg ctx svc svc2.
Proof.
  intros [_ R1] [Hwf R2]. split; [done|]. intros id ws Hacl How Hne.
  pose proof (R1 id ws Hacl How Hne) as Hu.
  apply (@transitivity _ _ (@PreOrder_Transitive _ _ (untouched_preorder cfg id)) svc svc1 svc2); [done|].
  eapply R2; [done| |done]. by eapply untouched_owned.
Qed.

Lemma serve_respects cfg svc ctx req :
  service_wf cfg svc → respects cfg ctx svc (serve cfg svc (ctx, req)).
Proof.
  intros Hwf. apply serve_closed; [done|..|by apply respects_refl].
  - intros id v metadata text now svc1 Hr. eapply respects_trans; [exact Hr|].
    destruct (insert_locked _ _ _ _ _ _ _ _) eqn:E.
    eapply guarded_respects, insert_locked_guarded; [apply Hr|exact E].
  - intros id v metadata now svc1 Hr. eapply respects_trans; [exact Hr|].
    destruct (update_locked _ _ _ _ _ _ _) eqn:E.
    eapply guarded_respects, update_locked_guarded; [apply Hr|exact E].
  - intros id now svc1 Hr. eapply respects_trans; [exact Hr|].
    destruct (delete_locked _ _ _ _ _) eqn:E.
    eapply guarded_respects, delete_locked_guarded; [apply Hr|exact E].
Qed.

Lemma serve_all_untouched cfg calls id ws : ∀ svc,
  enforce_workspace (acl cfg) = true → service_wf cfg svc → owned cfg svc id ws →
  Forall (λ c, workspace_id c.1 ≠ ws) calls →
  service_wf cfg (foldl (serve cfg) svc calls) ∧ untouched cfg svc (foldl (serve cfg) svc calls) id.
Proof.
  intros svc Hacl Hwf How Hc. revert svc Hwf How.
  induction Hc as [|[ctx req] calls Hne _ IH]; intros svc Hwf How; [done|].
  cbn [foldl]. destruct (serve_respects cfg svc ctx req Hwf) as [Hwf1 Hr].
  pose proof (Hr id ws Hacl How Hne) as Hu.
  destruct (IH _ Hwf1 (untouched_owned _ _ _ _ _ Hu How)) as [Hwf2 Hu2]. split; [done|].
  by apply (@transitivity _ _ (@PreOrder_Transitive _ _ (untouched_preorder cfg id)) svc (serve cfg svc (ctx, req))).
Qed.

(** *** A successful insertion *)

(** What the service holds of a vector. *)
Definition holds cfg svc id i (v : vector) (metadata : string) (text : option string) : Prop :=
  live_id cfg svc id = Some i ∧
  (∃ created updated, payload cfg svc id = Some (mkStored id i v metadata created updated false)) ∧
  VectorIndex.visible (index svc) id = Some (vi_kept (I:=I) v) ∧
  view svc !! make_text_key (collection cfg) id = text ∧
  indexed (lexical svc) id (text_tokens (default "" text)) ∧
  documents svc !! id = text.

Lemma stored_holds cfg svc id v metadata text now i svc' :
  service_wf cfg svc → stored cfg svc id v metadata text now (Some (Ok i)) svc' →
  live_id cfg svc' id = Some i ∧
  (∃ created updated, payload cfg svc' id = Some (mkStored id i v metadata created updated false)) ∧
  VectorIndex.visible (index svc') id = Some (vi_kept (I:=I) v) ∧
  view svc' !! make_text_key (collection cfg) id
  = text_after (view svc !! make_text_key (collection cfg) id) text.
Proof.
  intros [Hwf _] Hst. inversion Hst as [| |i' x e s Hi Hu]; subst.
  apply upsert_effect in Hu as [[_ Hf] | (e' & Hd & <- & _ & Hw)]; [done|].
  unfold live_id, payload, view. cbn. split_and!.
  - rewrite (wrote_live _ _ _ _ _ _ _ _ Hw), decide_True by done. by rewrite Hd.
  - destruct Hw as (_ & _ & -> & _). eauto.
  - rewrite (visible_insert _ _ _ _ _ id Hwf Hi). by rewrite decide_True.
  - by destruct Hw as (_ & _ & _ & ->).
Qed.

(** The text in memory and in the lexical index follow the text in the store. *)
Lemma stored_synced cfg svc id v metadata text now i svc' p :
  service_wf cfg svc → stored cfg svc id v metadata (Some text) now (Some (Ok i)) svc' →
  holds cfg (with_projections (sync_source_text svc' id text) p) id i v metadata
    (if String.eqb text "" then None else Some text).
Proof.
  intros Hwf Hst. destruct (stored_holds _ _ _ _ _ _ _ _ _ Hwf Hst) as (Hl & Hp & Hv & Ht).
  destruct (stored_confined _ _ _ _ _ _ _ _ _ Hwf Hst) as [[(_ & _ & Hlex) _] _].
  pose proof (sync_changed svc' id text Hlex) as (_ & Hi & _).
  assert (∀ o, text_after o (Some text) = if String.eqb text "" then None else Some text) as Hafter
    by (by destruct text).
  rewrite Hafter in Ht. unfold holds, live_id, payload, view, sync_source_text, text_tokens in *.
  destruct (String.eqb text "") eqn:E; cbn in *; rewrite ?E; split_and!; try done.
  - apply lookup_delete_eq.
  - apply lookup_insert_eq.
Qed.

Lemma insert_locked_ok cfg ctx id v metadata text now svc i svc' :
  service_wf cfg svc →
  insert_locked cfg ctx id v metadata text now svc = (Some (Ok i), svc') →
  holds cfg svc' id i v metadata (if String.eqb text "" then None else Some text).
Proof.
  intros Hwf. unfold insert_locked.
  destruct (ensure_insert_does_not_cross_workspace _ _ _ _) as [m|]; [|done].
  destruct (IdMapping.is_deleted _ _ _ _) as [[]|]; [done| |done].
  destruct (read_internal_id cfg svc id) as [old|] eqn:Eo; [|done].
  destruct (index_and_store _ _ _ _ _ _ _ _) as [r1 svc1] eqn:Es.
  apply (index_and_store_cases _ _ _ _ _ _ _ _ _ _ Hwf Eo) in Es.
  destruct r1 as [[i1|]|]; [|done..].
  destruct (index_graph_chunk _ _ _ _) as [[]  p]; [|done]. intros [= <- <-].
  by apply (stored_synced cfg svc id v metadata text now i1 svc1 _ Hwf Es).
Qed.

Lemma prepare_write_ok cfg ctx id v metadata stamped :
  invalid_argument (prepare_write cfg ctx id v metadata) = Ok stamped →
  validate_vector_id id = Ok tt ∧
  stamp_write_metadata metadata ctx (acl cfg) (embedding_model_id cfg) = Ok stamped.
Proof.
  unfold prepare_write, validate_vector_payload.
  destruct (validate_vector_id id) as [[]|]; [|done]. cbn [result_bind].
  destruct (validate_vector_values v); [|done]. cbn [result_bind].
  destruct (validate_metadata_json metadata); [|done]. cbn [result_bind].
  destruct (stamp_write_metadata _ _ _ _); [|done]. by intros [= ->].
Qed.

Lemma insert_inner_ok cfg svc ctx req now resp svc' :
  service_wf cfg svc → insert_inner cfg svc ctx req now = (Some (Ok resp), svc') →
  ∃ stamped,
    collection cfg ≠ "" ∧ validate_vector_id (ir_id req) = Ok tt ∧
    stamp_write_metadata (ir_metadata req) ctx (acl cfg) (embedding_model_id cfg) = Ok stamped ∧
    service_wf cfg svc' ∧
    holds cfg svc' (ir_id req) (ins_internal_id resp) (ir_vector req) stamped
      (if String.eqb (ir_text req) "" then None else Some (ir_text req)).
Proof.
  intros Hwf. unfold insert_inner, validate_request_collection.
  destruct (String.eqb_spec (ir_collection req) ""); [done|].
  destruct (String.eqb_spec (ir_collection req) (collection cfg)); [|by destruct (registered _ _)].
  destruct (invalid_argument _) as [stamped|] eqn:Ep; [|done].
  apply prepare_write_ok in Ep as [Hid Hst]. unfold with_lock. case_decide; [done|].
  destruct (insert_locked _ _ _ _ _ _ _ _) as [[[i|]|] svc1] eqn:E; [|done..].
  intros [= <- <-]. exists stamped.
  assert (service_wf cfg (with_locks svc ({[ir_id req]} ∪ mutation_locks svc))) as Hwf' by exact Hwf.
  split_and!; [congruence|done..| |].
  - exact (proj1 (proj1 (insert_locked_guarded _ _ _ _ _ _ _ _ _ _ Hwf' E))).
  - exact (insert_locked_ok _ _ _ _ _ _ _ _ _ _ Hwf' E).
Qed.

Lemma stamped_owned `{!JsonLaws} cfg svc ctx metadata model id i v text b :
  enforce_workspace (acl cfg) = true →
  stamp_write_metadata metadata ctx (acl cfg) model = Ok b →
  holds cfg svc id i v b text → owned cfg svc id (workspace_id ctx).
Proof.
  intros Hacl Hb (_ & (c & u & Hp) & _). eexists. split; [exact Hp|]. cbn.
  apply write_stamps in Hb as (Hne & m & Hm & Hget); [|done]. apply String.eqb_neq in Hne.
  unfold metadata_value_from_bytes, metadata_in_workspace, value_get. rewrite Hne, Hm, Hget.
  apply String.eqb_refl.
Qed.

Lemma holds_untouched cfg svc svc' id i v metadata text :
  untouched cfg svc svc' id → holds cfg svc id i v metadata text → holds cfg svc' id i v metadata text.
Proof.
  intros Hu. unfold holds.
  rewrite (untouched_live _ _ _ _ Hu), (untouched_payload _ _ _ _ Hu).
  destruct Hu as (Hk & -> & Ht & ->). unfold make_text_key.
  rewrite Hk by (unfold is_prefix; auto). intros (? & ? & ? & ? & Hi & ?).
  split_and!; try done. by apply (same_indexed _ _ _ _ Ht).
Qed.

(** Reading what is held, from a store that answers. *)
Lemma get_held `{!StorageReliable S} cfg svc ctx id i v metadata text :
  (∀ (x : I) j, is_ok (vi_get_vector x j) = true) →
  collection cfg ≠ "" → validate_vector_id id = Ok tt → service_wf cfg svc →
  holds cfg svc id i v metadata text → metadata_in_auth_workspace (acl cfg) metadata ctx = true →
  get_inner cfg svc ctx (mkGet (collection cfg) id)
  = Ok (mkGetResponse id (vi_kept (I:=I) v) (from_utf8_lossy metadata) true).
Proof.
  intros Hget Hcoll Hid (Hwf & Hids & _) (Hl & (c & u & Hp) & Hv & _) Hws. pose proof (Hids _ _ Hl) as Hi.
  unfold get_inner, validate_request_collection. cbn [gr_collection gr_id].
  rewrite (proj2 (String.eqb_neq _ _) Hcoll), String.eqb_refl. cbn [result_bind].
  rewrite Hid. cbn [invalid_argument result_bind].
  assert (existing_vector_metadata cfg svc id = Ok (Some metadata)) as Hm.
  { unfold existing_vector_metadata, get_vector_including_deleted. rewrite get_eq.
    unfold payload, lookup_payload, view in Hp. cbn [result_bind].
    destruct (sb_view (store svc) !! _) as [d|]; [|done]. cbn in Hp. by rewrite Hp. }
  unfold ensure_existing_vector_access. rewrite Hm. cbn [result_bind foreign]. rewrite Hws.
  cbn [negb result_bind].
  assert (read_internal_id cfg svc id = Ok (Some i)) as Hr.
  { unfold read_internal_id, get_internal_id, get. rewrite get_eq. cbn [result_bind].
    unfold live_id, live, lookup_mapping, view in Hl.
    destruct (sb_view (store svc) !! _) as [d|]; [|done]. cbn in Hl.
    destruct (de_mapping d) as [e|]; [|done]. cbn in *. by destruct (deleted e); [|injection Hl as ->]. }
  rewrite Hr. cbn [map_status result_bind].
  assert (read_vector cfg svc id = Ok (Some (mkStored id i v metadata c u false))) as Hrv.
  { unfold read_vector, IdMapping.get_vector. unfold read_internal_id in Hr. rewrite Hr.
    cbn [result_bind]. rewrite get_eq. unfold payload, lookup_payload, view in Hp. cbn [result_bind].
    destruct (sb_view (store svc) !! _) as [d|]; [|done]. cbn in Hp. by rewrite Hp. }
  rewrite Hrv. cbn [map_status result_bind].
  destruct (vi_get_vector (index svc) i) as [o|] eqn:Eg; [|by specialize (Hget (index svc) i); rewrite Eg in Hget].
  apply vi_get_vector_ok in Eg; [|done]. unfold VectorIndex.visible in Hv. rewrite Hi in Hv. cbn in Hv.
  rewrite Hv in Eg. subst o. done.
Qed.

(** C9: Workspaces do not interfere. After a caller inserted a vector, no
    sequence of inserts, batches, updates and deletes by callers of other
    workspaces, on whatever ids and however the storage fails in between, changes
    what the service keeps of it: the mapping, the payload and the text in the
    store, the vector in the index, its entry in the lexical index, the text in
    memory. When the store and the index answer, a read by a caller of the
    workspace returns the vector, at the precision the index keeps, and its
    metadata. *)
Theorem workspaces_do_not_interfere `{!JsonLaws} cfg svc ctx req now resp svc0 calls ctx' :
  enforce_workspace (acl cfg) = true → service_wf cfg svc →
  insert_inner cfg svc ctx req now = (Some (Ok resp), svc0) →
  Forall (λ c, workspace_id c.1 ≠ workspace_id ctx) calls →
  workspace_id ctx' = workspace_id ctx →
  let svc' := foldl (serve cfg) svc0 calls in
  service_wf cfg svc' ∧ untouched cfg svc0 svc' (ir_id req) ∧
  ∃ stamped,
    stamp_write_metadata (ir_metadata req) ctx (acl cfg) (embedding_model_id cfg) = Ok stamped ∧
    (StorageReliable S → (∀ (x : I) j, is_ok (vi_get_vector x j) = true) →
     get_inner cfg svc' ctx' (mkGet (collection cfg) (ir_id req))
     = Ok (mkGetResponse (ir_id req) (vi_kept (I:=I) (ir_vector req)) (from_utf8_lossy stamped) true)).
Proof.
  intros Hacl Hwf Hins Hcalls Hctx.
  apply insert_inner_ok in Hins as (stamped & Hcoll & Hid & Hst & Hwf0 & Hh); [|done].
  pose proof (stamped_owned _ _ _ _ _ _ _ _ _ _ Hacl Hst Hh) as How.
  destruct (serve_all_untouched cfg calls _ _ svc0 Hacl Hwf0 How Hcalls) as [Hwf' Hu].
  split_and!; [done..|]. exists stamped. split; [done|]. intros Hrel Hget.
  eapply get_held; [done..|by eapply holds_untouched|].
  apply write_stamps in Hst as (Hne & m & Hm & Hws); [|done]. apply String.eqb_neq in Hne.
  unfold metadata_in_auth_workspace, metadata_value_from_bytes, metadata_in_workspace, value_get.
  rewrite Hacl, Hne, Hm, Hws, Hctx. cbn [negb orb]. apply String.eqb_refl.
Qed.

(** C38: An insertion or update of a vector that is live and served, whose durable
    write fails without effect, removes the vector from the index although the
    store still has it: the index replaces a known id in place, so the rollback
    deletes the vector that was there before. *)
Theorem failed_write_hides_vector cfg svc id v metadata text old now e :
  service_wf cfg svc → read_internal_id cfg svc id = Ok (Some old) →
  (vi_insert (index svc) id v).1 = Some (Ok old) →
  upsert_with_vector_and_text ser_mapping de_mapping ser_vector (store svc) (collection cfg) id old v
    metadata text now.1.1 now.1.2 now.2 = (Err e, store svc) →
  is_ok (vi_delete (vi_insert (index svc) id v).2 old).1 = true →
  let '(r, svc') := index_and_store cfg svc id v metadata text (Some old) now in
  r = Some (Err (to_status e)) ∧ store svc' = store svc ∧
  live_id cfg svc' id = Some old ∧ VectorIndex.visible (index svc') id = None.
Proof.
  intros (Hwf & Hids & _) Hold Hi Hu Hdel. unfold index_and_store.
  destruct (vi_insert (index svc) id v) as [r x] eqn:Ei. cbn in Hi, Hdel. subst r.
  destruct now as [[n1 n2] n3]. cbn in Hu. rewrite Hu. split_and!; [done..| |].
  - by apply read_internal_id_live in Hold.
  - destruct (vi_insert_ok _ _ _ _ _ Hwf Ei) as (Hwf' & Hi' & _). cbn.
    assert (vi_ids x !! id = Some old) as Hid by (rewrite Hi'; apply lookup_insert_eq).
    destruct (vi_delete x old) as [[[]|] x'] eqn:Ed; [|done].
    rewrite (visible_delete x id old x' id) by done. by rewrite decide_True.
Qed.
End properties.

(** ** A store and an index that do not fail *)

(** A refused insertion changes nothing and an assigned id can be deleted. *)
Class VectorIndexFirm (I : Type) `{!VectorIndex I, !VectorIndexLaws I} := {
  firm_insert_err (x : I) id v e x' :
    vi_wf x → vi_insert x id v = (Some (Err e), x') → vi_ids x' = vi_ids x ∧ vi_vecs x' = vi_vecs x;
  firm_delete (x : I) id i : vi_wf x → vi_ids x !! id = Some i → is_ok (vi_delete x i).1 = true;
}.

#[global] Instance firm_ids {I : Type} `{!VectorIndex I, !VectorIndexLaws I, !VectorIndexFirm I} :
  VectorIndexIds I.
Proof. intros x id v e x' Hwf Hi. by apply (firm_insert_err x id v e). Qed.

Class IdCodecTotal `{!IdCodec} := {
  ser_mapping_total e : is_Some (ser_mapping e);
  ser_vector_total v : is_Some (ser_vector v);
}.

Section agreement.
Context {I S P : Type} `{!VectorIndex I, !VectorIndexLaws I, !VectorIndexCalm I, !VectorIndexFirm I}.
Context `{!StorageBackend S, !StorageLaws S, !StorageReliable S, !Projections P}.
Context `{!IdCodec, !IdCodecLaws, !IdCodecTotal, !Json, !CharTables, !HashOrder}.
Implicit Types (cfg : Config) (svc : Service I S P) (ctx : AuthContext).

(** Nothing is served under the id. *)
Definition absent cfg svc id : Prop :=
  live_id cfg svc id = None ∧ VectorIndex.visible (index svc) id = None ∧
  view svc !! make_text_key (collection cfg) id = None ∧
  indexed (lexical svc) id [] ∧ documents svc !! id = None.

(** The store, the two indices and the texts in memory agree on the id. *)
Definition settled cfg svc id : Prop :=
  (∃ i v metadata text, holds cfg svc id i v metadata text) ∨ absent cfg svc id.

Record agrees cfg svc : Prop := {
  ag_wf : service_wf cfg svc;
  ag_store : store_wf de_mapping de_vector (view svc);
  ag_settled id : settled cfg svc id;
}.

Lemma settled_untouched cfg svc svc' id :
  untouched cfg svc svc' id → settled cfg svc id → settled cfg svc' id.
Proof.
  intros Hu [(i & v & metadata & text & Hh) | (Hl & Hv & Ht & Hi & Hd)].
  - left. exists i, v, metadata, text. by eapply holds_untouched.
  - right. unfold absent. rewrite (untouched_live _ _ _ _ Hu). destruct Hu as (Hk & -> & Hs & ->).
    unfold make_text_key in *. rewrite Hk by (unfold is_prefix; auto). split_and!; try done.
    by apply (same_indexed _ _ _ _ Hs).
Qed.

Lemma agrees_confined cfg svc svc' id :
  agrees cfg svc → confined cfg id svc svc' → store_wf de_mapping de_vector (view svc') →
  settled cfg svc' id → agrees cfg svc'.
Proof.
  intros Ha [Hwf Hu] Hst Hid. split; [done..|]. intros id'.
  destruct (decide (id' = id)) as [->|]; [done|]. eapply settled_untouched; [by apply Hu|].
  by apply ag_settled.
Qed.

(** With such a store a write fails only for a deleted id, and without effect. *)
Lemma upsert_refused cfg svc id i v metadata text n1 n2 n3 e s :
  store_wf de_mapping de_vector (view svc) →
  upsert_with_vector_and_text ser_mapping de_mapping ser_vector (store svc) (collection cfg) id i v
    metadata text n1 n2 n3 = (Err e, s) →
  sb_view s = view svc ∧ live_id cfg svc id = None.
Proof.
  intros Hst Hu. split.
  - apply upsert_effect in Hu as [[Hs _] | (e' & _ & _ & Hrel & _)]; [done|].
    by specialize (Hrel StorageReliable0).
  - destruct (IdMapping.is_deleted de_mapping (store svc) (collection cfg) id) as [[]|] eqn:Ed.
    + unfold IdMapping.is_deleted in Ed. destruct (get _ _ _ _) as [o|] eqn:Eg; [|done].
      destruct (get_view de_mapping _ _ _ _ Eg) as [-> _]. unfold live_id, live. cbn in Ed.
      fold (view svc) in Ed. destruct (lookup_mapping _ _ _ _) as [y|]; [|done]. cbn.
      by injection Ed as ->.
    + destruct (upsert_succeeds ser_mapping de_mapping ser_vector de_vector (store svc)
        (collection cfg) id i v metadata text n1 n2 n3 Hst ser_mapping_total ser_vector_total Ed)
        as (? & ? & ? & E & _). by rewrite Hu in E.
    + exfalso. unfold IdMapping.is_deleted, get in Ed. rewrite get_eq in Ed. cbn [result_bind] in Ed.
      destruct (sb_view (store svc) !! _) as [d|] eqn:E; [|done].
      destruct (proj1 (Hst (collection cfg) id) d E) as [y Hy]. by rewrite Hy in Ed.
Qed.

Lemma upsert_store_wf cfg svc id i v metadata text n1 n2 n3 r s :
  store_wf de_mapping de_vector (view svc) →
  upsert_with_vector_and_text ser_mapping de_mapping ser_vector (store svc) (collection cfg) id i v
    metadata text n1 n2 n3 = (r, s) → store_wf de_mapping de_vector (sb_view s).
Proof.
  intros Hst Hu. eapply (store_wf_step ser_mapping de_mapping ser_vector de_vector
    mapping_roundtrip vector_roundtrip); [|exact Hst].
  pose proof (upsert_step ser_mapping de_mapping ser_vector de_vector mapping_roundtrip
    vector_roundtrip (store svc) (collection cfg) id i v metadata text n1 n2 n3) as Hs.
  by rewrite Hu in Hs.
Qed.

(** A write that does not succeed leaves the id as it was served. *)
Lemma stored_agrees cfg svc id v metadata text now r svc' :
  agrees cfg svc → stored cfg svc id v metadata text now r svc' →
  store_wf de_mapping de_vector (view svc') ∧ (is_ok <$> r = Some true ∨ settled cfg svc' id).
Proof.
  intros [Hwf Hst Hs] Hd. pose proof Hwf as (Hiwf & Hids & _).
  destruct Hd as [e x Hi | i x e s Hi Hu | i x e s Hi Hu].
  - split; [done|]. right. eapply settled_untouched; [|apply (Hs id)]. split; [done|]. split; [|done].
    destruct (firm_insert_err _ _ _ _ _ Hiwf Hi) as [E1 E2]. cbn. unfold VectorIndex.visible.
    by rewrite E1, E2.
  - pose proof (upsert_store_wf _ _ _ _ _ _ _ _ _ _ _ _ Hst Hu) as Hst'.
    apply upsert_refused in Hu as [Hv Hl]; [|done]. split; [done|]. right. right.
    destruct (Hs id) as [(j & ? & ? & ? & Hj & _) | (_ & _ & Ht & Hlx & Hdoc)]; [congruence|].
    unfold absent, live_id, view. cbn. rewrite Hv. split; [done|]. split; [|done].
    destruct (vi_insert_ok _ _ _ _ _ Hiwf Hi) as (Hiwf' & Hids' & _).
    assert (vi_ids x !! id = Some i) as Hid by (rewrite Hids'; apply lookup_insert_eq).
    pose proof (firm_delete x id i Hiwf' Hid) as Hok.
    destruct (vi_delete x i) as [[[]|] x'] eqn:Ed; [|done].
    rewrite (visible_delete x id i x' id) by done. by rewrite decide_True.
  - split; [by eapply upsert_store_wf|by left].
Qed.

Lemma insert_locked_agrees cfg ctx id v metadata text now svc r svc' :
  agrees cfg svc → insert_locked cfg ctx id v metadata text now svc = (r, svc') → agrees cfg svc'.
Proof.
  intros Ha Hr. destruct (insert_locked_guarded _ _ _ _ _ _ _ _ _ _ (ag_wf _ _ Ha) Hr) as [Hc _].
  revert Hr. unfold insert_locked.
  destruct (ensure_insert_does_not_cross_workspace _ _ _ _) as [m|]; [|by intros [= <- <-]].
  destruct (IdMapping.is_deleted _ _ _ _) as [[]|]; [by intros [= <- <-]| |by intros [= <- <-]].
  destruct (read_internal_id cfg svc id) as [old|] eqn:Eo; [|by intros [= <- <-]].
  destruct (index_and_store _ _ _ _ _ _ _ _) as [r1 svc1] eqn:Es.
  apply (index_and_store_cases _ _ _ _ _ _ _ _ _ _ (ag_wf _ _ Ha) Eo) in Es.
  destruct (stored_agrees _ _ _ _ _ _ _ _ _ Ha Es) as [Hst Hs]. intros Hr.
  destruct r1 as [[i|]|].
  - assert (∃ p, svc' = with_projections (sync_source_text svc1 id text) p) as [p ->].
    { destruct (index_graph_chunk _ _ _ _) as [[]  p]; injection Hr as <- <-; eauto. }
    eapply agrees_confined; [done..| |].
    + unfold sync_source_text, view. by destruct (String.eqb text "").
    + left. eexists _, _, _, _. by apply (stored_synced cfg svc id v metadata text now i svc1 p (ag_wf _ _ Ha)).
  - injection Hr as <- <-. destruct Hs; [done|]. by eapply agrees_confined.
  - injection Hr as <- <-. destruct Hs; [done|]. by eapply agrees_confined.
Qed.

Lemma stored_kept_text cfg svc id v metadata now i svc' p :
  agrees cfg svc → stored cfg svc id v metadata None now (Some (Ok i)) svc' →
  ∃ text, holds cfg (with_projections svc' p) id i v metadata text.
Proof.
  intros Ha Hst. destruct (stored_holds _ _ _ _ _ _ _ _ _ (ag_wf _ _ Ha) Hst) as (Hl & Hp & Hv & Ht).
  destruct (stored_confined _ _ _ _ _ _ _ _ _ (ag_wf _ _ Ha) Hst) as [_ Hd].
  exists (documents svc !! id). destruct Hd as [Hd Hlx].
  unfold holds, live_id, payload, view in *. cbn. rewrite Hd, Hlx, Ht. cbn.
  destruct (ag_settled _ _ Ha id)
    as [(? & ? & ? & ? & _ & _ & _ & E & Hi & E') | (_ & _ & E & Hi & E')];
    unfold view in E; rewrite E, E'; by split_and!.
Qed.

Lemma update_locked_agrees cfg ctx id v metadata now svc r svc' :
  agrees cfg svc → update_locked cfg ctx id v metadata now svc = (r, svc') → agrees cfg svc'.
Proof.
  intros Ha Hr. destruct (update_locked_guarded _ _ _ _ _ _ _ _ _ (ag_wf _ _ Ha) Hr) as [Hc _].
  revert Hr. unfold update_locked, do_update_locked.
  destruct (ensure_existing_vector_access _ _ _ _) as [m|]; [|by intros [= <- <-]].
  destruct (read_internal_id cfg svc id) as [old|] eqn:Eo; [|by intros [= <- <-]].
  destruct (read_vector cfg svc id) as [entry|]; [|by intros [= <- <-]].
  destruct (index_and_store _ _ _ _ _ _ _ _) as [r1 svc1] eqn:Es.
  apply (index_and_store_cases _ _ _ _ _ _ _ _ _ _ (ag_wf _ _ Ha) Eo) in Es.
  destruct (stored_agrees _ _ _ _ _ _ _ _ _ Ha Es) as [Hst Hs]. intros Hr.
  destruct r1 as [[i|]|].
  - assert (∃ p, svc' = with_projections svc1 p) as [p ->].
    { destruct (index_graph_chunk _ _ _ _) as [[]  p]; injection Hr as <- <-; eauto. }
    eapply agrees_confined; [done..|]. left.
    destruct (stored_kept_text _ _ _ _ _ _ _ _ p Ha Es) as [text Hh]. eauto.
  - injection Hr as <- <-. destruct Hs; [done|]. by eapply agrees_confined.
  - injection Hr as <- <-. destruct Hs; [done|]. by eapply agrees_confined.
Qed.

Lemma mark_deleted_store_wf cfg svc id n1 n2 r s :
  store_wf de_mapping de_vector (view svc) →
  IdMapping.mark_deleted ser_mapping de_mapping ser_vector de_vector (store svc) (collection cfg) id
    n1 n2 = (r, s) → store_wf de_mapping de_vector (sb_view s).
Proof.
  intros Hst Hm. eapply (store_wf_step ser_mapping de_mapping ser_vector de_vector
    mapping_roundtrip vector_roundtrip); [|exact Hst].
  pose proof (mark_deleted_step ser_mapping de_mapping ser_vector de_vector mapping_roundtrip
    vector_roundtrip (store svc) (collection cfg) id n1 n2) as Hs.
  by rewrite Hm in Hs.
Qed.

(** A deletion that does not take effect leaves the store. *)
Lemma mark_deleted_outcome cfg svc id n1 n2 r s :
  IdMapping.mark_deleted ser_mapping de_mapping ser_vector de_vector (store svc) (collection cfg) id
    n1 n2 = (r, s) →
  match r with
  | Ok (Some i) => live_id cfg svc id = Some i ∧
      live de_mapping (sb_view s) (collection cfg) id = None ∧
      sb_view s !! make_text_key (collection cfg) id = None
  | _ => sb_view s = view svc
  end.
Proof.
  intros [[Hs Hr] | (e & He & Hd & Hrel & Hi & Hnone & Hw)]%delete_effect.
  - destruct r as [[i|]|]; [by destruct (Hr i)|done..].
  - specialize (Hrel StorageReliable0). destruct r as [[i|]|]; [|done..].
    specialize (Hi i eq_refl) as ->. split_and!.
    + unfold live_id, live. rewrite He. cbn. by rewrite Hd.
    + rewrite (wrote_live _ _ _ _ _ _ _ _ Hw), decide_True by done. done.
    + by destruct Hw as (_ & _ & _ & ->).
Qed.

Lemma delete_locked_agrees cfg ctx id now svc r svc' :
  agrees cfg svc → delete_locked cfg ctx id now svc = (r, svc') → agrees cfg svc'.
Proof.
  intros Ha Hr. destruct (delete_locked_guarded _ _ _ _ _ _ _ (ag_wf _ _ Ha) Hr) as [Hc _].
  revert Hr. unfold delete_locked.
  destruct (ensure_existing_vector_access _ _ _ _) as [m|]; [|by intros [= <- <-]].
  destruct (match m with Some _ => _ | None => _ end) as [g p].
  destruct g; [|intros [= <- <-]; by eapply agrees_confined; [| |apply Ha|apply (ag_settled _ _ Ha)]].
  destruct now as [[n1 n2] n3].
  destruct (IdMapping.mark_deleted _ _ _ _ _ _ _ _ _) as [rd s] eqn:Ed.
  cbn [store with_projections] in Ed.
  pose proof (mark_deleted_store_wf cfg svc id n1 n2 rd s (ag_store _ _ Ha) Ed) as Hst.
  pose proof (mark_deleted_outcome cfg svc id n1 n2 rd s Ed) as Ho.
  assert (∀ svc2, sb_view s = view svc → store svc2 = s → index svc2 = index svc →
            documents svc2 = documents svc → lexical svc2 = lexical svc → settled cfg svc2 id) as Hkeep.
  { intros svc2 Hs E1 E2 E3 E4. eapply settled_untouched; [|apply (ag_settled _ _ Ha id)].
    unfold untouched, view. by rewrite E1, E2, E3, E4, Hs. }
  destruct rd as [[i|]|];
    [|intros [= <- <-]; eapply agrees_confined; [done..|by apply Hkeep]..].
  destruct Ho as (Hl & Hl' & Ht). destruct (ag_wf _ _ Ha) as (Hiwf & Hids & Hlex).
  pose proof (firm_delete _ _ _ Hiwf (Hids _ _ Hl)) as Hok. cbn [index with_store with_projections].
  destruct (vi_delete (index svc) i) as [[[]|] x] eqn:Ex; [|done]. intros [= <- <-].
  eapply agrees_confined; [done..|]. right. unfold absent, live_id, view. cbn.
  split_and!; [done| |done| |apply lookup_delete_eq].
  - rewrite (visible_delete (index svc) id i x id Hiwf (Hids _ _ Hl) Ex). by rewrite decide_True.
  - by destruct (remove_changed (lexical svc) id Hlex) as (_ & ? & _).
Qed.

Lemma serve_agrees cfg svc call : agrees cfg svc → agrees cfg (serve cfg svc call).
Proof.
  destruct call as [ctx req]. apply serve_closed.
  - by intros svc1 l [].
  - intros. destruct (insert_locked _ _ _ _ _ _ _ _) eqn:E. by eapply insert_locked_agrees.
  - intros. destruct (update_locked _ _ _ _ _ _ _) eqn:E. by eapply update_locked_agrees.
  - intros. destruct (delete_locked _ _ _ _ _) eqn:E. by eapply delete_locked_agrees.
Qed.

(** C10: The derived state agrees with the store. From an empty service, after any
    requests by any callers and whatever the graph projection reports, every id is
    either live, and then the store has its vector and text, the index the vector at
    the precision it keeps, the lexical index exactly the tokens of the text, and the
    memory the text, and a read by a caller of its workspace returns that vector
    with its metadata; or it is in none of them. *)
Theorem projections_agree cfg svc0 calls :
  view svc0 = ∅ → vi_wf (index svc0) → (∀ id, VectorIndex.visible (index svc0) id = None) →
  documents svc0 = ∅ → lists (lexical svc0) ∅ →
  let svc := foldl (serve cfg) svc0 calls in
  ∀ id,
    absent cfg svc id ∨
    ∃ i v metadata text, holds cfg svc id i v metadata text ∧
      ((∀ (x : I) j, is_ok (vi_get_vector x j) = true) →
       ∀ ctx, collection cfg ≠ "" → validate_vector_id id = Ok tt →
         metadata_in_auth_workspace (acl cfg) metadata ctx = true →
         get_inner cfg svc ctx (mkGet (collection cfg) id)
         = Ok (mkGetResponse id (vi_kept (I:=I) v) (from_utf8_lossy metadata) true)).
Proof.
  intros Hv Hx Hi Hd Hlx svc id. assert (agrees cfg svc) as Ha.
  { subst svc. assert (agrees cfg svc0) as Hinit.
    - split.
      + split; [done|]. split; [|by exists ∅]. intros id' i. unfold live_id. rewrite Hv. done.
      + rewrite Hv. apply store_wf_empty.
      + intros id'. right. unfold absent, live_id. rewrite Hv, Hd, Hi.
        split_and!; try done. apply (lists_indexed _ _ id' Hlx).
    - clear Hv Hx Hi Hd Hlx. revert svc0 Hinit. induction calls as [|c calls IH]; intros svc0 Hinit; [done|].
      cbn. by apply IH, serve_agrees. }
  destruct (ag_settled _ _ Ha id) as [(i & v & metadata & text & Hh) | Hab]; [|by left].
  right. exists i, v, metadata, text. split; [done|]. intros Hget ctx Hc Hid Hws.
  by eapply get_held; [..|apply Ha|exact Hh|].
Qed.
End agreement.

(** ** A concrete service *)

#[global] Instance mock_firm : VectorIndexFirm MockIndex.
Proof.
  split.
  - intros x id v e x' Hwf Hi. by destruct (mock_insert_spec _ _ _ _ _ Hwf Hi) as [_ ->].
  - intros x id i Hwf Hid. cbn. destruct (mock_delete x i) as [r x'] eqn:E.
    by destruct (mock_delete_spec _ _ _ _ _ Hwf Hid E) as [-> _].
Qed.

Module ServiceExamples.
Import Lexical.Example1 FilterExamples.
#[local] Existing Instance toy_json.
#[local] Existing Instance toy_json_laws.

(** A store that reads but cannot write. *)
Record FullDisk := mkFullDisk { contents : gmap string string }.

#[local] Instance full_disk : RocksDB FullDisk := {
  db_get d k := Ok (contents d !! k);
  db_put d k v := (Err "no space", d);
  db_delete d k := (Err "no space", d);
  db_write d _ ops := (Err "no space", d);
  db_iterator d start := Ok <$> entries_from (contents d) start;
  db_prefix_iterator d pre := Ok <$> entries_from (contents d) pre;
  db_flush d := (Err "no space", d);
}.

#[local] Program Instance full_disk_laws : RocksDBLaws FullDisk := { db_view := contents }.
Next Obligation. naive_solver. Qed.
Next Obligation. intros ????? [= <- <-]. by left. Qed.
Next Obligation. intros ???? [= <- <-]. by left. Qed.
Next Obligation. intros ????? [= <- <-]. by left. Qed.
Next Obligation. by left. Qed.
Next Obligation. by left. Qed.
Next Obligation. by intros ??? [= <- <-]. Qed.

#[local] Instance codec : IdCodec := {|
  ser_mapping := code_serialize; de_mapping := code_deserialize;
  ser_vector := code_serialize; de_vector := code_deserialize;
|}.

#[local] Instance codec_laws : IdCodecLaws.
Proof. split; intros e d; apply code_ok. Qed.

#[local] Instance codec_total : IdCodecTotal.
Proof. split; intros; apply code_total. Qed.

(** No graph and no SQL mirror. *)
#[local] Instance no_projections : Projections unit := {|
  index_graph_chunk p _ _ _ := (Ok tt, p);
  delete_graph_chunk p _ _ := (Ok tt, p);
  index_sql_metadata p _ _ _ := p;
  delete_sql_metadata p _ := p;
|}.

Definition cfg : Config := mkConfig "docs" (λ _, false) acl_default None.

Definition empty_index : MockIndex :=
  mkMock ∅ ∅ (tombstone_new 1024) 0 2 true false.

Abbreviation mem_service := (Service MockIndex (RocksDbBackend MemDB) unit).

Definition start : mem_service := mkService empty_index empty_store bm25_new ∅ ∅ tt.

Lemma empty_index_wf : mock_wf empty_index.
Proof. by apply (mock_new_wf 2 1024). Qed.

Lemma start_wf : service_wf cfg start.
Proof.
  split; [apply empty_index_wf|]. split; [|apply new_lex_wf]. intros id i. vm_compute. discriminate.
Qed.

Definition insert_a : InsertRequest := mkInsert "docs" "a" [f32_one; f32_two] "" "alpha".
Definition now : clock := (10, 10, 10).

(** team-b tries to overwrite, update and delete the vector of team-a, and
    inserts a vector of its own. *)
Definition attack : list (AuthContext * request) :=
  [ (caller "team-b", RInsert (mkInsert "docs" "a" [f32_two; f32_two] "" "") (11, 11, 11));
    (caller "team-b", RUpdate (mkUpdate "docs" "a" [f32_two; f32_two] "") (12, 12, 12));
    (caller "team-b", RDelete (mkDelete "docs" "a") (13, 13, 13));
    (caller "team-b", RBatch (mkBatch "docs" [mkVectorMsg "b" [f32_one; f32_one] "" ""]) (λ _, now)) ].

Definition inserted : mem_service := (insert_inner cfg start (caller "team-a") insert_a now).2.

Lemma workspaces_do_not_interfere_witness :
  is_ok <$> (insert_inner cfg start (caller "team-a") insert_a now).1 = Some true ∧
  untouched cfg inserted (foldl (serve cfg) inserted attack) "a" ∧
  VectorIndex.visible (index (foldl (serve cfg) inserted attack)) "b" = Some [f32_one; f32_one].
Proof.
  split; [vm_compute; reflexivity|]. split; [|vm_compute; reflexivity].
  destruct (insert_inner cfg start (caller "team-a") insert_a now) as [[[resp|]|] svc0] eqn:E.
  - assert (svc0 = inserted) as -> by (unfold inserted; by rewrite E).
    apply (workspaces_do_not_interfere cfg start (caller "team-a") insert_a now resp inserted attack
             (caller "team-a") eq_refl start_wf E).
    + repeat constructor; vm_compute; discriminate.
    + reflexivity.
  - exfalso. apply (f_equal (λ p, is_ok <$> p.1)) in E. vm_compute in E. discriminate.
  - exfalso. apply (f_equal (λ p, is_ok <$> p.1)) in E. vm_compute in E. discriminate.
Defined.

(** The same vector, on a disk that is full. *)
Definition on_full_disk : Service MockIndex (RocksDbBackend FullDisk) unit :=
  mkService (index inserted) (mkBackend (mkFullDisk (sb_view (store inserted)))) (lexical inserted)
    (documents inserted) ∅ tt.

Lemma on_full_disk_wf : service_wf cfg on_full_disk.
Proof.
  assert (service_wf cfg inserted) as Hwf.
  { apply (serve_respects cfg start (caller "team-a") (RInsert insert_a now) start_wf). }
  exact Hwf.
Qed.

Lemma failed_write_hides_vector_witness :
  let svc' := (index_and_store cfg on_full_disk "a" [f32_two; f32_two] "" None (Some 0) now).2 in
  VectorIndex.visible (index on_full_disk) "a" = Some [f32_one; f32_two] ∧
  live_id cfg svc' "a" = Some 0 ∧ VectorIndex.visible (index svc') "a" = None.
Proof.
  split; [vm_compute; reflexivity|].
  pose proof (failed_write_hides_vector cfg on_full_disk "a" [f32_two; f32_two] "" None 0 now
    (StorageError "RocksDB synced batch write error: no space") on_full_disk_wf) as Hf.
  destruct (index_and_store _ _ _ _ _ _ _ _) as [r svc'].
  apply Hf; vm_compute; reflexivity.
Defined.

(** Two vectors inserted, one updated, one deleted. *)
Definition session : list (AuthContext * request) :=
  [ (caller "team-a", RInsert insert_a (1, 1, 1));
    (caller "team-a", RInsert (mkInsert "docs" "b" [f32_one; f32_one] "" "beta") (2, 2, 2));
    (caller "team-a", RUpdate (mkUpdate "docs" "a" [f32_two; f32_two] "") (3, 3, 3));
    (caller "team-a", RDelete (mkDelete "docs" "b") (4, 4, 4)) ].

Lemma projections_agree_witness :
  VectorIndex.visible (index (foldl (serve cfg) start session)) "a" = Some [f32_two; f32_two] ∧
  ¬ absent cfg (foldl (serve cfg) start session) "a" ∧
  (absent cfg (foldl (serve cfg) start session) "b" ∨
   ∃ i v metadata text, holds cfg (foldl (serve cfg) start session) "b" i v metadata text).
Proof.
  split; [vm_compute; reflexivity|]. split; [intros (_ & E & _); vm_compute in E; discriminate|].
  assert (vi_wf (index start)) as Hx by apply empty_index_wf.
  assert (∀ id, VectorIndex.visible (index start) id = None) as Hi by (intros id; vm_compute; reflexivity).
  destruct (projections_agree cfg start session empty_store_view Hx Hi eq_refl (new_lists _ _) "b")
    as [Hb | (i & v & metadata & text & Hh & _)]; [by left|right; eauto].
Defined.
End ServiceExamples.
